(* ===== verification/_CoqProject ===== *)
-Q . S2P
Prelude.v
Effects.v
Lists.v
Utf8.v
MuxTypes.v
MuxWire.v
MuxChannel.v
MuxChannelInv.v
MuxPair.v
MuxPairThms.v
MuxCore.v
MuxCoreInv.v
MuxCoreThms.v
Codec.v
LinkPolicy.v
LinkState.v
LinkThms.v
Text.v
SecretTemplate.v
IpAddr.v
NetPolicy.v
NetPolicyThms.v
NetProxy.v
NetProxyThms.v
RepoPolicy.v
RepoStore.v
RepoPushes.v
RepoPublish.v
RepoThms.v
RepoProps.v
Store.v
StoreThms.v
ChatTypes.v
ChatReduce.v
ChatStorage.v
ChatUsage.v
ChatLayer.v
ChatState.v
ChatDurable.v
ChatInv.v
ChatProps.v
ChatEvents.v
ChatIngest.v
ChatUsageThms.v
ShareTypes.v
ShareIndex.v
ShareFs.v
ShareInv.v
ShareKeeps.v
ShareProps.v
ShareChanges.v
ShareView.v
ShareSpec.v
ShareGate.v
Outage.v
PodTypes.v
PodStore.v
PodReads.v
PodSafe.v
PodOps.v
PodIds.v
PodDown.v
PodRecover.v
PodRefine.v
PodCreate.v
PodProps.v
OverlayTypes.v
OverlayHost.v
OverlayService.v
OverlaySafe.v
OverlayTree.v
OverlayExact.v
OverlayLeases.v
OverlayApprovals.v
OverlayProps.v
HostopPlan.v
HostopService.v
HostopProps.v
AuthService.v
AuthProps.v
