(* ===== verification/Prelude.v ===== *)
(** * Tascarrel verification library

    Tascarrel runs coding agents in workspace virtual machines.  A host daemon
    ([hostd]) supervises one guest daemon ([guestd]) per workspace, which runs
    pods; every boundary between them is crossed by messages on a multiplexed
    character stream, and everything a pod sends to the network passes a policy
    on the host.  Inside the guest the chats with those agents are kept in a
    database and replicated to every client, directories of the host are shared
    copy-on-write, with the changes of a pod reviewed and applied on the host, and
    images and pods live in subvolumes of a Btrfs store.  A pod can also ask for a
    configured command to be run on the host, which a user approves.  Browsers sign in with
    a key that a local administrator creates.  This library models
    the code that carries that boundary and that state, and proves what it promises.
    Paths below are relative to [src/crates/libs] unless they start with [guestd], which
    stands for [src/crates/apps/tascarrel-guestd/src].

    ** How code is modelled

    A Rust integer is a [Z] in its range, with [checked_add], [checked_sub] and
    the saturating forms written out; [usize] has 64 bits.  A byte slice or string
    is a list of bytes.  A fallible function returns an [outcome]: [Ok], [Err], or
    [Panic] for a failed [expect], an [unreachable!] or an overflow, so that the
    absence of panics is a theorem and not an assumption.  A structure behind a
    mutex is a record threaded through the operation; the wakers an operation
    wakes and the notifications it sends are part of its result.  Operations hold
    the lock for their whole body, so interleavings are sequences of operations;
    where an operation is split by an await, so is its model.

    ** Files

    - [Prelude]: integers, bytes, outcomes, record update, tactics, hint databases
      and the lemmas the other files share.  [Utf8]: validation and lossy decoding
      of UTF-8.  [Text]: the string-slice operations of the standard library.
      [IpAddr]: addresses, their classes and their parser.  [Lists]: positions,
      upserts and sorted lists with unique keys.  [Effects]: programs over a
      persistent state in which every system call may fail, and the program logics
      used for them (a triple that holds whatever fails, a preservation predicate,
      and [succeeds] for runs without faults).
    - The multiplexer, [tascarrel-mux].  [MuxTypes] holds roles, configuration and
      errors ([lib.rs]); [MuxWire] the frames, their reader and writer and the
      probe handshake ([protocol.rs]).  [MuxChannel] is the state of one channel
      ([ChannelInner]) and, for each function of [connection.rs] and [driver.rs]
      that touches it, the part that does: the application's polls, the frame
      handlers, the writer's selection and the completion of a written frame.
      [MuxChannelInv] is its invariant.  [MuxPair] composes two endpoints of one
      channel with the transports between them as a step relation and proves the
      invariant of every reachable state; [MuxPairThms] draws the conclusions.
      [MuxCore] is the connection ([CoreInner]): the registry of channels, of
      pending requests and of tombstones, the handles' calls, and [process_frame]
      with its handlers, and the writer ([select_frame], [complete_frame], the two
      rotations and the control burst).  [MuxCoreInv] is the connection's invariant,
      [MuxCoreThms] has the theorems.
    - Messages, [tascarrel-protocol].  [Codec] is the framing of [codec.rs] with
      serialization as an interface.  [LinkPolicy] has the actors and the policy of
      each link of the daemon topology ([control_plane/policy]); [LinkState] the
      lifecycle and credit state of a link ([control_plane/state.rs]), proved
      against the [Policy] interface; [LinkThms] its theorems.
    - The network boundary, [tascarrel-hostd/src/services].  [SecretTemplate] has
      secret references and templates ([secrets]).  [NetPolicy] loads and validates
      a policy, answers its queries and admits TCP flows ([network/policy.rs],
      [network/transport.rs]); [NetProxy] makes the HTTP mediator's decisions
      ([network/proxy.rs], [network/graphql.rs]) over the [HeaderMap] interface;
      [NetPolicyThms] and [NetProxyThms] hold the theorems.
    - Publication of pushes, [tascarrel-hostd/src/services/repositories].
      [RepoPolicy] compiles push policies and decides by them ([policy.rs], with
      the identifiers of [tascarrel-git/src/types.rs]); [RepoStore] is the approval
      store ([approval.rs]) and [RepoPushes] the push status store ([push.rs]), as
      programs over a directory in which every system call may fail; [RepoPublish]
      is the part of [manager.rs] that completes pushes and publishes or rejects
      approvals.  [RepoThms] has the stores' invariants, [RepoProps] the properties.
    - Replication, [tascarrel-store/src/lib.rs].  [Store] is the journal with its
      stamps and bounded history, the stream of a subscription split at its awaits,
      and the cache of a client; [StoreThms] composes them as a step relation.
    - Chats, [guestd/services/chats/state].  [ChatTypes] has the data
      ([tascarrel-api/schemas/chats.sidex]) and the events of a harness
      ([harness/protocol.rs]); [ChatReduce] the reducers of [layer.rs], what of a
      mutation is stored, and materialization; [ChatStorage] the tables of
      [storage.rs] with the constraints of the migrations; [ChatLayer] the
      [StateLayer], which applies a mutation to the tables and to the in-memory
      stores; [ChatState] the operations of [mod.rs], among them the reconciliation
      of harness events; [ChatUsage] costs and usage reports ([cost.rs],
      [usage.rs]).  [ChatDurable] relates tables and memory, [ChatInv] is the
      invariant of the layer; [ChatProps] has the step relation of operations and
      restarts and, with [ChatEvents] (what events mean), [ChatIngest] and
      [ChatUsageThms], the properties.
    - Shares, [tascarrel-sharefs/src]: a copy-on-write view of a host directory.
      [ShareTypes] has the data ([types.rs], [error.rs]), paths, and what the operating
      system answers for the lower directory ([filesystem/support.rs]); [ShareIndex] the
      namespace database with its constraints and transactions ([state/mod.rs]);
      [ShareFs] the operations of [filesystem/mod.rs] and [filesystem/interface.rs] over
      index, object files and a lower directory that the host may edit before every
      system call; [ShareGate] the monitor that a freeze closes.  [ShareInv] is the
      invariant of the index and its preservation by each transaction, [ShareKeeps] that
      of the whole share under failures; [ShareProps] has the step relation and recovery,
      [ShareChanges] the enumeration of changes, [ShareView] the merged view as a
      function, [ShareSpec] the refinement of writes and runs that go wrong.
    - The pod and image store, [guestd/runtime/pod].  [Outage] has programs whose process
      may stop at every system call and whose commands may fail or be cut off with part of
      their work done, with a logic of triples that have a condition for a stop;
      [PodTypes] has identifiers ([id.rs]), manifests ([manifest.rs]) and configurations;
      [PodStore] the operations of [BtrfsStore] ([store.rs]) over the content of the store
      directory; [PodIds] where the paths of the store are.  [PodReads] has what holds
      whatever fails and the functions that reads compute in such a state; [PodSafe]
      proves that every operation keeps it; [PodOps] has requests and the reachable
      states, and shows that operations return.  [PodDown] has the abstract store and the
      states that a stop leaves, [PodRecover] the runs of helpers and recovery,
      [PodRefine] and [PodCreate] the refinement of each operation; [PodProps] has
      histories, the properties and runs that go wrong.
    - Changes of a share on the host, [tascarrel-hostd/src/services/share_overlays].
      [OverlayTypes] has the messages of the guest
      ([tascarrel-protocol/src/data_plane/workspace/share_overlays.rs]), their
      validation and what it establishes; [OverlayHost] the inspection, review and
      application in the shared directory, over file systems that other processes may
      change before every system call, with the logic of [Outage]; [OverlayService] the
      pending approvals, their records ([storage.rs]), the exchange with the guest and the
      subscriptions.  [OverlaySafe] says what no call can touch; [OverlayTree] has the tree
      of a share, [OverlayExact] what each call and all changes make of it, [OverlayLeases]
      which versions match; [OverlayApprovals] has the triples of the service and its
      histories, and [OverlayProps] the properties and runs that go wrong.
    - Commands on the host, [tascarrel-hostd/src/services/host_operations].  [HostopPlan]
      has the configured commands and operations ([tascarrel-api/schemas/config.sidex],
      [host_operations.sidex]), the plan that a request is turned into ([plan.rs]) and the
      catalog of commands ([catalog.rs]), with what they establish; [HostopService] the
      service ([mod.rs]) and its records, audits and output ([storage.rs]), as steps
      between which its tasks wait, each of whose system calls may fail or never return;
      [HostopProps] the invariant of its histories, the properties, the subscriptions and
      runs that go wrong.
    - Browsers, [tascarrel-hostd/src/services/auth].  [AuthService] has the key file,
      pairing keys, sessions, route tickets and grants, with their storage ([mod.rs],
      [storage.rs]); what follows an await is a task, and a request can be dropped before
      it.  [AuthProps] has the log of what was issued and revoked, the invariant that
      relates it to keys and tables, histories, and the properties.

    ** What the theorems show

    - Wire formats round trip, reject everything else from the header alone, and
      never panic ([MuxWire], [Codec]).
    - A channel is a reliable stream: for every interleaving of two endpoints no
      byte is lost, duplicated or reordered, end of stream comes after the last
      byte, a compliant peer is never refused, flow control cannot deadlock and a
      completed close leaves nothing on the transport ([MuxPairThms]).  These hold
      for schedules in which the reader does not overtake a WINDOW completion of
      its own writer; [window_race] is the schedule that breaks it.
    - A connection keeps every resource within its configuration whatever the peer
      sends, cannot panic, allocates disjoint identifiers, ignores frames that cross
      a close and delivers failures to everyone ([MuxCoreThms]).
    - The writer is fair and work conserving ([MuxCoreThms]).
    - A link delivers only openings its policy admitted, with the admitted context,
      never outruns subscription credit, and stays bounded ([LinkThms],
      [LinkPolicy]).
    - A published network policy is always well-formed and last-known-good; an
      admitted flow, relayed stream or forwarded request only reaches addresses and
      hosts the policy admits; secrets are written only into headers of requests
      their rule admits ([NetPolicyThms], [NetProxyThms]).
    - A push reaches its upstream only when the current policy allows every one of
      its references, or through an approval that is stored and claimed, and then
      with exactly the updates that were reviewed; a claim is exclusive, a request
      does not change while it is pending and a settled status stays settled,
      whatever system calls fail ([RepoProps]).
    - A client's replica of a store is always a value the store had, at the stamp it
      claims, and catches up within a bounded number of steps ([StoreThms]).
    - Chats survive: whatever operations, restarts and storage faults came before,
      opening the database succeeds and gives every chat back with its turns and
      timeline in place, exactly after a checkpoint; history never changes; the list
      of chats agrees with the chats; every operation does to the chats what its
      abstract counterpart says ([ChatProps]); an event is accepted exactly when a
      declarative specification of its kind admits it, and then has the effect that the
      specification gives ([ChatEvents], [ChatIngest]).  Costs are the exact rational
      cost rounded to the nearest unit, and a report partitions the recorded usage ([ChatUsageThms]).
    - A share survives: after any operations with any failures and host edits it opens
      again, with everything a path leads to and nothing else ([ShareProps]); its changes
      are enumerated in finite time and are exactly the overrides below its root
      ([ShareChanges]); writing, writing at an offset and truncating update one path of
      the merged view and no other ([ShareSpec]); a freeze excludes operations and loses
      no wakeup ([ShareGate]).
    - The pod store is crash safe: whatever fails, published images stay complete and
      read-only and the image of a pod stays; when calls run or stop, every history of
      processes is one of the abstract store, with the interrupted request done or not
      done, and the store opens again with that content; paths are disjoint and stay
      below the root ([PodProps], [PodIds]).
    - What a pod changed in a share reaches the host only as reviewed: paths that pass
      validation name entries below the share; an application follows neither a link nor
      the name of two dots out of it, touches nothing outside and writes to no existing
      file, whatever other processes do; an application that
      succeeds leaves exactly the approved tree, and one that reports conflicts changes
      nothing; the guest is told that a revision was applied only when the revision with
      the approved digest was; pending approvals survive and agree with their records
      ([OverlayProps]).
    - A process on the host runs only what was planned and approved: whatever fails, every
      process that was started has an approval in the audit of its operation, is started
      once, and is what the configuration makes of the request ([HostopProps]); values of
      parameters conform to their declarations and stay whole arguments ([HostopPlan]);
      an operation that ended stays as it ended, across crashes and restarts; subscribers
      receive the log and the list of operations as they are.
    - Whoever is authenticated holds a credential that was issued for a capability of the
      service, used at most once and before it expired, and that is neither revoked nor
      over; a route cookie works only for its route, host name and session
      ([AuthProps]).
    - Several theorems exhibit behaviour that the code does not mean to have:
      [window_race], [dropped_request_leaks], [rpc_cancel_race],
      [refused_subscription_race], [mapped_addresses_admitted],
      [trailing_dot_not_denied], [claim_sync_failure_leaks],
      [long_diagnostic_not_recorded], [changes_miss_visible_file],
      [readback_failure_corrupts], [listing_shows_hidden_names],
      [hidden_directory_resurrected], [replaced_file_unusable],
      [clear_leaves_objects], [stop_bricks_store], [failed_removal_unsafe],
      [seed_sync_failure_breaks_image], [interrupted_reset_loses_pod],
      [failed_rollback_breaks_listing], [staged_workspace_leaks],
      [interrupted_cache_mode], [removal_loses_host_edits], [failed_request_duplicated],
      [unfiled_request_stuck], [opaque_below_new_fails], [approval_lost],
      [torn_audit_stops_restart] and [torn_key].

    ** Bounds and fuel

    Loops over input are structural where the input shrinks by one and carry fuel
    otherwise: template parsing and replacement use the length of the text plus one
    (each turn consumes a non-empty marker), glob translation the length of the
    pattern plus one (each turn consumes a star), and the lemmas on them show that this
    never runs out.  The recursion of [collect_changes] is bounded by the number of nodes
    plus one and the recursive query for reachable nodes by the number of nodes; both
    bounds are proved to be enough for every index that satisfies the invariant.
    Hexadecimal digits have fuel for the widest integer.  Reading a file and removing a
    directory on the host carry the fuel [max_reads] and [max_depth], since another
    process can make either go on for ever; exactness asks that they exceed the size of
    the files and the depth of the tree, and running out counts as never returning, which
    the other theorems allow.  A subscription looks at most twice before it waits
    ([recv_current]).  No other bound is chosen:
    configurations, windows and inputs are arbitrary within their types.

    ** What is not modelled

    Sockets, TLS, processes and timers; the FUSE adapter of a share, the checks and the
    lock of its directories, and a lower file that changes while one call reads it; the
    locks of the pod store and what a power failure undoes of its effects (they reach the
    disk in order); the guest's encoding of a snapshot; serialization formats, regular
    expressions, header maps, base64, HMAC, JSON and GraphQL parsers, which are crates outside
    the repository and appear as parameters or interfaces with their documented laws; the
    daemons' other services (the runtime of pods, image builds, processes, virtual
    machines, configuration, automations, workspaces, port forwards), which
    arrange processes, sockets and external tools; the engine that supervises harness
    processes and the adaptors that translate their messages; Git and SQLite themselves,
    whose commands and transactions are system calls that succeed or fail as a whole;
    operations of two processes interleaved inside one another on the same store; the typed
    dispatcher on top of the control-plane link, whose handlers are generated types. *)

From stdpp Require Export base gmap sets list strings sorting pretty.
From Stdlib Require Export ZArith Lia.

#[global] Open Scope Z_scope.

(** ** Machine integers

    A Rust integer of width [w] is a [Z] inside its range; the operations that
    can leave the range are written out ([checked_add], [checked_sub],
    [saturating_add], [saturating_sub]).  [usize] is 64 bits wide: every
    supported target of the program is a 64-bit Linux or macOS machine. *)
Definition u8_max : Z := 2 ^ 8 - 1.
Definition u16_max : Z := 2 ^ 16 - 1.
Definition u32_max : Z := 2 ^ 32 - 1.
Definition u64_max : Z := 2 ^ 64 - 1.
Definition usize_max : Z := u64_max.

Definition in_range (m x : Z) : Prop := 0 <= x <= m.
Definition fits (m x : Z) : bool := (0 <=? x) && (x <=? m).

Definition checked_add (m x y : Z) : option Z :=
  if x + y <=? m then Some (x + y) else None.
Definition checked_sub (x y : Z) : option Z :=
  if y <=? x then Some (x - y) else None.
Definition saturating_add (m x y : Z) : Z := Z.min m (x + y).
Definition saturating_sub (x y : Z) : Z := Z.max 0 (x - y).

(** [try_from] between unsigned widths. *)
Definition try_from (m x : Z) : option Z := if x <=? m then Some x else None.

(** ** Bytes and strings

    A [Vec<u8>], a [&[u8]], a [String] and a [&str] are all byte lists; a Rust
    string additionally satisfies [Utf8.valid].  [str] writes the bytes of an
    ASCII literal. *)
Abbreviation bytes := (list Z).

Fixpoint str (s : string) : bytes :=
  match s with
  | EmptyString => []
  | String c s' => Z.of_N (Ascii.N_of_ascii c) :: str s'
  end.
Arguments str s%_string_scope : simpl never.

Definition byte_ok (b : Z) : Prop := 0 <= b < 256.
Definition bytes_ok (bs : bytes) : Prop := Forall byte_ok bs.

(** The length of a list as an integer ([len()]). *)
Definition len {A} (l : list A) : Z := Z.of_nat (length l).
(** Slices [&l[..n]] and [&l[n..]] with an integer bound. *)
Definition takez {A} (n : Z) (l : list A) : list A := take (Z.to_nat n) l.
Definition dropz {A} (n : Z) (l : list A) : list A := drop (Z.to_nat n) l.

(** ** Outcomes

    A fallible Rust function returns [Ok] or [Err]; a failed [expect], a
    division by zero or an arithmetic overflow is a [Panic]. *)
Inductive outcome (E A : Type) : Type :=
| Ok (a : A)
| Err (e : E)
| Panic (msg : string).
Arguments Ok {E A} a.
Arguments Err {E A} e.
Arguments Panic {E A} msg.
#[export] Instance outcome_eq_dec {E A} `{EqDecision E, EqDecision A} : EqDecision (outcome E A).
Proof. solve_decision. Defined.

Definition no_panic {E A} (o : outcome E A) : Prop :=
  match o with Panic _ => False | _ => True end.

Definition is_ok {E A} (o : outcome E A) : bool :=
  match o with Ok _ => true | _ => false end.

Definition obind {E A B} (o : outcome E A) (k : A -> outcome E B) : outcome E B :=
  match o with Ok a => k a | Err e => Err e | Panic m => Panic m end.

(** [option::ok_or] and [option::expect]. *)
Definition ok_or {E A} (o : option A) (e : E) : outcome E A :=
  match o with Some a => Ok a | None => Err e end.
Definition expect {E A} (o : option A) (msg : string) : outcome E A :=
  match o with Some a => Ok a | None => Panic msg end.
Lemma ok_or_Ok {E A} (o : option A) (e : E) a : ok_or o e = Ok a <-> o = Some a.
Proof. split; [by destruct o as [x|]; intros [= ->]|by intros ->]. Qed.

Declare Scope tsc_scope.
Delimit Scope tsc_scope with tsc.
(** Rust's [?] on a pure outcome. *)
Notation "'let?' x ':=' c 'in' k" := (obind c (fun x => k))
  (at level 10, x pattern, c at level 100, k at level 200) : tsc_scope.
#[global] Open Scope tsc_scope.

(** [iter.map(f).collect::<Result<Vec<_>, _>>()]: the first error wins. *)
Fixpoint collect {E A B} (f : A -> outcome E B) (l : list A) : outcome E (list B) :=
  match l with
  | [] => Ok []
  | x :: l' => let? y := f x in let? ys := collect f l' in Ok (y :: ys)
  end.

(** ** Record update

    [r <| f := v |>] is the record [r] with field [f] replaced.  A record type
    opts in with an [Eta] instance, its eta-expansion. *)
Class Eta (R : Type) := eta : R -> R.
Class Setter {R T : Type} (proj : R -> T) := setter : (T -> T) -> R -> R.
Definition set {R T : Type} (proj : R -> T) `{!Setter proj} (f : T -> T) (r : R) : R :=
  setter f r.
Arguments set {R T} proj {_} f r : simpl nomatch.

Ltac build_setter :=
  lazymatch goal with
  | |- @Setter ?R ?T ?proj =>
      let inst := constr:(_ : Eta R) in
      let f := fresh "f" in
      let x := fresh "x" in
      refine (fun (f : T -> T) (x : R) => _);
      let body := eval hnf in (@eta R inst x) in
      let ab := eval pattern (proj x) in body in
      lazymatch ab with
      | ?g _ => let r := eval cbv beta in (g (f (proj x))) in exact r
      end
  end.
#[export] Hint Extern 1 (Setter _) => build_setter : typeclass_instances.

Notation "r <| f := v |>" := (set f (fun _ => v) r)
  (at level 1, f at next level, left associativity) : tsc_scope.

(** ** Hint databases and tactics *)
Create HintDb tsc discriminated.
Create Rewrite HintDb tsc_len.

(** Splits every hypothesis that is a conjunction and closes arithmetic. *)
Ltac destr_and := repeat match goal with H : _ /\ _ |- _ => destruct H end.
(** Case analysis on the scrutinee of a [match] in the goal or a hypothesis. *)
Ltac case_goal :=
  match goal with
  | |- context [match ?x with _ => _ end] => destruct x eqn:?
  end.
Ltac case_hyp H :=
  match type of H with
  | context [match ?x with _ => _ end] => destruct x eqn:?
  end.
(** Turns boolean comparisons of the code into propositions. *)
Ltac bool_prop :=
  repeat match goal with
  | H : (_ && _) = true |- _ => apply andb_true_iff in H; destruct H
  | H : (_ || _) = false |- _ => apply orb_false_iff in H; destruct H
  | H : negb _ = true |- _ => apply negb_true_iff in H
  | H : negb _ = false |- _ => apply negb_false_iff in H
  | H : (_ =? _) = true |- _ => apply Z.eqb_eq in H
  | H : (_ =? _) = false |- _ => apply Z.eqb_neq in H
  | H : (_ <=? _) = true |- _ => apply Z.leb_le in H
  | H : (_ <=? _) = false |- _ => apply Z.leb_gt in H
  | H : (_ <? _) = true |- _ => apply Z.ltb_lt in H
  | H : (_ <? _) = false |- _ => apply Z.ltb_ge in H
  | H : (_ >=? _) = true |- _ => rewrite Z.geb_leb in H
  | H : (_ >=? _) = false |- _ => rewrite Z.geb_leb in H
  | H : (_ >? _) = true |- _ => rewrite Z.gtb_ltb in H
  | H : (_ >? _) = false |- _ => rewrite Z.gtb_ltb in H
  | H : bool_decide _ = true |- _ => apply bool_decide_eq_true_1 in H
  | H : bool_decide _ = false |- _ => apply bool_decide_eq_false_1 in H
  end.

(** ** Generic lemmas *)
Lemma checked_add_Some m x y z : checked_add m x y = Some z <-> z = x + y /\ x + y <= m.
Proof. unfold checked_add. case_match; bool_prop; split; intros; destr_and; simplify_eq; try done; try split; try f_equal; lia. Qed.
Lemma checked_add_ok m x y : x + y <= m -> checked_add m x y = Some (x + y).
Proof. intros. by apply checked_add_Some. Qed.
Lemma checked_sub_Some x y z : checked_sub x y = Some z <-> z = x - y /\ y <= x.
Proof. unfold checked_sub. case_match; bool_prop; split; intros; destr_and; simplify_eq; try done; try split; try f_equal; lia. Qed.
Lemma checked_sub_None x y : checked_sub x y = None <-> x < y.
Proof. unfold checked_sub. case_match; bool_prop; split; intros; try done; lia. Qed.
Lemma try_from_Some m x y : try_from m x = Some y <-> y = x /\ x <= m.
Proof. unfold try_from. case_match; bool_prop; split; intros; destr_and; simplify_eq; try done; try split; try f_equal; lia. Qed.

Lemma len_nil {A} : len (@nil A) = 0.
Proof. done. Qed.
Lemma len_cons {A} (x : A) l : len (x :: l) = 1 + len l.
Proof. unfold len. cbn [length]. lia. Qed.
Lemma len_app {A} (l k : list A) : len (l ++ k) = len l + len k.
Proof. unfold len. rewrite length_app. lia. Qed.
Lemma len_nonneg {A} (l : list A) : 0 <= len l.
Proof. unfold len. lia. Qed.
Lemma len_0 {A} (l : list A) : len l = 0 -> l = [].
Proof. destruct l; [done|]. rewrite len_cons. pose proof (len_nonneg l). lia. Qed.
Lemma len_takez {A} n (l : list A) : 0 <= n -> len (takez n l) = Z.min n (len l).
Proof. unfold len, takez. rewrite length_take. lia. Qed.
Lemma len_dropz {A} n (l : list A) : 0 <= n -> len (dropz n l) = Z.max 0 (len l - n).
Proof. unfold len, dropz. rewrite length_drop. lia. Qed.
Lemma takez_dropz {A} n (l : list A) : takez n l ++ dropz n l = l.
Proof. apply take_drop. Qed.
Lemma takez_app_len {A} (l k : list A) n : n = len l -> takez n (l ++ k) = l.
Proof. intros ->. unfold takez, len. rewrite Nat2Z.id. apply take_app_length. Qed.
Lemma dropz_app_len {A} (l k : list A) n : n = len l -> dropz n (l ++ k) = k.
Proof. intros ->. unfold dropz, len. rewrite Nat2Z.id. apply drop_app_length. Qed.
Lemma takez_ge {A} n (l : list A) : len l <= n -> takez n l = l.
Proof. unfold len, takez. intros. apply take_ge. lia. Qed.
Lemma dropz_ge {A} n (l : list A) : len l <= n -> dropz n l = [].
Proof. unfold len, dropz. intros. apply drop_ge. lia. Qed.

#[export] Hint Rewrite @len_nil @len_cons @len_app : tsc_len.

Lemma obind_Ok {E A B} (o : outcome E A) (k : A -> outcome E B) b :
  obind o k = Ok b <-> exists a, o = Ok a /\ k a = Ok b.
Proof. destruct o; naive_solver. Qed.

Lemma collect_Ok {E A B} (f : A -> outcome E B) l ys :
  collect f l = Ok ys <-> Forall2 (fun x y => f x = Ok y) l ys.
Proof.
  revert ys. induction l as [|x l IH]; intros ys; cbn.
  - split; [intros [= <-]; constructor | inversion 1; done].
  - rewrite obind_Ok. setoid_rewrite obind_Ok. setoid_rewrite IH. split.
    + intros (y & ? & ys' & ? & [= <-]). by constructor.
    + inversion 1; subst. eauto.
Qed.

Lemma bytes_ok_app a b : bytes_ok (a ++ b) <-> bytes_ok a /\ bytes_ok b.
Proof. apply Forall_app. Qed.
Lemma str_ok s : bytes_ok (str s).
Proof.
  induction s as [|c s IH]; [constructor|]. constructor; [|done].
  unfold byte_ok. pose proof (Ascii.N_ascii_bounded c). lia.
Qed.

(** ** Network byte order

    [u16::to_be_bytes], [u32::to_be_bytes] and their inverses, on [n] bytes. *)
Fixpoint to_be_bytes (n : nat) (x : Z) : bytes :=
  match n with
  | O => []
  | S n' => Z.shiftr x (8 * Z.of_nat n') mod 256 :: to_be_bytes n' x
  end.
Definition from_be_bytes (bs : bytes) : Z :=
  fold_left (fun acc b => acc * 256 + b) bs 0.

Lemma length_to_be_bytes n x : length (to_be_bytes n x) = n.
Proof. induction n; cbn; congruence. Qed.
Lemma len_to_be_bytes n x : len (to_be_bytes n x) = Z.of_nat n.
Proof. unfold len. by rewrite length_to_be_bytes. Qed.
#[export] Hint Rewrite len_to_be_bytes : tsc_len.
Lemma to_be_bytes_ok n x : bytes_ok (to_be_bytes n x).
Proof.
  induction n; constructor; [|done]. unfold byte_ok. apply Z.mod_pos_bound. lia.
Qed.

Lemma fold_be acc n x :
  fold_left (fun a b => a * 256 + b) (to_be_bytes n x) acc
  = acc * 2 ^ (8 * Z.of_nat n) + x mod 2 ^ (8 * Z.of_nat n).
Proof.
  revert acc. induction n as [|n IH]; intros acc.
  - cbn. rewrite Z.mod_1_r. lia.
  - cbn [to_be_bytes fold_left]. rewrite IH.
    set (k := 8 * Z.of_nat n).
    replace (8 * Z.of_nat (S n)) with (k + 8) by lia.
    rewrite Z.pow_add_r, (Z.shiftr_div_pow2 x k) by lia.
    assert (0 < 2 ^ k) by (apply Z.pow_pos_nonneg; lia).
    change (2 ^ 8) with 256.
    rewrite (Z.rem_mul_r x (2 ^ k) 256) by lia. lia.
Qed.

Lemma from_to_be_bytes n x :
  0 <= x < 2 ^ (8 * Z.of_nat n) -> from_be_bytes (to_be_bytes n x) = x.
Proof. intros. unfold from_be_bytes. rewrite fold_be, Z.mod_small; lia. Qed.

Lemma from_be_bytes_bound bs :
  bytes_ok bs -> 0 <= from_be_bytes bs < 2 ^ (8 * len bs).
Proof.
  intros Hok. unfold from_be_bytes.
  assert (Hg : forall acc, 0 <= acc ->
    0 <= fold_left (fun a b => a * 256 + b) bs acc < (acc + 1) * 2 ^ (8 * len bs)).
  { induction bs as [|b bs IH]; intros acc ?.
    - cbn. unfold len; cbn. lia.
    - inversion Hok as [|? ? Hb]; subst. cbn [fold_left].
      unfold byte_ok in Hb.
      specialize (IH ltac:(done) (acc * 256 + b) ltac:(lia)).
      rewrite len_cons. replace (8 * (1 + len bs)) with (8 + 8 * len bs) by lia.
      pose proof (len_nonneg bs).
      rewrite Z.pow_add_r by lia. change (2 ^ 8) with 256.
      assert (0 < 2 ^ (8 * len bs)) by (apply Z.pow_pos_nonneg; lia). nia. }
  specialize (Hg 0 ltac:(lia)). lia.
Qed.

Lemma fold_be_acc bs acc :
  fold_left (fun a b => a * 256 + b) bs acc = acc * 2 ^ (8 * len bs) + from_be_bytes bs.
Proof.
  unfold from_be_bytes. revert acc. induction bs as [|b bs IH]; intros acc.
  - cbn. unfold len; cbn. lia.
  - cbn [fold_left]. rewrite IH, (IH (0 * 256 + b)), len_cons.
    pose proof (len_nonneg bs).
    replace (8 * (1 + len bs)) with (8 + 8 * len bs) by lia.
    rewrite Z.pow_add_r by lia. change (2 ^ 8) with 256. lia.
Qed.

Lemma to_from_be_acc bs acc :
  bytes_ok bs -> 0 <= acc ->
  to_be_bytes (length bs) (fold_left (fun a b => a * 256 + b) bs acc) = bs.
Proof.
  revert acc. induction bs as [|b bs IH]; intros acc Hok Hacc; [done|].
  inversion Hok as [|? ? Hb Hbs]; subst. unfold byte_ok in Hb. cbn [length to_be_bytes fold_left].
  f_equal; [|apply IH; [done|lia]].
  rewrite fold_be_acc, Z.shiftr_div_pow2 by lia. fold (len bs).
  pose proof (from_be_bytes_bound _ Hbs).
  assert (0 < 2 ^ (8 * len bs)) by (apply Z.pow_pos_nonneg; pose proof (len_nonneg bs); lia).
  rewrite Z.div_add_l, Z.div_small, Z.add_0_r by lia.
  rewrite Z.add_comm, Z_mod_plus_full. apply Z.mod_small. lia.
Qed.

Lemma to_from_be_bytes n bs :
  bytes_ok bs -> length bs = n -> to_be_bytes n (from_be_bytes bs) = bs.
Proof. intros ? <-. by apply to_from_be_acc. Qed.
#[global] Arguments to_be_bytes : simpl never.
