(* ===== verification/Effects.v ===== *)
(** * Operations that can fail

    A program over a state [D] in which calls to the outside (a system call, a
    database statement) may fail: every such call takes the next element of
    [faults], which says whether it fails, and theorems hold for every sequence of
    failures.  The second half is a program logic for such operations. *)

From S2P Require Import Prelude.

Section calls.
Context {D E : Type}.
(** A state and the outcomes of the fallible calls to come. *)
Record World := { dir : D; faults : list bool }.
Definition call (A : Type) : Type := World -> outcome E A * World.
Definition ret {A} (a : A) : call A := fun w => (Ok a, w).
Definition raise {A} (e : E) : call A := fun w => (Err e, w).
Definition andthen {A B} (m : call A) (k : A -> call B) : call B := fun w =>
  match m w with
  | (Ok a, w') => k a w'
  | (Err e, w') => (Err e, w')
  | (Panic s, w') => (Panic s, w')
  end.
(** Whether the next fallible call fails. *)
Definition next_fault : call bool := fun w =>
  match faults w with
  | b :: rest => (Ok b, {| dir := dir w; faults := rest |})
  | [] => (Ok false, w)
  end.
(** A call that fails with [e]. *)
Definition fallible (e : E) : call unit :=
  andthen next_fault (fun b => if b then raise e else ret tt).
Definition get : call D := fun w => (Ok (dir w), w).
Definition put (f : D -> D) : call unit := fun w => (Ok tt, {| dir := f (dir w); faults := faults w |}).
(** [if let Err(..) = m], the error being logged. *)
Definition attempt {A} (m : call A) : call (outcome E A) := fun w =>
  let '(r, w') := m w in (Ok r, w').
(** A pure fallible computation. *)
Definition of_outcome {A} (o : outcome E A) : call A := fun w => (o, w).
End calls.
(** [Result::map_err]. *)
Definition map_err {D E F A} (f : E -> F) (m : World (D:=D) -> outcome E A * World (D:=D)) : World (D:=D) -> outcome F A * World (D:=D) :=
  fun w => match m w with
           | (Ok a, w') => (Ok a, w')
           | (Err e, w') => (Err (f e), w')
           | (Panic s, w') => (Panic s, w')
           end.
Arguments World : clear implicits.
Arguments call : clear implicits.
Notation "'do' x <- m ; k" := (andthen m (fun x => k)) (at level 200, x pattern, right associativity) : tsc_scope.
Notation "'do!' m ; k" := (andthen m (fun _ => k)) (at level 200, right associativity) : tsc_scope.

(** ** Triples

    [triple P m Q E]: from a directory satisfying [P], and whatever system calls
    fail, [m] ends with a value and a directory satisfying [Q], or with an error
    and a directory satisfying [E]. *)
Section logic.
Context {D Fail : Type}.
Implicit Types (P E : D -> Prop).

Definition triple {A} P (m : call D Fail A) (Q : A -> D -> Prop) E : Prop :=
  forall w, P (dir w) -> match m w with (Ok a, w') => Q a (dir w') | (_, w') => E (dir w') end.

Lemma triple_use {A} P (m : call D Fail A) Q E w r w' :
  triple P m Q E -> P (dir w) -> m w = (r, w') ->
  match r with Ok a => Q a (dir w') | _ => E (dir w') end.
Proof. intros T H X. specialize (T w H). rewrite X in T. by destruct r. Qed.
Lemma triple_ret {A} P (a : A) (Q : A -> D -> Prop) E : (forall d, P d -> Q a d) -> triple P (ret a) Q E.
Proof. intros H w. apply H. Qed.
Lemma triple_raise {A} P e (Q : A -> D -> Prop) E : (forall d, P d -> E d) -> triple P (raise e) Q E.
Proof. intros H w. apply H. Qed.
Lemma triple_panic {A} P s (Q : A -> D -> Prop) E : (forall d, P d -> E d) -> triple P (fun w => (Panic s, w)) Q E.
Proof. intros H w. apply H. Qed.
Lemma triple_bind {A B} P (m : call D Fail A) (k : A -> call D Fail B) R Q E :
  triple P m R E -> (forall a, triple (R a) (k a) Q E) -> triple P (andthen m k) Q E.
Proof.
  intros Hm Hk w H. specialize (Hm w H). unfold andthen.
  destruct (m w) as [[a|e|s] w']; [by apply (Hk a)|done|done].
Qed.
Lemma triple_weaken {A} P P' (m : call D Fail A) (Q Q' : A -> D -> Prop) E E' :
  triple P m Q E -> (forall d, P' d -> P d) -> (forall a d, Q a d -> Q' a d) -> (forall d, E d -> E' d) ->
  triple P' m Q' E'.
Proof.
  intros T Hp Hq He w H. specialize (T w (Hp _ H)). destruct (m w) as [[a|e|s] w']; auto.
Qed.
(** Facts and witnesses of the assertion. *)
Lemma triple_pure {A} (X : Prop) P (m : call D Fail A) Q E :
  (X -> triple P m Q E) -> triple (fun d => X /\ P d) m Q E.
Proof. intros T w [H1 H2]. by apply T. Qed.
Lemma triple_exists {A B} (P : B -> D -> Prop) (m : call D Fail A) Q E :
  (forall b, triple (P b) m Q E) -> triple (fun d => exists b, P b d) m Q E.
Proof. intros T w [b H]. by apply (T b). Qed.
Lemma triple_conj {A} P P' (m : call D Fail A) (Q Q' : A -> D -> Prop) E E' :
  triple P m Q E -> triple P' m Q' E' ->
  triple (fun d => P d /\ P' d) m (fun a d => Q a d /\ Q' a d) (fun d => E d /\ E' d).
Proof. intros T T' w [H H']. specialize (T w H). specialize (T' w H'). by destruct (m w) as [[]]. Qed.
(** Naming the initial state. *)
Lemma triple_at {A} P (m : call D Fail A) Q E :
  (forall d, P d -> triple (fun d' => d' = d) m Q E) -> triple P m Q E.
Proof. intros T w H. by apply (T (dir w)). Qed.
(** Sequencing, when the first part fails with more than is needed. *)
Lemma triple_seq {A B} P (m : call D Fail A) (k : A -> call D Fail B) R Q E E' :
  triple P m R E' -> (forall d, E' d -> E d) -> (forall a, triple (R a) (k a) Q E) ->
  triple P (andthen m k) Q E.
Proof.
  intros Hm He Hk. eapply triple_bind; [|exact Hk]. by eapply triple_weaken.
Qed.
Lemma triple_fault P : triple P next_fault (fun _ => P) P.
Proof. intros w H. unfold next_fault. by destruct (faults w). Qed.
Lemma triple_fallible P e : triple P (fallible e) (fun _ => P) P.
Proof.
  eapply triple_bind; [apply triple_fault|]. intros []; [by apply triple_raise|by apply triple_ret].
Qed.
Lemma triple_get P : triple P get (fun a d => a = d /\ P d) P.
Proof. by intros w H. Qed.
Lemma triple_put P f (Q : unit -> D -> Prop) E : (forall d, P d -> Q tt (f d)) -> triple P (put f) Q E.
Proof. intros H w. apply H. Qed.
Lemma triple_attempt {A} P (m : call D Fail A) R E :
  triple P m R E ->
  triple P (attempt m) (fun r d => match r with Ok a => R a d | _ => E d end) E.
Proof.
  intros T w H. specialize (T w H). unfold attempt. destruct (m w) as [[a|e|s] w']; done.
Qed.
(** An operation that keeps [P] whatever happens. *)
Definition keeps {A} P (m : call D Fail A) : Prop := triple P m (fun _ => P) P.
Lemma keeps_after {A : Type} P (m : call D Fail A) w : keeps P m -> P (dir w) -> P (dir (m w).2).
Proof. intros K H. specialize (K w H). by destruct (m w) as [[]]. Qed.
Lemma keeps_bind {A B} P (m : call D Fail A) (k : A -> call D Fail B) :
  keeps P m -> (forall a, keeps P (k a)) -> keeps P (andthen m k).
Proof. apply triple_bind. Qed.
Lemma keeps_and {A} P P' (m : call D Fail A) : keeps P m -> keeps P' m -> keeps (fun d => P d /\ P' d) m.
Proof. apply triple_conj. Qed.
Lemma keeps_ret {A} P (a : A) : keeps P (ret a).
Proof. by apply triple_ret. Qed.
Lemma keeps_raise {A} P e : keeps P (raise e : call D Fail A).
Proof. by apply triple_raise. Qed.
Lemma keeps_panic {A} P s : keeps P ((fun w => (Panic s, w)) : call D Fail A).
Proof. by apply triple_panic. Qed.
Lemma keeps_get P : keeps P get.
Proof. eapply triple_weaken; [apply triple_get|..]; naive_solver. Qed.
Lemma keeps_fault P : keeps P next_fault.
Proof. apply triple_fault. Qed.
Lemma keeps_fallible P e : keeps P (fallible e).
Proof. apply triple_fallible. Qed.
Lemma triple_outcome {A} P (o : outcome Fail A) : triple P (of_outcome o) (fun a d => o = Ok a /\ P d) P.
Proof. intros w H. by destruct o. Qed.
Lemma keeps_outcome {A} P (o : outcome Fail A) : keeps P (of_outcome o).
Proof. intros w H. by destruct o. Qed.
Lemma keeps_put P f : (forall d, P d -> P (f d)) -> keeps P (put f).
Proof. intros. by apply triple_put. Qed.
Lemma keeps_attempt {A} P (m : call D Fail A) : keeps P m -> keeps P (attempt m).
Proof.
  intros T. eapply triple_weaken; [apply triple_attempt, T|done| |done]. by intros [] d.
Qed.
End logic.

Section errors.
Context {D Fail Fail' : Type}.
Implicit Types (P E : D -> Prop).
Lemma triple_map_err {A} P (f : Fail -> Fail') (m : call D Fail A) Q E :
  triple P m Q E -> triple (Fail := Fail') P (map_err f m) Q E.
Proof. intros T w H. specialize (T w H). unfold map_err. by destruct (m w) as [[]]. Qed.
Lemma keeps_map_err {A} P (f : Fail -> Fail') (m : call D Fail A) : keeps P m -> keeps (Fail := Fail') P (map_err f m).
Proof. apply triple_map_err. Qed.
End errors.

(** ** Success

    Without faults an operation returns a value; what holds then is a triple. *)
Section success.
Context {D Fail : Type}.
Implicit Types (P : D -> Prop).
Definition succeeds {A} P (m : call D Fail A) : Prop :=
  forall w, faults w = [] -> P (dir w) -> exists a w', m w = (Ok a, w') /\ faults w' = [].
Lemma succeeds_bind {A B} P (m : call D Fail A) (k : A -> call D Fail B) R E :
  succeeds P m -> triple P m R E -> (forall a, succeeds (R a) (k a)) -> succeeds P (andthen m k).
Proof.
  intros S T K w F H. destruct (S w F H) as (a & w' & E' & F'). unfold andthen. rewrite E'.
  apply K; [done|]. exact (triple_use _ _ _ _ _ _ _ T H E').
Qed.
Lemma succeeds_weaken {A} P P' (m : call D Fail A) : succeeds P m -> (forall d, P' d -> P d) -> succeeds P' m.
Proof. intros S H w F Hw. apply S; auto. Qed.
Lemma succeeds_exists {A B} (P : B -> D -> Prop) (m : call D Fail A) :
  (forall b, succeeds (P b) m) -> succeeds (fun d => exists b, P b d) m.
Proof. intros S w F [b H]. by apply (S b). Qed.
Lemma succeeds_pure {A} (X : Prop) P (m : call D Fail A) : (X -> succeeds P m) -> succeeds (fun d => X /\ P d) m.
Proof. intros S w F [H1 H2]. by apply S. Qed.
Lemma succeeds_at {A} P (m : call D Fail A) : (forall d, P d -> succeeds (fun d' => d' = d) m) -> succeeds P m.
Proof. intros S w F H. by apply (S (dir w)). Qed.
Lemma succeeds_ret {A} P (a : A) : succeeds P (ret a).
Proof. intros w F _. by exists a, w. Qed.
Lemma succeeds_get P : succeeds P get.
Proof. intros w F _. by exists (dir w), w. Qed.
Lemma succeeds_put P f : succeeds P (put f).
Proof. intros w F _. by eexists _, _. Qed.
Lemma succeeds_outcome {A} P (a : A) : succeeds P (of_outcome (Ok a)).
Proof. intros w F _. by eexists _, _. Qed.
Lemma succeeds_fallible P e : succeeds P (fallible e).
Proof. intros w F _. unfold fallible, andthen, next_fault. rewrite F. by eexists _, _. Qed.
End success.
Lemma succeeds_map_err {D Fail Fail' A} P (f : Fail -> Fail') (m : call D Fail A) :
  succeeds P m -> succeeds (Fail := Fail') P (map_err f m).
Proof. intros S w F H. destruct (S w F H) as (a & w' & E & F'). unfold map_err. rewrite E. by eexists _, _. Qed.

(** Goes through an operation that keeps an assertion; [keeps] facts and the
    effects of [put] are left. *)
Create HintDb keeps discriminated.
#[export] Hint Resolve @keeps_fault @keeps_fallible @keeps_outcome @keeps_get @keeps_ret @keeps_raise @keeps_panic : keeps.
Ltac as_keeps :=
  lazymatch goal with |- triple ?P ?m _ ?P => change (keeps P m) end.
Ltac walk :=
  repeat first
    [ progress (auto with keeps; fail)
    | apply keeps_bind; [|intros ?]
    | apply keeps_attempt
    | apply keeps_map_err
    | match goal with |- keeps _ (match ?x with _ => _ end) => destruct x eqn:? end
    | match goal with |- keeps _ (if ?x then _ else _) => destruct x eqn:? end ].
