(* ===== verification/Lists.v ===== *)
(** * Slices and vectors

    The operations of the standard library on vectors that the services share
    ([position], [sort_by], comparison of strings) and their lemmas. *)

From S2P Require Import Prelude.

(** [iter().position(p)]. *)
Fixpoint position {A} (p : A -> bool) (l : list A) : option nat :=
  match l with
  | [] => None
  | x :: l' => if p x then Some 0%nat else option_map S (position p l')
  end.
(** The idiom that replaces the element at its position or appends it. *)
Definition upsert {A} (p : A -> bool) (x : A) (l : list A) : list A :=
  match position p l with
  | Some i => <[i := x]> l
  | None => l ++ [x]
  end.

(** [slice::sort_by], stable; [le a b] is [cmp(a, b) != Greater]. *)
Fixpoint sort_into {A} (le : A -> A -> bool) (a : A) (l : list A) : list A :=
  match l with
  | [] => [a]
  | b :: l' => if le a b then a :: l else b :: sort_into le a l'
  end.
Definition sort_by {A} (le : A -> A -> bool) (l : list A) : list A := foldr (sort_into le) [] l.

(** [str::cmp]. *)
Fixpoint bytes_leb (a b : bytes) : bool :=
  match a, b with
  | [], _ => true
  | _ :: _, [] => false
  | x :: a', y :: b' => (x <? y) || ((x =? y) && bytes_leb a' b')
  end.

(** ** Positions *)
Lemma position_Some {A} (p : A -> bool) l i :
  position p l = Some i -> exists x, l !! i = Some x /\ p x = true.
Proof.
  revert i. induction l as [|x l IH]; intros i; cbn; [done|]. destruct (p x) eqn:P; [intros [= <-]; by exists x|].
  destruct (position p l) as [j|]; [|done]. intros [= <-]. by apply IH.
Qed.
Lemma position_None {A} (p : A -> bool) l : position p l = None <-> Forall (fun x => p x = false) l.
Proof.
  induction l as [|x l IH]; cbn; [done|]. rewrite Forall_cons, <- IH.
  destruct (p x) eqn:P; [naive_solver|]. destruct (position p l); naive_solver.
Qed.
Lemma position_lt {A} (p : A -> bool) l i : position p l = Some i -> (i < length l)%nat.
Proof. intros (x & E & _)%position_Some. by eapply lookup_lt_Some. Qed.
(** When keys are unique the position is determined by the key. *)
Lemma position_unique {A K} (f : A -> K) `{EqDecision K} l i x :
  NoDup (f <$> l) -> l !! i = Some x -> position (fun y => bool_decide (f y = f x)) l = Some i.
Proof.
  revert i. induction l as [|y l IH]; intros i N; [done|]. apply NoDup_cons in N as [Ny N]. destruct i as [|i]; cbn.
  - intros [= ->]. by rewrite bool_decide_true.
  - intros E. rewrite bool_decide_false.
    + by rewrite (IH i).
    + intros Ef. apply Ny. rewrite Ef. apply list_elem_of_fmap. exists x. split; [done|by eapply list_elem_of_lookup_2].
Qed.
Lemma position_key {A K} (f : A -> K) `{EqDecision K} k l :
  position (fun y => bool_decide (f y = k)) l = None <-> k ∉ f <$> l.
Proof.
  rewrite position_None, Forall_forall, list_elem_of_fmap. split.
  - intros H (x & -> & I). specialize (H x I). by apply bool_decide_eq_false in H.
  - intros H x I. apply bool_decide_eq_false. intros <-. apply H. by exists x.
Qed.
Lemma upsert_keys {A K} (f : A -> K) `{EqDecision K} x l :
  f <$> upsert (fun y => bool_decide (f y = f x)) x l
  = match position (fun y => bool_decide (f y = f x)) l with Some _ => f <$> l | None => (f <$> l) ++ [f x] end.
Proof.
  unfold upsert. destruct (position _ l) as [i|] eqn:P; [|by rewrite fmap_app].
  apply position_Some in P as (y & E & Q). bool_prop. rewrite list_fmap_insert.
  apply list_insert_id. by rewrite list_lookup_fmap, E, <- Q.
Qed.
Lemma upsert_NoDup {A K} (f : A -> K) `{EqDecision K} x l :
  NoDup (f <$> l) -> NoDup (f <$> upsert (fun y => bool_decide (f y = f x)) x l).
Proof.
  intros N. rewrite upsert_keys. destruct (position _ l) eqn:P; [done|]. apply position_key in P.
  apply NoDup_app. split_and!; [done|set_solver|apply NoDup_singleton].
Qed.
Lemma upsert_elem {A} (p : A -> bool) x l : x ∈ upsert p x l.
Proof.
  unfold upsert. destruct (position p l) as [i|] eqn:P; [|set_solver].
  apply list_elem_of_lookup. exists i. apply list_lookup_insert_eq. by eapply position_lt.
Qed.

Lemma lookup_key_unique {A K} (f : A -> K) l i j x y :
  NoDup (f <$> l) -> l !! i = Some x -> l !! j = Some y -> f x = f y -> i = j.
Proof.
  intros N Ex Ey E. apply (NoDup_lookup (f <$> l) _ _ (f x)); [done|..]; rewrite list_lookup_fmap; [by rewrite Ex|by rewrite Ey, E].
Qed.
Lemma elem_of_upsert {A K} (f : A -> K) `{EqDecision K} x l y :
  NoDup (f <$> l) -> y ∈ upsert (fun z => bool_decide (f z = f x)) x l <-> y = x \/ (y ∈ l /\ f y <> f x).
Proof.
  intros N. unfold upsert. destruct (position _ l) as [i|] eqn:P.
  - apply position_Some in P as (z & E & Kz). bool_prop. pose proof (lookup_lt_Some _ _ _ E). rewrite list_elem_of_lookup. split.
    + intros (j & Ej). destruct (decide (j = i)) as [->|Nj]; [rewrite list_lookup_insert_eq in Ej by done; left; congruence|].
      rewrite list_lookup_insert_ne in Ej by done. right. split; [by eapply list_elem_of_lookup_2|].
      intros Ey. apply Nj. eapply lookup_key_unique; [done..|congruence].
    + intros [->|((j & Ej)%list_elem_of_lookup & Ny)]; [exists i; by apply list_lookup_insert_eq|].
      exists j. rewrite list_lookup_insert_ne; [done|]. intros <-. congruence.
  - apply position_key in P. rewrite elem_of_app, list_elem_of_singleton. split; [|tauto].
    intros [I|?]; [|tauto]. right. split; [done|]. intros E. apply P. rewrite <- E. by apply list_elem_of_fmap_2.
Qed.

(** ** Sorting *)
Lemma sort_into_perm {A} (le : A -> A -> bool) a l : sort_into le a l ≡ₚ a :: l.
Proof.
  induction l as [|b l IH]; cbn; [done|]. destruct (le a b); [done|]. rewrite IH. apply Permutation_swap.
Qed.
Lemma sort_by_perm {A} (le : A -> A -> bool) l : sort_by le l ≡ₚ l.
Proof. induction l as [|a l IH]; cbn; [done|]. by rewrite sort_into_perm, IH. Qed.
Lemma length_sort_by {A} (le : A -> A -> bool) l : length (sort_by le l) = length l.
Proof. by rewrite sort_by_perm. Qed.

(** A comparison that [sort_by] accepts. *)
Class Comparison {A} (le : A -> A -> bool) : Prop := {
  cmp_total : forall a b, le a b = true \/ le b a = true;
  cmp_trans : forall a b c, le a b = true -> le b c = true -> le a c = true
}.
Lemma sort_into_sorted {A} (le : A -> A -> bool) `{!Comparison le} a l :
  StronglySorted le l -> StronglySorted le (sort_into le a l).
Proof.
  induction 1 as [|b l S IH F]; cbn; [repeat constructor|]. destruct (le a b) eqn:E.
  - constructor; [by constructor|]. constructor; [by rewrite E|]. eapply Forall_impl; [exact F|]. intros c H.
    apply Is_true_eq_true in H. apply Is_true_eq_left. by eapply cmp_trans.
  - constructor; [done|]. rewrite sort_into_perm. constructor; [|done].
    destruct (cmp_total a b) as [H|H]; [congruence|]. by rewrite H.
Qed.
Lemma sort_by_sorted {A} (le : A -> A -> bool) `{!Comparison le} l : StronglySorted le (sort_by le l).
Proof. induction l; cbn; [constructor|by apply sort_into_sorted]. Qed.
Lemma sort_by_id {A} (le : A -> A -> bool) l : StronglySorted le l -> sort_by le l = l.
Proof.
  induction 1 as [|a l S IH F]; [done|].
  change (sort_into le a (sort_by le l) = a :: l). rewrite IH. destruct l as [|b l]; [done|]. cbn.
  inversion F as [|? ? H _]; subst. apply Is_true_eq_true in H. by rewrite H.
Qed.

(** Two sorted permutations are equal when ties are equal. *)
Lemma sorted_unique {A} (le : A -> A -> bool) l k :
  (forall a b, a ∈ l -> b ∈ l -> le a b = true -> le b a = true -> a = b) ->
  l ≡ₚ k -> StronglySorted le l -> StronglySorted le k -> l = k.
Proof.
  revert k. induction l as [|a l IH]; intros k T P Sl Sk; [by apply Permutation_nil in P|].
  destruct k as [|b k]; [by symmetry in P; apply Permutation_nil in P|].
  inversion Sl as [|? ? Sl' Fl]; subst. inversion Sk as [|? ? Sk' Fk]; subst.
  assert (a = b) as <-.
  { assert (Ia : a ∈ b :: k) by (rewrite <- P; set_solver). assert (Ib : b ∈ a :: l) by (rewrite P; set_solver).
    apply elem_of_cons in Ia as [->|Ia]; [done|]. apply elem_of_cons in Ib as [->|Ib]; [done|].
    rewrite Forall_forall in Fl, Fk. apply T; [set_solver|set_solver|apply Is_true_eq_true..]; auto. }
  f_equal. apply IH; [intros; apply T; set_solver| |done|done]. by apply Permutation_cons_inv in P.
Qed.

(** ** Strings *)
Lemma bytes_leb_refl a : bytes_leb a a = true.
Proof. induction a as [|x a IH]; cbn; [done|]. by rewrite Z.eqb_refl, IH, orb_true_r. Qed.
Lemma bytes_leb_antisym a : forall b, bytes_leb a b = true -> bytes_leb b a = true -> a = b.
Proof.
  induction a as [|x a IH]; intros [|y b]; cbn; try done.
  intros [H|H]%orb_true_iff [K|K]%orb_true_iff; bool_prop; try lia. subst. f_equal. by apply IH.
Qed.
#[export] Instance bytes_leb_comparison : Comparison bytes_leb.
Proof.
  split.
  - induction a as [|x a IH]; intros [|y b]; cbn; try tauto.
    destruct (Z.lt_trichotomy x y) as [H|[->|H]].
    + left. by rewrite (proj2 (Z.ltb_lt _ _) H).
    + rewrite Z.ltb_irrefl, Z.eqb_refl. cbn. apply IH.
    + right. by rewrite (proj2 (Z.ltb_lt _ _) H).
  - induction a as [|x a IH]; intros [|y b] [|z c]; cbn; try done.
    intros [H|H]%orb_true_iff [K|K]%orb_true_iff; bool_prop; apply orb_true_iff.
    + left. apply Z.ltb_lt. lia.
    + left. apply Z.ltb_lt. lia.
    + left. apply Z.ltb_lt. lia.
    + right. subst. rewrite Z.eqb_refl. cbn. by eapply IH.
Qed.
(** Comparison by one key, ties broken by another. *)
Lemma lexicographic_comparison {A} (f g : A -> A -> bool) :
  Comparison f -> Comparison g -> Comparison (fun a b => f a b && (negb (f b a) || g a b)).
Proof.
  intros Cf Cg. split.
  - intros a b. destruct (cmp_total (le := f) a b) as [H|H], (f a b) eqn:E1, (f b a) eqn:E2; cbn; try tauto; try congruence; apply Cg.
  - intros a b c (H1 & H2)%andb_true_iff (K1 & K2)%andb_true_iff. apply andb_true_iff. split; [by eapply cmp_trans|].
    apply orb_true_iff. destruct (f c a) eqn:E; [|by left]. right.
    assert (f c b = true) as E' by (by eapply (cmp_trans (le := f))). assert (f b a = true) as E'' by (by eapply (cmp_trans (le := f))).
    rewrite E' in K2. rewrite E'' in H2. cbn in *. by eapply cmp_trans.
Qed.
