(* ===== verification/Utf8.v ===== *)
(** * UTF-8 as [std::str] checks and repairs it

    The wire layer accepts an OPEN endpoint only when [std::str::from_utf8]
    accepts it, and reports peer reasons through [String::from_utf8_lossy].
    Both are Standard Library functions; their documented behaviour (Unicode
    table 3-7, one U+FFFD per maximal invalid prefix) is written out here. *)

From S2P Require Import Prelude.

Module Utf8.

(** A continuation byte 80..BF. *)
Definition cont (b : Z) : bool := (128 <=? b) && (b <=? 191).

(** The sequence width a first byte announces; 0 for a byte that starts none. *)
Definition width (b : Z) : Z :=
  if b <? 128 then 1
  else if (194 <=? b) && (b <=? 223) then 2
  else if (224 <=? b) && (b <=? 239) then 3
  else if (240 <=? b) && (b <=? 244) then 4
  else 0.

(** The range of the second byte, which excludes overlong forms, surrogates
    and code points above U+10FFFF. *)
Definition second (b0 b1 : Z) : bool :=
  if b0 =? 224 then (160 <=? b1) && (b1 <=? 191)
  else if b0 =? 237 then (128 <=? b1) && (b1 <=? 159)
  else if b0 =? 240 then (144 <=? b1) && (b1 <=? 191)
  else if b0 =? 244 then (128 <=? b1) && (b1 <=? 143)
  else cont b1.

(** [std::str::from_utf8(bs).is_ok()]. *)
Fixpoint valid (bs : bytes) : bool :=
  match bs with
  | [] => true
  | b0 :: r0 =>
      if width b0 =? 1 then valid r0
      else if width b0 =? 2 then
        match r0 with b1 :: r1 => second b0 b1 && valid r1 | [] => false end
      else if width b0 =? 3 then
        match r0 with
        | b1 :: b2 :: r2 => second b0 b1 && cont b2 && valid r2
        | _ => false
        end
      else if width b0 =? 4 then
        match r0 with
        | b1 :: b2 :: b3 :: r3 => second b0 b1 && cont b2 && cont b3 && valid r3
        | _ => false
        end
      else false
  end.

(** U+FFFD. *)
Definition replacement : bytes := [239; 191; 189].

(** [String::from_utf8_lossy(bs).into_owned()]. *)
Fixpoint lossy (bs : bytes) : bytes :=
  match bs with
  | [] => []
  | b0 :: r0 =>
      if width b0 =? 1 then b0 :: lossy r0
      else if width b0 =? 0 then replacement ++ lossy r0
      else
        match r0 with
        | [] => replacement
        | b1 :: r1 =>
            if negb (second b0 b1) then replacement ++ lossy r0
            else if width b0 =? 2 then b0 :: b1 :: lossy r1
            else
              match r1 with
              | [] => replacement
              | b2 :: r2 =>
                  if negb (cont b2) then replacement ++ lossy r1
                  else if width b0 =? 3 then b0 :: b1 :: b2 :: lossy r2
                  else
                    match r2 with
                    | [] => replacement
                    | b3 :: r3 =>
                        if negb (cont b3) then replacement ++ lossy r2
                        else b0 :: b1 :: b2 :: b3 :: lossy r3
                    end
              end
        end
  end.

Lemma width_cases b :
  width b = 0 \/ width b = 1 \/ width b = 2 \/ width b = 3 \/ width b = 4.
Proof. unfold width. repeat case_match; auto. Qed.

Lemma valid_replacement bs : valid (replacement ++ bs) = valid bs.
Proof. done. Qed.

(** Both functions are structurally recursive through several list cells, so
    their lemmas go by induction on a length bound. *)
Lemma lossy_valid bs : valid (lossy bs) = true.
Proof.
  remember (length bs) as n eqn:Hn. assert (length bs <= n)%nat as Hle by lia.
  clear Hn. revert bs Hle. induction n as [|n IH]; intros bs Hle.
  { destruct bs; [done|cbn in Hle; lia]. }
  destruct bs as [|b0 r0]; [done|]. cbn in Hle.
  cbn [lossy].
  destruct (width_cases b0) as [W|[W|[W|[W|W]]]]; rewrite W; cbn [Z.eqb Pos.eqb].
  - rewrite valid_replacement. apply IH; lia.
  - cbn [valid]. rewrite W. cbn [Z.eqb Pos.eqb]. apply IH; lia.
  - destruct r0 as [|b1 r1]; [done|]. cbn in Hle.
    destruct (second b0 b1) eqn:S; cbn [negb].
    + cbn [valid]. rewrite W, S. cbn [Z.eqb Pos.eqb andb]. apply IH; lia.
    + rewrite valid_replacement. apply IH; cbn; lia.
  - destruct r0 as [|b1 r1]; [done|]. cbn in Hle.
    destruct (second b0 b1) eqn:S; cbn [negb]; [|rewrite valid_replacement; apply IH; cbn; lia].
    destruct r1 as [|b2 r2]; [done|]. cbn in Hle.
    destruct (cont b2) eqn:C; cbn [negb]; [|rewrite valid_replacement; apply IH; cbn; lia].
    cbn [valid]. rewrite W, S, C. cbn [Z.eqb Pos.eqb andb]. apply IH; lia.
  - destruct r0 as [|b1 r1]; [done|]. cbn in Hle.
    destruct (second b0 b1) eqn:S; cbn [negb]; [|rewrite valid_replacement; apply IH; cbn; lia].
    destruct r1 as [|b2 r2]; [done|]. cbn in Hle.
    destruct (cont b2) eqn:C; cbn [negb]; [|rewrite valid_replacement; apply IH; cbn; lia].
    destruct r2 as [|b3 r3]; [done|]. cbn in Hle.
    destruct (cont b3) eqn:C3; cbn [negb]; [|rewrite valid_replacement; apply IH; cbn; lia].
    cbn [valid]. rewrite W, S, C, C3. cbn [Z.eqb Pos.eqb andb]. apply IH; lia.
Qed.

Lemma lossy_id bs : valid bs = true -> lossy bs = bs.
Proof.
  remember (length bs) as n eqn:Hn. assert (length bs <= n)%nat as Hle by lia.
  clear Hn. revert bs Hle. induction n as [|n IH]; intros bs Hle Hv.
  { destruct bs; [done|cbn in Hle; lia]. }
  destruct bs as [|b0 r0]; [done|]. cbn in Hle. cbn [lossy]. cbn [valid] in Hv.
  destruct (width_cases b0) as [W|[W|[W|[W|W]]]]; rewrite W in *; cbn [Z.eqb Pos.eqb] in *.
  - done.
  - f_equal. apply IH; [lia|done].
  - destruct r0 as [|b1 r1]; [done|]. cbn in Hle. bool_prop.
    rewrite H. cbn [negb]. do 2 f_equal. apply IH; [lia|done].
  - destruct r0 as [|b1 [|b2 r2]]; [done..|]. cbn in Hle. bool_prop.
    rewrite H, H1. cbn [negb]. do 3 f_equal. apply IH; [lia|done].
  - destruct r0 as [|b1 [|b2 [|b3 r3]]]; [done..|]. cbn in Hle. bool_prop.
    rewrite H, H2, H1. cbn [negb]. do 4 f_equal. apply IH; [lia|done].
Qed.

End Utf8.
