(* ===== verification/MuxTypes.v ===== *)
(** * Multiplexer: roles, configuration and errors

    [crates/libs/tascarrel-mux/src/lib.rs]: which side owns which channel
    identifiers, the resource and flow-control settings with their validation,
    and the error type every mux operation returns. *)

From S2P Require Import Prelude.

(** [Role]: the client allocates odd identifiers, the server even ones. *)
Inductive Role := Client | Server.
#[export] Instance Role_eq_dec : EqDecision Role.
Proof. solve_decision. Defined.

Definition first_id (r : Role) : Z :=
  match r with Client => 1 | Server => 2 end.

Definition owns_id (r : Role) (id : Z) : bool :=
  negb (id =? 0)
  && match r with Client => id mod 2 =? 1 | Server => id mod 2 =? 0 end.

(** The role at the other end of the transport. *)
Definition peer (r : Role) : Role :=
  match r with Client => Server | Server => Client end.

(** [Config]; [probe_interval] is a [Duration] in nanoseconds. *)
Record Config := {
  initial_byte_window : Z;
  initial_frame_window : Z;
  max_frame_size : Z;
  max_channels : Z;
  max_endpoint_size : Z;
  max_reason_size : Z;
  control_queue_capacity : Z;
  control_burst : Z;
  closed_channel_capacity : Z;
  probe_interval : Z;
}.

#[export] Instance Config_eta : Eta Config := fun x => {|
  initial_byte_window := initial_byte_window x; initial_frame_window := initial_frame_window x;
  max_frame_size := max_frame_size x; max_channels := max_channels x;
  max_endpoint_size := max_endpoint_size x; max_reason_size := max_reason_size x;
  control_queue_capacity := control_queue_capacity x; control_burst := control_burst x;
  closed_channel_capacity := closed_channel_capacity x; probe_interval := probe_interval x |}.

Definition Config_default : Config := {|
  initial_byte_window := 256 * 1024;
  initial_frame_window := 64;
  max_frame_size := 16 * 1024;
  max_channels := 64;
  max_endpoint_size := 256;
  max_reason_size := 256;
  control_queue_capacity := 272;
  control_burst := 16;
  closed_channel_capacity := 256;
  probe_interval := 100 * 1000000;
|}.

(** The values a [Config] can hold: [u32] windows, [usize] limits. *)
Record config_typed (c : Config) : Prop := {
  ct_byte_window : in_range u32_max (initial_byte_window c);
  ct_frame_window : in_range u32_max (initial_frame_window c);
  ct_frame_size : in_range u32_max (max_frame_size c);
  ct_channels : in_range usize_max (max_channels c);
  ct_endpoint : in_range usize_max (max_endpoint_size c);
  ct_reason : in_range usize_max (max_reason_size c);
  ct_control : in_range usize_max (control_queue_capacity c);
  ct_burst : in_range usize_max (control_burst c);
  ct_closed : in_range usize_max (closed_channel_capacity c);
  ct_probe : 0 <= probe_interval c;
}.

Module Error.
(** [Error], carried by every [Report]. *)
Inductive t :=
| Io
| Protocol (message : bytes)
| ConnectionClosed
| ResourceExhausted
| Rejected (reason : bytes)
| Reset (reason : bytes)
| InvalidConfig
| InvalidInput.
End Error.
#[export] Instance Error_eq_dec : EqDecision Error.t.
Proof. solve_decision. Defined.

Definition CHANNEL_PARAMETERS_LEN : Z := 12.

(** [Config::validate]; [max_permits] is [tokio::sync::Semaphore::MAX_PERMITS]. *)
Definition validate (max_permits : Z) (c : Config) : outcome Error.t unit :=
  let endpoint_length_is_representable :=
    match checked_add usize_max (max_endpoint_size c) CHANNEL_PARAMETERS_LEN with
    | Some length => match try_from u32_max length with Some _ => true | None => false end
    | None => false
    end in
  if (initial_byte_window c =? 0)
     || (initial_frame_window c =? 0)
     || (max_frame_size c =? 0)
     || (max_frame_size c >? initial_byte_window c)
     || (max_channels c =? 0)
     || (max_channels c >? max_permits)
     || (max_endpoint_size c =? 0)
     || negb endpoint_length_is_representable
     || (max_reason_size c =? 0)
     || match try_from u32_max (max_reason_size c) with Some _ => false | None => true end
     || (control_queue_capacity c =? 0)
     || (control_burst c =? 0)
     || (closed_channel_capacity c =? 0)
     || (probe_interval c =? 0)
  then Err Error.InvalidConfig
  else Ok tt.

(** The [io::ErrorKind]s the code distinguishes; [OtherKind] is any other. *)
Inductive IoKind :=
| UnexpectedEof | BrokenPipe | ConnectionReset | ConnectionAborted | NotConnected
| InvalidData | OtherKind.

(** [io_report]: connection-ending kinds become [ConnectionClosed]. *)
Definition io_report (kind : IoKind) : Error.t :=
  match kind with
  | UnexpectedEof | BrokenPipe | ConnectionReset | ConnectionAborted | NotConnected =>
      Error.ConnectionClosed
  | InvalidData | OtherKind => Error.Io
  end.

Definition protocol_error (message : string) : Error.t := Error.Protocol (str message).

(** ** Lemmas *)

(** What a validated configuration guarantees to the rest of the crate. *)
Record config_ok (c : Config) : Prop := {
  co_byte_window : 1 <= initial_byte_window c <= u32_max;
  co_frame_window : 1 <= initial_frame_window c <= u32_max;
  co_frame_size : 1 <= max_frame_size c <= initial_byte_window c;
  co_channels : 1 <= max_channels c;
  co_endpoint : 1 <= max_endpoint_size c /\ max_endpoint_size c + 12 <= u32_max;
  co_reason : 1 <= max_reason_size c <= u32_max;
  co_control : 1 <= control_queue_capacity c;
  co_burst : 1 <= control_burst c;
  co_closed : 1 <= closed_channel_capacity c;
}.

Lemma validate_config_ok mp c :
  config_typed c -> validate mp c = Ok tt -> config_ok c.
Proof.
  intros T. unfold validate. case_match eqn:V; [done|]. intros _. bool_prop.
  destruct T. unfold in_range in *.
  repeat match goal with
    | H : match ?x with _ => _ end = _ |- _ => destruct x eqn:?; try done
    | H : checked_add _ _ _ = Some _ |- _ => apply checked_add_Some in H
    | H : try_from _ _ = Some _ |- _ => apply try_from_Some in H
    end.
  unfold CHANNEL_PARAMETERS_LEN in *. constructor; lia.
Qed.

Lemma owns_id_peer r id : id <> 0 -> owns_id (peer r) id = negb (owns_id r id).
Proof.
  intros Hid. unfold owns_id. apply Z.eqb_neq in Hid. rewrite Hid. cbn [negb andb].
  pose proof (Z.mod_pos_bound id 2 ltac:(lia)).
  destruct r; cbn [peer]; destruct (id mod 2 =? 0) eqn:?, (id mod 2 =? 1) eqn:?; bool_prop; lia || done.
Qed.

Lemma owns_first_id r : owns_id r (first_id r) = true.
Proof. by destruct r. Qed.

Lemma owns_id_step r id : 0 < id -> owns_id r id = true -> owns_id r (id + 2) = true.
Proof.
  unfold owns_id. intros Hpos H. bool_prop.
  assert ((id + 2 =? 0) = false) as -> by (apply Z.eqb_neq; lia).
  replace ((id + 2) mod 2) with (id mod 2); [by destruct r|].
  rewrite <- (Z_mod_plus_full id 1 2). f_equal; lia.
Qed.
