(* ===== verification/MuxWire.v ===== *)
(** * Multiplexer: synchronization, frames and the wire encoding

    [crates/libs/tascarrel-mux/src/protocol.rs].  A transport is the bytes that
    will still arrive ([avail]) and how it ends ([at_end]); [read_frame] is the
    code's reader on it, [encode_frame] the bytes [write_frame] writes. *)

From S2P Require Import Prelude Utf8 MuxTypes.

Definition HEADER_LEN : Z := 12.
Definition WINDOW_PAYLOAD_LEN : Z := 8.
Definition KIND_PROBE : Z := 0.
Definition KIND_OPEN : Z := 1.
Definition KIND_ACCEPT : Z := 2.
Definition KIND_REJECT : Z := 3.
Definition KIND_DATA : Z := 4.
Definition KIND_WINDOW : Z := 5.
Definition KIND_FIN : Z := 6.
Definition KIND_RESET : Z := 7.
Definition KIND_CLOSED : Z := 8.

Module Frame.
(** [Frame]. *)
Inductive t :=
| Open (id byte_window frame_window max_frame_size : Z) (endpoint : bytes)
| Accept (id byte_window frame_window max_frame_size : Z)
| Reject (id : Z) (reason : bytes)
| Data (id : Z) (data : bytes)
| Window (id bytes frames : Z)
| Fin (id : Z)
| Reset (id : Z) (reason : bytes)
| Closed (id : Z).

(** [Frame::id]. *)
Definition id (f : t) : Z :=
  match f with
  | Open i _ _ _ _ | Accept i _ _ _ | Reject i _ | Data i _ | Window i _ _
  | Fin i | Reset i _ | Closed i => i
  end.
End Frame.
#[export] Instance Frame_eq_dec : EqDecision Frame.t.
Proof. solve_decision. Defined.

(** ** Transport synchronization

    One event per turn of the loop in [probe_handshake]: what its [select!] (or
    the write before it) produced. *)
Inductive probe_event :=
| WriteFailed (kind : IoKind)
| DeadlineElapsed
| ReadNothing
| ReadFailed (kind : IoKind)
| ReadByte (byte : Z) (reciprocal : option IoKind).

(** [probe_handshake]: the probes written so far and the result, [None] while
    the loop still waits for its next event. *)
Fixpoint probe_handshake (events : list probe_event) : Z * option (outcome Error.t unit) :=
  match events with
  | [] => (0, None)
  | WriteFailed kind :: _ => (0, Some (Err (io_report kind)))
  | DeadlineElapsed :: rest =>
      let '(written, result) := probe_handshake rest in (1 + written, result)
  | ReadNothing :: _ => (1, Some (Err (io_report UnexpectedEof)))
  | ReadFailed kind :: _ => (1, Some (Err (io_report kind)))
  | ReadByte byte reciprocal :: _ =>
      if negb (byte =? KIND_PROBE) then
        (1, Some (Err (protocol_error "non-probe byte before connection establishment")))
      else
        match reciprocal with
        | Some kind => (1, Some (Err (io_report kind)))
        | None => (2, Some (Ok tt))
        end
  end.

(** ** Reading frames *)
Record Reader := { avail : bytes; at_end : IoKind }.

(** [AsyncReadExt::read_exact] for [n] bytes. *)
Definition read_exact (n : Z) (r : Reader) : outcome Error.t (bytes * Reader) :=
  if n <=? len (avail r)
  then Ok (takez n (avail r), {| avail := dropz n (avail r); at_end := at_end r |})
  else Err (io_report (at_end r)).

(** [read_frame_header]: probes at a frame boundary are skipped. *)
Fixpoint read_frame_header_from (e : IoKind) (input : bytes) : outcome Error.t (bytes * Reader) :=
  match input with
  | [] => Err (io_report e)
  | b :: rest =>
      if b =? KIND_PROBE then read_frame_header_from e rest
      else
        let? (tail, r) := read_exact (HEADER_LEN - 1) {| avail := rest; at_end := e |} in
        Ok (b :: tail, r)
  end.
Definition read_frame_header (r : Reader) : outcome Error.t (bytes * Reader) :=
  read_frame_header_from (at_end r) (avail r).

(** [read_u32] on a four-byte slice. *)
Definition read_u32 (bs : bytes) : Z := from_be_bytes (takez 4 bs).

(** A sub-slice [&bs[lo..hi]]. *)
Definition slice (lo hi : Z) (bs : bytes) : bytes := takez (hi - lo) (dropz lo bs).

(** [validate_window]. *)
Definition validate_window (bytes frames max_frame_size : Z) : outcome Error.t unit :=
  if (bytes =? 0) || (frames =? 0) || (max_frame_size =? 0) || (max_frame_size >? bytes)
  then Err (protocol_error "invalid advertised window")
  else Ok tt.

(** The [valid_length] match of [read_frame]; an unknown kind is an error. *)
Definition valid_length (config : Config) (kind length : Z) : outcome Error.t bool :=
  if kind =? KIND_OPEN then
    Ok ((CHANNEL_PARAMETERS_LEN <=? length)
        && (length <=? CHANNEL_PARAMETERS_LEN + max_endpoint_size config))
  else if kind =? KIND_ACCEPT then Ok (length =? CHANNEL_PARAMETERS_LEN)
  else if kind =? KIND_WINDOW then Ok (length =? WINDOW_PAYLOAD_LEN)
  else if (kind =? KIND_REJECT) || (kind =? KIND_RESET) then Ok (length <=? max_reason_size config)
  else if kind =? KIND_DATA then Ok ((0 <? length) && (length <=? max_frame_size config))
  else if (kind =? KIND_FIN) || (kind =? KIND_CLOSED) then Ok (length =? 0)
  else Err (Error.Protocol (str "unknown frame kind " ++ str (pretty kind))).

(** The second [match kind] of [read_frame]: the payload of a validated length. *)
Definition parse_payload (kind id : Z) (payload : bytes) : outcome Error.t Frame.t :=
  if kind =? KIND_OPEN then
    let byte_window := read_u32 (slice 0 4 payload) in
    let frame_window := read_u32 (slice 4 8 payload) in
    let max_frame_size := read_u32 (slice 8 12 payload) in
    let? _ := validate_window byte_window frame_window max_frame_size in
    if Utf8.valid (dropz CHANNEL_PARAMETERS_LEN payload)
    then Ok (Frame.Open id byte_window frame_window max_frame_size
               (dropz CHANNEL_PARAMETERS_LEN payload))
    else Err (protocol_error "channel endpoint is not UTF-8")
  else if kind =? KIND_ACCEPT then
    let byte_window := read_u32 (slice 0 4 payload) in
    let frame_window := read_u32 (slice 4 8 payload) in
    let max_frame_size := read_u32 (slice 8 12 payload) in
    let? _ := validate_window byte_window frame_window max_frame_size in
    Ok (Frame.Accept id byte_window frame_window max_frame_size)
  else if kind =? KIND_REJECT then Ok (Frame.Reject id payload)
  else if kind =? KIND_DATA then Ok (Frame.Data id payload)
  else if kind =? KIND_WINDOW then
    let bytes := read_u32 (slice 0 4 payload) in
    let frames := read_u32 (slice 4 8 payload) in
    if (bytes =? 0) && (frames =? 0)
    then Err (protocol_error "empty window update")
    else Ok (Frame.Window id bytes frames)
  else if kind =? KIND_FIN then Ok (Frame.Fin id)
  else if kind =? KIND_RESET then Ok (Frame.Reset id payload)
  else if kind =? KIND_CLOSED then Ok (Frame.Closed id)
  else Panic "frame kind was validated".

(** [read_frame]. *)
Definition read_frame (config : Config) (r : Reader) : outcome Error.t (Frame.t * Reader) :=
  let? (header, r1) := read_frame_header r in
  let kind := from_be_bytes (slice 0 1 header) in
  if negb (bool_decide (slice 1 4 header = [0; 0; 0])) then
    Err (protocol_error "non-zero reserved frame bits")
  else
    let id := from_be_bytes (slice 4 8 header) in
    let length := from_be_bytes (slice 8 12 header) in
    if id =? 0 then Err (protocol_error "channel identifier zero")
    else
      let? valid := valid_length config kind length in
      if negb valid then
        Err (Error.Protocol (str "invalid length " ++ str (pretty length)
                             ++ str " for frame kind " ++ str (pretty kind)))
      else
        let? (payload, r2) := read_exact length r1 in
        let? frame := parse_payload kind id payload in
        Ok (frame, r2).

(** ** Writing frames *)

(** The [(kind, payload)] match of [write_frame]. *)
Definition frame_parts (f : Frame.t) : Z * bytes :=
  match f with
  | Frame.Open _ byte_window frame_window max_frame_size endpoint =>
      (KIND_OPEN, to_be_bytes 4 byte_window ++ to_be_bytes 4 frame_window
                  ++ to_be_bytes 4 max_frame_size ++ endpoint)
  | Frame.Accept _ byte_window frame_window max_frame_size =>
      (KIND_ACCEPT, to_be_bytes 4 byte_window ++ to_be_bytes 4 frame_window
                    ++ to_be_bytes 4 max_frame_size)
  | Frame.Reject _ reason => (KIND_REJECT, reason)
  | Frame.Data _ data => (KIND_DATA, data)
  | Frame.Window _ bytes frames => (KIND_WINDOW, to_be_bytes 4 bytes ++ to_be_bytes 4 frames)
  | Frame.Fin _ => (KIND_FIN, [])
  | Frame.Reset _ reason => (KIND_RESET, reason)
  | Frame.Closed _ => (KIND_CLOSED, [])
  end.

(** [write_frame]: the bytes it hands to the transport before its flush. *)
Definition encode_frame (f : Frame.t) : outcome Error.t bytes :=
  let '(kind, payload) := frame_parts f in
  let? length := ok_or (try_from u32_max (len payload)) Error.InvalidInput in
  Ok ((kind :: [0; 0; 0]) ++ to_be_bytes 4 (Frame.id f) ++ to_be_bytes 4 length ++ payload).

(** ** The frames the wire can carry under a configuration *)
Definition window_ok (b f m : Z) : Prop :=
  1 <= b <= u32_max /\ 1 <= f <= u32_max /\ 1 <= m <= b.

Definition frame_ok (config : Config) (f : Frame.t) : Prop :=
  1 <= Frame.id f <= u32_max /\
  match f with
  | Frame.Open _ b fr m endpoint =>
      window_ok b fr m /\ bytes_ok endpoint /\ Utf8.valid endpoint = true
      /\ len endpoint <= max_endpoint_size config
  | Frame.Accept _ b fr m => window_ok b fr m
  | Frame.Reject _ reason | Frame.Reset _ reason =>
      bytes_ok reason /\ len reason <= max_reason_size config
  | Frame.Data _ data => bytes_ok data /\ 1 <= len data <= max_frame_size config
  | Frame.Window _ b fr => in_range u32_max b /\ in_range u32_max fr /\ ~ (b = 0 /\ fr = 0)
  | Frame.Fin _ | Frame.Closed _ => True
  end.

(** ** Lemmas: slices of fixed-size fields *)

Lemma slice_app_skip lo hi a b :
  len a <= lo -> slice lo hi (a ++ b) = slice (lo - len a) (hi - len a) b.
Proof.
  intros H. unfold slice. replace (hi - len a - (lo - len a)) with (hi - lo) by lia.
  f_equal. unfold dropz, len in *. rewrite drop_app_ge by lia. f_equal. lia.
Qed.
Lemma slice_app_here hi a b : hi = len a -> slice 0 hi (a ++ b) = a.
Proof.
  intros ->. unfold slice. rewrite Z.sub_0_r. change (dropz 0 (a ++ b)) with (a ++ b).
  by apply takez_app_len.
Qed.
Lemma slice_whole hi a : hi = len a -> slice 0 hi a = a.
Proof. intros. rewrite <- (app_nil_r a) at 1. by apply slice_app_here. Qed.

Lemma read_u32_be x : 0 <= x <= u32_max -> read_u32 (to_be_bytes 4 x) = x.
Proof.
  intros. unfold read_u32. rewrite takez_ge by (rewrite len_to_be_bytes; lia).
  apply from_to_be_bytes. unfold u32_max in *. change (8 * Z.of_nat 4) with 32. lia.
Qed.

Ltac slices :=
  repeat first
    [ rewrite slice_app_here by (autorewrite with tsc_len; reflexivity)
    | rewrite slice_whole by (autorewrite with tsc_len; reflexivity)
    | rewrite slice_app_skip by (autorewrite with tsc_len; cbn; lia);
      autorewrite with tsc_len; cbn [Z.sub Z.add Z.opp Z.of_nat Pos.of_succ_nat Pos.succ
                                      Z.pos_sub Pos.pred_double Pos.add] ].

(** ** Lemmas: reading what was written *)

Lemma read_exact_app n a b e :
  n = len a -> read_exact n {| avail := a ++ b; at_end := e |}
               = Ok (a, {| avail := b; at_end := e |}).
Proof.
  intros ->. unfold read_exact. cbn [avail at_end].
  rewrite (proj2 (Z.leb_le _ _)) by (rewrite len_app; pose proof (len_nonneg b); lia).
  by rewrite takez_app_len, dropz_app_len.
Qed.

Lemma read_exact_Ok n r a r' :
  0 <= n -> read_exact n r = Ok (a, r') ->
  avail r = a ++ avail r' /\ len a = n /\ at_end r' = at_end r.
Proof.
  intros Hn. unfold read_exact. case_match eqn:E; [|done]. intros [= <- <-]. bool_prop.
  cbn [avail at_end]. rewrite takez_dropz, len_takez by lia. split_and!; [done|lia|done].
Qed.

Lemma header_skips_probes n e input :
  read_frame_header_from e (replicate n KIND_PROBE ++ input) = read_frame_header_from e input.
Proof. induction n; [done|]. cbn. done. Qed.

Lemma header_read e k a b :
  k <> KIND_PROBE -> len a = HEADER_LEN - 1 ->
  read_frame_header_from e ((k :: a) ++ b) = Ok (k :: a, {| avail := b; at_end := e |}).
Proof.
  intros Hk Ha. cbn [app read_frame_header_from].
  rewrite (proj2 (Z.eqb_neq _ _)) by done. by rewrite read_exact_app.
Qed.

(** The twelve header bytes, field by field. *)
Definition header_bytes (kind id length : Z) : bytes :=
  (kind :: [0; 0; 0]) ++ to_be_bytes 4 id ++ to_be_bytes 4 length.

(** [read_frame] after a well-formed header: the length is checked before any
    payload byte is read. *)
Lemma read_frame_step config n kind id length body e :
  1 <= kind < 256 -> 1 <= id <= u32_max -> 0 <= length <= u32_max ->
  read_frame config
    {| avail := replicate n KIND_PROBE ++ header_bytes kind id length ++ body; at_end := e |}
  = let? valid := valid_length config kind length in
    if negb valid then
      Err (Error.Protocol (str "invalid length " ++ str (pretty length)
                           ++ str " for frame kind " ++ str (pretty kind)))
    else
      let? (payload, r2) := read_exact length {| avail := body; at_end := e |} in
      let? frame := parse_payload kind id payload in
      Ok (frame, r2).
Proof.
  intros Hk Hid Hl. unfold read_frame, read_frame_header. cbn [avail at_end].
  rewrite header_skips_probes. unfold header_bytes.
  change ((kind :: [0; 0; 0]) ++ to_be_bytes 4 id ++ to_be_bytes 4 length)
    with (kind :: ([0; 0; 0] ++ to_be_bytes 4 id ++ to_be_bytes 4 length)).
  rewrite header_read; [|unfold KIND_PROBE; lia|by autorewrite with tsc_len].
  cbn [obind].
  change (kind :: ([0; 0; 0] ++ to_be_bytes 4 id ++ to_be_bytes 4 length))
    with ([kind] ++ [0; 0; 0] ++ to_be_bytes 4 id ++ to_be_bytes 4 length).
  slices. rewrite bool_decide_eq_true_2 by done. cbn [negb].
  rewrite !from_to_be_bytes by (unfold u32_max in *; change (8 * Z.of_nat 4) with 32; lia).
  rewrite (proj2 (Z.eqb_neq id 0)) by lia.
  by replace (from_be_bytes [kind]) with kind by (unfold from_be_bytes; cbn; lia).
Qed.

Lemma encode_frame_parts f bs :
  encode_frame f = Ok bs ->
  bs = header_bytes (frame_parts f).1 (Frame.id f) (len (frame_parts f).2) ++ (frame_parts f).2
  /\ len (frame_parts f).2 <= u32_max.
Proof.
  unfold encode_frame. destruct (frame_parts f) as [kind payload]. cbn [fst snd].
  destruct (try_from u32_max (len payload)) as [l|] eqn:T; cbn; [|done].
  apply try_from_Some in T as [-> ?]. intros [= <-]. done.
Qed.

Lemma frame_parts_kind f : 1 <= (frame_parts f).1 < 256.
Proof. destruct f; cbn; unfold KIND_OPEN, KIND_ACCEPT, KIND_REJECT, KIND_DATA, KIND_WINDOW,
  KIND_FIN, KIND_RESET, KIND_CLOSED; lia. Qed.

Lemma frame_ok_length config f :
  frame_ok config f -> valid_length config (frame_parts f).1 (len (frame_parts f).2) = Ok true.
Proof.
  intros [_ H]. destruct f; cbn in H |- *; unfold valid_length; cbn; f_equal;
    autorewrite with tsc_len; try done; unfold CHANNEL_PARAMETERS_LEN.
  - destruct H as (_ & _ & _ & ?). pose proof (len_nonneg endpoint).
    apply andb_true_iff. rewrite !Z.leb_le. lia.
  - destruct H. by apply Z.leb_le.
  - destruct H. apply andb_true_iff. rewrite Z.leb_le, Z.ltb_lt. lia.
  - destruct H. by apply Z.leb_le.
Qed.

Lemma validate_window_ok b f m : window_ok b f m -> validate_window b f m = Ok tt.
Proof.
  intros (? & ? & ?). unfold validate_window. case_match eqn:E; [|done].
  repeat (apply orb_true_iff in E as [E|E]); bool_prop; try apply Z.ltb_lt in E; lia.
Qed.
Lemma validate_window_inv b f m :
  in_range u32_max b -> in_range u32_max f -> in_range u32_max m ->
  validate_window b f m = Ok tt -> window_ok b f m.
Proof.
  unfold validate_window, window_ok, in_range. intros. case_match; [done|]. bool_prop. lia.
Qed.

Lemma parse_frame_parts config f :
  frame_ok config f ->
  parse_payload (frame_parts f).1 (Frame.id f) (frame_parts f).2 = Ok f.
Proof.
  intros [Hid H].
  destruct f as [i b fr m ep|i b fr m|i r|i d|i b fr|i|i r|i]; cbn in H |- *; unfold parse_payload;
    cbn -[to_be_bytes slice dropz validate_window app]; try done.
  - destruct H as (W & _ & U & _). pose proof W as (? & ? & ?).
    slices. rewrite !read_u32_be by (unfold u32_max in *; lia).
    rewrite validate_window_ok by done. cbn [obind].
    rewrite !(app_assoc _ _ ep), app_assoc, dropz_app_len by (by autorewrite with tsc_len).
    by rewrite U.
  - pose proof H as (? & ? & ?). slices.
    rewrite !read_u32_be by (unfold u32_max in *; lia). by rewrite validate_window_ok.
  - destruct H as (? & ? & Hnz). slices. rewrite !read_u32_be by done.
    destruct (b =? 0) eqn:?, (fr =? 0) eqn:?; cbn; try done. bool_prop. tauto.
Qed.

(** Everything [read_frame] accepts satisfies the frame invariant. *)
Lemma slice_bytes_ok lo hi bs : bytes_ok bs -> bytes_ok (slice lo hi bs).
Proof. intros. unfold slice, takez, dropz. by apply Forall_take, Forall_drop. Qed.

Lemma read_u32_range bs : bytes_ok bs -> in_range u32_max (read_u32 bs).
Proof.
  intros H. unfold read_u32, in_range, u32_max.
  assert (bytes_ok (takez 4 bs)) as Hb by (by apply Forall_take).
  pose proof (from_be_bytes_bound _ Hb) as B.
  assert (len (takez 4 bs) <= 4) as L by (rewrite len_takez by lia; lia).
  pose proof (len_nonneg (takez 4 bs)).
  assert (2 ^ (8 * len (takez 4 bs)) <= 2 ^ 32) by (apply Z.pow_le_mono_r; lia). lia.
Qed.

Lemma valid_length_kind config kind length v :
  valid_length config kind length = Ok v -> 1 <= kind <= 8.
Proof.
  unfold valid_length. intros H.
  repeat (case_match; [ repeat match goal with E : (_ || _) = true |- _ =>
    apply orb_true_iff in E as [E|E] end; bool_prop; subst; vm_compute; split; discriminate | ]).
  discriminate.
Qed.

Ltac kind_cases kind :=
  let Hk := fresh "Hk" in
  assert (kind = 1 \/ kind = 2 \/ kind = 3 \/ kind = 4 \/ kind = 5 \/ kind = 6
          \/ kind = 7 \/ kind = 8) as Hk by lia;
  destruct Hk as [->|[->|[->|[->|[->|[->|[->| ->]]]]]]].

Lemma parse_payload_ok config kind id payload f :
  1 <= id <= u32_max -> bytes_ok payload ->
  valid_length config kind (len payload) = Ok true ->
  parse_payload kind id payload = Ok f -> frame_ok config f /\ Frame.id f = id.
Proof.
  intros Hid Hb Hl Hp. pose proof (valid_length_kind _ _ _ _ Hl) as Hk.
  assert (R : forall lo hi, in_range u32_max (read_u32 (slice lo hi payload))).
  { intros. apply read_u32_range. by apply slice_bytes_ok. }
  assert (D : bytes_ok (dropz CHANNEL_PARAMETERS_LEN payload)) by (by apply Forall_drop).
  pose proof (len_nonneg payload) as Hpos.
  kind_cases kind; unfold valid_length, parse_payload in *; cbn -[slice dropz] in Hl, Hp;
    injection Hl as Hl; bool_prop.
  - destruct (validate_window _ _ _) as [[]| |] eqn:V; cbn [obind] in Hp; [|done..].
    destruct (Utf8.valid _) eqn:U; [|done]. injection Hp as <-.
    apply validate_window_inv in V; [|done..].
    unfold CHANNEL_PARAMETERS_LEN in *. split; [|done]. split; [done|].
    split_and!; try done. rewrite len_dropz by lia. lia.
  - destruct (validate_window _ _ _) as [[]| |] eqn:V; cbn [obind] in Hp; [|done..].
    injection Hp as <-. apply validate_window_inv in V; [|done..]. done.
  - injection Hp as <-. done.
  - injection Hp as <-. split; [|done]. split; [done|]. split; [done|lia].
  - case_match eqn:E; [done|]. injection Hp as <-. split; [|done]. split; [done|].
    split_and!; [done..|]. intros [E1 E2]. rewrite E1, E2 in E. done.
  - by injection Hp as <-.
  - by injection Hp as <-.
  - by injection Hp as <-.
Qed.

(** Encoding is a left inverse of parsing on the payload bytes. *)
Lemma slice4 lo payload :
  bytes_ok payload -> 0 <= lo -> lo + 4 <= len payload ->
  to_be_bytes 4 (read_u32 (slice lo (lo + 4) payload)) = slice lo (lo + 4) payload.
Proof.
  intros Hb Hlo Hl. unfold read_u32.
  assert (len (slice lo (lo + 4) payload) = 4) as L.
  { unfold slice. rewrite len_takez, len_dropz by lia. lia. }
  rewrite takez_ge by lia. apply to_from_be_bytes; [by apply slice_bytes_ok|unfold len in L; lia].
Qed.

Lemma slice_cat lo mid hi bs :
  0 <= lo <= mid -> mid <= hi -> slice lo mid bs ++ slice mid hi bs = slice lo hi bs.
Proof.
  intros. unfold slice, takez, dropz.
  replace (Z.to_nat (hi - lo)) with (Z.to_nat (mid - lo) + Z.to_nat (hi - mid))%nat by lia.
  rewrite <- take_take_drop, drop_drop. do 3 f_equal. lia.
Qed.
Lemma slice_dropz lo hi bs :
  0 <= lo <= hi -> slice lo hi bs ++ dropz hi bs = dropz lo bs.
Proof.
  intros. unfold slice, takez, dropz.
  replace (Z.to_nat hi) with (Z.to_nat lo + Z.to_nat (hi - lo))%nat by lia.
  rewrite <- drop_drop. apply take_drop.
Qed.

Lemma frame_parts_parse config kind id payload f :
  bytes_ok payload -> valid_length config kind (len payload) = Ok true ->
  parse_payload kind id payload = Ok f -> frame_parts f = (kind, payload).
Proof.
  intros Hb Hl Hp. pose proof (valid_length_kind _ _ _ _ Hl) as Hk.
  pose proof (len_nonneg payload) as Hpos.
  kind_cases kind; unfold valid_length, parse_payload in *; cbn -[slice dropz] in Hl, Hp;
    injection Hl as Hl; bool_prop.
  - destruct (validate_window _ _ _) as [[]| |]; cbn [obind] in Hp; [|done..].
    case_match; [|done]. injection Hp as <-. cbn [frame_parts]. f_equal.
    unfold CHANNEL_PARAMETERS_LEN in *.
    rewrite (slice4 0), (slice4 4), (slice4 8) by (done || lia).
    rewrite (slice_dropz 8), (slice_dropz 4), (slice_dropz 0) by lia. done.
  - destruct (validate_window _ _ _) as [[]| |]; cbn [obind] in Hp; [|done..].
    injection Hp as <-. cbn [frame_parts]. f_equal. unfold CHANNEL_PARAMETERS_LEN in *.
    rewrite (slice4 0), (slice4 4), (slice4 8) by (done || lia).
    rewrite (slice_cat 4 8 12), (slice_cat 0 4 12) by lia. by apply slice_whole.
  - by injection Hp as <-.
  - by injection Hp as <-.
  - case_match; [done|]. injection Hp as <-. cbn [frame_parts]. f_equal.
    unfold WINDOW_PAYLOAD_LEN in *.
    rewrite (slice4 0), (slice4 4) by (done || lia).
    rewrite (slice_cat 0 4 8) by lia. by apply slice_whole.
  - injection Hp as <-. cbn [frame_parts]. f_equal. by rewrite (len_0 payload).
  - by injection Hp as <-.
  - injection Hp as <-. cbn [frame_parts]. f_equal. by rewrite (len_0 payload).
Qed.

Lemma header_inv e input header r :
  read_frame_header_from e input = Ok (header, r) ->
  exists n k tl, header = k :: tl /\ k <> KIND_PROBE /\ len tl = 11
    /\ input = replicate n KIND_PROBE ++ header ++ avail r /\ at_end r = e.
Proof.
  revert header r. induction input as [|b input IH]; intros header r; cbn; [done|].
  case_match eqn:B; bool_prop.
  - intros H. apply IH in H as (n & k & tl & -> & ? & ? & -> & ?).
    exists (S n), k, tl. subst b. done.
  - destruct (read_exact _ _) as [[tl r']| |] eqn:R; cbn; [|done..].
    intros [= <- <-]. apply read_exact_Ok in R as (? & ? & ?); [|done]. cbn [avail at_end] in *.
    exists 0%nat, b, tl. subst. done.
Qed.

Lemma header_bytes_inv k tl :
  bytes_ok (k :: tl) -> len tl = 11 -> slice 1 4 (k :: tl) = [0; 0; 0] ->
  k :: tl = header_bytes k (from_be_bytes (slice 4 8 (k :: tl)))
                           (from_be_bytes (slice 8 12 (k :: tl))).
Proof.
  intros Hb Hl Hr. assert (L : len (k :: tl) = 12) by (rewrite len_cons; lia).
  unfold header_bytes. rewrite !to_from_be_bytes.
  2-5: try (by apply slice_bytes_ok); apply Nat2Z.inj; change (len (slice 4 8 (k :: tl)) = 4)
    || change (len (slice 8 12 (k :: tl)) = 4); unfold slice; rewrite len_takez, len_dropz; lia.
  rewrite (slice_cat 4 8 12) by lia. change (k :: [0; 0; 0]) with ([k] ++ [0; 0; 0]).
  rewrite <- Hr, <- app_assoc, (slice_cat 1 4 12) by lia.
  change [k] with (slice 0 1 (k :: tl)). rewrite (slice_cat 0 1 12) by lia.
  by rewrite slice_whole.
Qed.

Lemma read_frame_inv config r f r' :
  bytes_ok (avail r) -> read_frame config r = Ok (f, r') ->
  exists n kind id payload,
    1 <= id <= u32_max /\ len payload <= u32_max /\ bytes_ok payload
    /\ valid_length config kind (len payload) = Ok true
    /\ parse_payload kind id payload = Ok f
    /\ avail r = replicate n KIND_PROBE ++ header_bytes kind id (len payload) ++ payload ++ avail r'.
Proof.
  intros Hb. unfold read_frame, read_frame_header.
  destruct (read_frame_header_from _ _) as [[h r1]| |] eqn:Hh; cbn [obind]; [|done..].
  apply header_inv in Hh as (n & k & tl & -> & Hk & Ht & Ha & He).
  rewrite Ha, !bytes_ok_app in Hb. destruct Hb as (_ & Hh & Hr).
  case_match eqn:Z0; bool_prop; [done|].
  case_match eqn:Iz; bool_prop; [done|].
  change (slice 0 1 (k :: tl)) with [k].
  replace (from_be_bytes [k]) with k by (unfold from_be_bytes; cbn; lia).
  set (id := from_be_bytes (slice 4 8 (k :: tl))) in *.
  set (l := from_be_bytes (slice 8 12 (k :: tl))) in *.
  assert (B4 : forall lo, 0 <= lo -> lo + 4 <= 12 ->
      0 <= from_be_bytes (slice lo (lo + 4) (k :: tl)) <= u32_max).
  { intros lo ? ?. pose proof (from_be_bytes_bound _ (slice_bytes_ok lo (lo + 4) _ Hh)) as B.
    assert (len (slice lo (lo + 4) (k :: tl)) = 4) as L4.
    { unfold slice. rewrite len_takez, len_dropz, len_cons by lia. lia. }
    rewrite L4 in B. unfold u32_max. lia. }
  assert (0 <= id <= u32_max) by (apply (B4 4); lia).
  assert (0 <= l <= u32_max) by (apply (B4 8); lia).
  destruct (valid_length config k l) as [v| |] eqn:V; cbn [obind]; [|done..].
  destruct v; cbn [negb]; [|done].
  destruct (read_exact l r1) as [[p r2]| |] eqn:R; cbn [obind]; [|done..].
  destruct (parse_payload k id p) as [g| |] eqn:P; cbn [obind]; [|done..].
  intros [= <- <-]. apply read_exact_Ok in R as (Ra & Rl & _); [|lia].
  rewrite Ra, bytes_ok_app in Hr. destruct Hr as [Hp _].
  exists n, k, id, p. rewrite Rl. split_and!; try done; try lia.
  rewrite Ha, Ra. f_equal. f_equal. unfold id, l. by apply header_bytes_inv.
Qed.

Lemma encode_frame_ok config f :
  config_ok config -> frame_ok config f ->
  encode_frame f = Ok (header_bytes (frame_parts f).1 (Frame.id f) (len (frame_parts f).2)
                       ++ (frame_parts f).2)
  /\ len (frame_parts f).2 <= u32_max.
Proof.
  intros C [Hid H]. unfold encode_frame.
  assert (len (frame_parts f).2 <= u32_max) as L.
  { destruct C. unfold u32_max in *. destruct f; cbn in H |- *; autorewrite with tsc_len;
      destr_and; cbn; lia. }
  destruct (frame_parts f) as [kind payload]. cbn [fst snd] in *.
  rewrite (proj2 (try_from_Some _ _ _)) by (split; [reflexivity|done]). done.
Qed.

(** The most payload bytes a frame of each kind may announce. *)
Definition payload_limit (config : Config) (kind : Z) : Z :=
  if kind =? KIND_OPEN then CHANNEL_PARAMETERS_LEN + max_endpoint_size config
  else if kind =? KIND_ACCEPT then CHANNEL_PARAMETERS_LEN
  else if kind =? KIND_WINDOW then WINDOW_PAYLOAD_LEN
  else if (kind =? KIND_REJECT) || (kind =? KIND_RESET) then max_reason_size config
  else if kind =? KIND_DATA then max_frame_size config
  else 0.

Lemma valid_length_over config kind length :
  payload_limit config kind < length -> valid_length config kind length <> Ok true.
Proof.
  unfold payload_limit, valid_length. intros H.
  repeat case_match; try done; intros [= E]; bool_prop; lia.
Qed.

Lemma valid_length_Err config kind length err :
  valid_length config kind length = Err err -> exists message, err = Error.Protocol message.
Proof. unfold valid_length. intros H. repeat case_match; try done. injection H as <-. eauto. Qed.
Lemma valid_length_no_panic config kind length m : valid_length config kind length <> Panic m.
Proof. unfold valid_length. repeat case_match; done. Qed.

Lemma parse_payload_no_panic kind id payload config length :
  valid_length config kind length = Ok true -> no_panic (parse_payload kind id payload).
Proof.
  intros V. pose proof (valid_length_kind _ _ _ _ V) as Hk. unfold parse_payload.
  unfold validate_window. kind_cases kind; cbn -[slice dropz]; repeat case_match; done.
Qed.

Lemma header_no_panic e input : no_panic (read_frame_header_from e input).
Proof.
  induction input as [|b input IH]; [done|]. cbn. case_match; [done|].
  unfold read_exact. case_match; done.
Qed.

(** ** Properties *)

(** C32: every frame the configuration admits encodes, and reading the encoding
    back, behind any number of surplus synchronization probes and before any
    following bytes, returns that frame and leaves exactly those bytes. *)
Theorem wire_roundtrip config f :
  config_ok config -> frame_ok config f ->
  exists bs, encode_frame f = Ok bs /\
    forall n rest e,
      read_frame config {| avail := replicate n KIND_PROBE ++ bs ++ rest; at_end := e |}
      = Ok (f, {| avail := rest; at_end := e |}).
Proof.
  intros C F. destruct (encode_frame_ok _ _ C F) as [E L].
  eexists. split; [exact E|]. intros n rest e. rewrite <- app_assoc.
  pose proof (len_nonneg (frame_parts f).2).
  rewrite read_frame_step by (done || apply frame_parts_kind || apply F).
  rewrite frame_ok_length by done. cbn [obind negb]. rewrite read_exact_app by done.
  cbn [obind]. by rewrite (parse_frame_parts config).
Qed.

Definition sample_frame : Frame.t := Frame.Open 1 64 4 16 (str "control").
Lemma Config_default_ok : config_ok Config_default.
Proof. constructor; unfold u32_max; cbn; lia. Qed.

Lemma wire_roundtrip_witness :
  exists bs, encode_frame sample_frame = Ok bs /\
    read_frame Config_default {| avail := [0; 0] ++ bs ++ [7]; at_end := UnexpectedEof |}
    = Ok (sample_frame, {| avail := [7]; at_end := UnexpectedEof |}).
Proof.
  destruct (wire_roundtrip Config_default sample_frame) as (bs & E & R).
  - apply Config_default_ok.
  - unfold frame_ok, window_ok, u32_max. cbn. split_and!; try lia; try done.
    apply (str_ok "control").
  - exists bs. split; [exact E|]. apply (R 2%nat [7] UnexpectedEof).
Defined.

(** Whatever [read_frame] accepts is a frame the configuration admits, and
    the bytes it consumed are surplus probes followed by that frame's unique
    encoding: no other byte sequence is accepted. *)
Theorem wire_decode_sound config r f r' :
  bytes_ok (avail r) -> read_frame config r = Ok (f, r') ->
  frame_ok config f /\
  exists n bs, encode_frame f = Ok bs /\ avail r = replicate n KIND_PROBE ++ bs ++ avail r'.
Proof.
  intros Hb H. apply read_frame_inv in H as (n & k & id & p & Hid & Hl & Hp & V & P & A); [|done].
  destruct (parse_payload_ok _ _ _ _ _ Hid Hp V P) as [F <-].
  pose proof (frame_parts_parse _ _ _ _ _ Hp V P) as Parts.
  split; [done|]. exists n. eexists. split.
  - unfold encode_frame. rewrite Parts.
    rewrite (proj2 (try_from_Some _ _ _)) by (split; [reflexivity|done]). reflexivity.
  - rewrite A. unfold header_bytes. cbn [app]. by rewrite <- !app_assoc.
Qed.

Lemma wire_decode_sound_witness :
  exists f r',
    read_frame Config_default
      {| avail := [0; 8; 0; 0; 0; 0; 0; 0; 3; 0; 0; 0; 0; 9]; at_end := UnexpectedEof |} = Ok (f, r')
    /\ frame_ok Config_default f.
Proof.
  exists (Frame.Closed 3), {| avail := [9]; at_end := UnexpectedEof |}. split; [reflexivity|].
  eapply (wire_decode_sound Config_default
    {| avail := [0; 8; 0; 0; 0; 0; 0; 0; 3; 0; 0; 0; 0; 9]; at_end := UnexpectedEof |}).
  - repeat (constructor; [unfold byte_ok; lia|]). constructor.
  - reflexivity.
Defined.

(** An announced payload above its kind's configured limit is refused from
    the header alone: the error does not depend on the bytes that follow, so
    nothing is read or allocated for it. *)
Theorem wire_oversized_refused config kind id length :
  1 <= kind < 256 -> 1 <= id <= u32_max -> payload_limit config kind < length <= u32_max ->
  0 <= payload_limit config kind ->
  exists message, forall n body e,
    read_frame config {| avail := replicate n KIND_PROBE ++ header_bytes kind id length ++ body;
                         at_end := e |} = Err (Error.Protocol message).
Proof.
  intros Hk Hid Hl H0.
  pose proof (valid_length_over config kind length ltac:(lia)) as V.
  destruct (valid_length config kind length) as [v|err|] eqn:E; [| |].
  - destruct v; [done|]. eexists. intros n body e.
    rewrite read_frame_step by (done || lia). rewrite E. reflexivity.
  - destruct (valid_length_Err _ _ _ _ E) as [message ->]. exists message. intros n body e.
    rewrite read_frame_step by (done || lia). by rewrite E.
  - by apply valid_length_no_panic in E.
Qed.

Lemma wire_oversized_refused_witness :
  exists message, forall body,
    read_frame Config_default
      {| avail := [] ++ header_bytes KIND_DATA 3 16385 ++ body; at_end := UnexpectedEof |}
    = Err (Error.Protocol message).
Proof.
  destruct (wire_oversized_refused Config_default KIND_DATA 3 16385) as [m H];
    [unfold KIND_DATA; lia | unfold u32_max; lia | unfold u32_max; cbn; lia | cbn; lia |].
  exists m. intros body. apply (H 0%nat body UnexpectedEof).
Defined.

(** Reading never reaches the code's [unreachable!]: for any input bytes
    [read_frame] returns a frame or a reported error. *)
Theorem read_frame_no_panic config r : no_panic (read_frame config r).
Proof.
  unfold read_frame, read_frame_header.
  pose proof (header_no_panic (at_end r) (avail r)) as Hh.
  destruct (read_frame_header_from _ _) as [[h r1]| |]; cbn [obind]; [|done..].
  repeat (case_match; [done|]).
  destruct (valid_length _ _ _) as [v| |] eqn:V; cbn [obind]; [|done|by apply valid_length_no_panic in V].
  destruct v; cbn [negb]; [|done].
  unfold read_exact. case_match; cbn [obind]; [|done].
  pose proof (parse_payload_no_panic _ (from_be_bytes (slice 4 8 h))
    (takez (from_be_bytes (slice 8 12 h)) (avail r1)) _ _ V) as P.
  by destruct (parse_payload _ _ _).
Qed.

(** Synchronization succeeds exactly when the first event that is not an
    elapsed deadline is a probe from the peer; it has then written one probe per
    turn plus exactly one reciprocal probe. *)
Theorem probe_handshake_spec events n :
  probe_handshake events = (n, Some (Ok tt)) <->
  exists k rest, events = replicate k DeadlineElapsed ++ ReadByte KIND_PROBE None :: rest
                 /\ n = Z.of_nat k + 2.
Proof.
  split.
  - revert n. induction events as [|ev events IH]; intros n; cbn; [done|].
    destruct ev as [k| | |k|b [k|]]; try (intros [= <-]; done).
    + destruct (probe_handshake events) as [w o]. intros [= <- ->].
      destruct (IH w) as (k & rest & -> & ->); [done|].
      exists (S k), rest. split; [done|lia].
    + case_match; done.
    + case_match eqn:B; [done|]. intros [= <-]. bool_prop. subst b.
      exists 0%nat, events. done.
  - intros (k & rest & -> & ->). induction k as [|k IH]; [done|].
    cbn [replicate app probe_handshake]. rewrite IH. f_equal. lia.
Qed.
