(* ===== verification/MuxChannel.v ===== *)
(** * Multiplexer: one logical channel

    The state of one channel ([ChannelInner]) and everything the code does
    while it holds that channel's lock: the [AsyncRead]/[AsyncWrite]
    implementations, [close] and [Drop] of [Channel] in
    [crates/libs/tascarrel-mux/src/connection.rs], and the per-channel bodies of
    the frame handlers, of the two frame selectors and of [complete_frame] in
    [driver.rs].  [MuxCore] runs these under the connection's
    registry.

    A [Waker] is the number of the task it wakes.  A body returns the new
    state, the tasks it woke, whether it notified the driver, and its result. *)

From S2P Require Import Prelude Utf8 MuxTypes MuxWire.

(** [Chunk]. *)
Record Chunk := { chunk_bytes : bytes; offset : Z }.
#[export] Instance Chunk_eta : Eta Chunk :=
  fun x => {| chunk_bytes := chunk_bytes x; offset := offset x |}.

(** [ChannelInner]. *)
Record ChannelInner := {
  inbound : list Chunk;
  inbound_len : Z;
  outbound : list Chunk;
  outbound_len : Z;
  outbound_in_flight : Z;
  send_bytes : Z;
  send_frames : Z;
  send_bytes_max : Z;
  send_frames_max : Z;
  send_frame_size : Z;
  receive_bytes : Z;
  receive_frames : Z;
  consumed_bytes : Z;
  consumed_frames : Z;
  discard_inbound : bool;
  window_in_flight : bool;
  local_fin_requested : bool;
  fin_in_flight : bool;
  fin_sent : bool;
  remote_fin : bool;
  local_close_requested : bool;
  closed_in_flight : bool;
  closed_sent : bool;
  remote_closed : bool;
  reset_pending : option bytes;
  reset_in_flight : bool;
  terminal : option Error.t;
  read_waker : option Z;
  write_waker : option Z;
  close_waker : option Z;
}.
#[export] Instance ChannelInner_eta : Eta ChannelInner := fun x => {|
  inbound := inbound x; inbound_len := inbound_len x;
  outbound := outbound x; outbound_len := outbound_len x;
  outbound_in_flight := outbound_in_flight x;
  send_bytes := send_bytes x; send_frames := send_frames x;
  send_bytes_max := send_bytes_max x; send_frames_max := send_frames_max x;
  send_frame_size := send_frame_size x;
  receive_bytes := receive_bytes x; receive_frames := receive_frames x;
  consumed_bytes := consumed_bytes x; consumed_frames := consumed_frames x;
  discard_inbound := discard_inbound x; window_in_flight := window_in_flight x;
  local_fin_requested := local_fin_requested x; fin_in_flight := fin_in_flight x;
  fin_sent := fin_sent x; remote_fin := remote_fin x;
  local_close_requested := local_close_requested x; closed_in_flight := closed_in_flight x;
  closed_sent := closed_sent x; remote_closed := remote_closed x;
  reset_pending := reset_pending x; reset_in_flight := reset_in_flight x;
  terminal := terminal x;
  read_waker := read_waker x; write_waker := write_waker x; close_waker := close_waker x |}.

(** [ChannelInner::new]. *)
Definition ChannelInner_new (config : Config) : ChannelInner := {|
  inbound := []; inbound_len := 0; outbound := []; outbound_len := 0; outbound_in_flight := 0;
  send_bytes := 0; send_frames := 0; send_bytes_max := 0; send_frames_max := 0;
  send_frame_size := 0;
  receive_bytes := initial_byte_window config; receive_frames := initial_frame_window config;
  consumed_bytes := 0; consumed_frames := 0;
  discard_inbound := false; window_in_flight := false;
  local_fin_requested := false; fin_in_flight := false; fin_sent := false; remote_fin := false;
  local_close_requested := false; closed_in_flight := false; closed_sent := false;
  remote_closed := false; reset_pending := None; reset_in_flight := false; terminal := None;
  read_waker := None; write_waker := None; close_waker := None |}.

(** What one locked section produced. *)
Record stepped (E A : Type) := {
  next : ChannelInner;
  woken : list Z;
  notified : bool;
  result : outcome E A;
}.
Arguments next {E A} _.
Arguments woken {E A} _.
Arguments notified {E A} _.
Arguments result {E A} _.
Definition step {E A} (c : ChannelInner) (w : list Z) (n : bool) (r : outcome E A) : stepped E A :=
  {| next := c; woken := w; notified := n; result := r |}.
(** A panic leaves the state as it was when the lock was taken. *)
Definition panicked {E A B} (c : ChannelInner) (o : outcome E A) (k : A -> stepped E B) : stepped E B :=
  match o with
  | Ok a => k a
  | Err e => step c [] false (Err e)
  | Panic m => step c [] false (Panic m)
  end.

(** [slot.take()] on a waker, and the tasks it wakes. *)
Definition waker_list (slot : option Z) : list Z :=
  match slot with Some w => [w] | None => [] end.

(** [wake_all]. *)
Definition wake_all (c : ChannelInner) : ChannelInner * list Z :=
  (c <| read_waker := None |> <| write_waker := None |> <| close_waker := None |>,
   waker_list (read_waker c) ++ waker_list (write_waker c) ++ waker_list (close_waker c)).

(** [set_waker]: a stored waker is replaced only when the task has changed. *)
Definition set_waker (slot : option Z) (waker : Z) : option Z :=
  match slot with
  | Some old => if old =? waker then slot else Some waker
  | None => Some waker
  end.

(** [Poll]. *)
Inductive Poll (A : Type) := Ready (a : A) | Pending.
Arguments Ready {A} a.
Arguments Pending {A}.

(** [channel_io_error]. *)
Definition channel_io_error (error : Error.t) : IoKind :=
  match error with
  | Error.Reset _ => ConnectionReset
  | Error.ConnectionClosed | Error.Io => BrokenPipe
  | _ => InvalidData
  end.

(** Unread bytes of a chunk: [bytes.len() - offset]. *)
Definition remaining (k : Chunk) : Z := len (chunk_bytes k) - offset k.

(** [usize] subtraction, which panics below zero. *)
Definition sub_usize {E} (x y : Z) : outcome E Z :=
  expect (checked_sub x y) "attempt to subtract with overflow".

(** ** Application side (connection.rs) *)

(** [AsyncRead::poll_read] with [capacity] bytes left in the caller's buffer;
    [Ready bs] hands over the bytes [bs] ([Ready []] is end of stream, or a full
    buffer). *)
Definition poll_read (waker capacity : Z) (c : ChannelInner) : stepped IoKind (Poll bytes) :=
  match terminal c with
  | Some error => step c [] false (Err (channel_io_error error))
  | None =>
      if capacity =? 0 then step c [] false (Ok (Ready []))
      else
        match inbound c with
        | [] =>
            if remote_fin c then step c [] false (Ok (Ready []))
            else step (c <| read_waker := set_waker (read_waker c) waker |>) [] false (Ok Pending)
        | front :: rest =>
            panicked c (sub_usize (len (chunk_bytes front)) (offset front)) (fun left =>
            let amount := Z.min capacity left in
            let data := slice (offset front) (offset front + amount) (chunk_bytes front) in
            let front' := front <| offset := offset front + amount |> in
            let frame_finished := offset front' =? len (chunk_bytes front') in
            let c1 :=
              if frame_finished then c <| inbound := rest |> else c <| inbound := front' :: rest |> in
            panicked c
              (if frame_finished && negb (remote_fin c)
               then expect (checked_add u32_max (consumed_frames c1) 1)
                      "consumption cannot exceed configured frame window"
               else Ok (consumed_frames c1)) (fun frames =>
            panicked c (sub_usize (inbound_len c1) amount) (fun unread =>
            panicked c
              (if remote_fin c then Ok (consumed_bytes c1)
               else
                 let? amount32 := expect (try_from u32_max amount) "frame sizes are u32-bounded" in
                 expect (checked_add u32_max (consumed_bytes c1) amount32)
                   "consumption cannot exceed configured byte window") (fun consumed =>
            step (c1 <| consumed_frames := frames |> <| inbound_len := unread |>
                     <| consumed_bytes := consumed |>)
              [] true (Ok (Ready data))))))
        end
  end.

(** [AsyncWrite::poll_write] of [data] under the channel's [buffer_limit]. *)
Definition poll_write (buffer_limit waker : Z) (data : bytes) (c : ChannelInner)
  : stepped IoKind (Poll Z) :=
  match terminal c with
  | Some error => step c [] false (Err (channel_io_error error))
  | None =>
      if local_fin_requested c then step c [] false (Err BrokenPipe)
      else if bool_decide (data = []) then step c [] false (Ok (Ready 0))
      else
        let available := saturating_sub buffer_limit (outbound_len c) in
        if available =? 0 then
          step (c <| write_waker := set_waker (write_waker c) waker |>) [] false (Ok Pending)
        else
          let amount := Z.min available (len data) in
          step (c <| outbound := outbound c ++ [{| chunk_bytes := takez amount data; offset := 0 |}] |>
                  <| outbound_len := outbound_len c + amount |>)
            [] true (Ok (Ready amount))
  end.

(** [AsyncWrite::poll_flush]. *)
Definition poll_flush (waker : Z) (c : ChannelInner) : stepped IoKind (Poll unit) :=
  match terminal c with
  | Some error => step c [] false (Err (channel_io_error error))
  | None =>
      if (outbound_len c =? 0) && (outbound_in_flight c =? 0)
      then step c [] false (Ok (Ready tt))
      else step (c <| write_waker := set_waker (write_waker c) waker |>) [] false (Ok Pending)
  end.

(** [AsyncWrite::poll_shutdown]. *)
Definition poll_shutdown (waker : Z) (c : ChannelInner) : stepped IoKind (Poll unit) :=
  match terminal c with
  | Some error => step c [] false (Err (channel_io_error error))
  | None =>
      let c1 := c <| local_fin_requested := true |> in
      if fin_sent c1 && negb (fin_in_flight c1) then step c1 [] false (Ok (Ready tt))
      else step (c1 <| write_waker := set_waker (write_waker c1) waker |>) [] true (Ok Pending)
  end.

(** The first locked section of [Channel::close]. *)
Definition close_request (c : ChannelInner) : stepped Error.t unit :=
  match terminal c with
  | Some error => step c [] false (Err error)
  | None =>
      step (c <| local_fin_requested := true |> <| local_close_requested := true |>)
        [] true (Ok tt)
  end.

(** The [poll_fn] of [Channel::close]. *)
Definition poll_close (waker : Z) (c : ChannelInner) : stepped Error.t (Poll unit) :=
  match terminal c with
  | Some error => step c [] false (Err error)
  | None =>
      if closed_sent c && remote_closed c then step c [] false (Ok (Ready tt))
      else step (c <| close_waker := set_waker (close_waker c) waker |>) [] false (Ok Pending)
  end.

(** [Drop for Channel]. *)
Definition drop_channel (c : ChannelInner) : stepped IoKind unit :=
  match terminal c with
  | Some _ => step c [] true (Ok tt)
  | None =>
      panicked c
        (if remote_fin c then Ok (consumed_bytes c, consumed_frames c)
         else
           let? unread := expect (try_from u32_max (inbound_len c)) "buffer limit fits u32" in
           let? consumed := expect (checked_add u32_max (consumed_bytes c) unread)
                              "discarded bytes are bounded by the receive window" in
           let? queued := expect (try_from u32_max (len (inbound c))) "frame window fits u32" in
           let? frames := expect (checked_add u32_max (consumed_frames c) queued)
                            "discarded frames are bounded by the receive window" in
           Ok (consumed, frames)) (fun '(consumed, frames) =>
      let c1 := c <| consumed_bytes := consumed |> <| consumed_frames := frames |>
                  <| inbound := [] |> <| inbound_len := 0 |> <| discard_inbound := true |>
                  <| local_fin_requested := true |> <| local_close_requested := true |> in
      let '(c2, tasks) := wake_all c1 in
      step c2 tasks true (Ok tt))
  end.

(** [Drop for OpenCancellation] while it is armed. *)
Definition drop_open_cancellation (c : ChannelInner) : stepped IoKind unit :=
  if bool_decide (is_Some (terminal c)) || bool_decide (is_Some (reset_pending c))
     || reset_in_flight c
  then step c [] false (Ok tt)
  else step (c <| reset_pending := Some (str "open cancelled") |>) [] true (Ok tt).

(** The per-channel part of [Core::fail]. *)
Definition fail_channel (error : Error.t) (c : ChannelInner) : ChannelInner * list Z :=
  wake_all (c <| terminal := Some error |> <| inbound := [] |> <| inbound_len := 0 |>
              <| outbound := [] |> <| outbound_len := 0 |>).

(** ** Frame handlers (driver.rs) *)

(** The send windows a peer advertised in OPEN or ACCEPT. *)
Definition set_send_windows (bytes frames frame_size : Z) (c : ChannelInner) : ChannelInner :=
  c <| send_bytes := bytes |> <| send_frames := frames |>
    <| send_bytes_max := bytes |> <| send_frames_max := frames |>
    <| send_frame_size := frame_size |>.

(** [receive_data] once the channel is found. *)
Definition channel_data (data : bytes) (c : ChannelInner) : stepped Error.t unit :=
  panicked c (expect (try_from u32_max (len data)) "wire DATA is u32-bounded") (fun length =>
  if remote_fin c || bool_decide (is_Some (terminal c))
  then step c [] false (Err (protocol_error "DATA after channel close"))
  else
    match checked_sub (receive_bytes c) length with
    | None => step c [] false (Err (protocol_error "peer exceeded channel byte credit"))
    | Some bytes_left =>
        let c1 := c <| receive_bytes := bytes_left |> in
        match checked_sub (receive_frames c1) 1 with
        | None => step c1 [] false (Err (protocol_error "peer exceeded channel frame credit"))
        | Some frames_left =>
            let c2 := c1 <| receive_frames := frames_left |> in
            if discard_inbound c2 then
              panicked c2
                (let? consumed := expect (checked_add u32_max (consumed_bytes c2) length)
                                    "discarded bytes are bounded by the receive window" in
                 let? frames := expect (checked_add u32_max (consumed_frames c2) 1)
                                  "discarded frames are bounded by the receive window" in
                 Ok (consumed, frames)) (fun '(consumed, frames) =>
              step (c2 <| consumed_bytes := consumed |> <| consumed_frames := frames |>)
                [] true (Ok tt))
            else
              match checked_add usize_max (inbound_len c2) (len data) with
              | None => step c2 [] false (Err (protocol_error "channel receive buffer overflow"))
              | Some queued =>
                  step (c2 <| inbound_len := queued |>
                           <| inbound := inbound c2 ++ [{| chunk_bytes := data; offset := 0 |}] |>
                           <| read_waker := None |>)
                    (waker_list (read_waker c2)) false (Ok tt)
              end
        end
    end).

(** [receive_window] once the channel is found. *)
Definition channel_window (bytes frames : Z) (c : ChannelInner) : stepped Error.t unit :=
  match checked_add u32_max (send_bytes c) bytes with
  | Some value =>
      if value <=? send_bytes_max c then
        let c1 := c <| send_bytes := value |> in
        match checked_add u32_max (send_frames c1) frames with
        | Some value' =>
            if value' <=? send_frames_max c1
            then step (c1 <| send_frames := value' |>) [] true (Ok tt)
            else step c1 [] false (Err (protocol_error "invalid channel frame credit update"))
        | None => step c1 [] false (Err (protocol_error "invalid channel frame credit update"))
        end
      else step c [] false (Err (protocol_error "invalid channel byte credit update"))
  | None => step c [] false (Err (protocol_error "invalid channel byte credit update"))
  end.

(** [receive_fin] once the channel is found. *)
Definition channel_fin (c : ChannelInner) : stepped Error.t unit :=
  if remote_fin c then step c [] false (Err (protocol_error "duplicate FIN"))
  else
    step (c <| remote_fin := true |> <| consumed_bytes := 0 |> <| consumed_frames := 0 |>
            <| read_waker := None |>)
      (waker_list (read_waker c)) true (Ok tt).

(** [receive_closed] once the channel is found; the result says whether the
    registry forgets the channel. *)
Definition channel_closed (c : ChannelInner) : stepped Error.t bool :=
  if negb (fin_sent c) || negb (remote_fin c) || remote_closed c
  then step c [] false (Err (protocol_error "unexpected or duplicate CLOSED"))
  else
    step (c <| remote_closed := true |> <| close_waker := None |>)
      (waker_list (close_waker c)) true (Ok (closed_sent c)).

(** The channel part of [receive_reset]; [reason] is already decoded. *)
Definition channel_reset (reason : bytes) (c : ChannelInner) : ChannelInner * list Z :=
  wake_all (c <| terminal := Some (Error.Reset reason) |> <| inbound := [] |> <| inbound_len := 0 |>
              <| outbound := [] |> <| outbound_len := 0 |>).

(** The channel part of [receive_reject]. *)
Definition channel_reject (reason : bytes) (c : ChannelInner) : ChannelInner * list Z :=
  wake_all (c <| terminal := Some (Error.Rejected reason) |>).

(** ** Frame selection (driver.rs) *)

(** The state mutation committed once a selected frame is written; the channel
    a [Completion] names is its [id]. *)
Module Completion.
Inductive t :=
| None
| Data (id bytes : Z)
| Window (id bytes frames : Z)
| Fin (id : Z)
| Reset (id : Z)
| Closed (id : Z).
End Completion.
#[export] Instance Completion_eq_dec : EqDecision Completion.t.
Proof. solve_decision. Defined.

Record Selected := { frame : Frame.t; completion : Completion.t }.

(** The loop body of [select_channel_control] for one channel: reset, window,
    FIN, CLOSED, in that order. *)
Definition control_of_channel (id : Z) (c : ChannelInner) : option (ChannelInner * Selected) :=
  match reset_pending c with
  | Some reason =>
      Some (c <| reset_pending := None |> <| reset_in_flight := true |>,
            {| frame := Frame.Reset id reason; completion := Completion.Reset id |})
  | None =>
      if negb (remote_fin c) && negb (window_in_flight c)
         && (negb (consumed_bytes c =? 0) || negb (consumed_frames c =? 0))
      then
        Some (c <| consumed_bytes := 0 |> <| consumed_frames := 0 |> <| window_in_flight := true |>,
              {| frame := Frame.Window id (consumed_bytes c) (consumed_frames c);
                 completion := Completion.Window id (consumed_bytes c) (consumed_frames c) |})
      else if local_fin_requested c && negb (fin_sent c) && negb (fin_in_flight c)
              && (outbound_len c =? 0) && (outbound_in_flight c =? 0)
      then
        Some (c <| fin_in_flight := true |> <| fin_sent := true |>,
              {| frame := Frame.Fin id; completion := Completion.Fin id |})
      else if fin_sent c && remote_fin c && negb (fin_in_flight c) && negb (window_in_flight c)
              && local_close_requested c && negb (closed_sent c) && negb (closed_in_flight c)
      then
        Some (c <| closed_in_flight := true |>,
              {| frame := Frame.Closed id; completion := Completion.Closed id |})
      else None
  end.

(** The [while bytes.len() < amount] loop of [select_channel_data]: [left] bytes
    are still to be taken from the front of the queue.  A turn either pops the
    front chunk or takes the last bytes. *)
Fixpoint take_outbound (left : Z) (queue : list Chunk) : outcome Error.t (bytes * list Chunk) :=
  if left <=? 0 then Ok ([], queue)
  else
    match queue with
    | [] => Panic "outbound length tracks chunks"
    | front :: rest =>
        let? unread := sub_usize (len (chunk_bytes front)) (offset front) in
        let take := Z.min left unread in
        let data := slice (offset front) (offset front + take) (chunk_bytes front) in
        let front' := front <| offset := offset front + take |> in
        if offset front' =? len (chunk_bytes front') then
          let? (more, queue') := take_outbound (left - take) rest in Ok (data ++ more, queue')
        else Ok (data, front' :: rest)
    end.

(** The loop body of [select_channel_data] for one channel. *)
Definition data_of_channel (id : Z) (c : ChannelInner)
  : outcome Error.t (option (ChannelInner * Selected)) :=
  if bool_decide (is_Some (reset_pending c)) || reset_in_flight c
     || (send_bytes c =? 0) || (send_frames c =? 0) || (outbound_len c =? 0)
  then Ok None
  else
    let amount := Z.min (Z.min (send_bytes c) (send_frame_size c)) (outbound_len c) in
    let? (data, queue) := take_outbound amount (outbound c) in
    let? unsent := sub_usize (outbound_len c) amount in
    let? amount32 := expect (try_from u32_max amount) "frame size is u32-bounded" in
    let? bytes_left := sub_usize (send_bytes c) amount32 in
    let? frames_left := sub_usize (send_frames c) 1 in
    Ok (Some (c <| outbound := queue |> <| outbound_len := unsent |>
                <| outbound_in_flight := outbound_in_flight c + amount |>
                <| send_bytes := bytes_left |> <| send_frames := frames_left |>,
              {| frame := Frame.Data id data; completion := Completion.Data id amount |})).

(** ** Completions (the channel part of [complete_frame]) *)

Definition complete_data (bytes : Z) (c : ChannelInner) : stepped Error.t unit :=
  panicked c (sub_usize (outbound_in_flight c) bytes) (fun left =>
  step (c <| outbound_in_flight := left |> <| write_waker := None |>)
    (waker_list (write_waker c)) false (Ok tt)).

(** [checked_add(..).filter(|value| *value <= limit)]. *)
Definition add_within (limit x y : Z) : option Z :=
  match checked_add u32_max x y with
  | Some value => if value <=? limit then Some value else None
  | None => None
  end.

Definition complete_window (config : Config) (bytes frames : Z) (c : ChannelInner)
  : stepped Error.t unit :=
  let c1 := c <| window_in_flight := false |> in
  panicked c1 (expect (add_within (initial_byte_window config) (receive_bytes c1) bytes)
                 "consumed byte credit is bounded by the receive window") (fun rb =>
  panicked c1 (expect (add_within (initial_frame_window config) (receive_frames c1) frames)
                 "consumed frame credit is bounded by the receive window") (fun rf =>
  step (c1 <| receive_bytes := rb |> <| receive_frames := rf |>) [] false (Ok tt))).

Definition complete_fin (c : ChannelInner) : stepped Error.t unit :=
  step (c <| fin_in_flight := false |> <| write_waker := None |>)
    (waker_list (write_waker c)) false (Ok tt).

Definition complete_reset (c : ChannelInner) : ChannelInner * list Z :=
  wake_all (c <| reset_in_flight := false |>
              <| terminal := Some (Error.Reset (str "local channel reset")) |>).

(** The result says whether the registry forgets the channel. *)
Definition complete_closed (c : ChannelInner) : stepped Error.t bool :=
  step (c <| closed_in_flight := false |> <| closed_sent := true |> <| close_waker := None |>)
    (waker_list (close_waker c)) false (Ok (remote_closed c)).
