(* ===== verification/MuxChannelInv.v ===== *)
(** * Multiplexer: the channel invariant

    [chan_inv config fl c] relates the counters, queues and flags of one channel
    to the frame [fl] its driver is currently writing for it.  Its heart is
    credit conservation: until the peer closes its half, the receive credit, the
    unread bytes, the consumed but unreturned bytes and the bytes of an in-flight
    WINDOW add up to the advertised window, and so do the frames.  Every locked
    section of [MuxChannel] preserves it and none of them can panic. *)

From S2P Require Import Prelude Utf8 MuxTypes MuxWire MuxChannel.

(** A queued chunk always has unread bytes. *)
Definition chunk_ok (k : Chunk) : Prop := 0 <= offset k < len (chunk_bytes k).
(** Unread bytes of a queue, and what they are. *)
Definition unread (q : list Chunk) : Z := fold_right (fun k acc => remaining k + acc) 0 q.
Arguments unread : simpl never.
Definition chunk_content (k : Chunk) : bytes := dropz (offset k) (chunk_bytes k).
Definition content (q : list Chunk) : bytes := concat (map chunk_content q).
Arguments content : simpl never.
Arguments chunk_content : simpl never.

(** The WINDOW and DATA amounts the writer holds for this channel. *)
Definition fl_bytes (fl : Completion.t) : Z :=
  match fl with Completion.Window _ b _ => b | _ => 0 end.
Definition fl_frames (fl : Completion.t) : Z :=
  match fl with Completion.Window _ _ f => f | _ => 0 end.
Definition fl_data (fl : Completion.t) : Z :=
  match fl with Completion.Data _ b => b | _ => 0 end.
Definition fl_window (fl : Completion.t) : bool :=
  match fl with Completion.Window _ _ _ => true | _ => false end.
Definition fl_fin (fl : Completion.t) : bool :=
  match fl with Completion.Fin _ => true | _ => false end.
Definition fl_reset (fl : Completion.t) : bool :=
  match fl with Completion.Reset _ => true | _ => false end.
Definition fl_closed (fl : Completion.t) : bool :=
  match fl with Completion.Closed _ => true | _ => false end.

Record chan_inv (config : Config) (fl : Completion.t) (c : ChannelInner) : Prop := {
  ci_inbound : Forall chunk_ok (inbound c);
  ci_inbound_len : inbound_len c = unread (inbound c);
  ci_outbound : Forall chunk_ok (outbound c);
  ci_outbound_len : outbound_len c = unread (outbound c);
  ci_nonneg : 0 <= receive_bytes c /\ 0 <= receive_frames c
              /\ 0 <= consumed_bytes c /\ 0 <= consumed_frames c
              /\ 0 <= fl_bytes fl /\ 0 <= fl_frames fl /\ 0 <= fl_data fl;
  ci_bytes : receive_bytes c + inbound_len c + consumed_bytes c + fl_bytes fl
             <= initial_byte_window config;
  ci_frames : receive_frames c + len (inbound c) + consumed_frames c + fl_frames fl
              <= initial_frame_window config;
  ci_conserved : terminal c = None -> remote_fin c = false ->
    receive_bytes c + inbound_len c + consumed_bytes c + fl_bytes fl = initial_byte_window config
    /\ receive_frames c + len (inbound c) + consumed_frames c + fl_frames fl
       = initial_frame_window config;
  ci_send : 0 <= send_bytes c <= send_bytes_max c /\ send_bytes_max c <= u32_max
            /\ 0 <= send_frames c <= send_frames_max c /\ send_frames_max c <= u32_max
            /\ (send_bytes_max c = 0 /\ send_frame_size c = 0
                \/ 1 <= send_frame_size c <= send_bytes_max c);
  ci_window_flag : window_in_flight c = fl_window fl;
  ci_data_flag : outbound_in_flight c = fl_data fl;
  ci_fin_flag : fin_in_flight c = fl_fin fl;
  ci_reset_flag : reset_in_flight c = fl_reset fl;
  ci_closed_flag : closed_in_flight c = fl_closed fl;
  ci_fin : fin_sent c = true -> local_fin_requested c = true /\ outbound c = [] /\ fl_data fl = 0;
  ci_fin_pending : fin_in_flight c = true -> fin_sent c = true;
  ci_closed : closed_sent c = true \/ closed_in_flight c = true \/ remote_closed c = true ->
              fin_sent c = true /\ remote_fin c = true;
  ci_discard : discard_inbound c = true -> inbound c = [];
  ci_reset : reset_pending c = None \/ reset_pending c = Some (str "open cancelled");
}.

(** ** Queues *)
Lemma remaining_pos k : chunk_ok k -> 0 < remaining k.
Proof. unfold chunk_ok, remaining. lia. Qed.
Lemma unread_nil : unread [] = 0.
Proof. done. Qed.
Lemma unread_cons k q : unread (k :: q) = remaining k + unread q.
Proof. done. Qed.
#[export] Hint Rewrite unread_nil unread_cons : tsc_len.
Lemma unread_nonneg q : Forall chunk_ok q -> 0 <= unread q.
Proof. induction 1 as [|k q Hk _ IH]; autorewrite with tsc_len; [lia|]. pose proof (remaining_pos k Hk). lia. Qed.
Lemma unread_app a b : unread (a ++ b) = unread a + unread b.
Proof. induction a as [|k a IH]; cbn [app]; autorewrite with tsc_len; lia. Qed.
#[export] Hint Rewrite unread_app : tsc_len.
Lemma unread_pos q : Forall chunk_ok q -> q <> [] -> 0 < unread q.
Proof.
  intros H Hq. destruct q as [|k q]; [done|]. inversion H as [|? ? Hk Hq']; subst.
  autorewrite with tsc_len. pose proof (remaining_pos k Hk). pose proof (unread_nonneg q Hq'). lia.
Qed.
Lemma unread_0_nil q : Forall chunk_ok q -> unread q = 0 -> q = [].
Proof.
  intros H E. destruct (decide (q = [])) as [|N]; [done|]. pose proof (unread_pos q H N). lia.
Qed.
Lemma len_content q : Forall chunk_ok q -> len (content q) = unread q.
Proof.
  induction 1 as [|k q Hk _ IH]; [done|]. unfold content. cbn. autorewrite with tsc_len.
  fold (content q). rewrite IH. unfold chunk_content, remaining, chunk_ok in *.
  rewrite len_dropz by lia. lia.
Qed.
Lemma content_app a b : content (a ++ b) = content a ++ content b.
Proof. unfold content. by rewrite map_app, concat_app. Qed.
Lemma content_cons k q : content (k :: q) = chunk_content k ++ content q.
Proof. done. Qed.

(** One turn of either copy loop: the bytes taken and the bytes left make up
    the chunk. *)
Lemma chunk_split k n :
  chunk_ok k -> 0 <= n <= remaining k ->
  slice (offset k) (offset k + n) (chunk_bytes k)
    ++ chunk_content (k <| offset := offset k + n |>) = chunk_content k
  /\ len (slice (offset k) (offset k + n) (chunk_bytes k)) = n.
Proof.
  unfold chunk_ok, remaining, chunk_content. intros. cbn. split.
  - apply slice_dropz. lia.
  - unfold slice. rewrite len_takez, len_dropz by lia. lia.
Qed.
Lemma chunk_done k : offset k = len (chunk_bytes k) -> chunk_content k = [].
Proof. intros. unfold chunk_content. apply dropz_ge. lia. Qed.

Lemma sub_usize_ok {E} x y : y <= x -> @sub_usize E x y = Ok (x - y).
Proof.
  intros. unfold sub_usize. by rewrite (proj2 (checked_sub_Some x y (x - y))).
Qed.
Lemma expect_try_from {E} m x msg : x <= m -> @expect E Z (try_from m x) msg = Ok x.
Proof. intros. by rewrite (proj2 (try_from_Some m x x)). Qed.
Lemma expect_checked_add {E} m x y msg :
  x + y <= m -> @expect E Z (checked_add m x y) msg = Ok (x + y).
Proof. intros. by rewrite (proj2 (checked_add_Some m x y (x + y))). Qed.

(** [take_outbound] never panics while enough bytes are queued, takes exactly
    the requested prefix and leaves the rest in order. *)
Lemma take_outbound_spec q left :
  Forall chunk_ok q -> 0 <= left <= unread q ->
  exists data q', take_outbound left q = Ok (data, q')
    /\ data ++ content q' = content q /\ len data = left
    /\ Forall chunk_ok q' /\ unread q' = unread q - left.
Proof.
  intros Hq. revert left. induction Hq as [|k q Hk Hq IH]; intros left Hl.
  - autorewrite with tsc_len in Hl. assert (left = 0) as -> by lia. by exists [], [].
  - cbn [take_outbound]. destruct (left <=? 0) eqn:L; bool_prop.
    { assert (left = 0) as -> by lia. exists [], (k :: q). split_and!; try done; [|lia].
      by constructor. }
    autorewrite with tsc_len in Hl. pose proof (remaining_pos k Hk) as Hr.
    rewrite sub_usize_ok by (unfold chunk_ok in Hk; lia). cbn [obind].
    fold (remaining k). set (n := Z.min left (remaining k)).
    destruct (chunk_split k n Hk) as [Hs Hn]; [lia|]. cbn [chunk_bytes set setter offset].
    case_match eqn:F; bool_prop.
    + assert (n = remaining k) as En by (unfold remaining; lia).
      destruct (IH (left - n)) as (data & q' & -> & Hc & Hd & Hok & Hu); [lia|]. cbn [obind].
      eexists _, q'. split; [reflexivity|].
      rewrite (chunk_done (k <| offset := offset k + n |>)), app_nil_r in Hs by done.
      rewrite len_app, Hn, Hd, <- app_assoc, Hc, content_cons, Hs.
      split_and!; try done; [lia|]. autorewrite with tsc_len. lia.
    + assert (n = left) as En by (unfold n, remaining in *; lia).
      eexists _, _. split; [reflexivity|]. rewrite Hn, !content_cons, app_assoc, Hs.
      split_and!; try done.
      * constructor; [|done]. unfold chunk_ok, remaining in *. cbn. lia.
      * autorewrite with tsc_len. unfold remaining. cbn. lia.
Qed.

(** ** Preservation *)
Definition step_ok (config : Config) (fl : Completion.t) {E A} (s : stepped E A) : Prop :=
  chan_inv config fl (next s) /\ no_panic (result s).

Lemma step_intro config fl {E A} c w n (r : outcome E A) :
  chan_inv config fl c -> no_panic r -> step_ok config fl (step c w n r).
Proof. done. Qed.

(** Closes the invariant's fields that the update does not touch. *)
Ltac chan_fields I :=
  destruct I; constructor; cbn in *; try assumption; try done;
  destr_and; try (split_and!; (lia || done || tauto)); try lia; try tauto.

(** Uses the invariant's implications whose premises are at hand. *)
Ltac feed_all :=
  repeat match goal with
    | H : ?P -> _, H' : ?P |- _ =>
        match type of P with Prop => specialize (H H') end
    end.
Ltac chan_finish :=
  intros; feed_all; destr_and; try congruence; try done; split_and?; try lia; try done; try tauto.

Section Preservation.
Context (config : Config) (Hconf : config_ok config).

Lemma new_inv : chan_inv config Completion.None (ChannelInner_new config).
Proof.
  destruct Hconf. constructor; cbn -[u32_max]; autorewrite with tsc_len; try done; unfold u32_max in *;
    intros; split_and?; try lia; intuition (lia || done).
Qed.

Lemma set_send_windows_inv fl c b f m :
  window_ok b f m -> chan_inv config fl c -> chan_inv config fl (set_send_windows b f m c).
Proof. intros (? & ? & ?) I. chan_fields I. Qed.

Lemma wakers_inv fl c r w k :
  chan_inv config fl c ->
  chan_inv config fl (c <| read_waker := r |> <| write_waker := w |> <| close_waker := k |>).
Proof. intros I. chan_fields I. Qed.

Lemma wake_all_inv fl c : chan_inv config fl c -> chan_inv config fl (wake_all c).1.
Proof. intros I. by apply wakers_inv. Qed.
Lemma read_waker_inv fl c r : chan_inv config fl c -> chan_inv config fl (c <| read_waker := r |>).
Proof. intros I. chan_fields I. Qed.
Lemma write_waker_inv fl c r : chan_inv config fl c -> chan_inv config fl (c <| write_waker := r |>).
Proof. intros I. chan_fields I. Qed.
Lemma close_waker_inv fl c r : chan_inv config fl c -> chan_inv config fl (c <| close_waker := r |>).
Proof. intros I. chan_fields I. Qed.

(** A read with data queued hands over a non-empty prefix of the unread
    content, within the caller's capacity, and leaves the rest in order. *)
Lemma poll_read_data fl c waker capacity :
  0 < capacity -> terminal c = None -> inbound c <> [] -> chan_inv config fl c ->
  exists data, result (poll_read waker capacity c) = Ok (Ready data)
    /\ data ++ content (inbound (next (poll_read waker capacity c))) = content (inbound c)
    /\ 1 <= len data <= capacity
    /\ chan_inv config fl (next (poll_read waker capacity c)).
Proof.
  intros Hcap T Hne I. unfold poll_read. rewrite T, (proj2 (Z.eqb_neq capacity 0)) by lia.
  destruct (inbound c) as [|k rest] eqn:Q; [done|]. clear Hne.
  pose proof (ci_inbound _ _ _ I) as Hq. rewrite Q in Hq. inversion Hq as [|? ? Hk Hrest]; subst.
  pose proof (remaining_pos k Hk) as Hpos.
  pose proof (ci_inbound_len _ _ _ I) as HL. rewrite Q in HL. autorewrite with tsc_len in HL.
  pose proof (unread_nonneg rest Hrest) as Hur. pose proof (len_nonneg rest).
  pose proof (ci_nonneg _ _ _ I) as N. pose proof (ci_bytes _ _ _ I) as B.
  pose proof (ci_frames _ _ _ I) as F. rewrite Q in F. autorewrite with tsc_len in F.
  pose proof (co_byte_window _ Hconf). pose proof (co_frame_window _ Hconf).
  rewrite sub_usize_ok by (unfold chunk_ok in Hk; lia). cbn [panicked]. fold (remaining k).
  set (n := Z.min capacity (remaining k)). assert (1 <= n <= remaining k) as Hn by lia.
  destruct (chunk_split k n Hk) as [Hs Hlen]; [lia|].
  destruct (offset (k <| offset := offset k + n |>) =? len (chunk_bytes (k <| offset := offset k + n |>)))
    eqn:Fin; bool_prop; cbn in Fin; cbn [andb].
  - rewrite (chunk_done (k <| offset := offset k + n |>)), app_nil_r in Hs by done.
    assert (n = remaining k) as En by (unfold remaining; lia).
    destruct (remote_fin c) eqn:RF; cbn [negb];
      cbn [consumed_frames consumed_bytes inbound_len set setter];
      rewrite ?expect_checked_add, ?expect_try_from by lia; cbn [panicked obind];
      rewrite sub_usize_ok by lia; cbn [panicked];
      rewrite ?expect_checked_add, ?expect_try_from by lia; cbn [panicked obind];
      rewrite ?expect_checked_add by lia; cbn [panicked];
      (eexists; split_and!; [reflexivity|by cbn; rewrite content_cons, Hs|lia|lia|]);
      chan_fields I; rewrite ?Q in *; autorewrite with tsc_len in *; chan_finish.
  - assert (Hk' : chunk_ok (k <| offset := offset k + n |>)).
    { unfold chunk_ok, remaining in *. cbn. lia. }
    assert (Hr' : remaining (k <| offset := offset k + n |>) = remaining k - n).
    { unfold remaining. cbn. lia. }
    destruct (remote_fin c) eqn:RF; cbn [negb];
      cbn [consumed_frames consumed_bytes inbound_len set setter];
      rewrite ?expect_checked_add, ?expect_try_from by lia; cbn [panicked obind];
      rewrite sub_usize_ok by lia; cbn [panicked];
      rewrite ?expect_checked_add, ?expect_try_from by lia; cbn [panicked obind];
      rewrite ?expect_checked_add by lia; cbn [panicked];
      (eexists; split_and!; [reflexivity|by cbn; rewrite !content_cons, app_assoc, Hs|lia|lia|]);
      chan_fields I; rewrite ?Q in *; autorewrite with tsc_len in *; chan_finish;
      first [by constructor | rewrite Hr'; lia].
Qed.

Lemma poll_read_ok fl c waker capacity :
  0 <= capacity -> chan_inv config fl c -> step_ok config fl (poll_read waker capacity c).
Proof.
  intros Hcap I. destruct (decide (capacity = 0 \/ terminal c <> None \/ inbound c = [])) as [D|D].
  - unfold poll_read. destruct (terminal c) eqn:T; [by apply step_intro|].
    case_match; bool_prop; [by apply step_intro|].
    destruct D as [?|[?|Q]]; [done..|]. rewrite Q.
    case_match; apply step_intro; try done. by apply read_waker_inv.
  - destruct (poll_read_data fl c waker capacity) as (d & R & _ & _ & I');
      [lia|destruct (terminal c) eqn:?; [exfalso; apply D; naive_solver|done]|tauto|done|].
    split; [done|]. by rewrite R.
Qed.

(** An accepted write appends a prefix of the data within the buffer limit. *)
Lemma poll_write_data fl c limit waker data :
  terminal c = None -> local_fin_requested c = false -> data <> [] -> outbound_len c < limit ->
  chan_inv config fl c ->
  let n := Z.min (limit - outbound_len c) (len data) in
  result (poll_write limit waker data c) = Ok (Ready n) /\ 1 <= n
  /\ content (outbound (next (poll_write limit waker data c))) = content (outbound c) ++ takez n data
  /\ outbound_len (next (poll_write limit waker data c)) <= limit
  /\ chan_inv config fl (next (poll_write limit waker data c)).
Proof.
  intros T L D Hlim I n. unfold poll_write. rewrite T, L, bool_decide_eq_false_2 by done.
  assert (0 < len data) by (destruct data; [done|]; rewrite len_cons; pose proof (len_nonneg data); lia).
  unfold saturating_sub. rewrite Z.max_r by lia.
  rewrite (proj2 (Z.eqb_neq (limit - outbound_len c) 0)) by lia. fold n.
  assert (1 <= n <= len data) by lia.
  set (k := {| chunk_bytes := takez n data; offset := 0 |}).
  assert (Hk : chunk_ok k) by (unfold chunk_ok, k; cbn; rewrite len_takez; lia).
  assert (Hr : remaining k = n) by (unfold remaining, k; cbn; rewrite len_takez; lia).
  cbn [result next step outbound outbound_len set setter]. split_and!; [done|lia| |lia|].
  - rewrite content_app. f_equal. unfold content, chunk_content, k. cbn. by rewrite app_nil_r.
  - chan_fields I.
    + apply Forall_app; split; [done|by constructor].
    + autorewrite with tsc_len. rewrite Hr. lia.
    + chan_finish.
Qed.

Lemma poll_write_ok fl c limit waker data :
  chan_inv config fl c -> step_ok config fl (poll_write limit waker data c).
Proof.
  intros I. destruct (decide (terminal c = None /\ local_fin_requested c = false
    /\ data <> [] /\ outbound_len c < limit)) as [(T & L & D & B)|N].
  - destruct (poll_write_data fl c limit waker data T L D B I) as (R & _ & _ & _ & I').
    split; [done|]. by rewrite R.
  - unfold poll_write. destruct (terminal c) eqn:T; [by apply step_intro|].
    destruct (local_fin_requested c) eqn:L; [by apply step_intro|].
    case_match; bool_prop; [by apply step_intro|].
    unfold saturating_sub. case_match eqn:E; bool_prop; [|exfalso; apply N; split_and!; done || lia].
    apply step_intro; [by apply write_waker_inv|done].
Qed.

Lemma poll_flush_ok fl c waker : chan_inv config fl c -> step_ok config fl (poll_flush waker c).
Proof.
  intros I. unfold poll_flush. repeat case_match; apply step_intro; try done.
  by apply write_waker_inv.
Qed.

Lemma request_fin_inv fl c :
  chan_inv config fl c -> chan_inv config fl (c <| local_fin_requested := true |>).
Proof. intros I. chan_fields I. Qed.
Lemma request_close_inv fl c :
  chan_inv config fl c -> chan_inv config fl (c <| local_close_requested := true |>).
Proof. intros I. chan_fields I. Qed.

Lemma poll_shutdown_ok fl c waker : chan_inv config fl c -> step_ok config fl (poll_shutdown waker c).
Proof.
  intros I. unfold poll_shutdown. repeat case_match; apply step_intro; try done.
  - by apply request_fin_inv.
  - by apply write_waker_inv, request_fin_inv.
Qed.

Lemma close_request_ok fl c : chan_inv config fl c -> step_ok config fl (close_request c).
Proof.
  intros I. unfold close_request. case_match; apply step_intro; try done.
  by apply request_close_inv, request_fin_inv.
Qed.

Lemma poll_close_ok fl c waker : chan_inv config fl c -> step_ok config fl (poll_close waker c).
Proof.
  intros I. unfold poll_close. repeat case_match; apply step_intro; try done.
  by apply close_waker_inv.
Qed.

Lemma drop_channel_ok fl c : chan_inv config fl c -> step_ok config fl (drop_channel c).
Proof.
  intros I. unfold drop_channel. destruct (terminal c) eqn:T; [by apply step_intro|].
  pose proof (ci_nonneg _ _ _ I). pose proof (ci_bytes _ _ _ I). pose proof (ci_frames _ _ _ I).
  pose proof (unread_nonneg _ (ci_inbound _ _ _ I)) as Hu. rewrite <- (ci_inbound_len _ _ _ I) in Hu.
  pose proof (len_nonneg (inbound c)).
  pose proof (co_byte_window _ Hconf). pose proof (co_frame_window _ Hconf).
  destruct (remote_fin c) eqn:RF; cbn [panicked].
  - apply step_intro; [|done]. apply wakers_inv. chan_fields I; autorewrite with tsc_len; chan_finish.
  - rewrite !expect_try_from by lia. cbn [obind]. rewrite expect_checked_add by lia. cbn [obind].
    rewrite expect_checked_add by lia. cbn [obind panicked].
    apply step_intro; [|done]. apply wakers_inv. chan_fields I; autorewrite with tsc_len; chan_finish.
Qed.

Lemma drop_open_cancellation_ok fl c :
  chan_inv config fl c -> step_ok config fl (drop_open_cancellation c).
Proof.
  intros I. unfold drop_open_cancellation. case_match; apply step_intro; try done. chan_fields I.
Qed.

(** Termination clears the queues; the credit equation is no longer claimed. *)
Lemma terminate_inv fl c error :
  chan_inv config fl c ->
  chan_inv config fl (c <| terminal := Some error |> <| inbound := [] |> <| inbound_len := 0 |>
                        <| outbound := [] |> <| outbound_len := 0 |>).
Proof.
  intros I. pose proof (unread_nonneg _ (ci_inbound _ _ _ I)) as Hu.
  rewrite <- (ci_inbound_len _ _ _ I) in Hu. pose proof (len_nonneg (inbound c)).
  chan_fields I; autorewrite with tsc_len; chan_finish.
Qed.

Lemma fail_channel_inv fl c error : chan_inv config fl c -> chan_inv config fl (fail_channel error c).1.
Proof. intros I. by apply wake_all_inv, terminate_inv. Qed.
Lemma channel_reset_inv fl c reason : chan_inv config fl c -> chan_inv config fl (channel_reset reason c).1.
Proof. intros I. by apply wake_all_inv, terminate_inv. Qed.
Lemma channel_reject_inv fl c reason : chan_inv config fl c -> chan_inv config fl (channel_reject reason c).1.
Proof. intros I. apply wake_all_inv. chan_fields I. Qed.

(** A DATA frame within credit is queued behind the unread content (or consumed
    at once when the application has dropped the channel). *)
Lemma channel_data_accept fl c data :
  terminal c = None -> remote_fin c = false -> 1 <= len data <= receive_bytes c ->
  1 <= receive_frames c -> chan_inv config fl c ->
  result (channel_data data c) = Ok tt
  /\ content (inbound (next (channel_data data c)))
     = (if discard_inbound c then [] else content (inbound c) ++ data)
  /\ receive_bytes (next (channel_data data c)) = receive_bytes c - len data
  /\ receive_frames (next (channel_data data c)) = receive_frames c - 1
  /\ chan_inv config fl (next (channel_data data c)).
Proof.
  intros T RF HL HF I. unfold channel_data.
  pose proof (ci_nonneg _ _ _ I). pose proof (ci_bytes _ _ _ I). pose proof (ci_frames _ _ _ I).
  pose proof (unread_nonneg _ (ci_inbound _ _ _ I)) as Hu. rewrite <- (ci_inbound_len _ _ _ I) in Hu.
  pose proof (len_nonneg (inbound c)).
  pose proof (co_byte_window _ Hconf). pose proof (co_frame_window _ Hconf).
  rewrite expect_try_from by lia. cbn [panicked].
  rewrite RF, T, bool_decide_eq_false_2 by (by intros []). cbn [orb].
  rewrite (proj2 (checked_sub_Some (receive_bytes c) (len data) _)) by (split; [reflexivity|lia]).
  cbn [receive_frames set setter].
  rewrite (proj2 (checked_sub_Some (receive_frames c) 1 _)) by (split; [reflexivity|lia]).
  destruct (discard_inbound c) eqn:D; cbn [discard_inbound set setter consumed_bytes consumed_frames];
    rewrite D.
  - rewrite !expect_checked_add by lia. cbn [obind panicked]. pose proof (ci_discard _ _ _ I D) as Q.
    split_and!; [done|by cbn; rewrite Q|done|done|]. chan_fields I; chan_finish.
  - cbn [inbound_len set setter]. unfold u32_max in *.
    rewrite (proj2 (checked_add_Some usize_max (inbound_len c) (len data) _))
      by (split; [reflexivity|unfold usize_max, u64_max; lia]).
    assert (Hk : chunk_ok {| chunk_bytes := data; offset := 0 |}) by (unfold chunk_ok; cbn; lia).
    cbn. split_and!; try done.
    + rewrite content_app. f_equal. unfold content. cbn. by rewrite app_nil_r.
    + chan_fields I; autorewrite with tsc_len; unfold remaining; cbn; chan_finish.
      apply Forall_app; split; [done|by constructor].
Qed.

(** A handler that reports an error leaves a state the connection failure that
    follows brings back under the invariant. *)
Definition recv_ok (fl : Completion.t) {A} (s : stepped Error.t A) : Prop :=
  no_panic (result s) /\
  match result s with
  | Ok _ => chan_inv config fl (next s)
  | _ => forall error, chan_inv config fl (fail_channel error (next s)).1
  end.

Lemma recv_ok_same fl {A} c w n (r : outcome Error.t A) :
  chan_inv config fl c -> no_panic r -> recv_ok fl (step c w n r).
Proof.
  intros I P. split; [done|]. cbn. destruct r; [done|..]; intros; by apply fail_channel_inv.
Qed.

Lemma channel_data_ok fl c data :
  1 <= len data <= u32_max -> chan_inv config fl c -> recv_ok fl (channel_data data c).
Proof.
  intros HL I. destruct (decide (terminal c = None /\ remote_fin c = false
    /\ len data <= receive_bytes c /\ 1 <= receive_frames c)) as [(T & RF & B & F)|N].
  - destruct (channel_data_accept fl c data) as (R & _ & _ & _ & I'); [done|done|lia|lia|done|].
    split; by rewrite R.
  - unfold channel_data. rewrite expect_try_from by lia. cbn [panicked].
    case_match eqn:G; [by apply recv_ok_same|]. apply orb_false_iff in G as [G1 G2].
    apply bool_decide_eq_false_1, eq_None_not_Some in G2.
    destruct (checked_sub (receive_bytes c) (len data)) as [b|] eqn:B; [|by apply recv_ok_same].
    apply checked_sub_Some in B as [-> ?]. cbn [receive_frames set setter].
    destruct (checked_sub (receive_frames c) 1) as [f|] eqn:F.
    { apply checked_sub_Some in F as [_ ?]. exfalso. apply N. split_and!; done || lia. }
    split; [done|]. cbn [result step next]. intros error. apply wake_all_inv.
    pose proof (unread_nonneg _ (ci_inbound _ _ _ I)) as Hu.
    rewrite <- (ci_inbound_len _ _ _ I) in Hu. pose proof (len_nonneg (inbound c)).
    chan_fields I; autorewrite with tsc_len; chan_finish.
Qed.

Lemma channel_window_ok fl c bytes frames :
  0 <= bytes -> 0 <= frames -> chan_inv config fl c -> recv_ok fl (channel_window bytes frames c).
Proof.
  intros Hb Hf I. unfold channel_window.
  destruct (checked_add _ (send_bytes c) _) as [v|] eqn:B; [|by apply recv_ok_same].
  apply checked_add_Some in B as [-> ?]. case_match eqn:M; bool_prop; [|by apply recv_ok_same].
  assert (I1 : chan_inv config fl (c <| send_bytes := send_bytes c + bytes |>)).
  { chan_fields I. }
  destruct (checked_add _ (send_frames _) _) as [v|] eqn:F; [|by apply recv_ok_same].
  apply checked_add_Some in F as [-> ?]. case_match eqn:M2; bool_prop; [|by apply recv_ok_same].
  apply recv_ok_same; [|done]. chan_fields I1.
Qed.

Lemma channel_fin_ok fl c : chan_inv config fl c -> recv_ok fl (channel_fin c).
Proof.
  intros I. unfold channel_fin. case_match; [by apply recv_ok_same|].
  apply recv_ok_same; [|done]. chan_fields I; chan_finish.
Qed.

Lemma channel_closed_ok fl c : chan_inv config fl c -> recv_ok fl (channel_closed c).
Proof.
  intros I. unfold channel_closed. case_match eqn:E; [by apply recv_ok_same|]. bool_prop.
  apply recv_ok_same; [|done]. chan_fields I; chan_finish.
Qed.

(** ** Selection and completion *)

(** Selecting a control frame for an idle channel records it as in flight. *)
Lemma control_of_channel_ok id c c' sel :
  chan_inv config Completion.None c -> control_of_channel id c = Some (c', sel) ->
  chan_inv config (completion sel) c' /\ Frame.id (frame sel) = id.
Proof.
  intros I. unfold control_of_channel.
  destruct (reset_pending c); [|repeat (case_match; bool_prop); try done];
    intros [= <- <-]; (split; [|done]); chan_fields I; chan_finish.
  apply unread_0_nil; [done|lia].
Qed.

(** A selected DATA frame carries a non-empty prefix of the unsent content,
    bounded by the peer's credit and frame size. *)
Lemma data_of_channel_some id c :
  chan_inv config Completion.None c ->
  reset_pending c = None -> 0 < send_bytes c -> 0 < send_frames c -> 0 < outbound_len c ->
  exists c' data,
    data_of_channel id c
      = Ok (Some (c', {| frame := Frame.Data id data; completion := Completion.Data id (len data) |}))
    /\ 1 <= len data <= send_bytes c /\ len data <= send_frame_size c
    /\ data ++ content (outbound c') = content (outbound c)
    /\ send_bytes c' = send_bytes c - len data /\ send_frames c' = send_frames c - 1
    /\ chan_inv config (Completion.Data id (len data)) c'.
Proof.
  intros I R Hs Hf Ho. unfold data_of_channel.
  pose proof (ci_reset_flag _ _ _ I) as RFl. cbn in RFl.
  rewrite R, RFl, bool_decide_eq_false_2 by (by intros []). cbn [orb].
  rewrite !(proj2 (Z.eqb_neq _ _)) by lia. cbn [orb].
  pose proof (ci_send _ _ _ I) as S. pose proof (ci_outbound_len _ _ _ I) as OL.
  assert (NF : fin_sent c = false).
  { destruct (fin_sent c) eqn:Fs; [|done]. destruct (ci_fin _ _ _ I Fs) as (_ & Q & _).
    rewrite Q, unread_nil in OL. lia. }
  set (n := Z.min (Z.min (send_bytes c) (send_frame_size c)) (outbound_len c)).
  assert (1 <= n <= outbound_len c) as Hn by lia.
  destruct (take_outbound_spec (outbound c) n) as (data & q & -> & Hc & Hd & Hq & Hu);
    [apply I|lia|]. cbn [obind].
  rewrite sub_usize_ok by lia. cbn [obind]. unfold u32_max in *.
  rewrite expect_try_from by (unfold u32_max; lia). cbn [obind].
  rewrite sub_usize_ok by lia. cbn [obind]. rewrite sub_usize_ok by lia. cbn [obind].
  eexists _, data. rewrite Hd. split_and!; try done; try lia. chan_fields I; chan_finish.
Qed.

Lemma data_of_channel_none id c :
  chan_inv config Completion.None c ->
  reset_pending c <> None \/ send_bytes c = 0 \/ send_frames c = 0 \/ outbound_len c = 0 ->
  data_of_channel id c = Ok None.
Proof.
  intros I H. unfold data_of_channel. case_match eqn:E; [done|]. exfalso. bool_prop.
  apply eq_None_not_Some in H0. tauto.
Qed.

Lemma data_of_channel_ok id c :
  chan_inv config Completion.None c ->
  match data_of_channel id c with
  | Ok (Some (c', sel)) => chan_inv config (completion sel) c' /\ Frame.id (frame sel) = id
  | Ok None => True
  | _ => False
  end.
Proof.
  intros I. pose proof (ci_send _ _ _ I). pose proof (ci_outbound_len _ _ _ I) as OL.
  pose proof (unread_nonneg _ (ci_outbound _ _ _ I)).
  destruct (decide (reset_pending c <> None \/ send_bytes c = 0 \/ send_frames c = 0
    \/ outbound_len c = 0)) as [D|D].
  - by rewrite data_of_channel_none.
  - destruct (data_of_channel_some id c) as (c' & data & -> & _ & _ & _ & _ & _ & I');
      try lia; [done| |done].
    destruct (reset_pending c) eqn:?; [exfalso; apply D; naive_solver|done].
Qed.

Lemma complete_data_ok id bytes c :
  chan_inv config (Completion.Data id bytes) c ->
  chan_inv config Completion.None (next (complete_data bytes c)) /\ no_panic (result (complete_data bytes c)).
Proof.
  intros I. unfold complete_data. pose proof (ci_data_flag _ _ _ I) as F. cbn in F.
  rewrite sub_usize_ok by lia. cbn [panicked]. split; [|done]. chan_fields I; chan_finish.
Qed.

Lemma add_within_ok limit x y : x + y <= limit -> limit <= u32_max -> add_within limit x y = Some (x + y).
Proof.
  intros. unfold add_within. rewrite (proj2 (checked_add_Some u32_max x y (x + y))) by lia.
  by rewrite (proj2 (Z.leb_le (x + y) limit)).
Qed.

Lemma complete_window_ok id bytes frames c :
  chan_inv config (Completion.Window id bytes frames) c ->
  chan_inv config Completion.None (next (complete_window config bytes frames c))
  /\ no_panic (result (complete_window config bytes frames c)).
Proof.
  intros I. unfold complete_window.
  pose proof (ci_nonneg _ _ _ I). pose proof (ci_bytes _ _ _ I). pose proof (ci_frames _ _ _ I).
  pose proof (unread_nonneg _ (ci_inbound _ _ _ I)) as Hu. rewrite <- (ci_inbound_len _ _ _ I) in Hu.
  pose proof (len_nonneg (inbound c)).
  pose proof (co_byte_window _ Hconf). pose proof (co_frame_window _ Hconf).
  cbn [receive_bytes receive_frames set setter fl_bytes fl_frames] in *.
  rewrite add_within_ok by lia. cbn [expect panicked]. rewrite add_within_ok by lia.
  cbn [expect panicked]. split; [|done]. chan_fields I; chan_finish.
Qed.

Lemma complete_fin_ok id c :
  chan_inv config (Completion.Fin id) c -> chan_inv config Completion.None (next (complete_fin c)).
Proof. intros I. chan_fields I; chan_finish. Qed.

Lemma complete_reset_ok id c :
  chan_inv config (Completion.Reset id) c -> chan_inv config Completion.None (complete_reset c).1.
Proof. intros I. apply wake_all_inv. chan_fields I; chan_finish. Qed.

Lemma complete_closed_ok id c :
  chan_inv config (Completion.Closed id) c -> chan_inv config Completion.None (next (complete_closed c)).
Proof.
  intros I. pose proof (ci_closed_flag _ _ _ I) as F. cbn in F. chan_fields I; chan_finish.
Qed.
End Preservation.
