(* ===== verification/MuxPair.v ===== *)
(** * Multiplexer: two endpoints of one established channel

    Two [ChannelInner] states, the frame each driver is writing, and the two
    ordered transports between them.  An endpoint acts by an application call,
    by selecting a frame ([select_channel_control], [select_channel_data]: the
    frame is on the transport from then on, as the peer may receive it before the
    local writer resumes), by completing it ([complete_frame]), or by processing
    the next frame of its transport ([process_frame]).

    The flow-control and close handshakes are safe on every interleaving in
    which a WINDOW write is committed before the next DATA frame is processed
    ([eager]).  Without that restriction a compliant pair of peers can drive the
    connection into a protocol error; the trace is [window_race]. *)

From S2P Require Import Prelude Utf8 MuxTypes MuxWire MuxChannel MuxChannelInv.

(** One side: its channel, the completion its writer holds, and what the
    application has written, read and thrown away so far. *)
Record endpoint := {
  chan : ChannelInner;
  flight : Completion.t;
  written : bytes;
  delivered : bytes;
  lost : bytes;
  dropped : bool;
}.
#[export] Instance endpoint_eta : Eta endpoint := fun x => {|
  chan := chan x; flight := flight x; written := written x; delivered := delivered x;
  lost := lost x; dropped := dropped x |}.

(** [Channel] operations an application may call before it drops the handle. *)
Inductive app_op :=
| OpWrite (waker : Z) (data : bytes)
| OpRead (waker capacity : Z)
| OpFlush (waker : Z)
| OpShutdown (waker : Z)
| OpClose
| OpPollClose (waker : Z)
| OpDrop.

Definition accepted {E} (r : outcome E (Poll Z)) : Z :=
  match r with Ok (Ready n) => n | _ => 0 end.
Definition handed {E} (r : outcome E (Poll bytes)) : bytes :=
  match r with Ok (Ready d) => d | _ => [] end.

Definition app_step (config : Config) (op : app_op) (e : endpoint) : endpoint :=
  match op with
  | OpWrite waker data =>
      let s := poll_write (initial_byte_window config) waker data (chan e) in
      e <| chan := next s |> <| written := written e ++ takez (accepted (result s)) data |>
  | OpRead waker capacity =>
      let s := poll_read waker capacity (chan e) in
      e <| chan := next s |> <| delivered := delivered e ++ handed (result s) |>
  | OpFlush waker => e <| chan := next (poll_flush waker (chan e)) |>
  | OpShutdown waker => e <| chan := next (poll_shutdown waker (chan e)) |>
  | OpClose => e <| chan := next (close_request (chan e)) |>
  | OpPollClose waker => e <| chan := next (poll_close waker (chan e)) |>
  | OpDrop =>
      e <| chan := next (drop_channel (chan e)) |>
        <| lost := lost e ++ content (inbound (chan e)) |> <| dropped := true |>
  end.

(** Operations with arguments an application can pass. *)
Definition op_ok (op : app_op) : Prop :=
  match op with
  | OpWrite _ data => bytes_ok data
  | OpRead _ capacity => 0 <= capacity
  | _ => True
  end.

(** [complete_frame] for this channel. *)
Definition complete (config : Config) (fl : Completion.t) (c : ChannelInner) : ChannelInner :=
  match fl with
  | Completion.None => c
  | Completion.Data _ bytes => next (complete_data bytes c)
  | Completion.Window _ bytes frames => next (complete_window config bytes frames c)
  | Completion.Fin _ => next (complete_fin c)
  | Completion.Reset _ => (complete_reset c).1
  | Completion.Closed _ => next (complete_closed c)
  end.

(** [process_frame] for this channel. *)
Definition process (f : Frame.t) (c : ChannelInner) : stepped Error.t unit :=
  match f with
  | Frame.Data _ data => channel_data data c
  | Frame.Window _ bytes frames => channel_window bytes frames c
  | Frame.Fin _ => channel_fin c
  | Frame.Closed _ =>
      let s := channel_closed c in
      step (next s) (woken s) (notified s) (let? _ := result s in Ok tt)
  | _ => step c [] false (Err (protocol_error "unexpected frame on an established channel"))
  end.

(** Steps of one endpoint of channel [id], with the frames it puts on its
    transport. *)
Inductive local_step (config : Config) (id : Z) : endpoint -> list Frame.t -> endpoint -> Prop :=
| LApp op e :
    dropped e = false -> op_ok op ->
    local_step config id e [] (app_step config op e)
| LControl e c' sel :
    flight e = Completion.None -> control_of_channel id (chan e) = Some (c', sel) ->
    local_step config id e [frame sel] (e <| chan := c' |> <| flight := completion sel |>)
| LData e c' sel :
    flight e = Completion.None -> data_of_channel id (chan e) = Ok (Some (c', sel)) ->
    local_step config id e [frame sel] (e <| chan := c' |> <| flight := completion sel |>)
| LComplete e :
    flight e <> Completion.None ->
    local_step config id e []
      (e <| chan := complete config (flight e) (chan e) |> <| flight := Completion.None |>).

Definition is_data (f : Frame.t) : bool :=
  match f with Frame.Data _ _ => true | _ => false end.

(** Processing [f] at an endpoint whose application may have dropped the
    channel: the bytes of a DATA frame are then thrown away. *)
Definition deliver (f : Frame.t) (e : endpoint) : endpoint :=
  e <| chan := next (process f (chan e)) |>
    <| lost := lost e ++ (match f with
                          | Frame.Data _ data => if discard_inbound (chan e) then data else []
                          | _ => [] end) |>.

(** The pair: left and right endpoints, the left-to-right and right-to-left
    transports. *)
Record pair := { left : endpoint; right : endpoint; lr : list Frame.t; rl : list Frame.t }.
Definition swap (p : pair) : pair :=
  {| left := right p; right := left p; lr := rl p; rl := lr p |}.

(** A WINDOW the left writer has not completed forbids processing DATA there. *)
Definition may_process (eager : bool) (f : Frame.t) (e : endpoint) : Prop :=
  eager = true -> is_data f = true -> fl_window (flight e) = false.

Inductive left_step (eager : bool) (config : Config) (id : Z) : pair -> pair -> Prop :=
| PLocal p e' out :
    local_step config id (left p) out e' ->
    left_step eager config id p
      {| left := e'; right := right p; lr := lr p ++ out; rl := rl p |}
| PDeliver p f rest :
    rl p = f :: rest -> may_process eager f (left p) ->
    result (process f (chan (left p))) = Ok tt ->
    left_step eager config id p
      {| left := deliver f (left p); right := right p; lr := lr p; rl := rest |}.

(** Either endpoint moves. *)
Definition pair_step (eager : bool) (cl cr : Config) (id : Z) (p p' : pair) : Prop :=
  left_step eager cl id p p' \/ left_step eager cr id (swap p) (swap p').

(** A freshly established channel: each side knows the other's windows. *)
Definition established (own peer : Config) : endpoint := {|
  chan := set_send_windows (initial_byte_window peer) (initial_frame_window peer)
            (max_frame_size peer) (ChannelInner_new own);
  flight := Completion.None; written := []; delivered := []; lost := []; dropped := false |}.
Definition initial_pair (cl cr : Config) : pair :=
  {| left := established cl cr; right := established cr cl; lr := []; rl := [] |}.

Definition reachable (eager : bool) (cl cr : Config) (id : Z) : pair -> Prop :=
  rtc (pair_step eager cl cr id) (initial_pair cl cr).

(** ** What the transport carries *)
Definition frame_data (f : Frame.t) : bytes :=
  match f with Frame.Data _ data => data | _ => [] end.
Definition wire_data (w : list Frame.t) : bytes := concat (map frame_data w).
Definition wire_frames (w : list Frame.t) : Z :=
  fold_right (fun f acc => (if is_data f then 1 else 0) + acc) 0 w.
Definition credit_bytes (w : list Frame.t) : Z :=
  fold_right (fun f acc => (match f with Frame.Window _ b _ => b | _ => 0 end) + acc) 0 w.
Definition credit_frames (w : list Frame.t) : Z :=
  fold_right (fun f acc => (match f with Frame.Window _ _ n => n | _ => 0 end) + acc) 0 w.

(** The close handshake as an automaton over one transport: FIN once, no DATA
    after it, CLOSED once and last. *)
Fixpoint run_flags (fin closed : bool) (w : list Frame.t) : option (bool * bool) :=
  match w with
  | [] => Some (fin, closed)
  | f :: w' =>
      if closed then None
      else
        match f with
        | Frame.Data _ _ => if fin then None else run_flags fin closed w'
        | Frame.Window _ _ _ => run_flags fin closed w'
        | Frame.Fin _ => if fin then None else run_flags true closed w'
        | Frame.Closed _ => if fin then run_flags fin true w' else None
        | _ => None
        end
  end.

(** ** The invariant, one direction at a time

    [x] sends to [y] over [xy] and hears from it over [yx]; [config] is [y]'s. *)
Record dir_inv (config : Config) (x y : endpoint) (xy yx : list Frame.t) : Prop := {
  di_windows : send_bytes_max (chan x) = initial_byte_window config
    /\ send_frames_max (chan x) = initial_frame_window config
    /\ send_frame_size (chan x) = max_frame_size config;
  di_credit :
    send_bytes (chan x) + len (wire_data xy) + inbound_len (chan y) + consumed_bytes (chan y)
      + credit_bytes yx <= initial_byte_window config
    /\ send_frames (chan x) + wire_frames xy + len (inbound (chan y)) + consumed_frames (chan y)
         + credit_frames yx <= initial_frame_window config;
  di_exact : remote_fin (chan y) = false ->
    send_bytes (chan x) + len (wire_data xy) + inbound_len (chan y) + consumed_bytes (chan y)
      + credit_bytes yx = initial_byte_window config
    /\ send_frames (chan x) + wire_frames xy + len (inbound (chan y)) + consumed_frames (chan y)
         + credit_frames yx = initial_frame_window config;
  di_flags : run_flags (remote_fin (chan y)) (remote_closed (chan y)) xy
    = Some (fin_sent (chan x), closed_sent (chan x) || closed_in_flight (chan x));
  di_stream : written x = delivered y ++ lost y ++ content (inbound (chan y)) ++ wire_data xy
                          ++ content (outbound (chan x));
  di_written : bytes_ok (written x);
  di_frames : Forall (frame_ok config) xy;
  di_lost : dropped y = false -> lost y = [];
  di_discard : discard_inbound (chan y) = dropped y;
}.

Record pair_inv (cl cr : Config) (p : pair) : Prop := {
  pi_left : chan_inv cl (flight (left p)) (chan (left p));
  pi_right : chan_inv cr (flight (right p)) (chan (right p));
  pi_live : terminal (chan (left p)) = None /\ reset_pending (chan (left p)) = None
            /\ reset_in_flight (chan (left p)) = false
            /\ terminal (chan (right p)) = None /\ reset_pending (chan (right p)) = None
            /\ reset_in_flight (chan (right p)) = false;
  pi_lr : dir_inv cr (left p) (right p) (lr p) (rl p);
  pi_rl : dir_inv cl (right p) (left p) (rl p) (lr p);
}.

(** ** Frame lemmas: which part of the state an operation leaves alone *)
Record same_send (c c' : ChannelInner) : Prop := {
  ss_bytes : send_bytes c' = send_bytes c;
  ss_frames : send_frames c' = send_frames c;
  ss_bytes_max : send_bytes_max c' = send_bytes_max c;
  ss_frames_max : send_frames_max c' = send_frames_max c;
  ss_size : send_frame_size c' = send_frame_size c;
  ss_outbound : content (outbound c') = content (outbound c);
  ss_fin : fin_sent c' = fin_sent c;
  ss_closed : closed_sent c' || closed_in_flight c' = closed_sent c || closed_in_flight c;
}.
Record same_recv (c c' : ChannelInner) : Prop := {
  sr_inbound : inbound c' = inbound c;
  sr_len : inbound_len c' = inbound_len c;
  sr_consumed : consumed_bytes c' = consumed_bytes c;
  sr_frames : consumed_frames c' = consumed_frames c;
  sr_fin : remote_fin c' = remote_fin c;
  sr_closed : remote_closed c' = remote_closed c;
  sr_discard : discard_inbound c' = discard_inbound c;
}.
Record same_live (c c' : ChannelInner) : Prop := {
  sl_terminal : terminal c' = terminal c;
  sl_reset : reset_pending c' = reset_pending c;
  sl_flight : reset_in_flight c' = reset_in_flight c;
}.
Record same_credit (c c' : ChannelInner) : Prop := {
  sc_bytes : receive_bytes c' = receive_bytes c;
  sc_frames : receive_frames c' = receive_frames c;
  sc_fin : remote_fin c' = remote_fin c;
  sc_closed : remote_closed c' = remote_closed c;
}.

Ltac same := constructor; cbn; try done.

Lemma dir_send config x x' y xy yx :
  same_send (chan x) (chan x') -> written x' = written x ->
  dir_inv config x y xy yx -> dir_inv config x' y xy yx.
Proof.
  intros [E1 E2 E3 E4 E5 E6 E7 E8] W [].
  constructor; rewrite ?E1, ?E2, ?E3, ?E4, ?E5, ?E6, ?E7, ?E8, ?W; assumption.
Qed.
Lemma dir_recv config x y y' xy yx :
  same_recv (chan y) (chan y') -> delivered y' = delivered y -> lost y' = lost y ->
  dropped y' = dropped y -> dir_inv config x y xy yx -> dir_inv config x y' xy yx.
Proof.
  intros [E1 E2 E3 E4 E5 E6 E7] D L P [].
  constructor; rewrite ?E1, ?E2, ?E3, ?E4, ?E5, ?E6, ?E7, ?D, ?L, ?P; assumption.
Qed.

Lemma poll_read_frame w n c :
  let c' := next (poll_read w n c) in
  same_send c c' /\ same_live c c' /\ same_credit c c' /\ discard_inbound c' = discard_inbound c
  /\ len (inbound c') <= len (inbound c)
  /\ (remote_fin c = true -> consumed_bytes c' = consumed_bytes c
                             /\ consumed_frames c' = consumed_frames c).
Proof.
  assert (Refl : same_send c c /\ same_live c c /\ same_credit c c /\ discard_inbound c = discard_inbound c
    /\ len (inbound c) <= len (inbound c)
    /\ (remote_fin c = true -> consumed_bytes c = consumed_bytes c
                               /\ consumed_frames c = consumed_frames c)).
  { split_and!; try same; lia. }
  cbv zeta. unfold poll_read.
  destruct (terminal c); [exact Refl|]. destruct (n =? 0); [exact Refl|].
  destruct (inbound c) as [|k rest] eqn:Q.
  { rewrite <- Q in *. destruct (remote_fin c) eqn:R; [exact Refl|]. split_and!; try same; cbn; try lia; congruence. }
  destruct (sub_usize _ _) as [m| |]; cbn [panicked]; [|rewrite <- ?Q in *; exact Refl..].
  destruct (offset _ =? _) eqn:Fin; cbn [andb]; destruct (remote_fin c) eqn:R; cbn [negb];
    repeat (match goal with
            | |- context [panicked _ (Ok _) _] => cbn [panicked]
            | |- context [panicked _ ?o _] =>
                destruct o; cbn [panicked]; [|rewrite <- ?Q in *; exact Refl..]
            end);
    split_and!; try same; cbn; autorewrite with tsc_len; try lia; try congruence.
Qed.

(** Operations that move no byte and no credit. *)
Definition inert (c c' : ChannelInner) : Prop :=
  same_send c c' /\ same_recv c c' /\ same_live c c'.
Ltac inert_tac := repeat case_match; (split_and!; same).

Lemma poll_flush_inert w c : inert c (next (poll_flush w c)).
Proof. unfold poll_flush. inert_tac. Qed.
Lemma poll_shutdown_inert w c : inert c (next (poll_shutdown w c)).
Proof. unfold poll_shutdown. inert_tac. Qed.
Lemma close_request_inert c : inert c (next (close_request c)).
Proof. unfold close_request. inert_tac. Qed.
Lemma poll_close_inert w c : inert c (next (poll_close w c)).
Proof. unfold poll_close. inert_tac. Qed.

Lemma poll_write_frame limit w data c :
  same_recv c (next (poll_write limit w data c)) /\ same_live c (next (poll_write limit w data c)).
Proof. unfold poll_write. repeat case_match; split; same. Qed.
(** Every sending field but the queue. *)
Definition same_window (c c' : ChannelInner) : Prop :=
  send_bytes c' = send_bytes c /\ send_frames c' = send_frames c
  /\ send_bytes_max c' = send_bytes_max c /\ send_frames_max c' = send_frames_max c
  /\ send_frame_size c' = send_frame_size c /\ fin_sent c' = fin_sent c
  /\ closed_sent c' || closed_in_flight c' = closed_sent c || closed_in_flight c.
Lemma poll_write_window limit w data c : same_window c (next (poll_write limit w data c)).
Proof. unfold poll_write, same_window. repeat case_match; done. Qed.
Lemma poll_write_inert limit w data c :
  ~ (terminal c = None /\ local_fin_requested c = false /\ data <> [] /\ outbound_len c < limit) ->
  inert c (next (poll_write limit w data c)) /\ accepted (result (poll_write limit w data c)) = 0.
Proof.
  intros N. unfold poll_write. destruct (terminal c) eqn:T; [split; [split_and!; same|done]|].
  destruct (local_fin_requested c) eqn:L; [split; [split_and!; same|done]|].
  case_match; bool_prop; [split; [split_and!; same|done]|].
  unfold saturating_sub. case_match eqn:E; bool_prop; [split; [split_and!; same|done]|].
  exfalso. apply N. split_and!; done || lia.
Qed.

Lemma drop_channel_frame c :
  terminal c = None ->
  no_panic (result (drop_channel c)) ->
  let c' := next (drop_channel c) in
  same_send c c' /\ same_live c c' /\ same_credit c c' /\ discard_inbound c' = true
  /\ inbound c' = [] /\ inbound_len c' = 0
  /\ (remote_fin c = true -> consumed_bytes c' = consumed_bytes c
                             /\ consumed_frames c' = consumed_frames c).
Proof.
  intros T P. unfold drop_channel in *. rewrite T in *.
  destruct (remote_fin c) eqn:R; cbn [panicked] in *.
  - split_and!; try same.
  - repeat match goal with
      | |- context [expect ?o _] => destruct o; cbn [expect obind panicked] in *
      end; cbn in P; try done; split_and!; try same.
Qed.

(** ** Transports *)
Lemma wire_data_cons f w : wire_data (f :: w) = frame_data f ++ wire_data w.
Proof. done. Qed.
Lemma wire_data_app a b : wire_data (a ++ b) = wire_data a ++ wire_data b.
Proof. unfold wire_data. by rewrite map_app, concat_app. Qed.
Lemma wire_frames_cons f w : wire_frames (f :: w) = (if is_data f then 1 else 0) + wire_frames w.
Proof. done. Qed.
Lemma wire_frames_app a b : wire_frames (a ++ b) = wire_frames a + wire_frames b.
Proof. induction a as [|f a IH]; [done|]. cbn [app]. rewrite !wire_frames_cons. lia. Qed.
Lemma credit_bytes_cons f w :
  credit_bytes (f :: w) = (match f with Frame.Window _ b _ => b | _ => 0 end) + credit_bytes w.
Proof. done. Qed.
Lemma credit_bytes_app a b : credit_bytes (a ++ b) = credit_bytes a + credit_bytes b.
Proof. induction a as [|f a IH]; [done|]. cbn [app]. rewrite !credit_bytes_cons. lia. Qed.
Lemma credit_frames_cons f w :
  credit_frames (f :: w) = (match f with Frame.Window _ _ n => n | _ => 0 end) + credit_frames w.
Proof. done. Qed.
Lemma credit_frames_app a b : credit_frames (a ++ b) = credit_frames a + credit_frames b.
Proof. induction a as [|f a IH]; [done|]. cbn [app]. rewrite !credit_frames_cons. lia. Qed.
Lemma wire_nil : wire_data [] = [] /\ wire_frames [] = 0 /\ credit_bytes [] = 0 /\ credit_frames [] = 0.
Proof. done. Qed.
Lemma wire_frames_nonneg w : 0 <= wire_frames w.
Proof. induction w as [|f w IH]; [done|]. rewrite wire_frames_cons. case_match; lia. Qed.
Lemma credit_nonneg config w :
  Forall (frame_ok config) w -> 0 <= credit_bytes w /\ 0 <= credit_frames w.
Proof.
  induction 1 as [|f w [_ Hf] _ [IH1 IH2]]; [done|]. rewrite credit_bytes_cons, credit_frames_cons.
  destruct f; unfold in_range in *; destr_and; lia.
Qed.
Lemma run_flags_app w1 w2 fin closed :
  run_flags fin closed (w1 ++ w2)
  = match run_flags fin closed w1 with Some (f, c) => run_flags f c w2 | None => None end.
Proof.
  revert fin closed. induction w1 as [|f w1 IH]; intros fin closed; [done|]. cbn.
  destruct closed; [done|]. destruct f; try done; try apply IH; destruct fin; done || apply IH.
Qed.
Lemma run_flags_fin w fin closed f c : run_flags fin closed w = Some (f, c) -> fin = true -> f = true.
Proof.
  revert fin closed. induction w as [|g w IH]; intros fin closed; cbn; [naive_solver|].
  destruct closed; [done|]. destruct g; try done; destruct fin; try done; eauto.
Qed.
#[global] Arguments wire_data : simpl never.
#[global] Arguments wire_frames : simpl never.
#[global] Arguments credit_bytes : simpl never.
#[global] Arguments credit_frames : simpl never.
Create Rewrite HintDb tsc_wire.
#[export] Hint Rewrite wire_data_cons wire_data_app wire_frames_cons wire_frames_app
  credit_bytes_cons credit_bytes_app credit_frames_cons credit_frames_app : tsc_wire.
Ltac wires :=
  autorewrite with tsc_wire;
  change (wire_data []) with (@nil Z); change (wire_frames []) with 0;
  change (credit_bytes []) with 0; change (credit_frames []) with 0;
  cbn [frame_data is_data]; rewrite ?app_nil_r; autorewrite with tsc_len.

(** ** Receiving side of one direction *)

(** A step of the receiver that keeps its credit counters and moves unread
    content to the application (or to the lost bytes). *)
Lemma dir_consume cy fl x y y' xy yx moved :
  chan_inv cy fl (chan y) -> chan_inv cy fl (chan y') ->
  terminal (chan y) = None -> same_credit (chan y) (chan y') -> terminal (chan y') = None ->
  (remote_fin (chan y) = true -> consumed_bytes (chan y') = consumed_bytes (chan y)
                                 /\ consumed_frames (chan y') = consumed_frames (chan y)) ->
  len (inbound (chan y')) <= len (inbound (chan y)) ->
  content (inbound (chan y)) = moved ++ content (inbound (chan y')) ->
  delivered y' ++ lost y' = delivered y ++ lost y ++ moved ->
  (dropped y' = false -> lost y' = []) -> discard_inbound (chan y') = dropped y' ->
  dir_inv cy x y xy yx -> dir_inv cy x y' xy yx.
Proof.
  intros I I' T [Sb Sf Sfin Scl] T' Hc Hl Hcont Hd Hlost Hdis [].
  assert (HL : inbound_len (chan y') <= inbound_len (chan y)).
  { rewrite (ci_inbound_len _ _ _ I), (ci_inbound_len _ _ _ I').
    rewrite <- !len_content by apply I || apply I'. rewrite Hcont, len_app.
    pose proof (len_nonneg moved). lia. }
  assert (Hex : remote_fin (chan y) = false ->
    inbound_len (chan y') + consumed_bytes (chan y') = inbound_len (chan y) + consumed_bytes (chan y)
    /\ len (inbound (chan y')) + consumed_frames (chan y')
       = len (inbound (chan y)) + consumed_frames (chan y)).
  { intros R. destruct (ci_conserved _ _ _ I T R) as [? ?].
    destruct (ci_conserved _ _ _ I' T' ltac:(congruence)) as [? ?]. lia. }
  constructor; try assumption.
  - destruct (remote_fin (chan y)) eqn:R.
    + destruct (Hc eq_refl). lia.
    + destruct (Hex eq_refl). lia.
  - rewrite Sfin. intros R. destruct (Hex R), (di_exact0 R). lia.
  - by rewrite Sfin, Scl.
  - rewrite di_stream0, Hcont. rewrite !app_assoc in *. by rewrite Hd.
Qed.

(** ** Local steps *)
Section LocalStep.
Context (cx cy : Config) (Hcx : config_ok cx) (Hcy : config_ok cy).
Context (id : Z) (Hid : 1 <= id <= u32_max).

Definition side_inv (x y : endpoint) (xy yx : list Frame.t) : Prop :=
  chan_inv cx (flight x) (chan x) /\ terminal (chan x) = None /\ reset_pending (chan x) = None
  /\ reset_in_flight (chan x) = false
  /\ dir_inv cy x y xy yx /\ dir_inv cx y x yx xy.

Lemma inert_side x c' y xy yx :
  inert (chan x) c' -> chan_inv cx (flight x) c' -> side_inv x y xy yx ->
  side_inv (x <| chan := c' |>) y xy yx.
Proof.
  intros (S & R & [Lt Lr Lf]) I' (I & T & P & Rf & D1 & D2). split_and!; cbn; try congruence.
  - by apply (dir_send _ x).
  - by apply (dir_recv _ y x).
Qed.

Lemma write_side w data x y xy yx :
  bytes_ok data -> side_inv x y xy yx -> side_inv (app_step cx (OpWrite w data) x) y xy yx.
Proof.
  intros Hop HS. pose proof HS as (I & T & P & Rf & D1 & D2). cbn [app_step].
  destruct (decide (terminal (chan x) = None /\ local_fin_requested (chan x) = false
    /\ data <> [] /\ outbound_len (chan x) < initial_byte_window cx)) as [(_ & L & N & B)|Hno].
  - destruct (poll_write_data cx (flight x) (chan x) (initial_byte_window cx) w data T L N B I)
      as (R & Hn & Hc & _ & I').
    destruct (poll_write_frame (initial_byte_window cx) w data (chan x)) as [SR [Lt Lr Lf]].
    set (n := Z.min _ _) in *. rewrite R. cbn [accepted].
    split_and!; cbn; try congruence; [|by apply (dir_recv _ y x)].
    destruct (poll_write_window (initial_byte_window cx) w data (chan x))
      as (E1 & E2 & E3 & E4 & E5 & E6 & E7).
    destruct D1. constructor; cbn; rewrite ?E1, ?E2, ?E3, ?E4, ?E5, ?E6, ?E7; try assumption.
    + rewrite Hc, di_stream0. by rewrite !app_assoc.
    + apply bytes_ok_app. split; [done|]. by apply Forall_take.
  - destruct (poll_write_inert (initial_byte_window cx) w data (chan x)) as [In Acc]; [done|].
    rewrite Acc. change (takez 0 data) with (@nil Z). rewrite app_nil_r.
    destruct (inert_side x _ y xy yx In ltac:(by apply poll_write_ok) HS)
      as (J & Jt & Jp & Jf & J1 & J2).
    by split_and!.
Qed.
Lemma read_side w n x y xy yx :
  dropped x = false -> 0 <= n -> side_inv x y xy yx -> side_inv (app_step cx (OpRead w n) x) y xy yx.
Proof.
  intros Hdrop Hop HS. pose proof HS as (I & T & P & Rf & D1 & D2). cbn [app_step].
  destruct (poll_read_frame w n (chan x)) as (S & [Lt Lr Lf] & C & Dis & Hl & Hc).
  destruct (poll_read_ok cx Hcx (flight x) (chan x) w n Hop I) as [I' _].
  assert (Hm : content (inbound (chan x))
    = handed (result (poll_read w n (chan x))) ++ content (inbound (next (poll_read w n (chan x))))).
  { destruct (decide (n = 0 \/ inbound (chan x) = [])) as [E|E].
    - unfold poll_read. rewrite T. destruct E as [->|E]; [done|].
      case_match; [done|]. rewrite E. by case_match; cbn; rewrite ?E.
    - destruct (poll_read_data cx Hcx (flight x) (chan x) w n) as (d & -> & <- & _);
        try done; cbn in Hop; [lia|tauto]. }
  split_and!; cbn; try congruence; [by apply (dir_send _ x)|].
  pose proof (di_lost _ _ _ _ _ D2 Hdrop) as Hlost.
  apply (dir_consume cx (flight x) y x _ yx xy (handed (result (poll_read w n (chan x)))));
    cbn; try done; try congruence.
  - by rewrite Hlost, app_nil_r.
  - rewrite Dis. apply (di_discard _ _ _ _ _ D2).
Qed.
Lemma drop_side x y xy yx : side_inv x y xy yx -> side_inv (app_step cx OpDrop x) y xy yx.
Proof.
  intros HS. pose proof HS as (I & T & P & Rf & D1 & D2). cbn [app_step].
  destruct (drop_channel_ok cx Hcx (flight x) (chan x) I) as [I' NP].
  destruct (drop_channel_frame (chan x) T NP) as (S & [Lt Lr Lf] & C & Dis & Hq & Hl & Hc).
  split_and!; cbn; try congruence; [by apply (dir_send _ x)|].
  apply (dir_consume cx (flight x) y x _ yx xy (content (inbound (chan x))));
    cbn; try done; try congruence.
  - rewrite Hq. apply len_nonneg.
  - by rewrite Hq, app_nil_r.
Qed.
Lemma app_side op x y xy yx :
  dropped x = false -> op_ok op -> side_inv x y xy yx -> side_inv (app_step cx op x) y xy yx.
Proof.
  intros Hdrop Hop HS. pose proof HS as (I & T & P & Rf & D1 & D2).
  destruct op as [w data|w n|w|w| |w|].
  - by apply write_side.
  - by apply read_side.
  - apply inert_side; [apply poll_flush_inert|by apply poll_flush_ok|done].
  - apply inert_side; [apply poll_shutdown_inert|by apply poll_shutdown_ok|done].
  - apply inert_side; [apply close_request_inert|by apply close_request_ok|done].
  - apply inert_side; [apply poll_close_inert|by apply poll_close_ok|done].
  - by apply drop_side.
Qed.

(** Rewrites the goal with the boolean flags known in the context. *)
Ltac rew_flags :=
  repeat match goal with
    | H : _ = true |- _ => rewrite H
    | H : _ = false |- _ => rewrite H
    end.

Lemma control_side x c' sel y xy yx :
  flight x = Completion.None -> control_of_channel id (chan x) = Some (c', sel) ->
  side_inv x y xy yx ->
  side_inv (x <| chan := c' |> <| flight := completion sel |>) y (xy ++ [frame sel]) yx.
Proof.
  intros Hf Hsel (I & T & P & Rf & D1 & D2). rewrite Hf in I.
  destruct (control_of_channel_ok cx id (chan x) c' sel I Hsel) as [I' _].
  pose proof (ci_closed_flag _ _ _ I) as Fc. pose proof (ci_closed _ _ _ I) as Cl. cbn in Fc.
  pose proof (ci_nonneg _ _ _ I). pose proof (ci_bytes _ _ _ I). pose proof (ci_frames _ _ _ I).
  pose proof (unread_nonneg _ (ci_inbound _ _ _ I)) as Hu. rewrite <- (ci_inbound_len _ _ _ I) in Hu.
  pose proof (len_nonneg (inbound (chan x))).
  pose proof (co_byte_window _ Hcx). pose proof (co_frame_window _ Hcx).
  unfold control_of_channel in Hsel. rewrite P in Hsel.
  destruct D1 as [W1 C1 E1 F1 S1 B1 O1 L1 X1], D2 as [W2 C2 E2 F2 S2 B2 O2 L2 X2].
  case_match eqn:G1; [|case_match eqn:G2; [|case_match eqn:G3; [|done]]]; injection Hsel as <- <-.
  - (* WINDOW *) apply andb_true_iff in G1 as [G1 Gnz]. bool_prop.
    assert (Cs : closed_sent (chan x) = false).
    { destruct (closed_sent (chan x)) eqn:?; [|done]. destruct Cl; [tauto|congruence]. }
    split_and!; try done; constructor; cbn in *; wires; try assumption; try lia.
    + intros R. specialize (E1 R). lia.
    + rewrite run_flags_app, F1. by rew_flags.
    + apply Forall_app; split; [done|]. constructor; [|done]. split; [done|]. cbn.
      unfold in_range. split_and!; lia.
    + intros R. specialize (E2 R). lia.
  - (* FIN *) clear G1. bool_prop.
    assert (Cs : closed_sent (chan x) = false).
    { destruct (closed_sent (chan x)) eqn:?; [|done]. destruct Cl; [tauto|congruence]. }
    split_and!; try done; constructor; cbn in *; wires; try assumption; try lia.
    + intros R. specialize (E1 R). lia.
    + rewrite run_flags_app, F1. by rew_flags.
    + apply Forall_app; split; [done|]. by constructor.
    + intros R. specialize (E2 R). lia.
  - (* CLOSED *) clear G1 G2. bool_prop.
    split_and!; try done; constructor; cbn in *; wires; try assumption; try lia.
    + intros R. specialize (E1 R). lia.
    + rewrite run_flags_app, F1. by rew_flags.
    + apply Forall_app; split; [done|]. by constructor.
    + intros R. specialize (E2 R). lia.
Qed.

Lemma data_side x c' sel y xy yx :
  flight x = Completion.None -> data_of_channel id (chan x) = Ok (Some (c', sel)) ->
  side_inv x y xy yx ->
  side_inv (x <| chan := c' |> <| flight := completion sel |>) y (xy ++ [frame sel]) yx.
Proof.
  intros Hf Hsel (I & T & P & Rf & D1 & D2). rewrite Hf in I.
  pose proof (ci_send _ _ _ I) as Hs. pose proof (ci_outbound_len _ _ _ I) as OL.
  pose proof (unread_nonneg _ (ci_outbound _ _ _ I)) as Hu.
  destruct (decide (reset_pending (chan x) <> None \/ send_bytes (chan x) = 0
    \/ send_frames (chan x) = 0 \/ outbound_len (chan x) = 0)) as [D|D].
  { rewrite (data_of_channel_none cx) in Hsel; done. }
  destruct (data_of_channel_some cx id (chan x)) as
    (c1 & data & E & Hl & Hsz & Hc & Hb & Hfr & I'); try done; try lia.
  rewrite E in Hsel. injection Hsel as <- <-.
  assert (NF : fin_sent (chan x) = false).
  { destruct (fin_sent (chan x)) eqn:Fs; [|done]. destruct (ci_fin _ _ _ I Fs) as (_ & Q & _).
    rewrite Q, unread_nil in OL. lia. }
  pose proof (ci_closed_flag _ _ _ I) as Fc. cbn in Fc.
  assert (Cs : closed_sent (chan x) = false).
  { destruct (closed_sent (chan x)) eqn:?; [|done]. destruct (ci_closed _ _ _ I); [tauto|congruence]. }
  assert (Hsame : send_bytes_max c1 = send_bytes_max (chan x)
    /\ send_frames_max c1 = send_frames_max (chan x) /\ send_frame_size c1 = send_frame_size (chan x)
    /\ fin_sent c1 = fin_sent (chan x) /\ closed_sent c1 = closed_sent (chan x)
    /\ closed_in_flight c1 = closed_in_flight (chan x) /\ same_recv (chan x) c1
    /\ same_live (chan x) c1).
  { unfold data_of_channel in E. case_match; [done|].
    destruct (take_outbound _ _) as [[d q]| |]; cbn [obind] in E; [|done..].
    repeat match type of E with
      | obind ?o _ = _ => destruct o; cbn [obind] in E; [|done..]
      end.
    injection E as <- <-. split_and!; try same. }
  destruct Hsame as (M1 & M2 & M3 & M4 & M5 & M6 & SR & [Lt Lr Lf]).
  split_and!; cbn; try congruence; try done.
  - destruct D1 as [W1 C1 E1 F1 S1 B1 O1 L1 X1]. constructor; cbn; wires;
      rewrite ?M1, ?M2, ?M3, ?M4, ?M5, ?M6, ?Hb, ?Hfr; try assumption; try lia.
    + intros R. specialize (E1 R). lia.
    + rewrite run_flags_app, F1. by rew_flags.
    + rewrite S1, <- Hc. by rewrite !app_assoc.
    + apply Forall_app; split; [done|]. constructor; [|done]. split; [done|]. cbn. split; [|lia].
      rewrite S1, !bytes_ok_app, <- Hc, bytes_ok_app in B1. tauto.
  - apply (dir_recv _ y x); cbn; try done. destruct D2 as [W2 C2 E2 F2 S2 B2 O2 L2 X2].
    constructor; wires; rewrite ?Z.add_0_r; assumption.
Qed.

Lemma complete_side x y xy yx :
  flight x <> Completion.None -> side_inv x y xy yx ->
  side_inv (x <| chan := complete cx (flight x) (chan x) |> <| flight := Completion.None |>) y xy yx.
Proof.
  intros Hf (I & T & P & Rf & D1 & D2).
  assert (G : chan_inv cx Completion.None (complete cx (flight x) (chan x))
              /\ inert (chan x) (complete cx (flight x) (chan x))).
  { destruct (flight x) as [|i b|i b f|i|i|i] eqn:F; cbn [complete]; [done|..].
    - split; [by apply (complete_data_ok cx i)|]. unfold complete_data.
      destruct (sub_usize _ _); cbn [panicked]; split_and!; same.
    - split; [by apply (complete_window_ok cx Hcx i)|]. unfold complete_window.
      destruct (add_within _ _ _); cbn [expect panicked]; [|split_and!; same].
      destruct (add_within _ _ _); cbn [expect panicked]; split_and!; same.
    - split; [by apply (complete_fin_ok cx i)|]. split_and!; same.
    - pose proof (ci_reset_flag _ _ _ I) as Fr. cbn in Fr. congruence.
    - split; [by apply (complete_closed_ok cx i)|].
      pose proof (ci_closed_flag _ _ _ I) as Fc. cbn in Fc. split_and!; same.
      by rewrite Fc, orb_true_r. }
  destruct G as [I' (S & R & [Lt Lr Lf])]. split_and!; cbn; try congruence; try done.
  - by apply (dir_send _ x).
  - by apply (dir_recv _ y x).
Qed.

Lemma local_side x x' out y xy yx :
  local_step cx id x out x' -> side_inv x y xy yx -> side_inv x' y (xy ++ out) yx.
Proof.
  intros St. destruct St; rewrite ?app_nil_r.
  - by apply app_side.
  - by apply control_side.
  - by apply data_side.
  - by apply complete_side.
Qed.
End LocalStep.

(** ** Processing a frame *)
Lemma channel_data_inv data c :
  result (channel_data data c) = Ok tt ->
  terminal c = None /\ remote_fin c = false /\ len data <= receive_bytes c /\ 1 <= receive_frames c.
Proof.
  unfold channel_data. destruct (try_from u32_max (len data)) as [l|] eqn:L; cbn [expect panicked]; [|done].
  apply try_from_Some in L as [-> _]. case_match eqn:G; [done|]. apply orb_false_iff in G as [? G].
  apply bool_decide_eq_false_1, eq_None_not_Some in G.
  destruct (checked_sub _ (len data)) as [b|] eqn:B; [|done]. cbn [receive_frames set setter].
  destruct (checked_sub _ 1) as [f|] eqn:F; [|done].
  apply checked_sub_Some in B, F. intros _. split_and!; done || lia.
Qed.

Lemma channel_data_frame data c :
  result (channel_data data c) = Ok tt ->
  let c' := next (channel_data data c) in
  same_send c c' /\ same_live c c' /\ remote_fin c' = remote_fin c
  /\ remote_closed c' = remote_closed c /\ discard_inbound c' = discard_inbound c.
Proof.
  cbv zeta. unfold channel_data.
  repeat match goal with
    | |- context [expect ?o _] => destruct o; cbn [expect obind panicked]
    | |- context [match ?x with _ => _ end] =>
        lazymatch x with context [match _ with _ => _ end] => fail | _ => destruct x eqn:? end
    end; cbn; intros; try done; split_and!; same.
Qed.

Section Deliver.
Context (cx cy : Config) (Hcx : config_ok cx) (Hcy : config_ok cy).

Definition delivers (f : Frame.t) : Prop := forall x y xy rest,
  result (process f (chan x)) = Ok tt ->
  side_inv cx cy x y xy (f :: rest) -> side_inv cx cy (deliver f x) y xy rest.

(** The facts every delivery starts from: the receiver has not seen CLOSED, and the
    frame satisfies the wire's conditions. *)
Ltac start_delivery x :=
  intros Hr (I & T & P & Rf & D1 & D2);
  pose proof (di_frames _ _ _ _ _ D2) as Of; inversion Of as [|? ? [_ Hf] Orest]; subst;
  pose proof (di_flags _ _ _ _ _ D2) as Fl; cbn in Fl;
  destruct (remote_closed (chan x)) eqn:RC; [done|]; unfold deliver; cbn [process] in *.

Lemma deliver_data i data : delivers (Frame.Data i data).
Proof.
  intros x y xy rest. start_delivery x.
  destruct Hf as [Hok HL].
  destruct (channel_data_inv data (chan x) Hr) as (_ & RF & Hb & Hn).
  destruct (channel_data_accept cx Hcx (flight x) (chan x) data T RF ltac:(lia) Hn I)
    as (_ & Hc & Eb & Ef & I').
  destruct (channel_data_frame data (chan x) Hr) as (S & [Lt Lr Lf] & ERF & ERC & Edis).
  destruct (ci_conserved _ _ _ I T RF) as [K1 K2].
  destruct (ci_conserved _ _ _ I' ltac:(congruence) ltac:(congruence)) as [K3 K4].
  rewrite RF in Fl.
  split_and!; cbn; try congruence; try done.
  - destruct D1 as [W1 C1 E1 F1 S1 B1 O1 L1 X1]. apply (dir_send _ x); cbn; try done.
  - destruct D2 as [W2 C2 E2 F2 S2 B2 O2 L2 X2].
    autorewrite with tsc_wire tsc_len in *. cbn [frame_data is_data] in *.
    constructor; cbn; rewrite ?ERF, ?ERC, ?Edis; try assumption; try lia.
    + intros R. specialize (E2 R). lia.
    + rewrite RC, RF. done.
    + rewrite S2, Hc. destruct (discard_inbound (chan x)) eqn:Dis.
      * rewrite (ci_discard _ _ _ I Dis). cbn. by rewrite <- !app_assoc.
      * rewrite app_nil_r. by rewrite <- !app_assoc.
    + intros Hd. rewrite X2, Hd, (L2 Hd). done.
Qed.
Lemma deliver_window i b n : delivers (Frame.Window i b n).
Proof.
  intros x y xy rest. start_delivery x.
  destruct Hf as (Hb & Hn & _). unfold in_range in *.
  destruct (channel_window_ok cx (flight x) (chan x) b n) as [_ I']; [lia|lia|done|].
  rewrite Hr in I'. unfold channel_window in *. rewrite app_nil_r.
  destruct (checked_add _ (send_bytes (chan x)) _) as [v|] eqn:B; [|done].
  apply checked_add_Some in B as [-> _]. case_match eqn:M; [|done].
  cbn [send_frames set setter] in *.
  destruct (checked_add _ (send_frames (chan x)) _) as [v|] eqn:F; [|done].
  apply checked_add_Some in F as [-> _]. cbn [send_frames_max set setter] in *.
  case_match eqn:M2; [|done]. cbn [next step] in *.
  split_and!; cbn; try congruence; try done.
  - destruct D1 as [W1 C1 E1 F1 S1 B1 O1 L1 X1]. autorewrite with tsc_wire in *.
    constructor; cbn; try assumption; try lia. intros R. specialize (E1 R). lia.
  - apply (dir_recv _ y x); cbn; [same|rewrite ?app_nil_r; done..|].
    destruct D2 as [W2 C2 E2 F2 S2 B2 O2 L2 X2]. autorewrite with tsc_wire in *.
    cbn [frame_data is_data app] in *.
    constructor; try assumption; try lia. by rewrite RC.
Qed.
Lemma deliver_fin i : delivers (Frame.Fin i).
Proof.
  intros x y xy rest. start_delivery x.
  destruct (channel_fin_ok cx (flight x) (chan x) I) as [_ I'].
  rewrite Hr in I'. unfold channel_fin in *. destruct (remote_fin (chan x)) eqn:RF; [done|].
  cbn [next step] in *. rewrite app_nil_r.
  pose proof (ci_nonneg _ _ _ I).
  split_and!; cbn; try congruence; try done.
  - destruct D1 as [W1 C1 E1 F1 S1 B1 O1 L1 X1]. autorewrite with tsc_wire in *.
    apply (dir_send _ x); cbn; [same|done|]. constructor; try assumption; try lia.
  - destruct D2 as [W2 C2 E2 F2 S2 B2 O2 L2 X2]. autorewrite with tsc_wire in *.
    cbn [frame_data is_data app] in *.
    constructor; cbn; try assumption; try lia; try done. by rewrite RC.
Qed.
Lemma deliver_closed i : delivers (Frame.Closed i).
Proof.
  intros x y xy rest. start_delivery x.
  destruct (channel_closed_ok cx (flight x) (chan x) I) as [_ I'].
  destruct (remote_fin (chan x)) eqn:RF; [|done].
  unfold channel_closed in *. rewrite RF, RC in *. cbn [negb orb] in *. rewrite ?orb_false_r in *.
  destruct (fin_sent (chan x)) eqn:FS; [|done]. cbn [negb orb next step result obind] in *.
  rewrite app_nil_r.
  split_and!; cbn; try congruence; try done.
  - destruct D1 as [W1 C1 E1 F1 S1 B1 O1 L1 X1]. autorewrite with tsc_wire in *.
    apply (dir_send _ x); cbn; [same|done|]. constructor; try assumption; try lia.
  - destruct D2 as [W2 C2 E2 F2 S2 B2 O2 L2 X2]. autorewrite with tsc_wire in *.
    cbn [frame_data is_data app] in *.
    constructor; cbn; try assumption; try lia; try done. by rewrite RF.
Qed.

Lemma deliver_side f x y xy rest :
  result (process f (chan x)) = Ok tt ->
  side_inv cx cy x y xy (f :: rest) -> side_inv cx cy (deliver f x) y xy rest.
Proof.
  intros Hr HS. destruct f as [| | |i data|i b n|i| |i].
  4: by apply deliver_data.
  4: by apply deliver_window.
  4: by apply deliver_fin.
  5: by apply deliver_closed.
  all: done.
Qed.
End Deliver.

(** ** A compliant peer is never refused *)
Section Process.
Context (cx cy : Config) (Hcx : config_ok cx) (Hcy : config_ok cy).

Lemma run_flags_closed w fin f c : run_flags fin true w = Some (f, c) -> w = [] /\ c = true.
Proof. destruct w; cbn; [naive_solver|done]. Qed.

(** The reader accepts the next frame of the transport, unless it is a DATA
    frame that overtakes the commit of a WINDOW. *)
Lemma process_ok f x y xy rest :
  side_inv cx cy x y xy (f :: rest) -> chan_inv cy (flight y) (chan y) ->
  (is_data f = true -> fl_window (flight x) = false) ->
  result (process f (chan x)) = Ok tt.
Proof.
  intros (I & T & P & Rf & D1 & D2) Iy Hfl.
  pose proof (di_frames _ _ _ _ _ D2) as Of. inversion Of as [|? ? [_ Hf] Orest]; subst.
  pose proof (di_flags _ _ _ _ _ D2) as Fl. cbn in Fl.
  destruct (credit_nonneg _ _ (di_frames _ _ _ _ _ D1)) as [Cb Cf].
  destruct (credit_nonneg _ _ Orest) as [Cb' Cf'].
  pose proof (wire_frames_nonneg xy) as Wf. pose proof (wire_frames_nonneg rest) as Wf'.
  pose proof (len_nonneg (wire_data xy)) as Wd. pose proof (len_nonneg (wire_data rest)) as Wd'.
  pose proof (ci_send _ _ _ Iy) as Sy. pose proof (ci_nonneg _ _ _ Iy) as Ny.
  pose proof (unread_nonneg _ (ci_inbound _ _ _ Iy)) as Hu. rewrite <- (ci_inbound_len _ _ _ Iy) in Hu.
  pose proof (len_nonneg (inbound (chan y))) as Hn.
  destruct (remote_closed (chan x)) eqn:RC; [done|].
  destruct f as [| | |i data|i b n|i| |i]; try done; cbn [process].
  - destruct (remote_fin (chan x)) eqn:RF; [done|]. destruct Hf as [Hok HL].
    destruct (ci_conserved _ _ _ I T RF) as [K1 K2].
    destruct (di_exact _ _ _ _ _ D2 RF) as [K3 K4]. autorewrite with tsc_wire tsc_len in K3, K4.
    cbn [frame_data is_data] in *. specialize (Hfl eq_refl).
    assert (fl_bytes (flight x) = 0 /\ fl_frames (flight x) = 0) as [Z1 Z2] by (by destruct (flight x)).
    destruct (channel_data_accept cx Hcx (flight x) (chan x) data T RF) as (-> & _);
      [lia|lia|done|done].
  - destruct Hf as (Hb & Hnn & _). unfold in_range in *.
    pose proof (di_credit _ _ _ _ _ D1) as [K1 K2]. destruct (di_windows _ _ _ _ _ D1) as (W1 & W2 & _).
    autorewrite with tsc_wire tsc_len in K1, K2.
    pose proof (co_byte_window _ Hcy). pose proof (co_frame_window _ Hcy).
    unfold channel_window. rewrite checked_add_ok by lia.
    rewrite W1, (proj2 (Z.leb_le _ _)) by lia. cbn [send_frames send_frames_max set setter].
    rewrite checked_add_ok by lia.
    by rewrite W2, (proj2 (Z.leb_le _ _)) by lia.
  - unfold channel_fin. by destruct (remote_fin (chan x)).
  - destruct (remote_fin (chan x)) eqn:RF; [|done]. apply run_flags_closed in Fl as [-> Fl].
    destruct (ci_closed _ _ _ Iy) as [_ RFy]; [apply orb_true_iff in Fl; tauto|].
    pose proof (run_flags_fin _ _ _ _ _ (di_flags _ _ _ _ _ D1) RFy) as FS.
    unfold channel_closed. by rewrite FS, RF, RC.
Qed.
End Process.

(** ** The invariant holds on every reachable pair *)
Section Reach.
Context (cl cr : Config) (Hcl : config_ok cl) (Hcr : config_ok cr).
Context (id : Z) (Hid : 1 <= id <= u32_max).

Definition both_inv (p : pair) : Prop :=
  side_inv cl cr (left p) (right p) (lr p) (rl p)
  /\ side_inv cr cl (right p) (left p) (rl p) (lr p).

Lemma both_inv_pair p : both_inv p <-> pair_inv cl cr p.
Proof.
  unfold both_inv, side_inv. split.
  - intros [(? & ? & ? & ? & ? & ?) (? & ? & ? & ? & ? & ?)]. constructor; split_and?; assumption.
  - intros [? ? (? & ? & ? & ? & ? & ?) ? ?]. split_and!; assumption.
Qed.
Lemma established_inv c c' : config_ok c -> config_ok c' ->
  chan_inv c Completion.None (chan (established c c')).
Proof.
  intros H H'. pose proof (co_frame_size _ H'). pose proof (co_byte_window _ H').
  pose proof (co_frame_window _ H'). apply set_send_windows_inv; [unfold window_ok; lia|]. by apply new_inv.
Qed.
Lemma established_dir c c' : dir_inv c' (established c c') (established c' c) [] [].
Proof. constructor; try done; cbn; wires; try lia. apply List.Forall_nil. Qed.
Lemma initial_inv : pair_inv cl cr (initial_pair cl cr).
Proof. constructor; try done; by apply established_inv || apply established_dir. Qed.
End Reach.

(** A step of [x] keeps what [y] knows, besides what [side_inv] says of [x]. *)
Lemma side_swap cx cy x x' y xy xy' yx yx' :
  side_inv cy cx y x yx xy -> side_inv cx cy x' y xy' yx' -> side_inv cy cx y x' yx' xy'.
Proof. intros (? & ? & ? & ? & ? & ?) (? & ? & ? & ? & ? & ?). split_and!; assumption. Qed.

Lemma left_step_inv eager cx cy id p p' :
  config_ok cx -> config_ok cy -> 1 <= id <= u32_max ->
  left_step eager cx id p p' -> both_inv cx cy p -> both_inv cx cy p'.
Proof.
  intros Hcx Hcy Hid St [L R].
  assert (L' : side_inv cx cy (left p') (right p') (lr p') (rl p')).
  { destruct St as [p e' out S|p f rest E _ Hr]; cbn.
    - by apply (local_side cx cy Hcx id Hid (left p)).
    - rewrite E in L. by apply deliver_side. }
  split; [done|]. destruct St; cbn in *; by eapply side_swap.
Qed.

Lemma pair_step_inv eager cl cr id p p' :
  config_ok cl -> config_ok cr -> 1 <= id <= u32_max ->
  pair_step eager cl cr id p p' -> both_inv cl cr p -> both_inv cl cr p'.
Proof.
  intros Hcl Hcr Hid [S|S] H; [by eapply left_step_inv|].
  destruct (left_step_inv eager cr cl id (swap p) (swap p') Hcr Hcl Hid S) as [? ?]; [|by split].
  destruct H. by split.
Qed.

Lemma reachable_inv eager cl cr id p :
  config_ok cl -> config_ok cr -> 1 <= id <= u32_max ->
  reachable eager cl cr id p -> pair_inv cl cr p.
Proof.
  intros Hcl Hcr Hid R. apply both_inv_pair.
  assert (both_inv cl cr (initial_pair cl cr)) as H by by apply both_inv_pair, initial_inv.
  revert H. unfold reachable in R. induction R as [|p p1 p2 S _ IH]; [done|].
  intros H. apply IH. by eapply pair_step_inv.
Qed.
