(* ===== verification/MuxPairThms.v ===== *)
(** * Multiplexer: what two compliant peers get from an established channel

    Consequences of the invariant of [MuxPair] for every reachable pair: no
    peer is refused, every byte is delivered once and in order, end of stream
    comes after the last byte, the channel never stalls while there is room, and
    a completed close leaves nothing behind.  [window_race] is the interleaving
    the implementation does not handle. *)

From S2P Require Import Prelude Utf8 MuxTypes MuxWire MuxChannel MuxChannelInv MuxPair.

Section PairFacts.
Context (cl cr : Config) (Hcl : config_ok cl) (Hcr : config_ok cr).
Context (eager : bool) (id : Z) (Hid : 1 <= id <= u32_max).
Context (p : pair) (Hp : reachable eager cl cr id p).

Lemma pair_sides :
  side_inv cl cr (left p) (right p) (lr p) (rl p)
  /\ side_inv cr cl (right p) (left p) (rl p) (lr p).
Proof. apply both_inv_pair. by eapply reachable_inv. Qed.
End PairFacts.

(** What a direction whose FIN has been processed still carries. *)
Lemma run_flags_no_data fin closed w r :
  run_flags fin closed w = Some r -> fin = true -> wire_data w = [].
Proof.
  revert fin closed. induction w as [|f w IH]; intros fin closed; [done|]. cbn [run_flags].
  destruct closed; [done|]. intros H ->. rewrite wire_data_cons.
  destruct f; try done; cbn [frame_data app]; by eapply IH.
Qed.

(** Once the receiver has seen FIN, every written byte has reached it. *)
Lemma fin_complete config cx x y xy yx :
  dir_inv config x y xy yx -> chan_inv cx (flight x) (chan x) -> remote_fin (chan y) = true ->
  written x = delivered y ++ lost y ++ content (inbound (chan y)).
Proof.
  intros D I R. pose proof (di_flags _ _ _ _ _ D) as F.
  pose proof (run_flags_fin _ _ _ _ _ F R) as FS. destruct (ci_fin _ _ _ I FS) as (_ & Q & _).
  rewrite (di_stream _ _ _ _ _ D), Q, (run_flags_no_data _ _ _ _ F R). by rewrite !app_nil_r.
Qed.

(** C2: two peers that follow the protocol never refuse each other's frames: on
    every reachable state of an established channel the driver processes the next
    frame of its transport without a protocol error, provided the WINDOW frames
    it has written are committed before the DATA they allow is processed. *)
Theorem compliant_peer_accepted cl cr id p :
  config_ok cl -> config_ok cr -> 1 <= id <= u32_max -> reachable true cl cr id p ->
  (forall f rest, rl p = f :: rest -> may_process true f (left p) ->
     result (process f (chan (left p))) = Ok tt)
  /\ (forall f rest, lr p = f :: rest -> may_process true f (right p) ->
     result (process f (chan (right p))) = Ok tt).
Proof.
  intros Hcl Hcr Hid Hp. destruct (pair_sides cl cr Hcl Hcr true id Hid p Hp) as [L R].
  split; intros f rest E M; rewrite E in L, R.
  - apply (process_ok cl cr Hcl Hcr f _ _ _ _ L); [apply R|intros; by apply M].
  - apply (process_ok cr cl Hcr Hcl f _ _ _ _ R); [apply L|intros; by apply M].
Qed.

(** C1: no byte is lost, duplicated or reordered.  At any time what one
    application has written is, in order, what the other has read, then what was
    discarded because the other dropped its handle, then what waits in the
    receive queue, on the transport and in the send queue. *)
Theorem stream_integrity eager cl cr id p :
  config_ok cl -> config_ok cr -> 1 <= id <= u32_max -> reachable eager cl cr id p ->
  written (left p) = delivered (right p) ++ lost (right p) ++ content (inbound (chan (right p)))
                     ++ wire_data (lr p) ++ content (outbound (chan (left p)))
  /\ written (right p) = delivered (left p) ++ lost (left p) ++ content (inbound (chan (left p)))
                     ++ wire_data (rl p) ++ content (outbound (chan (right p)))
  /\ (dropped (left p) = false -> lost (left p) = [])
  /\ (dropped (right p) = false -> lost (right p) = []).
Proof.
  intros Hcl Hcr Hid Hp.
  destruct (pair_sides cl cr Hcl Hcr eager id Hid p Hp) as [(_ & _ & _ & _ & L & R) _].
  split_and!; apply L || apply R.
Qed.

(** End of stream is reported only when the whole stream was read: if a read
    with room in its buffer returns no byte on a handle that was not dropped,
    the application has read everything the peer's application wrote. *)
Theorem eof_after_all_bytes eager cl cr id p waker capacity :
  config_ok cl -> config_ok cr -> 1 <= id <= u32_max -> reachable eager cl cr id p ->
  0 < capacity -> dropped (right p) = false ->
  result (poll_read waker capacity (chan (right p))) = Ok (Ready []) ->
  delivered (right p) = written (left p).
Proof.
  intros Hcl Hcr Hid Hp Hcap Hd Hr.
  destruct (pair_sides cl cr Hcl Hcr eager id Hid p Hp)
    as [(IL & _ & _ & _ & L & _) (IR & TR & _ & _ & _ & _)].
  destruct (decide (inbound (chan (right p)) = [])) as [Q|Q].
  - assert (RF : remote_fin (chan (right p)) = true).
    { unfold poll_read in Hr. rewrite TR, (proj2 (Z.eqb_neq _ _)), Q in Hr by lia. by case_match. }
    rewrite (fin_complete _ _ _ _ _ _ L IL RF), Q, (di_lost _ _ _ _ _ L Hd). by rewrite !app_nil_r.
  - destruct (poll_read_data cr Hcr _ _ waker capacity Hcap TR Q IR) as (d & E & _ & B & _).
    rewrite E in Hr. injection Hr as ->. rewrite len_nil in B. lia.
Qed.

(** C3: flow control cannot stall a channel.  If nothing is on either transport
    and neither driver has a frame to send for the channel although the left
    application has unsent bytes, then the right application has bytes to read:
    the channel is waiting for the reader and for nothing else. *)
Theorem no_flow_deadlock eager cl cr id p :
  config_ok cl -> config_ok cr -> 1 <= id <= u32_max -> reachable eager cl cr id p ->
  lr p = [] -> rl p = [] -> flight (left p) = Completion.None -> flight (right p) = Completion.None ->
  data_of_channel id (chan (left p)) = Ok None -> control_of_channel id (chan (right p)) = None ->
  outbound (chan (left p)) <> [] ->
  inbound (chan (right p)) <> [].
Proof.
  intros Hcl Hcr Hid Hp Elr Erl Fx Fy Hdata Hctl Hout Hin.
  destruct (pair_sides cl cr Hcl Hcr eager id Hid p Hp)
    as [(IL & TL & PL & RL & L & _) (IR & TR & PR & RR & _ & _)].
  rewrite Fx in IL. rewrite Fy in IR. rewrite Elr, Erl in L.
  pose proof (co_byte_window _ Hcr). pose proof (co_frame_window _ Hcr).
  assert (NF : fin_sent (chan (left p)) = false).
  { destruct (fin_sent (chan (left p))) eqn:FS; [|done]. destruct (ci_fin _ _ _ IL FS); tauto. }
  pose proof (di_flags _ _ _ _ _ L) as F. cbn in F. injection F as F _. rewrite NF in F.
  destruct (di_exact _ _ _ _ _ L F) as [K1 K2]. cbn in K1, K2.
  pose proof (ci_inbound_len _ _ _ IR) as U. rewrite Hin in *. autorewrite with tsc_len in *.
  pose proof (ci_send _ _ _ IL) as (Sb & Sbm & Sf & Sfm & Sz).
  assert (Con : consumed_bytes (chan (right p)) = 0 /\ consumed_frames (chan (right p)) = 0).
  { unfold control_of_channel in Hctl. rewrite PR, F, (ci_window_flag _ _ _ IR) in Hctl.
    cbn in Hctl. destruct (negb (consumed_bytes _ =? 0)) eqn:C1; [done|].
    destruct (negb (consumed_frames _ =? 0)) eqn:C2; [done|]. bool_prop. lia. }
  change (wire_frames []) with 0 in *. change (credit_frames []) with 0 in *.
  change (wire_data []) with (@nil Z) in *. change (credit_bytes []) with 0 in *.
  autorewrite with tsc_len in *.
  destruct (di_windows _ _ _ _ _ L) as (W1 & W2 & W3). pose proof (co_frame_size _ Hcr).
  pose proof (unread_pos _ (ci_outbound _ _ _ IL) Hout) as Up. rewrite <- (ci_outbound_len _ _ _ IL) in Up.
  destruct (data_of_channel_some cl id (chan (left p))) as (c1 & data & E & _); try done; try lia.
  congruence.
Qed.

(** A completed [close] leaves nothing behind: when the closing future of one
    side becomes ready, no frame of the channel is left on the transport towards
    it, the peer has received FIN, and every byte it wrote has reached the peer's
    application, its receive queue, or was discarded by its drop. *)
Theorem close_completes_delivery eager cl cr id p waker :
  config_ok cl -> config_ok cr -> 1 <= id <= u32_max -> reachable eager cl cr id p ->
  result (poll_close waker (chan (left p))) = Ok (Ready tt) ->
  rl p = [] /\ remote_fin (chan (right p)) = true /\ remote_fin (chan (left p)) = true
  /\ written (left p) = delivered (right p) ++ lost (right p) ++ content (inbound (chan (right p)))
  /\ written (right p) = delivered (left p) ++ lost (left p) ++ content (inbound (chan (left p))).
Proof.
  intros Hcl Hcr Hid Hp Hr.
  destruct (pair_sides cl cr Hcl Hcr eager id Hid p Hp)
    as [(IL & TL & _ & _ & L & R) (IR & _ & _ & _ & _ & _)].
  unfold poll_close in Hr. rewrite TL in Hr. case_match eqn:C; [|done]. bool_prop.
  pose proof (di_flags _ _ _ _ _ R) as F. rewrite H0 in F.
  apply run_flags_closed in F as [E F]. apply orb_true_iff in F.
  destruct (ci_closed _ _ _ IR) as [_ RFr]; [tauto|].
  destruct (ci_closed _ _ _ IL) as [_ RFl]; [tauto|].
  split_and!; [done..| |]; by eapply fin_complete.
Qed.

(** ** Running a schedule *)

(** One move of an endpoint, as a schedule names it. *)
Inductive action := AApp (op : app_op) | AControl | AData | AComplete | ADeliver.

#[export] Instance op_ok_dec op : Decision (op_ok op).
Proof. destruct op; cbn; apply _. Defined.

Definition local_act (config : Config) (id : Z) (a : action) (e : endpoint)
  : option (list Frame.t * endpoint) :=
  match a with
  | AApp op =>
      if bool_decide (dropped e = false) && bool_decide (op_ok op)
      then Some ([], app_step config op e) else None
  | AControl =>
      if bool_decide (flight e = Completion.None) then
        match control_of_channel id (chan e) with
        | Some (c, sel) => Some ([frame sel], e <| chan := c |> <| flight := completion sel |>)
        | None => None
        end
      else None
  | AData =>
      if bool_decide (flight e = Completion.None) then
        match data_of_channel id (chan e) with
        | Ok (Some (c, sel)) => Some ([frame sel], e <| chan := c |> <| flight := completion sel |>)
        | _ => None
        end
      else None
  | AComplete =>
      if bool_decide (flight e = Completion.None) then None
      else Some ([], e <| chan := complete config (flight e) (chan e) |> <| flight := Completion.None |>)
  | ADeliver => None
  end.

Definition left_act (eager : bool) (config : Config) (id : Z) (a : action) (p : pair) : option pair :=
  match a, rl p with
  | ADeliver, f :: rest =>
      if (negb eager || negb (is_data f) || negb (fl_window (flight (left p))))
         && bool_decide (result (process f (chan (left p))) = Ok tt)
      then Some {| left := deliver f (left p); right := right p; lr := lr p; rl := rest |}
      else None
  | _, _ =>
      match local_act config id a (left p) with
      | Some (out, e) => Some {| left := e; right := right p; lr := lr p ++ out; rl := rl p |}
      | None => None
      end
  end.

(** A schedule: who moves ([true] is the left endpoint) and how. *)
Fixpoint run (eager : bool) (cl cr : Config) (id : Z) (s : list (bool * action)) (p : pair)
  : option pair :=
  match s with
  | [] => Some p
  | (true, a) :: s' =>
      match left_act eager cl id a p with Some p' => run eager cl cr id s' p' | None => None end
  | (false, a) :: s' =>
      match left_act eager cr id a (swap p) with
      | Some p' => run eager cl cr id s' (swap p')
      | None => None
      end
  end.

Lemma local_act_sound config id a e out e' :
  local_act config id a e = Some (out, e') -> local_step config id e out e'.
Proof.
  destruct a; cbn; try done; case_match eqn:G; try done.
  - apply andb_true_iff in G as [G1%bool_decide_eq_true G2%bool_decide_eq_true].
    intros [= <- <-]. by constructor.
  - apply bool_decide_eq_true in G. destruct (control_of_channel id (chan e)) as [[c sel]|] eqn:E; [|done].
    intros [= <- <-]. by constructor.
  - apply bool_decide_eq_true in G. destruct (data_of_channel id (chan e)) as [[[c sel]|]| |] eqn:E; try done.
    intros [= <- <-]. by constructor.
  - apply bool_decide_eq_false in G. intros [= <- <-]. by constructor.
Qed.

Lemma left_act_sound eager config id a p p' :
  left_act eager config id a p = Some p' -> left_step eager config id p p'.
Proof.
  intros H.
  assert (D : (exists f rest, a = ADeliver /\ rl p = f :: rest)
    \/ exists out e, local_act config id a (left p) = Some (out, e)
         /\ p' = {| left := e; right := right p; lr := lr p ++ out; rl := rl p |}).
  { unfold left_act in H. destruct a; [right|right|right|right|];
      try (destruct (rl p); [|left; by eauto]; cbn in H; done);
      (destruct (local_act _ _ _ _) as [[out e]|]; [|done]); injection H as <-; by eauto. }
  destruct D as [(f & rest & -> & E)|(out & e & E & ->)].
  - unfold left_act in H. rewrite E in H. case_match eqn:G; [|done]. injection H as <-.
    apply andb_true_iff in G as [G1 G2%bool_decide_eq_true]. constructor; try done.
    intros -> D. rewrite D in G1. by destruct (fl_window _).
  - constructor. by eapply local_act_sound.
Qed.

Lemma swap_swap p : swap (swap p) = p.
Proof. by destruct p. Qed.

Lemma run_sound eager cl cr id s p p' :
  run eager cl cr id s p = Some p' -> rtc (pair_step eager cl cr id) p p'.
Proof.
  revert p. induction s as [|[[|] a] s IH]; intros p; cbn.
  - intros [= ->]. apply rtc_refl.
  - destruct (left_act eager cl id a p) as [q|] eqn:E; [|done]. intros H.
    eapply rtc_l; [left; by eapply left_act_sound|by apply IH].
  - destruct (left_act eager cr id a (swap p)) as [q|] eqn:E; [|done]. intros H.
    eapply rtc_l; [right|by apply IH]. rewrite swap_swap. by eapply left_act_sound.
Qed.

(** ** Schedules on small windows

    A window of two bytes and one frame makes every limit bite at once. *)
Definition tiny : Config :=
  {| initial_byte_window := 2; initial_frame_window := 1; max_frame_size := 2; max_channels := 4;
     max_endpoint_size := 16; max_reason_size := 16; control_queue_capacity := 4;
     control_burst := 1; closed_channel_capacity := 4; probe_interval := 1 |}.
Lemma tiny_ok : config_ok tiny.
Proof. constructor; unfold u32_max; cbn; lia. Qed.

Definition send (side : bool) (data : bytes) : list (bool * action) :=
  [(side, AApp (OpWrite 1 data)); (side, AData); (side, AComplete)].
(** Left writes two bytes; right receives and reads them, and returns credit. *)
Definition one_round : list (bool * action) :=
  send true [7; 8] ++ [(false, ADeliver); (false, AApp (OpRead 1 9)); (false, AControl)].

Definition after (eager : bool) (s : list (bool * action)) : pair :=
  match run eager tiny tiny 1 s (initial_pair tiny tiny) with
  | Some p => p | None => initial_pair tiny tiny end.
Lemma after_reachable eager s :
  bool_decide (is_Some (run eager tiny tiny 1 s (initial_pair tiny tiny))) = true ->
  reachable eager tiny tiny 1 (after eager s).
Proof.
  intros [p E]%bool_decide_eq_true. unfold after. rewrite E. by eapply run_sound.
Qed.
Ltac by_schedule := apply after_reachable; vm_compute; reflexivity.

Lemma compliant_peer_accepted_witness :
  let p := after true (one_round ++ [(true, ADeliver); (true, AApp (OpWrite 1 [9])); (true, AData);
                                      (false, AComplete)]) in
  result (process (Frame.Data 1 [9]) (chan (right p))) = Ok tt.
Proof.
  intros p. apply (compliant_peer_accepted tiny tiny 1 p tiny_ok tiny_ok) with (rest := []).
  - unfold u32_max; lia.
  - by_schedule.
  - vm_compute. reflexivity.
  - intros _ _. vm_compute. reflexivity.
Defined.

Lemma stream_integrity_witness :
  let p := after true (one_round ++ [(true, AApp (OpWrite 1 [9]))]) in
  written (left p) = [7; 8; 9] /\ delivered (right p) = [7; 8]
  /\ written (left p) = delivered (right p) ++ lost (right p) ++ content (inbound (chan (right p)))
                     ++ wire_data (lr p) ++ content (outbound (chan (left p))).
Proof.
  split; [vm_compute; reflexivity|]. split; [vm_compute; reflexivity|].
  apply (stream_integrity true tiny tiny 1 _ tiny_ok tiny_ok); [unfold u32_max; lia|by_schedule].
Defined.

Definition half_closed : list (bool * action) :=
  one_round ++ [(false, AComplete); (true, ADeliver); (true, AApp (OpShutdown 1)); (true, AControl);
                (true, AComplete); (false, ADeliver)].
Lemma eof_after_all_bytes_witness :
  delivered (right (after true half_closed)) = written (left (after true half_closed)).
Proof.
  apply (eof_after_all_bytes true tiny tiny 1 _ 1 9 tiny_ok tiny_ok);
    [unfold u32_max; lia|by_schedule|lia|vm_compute; reflexivity..].
Defined.

Definition stuck : list (bool * action) :=
  send true [7] ++ [(true, AApp (OpWrite 1 [8])); (false, ADeliver)].
Lemma no_flow_deadlock_witness : inbound (chan (right (after true stuck))) <> [].
Proof.
  apply (no_flow_deadlock true tiny tiny 1 (after true stuck) tiny_ok tiny_ok);
    [unfold u32_max; lia|by_schedule|vm_compute; reflexivity..|vm_compute; discriminate].
Defined.

Definition both_closed : list (bool * action) :=
  half_closed ++ [(false, AApp OpDrop); (false, AControl); (false, AComplete); (true, ADeliver);
                  (false, AControl); (false, AComplete); (true, ADeliver); (true, AApp OpClose);
                  (true, AControl); (true, AComplete)].
Lemma close_completes_delivery_witness :
  let p := after true both_closed in
  rl p = [] /\ written (left p) = delivered (right p) ++ lost (right p) ++ content (inbound (chan (right p))).
Proof.
  destruct (close_completes_delivery true tiny tiny 1 (after true both_closed) 1 tiny_ok tiny_ok)
    as (E & _ & _ & W & _);
    [unfold u32_max; lia|by_schedule|vm_compute; reflexivity|]. by split.
Defined.

(** The receive side returns credit too late.  A WINDOW frame is on the
    transport before [complete_frame] adds its credit to the receive window, so a
    compliant peer that uses the credit at once has its DATA frame refused, and
    the connection fails with a protocol error.  Right reads two bytes and its
    driver puts WINDOW on the transport; left processes it and sends two more
    bytes; right's reader processes them before its writer resumes. *)
Theorem window_race :
  let p := after false (one_round ++ [(true, ADeliver)] ++ send true [9; 9]) in
  reachable false tiny tiny 1 p
  /\ lr p = [Frame.Data 1 [9; 9]]
  /\ flight (right p) = Completion.Window 1 2 1
  /\ receive_bytes (chan (right p)) = 0
  /\ result (process (Frame.Data 1 [9; 9]) (chan (right p)))
     = Err (protocol_error "peer exceeded channel byte credit").
Proof. split_and!; [by_schedule|vm_compute; reflexivity..]. Qed.
