(* ===== verification/MuxCore.v ===== *)
(** * Multiplexer: the connection registry

    [CoreInner], [Core::fail], the application's [open], [recv], [accept],
    [reject] and their drops ([connection.rs]), and the frame handlers behind
    [process_frame] ([driver.rs]).

    A channel's [Arc<ChannelState>] outlives its registry entry (the
    application's handle and a pending completion keep it), so the states form a
    heap [states] and the registry [channels] is the set of registered
    identifiers; an identifier never names two channels.  A [oneshot] sender of
    [pending_outgoing] reaches its receiver while the opening future lives
    ([openers]); what was sent and not yet received is in [responses].  The
    bounded [mpsc] queue of requests is [incoming_queue], [receiving] says its
    receiver exists.  [signalled] is the [Notify] the writer waits for, [wakes]
    the tasks woken so far.  The writer's own variables ([writer_loop]) close the
    record.

    A handler runs as one step.  It takes the registry lock and then the
    channel's; what the code may interleave between the two are application
    calls, which touch the channel's lock only. *)

From S2P Require Import Prelude Utf8 MuxTypes MuxWire MuxChannel.

(** [PendingIncoming]. *)
Record PendingIncoming := { byte_window : Z; frame_window : Z; max_frame : Z }.

Record Core := {
  role : Role;
  core_config : Config;
  next_id : Z;
  last_peer_id : Z;
  channels : gset Z;
  states : gmap Z ChannelInner;
  pending_outgoing : gset Z;
  pending_incoming : gmap Z PendingIncoming;
  controls : list Frame.t;
  tombstones : gset Z;
  tombstone_order : list Z;
  incoming_tx : bool;
  core_terminal : option Error.t;
  incoming_queue : list (Z * bytes);
  receiving : bool;
  openers : gset Z;
  responses : gmap Z (outcome Error.t unit);
  signalled : bool;
  wakes : list Z;
  data_cursor : Z;
  control_cursor : Z;
  control_count : Z;
  writing : option Selected;
}.
#[export] Instance Core_eta : Eta Core := fun x => {|
  role := role x; core_config := core_config x; next_id := next_id x; last_peer_id := last_peer_id x;
  channels := channels x; states := states x; pending_outgoing := pending_outgoing x;
  pending_incoming := pending_incoming x; controls := controls x; tombstones := tombstones x;
  tombstone_order := tombstone_order x; incoming_tx := incoming_tx x;
  core_terminal := core_terminal x; incoming_queue := incoming_queue x; receiving := receiving x;
  openers := openers x; responses := responses x; signalled := signalled x; wakes := wakes x;
  data_cursor := data_cursor x; control_cursor := control_cursor x;
  control_count := control_count x; writing := writing x |}.

(** ** Effects

    A locked section reads and writes the registry and may return early with an
    error; what it changed before the error stays changed. *)
Definition op (A : Type) : Type := Core -> outcome Error.t A * Core.
Definition pure {A} (a : A) : op A := fun w => (Ok a, w).
Definition throw {A} (e : Error.t) : op A := fun w => (Err e, w).
Definition bind {A B} (m : op A) (k : A -> op B) : op B :=
  fun w => match m w with
           | (Ok a, w') => k a w'
           | (Err e, w') => (Err e, w')
           | (Panic s, w') => (Panic s, w')
           end.
Definition asks {A} (f : Core -> A) : op A := fun w => (Ok (f w), w).
Definition modify (f : Core -> Core) : op unit := fun w => (Ok tt, f w).
Notation "'let!' x ':=' c 'in' k" := (bind c (fun x => k))
  (at level 10, x pattern, c at level 100, k at level 200) : tsc_scope.
Definition when (b : bool) (m : op unit) : op unit := if b then m else pure tt.

(** [core.notify.notify_one()]. *)
Definition notify_one : op unit := modify (fun w => w <| signalled := true |>).

(** One locked section of channel [id]. *)
Definition put_step {E A} (id : Z) (s : stepped E A) (w : Core) : Core :=
  w <| states := <[id := next s]> (states w) |>
    <| wakes := wakes w ++ woken s |>
    <| signalled := signalled w || notified s |>.
Definition on_channel {A} (id : Z) (body : ChannelInner -> stepped Error.t A) : op A :=
  fun w => match states w !! id with
           | Some c => (result (body c), put_step id (body c) w)
           | None => (Panic "dangling channel", w)
           end.
(** The same for a body that cannot fail. *)
Definition update_channel (id : Z) (body : ChannelInner -> ChannelInner * list Z) : op unit :=
  on_channel id (fun c => step (body c).1 (body c).2 false (Ok tt)).

(** ** [CoreInner] *)

(** [connect]; [max_permits] is the semaphore limit [validate] compares with. *)
Definition Core_new (r : Role) (config : Config) : Core := {|
  role := r; core_config := config; next_id := first_id r; last_peer_id := 0;
  channels := ∅; states := ∅; pending_outgoing := ∅; pending_incoming := ∅; controls := [];
  tombstones := ∅; tombstone_order := []; incoming_tx := true; core_terminal := None;
  incoming_queue := []; receiving := true; openers := ∅; responses := ∅;
  signalled := false; wakes := [];
  data_cursor := 0; control_cursor := 0; control_count := 0; writing := None |}.
Definition connect (max_permits : Z) (r : Role) (config : Config) : outcome Error.t Core :=
  let? _ := validate max_permits config in Ok (Core_new r config).

Definition channel_count (w : Core) : Z :=
  Z.of_nat (size (channels w)) + Z.of_nat (size (pending_incoming w)).

Definition enqueue_control (f : Frame.t) : op unit := fun w =>
  if len (controls w) >=? control_queue_capacity (core_config w)
  then (Err Error.ResourceExhausted, w)
  else (Ok tt, w <| controls := controls w ++ [f] |>).

(** The expiry loop of [remember_closed]. *)
Fixpoint expire (limit : Z) (order : list Z) (tombs : gset Z) : list Z * gset Z :=
  match order with
  | [] => ([], tombs)
  | expired :: rest =>
      if len order >? limit then expire limit rest (tombs ∖ {[expired]}) else (order, tombs)
  end.
Definition remember_closed (id : Z) (w : Core) : Core :=
  let known := bool_decide (id ∈ tombstones w) in
  let order := if known then tombstone_order w else tombstone_order w ++ [id] in
  let '(order', tombs) :=
    expire (closed_channel_capacity (core_config w)) order ({[id]} ∪ tombstones w) in
  w <| tombstones := tombs |> <| tombstone_order := order' |>.

(** [inner.channels.remove(&id); inner.remember_closed(id)]. *)
Definition forget_channel (id : Z) (w : Core) : Core :=
  remember_closed id (w <| channels := channels w ∖ {[id]} |>).

(** The registered identifiers in the order a [BTreeMap] iterates them. *)
Definition channel_ids (w : Core) : list Z := merge_sort Z.le (elements (channels w)).

(** [oneshot::Sender::send]: does the opening future still wait? *)
Definition send_response (id : Z) (r : outcome Error.t unit) (w : Core) : bool * Core :=
  if bool_decide (id ∈ openers w) then (true, w <| responses := <[id := r]> (responses w) |>)
  else (false, w).

(** [Core::fail]. *)
Definition fail (error : Error.t) (w : Core) : Core :=
  if bool_decide (is_Some (core_terminal w)) then w
  else
    let answered : gmap Z (outcome Error.t unit) :=
      set_to_map (fun id => (id, Err error)) (pending_outgoing w ∩ openers w) in
    w <| core_terminal := Some error |> <| incoming_tx := false |> <| controls := [] |>
      <| pending_incoming := ∅ |> <| pending_outgoing := ∅ |> <| channels := ∅ |>
      <| responses := answered ∪ responses w |>
      <| states := map_imap (fun id c => Some (if bool_decide (id ∈ channels w)
                                               then (fail_channel error c).1 else c)) (states w) |>
      <| wakes := wakes w ++ concat (map (fun id =>
                    match states w !! id with Some c => (fail_channel error c).2 | None => [] end)
                    (channel_ids w)) |>
      <| signalled := true |>.

(** ** The application's side *)

(** [MuxHandle::open] up to its [await]; returns the new identifier. *)
Definition open (endpoint : bytes) : op Z := fun w =>
  match core_terminal w with
  | Some error => (Err error, w)
  | None =>
      if bool_decide (endpoint = []) || (len endpoint >? max_endpoint_size (core_config w))
      then (Err Error.InvalidInput, w)
      else if channel_count w >=? max_channels (core_config w)
      then (Err Error.ResourceExhausted, w)
      else
        let id := next_id w in
        match checked_add u32_max id 2 with
        | None => (Err Error.ResourceExhausted, w)
        | Some following =>
            let config := core_config w in
            (let! _ := modify (fun w => w <| next_id := following |>) in
             let! _ := enqueue_control (Frame.Open id (initial_byte_window config)
                         (initial_frame_window config) (max_frame_size config) endpoint) in
             let! _ := modify (fun w => w <| states := <[id := ChannelInner_new config]> (states w) |>
                                          <| channels := {[id]} ∪ channels w |>
                                          <| pending_outgoing := {[id]} ∪ pending_outgoing w |>
                                          <| openers := {[id]} ∪ openers w |>) in
             let! _ := notify_one in
             pure id) w
        end
  end.

(** The opening future is polled: the response, or [ConnectionClosed] once the
    sender is gone without one. *)
Definition poll_open (id : Z) (w : Core) : Poll (outcome Error.t unit) * Core :=
  match responses w !! id with
  | Some r => (Ready r, w <| responses := delete id (responses w) |>
                          <| openers := openers w ∖ {[id]} |>)
  | None =>
      if bool_decide (id ∈ pending_outgoing w) then (Pending, w)
      else (Ready (Err Error.ConnectionClosed), w <| openers := openers w ∖ {[id]} |>)
  end.

(** One application call on the channel handle [id]. *)
Definition call_channel {E A} (id : Z) (body : ChannelInner -> stepped E A) (w : Core)
  : option (outcome E A) * Core :=
  match states w !! id with
  | Some c => (Some (result (body c)), put_step id (body c) w)
  | None => (None, w)
  end.

(** The opening future is dropped while it waits: a response that was already
    sent is dropped with its receiver, then [OpenCancellation] resets. *)
Definition cancel_open (id : Z) (w : Core) : Core :=
  let w1 := match responses w !! id with
            | Some (Ok _) => (call_channel id drop_channel w).2
            | _ => w
            end in
  (call_channel id drop_open_cancellation
     (w1 <| responses := delete id (responses w1) |> <| openers := openers w1 ∖ {[id]} |>)).2.

(** [Incoming::recv]: stale requests are skipped. *)
Fixpoint next_request (pending : gmap Z PendingIncoming) (queue : list (Z * bytes))
  : option (Z * bytes) * list (Z * bytes) :=
  match queue with
  | [] => (None, [])
  | request :: rest =>
      if bool_decide (is_Some (pending !! request.1)) then (Some request, rest)
      else next_request pending rest
  end.
Definition recv (w : Core) : Poll (option (Z * bytes)) * Core :=
  let '(found, rest) := next_request (pending_incoming w) (incoming_queue w) in
  let w' := w <| incoming_queue := rest |> in
  match found with
  | Some request => (Ready (Some request), w')
  | None => (if incoming_tx w then Pending else Ready None, w')
  end.

(** [reject_request]. *)
Definition reject_request (id : Z) (reason : bytes) : op unit := fun w =>
  match core_terminal w with
  | Some error => (Err error, w)
  | None =>
      if len reason >? max_reason_size (core_config w) then (Err Error.InvalidInput, w)
      else if negb (bool_decide (is_Some (pending_incoming w !! id)))
      then (Err Error.ConnectionClosed, w)
      else
        (let! _ := enqueue_control (Frame.Reject id reason) in
         let! _ := modify (fun w => remember_closed id
                                      (w <| pending_incoming := delete id (pending_incoming w) |>)) in
         notify_one) w
  end.

(** [Drop for IncomingRequest] of an unresolved request. *)
Definition drop_request (id : Z) (w : Core) : Core :=
  match reject_request id (str "request dropped") w with
  | (Err Error.ResourceExhausted, w') => fail Error.ResourceExhausted w'
  | (_, w') => w'
  end.

(** The locked part of [IncomingRequest::accept]. *)
Definition accept_request (id : Z) : op unit := fun w =>
  match core_terminal w with
  | Some error => (Err error, w)
  | None =>
      match pending_incoming w !! id with
      | None => (Err Error.ConnectionClosed, w)
      | Some pending =>
          let config := core_config w in
          let state := set_send_windows (byte_window pending) (frame_window pending)
                         (max_frame pending) (ChannelInner_new config) in
          let w1 := w <| pending_incoming := delete id (pending_incoming w) |> in
          match enqueue_control (Frame.Accept id (initial_byte_window config)
                  (initial_frame_window config) (max_frame_size config)) w1 with
          | (Ok _, w2) => (Ok tt, w2 <| states := <[id := state]> (states w2) |>
                                     <| channels := {[id]} ∪ channels w2 |>)
          | (Err e, w2) =>
              (Err e, w2 <| pending_incoming := <[id := pending]> (pending_incoming w2) |>)
          | (Panic s, w2) => (Panic s, w2)
          end
      end
  end.
(** [IncomingRequest::accept] and [reject] consume the request: an error drops
    it unresolved. *)
Definition accept (id : Z) : op unit := fun w =>
  match accept_request id w with
  | (Ok _, w') => (let! _ := notify_one in pure tt) w'
  | (r, w') => (r, drop_request id w')
  end.
Definition reject (id : Z) (reason : bytes) : op unit := fun w =>
  match reject_request id reason w with
  | (Ok _, w') => (Ok tt, w')
  | (r, w') => (r, drop_request id w')
  end.

(** The [Incoming] handle is dropped: the queue is drained, each request in it
    dropped unresolved. *)
Definition drop_incoming (w : Core) : Core :=
  foldl (fun w request => drop_request request.1 w)
    (w <| receiving := false |> <| incoming_queue := [] |>) (incoming_queue w).

(** ** Frame handlers *)

(** [receive_open]. *)
Definition receive_open (id byte_credit frame_credit frame_size : Z) (endpoint : bytes) : op unit := fun w =>
  if owns_id (role w) id || (id <=? last_peer_id w)
  then (Err (protocol_error "invalid or reused peer channel identifier"), w)
  else
    let w := w <| last_peer_id := id |> in
    if bool_decide (endpoint = []) then (Err (protocol_error "empty channel endpoint"), w)
    else if channel_count w >=? max_channels (core_config w) then
      (let! _ := enqueue_control (Frame.Reject id (str "channel limit reached")) in
       let! _ := modify (remember_closed id) in
       notify_one) w
    else if negb (incoming_tx w) then (Err Error.ConnectionClosed, w)
    else
      let w1 := w <| pending_incoming :=
        <[id := {| byte_window := byte_credit; frame_window := frame_credit; max_frame := frame_size |}]>
          (pending_incoming w) |> in
      if receiving w1 && (len (incoming_queue w1) <? max_channels (core_config w1))
      then (Ok tt, w1 <| incoming_queue := incoming_queue w1 ++ [(id, endpoint)] |>)
      else
        (let! _ := modify (fun w => w <| pending_incoming := delete id (pending_incoming w) |>) in
         let! _ := enqueue_control (Frame.Reject id (str "incoming queue full")) in
         let! _ := modify (remember_closed id) in
         notify_one) w1.

(** [receive_accept]: a response nobody waits for drops the new channel and
    resets it. *)
Definition receive_accept (id bytes frames frame_size : Z) : op unit := fun w =>
  if negb (owns_id (role w) id) then (Err (protocol_error "ACCEPT for peer-owned channel"), w)
  else if negb (bool_decide (id ∈ pending_outgoing w)) then
    if bool_decide (id ∈ tombstones w) then (Ok tt, w)
    else (Err (protocol_error "unexpected ACCEPT"), w)
  else
    let w := w <| pending_outgoing := pending_outgoing w ∖ {[id]} |> in
    if negb (bool_decide (id ∈ channels w))
    then (Err (protocol_error "ACCEPT for unknown channel"), w)
    else
      (let! _ := update_channel id (fun c => (set_send_windows bytes frames frame_size c, [])) in
       let! delivered := (fun w => let '(sent, w') := send_response id (Ok tt) w in (Ok sent, w')) in
       if delivered then pure tt
       else
         let! _ := (fun w => (Ok tt, (call_channel id drop_channel w).2)) in
         let! _ := update_channel id (fun c => (c <| reset_pending := Some (str "open cancelled") |>, [])) in
         notify_one) w.

(** [receive_reject]. *)
Definition receive_reject (id : Z) (reason : bytes) : op unit := fun w =>
  if negb (owns_id (role w) id) then (Err (protocol_error "REJECT for peer-owned channel"), w)
  else if negb (bool_decide (id ∈ pending_outgoing w)) then
    if bool_decide (id ∈ tombstones w) then (Ok tt, w)
    else (Err (protocol_error "unexpected REJECT"), w)
  else
    let registered := bool_decide (id ∈ channels w) in
    let reason := Utf8.lossy reason in
    (let! _ := modify (fun w => forget_channel id
                                  (w <| pending_outgoing := pending_outgoing w ∖ {[id]} |>)) in
     let! _ := when registered (update_channel id (channel_reject reason)) in
     modify (fun w => (send_response id (Err (Error.Rejected reason)) w).2)) w.

(** The lookup every per-channel handler starts with: the channel is
    registered, was closed recently ([None]), or is unknown. *)
Definition find_channel (kind : string) (id : Z) : op (option Z) := fun w =>
  if bool_decide (id ∈ channels w) then (Ok (Some id), w)
  else if bool_decide (id ∈ tombstones w) then (Ok None, w)
  else (Err (protocol_error (kind ++ " for unknown channel")), w).

Definition receive_data (id : Z) (data : bytes) : op unit := fun w =>
  if bool_decide (id ∈ pending_outgoing w)
  then (Err (protocol_error "DATA before channel acceptance"), w)
  else
    (let! found := find_channel "DATA" id in
     match found with
     | Some id => on_channel id (channel_data data)
     | None => pure tt
     end) w.

Definition receive_window (id bytes frames : Z) : op unit :=
  let! found := find_channel "WINDOW" id in
  match found with
  | Some id => on_channel id (channel_window bytes frames)
  | None => pure tt
  end.

Definition receive_fin (id : Z) : op unit :=
  let! found := find_channel "FIN" id in
  match found with
  | Some id => on_channel id channel_fin
  | None => pure tt
  end.

Definition receive_closed (id : Z) : op unit :=
  let! found := find_channel "CLOSED" id in
  match found with
  | Some id =>
      let! remove := on_channel id channel_closed in
      when remove (modify (forget_channel id))
  | None => pure tt
  end.

Definition receive_reset (id : Z) (reason : bytes) : op unit := fun w =>
  let opening := bool_decide (id ∈ pending_outgoing w) in
  let registered := bool_decide (id ∈ channels w) in
  let requested := bool_decide (is_Some (pending_incoming w !! id)) in
  let w1 := w <| pending_outgoing := pending_outgoing w ∖ {[id]} |>
              <| pending_incoming := delete id (pending_incoming w) |>
              <| channels := channels w ∖ {[id]} |> in
  if negb registered && negb opening && negb requested && negb (bool_decide (id ∈ tombstones w1))
  then (Err (protocol_error "RESET for unknown channel"), w1)
  else
    let reason := Utf8.lossy reason in
    (let! _ := modify (remember_closed id) in
     let! _ := when registered (update_channel id (channel_reset reason)) in
     when opening (modify (fun w => (send_response id (Err (Error.Reset reason)) w).2))) w1.

(** [process_frame]. *)
Definition process_frame (f : Frame.t) : op unit :=
  match f with
  | Frame.Open id b n m endpoint => receive_open id b n m endpoint
  | Frame.Accept id b n m => receive_accept id b n m
  | Frame.Reject id reason => receive_reject id reason
  | Frame.Data id data => receive_data id data
  | Frame.Window id b n => receive_window id b n
  | Frame.Fin id => receive_fin id
  | Frame.Reset id reason => receive_reset id reason
  | Frame.Closed id => receive_closed id
  end.

(** A turn of [reader_loop]: an error ends the driver, which fails the
    connection ([Driver::run]); a panic would drop the driver, which does too. *)
Definition reader_turn (f : Frame.t) (w : Core) : Core :=
  match process_frame f w with
  | (Ok _, w') => w'
  | (Err e, w') => fail e w'
  | (Panic _, w') => fail Error.ConnectionClosed w'
  end.
(** The transport fails, or the driver is dropped. *)
Definition transport_failed (kind : IoKind) (w : Core) : Core := fail (io_report kind) w.
Definition drop_driver (w : Core) : Core := fail Error.ConnectionClosed w.

(** * Multiplexer: the writer

    [ordered_states], [select_channel_control], [select_channel_data],
    [select_frame], [complete_frame] and the loop of [writer_loop]
    ([driver.rs]).  A frame that was selected and not yet completed is
    [writing]. *)

(** [ordered_states]: the registered identifiers after the cursor, then the
    others. *)
Definition ordered_states (w : Core) (after : Z) : list Z :=
  List.filter (fun id => after <? id) (channel_ids w)
  ++ List.filter (fun id => id <=? after) (channel_ids w).

(** The loop of [select_channel_control] over the channels [ids]. *)
Fixpoint select_control_from (heap : gmap Z ChannelInner) (ids : list Z)
  : option (Z * ChannelInner * Selected) :=
  match ids with
  | [] => None
  | id :: rest =>
      match heap !! id with
      | Some c =>
          match control_of_channel id c with
          | Some (c', selected) => Some (id, c', selected)
          | None => select_control_from heap rest
          end
      | None => select_control_from heap rest
      end
  end.
Definition select_channel_control : op (option Selected) := fun w =>
  match select_control_from (states w) (ordered_states w (control_cursor w)) with
  | Some (id, c, selected) =>
      (Ok (Some selected), w <| states := <[id := c]> (states w) |> <| control_cursor := id |>)
  | None => (Ok None, w)
  end.

(** The loop of [select_channel_data]. *)
Fixpoint select_data_from (heap : gmap Z ChannelInner) (ids : list Z)
  : outcome Error.t (option (Z * ChannelInner * Selected)) :=
  match ids with
  | [] => Ok None
  | id :: rest =>
      match heap !! id with
      | Some c =>
          let? selected := data_of_channel id c in
          match selected with
          | Some (c', selected) => Ok (Some (id, c', selected))
          | None => select_data_from heap rest
          end
      | None => select_data_from heap rest
      end
  end.
Definition select_channel_data : op (option Selected) := fun w =>
  match select_data_from (states w) (ordered_states w (data_cursor w)) with
  | Ok (Some (id, c, selected)) =>
      (Ok (Some selected), w <| states := <[id := c]> (states w) |> <| data_cursor := id |>)
  | Ok None => (Ok None, w)
  | Err e => (Err e, w)
  | Panic s => (Panic s, w)
  end.

(** [inner.controls.pop_front()]. *)
Definition pop_control : op (option Selected) := fun w =>
  match controls w with
  | [] => (Ok None, w)
  | f :: rest =>
      (Ok (Some {| frame := f; completion := Completion.None |}), w <| controls := rest |>)
  end.

(** The first alternative that selects a frame. *)
Definition or_else (m k : op (option Selected)) : op (option Selected) :=
  let! found := m in match found with Some s => pure (Some s) | None => k end.

(** [select_frame]. *)
Definition select_frame : op (option Selected) := fun w =>
  match core_terminal w with
  | Some error => (Err error, w)
  | None =>
      let force_data := control_count w >=? control_burst (core_config w) in
      let control := or_else pop_control select_channel_control in
      (if force_data then or_else select_channel_data control
       else or_else control select_channel_data) w
  end.

(** [complete_frame]. *)
Definition complete_frame (done : Completion.t) : op unit :=
  match done with
  | Completion.None => pure tt
  | Completion.Data id bytes => on_channel id (complete_data bytes)
  | Completion.Window id bytes frames =>
      let! config := asks core_config in
      on_channel id (complete_window config bytes frames)
  | Completion.Fin id => on_channel id complete_fin
  | Completion.Reset id =>
      let! _ := update_channel id complete_reset in
      modify (fun w => forget_channel id
                         (w <| pending_outgoing := pending_outgoing w ∖ {[id]} |>))
  | Completion.Closed id =>
      let! remove := on_channel id complete_closed in
      when remove (modify (forget_channel id))
  end.

Definition is_data_frame (f : Frame.t) : bool :=
  match f with Frame.Data _ _ => true | _ => false end.

(** [writer_loop] up to the [write_frame] await: a frame is selected and handed
    to the transport, or the loop waits, or it ends with the terminal error,
    which fails the connection. *)
Definition writer_select (w : Core) : option Frame.t * Core :=
  match writing w with
  | Some _ => (None, w)
  | None =>
      match select_frame (w <| signalled := false |>) with
      | (Ok (Some selected), w') => (Some (frame selected), w' <| writing := Some selected |>)
      | (Ok None, w') => (None, w')
      | (Err e, w') => (None, fail e w')
      | (Panic _, w') => (None, fail Error.ConnectionClosed w')
      end
  end.

(** The rest of the turn, once the frame is written. *)
Definition writer_complete (w : Core) : outcome Error.t unit * Core :=
  match writing w with
  | None => (Ok tt, w)
  | Some selected =>
      let '(r, w1) := complete_frame (completion selected) w in
      (r, w1 <| writing := None |>
             <| control_count := if is_data_frame (frame selected) then 0
                                 else saturating_add usize_max (control_count w1) 1 |>)
  end.
