(* ===== verification/MuxCoreInv.v ===== *)
(** * Multiplexer: the connection invariant

    [reg_inv] is what the registry promises (limits, identifiers, tombstones,
    what a failed connection still holds); [heap_inv] puts every channel state
    under [chan_inv] with the frame the writer holds for it.  Each operation of
    [MuxCore] preserves both against any peer whose frames decode
    ([conn_step]), and none of them panics. *)

From S2P Require Import Prelude Utf8 MuxTypes MuxWire MuxChannel MuxChannelInv MuxPair MuxCore.

(** The channel a completion is for. *)
Definition completion_id (c : Completion.t) : option Z :=
  match c with
  | Completion.None => None
  | Completion.Data id _ | Completion.Window id _ _ | Completion.Fin id
  | Completion.Reset id | Completion.Closed id => Some id
  end.
Definition flight_of (writing : option Selected) (id : Z) : Completion.t :=
  match writing with
  | Some sel => if bool_decide (completion_id (completion sel) = Some id)
                then completion sel else Completion.None
  | None => Completion.None
  end.

(** A frame [write_frame] accepts. *)
Definition sendable (f : Frame.t) : Prop :=
  1 <= Frame.id f <= u32_max /\ len (frame_parts f).2 <= u32_max.

Definition known_id (w : Core) (id : Z) : Prop :=
  1 <= id <= u32_max
  /\ if owns_id (role w) id then id < next_id w else id <= last_peer_id w.

Record reg_inv (w : Core) : Prop := {
  ri_config : config_ok (core_config w);
  ri_registered : channels w ⊆ dom (states w);
  ri_writing : forall sel id, writing w = Some sel -> completion_id (completion sel) = Some id ->
                 id ∈ dom (states w);
  ri_count : channel_count w <= max_channels (core_config w);
  ri_ids : forall id, id ∈ dom (states w) -> known_id w id;
  ri_incoming : forall id q, pending_incoming w !! id = Some q ->
                  known_id w id /\ owns_id (role w) id = false /\ ~ (id ∈ dom (states w))
                  /\ window_ok (byte_window q) (frame_window q) (max_frame q);
  ri_outgoing : pending_outgoing w ⊆ dom (states w);
  ri_openers : openers w ⊆ dom (states w);
  ri_next : owns_id (role w) (next_id w) = true /\ 1 <= next_id w <= u32_max
            /\ 0 <= last_peer_id w <= u32_max;
  ri_controls : len (controls w) <= control_queue_capacity (core_config w);
  ri_sendable : Forall sendable (controls w);
  ri_tombstones : tombstones w = list_to_set (tombstone_order w) /\ NoDup (tombstone_order w)
                  /\ len (tombstone_order w) <= closed_channel_capacity (core_config w);
  ri_queue : len (incoming_queue w) <= max_channels (core_config w);
  ri_failed : core_terminal w <> None ->
              channels w = ∅ /\ pending_outgoing w = ∅ /\ pending_incoming w = ∅
              /\ controls w = [] /\ incoming_tx w = false;
}.

Definition heap_inv (w : Core) : Prop :=
  forall id c, states w !! id = Some c ->
    chan_inv (core_config w) (flight_of (writing w) id) c.

Definition conn_inv (w : Core) : Prop := reg_inv w /\ heap_inv w.

(** ** Pieces *)

(** A change outside the registry's own fields. *)
Ltac reg_fields H := destruct H; constructor; cbn; try assumption.

Lemma expire_spec limit order tombs :
  0 <= limit -> NoDup order -> tombs = list_to_set order ->
  let '(order', tombs') := expire limit order tombs in
  NoDup order' /\ tombs' = list_to_set order' /\ len order' <= limit
  /\ order' `suffix_of` order.
Proof.
  intros Hl. revert tombs. induction order as [|x order IH]; intros tombs Hnd ->; cbn [expire].
  - by split_and!.
  - apply NoDup_cons in Hnd as [Hx Hnd]. destruct (len (x :: order) >? limit) eqn:G; bool_prop.
    + specialize (IH (list_to_set (x :: order) ∖ {[x]}) Hnd). cbn in IH.
      destruct (expire _ _ _) as [o t]. destruct IH as (? & ? & ? & ?).
      { cbn. apply leibniz_equiv. set_solver. }
      split_and!; try done. by apply suffix_cons_r.
    + split_and!; try done; try lia; by constructor.
Qed.

Definition tombs_ok (w : Core) : Prop :=
  tombstones w = list_to_set (tombstone_order w) /\ NoDup (tombstone_order w)
  /\ len (tombstone_order w) <= closed_channel_capacity (core_config w).

Lemma remember_closed_tombs id w :
  config_ok (core_config w) -> tombs_ok w -> tombs_ok (remember_closed id w).
Proof.
  intros C (Et & Hnd & Hl). unfold remember_closed.
  set (order := if bool_decide _ then _ else _).
  assert (Ho : NoDup order /\ {[id]} ∪ tombstones w = list_to_set order).
  { unfold order. case_bool_decide as D.
    - split; [done|]. rewrite <- Et. apply leibniz_equiv. set_solver.
    - rewrite Et in D. split.
      + apply NoDup_app. split_and!; [done| |apply NoDup_singleton]. set_solver.
      + rewrite Et, list_to_set_app_L. apply leibniz_equiv. set_solver. }
  destruct Ho as [Ho1 Ho2].
  pose proof (expire_spec (closed_channel_capacity (core_config w)) order ({[id]} ∪ tombstones w))
    as E. destruct (expire _ _ _) as [o t].
  destruct E as (? & ? & ? & _); [pose proof (co_closed _ C); lia|done|done|].
  by split_and!.
Qed.

(** Everything [remember_closed] leaves alone. *)
Lemma remember_closed_eta id w :
  exists o t, remember_closed id w = w <| tombstones := t |> <| tombstone_order := o |>.
Proof. unfold remember_closed. destruct (expire _ _ _) as [o t]. by exists o, t. Qed.

Lemma remember_closed_inv id w : conn_inv w -> conn_inv (remember_closed id w).
Proof.
  intros [R H]. pose proof (remember_closed_tombs id w (ri_config _ R) (ri_tombstones _ R)) as T.
  destruct (remember_closed_eta id w) as (o & t & E). rewrite E in *.
  split; [|exact H]. by reg_fields R.
Qed.

Lemma size_remove (id : Z) (s : gset Z) : (size (s ∖ {[id]}) <= size s)%nat.
Proof. apply subseteq_size. set_solver. Qed.
Lemma size_delete (id : Z) (m : gmap Z PendingIncoming) : (size (delete id m) <= size m)%nat.
Proof. apply map_subseteq_size, delete_subseteq. Qed.

(** Registry entries may be removed. *)
Lemma unregister_inv w s1 s2 m :
  s1 ⊆ channels w -> s2 ⊆ pending_outgoing w -> m ⊆ pending_incoming w ->
  conn_inv w ->
  conn_inv (w <| pending_outgoing := s2 |> <| pending_incoming := m |> <| channels := s1 |>).
Proof.
  intros H1 H2 H3 [R H]. split; [|exact H]. reg_fields R.
  - set_solver.
  - unfold channel_count in *; cbn. apply subseteq_size in H1. apply map_subseteq_size in H3. lia.
  - intros id q E. apply ri_incoming0. by eapply lookup_weaken.
  - set_solver.
  - intros T. destruct (ri_failed0 T) as (E1 & E2 & E3 & E4 & E5). rewrite E1, E2, E3 in *.
    split_and!; try done; [set_solver|set_solver|]. apply (anti_symm (⊆)); [done|apply map_empty_subseteq].
Qed.

(** ** Channel steps *)

Lemma put_step_reg {E A} id (s : stepped E A) w :
  id ∈ dom (states w) -> reg_inv w -> reg_inv (put_step id s w).
Proof.
  intros Hd R.
  assert (D : dom (<[id := next s]> (states w)) = dom (states w)) by (apply leibniz_equiv; set_solver).
  reg_fields R; unfold put_step in *; cbn; rewrite ?D; assumption.
Qed.

Lemma put_step_heap {E A} id (s : stepped E A) w :
  chan_inv (core_config w) (flight_of (writing w) id) (next s) -> heap_inv w ->
  heap_inv (put_step id s w).
Proof.
  intros I H j c. cbn. destruct (decide (j = id)) as [->|N].
  - rewrite lookup_insert_eq. by intros [= <-].
  - rewrite lookup_insert_ne by done. apply H.
Qed.

Lemma put_step_inv {E A} id (s : stepped E A) w :
  id ∈ dom (states w) -> chan_inv (core_config w) (flight_of (writing w) id) (next s) ->
  conn_inv w -> conn_inv (put_step id s w).
Proof. intros Hd I [R H]. split; [by apply put_step_reg|by apply put_step_heap]. Qed.

(** ** Failure *)

Lemma fail_failed error w : core_terminal w <> None -> fail error w = w.
Proof. intros T. unfold fail. rewrite bool_decide_true; [done|]. destruct (core_terminal w); [by eexists|done]. Qed.

(** The heap a failing connection leaves is sound even if the registered
    channels are only sound once they are failed. *)
Lemma fail_inv_gen error w :
  reg_inv w ->
  (forall id c, states w !! id = Some c ->
     if bool_decide (id ∈ channels w)
     then chan_inv (core_config w) (flight_of (writing w) id) (fail_channel error c).1
     else chan_inv (core_config w) (flight_of (writing w) id) c) ->
  core_terminal w = None -> conn_inv (fail error w).
Proof.
  intros R H T. unfold fail. rewrite bool_decide_false by (rewrite T; by intros [? ?]).
  set (m := map_imap _ _). assert (D : dom m = dom (states w)).
  { apply leibniz_equiv. intros id. rewrite !elem_of_dom. unfold m. rewrite map_lookup_imap.
    destruct (states w !! id); cbn; split; intros [? ?]; by eauto. }
  split.
  - pose proof (co_channels _ (ri_config _ R)). pose proof (co_control _ (ri_config _ R)).
    reg_fields R; fold m; rewrite ?D; try assumption; try (apply empty_subseteq).
    + unfold channel_count. cbn. rewrite size_empty, map_size_empty. lia.
    + intros id q. by rewrite lookup_empty.
    + autorewrite with tsc_len. lia.
    + constructor.
    + intros _. by split_and!.
  - intros id c. cbn. fold m. unfold m. rewrite map_lookup_imap.
    destruct (states w !! id) as [c0|] eqn:E; cbn; [|done]. intros [= <-].
    specialize (H id c0 E). by case_bool_decide.
Qed.

Lemma fail_inv error w : conn_inv w -> conn_inv (fail error w).
Proof.
  intros [R H]. destruct (core_terminal w) eqn:T.
  - rewrite fail_failed by congruence. done.
  - apply fail_inv_gen; [done| |done]. intros id c E. case_bool_decide; [|by apply H].
    apply fail_channel_inv. by apply H.
Qed.

(** ** What a handler must establish: the invariant, at the latest once the
    driver has failed the connection with its error. *)
Definition handled {A} (x : outcome Error.t A * Core) : Prop :=
  match x.1 with
  | Ok _ => conn_inv x.2
  | Err e => conn_inv (fail e x.2)
  | Panic _ => False
  end.
Lemma handled_err {A} e w : conn_inv w -> handled (A := A) (Err e, w).
Proof. apply fail_inv. Qed.
Lemma handled_ok {A} (a : A) w : conn_inv w -> handled (Ok a, w).
Proof. done. Qed.
Lemma handled_bind {A B} (m : op A) (k : A -> op B) w :
  handled (m w) -> (forall a w', m w = (Ok a, w') -> conn_inv w' -> handled (k a w')) ->
  handled (bind m k w).
Proof.
  unfold bind, handled at 1. destruct (m w) as [[a|e|s] w'] eqn:E; cbn; intros H K; [|done..].
  by apply K.
Qed.
#[export] Hint Resolve handled_ok handled_err : tsc.

Lemma on_channel_handled {A} id (body : ChannelInner -> stepped Error.t A) w :
  conn_inv w -> id ∈ channels w ->
  (forall c, states w !! id = Some c ->
     chan_inv (core_config w) (flight_of (writing w) id) c ->
     recv_ok (core_config w) (flight_of (writing w) id) (body c)) ->
  handled (on_channel id body w).
Proof.
  intros [R H] Hid K. assert (Hd : id ∈ dom (states w)) by by apply (ri_registered _ R).
  pose proof Hd as Hd'. apply elem_of_dom in Hd' as [c E]. unfold on_channel. rewrite E.
  destruct (K c E (H id c E)) as [NP I]. unfold handled; cbn.
  destruct (result (body c)) as [a|e|s]; [by apply put_step_inv| |done].
  destruct (core_terminal w) eqn:T.
  { destruct (ri_failed _ R) as [Ec _]; [congruence|]. rewrite Ec in Hid. set_solver. }
  apply fail_inv_gen; [by apply put_step_reg| |done].
  intros j cj. cbn. destruct (decide (j = id)) as [->|N].
  - rewrite lookup_insert_eq. intros [= <-]. rewrite bool_decide_true by done. apply I.
  - rewrite lookup_insert_ne by done. intros Ej. case_bool_decide; [|by apply H].
    apply fail_channel_inv. by apply H.
Qed.

Lemma enqueue_inv f w :
  sendable f -> core_terminal w = None -> conn_inv w ->
  (enqueue_control f w).1 = Err Error.ResourceExhausted /\ (enqueue_control f w).2 = w
  \/ (enqueue_control f w).1 = Ok tt
     /\ (enqueue_control f w).2 = w <| controls := controls w ++ [f] |>
     /\ conn_inv (w <| controls := controls w ++ [f] |>).
Proof.
  intros Hf T [R H]. unfold enqueue_control. case_match eqn:G; bool_prop; [by left|right].
  split_and!; [done..|]. split; [|exact H]. reg_fields R.
  - autorewrite with tsc_len. lia.
  - apply Forall_app. by split; [|constructor].
  - intros N. congruence.
Qed.
Lemma enqueue_handled f w :
  sendable f -> core_terminal w = None -> conn_inv w -> handled (enqueue_control f w).
Proof.
  intros Hf T I. pose proof (enqueue_inv f w Hf T I) as H.
  destruct (enqueue_control f w) as [r w']. cbn in H.
  destruct H as [[-> ->]|(-> & -> & H)]; [by apply handled_err|done].
Qed.

Lemma signal_inv w b : conn_inv w -> conn_inv (w <| signalled := b |>).
Proof. intros [R H]. split; [|exact H]. by reg_fields R. Qed.
Lemma notify_handled w : conn_inv w -> handled (notify_one w).
Proof. apply signal_inv. Qed.
Lemma responses_inv w m : conn_inv w -> conn_inv (w <| responses := m |>).
Proof. intros [R H]. split; [|exact H]. by reg_fields R. Qed.
Lemma send_response_inv id r w : conn_inv w -> conn_inv (send_response id r w).2.
Proof. unfold send_response. case_match; [apply responses_inv|done]. Qed.
Lemma modify_handled f w : conn_inv (f w) -> handled (modify f w).
Proof. done. Qed.
Lemma pure_handled {A} (a : A) w : conn_inv w -> handled (pure a w).
Proof. done. Qed.
Lemma when_handled b m w : conn_inv w -> (b = true -> handled (m w)) -> handled (when b m w).
Proof. destruct b; cbn; auto. Qed.
#[export] Hint Resolve signal_inv notify_handled responses_inv send_response_inv modify_handled
  pure_handled remember_closed_inv : tsc.

Lemma sendable_reject id reason :
  1 <= id <= u32_max -> len reason <= u32_max -> sendable (Frame.Reject id reason).
Proof. done. Qed.

(** Queue a refusal and remember the identifier. *)
Lemma refuse_handled id reason w :
  1 <= id <= u32_max -> len reason <= u32_max -> core_terminal w = None -> conn_inv w ->
  handled ((let! _ := enqueue_control (Frame.Reject id reason) in
            let! _ := modify (remember_closed id) in
            notify_one) w).
Proof.
  intros Hid Hr T I. apply handled_bind; [by apply enqueue_handled|]. intros [] w1 _ I1.
  apply handled_bind; [auto with tsc|]. intros [] w2 _ I2. auto with tsc.
Qed.

(** Announcing a new, larger peer identifier. *)
Lemma last_peer_inv id w :
  last_peer_id w <= id <= u32_max -> conn_inv w -> conn_inv (w <| last_peer_id := id |>).
Proof.
  intros Hid [R H]. split; [|exact H]. reg_fields R.
  - intros j Hj. destruct (ri_ids0 j Hj) as [? K]. unfold known_id in *. cbn. split; [done|]. case_match; lia.
  - intros j q E. destruct (ri_incoming0 j q E) as ((? & K) & O & ? & ?). rewrite O in K.
    split_and!; try done. unfold known_id. cbn. rewrite O. lia.
  - destr_and. split_and!; try done; lia.
Qed.

Lemma receive_open_handled id b n m endpoint w :
  1 <= id <= u32_max -> window_ok b n m -> conn_inv w ->
  handled (receive_open id b n m endpoint w).
Proof.
  intros Hid Hw I. unfold receive_open. case_match eqn:G; [by apply handled_err|].
  apply orb_false_iff in G as [Own Old%Z.leb_gt].
  pose proof (last_peer_inv id w ltac:(lia) I) as I1.
  set (w1 := w <| last_peer_id := id |>) in *. case_match; [by apply handled_err|].
  assert (T : core_terminal w <> None -> incoming_tx w = false /\ channel_count w = 0).
  { intros T. destruct (ri_failed _ (proj1 I) T) as (E1 & _ & E3 & _ & E5). unfold channel_count.
    by rewrite E1, E3. }
  pose proof (co_channels _ (ri_config _ (proj1 I))).
  case_match eqn:C; bool_prop.
  { apply refuse_handled; [done|vm_compute; done| |done]. cbn in C.
    destruct (core_terminal w) eqn:?; [|done]. destruct T as [_ T]; [congruence|].
    change (channel_count w1) with (channel_count w) in *. cbn in *. lia. }
  case_match eqn:X; bool_prop; [by apply handled_err|]. change (incoming_tx w1) with (incoming_tx w) in X.
  assert (TN : core_terminal w = None).
  { destruct (core_terminal w); [|done]. destruct T as [T _]; congruence. }
  change (channel_count w1) with (channel_count w) in *. cbn [core_config set setter] in *.
  assert (Fresh : forall j, known_id w j -> owns_id (role w) j = false -> j <> id).
  { intros j [? K] O ->. rewrite O in K. lia. }
  case_match eqn:Q; bool_prop.
  - apply handled_ok. destruct I1 as [R1 HH]. split; [|exact HH].
    assert (NP : pending_incoming w !! id = None).
    { destruct (pending_incoming w !! id) eqn:E; [|done].
      destruct (ri_incoming _ (proj1 I) id _ E) as (K & O & _). by destruct (Fresh id K O). }
    reg_fields R1; try done.
    + unfold channel_count in *. cbn in *. rewrite map_size_insert_None by done. lia.
    + intros j q. destruct (decide (j = id)) as [->|N].
      * rewrite lookup_insert_eq. intros [= <-]. cbn. split_and!; try done.
        -- unfold known_id. cbn. rewrite Own. lia.
        -- intros Hd. destruct (ri_ids _ (proj1 I) id Hd) as [? K]. rewrite Own in K. lia.
      * rewrite lookup_insert_ne by done. apply ri_incoming0.
    + autorewrite with tsc_len. cbn in *. lia.
  - apply handled_bind; [|intros [] w2 E I2; apply refuse_handled; try done; cbn in E; by injection E as <-].
    apply modify_handled.
    apply (unregister_inv w1 (channels w) (pending_outgoing w)
             (delete id (<[id := {| byte_window := b; frame_window := n; max_frame := m |}]>
                           (pending_incoming w)))); [done..| |done].
    rewrite delete_insert_eq. apply delete_subseteq.
Qed.

(** A body that cannot fail keeps the invariant. *)
Lemma update_channel_handled id body w :
  conn_inv w -> id ∈ dom (states w) ->
  (forall c, chan_inv (core_config w) (flight_of (writing w) id) c ->
     chan_inv (core_config w) (flight_of (writing w) id) (body c).1) ->
  handled (update_channel id body w).
Proof.
  intros I Hd K. pose proof Hd as [c E]%elem_of_dom. unfold update_channel, on_channel. rewrite E.
  apply handled_ok, put_step_inv; [done| |done]. apply K. by apply I.
Qed.

Lemma call_channel_inv {E A} id (body : ChannelInner -> stepped E A) w :
  conn_inv w ->
  (forall c, chan_inv (core_config w) (flight_of (writing w) id) c ->
     chan_inv (core_config w) (flight_of (writing w) id) (next (body c))) ->
  conn_inv (call_channel id body w).2.
Proof.
  intros I K. unfold call_channel. destruct (states w !! id) as [c|] eqn:Ec; [|done].
  apply put_step_inv; [apply elem_of_dom; by eexists| |done]. apply K. by apply I.
Qed.

(** The domain of the heap and the writer's frame survive these operations. *)
Lemma update_channel_dom id body w a w' :
  update_channel id body w = (Ok a, w') ->
  dom (states w) ⊆ dom (states w') /\ core_config w' = core_config w /\ channels w' = channels w.
Proof.
  unfold update_channel, on_channel. destruct (states w !! id) as [c|] eqn:E; [|done].
  intros [= _ <-]. cbn. split_and!; [|done..]. set_solver.
Qed.
Lemma send_response_dom id r w :
  dom (states (send_response id r w).2) = dom (states w)
  /\ core_config (send_response id r w).2 = core_config w.
Proof. unfold send_response. by case_match. Qed.
Lemma call_channel_dom {E A} id (body : ChannelInner -> stepped E A) w :
  dom (states w) ⊆ dom (states (call_channel id body w).2).
Proof. unfold call_channel. case_match; cbn; set_solver. Qed.

Lemma forget_states id w : states (forget_channel id w) = states w.
Proof.
  unfold forget_channel. by destruct (remember_closed_eta id (w <| channels := channels w ∖ {[id]} |>))
    as (o & t & ->).
Qed.
Lemma forget_inv id w : conn_inv w -> conn_inv (forget_channel id w).
Proof.
  intros I. unfold forget_channel. apply remember_closed_inv.
  apply (unregister_inv w (channels w ∖ {[id]}) (pending_outgoing w) (pending_incoming w));
    [set_solver|done..].
Qed.

Lemma cancelled_inv config fl c :
  chan_inv config fl c -> chan_inv config fl (c <| reset_pending := Some (str "open cancelled") |>).
Proof. intros I. chan_fields I. Qed.

Lemma receive_accept_handled id b n m w :
  window_ok b n m -> conn_inv w -> handled (receive_accept id b n m w).
Proof.
  intros Hw I. unfold receive_accept. case_match; [by apply handled_err|].
  case_match; [by case_match; auto with tsc|].
  set (w1 := w <| pending_outgoing := _ |>).
  assert (I1 : conn_inv w1).
  { apply (unregister_inv w (channels w) (pending_outgoing w ∖ {[id]}) (pending_incoming w)); [done|set_solver|done..]. }
  case_match eqn:G; [by apply handled_err|]. apply negb_false_iff, bool_decide_eq_true in G.
  assert (Hd : id ∈ dom (states w1)) by by apply (ri_registered _ (proj1 I1)).
  apply handled_bind.
  { apply update_channel_handled; [done..|]. intros c. by apply set_send_windows_inv. }
  intros a w2 E2 I2. destruct (update_channel_dom _ _ _ _ _ E2) as (D2 & _).
  apply handled_bind.
  { destruct (send_response id (Ok tt) w2) as [s w3] eqn:E3. apply handled_ok.
    replace w3 with (send_response id (Ok tt) w2).2 by by rewrite E3. auto with tsc. }
  intros sent w3 E3 I3. assert (D3 : id ∈ dom (states w3)).
  { pose proof (send_response_dom id (Ok tt) w2) as [D _].
    destruct (send_response id (Ok tt) w2) as [s w4]. injection E3 as _ <-. cbn in D. set_solver. }
  destruct sent; [by apply pure_handled|].
  apply handled_bind.
  { apply handled_ok, call_channel_inv; [done|]. intros c Hc. by apply drop_channel_ok; [apply I3|]. }
  intros [] w4 E4 I4. injection E4 as <-. apply handled_bind.
  - apply update_channel_handled; [done| |].
    + pose proof (call_channel_dom id drop_channel w3). set_solver.
    + intros c. apply cancelled_inv.
  - intros [] w5 _ I5. auto with tsc.
Qed.

Lemma receive_reject_handled id reason w : conn_inv w -> handled (receive_reject id reason w).
Proof.
  intros I. unfold receive_reject. case_match; [by apply handled_err|].
  case_match; [by case_match; auto with tsc|].
  apply handled_bind.
  { apply modify_handled, forget_inv.
    apply (unregister_inv w (channels w) (pending_outgoing w ∖ {[id]}) (pending_incoming w)); [done|set_solver|done..]. }
  intros [] w1 E1 I1. injection E1 as <-. apply handled_bind; [|auto with tsc].
  apply when_handled; [done|]. intros Hid%bool_decide_eq_true.
  apply update_channel_handled; [done| |intros c; apply channel_reject_inv].
  rewrite forget_states. by apply (ri_registered _ (proj1 I)).
Qed.

Lemma find_channel_handled kind id k w :
  conn_inv w -> (id ∈ channels w -> handled (k (Some id) w)) -> handled (k None w) ->
  handled (bind (B := unit) (find_channel kind id) k w).
Proof.
  intros I H1 H2. unfold bind, find_channel. case_bool_decide; [by apply H1|].
  case_bool_decide; [done|by apply handled_err].
Qed.

Lemma receive_data_handled id data w :
  1 <= len data <= u32_max -> conn_inv w -> handled (receive_data id data w).
Proof.
  intros HL I. unfold receive_data. case_match; [by apply handled_err|].
  apply find_channel_handled; [done| |auto with tsc]. intros Hid.
  apply on_channel_handled; [done..|]. intros c _ Hc. apply channel_data_ok; [apply I|done..].
Qed.
Lemma receive_window_handled id b n w :
  0 <= b -> 0 <= n -> conn_inv w -> handled (receive_window id b n w).
Proof.
  intros Hb Hn I. apply find_channel_handled; [done| |auto with tsc]. intros Hid.
  apply on_channel_handled; [done..|]. intros c _ Hc. by apply channel_window_ok.
Qed.
Lemma receive_fin_handled id w : conn_inv w -> handled (receive_fin id w).
Proof.
  intros I. apply find_channel_handled; [done| |auto with tsc]. intros Hid.
  apply on_channel_handled; [done..|]. intros c _ Hc. by apply channel_fin_ok.
Qed.
Lemma receive_closed_handled id w : conn_inv w -> handled (receive_closed id w).
Proof.
  intros I. apply find_channel_handled; [done| |auto with tsc]. intros Hid.
  apply handled_bind.
  - apply on_channel_handled; [done..|]. intros c _ Hc. by apply channel_closed_ok.
  - intros remove w1 _ I1. apply when_handled; [done|]. intros _. by apply modify_handled, forget_inv.
Qed.

Lemma receive_reset_handled id reason w : conn_inv w -> handled (receive_reset id reason w).
Proof.
  intros I. unfold receive_reset. set (w1 := ((w <| pending_outgoing := _ |>) <| _ := _ |>) <| _ := _ |>).
  assert (I1 : conn_inv w1).
  { apply (unregister_inv w (channels w ∖ {[id]}) (pending_outgoing w ∖ {[id]}) (delete id (pending_incoming w)));
      [set_solver..|apply delete_subseteq|done]. }
  case_match; [by apply handled_err|].
  apply handled_bind; [auto with tsc|]. intros [] w2 E2 I2. injection E2 as <-.
  apply handled_bind.
  - apply when_handled; [done|]. intros Hid%bool_decide_eq_true.
    apply update_channel_handled; [done| |intros c; apply channel_reset_inv].
    apply (ri_registered _ (proj1 I)) in Hid.
    by destruct (remember_closed_eta id w1) as (o & t & ->).
  - intros [] w3 _ I3. apply when_handled; [done|]. intros _. auto with tsc.
Qed.

(** Every frame that decodes is handled. *)
Lemma process_frame_handled f w :
  frame_ok (core_config w) f -> conn_inv w -> handled (process_frame f w).
Proof.
  intros [Hid Hf] I. pose proof (ri_config _ (proj1 I)) as C.
  pose proof (co_frame_size _ C). pose proof (co_byte_window _ C).
  destruct f; cbn in *; unfold in_range in *; destr_and.
  - by apply receive_open_handled.
  - by apply receive_accept_handled.
  - by apply receive_reject_handled.
  - apply receive_data_handled; [lia|done].
  - apply receive_window_handled; [lia..|done].
  - by apply receive_fin_handled.
  - by apply receive_reset_handled.
  - by apply receive_closed_handled.
Qed.

(** ** The application's operations *)

(** An operation of the application keeps the invariant whatever it returns. *)
Definition kept {A} (x : outcome Error.t A * Core) : Prop := no_panic x.1 /\ conn_inv x.2.
Lemma kept_err {A} e w : conn_inv w -> kept (A := A) (Err e, w).
Proof. done. Qed.
#[export] Hint Resolve kept_err : tsc.

Lemma enqueue_kept {A} f (k : unit -> op A) w :
  sendable f -> core_terminal w = None -> conn_inv w ->
  (conn_inv (w <| controls := controls w ++ [f] |>) ->
   kept (k tt (w <| controls := controls w ++ [f] |>))) ->
  kept (bind (enqueue_control f) k w).
Proof.
  intros Hf T I K. unfold bind. pose proof (enqueue_inv f w Hf T I) as H.
  destruct (enqueue_control f w) as [r w']. cbn in H.
  destruct H as [[-> ->]|(-> & -> & H)]; [done|by apply K].
Qed.

(** A new channel state under an identifier that was never used. *)
Lemma register_inv id c w :
  ~ (id ∈ dom (states w)) -> known_id w id -> core_terminal w = None ->
  pending_incoming w !! id = None -> channel_count w < max_channels (core_config w) ->
  chan_inv (core_config w) Completion.None c -> conn_inv w ->
  conn_inv (w <| states := <[id := c]> (states w) |> <| channels := {[id]} ∪ channels w |>).
Proof.
  intros Hd Hk T Hp Hc Ic [R H].
  assert (Nw : forall sel, writing w = Some sel -> completion_id (completion sel) <> Some id).
  { intros sel E1 E2. by apply Hd, (ri_writing _ R sel). }
  assert (Hf : flight_of (writing w) id = Completion.None).
  { unfold flight_of. destruct (writing w) as [sel|]; [|done]. rewrite bool_decide_false; [done|by apply Nw]. }
  split.
  - assert (NI : ~ (id ∈ channels w)) by (intros ?; by apply Hd, (ri_registered _ R)).
    reg_fields R; rewrite ?dom_insert_L.
    + set_solver.
    + set_solver.
    + unfold channel_count in *. cbn. rewrite size_union by set_solver. rewrite size_singleton. lia.
    + intros j Hj. destruct (decide (j = id)) as [->|N]; [exact Hk|]. apply ri_ids0. set_solver.
    + intros j q E. destruct (ri_incoming0 j q E) as (? & ? & ? & ?). split_and!; try done.
      intros Hj. destruct (decide (j = id)) as [->|N]; [congruence|]. set_solver.
    + set_solver.
    + set_solver.
    + intros N. congruence.
  - intros j cj. cbn. destruct (decide (j = id)) as [->|N].
    + rewrite lookup_insert_eq, Hf. by intros [= <-].
    + rewrite lookup_insert_ne by done. apply H.
Qed.

Lemma advance_next_inv w :
  next_id w + 2 <= u32_max -> conn_inv w -> conn_inv (w <| next_id := next_id w + 2 |>).
Proof.
  intros Hn [R H]. split; [|exact H]. reg_fields R.
  - intros j Hj. destruct (ri_ids0 j Hj) as [? K]. unfold known_id. cbn. split; [done|]. case_match; lia.
  - intros j q E. destruct (ri_incoming0 j q E) as ((? & K) & O & ? & ?). rewrite O in K.
    split_and!; try done. unfold known_id. cbn. by rewrite O.
  - destruct ri_next0 as (O & ? & ?). split_and!; try lia. by apply owns_id_step; [lia|].
Qed.

Lemma pending_openers_inv id w :
  id ∈ dom (states w) -> core_terminal w = None -> conn_inv w ->
  conn_inv (w <| pending_outgoing := {[id]} ∪ pending_outgoing w |> <| openers := {[id]} ∪ openers w |>).
Proof.
  intros Hd T [R H]. split; [|exact H]. reg_fields R; [set_solver|set_solver|congruence].
Qed.

Lemma open_kept endpoint w : conn_inv w -> kept (open endpoint w).
Proof.
  intros I. pose proof (ri_config _ (proj1 I)) as C. unfold open.
  destruct (core_terminal w) eqn:T; [by apply kept_err|].
  case_match eqn:G1; [by apply kept_err|]. case_match eqn:G2; [by apply kept_err|].
  destruct (checked_add _ _ _) as [n|] eqn:N; [|by apply kept_err].
  apply checked_add_Some in N as [-> Hn]. bool_prop.
  destruct (ri_next _ (proj1 I)) as (Own & Hid & Hlast).
  set (w1 := w <| next_id := next_id w + 2 |>).
  assert (I1 : conn_inv w1) by by apply advance_next_inv.
  unfold bind at 1. cbn [modify]. fold w1.
  apply enqueue_kept; [|done|done|].
  { split; [done|]. cbn. autorewrite with tsc_len. pose proof (co_endpoint _ C). cbn. lia. }
  intros I2. set (w2 := w1 <| controls := _ |>) in *.
  assert (Fresh : ~ (next_id w ∈ dom (states w2))).
  { intros Hd. destruct (ri_ids _ (proj1 I) (next_id w) Hd) as [_ K]. rewrite Own in K. lia. }
  assert (I3 : conn_inv (w2 <| states := <[next_id w := ChannelInner_new (core_config w)]> (states w2) |>
                            <| channels := {[next_id w]} ∪ channels w2 |>)).
  { apply register_inv; try done.
    - unfold known_id. cbn. rewrite Own. lia.
    - change (pending_incoming w2) with (pending_incoming w).
      destruct (pending_incoming w !! next_id w) eqn:E; [|done].
      destruct (ri_incoming _ (proj1 I) _ _ E) as (_ & O & _). congruence.
    - by apply new_inv. }
  split; [done|]. cbn. apply signal_inv.
  apply (pending_openers_inv (next_id w)) in I3; [exact I3| |done]. cbn. set_solver.
Qed.

Lemma openers_inv w s : s ⊆ openers w -> conn_inv w -> conn_inv (w <| openers := s |>).
Proof. intros Hs [R H]. split; [|exact H]. reg_fields R. set_solver. Qed.

Lemma poll_open_inv id w : conn_inv w -> conn_inv (poll_open id w).2.
Proof.
  intros I. unfold poll_open. destruct (responses w !! id).
  - apply (openers_inv (w <| responses := _ |>)); [set_solver|]. by apply responses_inv.
  - case_match; [done|]. apply openers_inv; [set_solver|done].
Qed.

Lemma cancel_open_inv id w : conn_inv w -> conn_inv (cancel_open id w).
Proof.
  intros I. unfold cancel_open. set (w1 := match _ with Some _ => _ | None => _ end).
  assert (I1 : conn_inv w1).
  { unfold w1. repeat case_match; try done. apply call_channel_inv; [done|]. intros c Hc.
    apply drop_channel_ok; [apply I|done]. }
  apply call_channel_inv.
  - apply (openers_inv (w1 <| responses := _ |>)); [set_solver|]. by apply responses_inv.
  - intros c Hc. by apply drop_open_cancellation_ok.
Qed.

Lemma next_request_len pending queue : len (next_request pending queue).2 <= len queue.
Proof.
  induction queue as [|x queue IH]; cbn [next_request]; [done|]. autorewrite with tsc_len.
  case_match; cbn; lia.
Qed.
Lemma recv_inv w : conn_inv w -> conn_inv (recv w).2.
Proof.
  intros [R H]. unfold recv. pose proof (next_request_len (pending_incoming w) (incoming_queue w)) as L.
  destruct (next_request _ _) as [found rest]. cbn in L.
  assert (conn_inv (w <| incoming_queue := rest |>)).
  { split; [|exact H]. reg_fields R. lia. }
  by destruct found.
Qed.

Lemma reject_request_kept id reason w : conn_inv w -> kept (reject_request id reason w).
Proof.
  intros I. unfold reject_request. destruct (core_terminal w) eqn:T; [by apply kept_err|].
  case_match eqn:L; [by apply kept_err|]. case_match eqn:G; [by apply kept_err|].
  apply negb_false_iff, bool_decide_eq_true in G as [q E]. bool_prop.
  destruct (ri_incoming _ (proj1 I) id q E) as ((Hid & _) & _).
  pose proof (co_reason _ (ri_config _ (proj1 I))).
  apply enqueue_kept; [apply sendable_reject; lia|done..|]. intros I1. split; [done|]. cbn.
  apply signal_inv, remember_closed_inv.
  apply (unregister_inv (w <| controls := controls w ++ [Frame.Reject id reason] |>)
           (channels w) (pending_outgoing w) (delete id (pending_incoming w)));
    [done..|apply delete_subseteq|done].
Qed.

Lemma drop_request_inv id w : conn_inv w -> conn_inv (drop_request id w).
Proof.
  intros I. unfold drop_request. destruct (reject_request_kept id (str "request dropped") w I) as [_ I'].
  destruct (reject_request _ _ w) as [[a|[]|s] w']; cbn in I'; try done. by apply fail_inv.
Qed.

Lemma accept_request_kept id w : conn_inv w -> kept (accept_request id w).
Proof.
  intros I. unfold accept_request. destruct (core_terminal w) eqn:T; [by apply kept_err|].
  destruct (pending_incoming w !! id) as [q|] eqn:E; [|by apply kept_err].
  destruct (ri_incoming _ (proj1 I) id q E) as (K & Own & Hd & Hw).
  set (w1 := w <| pending_incoming := _ |>).
  assert (I1 : conn_inv w1).
  { apply (unregister_inv w (channels w) (pending_outgoing w) (delete id (pending_incoming w)));
      [done..|apply delete_subseteq|done]. }
  match goal with |- context [enqueue_control ?f w1] => set (ack := f) end.
  assert (Sa : sendable ack) by (split; [apply K|]; vm_compute; done).
  pose proof (enqueue_inv ack w1 Sa T I1) as HE. destruct (enqueue_control ack w1) as [r w2].
  cbn in HE. destruct HE as [[-> ->]|(-> & -> & I2)].
  - split; [done|]. replace (_ <| pending_incoming := _ |>) with w; [done|].
    unfold w1. cbn. rewrite insert_delete_id by done. by destruct w.
  - split; [done|]. apply (register_inv id _ (w1 <| controls := controls w ++ [ack] |>)); try done.
    + cbn. apply lookup_delete_eq.
    + pose proof (ri_count _ (proj1 I)) as N. unfold channel_count in *. cbn.
      rewrite map_size_delete, E.
      assert (size (pending_incoming w) <> 0%nat) by (rewrite map_size_empty_iff; intros X; by rewrite X in E).
      lia.
    + apply set_send_windows_inv; [done|]. apply new_inv, I.
Qed.

Lemma accept_kept id w : conn_inv w -> kept (accept id w).
Proof.
  intros I. unfold accept. destruct (accept_request_kept id w I) as [NP I'].
  destruct (accept_request id w) as [[a|e|s] w']; cbn in *; [|split; [done|by apply drop_request_inv]|done].
  split; [done|]. by apply signal_inv.
Qed.
Lemma reject_kept id reason w : conn_inv w -> kept (reject id reason w).
Proof.
  intros I. unfold reject. destruct (reject_request_kept id reason w I) as [NP I'].
  destruct (reject_request id reason w) as [[a|e|s] w']; cbn in *; [done|split; [done|by apply drop_request_inv]|done].
Qed.

Lemma drop_incoming_inv w : conn_inv w -> conn_inv (drop_incoming w).
Proof.
  intros I. unfold drop_incoming.
  assert (I0 : conn_inv (w <| receiving := false |> <| incoming_queue := [] |>)).
  { destruct I as [R H]. split; [|exact H]. pose proof (co_channels _ (ri_config _ R)).
    reg_fields R. autorewrite with tsc_len. lia. }
  revert I0. generalize ((w <| receiving := false |>) <| incoming_queue := [] |>).
  induction (incoming_queue w) as [|[id e] q IH]; intros w0 I0; cbn; [done|].
  apply IH. by apply drop_request_inv.
Qed.

(** ** The writer *)

(** A selection hands the writer a frame for one registered channel. *)
Definition picked (w : Core) (id : Z) (c' : ChannelInner) (sel : Selected) : Prop :=
  id ∈ dom (states w) /\ chan_inv (core_config w) (completion sel) c'
  /\ Frame.id (frame sel) = id /\ completion_id (completion sel) = Some id
  /\ len (frame_parts (frame sel)).2 <= u32_max.

Lemma control_picked w id c c' sel :
  conn_inv w -> writing w = None -> states w !! id = Some c ->
  control_of_channel id c = Some (c', sel) -> picked w id c' sel.
Proof.
  intros [R H] Hw E S. pose proof (H id c E) as I. rewrite Hw in I.
  destruct (control_of_channel_ok _ id c c' sel I S) as [I' Hf].
  unfold picked. split_and!; [apply elem_of_dom; by eexists|done|done|..];
    unfold control_of_channel in S; destruct (reset_pending c) as [r|] eqn:Er.
  - by injection S as <- <-.
  - repeat (case_match; try done); by injection S as <- <-.
  - injection S as <- <-. destruct (ci_reset _ _ _ I) as [X|X]; [congruence|].
    rewrite X in Er. injection Er as <-. vm_compute. done.
  - repeat (case_match; try done); injection S as <- <-; vm_compute; done.
Qed.

Lemma data_picked w id c c' sel :
  conn_inv w -> writing w = None -> states w !! id = Some c ->
  data_of_channel id c = Ok (Some (c', sel)) -> picked w id c' sel.
Proof.
  intros [R H] Hw E S. pose proof (H id c E) as I. rewrite Hw in I.
  pose proof (ci_send _ _ _ I) as Hs. pose proof (ci_outbound_len _ _ _ I) as OL.
  pose proof (unread_nonneg _ (ci_outbound _ _ _ I)) as Hu.
  destruct (decide (reset_pending c <> None \/ send_bytes c = 0
    \/ send_frames c = 0 \/ outbound_len c = 0)) as [D|D].
  { rewrite (data_of_channel_none (core_config w)) in S; done. }
  destruct (data_of_channel_some (core_config w) id c) as
    (c1 & data & E1 & Hl & Hsz & Hc & Hb & Hfr & I'); try done; try lia.
  { destruct (reset_pending c) eqn:?; [exfalso; apply D; by left|done]. }
  rewrite E1 in S. injection S as <- <-. unfold picked.
  split_and!; try done; [apply elem_of_dom; by eexists|]. cbn. lia.
Qed.

Lemma select_control_from_spec w ids :
  conn_inv w -> writing w = None ->
  match select_control_from (states w) ids with
  | Some (id, c', sel) => picked w id c' sel
  | None => True
  end.
Proof.
  intros I Hw. induction ids as [|id ids IH]; cbn; [done|].
  destruct (states w !! id) as [c|] eqn:E; [|done].
  destruct (control_of_channel id c) as [[c' sel]|] eqn:S; [|done]. by eapply control_picked.
Qed.
Lemma select_data_from_spec w ids :
  conn_inv w -> writing w = None ->
  match select_data_from (states w) ids with
  | Ok (Some (id, c', sel)) => picked w id c' sel
  | Ok None => True
  | _ => False
  end.
Proof.
  intros I Hw. induction ids as [|id ids IH]; cbn [select_data_from]; [done|].
  destruct (states w !! id) as [c|] eqn:E; [|done].
  pose proof (proj2 I id c E) as Ic. rewrite Hw in Ic. pose proof (data_of_channel_ok _ id c Ic) as Hd.
  destruct (data_of_channel id c) as [[[c' sel]|]| |] eqn:S; cbn [obind]; try done.
  by eapply data_picked.
Qed.

Lemma picked_inv w id c' sel :
  picked w id c' sel -> writing w = None -> conn_inv w ->
  conn_inv (w <| states := <[id := c']> (states w) |> <| writing := Some sel |>)
  /\ sendable (frame sel).
Proof.
  intros (Hd & I' & Hf & Hc & HL) Hw [R H]. split.
  - split.
    + assert (D : dom (<[id := c']> (states w)) = dom (states w)) by (apply leibniz_equiv; set_solver).
      reg_fields R; rewrite ?D; try assumption. intros s j [= <-] Ej. congruence.
    + intros j c. cbn. destruct (decide (j = id)) as [->|N].
      * rewrite lookup_insert_eq, bool_decide_true by done. by intros [= <-].
      * rewrite lookup_insert_ne, bool_decide_false by congruence. intros E.
        specialize (H j c E). by rewrite Hw in H.
  - split; [|done]. rewrite Hf. by apply (ri_ids _ R).
Qed.

(** What a selection leaves for the writer. *)
Definition selected_ok (x : outcome Error.t (option Selected) * Core) : Prop :=
  match x with
  | (Ok (Some sel), w') => conn_inv (w' <| writing := Some sel |>) /\ sendable (frame sel)
  | (Ok None, w') => conn_inv w' /\ writing w' = None
  | _ => False
  end.

Lemma cursors_inv w d k n : conn_inv w ->
  conn_inv (w <| data_cursor := d |> <| control_cursor := k |> <| control_count := n |>).
Proof. intros [R H]. split; [|exact H]. by reg_fields R. Qed.

Lemma select_channel_control_ok w :
  conn_inv w -> writing w = None -> selected_ok (select_channel_control w).
Proof.
  intros I Hw. unfold select_channel_control.
  pose proof (select_control_from_spec w (ordered_states w (control_cursor w)) I Hw) as P.
  destruct (select_control_from _ _) as [[[id c'] sel]|]; [|done].
  destruct (picked_inv w id c' sel P Hw I) as [I' S]. split; [|done].
  exact (cursors_inv _ (data_cursor w) id (control_count w) I').
Qed.
Lemma select_channel_data_ok w :
  conn_inv w -> writing w = None -> selected_ok (select_channel_data w).
Proof.
  intros I Hw. unfold select_channel_data.
  pose proof (select_data_from_spec w (ordered_states w (data_cursor w)) I Hw) as P.
  destruct (select_data_from _ _) as [[[[id c'] sel]|]|e|s]; [|done..].
  destruct (picked_inv w id c' sel P Hw I) as [I' S]. split; [|done].
  exact (cursors_inv _ id (control_cursor w) (control_count w) I').
Qed.
Lemma pop_control_ok w : conn_inv w -> writing w = None -> selected_ok (pop_control w).
Proof.
  intros [R H] Hw. unfold pop_control. pose proof (ri_sendable _ R) as S.
  pose proof (ri_controls _ R) as L. destruct (controls w) as [|f rest] eqn:E; [done|].
  inversion S as [|? ? Sf Sr]; subst. autorewrite with tsc_len in L. split; [|done]. split.
  - reg_fields R; [intros s j [= <-]; done|lia|].
    intros T. destruct (ri_failed0 T) as (? & ? & ? & N & ?). congruence.
  - intros j c Ej. specialize (H j c Ej). by rewrite Hw in H.
Qed.
Lemma or_else_ok m k w :
  selected_ok (m w) -> (forall w', conn_inv w' -> writing w' = None -> selected_ok (k w')) ->
  selected_ok (or_else m k w).
Proof.
  unfold or_else, bind. destruct (m w) as [[[sel|]|e|s] w']; cbn; try done. intros [I W] K. by apply K.
Qed.

Lemma select_frame_ok w :
  conn_inv w -> writing w = None -> core_terminal w = None -> selected_ok (select_frame w).
Proof.
  intros I Hw T. unfold select_frame. rewrite T.
  case_match; repeat first [apply or_else_ok; intros | apply select_channel_data_ok
    | apply select_channel_control_ok | apply pop_control_ok | assumption].
Qed.

Lemma writer_select_inv w : conn_inv w -> conn_inv (writer_select w).2.
Proof.
  intros I. unfold writer_select. destruct (writing w) eqn:Hw; [done|].
  pose proof (signal_inv w false I) as I0. set (w0 := w <| signalled := false |>) in *.
  destruct (core_terminal w0) eqn:T.
  - unfold select_frame. rewrite T. cbn. by apply fail_inv.
  - pose proof (select_frame_ok w0 I0 Hw T) as S.
    destruct (select_frame w0) as [[[sel|]|e|s] w']; cbn in *; try done; apply S.
Qed.

(** Completing the frame the writer holds. *)
Lemma on_channel_finish {A} id (body : ChannelInner -> stepped Error.t A) w sel :
  conn_inv w -> writing w = Some sel -> completion_id (completion sel) = Some id ->
  (forall c, chan_inv (core_config w) (completion sel) c ->
     chan_inv (core_config w) Completion.None (next (body c)) /\ no_panic (result (body c))) ->
  no_panic (on_channel id body w).1 /\ conn_inv ((on_channel id body w).2 <| writing := None |>).
Proof.
  intros [R H] Hw Hid K. pose proof (ri_writing _ R sel id Hw Hid) as Hd.
  pose proof Hd as [c E]%elem_of_dom. pose proof (H id c E) as I. rewrite Hw in I. cbn in I.
  rewrite bool_decide_true in I by done. destruct (K c I) as [I' NP].
  unfold on_channel. rewrite E. split; [done|]. split.
  - destruct (put_step_reg id (body c) w Hd R). by constructor.
  - intros j cj. cbn. destruct (decide (j = id)) as [->|N].
    + rewrite lookup_insert_eq. by intros [= <-].
    + rewrite lookup_insert_ne by done. intros Ej. specialize (H j cj Ej). rewrite Hw in H. cbn in H.
      by rewrite bool_decide_false in H by congruence.
Qed.

Lemma complete_frame_ok w sel :
  conn_inv w -> writing w = Some sel ->
  no_panic (complete_frame (completion sel) w).1
  /\ conn_inv ((complete_frame (completion sel) w).2 <| writing := None |>).
Proof.
  intros I Hw. pose proof (ri_config _ (proj1 I)) as C.
  destruct (completion sel) as [|id b|id b f|id|id|id] eqn:Ec; cbn [complete_frame].
  - split; [done|]. destruct I as [R H]. split; [by reg_fields R|]. intros j c Ej. specialize (H j c Ej).
    rewrite Hw in H. cbn in H. rewrite Ec in H. by case_bool_decide.
  - eapply on_channel_finish; [done..|by rewrite Ec|]. intros c. rewrite Ec. by apply complete_data_ok.
  - eapply (on_channel_finish (A := unit)); [done..|by rewrite Ec|]. intros c. rewrite Ec.
    by apply complete_window_ok.
  - eapply on_channel_finish; [done..|by rewrite Ec|]. intros c Hc. rewrite Ec in Hc.
    split; [by eapply complete_fin_ok|done].
  - destruct (on_channel_finish id (fun c => step (complete_reset c).1 (complete_reset c).2 false
      (Ok (E := Error.t) tt)) w sel I Hw ltac:(by rewrite Ec)) as [NP I1].
    { intros c Hc. rewrite Ec in Hc. split; [by eapply complete_reset_ok|done]. }
    unfold update_channel, bind. destruct (on_channel id _ w) as [[a|e|s] w1]; try done. cbn in *.
    split; [done|].
    apply (unregister_inv _ (channels w1) (pending_outgoing w1 ∖ {[id]}) (pending_incoming w1)) in I1;
      [|done|set_solver|done].
    apply (forget_inv id) in I1. unfold forget_channel, remember_closed in *. cbn in *.
    by destruct (expire _ _ _).
  - destruct (on_channel_finish id complete_closed w sel I Hw ltac:(by rewrite Ec)) as [NP I1].
    { intros c Hc. rewrite Ec in Hc. split; [by eapply complete_closed_ok|done]. }
    unfold bind. destruct (on_channel id _ w) as [[a|e|s] w1]; try done. cbn in *.
    destruct a; cbn; [|done]. split; [done|]. apply (forget_inv id) in I1.
    unfold forget_channel, remember_closed in *. cbn in *. by destruct (expire _ _ _).
Qed.

Lemma writer_complete_ok w : conn_inv w -> kept (writer_complete w).
Proof.
  intros I. unfold writer_complete. destruct (writing w) as [sel|] eqn:Hw; [|done].
  destruct (complete_frame_ok w sel I Hw) as [NP I1].
  destruct (complete_frame _ w) as [r w1]. split; [done|]. cbn.
  exact (cursors_inv _ (data_cursor w1) (control_cursor w1) _ I1).
Qed.
