(* ===== verification/MuxCoreThms.v ===== *)
(** * Multiplexer: what the connection guarantees against any peer

    [conn_step] is every transition of one side of a connection: application
    calls, frames from an arbitrary peer that decode, the writer's selection and
    completion, transport failure.  The theorems hold on every state reachable
    from [connect]. *)

From S2P Require Import Prelude Utf8 MuxTypes MuxWire MuxChannel MuxChannelInv MuxPair MuxPairThms MuxCore MuxCoreInv.

(** A call on a [Channel] handle; the handle's buffer limit is the byte
    window. *)
Definition call_op (call : app_op) (id : Z) (w : Core) : Core :=
  let limit := initial_byte_window (core_config w) in
  match call with
  | OpWrite waker data => (call_channel id (poll_write limit waker data) w).2
  | OpRead waker capacity => (call_channel id (poll_read waker capacity) w).2
  | OpFlush waker => (call_channel id (poll_flush waker) w).2
  | OpShutdown waker => (call_channel id (poll_shutdown waker) w).2
  | OpClose => (call_channel id close_request w).2
  | OpPollClose waker => (call_channel id (poll_close waker) w).2
  | OpDrop => (call_channel id drop_channel w).2
  end.

Inductive conn_step : Core -> Core -> Prop :=
| SOpen endpoint w : conn_step w (open endpoint w).2
| SPollOpen id w : conn_step w (poll_open id w).2
| SCancelOpen id w : conn_step w (cancel_open id w)
| SRecv w : conn_step w (recv w).2
| SAccept id w : conn_step w (accept id w).2
| SReject id reason w : conn_step w (reject id reason w).2
| SDropRequest id w : conn_step w (drop_request id w)
| SDropIncoming w : conn_step w (drop_incoming w)
| SCall call id w : op_ok call -> conn_step w (call_op call id w)
| SFrame f w : frame_ok (core_config w) f -> conn_step w (reader_turn f w)
| SSelect w : conn_step w (writer_select w).2
| SComplete w : conn_step w (writer_complete w).2
| SFail kind w : conn_step w (transport_failed kind w)
| SDropDriver w : conn_step w (drop_driver w).

Definition conn_reachable (r : Role) (config : Config) (w : Core) : Prop :=
  exists permits w0, connect permits r config = Ok w0 /\ rtc conn_step w0 w.

Lemma call_op_inv call id w : op_ok call -> conn_inv w -> conn_inv (call_op call id w).
Proof.
  intros Hop I. pose proof (ri_config _ (proj1 I)) as C.
  destruct call; cbn in *; apply call_channel_inv; try done; intros c Hc.
  - by apply poll_write_ok.
  - by apply poll_read_ok.
  - by apply poll_flush_ok.
  - by apply poll_shutdown_ok.
  - by apply close_request_ok.
  - by apply poll_close_ok.
  - by apply drop_channel_ok.
Qed.

Lemma reader_turn_inv f w : frame_ok (core_config w) f -> conn_inv w -> conn_inv (reader_turn f w).
Proof.
  intros Hf I. pose proof (process_frame_handled f w Hf I) as H. unfold reader_turn.
  destruct (process_frame f w) as [[a|e|s] w']; [exact H|exact H|done].
Qed.

Lemma conn_step_inv w w' : conn_step w w' -> conn_inv w -> conn_inv w'.
Proof.
  intros S I. destruct S.
  - by apply open_kept.
  - by apply poll_open_inv.
  - by apply cancel_open_inv.
  - by apply recv_inv.
  - by apply accept_kept.
  - by apply reject_kept.
  - by apply drop_request_inv.
  - by apply drop_incoming_inv.
  - by apply call_op_inv.
  - by apply reader_turn_inv.
  - by apply writer_select_inv.
  - by apply writer_complete_ok.
  - by apply fail_inv.
  - by apply fail_inv.
Qed.

Lemma connect_inv permits r config w :
  config_typed config -> connect permits r config = Ok w -> conn_inv w.
Proof.
  intros T. unfold connect. destruct (validate permits config) as [[]|e|s] eqn:V; cbn [obind]; [|done..].
  pose proof (validate_config_ok _ _ T V) as C. intros [= <-]. split.
  - pose proof (co_channels _ C). pose proof (co_control _ C). pose proof (co_closed _ C).
    constructor; cbn; autorewrite with tsc_len; try done; try set_solver; try lia.
    + unfold channel_count. cbn. rewrite size_empty, map_size_empty. lia.
    + destruct r; unfold u32_max; cbn; split_and!; done || lia.
    + split_and!; try done; lia || constructor.
  - intros id c. cbn. by rewrite lookup_empty.
Qed.

Lemma conn_reachable_inv r config w :
  config_typed config -> conn_reachable r config w -> conn_inv w.
Proof.
  intros T (permits & w0 & E & S). apply connect_inv in E; [|done].
  induction S as [|w1 w2 w3 St _ IH]; [done|]. apply IH. by eapply conn_step_inv.
Qed.

(** ** Concrete connections

    A client and a server with the [tiny] configuration. *)
Lemma tiny_typed : config_typed tiny.
Proof. constructor; unfold in_range, usize_max, u64_max, u32_max; cbn; lia. Qed.
Lemma reach_step r config w w' :
  conn_step w w' -> conn_reachable r config w -> conn_reachable r config w'.
Proof. intros S (permits & w0 & E & R). exists permits, w0. split; [done|]. by eapply rtc_r. Qed.
Lemma reach_new r : conn_reachable r tiny (Core_new r tiny).
Proof. exists 64, (Core_new r tiny). split; [by destruct r|apply rtc_refl]. Qed.
(** A concrete frame is within a concrete configuration. *)
Ltac frame_fits :=
  split; [cbn; unfold u32_max; lia|]; cbn; unfold window_ok, in_range, u32_max; split_and?;
  try apply str_ok; try lia; try (repeat constructor; unfold byte_ok; lia); try (vm_compute; done).
Lemma reach_frame r f w :
  frame_ok tiny f -> core_config w = tiny -> conn_reachable r tiny w -> conn_reachable r tiny (reader_turn f w).
Proof. intros Hf E. apply reach_step, SFrame. by rewrite E. Qed.
(** Walks back through the operations that built a state. *)
Ltac reach :=
  repeat lazymatch goal with
    | |- conn_reachable _ _ (Core_new _ _) => apply reach_new
    | |- conn_reachable _ _ (reader_turn ?f ?w) =>
        apply (reach_frame _ f w); [frame_fits|vm_compute; reflexivity|]
    | |- conn_reachable _ _ (snd (open ?e ?w)) => apply (reach_step _ _ w _ (SOpen e w))
    | |- conn_reachable _ _ (snd (writer_select ?w)) => apply (reach_step _ _ w _ (SSelect w))
    | |- conn_reachable _ _ (snd (writer_complete ?w)) => apply (reach_step _ _ w _ (SComplete w))
    end.

Definition opened : Core := (open (str "x") (Core_new Client tiny)).2.
Definition accepted_open : Core := reader_turn (Frame.Accept 1 2 1 2) opened.
Definition requested : Core := reader_turn (Frame.Open 1 2 1 2 (str "x")) (Core_new Server tiny).
Lemma accepted_reachable : conn_reachable Client tiny accepted_open.
Proof. unfold accepted_open, opened. reach. Qed.
Lemma requested_reachable : conn_reachable Server tiny requested.
Proof. unfold requested. reach. Qed.

(** ** Limits *)

(** C30: whatever the peer sends, every resource of a connection stays within its
    configuration: channels and unanswered requests together, the control queue,
    the request queue, the remembered identifiers, and the unread bytes and
    frames of each channel. *)
Theorem connection_limits r config w :
  config_typed config -> conn_reachable r config w ->
  channel_count w <= max_channels (core_config w)
  /\ len (controls w) <= control_queue_capacity (core_config w)
  /\ len (incoming_queue w) <= max_channels (core_config w)
  /\ Z.of_nat (size (tombstones w)) <= closed_channel_capacity (core_config w)
  /\ forall id c, states w !! id = Some c ->
       inbound_len c = unread (inbound c)
       /\ inbound_len c <= initial_byte_window (core_config w)
       /\ len (inbound c) <= initial_frame_window (core_config w).
Proof.
  intros T Rw. destruct (conn_reachable_inv r config w T Rw) as [R H].
  split_and!; try apply R.
  - destruct (ri_tombstones _ R) as (-> & Hnd & L). rewrite size_list_to_set by done. exact L.
  - intros id c E. pose proof (H id c E) as I. pose proof (ci_nonneg _ _ _ I).
    pose proof (ci_bytes _ _ _ I). pose proof (ci_frames _ _ _ I).
    split_and!; [apply I|lia..].
Qed.

Lemma connection_limits_witness :
  channel_count accepted_open = 1 /\ channel_count accepted_open <= 4.
Proof.
  split; [vm_compute; reflexivity|].
  exact (proj1 (connection_limits Client tiny accepted_open tiny_typed accepted_reachable)).
Defined.

(** C31: no operation of a connection can panic: not the handling of any frame
    that decodes, not the writer's selection and completion, not the
    application's calls. *)
Theorem connection_no_panic r config w :
  config_typed config -> conn_reachable r config w ->
  (forall f, frame_ok (core_config w) f -> no_panic (process_frame f w).1)
  /\ (writing w = None -> no_panic (select_frame w).1)
  /\ no_panic (writer_complete w).1
  /\ (forall endpoint, no_panic (open endpoint w).1)
  /\ (forall id, no_panic (accept id w).1)
  /\ (forall id reason, no_panic (reject id reason w).1)
  /\ (forall id c waker capacity, states w !! id = Some c -> 0 <= capacity ->
        no_panic (result (poll_read waker capacity c)))
  /\ (forall id c, states w !! id = Some c -> no_panic (result (drop_channel c))).
Proof.
  intros T Rw. pose proof (conn_reachable_inv r config w T Rw) as I.
  pose proof (ri_config _ (proj1 I)) as C. split_and!.
  - intros f Hf. pose proof (process_frame_handled f w Hf I) as P. unfold handled in P.
    destruct (process_frame f w) as [[]]; done.
  - intros Hw. destruct (core_terminal w) eqn:Tw.
    + unfold select_frame. by rewrite Tw.
    + pose proof (select_frame_ok w I Hw Tw) as P. by destruct (select_frame w) as [[[]|?|?] ?].
  - by apply writer_complete_ok.
  - intros. by apply open_kept.
  - intros. by apply accept_kept.
  - intros. by apply reject_kept.
  - intros id c waker n E Hn. eapply poll_read_ok; [exact C|done|]. by apply (proj2 I).
  - intros id c E. eapply drop_channel_ok; [exact C|]. by apply (proj2 I).
Qed.

Lemma connection_no_panic_witness :
  no_panic (process_frame (Frame.Data 1 [5; 6]) accepted_open).1
  /\ no_panic (process_frame (Frame.Data 1 [5; 6]) opened).1.
Proof.
  split.
  - destruct (connection_no_panic Client tiny accepted_open tiny_typed accepted_reachable) as (P & _).
    apply P. frame_fits.
  - vm_compute. exact I.
Defined.

(** The writer never chokes on a frame of its own: every frame it selects has
    an encoding ([write_frame] does not fail before the transport does). *)
Theorem selected_frames_encode r config w f w' :
  config_typed config -> conn_reachable r config w -> writer_select w = (Some f, w') ->
  exists bs, encode_frame f = Ok bs.
Proof.
  intros T Rw E. pose proof (conn_reachable_inv r config w T Rw) as I. unfold writer_select in E.
  destruct (writing w) eqn:Hw; [done|]. pose proof (signal_inv w false I) as I0.
  set (w0 := w <| signalled := false |>) in *.
  destruct (core_terminal w0) eqn:Tw; [unfold select_frame in E; rewrite Tw in E; done|].
  pose proof (select_frame_ok w0 I0 Hw Tw) as P.
  destruct (select_frame w0) as [[[sel|]|?|?] w1]; try done. injection E as <- _.
  destruct P as [_ [_ L]]. unfold encode_frame. destruct (frame_parts (frame sel)) as [k p]. cbn in L.
  rewrite (proj2 (try_from_Some _ _ _) (conj eq_refl L)). by eexists.
Qed.

Lemma selected_frames_encode_witness : exists bs, encode_frame (Frame.Open 1 2 1 2 (str "x")) = Ok bs.
Proof.
  apply (selected_frames_encode Client tiny opened _ (writer_select opened).2 tiny_typed).
  - unfold opened. reach.
  - vm_compute. reflexivity.
Defined.

(** ** Identifiers *)

(** A successful [open] allocates an identifier of this side's parity that no
    channel of the connection has ever had, queues the OPEN frame that announces
    this side's windows, and registers a fresh channel under it; it counts
    against the channel limit. *)
Theorem open_allocates r config w endpoint id w' :
  config_typed config -> conn_reachable r config w -> open endpoint w = (Ok id, w') ->
  id = next_id w /\ owns_id (role w) id = true /\ 1 <= id <= u32_max
  /\ states w !! id = None /\ next_id w' = id + 2
  /\ states w' !! id = Some (ChannelInner_new (core_config w))
  /\ channels w' = {[id]} ∪ channels w /\ id ∈ pending_outgoing w'
  /\ controls w' = controls w ++ [Frame.Open id (initial_byte_window (core_config w))
       (initial_frame_window (core_config w)) (max_frame_size (core_config w)) endpoint]
  /\ signalled w' = true /\ channel_count w' = channel_count w + 1.
Proof.
  intros T Rw E. pose proof (conn_reachable_inv r config w T Rw) as [R _].
  destruct (ri_next _ R) as (Own & Hid & _). unfold open in E.
  destruct (core_terminal w); [done|]. case_match; [done|]. case_match; [done|].
  destruct (checked_add _ _ _) as [n|] eqn:N; [|done]. apply checked_add_Some in N as [-> Hn].
  unfold bind, enqueue_control in E. cbn in E.
  destruct (len (controls w) >=? _) in E; [done|]. injection E as <- <-.
  assert (Fresh : ~ (next_id w ∈ dom (states w))).
  { intros Hd. destruct (ri_ids _ R _ Hd) as [_ K]. rewrite Own in K. lia. }
  assert (NC : ~ (next_id w ∈ channels w)) by (intros X; by apply Fresh, (ri_registered _ R)).
  cbn. split_and!; try done; try lia.
  - by apply not_elem_of_dom.
  - by rewrite lookup_insert_eq.
  - set_solver.
  - unfold channel_count. cbn. rewrite size_union by set_solver. rewrite size_singleton. lia.
Qed.

Lemma open_allocates_witness :
  next_id (open (str "y") accepted_open).2 = 5 /\ states accepted_open !! 3 = None.
Proof.
  destruct (open_allocates Client tiny accepted_open (str "y") 3 (open (str "y") accepted_open).2
              tiny_typed accepted_reachable) as (_ & _ & _ & F & N & _).
  - vm_compute. reflexivity.
  - split; [exact N|exact F].
Defined.

(** The two sides never allocate the same identifier: no identifier is owned
    by both roles, and a peer's OPEN for an identifier this side owns, or for one
    not above every earlier one, is refused. *)
Theorem peer_open_checked w id b n m endpoint :
  (owns_id (role w) id = true -> owns_id (peer (role w)) id = false)
  /\ (owns_id (role w) id = true \/ id <= last_peer_id w ->
      receive_open id b n m endpoint w
      = (Err (protocol_error "invalid or reused peer channel identifier"), w)).
Proof.
  split.
  - intros Own. rewrite owns_id_peer; [by rewrite Own|]. intros ->. by destruct (role w).
  - intros H. unfold receive_open. replace (owns_id (role w) id || (id <=? last_peer_id w)) with true; [done|].
    symmetry. apply orb_true_iff. rewrite Z.leb_le. exact H.
Qed.

Lemma peer_open_checked_witness :
  receive_open 1 2 1 2 (str "x") opened
  = (Err (protocol_error "invalid or reused peer channel identifier"), opened).
Proof. apply (peer_open_checked opened 1 2 1 2 (str "x")). left. vm_compute. reflexivity. Defined.

(** ** Late frames *)

(** Frames that cross a close are harmless: a DATA, WINDOW, FIN or CLOSED
    frame for a channel that was closed recently, and an ACCEPT or REJECT for an
    open that was already answered, change nothing and are no error. *)
Theorem late_frames_ignored w id f :
  id ∈ tombstones w -> ~ (id ∈ channels w) -> ~ (id ∈ pending_outgoing w) ->
  Frame.id f = id ->
  match f with
  | Frame.Data _ _ | Frame.Window _ _ _ | Frame.Fin _ | Frame.Closed _ => True
  | Frame.Accept _ _ _ _ | Frame.Reject _ _ => owns_id (role w) id = true
  | _ => False
  end ->
  process_frame f w = (Ok tt, w).
Proof.
  intros Ht Hc Hp <- Hf.
  destruct f; cbn in *; try done; unfold receive_accept, receive_reject, receive_data, receive_window,
    receive_fin, receive_closed, bind, find_channel; rewrite ?Hf;
    rewrite ?(bool_decide_false _ Hc), ?(bool_decide_false _ Hp), ?(bool_decide_true _ Ht); done.
Qed.

Definition closed_one : Core := reader_turn (Frame.Reset 1 []) accepted_open.
Lemma late_frames_ignored_witness :
  process_frame (Frame.Data 1 [5]) closed_one = (Ok tt, closed_one).
Proof. by apply (late_frames_ignored closed_one 1). Defined.

(** ** Failure *)

(** A connection failure reaches everyone.  The first error wins and later
    failures change nothing; every registered channel then fails its reads,
    writes, flushes and closes with that error, every waiting [open] is answered
    with it, the control queue and all requests are gone, and neither a new
    [open] nor the writer proceeds. *)
Theorem failure_is_final error w :
  core_terminal w = None -> channels w ⊆ dom (states w) ->
  core_terminal (fail error w) = Some error
  /\ (forall e, fail e (fail error w) = fail error w)
  /\ (forall id, id ∈ channels w -> exists c, states (fail error w) !! id = Some c
        /\ (forall k n, result (poll_read k n c) = Err (channel_io_error error))
        /\ (forall l k d, result (poll_write l k d c) = Err (channel_io_error error))
        /\ (forall k, result (poll_flush k c) = Err (channel_io_error error))
        /\ result (close_request c) = Err error
        /\ (forall k, result (poll_close k c) = Err error))
  /\ (forall id, id ∈ pending_outgoing w -> id ∈ openers w ->
        (poll_open id (fail error w)).1 = Ready (Err error))
  /\ (forall endpoint, (open endpoint (fail error w)).1 = Err error)
  /\ (select_frame (fail error w)).1 = Err error
  /\ controls (fail error w) = [] /\ channel_count (fail error w) = 0.
Proof.
  intros T Hreg.
  assert (E : core_terminal (fail error w) = Some error).
  { unfold fail. by rewrite bool_decide_false by (rewrite T; by intros [? ?]). }
  split_and!; [done|intros e; apply fail_failed; congruence|..].
  - intros id Hid. pose proof (Hreg id Hid) as [c Ec]%elem_of_dom.
    exists (fail_channel error c).1. split.
    { unfold fail. rewrite bool_decide_false by (rewrite T; by intros [? ?]). cbn.
      rewrite map_lookup_imap, Ec. cbn. by rewrite bool_decide_true. }
    split_and!; intros; done.
  - intros id Hp Ho. unfold poll_open, fail. rewrite bool_decide_false by (rewrite T; by intros [? ?]). cbn.
    rewrite (lookup_union_Some_l _ _ id (Err error)); [done|].
    apply lookup_set_to_map; [done|]. exists id. split; [set_solver|done].
  - intros endpoint. unfold open. by rewrite E.
  - unfold select_frame. by rewrite E.
  - unfold fail. by rewrite bool_decide_false by (rewrite T; by intros [? ?]).
  - unfold fail, channel_count. rewrite bool_decide_false by (rewrite T; by intros [? ?]). cbn.
    by rewrite size_empty, map_size_empty.
Qed.

Lemma failure_is_final_witness :
  (open (str "y") (fail Error.Io accepted_open)).1 = Err Error.Io
  /\ channel_count (fail Error.Io accepted_open) = 0.
Proof.
  destruct (failure_is_final Error.Io accepted_open) as (_ & _ & _ & _ & O & _ & _ & N).
  - vm_compute. reflexivity.
  - apply (ri_registered _ (proj1 (conn_reachable_inv Client tiny _ tiny_typed accepted_reachable))).
  - split; [apply O|exact N].
Defined.

(** ** Requests *)

(** Dropping a request answers it.  With room for the built-in reason the
    peer gets a REJECT, or, when the control queue is full, the connection fails;
    the request's slot is free again in both cases. *)
Theorem dropped_request_answered w id q :
  core_terminal w = None -> pending_incoming w !! id = Some q ->
  15 <= max_reason_size (core_config w) ->
  pending_incoming (drop_request id w) !! id = None
  /\ (controls (drop_request id w) = controls w ++ [Frame.Reject id (str "request dropped")]
      \/ core_terminal (drop_request id w) = Some Error.ResourceExhausted).
Proof.
  intros T E L. unfold drop_request, reject_request. rewrite T, E.
  change (len (str "request dropped")) with 15.
  rewrite Z.gtb_ltb, (proj2 (Z.ltb_ge _ _)) by lia. cbn [negb].
  rewrite bool_decide_true by by eexists. cbn [negb]. unfold bind, enqueue_control.
  destruct (len (controls w) >=? _).
  - unfold fail. rewrite bool_decide_false by (rewrite T; by intros [? ?]). cbn.
    rewrite lookup_empty. auto.
  - cbn. match goal with |- context [remember_closed id ?x] =>
      destruct (remember_closed_eta id x) as (o & t & Er) end.
    rewrite Er. cbn. rewrite lookup_delete_eq. auto.
Qed.

Lemma dropped_request_answered_witness :
  controls (drop_request 1 requested) = [Frame.Reject 1 (str "request dropped")].
Proof.
  destruct (dropped_request_answered requested 1
              {| byte_window := 2; frame_window := 1; max_frame := 2 |}) as [_ [H|H]];
    [vm_compute; reflexivity..|discriminate| |].
  - exact H.
  - vm_compute in H. discriminate.
Defined.

(** With a smaller [max_reason_size], which [validate] accepts, dropping a
    request does nothing: the built-in reason is refused as oversized, the
    request keeps its channel slot for the rest of the connection and the peer's
    [open] is never answered. *)
Theorem dropped_request_leaks w id q :
  core_terminal w = None -> pending_incoming w !! id = Some q ->
  max_reason_size (core_config w) < 15 ->
  drop_request id w = w.
Proof.
  intros T E L. unfold drop_request, reject_request. rewrite T.
  change (len (str "request dropped")) with 15.
  by rewrite Z.gtb_ltb, (proj2 (Z.ltb_lt _ _)) by lia.
Qed.

(** A configuration [validate] accepts and the state it leaks in. *)
Definition terse : Config := tiny <| max_reason_size := 8 |>.
Definition terse_request : Core := reader_turn (Frame.Open 1 2 1 2 (str "x")) (Core_new Server terse).
Lemma dropped_request_leaks_witness :
  connect 64 Server terse = Ok (Core_new Server terse)
  /\ drop_request 1 terse_request = terse_request
  /\ channel_count terse_request = 1.
Proof.
  split; [vm_compute; reflexivity|]. split; [|vm_compute; reflexivity].
  apply (dropped_request_leaks terse_request 1 {| byte_window := 2; frame_window := 1; max_frame := 2 |});
    vm_compute; reflexivity.
Defined.

(** ** Multiplexer: fairness of the writer and the opening handshake

    The writer visits the registered channels in a rotation that puts the one it
    served last at the end, alternates control and data within the configured
    burst, and idles only when nothing can be sent.  The last part follows one
    channel from [open] to the state [MuxPair] starts from. *)
(** ** Rotations of a sorted list *)
Definition above (a : Z) (l : list Z) : list Z := List.filter (fun id => a <? id) l.
Definition upto (a : Z) (l : list Z) : list Z := List.filter (fun id => id <=? a) l.

Lemma filter_all {A} (f : A -> bool) l : Forall (fun x => f x = true) l -> List.filter f l = l.
Proof. induction 1 as [|x l H _ IH]; cbn; [done|]. by rewrite H, IH. Qed.
Lemma filter_nothing {A} (f : A -> bool) l : Forall (fun x => f x = false) l -> List.filter f l = [].
Proof. induction 1 as [|x l H _ IH]; cbn; [done|]. by rewrite H. Qed.

Lemma sorted_split a l : StronglySorted Z.lt l -> l = upto a l ++ above a l.
Proof.
  induction 1 as [|x l _ IH Hx]; [done|]. unfold above, upto in *. cbn.
  destruct (x <=? a) eqn:E, (a <? x) eqn:E'; bool_prop; try lia; cbn; [by f_equal|].
  rewrite filter_nothing by (eapply Forall_impl; [exact Hx|]; cbn; intros y ?; apply Z.leb_gt; lia).
  cbn. rewrite filter_all; [done|]. eapply Forall_impl; [exact Hx|]. cbn. intros y ?. apply Z.ltb_lt. lia.
Qed.

Lemma sorted_at u j v :
  StronglySorted Z.lt (u ++ j :: v) ->
  above j (u ++ j :: v) = v /\ upto j (u ++ j :: v) = u ++ [j].
Proof.
  induction u as [|x u IH]; cbn [app]; intros H; inversion H as [|? ? Hs Hx]; subst;
    unfold above, upto in *; cbn.
  - rewrite Z.ltb_irrefl, Z.leb_refl. split.
    + apply filter_all. eapply Forall_impl; [exact Hx|]. cbn. intros y ?. apply Z.ltb_lt. lia.
    + f_equal. apply filter_nothing. eapply Forall_impl; [exact Hx|]. cbn. intros y ?. apply Z.leb_gt. lia.
  - assert (x < j) as L. { eapply Forall_forall in Hx; [exact Hx|]. set_solver. }
    rewrite (proj2 (Z.ltb_ge j x)), (proj2 (Z.leb_le x j)) by lia.
    destruct (IH Hs) as [-> ->]. done.
Qed.

(** Serving [j] moves it to the end of the rotation. *)
Lemma rotate l a p j q :
  StronglySorted Z.lt l -> above a l ++ upto a l = p ++ j :: q ->
  above j l ++ upto j l = q ++ p ++ [j].
Proof.
  intros S E. pose proof (sorted_split a l S) as L.
  destruct (app_eq_inv _ _ _ _ E) as [(k & E1 & E2)|(k & E1 & E2)].
  - destruct k as [|x k]; cbn in E2.
    + rewrite app_nil_r in E1. rewrite <- E2, E1 in L.
      assert (L' : l = [] ++ j :: (q ++ p)) by done. rewrite L' in S |- *.
      destruct (sorted_at _ _ _ S) as [-> ->]. by rewrite <- app_assoc.
    + injection E2 as -> ->. rewrite E1, app_assoc in L. rewrite L in S.
      destruct (sorted_at _ _ _ S) as [A B]. rewrite <- L in A, B. rewrite A, B.
      by rewrite <- !app_assoc.
  - rewrite E2 in L. rewrite <- app_assoc in L. cbn in L. rewrite L in S.
    destruct (sorted_at _ _ _ S) as [A B]. rewrite <- L in A, B. rewrite A, B, E1.
    by rewrite <- !app_assoc.
Qed.

Lemma channel_ids_perm w : channel_ids w ≡ₚ elements (channels w).
Proof. apply merge_sort_Permutation. Qed.
Lemma channel_ids_sorted w : StronglySorted Z.lt (channel_ids w).
Proof.
  assert (N : NoDup (channel_ids w)).
  { rewrite channel_ids_perm. apply NoDup_elements. }
  assert (S : StronglySorted Z.le (channel_ids w)) by (apply (StronglySorted_merge_sort Z.le)).
  induction S as [|x l _ IH Hx]; [constructor|]. apply NoDup_cons in N as [Nx N].
  constructor; [by apply IH|]. apply Forall_forall. intros y Hy.
  eapply Forall_forall in Hx; [|exact Hy]. assert (x <> y) by (intros ->; done). lia.
Qed.
Lemma ordered_states_perm w a : ordered_states w a ≡ₚ elements (channels w).
Proof.
  unfold ordered_states. fold (above a (channel_ids w)) (upto a (channel_ids w)).
  rewrite Permutation_app_comm, <- sorted_split by apply channel_ids_sorted. apply channel_ids_perm.
Qed.

(** ** Data selection *)

(** The channel has bytes to send and credit for them: the negation of the
    guard that makes [select_channel_data] skip it. *)
Definition data_ready (w : Core) (id : Z) : bool :=
  match states w !! id with
  | Some c =>
      negb (bool_decide (is_Some (reset_pending c)) || reset_in_flight c
            || (send_bytes c =? 0) || (send_frames c =? 0) || (outbound_len c =? 0))
  | None => false
  end.

Lemma data_ready_None w id c : states w !! id = Some c ->
  data_of_channel id c = Ok None -> data_ready w id = false.
Proof.
  intros E. unfold data_ready, data_of_channel. rewrite E. case_match eqn:G; [done|].
  destruct (take_outbound _ _) as [[d q]| |]; cbn [obind]; [|done..].
  repeat match goal with |- obind ?o _ = _ -> _ => destruct o; cbn [obind]; [|done..] end. done.
Qed.
Lemma data_of_channel_frame id c c' sel :
  data_of_channel id c = Ok (Some (c', sel)) -> exists data, frame sel = Frame.Data id data.
Proof.
  unfold data_of_channel. case_match eqn:G; [done|].
  destruct (take_outbound _ _) as [[d q]| |]; cbn [obind]; [|done..].
  repeat match goal with |- obind ?o _ = _ -> _ => destruct o; cbn [obind]; [|done..] end.
  intros [= _ <-]. by eexists.
Qed.

(** The loop returns the first channel that is ready. *)
Lemma select_data_from_first w ids :
  match select_data_from (states w) ids with
  | Ok (Some (j, c', sel)) =>
      exists p q data, ids = p ++ j :: q /\ Forall (fun i => data_ready w i = false) p
                       /\ frame sel = Frame.Data j data
  | Ok None => Forall (fun i => data_ready w i = false) ids
  | _ => True
  end.
Proof.
  induction ids as [|id ids IH]; cbn [select_data_from]; [constructor|].
  assert (Skip : data_ready w id = false ->
    match select_data_from (states w) ids with
    | Ok (Some (j, c', sel)) =>
        exists p q data, id :: ids = p ++ j :: q /\ Forall (fun i => data_ready w i = false) p
                         /\ frame sel = Frame.Data j data
    | Ok None => Forall (fun i => data_ready w i = false) (id :: ids)
    | _ => True
    end).
  { intros N. destruct (select_data_from (states w) ids) as [[[[j c'] sel]|]| |]; try done; [|by constructor].
    destruct IH as (p & q & data & -> & Hp & Hf). exists (id :: p), q, data. split_and!; try done. by constructor. }
  destruct (states w !! id) as [c|] eqn:E.
  - destruct (data_of_channel id c) as [[[c' sel]|]| |] eqn:D; cbn [obind]; try done.
    + destruct (data_of_channel_frame _ _ _ _ D) as [data Hf]. exists [], ids, data. by split_and!.
    + apply Skip. by eapply data_ready_None.
  - apply Skip. unfold data_ready. by rewrite E.
Qed.

(** Data is scheduled round robin.  The writer serves the first channel of
    the rotation that can send; the ones it skipped had nothing to send or no
    credit; and the served channel goes to the end of the rotation, which
    otherwise keeps its order. *)
Theorem data_round_robin w sel w' :
  select_channel_data w = (Ok (Some sel), w') ->
  exists j data p q,
    frame sel = Frame.Data j data
    /\ ordered_states w (data_cursor w) = p ++ j :: q
    /\ Forall (fun i => data_ready w i = false) p
    /\ ordered_states w' (data_cursor w') = q ++ p ++ [j]
    /\ ordered_states w (data_cursor w) ≡ₚ elements (channels w).
Proof.
  unfold select_channel_data. intros H.
  pose proof (select_data_from_first w (ordered_states w (data_cursor w))) as F.
  destruct (select_data_from _ _) as [[[[j c'] s]|]| |]; try done. injection H as <- <-.
  destruct F as (p & q & data & E & Hp & Hf). exists j, data, p, q.
  split_and!; try done; [|apply ordered_states_perm].
  eapply (rotate (channel_ids w)); [apply channel_ids_sorted|exact E].
Qed.

(** How many channels are visited before [id]. *)
Fixpoint turns_before (id : Z) (l : list Z) : Z :=
  match l with
  | [] => 0
  | x :: rest => if x =? id then 0 else 1 + turns_before id rest
  end.
Lemma turns_bounds id l : 0 <= turns_before id l <= len l.
Proof. induction l as [|x l IH]; cbn; [done|]. autorewrite with tsc_len. case_match; lia. Qed.
Lemma turns_app_in id p q : id ∈ p -> turns_before id (p ++ q) = turns_before id p.
Proof.
  induction p as [|x p IH]; [by intros ?%elem_of_nil|]. cbn. intros [->|H]%elem_of_cons.
  - by rewrite Z.eqb_refl.
  - rewrite IH by done. done.
Qed.
Lemma turns_app_out id p q : ~ (id ∈ p) -> turns_before id (p ++ q) = len p + turns_before id q.
Proof.
  induction p as [|x p IH]; intros H; [done|]. cbn. autorewrite with tsc_len.
  rewrite (proj2 (Z.eqb_neq x id)) by set_solver. rewrite IH by set_solver. lia.
Qed.

(** C39: no channel is starved.  While a registered channel can send, each DATA
    frame the writer gives to another channel brings it closer to the front of
    the rotation, so it waits for fewer DATA frames than there are channels. *)
Theorem no_channel_starved w sel w' id :
  id ∈ channels w -> data_ready w id = true ->
  select_channel_data w = (Ok (Some sel), w') -> Frame.id (frame sel) <> id ->
  turns_before id (ordered_states w' (data_cursor w'))
    < turns_before id (ordered_states w (data_cursor w))
  /\ turns_before id (ordered_states w (data_cursor w)) <= Z.of_nat (size (channels w)).
Proof.
  unfold select_channel_data. intros Hid Hr H Hne.
  pose proof (select_data_from_first w (ordered_states w (data_cursor w))) as F.
  destruct (select_data_from _ _) as [[[[j c'] s]|]| |]; try done. injection H as <- <-.
  destruct F as (p & q & data & E & Hp & Hf). rewrite Hf in Hne. cbn in Hne.
  pose proof (ordered_states_perm w (data_cursor w)) as P.
  assert (Hin : id ∈ p ++ j :: q) by (rewrite <- E, P; by apply elem_of_elements).
  assert (Np : ~ (id ∈ p)). { intros X. eapply Forall_forall in Hp; [|exact X]. cbn in Hp. congruence. }
  assert (Hq : id ∈ q) by set_solver.
  assert (R : ordered_states (w <| states := <[j := c']> (states w) |> <| data_cursor := j |>) j
              = q ++ p ++ [j]).
  { eapply (rotate (channel_ids w)); [apply channel_ids_sorted|exact E]. }
  cbn [data_cursor set setter] in *. split.
  - rewrite R, (turns_app_in _ q) by done. rewrite E, (turns_app_out _ p) by done. cbn. rewrite (proj2 (Z.eqb_neq j id)) by done.
    pose proof (len_nonneg p). lia.
  - apply Permutation_length in P. change (size (channels w)) with (length (elements (channels w))).
    rewrite <- P. pose proof (turns_bounds id (ordered_states w (data_cursor w))) as B. unfold len in B. lia.
Qed.

(** ** Control and data *)
Lemma select_control_from_none heap ids :
  select_control_from heap ids = None ->
  Forall (fun i => forall c, heap !! i = Some c -> control_of_channel i c = None) ids.
Proof.
  induction ids as [|id ids IH]; cbn; [constructor|].
  destruct (heap !! id) as [c|] eqn:E.
  - destruct (control_of_channel id c) as [[c' s]|] eqn:S; [done|]. intros H.
    constructor; [|by apply IH]. intros c0. rewrite E. by intros [= <-].
  - intros H. constructor; [|by apply IH]. intros c0. by rewrite E.
Qed.

(** Control traffic cannot starve data: once [control_burst] control frames
    in a row were written, the next frame is DATA if any channel can send. *)
Theorem control_burst_bounded r config w id :
  config_typed config -> conn_reachable r config w -> writing w = None -> core_terminal w = None ->
  control_burst (core_config w) <= control_count w ->
  id ∈ channels w -> data_ready w id = true ->
  exists sel w' j data, select_frame w = (Ok (Some sel), w') /\ frame sel = Frame.Data j data.
Proof.
  intros Ty Rw Hw T Hb Hid Hr. pose proof (conn_reachable_inv r config w Ty Rw) as I.
  unfold select_frame. rewrite T, Z.geb_leb, (proj2 (Z.leb_le _ _)) by done.
  unfold or_else, bind, select_channel_data.
  pose proof (select_data_from_spec w (ordered_states w (data_cursor w)) I Hw) as P.
  pose proof (select_data_from_first w (ordered_states w (data_cursor w))) as F.
  destruct (select_data_from _ _) as [[[[j c'] s]|]| |]; try done.
  - destruct F as (p & q & data & _ & _ & Hf). eexists _, _, j, data. by split.
  - exfalso. assert (X : id ∈ ordered_states w (data_cursor w)).
    { rewrite ordered_states_perm. by apply elem_of_elements. }
    eapply Forall_forall in F; [|exact X]. cbn in F. congruence.
Qed.

Lemma or_else_none m k w w' :
  or_else m k w = (Ok None, w') -> exists w1, m w = (Ok None, w1) /\ k w1 = (Ok None, w').
Proof. unfold or_else, bind. destruct (m w) as [[[s|]|e|s] w1]; cbn; try done. by exists w1. Qed.
Lemma pop_control_none w w' : pop_control w = (Ok None, w') -> controls w = [] /\ w' = w.
Proof. unfold pop_control. destruct (controls w); [|done]. by intros [= <-]. Qed.
Lemma select_channel_control_none w w' :
  select_channel_control w = (Ok None, w') ->
  select_control_from (states w) (ordered_states w (control_cursor w)) = None /\ w' = w.
Proof. unfold select_channel_control. repeat case_match; try done. by intros [= <-]. Qed.
Lemma select_channel_data_none w w' :
  select_channel_data w = (Ok None, w') ->
  select_data_from (states w) (ordered_states w (data_cursor w)) = Ok None /\ w' = w.
Proof. unfold select_channel_data. repeat case_match; try done. by intros [= <-]. Qed.

(** The writer is work conserving: it finds nothing to write only when the
    control queue is empty, no registered channel has a control frame due and
    none has bytes it may send; and then the selection changed nothing. *)
Theorem writer_work_conserving r config w w' :
  config_typed config -> conn_reachable r config w -> writing w = None ->
  select_frame w = (Ok None, w') ->
  w' = w /\ controls w = []
  /\ forall id, id ∈ channels w ->
       data_ready w id = false
       /\ forall c, states w !! id = Some c -> control_of_channel id c = None.
Proof.
  intros Ty Rw Hw E. pose proof (conn_reachable_inv r config w Ty Rw) as I.
  assert (K : controls w = [] /\ w' = w
    /\ select_control_from (states w) (ordered_states w (control_cursor w)) = None
    /\ select_data_from (states w) (ordered_states w (data_cursor w)) = Ok None).
  { unfold select_frame in E. destruct (core_terminal w); [done|].
    case_match;
      repeat match goal with
        | H : or_else _ _ _ = _ |- _ => apply or_else_none in H as (? & ? & ?)
        | H : pop_control _ = _ |- _ => apply pop_control_none in H as [? ->]
        | H : select_channel_control _ = _ |- _ => apply select_channel_control_none in H as [? ->]
        | H : select_channel_data _ = _ |- _ => apply select_channel_data_none in H as [? ->]
        end; done. }
  destruct K as (Kc & Kw & Kk & Kd). split_and!; [done..|]. intros id Hid.
  pose proof (select_data_from_first w (ordered_states w (data_cursor w))) as F. rewrite Kd in F.
  apply select_control_from_none in Kk.
  assert (X : forall a, id ∈ ordered_states w a).
  { intros a. rewrite ordered_states_perm. by apply elem_of_elements. }
  split; [by apply (proj1 (Forall_forall _ _) F)|]. by apply (proj1 (Forall_forall _ _) Kk).
Qed.

(** ** The opening handshake *)
Definition open_frame (c : Config) (id : Z) (endpoint : bytes) : Frame.t :=
  Frame.Open id (initial_byte_window c) (initial_frame_window c) (max_frame_size c) endpoint.
Definition accept_frame (c : Config) (id : Z) : Frame.t :=
  Frame.Accept id (initial_byte_window c) (initial_frame_window c) (max_frame_size c).

Lemma remember_closed_pending id w : pending_incoming (remember_closed id w) = pending_incoming w.
Proof. by destruct (remember_closed_eta id w) as (o & t & ->). Qed.

(** An OPEN that left a request pending recorded the peer's windows. *)
Lemma receive_open_pending b c id endpoint b1 q :
  reg_inv b -> process_frame (open_frame c id endpoint) b = (Ok tt, b1) ->
  pending_incoming b1 !! id = Some q ->
  q = {| byte_window := initial_byte_window c; frame_window := initial_frame_window c;
         max_frame := max_frame_size c |}
  /\ core_config b1 = core_config b.
Proof.
  intros R. cbn. unfold receive_open. case_match eqn:G; [done|]. apply orb_false_iff in G as [Own Old%Z.leb_gt].
  assert (NP : pending_incoming b !! id = None).
  { destruct (pending_incoming b !! id) eqn:E; [|done].
    destruct (ri_incoming _ R id _ E) as ((_ & K) & _). rewrite Own in K. lia. }
  unfold bind, enqueue_control, modify, notify_one. cbn.
  repeat (case_match; try done); intros E Hq; unfold modify in E; simplify_eq; cbn in Hq;
    rewrite ?remember_closed_pending in Hq; cbn in Hq;
    rewrite ?lookup_insert_eq, ?lookup_delete_eq in Hq; by simplify_eq.
Qed.

(** The handshake establishes the channel: when OPEN was taken up and
    accepted on one side and its ACCEPT processed on the other, the opener gets
    its channel and both sides hold exactly the state in which each knows the
    other's windows, the state the flow-control theorems start from. *)
Theorem handshake_establishes ra ca rb cb a b endpoint id a1 b1 b2 :
  config_typed ca -> config_typed cb -> conn_reachable ra ca a -> conn_reachable rb cb b ->
  open endpoint a = (Ok id, a1) ->
  process_frame (open_frame (core_config a) id endpoint) b = (Ok tt, b1) ->
  accept id b1 = (Ok tt, b2) ->
  states b2 !! id = Some (chan (established (core_config b) (core_config a)))
  /\ In (accept_frame (core_config b) id) (controls b2)
  /\ exists a2, process_frame (accept_frame (core_config b) id) a1 = (Ok tt, a2)
       /\ states a2 !! id = Some (chan (established (core_config a) (core_config b)))
       /\ (poll_open id a2).1 = Ready (Ok tt).
Proof.
  intros Ta Tb Ra Rb Eo Ep Ea. destruct (conn_reachable_inv ra ca a Ta Ra) as [Ia _].
  destruct (conn_reachable_inv rb cb b Tb Rb) as [Ib _]. destruct (ri_next _ Ia) as (Own & _ & _).
  assert (B : states b2 !! id = Some (chan (established (core_config b) (core_config a)))
              /\ In (accept_frame (core_config b) id) (controls b2)).
  { unfold accept, accept_request in Ea. destruct (core_terminal b1); [done|].
    destruct (pending_incoming b1 !! id) as [q|] eqn:Q; [|done].
    destruct (receive_open_pending _ _ _ _ _ _ Ib Ep Q) as [-> C]. rewrite C in Ea.
    unfold enqueue_control in Ea. cbn in Ea. destruct (len (controls b1) >=? _) in Ea; [done|].
    injection Ea as <-. cbn. rewrite lookup_insert_eq. split; [done|]. apply in_or_app. right. by left. }
  destruct B as [B1 B2]. split_and!; [done..|].
  unfold open in Eo. destruct (core_terminal a); [done|]. case_match; [done|]. case_match; [done|].
  destruct (checked_add _ _ _) as [n|]; [|done]. unfold bind, enqueue_control in Eo. cbn in Eo.
  destruct (len (controls a) >=? _) in Eo; [done|]. injection Eo as <- <-.
  cbn [process_frame accept_frame]. unfold receive_accept. cbn [role set setter]. rewrite Own. cbn [negb].
  cbn [pending_outgoing channels set setter]. rewrite !bool_decide_true by set_solver. cbn [negb].
  unfold bind, update_channel, on_channel. cbn. rewrite lookup_insert_eq.
  unfold send_response. cbn. rewrite (bool_decide_true (next_id a ∈ {[next_id a]} ∪ openers a)) by set_solver.
  rewrite bool_decide_true by set_solver. cbn.
  eexists. split; [reflexivity|]. cbn. rewrite lookup_insert_eq. split; [done|].
  unfold poll_open. cbn. by rewrite lookup_insert_eq.
Qed.

(** ** Concrete schedules: two accepted channels, both with bytes to send *)
Definition two_open : Core :=
  reader_turn (Frame.Accept 3 2 1 2) (reader_turn (Frame.Accept 1 2 1 2)
    (open (str "y") (open (str "x") (Core_new Client tiny)).2).2).
Definition drained : Core :=
  (writer_complete (writer_select (writer_complete (writer_select two_open).2).2).2).2.
Definition two_writers : Core := call_op (OpWrite 1 [8]) 3 (call_op (OpWrite 1 [7]) 1 drained).
Lemma drained_reachable : conn_reachable Client tiny drained.
Proof. unfold drained, two_open. reach. Qed.
Lemma two_writers_reachable : conn_reachable Client tiny two_writers.
Proof.
  unfold two_writers. do 2 (eapply reach_step; [apply SCall; repeat constructor; unfold byte_ok; lia|]).
  apply drained_reachable.
Qed.

Lemma data_round_robin_witness :
  exists p q, ordered_states two_writers 0 = p ++ 1 :: q
    /\ ordered_states (select_channel_data two_writers).2 1 = q ++ p ++ [1].
Proof.
  destruct (data_round_robin two_writers {| frame := Frame.Data 1 [7]; completion := Completion.Data 1 1 |}
              (select_channel_data two_writers).2) as (j & data & p & q & Hf & E & _ & E' & _).
  - vm_compute. reflexivity.
  - injection Hf as <- <-. exists p, q. split; [exact E|exact E'].
Defined.

Lemma no_channel_starved_witness :
  turns_before 3 (ordered_states (select_channel_data two_writers).2 1)
  < turns_before 3 (ordered_states two_writers 0).
Proof.
  apply (no_channel_starved two_writers
           {| frame := Frame.Data 1 [7]; completion := Completion.Data 1 1 |}
           (select_channel_data two_writers).2 3);
    [by apply (bool_decide_eq_true _)|vm_compute; reflexivity..|discriminate].
Defined.

Lemma control_burst_bounded_witness :
  exists sel w' j data, select_frame two_writers = (Ok (Some sel), w') /\ frame sel = Frame.Data j data.
Proof.
  apply (control_burst_bounded Client tiny two_writers 1 tiny_typed two_writers_reachable);
    [vm_compute; reflexivity..|vm_compute; discriminate|by apply (bool_decide_eq_true _)|vm_compute; reflexivity].
Defined.

Lemma writer_work_conserving_witness : select_frame drained = (Ok None, drained) /\ controls drained = [].
Proof.
  destruct (writer_work_conserving Client tiny drained drained tiny_typed drained_reachable)
    as (_ & C & _); [vm_compute; reflexivity..|]. split; [vm_compute; reflexivity|exact C].
Defined.

Lemma handshake_establishes_witness :
  let b := (accept 1 requested).2 in
  states b !! 1 = Some (chan (established tiny tiny))
  /\ exists a, process_frame (accept_frame tiny 1) opened = (Ok tt, a)
       /\ states a !! 1 = Some (chan (established tiny tiny)) /\ (poll_open 1 a).1 = Ready (Ok tt).
Proof.
  destruct (handshake_establishes Client tiny Server tiny (Core_new Client tiny) (Core_new Server tiny)
              (str "x") 1 opened requested (accept 1 requested).2 tiny_typed tiny_typed
              (reach_new Client) (reach_new Server)) as (B & _ & A); [vm_compute; reflexivity..|].
  split; [exact B|exact A].
Defined.
