(* ===== verification/Codec.v ===== *)
(** * The JSON frame codec

    [crates/libs/tascarrel-protocol/src/codec.rs]: length-prefixed JSON messages
    with magic, version and flags.  [serde_json] is outside the repository: a
    message type, its serializer and its deserializer are parameters, and what
    the round trips need of them is a hypothesis.  A stream is a [Reader] of
    [MuxWire]: the bytes that arrive, and the error after them ([UnexpectedEof]
    is a clean end). *)

From S2P Require Import Prelude Utf8 MuxTypes MuxWire.

Module Codec.

Definition MAGIC : bytes := [84; 83; 67; 0].
Definition PROTOCOL_VERSION : Z := 16.
Definition HEADER_LEN : Z := 12.
Definition DEFAULT_MAX_FRAME_LEN : Z := 8 * 1024 * 1024.

Inductive CodecError :=
| Io (kind : IoKind)
| InvalidMagic (magic : bytes)
| UnsupportedVersion (version : Z)
| UnsupportedFlags (flags : Z)
| FrameTooLarge (length max : Z)
| InvalidMaxFrameLen
| Encode
| Decode.

(** [validate_limit]. *)
Definition validate_limit (limit : Z) : outcome CodecError unit :=
  if (limit =? 0) || match try_from u32_max limit with Some _ => false | None => true end
  then Err InvalidMaxFrameLen
  else Ok tt.

(** [AsyncReadExt::read_exact] and [Read::read_exact]. *)
Definition read_exactly (n : Z) (r : Reader) : outcome CodecError (bytes * Reader) :=
  if n <=? len (avail r)
  then Ok (takez n (avail r), {| avail := dropz n (avail r); at_end := at_end r |})
  else Err (Io (at_end r)).

(** [read_header] and [read_blocking_header]: the end of the stream before the
    first byte is no error. *)
Definition read_header (r : Reader) : outcome CodecError (option (bytes * Reader)) :=
  match avail r with
  | [] => match at_end r with UnexpectedEof => Ok None | kind => Err (Io kind) end
  | first :: rest =>
      let? (tail, r') := read_exactly (HEADER_LEN - 1) {| avail := rest; at_end := at_end r |} in
      Ok (Some (first :: tail, r'))
  end.

(** [validate_header]. *)
Definition validate_header (header : bytes) (max_frame_len : Z) : outcome CodecError Z :=
  let magic := slice 0 4 header in
  if negb (bool_decide (magic = MAGIC)) then Err (InvalidMagic magic)
  else
    let version := from_be_bytes (slice 4 6 header) in
    if negb (version =? PROTOCOL_VERSION) then Err (UnsupportedVersion version)
    else
      let flags := from_be_bytes (slice 6 8 header) in
      if negb (flags =? 0) then Err (UnsupportedFlags flags)
      else
        let payload_len := from_be_bytes (slice 8 12 header) in
        if payload_len >? max_frame_len then Err (FrameTooLarge payload_len max_frame_len)
        else Ok payload_len.

Section Messages.
Context {M : Type} (to_vec : M -> option bytes) (from_slice : bytes -> option M).

(** [read_message], and [BlockingFramed::read] with the same body. *)
Definition read_message (max_frame_len : Z) (r : Reader) : outcome CodecError (option M * Reader) :=
  let? header := read_header r in
  match header with
  | None => Ok (None, r)
  | Some (header, r1) =>
      let? payload_len := validate_header header max_frame_len in
      let? (payload, r2) := read_exactly payload_len r1 in
      match from_slice payload with
      | Some message => Ok (Some message, r2)
      | None => Err Decode
      end
  end.

(** [encode_message]. *)
Definition encode_message (max_frame_len : Z) (message : M) : outcome CodecError (bytes * bytes) :=
  let? payload := ok_or (to_vec message) Encode in
  if len payload >? max_frame_len then Err (FrameTooLarge (len payload) max_frame_len)
  else
    let? payload_len := ok_or (try_from u32_max (len payload))
                          (FrameTooLarge (len payload) max_frame_len) in
    Ok (MAGIC ++ to_be_bytes 2 PROTOCOL_VERSION ++ to_be_bytes 2 0 ++ to_be_bytes 4 payload_len,
        payload).

(** [write_message], [BlockingFramed::write]: what reaches the stream. *)
Definition write_message (max_frame_len : Z) (message : M) : outcome CodecError bytes :=
  let? (header, payload) := encode_message max_frame_len message in Ok (header ++ payload).

(** The read and write halves carry their limit. *)
Record Framed := { io : Reader; max_frame_len : Z }.
Definition with_max_frame_len (r : Reader) (limit : Z) : outcome CodecError Framed :=
  let? _ := validate_limit limit in Ok {| io := r; max_frame_len := limit |}.
Definition new (r : Reader) : Framed := {| io := r; max_frame_len := DEFAULT_MAX_FRAME_LEN |}.
Definition read (f : Framed) : outcome CodecError (option M * Framed) :=
  let? (message, r) := read_message (max_frame_len f) (io f) in
  Ok (message, {| io := r; max_frame_len := max_frame_len f |}).

(** A reader that loops until the stream ends, and a writer that sends a list. *)
Fixpoint write_all (limit : Z) (messages : list M) : outcome CodecError bytes :=
  match messages with
  | [] => Ok []
  | m :: rest =>
      let? first := write_message limit m in let? others := write_all limit rest in Ok (first ++ others)
  end.
Fixpoint read_all (fuel : nat) (f : Framed) : outcome CodecError (list M * Framed) :=
  match fuel with
  | O => Ok ([], f)
  | S fuel' =>
      let? (message, f') := read f in
      match message with
      | None => Ok ([], f')
      | Some m => let? (ms, f2) := read_all fuel' f' in Ok (m :: ms, f2)
      end
  end.
End Messages.

(** ** Lemmas *)
Definition header_of (length : Z) : bytes :=
  MAGIC ++ to_be_bytes 2 PROTOCOL_VERSION ++ to_be_bytes 2 0 ++ to_be_bytes 4 length.
Lemma len_header length : len (header_of length) = 12.
Proof. unfold header_of. autorewrite with tsc_len. done. Qed.
Lemma header_cons length : exists tl, header_of length = 84 :: tl /\ len tl = 11.
Proof.
  exists ([83; 67; 0] ++ to_be_bytes 2 PROTOCOL_VERSION ++ to_be_bytes 2 0 ++ to_be_bytes 4 length).
  split; [done|]. autorewrite with tsc_len. done.
Qed.

Lemma validate_header_ok length max :
  0 <= length <= u32_max -> validate_header (header_of length) max
  = if length >? max then Err (FrameTooLarge length max) else Ok length.
Proof.
  intros L. unfold validate_header, header_of.
  rewrite (slice_app_here 4) by done. rewrite bool_decide_true by done. cbn [negb].
  rewrite (slice_app_skip 4 6) by (vm_compute; done). change (4 - len MAGIC) with 0. change (6 - len MAGIC) with 2.
  rewrite (slice_app_here 2) by (by rewrite len_to_be_bytes).
  rewrite from_to_be_bytes by (vm_compute; done). rewrite Z.eqb_refl. cbn [negb].
  rewrite (slice_app_skip 6 8) by (vm_compute; done). change (6 - len MAGIC) with 2. change (8 - len MAGIC) with 4.
  rewrite (slice_app_skip 2 4) by (by rewrite len_to_be_bytes). rewrite len_to_be_bytes.
  change (2 - Z.of_nat 2) with 0. change (4 - Z.of_nat 2) with 2.
  rewrite (slice_app_here 2) by (by rewrite len_to_be_bytes).
  rewrite from_to_be_bytes by (vm_compute; done). cbn [negb Z.eqb].
  rewrite (slice_app_skip 8 12) by (vm_compute; done). change (8 - len MAGIC) with 4. change (12 - len MAGIC) with 8.
  rewrite (slice_app_skip 4 8) by (by rewrite len_to_be_bytes). rewrite len_to_be_bytes.
  change (4 - Z.of_nat 2) with 2. change (8 - Z.of_nat 2) with 6.
  rewrite (slice_app_skip 2 6) by (by rewrite len_to_be_bytes). rewrite len_to_be_bytes.
  change (2 - Z.of_nat 2) with 0. change (6 - Z.of_nat 2) with 4.
  rewrite (slice_whole 4) by (by rewrite len_to_be_bytes).
  rewrite from_to_be_bytes by (unfold u32_max in L; cbn; lia). done.
Qed.

Lemma read_exactly_app n a b e :
  n = len a -> read_exactly n {| avail := a ++ b; at_end := e |} = Ok (a, {| avail := b; at_end := e |}).
Proof.
  intros ->. unfold read_exactly. cbn [avail at_end].
  rewrite (proj2 (Z.leb_le _ _)) by (rewrite len_app; pose proof (len_nonneg b); lia).
  by rewrite takez_app_len, dropz_app_len.
Qed.
Lemma read_exactly_short n r : len (avail r) < n -> read_exactly n r = Err (Io (at_end r)).
Proof. intros. unfold read_exactly. by rewrite (proj2 (Z.leb_gt _ _)). Qed.
Lemma read_exactly_Ok n r a r' :
  0 <= n -> read_exactly n r = Ok (a, r') -> avail r = a ++ avail r' /\ len a = n /\ at_end r' = at_end r.
Proof.
  intros Hn. unfold read_exactly. case_match eqn:E; [|done]. intros [= <- <-]. bool_prop.
  cbn [avail at_end]. rewrite takez_dropz, len_takez by lia. split_and!; [done|lia|done].
Qed.
Lemma read_header_of length rest e :
  read_header {| avail := header_of length ++ rest; at_end := e |}
  = Ok (Some (header_of length, {| avail := rest; at_end := e |})).
Proof.
  destruct (header_cons length) as (tl & -> & L). unfold read_header. cbn [avail app at_end].
  by rewrite read_exactly_app.
Qed.

(** What a header that passes [validate_header] is. *)
Lemma validate_header_inv header max n :
  bytes_ok header -> len header = 12 -> validate_header header max = Ok n ->
  header = header_of n /\ 0 <= n <= max.
Proof.
  intros Hok L. unfold validate_header. case_match eqn:A; [done|]. case_match eqn:B; [done|].
  case_match eqn:C; [done|]. case_match eqn:D; [done|]. intros [= <-]. bool_prop.
  unfold header_of.
  assert (K : forall lo hi, 0 <= lo <= hi -> hi <= 12 -> len (slice lo hi header) = hi - lo).
  { intros lo hi ? ?. unfold slice. rewrite len_takez, len_dropz by lia. lia. }
  assert (T : forall (m : nat) lo hi, 0 <= lo <= hi -> hi <= 12 -> Z.of_nat m = hi - lo ->
    to_be_bytes m (from_be_bytes (slice lo hi header)) = slice lo hi header).
  { intros m lo hi ? ? E. apply to_from_be_bytes; [by apply slice_bytes_ok|].
    specialize (K lo hi ltac:(lia) ltac:(lia)). unfold len in K. lia. }
  pose proof (T 2%nat 4 6 ltac:(lia) ltac:(lia) ltac:(lia)) as T1. rewrite B in T1.
  pose proof (T 2%nat 6 8 ltac:(lia) ltac:(lia) ltac:(lia)) as T2. rewrite C in T2.
  rewrite (T 4%nat 8 12), T1, T2, <- A by lia. split.
  - rewrite (slice_cat 6 8 12), (slice_cat 4 6 12), (slice_cat 0 4 12) by lia.
    symmetry. by apply slice_whole.
  - pose proof (from_be_bytes_bound _ (slice_bytes_ok 8 12 header Hok)). lia.
Qed.

Section Properties.
Context {M : Type} (to_vec : M -> option bytes) (from_slice : bytes -> option M).

Lemma write_message_ok limit (m : M) bs :
  write_message to_vec limit m = Ok bs ->
  exists payload, to_vec m = Some payload /\ len payload <= limit /\ len payload <= u32_max
                  /\ bs = header_of (len payload) ++ payload.
Proof.
  unfold write_message, encode_message. destruct (to_vec m) as [payload|]; cbn [ok_or obind]; [|done].
  destruct (len payload >? limit) eqn:G; cbn [obind]; [done|].
  destruct (try_from u32_max (len payload)) as [n|] eqn:T; cbn [ok_or obind]; [|done].
  apply try_from_Some in T as [-> T]. intros [= <-]. bool_prop. exists payload.
  unfold header_of. by rewrite <- !app_assoc.
Qed.

Lemma read_message_frame limit payload rest e :
  len payload <= limit -> len payload <= u32_max ->
  read_message from_slice limit {| avail := header_of (len payload) ++ payload ++ rest; at_end := e |}
  = match from_slice payload with
    | Some m => Ok (Some m, {| avail := rest; at_end := e |})
    | None => Err Decode
    end.
Proof.
  intros L U. pose proof (len_nonneg payload). unfold read_message. rewrite read_header_of. cbn [obind].
  rewrite validate_header_ok, Z.gtb_ltb, (proj2 (Z.ltb_ge _ _)) by lia. cbn [obind].
  by rewrite read_exactly_app.
Qed.

(** A stream of messages arrives as it was sent.  Whatever list one side
    writes within a limit, a reader with the same limit gets exactly those
    messages in order and then the clean end of the stream. *)
Theorem codec_stream_roundtrip limit (messages : list M) bs fuel :
  (forall m payload, to_vec m = Some payload -> from_slice payload = Some m) ->
  write_all to_vec limit messages = Ok bs -> (length messages < fuel)%nat ->
  read_all from_slice fuel {| io := {| avail := bs; at_end := UnexpectedEof |}; max_frame_len := limit |}
  = Ok (messages, {| io := {| avail := []; at_end := UnexpectedEof |}; max_frame_len := limit |}).
Proof.
  intros RT. revert bs fuel. induction messages as [|m ms IH]; intros bs fuel W F; cbn in W.
  - injection W as <-. destruct fuel; [cbn in F; lia|done].
  - destruct (write_message to_vec limit m) as [b|e|s] eqn:E; cbn [obind] in W; try done.
    destruct (write_all to_vec limit ms) as [bs'|e|s] eqn:E'; cbn [obind] in W; try done.
    injection W as <-. destruct (write_message_ok limit m b E) as (p & T & L & U & ->).
    destruct fuel as [|fuel]; [cbn in F; lia|]. cbn [read_all]. unfold read. cbn [io max_frame_len].
    rewrite <- app_assoc, read_message_frame, (RT m p T) by done. cbn [obind].
    rewrite (IH bs' fuel) by (done || (cbn in F; lia)). done.
Qed.

(** A message cut short is an error and never a message or a clean end: of the
    bytes of one frame, any proper prefix but the empty one fails with the
    stream's error, and the empty one is the end between frames. *)
Theorem codec_truncation limit (m : M) bs cut kind :
  write_message to_vec limit m = Ok bs -> 0 <= cut < len bs ->
  read_message from_slice limit {| avail := takez cut bs; at_end := kind |}
  = (if cut =? 0
     then match kind with
          | UnexpectedEof => Ok (None, {| avail := []; at_end := kind |})
          | _ => Err (Io kind)
          end
     else Err (Io kind)).
Proof.
  intros W C. destruct (write_message_ok limit m bs W) as (p & T & L & U & ->).
  rewrite len_app, len_header in C. pose proof (len_nonneg p).
  case_match eqn:Z0; bool_prop.
  { rewrite Z0. change (takez 0 (header_of (len p) ++ p)) with (@nil Z). by destruct kind. }
  destruct (decide (cut < 12)) as [Hc|Hc].
  - destruct (header_cons (len p)) as (tl & Eh & Lt). rewrite Eh. unfold read_message, read_header.
    replace (takez cut ((84 :: tl) ++ p)) with (84 :: takez (cut - 1) (tl ++ p)).
    2:{ unfold takez. replace (Z.to_nat cut) with (S (Z.to_nat (cut - 1))) by lia. done. }
    cbn [avail at_end]. rewrite read_exactly_short; [done|]. cbn [avail]. rewrite len_takez by lia.
    unfold HEADER_LEN. lia.
  - replace (takez cut (header_of (len p) ++ p)) with (header_of (len p) ++ takez (cut - 12) p).
    2:{ unfold takez. rewrite take_app_ge; [|pose proof (len_header (len p)); unfold len in *; lia].
        do 2 f_equal. pose proof (len_header (len p)). unfold len in *. lia. }
    unfold read_message. rewrite read_header_of. cbn [obind].
    rewrite validate_header_ok, Z.gtb_ltb, (proj2 (Z.ltb_ge _ _)) by lia. cbn [obind].
    rewrite read_exactly_short; [done|]. cbn [avail]. rewrite len_takez by lia. lia.
Qed.

(** The decoder accepts only what the format allows: a message that was read
    came from a header with the right magic, version and zero flags, whose length
    is within the limit, followed by exactly that many bytes, which the
    deserializer maps to the message; the stream continues after them. *)
Theorem codec_decode_sound limit r (m : M) r' :
  bytes_ok (avail r) -> read_message from_slice limit r = Ok (Some m, r') ->
  exists payload, avail r = header_of (len payload) ++ payload ++ avail r'
    /\ len payload <= limit /\ from_slice payload = Some m /\ at_end r' = at_end r.
Proof.
  intros Hok. unfold read_message, read_header. destruct (avail r) as [|b input] eqn:Ea.
  { by destruct (at_end r). }
  destruct (read_exactly (HEADER_LEN - 1) _) as [[tl r1]|e|s] eqn:R1; cbn [obind]; try done.
  apply read_exactly_Ok in R1 as (E1 & L1 & K1); [|done]. cbn [avail at_end] in *.
  destruct (validate_header (b :: tl) limit) as [n|e|s] eqn:V; cbn [obind]; try done.
  assert (Hh : bytes_ok (b :: tl)).
  { apply Forall_cons in Hok as [Hb Hr]. rewrite E1 in Hr. apply bytes_ok_app in Hr as [? _]. by constructor. }
  apply validate_header_inv in V as [Eh Hn]; [|done|rewrite len_cons, L1; done].
  destruct (read_exactly n r1) as [[payload r2]|e|s] eqn:R2; cbn [obind]; try done.
  apply read_exactly_Ok in R2 as (E2 & L2 & K2); [|lia].
  destruct (from_slice payload) as [m0|] eqn:F; [|done]. intros [= -> ->].
  exists payload. rewrite L2, <- Eh, E1, E2. split_and!; try done; lia || congruence.
Qed.

(** An announced length above the limit is refused from the header alone,
    before any byte of the payload is read or allocated. *)
Theorem codec_oversized_refused limit length body kind :
  0 <= length <= u32_max -> limit < length ->
  read_message from_slice limit {| avail := header_of length ++ body; at_end := kind |}
  = Err (FrameTooLarge length limit).
Proof.
  intros L G. unfold read_message. rewrite read_header_of. cbn [obind].
  by rewrite validate_header_ok, Z.gtb_ltb, (proj2 (Z.ltb_lt _ _)) by lia.
Qed.
End Properties.

(** A message type whose JSON text is itself. *)
Definition text_vec (m : bytes) : option bytes := Some m.
Lemma codec_stream_roundtrip_witness :
  exists bs, write_all text_vec 16 [str "a"; str "bc"] = Ok bs
  /\ read_all (M := bytes) Some 3
       {| io := {| avail := bs; at_end := UnexpectedEof |}; max_frame_len := 16 |}
     = Ok ([str "a"; str "bc"], {| io := {| avail := []; at_end := UnexpectedEof |}; max_frame_len := 16 |}).
Proof.
  eexists. split; [vm_compute; reflexivity|].
  apply (codec_stream_roundtrip text_vec Some 16 [str "a"; str "bc"]);
    [intros m p [= ->]; reflexivity|vm_compute; reflexivity|cbn; lia].
Defined.
Lemma codec_truncation_witness :
  exists bs, write_message text_vec 16 (str "abc") = Ok bs
  /\ read_message (M := bytes) Some 16 {| avail := takez 13 bs; at_end := UnexpectedEof |}
     = Err (Io UnexpectedEof).
Proof.
  eexists. split; [vm_compute; reflexivity|].
  apply (codec_truncation text_vec Some 16 (str "abc") _ 13 UnexpectedEof);
    [vm_compute; reflexivity|vm_compute; split; [discriminate|reflexivity]].
Defined.
Lemma codec_decode_sound_witness :
  exists payload, header_of 1 ++ [65; 9] = header_of (len payload) ++ payload ++ [9]
    /\ len payload <= 4 /\ Some payload = Some [65] /\ UnexpectedEof = UnexpectedEof.
Proof.
  apply (codec_decode_sound (M := bytes) Some 4 {| avail := header_of 1 ++ [65; 9]; at_end := UnexpectedEof |}
           [65] {| avail := [9]; at_end := UnexpectedEof |}).
  - cbn [avail]. apply bytes_ok_app. split; [|repeat constructor; unfold byte_ok; lia].
    unfold header_of. rewrite !bytes_ok_app. split_and!; try apply to_be_bytes_ok.
    repeat constructor; unfold byte_ok; lia.
  - vm_compute. reflexivity.
Defined.
Lemma codec_oversized_refused_witness :
  read_message (M := bytes) Some 4 {| avail := header_of 5 ++ []; at_end := UnexpectedEof |}
  = Err (FrameTooLarge 5 4).
Proof. apply (codec_oversized_refused (M := bytes) Some 4 5 [] UnexpectedEof); unfold u32_max; lia. Defined.
End Codec.
