(* ===== verification/LinkPolicy.v ===== *)
(** * Control plane: actors and link policies

    [crates/libs/tascarrel-protocol/src/control_plane/policy/] and
    [tascarrel-api/src/operations.rs]: who a peer of the daemon topology may
    speak for.  [Policy] is the trait; the topology's constructors build
    [ActorPolicy] values.  Identifiers are their strings; a generated trace
    identifier is an argument. *)

From S2P Require Import Prelude Utf8.

(** [protocol::Actor]. *)
Inductive Actor :=
| ClientActor (client_id : bytes)
| HostActor
| WorkspaceActor (workspace : bytes)
| PodActor (workspace pod_id : bytes).
#[export] Instance Actor_eq_dec : EqDecision Actor.
Proof. solve_decision. Defined.

(** [protocol::RequestContext]. *)
Record RequestContext := {
  origin : Actor; caller : Actor; trace_id : bytes; caused_by : option bytes
}.
#[export] Instance RequestContext_eq_dec : EqDecision RequestContext.
Proof. solve_decision. Defined.

(** [protocol::OperationError], the details being message and report. *)
Inductive OperationErrorKind :=
| InvalidRequest | Forbidden | Unavailable | Overloaded | TimedOut | Internal.
Record OperationError := {
  error_kind : OperationErrorKind; message : bytes; report : option bytes
}.

(** [Actor::is_host_or_client]. *)
Definition is_host_or_client (a : Actor) : bool :=
  match a with ClientActor _ | HostActor => true | _ => false end.

(** [Policy::validate_context]; [trace] is what [TraceId::generate] returns. *)
Class Policy (P : Type) :=
  validate_context : P -> bytes -> option RequestContext -> outcome OperationError RequestContext.

Definition opening_forbidden : OperationError :=
  {| error_kind := Forbidden;
     message := str "authenticated peer is forbidden from opening operations on this link";
     report := None |}.
Definition context_required : OperationError :=
  {| error_kind := InvalidRequest; message := str "request context is required on this link";
     report := None |}.
Definition context_actor_forbidden : OperationError :=
  {| error_kind := Forbidden;
     message := str "request origin or caller is not accepted from the authenticated peer";
     report := None |}.

Inductive MissingContext := RejectMissing | AssignMissing (actor : Actor).
Record ActorPolicy := {
  missing_context : MissingContext;
  origin_rule : Actor -> bool;
  caller_rule : Actor -> bool;
}.
(** [ActorPolicy::requiring] and [assigning]. *)
Definition requiring (o c : Actor -> bool) : ActorPolicy :=
  {| missing_context := RejectMissing; origin_rule := o; caller_rule := c |}.
Definition assigning (actor : Actor) : ActorPolicy :=
  {| missing_context := AssignMissing actor;
     origin_rule := fun candidate => bool_decide (candidate = actor);
     caller_rule := fun candidate => bool_decide (candidate = actor) |}.

(** [impl Policy for ActorPolicy]. *)
Definition actor_validate (p : ActorPolicy) (trace : bytes) (context : option RequestContext)
  : outcome OperationError RequestContext :=
  match context with
  | Some c =>
      if origin_rule p (origin c) && caller_rule p (caller c) then Ok c
      else Err context_actor_forbidden
  | None =>
      match missing_context p with
      | RejectMissing => Err context_required
      | AssignMissing actor =>
          Ok {| origin := actor; caller := actor; trace_id := trace; caused_by := None |}
      end
  end.
#[export] Instance ActorPolicy_policy : Policy ActorPolicy := actor_validate.

(** [DenyAll]. *)
Inductive DenyAll := deny_all.
Definition deny_validate (p : DenyAll) (trace : bytes) (context : option RequestContext)
  : outcome OperationError RequestContext := Err opening_forbidden.
#[export] Instance DenyAll_policy : Policy DenyAll := deny_validate.

(** A function is a policy ([impl<F> Policy for F]). *)
#[export] Instance function_policy
  : Policy (option RequestContext -> outcome OperationError RequestContext) :=
  fun f _ context => f context.

(** ** [policy::topology] *)
Definition host_or_workspace (actor : Actor) (ws : bytes) : bool :=
  is_host_or_client actor
  || match actor with WorkspaceActor w => bool_decide (w = ws) | _ => false end.
Definition workspace_or_pod (actor : Actor) (ws : bytes) : bool :=
  match actor with WorkspaceActor w => bool_decide (w = ws) | _ => false end
  || match actor with PodActor w _ => bool_decide (w = ws) | _ => false end.

Definition client_to_hostd (client_id : bytes) : ActorPolicy := assigning (ClientActor client_id).
Definition hostd_to_guestd : ActorPolicy := requiring is_host_or_client is_host_or_client.
Definition guestd_to_hostd (ws : bytes) : ActorPolicy :=
  requiring (fun candidate => workspace_or_pod candidate ws)
            (fun candidate => workspace_or_pod candidate ws).
Definition guestd_to_podd (ws : bytes) : ActorPolicy :=
  requiring (fun actor => host_or_workspace actor ws) (fun actor => host_or_workspace actor ws).
Definition podd_to_guestd (ws pod : bytes) : ActorPolicy :=
  requiring (fun candidate => bool_decide (candidate = PodActor ws pod))
            (fun candidate => bool_decide (candidate = PodActor ws pod)).
Definition podctl_to_guestd (ws pod : bytes) : ActorPolicy := assigning (PodActor ws pod).

(** ** The abstract rule: which actors a link may speak for *)
Inductive Link :=
| ClientLink (client_id : bytes)
| HostToGuest
| GuestToHost (ws : bytes)
| GuestToPod (ws : bytes)
| PodToGuest (ws pod : bytes)
| PodctlToGuest (ws pod : bytes).
Definition link_policy (l : Link) : ActorPolicy :=
  match l with
  | ClientLink c => client_to_hostd c
  | HostToGuest => hostd_to_guestd
  | GuestToHost ws => guestd_to_hostd ws
  | GuestToPod ws => guestd_to_podd ws
  | PodToGuest ws pod => podd_to_guestd ws pod
  | PodctlToGuest ws pod => podctl_to_guestd ws pod
  end.
(** The actors in scope of the authenticated peer, in prose terms: a client is
    itself; the host speaks for itself and its clients; a guest for its workspace
    and the pods in it; towards a pod, a guest carries host and clients too; a
    pod is itself. *)
Definition in_scope (l : Link) (a : Actor) : Prop :=
  match l with
  | ClientLink c => a = ClientActor c
  | HostToGuest => a = HostActor \/ exists c, a = ClientActor c
  | GuestToHost ws => a = WorkspaceActor ws \/ exists pod, a = PodActor ws pod
  | GuestToPod ws => a = HostActor \/ (exists c, a = ClientActor c) \/ a = WorkspaceActor ws
  | PodToGuest ws pod | PodctlToGuest ws pod => a = PodActor ws pod
  end.
(** Links on which the daemon assigns the identity. *)
Definition assigned (l : Link) : option Actor :=
  match l with
  | ClientLink c => Some (ClientActor c)
  | PodctlToGuest ws pod => Some (PodActor ws pod)
  | _ => None
  end.

(** One constructor of [Actor] against a boolean rule. *)
Ltac actor_cases :=
  cbn; rewrite ?orb_false_r, ?bool_decide_eq_true;
  split; [intros X; try discriminate X; subst; eauto
         |intros X; destruct_or?; destr_and; try congruence;
          repeat match goal with H : exists _, _ |- _ => destruct H end; congruence].
Lemma rules_scope l a :
  (origin_rule (link_policy l) a = true <-> in_scope l a)
  /\ (caller_rule (link_policy l) a = true <-> in_scope l a).
Proof.
  assert (H : forall ws, host_or_workspace a ws = true
    <-> a = HostActor \/ (exists c, a = ClientActor c) \/ a = WorkspaceActor ws).
  { intros ws. unfold host_or_workspace. destruct a; actor_cases. }
  assert (H' : forall ws, workspace_or_pod a ws = true
    <-> a = WorkspaceActor ws \/ exists pod, a = PodActor ws pod).
  { intros ws. unfold workspace_or_pod. destruct a; actor_cases. }
  assert (H'' : is_host_or_client a = true <-> a = HostActor \/ exists c, a = ClientActor c).
  { destruct a; actor_cases. }
  destruct l; cbn; rewrite ?bool_decide_eq_true; auto.
Qed.
Lemma missing_assigned l :
  missing_context (link_policy l) = match assigned l with Some a => AssignMissing a | None => RejectMissing end.
Proof. by destruct l. Qed.

(** Every link confines its peer to the authenticated scope.  A supplied
    context is admitted, unchanged, exactly when both its origin and its caller
    are actors the link may speak for; a context outside the scope is forbidden.
    Without a context the links with an assigned identity get that identity as
    origin and caller with a fresh trace and no cause, and the others refuse. *)
Theorem link_policy_confines l trace context :
  match context with
  | Some c =>
      (validate_context (link_policy l) trace context = Ok c
       /\ in_scope l (origin c) /\ in_scope l (caller c))
      \/ (validate_context (link_policy l) trace context = Err context_actor_forbidden
          /\ ~ (in_scope l (origin c) /\ in_scope l (caller c)))
  | None =>
      validate_context (link_policy l) trace context
      = match assigned l with
        | Some a => Ok {| origin := a; caller := a; trace_id := trace; caused_by := None |}
        | None => Err context_required
        end
  end.
Proof.
  unfold validate_context, ActorPolicy_policy, actor_validate. destruct context as [c|].
  - destruct (rules_scope l (origin c)) as [Ho _], (rules_scope l (caller c)) as [_ Hc].
    destruct (origin_rule (link_policy l) (origin c)) eqn:E1,
      (caller_rule (link_policy l) (caller c)) eqn:E2; cbn [andb].
    + left. split; [done|]. split; [by apply Ho|by apply Hc].
    + right. split; [done|]. intros [_ X%Hc]. congruence.
    + right. split; [done|]. intros [X%Ho _]. congruence.
    + right. split; [done|]. intros [X%Ho _]. congruence.
  - rewrite missing_assigned. by destruct (assigned l).
Qed.

(** A workspace cannot impersonate another one: whatever a guest daemon
    sends on its host link, no admitted context names a client, the host, or an
    actor of a different workspace. *)
Theorem guest_cannot_impersonate ws trace context c :
  validate_context (guestd_to_hostd ws) trace context = Ok c ->
  forall a, a = origin c \/ a = caller c ->
    is_host_or_client a = false
    /\ match a with WorkspaceActor w | PodActor w _ => w = ws | _ => False end.
Proof.
  intros H a Ha. change (guestd_to_hostd ws) with (link_policy (GuestToHost ws)) in H.
  unfold validate_context, ActorPolicy_policy, actor_validate in H. destruct context as [c'|]; [|done].
  case_match eqn:E; [|done]. injection H as ->. apply andb_true_iff in E as [E1 E2].
  apply rules_scope in E1, E2. cbn in E1, E2.
  destruct Ha as [-> | ->]; [destruct E1 as [->|[? ->]]|destruct E2 as [->|[? ->]]]; done.
Qed.
Lemma guest_cannot_impersonate_witness :
  is_host_or_client (PodActor (str "alpha") (str "p")) = false.
Proof.
  apply (guest_cannot_impersonate (str "alpha") (str "t")
    (Some {| origin := PodActor (str "alpha") (str "p"); caller := WorkspaceActor (str "alpha");
             trace_id := str "t"; caused_by := None |}) _ eq_refl). by left.
Defined.
