(* ===== verification/LinkState.v ===== *)
(** * Control plane: operation lifecycles and subscription credit of one link

    [LinkState] of [crates/libs/tascarrel-protocol/src/control_plane/state.rs],
    the driver turn around it ([Driver::run], [send_command] of [mod.rs]) and
    [render_operation_error].  Identifiers are their strings; the opaque parts of
    a message (target, name, input, output) are one byte string.  Rendering a
    report is outside the repository, a parameter. *)

From S2P Require Import Prelude Utf8 LinkPolicy.

Module Link.

Definition FINISHED_SUBSCRIPTION_HISTORY_CAPACITY : Z := 1024.

(** [control_plane::Error], the variant the state machine reports. *)
Inductive Error := Protocol (message : bytes).
#[export] Instance Error_eq_dec : EqDecision Error.
Proof. solve_decision. Defined.
Definition protocol_error (m : string) : Error := Protocol (str m).

(** [protocol::RpcMessage], [SubscriptionMessage] and [Message]. *)
Inductive RpcMessage :=
| Invoke (id : bytes) (context : option RequestContext) (body : bytes)
| Cancel (id : bytes)
| Canceled (id : bytes)
| RpcCompleted (id : bytes) (output : bytes)
| RpcFailed (id : bytes) (error : OperationError).
Inductive SubscriptionMessage :=
| Subscribe (id : bytes) (context : option RequestContext) (body : bytes)
| GrantCredit (id : bytes) (events : Z)
| Event (id : bytes) (event : bytes)
| Unsubscribe (id : bytes)
| Completed (id : bytes)
| Failed (id : bytes) (error : OperationError).
Inductive Message :=
| Control (data : bytes)
| Rpc (m : RpcMessage)
| Subscription (m : SubscriptionMessage).

Record LinkState := {
  inbound_rpcs : gset bytes;
  outbound_rpcs : gset bytes;
  inbound_subscriptions : gmap bytes Z;
  outbound_subscriptions : gmap bytes Z;
  finished_inbound : gset bytes;
  finished_inbound_order : list bytes;
  finished_outbound : gset bytes;
  finished_outbound_order : list bytes;
}.
#[export] Instance LinkState_eta : Eta LinkState := fun x => {|
  inbound_rpcs := inbound_rpcs x; outbound_rpcs := outbound_rpcs x;
  inbound_subscriptions := inbound_subscriptions x;
  outbound_subscriptions := outbound_subscriptions x;
  finished_inbound := finished_inbound x; finished_inbound_order := finished_inbound_order x;
  finished_outbound := finished_outbound x; finished_outbound_order := finished_outbound_order x |}.
Definition LinkState_default : LinkState := {|
  inbound_rpcs := ∅; outbound_rpcs := ∅; inbound_subscriptions := ∅; outbound_subscriptions := ∅;
  finished_inbound := ∅; finished_inbound_order := []; finished_outbound := ∅;
  finished_outbound_order := [] |}.

Inductive Received := Deliver (m : Message) | Reject (m : Message) | Ignore.
Inductive StateUpdate :=
| NoUpdate
| AddOutboundRpc (id : bytes)
| RemoveInboundRpc (id : bytes)
| AddOutboundSubscription (id : bytes)
| RemoveInboundSubscription (id : bytes)
| SetInboundCredit (id : bytes) (credit : Z)
| SetOutboundCredit (id : bytes) (credit : Z).

(** [require]. *)
Definition require (condition : bool) (m : string) : outcome Error unit :=
  if condition then Ok tt else Err (protocol_error m).

(** A bounded history of finished identifiers: the set and its insertion order.
    The [while] loop of [remember_finished_*_subscription]. *)
Fixpoint trim (order : list bytes) (finished : gset bytes) : list bytes * gset bytes :=
  match order with
  | [] => ([], finished)
  | expired :: rest =>
      if len order >? FINISHED_SUBSCRIPTION_HISTORY_CAPACITY
      then trim rest (finished ∖ {[expired]}) else (order, finished)
  end.
(** [remember_finished_*_subscription]; the assertion is a panic. *)
Definition remember (id : bytes) (finished : gset bytes) (order : list bytes)
  : outcome Error (list bytes * gset bytes) :=
  if bool_decide (id ∈ finished) then Panic "active subscription IDs are unique"
  else Ok (trim (order ++ [id]) ({[id]} ∪ finished)).
(** [forget_finished_*_subscription]. *)
Definition forget (id : bytes) (finished : gset bytes) (order : list bytes)
  : list bytes * gset bytes :=
  if bool_decide (id ∈ finished)
  then (List.filter (fun f => negb (bool_decide (f = id))) order, finished ∖ {[id]})
  else (order, finished).

Definition remember_finished_inbound (id : bytes) (s : LinkState) : outcome Error LinkState :=
  let? (order, finished) := remember id (finished_inbound s) (finished_inbound_order s) in
  Ok (s <| finished_inbound := finished |> <| finished_inbound_order := order |>).
Definition remember_finished_outbound (id : bytes) (s : LinkState) : outcome Error LinkState :=
  let? (order, finished) := remember id (finished_outbound s) (finished_outbound_order s) in
  Ok (s <| finished_outbound := finished |> <| finished_outbound_order := order |>).
Definition forget_finished_inbound (id : bytes) (s : LinkState) : LinkState :=
  let '(order, finished) := forget id (finished_inbound s) (finished_inbound_order s) in
  s <| finished_inbound := finished |> <| finished_inbound_order := order |>.
Definition forget_finished_outbound (id : bytes) (s : LinkState) : LinkState :=
  let '(order, finished) := forget id (finished_outbound s) (finished_outbound_order s) in
  s <| finished_outbound := finished |> <| finished_outbound_order := order |>.

(** [consume_credit]. *)
Definition consume_credit (subs : gmap bytes Z) (id : bytes) (unknown exhausted : string)
  : outcome Error (gmap bytes Z) :=
  match subs !! id with
  | None => Err (protocol_error unknown)
  | Some available =>
      if available =? 0 then Err (protocol_error exhausted)
      else Ok (<[id := available - 1]> subs)
  end.

Section Receive.
Context {P : Type} `{Policy P} (policy : P) (trace : bytes).
(** [report.render(..)]. *)
Context (render : OperationError -> bytes).

(** [render_operation_error]. *)
Definition render_operation_error (e : OperationError) : OperationError :=
  match report e with
  | None => {| error_kind := error_kind e; message := message e; report := Some (render e) |}
  | Some _ => e
  end.

(** [receive_rpc]: [Some failure] is a rejected opening; the message carries the
    validated context on. *)
Definition receive_rpc (rpc : RpcMessage) (s : LinkState)
  : outcome Error (LinkState * (RpcMessage * option Message)) :=
  match rpc with
  | Invoke id context body =>
      if bool_decide (id ∈ inbound_rpcs s)
      then Err (protocol_error "peer reused an active RPC invocation ID")
      else
        match validate_context policy trace context with
        | Ok validated =>
            Ok (s <| inbound_rpcs := {[id]} ∪ inbound_rpcs s |>, (Invoke id (Some validated) body, None))
        | Err error =>
            Ok (s, (rpc, Some (Rpc (RpcFailed id (render_operation_error error)))))
        | Panic m => Panic m
        end
  | Cancel id =>
      let? _ := require (bool_decide (id ∈ inbound_rpcs s))
                  "peer cancelled an unknown RPC invocation" in
      Ok (s, (rpc, None))
  | Canceled id =>
      let? _ := require (bool_decide (id ∈ outbound_rpcs s))
                  "peer canceled an unknown RPC invocation" in
      Ok (s <| outbound_rpcs := outbound_rpcs s ∖ {[id]} |>, (rpc, None))
  | RpcCompleted id _ =>
      let? _ := require (bool_decide (id ∈ outbound_rpcs s))
                  "peer completed an unknown RPC invocation" in
      Ok (s <| outbound_rpcs := outbound_rpcs s ∖ {[id]} |>, (rpc, None))
  | RpcFailed id _ =>
      let? _ := require (bool_decide (id ∈ outbound_rpcs s))
                  "peer failed an unknown RPC invocation" in
      Ok (s <| outbound_rpcs := outbound_rpcs s ∖ {[id]} |>, (rpc, None))
  end.

(** [receive_subscription]. *)
Definition receive_subscription (sub : SubscriptionMessage) (s : LinkState)
  : outcome Error (LinkState * Received) :=
  match sub with
  | Subscribe id context body =>
      if bool_decide (is_Some (inbound_subscriptions s !! id))
      then Err (protocol_error "peer reused an active subscription ID")
      else
        match validate_context policy trace context with
        | Ok validated =>
            let s1 := forget_finished_inbound id s in
            Ok (s1 <| inbound_subscriptions := <[id := 0]> (inbound_subscriptions s1) |>,
                Deliver (Subscription (Subscribe id (Some validated) body)))
        | Err error =>
            Ok (s, Reject (Subscription (Failed id (render_operation_error error))))
        | Panic m => Panic m
        end
  | GrantCredit id events =>
      match inbound_subscriptions s !! id with
      | None =>
          if bool_decide (id ∈ finished_inbound s) then Ok (s, Ignore)
          else Err (protocol_error "peer granted credit to an unknown subscription")
      | Some available =>
          match checked_add u64_max available events with
          | Some updated =>
              Ok (s <| inbound_subscriptions := <[id := updated]> (inbound_subscriptions s) |>,
                  Deliver (Subscription sub))
          | None => Err (protocol_error "subscription credit overflowed")
          end
      end
  | Event id _ =>
      let? subs := consume_credit (outbound_subscriptions s) id
                     "peer emitted an event for an unknown subscription"
                     "peer emitted an event without credit" in
      Ok (s <| outbound_subscriptions := subs |>, Deliver (Subscription sub))
  | Unsubscribe id =>
      if negb (bool_decide (is_Some (inbound_subscriptions s !! id))) then
        if bool_decide (id ∈ finished_inbound s) then Ok (s, Ignore)
        else Err (protocol_error "peer stopped an unknown subscription")
      else Ok (s, Deliver (Subscription sub))
  | Completed id =>
      let? _ := require (bool_decide (is_Some (outbound_subscriptions s !! id)))
                  "peer completed an unknown subscription" in
      let? s1 := remember_finished_outbound id
                   (s <| outbound_subscriptions := delete id (outbound_subscriptions s) |>) in
      Ok (s1, Deliver (Subscription sub))
  | Failed id _ =>
      let? _ := require (bool_decide (is_Some (outbound_subscriptions s !! id)))
                  "peer failed an unknown subscription" in
      let? s1 := remember_finished_outbound id
                   (s <| outbound_subscriptions := delete id (outbound_subscriptions s) |>) in
      Ok (s1, Deliver (Subscription sub))
  end.

(** [LinkState::receive]. *)
Definition receive (m : Message) (s : LinkState) : outcome Error (LinkState * Received) :=
  match m with
  | Control _ => Ok (s, Deliver m)
  | Rpc rpc =>
      let? (s', (rpc', failure)) := receive_rpc rpc s in
      match failure with
      | Some f => Ok (s', Reject f)
      | None => Ok (s', Deliver (Rpc rpc'))
      end
  | Subscription sub => receive_subscription sub s
  end.
End Receive.

Definition finish_inbound_rpc (id : bytes) (s : LinkState) : outcome Error StateUpdate :=
  let? _ := require (bool_decide (id ∈ inbound_rpcs s)) "cannot finish an unknown RPC invocation" in
  Ok (RemoveInboundRpc id).
Definition finish_inbound_subscription (id : bytes) (s : LinkState) : outcome Error StateUpdate :=
  let? _ := require (bool_decide (is_Some (inbound_subscriptions s !! id)))
              "cannot finish an unknown subscription" in
  Ok (RemoveInboundSubscription id).

(** [LinkState::prepare_send]. *)
Definition prepare_send (m : Message) (s : LinkState) : outcome Error StateUpdate :=
  match m with
  | Control _ => Ok NoUpdate
  | Rpc (Invoke id _ _) =>
      if bool_decide (id ∈ outbound_rpcs s)
      then Err (protocol_error "RPC invocation ID is already active")
      else Ok (AddOutboundRpc id)
  | Rpc (Cancel id) =>
      let? _ := require (bool_decide (id ∈ outbound_rpcs s))
                  "cannot cancel an unknown RPC invocation" in
      Ok NoUpdate
  | Rpc (Canceled id) | Rpc (RpcCompleted id _) | Rpc (RpcFailed id _) => finish_inbound_rpc id s
  | Subscription (Subscribe id _ _) =>
      if bool_decide (is_Some (outbound_subscriptions s !! id))
      then Err (protocol_error "subscription ID is already active")
      else Ok (AddOutboundSubscription id)
  | Subscription (GrantCredit id events) =>
      match outbound_subscriptions s !! id with
      | None =>
          if bool_decide (id ∈ finished_outbound s) then Ok NoUpdate
          else Err (protocol_error "cannot grant credit to an unknown subscription")
      | Some available =>
          match checked_add u64_max available events with
          | Some updated => Ok (SetOutboundCredit id updated)
          | None => Err (protocol_error "subscription credit overflowed")
          end
      end
  | Subscription (Event id _) =>
      match inbound_subscriptions s !! id with
      | None => Err (protocol_error "cannot emit an event for an unknown subscription")
      | Some available =>
          if available =? 0
          then Err (protocol_error "cannot emit a subscription event without credit")
          else Ok (SetInboundCredit id (available - 1))
      end
  | Subscription (Unsubscribe id) =>
      if negb (bool_decide (is_Some (outbound_subscriptions s !! id))) then
        if bool_decide (id ∈ finished_outbound s) then Ok NoUpdate
        else Err (protocol_error "cannot stop an unknown subscription")
      else Ok NoUpdate
  | Subscription (Completed id) | Subscription (Failed id _) => finish_inbound_subscription id s
  end.

(** [LinkState::commit]. *)
Definition commit (update : StateUpdate) (s : LinkState) : outcome Error LinkState :=
  match update with
  | NoUpdate => Ok s
  | AddOutboundRpc id => Ok (s <| outbound_rpcs := {[id]} ∪ outbound_rpcs s |>)
  | RemoveInboundRpc id => Ok (s <| inbound_rpcs := inbound_rpcs s ∖ {[id]} |>)
  | AddOutboundSubscription id =>
      let s1 := forget_finished_outbound id s in
      Ok (s1 <| outbound_subscriptions := <[id := 0]> (outbound_subscriptions s1) |>)
  | RemoveInboundSubscription id =>
      remember_finished_inbound id
        (s <| inbound_subscriptions := delete id (inbound_subscriptions s) |>)
  | SetInboundCredit id credit =>
      Ok (s <| inbound_subscriptions := <[id := credit]> (inbound_subscriptions s) |>)
  | SetOutboundCredit id credit =>
      Ok (s <| outbound_subscriptions := <[id := credit]> (outbound_subscriptions s) |>)
  end.

(** [Driver::send_command]: the message reaches the transport between the
    check and the commit; an error of the check is the caller's. *)
Definition send (m : Message) (s : LinkState) : outcome Error LinkState :=
  let? update := prepare_send m s in commit update s.

End Link.
