(* ===== verification/LinkThms.v ===== *)
(** * Control plane: what one link guarantees

    The invariant of [LinkState] over every sequence of messages received from
    any peer and sent by the application, credit accounting, admission of
    openings, controls that cross a terminal message, and the two crossings the
    state machine does not tolerate. *)

From S2P Require Import Prelude Utf8 LinkPolicy LinkState.
Import Link.

(** ** Histories *)
Definition hist_ok (finished : gset bytes) (order : list bytes) : Prop :=
  finished = list_to_set order /\ NoDup order /\ len order <= FINISHED_SUBSCRIPTION_HISTORY_CAPACITY.

Lemma trim_spec order finished :
  NoDup order -> finished = list_to_set order ->
  hist_ok (trim order finished).2 (trim order finished).1
  /\ (trim order finished).1 `suffix_of` order.
Proof.
  revert finished. induction order as [|x order IH]; intros finished Hnd ->; cbn [trim].
  - by repeat split.
  - apply NoDup_cons in Hnd as [Hx Hnd].
    destruct (len (x :: order) >? _) eqn:G; bool_prop.
    + destruct (IH (list_to_set (x :: order) ∖ {[x]}) Hnd) as [H1 H2].
      { apply leibniz_equiv. set_solver. }
      split; [done|]. by apply suffix_cons_r.
    + repeat split; try done. by constructor.
Qed.

(** The newest identifier is never trimmed. *)
Lemma trim_last order id finished :
  exists order' finished', trim (order ++ [id]) finished = (order' ++ [id], finished').
Proof.
  revert finished. induction order as [|x order IH]; intros finished; cbn [app trim].
  - by exists [], finished.
  - case_match; [apply IH|]. by exists (x :: order), finished.
Qed.

Lemma remember_spec id finished order :
  hist_ok finished order -> ~ (id ∈ finished) ->
  exists o f, remember id finished order = Ok (o, f) /\ hist_ok f o /\ id ∈ f /\ f ⊆ {[id]} ∪ finished.
Proof.
  intros (Ef & Hnd & HL) Hid. unfold remember. rewrite bool_decide_false by done.
  assert (E : {[id]} ∪ finished = list_to_set (order ++ [id])).
  { rewrite Ef, list_to_set_app_L. apply leibniz_equiv. set_solver. }
  destruct (trim_spec (order ++ [id]) ({[id]} ∪ finished)) as [H1 [pre H2]]; [|done|].
  { apply NoDup_app. split_and!; [done| |apply NoDup_singleton]. set_solver. }
  destruct (trim_last order id ({[id]} ∪ finished)) as (o' & f' & Et). rewrite Et in *. cbn in *.
  exists (o' ++ [id]), f'. split_and!; try done; destruct H1 as (-> & _).
  - rewrite list_to_set_app_L. set_solver.
  - rewrite E, H2, list_to_set_app_L. set_solver.
Qed.

Lemma forget_spec id finished order :
  hist_ok finished order ->
  hist_ok (forget id finished order).2 (forget id finished order).1
  /\ (forget id finished order).2 = finished ∖ {[id]}.
Proof.
  intros (Ef & Hnd & HL). unfold forget. case_bool_decide as D; cbn.
  - split; [|done]. subst finished. split_and!.
    + apply leibniz_equiv. intros x. rewrite elem_of_difference, !elem_of_list_to_set, elem_of_singleton.
      rewrite !list_elem_of_In, filter_In, negb_true_iff, bool_decide_eq_false. done.
    + apply NoDup_ListNoDup, List.NoDup_filter. by apply NoDup_ListNoDup.
    + pose proof (List.filter_length_le (fun f => negb (bool_decide (f = id))) order). unfold len in *. lia.
  - split; [done|]. apply leibniz_equiv. set_solver.
Qed.

(** ** The invariant *)
Record link_inv (s : LinkState) : Prop := {
  li_in : hist_ok (finished_inbound s) (finished_inbound_order s);
  li_out : hist_ok (finished_outbound s) (finished_outbound_order s);
  li_in_fresh : forall id, is_Some (inbound_subscriptions s !! id) -> ~ (id ∈ finished_inbound s);
  li_out_fresh : forall id, is_Some (outbound_subscriptions s !! id) -> ~ (id ∈ finished_outbound s);
  li_in_credit : forall id c, inbound_subscriptions s !! id = Some c -> in_range u64_max c;
  li_out_credit : forall id c, outbound_subscriptions s !! id = Some c -> in_range u64_max c;
}.

(** Messages as the wire types allow them: a grant is a [u32]. *)
Definition message_ok (m : Message) : Prop :=
  match m with Subscription (GrantCredit _ n) => in_range u32_max n | _ => True end.

Definition kept (o : outcome Error LinkState) : Prop :=
  match o with Ok s => link_inv s | Err _ => True | Panic _ => False end.

Ltac link_fields I := destruct I; constructor; cbn; try assumption.

Lemma set_in_inv s id c :
  link_inv s -> in_range u64_max c -> ~ (id ∈ finished_inbound s) ->
  link_inv (s <| inbound_subscriptions := <[id := c]> (inbound_subscriptions s) |>).
Proof.
  intros I Hc Hf. link_fields I; intros j; destruct (decide (j = id)) as [->|N];
    rewrite ?lookup_insert_eq, ?lookup_insert_ne by done; try done; try (by intros ? [= <-]); eauto.
Qed.
Lemma set_out_inv s id c :
  link_inv s -> in_range u64_max c -> ~ (id ∈ finished_outbound s) ->
  link_inv (s <| outbound_subscriptions := <[id := c]> (outbound_subscriptions s) |>).
Proof.
  intros I Hc Hf. link_fields I; intros j; destruct (decide (j = id)) as [->|N];
    rewrite ?lookup_insert_eq, ?lookup_insert_ne by done; try done; try (by intros ? [= <-]); eauto.
Qed.
Lemma rpcs_inv s i o : link_inv s -> link_inv (s <| inbound_rpcs := i |> <| outbound_rpcs := o |>).
Proof. intros I. by link_fields I. Qed.

Lemma finish_in_inv s id :
  link_inv s -> is_Some (inbound_subscriptions s !! id) ->
  exists s', remember_finished_inbound id
      (s <| inbound_subscriptions := delete id (inbound_subscriptions s) |>) = Ok s'
    /\ link_inv s' /\ id ∈ finished_inbound s' /\ inbound_subscriptions s' !! id = None.
Proof.
  intros I Hid. destruct (remember_spec id _ _ (li_in _ I) (li_in_fresh _ I id Hid)) as (o & f & E & Hh & Hin & Hs).
  unfold remember_finished_inbound. cbn. rewrite E. cbn. eexists. split; [reflexivity|].
  split; [|split; [done|apply lookup_delete_eq]].
  link_fields I.
  - intros j. rewrite lookup_delete_is_Some. intros [N Hj] X. apply (li_in_fresh0 j Hj). set_solver.
  - intros j c. rewrite lookup_delete_Some. intros [_ ?]. eauto.
Qed.
Lemma finish_out_inv s id :
  link_inv s -> is_Some (outbound_subscriptions s !! id) ->
  exists s', remember_finished_outbound id
      (s <| outbound_subscriptions := delete id (outbound_subscriptions s) |>) = Ok s'
    /\ link_inv s' /\ id ∈ finished_outbound s' /\ outbound_subscriptions s' !! id = None.
Proof.
  intros I Hid. destruct (remember_spec id _ _ (li_out _ I) (li_out_fresh _ I id Hid)) as (o & f & E & Hh & Hin & Hs).
  unfold remember_finished_outbound. cbn. rewrite E. cbn. eexists. split; [reflexivity|].
  split; [|split; [done|apply lookup_delete_eq]].
  link_fields I.
  - intros j. rewrite lookup_delete_is_Some. intros [N Hj] X. apply (li_out_fresh0 j Hj). set_solver.
  - intros j c. rewrite lookup_delete_Some. intros [_ ?]. eauto.
Qed.
Lemma forget_in_inv s id :
  link_inv s -> link_inv (forget_finished_inbound id s)
  /\ ~ (id ∈ finished_inbound (forget_finished_inbound id s)).
Proof.
  intros I. destruct (forget_spec id _ _ (li_in _ I)) as [Hh E]. unfold forget_finished_inbound.
  destruct (forget _ _ _) as [o f]. cbn in *. split; [|set_solver].
  link_fields I. intros j Hj X. apply (li_in_fresh0 j Hj). set_solver.
Qed.
Lemma forget_out_inv s id :
  link_inv s -> link_inv (forget_finished_outbound id s)
  /\ ~ (id ∈ finished_outbound (forget_finished_outbound id s)).
Proof.
  intros I. destruct (forget_spec id _ _ (li_out _ I)) as [Hh E]. unfold forget_finished_outbound.
  destruct (forget _ _ _) as [o f]. cbn in *. split; [|set_solver].
  link_fields I. intros j Hj X. apply (li_out_fresh0 j Hj). set_solver.
Qed.

Section Endpoint.
Context {P : Type} `{Policy P} (policy : P) (render : OperationError -> bytes).
(** What the policy returns is a value, never a panic. *)
Context (Hpolicy : forall trace context, no_panic (validate_context policy trace context)).

Lemma receive_inv trace m s :
  message_ok m -> link_inv s ->
  match receive policy trace render m s with
  | Ok (s', _) => link_inv s'
  | Err _ => True
  | Panic _ => False
  end.
Proof.
  intros Hm I. destruct m as [d|rpc|sub]; cbn; [done| |].
  - destruct rpc as [id c b|id|id|id o|id e]; cbn; unfold require; case_bool_decide; cbn; try done;
      try (by apply (rpcs_inv s (inbound_rpcs s))).
    specialize (Hpolicy trace c). destruct (validate_context policy trace c) as [v|e|x]; cbn; try done.
    by apply (rpcs_inv s _ (outbound_rpcs s)).
  - destruct sub as [id c b|id n|id ev|id|id|id e]; cbn.
    + case_bool_decide; [done|]. specialize (Hpolicy trace c).
      destruct (validate_context policy trace c) as [v|e|x]; cbn; try done.
      destruct (forget_in_inv s id I) as [I1 F1]. apply set_in_inv; [done| |done].
      unfold in_range, u64_max. lia.
    + destruct (inbound_subscriptions s !! id) as [a|] eqn:E; [|by case_bool_decide].
      destruct (checked_add _ _ _) as [u|] eqn:A; [|done]. apply checked_add_Some in A as [-> A].
      pose proof (li_in_credit _ I id a E). unfold in_range in *. cbn in Hm. unfold in_range in Hm.
      apply set_in_inv; [done|unfold in_range; lia|]. apply (li_in_fresh _ I). by eexists.
    + unfold consume_credit. destruct (outbound_subscriptions s !! id) as [a|] eqn:E; [|done].
      destruct (a =? 0) eqn:Z0; cbn; [done|]. bool_prop. pose proof (li_out_credit _ I id a E). unfold in_range in *.
      apply set_out_inv; [done|unfold in_range; lia|]. apply (li_out_fresh _ I). by eexists.
    + by repeat case_bool_decide.
    + unfold require. case_bool_decide as D; cbn; [|done].
      destruct (finish_out_inv s id I D) as (s' & -> & I' & _). done.
    + unfold require. case_bool_decide as D; cbn; [|done].
      destruct (finish_out_inv s id I D) as (s' & -> & I' & _). done.
Qed.
End Endpoint.

Lemma finish_sub_kept id s :
  link_inv s -> kept (let? u := finish_inbound_subscription id s in commit u s).
Proof.
  intros I. unfold finish_inbound_subscription, require. case_bool_decide as D; cbn; [|done].
  by destruct (finish_in_inv s id I D) as (s' & -> & I' & _).
Qed.

Lemma send_inv m s : message_ok m -> link_inv s -> kept (send m s).
Proof.
  intros Hm I. unfold send. destruct m as [d|[id c b|id|id|id o|id e]|[id c b|id n|id ev|id|id|id e]];
    cbn [prepare_send]; try (by apply finish_sub_kept);
    unfold finish_inbound_rpc, require; try done.
  - case_bool_decide; [done|]. by apply (rpcs_inv s (inbound_rpcs s)).
  - by case_bool_decide.
  - case_bool_decide; [|done]. by apply (rpcs_inv s _ (outbound_rpcs s)).
  - case_bool_decide; [|done]. by apply (rpcs_inv s _ (outbound_rpcs s)).
  - case_bool_decide; [|done]. by apply (rpcs_inv s _ (outbound_rpcs s)).
  - case_bool_decide; [done|]. cbn. destruct (forget_out_inv s id I) as [I1 F1].
    apply set_out_inv; [done| |done]. unfold in_range, u64_max. lia.
  - destruct (outbound_subscriptions s !! id) as [a|] eqn:E; [|by case_bool_decide].
    destruct (checked_add _ _ _) as [u|] eqn:A; [|done]. apply checked_add_Some in A as [-> A]. cbn.
    pose proof (li_out_credit _ I id a E). cbn in Hm. unfold in_range in *.
    apply set_out_inv; [done|unfold in_range; lia|]. apply (li_out_fresh _ I). by eexists.
  - destruct (inbound_subscriptions s !! id) as [a|] eqn:E; [|done]. destruct (a =? 0) eqn:Z0; [done|]. bool_prop. cbn.
    pose proof (li_in_credit _ I id a E). unfold in_range in *.
    apply set_in_inv; [done|unfold in_range; lia|]. apply (li_in_fresh _ I). by eexists.
  - by repeat case_bool_decide.
Qed.

(** ** Runs of one endpoint *)
Inductive act := ARecv (trace : bytes) (m : Message) | ASend (m : Message).
Definition act_message (a : act) : Message := match a with ARecv _ m | ASend m => m end.

Section Runs.
Context {P : Type} `{Policy P} (policy : P) (render : OperationError -> bytes).

(** One driver turn: a local error is the caller's and changes nothing; a peer's
    protocol error ends the link. *)
Definition turn (a : act) (s : LinkState) : option LinkState :=
  match a with
  | ARecv trace m =>
      match receive policy trace render m s with Ok (s', _) => Some s' | _ => None end
  | ASend m => match send m s with Ok s' => Some s' | Err _ => Some s | Panic _ => None end
  end.
Fixpoint turns (l : list act) (s : LinkState) : option LinkState :=
  match l with
  | [] => Some s
  | a :: rest => match turn a s with Some s' => turns rest s' | None => None end
  end.

Context (Hpolicy : forall trace context, no_panic (validate_context policy trace context)).

Lemma turn_inv a s s' : message_ok (act_message a) -> turn a s = Some s' -> link_inv s -> link_inv s'.
Proof.
  intros Hm E I. destruct a as [trace m|m]; cbn in *.
  - pose proof (receive_inv policy render Hpolicy trace m s Hm I) as R.
    destruct (receive _ _ _ _ _) as [[s1 r]|e|x]; try done. by injection E as <-.
  - pose proof (send_inv m s Hm I) as R. destruct (send m s) as [s1|e|x]; try done; by injection E as <-.
Qed.
Lemma turns_inv l s s' :
  Forall (fun a => message_ok (act_message a)) l -> turns l s = Some s' -> link_inv s -> link_inv s'.
Proof.
  intros Hl. revert s. induction Hl as [|a l Ha _ IH]; intros s; cbn; [by intros [= ->]|].
  destruct (turn a s) as [s1|] eqn:E; [|done]. intros T I. apply (IH s1 T). by eapply turn_inv.
Qed.
End Runs.

Lemma default_inv : link_inv LinkState_default.
Proof.
  constructor; cbn; try (intros ? ?; by rewrite ?lookup_empty); try (intros ? [? X]; by rewrite lookup_empty in X);
    split_and!; try done; constructor.
Qed.

(** The wire messages a schedule may use. *)
Notation schedule_ok l := (Forall (fun a => message_ok (act_message a)) l).

(** Whatever the peer sends and the application attempts, a link remembers at
    most 1024 finished subscriptions in each direction, never counts an active
    one as finished, keeps every credit within [u64], and cannot panic: the
    assertions that active identifiers are unique always hold. *)
Theorem link_bounded {P} `{Policy P} (policy : P) render l s :
  (forall trace context, no_panic (validate_context policy trace context)) ->
  schedule_ok l -> turns policy render l LinkState_default = Some s ->
  Z.of_nat (size (finished_inbound s)) <= 1024 /\ Z.of_nat (size (finished_outbound s)) <= 1024
  /\ (forall id c, inbound_subscriptions s !! id = Some c -> in_range u64_max c /\ ~ (id ∈ finished_inbound s))
  /\ (forall id c, outbound_subscriptions s !! id = Some c -> in_range u64_max c /\ ~ (id ∈ finished_outbound s))
  /\ (forall trace m, message_ok m -> no_panic (receive policy trace render m s))
  /\ (forall m, message_ok m -> no_panic (send m s)).
Proof.
  intros Hp Hl T. pose proof (turns_inv policy render Hp l _ _ Hl T default_inv) as I.
  split_and!.
  - destruct (li_in _ I) as (-> & N & L). by rewrite size_list_to_set.
  - destruct (li_out _ I) as (-> & N & L). by rewrite size_list_to_set.
  - intros id c E. split; [by eapply li_in_credit|]. apply (li_in_fresh _ I). by eexists.
  - intros id c E. split; [by eapply li_out_credit|]. apply (li_out_fresh _ I). by eexists.
  - intros trace m Hm. pose proof (receive_inv policy render Hp trace m s Hm I) as R.
    by destruct (receive _ _ _ _ _).
  - intros m Hm. pose proof (send_inv m s Hm I) as R. by destruct (send m s).
Qed.

(** ** Credit *)

(** Does the message end or restart subscription [id] that the peer opened? *)
Definition touches (id : bytes) (a : act) : bool :=
  match a with
  | ASend (Subscription (Completed i)) | ASend (Subscription (Failed i _))
  | ARecv _ (Subscription (Subscribe i _ _)) => bool_decide (i = id)
  | _ => false
  end.
Definition granted (id : bytes) (a : act) : Z :=
  match a with
  | ARecv _ (Subscription (GrantCredit i n)) => if bool_decide (i = id) then n else 0
  | _ => 0
  end.
Section Credit.
Context {P : Type} `{Policy P} (policy : P) (render : OperationError -> bytes).

(** Did this turn put an event of [id] on the wire? *)
Definition emitted (id : bytes) (a : act) (s : LinkState) : Z :=
  match a with
  | ASend (Subscription (Event i ev)) =>
      if bool_decide (i = id) && is_ok (send (Subscription (Event i ev)) s) then 1 else 0
  | _ => 0
  end.
Fixpoint total_granted (id : bytes) (l : list act) : Z :=
  match l with [] => 0 | a :: rest => granted id a + total_granted id rest end.
Fixpoint total_emitted (id : bytes) (l : list act) (s : LinkState) : Z :=
  match l with
  | [] => 0
  | a :: rest =>
      emitted id a s + match turn policy render a s with Some s' => total_emitted id rest s' | None => 0 end
  end.

(** Updates at another identifier leave the credit of [id] alone. *)
Lemma forget_in_subs id s : inbound_subscriptions (forget_finished_inbound id s) = inbound_subscriptions s.
Proof. unfold forget_finished_inbound. by destruct (forget _ _ _). Qed.
Lemma remember_in_subs id s s' :
  remember_finished_inbound id s = Ok s' -> inbound_subscriptions s' = inbound_subscriptions s.
Proof.
  unfold remember_finished_inbound. destruct (remember _ _ _) as [[o f]| |]; cbn; [|done..]. by intros [= <-].
Qed.
Lemma remember_out_subs id s s' :
  remember_finished_outbound id s = Ok s' -> inbound_subscriptions s' = inbound_subscriptions s.
Proof.
  unfold remember_finished_outbound. destruct (remember _ _ _) as [[o f]| |]; cbn; [|done..]. by intros [= <-].
Qed.

Lemma recv_credit trace m id s s' r c :
  receive policy trace render m s = Ok (s', r) -> touches id (ARecv trace m) = false ->
  inbound_subscriptions s !! id = Some c ->
  inbound_subscriptions s' !! id = Some (c + granted id (ARecv trace m)).
Proof.
  intros E T Hc. destruct m as [d|rpc|sub]; cbn in *.
  - injection E as <- _. by rewrite Z.add_0_r.
  - rewrite Z.add_0_r. destruct rpc; cbn in E; unfold require in E; case_bool_decide; cbn in E; try done;
      try (by injection E as <- _).
    destruct (validate_context _ _ _); cbn in E; try done; by injection E as <- _.
  - destruct sub as [i x b|i n|i ev|i|i|i e]; cbn in *; rewrite ?Z.add_0_r.
    + apply bool_decide_eq_false in T. case_bool_decide; [done|].
      destruct (validate_context _ _ _); cbn in E; try done; injection E as <- _; cbn; [|done].
      by rewrite forget_in_subs, lookup_insert_ne.
    + destruct (decide (i = id)) as [->|N].
      * rewrite Hc in E. rewrite bool_decide_true by done. destruct (checked_add _ _ _) as [u|] eqn:A; [|done].
        apply checked_add_Some in A as [-> _]. injection E as <- _. cbn. by rewrite lookup_insert_eq.
      * rewrite bool_decide_false, Z.add_0_r by done. destruct (inbound_subscriptions s !! i).
        -- destruct (checked_add _ _ _) as [u|]; [|done]. injection E as <- _. cbn. by rewrite lookup_insert_ne.
        -- case_bool_decide; [|done]. by injection E as <- _.
    + destruct (consume_credit _ _ _ _); cbn in E; try done. by injection E as <- _.
    + repeat case_bool_decide; cbn in E; try done; by injection E as <- _.
    + unfold require in E. case_bool_decide; cbn in E; [|done].
      destruct (remember_finished_outbound _ _) as [s1| |] eqn:R; cbn in E; try done.
      injection E as <- _. by rewrite (remember_out_subs _ _ _ R).
    + unfold require in E. case_bool_decide; cbn in E; [|done].
      destruct (remember_finished_outbound _ _) as [s1| |] eqn:R; cbn in E; try done.
      injection E as <- _. by rewrite (remember_out_subs _ _ _ R).
Qed.

Lemma send_credit m id s s' c :
  send m s = Ok s' -> touches id (ASend m) = false -> inbound_subscriptions s !! id = Some c ->
  exists c', inbound_subscriptions s' !! id = Some c'
    /\ c = c' + emitted id (ASend m) s.
Proof.
  intros E T Hc.
  assert (Keep : inbound_subscriptions s' !! id = Some c -> emitted id (ASend m) s = 0 ->
    exists c', inbound_subscriptions s' !! id = Some c'
      /\ c = c' + emitted id (ASend m) s).
  { intros K Z0. exists c. rewrite Z0. split; [done|lia]. }
  pose proof E as E0.
  unfold send in E. destruct m as [d|[i x b|i|i|i o|i e]|[i x b|i n|i ev|i|i|i e]]; cbn in E.
  - injection E as <-. by apply Keep.
  - case_bool_decide; cbn in E; [done|]. injection E as <-. by apply Keep.
  - unfold require in E. case_bool_decide; cbn in E; [|done]. injection E as <-. by apply Keep.
  - unfold finish_inbound_rpc, require in E. case_bool_decide; cbn in E; [|done]. injection E as <-. by apply Keep.
  - unfold finish_inbound_rpc, require in E. case_bool_decide; cbn in E; [|done]. injection E as <-. by apply Keep.
  - unfold finish_inbound_rpc, require in E. case_bool_decide; cbn in E; [|done]. injection E as <-. by apply Keep.
  - case_bool_decide; cbn in E; [done|]. injection E as <-. apply Keep; [|done]. cbn.
    unfold forget_finished_outbound. by destruct (forget _ _ _).
  - destruct (outbound_subscriptions s !! i).
    + destruct (checked_add _ _ _); cbn in E; [|done]. injection E as <-. by apply Keep.
    + case_bool_decide; cbn in E; [|done]. injection E as <-. by apply Keep.
  - destruct (decide (i = id)) as [->|N].
    + cbn. rewrite E0, bool_decide_true by done. cbn. rewrite Hc in E.
      destruct (c =? 0) eqn:Z0; [done|]. bool_prop. cbn in E. injection E as <-. exists (c - 1). cbn.
      rewrite lookup_insert_eq. split; [done|lia].
    + destruct (inbound_subscriptions s !! i); [|done]. destruct (_ =? 0); [done|]. cbn in E.
      injection E as <-. apply Keep; cbn; [by rewrite lookup_insert_ne|]. by rewrite bool_decide_false.
  - repeat (case_bool_decide; cbn in E); try done; injection E as <-; by apply Keep.
  - apply bool_decide_eq_false in T.
    unfold finish_inbound_subscription, require in E. case_bool_decide; cbn in E; [|done].
    apply Keep; [|done]. rewrite (remember_in_subs _ _ _ E). cbn. by rewrite lookup_delete_ne.
  - apply bool_decide_eq_false in T.
    unfold finish_inbound_subscription, require in E. case_bool_decide; cbn in E; [|done].
    apply Keep; [|done]. rewrite (remember_in_subs _ _ _ E). cbn. by rewrite lookup_delete_ne.
Qed.

Lemma emitted_err id m s e : send m s = Err e -> emitted id (ASend m) s = 0.
Proof. intros E. destruct m as [| |[]]; try done. cbn. rewrite E. by rewrite andb_false_r. Qed.

Lemma credit_turns id l s s' c :
  existsb (touches id) l = false -> turns policy render l s = Some s' ->
  inbound_subscriptions s !! id = Some c ->
  exists c', inbound_subscriptions s' !! id = Some c'
    /\ c + total_granted id l = c' + total_emitted id l s.
Proof.
  revert s c. induction l as [|a l IH]; intros s c Ht T Hc; cbn in *.
  { injection T as <-. exists c. split; [done|lia]. }
  apply orb_false_iff in Ht as [Ha Hl]. destruct (turn policy render a s) as [s1|] eqn:E; [|done].
  assert (S : exists c1, inbound_subscriptions s1 !! id = Some c1
    /\ c + granted id a = c1 + emitted id a s).
  { destruct a as [trace m|m]; cbn [turn] in E.
    - destruct (receive _ _ _ _ _) as [[s2 r]|e|x] eqn:R; try done. injection E as <-.
      rewrite (recv_credit _ _ _ _ _ _ _ R Ha Hc). eexists. split; [reflexivity|]. cbn. lia.
    - destruct (send m s) as [s2|e|x] eqn:R; try done; injection E as <-.
      + destruct (send_credit m id s s2 c R Ha Hc) as (c1 & K & E1). exists c1. split; [done|]. cbn [granted]. lia.
      + exists c. split; [done|]. rewrite (emitted_err id m s e R). cbn. lia. }
  destruct S as (c1 & K & E1). destruct (IH s1 c1 Hl T K) as (c' & K' & E2). exists c'. split; [done|]. lia.
Qed.
End Credit.

(** C40: a subscription never outruns its consumer.  While a subscription the peer
    opened is neither ended nor reopened, the events this side has put on the
    wire and the credit it has left add up to the credit it had plus what the
    peer granted; in particular it emits no event that was not granted. *)
Theorem events_within_credit {P} `{Policy P} (policy : P) render pre l s s' id c :
  (forall trace context, no_panic (validate_context policy trace context)) ->
  schedule_ok pre -> schedule_ok l -> turns policy render pre LinkState_default = Some s ->
  inbound_subscriptions s !! id = Some c ->
  existsb (touches id) l = false -> turns policy render l s = Some s' ->
  exists left, inbound_subscriptions s' !! id = Some left
    /\ total_emitted policy render id l s + left = c + total_granted id l
    /\ total_emitted policy render id l s <= c + total_granted id l.
Proof.
  intros Hp Hpre Hl Tp Hc Ht T.
  pose proof (turns_inv policy render Hp pre _ _ Hpre Tp default_inv) as I.
  pose proof (turns_inv policy render Hp l _ _ Hl T I) as I'.
  destruct (credit_turns policy render id l s s' c Ht T Hc) as (c' & K & E).
  pose proof (li_in_credit _ I' id c' K) as R. unfold in_range in R.
  exists c'. split_and!; [done|lia|lia].
Qed.

(** ** Admission *)

(** No opening reaches the application without a validated context: whatever
    context the peer supplied, a delivered invocation or subscription carries the
    context the policy returned for it, and one the policy refuses is answered
    with a failure for its identifier and leaves the link's state unchanged. *)
Theorem openings_admitted_by_policy {P} `{Policy P} (policy : P) render trace id context body s :
  (forall s' m, receive policy trace render (Rpc (Invoke id context body)) s = Ok (s', Deliver m) ->
     exists c, validate_context policy trace context = Ok c /\ m = Rpc (Invoke id (Some c) body)
       /\ id ∈ inbound_rpcs s')
  /\ (forall s' m, receive policy trace render (Subscription (Subscribe id context body)) s = Ok (s', Deliver m) ->
     exists c, validate_context policy trace context = Ok c
       /\ m = Subscription (Subscribe id (Some c) body) /\ inbound_subscriptions s' !! id = Some 0)
  /\ (forall e, validate_context policy trace context = Err e ->
     (~ (id ∈ inbound_rpcs s) -> receive policy trace render (Rpc (Invoke id context body)) s
        = Ok (s, Reject (Rpc (RpcFailed id (render_operation_error render e)))))
     /\ (inbound_subscriptions s !! id = None ->
        receive policy trace render (Subscription (Subscribe id context body)) s
        = Ok (s, Reject (Subscription (Failed id (render_operation_error render e)))))).
Proof.
  split_and!.
  - intros s' m. cbn. case_bool_decide; cbn; [done|].
    destruct (validate_context _ _ _) as [c|e|x]; cbn; try done. intros [= <- <-]. exists c.
    split_and!; try done. set_solver.
  - intros s' m. cbn. case_bool_decide; cbn; [done|].
    destruct (validate_context _ _ _) as [c|e|x]; cbn; try done. intros [= <- <-]. exists c.
    split_and!; try done. apply lookup_insert_eq.
  - intros e V. cbn. rewrite V. split; intros Hn.
    + by rewrite bool_decide_false by done.
    + rewrite bool_decide_false; [done|]. rewrite Hn. by intros [? ?].
Qed.

(** Controls that cross a subscription's end are harmless: right after this
    side completed or failed a subscription of the peer, the peer's late credit
    and unsubscribe for it are ignored without touching the state; and right
    after the peer's terminal message, local late controls are accepted. *)
Theorem crossed_controls_tolerated {P} `{Policy P} (policy : P) render pre s id s1 :
  (forall trace context, no_panic (validate_context policy trace context)) ->
  schedule_ok pre -> turns policy render pre LinkState_default = Some s ->
  (send (Subscription (Completed id)) s = Ok s1 ->
   forall trace n, receive policy trace render (Subscription (GrantCredit id n)) s1 = Ok (s1, Ignore)
     /\ receive policy trace render (Subscription (Unsubscribe id)) s1 = Ok (s1, Ignore))
  /\ (forall trace r, receive policy trace render (Subscription (Completed id)) s = Ok (s1, r) ->
   forall n, send (Subscription (GrantCredit id n)) s1 = Ok s1
     /\ send (Subscription (Unsubscribe id)) s1 = Ok s1).
Proof.
  intros Hp Hpre Tp. pose proof (turns_inv policy render Hp pre _ _ Hpre Tp default_inv) as I. split.
  - unfold send. cbn. unfold finish_inbound_subscription, require. case_bool_decide as D; cbn; [|done].
    destruct (finish_in_inv s id I D) as (s' & E & _ & F & N). rewrite E. intros [= <-] trace n.
    rewrite N. rewrite (bool_decide_true _ F). split; [done|]. by rewrite bool_decide_false by (by intros [? ?]).
  - intros trace r. cbn. unfold require. case_bool_decide as D; cbn; [|done].
    destruct (finish_out_inv s id I D) as (s' & E & _ & F & N). rewrite E. cbn. intros [= <- _] n.
    unfold send. cbn. rewrite N. rewrite (bool_decide_true _ F). split; [done|].
    by rewrite bool_decide_false by (by intros [? ?]).
Qed.

(** ** Concrete links: a client session at the host *)
Definition session : ActorPolicy := client_to_hostd (str "c").
Definition plain_render (e : OperationError) : bytes := message e.
Lemma session_total trace context : no_panic (validate_context session trace context).
Proof.
  destruct context as [c|]; [|done]. unfold validate_context, ActorPolicy_policy, actor_validate. by case_match.
Qed.
Definition opened : list act :=
  [ARecv (str "t") (Subscription (Subscribe (str "s") None (str "x")));
   ARecv (str "t") (Subscription (GrantCredit (str "s") 2))].
Definition streamed : list act :=
  [ASend (Subscription (Event (str "s") (str "a"))); ARecv (str "t") (Subscription (GrantCredit (str "s") 1));
   ASend (Subscription (Event (str "s") (str "b"))); ASend (Subscription (Event (str "s") (str "c")));
   ASend (Subscription (Event (str "s") (str "d")))].
Definition state_after (l : list act) : LinkState :=
  match turns session plain_render l LinkState_default with Some s => s | None => LinkState_default end.
Lemma opened_ok : schedule_ok opened.
Proof. repeat constructor; cbn; unfold in_range, u32_max; lia. Qed.
Lemma streamed_ok : schedule_ok streamed.
Proof. repeat constructor; cbn; unfold in_range, u32_max; lia. Qed.

Lemma link_bounded_witness : Z.of_nat (size (finished_inbound (state_after opened))) <= 1024.
Proof.
  refine (proj1 (link_bounded session plain_render opened (state_after opened) session_total opened_ok _)).
  vm_compute. reflexivity.
Defined.

(** Four events attempted, three granted: the fourth is refused. *)
Lemma events_within_credit_witness :
  total_emitted session plain_render (str "s") streamed (state_after opened) = 3
  /\ total_emitted session plain_render (str "s") streamed (state_after opened)
     <= 2 + total_granted (str "s") streamed.
Proof.
  split; [vm_compute; reflexivity|].
  destruct (events_within_credit session plain_render opened streamed (state_after opened)
    (state_after (opened ++ streamed)) (str "s") 2 session_total opened_ok streamed_ok) as (left & _ & _ & L);
    [vm_compute; reflexivity..|exact L].
Defined.

Lemma openings_admitted_by_policy_witness :
  receive session (str "t") plain_render
    (Rpc (Invoke (str "i") (Some {| origin := HostActor; caller := HostActor; trace_id := []; caused_by := None |}) []))
    LinkState_default
  = Ok (LinkState_default, Reject (Rpc (RpcFailed (str "i")
          (render_operation_error plain_render context_actor_forbidden)))).
Proof.
  apply (openings_admitted_by_policy session plain_render (str "t") (str "i")
    (Some {| origin := HostActor; caller := HostActor; trace_id := []; caused_by := None |}) []
    LinkState_default); [vm_compute; reflexivity|]. apply not_elem_of_empty.
Defined.

Lemma crossed_controls_tolerated_witness :
  let s1 := state_after (opened ++ [ASend (Subscription (Completed (str "s")))]) in
  receive session (str "t") plain_render (Subscription (GrantCredit (str "s") 1)) s1 = Ok (s1, Ignore).
Proof.
  intros s1. apply (crossed_controls_tolerated session plain_render opened (state_after opened) (str "s") s1
    session_total opened_ok); vm_compute; reflexivity.
Defined.

(** ** Crossings the link does not tolerate

    Two compliant endpoints: [a] opens towards [b]. *)

(** Cancelling an RPC whose result is already on its way closes the link.
    The caller's state still allows the cancellation, which dropping the call
    sends by itself; the callee has committed its completion and treats the
    cancellation as a protocol violation, unlike the crossed controls of a
    subscription. *)
Theorem rpc_cancel_race :
  exists a b b1, send (Rpc (Invoke (str "i") None [])) LinkState_default = Ok a
    /\ (exists m, receive session (str "t") plain_render (Rpc (Invoke (str "i") None [])) LinkState_default
                  = Ok (b, Deliver m))
    /\ send (Rpc (RpcCompleted (str "i") [])) b = Ok b1
    /\ send (Rpc (Cancel (str "i"))) a = Ok a
    /\ receive session (str "t") plain_render (Rpc (Cancel (str "i"))) b1
       = Err (protocol_error "peer cancelled an unknown RPC invocation").
Proof. do 3 eexists. split_and!; [vm_compute; reflexivity|eexists; vm_compute; reflexivity|vm_compute; reflexivity..]. Qed.

(** A refused subscription closes the link if its consumer granted credit
    before the refusal arrived.  A refused opening is answered with a failure but
    not remembered as finished, so the credit that was already on its way is a
    protocol violation. *)
Theorem refused_subscription_race :
  exists a a1, send (Subscription (Subscribe (str "s") (Some {| origin := HostActor; caller := HostActor;
        trace_id := []; caused_by := None |}) [])) LinkState_default = Ok a
    /\ send (Subscription (GrantCredit (str "s") 1)) a = Ok a1
    /\ (exists f, receive session (str "t") plain_render (Subscription (Subscribe (str "s")
          (Some {| origin := HostActor; caller := HostActor; trace_id := []; caused_by := None |}) []))
          LinkState_default = Ok (LinkState_default, Reject (Subscription (Failed (str "s") f))))
    /\ receive session (str "t") plain_render (Subscription (GrantCredit (str "s") 1)) LinkState_default
       = Err (protocol_error "peer granted credit to an unknown subscription").
Proof. do 2 eexists. split_and!; [vm_compute; reflexivity..|eexists; vm_compute; reflexivity|vm_compute; reflexivity]. Qed.
