(* ===== verification/Text.v ===== *)
(** * String slices

    The [str] operations of the Rust standard library that the policy code uses,
    on the bytes of a string.  All separators and classes the code looks for are
    ASCII, for which searching bytes and searching characters agree. *)

From S2P Require Import Prelude Utf8.

Definition is_ascii_digit (b : Z) : bool := (48 <=? b) && (b <=? 57).
Definition is_ascii_uppercase (b : Z) : bool := (65 <=? b) && (b <=? 90).
Definition is_ascii_lowercase (b : Z) : bool := (97 <=? b) && (b <=? 122).
Definition is_ascii_alphabetic (b : Z) : bool := is_ascii_uppercase b || is_ascii_lowercase b.
Definition is_ascii_alphanumeric (b : Z) : bool := is_ascii_alphabetic b || is_ascii_digit b.

Definition lower_byte (b : Z) : Z := if is_ascii_uppercase b then b + 32 else b.
Definition to_ascii_lowercase (s : bytes) : bytes := map lower_byte s.

Definition contains (c : Z) (s : bytes) : bool := existsb (fun b => b =? c) s.

(** [str::strip_prefix], [str::starts_with] and [str::ends_with]. *)
Fixpoint strip_prefix (p s : bytes) : option bytes :=
  match p, s with
  | [], _ => Some s
  | x :: p', y :: s' => if x =? y then strip_prefix p' s' else None
  | _ :: _, [] => None
  end.
Definition starts_with (p s : bytes) : bool := bool_decide (is_Some (strip_prefix p s)).
Definition ends_with (suffix s : bytes) : bool :=
  (len suffix <=? len s) && bool_decide (dropz (len s - len suffix) s = suffix).

(** [str::split_once] and [str::split] on one ASCII character. *)
Fixpoint split_once (c : Z) (s : bytes) : option (bytes * bytes) :=
  match s with
  | [] => None
  | b :: s' =>
      if b =? c then Some ([], s')
      else match split_once c s' with Some (l, r) => Some (b :: l, r) | None => None end
  end.
Fixpoint split (c : Z) (s : bytes) : list bytes :=
  match s with
  | [] => [[]]
  | b :: s' =>
      if b =? c then [] :: split c s'
      else match split c s' with [] => [[b]] | l :: rest => (b :: l) :: rest end
  end.

(** [str::find] for a string: what precedes the first occurrence, and what
    follows it. *)
Fixpoint find_str (needle s : bytes) : option (bytes * bytes) :=
  match strip_prefix needle s with
  | Some rest => Some ([], rest)
  | None =>
      match s with
      | [] => None
      | b :: s' => match find_str needle s' with Some (l, r) => Some (b :: l, r) | None => None end
      end
  end.

(** [str::parse::<u16>] of a non-empty string of digits. *)
Definition parse_u16 (s : bytes) : option Z :=
  let v := fold_left (fun acc b => acc * 10 + (b - 48)) s 0 in
  if v <=? u16_max then Some v else None.

(** [str::trim] and [eq_ignore_ascii_case] on ASCII text. *)
Definition is_space (b : Z) : bool := ((9 <=? b) && (b <=? 13)) || (b =? 32).
Fixpoint trim_start (s : bytes) : bytes :=
  match s with b :: s' => if is_space b then trim_start s' else s | [] => [] end.
Definition trim (s : bytes) : bytes := reverse (trim_start (reverse (trim_start s))).
Definition eq_ignore_ascii_case (a b : bytes) : bool :=
  bool_decide (to_ascii_lowercase a = to_ascii_lowercase b).

(** [str::trim]: the characters with the property White_Space, as they are encoded. *)
Definition white_space : list bytes :=
  [[9]; [10]; [11]; [12]; [13]; [32]; [194; 133]; [194; 160]; [225; 154; 128];
   [226; 128; 128]; [226; 128; 129]; [226; 128; 130]; [226; 128; 131]; [226; 128; 132]; [226; 128; 133];
   [226; 128; 134]; [226; 128; 135]; [226; 128; 136]; [226; 128; 137]; [226; 128; 138];
   [226; 128; 168]; [226; 128; 169]; [226; 128; 175]; [226; 129; 159]; [227; 128; 128]].
Fixpoint strip_any (ps : list bytes) (s : bytes) : option bytes :=
  match ps with
  | [] => None
  | p :: ps' => match strip_prefix p s with Some rest => Some rest | None => strip_any ps' s end
  end.
Fixpoint strip_all (fuel : nat) (ps : list bytes) (s : bytes) : bytes :=
  match fuel with
  | O => s
  | S fuel' => match strip_any ps s with Some rest => strip_all fuel' ps rest | None => s end
  end.
Definition trim_text (s : bytes) : bytes :=
  let s := strip_all (length s) white_space s in
  reverse (strip_all (length s) (map reverse white_space) (reverse s)).

(** [str::contains] for a string. *)
Definition contains_str (needle s : bytes) : bool := bool_decide (is_Some (find_str needle s)).

(** ** Lemmas *)
Lemma strip_prefix_spec p s rest : strip_prefix p s = Some rest <-> s = p ++ rest.
Proof.
  revert s. induction p as [|x p IH]; intros s; cbn; [naive_solver|].
  destruct s as [|y s]; [done|]. case_match eqn:E; bool_prop.
  - subst. rewrite IH. split; [by intros ->|by intros [= ->]].
  - split; [done|]. intros [= -> _]. done.
Qed.
Lemma starts_with_spec p s : starts_with p s = true <-> exists rest, s = p ++ rest.
Proof.
  unfold starts_with. rewrite bool_decide_eq_true. unfold is_Some.
  split; intros [rest H]; exists rest; by apply strip_prefix_spec.
Qed.
Lemma ends_with_spec suffix s : ends_with suffix s = true <-> exists pre, s = pre ++ suffix.
Proof.
  unfold ends_with. rewrite andb_true_iff, bool_decide_eq_true, Z.leb_le. split.
  - intros [L E]. exists (takez (len s - len suffix) s). rewrite <- E at 2. by rewrite takez_dropz.
  - intros [pre ->]. rewrite len_app. pose proof (len_nonneg pre). split; [lia|].
    replace (len pre + len suffix - len suffix) with (len pre) by lia. by apply dropz_app_len.
Qed.
Lemma contains_spec c s : contains c s = true <-> c ∈ s.
Proof.
  unfold contains. rewrite existsb_exists. split.
  - intros (x & Hx & E). bool_prop. subst. by apply list_elem_of_In.
  - intros H%list_elem_of_In. exists c. split; [done|apply Z.eqb_refl].
Qed.
Lemma split_once_spec c s l r : split_once c s = Some (l, r) <-> s = l ++ c :: r /\ ~ (c ∈ l).
Proof.
  revert l r. induction s as [|b s IH]; intros l r; cbn.
  - split; [done|]. intros [E _]. by destruct l.
  - destruct (b =? c) eqn:E; bool_prop.
    + subst b. split.
      * intros [= <- <-]. split; [done|]. apply not_elem_of_nil.
      * intros [E N]. destruct l as [|x l]; [by injection E as ->|].
        injection E as <- _. set_solver.
    + destruct (split_once c s) as [[l' r']|] eqn:S.
      * destruct (IH l' r') as [IH1 _]. destruct (IH1 eq_refl) as [-> N]. split.
        -- intros [= <- <-]. split; [done|]. set_solver.
        -- intros [E' N']. destruct l as [|x l]; [by injection E' as -> _|]. injection E' as -> E'.
           destruct (IH l r) as [_ IH2]. assert (Some (l', r') = Some (l, r)) as X.
           { apply IH2. split; [done|set_solver]. } by injection X as <- <-.
      * split; [done|]. intros [E' N']. destruct l as [|x l]; [by injection E' as -> _|].
        injection E' as -> E'. destruct (IH l r) as [_ IH2].
        assert (None = Some (l, r)) as X by (apply IH2; split; [done|set_solver]). done.
Qed.
Lemma find_str_spec needle s l r :
  find_str needle s = Some (l, r) -> s = l ++ needle ++ r.
Proof.
  revert l r. induction s as [|b s IH]; intros l r; cbn [find_str].
  - destruct (strip_prefix needle []) as [rest|] eqn:E; [|done]. intros [= <- <-].
    by apply strip_prefix_spec in E.
  - destruct (strip_prefix needle (b :: s)) as [rest|] eqn:E.
    + intros [= <- <-]. by apply strip_prefix_spec in E.
    + destruct (find_str needle s) as [[l' r']|]; [|done]. intros [= <- <-]. cbn. f_equal. by apply IH.
Qed.
Lemma find_str_first needle s l r :
  find_str needle s = Some (l, r) -> forall l' r', s = l' ++ needle ++ r' -> len l <= len l'.
Proof.
  revert l r. induction s as [|b s IH]; intros l r; cbn [find_str].
  - destruct (strip_prefix needle []); [|done]. intros [= <- <-] l' r' _. rewrite len_nil. apply len_nonneg.
  - destruct (strip_prefix needle (b :: s)) as [rest|] eqn:E.
    + intros [= <- <-] l' r' _. rewrite len_nil. apply len_nonneg.
    + destruct (find_str needle s) as [[l1 r1]|] eqn:F; [|done]. intros [= <- <-] l' r' E'.
      destruct l' as [|x l']; cbn in E'.
      * assert (strip_prefix needle (b :: s) = Some r') as X by by apply strip_prefix_spec. congruence.
      * injection E' as -> E'. rewrite !len_cons. pose proof (IH l1 r1 eq_refl l' r' E'). lia.
Qed.
Lemma lower_idem s : to_ascii_lowercase (to_ascii_lowercase s) = to_ascii_lowercase s.
Proof.
  unfold to_ascii_lowercase. rewrite map_map. apply map_ext. intros b.
  unfold lower_byte, is_ascii_uppercase. destruct ((65 <=? b) && (b <=? 90)) eqn:E; [|by rewrite E].
  bool_prop. destruct ((65 <=? b + 32) && (b + 32 <=? 90)) eqn:E'; [|done]. bool_prop. lia.
Qed.
