(* ===== verification/SecretTemplate.v ===== *)
(** * Secret references in environment values

    [crates/libs/tascarrel-hostd/src/services/secrets/interpolation.rs] and
    [SecretReference] with its name checks of [service.rs]. *)

From S2P Require Import Prelude Utf8 Text.

Module Secrets.

(** [SecretsServiceError], with the message of an invalid request. *)
Inductive Error := InvalidRequest (message : string).

(** [validate_secret_name] and [validate_provider_name]. *)
Definition validate_secret_name (name : bytes) : outcome Error unit :=
  if bool_decide (name = str "sops")
     || negb (match name with
              | c :: _ => (c =? 95) || is_ascii_alphabetic c
              | [] => false
              end)
     || negb (forallb (fun c => (c =? 95) || is_ascii_alphanumeric c) (tail name))
  then Err (InvalidRequest "secret name must start with an ASCII letter or underscore and contain only letters, digits, and underscores; sops is reserved")
  else Ok tt.
Definition validate_provider_name (name : bytes) : outcome Error unit :=
  if negb (match name with c :: _ => is_ascii_alphabetic c | [] => false end)
     || negb (forallb (fun c => (c =? 95) || (c =? 45) || is_ascii_alphanumeric c) (tail name))
  then Err (InvalidRequest "provider name must start with an ASCII letter and contain only letters, digits, underscores, and hyphens")
  else Ok tt.

Record SecretReference := { provider : bytes; secret : bytes }.

(** [SecretReference::parse]. *)
Definition parse_reference (value : bytes) : outcome Error SecretReference :=
  match split_once 46 value with
  | None => Err (InvalidRequest "secret reference must have the form <provider>.<secret>")
  | Some (p, s) =>
      if contains 46 s
      then Err (InvalidRequest "secret reference must contain exactly one namespace separator")
      else
        let? _ := validate_provider_name p in
        let? _ := validate_secret_name s in
        Ok {| provider := p; secret := s |}
  end.

(** [SecretTemplatePart]; a [SecretTemplate] is its parts. *)
Inductive Part := Literal (value : bytes) | Secret (reference : SecretReference).

(** The [while let] loop of [SecretTemplate::parse]; each turn consumes the
    opening marker, so the length of the value bounds the turns. *)
Fixpoint parse_parts (fuel : nat) (remaining : bytes) : outcome Error (list Part) :=
  match fuel with
  | O => Panic "out of fuel"
  | S fuel' =>
      match find_str (str "${secrets.") remaining with
      | None => Ok (if bool_decide (remaining = []) then [] else [Literal remaining])
      | Some (before, reference_tail) =>
          let literal := if 0 <? len before then [Literal before] else [] in
          match split_once 125 reference_tail with
          | None => Err (InvalidRequest "secret interpolation is missing a closing brace")
          | Some (inner, rest) =>
              let? reference := parse_reference inner in
              let? parts := parse_parts fuel' rest in
              Ok (literal ++ Secret reference :: parts)
          end
      end
  end.
Definition parse (value : bytes) : outcome Error (list Part) := parse_parts (S (length value)) value.

(** [SecretTemplate::references]. *)
Definition references (parts : list Part) : list SecretReference :=
  omap (fun part => match part with Literal _ => None | Secret r => Some r end) parts.

(** [SecretTemplate::render]. *)
Fixpoint render (resolve : SecretReference -> option bytes) (parts : list Part) : option bytes :=
  match parts with
  | [] => Some []
  | Literal value :: rest =>
      match render resolve rest with Some tl => Some (value ++ tl) | None => None end
  | Secret r :: rest =>
      match resolve r with
      | Some plain => match render resolve rest with Some tl => Some (plain ++ tl) | None => None end
      | None => None
      end
  end.

(** ** Lemmas *)
Definition write_reference (r : SecretReference) : bytes :=
  str "${secrets." ++ provider r ++ [46] ++ secret r ++ [125].

Lemma parse_reference_ok v r : parse_reference v = Ok r -> v = provider r ++ [46] ++ secret r.
Proof.
  unfold parse_reference. destruct (split_once 46 v) as [[p s]|] eqn:E; [|done].
  apply split_once_spec in E as [-> _]. destruct (contains 46 s); [done|].
  destruct (validate_provider_name p); cbn [obind]; try done.
  destruct (validate_secret_name s); cbn [obind]; try done. by intros [= <-].
Qed.

Lemma parse_parts_fuel fuel v : (length v < fuel)%nat -> no_panic (parse_parts fuel v).
Proof.
  revert v. induction fuel as [|fuel IH]; intros v L; [lia|]. cbn [parse_parts].
  destruct (find_str _ v) as [[b t]|] eqn:F; [|done]. apply find_str_spec in F.
  destruct (split_once 125 t) as [[inner rest]|] eqn:S; [|done]. apply split_once_spec in S as [-> _].
  destruct (parse_reference inner) as [r|e|s] eqn:R; cbn [obind]; try done.
  - assert (N : no_panic (parse_parts fuel rest)).
    { apply IH. subst v. rewrite !length_app in L. cbn in L. lia. }
    by destruct (parse_parts fuel rest).
  - exfalso. unfold parse_reference in R. destruct (split_once 46 inner) as [[p q]|]; [|done].
    destruct (contains 46 q); [done|]. unfold validate_provider_name, validate_secret_name in R.
    repeat (match type of R with context [if ?b then _ else _] => destruct b end; cbn [obind] in R; try done).
Qed.

Lemma render_parts fuel v parts :
  parse_parts fuel v = Ok parts -> render (fun r => Some (write_reference r)) parts = Some v.
Proof.
  revert v parts. induction fuel as [|fuel IH]; intros v parts; cbn [parse_parts]; [done|].
  destruct (find_str _ v) as [[b t]|] eqn:F.
  - apply find_str_spec in F. destruct (split_once 125 t) as [[inner rest]|] eqn:S; [|done].
    apply split_once_spec in S as [-> _].
    destruct (parse_reference inner) as [r|e|s] eqn:R; cbn [obind]; try done.
    apply parse_reference_ok in R. destruct (parse_parts fuel rest) as [ps|e|s] eqn:Ps; cbn [obind]; try done.
    intros [= <-]. specialize (IH rest ps Ps).
    assert (K : render (fun r => Some (write_reference r)) (Secret r :: ps) = Some (write_reference r ++ rest)).
    { cbn [render]. by rewrite IH. }
    assert (W : write_reference r ++ rest = str "${secrets." ++ inner ++ 125 :: rest).
    { rewrite R. unfold write_reference. by rewrite <- !app_assoc. }
    destruct (0 <? len b) eqn:Lb; cbn [app]; bool_prop.
    + change (match render (fun r => Some (write_reference r)) (Secret r :: ps) with
              | Some tl => Some (b ++ tl) | None => None end = Some v). by rewrite K, W, F.
    + assert (b = []) as -> by (apply len_0; pose proof (len_nonneg b); lia). by rewrite K, W, F.
  - intros [= <-]. case_bool_decide; [by subst|]. cbn. by rewrite app_nil_r.
Qed.

(** ** Properties *)

(** Parsing a value always ends with a template or an error, and the template
    stands for exactly that value: writing each reference back in its source form
    reproduces it byte for byte, so text outside references is never changed. *)
Theorem template_roundtrip v :
  no_panic (parse v)
  /\ forall parts, parse v = Ok parts -> render (fun r => Some (write_reference r)) parts = Some v.
Proof.
  split; [apply parse_parts_fuel; lia|]. intros parts. apply render_parts.
Qed.

(** Rendering resolves every reference of the template, in order, and fails if
    any of them is missing: the result is the literals with each reference
    replaced by its plaintext. *)
Theorem render_complete resolve parts :
  (exists out, render resolve parts = Some out)
  <-> Forall (fun r => is_Some (resolve r)) (references parts).
Proof.
  induction parts as [|[v|r] parts IH]; cbn.
  - split; [constructor|]. by eexists.
  - rewrite <- IH. split; intros [out H].
    + destruct (render resolve parts) as [tl|]; [by eexists|done].
    + rewrite H. by eexists.
  - rewrite Forall_cons, <- IH. split.
    + intros [out H]. destruct (resolve r) as [p|]; [|done]. destruct (render resolve parts) as [tl|]; [|done].
      split; by eexists.
    + intros [[p ->] [tl ->]]. by eexists.
Qed.
End Secrets.
