(* ===== verification/IpAddr.v ===== *)
(** * IP addresses

    The parts of [core::net] that the network policy uses: an [Ipv4Addr] is its
    32 bits, an [Ipv6Addr] its 128 bits; their classification predicates and the
    textual parser behind [IpAddr::from_str]. *)

From S2P Require Import Prelude Utf8 Text.

Inductive IpAddr := V4 (bits : Z) | V6 (bits : Z).
#[export] Instance IpAddr_eq_dec : EqDecision IpAddr.
Proof. solve_decision. Defined.

Record SocketAddr := { ip : IpAddr; port : Z }.
#[export] Instance SocketAddr_eq_dec : EqDecision SocketAddr.
Proof. solve_decision. Defined.

Definition ip_ok (a : IpAddr) : Prop :=
  match a with V4 b => 0 <= b < 2 ^ 32 | V6 b => 0 <= b < 2 ^ 128 end.

(** [Ipv4Addr::new], [octets], [Ipv6Addr::segments]. *)
Definition ipv4 (a b c d : Z) : Z := from_be_bytes [a; b; c; d].
Definition octet (bits i : Z) : Z := Z.shiftr bits (8 * (3 - i)) mod 256.
Definition segment (bits i : Z) : Z := Z.shiftr bits (16 * (7 - i)) mod 65536.

Module V4Class.
Section preds.
Variable a : Z.
Definition is_loopback : bool := octet a 0 =? 127.
Definition is_private : bool :=
  (octet a 0 =? 10)
  || ((octet a 0 =? 172) && (16 <=? octet a 1) && (octet a 1 <=? 31))
  || ((octet a 0 =? 192) && (octet a 1 =? 168)).
Definition is_link_local : bool := (octet a 0 =? 169) && (octet a 1 =? 254).
Definition is_broadcast : bool := a =? ipv4 255 255 255 255.
Definition is_documentation : bool :=
  ((octet a 0 =? 192) && (octet a 1 =? 0) && (octet a 2 =? 2))
  || ((octet a 0 =? 198) && (octet a 1 =? 51) && (octet a 2 =? 100))
  || ((octet a 0 =? 203) && (octet a 1 =? 0) && (octet a 2 =? 113)).
Definition is_unspecified : bool := a =? 0.
Definition is_multicast : bool := (224 <=? octet a 0) && (octet a 0 <=? 239).
End preds.
End V4Class.

Module V6Class.
Section preds.
Variable a : Z.
Definition is_loopback : bool := a =? 1.
Definition is_unspecified : bool := a =? 0.
Definition is_multicast : bool := Z.land (segment a 0) 65280 =? 65280.
Definition is_unique_local : bool := Z.land (segment a 0) 65024 =? 64512.
Definition is_unicast_link_local : bool := Z.land (segment a 0) 65472 =? 65152.
End preds.
End V6Class.

(** [Ipv4Addr::to_ipv6_mapped] (::ffff:a.b.c.d). *)
Definition to_ipv6_mapped (bits : Z) : Z := 65535 * 2 ^ 32 + bits.

(** ** The parser

    A reader returns what it read and the rest of the input; a failed reader
    leaves the input where it was. *)
Definition to_digit (radix c : Z) : option Z :=
  let d := if is_ascii_digit c then c - 48
           else if is_ascii_lowercase c then c - 87
           else if is_ascii_uppercase c then c - 55 else 99 in
  if d <? radix then Some d else None.

Fixpoint read_digits (radix : Z) (s : bytes) : list Z * bytes :=
  match s with
  | c :: s' =>
      match to_digit radix c with
      | Some d => let '(ds, rest) := read_digits radix s' in (d :: ds, rest)
      | None => ([], s)
      end
  | [] => ([], [])
  end.

(** [read_number] with a maximal number of digits. *)
Definition read_number (radix max_digits limit : Z) (allow_zero_prefix : bool) (s : bytes)
  : option (Z * bytes) :=
  let '(ds, rest) := read_digits radix s in
  let v := fold_left (fun acc d => acc * radix + d) ds 0 in
  if (len ds =? 0) || (max_digits <? len ds)
     || (negb allow_zero_prefix && bool_decide (head s = Some 48) && (1 <? len ds))
     || (limit <? v)
  then None else Some (v, rest).

Definition read_given_char (c : Z) (s : bytes) : option bytes :=
  match s with b :: s' => if b =? c then Some s' else None | [] => None end.
Definition read_separator {A} (c : Z) (first : bool) (f : bytes -> option (A * bytes)) (s : bytes)
  : option (A * bytes) :=
  if first then f s
  else match read_given_char c s with Some s' => f s' | None => None end.

Fixpoint read_octets (n : nat) (first : bool) (s : bytes) : option (list Z * bytes) :=
  match n with
  | O => Some ([], s)
  | S n' =>
      match read_separator 46 first (read_number 10 3 255 false) s with
      | Some (o, s') =>
          match read_octets n' false s' with
          | Some (os, rest) => Some (o :: os, rest)
          | None => None
          end
      | None => None
      end
  end.
Definition read_ipv4_addr (s : bytes) : option (Z * bytes) :=
  match read_octets 4 true s with Some (os, rest) => Some (from_be_bytes os, rest) | None => None end.

(** [read_groups] with [limit] groups: the groups read, whether they end with an
    embedded IPv4 address, and the rest. *)
Fixpoint read_groups (limit : nat) (first : bool) (s : bytes) : list Z * bool * bytes :=
  match limit with
  | O => ([], false, s)
  | S limit' =>
      let plain :=
        match read_separator 58 first (read_number 16 4 65535 true) s with
        | Some (g, s') =>
            let '(gs, embedded, rest) := read_groups limit' false s' in (g :: gs, embedded, rest)
        | None => ([], false, s)
        end in
      match limit' with
      | O => plain
      | S _ =>
          match read_separator 58 first read_ipv4_addr s with
          | Some (v4, s') => ([Z.shiftr v4 16; v4 mod 65536], true, s')
          | None => plain
          end
      end
  end.

Definition of_groups (gs : list Z) : Z := fold_left (fun acc g => acc * 65536 + g) gs 0.

Definition read_ipv6_addr (s : bytes) : option (Z * bytes) :=
  let '(head, head_ipv4, s1) := read_groups 8 true s in
  if bool_decide (length head = 8%nat) then Some (of_groups head, s1)
  else if head_ipv4 then None
  else match read_given_char 58 s1 with
       | None => None
       | Some s2 =>
           match read_given_char 58 s2 with
           | None => None
           | Some s3 =>
               let '(tail, _, s4) := read_groups (8 - (length head + 1)) true s3 in
               Some (of_groups (head ++ replicate (8 - length head - length tail) 0 ++ tail), s4)
           end
       end.

(** [IpAddr::from_str]: everything must be consumed. *)
Definition parse_ip (s : bytes) : option IpAddr :=
  match read_ipv4_addr s with
  | Some (v4, rest) => if bool_decide (rest = []) then Some (V4 v4) else None
  | None =>
      match read_ipv6_addr s with
      | Some (v6, rest) => if bool_decide (rest = []) then Some (V6 v6) else None
      | None => None
      end
  end.

Example parse_ip_v4 : parse_ip (str "192.0.2.54") = Some (V4 (ipv4 192 0 2 54)).
Proof. vm_compute. reflexivity. Qed.
Example parse_ip_leading_zero : parse_ip (str "127.0.0.01") = None.
Proof. vm_compute. reflexivity. Qed.
Example parse_ip_v6 : parse_ip (str "fe80::1") = Some (V6 (65152 * 2 ^ 112 + 1)).
Proof. vm_compute. reflexivity. Qed.
Example parse_ip_mapped : parse_ip (str "::ffff:127.0.0.1") = Some (V6 (to_ipv6_mapped (ipv4 127 0 0 1))).
Proof. vm_compute. reflexivity. Qed.
Example parse_ip_too_long : parse_ip (str "1:2:3:4:5:6:7:8::") = None.
Proof. vm_compute. reflexivity. Qed.
Example parse_ip_all_groups : parse_ip (str "1:0:0:0:0:0:0:2") = Some (V6 (2 ^ 112 + 2)).
Proof. vm_compute. reflexivity. Qed.
