(* ===== verification/NetPolicy.v ===== *)
(** * Workspace network policy

    [crates/libs/tascarrel-hostd/src/services/network/policy.rs]: loading and
    validating one policy snapshot, host and address rules, and the live policy
    source; [PortMapping::ports] of [tascarrel-api]; [tcp_destination] of
    [network/transport.rs].

    The parsed configuration document is the argument of [load]: reading and
    parsing the file belong to the configuration service.  The [http] crate's
    method parser and the [globset] compiler are parameters.  Interpolated values
    of error messages are left out. *)

From S2P Require Import Prelude Utf8 Text SecretTemplate IpAddr.

Definition MAX_SECRET_BYTES : Z := 64 * 1024.
Definition MAX_SECRET_RULES : Z := 64.
Definition MAX_SECRET_PATHS_PER_RULE : Z := 64.
Definition MAX_SECRET_PATH_PATTERN_BYTES : Z := 2048.
Definition MAX_HOST_PORTS : Z := 64.
Definition MAX_POLICY_PORTS : Z := 256.

(** [NetworkPolicyError]. *)
Inductive NetworkPolicyError := Invalid (message : string) | HostInterfaces (message : string).

Module Net.

(** ** Port mappings *)

(** [parse_ports]: [None] is [PortMappingError]. *)
Definition all_digits (s : bytes) : bool := forallb is_ascii_digit s.
Definition parse_ports (value : bytes) : option (Z * Z) :=
  match split_once 58 value with
  | None =>
      if bool_decide (value = []) || negb (all_digits value) then None
      else match parse_u16 value with
           | None => None
           | Some p => if p =? 0 then None else Some (p, p)
           end
  | Some (host, pod) =>
      if bool_decide (host = []) || bool_decide (pod = []) || contains 58 pod
         || negb (all_digits host) || negb (all_digits pod)
      then None
      else match parse_u16 host with
           | None => None
           | Some h =>
               match parse_u16 pod with
               | None => None
               | Some p => if (h =? 0) || (p =? 0) then None else Some (h, p)
               end
           end
  end.

Inductive WorkspaceHostPort := SamePort (p : Z) | Mapping (text : bytes).

Record HostPortMapping := { host_port : Z; pod_port : Z }.

Definition host_port_mapping (mapping : WorkspaceHostPort)
  : outcome NetworkPolicyError HostPortMapping :=
  match mapping with
  | SamePort p =>
      if negb (p =? 0) then Ok {| host_port := p; pod_port := p |}
      else Err (Invalid "network host-port shorthand must be nonzero")
  | Mapping text =>
      match parse_ports text with
      | Some (h, p) => Ok {| host_port := h; pod_port := p |}
      | None => Err (Invalid "invalid port mapping")
      end
  end.

(** ** Addresses *)
Definition parse_addresses (values : option (list bytes)) : outcome NetworkPolicyError (list IpAddr) :=
  collect (fun v => ok_or (parse_ip v) (Invalid "invalid network address")) (default [] values).

Definition forbidden_address (address : IpAddr) (allow_local : bool) (host_addresses : list IpAddr)
  : bool :=
  if allow_local then false
  else match address with
       | V4 a =>
           V4Class.is_loopback a || V4Class.is_private a || V4Class.is_link_local a
           || V4Class.is_broadcast a || V4Class.is_documentation a || V4Class.is_unspecified a
           || V4Class.is_multicast a || bool_decide (V4 a ∈ host_addresses)
       | V6 a =>
           V6Class.is_loopback a || V6Class.is_unspecified a || V6Class.is_multicast a
           || V6Class.is_unique_local a || V6Class.is_unicast_link_local a
           || bool_decide (V6 a ∈ host_addresses)
       end.

(** ** Host patterns *)
Definition lower (values : list bytes) : list bytes := map to_ascii_lowercase values.

(** [host.as_bytes()[host.len() - suffix.len() - 1]] is in range: the length was
    compared before. *)
Definition host_matches (pattern host : bytes) : bool :=
  match strip_prefix (str "*.") pattern with
  | None => bool_decide (pattern = host)
  | Some suffix =>
      (len suffix <? len host) && ends_with suffix host
      && bool_decide (head (dropz (len host - len suffix - 1) host) = Some 46)
  end.

Definition validate_host_pattern (host : bytes) : outcome NetworkPolicyError unit :=
  let labels := default host (strip_prefix (str "*.") host) in
  if bool_decide (labels = []) || (253 <? len labels)
     || existsb (fun label =>
          bool_decide (label = [])
          || negb (forallb (fun b => is_ascii_alphanumeric b || (b =? 45)) label))
          (split 46 labels)
  then Err (Invalid "invalid network host pattern")
  else Ok tt.

(** ** Ports and headers *)

(** [windows(2).any(..)] on the sorted ports. *)
Fixpoint has_equal_neighbours (l : list Z) : bool :=
  match l with
  | x :: ((y :: _) as l') => (x =? y) || has_equal_neighbours l'
  | _ => false
  end.
Definition validate_ports (ports : list Z) : outcome NetworkPolicyError unit :=
  if (MAX_POLICY_PORTS <? len ports) || bool_decide (0 ∈ ports)
  then Err (Invalid "invalid network ports")
  else if has_equal_neighbours (merge_sort Z.le ports)
  then Err (Invalid "duplicate port in network ports")
  else Ok tt.

Definition valid_header_name (name : bytes) : bool :=
  negb (bool_decide (name = []))
  && forallb (fun b => is_ascii_alphanumeric b || contains b (str "!#$%&'*+-.^_`|~")) name.

Definition forbidden_headers : list bytes :=
  [str "connection"; str "content-length"; str "host"; str "keep-alive"; str "proxy-connection";
   str "te"; str "trailer"; str "transfer-encoding"; str "upgrade"].
Definition forbidden_secret_header (name : bytes) : bool :=
  bool_decide (to_ascii_lowercase name ∈ forbidden_headers).

Definition infer_placeholder (secret_name : bytes) : bytes :=
  str "tascarrel-secret:" ++ map (fun b => if b =? 95 then 45 else b) (to_ascii_lowercase secret_name).

(** ** The policy *)
Inductive GraphQlPolicy := QueriesOnly.

(** [config_api::WorkspaceSecretInjectionConfig]. *)
Record RuleConfig := {
  rc_host : bytes; rc_paths : option (list bytes); rc_methods : list bytes;
  rc_graphql : option GraphQlPolicy; rc_header : option bytes;
  rc_placeholder : option bytes; rc_secret : bytes;
}.
(** [config_api::WorkspaceNetworkConfig]. *)
Record NetworkConfig := {
  nc_host_ports : option (list WorkspaceHostPort);
  nc_default : option bytes;
  nc_allow_local : option bool;
  nc_allow_addresses : option (list bytes);
  nc_deny_addresses : option (list bytes);
  nc_allow_hosts : option (list bytes);
  nc_deny_hosts : option (list bytes);
  nc_allow_ports : option (list Z);
  nc_secret_injection : option (list RuleConfig);
  nc_http_ports : option (list Z);
  nc_https_ports : option (list Z);
}.
(** [config_api::WorkspaceSecretsConfig], by the names of its providers. *)
Record SecretsConfig := { providers : option (gset bytes) }.
Record WorkspaceConfig := { wc_secrets : option SecretsConfig; wc_network : option NetworkConfig }.

Record SecretInjection := {
  host : bytes;
  paths : list bytes;
  path_matchers : list (bytes -> bool);
  methods : list bytes;
  graphql : option GraphQlPolicy;
  header : option bytes;
  placeholder : bytes;
  reference : Secrets.SecretReference;
}.
Definition matches_path (rule : SecretInjection) (path : bytes) : bool :=
  bool_decide (length (path_matchers rule) = 0%nat) || existsb (fun m => m path) (path_matchers rule).

Record NetworkPolicy := {
  host_ports : list HostPortMapping;
  default_deny : bool;
  allow_local : bool;
  allow_addresses : list IpAddr;
  deny_addresses : list IpAddr;
  allow_hosts : list bytes;
  deny_hosts : list bytes;
  allow_ports : list Z;
  secrets : option SecretsConfig;
  secret_injection : list SecretInjection;
  http_ports : list Z;
  https_ports : list Z;
}.
#[export] Instance eta_NetworkPolicy : Eta NetworkPolicy :=
  fun r => {| host_ports := host_ports r; default_deny := default_deny r; allow_local := allow_local r;
              allow_addresses := allow_addresses r; deny_addresses := deny_addresses r;
              allow_hosts := allow_hosts r; deny_hosts := deny_hosts r; allow_ports := allow_ports r;
              secrets := secrets r; secret_injection := secret_injection r;
              http_ports := http_ports r; https_ports := https_ports r |}.

Definition default_allow_ports : list Z := [80; 443].
(** [NetworkPolicy::default] and [deny_all]. *)
Definition default_policy : NetworkPolicy :=
  {| host_ports := []; default_deny := false; allow_local := false; allow_addresses := [];
     deny_addresses := []; allow_hosts := []; deny_hosts := []; allow_ports := default_allow_ports;
     secrets := None; secret_injection := []; http_ports := [80]; https_ports := [443] |}.
Definition deny_all : NetworkPolicy :=
  default_policy <| default_deny := true |> <| allow_ports := [] |>.

Section load.
(** [hyper::Method::from_bytes] and [GlobBuilder::build] with
    [compile_matcher]. *)
Variable parse_method : bytes -> option bytes.
Variable glob : bytes -> option (bytes -> bool).

Definition compile_secret_injection_path (pattern : bytes)
  : outcome NetworkPolicyError (bytes -> bool) :=
  if negb (starts_with (str "/") pattern) || (MAX_SECRET_PATH_PATTERN_BYTES <? len pattern)
     || existsb (fun b => (b =? 13) || (b =? 10) || (b =? 35)) pattern
  then Err (Invalid "invalid HTTP secret-injection path pattern")
  else ok_or (glob pattern) (Invalid "invalid HTTP secret-injection path pattern").

(** One turn of the loop over the rules of [load]. *)
Definition load_rule (secret_providers : option SecretsConfig) (rule : RuleConfig)
  : outcome NetworkPolicyError SecretInjection :=
  let? _ := validate_host_pattern (rc_host rule) in
  let? paths :=
    match rc_paths rule with
    | None => Ok []
    | Some paths =>
        if (len paths =? 0) || (MAX_SECRET_PATHS_PER_RULE <? len paths)
        then Err (Invalid "HTTP secret-injection paths must contain between 1 and 64 patterns")
        else Ok paths
    end in
  let? path_matchers := collect compile_secret_injection_path paths in
  let? methods :=
    collect (fun m => ok_or (parse_method m) (Invalid "invalid HTTP method in secret-injection rule"))
      (rc_methods rule) in
  if bool_decide (methods = []) then Err (Invalid "HTTP secret-injection methods must not be empty")
  else if bool_decide (is_Some (rc_graphql rule)) && negb (bool_decide (methods = [str "POST"]))
  then Err (Invalid "GraphQL query-only secret injection requires exactly the POST method")
  else
    let? reference :=
      match Secrets.parse_reference (rc_secret rule) with
      | Ok r => Ok r
      | Err (Secrets.InvalidRequest m) => Err (Invalid m)
      | Panic m => Panic m
      end in
    let placeholder :=
      match rc_placeholder rule with
      | Some p => p
      | None => infer_placeholder (Secrets.secret reference)
      end in
    if match rc_header rule with
       | Some header => negb (valid_header_name header) || forbidden_secret_header header
       | None => false
       end
       || bool_decide (placeholder = []) || (MAX_SECRET_BYTES <? len placeholder)
       || existsb (fun b => (b =? 13) || (b =? 10)) placeholder
    then Err (Invalid "invalid HTTP secret-injection rule")
    else
      let configured :=
        match secret_providers with
        | Some s => match providers s with
                    | Some ps => bool_decide (Secrets.provider reference ∈ ps)
                    | None => false
                    end
        | None => false
        end in
      if negb configured
      then Err (Invalid "HTTP secret-injection rule references an unconfigured provider")
      else Ok {| host := to_ascii_lowercase (rc_host rule); paths := paths;
                 path_matchers := path_matchers; methods := methods; graphql := rc_graphql rule;
                 header := to_ascii_lowercase <$> rc_header rule; placeholder := placeholder;
                 reference := reference |}.

(** [NetworkPolicy::load], after [load_config_file]. *)
Definition load (parsed : WorkspaceConfig) : outcome NetworkPolicyError NetworkPolicy :=
  let secret_providers := wc_secrets parsed in
  match wc_network parsed with
  | None => Ok default_policy
  | Some network =>
      let? host_ports := collect host_port_mapping (default [] (nc_host_ports network)) in
      let allow_ports := default default_allow_ports (nc_allow_ports network) in
      let plain_http_ports := default [] (nc_http_ports network) in
      let tls_http_ports := default [] (nc_https_ports network) in
      let? allow_addresses := parse_addresses (nc_allow_addresses network) in
      let? deny_addresses := parse_addresses (nc_deny_addresses network) in
      let allow_hosts := default [] (nc_allow_hosts network) in
      let deny_hosts := default [] (nc_deny_hosts network) in
      let rules := default [] (nc_secret_injection network) in
      if MAX_SECRET_RULES <? len rules then Err (Invalid "too many HTTP secret-injection rules")
      else
        let? _ := validate_ports allow_ports in
        let? _ := validate_ports plain_http_ports in
        let? _ := validate_ports tls_http_ports in
        if MAX_HOST_PORTS <? len host_ports
        then Err (Invalid "network host-ports is limited to 64 entries")
        else if negb (bool_decide (size (list_to_set (map pod_port host_ports) : gset Z)
                                   = length host_ports))
        then Err (Invalid "network host-port pod-side ports must be unique")
        else
          let? secret_injection := collect (load_rule secret_providers) rules in
          let? _ := collect validate_host_pattern (allow_hosts ++ deny_hosts) in
          let? default_deny :=
            let action := default (str "allow") (nc_default network) in
            if bool_decide (action = str "allow") then Ok false
            else if bool_decide (action = str "deny") then Ok true
            else Err (Invalid "invalid network default action") in
          Ok {| host_ports := host_ports;
                default_deny := default_deny;
                allow_local := default false (nc_allow_local network);
                allow_addresses := allow_addresses;
                deny_addresses := deny_addresses;
                allow_hosts := lower allow_hosts;
                deny_hosts := lower deny_hosts;
                allow_ports := allow_ports;
                secrets := secret_providers;
                secret_injection := secret_injection;
                http_ports := if bool_decide (plain_http_ports = []) then [80] else plain_http_ports;
                https_ports := if bool_decide (tls_http_ports = []) then [443] else tls_http_ports |}
  end.
End load.

(** ** Policy queries *)
Definition needs_hostname_inspection (p : NetworkPolicy) : bool :=
  negb (bool_decide (length (secret_injection p) = 0%nat))
  || negb (bool_decide (allow_hosts p = [])) || negb (bool_decide (deny_hosts p = [])).
Definition injects_secret_for_host (p : NetworkPolicy) (h : bytes) : bool :=
  existsb (fun rule => host_matches (host rule) h) (secret_injection p).
Definition host_allowed (p : NetworkPolicy) (h : bytes) : bool :=
  let h := to_ascii_lowercase h in
  if existsb (fun rule => host_matches rule h) (deny_hosts p) then false
  else existsb (fun rule => host_matches rule h) (allow_hosts p) || negb (default_deny p).
(** [interfaces] is what [host_interface_addresses] returns. *)
Definition address_allowed (p : NetworkPolicy) (interfaces : outcome NetworkPolicyError (list IpAddr))
    (address : IpAddr) : outcome NetworkPolicyError bool :=
  if bool_decide (address ∈ deny_addresses p) then Ok false
  else let? host_addresses := interfaces in
       Ok (negb (forbidden_address address (allow_local p) host_addresses)).

(** ** The live policy source *)

(** [NetworkPolicySource::open]: the published policy and [initial_error];
    [loaded] is what [NetworkPolicy::load] returns. *)
Definition open_source (loaded : outcome NetworkPolicyError NetworkPolicy)
  : outcome NetworkPolicyError (NetworkPolicy * option NetworkPolicyError) :=
  match loaded with
  | Ok policy => Ok (policy, None)
  | Err error => Ok (deny_all, Some error)
  | Panic m => Panic m
  end.
(** One debounced batch of [run_policy_watcher]: [messages] tells of each event
    of the batch and of the overflow flag whether the watcher failed. *)
Definition reload (current : NetworkPolicy) (messages : list bool)
    (loaded : outcome NetworkPolicyError NetworkPolicy) : NetworkPolicy :=
  if existsb id messages then current
  else match loaded with Ok policy => policy | _ => current end.

(** ** TCP admission *)
Definition VIRTUAL_HOST_ADDRESS : Z := ipv4 192 0 2 54.

Inductive ProxyMode := Http | Https.
Inductive TcpDestination := Socket (a : SocketAddr) | ConfiguredHost (host : bytes) (port : Z).
Inductive TcpAdmissionError := TcpInvalid | TcpDenied | TcpUnavailable (error : NetworkPolicyError).

Definition proxy_mode_for_port (p : NetworkPolicy) (port : Z) : option ProxyMode :=
  if bool_decide (port ∈ http_ports p) then Some Http
  else if bool_decide (port ∈ https_ports p) then Some Https
  else None.

Definition tcp_destination (requested : SocketAddr) (p : NetworkPolicy)
    (pod_host_forward : option SocketAddr) (host_port_host : bytes)
    (interfaces : outcome NetworkPolicyError (list IpAddr))
  : outcome TcpAdmissionError (TcpDestination * option ProxyMode) :=
  if bool_decide (ip requested = V4 VIRTUAL_HOST_ADDRESS) then
    let proxy := proxy_mode_for_port p (port requested) in
    match pod_host_forward with
    | Some destination => Ok (Socket destination, proxy)
    | None =>
        let? mapping := ok_or (List.find (fun m => pod_port m =? port requested) (host_ports p)) TcpDenied in
        Ok (ConfiguredHost host_port_host (host_port mapping), proxy)
    end
  else if negb (bool_decide (port requested ∈ allow_ports p)) then Err TcpDenied
  else
    let proxy :=
      if needs_hostname_inspection p then proxy_mode_for_port p (port requested) else None in
    if bool_decide (is_Some proxy) then Ok (Socket requested, proxy)
    else
      match interfaces with
      | Err e => Err (TcpUnavailable e)
      | Panic m => Panic m
      | Ok host_addresses =>
          if bool_decide (ip requested ∉ deny_addresses p)
             && (negb (default_deny p) || bool_decide (ip requested ∈ allow_addresses p))
             && negb (forbidden_address (ip requested) (allow_local p) host_addresses)
          then Ok (Socket requested, None)
          else Err TcpDenied
      end.

(** [TcpFlowOpenRequest::validate] and the admission of [serve_tcp_channel]. *)
Definition admit_tcp (source_port : Z) (requested : SocketAddr) (p : NetworkPolicy)
    (pod_host_forward : option SocketAddr) (host_port_host : bytes)
    (interfaces : outcome NetworkPolicyError (list IpAddr))
  : outcome TcpAdmissionError (TcpDestination * option ProxyMode) :=
  if (source_port =? 0) || (port requested =? 0) then Err TcpInvalid
  else tcp_destination requested p
         (if bool_decide (ip requested = V4 VIRTUAL_HOST_ADDRESS) then pod_host_forward else None)
         host_port_host interfaces.
End Net.
