(* ===== verification/NetPolicyThms.v ===== *)
(** * Network policy: theorems

    What a loaded policy guarantees, how host patterns match, and which TCP flows
    are admitted. *)

From S2P Require Import Prelude Utf8 Text SecretTemplate IpAddr NetPolicy.
Import Net.

(** ** Text lemmas *)
Lemma lower_byte_46 b : lower_byte b = 46 <-> b = 46.
Proof.
  unfold lower_byte, is_ascii_uppercase. destruct ((65 <=? b) && (b <=? 90)) eqn:E; [|done].
  bool_prop. lia.
Qed.
Lemma split_nonempty c s : split c s <> [].
Proof. destruct s as [|b s]; cbn; [done|]. destruct (b =? c); [done|]. by destruct (split c s). Qed.
Lemma split_lower s : split 46 (to_ascii_lowercase s) = map to_ascii_lowercase (split 46 s).
Proof.
  induction s as [|b s IH]; [done|]. cbn [to_ascii_lowercase map split].
  fold (to_ascii_lowercase s). pose proof (lower_byte_46 b) as L.
  destruct (b =? 46) eqn:E; bool_prop.
  - subst. cbn. by rewrite IH.
  - destruct (lower_byte b =? 46) eqn:E'; bool_prop; [tauto|]. rewrite IH.
    pose proof (split_nonempty 46 s). by destruct (split 46 s).
Qed.
Lemma len_lower s : len (to_ascii_lowercase s) = len s.
Proof. unfold len, to_ascii_lowercase. by rewrite length_map. Qed.

(** ** Host patterns *)

(** A character of a normalized host name. *)
Definition host_char (b : Z) : Prop := is_ascii_lowercase b = true \/ is_ascii_digit b = true \/ b = 45.
(** A normalized host pattern: an optional wildcard before non-empty labels. *)
Definition host_pattern (h : bytes) : Prop :=
  exists labels, (h = labels \/ h = str "*." ++ labels)
    /\ 0 < len labels <= 253
    /\ Forall (fun l => l <> [] /\ Forall host_char l) (split 46 labels).

Lemma lower_host_char b :
  is_ascii_alphanumeric b || (b =? 45) = true -> host_char (lower_byte b).
Proof.
  unfold is_ascii_alphanumeric, is_ascii_alphabetic, host_char, lower_byte.
  intros H. destruct (is_ascii_uppercase b) eqn:U.
  - left. unfold is_ascii_uppercase, is_ascii_lowercase in *. bool_prop.
    apply andb_true_iff. rewrite !Z.leb_le. lia.
  - cbn in H. apply orb_true_iff in H as [H|H]; bool_prop; [|by right; right].
    apply orb_true_iff in H. tauto.
Qed.

Lemma labels_ok labels :
  existsb (fun label => bool_decide (label = [])
     || negb (forallb (fun b => is_ascii_alphanumeric b || (b =? 45)) label)) (split 46 labels) = false ->
  Forall (fun l => l <> [] /\ Forall host_char l) (split 46 (to_ascii_lowercase labels)).
Proof.
  rewrite split_lower. intros E. apply Forall_map. apply Forall_forall. intros l Hl.
  assert (F : bool_decide (l = []) || negb (forallb (fun b => is_ascii_alphanumeric b || (b =? 45)) l) = false).
  { destruct (_ || _) eqn:X; [|done]. rewrite <- E. symmetry. apply existsb_exists.
    exists l. split; [by apply list_elem_of_In|done]. }
  bool_prop. split.
  - by destruct l.
  - apply Forall_map. apply Forall_forall. intros b Hb. apply lower_host_char.
    match goal with H : forallb _ _ = true |- _ => rewrite forallb_forall in H; apply H end.
    by apply list_elem_of_In.
Qed.

Lemma validate_host_pattern_ok h :
  validate_host_pattern h = Ok tt -> host_pattern (to_ascii_lowercase h).
Proof.
  unfold validate_host_pattern.
  destruct (strip_prefix (str "*.") h) as [labels|] eqn:P; cbn [default from_option id].
  - apply strip_prefix_spec in P as ->. destruct (_ || _) eqn:E; [done|]. intros _. bool_prop.
    exists (to_ascii_lowercase labels). rewrite len_lower. split_and!.
    + right. unfold to_ascii_lowercase. by rewrite map_app.
    + assert (len labels <> 0) by (intros X%len_0; done). pose proof (len_nonneg labels). lia.
    + done.
    + by apply labels_ok.
  - destruct (_ || _) eqn:E; [done|]. intros _. bool_prop.
    exists (to_ascii_lowercase h). rewrite len_lower. split_and!.
    + by left.
    + assert (len h <> 0) by (intros X%len_0; done). pose proof (len_nonneg h). lia.
    + done.
    + by apply labels_ok.
Qed.

Lemma validate_hosts_ok hosts us :
  collect validate_host_pattern hosts = Ok us -> Forall host_pattern (lower hosts).
Proof.
  intros F%collect_Ok. apply Forall_map. induction F as [|h [] hs us E F IH]; constructor; [|done].
  by apply validate_host_pattern_ok.
Qed.

Lemma head_dropz_46 p s : head (dropz (len (p ++ 46 :: s) - len s - 1) (p ++ 46 :: s)) = Some 46.
Proof.
  rewrite dropz_app_len; [done|]. rewrite len_app, len_cons. lia.
Qed.

(** ** Ports *)
Definition port_list_ok (ports : list Z) : Prop :=
  len ports <= MAX_POLICY_PORTS /\ Forall (in_range u16_max) ports /\ 0 ∉ ports /\ NoDup ports.

Lemma neighbours_NoDup l :
  StronglySorted Z.le l -> has_equal_neighbours l = false -> NoDup l.
Proof.
  induction l as [|x l IH]; intros S N; [constructor|].
  apply StronglySorted_inv in S as [S F]. destruct l as [|y l].
  - constructor; [set_solver|constructor].
  - cbn [has_equal_neighbours] in N. apply orb_false_iff in N as [E N]. bool_prop.
    constructor; [|by apply IH].
    intros [->|Hx]%elem_of_cons; [done|].
    apply StronglySorted_inv in S as [_ F']. rewrite Forall_forall in F'. specialize (F' x Hx).
    inversion F; subst. lia.
Qed.

Lemma validate_ports_ok ports :
  Forall (in_range u16_max) ports -> validate_ports ports = Ok tt -> port_list_ok ports.
Proof.
  unfold validate_ports, port_list_ok. intros R.
  destruct (_ || _) eqn:E; [done|]. destruct (has_equal_neighbours _) eqn:N; [done|]. intros _. bool_prop.
  split_and!; [lia|done|done|].
  rewrite <- (merge_sort_Permutation Z.le ports). apply neighbours_NoDup; [|done].
  apply StronglySorted_merge_sort; [intros a b c; lia|intros a b; lia].
Qed.

Lemma parse_u16_range s v : Forall (fun b => is_ascii_digit b = true) s -> parse_u16 s = Some v -> in_range u16_max v.
Proof.
  intros F. unfold parse_u16, in_range. case_match eqn:E; [|done]. intros [= <-]. bool_prop. split; [|done].
  assert (G : forall acc, 0 <= acc -> 0 <= fold_left (fun acc b => acc * 10 + (b - 48)) s acc).
  { clear E. induction F as [|b s D F IH]; intros acc A; cbn; [done|]. apply IH.
    unfold is_ascii_digit in D. bool_prop. lia. }
  by apply G.
Qed.
Lemma all_digits_Forall s : all_digits s = true -> Forall (fun b => is_ascii_digit b = true) s.
Proof. unfold all_digits. rewrite forallb_forall, Forall_forall. intros H x Hx. apply H. by apply list_elem_of_In. Qed.

(** Both ports of a mapping are real ports. *)
Definition mapping_ok (m : HostPortMapping) : Prop :=
  1 <= host_port m <= u16_max /\ 1 <= pod_port m <= u16_max.

Lemma parse_ports_ok v h p : parse_ports v = Some (h, p) -> 1 <= h <= u16_max /\ 1 <= p <= u16_max.
Proof.
  unfold parse_ports. destruct (split_once 58 v) as [[a b]|].
  - destruct (_ || _) eqn:E; [done|]. bool_prop.
    repeat match goal with H : all_digits _ = true |- _ => apply all_digits_Forall in H end.
    destruct (parse_u16 a) as [x|] eqn:Px; [|done]. destruct (parse_u16 b) as [y|] eqn:Py; [|done].
    destruct ((x =? 0) || (y =? 0)) eqn:Z; [done|]. intros [= <- <-]. bool_prop.
    apply parse_u16_range in Px; [|done]. apply parse_u16_range in Py; [|done]. unfold in_range in *. lia.
  - destruct (_ || _) eqn:E; [done|]. bool_prop.
    repeat match goal with H : all_digits _ = true |- _ => apply all_digits_Forall in H end.
    destruct (parse_u16 v) as [x|] eqn:Px; [|done]. destruct (x =? 0) eqn:Z; [done|]. intros [= <- <-].
    bool_prop. apply parse_u16_range in Px; [|done]. unfold in_range in *. lia.
Qed.
Definition host_port_typed (m : WorkspaceHostPort) : Prop :=
  match m with SamePort p => in_range u16_max p | Mapping _ => True end.
Lemma host_port_mapping_ok c m : host_port_typed c -> host_port_mapping c = Ok m -> mapping_ok m.
Proof.
  destruct c as [p|t]; cbn; intros T.
  - destruct (p =? 0) eqn:E; cbn; [done|]. intros [= <-]. bool_prop. unfold mapping_ok, in_range in *. cbn. lia.
  - destruct (parse_ports t) as [[h p]|] eqn:P; [|done]. intros [= <-]. by apply parse_ports_ok in P.
Qed.
Lemma host_port_mappings_ok cs ms :
  Forall host_port_typed cs -> collect host_port_mapping cs = Ok ms -> Forall mapping_ok ms.
Proof.
  intros T F%collect_Ok. induction F as [|c m cs ms E F IH]; constructor.
  - inversion T; subst. by eapply host_port_mapping_ok.
  - apply IH. by inversion T.
Qed.

Lemma NoDup_map_inj_list {A B} (f : A -> B) l x y :
  NoDup (map f l) -> x ∈ l -> y ∈ l -> f x = f y -> x = y.
Proof.
  induction l as [|a l IH]; intros N; [set_solver|]. cbn in N. apply NoDup_cons in N as [Na N].
  assert (M : forall z, z ∈ l -> f z <> f a).
  { intros z Hz E. apply Na. rewrite <- E. by apply list_elem_of_fmap_2. }
  intros [->|Hx]%elem_of_cons [->|Hy]%elem_of_cons E; [done| | |by apply IH].
  - by destruct (M y Hy).
  - by destruct (M x Hx).
Qed.

Lemma size_NoDup (l : list Z) : size (list_to_set l : gset Z) = length l -> NoDup l.
Proof.
  induction l as [|x l IH]; intros S; [constructor|]. cbn [list_to_set] in S.
  assert (U : (size (list_to_set l : gset Z) <= length l)%nat).
  { clear. induction l as [|y l IH]; cbn [list_to_set length]; [by rewrite size_empty|].
    rewrite size_union_alt. etrans; [apply Nat.add_le_mono|];
      [|apply subseteq_size, subseteq_difference_l; reflexivity|]; [rewrite size_singleton; reflexivity|lia]. }
  destruct (decide (x ∈ l)) as [I|I].
  - assert (size ({[x]} ∪ list_to_set l : gset Z) = size (list_to_set l : gset Z)) as X.
    { f_equal. apply set_eq. intros y. rewrite elem_of_union, elem_of_singleton, elem_of_list_to_set. set_solver. }
    cbn [length] in S. lia.
  - constructor; [done|]. apply IH. rewrite size_union in S; [|set_solver].
    rewrite size_singleton in S. cbn [length] in S. lia.
Qed.

(** ** Well-formed policies *)

(** A secret-injection rule as enforced: normalized host, bounded absolute paths,
    at least one method, a header that may carry a secret, a usable placeholder
    and a configured provider. *)
Record rule_wf (sp : option SecretsConfig) (r : SecretInjection) : Prop := {
  rw_host : host_pattern (host r);
  rw_paths : len (paths r) <= MAX_SECRET_PATHS_PER_RULE
             /\ Forall (fun p => exists q, p = str "/" ++ q) (paths r)
             /\ length (path_matchers r) = length (paths r);
  rw_methods : methods r <> [] /\ (is_Some (graphql r) -> methods r = [str "POST"]);
  rw_header : forall n, header r = Some n -> n <> [] /\ n ∉ forbidden_headers;
  rw_placeholder : placeholder r <> [] /\ len (placeholder r) <= MAX_SECRET_BYTES
                   /\ 13 ∉ placeholder r /\ 10 ∉ placeholder r;
  rw_provider : exists s ps, sp = Some s /\ providers s = Some ps
                             /\ Secrets.provider (reference r) ∈ ps;
}.

Record policy_wf (p : NetworkPolicy) : Prop := {
  pw_allow_ports : port_list_ok (allow_ports p);
  pw_http_ports : port_list_ok (http_ports p) /\ http_ports p <> [];
  pw_https_ports : port_list_ok (https_ports p) /\ https_ports p <> [];
  pw_host_ports : len (host_ports p) <= MAX_HOST_PORTS /\ Forall mapping_ok (host_ports p)
                  /\ NoDup (map pod_port (host_ports p));
  pw_allow_hosts : Forall host_pattern (allow_hosts p);
  pw_deny_hosts : Forall host_pattern (deny_hosts p);
  pw_rules : len (secret_injection p) <= MAX_SECRET_RULES
             /\ Forall (rule_wf (secrets p)) (secret_injection p);
}.

(** The integers of a configuration are [u16]. *)
Definition config_typed (c : WorkspaceConfig) : Prop :=
  match wc_network c with
  | None => True
  | Some n =>
      Forall host_port_typed (default [] (nc_host_ports n))
      /\ Forall (in_range u16_max) (default [] (nc_allow_ports n))
      /\ Forall (in_range u16_max) (default [] (nc_http_ports n))
      /\ Forall (in_range u16_max) (default [] (nc_https_ports n))
  end.

Lemma port_list_default ports :
  port_list_ok ports ->
  forall d, in_range u16_max d -> d <> 0 ->
  let l := if bool_decide (ports = []) then [d] else ports in port_list_ok l /\ l <> [].
Proof.
  intros O d D N l. unfold l. case_bool_decide; [|done]. split; [|done].
  unfold port_list_ok, MAX_POLICY_PORTS. split_and!; [cbv; congruence|by constructor|set_solver|].
  apply NoDup_singleton.
Qed.

Lemma existsb_not_elem P (l : bytes) x : existsb P l = false -> P x = true -> x ∉ l.
Proof.
  intros E Px I%list_elem_of_In. assert (existsb P l = true) by (apply existsb_exists; eauto). congruence.
Qed.

Lemma port_list_nil : port_list_ok [].
Proof. unfold port_list_ok, MAX_POLICY_PORTS. split_and!; [done|constructor|set_solver|constructor]. Qed.
Lemma default_policy_wf : policy_wf default_policy.
Proof.
  pose proof port_list_nil as N. constructor; cbn.
  - unfold port_list_ok, MAX_POLICY_PORTS, in_range, u16_max.
    split_and!; [done|repeat constructor; done|set_solver|].
    apply NoDup_cons. split; [set_solver|apply NoDup_singleton].
  - by apply (port_list_default [] N 80).
  - by apply (port_list_default [] N 443).
  - split_and!; [done|constructor|constructor].
  - constructor.
  - constructor.
  - split; [done|constructor].
Qed.

Section loading.
Context (parse_method : bytes -> option bytes) (glob : bytes -> option (bytes -> bool)).

Lemma compiled_paths ps ms :
  collect (compile_secret_injection_path glob) ps = Ok ms ->
  Forall (fun p => exists q, p = str "/" ++ q) ps /\ length ms = length ps.
Proof.
  intros F%collect_Ok. split; [|by symmetry; eapply Forall2_length].
  induction F as [|p m ps ms E F IH]; constructor; [|done].
  unfold compile_secret_injection_path in E. destruct (_ || _) eqn:X in E; [done|]. bool_prop.
  by apply starts_with_spec.
Qed.

Lemma rule_paths_ok o ps :
  match o with
  | None => Ok []
  | Some ps =>
      if (len ps =? 0) || (MAX_SECRET_PATHS_PER_RULE <? len ps)
      then Err (Invalid "HTTP secret-injection paths must contain between 1 and 64 patterns") else Ok ps
  end = Ok ps -> len (ps : list bytes) <= MAX_SECRET_PATHS_PER_RULE.
Proof.
  destruct o as [l|]; [|by intros [= <-]]. destruct (_ || _) eqn:E; [done|]. intros [= <-]. by bool_prop.
Qed.

Lemma load_rule_wf sp rc r : load_rule parse_method glob sp rc = Ok r -> rule_wf sp r.
Proof.
  unfold load_rule. intros H.
  apply obind_Ok in H as ([] & Vh & H). apply obind_Ok in H as (ps & Ps & H).
  apply obind_Ok in H as (ms & Ms & H). apply obind_Ok in H as (mt & Mt & H).
  case_bool_decide as Nm; [done|].
  destruct (bool_decide (is_Some (rc_graphql rc)) && _) eqn:G in H; [done|].
  apply obind_Ok in H as (rf & Rf & H). destruct (_ || _) eqn:V in H; [done|].
  destruct (negb _) eqn:C in H; [done|]. injection H as <-. bool_prop.
  apply compiled_paths in Ms as [Mp Ml]. apply rule_paths_ok in Ps.
  constructor; cbn.
  - by apply validate_host_pattern_ok.
  - done.
  - split; [done|]. intros S. rewrite bool_decide_eq_true_2 in G by done. cbn in G. by bool_prop.
  - intros n Hn. destruct (rc_header rc) as [h|]; [|done]. injection Hn as <-. bool_prop.
    match goal with H : valid_header_name h = true |- _ => unfold valid_header_name in H end. bool_prop.
    match goal with H : forbidden_secret_header h = false |- _ => unfold forbidden_secret_header in H end.
    bool_prop. split; [by destruct h|done].
  - match goal with H : existsb _ _ = false |- _ => pose proof H as X end.
    split_and!; [done|lia|by eapply existsb_not_elem in X|by eapply existsb_not_elem in X].
  - destruct sp as [s|]; [|done]. destruct (providers s) as [q|] eqn:Q; [|done]. bool_prop. by eauto.
Qed.

Lemma load_rules_wf sp rcs rs :
  collect (load_rule parse_method glob sp) rcs = Ok rs -> Forall (rule_wf sp) rs /\ len rs = len rcs.
Proof.
  intros F%collect_Ok. split.
  - induction F; constructor; [by eapply load_rule_wf|done].
  - unfold len. by rewrite (Forall2_length _ _ _ F).
Qed.

Lemma load_policy_wf c p : config_typed c -> load parse_method glob c = Ok p -> policy_wf p.
Proof.
  unfold load, config_typed. destruct (wc_network c) as [n|].
  2:{ intros _ [= <-]. apply default_policy_wf. }
  intros (Th & Ta & Tp & Ts) H.
  apply obind_Ok in H as (hp & Hp & H). apply obind_Ok in H as (aa & Aa & H).
  apply obind_Ok in H as (da & Da & H). destruct (MAX_SECRET_RULES <? _) eqn:Lr; [done|].
  apply obind_Ok in H as ([] & Va & H). apply obind_Ok in H as ([] & Vp & H).
  apply obind_Ok in H as ([] & Vs & H). destruct (MAX_HOST_PORTS <? _) eqn:Lh; [done|].
  destruct (negb _) eqn:U in H; [done|]. apply obind_Ok in H as (rs & Rs & H).
  apply obind_Ok in H as (us & Us & H). apply obind_Ok in H as (dd & Dd & H). injection H as <-.
  bool_prop. apply load_rules_wf in Rs as [Rw Rl]. apply validate_hosts_ok in Us.
  unfold lower in Us. rewrite map_app, Forall_app in Us. destruct Us as [Ua Ud].
  apply validate_ports_ok in Vp; [|done]. apply validate_ports_ok in Vs; [|done].
  constructor; cbn; try done.
  - apply validate_ports_ok; [|done]. destruct (nc_allow_ports n); [done|].
    unfold default_allow_ports, in_range, u16_max. by repeat constructor.
  - by apply port_list_default.
  - by apply port_list_default.
  - split_and!; [done|by eapply host_port_mappings_ok|]. apply size_NoDup. by rewrite length_map.
  - split; [lia|done].
Qed.
End loading.

(** ** Host matching *)

(** The hosts a pattern stands for: itself, or every name below a wildcard's
    suffix. *)
Definition covers (pattern h : bytes) : Prop :=
  (exists suffix sub, pattern = str "*." ++ suffix /\ h = sub ++ str "." ++ suffix)
  \/ ((~ exists suffix, pattern = str "*." ++ suffix) /\ pattern = h).

Lemma host_matches_covers pattern h : host_matches pattern h = true <-> covers pattern h.
Proof.
  unfold host_matches, covers. destruct (strip_prefix (str "*.") pattern) as [suffix|] eqn:P.
  - apply strip_prefix_spec in P as ->. split.
    + intros E. bool_prop. left. exists suffix. apply ends_with_spec in H1 as [pre ->].
      rewrite len_app in *. destruct pre as [|x pre] using rev_ind; [rewrite len_nil in *; lia|].
      clear IHpre. exists pre. split; [done|]. rewrite len_app, len_cons, len_nil in *.
      rewrite <- app_assoc in H0. rewrite dropz_app_len in H0 by lia. cbn in H0. injection H0 as ->.
      by rewrite <- app_assoc.
    + intros [(s & sub & E & ->)|[N _]]; [|destruct N; by eexists].
      apply app_inv_head in E as <-. change (str ".") with [46]. cbn [app].
      rewrite !andb_true_iff, ends_with_spec, bool_decide_eq_true, head_dropz_46, Z.ltb_lt.
      split_and!; [|exists (sub ++ [46]); by rewrite <- app_assoc|done].
      rewrite len_app, len_cons. pose proof (len_nonneg sub). lia.
  - rewrite bool_decide_eq_true.
    assert (N : ~ exists suffix, pattern = str "*." ++ suffix).
    { intros [s E%strip_prefix_spec]. congruence. }
    split; [by right|]. intros [(s & sub & E & _)|[_ E]]; [|done]. destruct N. by eexists.
Qed.

Lemma existsb_covers rules h :
  existsb (fun rule => host_matches rule h) rules = true <-> exists rule, rule ∈ rules /\ covers rule h.
Proof.
  rewrite existsb_exists. split; intros (r & I & C); exists r;
    (split; [by apply list_elem_of_In|by apply host_matches_covers]).
Qed.

Lemma split_app c s t :
  split c (s ++ c :: t) = split c s ++ split c t.
Proof.
  induction s as [|b s IH]; cbn; [by rewrite Z.eqb_refl|].
  destruct (b =? c); [by rewrite IH|]. rewrite IH.
  pose proof (split_nonempty c s). by destruct (split c s).
Qed.
Lemma labels_no_trailing_dot labels s :
  Forall (fun l => l <> [] /\ Forall host_char l) (split 46 labels) -> labels <> s ++ [46].
Proof.
  intros F ->. rewrite (split_app 46 s []) in F. cbn in F.
  apply Forall_app in F as [_ F]. inversion F; subst. naive_solver.
Qed.
Lemma pattern_no_trailing_dot pattern h : host_pattern pattern -> ~ covers pattern (h ++ [46]).
Proof.
  intros (labels & Sh & L & F) C. destruct labels as [|x labels _] using rev_ind; [unfold len in L; cbn in L; lia|].
  assert (x = 46) as ->.
  { destruct C as [(suffix & sub & Ep & Eh)|[_ Ep]].
    - destruct Sh as [->| ->].
      + rewrite Ep in F. exfalso. cbn in F. inversion F as [|? ? [_ Fl]]; subst.
        inversion Fl as [|? ? Hc]; subst. unfold host_char in Hc. by destruct Hc as [|[|]].
      + apply app_inv_head in Ep. subst suffix.
        rewrite !app_assoc in Eh. by apply app_inj_tail in Eh as [_ <-].
    - destruct Sh as [->| ->]; [by apply app_inj_tail in Ep as [_ ->]|].
      rewrite app_assoc in Ep. by apply app_inj_tail in Ep as [_ ->]. }
  by eapply labels_no_trailing_dot.
Qed.

(** ** The live source *)

(** What one batch of watcher events finds in the configuration file. *)
Definition batch : Type := list bool * outcome NetworkPolicyError WorkspaceConfig.
Section source.
Context (parse_method : bytes -> option bytes) (glob : bytes -> option (bytes -> bool)).
Definition load_file (file : outcome NetworkPolicyError WorkspaceConfig) :=
  let? c := file in load parse_method glob c.
(** The policy published after a history of batches. *)
Definition published (initial : NetworkPolicy) (history : list batch) : NetworkPolicy :=
  fold_left (fun current b => reload current b.1 (load_file b.2)) history initial.

Definition file_typed (file : outcome NetworkPolicyError WorkspaceConfig) : Prop :=
  match file with Ok c => config_typed c | _ => True end.
Lemma load_file_wf file p : file_typed file -> load_file file = Ok p -> policy_wf p.
Proof.
  intros T H. apply obind_Ok in H as (c & -> & H). by eapply load_policy_wf.
Qed.
Lemma published_cases history : forall initial,
  published initial history = initial
  \/ exists b, b ∈ history /\ existsb id b.1 = false /\ load_file b.2 = Ok (published initial history).
Proof.
  induction history as [|b history IH]; intros initial; [by left|].
  cbn [published fold_left]. change (fold_left _ history ?i) with (published i history).
  destruct (IH (reload initial b.1 (load_file b.2))) as [E|(b' & I & N & E)].
  - rewrite E. unfold reload. destruct (existsb id b.1) eqn:F; [by left|].
    destruct (load_file b.2) as [q| |] eqn:L; [|by left|by left]. right. exists b. split_and!; [set_solver|done|].
    by rewrite L.
  - right. exists b'. split_and!; [set_solver|done|done].
Qed.
End source.

Lemma deny_all_wf : policy_wf deny_all.
Proof.
  destruct default_policy_wf. constructor; try done. apply port_list_nil.
Qed.

(** The policy [NetworkPolicySource::open] publishes. *)
Definition opened_policy parse_method glob file : NetworkPolicy :=
  match open_source (load_file parse_method glob file) with Ok (p, _) => p | _ => deny_all end.

Lemma opened_policy_wf parse_method glob file :
  file_typed file -> policy_wf (opened_policy parse_method glob file).
Proof.
  intros T. unfold opened_policy, open_source.
  destruct (load_file parse_method glob file) as [p| |] eqn:L; try apply deny_all_wf. by eapply load_file_wf.
Qed.

(** ** Properties *)

(** Whatever happens to the configuration file, the policy in force is
    well-formed (ports are distinct non-zero 16-bit numbers, at most 256 per list;
    pod-side host ports are unique; every host pattern is normalized; every secret
    rule names a configured provider, an allowed header and a non-empty
    placeholder), and it is the policy of some file content that was read without a
    watcher failure, the initial policy, or the closed policy when the initial file
    was invalid. *)
Theorem published_policy_wf parse_method glob file history :
  file_typed file -> Forall (fun b : batch => file_typed b.2) history ->
  let initial := opened_policy parse_method glob file in
  let current := published parse_method glob initial history in
  policy_wf current
  /\ (current = deny_all \/ load_file parse_method glob file = Ok current
      \/ exists b, b ∈ history /\ existsb id b.1 = false
                   /\ load_file parse_method glob b.2 = Ok current).
Proof.
  intros T Th initial current. destruct (published_cases parse_method glob history initial) as [E|(b & I & N & L)].
  - unfold current. rewrite E. split; [by apply opened_policy_wf|]. unfold initial, opened_policy, open_source.
    destruct (load_file parse_method glob file) as [p| |]; tauto.
  - split; [|by right; right; exists b]. eapply load_file_wf; [|exact L].
    rewrite Forall_forall in Th. by apply Th.
Qed.

(** Host admission is exactly the configured rules on the lower-cased name: a
    host covered by a deny pattern is refused whatever else is configured, any other
    host is admitted when an allow pattern covers it or the default is to allow; a
    wildcard covers exactly the names below its suffix. *)
Theorem host_rules_spec p h :
  host_allowed p h = true
  <-> (~ exists d, d ∈ deny_hosts p /\ covers d (to_ascii_lowercase h))
      /\ ((exists a, a ∈ allow_hosts p /\ covers a (to_ascii_lowercase h)) \/ default_deny p = false).
Proof.
  unfold host_allowed. rewrite <- !existsb_covers.
  destruct (existsb _ (deny_hosts p)) eqn:D.
  - split; [done|]. intros [N _]. by destruct N.
  - rewrite orb_true_iff, negb_true_iff. split; [|tauto]. intros H. by split.
Qed.

(** A pattern never covers a name written with the root label, so a denied
    host is admitted under that spelling whenever the default is to allow. *)
Theorem trailing_dot_not_denied p h :
  policy_wf p -> default_deny p = false -> host_allowed p (h ++ str ".") = true.
Proof.
  intros W D. unfold host_allowed. rewrite D, orb_true_r. destruct (existsb _ (deny_hosts p)) eqn:E; [|done].
  apply existsb_covers in E as (d & I & C). unfold to_ascii_lowercase in C. rewrite map_app in C.
  exfalso. eapply pattern_no_trailing_dot; [|exact C].
  pose proof (pw_deny_hosts _ W) as F. rewrite Forall_forall in F. by apply F.
Qed.

(** ** Addresses that are not public

    The blocks of addresses, from the first to the last, that a destination is not in
    unless local destinations are allowed.  An IPv6 address is judged as such: those
    that IPv4 addresses are mapped to are in none of the blocks. *)
Definition reserved_v4 : list (Z * Z) :=
  [(ipv4 127 0 0 0, ipv4 127 255 255 255); (ipv4 10 0 0 0, ipv4 10 255 255 255); (ipv4 172 16 0 0, ipv4 172 31 255 255);
   (ipv4 192 168 0 0, ipv4 192 168 255 255); (ipv4 169 254 0 0, ipv4 169 254 255 255); (ipv4 192 0 2 0, ipv4 192 0 2 255);
   (ipv4 198 51 100 0, ipv4 198 51 100 255); (ipv4 203 0 113 0, ipv4 203 0 113 255); (ipv4 224 0 0 0, ipv4 239 255 255 255);
   (ipv4 255 255 255 255, ipv4 255 255 255 255); (0, 0)].
Definition block_v6 (first : Z) (prefix : Z) : Z * Z := (first * 2 ^ 112, first * 2 ^ 112 + 2 ^ (128 - prefix) - 1).
Definition reserved_v6 : list (Z * Z) := [(0, 0); (1, 1); block_v6 65280 8; block_v6 64512 7; block_v6 65152 10].
Definition outside (blocks : list (Z * Z)) (a : Z) : Prop := Forall (fun block => ~ (block.1 <= a <= block.2)) blocks.
Definition public_address (a : IpAddr) : Prop :=
  match a with V4 a => outside reserved_v4 a | V6 a => outside reserved_v6 a end.
Lemma div_in a m k : 0 < m -> k * m <= a < (k + 1) * m -> a / m = k.
Proof. intros. symmetry. apply (Z.div_unique a m k (a - m * k)); nia. Qed.
Lemma not_forbidden_v4 a l : forbidden_address (V4 a) false l = false -> public_address (V4 a) /\ V4 a ∉ l.
Proof.
  unfold forbidden_address. rewrite !orb_false_iff. intros (((((((L & P) & K) & B) & D) & U) & M) & H%bool_decide_eq_false). split; [|done].
  unfold V4Class.is_loopback, V4Class.is_private, V4Class.is_link_local, V4Class.is_broadcast, V4Class.is_documentation, V4Class.is_unspecified, V4Class.is_multicast, octet in *.
  rewrite !Z.shiftr_div_pow2 in * by lia. unfold public_address, outside, reserved_v4.
  repeat match goal with |- context[ipv4 ?a ?b ?c ?d] => let v := eval vm_compute in (ipv4 a b c d) in change (ipv4 a b c d) with v end.
  change (ipv4 255 255 255 255) with 4294967295 in B.
  change (2 ^ (8 * (3 - 0))) with 16777216 in *. change (2 ^ (8 * (3 - 1))) with 65536 in *. change (2 ^ (8 * (3 - 2))) with 256 in *.
  repeat (apply List.Forall_cons; [cbn [fst snd]; intros R|]); try apply List.Forall_nil.
  - clear - R L. rewrite (div_in a 16777216 127) in L by lia. discriminate L.
  - clear - R P. rewrite (div_in a 16777216 10) in P by lia. discriminate P.
  - clear - R P. rewrite (div_in a 16777216 172) in P by lia. assert (Q : 44048 <= a / 65536 <= 44063) by (split; [apply Z.div_le_lower_bound; lia|apply Z.lt_succ_r, Z.div_lt_upper_bound; lia]).
    rewrite <- (Z.mod_unique (a / 65536) 256 172 (a / 65536 - 44032)) in P by lia. rewrite !orb_false_iff in P. destruct P as [[_ P] _].
    change (172 mod 256 =? 172) with true in P. rewrite andb_true_l, andb_false_iff in P. lia.
  - clear - R P. rewrite (div_in a 16777216 192), (div_in a 65536 49320) in P by lia. discriminate P.
  - clear - R K. rewrite (div_in a 16777216 169), (div_in a 65536 43518) in K by lia. discriminate K.
  - clear - R D. rewrite (div_in a 16777216 192), (div_in a 65536 49152), (div_in a 256 12582914) in D by lia. discriminate D.
  - clear - R D. rewrite (div_in a 16777216 198), (div_in a 65536 50739), (div_in a 256 12989284) in D by lia. discriminate D.
  - clear - R D. rewrite (div_in a 16777216 203), (div_in a 65536 51968), (div_in a 256 13303921) in D by lia. discriminate D.
  - clear - R M. assert (Q : 224 <= a / 16777216 <= 239) by (split; [apply Z.div_le_lower_bound; lia|apply Z.lt_succ_r, Z.div_lt_upper_bound; lia]).
    rewrite Z.mod_small in M by lia. lia.
  - clear - R B. lia.
  - clear - R U. lia.
Qed.
(** The first sixteen bits of an IPv6 address in a block. *)
Lemma masked_block mask first count s : forallb (fun s => Z.land s mask =? first) (seqZ first count) = true -> first <= s < first + count -> Z.land s mask =? first = true.
Proof. intros H R. rewrite forallb_forall in H. apply H, list_elem_of_In, elem_of_seqZ. lia. Qed.
Lemma block_segment a first prefix : 0 <= prefix <= 16 -> (block_v6 first prefix).1 <= a <= (block_v6 first prefix).2 ->
  0 <= first -> first + 2 ^ (16 - prefix) <= 65536 -> first <= segment a 0 < first + 2 ^ (16 - prefix).
Proof.
  unfold block_v6, segment. cbn [fst snd]. intros Hp R F B. replace (128 - prefix) with (112 + (16 - prefix)) in R by lia. rewrite Z.pow_add_r in R by lia.
  rewrite Z.shiftr_div_pow2 by lia. change (16 * (7 - 0)) with 112. set (m := 2 ^ 112) in *. assert (0 < m) by (subst m; lia).
  assert (Q : first <= a / m < first + 2 ^ (16 - prefix)).
  { split; [apply Z.div_le_lower_bound; lia|apply Z.div_lt_upper_bound; [lia|]]. nia. }
  rewrite Z.mod_small by lia. exact Q.
Qed.
Lemma not_forbidden_v6 a l : forbidden_address (V6 a) false l = false -> public_address (V6 a) /\ V6 a ∉ l.
Proof.
  unfold forbidden_address. rewrite !orb_false_iff. intros (((((L & U) & M) & Q) & K) & H%bool_decide_eq_false). split; [|done].
  unfold V6Class.is_loopback, V6Class.is_unspecified, V6Class.is_multicast, V6Class.is_unique_local, V6Class.is_unicast_link_local in *.
  unfold public_address, outside, reserved_v6. repeat (apply List.Forall_cons; [intros R|]); try apply List.Forall_nil.
  - cbn in R. lia.
  - cbn in R. lia.
  - apply block_segment in R; [|lia..]. rewrite (masked_block 65280 65280 256) in M; [done|by vm_compute|exact R].
  - apply block_segment in R; [|lia..]. rewrite (masked_block 65024 64512 512) in Q; [done|by vm_compute|exact R].
  - apply block_segment in R; [|lia..]. rewrite (masked_block 65472 65152 64) in K; [done|by vm_compute|exact R].
Qed.
Lemma not_forbidden a local l : forbidden_address a local l = false -> local = false -> public_address a /\ a ∉ l.
Proof. intros H ->. destruct a; [by apply not_forbidden_v4|by apply not_forbidden_v6]. Qed.

(** C35: Every TCP flow that is admitted has a reason: a request for the virtual
    host goes to the pod's own forward or to the unique configured mapping of that
    port; any other flow keeps its destination, is on an allowed port, and is either
    handed to the HTTP mediator or reaches an address that is not denied, is listed
    when the default is to deny, and, unless the policy allows local destinations, is in
    none of the blocks of loopback, private, link-local, multicast and other reserved
    addresses and is none of the host's own.  (An IPv6 address is judged as such, so an
    IPv4 address that is mapped to IPv6 is in none of them.) *)
Theorem tcp_admission_sound src requested p forward hph ifs dest mode :
  policy_wf p -> admit_tcp src requested p forward hph ifs = Ok (dest, mode) ->
  port requested <> 0
  /\ ((ip requested = V4 VIRTUAL_HOST_ADDRESS
       /\ (forward = Some (match dest with Socket d => d | _ => requested end)
           \/ exists m, m ∈ host_ports p /\ pod_port m = port requested
                /\ dest = ConfiguredHost hph (host_port m)
                /\ forall m', m' ∈ host_ports p -> pod_port m' = port requested -> m' = m))
      \/ (ip requested <> V4 VIRTUAL_HOST_ADDRESS /\ dest = Socket requested
          /\ port requested ∈ allow_ports p
          /\ ((is_Some mode /\ needs_hostname_inspection p = true)
              \/ (mode = None /\ ip requested ∉ deny_addresses p
                  /\ (default_deny p = true -> ip requested ∈ allow_addresses p)
                  /\ exists l, ifs = Ok l
                     /\ (allow_local p = false -> public_address (ip requested) /\ ip requested ∉ l))))).
Proof.
  intros W. unfold admit_tcp. destruct (_ || _) eqn:Z; [done|]. intros H. bool_prop. split; [done|].
  unfold tcp_destination in H. case_bool_decide as V.
  - left. split; [done|]. destruct forward as [d|]; [injection H as <- _; by left|]. right.
    apply obind_Ok in H as (m & F & E). injection E as <- _.
    destruct (List.find _ _) as [m'|] eqn:Fd in F; [|done]. injection F as ->.
    apply List.find_some in Fd as [I E]. bool_prop. apply list_elem_of_In in I.
    exists m. split_and!; [done|done|done|]. intros m' I' E'.
    apply (NoDup_map_inj_list pod_port (host_ports p)); [apply (pw_host_ports _ W)|done|done|congruence].
  - right. case_bool_decide as A; cbn in H; [|done]. case_bool_decide as S.
    + injection H as <- <-. split_and!; [done|done|done|]. left. split; [done|].
      destruct (needs_hostname_inspection p); [done|by destruct S].
    + destruct ifs as [l| |]; [|done|done]. destruct (_ && _) eqn:C in H; [|done]. injection H as <- <-. bool_prop.
      split_and!; [done|done|done|]. right. split_and!; [done|done| |].
      * intros D. rewrite D in *. cbn in *. by bool_prop.
      * exists l. split; [done|]. by apply not_forbidden.
Qed.

(** The address filter does not see through IPv4-mapped IPv6 addresses: none of
    them is ever forbidden, whatever IPv4 address they stand for, unless the host
    itself lists the mapped form; with the default policy a flow to
    ::ffff:127.0.0.1 is admitted while one to 127.0.0.1 is refused. *)
Theorem mapped_addresses_admitted :
  (forall a l, 0 <= a < 2 ^ 32 -> V6 (to_ipv6_mapped a) ∉ l ->
     forbidden_address (V6 (to_ipv6_mapped a)) false l = false)
  /\ let mapped := {| ip := V6 (to_ipv6_mapped (ipv4 127 0 0 1)); port := 80 |} in
     let plain := {| ip := V4 (ipv4 127 0 0 1); port := 80 |} in
     let ifs := Ok [V4 (ipv4 127 0 0 1)] in
     admit_tcp 40000 mapped default_policy None [] ifs = Ok (Socket mapped, None)
     /\ admit_tcp 40000 plain default_policy None [] ifs = Err TcpDenied.
Proof.
  split; [|by vm_compute]. intros a l R N. cbn [forbidden_address].
  rewrite (bool_decide_eq_false_2 (V6 _ ∈ l)) by done.
  assert (segment (to_ipv6_mapped a) 0 = 0) as S.
  { unfold segment, to_ipv6_mapped. rewrite Z.shiftr_div_pow2 by lia.
    rewrite Z.div_small by lia. done. }
  unfold V6Class.is_loopback, V6Class.is_unspecified, V6Class.is_multicast, V6Class.is_unique_local,
    V6Class.is_unicast_link_local, to_ipv6_mapped in *. rewrite S. cbn.
  rewrite !orb_false_r. apply orb_false_iff. rewrite !Z.eqb_neq. lia.
Qed.

(** ** Witnesses *)
Definition sample_rule : RuleConfig :=
  {| rc_host := str "*.Example.com"; rc_paths := Some [str "/api/**"]; rc_methods := [str "POST"];
     rc_graphql := Some QueriesOnly; rc_header := Some (str "Authorization"); rc_placeholder := None;
     rc_secret := str "project.API_TOKEN" |}.
Definition sample_config : WorkspaceConfig :=
  {| wc_secrets := Some {| providers := Some {[ str "project" ]} |};
     wc_network := Some
       {| nc_host_ports := Some [SamePort 3000; Mapping (str "5432:15432")];
          nc_default := Some (str "allow"); nc_allow_local := None;
          nc_allow_addresses := Some [str "10.0.0.1"]; nc_deny_addresses := Some [str "8.8.8.8"; str "::1"];
          nc_allow_hosts := None; nc_deny_hosts := Some [str "Evil.test"];
          nc_allow_ports := Some [443; 80; 22]; nc_secret_injection := Some [sample_rule];
          nc_http_ports := None; nc_https_ports := None |} |}.
Definition any_method (m : bytes) : option bytes := Some m.
Definition exact_glob (pattern : bytes) : option (bytes -> bool) := Some (fun path => bool_decide (pattern = path)).
Definition sample_policy : NetworkPolicy := opened_policy any_method exact_glob (Ok sample_config).

Lemma sample_typed : config_typed sample_config.
Proof. unfold config_typed, in_range, u16_max. cbn. repeat split; repeat constructor; done. Qed.
Lemma sample_policy_wf : policy_wf sample_policy.
Proof. apply opened_policy_wf. exact sample_typed. Qed.

Lemma published_policy_wf_witness :
  let history := [([false], Err (Invalid "unreadable")); ([true], Ok {| wc_secrets := None; wc_network := None |})] in
  length (secret_injection (published any_method exact_glob sample_policy history)) = 1%nat
  /\ policy_wf (published any_method exact_glob sample_policy history).
Proof.
  intros history. split; [vm_compute; reflexivity|].
  apply (published_policy_wf any_method exact_glob (Ok sample_config) history); [exact sample_typed|].
  repeat constructor.
Defined.

Lemma trailing_dot_not_denied_witness :
  host_allowed sample_policy (str "EVIL.test") = false
  /\ host_allowed sample_policy (str "EVIL.test" ++ str ".") = true.
Proof.
  split; [vm_compute; reflexivity|].
  apply (trailing_dot_not_denied sample_policy (str "EVIL.test") sample_policy_wf). vm_compute. reflexivity.
Defined.

Lemma tcp_admission_sound_witness :
  let requested := {| ip := V4 (ipv4 1 1 1 1); port := 22 |} in
  port requested ∈ allow_ports sample_policy
  /\ public_address (ip requested) /\ ip requested ∉ [V4 (ipv4 192 168 1 7)].
Proof.
  intros requested.
  destruct (tcp_admission_sound 40000 requested sample_policy None (str "localhost")
              (Ok [V4 (ipv4 192 168 1 7)]) (Socket requested) None sample_policy_wf)
    as [_ [[E _]|(_ & _ & P & [[[? M] _]|(_ & _ & _ & l & L & F)])]]; [by vm_compute|by vm_compute in E|done|].
  split; [exact P|]. injection L as <-. exact (F eq_refl).
Defined.
