(* ===== verification/NetProxy.v ===== *)
(** * HTTP mediation

    The decisions of [crates/libs/tascarrel-hostd/src/services/network/proxy.rs]
    and [graphql.rs]: which host a mediated flow may reach, which addresses are
    tried, which requests receive secrets and in which headers, and which headers
    are forwarded.  Bodies, TLS and the relays are I/O and are left out.

    The [http] crate (header maps, header names and values, authorities, URIs),
    [base64], [serde_json], [apollo_parser], name resolution and the secret
    service are not part of the repository: they are the interface [HeaderMap]
    and the fields of [Externals]. *)

From S2P Require Import Prelude Utf8 Text SecretTemplate IpAddr NetPolicy.

(** [HttpProxyError::Failed]; interpolated values are left out. *)
Inductive ProxyError := Failed (message : string).

(** ** Text *)

(** The [while let] loop of [replace_bytes]; a turn consumes the needle. *)
Fixpoint replace_from (fuel : nat) (remaining needle replacement : bytes) : bytes * bool :=
  match fuel with
  | O => (remaining, false)
  | S fuel' =>
      match find_str needle remaining with
      | Some (before, rest) =>
          (before ++ replacement ++ (replace_from fuel' rest needle replacement).1, true)
      | None => (remaining, false)
      end
  end.
Definition replace_bytes (input needle replacement : bytes) : bytes * bool :=
  if bool_decide (needle = []) then (input, false)
  else replace_from (S (length input)) input needle replacement.

(** [str::replace] on ASCII text; an empty pattern matches around every
    character. *)
Definition str_replace (text pattern to : bytes) : bytes :=
  if bool_decide (pattern = []) then to ++ concat (map (fun b => b :: to) text)
  else (replace_bytes text pattern to).1.

(** ** The header map interface

    [hyper::HeaderMap]: a multimap from lower-case names.  [entries] lists it in
    iteration order; [insert] and [remove] are documented up to that order. *)
Class HeaderMap (M : Type) := {
  entries : M -> list (bytes * bytes);
  hm_insert : bytes -> bytes -> M -> M;
  hm_remove : bytes -> M -> M;
  hm_assign : list bytes -> M -> M;
}.
Class HeaderMapLaws (M : Type) `{HeaderMap M} := {
  entries_insert n v m :
    entries (hm_insert n v m) ≡ₚ (n, v) :: filter (fun e => e.1 <> n) (entries m);
  entries_remove n m : entries (hm_remove n m) ≡ₚ filter (fun e => e.1 <> n) (entries m);
  (** [iter_mut] assigns each value in place. *)
  entries_assign vs m :
    length vs = length (entries m) -> entries (hm_assign vs m) = zip (entries m).*1 vs;
}.
Definition get_all {M} `{HeaderMap M} (n : bytes) (m : M) : list bytes :=
  (filter (fun e => e.1 = n) (entries m)).*2.
Definition contains_key {M} `{HeaderMap M} (n : bytes) (m : M) : bool :=
  existsb (fun e => bool_decide (e.1 = n)) (entries m).

(** [http::uri::Authority]. *)
Record Authority := { auth_host : bytes; auth_port : option Z }.
(** A top-level definition of a GraphQL document: an operation with its type
    (absent for the shorthand form) and name, a fragment, or anything else. *)
Inductive OperationType := Query | Mutation | Subscription.
Inductive GqlDefinition :=
| OperationDefinition (type : option OperationType) (name : option bytes)
| FragmentDefinition
| OtherDefinition.

Record Externals := {
  to_str : bytes -> option bytes;
  header_value : bytes -> option bytes;
  header_name : bytes -> option bytes;
  base64_encode : bytes -> bytes;
  base64_decode : bytes -> option bytes;
  parse_authority : bytes -> option Authority;
  (** [Uri]'s authority and scheme. *)
  parse_uri : bytes -> option (option Authority * option bytes);
  json_envelope : bytes -> option (bytes * option bytes);
  (** [None] when the parser reports an error. *)
  graphql_document : bytes -> option (list GqlDefinition);
  (** Provider lookups of the secret service. *)
  resolve_reference : Secrets.SecretReference -> outcome ProxyError bytes;
  (** [lookup_host]. *)
  lookup_host : bytes -> Z -> outcome ProxyError (list SocketAddr);
  (** What [host_interface_addresses] returns when an address is checked. *)
  interfaces : SocketAddr -> outcome NetworkPolicyError (list IpAddr);
  (** Whether a TCP connection is established. *)
  tcp_connect : SocketAddr -> outcome ProxyError unit;
}.

(** ** GraphQL admission ([graphql.rs]) *)
Module GraphQl.
Inductive GraphQlAdmissionError :=
| InvalidEnvelope | InvalidDocument | InvalidOperationSelection | NonQueryOperation.
Definition operation : Type := option OperationType * option bytes.

Definition is_query (o : operation) : bool :=
  match o.1 with None | Some Query => true | _ => false end.

(** The loop that collects the operations. *)
Fixpoint operations_of (defs : list GqlDefinition) : option (list operation) :=
  match defs with
  | [] => Some []
  | OperationDefinition t n :: rest =>
      match operations_of rest with Some os => Some ((t, n) :: os) | None => None end
  | FragmentDefinition :: rest => operations_of rest
  | OtherDefinition :: _ => None
  end.

Definition admit_queries_only (ext : Externals) (body : bytes) : outcome GraphQlAdmissionError unit :=
  match json_envelope ext body with
  | None => Err InvalidEnvelope
  | Some (query, operation_name) =>
      match graphql_document ext query with
      | None => Err InvalidDocument
      | Some defs =>
          match operations_of defs with
          | None => Err InvalidDocument
          | Some operations =>
              if existsb (fun o => negb (is_query o)) operations then Err NonQueryOperation
              else if (1 <? len operations)
                      && existsb (fun o => bool_decide (o.2 = None)) operations
              then Err InvalidOperationSelection
              else
                let selected :=
                  match operation_name with
                  | Some name => len (filter (fun o : operation => o.2 = Some name) operations)
                  | None => len operations
                  end in
                if negb (selected =? 1) then Err InvalidOperationSelection else Ok tt
          end
      end
  end.
End GraphQl.

Module Proxy.
Import Net.

Definition CONNECTION := str "connection".
Definition UPGRADE := str "upgrade".
Definition HOST := str "host".
Definition ORIGIN := str "origin".
Definition AUTHORIZATION := str "authorization".
Definition CONTENT_TYPE := str "content-type".
Definition CONTENT_ENCODING := str "content-encoding".
Definition VIRTUAL_HOSTNAME := str "host.tascarrel.internal".

(** [HttpProxyTarget]. *)
Inductive Target := RequestHost | HostPort (connection_host : bytes).

Record Request (M : Type) := {
  method : bytes; uri_authority : option Authority; uri_path : bytes; headers : M;
  (** The body read up to [MAX_GRAPHQL_REQUEST_BYTES], if that succeeds. *)
  body : option bytes;
}.
Arguments method {M}. Arguments uri_authority {M}. Arguments uri_path {M}.
Arguments headers {M}. Arguments body {M}.

Section proxy.
Context {M : Type} `{HeaderMap M}.
Variables (ext : Externals) (policy : NetworkPolicy) (target : Target).

Definition require_host (host : bytes) : outcome ProxyError unit :=
  match target with
  | RequestHost =>
      if negb (host_allowed policy host) then Err (Failed "host is denied by workspace policy") else Ok tt
  | HostPort _ =>
      if negb (bool_decide (host = VIRTUAL_HOSTNAME))
      then Err (Failed "host does not identify the exposed host service") else Ok tt
  end.

Definition intercepts_tls_for_host (host : bytes) : bool :=
  match target with HostPort _ => true | RequestHost => injects_secret_for_host policy host end.

(** The loop of [connect]: the addresses a connection was attempted to, and
    the result. *)
Fixpoint connect_loop (addresses : list SocketAddr) (last_error : option ProxyError)
  : list SocketAddr * outcome ProxyError SocketAddr :=
  match addresses with
  | [] => ([], Err (default (Failed "host has no policy-allowed address") last_error))
  | a :: rest =>
      match address_allowed policy (interfaces ext a) (ip a) with
      | Err _ => ([], Err (Failed "failed to inspect host network interfaces"))
      | Panic m => ([], Panic m)
      | Ok false => connect_loop rest last_error
      | Ok true =>
          match tcp_connect ext a with
          | Ok _ => ([a], Ok a)
          | Err e => let '(tried, r) := connect_loop rest (Some e) in (a :: tried, r)
          | Panic m => ([a], Panic m)
          end
      end
  end.
(** Where an established upstream connection leads. *)
Inductive Upstream := HostService (connection_host : bytes) (port : Z) | Address (a : SocketAddr).
Definition connect (host : bytes) (port : Z) : list SocketAddr * outcome ProxyError Upstream :=
  match target with
  | HostPort connection_host => ([], Ok (HostService connection_host port))
  | RequestHost =>
      match lookup_host ext host port with
      | Ok addresses =>
          let '(tried, r) := connect_loop addresses None in
          (tried, let? a := r in Ok (Address a))
      | Err e => ([], Err e)
      | Panic m => ([], Panic m)
      end
  end.

(** ** Secret injection *)
Definition inject_header_value (name value placeholder secret : bytes)
  : outcome ProxyError (bytes * bool) :=
  let? text := ok_or (to_str ext value) (Failed "secret-bearing header is not text") in
  let? basic :=
    if bool_decide (name = AUTHORIZATION) then
      match split_once 32 text with
      | Some (scheme, encoded) =>
          if eq_ignore_ascii_case scheme (str "basic") then
            let? decoded := ok_or (base64_decode ext (trim encoded))
                              (Failed "Basic authorization credentials are not valid base64") in
            let '(replaced, changed) := replace_bytes decoded placeholder secret in
            if changed then
              let? v := ok_or (header_value ext (str "Basic " ++ base64_encode ext replaced))
                          (Failed "failed to encode injected Basic authorization header") in
              Ok (Some (v, true))
            else Ok None
          else Ok None
      | None => Ok None
      end
    else Ok None in
  match basic with
  | Some result => Ok result
  | None =>
      let replaced := str_replace text placeholder secret in
      let changed := negb (bool_decide (replaced = text)) in
      let? v := ok_or (header_value ext replaced) (Failed "failed to encode injected HTTP header") in
      Ok (v, changed)
  end.

(** Whether the inner loop of [inject_secrets] skips a header. *)
Definition skips_header (rule : SecretInjection) (name : bytes) : bool :=
  forbidden_secret_header name
  || match header rule with Some n => negb (bool_decide (name = n)) | None => false end.

Fixpoint inject_entries (rule : SecretInjection) (secret : bytes) (es : list (bytes * bytes))
  : outcome ProxyError (list bytes * bool) :=
  match es with
  | [] => Ok ([], false)
  | (n, v) :: rest =>
      let? (v', changed) :=
        if skips_header rule n then Ok (v, false)
        else inject_header_value n v (placeholder rule) secret in
      let? (vs, any_changed) := inject_entries rule secret rest in
      Ok (v' :: vs, changed || any_changed)
  end.

Fixpoint inject_secrets (headers : M) (rules : list SecretInjection)
  : outcome ProxyError (M * bool) :=
  match rules with
  | [] => Ok (headers, false)
  | rule :: rest =>
      let? secret := resolve_reference ext (reference rule) in
      if (MAX_SECRET_BYTES <? len secret) || existsb (fun b => (b =? 13) || (b =? 10)) secret
      then Err (Failed "HTTP injection secret is not a valid header value")
      else
        let? (vs, changed) := inject_entries rule secret (entries headers) in
        let? (headers', more) := inject_secrets (hm_assign vs headers) rest in
        Ok (headers', changed || more)
  end.

(** ** GraphQL requests *)
Definition is_json_media_type (value : bytes) : bool :=
  match to_str ext value with
  | Some text =>
      match split 59 text with
      | media_type :: _ => eq_ignore_ascii_case (trim media_type) (str "application/json")
      | [] => false
      end
  | None => false
  end.
Definition validate_graphql_headers (headers : M) : outcome ProxyError unit :=
  match get_all CONTENT_TYPE headers with
  | [] => Err (Failed "GraphQL request Content-Type must be application/json")
  | content_type :: more =>
      if negb (bool_decide (more = [])) || negb (is_json_media_type content_type)
      then Err (Failed "GraphQL request Content-Type must be application/json")
      else if negb (forallb (fun value =>
                     match to_str ext value with
                     | Some text => eq_ignore_ascii_case text (str "identity")
                     | None => false
                     end) (get_all CONTENT_ENCODING headers))
      then Err (Failed "compressed GraphQL request bodies are not supported")
      else Ok tt
  end.
(** The refusal of the request's GraphQL operation, if any. *)
Definition inspect_graphql_request (request : Request M) : outcome ProxyError (option ProxyError) :=
  match validate_graphql_headers (headers request) with
  | Err e => Ok (Some e)
  | Panic m => Panic m
  | Ok _ =>
      let? b := ok_or (body request) (Failed "failed to read bounded GraphQL request body") in
      match GraphQl.admit_queries_only ext b with
      | Ok _ => Ok None
      | Err _ => Ok (Some (Failed "GraphQL request refused"))
      | Panic m => Panic m
      end
  end.

(** ** Request policy *)
Definition rule_admits (host path meth : bytes) (rule : SecretInjection) : bool :=
  host_matches (Net.host rule) host && matches_path rule path && bool_decide (meth ∈ methods rule).

Definition apply_request_policy (request : Request M) (host path meth : bytes)
  : outcome ProxyError (M * bool) :=
  let injection_rules := List.filter (rule_admits host path meth) (secret_injection policy) in
  if injects_secret_for_host policy host && bool_decide (length injection_rules = 0%nat)
  then Err (Failed "HTTP request is denied for secret-injection host")
  else
    let inspect_graphql := existsb (fun rule => bool_decide (is_Some (graphql rule))) injection_rules in
    let? graphql_error := if inspect_graphql then inspect_graphql_request request else Ok None in
    match graphql_error with
    | Some error =>
        let injection_rules := List.filter (fun rule => bool_decide (graphql rule = None)) injection_rules in
        if bool_decide (length injection_rules = 0%nat) then Err error
        else inject_secrets (headers request) injection_rules
    | None => inject_secrets (headers request) injection_rules
    end.

(** ** Connection headers *)
Fixpoint connection_upgrade (values : list bytes) : outcome ProxyError bool :=
  match values with
  | [] => Ok false
  | value :: rest =>
      let? text := ok_or (to_str ext value) (Failed "HTTP Connection is not text") in
      let here := existsb (fun token => eq_ignore_ascii_case (trim token) (str "upgrade")) (split 44 text) in
      let? more := connection_upgrade rest in
      Ok (here || more)
  end.
Definition requests_upgrade (headers : M) : outcome ProxyError bool :=
  let has_upgrade := contains_key UPGRADE headers in
  let? connection_upgrade := connection_upgrade (get_all CONNECTION headers) in
  if negb (Bool.eqb has_upgrade connection_upgrade)
  then Err (Failed "HTTP upgrade requires both Connection: upgrade and Upgrade headers")
  else Ok has_upgrade.

Definition connection_headers (headers : M) : list bytes :=
  omap (fun name => header_name ext (trim name))
    (concat (map (split 44) (omap (to_str ext) (get_all CONNECTION headers)))).
Definition hop_by_hop : list bytes :=
  [CONNECTION; str "proxy-connection"; str "keep-alive"; str "proxy-authenticate";
   str "proxy-authorization"; str "te"; str "trailer"; str "transfer-encoding"; UPGRADE].
Definition remove_all (names : list bytes) (headers : M) : M :=
  fold_left (fun h n => hm_remove n h) names headers.
Definition strip_hop_by_hop (headers : M) (preserve_upgrade : bool) : M :=
  let headers := remove_all
    (List.filter (fun n => negb preserve_upgrade || negb (bool_decide (n = UPGRADE)))
       (connection_headers headers)) headers in
  let headers := remove_all
    (List.filter (fun n => negb preserve_upgrade
                           || (negb (bool_decide (n = CONNECTION)) && negb (bool_decide (n = UPGRADE))))
       hop_by_hop) headers in
  hm_insert CONNECTION (if preserve_upgrade then str "upgrade" else str "close") headers.

(** ** Requests *)
Definition request_authority (request : Request M) : outcome ProxyError Authority :=
  let? header_authority :=
    match get_all HOST (headers request) with
    | [] => Ok None
    | value :: _ =>
        let? text := ok_or (to_str ext value) (Failed "HTTP Host is not text") in
        let? a := ok_or (parse_authority ext text) (Failed "HTTP Host is invalid") in
        Ok (Some a)
    end in
  match uri_authority request, header_authority with
  | Some uri, Some hd =>
      if negb (eq_ignore_ascii_case (auth_host uri) (auth_host hd))
      then Err (Failed "request-target authority does not match HTTP Host")
      else Ok uri
  | Some uri, None => Ok uri
  | None, Some hd => Ok hd
  | None, None => Err (Failed "HTTP Host is required")
  end.

Definition same_authority (l r : Authority) : bool :=
  eq_ignore_ascii_case (auth_host l) (auth_host r) && bool_decide (auth_port l = auth_port r).

Definition rewrite_host_port_request (headers : M) (original : Authority) : outcome ProxyError M :=
  let headers := hm_insert HOST (str "localhost") headers in
  match get_all ORIGIN headers with
  | [] => Ok headers
  | value :: more =>
      if negb (bool_decide (more = [])) then Err (Failed "multiple HTTP Origin headers are not allowed")
      else
        let? text := ok_or (to_str ext value) (Failed "HTTP Origin is not text") in
        let? (authority, scheme) := ok_or (parse_uri ext text) (Failed "HTTP Origin is invalid") in
        match authority with
        | None => Ok headers
        | Some a =>
            if negb (same_authority a original) then Ok headers
            else
              let? scheme := ok_or scheme (Failed "HTTP Origin has no scheme") in
              let? v := ok_or (header_value ext (scheme ++ str "://localhost"))
                          (Failed "rewritten HTTP Origin is invalid") in
              Ok (hm_insert ORIGIN v headers)
        end
  end.

(** What [forward] sends upstream. *)
Record Outbound := {
  out_headers : M; out_host : bytes; secrets_injected : bool;
  attempted : list SocketAddr; upstream : outcome ProxyError Upstream;
}.

Definition forward (tls_host : option bytes) (port : Z) (request : Request M)
  : outcome ProxyError Outbound :=
  if bool_decide (method request = str "CONNECT")
  then Err (Failed "HTTP CONNECT tunnels are not supported")
  else
    let? wants_upgrade := requests_upgrade (headers request) in
    let? request_authority := request_authority request in
    let host := to_ascii_lowercase (auth_host request_authority) in
    let? _ := require_host host in
    if match tls_host with Some sni => negb (bool_decide (sni = host)) | None => false end
    then Err (Failed "HTTP Host does not match TLS SNI")
    else
      let? hs :=
        match target with
        | HostPort _ => rewrite_host_port_request (headers request) request_authority
        | RequestHost => Ok (headers request)
        end in
      let request' := {| method := method request; uri_authority := uri_authority request;
                         uri_path := uri_path request; headers := hs; body := body request |} in
      let? (hs, injected) := apply_request_policy request' host (uri_path request) (method request) in
      let '(tried, up) := connect host port in
      Ok {| out_headers := strip_hop_by_hop hs wants_upgrade; out_host := host;
            secrets_injected := injected; attempted := tried; upstream := up |}.

(** [serve_https] up to the choice between relaying and interception:
    the addresses a relay attempts, or [None] when TLS is terminated and
    each request goes through [forward] with the SNI. *)
Definition serve_https (sni : bytes) (port : Z)
  : outcome ProxyError (option (list SocketAddr * outcome ProxyError Upstream)) :=
  let host := to_ascii_lowercase sni in
  let? _ := require_host host in
  if negb (intercepts_tls_for_host host) then Ok (Some (connect host port)) else Ok None.
End proxy.
End Proxy.
