(* ===== verification/NetProxyThms.v ===== *)
(** * HTTP mediation: theorems

    Where mediated flows lead, which requests may carry a secret, and what is
    forwarded. *)

From S2P Require Import Prelude Utf8 Text SecretTemplate IpAddr NetPolicy NetPolicyThms NetProxy.
Import Net Proxy.

(** ** Replacement *)

(** The pieces between the replaced occurrences, joined by a separator. *)
Fixpoint join (sep : bytes) (pieces : list bytes) : bytes :=
  match pieces with
  | [] => []
  | [p] => p
  | p :: rest => p ++ sep ++ join sep rest
  end.
Lemma join_cons sep p q rest : join sep (p :: q :: rest) = p ++ sep ++ join sep (q :: rest).
Proof. done. Qed.

Definition occurs (needle s : bytes) : Prop := exists l r, s = l ++ needle ++ r.

Lemma find_str_None needle s : find_str needle s = None -> ~ occurs needle s.
Proof.
  induction s as [|b s IH]; cbn [find_str]; destruct (strip_prefix needle _) as [?|] eqn:E; try done.
  - intros _ (l & r & X). destruct l as [|? ?]; [|done].
    assert (strip_prefix needle [] = Some r) as Y by by apply strip_prefix_spec. congruence.
  - destruct (find_str needle s) as [[? ?]|]; [done|]. intros _ (l & r & X). destruct l as [|x l]; cbn in X.
    + assert (strip_prefix needle (b :: s) = Some r) as Y by by apply strip_prefix_spec. congruence.
    + injection X as -> X. apply IH; [done|]. by exists l, r.
Qed.
(** What precedes the first occurrence contains none. *)
Lemma find_str_before needle s l r :
  needle <> [] -> find_str needle s = Some (l, r) -> ~ occurs needle l.
Proof.
  intros N F (a & b & ->). pose proof (find_str_spec _ _ _ _ F) as E.
  pose proof (find_str_first _ _ _ _ F a (b ++ needle ++ r)) as L.
  rewrite <- !app_assoc in E. specialize (L E). rewrite !len_app in L.
  pose proof (len_nonneg b). assert (len needle <> 0) by (intros X%len_0; done).
  pose proof (len_nonneg needle). lia.
Qed.

Lemma replace_from_spec fuel s needle rep :
  needle <> [] -> (length s < fuel)%nat ->
  exists p pieces,
    s = join needle (p :: pieces) /\ replace_from fuel s needle rep = (join rep (p :: pieces), bool_decide (pieces <> []))
    /\ Forall (fun q => ~ occurs needle q) (p :: pieces).
Proof.
  intros N. revert s. induction fuel as [|fuel IH]; intros s L; [lia|]. cbn [replace_from].
  destruct (find_str needle s) as [[l r]|] eqn:F.
  - pose proof (find_str_spec _ _ _ _ F) as ->. pose proof (find_str_before _ _ _ _ N F) as B.
    rewrite !length_app in L. assert (length needle <> 0%nat) by by destruct needle.
    destruct (IH r) as (p & pieces & E & R & A); [lia|]. exists l, (p :: pieces).
    rewrite !join_cons. rewrite R. cbn [fst]. split_and!; [by rewrite <- E|done|by constructor].
  - exists s, []. split_and!; [done|done|]. constructor; [|constructor]. by apply find_str_None.
Qed.

(** ** Upstream addresses *)

(** An address the policy lets a flow reach, given the host's own addresses: not denied,
    and unless local destinations are allowed, public and not of the host. *)
Definition address_ok (ext : Externals) (p : NetworkPolicy) (a : SocketAddr) : Prop :=
  ip a ∉ deny_addresses p
  /\ exists l, interfaces ext a = Ok l /\ (allow_local p = false -> public_address (ip a) /\ ip a ∉ l).

Lemma address_allowed_ok ext p a :
  address_allowed p (interfaces ext a) (ip a) = Ok true -> address_ok ext p a.
Proof.
  unfold address_allowed, address_ok. case_bool_decide; [done|].
  intros (l & L & E)%obind_Ok. injection E as E. split; [done|]. exists l. split; [done|].
  apply not_forbidden. by apply negb_true_iff.
Qed.
Lemma connect_loop_ok ext p addresses : forall last tried r,
  connect_loop ext p addresses last = (tried, r) ->
  Forall (fun a => address_ok ext p a /\ a ∈ addresses) tried /\ (forall a, r = Ok a -> a ∈ tried).
Proof.
  induction addresses as [|a rest IH]; intros last tried r E; cbn [connect_loop] in E.
  - injection E as <- <-. by split.
  - destruct (address_allowed p (interfaces ext a) (ip a)) as [[|]|e|m] eqn:A.
    + destruct (tcp_connect ext a) as [u|e|m].
      * injection E as <- <-. split; [|intros ? [= <-]; set_solver].
        constructor; [|constructor]. split; [by apply address_allowed_ok|set_solver].
      * destruct (connect_loop ext p rest (Some e)) as [t r'] eqn:C. injection E as <- <-.
        destruct (IH _ _ _ C) as [F G]. split; [|intros x Hx; apply G in Hx; set_solver].
        constructor; [split; [by apply address_allowed_ok|set_solver]|].
        eapply Forall_impl; [exact F|]. intros x [? ?]. split; [done|set_solver].
      * injection E as <- <-. split; [|done]. constructor; [|constructor].
        split; [by apply address_allowed_ok|set_solver].
    + destruct (IH _ _ _ E) as [F G]. split; [|done]. eapply Forall_impl; [exact F|].
      intros x [? ?]. split; [done|set_solver].
    + injection E as <- <-. by split.
    + injection E as <- <-. by split.
Qed.

(** What an upstream connection may be: the exposed host service, or an admitted
    address of the admitted host. *)
Definition confined (ext : Externals) (p : NetworkPolicy) (target : Target) (host : bytes) (port : Z)
    (tried : list SocketAddr) (up : outcome ProxyError Upstream) : Prop :=
  Forall (address_ok ext p) tried
  /\ match target with
     | HostPort connection_host =>
         host = VIRTUAL_HOSTNAME /\ tried = [] /\ up = Ok (HostService connection_host port)
     | RequestHost =>
         host_allowed p host = true
         /\ match up with Ok (Address a) => a ∈ tried | Ok (HostService _ _) => False | _ => True end
     end.

Lemma connect_confined ext p target host port :
  require_host p target host = Ok tt ->
  confined ext p target host port (connect ext p target host port).1 (connect ext p target host port).2.
Proof.
  unfold require_host, connect, confined. destruct target as [|ch].
  - destruct (host_allowed p host); cbn [negb]; [|done]. intros _.
    destruct (lookup_host ext host port) as [addresses|e|m]; [|cbn; by repeat split|cbn; by repeat split].
    destruct (connect_loop ext p addresses None) as [tried r] eqn:C.
    destruct (connect_loop_ok _ _ _ _ _ _ C) as [F G]. cbn. split.
    + eapply Forall_impl; [exact F|]. by intros x [? _].
    + split; [done|]. destruct r; cbn; [by apply G|done|done].
  - case_bool_decide; cbn; [|done]. intros _. split; [constructor|]. by repeat split.
Qed.

(** ** Header injection *)
Section injection.
Context {M : Type} `{HeaderMapLaws M} (ext : Externals).

Lemma inject_entries_ok rule secret es : forall vs changed,
  inject_entries ext rule secret es = Ok (vs, changed) ->
  Forall2 (fun e v => skips_header rule e.1 = true -> v = e.2) es vs.
Proof.
  induction es as [|[n v] es IH]; intros vs changed E; cbn [inject_entries] in E.
  - injection E as <- <-. constructor.
  - apply obind_Ok in E as ([v' c] & E1 & E). apply obind_Ok in E as ([vs' c'] & E2 & E).
    injection E as <- <-. constructor; [|by eapply IH]. cbn. intros S. rewrite S in E1. by injection E1 as <-.
Qed.

(** Same names in the same places; a value that differs is in a header one of
    the rules may write. *)
Definition injected_by (rules : list SecretInjection) (e e' : bytes * bytes) : Prop :=
  e'.1 = e.1 /\ (e'.2 <> e.2 -> exists r, r ∈ rules /\ skips_header r e.1 = false).

Lemma injected_assign rule hs vs :
  Forall2 (fun e v => skips_header rule e.1 = true -> v = e.2) (entries hs) vs ->
  Forall2 (injected_by [rule]) (entries hs) (entries (hm_assign vs hs)).
Proof.
  intros F. rewrite entries_assign by (symmetry; by eapply Forall2_length).
  induction F as [|[n v] v' es vs' S F IH]; cbn; constructor; [|done]. split; [done|]. cbn in *. intros D.
  exists rule. split; [set_solver|]. destruct (skips_header rule n); [|done]. by destruct D; apply S.
Qed.
Lemma injected_by_trans r1 r2 es1 es2 es3 :
  Forall2 (injected_by r1) es1 es2 -> Forall2 (injected_by r2) es2 es3 ->
  Forall2 (injected_by (r1 ++ r2)) es1 es3.
Proof.
  intros F. revert es3. induction F as [|e1 e2 es1 es2 [N1 V1] F IH]; intros es3 G.
  - inversion G. constructor.
  - inversion G as [|? e3 ? es3' [N2 V2] G']; subst. constructor; [|by apply IH]. split; [congruence|].
    intros D. destruct (decide (e2.2 = e1.2)) as [E|E].
    + destruct V2 as (r & I & S); [congruence|]. exists r. rewrite <- N1. set_solver.
    + destruct (V1 E) as (r & I & S). exists r. set_solver.
Qed.
Lemma injected_refl es : Forall2 (injected_by []) es es.
Proof. induction es; constructor; [by split|done]. Qed.

Lemma inject_secrets_ok rules : forall hs hs' b,
  inject_secrets ext hs rules = Ok (hs', b) ->
  Forall2 (injected_by rules) (entries hs) (entries hs').
Proof.
  induction rules as [|rule rules IH]; intros hs hs' b E; cbn [inject_secrets] in E.
  - injection E as <- <-. apply injected_refl.
  - apply obind_Ok in E as (secret & _ & E). destruct (_ || _) in E; [done|].
    apply obind_Ok in E as ([vs c] & Ei & E). apply obind_Ok in E as ([hs1 more] & Er & E).
    injection E as <- <-. apply (injected_by_trans [rule] rules _ (entries (hm_assign vs hs))).
    + apply injected_assign. by eapply inject_entries_ok.
    + by eapply IH.
Qed.

(** ** Removal of hop-by-hop headers *)
Lemma entries_remove_all names : forall hs,
  entries (remove_all names hs) ≡ₚ filter (fun e => e.1 ∉ names) (entries hs).
Proof.
  induction names as [|n names IH]; intros hs.
  - cbn [remove_all fold_left]. induction (entries hs) as [|e es IHe]; [done|].
    rewrite filter_cons_True by set_solver. by constructor.
  - cbn. change (fold_left _ names ?x) with (remove_all names x). rewrite IH, entries_remove, list_filter_filter.
    erewrite list_filter_iff; [reflexivity|]. intros e. rewrite not_elem_of_cons. tauto.
Qed.
Lemma elem_of_filtered (f : bytes -> bool) l x : x ∈ List.filter f l <-> x ∈ l /\ f x = true.
Proof. rewrite !list_elem_of_In. apply List.filter_In. Qed.

Lemma strip_entries hs pu e :
  e ∈ entries (strip_hop_by_hop ext hs pu)
  <-> e = (CONNECTION, if pu then str "upgrade" else str "close")
      \/ (e ∈ entries hs /\ e.1 <> CONNECTION
          /\ ((pu = true /\ e.1 = UPGRADE) \/ (e.1 ∉ connection_headers ext hs /\ e.1 ∉ hop_by_hop))).
Proof.
  unfold strip_hop_by_hop. rewrite entries_insert, elem_of_cons, list_elem_of_filter, entries_remove_all,
    list_elem_of_filter, entries_remove_all, list_elem_of_filter, !elem_of_filtered.
  assert (U : UPGRADE <> CONNECTION) by done. assert (Ih : UPGRADE ∈ hop_by_hop) by (cbv; set_solver).
  destruct pu; cbn [negb orb].
  - rewrite negb_true_iff, andb_true_iff, !negb_true_iff, !bool_decide_eq_false.
    destruct (decide (e.1 = UPGRADE)) as [Eu|Eu]; [rewrite Eu|]; tauto.
  - split; [|naive_solver]. intros [?|(? & ? & ? & ?)]; [by left|]. right. split_and!; [done|done|]. right. tauto.
Qed.
End injection.

(** ** Properties *)

(** Replacing a placeholder splits the text at its occurrences, left to right,
    and puts the secret in their place: the pieces in between are kept unchanged and
    contain no further occurrence, and the result is reported as changed exactly when
    there was one. *)
Theorem replace_bytes_spec s needle rep :
  needle <> [] ->
  exists p pieces,
    s = join needle (p :: pieces)
    /\ replace_bytes s needle rep = (join rep (p :: pieces), bool_decide (pieces <> []))
    /\ Forall (fun q => ~ occurs needle q) (p :: pieces).
Proof.
  intros N. unfold replace_bytes. rewrite bool_decide_eq_false_2 by done. apply replace_from_spec; [done|lia].
Qed.

(** C34: no mediated connection escapes the policy.  A relayed TLS stream and a
    forwarded request only attempt addresses that the policy does not deny and that,
    unless the policy allows local destinations, are in none of the blocks of loopback,
    private, link-local, multicast and other reserved addresses and are none of the
    host's own; an IPv6 address is judged by the IPv6 blocks alone, so an IPv4 address
    that is mapped to IPv6 is in none of them.  They do so only for a host name the
    policy admits; a flow to the exposed host service only ever reaches that service,
    under its own name.  A forwarded request is never a CONNECT tunnel and names the host
    of its TLS session. *)
Theorem mediated_egress_confined {M} `{HeaderMapLaws M} ext p target :
  (forall sni port tried up,
     serve_https ext p target sni port = Ok (Some (tried, up)) ->
     confined ext p target (to_ascii_lowercase sni) port tried up)
  /\ (forall tls_host port (request : Request M) out,
     forward ext p target tls_host port request = Ok out ->
     confined ext p target (out_host out) port (attempted out) (upstream out)
     /\ (forall sni, tls_host = Some sni -> out_host out = sni)
     /\ method request <> str "CONNECT").
Proof.
  split.
  - intros sni port tried up E. unfold serve_https in E. apply obind_Ok in E as ([] & R & E).
    destruct (negb _) in E; [|done]. apply (connect_confined ext p target _ port) in R.
    injection E as E. by rewrite E in R.
  - intros tls_host port request out E. unfold forward in E. case_bool_decide as Cn; [done|].
    apply obind_Ok in E as (wu & _ & E). apply obind_Ok in E as (au & _ & E).
    apply obind_Ok in E as ([] & R & E). destruct (match tls_host with
      | Some sni => negb (bool_decide (sni = to_ascii_lowercase (auth_host au))) | None => false end) eqn:T; [done|].
    apply obind_Ok in E as (hs & _ & E). apply obind_Ok in E as ([hs' inj] & _ & E).
    apply (connect_confined ext p target _ port) in R.
    destruct (connect ext p target _ port) as [tried up]. injection E as <-. cbn in *.
    split_and!; [done| |done]. intros sni ->. bool_prop. by subst.
Qed.

(** C33: secrets go only where a rule sends them.  A request to a host with secret
    rules is forwarded only when one of its rules admits its host, path and method;
    injection keeps the header names and their order, and writes only headers that
    the rule selects and that are not connection headers; a rule restricted to
    GraphQL queries takes part only when the body was admitted as one. *)
Theorem secrets_confined {M} `{HeaderMapLaws M} ext p (request : Request M) host path meth hs injected :
  apply_request_policy ext p request host path meth = Ok (hs, injected) ->
  exists rules,
    Forall (fun r => r ∈ secret_injection p /\ rule_admits host path meth r = true
                     /\ (is_Some (graphql r) -> inspect_graphql_request ext request = Ok None)) rules
    /\ Forall2 (injected_by rules) (entries (headers request)) (entries hs)
    /\ (injects_secret_for_host p host = true -> rules <> []).
Proof.
  unfold apply_request_policy. set (rules := List.filter _ (secret_injection p)).
  assert (A : Forall (fun r => r ∈ secret_injection p /\ rule_admits host path meth r = true) rules).
  { apply Forall_forall. intros r Hr%list_elem_of_In. apply List.filter_In in Hr as [I E].
    split; [by apply list_elem_of_In|done]. }
  destruct (injects_secret_for_host p host && _) eqn:D; [done|]. intros E.
  apply obind_Ok in E as (ge & G & E). destruct ge as [err|].
  - case_bool_decide as L; [done|]. exists (List.filter (fun r => bool_decide (graphql r = None)) rules).
    split_and!.
    + apply Forall_forall. intros r Hr%list_elem_of_In. apply List.filter_In in Hr as [I X]. bool_prop.
      rewrite Forall_forall in A. destruct (A r) as [? ?]; [by apply list_elem_of_In|].
      split_and!; [done|done|]. intros [? Y]. congruence.
    + by eapply inject_secrets_ok.
    + intros _ X. by rewrite X in L.
  - exists rules. split_and!.
    + apply Forall_forall. intros r Hr. rewrite Forall_forall in A. destruct (A r Hr) as [? ?].
      split_and!; [done|done|]. intros S. destruct (existsb _ rules) eqn:X in G; [done|].
      exfalso. assert (existsb (fun r => bool_decide (is_Some (graphql r))) rules = true) as Y; [|congruence].
      apply existsb_exists. exists r. split; [by apply list_elem_of_In|by apply bool_decide_eq_true].
    + by eapply inject_secrets_ok.
    + intros I X. rewrite I, X in D. done.
Qed.

(** A GraphQL body is admitted only if every operation of the document is a
    query, nothing but operations and fragments is defined, and exactly one
    operation is selected. *)
Theorem graphql_queries_only ext body :
  GraphQl.admit_queries_only ext body = Ok tt ->
  exists query name defs ops,
    json_envelope ext body = Some (query, name) /\ graphql_document ext query = Some defs
    /\ GraphQl.operations_of defs = Some ops
    /\ Forall (fun o : GraphQl.operation => o.1 = None \/ o.1 = Some Query) ops
    /\ match name with
       | Some n => len (filter (fun o : GraphQl.operation => o.2 = Some n) ops) = 1
       | None => len ops = 1
       end.
Proof.
  unfold GraphQl.admit_queries_only. destruct (json_envelope ext body) as [[query name]|]; [|done].
  destruct (graphql_document ext query) as [defs|] eqn:D; [|done].
  destruct (GraphQl.operations_of defs) as [ops|] eqn:O; [|done].
  destruct (existsb _ ops) eqn:Q; [done|]. destruct (_ && _); [done|].
  destruct (negb _) eqn:S; [done|]. intros _. bool_prop. exists query, name, defs, ops.
  split_and!; [done|done|done| |by destruct name]. apply Forall_forall. intros [t n] I.
  destruct t as [[]|]; cbn; [by right| | |by left];
    (exfalso; assert (existsb (fun o => negb (GraphQl.is_query o)) ops = true);
     [apply existsb_exists; eexists; split; [by apply list_elem_of_In|done]|congruence]).
Qed.

(** What is forwarded after sanitizing is exactly the end-to-end headers and one
    connection header: hop-by-hop headers and every header named by a connection
    header are gone (an admitted upgrade keeps its own header), nothing else is. *)
Theorem hop_by_hop_stripped {M} `{HeaderMapLaws M} ext (hs : M) pu e :
  e ∈ entries (strip_hop_by_hop ext hs pu)
  <-> e = (CONNECTION, if pu then str "upgrade" else str "close")
      \/ (e ∈ entries hs /\ e.1 <> CONNECTION
          /\ ((pu = true /\ e.1 = UPGRADE) \/ (e.1 ∉ connection_headers ext hs /\ e.1 ∉ hop_by_hop))).
Proof. apply strip_entries. Qed.

(** ** Witnesses *)

(** Association lists as header maps. *)
#[export] Instance assoc_headers : HeaderMap (list (bytes * bytes)) := {|
  entries := id;
  hm_insert n v m := (n, v) :: filter (fun e => e.1 <> n) m;
  hm_remove n m := filter (fun e => e.1 <> n) m;
  hm_assign vs m := zip m.*1 vs;
|}.
#[export] Instance assoc_headers_laws : HeaderMapLaws (list (bytes * bytes)).
Proof. by split. Qed.

Definition sample_upstream : SocketAddr := {| ip := V4 (ipv4 93 184 216 34); port := 80 |}.
Definition sample_local : SocketAddr := {| ip := V4 (ipv4 127 0 0 1); port := 80 |}.
Definition sample_ext : Externals :=
  {| to_str := Some; header_value := Some; header_name := Some;
     base64_encode := id; base64_decode := Some;
     parse_authority := fun h => Some {| auth_host := h; auth_port := None |};
     parse_uri := fun _ => None;
     json_envelope := fun b => Some (b, None);
     graphql_document := fun _ => Some [OperationDefinition (Some Query) None; FragmentDefinition];
     resolve_reference := fun _ => Ok (str "s3cret");
     lookup_host := fun _ _ => Ok [sample_local; sample_upstream];
     interfaces := fun _ => Ok [];
     tcp_connect := fun _ => Ok tt |}.
Definition sample_request : Request (list (bytes * bytes)) :=
  {| method := str "POST"; uri_authority := None; uri_path := str "/api/**";
     headers := [(HOST, str "api.example.com"); (CONTENT_TYPE, str "application/json; charset=utf-8");
                 (AUTHORIZATION, str "Bearer tascarrel-secret:api-token"); (str "x-copy", str "tascarrel-secret:api-token")];
     body := Some (str "{a}") |}.

Lemma replace_bytes_spec_witness :
  exists p pieces, str "a-XX-bXXc" = join (str "XX") (p :: pieces)
    /\ join (str "s") (p :: pieces) = str "a-s-bsc".
Proof.
  destruct (replace_bytes_spec (str "a-XX-bXXc") (str "XX") (str "s")) as (p & pieces & E & R & _); [done|].
  exists p, pieces. split; [exact E|]. vm_compute in R. injection R as R _. exact (eq_sym R).
Defined.

Lemma secrets_confined_witness :
  exists rules,
    rules <> [] /\ Forall2 (injected_by rules) (headers sample_request)
      [(HOST, str "api.example.com"); (CONTENT_TYPE, str "application/json; charset=utf-8");
       (AUTHORIZATION, str "Bearer s3cret"); (str "x-copy", str "tascarrel-secret:api-token")].
Proof.
  destruct (secrets_confined sample_ext sample_policy sample_request (str "api.example.com") (str "/api/**")
    (str "POST") [(HOST, str "api.example.com"); (CONTENT_TYPE, str "application/json; charset=utf-8");
       (AUTHORIZATION, str "Bearer s3cret"); (str "x-copy", str "tascarrel-secret:api-token")] true)
    as (rules & _ & F & N); [vm_compute; reflexivity|].
  exists rules. split; [apply N; vm_compute; reflexivity|exact F].
Defined.

Lemma graphql_queries_only_witness :
  exists ops, len ops = 1 /\ Forall (fun o : GraphQl.operation => o.1 = None \/ o.1 = Some Query) ops.
Proof.
  destruct (graphql_queries_only sample_ext (str "{a}")) as (q & n & defs & ops & E & _ & _ & Q & L);
    [vm_compute; reflexivity|].
  exists ops. vm_compute in E. injection E as _ <-. by split.
Defined.

Lemma mediated_egress_confined_witness :
  confined sample_ext sample_policy RequestHost (str "www.test") 443 [sample_upstream] (Ok (Address sample_upstream))
  /\ exists out, forward sample_ext sample_policy RequestHost None 80 sample_request = Ok out
     /\ confined sample_ext sample_policy RequestHost (out_host out) 80 (attempted out) (upstream out).
Proof.
  destruct (@mediated_egress_confined (list (bytes * bytes)) _ _ sample_ext sample_policy RequestHost) as [R F].
  split; [exact (R (str "www.test") 443 _ _ eq_refl)|].
  destruct (forward sample_ext sample_policy RequestHost None 80 sample_request) as [out|e|m] eqn:E;
    [|vm_compute in E; discriminate E|vm_compute in E; discriminate E].
  exists out. split; [reflexivity|]. exact (proj1 (F _ _ _ _ E)).
Defined.

Lemma hop_by_hop_stripped_witness :
  (str "x-secret", str "1") ∉ entries (strip_hop_by_hop sample_ext
     [(CONNECTION, str "close, x-secret"); (str "x-secret", str "1"); (str "te", str "trailers"); (HOST, str "h")] false).
Proof.
  rewrite (hop_by_hop_stripped sample_ext). intros [E|(_ & _ & [[E _]|[N _]])]; [by vm_compute in E|done|].
  apply N. vm_compute. set_solver.
Defined.

(** The mediator connects the sample request to its public address only. *)
Example sample_forward :
  match forward sample_ext sample_policy RequestHost None 80 sample_request with
  | Ok out => bool_decide (attempted out = [sample_upstream]) && secrets_injected out
  | _ => false
  end = true.
Proof. vm_compute. reflexivity. Qed.
