(* ===== verification/RepoPolicy.v ===== *)
(** * Git publication policies

    [crates/libs/tascarrel-hostd/src/services/repositories/policy.rs]: the ordered
    branch and tag rules that decide whether a push is published, retained for
    approval or denied, with the identifiers of [tascarrel-git/src/types.rs] and
    [tascarrel-api/src/ids.rs] they use.  The [globset] crate is a parameter. *)

From S2P Require Import Prelude Utf8 Text.

Module Git.

(** ** Identifiers *)

(** [byte.is_ascii_hexdigit()]. *)
Definition is_ascii_hexdigit (b : Z) : bool :=
  is_ascii_digit b || ((97 <=? b) && (b <=? 102)) || ((65 <=? b) && (b <=? 70)).

(** [ObjectId::new]. *)
Definition object_id (value : bytes) : option bytes :=
  if negb ((len value =? 40) || (len value =? 64)) || negb (forallb is_ascii_hexdigit value)
  then None else Some (to_ascii_lowercase value).

(** [valid_reference]. *)
Definition valid_component (component : bytes) : bool :=
  negb (bool_decide (component = []))
  && negb (starts_with (str ".") component)
  && negb (eq_ignore_ascii_case (dropz (saturating_sub (len component) 5) component) (str ".lock")).
Definition valid_reference (value : bytes) : bool :=
  if negb (starts_with (str "refs/") value)
     || ends_with (str "/") value
     || ends_with (str ".") value
     || bool_decide (value = str "refs/@")
     || contains_str (str "..") value
     || contains_str (str "@{") value
     || contains_str (str "//") value
     || existsb (fun b => (b <=? 32) || (b =? 127) || contains b (str "~^:?*[\")) value
  then false
  else forallb valid_component (split 47 value).

(** [ReferenceName::new]; a reference is its text. *)
Definition reference_name (value : bytes) : option bytes :=
  if valid_reference value then Some value else None.
Definition is_branch (r : bytes) : bool := starts_with (str "refs/heads/") r.
Definition is_tag (r : bytes) : bool := starts_with (str "refs/tags/") r.

(** [ReceiveNamespace::new]. *)
Definition receive_namespace_ok (value : bytes) : bool :=
  negb (bool_decide (value = [])) && (len value <=? 128)
  && forallb (fun b => is_ascii_alphanumeric b || (b =? 95) || (b =? 45)) value.

(** ** Policies *)

(** [RepositoryPushPolicy], ordered as declared. *)
Inductive RepositoryPushPolicy := Allow | RequireApproval | Deny.
#[export] Instance RepositoryPushPolicy_eq_dec : EqDecision RepositoryPushPolicy.
Proof. solve_decision. Defined.
Definition rank (p : RepositoryPushPolicy) : Z :=
  match p with Allow => 0 | RequireApproval => 1 | Deny => 2 end.
Definition max_policy (p q : RepositoryPushPolicy) : RepositoryPushPolicy :=
  if rank p <=? rank q then q else p.

Record RepositoryPolicyRule := {
  pattern : bytes; matcher : bytes -> bool; policy : RepositoryPushPolicy
}.
Record RepositoryPolicy := {
  default_action : RepositoryPushPolicy;
  branches : list RepositoryPolicyRule;
  tags : list RepositoryPolicyRule;
}.

Inductive Kind := Branch | Tag.
Inductive RepositoryPolicyError :=
| InvalidPolicy (value : bytes)
| InvalidPattern (kind : Kind) (pattern : bytes)
| RuleLimit (kind : Kind).

Definition MAX_RULES : Z := 256.
Definition MAX_PATTERN_BYTES : Z := 1024.

Definition parse_policy (value : option bytes) : outcome RepositoryPolicyError RepositoryPushPolicy :=
  let value := default (str "require-approval") value in
  if bool_decide (value = str "allow") then Ok Allow
  else if bool_decide (value = str "deny") then Ok Deny
  else if bool_decide (value = str "require-approval") then Ok RequireApproval
  else Err (InvalidPolicy value).

(** [reference_policy] and [updates_policy]. *)
Definition rules_policy (p : RepositoryPolicy) (rules : list RepositoryPolicyRule) (name : bytes)
  : RepositoryPushPolicy :=
  match List.find (fun rule => matcher rule name) rules with
  | Some rule => policy rule
  | None => default_action p
  end.
Definition reference_policy (p : RepositoryPolicy) (reference : bytes) : RepositoryPushPolicy :=
  match strip_prefix (str "refs/heads/") reference with
  | Some name => rules_policy p (branches p) name
  | None =>
      match strip_prefix (str "refs/tags/") reference with
      | Some name => rules_policy p (tags p) name
      | None => Deny
      end
  end.
Definition updates_policy (p : RepositoryPolicy) (references : list bytes) : RepositoryPushPolicy :=
  match map (reference_policy p) references with
  | [] => Allow
  | first :: rest => fold_left max_policy rest first
  end.

(** [RepositoryPolicy::default]. *)
Definition default_policy : RepositoryPolicy :=
  {| default_action := RequireApproval; branches := []; tags := [] |}.

(** [config_api::WorkspaceGitConfig] and its rules. *)
Record RuleConfig := { rc_pattern : bytes; rc_policy : bytes }.
Record GitConfig := {
  gc_default : option bytes; gc_branches : option (list RuleConfig); gc_tags : option (list RuleConfig)
}.

Section compile.
(** [globset::escape] and [GlobBuilder::build] with literal separators and without
    backslash escapes. *)
Variable escape : bytes -> bytes.
Variable build : bytes -> option (bytes -> bool).

(** The literal before the next star, and the rest. *)
Fixpoint literal (s : bytes) : bytes * bytes :=
  match s with
  | b :: s' => if b =? 42 then ([], s) else let '(l, rest) := literal s' in (b :: l, rest)
  | [] => ([], [])
  end.
Fixpoint stars (s : bytes) : Z * bytes :=
  match s with
  | b :: s' => if b =? 42 then let '(n, rest) := stars s' in (n + 1, rest) else (0, s)
  | [] => (0, [])
  end.

(** The scanning loop of [compile_pattern]; [start] tells whether what precedes is
    the start of a component.  Every turn but the last consumes a star. *)
Fixpoint glob_of (fuel : nat) (start : bool) (s : bytes) : option bytes :=
  match fuel with
  | O => None
  | S fuel' =>
      let '(lit, rest) := literal s in
      match rest with
      | [] => Some (escape lit)
      | _ :: _ =>
          let '(n, after) := stars rest in
          let component_start :=
            match last lit with Some b => b =? 47 | None => start end in
          let component_end := match after with [] => true | b :: _ => b =? 47 end in
          let token :=
            if n =? 1 then Some (str "*")
            else if (n =? 2) && component_start && component_end then Some (str "**")
            else None in
          match token with
          | None => None
          | Some t =>
              match glob_of fuel' false after with
              | Some g => Some (escape lit ++ t ++ g)
              | None => None
              end
          end
      end
  end.

Definition candidate (pattern : bytes) : bytes := map (fun b => if b =? 42 then 120 else b) pattern.
Definition compile_pattern (pattern : bytes) (kind : Kind)
  : outcome RepositoryPolicyError (bytes -> bool) :=
  if bool_decide (pattern = []) || (MAX_PATTERN_BYTES <? len pattern)
  then Err (InvalidPattern kind pattern)
  else
    let reference :=
      match kind with Branch => str "refs/heads/" | Tag => str "refs/tags/" end ++ candidate pattern in
    if negb (valid_reference reference) then Err (InvalidPattern kind pattern)
    else
      let? glob := ok_or (glob_of (S (length pattern)) true pattern) (InvalidPattern kind pattern) in
      ok_or (build glob) (InvalidPattern kind pattern).

Definition compile_rules (rules : option (list RuleConfig)) (kind : Kind)
  : outcome RepositoryPolicyError (list RepositoryPolicyRule) :=
  let rules := default [] rules in
  if MAX_RULES <? len rules then Err (RuleLimit kind)
  else collect (fun rule =>
         let? m := compile_pattern (rc_pattern rule) kind in
         let? action := parse_policy (Some (rc_policy rule)) in
         Ok {| pattern := rc_pattern rule; matcher := m; policy := action |}) rules.

(** [RepositoryPolicy::from_config]. *)
Definition from_config (config : option GitConfig) : outcome RepositoryPolicyError RepositoryPolicy :=
  match config with
  | None => Ok default_policy
  | Some c =>
      let? d := parse_policy (gc_default c) in
      let? bs := compile_rules (gc_branches c) Branch in
      let? ts := compile_rules (gc_tags c) Tag in
      Ok {| default_action := d; branches := bs; tags := ts |}
  end.
End compile.

(** ** Lemmas *)
Lemma max_policy_rank p q : rank (max_policy p q) = Z.max (rank p) (rank q).
Proof. by destruct p, q. Qed.
Lemma rank_inj p q : rank p = rank q -> p = q.
Proof. by destruct p, q. Qed.

Lemma fold_max_spec ps : forall p,
  (fold_left max_policy ps p = p \/ fold_left max_policy ps p ∈ ps)
  /\ Forall (fun q => rank q <= rank (fold_left max_policy ps p)) (p :: ps).
Proof.
  induction ps as [|q ps IH]; intros p; cbn [fold_left].
  - split; [by left|]. constructor; [done|constructor].
  - destruct (IH (max_policy p q)) as [M F]. inversion F as [|? ? B F']; subst.
    rewrite max_policy_rank in B. split.
    + destruct M as [M|M]; [|right; set_solver]. rewrite M. unfold max_policy.
      case_match; [right; set_solver|by left].
    + repeat constructor; [lia|lia|done].
Qed.

(** The policy of a set of updates is the one of its most restrictive member. *)
Lemma updates_policy_max p refs :
  refs <> [] ->
  (exists r, r ∈ refs /\ reference_policy p r = updates_policy p refs)
  /\ Forall (fun r => rank (reference_policy p r) <= rank (updates_policy p refs)) refs.
Proof.
  unfold updates_policy. destruct refs as [|r refs]; [done|]. intros _. cbn [map].
  destruct (fold_max_spec (map (reference_policy p) refs) (reference_policy p r)) as [M F]. split.
  - destruct M as [M|M]; [exists r; split; [set_solver|by rewrite M]|].
    apply list_elem_of_fmap in M as (r' & E & I). exists r'. split; [set_solver|by rewrite E].
  - inversion F as [|? ? B F']; subst. constructor; [done|]. exact (proj1 (Forall_map _ _ _) F').
Qed.

Lemma literal_spec s : forall l rest, literal s = (l, rest) ->
  s = l ++ rest /\ 42 ∉ l /\ (rest = [] \/ exists rest', rest = 42 :: rest').
Proof.
  induction s as [|b s IH]; intros l rest; cbn.
  - intros [= <- <-]. split_and!; [done|set_solver|by left].
  - destruct (b =? 42) eqn:E; bool_prop.
    + intros [= <- <-]. subst. split_and!; [done|set_solver|right; by eexists].
    + destruct (literal s) as [l' r'] eqn:L. intros [= <- <-]. destruct (IH _ _ eq_refl) as (-> & N & R).
      split_and!; [done|set_solver|done].
Qed.
Lemma stars_len s : forall n rest, stars s = (n, rest) -> (length rest <= length s)%nat.
Proof.
  induction s as [|b s IH]; intros n rest; cbn; [by intros [= <- <-]|].
  destruct (b =? 42); [|by intros [= <- <-]]. destruct (stars s) as [m r] eqn:E. intros [= <- <-].
  pose proof (IH _ _ eq_refl). lia.
Qed.
Lemma stars_cons s n rest : stars (42 :: s) = (n, rest) -> (length rest <= length s)%nat.
Proof.
  cbn. destruct (stars s) as [m r] eqn:E. intros [= <- <-]. by eapply stars_len.
Qed.
(** The fuel of [compile_pattern] is enough: more changes nothing. *)
Lemma glob_of_fuel escape fuel : forall start s extra,
  (length s < fuel)%nat -> glob_of escape (fuel + extra) start s = glob_of escape fuel start s.
Proof.
  induction fuel as [|fuel IH]; intros start s extra L; [lia|]. cbn [Nat.add glob_of].
  destruct (literal s) as [lit rest] eqn:E. destruct (literal_spec _ _ _ E) as (-> & _ & R).
  destruct R as [->|[rest' ->]]; [done|]. destruct (stars (42 :: rest')) as [n after] eqn:S.
  pose proof (stars_cons _ _ _ S). rewrite length_app in L. cbn in L.
  destruct (if n =? 1 then _ else _); [|done]. rewrite IH by lia. done.
Qed.
End Git.
