(* ===== verification/RepoStore.v ===== *)
(** * Approval store

    [crates/libs/tascarrel-hostd/src/services/repositories/approval.rs]: the
    directory that holds pending approvals and publication claims.

    A directory is what its paths lead to: a regular file with its size and its
    decoded content ([None] when it does not decode), or something else.  A write
    goes to a temporary file that is renamed into place, so a record changes at
    the rename or not at all; temporary files are not listed.  Every system call
    takes the next element of [faults], which says whether it fails: theorems hold
    for every sequence of failures.  JSON encoding is a parameter, by the length
    of a record's encoding.  An entry that is not a regular file exists for
    [Path::exists]: dangling symbolic links are left out. *)

From S2P Require Import Prelude Effects Lists Utf8 Text RepoPolicy.

(** ** Identifiers ([tascarrel-api/src/ids.rs]) *)
Definition is_base58 (b : Z) : bool :=
  contains b (str "123456789ABCDEFGHJKLMNPQRSTUVWXYZabcdefghijkmnopqrstuvwxyz").
(** [FromStr] of an identifier type with the default suffix length. *)
Definition parse_id (prefix value : bytes) : bool :=
  match strip_prefix prefix value with
  | None => false
  | Some suffix => (len suffix =? 22) && forallb is_base58 suffix
  end.
Definition pod_id_ok (value : bytes) : bool := parse_id (str "pod_") value.

(** ** System calls *)
Inductive StoreError :=
| NotFound | AlreadyExists | AlreadyPublishing | NotPublishing | NotPending
| InvalidTransition | InvalidRecord | UnsupportedVersion (version : Z) | UnsafePath
| RecordLimit | RecordTooLarge | Io
(** [invalid_request] of the repository manager. *)
| Refused (message : string).
#[export] Instance StoreError_eq_dec : EqDecision StoreError.
Proof. solve_decision. Defined.

Inductive entry (R : Type) := Regular (content : option R) (size : Z) | Other.
Arguments Regular {R}. Arguments Other {R}.

Definition syscall {D} : call D StoreError unit := fallible Io.

Module Approvals.

Definition APPROVAL_RECORD_VERSION : Z := 1.
Definition MAX_APPROVAL_RECORDS : Z := 10000.
Definition MAX_APPROVAL_RECORD_BYTES : Z := 1024 * 1024.

Record RepositoryApprovalUpdate := {
  source_ref : bytes; destination : bytes; expected : option bytes; proposed : bytes;
  allow_rewrite : bool
}.
Record RepositoryApproval := {
  version : Z; id : bytes; pod_id : bytes; path : bytes; repository_id : bytes; source : bytes;
  created_at : Z; updates : list RepositoryApprovalUpdate; push_id : option bytes;
  receive_namespace : option bytes; postponed : bool; last_error : option bytes; publishing : bool
}.
#[export] Instance eta_RepositoryApproval : Eta RepositoryApproval :=
  fun r => {| version := version r; id := id r; pod_id := pod_id r; path := path r;
              repository_id := repository_id r; source := source r; created_at := created_at r;
              updates := updates r; push_id := push_id r; receive_namespace := receive_namespace r;
              postponed := postponed r; last_error := last_error r; publishing := publishing r |}.

(** [Path::components] of a Unix path has only normal components: it is relative,
    does not start with a dot component and never goes up. *)
Definition normal_components (p : bytes) : bool :=
  negb (starts_with (str "/") p)
  && negb (bool_decide (head (split 47 p) = Some (str ".")))
  && negb (bool_decide (str ".." ∈ split 47 p)).

Definition diagnostic_ok (e : bytes) : bool :=
  negb (bool_decide (e = []) || (4096 <? len e) || contains 0 e).
(** [char::is_control] on the UTF-8 of a string: C0, DEL, and C1 (194 followed by
    128 to 159). *)
Fixpoint has_control (s : bytes) : bool :=
  match s with
  | b :: s' =>
      (b <? 32) || (b =? 127)
      || ((b =? 194) && match s' with c :: _ => (128 <=? c) && (c <=? 159) | [] => false end)
      || has_control s'
  | [] => false
  end.
Definition update_ok (u : RepositoryApprovalUpdate) : bool :=
  match Git.reference_name (destination u) with
  | None => false
  | Some d =>
      Git.valid_reference (source_ref u) && (Git.is_branch d || Git.is_tag d)
      && match expected u with Some o => bool_decide (is_Some (Git.object_id o)) | None => true end
      && bool_decide (is_Some (Git.object_id (proposed u)))
  end.

(** [RepositoryApproval::validate]. *)
Definition validate (a : RepositoryApproval) : outcome StoreError unit :=
  if negb (version a =? APPROVAL_RECORD_VERSION) then Err (UnsupportedVersion (version a))
  else if bool_decide (path a = []) || negb (normal_components (path a))
          || negb (pod_id_ok (pod_id a))
          || bool_decide (source a = []) || (4096 <? len (source a)) || has_control (source a)
          || negb (len (repository_id a) =? 64)
          || negb (forallb (fun b => Git.is_ascii_hexdigit b && negb (is_ascii_uppercase b)) (repository_id a))
          || bool_decide (length (updates a) = 0%nat)
          || match last_error a with Some e => negb (diagnostic_ok e) | None => false end
  then Err InvalidRecord
  else if match receive_namespace a with Some n => negb (Git.receive_namespace_ok n) | None => false end
          || existsb (fun u => negb (update_ok u)) (updates a)
  then Err InvalidRecord
  else Ok tt.

(** The approvals directory: [<id>.json] and [<id>.claim]. *)
Record Dir := { records : gmap bytes (entry RepositoryApproval); claims : gmap bytes bool }.
#[export] Instance eta_Dir : Eta Dir := fun d => {| records := records d; claims := claims d |}.
Definition op (A : Type) : Type := call Dir StoreError A.

Section store.
(** The length of [serde_json::to_vec] on a record. *)
Variable encoded_len : RepositoryApproval -> Z.

Definition read_path (i : bytes) : op RepositoryApproval :=
  do! syscall;
  do d <- get;
  match records d !! i with
  | None => raise Io
  | Some Other => raise UnsafePath
  | Some (Regular content size) =>
      if MAX_APPROVAL_RECORD_BYTES <? size then raise UnsafePath
      else
        do! syscall;
        match content with
        | None => raise InvalidRecord
        | Some a =>
            match validate a with
            | Ok _ => if bool_decide (id a = i) then ret a else raise InvalidRecord
            | Err e => raise e
            | Panic s => fun w => (Panic s, w)
            end
        end
  end.

(** A claim is a regular file ([true]). *)
Definition claim_exists (i : bytes) : op bool :=
  do! syscall;
  do d <- get;
  match claims d !! i with
  | Some true => ret true
  | Some false => raise UnsafePath
  | None => ret false
  end.

Definition read (i : bytes) : op RepositoryApproval :=
  do! syscall;
  do d <- get;
  match records d !! i with
  | None => raise NotFound
  | Some _ =>
      do a <- read_path i;
      do p <- claim_exists i;
      ret (a <| publishing := p |>)
  end.

(** The loop of [list] over the records of the directory. *)
Fixpoint list_loop (ids : list bytes) (approvals : list RepositoryApproval) : op (list RepositoryApproval) :=
  match ids with
  | [] => ret approvals
  | i :: rest =>
      do! syscall;
      if len approvals =? MAX_APPROVAL_RECORDS then raise RecordLimit
      else
        do a <- read_path i;
        do p <- claim_exists (id a);
        list_loop rest (approvals ++ [a <| publishing := p |>])
  end.
(** The ordering of approvals by age and identifier. *)
Definition older (a b : RepositoryApproval) : bool :=
  (created_at a <? created_at b) || ((created_at a =? created_at b) && bytes_leb (id a) (id b)).
(** [RepositoryApprovalStore::list]; records are listed in any order. *)
Definition list_approvals : op (list RepositoryApproval) :=
  do! syscall;
  do d <- get;
  do l <- list_loop (map fst (map_to_list (records d))) [];
  ret (sort_by older l).
Definition claimed : op (list RepositoryApproval) :=
  do l <- list_approvals;
  ret (filter (fun a => publishing a = true) l).

(** [write]: [publishing] is not serialized. *)
Definition write (a : RepositoryApproval) : op unit :=
  if MAX_APPROVAL_RECORD_BYTES <? encoded_len a then raise RecordTooLarge
  else
    do! syscall;
    do result <- attempt (
      do! syscall; do! syscall; do! syscall;
      do! put (fun d => d <| records := <[id a := Regular (Some (a <| publishing := false |>)) (encoded_len a)]> (records d) |>);
      syscall);
    match result with
    | Ok _ => ret tt
    | Err e => do! next_fault; raise e
    | Panic s => fun w => (Panic s, w)
    end.

(** [Path::exists] is false when the call fails. *)
Definition exists_path (present : Dir -> bool) : op bool :=
  do failed <- next_fault;
  do d <- get;
  ret (negb failed && present d).
Definition create (a : RepositoryApproval) : op unit :=
  match validate a with
  | Err e => raise e
  | Panic s => fun w => (Panic s, w)
  | Ok _ =>
      do record <- exists_path (fun d => bool_decide (is_Some (records d !! id a)));
      if (record : bool) then raise AlreadyExists
      else
        do claim <- exists_path (fun d => bool_decide (is_Some (claims d !! id a)));
        if (claim : bool) then raise AlreadyExists else write a
  end.

Definition postpone (i : bytes) : op unit :=
  do a <- read i;
  if publishing a || bool_decide (is_Some (last_error a)) then raise NotPending
  else if postponed a then ret tt
  else write (a <| postponed := true |>).

Definition claim (i : bytes) : op (option RepositoryApproval) :=
  do a <- read i;
  if publishing a then ret None
  else
    do d <- get;
    do failed <- next_fault;
    if (failed : bool) then raise Io
    else if bool_decide (is_Some (claims d !! i)) then
      do again <- read i;
      if publishing again then ret None else raise AlreadyPublishing
    else
      do! put (fun d => d <| claims := <[i := true]> (claims d) |>);
      do! syscall;
      do! syscall;
      let a := a <| last_error := None |> <| publishing := true |> in
      do result <- attempt (write a);
      match result with
      | Ok _ => ret (Some a)
      | Err e =>
          do failed <- next_fault;
          do! put (fun d => if failed : bool then d else d <| claims := delete i (claims d) |>);
          raise e
      | Panic s => fun w => (Panic s, w)
      end.

Definition remove_claim (i : bytes) : op unit :=
  do! syscall;
  do d <- get;
  match claims d !! i with
  | None => raise NotPublishing
  | Some false => raise UnsafePath
  | Some true =>
      do! syscall;
      do! put (fun d => d <| claims := delete i (claims d) |>);
      syscall
  end.
Definition remove_record (i : bytes) : op unit :=
  do! syscall;
  do d <- get;
  match records d !! i with
  | None => raise NotFound
  | Some Other => raise UnsafePath
  | Some (Regular _ _) =>
      do! syscall;
      put (fun d => d <| records := delete i (records d) |>)
  end.

Definition fail_claim (i error : bytes) : op unit :=
  if negb (diagnostic_ok error) then raise InvalidRecord
  else
    do claimed <- claim_exists i;
    if negb claimed then raise NotPublishing
    else
      do a <- read_path i;
      do! write (a <| last_error := Some error |>);
      remove_claim i.

Definition complete_claim (i : bytes) : op unit :=
  do claimed <- claim_exists i;
  if negb claimed then raise NotPublishing
  else
    do! remove_record i;
    remove_claim i.

Definition remove (i : bytes) : op unit :=
  do claimed <- claim_exists i;
  if (claimed : bool) then raise AlreadyPublishing
  else
    do! remove_record i;
    syscall.
End store.
End Approvals.
