(* ===== verification/RepoPushes.v ===== *)
(** * Push status store

    [crates/libs/tascarrel-hostd/src/services/repositories/push.rs]: the directory
    that holds the observable status of every push, with the conventions of the
    approval store: a write changes a record at its rename or not at all, every
    system call may fail, and the age of a file is a parameter. *)

From S2P Require Import Prelude Effects Utf8 Text RepoPolicy RepoStore.

Module Pushes.

Definition STATUS_RECORD_VERSION : Z := 1.
Definition MAX_STATUS_RECORDS : Z := 10000.
Definition MAX_STATUS_RECORD_BYTES : Z := 16 * 1024.
(** Twenty-four hours, in seconds. *)
Definition TERMINAL_STATUS_RETENTION : Z := 86400.

Inductive RepositoryPushState :=
| Published
| ApprovalRequired (approval : bytes)
| Denied (message : bytes)
| Rejected
| Failed (message : bytes).
#[export] Instance RepositoryPushState_eq_dec : EqDecision RepositoryPushState.
Proof. solve_decision. Defined.

Definition is_valid (s : RepositoryPushState) : bool :=
  match s with
  | Published | ApprovalRequired _ | Rejected => true
  | Denied message | Failed message =>
      negb (bool_decide (message = [])) && (len message <=? 4096) && negb (contains 0 message)
  end.
Definition is_terminal (s : RepositoryPushState) : bool :=
  match s with ApprovalRequired _ => false | _ => true end.

Record RepositoryPushStatus := {
  version : Z; id : bytes; pod_id : bytes; state : RepositoryPushState
}.
#[export] Instance eta_RepositoryPushStatus : Eta RepositoryPushStatus :=
  fun s => {| version := version s; id := id s; pod_id := pod_id s; state := state s |}.
(** [RepositoryPushStatus::new]. *)
Definition new (i pod : bytes) (s : RepositoryPushState) : RepositoryPushStatus :=
  {| version := STATUS_RECORD_VERSION; id := i; pod_id := pod; state := s |}.

Definition validate (s : RepositoryPushStatus) : outcome StoreError unit :=
  if negb (version s =? STATUS_RECORD_VERSION) then Err (UnsupportedVersion (version s))
  else if negb (pod_id_ok (pod_id s)) || negb (is_valid (state s)) then Err InvalidRecord
  else Ok tt.

Abbreviation Dir := (gmap bytes (entry RepositoryPushStatus)).
Definition op (A : Type) : Type := call Dir StoreError A.

Section store.
Variable encoded_len : RepositoryPushStatus -> Z.
(** The age of a file, when its modification time is known and not in the future. *)
Variable age : bytes -> option Z.

Definition read_path (i : bytes) : op RepositoryPushStatus :=
  do failed <- next_fault;
  if (failed : bool) then raise Io
  else
    do d <- get;
    match d !! i with
    | None => raise NotFound
    | Some Other => raise UnsafePath
    | Some (Regular content size) =>
        if MAX_STATUS_RECORD_BYTES <? size then raise UnsafePath
        else
          do! syscall;
          match content with
          | None => raise InvalidRecord
          | Some s =>
              match validate s with
              | Ok _ => if bool_decide (id s = i) then ret s else raise InvalidRecord
              | Err e => raise e
              | Panic m => fun w => (Panic m, w)
              end
          end
    end.

Definition write (s : RepositoryPushStatus) : op unit :=
  if MAX_STATUS_RECORD_BYTES <? encoded_len s then raise RecordTooLarge
  else
    do! syscall;
    do result <- attempt (
      do! syscall; do! syscall; do! syscall;
      do! put (fun d => <[id s := Regular (Some s) (encoded_len s)]> d);
      syscall);
    match result with
    | Ok _ => ret tt
    | Err e => do! next_fault; raise e
    | Panic m => fun w => (Panic m, w)
    end.

(** The loop of [prune_and_count] over the listed records: how many are kept and
    whether any was removed. *)
Fixpoint prune (ids : list bytes) (count : Z) (removed : bool) : op (Z * bool) :=
  match ids with
  | [] => ret (count, removed)
  | i :: rest =>
      do! syscall;
      do! syscall;
      do d <- get;
      let old :=
        match d !! i with
        | Some (Regular _ _) =>
            match age i with Some a => TERMINAL_STATUS_RETENTION <=? a | None => false end
        | _ => false
        end in
      do expired <- (if old then do s <- read_path i; ret (is_terminal (state s)) else ret false);
      if (expired : bool) then
        do failed <- next_fault;
        if (failed : bool) then prune rest (count + 1) removed
        else
          do! put (fun d => delete i d);
          prune rest count true
      else prune rest (count + 1) removed
  end.
Definition prune_and_count : op unit :=
  do! syscall;
  do d <- get;
  do (count, removed) <- prune (map fst (map_to_list d)) 0 false;
  do! (if (removed : bool) then syscall else ret tt);
  if MAX_STATUS_RECORDS <=? count then raise RecordLimit else ret tt.

Definition create (s : RepositoryPushStatus) : op unit :=
  match validate s with
  | Err e => raise e
  | Panic m => fun w => (Panic m, w)
  | Ok _ =>
      do! prune_and_count;
      do failed <- next_fault;
      do d <- get;
      if negb failed && bool_decide (is_Some (d !! id s)) then raise AlreadyExists else write s
  end.

Definition read (i pod : bytes) : op RepositoryPushStatus :=
  do s <- read_path i;
  if negb (bool_decide (pod_id s = pod)) then raise NotFound else ret s.

Definition transition (i : bytes) (s : RepositoryPushState) : op unit :=
  do status <- read_path i;
  if bool_decide (state status = s) then ret tt
  else if negb (match state status with ApprovalRequired _ => true | _ => false end)
          || negb (is_terminal s)
  then raise InvalidTransition
  else
    let status := status <| state := s |> in
    match validate status with
    | Err e => raise e
    | Panic m => fun w => (Panic m, w)
    | Ok _ => write status
    end.
End store.
End Pushes.
