(* ===== verification/RepoPublish.v ===== *)
(** * Publication of pushes

    [crates/libs/tascarrel-hostd/src/services/repositories/manager.rs]: what becomes
    of a push a pod completed, and the publication or rejection of an approval.

    The state is the two durable stores and the publications attempted upstream;
    [faults] decides every system call and Git command.  Reading the workspace
    configuration, hashing a source, parsing a remote and resolving a retained
    reference are parameters. *)

From S2P Require Import Prelude Effects Utf8 Text RepoPolicy RepoStore RepoPushes.

Module Publish.
Import Git.

(** [tascarrel_git::RefUpdate] and [RefUpdate::new]. *)
Record RefUpdate := {
  up_source : bytes; up_destination : bytes; up_expected : option bytes; up_rewrite : bool
}.
#[export] Instance RefUpdate_eq_dec : EqDecision RefUpdate.
Proof. solve_decision. Defined.
Definition ref_update (source destination : bytes) (expected : option bytes) (rewrite : bool)
  : outcome StoreError RefUpdate :=
  if negb (is_branch destination) && negb (is_tag destination)
  then Err (Refused "unsupported destination")
  else Ok {| up_source := source; up_destination := destination; up_expected := expected; up_rewrite := rewrite |}.

(** [tascarrel_git::ReceivedReferenceUpdate]; references and objects are valid by
    their types. *)
Record ReceivedReferenceUpdate := {
  rx_source : bytes; rx_destination : bytes; rx_previous : option bytes; rx_proposed : bytes;
  rx_rewrites : bool
}.

Record HostRepository := { repo_source : bytes; repo_policy : RepositoryPolicy }.

(** Both stores, and every publication attempted upstream with its remote. *)
Record State := {
  approvals : Approvals.Dir; pushes : Pushes.Dir; upstream : list (bytes * list RefUpdate)
}.
#[export] Instance eta_State : Eta State :=
  fun s => {| approvals := approvals s; pushes := pushes s; upstream := upstream s |}.
Definition op (A : Type) : Type := call State StoreError A.

Definition in_approvals {A} (m : Approvals.op A) : op A := fun w =>
  let '(r, w') := m {| dir := approvals (dir w); faults := faults w |} in
  (r, {| dir := (dir w) <| approvals := dir w' |>; faults := faults w' |}).
Definition in_pushes {A} (m : Pushes.op A) : op A := fun w =>
  let '(r, w') := m {| dir := pushes (dir w); faults := faults w |} in
  (r, {| dir := (dir w) <| pushes := dir w' |>; faults := faults w' |}).

(** [chars().take(2048)] on UTF-8: a byte that is not a continuation starts a
    character. *)
Fixpoint take_chars (n : Z) (s : bytes) : bytes :=
  match s with
  | [] => []
  | b :: s' =>
      if (128 <=? b) && (b <=? 191) then b :: take_chars n s'
      else if n <=? 0 then [] else b :: take_chars (n - 1) s'
  end.
Definition bounded_repository_diagnostic (text : bytes) : bytes := take_chars 2048 text.

(** [tascarrel_git::ApprovalId::new]. *)
Definition git_approval_id_ok (value : bytes) : bool :=
  negb (bool_decide (value = [])) && (len value <=? 128)
  && forallb (fun b => is_ascii_alphanumeric b || (b =? 95) || (b =? 45)) value.
Definition check (ok : bool) (message : string) : op unit :=
  if ok then ret tt else raise (Refused message).

Section manager.
Variable approval_len : Approvals.RepositoryApproval -> Z.
Variable status_len : Pushes.RepositoryPushStatus -> Z.
Variable age : bytes -> option Z.
(** [load_workspace_config] followed by its repositories. *)
Variable config : outcome StoreError (gmap bytes HostRepository).
Variable source_id : bytes -> bytes.
Variable display_remote : bytes -> bytes.
Variable remote_new : bytes -> outcome StoreError bytes.
Variable resolve_reference : bytes -> outcome StoreError bytes.
(** The cache directory of a repository: absent, unsafe ([false]) or a directory. *)
Variable cache : bytes -> option bool.
(** How an error is displayed. *)
Variable display : StoreError -> bytes.

(** Commands of the repository's Git store. *)
Definition git_publish (remote : bytes) (updates : list RefUpdate) : op unit :=
  do! put (fun s => s <| upstream := upstream s ++ [(remote, updates)] |>);
  syscall.
(** Best-effort cleanup, its failure being logged. *)
Definition cleanup : op unit := do! next_fault; ret tt.

Definition record_push_status (push pod : bytes) (s : Pushes.RepositoryPushState) : op unit :=
  in_pushes (Pushes.create status_len age (Pushes.new push pod s)).
Definition transition_push_status (push : bytes) (s : Pushes.RepositoryPushState) : op unit :=
  in_pushes (Pushes.transition status_len push s).
Definition finish_received_push (push pod : bytes) (s : Pushes.RepositoryPushState) : op unit :=
  do! cleanup;
  record_push_status push pod s.

Definition currently_configured_repository (path : bytes) (source : option bytes)
  : outcome StoreError (option HostRepository) :=
  let? repos := config in
  Ok (match repos !! path with
      | Some r =>
          if match source with Some s => bool_decide (repo_source r = s) | None => true end
          then Some r else None
      | None => None
      end).

Definition failed (e : StoreError) : Pushes.RepositoryPushState :=
  Pushes.Failed (bounded_repository_diagnostic (display e)).

Definition publish_received_push (push pod source : bytes) (received : list ReceivedReferenceUpdate)
  : op unit :=
  match collect (fun u => ref_update (rx_source u) (rx_destination u) (rx_previous u) (rx_rewrites u)) received with
  | Err e => finish_received_push push pod (failed e)
  | Panic m => fun w => (Panic m, w)
  | Ok updates =>
      match remote_new source with
      | Err e => finish_received_push push pod (failed e)
      | Panic m => fun w => (Panic m, w)
      | Ok remote =>
          do result <- attempt (git_publish remote updates);
          match result with
          | Ok _ => do! cleanup; finish_received_push push pod Pushes.Published
          | Err e => finish_received_push push pod (failed e)
          | Panic m => fun w => (Panic m, w)
          end
      end
  end.

Definition repository_approval_update (u : ReceivedReferenceUpdate) : Approvals.RepositoryApprovalUpdate :=
  {| Approvals.source_ref := rx_source u; Approvals.destination := rx_destination u;
     Approvals.expected := rx_previous u; Approvals.proposed := rx_proposed u;
     Approvals.allow_rewrite := rx_rewrites u |}.

Definition remove_unrecorded_approval_bases (approval : bytes) : op unit :=
  if git_approval_id_ok approval then cleanup else ret tt.
(** The loop of [retain_approval_bases]; its system call retains one base. *)
Fixpoint retain_bases (approval : bytes) (updates : list Approvals.RepositoryApprovalUpdate) : op unit :=
  match updates with
  | [] => ret tt
  | u :: rest =>
      match Approvals.expected u with
      | None => retain_bases approval rest
      | Some expected =>
          do! check (bool_decide (is_Some (object_id expected))) "invalid object";
          do retained <- attempt syscall;
          match retained with
          | Ok _ => retain_bases approval rest
          | Err e => do! remove_unrecorded_approval_bases approval; raise e
          | Panic m => fun w => (Panic m, w)
          end
      end
  end.
Definition retain_approval_bases (a : Approvals.RepositoryApproval) : op unit :=
  do! check (git_approval_id_ok (Approvals.id a)) "invalid approval identifier";
  retain_bases (Approvals.id a) (Approvals.updates a).

(** [retain_received_push_for_approval]; [approval] and [now] are the generated
    identifier and the time. *)
Definition retain_received_push_for_approval (approval : bytes) (now : Z)
    (push pod path source namespace : bytes) (received : list ReceivedReferenceUpdate) : op unit :=
  let a := {| Approvals.version := Approvals.APPROVAL_RECORD_VERSION; Approvals.id := approval;
              Approvals.pod_id := pod; Approvals.path := path;
              Approvals.repository_id := source_id source; Approvals.source := display_remote source;
              Approvals.created_at := now; Approvals.updates := map repository_approval_update received;
              Approvals.push_id := Some push; Approvals.receive_namespace := Some namespace;
              Approvals.postponed := false; Approvals.last_error := None; Approvals.publishing := false |} in
  do bases <- attempt (retain_approval_bases a);
  match bases with
  | Err e => do! cleanup; record_push_status push pod (failed e)
  | Panic m => fun w => (Panic m, w)
  | Ok _ =>
      do status <- attempt (record_push_status push pod (Pushes.ApprovalRequired approval));
      match status with
      | Err e => do! remove_unrecorded_approval_bases approval; do! cleanup; raise e
      | Panic m => fun w => (Panic m, w)
      | Ok _ =>
          do created <- attempt (in_approvals (Approvals.create approval_len a));
          match created with
          | Ok _ => ret tt
          | Err e =>
              do! remove_unrecorded_approval_bases approval;
              do! cleanup;
              transition_push_status push (failed e)
          | Panic m => fun w => (Panic m, w)
          end
      end
  end.

Definition complete_received_push (approval : bytes) (now : Z)
    (push pod path source namespace : bytes) (received : list ReceivedReferenceUpdate) : op unit :=
  if bool_decide (length received = 0%nat) then finish_received_push push pod Pushes.Published
  else
    match currently_configured_repository path (Some source) with
    | Ok None =>
        finish_received_push push pod
          (Pushes.Failed (str "repository path is no longer configured for this source"))
    | Err e => finish_received_push push pod (failed e)
    | Panic m => fun w => (Panic m, w)
    | Ok (Some current) =>
        match updates_policy (repo_policy current) (map rx_destination received) with
        | Deny =>
            finish_received_push push pod
              (Pushes.Denied (str "push denied by configured Git publication policy"))
        | RequireApproval =>
            retain_received_push_for_approval approval now push pod path source namespace received
        | Allow => publish_received_push push pod source received
        end
    end.

(** The loop of [publish_claimed_approval] that rebuilds the exact updates. *)
Definition approved_update (stored : Approvals.RepositoryApprovalUpdate) : outcome StoreError RefUpdate :=
  let? source := ok_or (reference_name (Approvals.source_ref stored)) (Refused "invalid reference") in
  let? destination := ok_or (reference_name (Approvals.destination stored)) (Refused "invalid reference") in
  let? retained := resolve_reference source in
  let? proposed := ok_or (object_id (Approvals.proposed stored)) (Refused "invalid object") in
  if negb (bool_decide (retained = proposed))
  then Err (Refused "retained approval object no longer matches its request")
  else
    let? expected :=
      match Approvals.expected stored with
      | None => Ok None
      | Some o => let? o' := ok_or (object_id o) (Refused "invalid object") in Ok (Some o')
      end in
    ref_update source destination expected (Approvals.allow_rewrite stored).

(** What follows the upstream publication; the first cleanup refreshes the cache. *)
Definition conclude_publication (approval : bytes) (a : Approvals.RepositoryApproval)
  : op Approvals.RepositoryApproval :=
  do! cleanup;
  do! match Approvals.push_id a with
      | Some push => transition_push_status push Pushes.Published
      | None => ret tt
      end;
  do! match Approvals.receive_namespace a with
      | Some n => do! check (receive_namespace_ok n) "invalid receive namespace"; cleanup
      | None => ret tt
      end;
  do! check (git_approval_id_ok (Approvals.id a)) "invalid approval identifier";
  do! cleanup;
  do! attempt (in_approvals (Approvals.complete_claim approval));
  ret a.

(** The two system calls lock and open the repository's store. *)
Definition publish_claimed_approval (approval : bytes) : op Approvals.RepositoryApproval :=
  do a <- in_approvals (Approvals.read approval);
  if negb (Approvals.publishing a)
  then raise (Refused "approval is not claimed for background publication")
  else
    do configured <- of_outcome (currently_configured_repository (Approvals.path a) None);
    match configured with
    | None => raise (Refused "approval repository is no longer configured")
    | Some current =>
        if negb (bool_decide (source_id (repo_source current) = Approvals.repository_id a))
        then raise (Refused "approval repository is no longer configured with the staged upstream")
        else
          do! of_outcome (collect (fun u =>
                 let? destination := ok_or (reference_name (Approvals.destination u)) (Refused "invalid reference") in
                 if bool_decide (reference_policy (repo_policy current) destination = Deny)
                 then Err (Refused "approval is denied by the current Git publication policy")
                 else Ok tt) (Approvals.updates a));
          do! syscall;
          do! syscall;
          do remote <- of_outcome (remote_new (repo_source current));
          do updates <- of_outcome (collect approved_update (Approvals.updates a));
          do! git_publish remote updates;
          conclude_publication approval a
    end.

(** The retained references are removed from the repository's store, which is
    locked and opened first. *)
Definition remove_approval_references (a : Approvals.RepositoryApproval) : op unit :=
  do! syscall;
  match cache (Approvals.repository_id a) with
  | None => ret tt
  | Some false => raise (Refused "approval repository cache is unsafe")
  | Some true =>
      do! syscall;
      do! syscall;
      do! match Approvals.receive_namespace a with
          | Some n => do! check (receive_namespace_ok n) "invalid receive namespace"; syscall
          | None => ret tt
          end;
      do! check (git_approval_id_ok (Approvals.id a)) "invalid approval identifier";
      syscall
  end.

Definition reject_approval (approval : bytes) : op Approvals.RepositoryApproval :=
  do a <- in_approvals (Approvals.read approval);
  if Approvals.publishing a
  then raise (Refused "approval is already being published in the background")
  else
    do! remove_approval_references a;
    do! match Approvals.push_id a with
        | Some push => transition_push_status push Pushes.Rejected
        | None => ret tt
        end;
    do! in_approvals (Approvals.remove approval);
    ret a.
End manager.
End Publish.
