(* ===== verification/RepoThms.v ===== *)
(** * Publication of pushes: theorems

    What the stores and the manager guarantee under arbitrary failures. *)

From S2P Require Import Prelude Effects Lists Utf8 Text RepoPolicy RepoStore RepoPushes RepoPublish.
Import Git.

Lemma triple_syscall {D} (P : D -> Prop) : triple P syscall (fun _ => P) P.
Proof. apply triple_fallible. Qed.
Lemma keeps_syscall {D} (P : D -> Prop) : keeps P syscall.
Proof. apply triple_fallible. Qed.
#[export] Hint Resolve @keeps_syscall : keeps.

(** ** Approvals *)
Section approvals.
Import Approvals.
Context (encoded_len : RepositoryApproval -> Z).

(** What [d] holds for [i]. *)
Definition holds (d : Dir) (i : bytes) (a : RepositoryApproval) : Prop :=
  exists size, records d !! i = Some (Regular (Some a) size) /\ validate a = Ok tt /\ id a = i.

Lemma claim_exists_triple P i :
  triple P (claim_exists i) (fun b d => P d /\ claims d !! i = (if b then Some true else None)) P.
Proof.
  unfold claim_exists. eapply triple_bind; [apply triple_syscall|]. intros [].
  eapply triple_bind; [apply triple_get|]. intros d.
  destruct (claims d !! i) as [[]|] eqn:C; [apply triple_ret|apply triple_raise|apply triple_ret];
    intros d' [-> H]; done.
Qed.
Lemma read_path_triple P i : triple P (read_path i) (fun a d => P d /\ holds d i a) P.
Proof.
  unfold read_path. eapply triple_bind; [apply triple_syscall|]. intros [].
  eapply triple_bind; [apply triple_get|]. intros d.
  destruct (records d !! i) as [[content size|]|] eqn:R; [|by apply triple_raise; intros ? [_ ?]..].
  case_match; [by apply triple_raise; intros ? [_ ?]|].
  eapply triple_seq; [apply triple_syscall|by intros ? [_ ?]|]. intros [].
  destruct content as [ap|]; [|by apply triple_raise; intros ? [_ ?]].
  destruct (validate ap) as [[]|e|s] eqn:V; [|by apply triple_raise; intros ? [_ ?]|by apply triple_panic; intros ? [_ ?]].
  case_bool_decide; [|by apply triple_raise; intros ? [_ ?]].
  apply triple_ret. intros d' [-> H']. split; [done|]. by exists size.
Qed.
(** The approval [read] returns is the stored one, with the claim's flag. *)
Definition read_as (d : Dir) (i : bytes) (a : RepositoryApproval) : Prop :=
  exists a0, holds d i a0 /\ a = a0 <| publishing := publishing a |>
             /\ claims d !! i = (if publishing a then Some true else None).
Lemma read_triple P i : triple P (read i) (fun a d => P d /\ read_as d i a) P.
Proof.
  unfold read. eapply triple_bind; [apply triple_syscall|]. intros [].
  eapply triple_bind; [apply triple_get|]. intros d.
  destruct (records d !! i); [|by apply triple_raise; intros ? [_ ?]].
  eapply triple_seq; [apply read_path_triple|by intros ? [_ ?]|]. intros a.
  eapply triple_seq; [apply claim_exists_triple|by intros ? [[_ ?] _]|].
  intros p. apply triple_ret. intros d' [[[_ HP] Hh] Hc]. split; [done|]. by exists a.
Qed.
Lemma write_keeps P a :
  (forall d, P d -> P (d <| records := <[id a := Regular (Some (a <| publishing := false |>)) (encoded_len a)]> (records d) |>)) ->
  keeps P (write encoded_len a).
Proof. intros H. unfold write. walk. by apply keeps_put. Qed.
Lemma read_keeps P i : keeps P (read i).
Proof. eapply triple_weaken; [apply read_triple|done|by intros ? ? [? _]|done]. Qed.
Lemma read_path_keeps P i : keeps P (read_path i).
Proof. eapply triple_weaken; [apply read_path_triple|done|by intros ? ? [? _]|done]. Qed.
Lemma claim_exists_keeps P i : keeps P (claim_exists i).
Proof. eapply triple_weaken; [apply claim_exists_triple|done|by intros ? ? [? _]|done]. Qed.
Lemma exists_path_keeps P f : keeps P (exists_path f).
Proof. unfold exists_path. walk. Qed.

(** The operations of the store, and a sequence of them. *)
Inductive Op :=
| OpCreate (a : RepositoryApproval) | OpPostpone (i : bytes) | OpClaim (i : bytes)
| OpFail (i error : bytes) | OpComplete (i : bytes) | OpRemove (i : bytes).
Definition exec (o : Op) (w : World Dir) : World Dir :=
  match o with
  | OpCreate a => (create encoded_len a w).2
  | OpPostpone i => (postpone encoded_len i w).2
  | OpClaim i => (claim encoded_len i w).2
  | OpFail i e => (fail_claim encoded_len i e w).2
  | OpComplete i => (complete_claim i w).2
  | OpRemove i => (remove i w).2
  end.
Definition run (ops : list Op) (w : World Dir) : World Dir := fold_left (fun w o => exec o w) ops w.

Definition kept (P : Dir -> Prop) (o : Op) : Prop := forall w, P (dir w) -> P (dir (exec o w)).
Lemma run_kept P ops w : Forall (kept P) ops -> P (dir w) -> P (dir (run ops w)).
Proof.
  intros F. revert w. induction F as [|o ops K F IH]; intros w H; [done|]. cbn. apply IH. by apply K.
Qed.

(** *** A claim is exclusive *)
Definition claimed_by (i : bytes) (d : Dir) : Prop := claims d !! i = Some true.
Definition releases (i : bytes) (o : Op) : bool :=
  match o with OpFail j _ | OpComplete j => bool_decide (j = i) | _ => false end.

Lemma write_claimed i a : keeps (claimed_by i) (write encoded_len a).
Proof. by apply write_keeps. Qed.
Lemma remove_record_claimed i j : keeps (claimed_by i) (remove_record j).
Proof. unfold remove_record. walk. by apply keeps_put. Qed.
Lemma remove_claim_claimed i j : j <> i -> keeps (claimed_by i) (remove_claim j).
Proof.
  intros N. unfold remove_claim. walk. apply keeps_put. intros d C. unfold claimed_by. cbn.
  by rewrite lookup_delete_ne.
Qed.
#[local] Hint Resolve read_keeps read_path_keeps claim_exists_keeps exists_path_keeps write_claimed
  remove_record_claimed remove_claim_claimed : keeps.
(** Whatever fails, claiming keeps every claim that exists, and a claimed approval
    is not claimed again. *)
Lemma claim_claimed i j :
  triple (claimed_by i) (claim encoded_len j) (fun r d => claimed_by i d /\ (j = i -> r = None)) (claimed_by i).
Proof.
  unfold claim. eapply triple_bind; [apply read_triple|]. intros a.
  destruct (publishing a) eqn:Pa; [by apply triple_ret; intros d [? _]|].
  eapply triple_seq; [apply triple_get|by intros d [? _]|]. intros d0.
  eapply triple_seq; [apply triple_fault|by intros d (_ & ? & _)|]. intros [].
  { apply triple_raise. by intros d (_ & ? & _). }
  case_bool_decide as Ex.
  { eapply triple_bind; [eapply triple_weaken; [apply (read_triple (claimed_by i))|by intros d (_ & ? & _)|done|done]|].
    intros b. destruct (publishing b); [by apply triple_ret; intros d [? _]|by apply triple_raise; intros d [? _]]. }
  destruct (decide (j = i)) as [->|N].
  { intros w (-> & C & _). destruct Ex. by rewrite C. }
  apply (triple_weaken (claimed_by i) _ _ (fun _ => claimed_by i) _ (claimed_by i));
    [|by intros d (_ & ? & _)|by intros r d|done].
  as_keeps. walk; apply keeps_put; intros d C; unfold claimed_by in *; cbn.
  - by rewrite lookup_insert_ne.
  - case_match; cbn; [done|by rewrite lookup_delete_ne].
Qed.

Lemma exec_claimed i o : releases i o = false -> kept (claimed_by i) o.
Proof.
  intros R w C. destruct o as [a|j|j|j e|j|j]; cbn [exec releases] in *; bool_prop.
  - apply keeps_after; [|done]. unfold create. walk.
  - apply keeps_after; [|done]. unfold postpone. walk.
  - eapply keeps_after; [|done]. eapply triple_weaken; [apply claim_claimed|done|by intros r d [? _]|done].
  - apply keeps_after; [|done]. unfold fail_claim. walk.
  - apply keeps_after; [|done]. unfold complete_claim. walk.
  - apply keeps_after; [|done]. unfold remove. walk.
Qed.

(** *** A request does not change while it is pending *)

(** The request without its mutable fields. *)
Definition request (a : RepositoryApproval) : RepositoryApproval :=
  a <| postponed := false |> <| last_error := None |> <| publishing := false |>.
Definition retains (i : bytes) (a : RepositoryApproval) (d : Dir) : Prop :=
  exists a' size, records d !! i = Some (Regular (Some a') size) /\ request a' = request a.
Definition resolves (i : bytes) (o : Op) : bool :=
  match o with
  | OpCreate a => bool_decide (id a = i)
  | OpComplete j | OpRemove j => bool_decide (j = i)
  | _ => false
  end.

Lemma write_retains i a b :
  (id b = i -> request b = request a) -> keeps (retains i a) (write encoded_len b).
Proof.
  intros E. apply write_keeps. intros d (a' & size & L & R). unfold retains. cbn.
  destruct (decide (id b = i)) as [<-|N].
  - rewrite lookup_insert_eq. eexists _, _. split; [reflexivity|]. rewrite <- (E eq_refl). done.
  - rewrite lookup_insert_ne by done. by exists a', size.
Qed.
Lemma remove_record_retains i j a : j <> i -> keeps (retains i a) (remove_record j).
Proof.
  intros N. unfold remove_record. walk. apply keeps_put. intros d R. unfold retains. cbn.
  by rewrite lookup_delete_ne.
Qed.
Lemma remove_claim_retains i j a : keeps (retains i a) (remove_claim j).
Proof. unfold remove_claim. walk. by apply keeps_put. Qed.
#[local] Hint Resolve remove_record_retains remove_claim_retains : keeps.

(** What is read back about a retained request is that request. *)
Lemma holds_request i j a b d : retains i a d -> holds d j b -> id b = i -> request b = request a.
Proof.
  intros (a' & size & L & R) (size' & L' & _ & E) Eb. subst. rewrite L in L'. by injection L' as -> _.
Qed.
Lemma read_as_id d j b : read_as d j b -> id b = j.
Proof. intros (b0 & (? & _ & _ & <-) & -> & _). done. Qed.
Lemma read_request i j a b d : retains i a d -> read_as d j b -> id b = i -> request b = request a.
Proof.
  intros R (b0 & H & -> & _) E. rewrite <- (holds_request i j a b0 d R H E). done.
Qed.

Lemma claim_retains i j a : keeps (retains i a) (claim encoded_len j).
Proof.
  unfold claim. eapply triple_bind; [apply read_triple|]. intros b.
  destruct (publishing b) eqn:Pa; [by apply triple_ret; intros d [? _]|].
  intros w [R Hr]. assert (E : id b = i -> request b = request a) by (intros E; by apply (read_request i j a b (dir w))).
  revert w R Hr. intros w R _. revert w R.
  match goal with |- forall w, _ -> match ?m w with _ => _ end => change (keeps (retains i a) m) end.
  walk; [by apply keeps_put|by apply write_retains|]. apply keeps_put. intros d. by case_match.
Qed.
(** A successful claim creates the claim file and returns the stored request. *)
Lemma claim_success i :
  triple (fun _ => True) (claim encoded_len i)
    (fun r d => forall a, r = Some a -> claimed_by i d /\ retains i a d) (fun _ => True).
Proof.
  unfold claim. eapply triple_bind; [apply read_triple|]. intros a.
  destruct (publishing a) eqn:Pa; [by apply triple_ret|].
  eapply triple_seq; [apply triple_get|done|]. intros d0.
  eapply triple_seq; [apply triple_fault|done|]. intros [].
  { by apply triple_raise. }
  case_bool_decide as Ex.
  { eapply triple_seq; [apply read_triple|done|]. intros b.
    destruct (publishing b); [by apply triple_ret|by apply triple_raise]. }
  eapply triple_bind; [apply (triple_put _ _ (fun _ d => claimed_by i d /\ retains i a d))|].
  { intros d (_ & _ & (a0 & (size & L & _ & _) & E & _)). split; [unfold claimed_by; cbn; apply lookup_insert_eq|].
    exists a0, size. split; [exact L|]. by rewrite E. }
  intros []. eapply triple_seq; [apply triple_syscall|done|]. intros [].
  eapply triple_seq; [apply triple_syscall|done|]. intros [].
  eapply triple_seq; [apply triple_attempt, keeps_and; [apply write_claimed|by apply write_retains]|done|]. intros [[]|e|s].
  - apply triple_ret. by intros d [C R] ? [= <-].
  - eapply triple_seq; [apply triple_fault|done|]. intros failed.
    eapply triple_bind; [by apply (triple_put _ _ (fun _ _ => True))|]. intros []. by apply triple_raise.
  - by apply triple_panic.
Qed.
Lemma exec_retains i a o : resolves i o = false -> kept (retains i a) o.
Proof.
  intros N w C. destruct o as [b|j|j|j e|j|j]; cbn [exec resolves] in *; bool_prop;
    (apply keeps_after; [|done]).
  - unfold create. walk. by apply write_retains.
  - unfold postpone. eapply triple_bind; [apply read_triple|]. intros b.
    apply (triple_weaken (fun d => retains i a d /\ read_as d j b) _ _ (fun _ => retains i a) _ (retains i a)); try done.
    destruct (_ || _); [by apply triple_raise; intros d [? _]|].
    destruct (postponed b); [by apply triple_ret; intros d [? _]|].
    intros w' [R Hr]. apply (write_retains i a); [|done]. intros E. apply (read_request i j a b (dir w')); done.
  - apply claim_retains.
  - unfold fail_claim. destruct (negb _); [by apply triple_raise|].
    eapply triple_bind; [apply claim_exists_keeps|]. intros []; [|by apply triple_raise].
    eapply triple_bind; [apply read_path_triple|]. intros b. cbn [negb].
    apply (triple_bind _ _ _ (fun _ => retains i a)); [|intros []; apply remove_claim_retains].
    intros w' [R Hh]. apply (write_retains i a); [|done]. intros E. by apply (holds_request i j a b (dir w')).
  - unfold complete_claim. walk.
  - unfold remove. walk.
Qed.

(** While it is claimed, a request cannot even be removed. *)
Definition overwrites (i : bytes) (o : Op) : bool :=
  match o with OpCreate a => bool_decide (id a = i) | _ => false end.
Definition reserved (i : bytes) (a : RepositoryApproval) (d : Dir) : Prop := claimed_by i d /\ retains i a d.
Lemma remove_reserved i a : keeps (reserved i a) (remove i).
Proof.
  unfold remove. eapply triple_bind; [apply claim_exists_triple|]. intros [].
  - apply triple_raise. by intros d [? _].
  - intros w [[C _] N]. unfold claimed_by in C. congruence.
Qed.
Lemma exec_reserved i a o : releases i o = false -> overwrites i o = false -> kept (reserved i a) o.
Proof.
  intros R N w C. destruct (resolves i o) eqn:Z.
  - destruct o as [b|j|j|j e|j|j]; cbn in R, N, Z; try congruence. bool_prop. subst.
    by apply (keeps_after _ _ w (remove_reserved i a)).
  - destruct C as [C Q]. split; [by apply exec_claimed|by apply exec_retains].
Qed.

(** *** Listing *)
Lemma list_loop_triple d ids : forall acc,
  triple (fun d' => d' = d) (list_loop ids acc)
    (fun l d' => d' = d /\ exists new, l = acc ++ new /\ Forall2 (fun i a => read_as d i a) ids new)
    (fun d' => d' = d).
Proof.
  induction ids as [|i ids IH]; intros acc; cbn [list_loop].
  { apply triple_ret. intros d' ->. split; [done|]. exists []. by rewrite app_nil_r. }
  eapply triple_bind; [apply triple_syscall|]. intros []. case_match; [by apply triple_raise|].
  eapply triple_bind; [apply read_path_triple|]. intros a.
  eapply triple_seq; [apply claim_exists_triple|by intros d' [? _]|]. intros p w [[Hd Hh] Hc]. rewrite Hd in Hh, Hc.
  assert (Ra : read_as d i (a <| publishing := p |>)).
  { exists a. split; [done|]. split; [done|]. destruct Hh as (? & _ & _ & <-). exact Hc. }
  specialize (IH (acc ++ [a <| publishing := p |>]) w Hd).
  destruct (list_loop ids _ w) as [[l|e|m] w']; [|done|done]. destruct IH as (E & new & -> & F). split; [done|].
  exists (a <| publishing := p |> :: new). rewrite <- app_assoc. split; [done|]. by constructor.
Qed.
(** The identifiers listed are those of the records, each with its claim. *)
Lemma list_triple d :
  triple (fun d' => d' = d) list_approvals
    (fun l d' => d' = d /\ (forall a, a ∈ l -> read_as d (id a) a)
                 /\ (forall i, is_Some (records d !! i) <-> exists a, a ∈ l /\ id a = i))
    (fun d' => d' = d).
Proof.
  unfold list_approvals. eapply triple_bind; [apply triple_syscall|]. intros [].
  eapply triple_seq; [apply triple_get|done|]. intros d0 w [-> Hd].
  pose proof (list_loop_triple d (map fst (map_to_list (records (dir w)))) [] w Hd) as T. unfold andthen.
  destruct (list_loop _ _ w) as [[l|e|m] w']; [|done|done]. destruct T as (Hd' & l' & E & F). cbn in E. subst l'.
  cbn [ret]. split; [done|]. rewrite Hd in F. split.
  - intros a Ha. rewrite sort_by_perm in Ha. apply (Forall2_Forall_r _ (fun a => read_as d (id a) a)) in F.
    + by apply (proj1 (Forall_forall _ _) F).
    + apply Forall_forall. intros i _ b Hb. by rewrite (read_as_id _ _ _ Hb).
  - intros i. split.
    + intros [x Hx]. assert (Hi : i ∈ map fst (map_to_list (records d))).
      { apply list_elem_of_fmap. exists (i, x). split; [done|]. by apply elem_of_map_to_list. }
      apply list_elem_of_lookup in Hi as [k Hk]. destruct (Forall2_lookup_l _ _ _ _ _ F Hk) as (a & Ha & Ra).
      exists a. rewrite sort_by_perm. split; [by eapply list_elem_of_lookup_2|by eapply read_as_id].
    + intros (a & Ha & <-). rewrite sort_by_perm in Ha. apply list_elem_of_lookup in Ha as [k Hk].
      destruct (Forall2_lookup_r _ _ _ _ _ F Hk) as (i & _ & Ra). rewrite (read_as_id _ _ _ Ra).
      destruct Ra as (a0 & (size & L & _) & _). by rewrite L.
Qed.
Lemma claimed_triple d :
  triple (fun d' => d' = d) claimed
    (fun l d' => d' = d /\ (forall a, a ∈ l -> read_as d (id a) a)
                 /\ (forall i, (is_Some (records d !! i) /\ claimed_by i d) <-> exists a, a ∈ l /\ id a = i))
    (fun d' => d' = d).
Proof.
  unfold claimed. eapply triple_bind; [apply list_triple|]. intros l. apply triple_ret. intros d' (-> & R & N).
  split; [done|]. split; [intros a [_ Ha]%list_elem_of_filter; by apply R|]. intros i. rewrite N. split.
  - intros [(a & Ha & <-) C]. exists a. split; [|done]. apply list_elem_of_filter. split; [|done].
    destruct (R a Ha) as (_ & _ & _ & E). unfold claimed_by in C. destruct (publishing a); congruence.
  - intros (a & [Pa Ha]%list_elem_of_filter & <-). split; [by exists a|].
    destruct (R a Ha) as (_ & _ & _ & E). by rewrite Pa in E.
Qed.

(** A record that was created can be read back. *)
Lemma write_success a :
  triple (fun _ => True) (write encoded_len a) (fun _ => retains (id a) a) (fun _ => True).
Proof.
  unfold write. case_match; [by apply triple_raise|].
  eapply triple_seq; [apply triple_syscall|done|]. intros [].
  eapply (triple_seq _ _ _ (fun r d => match r with Ok _ => retains (id a) a d | _ => True end)).
  - apply (triple_attempt _ _ (fun _ => retains (id a) a) (fun _ => True)).
    do 3 (eapply triple_seq; [apply triple_syscall|done|]; intros []).
    eapply triple_bind; [apply (triple_put _ _ (fun _ => retains (id a) a))|].
    + intros d _. unfold retains. cbn. rewrite lookup_insert_eq. by eexists _, _.
    + intros []. by eapply triple_weaken; [apply (triple_syscall (retains (id a) a))|..].
  - done.
  - intros [[]|e|m]; [by apply triple_ret| |by apply triple_panic].
    eapply triple_seq; [apply triple_fault|done|]. intros ?. by apply triple_raise.
Qed.
Lemma create_success a :
  triple (fun _ => True) (create encoded_len a) (fun _ => retains (id a) a) (fun _ => True).
Proof.
  unfold create. destruct (validate a); [|by apply triple_raise|by apply triple_panic].
  eapply triple_seq; [apply exists_path_keeps|done|]. intros []; [by apply triple_raise|].
  eapply triple_seq; [apply exists_path_keeps|done|]. intros []; [by apply triple_raise|]. apply write_success.
Qed.
End approvals.

(** ** Push statuses *)
Section pushes.
Import Pushes.
Context (encoded_len : RepositoryPushStatus -> Z).

Definition status_at (d : Dir) (i : bytes) (s : RepositoryPushStatus) : Prop :=
  exists size, d !! i = Some (Regular (Some s) size).

Lemma status_read_triple P i :
  triple P (read_path i) (fun s d => P d /\ status_at d i s /\ validate s = Ok tt /\ id s = i) P.
Proof.
  unfold read_path. eapply triple_bind; [apply triple_fault|]. intros []; [by apply triple_raise|].
  eapply triple_bind; [apply triple_get|]. intros d.
  destruct (d !! i) as [[content size|]|] eqn:R; [|by apply triple_raise; intros ? [_ ?]..].
  case_match; [by apply triple_raise; intros ? [_ ?]|].
  eapply triple_seq; [apply triple_syscall|by intros ? [_ ?]|]. intros [].
  destruct content as [s|]; [|by apply triple_raise; intros ? [_ ?]].
  destruct (validate s) as [[]|e|m] eqn:V; [|by apply triple_raise; intros ? [_ ?]|by apply triple_panic; intros ? [_ ?]].
  case_bool_decide; [|by apply triple_raise; intros ? [_ ?]].
  apply triple_ret. intros d' [-> H']. split_and!; [done|by exists size|done|done].
Qed.
Lemma status_write_keeps (P : Dir -> Prop) s :
  (forall d, P d -> P (<[id s := Regular (Some s) (encoded_len s)]> d)) -> keeps P (write encoded_len s).
Proof. intros H. unfold write. walk. by apply keeps_put. Qed.

(** A pending status, and a terminal one that may have been pruned. *)
Definition pending_at (i : bytes) (s : RepositoryPushStatus) (d : Dir) : Prop := status_at d i s.
Definition final_at (i : bytes) (s : RepositoryPushStatus) (d : Dir) : Prop :=
  d !! i = None \/ status_at d i s.

Lemma insert_other (i j : bytes) (s : RepositoryPushStatus) (x : entry RepositoryPushStatus) (d : Dir) : j <> i -> status_at d i s -> status_at (<[j := x]> d) i s.
Proof. intros N [size L]. exists size. by rewrite lookup_insert_ne. Qed.
Lemma pending_write i s t : id t <> i -> keeps (pending_at i s) (write encoded_len t).
Proof. intros N. apply status_write_keeps. intros d. by apply insert_other. Qed.
Lemma final_write i s t : id t <> i -> keeps (final_at i s) (write encoded_len t).
Proof.
  intros N. apply status_write_keeps. intros d [L|L]; [left; by rewrite lookup_insert_ne|right].
  by apply insert_other.
Qed.
Lemma status_unique (d : Dir) i s t : status_at d i s -> status_at d i t -> s = t.
Proof. intros [size L] [size' L']. rewrite L in L'. by injection L'. Qed.

(** Pruning deletes only what it read as terminal. *)
Lemma prune_keeps (P : Dir -> Prop) age ids :
  (forall d j t, P d -> status_at d j t -> is_terminal (state t) = true -> P (delete j d)) ->
  forall count removed, keeps P (prune age ids count removed).
Proof.
  intros Hd. induction ids as [|j ids IH]; intros count removed; cbn [prune]; [apply keeps_ret|].
  apply keeps_bind; [apply keeps_syscall|]. intros _. apply keeps_bind; [apply keeps_syscall|]. intros _.
  apply keeps_bind; [apply keeps_get|]. intros d0.
  apply (triple_bind _ _ _ (fun expired d => P d /\ (expired = true -> exists t, status_at d j t /\ is_terminal (state t) = true))).
  - case_match; [|by apply triple_ret]. eapply triple_bind; [apply status_read_triple|]. intros t.
    apply triple_ret. intros d (Hp & Hs & _). split; [done|]. intros E. by exists t.
  - intros [].
    + eapply triple_seq; [apply triple_fault|by intros d [? _]|]. intros [].
      * eapply triple_weaken; [apply IH|by intros d [? _]|done|done].
      * apply (triple_bind _ _ _ (fun _ => P)); [|intros []; apply IH]. apply triple_put.
        intros d [Hp Ht]. destruct Ht as (t & Hs & Tt); [done|]. by apply (Hd d j t).
    + eapply triple_weaken; [apply IH|by intros d [? _]|done|done].
Qed.
Lemma create_keeps (P : Dir -> Prop) age s :
  (forall d j t, P d -> status_at d j t -> is_terminal (state t) = true -> P (delete j d)) ->
  keeps P (write encoded_len s) -> keeps P (create encoded_len age s).
Proof.
  intros Hd Hw. unfold create, prune_and_count. walk. by apply prune_keeps.
Qed.

Lemma transition_other (P : Dir -> Prop) i j st :
  j <> i -> (forall t, id t <> i -> keeps P (write encoded_len t)) -> keeps P (transition encoded_len j st).
Proof.
  intros N Hw. unfold transition. eapply triple_bind; [apply status_read_triple|]. intros t.
  case_bool_decide; [by apply triple_ret; intros d (? & _)|].
  destruct (_ || _); [by apply triple_raise; intros d (? & _)|].
  destruct (validate (t <| state := st |>)) as [[]|e|m]; [|by apply triple_raise; intros d (? & _)|by apply triple_panic; intros d (? & _)].
  intros w (Hp & _ & _ & E). apply (Hw (t <| state := st |>)); [|done]. cbn. by rewrite E.
Qed.
Lemma transition_final i s st :
  is_terminal (state s) = true -> keeps (final_at i s) (transition encoded_len i st).
Proof.
  intros T. unfold transition. eapply triple_bind; [apply status_read_triple|]. intros t.
  case_bool_decide; [by apply triple_ret; intros d (? & _)|].
  destruct (_ || _) eqn:O; [by apply triple_raise; intros d (? & _)|]. bool_prop.
  intros w (Hf & Hs & _). exfalso. assert (s = t) as <-.
  { destruct Hf as [L|L]; [destruct Hs as [? Hs]; congruence|]. by eapply status_unique. }
  by destruct (state s).
Qed.

(** Operations of the store, and a history of them. *)
Inductive StatusOp := StCreate (age : bytes -> option Z) (s : RepositoryPushStatus) | StTransition (i : bytes) (st : RepositoryPushState).
Definition status_exec (o : StatusOp) (w : World Dir) : World Dir :=
  match o with
  | StCreate age s => (create encoded_len age s w).2
  | StTransition i st => (transition encoded_len i st w).2
  end.
Definition status_run (ops : list StatusOp) (w : World Dir) : World Dir :=
  fold_left (fun w o => status_exec o w) ops w.
Definition creates (i : bytes) (o : StatusOp) : bool :=
  match o with StCreate _ s => bool_decide (id s = i) | _ => false end.
Definition transitions (i : bytes) (o : StatusOp) : bool :=
  match o with StTransition j _ => bool_decide (j = i) | _ => false end.
Lemma status_run_kept (P : Dir -> Prop) ops w :
  Forall (fun o => forall w, P (dir w) -> P (dir (status_exec o w))) ops -> P (dir w) -> P (dir (status_run ops w)).
Proof.
  intros F. revert w. induction F as [|o ops K F IH]; intros w H; [done|]. cbn. apply IH. by apply K.
Qed.

Lemma exec_final i s o w :
  is_terminal (state s) = true -> creates i o = false -> final_at i s (dir w) -> final_at i s (dir (status_exec o w)).
Proof.
  intros T C H. destruct o as [age t|j st]; cbn [status_exec creates] in *; bool_prop;
    (apply keeps_after; [|done]).
  - apply create_keeps; [|by apply final_write]. intros d j t' [L|L] _ _.
    + left. destruct (decide (j = i)) as [->|]; [apply lookup_delete_eq|by rewrite lookup_delete_ne].
    + destruct (decide (j = i)) as [->|]; [left; apply lookup_delete_eq|]. right.
      destruct L as [size L]. exists size. by rewrite lookup_delete_ne.
  - destruct (decide (j = i)) as [->|N]; [by apply transition_final|].
    apply (transition_other _ i); [done|]. intros t'. apply final_write.
Qed.
Lemma exec_pending i s o w :
  is_terminal (state s) = false -> creates i o = false -> transitions i o = false ->
  pending_at i s (dir w) -> pending_at i s (dir (status_exec o w)).
Proof.
  intros T C Tr H. destruct o as [age t|j st]; cbn [status_exec creates transitions] in *; bool_prop;
    (apply keeps_after; [|done]).
  - apply create_keeps; [|by apply pending_write]. intros d j t' L L' T'.
    destruct (decide (j = i)) as [->|N].
    + rewrite (status_unique d i s t' L L') in T. congruence.
    + destruct L as [size L]. exists size. by rewrite lookup_delete_ne.
  - apply (transition_other _ i); [done|]. intros t'. apply pending_write.
Qed.

(** A transition that reports success left the new state. *)
Definition transitioned (i : bytes) (st : RepositoryPushState) (d : Dir) : Prop :=
  exists s, status_at d i s /\ state s = st /\ id s = i.
Lemma transition_success i st :
  triple (fun _ => True) (transition encoded_len i st)
    (fun _ => transitioned i st) (fun _ => True).
Proof.
  unfold transition. eapply triple_bind; [apply status_read_triple|]. intros t.
  case_bool_decide; [apply triple_ret; intros d (_ & Hs & _ & E); by exists t|].
  destruct (_ || _); [by apply triple_raise|].
  destruct (validate (t <| state := st |>)) as [[]|e|m]; [|by apply triple_raise|by apply triple_panic].
  unfold write. case_match; [by apply triple_raise|].
  eapply triple_seq; [apply triple_syscall|done|]. intros [].
  eapply (triple_seq _ _ _ (fun r d => match r with
    | Ok _ => transitioned i st d | _ => True end)); [| |].
  - apply (triple_attempt _ _ (fun _ => transitioned i st) (fun _ => True)).
    eapply triple_seq; [apply triple_syscall|done|]. intros [].
    eapply triple_seq; [apply triple_syscall|done|]. intros [].
    eapply triple_seq; [apply triple_syscall|done|]. intros [].
    eapply triple_bind; [apply (triple_put _ _ (fun _ => transitioned i st))|].
    + intros d (_ & _ & _ & E). exists (t <| state := st |>). cbn. split; [|done].
      rewrite E. eexists. apply lookup_insert_eq.
    + intros []. by eapply triple_weaken; [apply (triple_syscall (transitioned i st))|..].
  - done.
  - intros [[]|e|m]; [by apply triple_ret| |by apply triple_panic].
    eapply triple_seq; [apply triple_fault|done|]. intros ?. by apply triple_raise.
Qed.
End pushes.

(** ** Publications *)
Section publish.
Import Publish.
Context (approval_len : Approvals.RepositoryApproval -> Z) (status_len : Pushes.RepositoryPushStatus -> Z)
  (age : bytes -> option Z) (config : outcome StoreError (gmap bytes HostRepository))
  (source_id display_remote : bytes -> bytes)
  (remote_new resolve_reference : bytes -> outcome StoreError bytes) (display : StoreError -> bytes).

(** The stores' operations do not publish. *)
Lemma in_pushes_keeps {A} (P : list (bytes * list RefUpdate) -> Prop) (m : Pushes.op A) :
  keeps (fun s => P (upstream s)) (in_pushes m).
Proof. intros w H. unfold in_pushes. destruct (m _) as [[] w']; done. Qed.
Lemma in_approvals_keeps {A} (P : list (bytes * list RefUpdate) -> Prop) (m : Approvals.op A) :
  keeps (fun s => P (upstream s)) (in_approvals m).
Proof. intros w H. unfold in_approvals. destruct (m _) as [[] w']; done. Qed.
Lemma in_approvals_triple {A} P (m : Approvals.op A) Q E u :
  triple P m Q E ->
  triple (fun s => P (approvals s) /\ upstream s = u) (in_approvals m)
    (fun a s => Q a (approvals s) /\ upstream s = u) (fun s => E (approvals s) /\ upstream s = u).
Proof.
  intros T w [HP HU]. unfold in_approvals.
  specialize (T {| dir := approvals (dir w); faults := faults w |} HP).
  destruct (m _) as [[a|e|s] w']; done.
Qed.
#[local] Hint Resolve in_pushes_keeps in_approvals_keeps : keeps.
Lemma git_publish_triple remote updates u :
  triple (fun s => upstream s = u) (git_publish remote updates)
    (fun _ s => upstream s = u ++ [(remote, updates)]) (fun s => upstream s = u ++ [(remote, updates)]).
Proof.
  unfold git_publish.
  apply (triple_bind _ _ _ (fun _ s => upstream s = u ++ [(remote, updates)])); [|intros []; apply triple_syscall].
  apply triple_put. by intros s <-.
Qed.
Lemma cleanup_keeps (P : State -> Prop) : keeps P cleanup.
Proof. unfold cleanup. walk. Qed.
Lemma finish_keeps (P : list (bytes * list RefUpdate) -> Prop) push pod st :
  keeps (fun s => P (upstream s)) (finish_received_push status_len age push pod st).
Proof. unfold finish_received_push, cleanup, record_push_status. walk. Qed.

Lemma check_keeps (P : State -> Prop) b m : keeps P (check b m).
Proof. unfold check. walk. Qed.
#[local] Hint Resolve cleanup_keeps check_keeps : keeps.
Lemma unrecorded_keeps (P : State -> Prop) approval : keeps P (remove_unrecorded_approval_bases approval).
Proof. unfold remove_unrecorded_approval_bases. walk. Qed.
#[local] Hint Resolve unrecorded_keeps : keeps.
Lemma retain_bases_keeps (P : State -> Prop) a : keeps P (retain_approval_bases a).
Proof.
  unfold retain_approval_bases. apply keeps_bind; [apply check_keeps|]. intros _.
  induction (Approvals.updates a) as [|x l IH]; cbn [retain_bases]; walk; done.
Qed.
#[local] Hint Resolve retain_bases_keeps : keeps.

(** The publication of a received update: same references and lease. *)
Definition same_update (rx : ReceivedReferenceUpdate) (u : RefUpdate) : Prop :=
  up_source u = rx_source rx /\ up_destination u = rx_destination rx
  /\ up_expected u = rx_previous rx /\ up_rewrite u = rx_rewrites rx.
(** The publication of an approved update: the reviewed object, under the lease of
    the reviewed base. *)
Definition approved_as (stored : Approvals.RepositoryApprovalUpdate) (u : RefUpdate) : Prop :=
  up_source u = Approvals.source_ref stored /\ up_destination u = Approvals.destination stored
  /\ up_rewrite u = Approvals.allow_rewrite stored
  /\ (exists o, resolve_reference (up_source u) = Ok o /\ object_id (Approvals.proposed stored) = Some o)
  /\ up_expected u = match Approvals.expected stored with Some o => object_id o | None => None end.

Lemma ref_update_ok s d e r u :
  ref_update s d e r = Ok u ->
  u = {| up_source := s; up_destination := d; up_expected := e; up_rewrite := r |}.
Proof. unfold ref_update. case_match; [done|]. by intros [= <-]. Qed.
Lemma reference_name_ok v r : reference_name v = Some r -> r = v.
Proof. unfold reference_name. case_match; [|done]. by intros [= <-]. Qed.
Lemma received_updates_ok received updates :
  collect (fun u => ref_update (rx_source u) (rx_destination u) (rx_previous u) (rx_rewrites u)) received = Ok updates ->
  Forall2 same_update received updates.
Proof.
  intros F%collect_Ok. eapply Forall2_impl; [exact F|]. intros rx u E%ref_update_ok. subst. by repeat split.
Qed.
Lemma approved_update_ok stored u : approved_update resolve_reference stored = Ok u -> approved_as stored u.
Proof.
  unfold approved_update. intros (s & S & H)%obind_Ok. apply obind_Ok in H as (d & Dn & H).
  apply obind_Ok in H as (o & R & H). apply obind_Ok in H as (p & Pr & H).
  case_bool_decide as E; cbn [negb] in H; [|done]. apply obind_Ok in H as (ex & X & H). apply ref_update_ok in H as ->.
  destruct (reference_name (Approvals.source_ref stored)) as [s'|] eqn:S'; [|done]. injection S as ->.
  destruct (reference_name (Approvals.destination stored)) as [d'|] eqn:D'; [|done]. injection Dn as ->.
  apply reference_name_ok in S' as ->. apply reference_name_ok in D' as ->.
  destruct (object_id (Approvals.proposed stored)) as [p'|] eqn:P'; [|done]. injection Pr as ->. subst p.
  split_and!; [done|done|done|by exists o|]. cbn.
  destruct (Approvals.expected stored) as [e|]; [|by injection X as <-].
  destruct (object_id e) as [e'|] eqn:Oe; [|done]. cbn in X. by injection X as <-.
Qed.

(** What an automatic publication rests on. *)
Definition automatic (path source : bytes) (received : list ReceivedReferenceUpdate)
    (u : list (bytes * list RefUpdate)) (u' : list (bytes * list RefUpdate)) : Prop :=
  u' = u
  \/ exists current remote updates,
       currently_configured_repository config path (Some source) = Ok (Some current)
       /\ remote_new source = Ok remote
       /\ Forall (fun rx => reference_policy (repo_policy current) (rx_destination rx) = Allow) received
       /\ Forall2 same_update received updates
       /\ u' = u ++ [(remote, updates)].

Lemma publish_received_triple path source push pod received current u :
  currently_configured_repository config path (Some source) = Ok (Some current) ->
  Forall (fun rx => reference_policy (repo_policy current) (rx_destination rx) = Allow) received ->
  triple (fun s => upstream s = u)
    (publish_received_push status_len age remote_new display push pod source received)
    (fun _ s => automatic path source received u (upstream s))
    (fun s => automatic path source received u (upstream s)).
Proof.
  intros C A. unfold publish_received_push.
  assert (Fin : forall st, triple (fun s => upstream s = u) (finish_received_push status_len age push pod st)
    (fun _ s => automatic path source received u (upstream s)) (fun s => automatic path source received u (upstream s))).
  { intros st. eapply triple_weaken; [apply (finish_keeps (fun u' => u' = u))|done|by left|by left]. }
  destruct (collect _ received) as [updates|e|m] eqn:U; [|apply Fin|by apply triple_panic; left].
  destruct (remote_new source) as [remote|e|m] eqn:R; [|apply Fin|by apply triple_panic; left].
  assert (J : automatic path source received u (u ++ [(remote, updates)])).
  { right. exists current, remote, updates. split_and!; [done|done|done|by apply received_updates_ok|done]. }
  eapply (triple_bind _ _ _ (fun _ s => automatic path source received u (upstream s))).
  - eapply triple_weaken; [apply (triple_attempt (fun s => upstream s = u) _ (fun _ s => upstream s = u ++ [(remote, updates)])
      (fun s => upstream s = u ++ [(remote, updates)]))|done| |].
    + apply git_publish_triple.
    + intros [] s E; by rewrite E.
    + intros s E; by rewrite E.
  - intros [[]|e|m]; as_keeps.
    + apply keeps_bind; [apply cleanup_keeps|]. intros _. apply (finish_keeps (automatic path source received u)).
    + apply (finish_keeps (automatic path source received u)).
    + apply keeps_panic.
Qed.

Lemma retain_keeps (P : list (bytes * list RefUpdate) -> Prop) approval now push pod path source namespace received :
  keeps (fun s => P (upstream s))
    (retain_received_push_for_approval approval_len status_len age source_id display_remote display
       approval now push pod path source namespace received).
Proof.
  unfold retain_received_push_for_approval, record_push_status, transition_push_status. walk.
Qed.

Lemma complete_received_triple approval now push pod path source namespace received u :
  triple (fun s => upstream s = u)
    (complete_received_push approval_len status_len age config source_id display_remote remote_new display
       approval now push pod path source namespace received)
    (fun _ s => automatic path source received u (upstream s))
    (fun s => automatic path source received u (upstream s)).
Proof.
  unfold complete_received_push.
  assert (Fin : forall st, triple (fun s => upstream s = u) (finish_received_push status_len age push pod st)
    (fun _ s => automatic path source received u (upstream s)) (fun s => automatic path source received u (upstream s))).
  { intros st. eapply triple_weaken; [apply (finish_keeps (fun u' => u' = u))|done|by left|by left]. }
  case_bool_decide as L; [apply Fin|].
  destruct (currently_configured_repository config path (Some source)) as [[current|]|e|m] eqn:C;
    [|apply Fin|apply Fin|by apply triple_panic; left].
  destruct (updates_policy_max (repo_policy current) (map rx_destination received)) as [_ F]; [by destruct received|].
  destruct (updates_policy _ _) eqn:U; [|eapply triple_weaken; [apply (retain_keeps (fun u' => u' = u))|done|by left|by left]|apply Fin].
  apply publish_received_triple with (current := current); [done|].
  rewrite (Forall_map rx_destination) in F. eapply Forall_impl; [exact F|]. intros rx B. cbn in B.
  apply rank_inj. destruct (reference_policy _ _); cbn in *; lia.
Qed.

(** What the publication of an approval rests on; [d] is the approvals directory
    it started from. *)
Definition authorized (approval : bytes) (d : Approvals.Dir) (u u' : list (bytes * list RefUpdate)) : Prop :=
  u' = u
  \/ exists a current remote updates,
       holds d approval a /\ claimed_by approval d
       /\ currently_configured_repository config (Approvals.path a) None = Ok (Some current)
       /\ source_id (repo_source current) = Approvals.repository_id a
       /\ remote_new (repo_source current) = Ok remote
       /\ Forall (fun x => reference_policy (repo_policy current) (Approvals.destination x) <> Deny) (Approvals.updates a)
       /\ Forall2 approved_as (Approvals.updates a) updates
       /\ u' = u ++ [(remote, updates)].

Lemma not_denied_ok current l us :
  collect (fun u =>
     let? destination := ok_or (reference_name (Approvals.destination u)) (Refused "invalid reference") in
     if bool_decide (reference_policy (repo_policy current) destination = Deny)
     then Err (Refused "approval is denied by the current Git publication policy") else Ok tt) l = Ok us ->
  Forall (fun x => reference_policy (repo_policy current) (Approvals.destination x) <> Deny) l.
Proof.
  intros F%collect_Ok. induction F as [|x [] l us E F IH]; constructor; [|done].
  apply obind_Ok in E as (d & D & E). destruct (reference_name _) as [d'|] eqn:N in D; [|done]. injection D as ->.
  apply reference_name_ok in N as ->. by case_bool_decide.
Qed.
Lemma approved_updates_ok l us :
  collect (approved_update resolve_reference) l = Ok us -> Forall2 approved_as l us.
Proof. intros F%collect_Ok. eapply Forall2_impl; [exact F|]. apply approved_update_ok. Qed.

Lemma conclude_keeps (P : list (bytes * list RefUpdate) -> Prop) approval a :
  keeps (fun s => P (upstream s)) (conclude_publication status_len approval a).
Proof. unfold conclude_publication, transition_push_status. walk. Qed.
Lemma publish_exactly_triple approval a remote updates d u :
  authorized approval d u (u ++ [(remote, updates)]) ->
  triple (fun s => upstream s = u)
    (do! git_publish remote updates; conclude_publication status_len approval a)
    (fun _ s => authorized approval d u (upstream s)) (fun s => authorized approval d u (upstream s)).
Proof.
  intros J. apply (triple_bind _ _ _ (fun _ s => authorized approval d u (upstream s))).
  - eapply triple_weaken; [apply (git_publish_triple remote updates u)|done|intros ? s E; by rewrite E|intros s E; by rewrite E].
  - intros []. apply (conclude_keeps (authorized approval d u)).
Qed.

Lemma publish_claimed_triple approval d u :
  triple (fun s => approvals s = d /\ upstream s = u)
    (publish_claimed_approval status_len config source_id remote_new resolve_reference approval)
    (fun _ s => authorized approval d u (upstream s)) (fun s => authorized approval d u (upstream s)).
Proof.
  unfold publish_claimed_approval.
  eapply triple_seq; [exact (in_approvals_triple _ _ _ _ u (read_triple (fun d' => d' = d) approval))|by intros s [_ ->]; left|].
  intros a. destruct (Approvals.publishing a) eqn:Pa; cbn [negb]; [|by apply triple_raise; intros s [_ ->]; left].
  eapply triple_seq; [apply triple_outcome|by intros s [_ ->]; left|].
  intros [current|]; [|by apply triple_raise; intros s (_ & _ & ->); left].
  case_bool_decide as Sid; cbn [negb]; [|by apply triple_raise; intros s (_ & _ & ->); left].
  eapply triple_seq; [apply triple_outcome|by intros s (_ & _ & ->); left|]. intros us.
  eapply triple_seq; [apply triple_syscall|by intros s (_ & _ & _ & ->); left|]. intros [].
  eapply triple_seq; [apply triple_syscall|by intros s (_ & _ & _ & ->); left|]. intros [].
  eapply triple_seq; [apply triple_outcome|by intros s (_ & _ & _ & ->); left|]. intros remote.
  eapply triple_seq; [apply triple_outcome|by intros s (_ & _ & _ & _ & ->); left|]. intros updates.
  intros w (U & R & N & C & [[-> (a0 & Hh & Ea & Hc)] Hu]).
  assert (J : authorized approval d u (u ++ [(remote, updates)])).
  { right. rewrite Pa in *. exists a0, current, remote, updates.
    assert (Approvals.path a = Approvals.path a0 /\ Approvals.updates a = Approvals.updates a0
            /\ Approvals.repository_id a = Approvals.repository_id a0) as (E1 & E2 & E3) by (by rewrite Ea).
    rewrite <- E1, <- E2, <- E3.
    split_and!; [done|done|done|done|done|by eapply not_denied_ok|by apply approved_updates_ok|done]. }
  exact (publish_exactly_triple approval a remote updates d u J w Hu).
Qed.
End publish.
