(* ===== verification/RepoProps.v ===== *)
(** * Publication of pushes: properties

    What the push policies, the approval and status stores and the repository
    manager promise, with a sample of each. *)

From S2P Require Import Prelude Effects Utf8 Text RepoPolicy RepoStore RepoPushes RepoPublish RepoThms.
Import Git.

(** ** Samples

    The identifiers of the approval and the pushes are abbreviated; the stores only
    compare them. *)
Definition sample_id : bytes := str "a1".
Definition sample_pod : bytes := str "pod_1111111111111111111111".
Definition sample_push : bytes := str "p1".
Definition sample_object : bytes := str "0123456789abcdef0123456789abcdef01234567".
Definition sample_update : Approvals.RepositoryApprovalUpdate :=
  {| Approvals.source_ref := str "refs/tascarrel/receive/x/refs/heads/main";
     Approvals.destination := str "refs/heads/main"; Approvals.expected := None;
     Approvals.proposed := sample_object; Approvals.allow_rewrite := false |}.
Definition sample_approval : Approvals.RepositoryApproval :=
  {| Approvals.version := 1; Approvals.id := sample_id; Approvals.pod_id := sample_pod;
     Approvals.path := str "project"; Approvals.repository_id := concat (replicate 64 (str "0"));
     Approvals.source := str "https://example.test/project.git"; Approvals.created_at := 0;
     Approvals.updates := [sample_update]; Approvals.push_id := Some sample_push;
     Approvals.receive_namespace := Some (str "x"); Approvals.postponed := false;
     Approvals.last_error := None; Approvals.publishing := false |}.
Definition empty_approvals : World Approvals.Dir :=
  {| dir := {| Approvals.records := ∅; Approvals.claims := ∅ |}; faults := [] |}.

(** ** Policies *)
Section policies.
Context (escape : bytes -> bytes) (build : bytes -> option (bytes -> bool)).

(** The policy the configuration gives a name: the first rule whose pattern matches,
    or the default. *)
Definition matches (kind : Kind) (name : bytes) (rule : RuleConfig) : bool :=
  match compile_pattern escape build (rc_pattern rule) kind with Ok m => m name | _ => false end.
Definition configured (c : GitConfig) (rules : option (list RuleConfig)) (kind : Kind) (name : bytes)
  : outcome RepositoryPolicyError RepositoryPushPolicy :=
  match List.find (matches kind name) (default [] rules) with
  | Some rule => parse_policy (Some (rc_policy rule))
  | None => parse_policy (gc_default c)
  end.

Lemma compiled_rules_policy c p rules kind rs name :
  compile_rules escape build rules kind = Ok rs -> parse_policy (gc_default c) = Ok (default_action p) ->
  configured c rules kind name = Ok (rules_policy p rs name).
Proof.
  unfold compile_rules, configured, rules_policy. intros C D. destruct (_ <? _); [done|].
  apply collect_Ok in C. induction C as [|rule r l rs E F IH]; [done|]. cbn [List.find]. unfold matches at 1.
  apply obind_Ok in E as (m & -> & E). apply obind_Ok in E as (a & Pa & E). injection E as <-. cbn [matcher policy].
  by destruct (m name).
Qed.
End policies.

(** A push policy decides as its configuration reads: a branch or tag gets the
    action of the first rule of its kind that matches its name, or the default; any
    other reference is denied; and a set of updates gets the most restrictive
    decision among its references. *)
Theorem push_policy_spec escape build c p refs :
  from_config escape build (Some c) = Ok p ->
  (forall name, configured escape build c (gc_branches c) Branch name = Ok (reference_policy p (str "refs/heads/" ++ name)))
  /\ (forall name, configured escape build c (gc_tags c) Tag name = Ok (reference_policy p (str "refs/tags/" ++ name)))
  /\ (forall r, is_branch r = false -> is_tag r = false -> reference_policy p r = Deny)
  /\ (refs <> [] -> (exists r, r ∈ refs /\ reference_policy p r = updates_policy p refs)
      /\ Forall (fun r => rank (reference_policy p r) <= rank (updates_policy p refs)) refs).
Proof.
  cbn [from_config]. intros (d & D & E)%obind_Ok. apply obind_Ok in E as (bs & B & E).
  apply obind_Ok in E as (ts & T & E). injection E as <-. split_and!.
  - intros name. by rewrite (compiled_rules_policy escape build c {| default_action := d; branches := bs; tags := ts |} _ _ bs).
  - intros name. by rewrite (compiled_rules_policy escape build c {| default_action := d; branches := bs; tags := ts |} _ _ ts).
  - intros r Br Tg. unfold is_branch, is_tag, starts_with in *. apply bool_decide_eq_false_1 in Br, Tg.
    apply eq_None_not_Some in Br, Tg. unfold reference_policy. by rewrite Br, Tg.
  - apply updates_policy_max.
Qed.
Definition exact_glob (g : bytes) : option (bytes -> bool) := Some (fun name => bool_decide (name = g)).
Definition sample_git : GitConfig :=
  {| gc_default := Some (str "deny");
     gc_branches := Some [{| rc_pattern := str "main"; rc_policy := str "require-approval" |};
                          {| rc_pattern := str "main"; rc_policy := str "allow" |};
                          {| rc_pattern := str "topic"; rc_policy := str "allow" |}];
     gc_tags := None |}.
Lemma push_policy_spec_witness : exists p,
  from_config (fun s => s) exact_glob (Some sample_git) = Ok p
  /\ reference_policy p (str "refs/heads/main") = RequireApproval
  /\ updates_policy p [str "refs/heads/topic"; str "refs/heads/main"] = RequireApproval
  /\ reference_policy p (str "refs/notes/commits") = Deny.
Proof.
  eexists. split; [vm_compute; reflexivity|]. split; [vm_compute; reflexivity|]. split; [vm_compute; reflexivity|].
  eapply (push_policy_spec (fun s => s) exact_glob sample_git _ []); [vm_compute; reflexivity|reflexivity|reflexivity].
Defined.

(** ** Approvals *)
Section approvals.
Import Approvals.

(** Operations when nothing fails. *)
Definition quiet (d : Dir) : World Dir := {| dir := d; faults := [] |}.
Lemma write_quiet len a d :
  len a <= MAX_APPROVAL_RECORD_BYTES ->
  write len a (quiet d)
  = (Ok tt, quiet (d <| records := <[id a := Regular (Some (a <| publishing := false |>)) (len a)]> (records d) |>)).
Proof. intros L. unfold write. rewrite (proj2 (Z.ltb_ge _ _) L). done. Qed.
Lemma read_quiet i a size d (c : bool) :
  records d !! i = Some (Regular (Some a) size) -> size <= MAX_APPROVAL_RECORD_BYTES ->
  validate a = Ok tt -> id a = i -> claims d !! i = (if c then Some true else None) ->
  read i (quiet d) = (Ok (a <| publishing := c |>), quiet d).
Proof.
  intros R S V I C. unfold read, read_path, claim_exists, andthen, syscall, get. cbn. rewrite R. cbn. rewrite R.
  rewrite (proj2 (Z.ltb_ge _ _) S). cbn. rewrite V. rewrite bool_decide_eq_true_2 by done. cbn. rewrite C. by destruct c.
Qed.

Lemma complete_quiet i content size d :
  records d !! i = Some (Regular content size) -> claims d !! i = Some true ->
  complete_claim i (quiet d)
  = (Ok tt, quiet {| records := delete i (records d); claims := delete i (claims d) |}).
Proof.
  intros R C. unfold complete_claim, claim_exists, remove_record, remove_claim, andthen, syscall, get, put, quiet.
  cbn. rewrite C. cbn. rewrite R. cbn. by rewrite C.
Qed.
Lemma validate_cleared a p :
  validate a = Ok tt -> validate (a <| last_error := None |> <| publishing := true |> <| publishing := p |>) = Ok tt.
Proof.
  unfold validate. cbn. destruct (negb _); [done|].
  destruct (_ || match last_error a with Some _ => _ | None => _ end) eqn:E; [done|].
  apply orb_false_iff in E as [-> _]. done.
Qed.

(** Without failures an approval goes through its life: a valid request with a
    fresh identifier is created, claimed once with exactly its content, and its
    completion leaves the directory as it was. *)
Theorem approval_lifecycle len a w :
  validate a = Ok tt -> faults w = [] ->
  records (dir w) !! id a = None -> claims (dir w) !! id a = None ->
  (forall b, len b <= MAX_APPROVAL_RECORD_BYTES) ->
  let w1 := (create len a w).2 in
  let w2 := (claim len (id a) w1).2 in
  (create len a w).1 = Ok tt
  /\ (claim len (id a) w1).1 = Ok (Some (a <| last_error := None |> <| publishing := true |>))
  /\ (claim len (id a) w2).1 = Ok None
  /\ complete_claim (id a) w2 = (Ok tt, w).
Proof.
  intros V F R C L. destruct w as [d fs]. cbn in F, R, C. subst fs.
  pose (a1 := a <| last_error := None |> <| publishing := true |>).
  assert (V1 : validate (a1 <| publishing := false |>) = Ok tt) by (by apply validate_cleared).
  pose (d1 := d <| records := <[id a := Regular (Some (a <| publishing := false |>)) (len a)]> (records d) |>).
  pose (d2 := d1 <| claims := <[id a := true]> (claims d1) |>
    <| records := <[id a1 := Regular (Some (a1 <| publishing := false |>)) (len a1)]> (records d1) |>).
  assert (E1 : create len a (quiet d) = (Ok tt, quiet d1)).
  { unfold create. rewrite V. unfold exists_path, andthen. cbn. rewrite R. cbn. rewrite C. cbn. by apply write_quiet. }
  assert (E2 : claim len (id a) (quiet d1) = (Ok (Some a1), quiet d2)).
  { unfold claim, andthen at 1. rewrite (read_quiet _ (a <| publishing := false |>) (len a) d1 false);
      [|apply lookup_insert_eq|done|done|done|done].
    cbn. rewrite C. cbn. unfold attempt, andthen, syscall. cbn.
    change (a <| publishing := false |> <| publishing := false |> <| last_error := None |> <| publishing := true |>) with a1.
    match goal with |- context [{| dir := ?x; faults := [] |}] => change {| dir := x; faults := [] |} with (quiet x) end.
    by rewrite (write_quiet len a1 _ (L a1)). }
  assert (R2 : records d2 !! id a = Some (Regular (Some (a1 <| publishing := false |>)) (len a1))) by apply lookup_insert_eq.
  assert (C2 : claims d2 !! id a = Some true) by apply lookup_insert_eq.
  cbv zeta. change {| dir := d; faults := [] |} with (quiet d). rewrite E1. cbn [fst snd]. rewrite E2. cbn [fst snd].
  split_and!; [done|done| |].
  - unfold claim, andthen at 1. by rewrite (read_quiet _ (a1 <| publishing := false |>) (len a1) d2 true).
  - rewrite (complete_quiet _ _ _ _ R2 C2). do 2 f_equal. destruct d as [rs cs]. cbn in *. f_equal.
    + by rewrite insert_insert_eq, delete_insert_id.
    + by rewrite delete_insert_id.
Qed.
Definition sample_len (_ : RepositoryApproval) : Z := 600.
Lemma approval_lifecycle_witness :
  (claim sample_len sample_id (create sample_len sample_approval empty_approvals).2).1
  = Ok (Some (sample_approval <| publishing := true |>)).
Proof.
  refine (proj1 (proj2 (approval_lifecycle sample_len sample_approval empty_approvals _ _ _ _ _)));
    try reflexivity. intros b. vm_compute. discriminate.
Defined.

(** A claim is exclusive, whatever system calls fail: once an approval is
    claimed, and until that claim is failed or completed, no other claim of it
    succeeds, it is not removed, and reading it yields the claimed request. *)
Theorem claim_exclusive len i w a w' ops :
  claim len i w = (Ok (Some a), w') ->
  Forall (fun o => releases i o = false /\ overwrites i o = false) ops ->
  (forall r, (claim len i (run len ops w')).1 = Ok r -> r = None)
  /\ (remove i (run len ops w')).1 <> Ok tt
  /\ (forall b, (read i (run len ops w')).1 = Ok b -> publishing b = true /\ request b = request a).
Proof.
  intros C F. pose proof (triple_use _ _ _ _ w _ _ (claim_success len i) I C a eq_refl) as Res.
  assert (Q : reserved i a (dir (run len ops w'))).
  { apply run_kept; [|exact Res]. eapply Forall_impl; [exact F|]. intros o [? ?]. by apply exec_reserved. }
  set (w1 := run len ops w') in *. destruct Q as [Q Rt]. split_and!.
  - intros r E. pose proof (claim_claimed len i i w1 Q) as T. destruct (claim len i w1) as [[x|e|m] w2]; try done.
    cbn in E. injection E as ->. by apply T.
  - intros E. pose proof (claim_exists_triple (claimed_by i) i w1 Q) as T. revert E. unfold remove, andthen.
    destruct (claim_exists i w1) as [[[]|e|m] w2]; try done. destruct T as [T N]. unfold claimed_by in T. congruence.
  - intros b E. pose proof (read_triple (reserved i a) i w1 (conj Q Rt)) as T.
    destruct (read i w1) as [[x|e|m] w2]; try done. cbn in E. injection E as ->.
    destruct T as [[Q2 R2] H]. split; [|apply (read_request i i a b (dir w2) R2 H); by apply read_as_id in H].
    destruct H as (a0 & _ & _ & Cl). unfold claimed_by in Q2. destruct (publishing b); congruence.
Qed.
Definition claimed_sample : World Dir :=
  (claim sample_len sample_id (create sample_len sample_approval empty_approvals).2).2.
Lemma claim_exclusive_witness :
  (remove sample_id (run sample_len [OpRemove sample_id; OpPostpone sample_id; OpClaim sample_id] claimed_sample)).1 <> Ok tt.
Proof.
  refine (proj1 (proj2 (claim_exclusive sample_len sample_id (create sample_len sample_approval empty_approvals).2
    (sample_approval <| publishing := true |>) claimed_sample
    [OpRemove sample_id; OpPostpone sample_id; OpClaim sample_id] _ _))).
  - vm_compute. reflexivity.
  - repeat constructor.
Defined.

(** What is approved is what was requested: over any history of the store, with
    any failures, that neither resolves the approval nor creates it again, reading
    a created approval yields its request unchanged; only the postponement, the
    last diagnostic and the claim may differ. *)
Theorem approval_request_immutable len a w w' ops b :
  create len a w = (Ok tt, w') ->
  Forall (fun o => resolves (id a) o = false) ops ->
  (read (id a) (run len ops w')).1 = Ok b -> request b = request a.
Proof.
  intros C F E. pose proof (triple_use _ _ _ _ w _ _ (create_success len a) I C) as R.
  assert (Q : retains (id a) a (dir (run len ops w'))).
  { apply run_kept; [|exact R]. eapply Forall_impl; [exact F|]. intros o. apply exec_retains. }
  pose proof (read_triple (retains (id a) a) (id a) _ Q) as T.
  destruct (read (id a) _) as [[x|e|m] w2]; try done. cbn in E. injection E as ->. destruct T as [R2 H].
  apply (read_request (id a) (id a) a b (dir w2) R2 H). by apply read_as_id in H.
Qed.
Definition failed_history : list Op :=
  [OpPostpone sample_id; OpClaim sample_id; OpFail sample_id (str "remote rejected the push")].
Lemma approval_request_immutable_witness : exists b,
  (read sample_id (run sample_len failed_history (create sample_len sample_approval empty_approvals).2)).1 = Ok b
  /\ last_error b = Some (str "remote rejected the push") /\ postponed b = true
  /\ request b = request sample_approval.
Proof.
  eexists. split; [vm_compute; reflexivity|]. split; [reflexivity|]. split; [reflexivity|].
  apply (approval_request_immutable sample_len sample_approval empty_approvals
    (create sample_len sample_approval empty_approvals).2 failed_history).
  - vm_compute. reflexivity.
  - repeat constructor.
  - vm_compute. reflexivity.
Defined.

(** Recovery after a restart finds exactly what was claimed: whatever fails, listing
    the claimed approvals changes nothing, and when it succeeds it returns, with their
    stored content, the approvals that have both a record and a claim, and only those. *)
Theorem claimed_recovers w r w' :
  claimed w = (r, w') ->
  dir w' = dir w
  /\ forall l, r = Ok l ->
     (forall a, a ∈ l -> read_as (dir w) (id a) a /\ publishing a = true)
     /\ (forall i, (is_Some (records (dir w) !! i) /\ claims (dir w) !! i = Some true) <-> exists a, a ∈ l /\ id a = i).
Proof.
  intros E. pose proof (triple_use _ _ _ _ w _ _ (claimed_triple (dir w)) eq_refl E) as T.
  destruct r as [l|e|m]; [|done|done]. destruct T as (Hd & R & N). split; [done|]. intros l' [= <-]. split; [|exact N].
  intros a Ha. split; [by apply R|]. destruct (R a Ha) as (_ & _ & _ & C).
  destruct (proj2 (N (id a))) as [_ Cl]; [by exists a|]. unfold claimed_by in Cl. destruct (publishing a); congruence.
Qed.
Lemma claimed_recovers_witness : exists l w',
  claimed claimed_sample = (Ok l, w') /\ map id l = [sample_id]
  /\ (exists a, a ∈ l /\ id a = sample_id).
Proof.
  eexists _, _. split; [vm_compute; reflexivity|]. split; [reflexivity|].
  refine (proj1 (proj2 (proj2 (claimed_recovers claimed_sample _ _ _) _ eq_refl) sample_id) _).
  - vm_compute. reflexivity.
  - split; [eexists|]; vm_compute; reflexivity.
Defined.

(** A claim whose file cannot be synchronized is reported as failed but stays:
    the caller gets an error, yet later claims find the approval already claimed and
    it cannot be rejected. *)
Theorem claim_sync_failure_leaks len i a size d :
  records d !! i = Some (Regular (Some a) size) -> size <= MAX_APPROVAL_RECORD_BYTES ->
  validate a = Ok tt -> id a = i -> claims d !! i = None ->
  exists d', claim len i {| dir := d; faults := [false; false; false; false; false; true] |} = (Err Io, quiet d')
  /\ (claim len i (quiet d')).1 = Ok None /\ (remove i (quiet d')).1 = Err AlreadyPublishing.
Proof.
  intros R S V I C. exists (d <| claims := <[i := true]> (claims d) |>). split_and!.
  - unfold claim, read, read_path, claim_exists, andthen, syscall, get. cbn. rewrite R. cbn. rewrite R.
    rewrite (proj2 (Z.ltb_ge _ _) S). cbn. rewrite V. rewrite bool_decide_eq_true_2 by done. cbn. rewrite C.
    cbn. rewrite C. done.
  - unfold claim, andthen at 1. rewrite (read_quiet i a size _ true); [done|done|done|done|done|apply lookup_insert_eq].
  - unfold remove, claim_exists, andthen, syscall, get, quiet. cbn. by rewrite lookup_insert_eq.
Qed.
Lemma claim_sync_failure_leaks_witness : exists d',
  (claim sample_len sample_id {| dir := dir (create sample_len sample_approval empty_approvals).2;
     faults := [false; false; false; false; false; true] |}).1 = Err Io
  /\ (claim sample_len sample_id (quiet d')).1 = Ok None.
Proof.
  destruct (claim_sync_failure_leaks sample_len sample_id sample_approval 600
    (dir (create sample_len sample_approval empty_approvals).2)) as (d' & E & N & _);
    try (vm_compute; reflexivity).
  - vm_compute. discriminate.
  - exists d'. split; [by rewrite E|exact N].
Defined.
End approvals.

(** ** Push statuses *)
Section pushes.
Import Pushes.

(** Over any history of the status store, with any failures and any pruning, in
    which the push is not created again: a terminal status never changes (it can only
    expire), a pending one stays until it is transitioned, and a transition that
    reports success leaves the state it was given. *)
Theorem push_status_lifecycle len i s w ops :
  status_at (dir w) i s ->
  Forall (fun o => creates i o = false) ops ->
  (is_terminal (state s) = true ->
   dir (status_run len ops w) !! i = None \/ status_at (dir (status_run len ops w)) i s)
  /\ (is_terminal (state s) = false -> Forall (fun o => transitions i o = false) ops ->
      status_at (dir (status_run len ops w)) i s)
  /\ (forall st w', transition len i st (status_run len ops w) = (Ok tt, w') ->
      exists s', status_at (dir w') i s' /\ state s' = st /\ id s' = i).
Proof.
  intros H F. split_and!.
  - intros T. apply (status_run_kept len (final_at i s)); [|by right].
    eapply Forall_impl; [exact F|]. intros o C w1. by apply exec_final.
  - intros T F'. apply (status_run_kept len (pending_at i s)); [|done].
    eapply Forall_impl; [apply Forall_and; split; [exact F|exact F']|]. intros o [C C'] w1. by apply exec_pending.
  - intros st w' E. exact (triple_use _ _ _ _ _ _ _ (transition_success len i st) I E).
Qed.
Definition sample_status : RepositoryPushStatus := new sample_push sample_pod (ApprovalRequired sample_id).
Definition pending_sample : World Dir :=
  {| dir := {[ sample_push := Regular (Some sample_status) 120 ]}; faults := [] |}.
Definition status_len (_ : RepositoryPushStatus) : Z := 120.
Definition other_push : RepositoryPushStatus := new (str "p2") sample_pod Published.
Definition sample_ops : list StatusOp :=
  [StCreate (fun _ => Some 100000) other_push; StTransition (str "p2") Rejected].
Lemma push_status_lifecycle_witness :
  status_at (dir (status_run status_len sample_ops pending_sample)) sample_push sample_status.
Proof.
  refine (proj1 (proj2 (push_status_lifecycle status_len sample_push sample_status pending_sample sample_ops _ _)) _ _).
  - exists 120. apply lookup_singleton_eq.
  - repeat constructor.
  - reflexivity.
  - repeat constructor.
Defined.

End pushes.

(** ** Publications *)
Section publications.
Import Publish.

(** C37: Completing a push that a pod sent adds at most one publication upstream,
    whatever fails, and only when the path is configured for that source now and the
    current policy allows every updated reference; it then publishes exactly the
    received updates, under the lease of the tips the push saw, to that source. *)
Theorem automatic_publication_authorized alen slen age config source_id display_remote remote_new display
    approval now push pod path source namespace received w r w' :
  complete_received_push alen slen age config source_id display_remote remote_new display
    approval now push pod path source namespace received w = (r, w') ->
  upstream (dir w') = upstream (dir w)
  \/ exists current remote updates,
       currently_configured_repository config path (Some source) = Ok (Some current)
       /\ remote_new source = Ok remote
       /\ Forall (fun rx => reference_policy (repo_policy current) (rx_destination rx) = Allow) received
       /\ Forall2 same_update received updates
       /\ upstream (dir w') = upstream (dir w) ++ [(remote, updates)].
Proof.
  intros E. pose proof (triple_use _ _ _ _ w _ _ (complete_received_triple alen slen age config source_id
    display_remote remote_new display approval now push pod path source namespace received _) eq_refl E) as T.
  by destruct r.
Qed.

Definition sample_source : bytes := str "https://example.test/project.git".
Definition sample_policy (p : RepositoryPushPolicy) : outcome StoreError (gmap bytes HostRepository) :=
  Ok {[ str "project" := {| repo_source := sample_source;
    repo_policy := {| default_action := p; branches := []; tags := [] |} |} ]}.
Definition sample_received : ReceivedReferenceUpdate :=
  {| rx_source := str "refs/heads/topic"; rx_destination := str "refs/heads/main"; rx_previous := None;
     rx_proposed := sample_object; rx_rewrites := false |}.
Definition sample_state : World State :=
  {| dir := {| approvals := {| Approvals.records := ∅; Approvals.claims := ∅ |}; pushes := ∅; upstream := [] |};
     faults := [] |}.
Definition sample_display (e : StoreError) : bytes := str "failed".
Definition zeros (_ : bytes) : bytes := concat (replicate 64 (str "0")).
Definition push_with (p : RepositoryPushPolicy) :=
  complete_received_push (fun _ => 600) (fun _ => 120) (fun _ => None) (sample_policy p) zeros (fun s => s) Ok
    sample_display sample_id 0 sample_push sample_pod (str "project") sample_source (str "x") [sample_received]
    sample_state.
Lemma automatic_publication_authorized_witness :
  let w' := (push_with Allow).2 in
  upstream (dir w')
  = [(sample_source, [{| up_source := str "refs/heads/topic"; up_destination := str "refs/heads/main";
                         up_expected := None; up_rewrite := false |}])]
  /\ upstream (dir (push_with RequireApproval).2) = []
  /\ (upstream (dir w') = []
      \/ exists current remote updates,
           currently_configured_repository (sample_policy Allow) (str "project") (Some sample_source) = Ok (Some current)
           /\ Ok sample_source = (Ok remote : outcome StoreError bytes)
           /\ Forall (fun rx => reference_policy (repo_policy current) (rx_destination rx) = Allow) [sample_received]
           /\ Forall2 same_update [sample_received] updates
           /\ upstream (dir w') = [] ++ [(remote, updates)]).
Proof.
  split; [vm_compute; reflexivity|]. split; [vm_compute; reflexivity|].
  apply (automatic_publication_authorized (fun _ => 600) (fun _ => 120) (fun _ => None) (sample_policy Allow) zeros
    (fun s => s) Ok sample_display sample_id 0 sample_push sample_pod (str "project") sample_source (str "x")
    [sample_received] sample_state (push_with Allow).1 (push_with Allow).2).
  apply surjective_pairing.
Defined.

(** C38: publishing an approval adds at most one publication upstream, whatever fails,
    and only when the approval is durably stored and claimed, its path is still
    configured with the upstream it was staged for, and the current policy denies
    none of its references; it then publishes exactly the reviewed updates: the
    proposed objects, still retained under their source references, under the lease
    of the reviewed base. *)
Theorem approved_publication_authorized slen config source_id remote_new resolve_reference approval w r w' :
  publish_claimed_approval slen config source_id remote_new resolve_reference approval w = (r, w') ->
  upstream (dir w') = upstream (dir w)
  \/ exists a current remote updates,
       holds (approvals (dir w)) approval a /\ claimed_by approval (approvals (dir w))
       /\ currently_configured_repository config (Approvals.path a) None = Ok (Some current)
       /\ source_id (repo_source current) = Approvals.repository_id a
       /\ remote_new (repo_source current) = Ok remote
       /\ Forall (fun x => reference_policy (repo_policy current) (Approvals.destination x) <> Deny) (Approvals.updates a)
       /\ Forall2 (approved_as resolve_reference) (Approvals.updates a) updates
       /\ upstream (dir w') = upstream (dir w) ++ [(remote, updates)].
Proof.
  intros E. pose proof (triple_use _ _ _ _ w _ _ (publish_claimed_triple slen config source_id remote_new
    resolve_reference approval _ _) (conj eq_refl eq_refl) E) as T.
  by destruct r.
Qed.

Definition claimed_state : World State :=
  {| dir := {| approvals := {| Approvals.records := {[ sample_id := Regular (Some sample_approval) 600 ]};
                               Approvals.claims := {[ sample_id := true ]} |};
               pushes := {[ sample_push := Regular (Some sample_status) 120 ]}; upstream := [] |};
     faults := [] |}.
Definition retained (_ : bytes) : outcome StoreError bytes := Ok sample_object.
Definition publish_with (p : RepositoryPushPolicy) :=
  publish_claimed_approval (fun _ => 120) (sample_policy p) zeros Ok retained sample_id claimed_state.
Lemma approved_publication_authorized_witness :
  let w' := (publish_with RequireApproval).2 in
  upstream (dir w')
  = [(sample_source, [{| up_source := Approvals.source_ref sample_update; up_destination := str "refs/heads/main";
                         up_expected := None; up_rewrite := false |}])]
  /\ upstream (dir (publish_with Deny).2) = []
  /\ (upstream (dir w') = []
      \/ exists a current remote updates,
           holds (approvals (dir claimed_state)) sample_id a /\ claimed_by sample_id (approvals (dir claimed_state))
           /\ currently_configured_repository (sample_policy RequireApproval) (Approvals.path a) None = Ok (Some current)
           /\ zeros (repo_source current) = Approvals.repository_id a
           /\ Ok (repo_source current) = (Ok remote : outcome StoreError bytes)
           /\ Forall (fun x => reference_policy (repo_policy current) (Approvals.destination x) <> Deny) (Approvals.updates a)
           /\ Forall2 (approved_as retained) (Approvals.updates a) updates
           /\ upstream (dir w') = [] ++ [(remote, updates)]).
Proof.
  split; [vm_compute; reflexivity|]. split; [vm_compute; reflexivity|].
  apply (approved_publication_authorized (fun _ => 120) (sample_policy RequireApproval) zeros Ok retained sample_id
    claimed_state (publish_with RequireApproval).1 (publish_with RequireApproval).2).
  apply surjective_pairing.
Defined.

(** Diagnostics are cut at 2,048 characters while a status admits 4,096 bytes: a
    push whose diagnostic exceeds 4,096 bytes after the cut is refused by the status
    store, so its failure is never recorded. *)
Theorem long_diagnostic_not_recorded slen age display push pod e w :
  4096 < len (bounded_repository_diagnostic (display e)) -> pod_id_ok pod = true ->
  exists w', finish_received_push slen age push pod (failed display e) w = (Err InvalidRecord, w')
             /\ pushes (dir w') = pushes (dir w).
Proof.
  intros L P. unfold finish_received_push, cleanup, record_push_status, andthen, in_pushes, Pushes.create.
  assert (Pushes.validate (Pushes.new push pod (failed display e)) = Err InvalidRecord) as ->.
  { unfold Pushes.validate, Pushes.new. cbn [Pushes.version Pushes.pod_id Pushes.state]. rewrite P.
    unfold failed, Pushes.is_valid. rewrite (proj2 (Z.leb_gt _ _) L), andb_false_r. done. }
  unfold next_fault, ret. destruct (faults w); eexists; split; reflexivity.
Qed.
Definition euros (_ : StoreError) : bytes := concat (replicate 2048 [226; 130; 172]).
Lemma long_diagnostic_not_recorded_witness :
  exists w', finish_received_push (fun _ => 120) (fun _ => None) sample_push sample_pod (failed euros Io) sample_state
             = (Err InvalidRecord, w') /\ pushes (dir w') = ∅.
Proof.
  apply (long_diagnostic_not_recorded (fun _ => 120) (fun _ => None) euros sample_push sample_pod Io sample_state);
    vm_compute; reflexivity.
Defined.
End publications.
