(* ===== verification/Store.v ===== *)
(** * Resumable state synchronization

    [crates/libs/tascarrel-store/src/lib.rs]: authoritative state with a bounded
    journal of mutations, subscriptions that replay the journal or fall back to a
    snapshot, and the consumer's cache.

    A [Uuid] is an integer; the generations a store draws are arguments, and what
    is assumed of them (they are fresh) is a hypothesis of the theorems.  Shared
    values ([Arc]) are values: no operation mutates one in place while it is
    shared.  The reducer is a function from a value and a mutation to a value. *)

From S2P Require Import Prelude.

(** ** Stamps, snapshots and events *)
Record Stamp := { generation : Z; version : Z }.
#[export] Instance Stamp_eq_dec : EqDecision Stamp.
Proof. solve_decision. Defined.
#[export] Instance Stamp_countable : Countable Stamp.
Proof.
  refine (inj_countable' (fun s => (generation s, version s)) (fun '(g, v) => {| generation := g; version := v |}) _).
  by intros [].
Defined.

Record Snapshot (T : Type) := { stamp : Stamp; value : T }.
Arguments stamp {T}. Arguments value {T}.

Inductive StoreEvent (T M : Type) :=
| SnapshotEvent (s : Snapshot T)
| MutationEvent (s : Stamp) (m : M).
Arguments SnapshotEvent {T M}. Arguments MutationEvent {T M}.
Definition event_stamp {T M} (e : StoreEvent T M) : Stamp :=
  match e with SnapshotEvent s => stamp s | MutationEvent s _ => s end.

Inductive CacheError :=
| MissingSnapshot
| GenerationMismatch (cached mutation : Z)
| VersionGap (cached mutation : Z).

(** ** The store *)
Record StoreState (T M : Type) := {
  st_generation : Z; st_version : Z; st_value : T; history : list M; history_limit : Z
}.
Arguments st_generation {T M}. Arguments st_version {T M}. Arguments st_value {T M}.
Arguments history {T M}. Arguments history_limit {T M}.
#[export] Instance eta_StoreState T M : Eta (StoreState T M) :=
  fun s => {| st_generation := st_generation s; st_version := st_version s; st_value := st_value s;
              history := history s; history_limit := history_limit s |}.

(** The state and the version of its change notification ([watch::Sender]). *)
Record StoreCore (T M : Type) := { state : StoreState T M; changes : Z }.
Arguments state {T M}. Arguments changes {T M}.

(** A subscription: its cursor and buffered events, the notification it has seen,
    and where its stream is between two of its steps. *)
Inductive Phase := Joining | Waiting | Woken.
#[export] Instance Phase_eq_dec : EqDecision Phase.
Proof. solve_decision. Defined.
Record SubscriptionState (T M : Type) := {
  seen : Z; cursor : option Stamp; pending : list (StoreEvent T M); phase : Phase
}.
Arguments seen {T M}. Arguments cursor {T M}. Arguments pending {T M}. Arguments phase {T M}.
#[export] Instance eta_SubscriptionState T M : Eta (SubscriptionState T M) :=
  fun s => {| seen := seen s; cursor := cursor s; pending := pending s; phase := phase s |}.

Section store.
Context {T M : Type} (reduce : T -> M -> T).
Implicit Types (s : StoreState T M) (c : StoreCore T M) (sub : SubscriptionState T M).

(** [Store::new]. *)
Definition Store_new (g : Z) (initial : T) (limit : Z) : StoreCore T M :=
  {| state := {| st_generation := g; st_version := 0; st_value := initial; history := [];
                 history_limit := limit |};
     changes := 0 |}.

Definition state_stamp s : Stamp := {| generation := st_generation s; version := st_version s |}.
Definition state_snapshot s : Snapshot T := {| stamp := state_stamp s; value := st_value s |}.
Definition snapshot c : Snapshot T := state_snapshot (state c).

(** [Store::apply]; [fresh] is the generation drawn on a version rollover. *)
Definition store_apply (fresh : Z) (m : M) (c : StoreCore T M) : Stamp * StoreCore T M :=
  let s := (state c) <| st_value := reduce (st_value (state c)) m |> in
  let s :=
    if st_version s =? u64_max
    then s <| st_generation := fresh |> <| st_version := 1 |> <| history := [] |>
    else s <| st_version := st_version s + 1 |> in
  let s := s <| history := history s ++ [m] |> in
  let s :=
    if history_limit s <? len (history s) then s <| history := tail (history s) |> else s in
  (state_stamp s, {| state := s; changes := changes c + 1 |}).

(** [(lo..=hi).zip(mutations)], stamped. *)
Fixpoint stamped (g lo hi : Z) (ms : list M) : list (StoreEvent T M) :=
  match ms with
  | [] => []
  | m :: rest =>
      if lo <=? hi
      then MutationEvent {| generation := g; version := lo |} m :: stamped g (lo + 1) hi rest
      else []
  end.

Definition collect_events_after s (after : option Stamp) : list (StoreEvent T M) :=
  match after with
  | None => [SnapshotEvent (state_snapshot s)]
  | Some after =>
      if negb (generation after =? st_generation s) || (st_version s <? version after)
      then [SnapshotEvent (state_snapshot s)]
      else
        let history_len := default (st_version s) (try_from u64_max (len (history s))) in
        let base_version := saturating_sub (st_version s) history_len in
        if version after <? base_version then [SnapshotEvent (state_snapshot s)]
        else
          let history_offset :=
            default (len (history s)) (try_from usize_max (version after - base_version)) in
          stamped (st_generation s) (saturating_add u64_max (version after) 1) (st_version s)
            (dropz history_offset (history s))
  end.

(** [Store::subscribe]: the receiver is created before the state is locked. *)
Definition subscribe_receiver c (after : option Stamp) : SubscriptionState T M :=
  {| seen := changes c; cursor := after; pending := []; phase := Joining |}.
Definition subscribe_collect c sub : SubscriptionState T M :=
  sub <| pending := collect_events_after (state c) (cursor sub) |> <| phase := Waiting |>.
Definition subscribe c (after : option Stamp) : SubscriptionState T M :=
  subscribe_collect c (subscribe_receiver c after).

(** The steps of the stream of [Subscription::new]: an event is taken from the
    buffer; [changed] resolves; the buffer is refilled under the lock. *)
Definition take_pending sub : option (StoreEvent T M * SubscriptionState T M) :=
  match pending sub with
  | e :: rest => Some (e, sub <| cursor := Some (event_stamp e) |> <| pending := rest |>)
  | [] => None
  end.
Definition wake c sub : option (SubscriptionState T M) :=
  if negb (seen sub =? changes c) then Some (sub <| seen := changes c |> <| phase := Woken |>) else None.
Definition reconcile c sub : SubscriptionState T M :=
  sub <| pending := collect_events_after (state c) (cursor sub) |> <| phase := Waiting |>.

(** [Subscription::poll_next] while no mutation is applied: [None] is [Pending]. *)
Definition poll_next c sub : option (StoreEvent T M) * SubscriptionState T M :=
  match take_pending sub with
  | Some (e, sub') => (Some e, sub')
  | None =>
      match wake c sub with
      | None => (None, sub)
      | Some sub' =>
          let sub' := reconcile c sub' in
          match take_pending sub' with
          | Some (e, sub'') => (Some e, sub'')
          | None => (None, sub')
          end
      end
  end.

(** ** The cache *)
Definition Cache : Type := option (Snapshot T).
Definition cache_stamp (cache : Cache) : option Stamp := option_map stamp cache.
Definition cache_value (cache : Cache) : option T := option_map value cache.

Definition cache_apply (e : StoreEvent T M) (cache : Cache) : outcome CacheError Cache :=
  match e with
  | SnapshotEvent sn =>
      if match cache with
         | Some cached =>
             (generation (stamp cached) =? generation (stamp sn))
             && (version (stamp sn) <=? version (stamp cached))
         | None => false
         end
      then Ok cache
      else Ok (Some sn)
  | MutationEvent ms m =>
      match cache with
      | None => Err MissingSnapshot
      | Some sn =>
          if negb (generation (stamp sn) =? generation ms)
          then Err (GenerationMismatch (generation (stamp sn)) (generation ms))
          else if version ms <=? version (stamp sn) then Ok cache
          else if negb (version ms =? saturating_add u64_max (version (stamp sn)) 1)
          then Err (VersionGap (version (stamp sn)) (version ms))
          else Ok (Some {| stamp := ms; value := reduce (value sn) m |})
      end
  end.
(** [Cache::synchronize] over the events of a finished stream. *)
Fixpoint synchronize (events : list (StoreEvent T M)) (cache : Cache) : outcome CacheError Cache :=
  match events with
  | [] => Ok cache
  | e :: rest => let? cache' := cache_apply e cache in synchronize rest cache'
  end.
End store.
