(* ===== verification/StoreThms.v ===== *)
(** * Resumable state synchronization: theorems

    A store, one subscription, the stream that carries its events and the
    consumer's cache, as a step relation.  The store keeps mutating (rolling over
    its versions when it must) and may be restarted; the consumer may disconnect
    and resume from its stamp at any time. *)

From S2P Require Import Prelude Store.

Section sync.
Context {T M : Type} (reduce : T -> M -> T).
Abbreviation core_t := (StoreCore T M).
Abbreviation event := (StoreEvent T M).

(** [wire] holds the events a transport has taken from the subscription and not
    delivered.  [log] records the value of every stamp issued so far and [gens] the
    generations drawn: neither is part of the program. *)
Record System := {
  core : core_t; sub : option (SubscriptionState T M); wire : list event; cache : @Cache T;
  log : gmap Stamp T; gens : gset Z
}.
#[local] Instance eta_System : Eta System :=
  fun s => {| core := core s; sub := sub s; wire := wire s; cache := cache s; log := log s; gens := gens s |}.

Definition limit_ok (limit : Z) : Prop := 1 <= limit <= usize_max.
Definition boot (g : Z) (initial : T) (limit : Z) : System :=
  {| core := Store_new g initial limit; sub := None; wire := []; cache := None;
     log := {[ {| generation := g; version := 0 |} := initial ]}; gens := {[ g ]} |}.

(** The stamps a mutation issues: the new one and, on a rollover, version zero of
    the new generation, which is the state the mutation was applied to. *)
Definition record (fresh : Z) (m : M) (s : System) : gmap Stamp T :=
  let '(st, c') := store_apply reduce fresh m (core s) in
  let l :=
    if st_version (state (core s)) =? u64_max
    then <[ {| generation := fresh; version := 0 |} := st_value (state (core s)) ]> (log s) else log s in
  <[ st := st_value (state c') ]> l.

(** Delivery of what the store holds. *)
Inductive sync : System -> System -> Prop :=
| sync_join s b :
    sub s = Some b -> phase b = Joining -> sync s (s <| sub := Some (subscribe_collect (core s) b) |>)
| sync_receive s b e b' :
    sub s = Some b -> phase b = Waiting -> take_pending b = Some (e, b') ->
    sync s (s <| sub := Some b' |> <| wire := wire s ++ [e] |>)
| sync_wake s b b' :
    sub s = Some b -> phase b = Waiting -> pending b = [] -> wake (core s) b = Some b' ->
    sync s (s <| sub := Some b' |>)
| sync_reconcile s b :
    sub s = Some b -> phase b = Woken -> sync s (s <| sub := Some (reconcile (core s) b) |>)
| sync_deliver s e rest cache' :
    wire s = e :: rest -> cache_apply reduce e (cache s) = Ok cache' ->
    sync s (s <| wire := rest |> <| cache := cache' |>).
Inductive step : System -> System -> Prop :=
| step_sync s s' : sync s s' -> step s s'
| step_apply s m fresh :
    fresh ∉ gens s ->
    step s (s <| core := (store_apply reduce fresh m (core s)).2 |> <| log := record fresh m s |>
              <| gens := {[ fresh ]} ∪ gens s |>)
| step_connect s :
    step s (s <| sub := Some (subscribe_receiver (core s) (cache_stamp (cache s))) |> <| wire := [] |>)
| step_disconnect s : step s (s <| sub := None |> <| wire := [] |>)
| step_restart s g initial limit :
    g ∉ gens s -> limit_ok limit ->
    step s (s <| core := Store_new g initial limit |> <| sub := None |> <| wire := [] |>
              <| log := <[ {| generation := g; version := 0 |} := initial ]> (log s) |>
              <| gens := {[ g ]} ∪ gens s |>).
Definition reachable (s : System) : Prop :=
  exists g initial limit, limit_ok limit /\ rtc step (boot g initial limit) s.

(** ** Invariant *)

(** The journal leads from state to state of the log. *)
Definition follows (l : gmap Stamp T) (g v : Z) (m : M) : Prop :=
  exists x, l !! {| generation := g; version := v |} = Some x
            /\ l !! {| generation := g; version := v + 1 |} = Some (reduce x m).
Record wf (s : StoreState T M) (l : gmap Stamp T) (gs : gset Z) : Prop := {
  wf_gens : forall st, is_Some (l !! st) -> generation st ∈ gs;
  wf_range : forall st, is_Some (l !! st) -> 0 <= version st <= u64_max;
  wf_now : l !! state_stamp s = Some (st_value s);
  wf_last : forall st, is_Some (l !! st) -> generation st = st_generation s -> version st <= st_version s;
  wf_limit : limit_ok (history_limit s) /\ len (history s) <= history_limit s;
  wf_len : len (history s) <= st_version s;
  wf_history : forall i m, history s !! i = Some m ->
    follows l (st_generation s) (st_version s - len (history s) + Z.of_nat i) m
}.

(** Events lead a replica from one stamp to another without a gap. *)
Fixpoint chain (l : gmap Stamp T) (from : option Stamp) (es : list event) (to : option Stamp) : Prop :=
  match es with
  | [] => from = to
  | SnapshotEvent sn :: es' =>
      l !! stamp sn = Some (value sn)
      /\ (forall c, from = Some c -> generation c = generation (stamp sn) -> version c < version (stamp sn))
      /\ chain l (Some (stamp sn)) es' to
  | MutationEvent st m :: es' =>
      (exists c, from = Some c /\ generation c = generation st /\ version st = version c + 1
                 /\ follows l (generation c) (version c) m)
      /\ chain l (Some st) es' to
  end.

Definition known (l : gmap Stamp T) (o : option Stamp) : Prop :=
  forall c, o = Some c -> is_Some (l !! c).
Definition replica (l : gmap Stamp T) (c : @Cache T) : Prop :=
  forall sn, c = Some sn -> l !! stamp sn = Some (value sn).

Definition sub_ok (s : System) (b : SubscriptionState T M) : Prop :=
  known (log s) (cursor b) /\ seen b <= changes (core s)
  /\ match phase b with
     | Joining => wire s = [] /\ pending b = [] /\ cursor b = cache_stamp (cache s)
     | Woken => pending b = [] /\ chain (log s) (cache_stamp (cache s)) (wire s) (cursor b)
     | Waiting =>
         chain (log s) (cache_stamp (cache s)) (wire s) (cursor b)
         /\ exists last, chain (log s) (cursor b) (pending b) last
            /\ (seen b = changes (core s) -> last = Some (state_stamp (state (core s))))
     end.
Record Inv (s : System) : Prop := {
  inv_wf : wf (state (core s)) (log s) (gens s);
  inv_cache : replica (log s) (cache s);
  inv_sub : match sub s with None => wire s = [] | Some b => sub_ok s b end
}.

(** ** Chains *)
Lemma follows_mono l l' g v m : l ⊆ l' -> follows l g v m -> follows l' g v m.
Proof. intros L (x & A & B). exists x. split; by eapply lookup_weaken. Qed.
Lemma chain_mono l l' es : l ⊆ l' -> forall from to, chain l from es to -> chain l' from es to.
Proof.
  intros L. induction es as [|[sn|st m] es IH]; intros from to; cbn; [done| |].
  - intros (A & B & C). split_and!; [by eapply lookup_weaken|done|by apply IH].
  - intros ((c & E & G & V & F) & C). split; [|by apply IH]. exists c. split_and!; [done..|by eapply follows_mono].
Qed.
Lemma chain_app l es es' : forall from to,
  chain l from (es ++ es') to <-> exists mid, chain l from es mid /\ chain l mid es' to.
Proof.
  induction es as [|[sn|st m] es IH]; intros from to; cbn.
  - split; [by eexists|]. by intros (? & -> & ?).
  - rewrite IH. naive_solver.
  - rewrite IH. naive_solver.
Qed.
Lemma known_mono l l' o : l ⊆ l' -> known l o -> known l' o.
Proof. intros L K c E. destruct (K c E) as [x X]. exists x. by eapply lookup_weaken. Qed.
Lemma replica_mono l l' c : l ⊆ l' -> replica l c -> replica l' c.
Proof. intros L R sn E. eapply lookup_weaken; [by apply R|done]. Qed.
Lemma replica_known l c : replica l c -> known l (cache_stamp c).
Proof. intros R st E. destruct c as [sn|]; [|done]. injection E as <-. rewrite (R sn); done. Qed.

(** The cache follows a chain, one event at a time. *)
Lemma chain_deliver l gs s e es c to :
  wf s l gs -> replica l c -> chain l (cache_stamp c) (e :: es) to ->
  exists c', cache_apply reduce e c = Ok c' /\ replica l c' /\ cache_stamp c' = Some (event_stamp e)
             /\ chain l (cache_stamp c') es to.
Proof.
  intros W R. destruct e as [sn|st m]; cbn [chain cache_apply event_stamp].
  - intros (L & N & C). exists (Some sn). split; [|split_and!; [by intros ? [= <-]|done|done]].
    destruct c as [cached|]; [|done]. destruct (_ && _) eqn:G; [|done]. bool_prop.
    specialize (N (stamp cached) eq_refl). lia.
  - intros ((c0 & E & G & V & x & Fx & Fm) & C). destruct c as [sn|]; [|done]. injection E as <-.
    assert (B : version st <= u64_max).
    { apply (wf_range _ _ _ W st). destruct st as [g v]. cbn in *. subst. by eexists. }
    exists (Some {| stamp := st; value := reduce (value sn) m |}).
    rewrite (proj2 (Z.eqb_eq _ _) G), (proj2 (Z.leb_gt _ _)) by lia. cbn [negb].
    unfold saturating_add. rewrite Z.min_r, <- V, Z.eqb_refl by lia. split; [done|]. split_and!; [|done|done].
    intros ? [= <-]. cbn. specialize (R sn eq_refl). destruct (stamp sn) as [g v] eqn:Es, st as [g' v'].
    cbn in *. subst. rewrite Fx in R. by injection R as ->.
Qed.

(** ** What a store collects *)
Lemma stamped_chain l g hi ms : forall lo,
  len ms = hi - lo + 1 ->
  (forall i m, ms !! i = Some m -> follows l g (lo - 1 + Z.of_nat i) m) ->
  chain l (Some {| generation := g; version := lo - 1 |}) (stamped g lo hi ms)
    (Some {| generation := g; version := hi |}).
Proof.
  induction ms as [|m ms IH]; intros lo Hl F; cbn [stamped].
  - cbn. do 2 f_equal. cbn in Hl. unfold len in Hl. cbn in Hl. lia.
  - rewrite len_cons in Hl. pose proof (len_nonneg ms). rewrite (proj2 (Z.leb_le lo hi)) by lia. cbn [chain]. split.
    + exists {| generation := g; version := lo - 1 |}. cbn. split_and!; [done|done|lia|].
      specialize (F 0%nat m eq_refl). by rewrite Z.add_0_r in F.
    + specialize (IH (lo + 1) ltac:(lia)). replace (lo + 1 - 1) with lo in IH by lia. apply IH.
      intros i m' E. specialize (F (S i) m' E). by replace (lo + Z.of_nat i) with (lo - 1 + Z.of_nat (S i)) by lia.
Qed.
Lemma snapshot_chain s l gs after :
  wf s l gs -> known l after ->
  (forall c, after = Some c -> generation c = st_generation s -> version c < st_version s) ->
  chain l after [SnapshotEvent (state_snapshot s)] (Some (state_stamp s)).
Proof. intros W K N. cbn. split_and!; [apply (wf_now _ _ _ W)|exact N|done]. Qed.
Lemma collect_chain s l gs after :
  wf s l gs -> known l after -> chain l after (collect_events_after s after) (Some (state_stamp s)).
Proof.
  intros W K. unfold collect_events_after. destruct after as [c|]; [|by eapply snapshot_chain].
  destruct (_ || _) eqn:G.
  { eapply snapshot_chain; [done|done|]. intros c' [= <-] E. apply orb_true_iff in G as [G|G]; bool_prop; [congruence|].
    pose proof (wf_last _ _ _ W c (K c eq_refl) E). lia. }
  bool_prop. destruct (wf_limit _ _ _ W) as [[L1 L2] L3]. pose proof (wf_len _ _ _ W) as Ln.
  destruct (wf_range _ _ _ W (state_stamp s)) as [V0 V1]; [by rewrite (wf_now _ _ _ W)|]. cbn in V0, V1.
  pose proof (wf_range _ _ _ W c (K c eq_refl)) as [C0 C1]. unfold usize_max in *.
  unfold try_from. rewrite (proj2 (Z.leb_le (len (history s)) u64_max)) by lia. cbn [from_option id].
  unfold saturating_sub. rewrite Z.max_r by lia.
  destruct (version c <? _) eqn:O; bool_prop.
  { eapply snapshot_chain; [done|done|]. intros c' [= <-] _. pose proof (len_nonneg (history s)).
    assert (version c <> st_version s) by lia. lia. }
  rewrite (proj2 (Z.leb_le _ u64_max)) by lia. cbn [from_option id].
  set (off := version c - (st_version s - len (history s))) in *.
  assert (Off : 0 <= off <= len (history s)) by lia.
  unfold saturating_add. destruct (decide (version c = u64_max)) as [Em|Nm].
  - assert (off = len (history s)) as -> by lia. rewrite dropz_ge by lia. cbn. f_equal.
    destruct c as [gc vc]. cbn in *. unfold state_stamp. f_equal; lia.
  - rewrite Z.min_r by lia. destruct c as [gc vc]. cbn [version generation] in *. subst gc.
    replace vc with (vc + 1 - 1) at 1 by lia. apply stamped_chain.
    + rewrite len_dropz by lia. lia.
    + intros i m E. unfold dropz in E. rewrite lookup_drop in E. pose proof (wf_history _ _ _ W _ _ E) as F.
      by replace (vc + 1 - 1 + Z.of_nat i) with (st_version s - len (history s) + Z.of_nat (Z.to_nat off + i)) by lia.
Qed.
Lemma length_stamped g hi ms : forall lo, (length (@stamped T M g lo hi ms) <= length ms)%nat.
Proof. induction ms as [|m ms IH]; intros lo; cbn; [done|]. case_match; cbn; [|lia]. specialize (IH (lo + 1)). lia. Qed.
Lemma length_collect (s : StoreState T M) after : (length (collect_events_after s after) <= S (length (history s)))%nat.
Proof.
  unfold collect_events_after. destruct after; [|cbn; lia]. case_match; [cbn; lia|]. case_match; [cbn; lia|].
  etransitivity; [apply length_stamped|]. unfold dropz. rewrite length_drop. lia.
Qed.

(** ** Preservation *)
Lemma wf_new g initial limit l gs :
  limit_ok limit -> g ∉ gs ->
  (forall st, is_Some (l !! st) -> generation st ∈ gs /\ 0 <= version st <= u64_max) ->
  wf (state (@Store_new T M g initial limit)) (<[ {| generation := g; version := 0 |} := initial ]> l) ({[ g ]} ∪ gs).
Proof.
  intros Lm N A. cbn. constructor; cbn.
  - intros st [x E]. apply lookup_insert_Some in E as [[<- _]|[_ E]]; [set_solver|].
    destruct (A st) as [? _]; [by eexists|set_solver].
  - intros st [x E]. apply lookup_insert_Some in E as [[<- _]|[_ E]]; [cbn; unfold u64_max; lia|]. apply A. by eexists.
  - apply lookup_insert_eq.
  - intros st [x E] G. apply lookup_insert_Some in E as [[<- _]|[_ E]]; [done|].
    destruct (A st) as [H _]; [by eexists|]. rewrite G in H. done.
  - split; [done|]. destruct Lm. unfold len. cbn. lia.
  - done.
  - done.
Qed.

Lemma snoc_journal l g v (hs : list M) m x :
  (forall i m', hs !! i = Some m' -> follows l g (v - len hs + Z.of_nat i) m') ->
  l !! {| generation := g; version := v |} = Some x ->
  l !! {| generation := g; version := v + 1 |} = Some (reduce x m) ->
  forall i m', (hs ++ [m]) !! i = Some m' -> follows l g (v + 1 - len (hs ++ [m]) + Z.of_nat i) m'.
Proof.
  intros F A B i m' E. rewrite len_app. unfold len at 2. cbn [length].
  replace (v + 1 - (len hs + Z.of_nat 1) + Z.of_nat i) with (v - len hs + Z.of_nat i) by lia.
  apply lookup_app_Some in E as [E|[Li E]]; [by apply F|]. apply list_lookup_singleton_Some in E as [E <-].
  replace (v - len hs + Z.of_nat i) with v by (unfold len; lia). by exists x.
Qed.
Lemma tail_journal l g v (hs : list M) :
  (forall i m', hs !! i = Some m' -> follows l g (v - len hs + Z.of_nat i) m') ->
  forall i m', tail hs !! i = Some m' -> follows l g (v - len (tail hs) + Z.of_nat i) m'.
Proof.
  intros F i m' E. destruct hs as [|h hs]; [done|]. cbn in E |- *. specialize (F (S i) m' E).
  rewrite len_cons in F. by replace (v - len hs + Z.of_nat i) with (v - (1 + len hs) + Z.of_nat (S i)) by lia.
Qed.

(** The state before the new mutation is trimmed from its journal. *)
Definition advanced (fresh : Z) (m : M) (s : StoreState T M) : StoreState T M :=
  let s := s <| st_value := reduce (st_value s) m |> in
  let s := if st_version s =? u64_max
           then s <| st_generation := fresh |> <| st_version := 1 |> <| history := [] |>
           else s <| st_version := st_version s + 1 |> in
  s <| history := history s ++ [m] |>.
Definition trimmed (s : StoreState T M) : StoreState T M :=
  if history_limit s <? len (history s) then s <| history := tail (history s) |> else s.
Lemma store_apply_eq fresh m c :
  store_apply reduce fresh m c
  = (state_stamp (trimmed (advanced fresh m (state c))),
     {| state := trimmed (advanced fresh m (state c)); changes := changes c + 1 |}).
Proof. done. Qed.
Lemma trimmed_stamp s : state_stamp (trimmed s) = state_stamp s /\ st_value (trimmed s) = st_value s.
Proof. unfold trimmed. by case_match. Qed.
Lemma record_eq fresh m s :
  record fresh m s
  = <[ state_stamp (advanced fresh m (state (core s))) := st_value (advanced fresh m (state (core s))) ]>
      (if st_version (state (core s)) =? u64_max
       then <[ {| generation := fresh; version := 0 |} := st_value (state (core s)) ]> (log s) else log s).
Proof.
  unfold record. rewrite store_apply_eq. cbn [state]. by rewrite !(proj1 (trimmed_stamp _)), !(proj2 (trimmed_stamp _)).
Qed.

(** A well-formed journal except that it may hold one mutation too many. *)
Lemma wf_trimmed s l gs :
  limit_ok (history_limit s) -> len (history s) <= history_limit s + 1 -> len (history s) <= st_version s ->
  (forall st, is_Some (l !! st) -> generation st ∈ gs /\ 0 <= version st <= u64_max
     /\ (generation st = st_generation s -> version st <= st_version s)) ->
  l !! state_stamp s = Some (st_value s) ->
  (forall i m, history s !! i = Some m -> follows l (st_generation s) (st_version s - len (history s) + Z.of_nat i) m) ->
  wf (trimmed s) l gs.
Proof.
  intros Lm L1 L2 A N F. unfold trimmed. destruct (_ <? _) eqn:G; bool_prop.
  - assert (E : len (tail (history s)) = len (history s) - 1).
    { destruct (history s); [cbn in *; destruct Lm; unfold len in G; cbn in G; lia|]. cbn. rewrite len_cons. lia. }
    constructor; cbn; try apply A; try done; [split; [done|lia]|lia|].
    apply (tail_journal l (st_generation s) (st_version s) _ F).
  - constructor; cbn; try apply A; try done.
Qed.

Lemma apply_wf fresh m s :
  Inv s -> fresh ∉ gens s ->
  wf (trimmed (advanced fresh m (state (core s)))) (record fresh m s) ({[ fresh ]} ∪ gens s) /\ log s ⊆ record fresh m s.
Proof.
  intros [W _ _] N. rewrite record_eq. set (st := state (core s)) in *.
  destruct (wf_limit _ _ _ W) as [Lm Ll]. pose proof (wf_len _ _ _ W) as Ln. pose proof (wf_now _ _ _ W) as Now.
  destruct (wf_range _ _ _ W (state_stamp st)) as [V0 V1]; [by rewrite Now|]. cbn in V0, V1.
  assert (Fr : forall v, log s !! {| generation := fresh; version := v |} = None).
  { intros v. apply eq_None_not_Some. intros I. by apply N, (wf_gens _ _ _ W {| generation := fresh; version := v |}). }
  unfold advanced. cbn [st_version set setter]. destruct (st_version st =? u64_max) eqn:E; bool_prop.
  - set (l' := <[ _ := _ ]> (<[ _ := _ ]> (log s))).
    assert (L0 : l' !! {| generation := fresh; version := 0 |} = Some (st_value st)).
    { subst l'. rewrite lookup_insert_ne by done. apply lookup_insert_eq. }
    assert (L1 : l' !! {| generation := fresh; version := 1 |} = Some (reduce (st_value st) m)) by apply lookup_insert_eq.
    split; [|subst l'; apply insert_subseteq_r; [apply Fr|]; by apply insert_subseteq].
    apply wf_trimmed; cbn.
    + done.
    + unfold len. cbn. destruct Lm. lia.
    + done.
    + intros st' [x X]. subst l'. apply lookup_insert_Some in X as [[<- _]|[_ X]]; [cbn; split_and!; [set_solver|unfold u64_max; lia..]|].
      apply lookup_insert_Some in X as [[<- _]|[_ X]]; [cbn; split_and!; [set_solver|unfold u64_max; lia..]|].
      split_and!; [apply elem_of_union_r, (wf_gens _ _ _ W); by eexists|apply (wf_range _ _ _ W); by eexists..|].
      intros G. destruct st' as [g v]. cbn in G. subst g. by rewrite Fr in X.
    + exact L1.
    + intros i m' Em. apply list_lookup_singleton_Some in Em as [-> <-]. by exists (st_value st).
  - set (l' := <[ _ := _ ]> (log s)).
    assert (Nw : log s !! {| generation := st_generation st; version := st_version st + 1 |} = None).
    { apply eq_None_not_Some. intros I. pose proof (wf_last _ _ _ W _ I eq_refl) as B. cbn in B. lia. }
    assert (Sub : log s ⊆ l') by (by apply insert_subseteq).
    split; [|done]. apply wf_trimmed; cbn.
    + done.
    + rewrite len_app. unfold len at 2. cbn. lia.
    + rewrite len_app. unfold len at 2. cbn. lia.
    + intros st' [x X]. apply lookup_insert_Some in X as [[<- _]|[_ X]].
      * cbn. split_and!; [apply elem_of_union_r, (wf_gens _ _ _ W (state_stamp st)); by rewrite Now|lia|lia|done].
      * split_and!; [apply elem_of_union_r, (wf_gens _ _ _ W); by eexists|apply (wf_range _ _ _ W); by eexists..|].
        intros G. assert (version st' <= st_version st) by (apply (wf_last _ _ _ W); [by eexists|done]). lia.
    + apply lookup_insert_eq.
    + apply (snoc_journal _ _ _ _ _ (st_value st)).
      * intros i m' Em. eapply follows_mono; [exact Sub|by apply (wf_history _ _ _ W)].
      * eapply lookup_weaken; [exact Now|done].
      * apply lookup_insert_eq.
Qed.

Lemma sub_ok_mono s s' b :
  log s ⊆ log s' -> wire s' = wire s -> cache s' = cache s -> changes (core s) < changes (core s') ->
  sub_ok s b -> sub_ok s' b.
Proof.
  intros L Ew Ec C (K & S & P). unfold sub_ok. rewrite Ew, Ec. split_and!; [by eapply known_mono|lia|].
  destruct (phase b).
  - exact P.
  - destruct P as (W & last & Pd & _). split; [by eapply chain_mono|]. exists last. split; [by eapply chain_mono|lia].
  - destruct P as [Pd W]. split; [done|by eapply chain_mono].
Qed.
Lemma chain_known s l gs es : forall from to,
  wf s l gs -> known l from -> chain l from es to -> known l to.
Proof.
  induction es as [|[sn|st m] es IH]; intros from to W K; cbn.
  - by intros <-.
  - intros (L & _ & C). apply (IH (Some (stamp sn))); [done| |done]. intros c [= <-]. by rewrite L.
  - intros ((c & -> & G & V & x & _ & F) & C). apply (IH (Some st)); [done| |done]. intros c' [= <-].
    destruct st as [g v], c as [g' v']. cbn in *. subst. by eexists.
Qed.

Lemma sync_Inv s s' : Inv s -> sync s s' -> Inv s'.
Proof.
  intros [W R S] St. destruct St as [s b E P|s b e b' E P Tp|s b b' E P Pe Wk|s b E P|s e rest c' E A];
    (constructor; cbn; [exact W|try exact R|]).
  - rewrite E in S. destruct S as (K & Sn & S). rewrite P in S. destruct S as (Wi & Pd & Cu).
    unfold sub_ok. cbn. rewrite Wi, Cu. split_and!; [by apply replica_known|done|done|].
    exists (Some (state_stamp (state (core s)))). split; [|done]. eapply collect_chain; [exact W|by apply replica_known].
  - rewrite E in S. destruct S as (K & Sn & S). rewrite P in S. destruct S as (Wi & last & Pd & La).
    unfold take_pending in Tp. destruct (pending b) as [|e0 rest] eqn:Ep; [done|]. injection Tp as -> <-.
    change (e :: rest) with ([e] ++ rest) in Pd. apply chain_app in Pd as (mid & Pe & Pr).
    assert (mid = Some (event_stamp e)) as -> by (destruct e; cbn in Pe; naive_solver).
    unfold sub_ok. cbn. rewrite P. split_and!; [|done|by apply chain_app; eexists|by exists last].
    eapply chain_known; [exact W|exact K|exact Pe].
  - rewrite E in S. destruct S as (K & Sn & S). rewrite P in S. destruct S as (Wi & last & Pd & La).
    unfold wake in Wk. destruct (negb _); [|done]. injection Wk as <-. unfold sub_ok. cbn. done.
  - rewrite E in S. destruct S as (K & Sn & S). rewrite P in S. destruct S as (Pd & Wi).
    unfold sub_ok. cbn. split_and!; [done|done|done|].
    exists (Some (state_stamp (state (core s)))). split; [|done]. by eapply collect_chain.
  - destruct (sub s) as [b|] eqn:E'; [|congruence]. destruct S as (K & Sn & S).
    destruct (phase b) eqn:P; [destruct S; congruence| |].
    + destruct S as (Wi & L). rewrite E in Wi. destruct (chain_deliver _ _ _ _ _ _ _ W R Wi) as (c & A' & R' & _).
      rewrite A in A'. by injection A' as ->.
    + destruct S as (_ & Wi). rewrite E in Wi. destruct (chain_deliver _ _ _ _ _ _ _ W R Wi) as (c & A' & R' & _).
      rewrite A in A'. by injection A' as ->.
  - destruct (sub s) as [b|] eqn:E'; [|congruence]. destruct S as (K & Sn & S). unfold sub_ok. cbn.
    split_and!; [done|done|]. destruct (phase b) eqn:P; [destruct S; congruence| |].
    + destruct S as (Wi & L). rewrite E in Wi. destruct (chain_deliver _ _ _ _ _ _ _ W R Wi) as (c & A' & _ & _ & C).
      rewrite A in A'. injection A' as ->. by split.
    + destruct S as (Pd & Wi). rewrite E in Wi. destruct (chain_deliver _ _ _ _ _ _ _ W R Wi) as (c & A' & _ & _ & C).
      rewrite A in A'. injection A' as ->. by split.
Qed.
Lemma step_Inv s s' : Inv s -> step s s' -> Inv s'.
Proof.
  intros I St. destruct St as [s s' St|s m fresh N|s|s|s g initial limit N Lm].
  - by eapply sync_Inv.
  - destruct (apply_wf fresh m s I N) as [W L]. destruct I as [_ R S]. constructor; cbn.
    + exact W.
    + by eapply replica_mono.
    + destruct (sub s) as [b|]; [|exact S]. eapply sub_ok_mono; [..|exact S]; cbn; [done..|lia].
  - destruct I as [W R _]. constructor; cbn; [exact W|exact R|]. unfold sub_ok. cbn. split_and!; try done. by apply replica_known.
  - destruct I as [W R _]. by constructor.
  - destruct I as [W R _]. constructor; cbn.
    + apply wf_new; [done|done|]. intros st K. split; [by apply (wf_gens _ _ _ W)|by apply (wf_range _ _ _ W)].
    + eapply replica_mono; [|exact R]. apply insert_subseteq. apply eq_None_not_Some. intros K. by apply N, (wf_gens _ _ _ W _ K).
    + done.
Qed.
Lemma boot_Inv g initial limit : limit_ok limit -> Inv (boot g initial limit).
Proof.
  intros Lm. constructor; [|done|done]. unfold boot. cbn [core log gens].
  rewrite <- (right_id_L ∅ (∪) {[ g ]} : {[ g ]} ∪ ∅ = {[ g ]}), <- insert_empty.
  apply wf_new; [done|set_solver|]. by intros st [x E].
Qed.
Lemma reachable_Inv s : reachable s -> Inv s.
Proof.
  intros (g & initial & limit & Lm & R). assert (I := boot_Inv g initial limit Lm). revert I.
  induction R as [|s1 s2 s3 St R IH]; [done|]. intros I. by apply IH, (step_Inv s1 s2).
Qed.

(** ** Delivery terminates *)
Definition measure (s : System) : nat :=
  let h := S (length (history (state (core s)))) in
  (length (wire s)
   + match sub s with
     | None => 0
     | Some b =>
         2 * length (pending b)
         + (if decide (phase b = Waiting) then 0 else 2 * h + 1)
         + (if decide (seen b = changes (core s)) then 0 else 2 * h + 2)
     end)%nat.
Lemma sync_decreases s s' : Inv s -> sync s s' -> (measure s' < measure s)%nat.
Proof.
  intros [W R S] St. destruct St as [s b E P|s b e b' E P Tp|s b b' E P Pe Wk|s b E P|s e rest c' E A];
    unfold measure; cbn [core sub wire set setter].
  - rewrite E in *. destruct S as (_ & _ & S). rewrite P in S. destruct S as (Wi & Pd & Cu).
    cbn. rewrite Pd, P. pose proof (length_collect (state (core s)) (cursor b)). cbn. repeat case_decide; try done; lia.
  - rewrite E in *. unfold take_pending in Tp. destruct (pending b) as [|e0 rest] eqn:Ep; [done|]. injection Tp as -> <-.
    cbn. rewrite length_app. cbn. rewrite P. lia.
  - rewrite E in *. unfold wake in Wk. destruct (seen b =? changes (core s)) eqn:N; [done|]. injection Wk as <-. bool_prop.
    cbn. rewrite Pe, P. cbn. repeat case_decide; try done; lia.
  - rewrite E in *. destruct S as (_ & _ & S). rewrite P in S. destruct S as (Pd & Wi).
    cbn. rewrite Pd, P. pose proof (length_collect (state (core s)) (cursor b)). cbn. repeat case_decide; try done; lia.
  - rewrite E. cbn. lia.
Qed.
(** Delivery only stops when the replica is current. *)
Lemma sync_progress s b :
  Inv s -> sub s = Some b -> (exists s', sync s s') \/ cache s = Some (snapshot (core s)).
Proof.
  intros I E. pose proof I as [W R S]. rewrite E in S. destruct S as (K & Sn & S).
  destruct (wire s) as [|e rest] eqn:Ew.
  - destruct (phase b) eqn:P; [left; eexists; by eapply sync_join| |left; eexists; by eapply sync_reconcile].
    destruct S as (Wi & last & Pd & La). destruct (pending b) as [|e rest] eqn:Ep.
    + destruct (decide (seen b = changes (core s))) as [Es|Ns].
      * right. cbn in Wi, Pd. rewrite <- Wi in Pd. rewrite (La Es) in Pd.
        destruct (cache s) as [sn|] eqn:Ec; [|done]. injection Pd as Pd. specialize (R sn eq_refl).
        rewrite Pd, (wf_now _ _ _ W) in R. injection R as R. destruct sn as [st v]. cbn in *. subst. done.
      * left. eexists. eapply sync_wake; [done|done|done|]. unfold wake. by rewrite (proj2 (Z.eqb_neq _ _) Ns).
    + left. eexists. eapply sync_receive; [done|done|]. unfold take_pending. by rewrite Ep.
  - left. assert (C : exists to, chain (log s) (cache_stamp (cache s)) (e :: rest) to).
    { destruct (phase b); [by destruct S|by destruct S as [? _]; eexists|by destruct S as [_ ?]; eexists]. }
    destruct C as [to C]. destruct (chain_deliver _ _ _ _ _ _ _ W R C) as (c' & A & _). eexists. by eapply sync_deliver.
Qed.
Lemma sync_core s s' : sync s s' -> core s' = core s /\ (is_Some (sub s) -> is_Some (sub s')).
Proof. by destruct 1. Qed.
End sync.
Arguments System : clear implicits.

(** ** Properties *)

(** C22: a replica is never wrong: however mutations, rollovers, restarts,
    disconnections and resumptions interleave, the cache holds exactly the value the
    store had at the cache's stamp, and the next event of its stream is always
    applicable. *)
Theorem replica_consistent {T M} (reduce : T -> M -> T) (s : System T M) :
  reachable reduce s ->
  (forall sn, cache s = Some sn -> log s !! stamp sn = Some (value sn))
  /\ (forall e rest, wire s = e :: rest -> exists c, cache_apply reduce e (cache s) = Ok c).
Proof.
  intros I%reachable_Inv. split; [apply (inv_cache _ _ I)|]. intros e rest E. pose proof I as [W R S].
  destruct (sub s) as [b|]; [|congruence]. destruct S as (_ & _ & S).
  assert (C : exists to, chain reduce (log s) (cache_stamp (cache s)) (e :: rest) to).
  { rewrite E in S. destruct (phase b); [by destruct S|by destruct S as [? _]; eexists|by destruct S as [_ ?]; eexists]. }
  destruct C as [to C]. destruct (chain_deliver reduce _ _ _ _ _ _ _ W R C) as (c & A & _). by exists c.
Qed.

(** C23: a connected replica catches up: when the store stops mutating, delivery
    cannot go on for more than [measure] steps, never gets stuck before it is done,
    and ends with the store's own snapshot in the cache. *)
Theorem replica_converges {T M} (reduce : T -> M -> T) (s : System T M) b :
  reachable reduce s -> sub s = Some b ->
  (forall n s', nsteps (sync reduce) n s s' -> (n <= measure s)%nat)
  /\ exists s', rtc (sync reduce) s s' /\ core s' = core s /\ cache s' = Some (snapshot (core s)).
Proof.
  intros I%reachable_Inv E. split.
  - intros n s' St. clear E b. induction St as [s|n s s1 s' St1 St IH]; [lia|].
    pose proof (sync_decreases reduce s s1 I St1). specialize (IH (sync_Inv reduce s s1 I St1)). lia.
  - remember (measure s) as k eqn:Ek. revert s b I E Ek. induction (lt_wf k) as [k _ IH]. intros s b I E ->.
    destruct (sync_progress reduce s b I E) as [[s1 St]|Done]; [|by exists s].
    destruct (sync_core reduce s s1 St) as [Ec [b1 Eb]]; [by rewrite E|].
    destruct (IH (measure s1) (sync_decreases reduce s s1 I St) s1 b1 (sync_Inv reduce s s1 I St) Eb eq_refl) as (s' & R & C & D).
    exists s'. rewrite C, D, Ec. split; [by eapply rtc_l|done].
Qed.

(** *** Samples: a counter with a journal of two mutations. *)
Definition sample_boot : System Z Z := boot 7 0 2.
Definition sample_connected : System Z Z :=
  {| core := core sample_boot; sub := Some (subscribe_receiver (core sample_boot) None); wire := [];
     cache := None; log := log sample_boot; gens := gens sample_boot |}.
Definition sample_running : System Z Z :=
  {| core := (store_apply Z.add 8 5 (core sample_connected)).2; sub := sub sample_connected; wire := [];
     cache := None; log := record Z.add 8 5 sample_connected; gens := {[ 8 ]} ∪ gens sample_connected |}.
Lemma sample_reachable : reachable Z.add sample_running.
Proof.
  exists 7, 0, 2. split; [unfold limit_ok, usize_max, u64_max; lia|].
  eapply rtc_l; [apply (step_connect Z.add)|]. eapply rtc_l; [|apply rtc_refl].
  apply (step_apply Z.add sample_connected 5 8). vm_compute. discriminate.
Qed.
(** The same run, after its first event has been delivered. *)
Definition sample_delivered : System Z Z :=
  let b := subscribe_collect (core sample_running) (subscribe_receiver (core sample_boot) None) in
  {| core := core sample_running;
     sub := Some {| seen := seen b; cursor := Some {| generation := 7; version := 1 |}; pending := []; phase := Waiting |};
     wire := []; cache := Some {| stamp := {| generation := 7; version := 1 |}; value := 5 |};
     log := log sample_running; gens := gens sample_running |}.
Lemma sample_delivered_reachable : reachable Z.add sample_delivered.
Proof.
  destruct sample_reachable as (g & i & l & Lm & R). exists g, i, l. split; [done|]. etransitivity; [exact R|].
  eapply rtc_l; [apply step_sync, (sync_join Z.add); reflexivity|].
  eapply rtc_l; [apply step_sync; eapply (sync_receive Z.add); reflexivity|].
  eapply rtc_l; [apply step_sync; eapply (sync_deliver Z.add); reflexivity|]. apply rtc_refl.
Qed.
Lemma replica_consistent_witness :
  log sample_delivered !! {| generation := 7; version := 1 |} = Some 5.
Proof. exact (proj1 (replica_consistent Z.add sample_delivered sample_delivered_reachable) _ eq_refl). Defined.
Lemma replica_converges_witness : exists s',
  rtc (sync Z.add) sample_running s'
  /\ cache s' = Some {| stamp := {| generation := 7; version := 1 |}; value := 5 |}.
Proof.
  destruct (replica_converges Z.add sample_running _ sample_reachable eq_refl) as [_ (s' & R & _ & C)].
  exists s'. split; [exact R|exact C].
Defined.
