(* ===== verification/ChatTypes.v ===== *)
(** * Chat data

    The records and variants of [tascarrel-api/schemas/chats.sidex] that the chat
    state handles, and the harness events of
    [tascarrel-guestd/src/services/chats/harness/protocol.rs].

    An identifier is the suffix that follows the prefix of its type ([item_text]
    and its like restore the text).  A timestamp is an integer.  A [JsonValue] and a
    [ResumeCursor] are opaque bytes. *)

From S2P Require Import Prelude.

Abbreviation Timestamp := Z.
Abbreviation JsonValue := bytes.
Abbreviation ResumeCursor := bytes.

(** The text of an identifier. *)
Definition item_text (i : bytes) : bytes := str "chat_item_" ++ i.
Definition request_text (i : bytes) : bytes := str "chat_request_" ++ i.
Definition activity_text (i : bytes) : bytes := str "chat_activity_" ++ i.

Ltac eqdec := solve_decision.

(** ** Summaries *)
Inductive ChatBindingStatus := Attaching | Attached | Detaching.
#[export] Instance ChatBindingStatus_eq_dec : EqDecision ChatBindingStatus.
Proof. eqdec. Defined.
Record ChatBinding := { binding_id : bytes; binding_status : ChatBindingStatus }.
#[export] Instance ChatBinding_eq_dec : EqDecision ChatBinding.
Proof. eqdec. Defined.
Record ChatBindingError := {
  be_binding_id : bytes; be_code : bytes; be_message : bytes; be_occurred_at : Timestamp
}.
#[export] Instance ChatBindingError_eq_dec : EqDecision ChatBindingError.
Proof. eqdec. Defined.
Inductive ChatAgentStatus := Idle | Working | UserInputRequired.
#[export] Instance ChatAgentStatus_eq_dec : EqDecision ChatAgentStatus.
Proof. eqdec. Defined.
Inductive ChatHarnessKind := Tasci | Codex | ClaudeCode.
#[export] Instance ChatHarnessKind_eq_dec : EqDecision ChatHarnessKind.
Proof. eqdec. Defined.
Inductive ChatPurpose := Interactive | Automation (execution_id : bytes).
#[export] Instance ChatPurpose_eq_dec : EqDecision ChatPurpose.
Proof. eqdec. Defined.
Inductive ChatModelOptionValue := OptionString (s : bytes) | OptionBoolean (b : bool).
#[export] Instance ChatModelOptionValue_eq_dec : EqDecision ChatModelOptionValue.
Proof. eqdec. Defined.
Record ChatModelSelection := { model_name : bytes; options : list (bytes * ChatModelOptionValue) }.
#[export] Instance ChatModelSelection_eq_dec : EqDecision ChatModelSelection.
Proof. eqdec. Defined.
Inductive ChatContextUsageAccuracy := Reported | Estimated.
#[export] Instance ChatContextUsageAccuracy_eq_dec : EqDecision ChatContextUsageAccuracy.
Proof. eqdec. Defined.
Record ChatContextUsage := {
  used_tokens : Z; context_window_tokens : option Z; accuracy : ChatContextUsageAccuracy;
  cu_observed_at : Timestamp
}.
#[export] Instance ChatContextUsage_eq_dec : EqDecision ChatContextUsage.
Proof. eqdec. Defined.

Record ChatSummary := {
  chat_id : bytes; pod_id : bytes; binding : option ChatBinding;
  last_binding_error : option ChatBindingError; agent_status : ChatAgentStatus;
  attention_required : bool; harness : ChatHarnessKind; purpose : option ChatPurpose;
  model : option ChatModelSelection; context_usage : option ChatContextUsage;
  cost_center_id : option bytes; title : bytes; created_at : Timestamp; updated_at : Timestamp
}.
#[export] Instance ChatSummary_eq_dec : EqDecision ChatSummary.
Proof. eqdec. Defined.
#[export] Instance eta_ChatSummary : Eta ChatSummary :=
  fun s => {| chat_id := chat_id s; pod_id := pod_id s; binding := binding s;
              last_binding_error := last_binding_error s; agent_status := agent_status s;
              attention_required := attention_required s; harness := harness s; purpose := purpose s;
              model := model s; context_usage := context_usage s; cost_center_id := cost_center_id s;
              title := title s; created_at := created_at s; updated_at := updated_at s |}.

(** ** Usage *)
Record Money := { currency : bytes; amount : Z }.
#[export] Instance Money_eq_dec : EqDecision Money.
Proof. eqdec. Defined.
Record ChatCacheWriteUsage := { ttl_seconds : Z; cw_input_tokens : Z }.
#[export] Instance ChatCacheWriteUsage_eq_dec : EqDecision ChatCacheWriteUsage.
Proof. eqdec. Defined.
Record ChatTokenUsage := {
  input_tokens : Z; output_tokens : Z; cache_read_input_tokens : option Z;
  cache_write_input_tokens : option Z; cache_writes_by_ttl : list ChatCacheWriteUsage;
  reasoning_output_tokens : option Z
}.
#[export] Instance ChatTokenUsage_eq_dec : EqDecision ChatTokenUsage.
Proof. eqdec. Defined.
Record ChatModelPricing := {
  catalog_version : bytes; token_count : Z; input_price : Money; cache_read_price : option Money;
  cache_write_price : option Money; output_price : Money
}.
#[export] Instance ChatModelPricing_eq_dec : EqDecision ChatModelPricing.
Proof. eqdec. Defined.
Record ChatModelUsage := {
  mu_model : ChatModelSelection; mu_tokens : ChatTokenUsage; pricing : option ChatModelPricing;
  mu_provider_estimated_cost : option Money
}.
#[export] Instance ChatModelUsage_eq_dec : EqDecision ChatModelUsage.
Proof. eqdec. Defined.
Inductive ChatUsageCoverage := PrimaryAgent | ExecutionTree.
#[export] Instance ChatUsageCoverage_eq_dec : EqDecision ChatUsageCoverage.
Proof. eqdec. Defined.
Record ChatUsageSnapshot := {
  coverage : ChatUsageCoverage; tokens : ChatTokenUsage; models : list ChatModelUsage;
  provider_estimated_cost : option Money
}.
#[export] Instance ChatUsageSnapshot_eq_dec : EqDecision ChatUsageSnapshot.
Proof. eqdec. Defined.
Record ChatCalculatedCost := { cost_amount : Money; pricing_catalog_version : bytes }.
#[export] Instance ChatCalculatedCost_eq_dec : EqDecision ChatCalculatedCost.
Proof. eqdec. Defined.
Inductive ChatUsageState := Provisional | Settled.
#[export] Instance ChatUsageState_eq_dec : EqDecision ChatUsageState.
Proof. eqdec. Defined.
Record ChatTurnUsage := {
  usage_state : ChatUsageState; observed_at : Timestamp; usage_snapshot : ChatUsageSnapshot;
  calculated_cost : option ChatCalculatedCost
}.
#[export] Instance ChatTurnUsage_eq_dec : EqDecision ChatTurnUsage.
Proof. eqdec. Defined.
#[export] Instance eta_ChatTurnUsage : Eta ChatTurnUsage :=
  fun u => {| usage_state := usage_state u; observed_at := observed_at u;
              usage_snapshot := usage_snapshot u; calculated_cost := calculated_cost u |}.

(** ** Turns *)
Inductive ChatTurnState := TurnRunning | TurnCompleted | TurnInterrupted | TurnFailed.
#[export] Instance ChatTurnState_eq_dec : EqDecision ChatTurnState.
Proof. eqdec. Defined.
Record ChatFailure := { failure_code : bytes; failure_message : bytes }.
#[export] Instance ChatFailure_eq_dec : EqDecision ChatFailure.
Proof. eqdec. Defined.
Record ChatTurn := {
  turn_id : bytes; turn_binding_id : bytes; turn_state : ChatTurnState;
  started_at : option Timestamp; turn_completed_at : option Timestamp; error : option ChatFailure;
  usage : option ChatTurnUsage
}.
#[export] Instance ChatTurn_eq_dec : EqDecision ChatTurn.
Proof. eqdec. Defined.
#[export] Instance eta_ChatTurn : Eta ChatTurn :=
  fun t => {| turn_id := turn_id t; turn_binding_id := turn_binding_id t; turn_state := turn_state t;
              started_at := started_at t; turn_completed_at := turn_completed_at t; error := error t;
              usage := usage t |}.

(** ** The timeline *)
Record ChatPromptAttachment := {
  attachment_id : bytes; attachment_name : bytes; media_type : bytes; attachment_size : Z; digest : bytes
}.
#[export] Instance ChatPromptAttachment_eq_dec : EqDecision ChatPromptAttachment.
Proof. eqdec. Defined.
Record ChatBlobReference := { blob_digest : bytes; blob_size : Z; blob_media_type : bytes }.
#[export] Instance ChatBlobReference_eq_dec : EqDecision ChatBlobReference.
Proof. eqdec. Defined.
Inductive ChatContent :=
| Text (value : bytes)
| Structured (value : JsonValue)
| Attachment (a : ChatPromptAttachment)
| Blob (b : ChatBlobReference).
#[export] Instance ChatContent_eq_dec : EqDecision ChatContent.
Proof. eqdec. Defined.
Inductive ChatItemKind :=
| UserMessage | AssistantMessage | Reasoning | Plan | CommandExecution | FileChange | ToolCall
| WebSearch | Subagent | ContextCompaction | ErrorItem | UnknownItem.
#[export] Instance ChatItemKind_eq_dec : EqDecision ChatItemKind.
Proof. eqdec. Defined.
Inductive ChatItemState := ItemStarted | ItemCompleted | ItemFailed.
#[export] Instance ChatItemState_eq_dec : EqDecision ChatItemState.
Proof. eqdec. Defined.
Record ChatItem := {
  item_id : bytes; item_binding_id : bytes; item_turn_id : bytes; item_kind : ChatItemKind;
  item_state : ChatItemState; item_completed_at : option Timestamp; content : list ChatContent
}.
#[export] Instance ChatItem_eq_dec : EqDecision ChatItem.
Proof. eqdec. Defined.
#[export] Instance eta_ChatItem : Eta ChatItem :=
  fun i => {| item_id := item_id i; item_binding_id := item_binding_id i; item_turn_id := item_turn_id i;
              item_kind := item_kind i; item_state := item_state i;
              item_completed_at := item_completed_at i; content := content i |}.
Record ChatQuestion := {
  question_id : bytes; header : bytes; question_prompt : bytes;
  question_options : list (bytes * option bytes); multiple : bool
}.
#[export] Instance ChatQuestion_eq_dec : EqDecision ChatQuestion.
Proof. eqdec. Defined.
Record ChatRequest := {
  request_id : bytes; request_binding_id : bytes; request_turn_id : option bytes;
  request_item_id : option bytes; resolved : bool; questions : list ChatQuestion
}.
#[export] Instance ChatRequest_eq_dec : EqDecision ChatRequest.
Proof. eqdec. Defined.
#[export] Instance eta_ChatRequest : Eta ChatRequest :=
  fun r => {| request_id := request_id r; request_binding_id := request_binding_id r;
              request_turn_id := request_turn_id r; request_item_id := request_item_id r;
              resolved := resolved r; questions := questions r |}.
Inductive ChatActivityKind := Information | WarningActivity | ErrorActivity.
#[export] Instance ChatActivityKind_eq_dec : EqDecision ChatActivityKind.
Proof. eqdec. Defined.
Record ChatActivity := {
  activity_id : bytes; activity_binding_id : bytes; activity_occurred_at : Timestamp;
  activity_kind : ChatActivityKind; activity_message : bytes; detail : option JsonValue
}.
#[export] Instance ChatActivity_eq_dec : EqDecision ChatActivity.
Proof. eqdec. Defined.
Inductive ChatTimelineEntry :=
| Item (i : ChatItem) | Request (r : ChatRequest) | Activity (a : ChatActivity).
#[export] Instance ChatTimelineEntry_eq_dec : EqDecision ChatTimelineEntry.
Proof. eqdec. Defined.

(** ** Chats and their mutations *)
Record ChatPrompt := {
  prompt_text : option bytes; prompt_attachments : list ChatPromptAttachment;
  prompt_model : option ChatModelSelection
}.
#[export] Instance ChatPrompt_eq_dec : EqDecision ChatPrompt.
Proof. eqdec. Defined.
Record ChatQueuedPrompt := { queued_prompt_id : bytes; prompt : ChatPrompt }.
#[export] Instance ChatQueuedPrompt_eq_dec : EqDecision ChatQueuedPrompt.
Proof. eqdec. Defined.
Record Chat := {
  summary : ChatSummary; turns : list ChatTurn; timeline : list ChatTimelineEntry;
  attachments : list ChatPromptAttachment; queued_prompts : list ChatQueuedPrompt
}.
#[export] Instance eta_Chat : Eta Chat :=
  fun c => {| summary := summary c; turns := turns c; timeline := timeline c;
              attachments := attachments c; queued_prompts := queued_prompts c |}.
(** [ChatList] is the list of its summaries. *)
Abbreviation ChatList := (list ChatSummary).
Inductive ChatListMutation := ListUpsert (s : ChatSummary) | ListRemove (chat : bytes).
Inductive ChatMutation :=
| UpdateSummary (s : ChatSummary)
| UpsertTurn (t : ChatTurn)
| UpsertTimelineEntry (e : ChatTimelineEntry)
| AppendItemContent (item : bytes) (delta : bytes)
| CompleteTimelineItem (item : bytes) (at_ : Timestamp)
| ReplacePromptQueue (prompts : list ChatQueuedPrompt)
| UpsertAttachment (a : ChatPromptAttachment).

(** ** Harness events *)
Record HarnessError := { he_kind : bytes; he_message : bytes; retryable : bool }.
Record HarnessContextUsage := {
  hu_used_tokens : Z; hu_context_window_tokens : option Z; hu_accuracy : ChatContextUsageAccuracy
}.
Inductive HarnessEventPayload :=
| SessionStarted
| SessionStateChanged (state : bytes) (reason : option bytes)
| SessionExited (error : option HarnessError)
| ResumeCursorUpdated (cursor : ResumeCursor)
| ModelChanged (m : ChatModelSelection)
| ContextUsageUpdated (u : option HarnessContextUsage)
| PTurnStarted
| TurnUsageUpdated (u : ChatUsageSnapshot) (s : ChatUsageState)
| PTurnCompleted (s : ChatTurnState) (e : option ChatFailure)
| PItemStarted (k : ChatItemKind)
| ChatItemContentAppended (item : bytes) (delta : bytes)
| PItemCompleted (k : ChatItemKind) (s : ChatItemState) (c : list ChatContent)
| UserInputRequested (q : list ChatQuestion)
| RequestResolved
| Warning (code message : bytes)
| PError (e : HarnessError)
| Unknown (native_type payload : bytes).
Record HarnessEvent := {
  occurred_at : Timestamp; ev_turn_id : option bytes; ev_item_id : option bytes;
  ev_request_id : option bytes; payload : HarnessEventPayload
}.
