(* ===== verification/ChatReduce.v ===== *)
(** * Chat reducers

    [crates/apps/tascarrel-guestd/src/services/chats/state/layer.rs]: the reducers
    of the chat list and of one chat, and the projection of a mutation into compacted
    durable state. *)

From S2P Require Import Prelude Lists ChatTypes.

(** [StateLayerError], the message of a reconciliation error included. *)
Inductive StateLayerError := Reconciliation (message : string) | Storage.

(** ** The chat list *)

(** [sort_by] of [reduce_chat_list]: latest first, then by identifier. *)
Definition list_before (a b : ChatSummary) : bool :=
  (updated_at b <? updated_at a)
  || ((updated_at b =? updated_at a) && bytes_leb (chat_id a) (chat_id b)).
Definition reduce_chat_list (l : ChatList) (m : ChatListMutation) : ChatList :=
  match m with
  | ListUpsert s => sort_by list_before (upsert (fun x => bool_decide (chat_id x = chat_id s)) s l)
  | ListRemove c =>
      match position (fun x => bool_decide (chat_id x = c)) l with
      | Some i => delete i l
      | None => l
      end
  end.

(** ** One chat *)
Inductive TimelineEntryKey :=
| KeyItem (i : bytes) | KeyRequest (i : bytes) | KeyActivity (i : bytes).
#[export] Instance TimelineEntryKey_eq_dec : EqDecision TimelineEntryKey.
Proof. solve_decision. Defined.
Definition timeline_entry_key (e : ChatTimelineEntry) : TimelineEntryKey :=
  match e with
  | Item i => KeyItem (item_id i)
  | Request r => KeyRequest (request_id r)
  | Activity a => KeyActivity (activity_id a)
  end.
Definition timeline_entry_is_terminal (e : ChatTimelineEntry) : bool :=
  match e with
  | Item i => negb (bool_decide (item_state i = ItemStarted))
  | Request _ | Activity _ => true
  end.
Definition validate_timeline_replacement (current replacement : ChatTimelineEntry)
  : outcome StateLayerError unit :=
  match current, replacement with
  | Item c, Item r =>
      if negb (bool_decide (item_state c = ItemStarted)) && negb (bool_decide (item_state r = item_state c))
      then Err (Reconciliation "a terminal item cannot change its state") else Ok tt
  | Request c, Request r =>
      if resolved c && negb (resolved r)
      then Err (Reconciliation "a resolved request cannot become unresolved") else Ok tt
  | Activity _, Activity _ => Ok tt
  | _, _ => Err (Reconciliation "timeline entry changed its kind")
  end.

Definition is_text (c : ChatContent) : bool := match c with Text _ => true | _ => false end.
(** The index of the only text. *)
Definition text_content_index (content : list ChatContent) : option nat :=
  match position is_text content with
  | None => None
  | Some i => match position is_text (drop (S i) content) with None => Some i | Some _ => None end
  end.

Definition has_item_id (i : bytes) (e : ChatTimelineEntry) : bool :=
  match e with Item x => bool_decide (item_id x = i) | _ => false end.
Definition has_key (k : TimelineEntryKey) (e : ChatTimelineEntry) : bool :=
  bool_decide (timeline_entry_key e = k).
Definition has_turn_id (i : bytes) (t : ChatTurn) : bool := bool_decide (turn_id t = i).
Definition has_attachment_id (i : bytes) (a : ChatPromptAttachment) : bool :=
  bool_decide (attachment_id a = i).
Definition attachment_before (a b : ChatPromptAttachment) : bool :=
  bytes_leb (attachment_id a) (attachment_id b).

(** The item [find_map] finds on the timeline, with its index. *)
Definition find_timeline_item (i : bytes) (l : list ChatTimelineEntry) : option (nat * ChatItem) :=
  match position (has_item_id i) l with
  | Some n => match l !! n with Some (Item x) => Some (n, x) | _ => None end
  | None => None
  end.

Definition apply_chat_mutation (chat : Chat) (m : ChatMutation) : outcome StateLayerError Chat :=
  match m with
  | UpdateSummary s =>
      if negb (bool_decide (chat_id s = chat_id (summary chat)))
      then Err (Reconciliation "summary mutation changed the chat identifier")
      else Ok (chat <| summary := s |>)
  | UpsertTurn t => Ok (chat <| turns := upsert (has_turn_id (turn_id t)) t (turns chat) |>)
  | UpsertTimelineEntry e =>
      match position (has_key (timeline_entry_key e)) (timeline chat) with
      | Some i =>
          match timeline chat !! i with
          | Some current =>
              let? _ := validate_timeline_replacement current e in
              Ok (chat <| timeline := <[i := e]> (timeline chat) |>)
          | None => Panic "index out of bounds"
          end
      | None => Ok (chat <| timeline := timeline chat ++ [e] |>)
      end
  | AppendItemContent i delta =>
      match find_timeline_item i (timeline chat) with
      | None => Err (Reconciliation "cannot append content to an unknown item")
      | Some (n, item) =>
          if negb (bool_decide (item_state item = ItemStarted))
          then Err (Reconciliation "cannot append content to a terminal item")
          else
            match text_content_index (content item) with
            | None => Err (Reconciliation "a streaming item must contain exactly one text value")
            | Some k =>
                match content item !! k with
                | Some (Text v) =>
                    let item := item <| content := <[k := Text (v ++ delta)]> (content item) |> in
                    Ok (chat <| timeline := <[n := Item item]> (timeline chat) |>)
                | _ => Err (Reconciliation "streaming text target changed kind")
                end
            end
      end
  | CompleteTimelineItem i t =>
      match find_timeline_item i (timeline chat) with
      | None => Err (Reconciliation "cannot complete an unknown item")
      | Some (n, item) =>
          if negb (bool_decide (item_state item = ItemStarted))
          then Err (Reconciliation "cannot complete a terminal item")
          else
            let item := item <| item_state := ItemCompleted |> <| item_completed_at := Some t |> in
            Ok (chat <| timeline := <[n := Item item]> (timeline chat) |>)
      end
  | ReplacePromptQueue q => Ok (chat <| queued_prompts := q |>)
  | UpsertAttachment a =>
      match position (has_attachment_id (attachment_id a)) (attachments chat) with
      | Some i => Ok (chat <| attachments := <[i := a]> (attachments chat) |>)
      | None => Ok (chat <| attachments := sort_by attachment_before (attachments chat ++ [a]) |>)
      end
  end.
(** An internal mutation that is rejected is logged. *)
Definition reduce_chat (chat : Chat) (m : ChatMutation) : Chat :=
  match apply_chat_mutation chat m with Ok c => c | _ => chat end.

Definition empty_chat (s : ChatSummary) : Chat :=
  {| summary := s; turns := []; timeline := []; attachments := []; queued_prompts := [] |}.

(** ** Durable projection *)

(** [StoredTurn], [StoredTimelineEntry] and [StoredAttachment]. *)
Record StoredTurn := { stored_turn_chat : bytes; turn_index : Z; stored_turn : ChatTurn }.
Record StoredTimelineEntry := { stored_entry_chat : bytes; entry_index : Z; stored_entry : ChatTimelineEntry }.
Record StoredAttachment := { stored_attachment_chat : bytes; stored_attachment : ChatPromptAttachment }.
Record DurableUpdate := {
  du_chat_id : option bytes; du_summary : option ChatSummary; du_resume_cursor : option ResumeCursor;
  du_turns : list StoredTurn; du_timeline : list StoredTimelineEntry; du_attachments : list StoredAttachment
}.
#[export] Instance eta_DurableUpdate : Eta DurableUpdate :=
  fun u => {| du_chat_id := du_chat_id u; du_summary := du_summary u;
              du_resume_cursor := du_resume_cursor u; du_turns := du_turns u;
              du_timeline := du_timeline u; du_attachments := du_attachments u |}.
(** [DurableUpdate::default]. *)
Definition no_update : DurableUpdate :=
  {| du_chat_id := None; du_summary := None; du_resume_cursor := None; du_turns := [];
     du_timeline := []; du_attachments := [] |}.
Definition is_empty (u : DurableUpdate) : bool :=
  bool_decide (du_summary u = None) && bool_decide (du_resume_cursor u = None)
  && bool_decide (length (du_turns u) = 0%nat) && bool_decide (length (du_timeline u) = 0%nat)
  && bool_decide (length (du_attachments u) = 0%nat).

Definition durable_update (c : bytes) (m : ChatMutation) (current next : Chat)
  : outcome StateLayerError DurableUpdate :=
  let durable := no_update <| du_chat_id := Some c |> in
  match m with
  | UpdateSummary s => Ok (durable <| du_summary := Some s |>)
  | UpsertTurn t =>
      if negb (bool_decide (turn_state t = TurnRunning)) || negb (existsb (has_turn_id (turn_id t)) (turns current))
      then
        match position (has_turn_id (turn_id t)) (turns next) with
        | None => Err (Reconciliation "upserted turn is missing after reduction")
        | Some i =>
            Ok (durable <| du_turns := [{| stored_turn_chat := c; turn_index := Z.of_nat i; stored_turn := t |}] |>)
        end
      else Ok durable
  | UpsertTimelineEntry e =>
      if timeline_entry_is_terminal e || negb (existsb (has_key (timeline_entry_key e)) (timeline current))
      then
        match position (has_key (timeline_entry_key e)) (timeline next) with
        | None => Err (Reconciliation "upserted timeline entry is missing after reduction")
        | Some i =>
            Ok (durable <| du_timeline := [{| stored_entry_chat := c; entry_index := Z.of_nat i; stored_entry := e |}] |>)
        end
      else Ok durable
  | AppendItemContent _ _ | ReplacePromptQueue _ => Ok durable
  | CompleteTimelineItem i _ =>
      match position (has_item_id i) (timeline next) with
      | None => Err (Reconciliation "completed item is missing after reduction")
      | Some n =>
          match timeline next !! n with
          | None => Panic "index out of bounds"
          | Some e =>
              Ok (durable <| du_timeline := [{| stored_entry_chat := c; entry_index := Z.of_nat n; stored_entry := e |}] |>)
          end
      end
  | UpsertAttachment a =>
      Ok (durable <| du_attachments := [{| stored_attachment_chat := c; stored_attachment := a |}] |>)
  end.

(** [checkpoint] followed by [StoredChatCheckpoint::into_update]. *)
Definition enumerate {A} (l : list A) : list (Z * A) := imap (fun i x => (Z.of_nat i, x)) l.
Definition checkpoint_update (chat : Chat) : DurableUpdate :=
  let c := chat_id (summary chat) in
  {| du_chat_id := Some c; du_summary := Some (summary chat); du_resume_cursor := None;
     du_turns := map (fun '(i, t) => {| stored_turn_chat := c; turn_index := i; stored_turn := t |})
                   (enumerate (turns chat));
     du_timeline := map (fun '(i, e) => {| stored_entry_chat := c; entry_index := i; stored_entry := e |})
                      (enumerate (timeline chat));
     du_attachments := map (fun a => {| stored_attachment_chat := c; stored_attachment := a |}) (attachments chat) |}.

(** ** Materialization *)
Record StoredChat := {
  sc_turns : list StoredTurn; sc_timeline : list StoredTimelineEntry;
  sc_attachments : list ChatPromptAttachment
}.
Definition materialize_chat (s : ChatSummary) (stored : StoredChat) : outcome StateLayerError Chat :=
  if existsb (fun '(i, t) => negb (turn_index t =? i)) (enumerate (sc_turns stored))
  then Err (Reconciliation "durable chat turns are not contiguous")
  else if existsb (fun '(i, e) => negb (entry_index e =? i)) (enumerate (sc_timeline stored))
  then Err (Reconciliation "durable chat timeline is not contiguous")
  else Ok {| summary := s; turns := map stored_turn (sc_turns stored);
             timeline := map stored_entry (sc_timeline stored);
             attachments := sc_attachments stored; queued_prompts := [] |}.

(** ** The shape of an update *)
Record StateUpdate := {
  up_list : option ChatListMutation; up_chat : option (bytes * ChatMutation)
}.
Definition validate_update_shape (u : StateUpdate) : outcome StateLayerError unit :=
  match up_list u, up_chat u with
  | Some (ListUpsert ls), Some (c, UpdateSummary cs) =>
      if bool_decide (chat_id ls = c) && bool_decide (ls = cs) then Ok tt
      else Err (Reconciliation "a chat-list upsert must include the same chat summary mutation")
  | Some (ListUpsert _), _ =>
      Err (Reconciliation "a chat-list upsert must include the same chat summary mutation")
  | Some (ListRemove _), Some _ =>
      Err (Reconciliation "a chat-list removal cannot include a chat mutation")
  | None, Some (_, UpdateSummary _) =>
      Err (Reconciliation "a summary mutation must include the same chat-list upsert")
  | Some (ListRemove _), None | None, Some _ => Ok tt
  | None, None => Err (Reconciliation "a state update must contain a mutation")
  end.
