(* ===== verification/ChatStorage.v ===== *)
(** * Chat storage

    [crates/apps/tascarrel-guestd/src/services/chats/state/storage.rs] over the tables
    of [storage/database/migrations]: rows keyed by the primary keys, with the
    constraints the schema declares.  A statement that violates a constraint fails its
    transaction, which leaves the database unchanged.  JSON columns hold the value
    they encode; the text of a timestamp is a parameter. *)

From S2P Require Import Prelude Lists Text ChatTypes ChatReduce.

(** [is_valid_chat_cost_center_id], also the CHECK of the column. *)
Definition MAX_CHAT_COST_CENTER_ID_BYTES : Z := 64.
Definition is_valid_chat_cost_center_id (value : bytes) : bool :=
  negb (bool_decide (value = [])) && (len value <=? MAX_CHAT_COST_CENTER_ID_BYTES)
  && forallb (fun b => is_ascii_alphanumeric b || (b =? 45) || (b =? 95)) value.

(** ** Tables *)
Record ChatRow := {
  row_pod_id : bytes; row_title : bytes; row_harness : ChatHarnessKind;
  row_model : option ChatModelSelection; row_context_usage : option ChatContextUsage;
  row_resume_cursor : option ResumeCursor; row_archived : bool; row_attention_required : bool;
  row_cost_center_id : option bytes; row_purpose : option ChatPurpose;
  row_created_at : Timestamp; row_updated_at : Timestamp
}.
#[export] Instance eta_ChatRow : Eta ChatRow :=
  fun r => {| row_pod_id := row_pod_id r; row_title := row_title r; row_harness := row_harness r;
              row_model := row_model r; row_context_usage := row_context_usage r;
              row_resume_cursor := row_resume_cursor r; row_archived := row_archived r;
              row_attention_required := row_attention_required r;
              row_cost_center_id := row_cost_center_id r; row_purpose := row_purpose r;
              row_created_at := row_created_at r; row_updated_at := row_updated_at r |}.
(** Turns and timeline entries carry their index; [entry_kind] is never read. *)
Record Db := {
  chat_rows : gmap bytes ChatRow;
  turn_rows : gmap (bytes * bytes) (Z * ChatTurn);
  entry_rows : gmap (bytes * bytes) (Z * ChatTimelineEntry);
  attachment_rows : gmap (bytes * bytes) ChatPromptAttachment
}.
#[export] Instance eta_Db : Eta Db :=
  fun d => {| chat_rows := chat_rows d; turn_rows := turn_rows d; entry_rows := entry_rows d;
              attachment_rows := attachment_rows d |}.
Definition empty_db : Db := {| chat_rows := ∅; turn_rows := ∅; entry_rows := ∅; attachment_rows := ∅ |}.

(** [CHECK (length(title) > 0)] stops at a NUL. *)
Definition row_check (r : ChatRow) : bool :=
  match row_title r with b :: _ => negb (b =? 0) | [] => false end
  && match row_cost_center_id r with Some c => is_valid_chat_cost_center_id c | None => true end.
Definition i64_max : Z := 2 ^ 63 - 1.
(** [UNIQUE (chat_id, turn_index)] and its like: no other row of the chat has the index. *)
Definition index_free {A} (rows : gmap (bytes * bytes) (Z * A)) (c key : bytes) (i : Z) : bool :=
  forallb (fun '((c', key'), (j, _)) =>
    negb (bool_decide (c' = c) && (j =? i)) || bool_decide (key' = key)) (map_to_list rows).

Definition timeline_entry_identity (e : ChatTimelineEntry) : bytes :=
  match e with
  | Item i => item_text (item_id i)
  | Request r => request_text (request_id r)
  | Activity a => activity_text (activity_id a)
  end.

(** ** Statements *)
Definition db_create_chat (s : ChatSummary) (d : Db) : outcome StateLayerError Db :=
  let row := {| row_pod_id := pod_id s; row_title := title s; row_harness := harness s; row_model := model s;
                row_context_usage := context_usage s; row_resume_cursor := None; row_archived := false;
                row_attention_required := attention_required s; row_cost_center_id := cost_center_id s;
                row_purpose := purpose s; row_created_at := created_at s; row_updated_at := updated_at s |} in
  if bool_decide (is_Some (chat_rows d !! chat_id s)) || negb (row_check row) then Err Storage
  else Ok (d <| chat_rows := <[chat_id s := row]> (chat_rows d) |>).

(** Whether the chat was archived, and the table. *)
Definition db_archive_chat (c : bytes) (d : Db) : bool * Db :=
  match chat_rows d !! c with
  | Some r =>
      if row_archived r then (false, d)
      else (true, d <| chat_rows := <[c := r <| row_archived := true |>]> (chat_rows d) |>)
  | None => (false, d)
  end.

Definition store_summary (s : ChatSummary) (d : Db) : outcome StateLayerError Db :=
  match chat_rows d !! chat_id s with
  | None => Ok d
  | Some r =>
      let r := r <| row_pod_id := pod_id s |> <| row_title := title s |> <| row_harness := harness s |>
                 <| row_model := model s |> <| row_context_usage := context_usage s |>
                 <| row_attention_required := attention_required s |>
                 <| row_cost_center_id := cost_center_id s |> <| row_updated_at := updated_at s |> in
      if row_check r then Ok (d <| chat_rows := <[chat_id s := r]> (chat_rows d) |>) else Err Storage
  end.
Definition db_store_resume_cursor (c : bytes) (cursor : ResumeCursor) (d : Db) : Db :=
  match chat_rows d !! c with
  | None => d
  | Some r => d <| chat_rows := <[c := r <| row_resume_cursor := Some cursor |>]> (chat_rows d) |>
  end.
Definition store_turn (s : StoredTurn) (d : Db) : outcome StateLayerError Db :=
  let c := stored_turn_chat s in
  let key := turn_id (stored_turn s) in
  if (i64_max <? turn_index s) || negb (bool_decide (is_Some (chat_rows d !! c)))
     || negb (index_free (turn_rows d) c key (turn_index s))
  then Err Storage
  else Ok (d <| turn_rows := <[(c, key) := (turn_index s, stored_turn s)]> (turn_rows d) |>).
Definition store_timeline_entry (s : StoredTimelineEntry) (d : Db) : outcome StateLayerError Db :=
  let c := stored_entry_chat s in
  let key := timeline_entry_identity (stored_entry s) in
  if (i64_max <? entry_index s) || negb (bool_decide (is_Some (chat_rows d !! c)))
     || negb (index_free (entry_rows d) c key (entry_index s))
  then Err Storage
  else Ok (d <| entry_rows := <[(c, key) := (entry_index s, stored_entry s)]> (entry_rows d) |>).
Definition store_attachment (s : StoredAttachment) (d : Db) : outcome StateLayerError Db :=
  let c := stored_attachment_chat s in
  if negb (bool_decide (is_Some (chat_rows d !! c))) then Err Storage
  else Ok (d <| attachment_rows :=
                  <[(c, attachment_id (stored_attachment s)) := stored_attachment s]> (attachment_rows d) |>).

(** [for x in l { f(x)?; }] *)
Fixpoint for_each {A} (f : A -> Db -> outcome StateLayerError Db) (l : list A) (d : Db)
  : outcome StateLayerError Db :=
  match l with
  | [] => Ok d
  | x :: rest => let? d' := f x d in for_each f rest d'
  end.

Definition apply_durable_update (u : DurableUpdate) (d : Db) : outcome StateLayerError Db :=
  let chat :=
    match du_chat_id u with
    | Some c => Some c
    | None =>
        match du_summary u, du_turns u, du_timeline u, du_attachments u with
        | Some s, _, _, _ => Some (chat_id s)
        | None, t :: _, _, _ => Some (stored_turn_chat t)
        | None, [], e :: _, _ => Some (stored_entry_chat e)
        | None, [], [], a :: _ => Some (stored_attachment_chat a)
        | None, [], [], [] => None
        end
    end in
  let? d1 := match du_summary u with Some s => store_summary s d | None => Ok d end in
  let? d2 :=
    match du_resume_cursor u with
    | Some cursor =>
        match chat with
        | Some c => Ok (db_store_resume_cursor c cursor d1)
        | None => Err Storage
        end
    | None => Ok d1
    end in
  let? d3 := for_each store_turn (du_turns u) d2 in
  let? d4 := for_each store_timeline_entry (du_timeline u) d3 in
  for_each store_attachment (du_attachments u) d4.

(** ** Queries *)
Definition rows_of {A} (rows : gmap (bytes * bytes) A) (c : bytes) : list A :=
  omap (fun '((c', _), x) => if bool_decide (c' = c) then Some x else None) (map_to_list rows).
Definition by_index {A} (a b : Z * A) : bool := fst a <=? fst b.
Definition load_turns (d : Db) (c : bytes) : list StoredTurn :=
  map (fun '(i, t) => {| stored_turn_chat := c; turn_index := i; stored_turn := t |})
    (sort_by by_index (rows_of (turn_rows d) c)).
Definition load_timeline (d : Db) (c : bytes) : list StoredTimelineEntry :=
  map (fun '(i, e) => {| stored_entry_chat := c; entry_index := i; stored_entry := e |})
    (sort_by by_index (rows_of (entry_rows d) c)).
(** [ORDER BY attachment_id]: the rows have the key of their attachment. *)
Definition load_attachments (d : Db) (c : bytes) : list ChatPromptAttachment :=
  sort_by attachment_before (rows_of (attachment_rows d) c).
Definition load_chat (d : Db) (c : bytes) : option StoredChat :=
  match chat_rows d !! c with
  | Some r =>
      if row_archived r then None
      else Some {| sc_turns := load_turns d c; sc_timeline := load_timeline d c;
                   sc_attachments := load_attachments d c |}
  | None => None
  end.
(** [load_resumption]. *)
Definition load_resumption (d : Db) (c : bytes)
  : option (ChatHarnessKind * option ChatModelSelection * option ResumeCursor) :=
  match chat_rows d !! c with
  | Some r => if row_archived r then None else Some (row_harness r, row_model r, row_resume_cursor r)
  | None => None
  end.

Definition row_summary (c : bytes) (r : ChatRow) : ChatSummary :=
  {| chat_id := c; pod_id := row_pod_id r; binding := None; last_binding_error := None;
     agent_status := Idle; attention_required := row_attention_required r; harness := row_harness r;
     purpose := row_purpose r; model := row_model r; context_usage := row_context_usage r;
     cost_center_id := row_cost_center_id r; title := row_title r; created_at := row_created_at r;
     updated_at := row_updated_at r |}.
Section summaries.
(** [Timestamp::to_string], the text the column holds. *)
Variable timestamp_text : Timestamp -> bytes.
(** [ORDER BY updated_at DESC, chat_id]. *)
Definition row_before (a b : ChatSummary) : bool :=
  let ta := timestamp_text (updated_at a) in
  let tb := timestamp_text (updated_at b) in
  bytes_leb tb ta && (negb (bytes_leb ta tb) || bytes_leb (chat_id a) (chat_id b)).
Definition load_chat_summaries (d : Db) : list ChatSummary :=
  sort_by row_before
    (omap (fun '(c, r) => if row_archived r then None else Some (row_summary c r)) (map_to_list (chat_rows d))).
End summaries.
