(* ===== verification/ChatUsage.v ===== *)
(** * Chat usage and cost

    [crates/apps/tascarrel-guestd/src/services/chats/state/cost.rs] and [usage.rs]:
    the cost of a usage snapshot and the usage report over durable turns. *)

From S2P Require Import Prelude Lists ChatTypes ChatReduce ChatStorage.

Definition u128_max : Z := 2 ^ 128 - 1.

(** ** Cost *)
Notation "'some' x <- o ; k" := (match o with Some x => k | None => None end)
  (at level 200, x pattern, right associativity) : tsc_scope.

Definition add_cost (total tokens : Z) (rate : Money) (cur : bytes) : option Z :=
  if negb (bool_decide (currency rate = cur)) then None
  else
    some product <- (if tokens * amount rate <=? u128_max then Some (tokens * amount rate) else None);
    checked_add u128_max total product.

(** [try_fold] of [checked_add]. *)
Fixpoint checked_sum (m : Z) (total : Z) (l : list Z) : option Z :=
  match l with
  | [] => Some total
  | x :: rest => some total' <- checked_add m total x; checked_sum m total' rest
  end.
Definition cache_write_tokens (u : ChatTokenUsage) : option Z :=
  match cache_write_input_tokens u with
  | None => checked_sum u64_max 0 (map cw_input_tokens (cache_writes_by_ttl u))
  | Some n => Some n
  end.
Definition model_cost_numerator (u : ChatTokenUsage) (p : ChatModelPricing) (cur : bytes) : option Z :=
  let cache_read := default 0 (cache_read_input_tokens u) in
  some cache_write <- cache_write_tokens u;
  some classified_input <- checked_add u64_max cache_read cache_write;
  some input <- checked_sub (input_tokens u) classified_input;
  some total <- add_cost 0 input (input_price p) cur;
  some total <- add_cost total cache_read (default (input_price p) (cache_read_price p)) cur;
  some total <- add_cost total cache_write (default (input_price p) (cache_write_price p)) cur;
  add_cost total (output_tokens u) (output_price p) cur.

Fixpoint cost_numerator (version : bytes) (count : Z) (cur : bytes) (numerator : Z) (l : list ChatModelUsage)
  : option Z :=
  match l with
  | [] => Some numerator
  | m :: rest =>
      some p <- pricing m;
      if negb (bool_decide (catalog_version p = version)) || negb (token_count p =? count) then None
      else
        some n <- model_cost_numerator (mu_tokens m) p cur;
        some numerator' <- checked_add u128_max numerator n;
        cost_numerator version count cur numerator' rest
  end.
Definition calculate_cost (u : ChatUsageSnapshot) : option ChatCalculatedCost :=
  some m <- head (models u);
  some first <- pricing m;
  let count := token_count first in
  if count =? 0 then None
  else
    let version := catalog_version first in
    let cur := currency (input_price first) in
    some numerator <- cost_numerator version count cur 0 (models u);
    some rounded <- checked_add u128_max numerator (count / 2);
    some units <- try_from u64_max (rounded / count);
    Some {| cost_amount := {| currency := cur; amount := units |}; pricing_catalog_version := version |}.

(** ** Aggregation *)
Record UsageRecord := { ur_chat_id : bytes; ur_cost_center_id : option bytes; ur_usage : ChatTurnUsage }.
(** [UsageAggregationError]. *)
Inductive UsageError := AggregationOverflowed.
Definition usage_checked_add (l r : Z) : outcome UsageError Z := ok_or (checked_add u64_max l r) AggregationOverflowed.

(** [OptionalCounter]: unknown once any value is. *)
Definition counter_add (c v : option Z) : outcome UsageError (option Z) :=
  match c, v with
  | Some x, Some y => let? z := usage_checked_add x y in Ok (Some z)
  | _, _ => Ok None
  end.
(** A [BTreeMap] is a map, listed in the order of its keys by [finish]. *)
Record AggregateBuilder := {
  ab_chat_ids : gset bytes; ab_input_tokens : Z; ab_output_tokens : Z; ab_cache_read : option Z;
  ab_cache_write : option Z; ab_cache_writes_by_ttl : gmap Z Z; ab_reasoning : option Z;
  ab_calculated_costs : gmap bytes Z; ab_turn_count : Z; ab_priced_turn_count : Z;
  ab_provisional_turn_count : Z; ab_primary_agent_turn_count : Z
}.
Definition AggregateBuilder_default : AggregateBuilder :=
  {| ab_chat_ids := ∅; ab_input_tokens := 0; ab_output_tokens := 0; ab_cache_read := Some 0;
     ab_cache_write := Some 0; ab_cache_writes_by_ttl := ∅; ab_reasoning := Some 0;
     ab_calculated_costs := ∅; ab_turn_count := 0; ab_priced_turn_count := 0;
     ab_provisional_turn_count := 0; ab_primary_agent_turn_count := 0 |}.
(** [map.insert(k, checked_add(map.get(k).unwrap_or_default(), v)?)] *)
Definition bump {K} `{Countable K} (k : K) (v : Z) (m : gmap K Z) : outcome UsageError (gmap K Z) :=
  let? x := usage_checked_add (default 0 (m !! k)) v in Ok (<[k := x]> m).
Fixpoint add_cache_writes (l : list ChatCacheWriteUsage) (m : gmap Z Z) : outcome UsageError (gmap Z Z) :=
  match l with
  | [] => Ok m
  | w :: rest => let? m' := bump (ttl_seconds w) (cw_input_tokens w) m in add_cache_writes rest m'
  end.
Definition count_if (b : bool) (n : Z) : outcome UsageError Z := if b then usage_checked_add n 1 else Ok n.
Definition aggregate_add (r : UsageRecord) (a : AggregateBuilder) : outcome UsageError AggregateBuilder :=
  let u := ur_usage r in
  let t := tokens (usage_snapshot u) in
  let chat_ids := {[ur_chat_id r]} ∪ ab_chat_ids a in
  let? input := usage_checked_add (ab_input_tokens a) (input_tokens t) in
  let? output := usage_checked_add (ab_output_tokens a) (output_tokens t) in
  let? cache_read := counter_add (ab_cache_read a) (cache_read_input_tokens t) in
  let? cache_write := counter_add (ab_cache_write a) (cache_write_input_tokens t) in
  let? reasoning := counter_add (ab_reasoning a) (reasoning_output_tokens t) in
  let? by_ttl := add_cache_writes (cache_writes_by_ttl t) (ab_cache_writes_by_ttl a) in
  let? turns := usage_checked_add (ab_turn_count a) 1 in
  let? provisional := count_if (bool_decide (usage_state u = Provisional)) (ab_provisional_turn_count a) in
  let? primary := count_if (bool_decide (coverage (usage_snapshot u) = PrimaryAgent)) (ab_primary_agent_turn_count a) in
  let? priced := count_if (bool_decide (is_Some (calculated_cost u))) (ab_priced_turn_count a) in
  let? costs := match calculated_cost u with
                | Some c => bump (currency (cost_amount c)) (amount (cost_amount c)) (ab_calculated_costs a)
                | None => Ok (ab_calculated_costs a)
                end in
  Ok {| ab_chat_ids := chat_ids; ab_input_tokens := input; ab_output_tokens := output;
        ab_cache_read := cache_read; ab_cache_write := cache_write; ab_cache_writes_by_ttl := by_ttl;
        ab_reasoning := reasoning; ab_calculated_costs := costs; ab_turn_count := turns;
        ab_priced_turn_count := priced; ab_provisional_turn_count := provisional;
        ab_primary_agent_turn_count := primary |}.

Record ChatUsageAggregate := {
  ag_tokens : ChatTokenUsage; ag_calculated_costs : list Money; ag_chat_count : Z; ag_turn_count : Z;
  ag_priced_turn_count : Z; ag_provisional_turn_count : Z; ag_primary_agent_turn_count : Z
}.
(** The entries of a [BTreeMap] in order. *)
Definition entries {K V} `{Countable K} (le : K -> K -> bool) (m : gmap K V) : list (K * V) :=
  sort_by (fun a b => le a.1 b.1) (map_to_list m).
(** [u64::try_from] of a [usize] cannot fail. *)
Definition aggregate_finish (a : AggregateBuilder) : ChatUsageAggregate :=
  {| ag_tokens :=
       {| input_tokens := ab_input_tokens a; output_tokens := ab_output_tokens a;
          cache_read_input_tokens := ab_cache_read a; cache_write_input_tokens := ab_cache_write a;
          cache_writes_by_ttl := map (fun '(t, n) => {| ttl_seconds := t; cw_input_tokens := n |})
                                   (entries Z.leb (ab_cache_writes_by_ttl a));
          reasoning_output_tokens := ab_reasoning a |};
     ag_calculated_costs := map (fun '(c, n) => {| currency := c; amount := n |})
                              (entries bytes_leb (ab_calculated_costs a));
     ag_chat_count := Z.of_nat (size (ab_chat_ids a)); ag_turn_count := ab_turn_count a;
     ag_priced_turn_count := ab_priced_turn_count a;
     ag_provisional_turn_count := ab_provisional_turn_count a;
     ag_primary_agent_turn_count := ab_primary_agent_turn_count a |}.

Record ChatUsageReport := {
  from : Timestamp; until : Timestamp; total : ChatUsageAggregate;
  cost_centers : list (option bytes * ChatUsageAggregate)
}.
(** [Option]'s order: [None] first. *)
Definition option_leb (a b : option bytes) : bool :=
  match a, b with
  | None, _ => true
  | Some _, None => false
  | Some x, Some y => bytes_leb x y
  end.
Fixpoint aggregate_all (l : list UsageRecord) (total : AggregateBuilder)
  (centers : gmap (option bytes) AggregateBuilder)
  : outcome UsageError (AggregateBuilder * gmap (option bytes) AggregateBuilder) :=
  match l with
  | [] => Ok (total, centers)
  | r :: rest =>
      let? total' := aggregate_add r total in
      let? center := aggregate_add r (default AggregateBuilder_default (centers !! ur_cost_center_id r)) in
      aggregate_all rest total' (<[ur_cost_center_id r := center]> centers)
  end.
Definition build_report (from until : Timestamp) (records : list UsageRecord) : outcome UsageError ChatUsageReport :=
  let? (t, centers) := aggregate_all records AggregateBuilder_default ∅ in
  Ok {| from := from; until := until; total := aggregate_finish t;
        cost_centers := map (fun '(c, a) => (c, aggregate_finish a)) (entries option_leb centers) |}.

(** ** The durable query

    The turns joined with the row of their chat, [ORDER BY cost_center_id, chat_id,
    turn_index], with usage observed in the interval. *)
Definition UsageRow : Type := option bytes * bytes * Z * ChatTurn.
Definition usage_row_before (a b : UsageRow) : bool :=
  let '(ca, ia, na, _) := a in
  let '(cb, ib, nb, _) := b in
  option_leb ca cb && (negb (option_leb cb ca) || (bytes_leb ia ib && (negb (bytes_leb ib ia) || (na <=? nb)))).
Definition usage_rows (d : Db) : list UsageRow :=
  sort_by usage_row_before
    (omap (fun '((c, _), (i, t)) => some row <- chat_rows d !! c; Some (row_cost_center_id row, c, i, t))
       (map_to_list (turn_rows d))).
Definition usage_record (from until : Timestamp) (r : UsageRow) : option UsageRecord :=
  let '(center, c, _, t) := r in
  some u <- usage t;
  if (observed_at u <? from) || (until <=? observed_at u) then None
  else Some {| ur_chat_id := c; ur_cost_center_id := center; ur_usage := u |}.
Definition usage_report (d : Db) (from until : Timestamp) : outcome UsageError ChatUsageReport :=
  build_report from until (omap (usage_record from until) (usage_rows d)).
