(* ===== verification/ChatLayer.v ===== *)
(** * The chat state layer

    [StateLayer] of [crates/apps/tascarrel-guestd/src/services/chats/state/layer.rs]
    and the transactions of [Storage] ([storage.rs]) it issues.  Every access to
    SQLite takes the next fault: a transaction either commits or leaves the database
    as it was.  The update lock makes each operation one step. *)

From S2P Require Import Prelude Effects Lists Store ChatTypes ChatReduce ChatStorage.

(** ** State *)
Record ChatSlot := { slot_summary : ChatSummary; slot_store : option (StoreCore Chat ChatMutation) }.
#[export] Instance eta_ChatSlot : Eta ChatSlot :=
  fun s => {| slot_summary := slot_summary s; slot_store := slot_store s |}.
(** The database, the reducer stores, the revision of usage, and the generations
    not drawn yet ([Uuid::new_v4]). *)
Record Layer := {
  db : Db; chat_list : StoreCore ChatList ChatListMutation; slots : gmap bytes ChatSlot;
  usage_changes : Z; next_generation : Z
}.
#[export] Instance eta_Layer : Eta Layer :=
  fun l => {| db := db l; chat_list := chat_list l; slots := slots l; usage_changes := usage_changes l;
              next_generation := next_generation l |}.
(** The capacity of every reducer store's journal ([state/mod.rs]). *)
Definition EVENT_CAPACITY : Z := 16384.

Abbreviation run := (call Layer StateLayerError).

(** ** Storage transactions *)

(** [Connection::call_raw]: the access may fail. *)
Definition query {A} (f : Db -> A) : run A :=
  do! fallible Storage; do l <- get; ret (f (db l)).
Definition transaction (f : Db -> outcome StateLayerError Db) : run unit :=
  do! fallible Storage;
  do l <- get;
  do d <- of_outcome (f (db l));
  do! fallible Storage;
  put (fun l => l <| db := d |>).
(** One statement outside a transaction. *)
Definition storage_create_chat (s : ChatSummary) : run unit :=
  do! fallible Storage;
  do l <- get;
  do d <- of_outcome (db_create_chat s (db l));
  put (fun l => l <| db := d |>).
Definition storage_archive_chat (c : bytes) : run bool :=
  do! fallible Storage;
  do l <- get;
  let '(changed, d) := db_archive_chat c (db l) in
  do! put (fun l => l <| db := d |>);
  ret changed.
Definition store_update (u : DurableUpdate) : run unit :=
  if is_empty u then ret tt else transaction (apply_durable_update u).
Definition storage_checkpoint (chats : list Chat) : run unit :=
  match chats with
  | [] => ret tt
  | _ => transaction (for_each (fun c => apply_durable_update (checkpoint_update c)) chats)
  end.

(** ** Reducer stores *)
Definition draw_generation : run Z :=
  do l <- get; do! put (fun l => l <| next_generation := next_generation l + 1 |>); ret (next_generation l).
Definition list_apply (m : ChatListMutation) : run unit :=
  do g <- draw_generation;
  put (fun l => l <| chat_list := (store_apply reduce_chat_list g m (chat_list l)).2 |>).
Definition chat_store (c : bytes) : run (option (StoreCore Chat ChatMutation)) :=
  do l <- get;
  ret (match slots l !! c with Some s => slot_store s | None => None end).
(** [store.apply]: the store is the one the slot shares. *)
Definition chat_apply (c : bytes) (m : ChatMutation) : run unit :=
  do g <- draw_generation;
  put (fun l =>
    match slots l !! c with
    | Some s =>
        l <| slots := <[c := s <| slot_store := option_map (fun st => (store_apply reduce_chat g m st).2) (slot_store s) |>]>
                        (slots l) |>
    | None => l
    end).
Definition chat_value (st : StoreCore Chat ChatMutation) : Chat := value (snapshot st).

(** ** Operations *)
Section layer.
Variable timestamp_text : Timestamp -> bytes.

(** [StateLayer::open] over a database. *)
Fixpoint open_slots (l : list ChatSummary) (acc : gmap bytes ChatSlot) : outcome StateLayerError (gmap bytes ChatSlot) :=
  match l with
  | [] => Ok acc
  | s :: rest =>
      match acc !! chat_id s with
      | Some _ => Err (Reconciliation "durable chat summaries contain a duplicate chat")
      | None => open_slots rest (<[chat_id s := {| slot_summary := s; slot_store := None |}]> acc)
      end
  end.
Definition open (d : Db) (g : Z) : outcome StateLayerError Layer :=
  let summaries := load_chat_summaries timestamp_text d in
  let? slots := open_slots summaries ∅ in
  Ok {| db := d; chat_list := Store_new g summaries EVENT_CAPACITY; slots := slots; usage_changes := 0;
        next_generation := g + 1 |}.
End layer.

Definition layer_chats (l : Layer) : ChatList := value (snapshot (chat_list l)).

Definition create_chat (s : ChatSummary) : run unit :=
  do l <- get;
  if bool_decide (is_Some (slots l !! chat_id s)) then raise (Reconciliation "cannot create a duplicate chat")
  else
    do! storage_create_chat s;
    do g <- draw_generation;
    do! put (fun l => l <| slots := <[chat_id s := {| slot_summary := s;
                                                      slot_store := Some (Store_new g (empty_chat s) EVENT_CAPACITY) |}]>
                                      (slots l) |>);
    list_apply (ListUpsert s).

Definition archive_chat (c : bytes) : run bool :=
  do l <- get;
  if negb (bool_decide (is_Some (slots l !! c))) then ret false
  else
    do archived <- storage_archive_chat c;
    if negb archived then ret false
    else
      do! put (fun l => l <| slots := delete c (slots l) |>);
      do! list_apply (ListRemove c);
      ret true.

Definition materialize_chat_locked (c : bytes) : run bool :=
  do l <- get;
  match slots l !! c with
  | None => ret false
  | Some slot =>
      match slot_store slot with
      | Some _ => ret true
      | None =>
          do stored <- query (fun d => load_chat d c);
          match stored with
          | None => raise (Reconciliation "a known chat is missing from durable storage")
          | Some stored =>
              do chat <- of_outcome (materialize_chat (slot_summary slot) stored);
              do g <- draw_generation;
              do l <- get;
              match slots l !! c with
              | None => ret false
              | Some slot =>
                  do! put (fun l => l <| slots := <[c := slot <| slot_store := Some (Store_new g chat EVENT_CAPACITY) |>]>
                                                    (slots l) |>);
                  ret true
              end
          end
      end
  end.

Definition chat (c : bytes) : run (option Chat) :=
  do known <- materialize_chat_locked c;
  if negb known then ret None
  else do store <- chat_store c; ret (option_map chat_value store).

(** Whether a mutation changes the usage report. *)
Definition usage_changed (m : ChatMutation) (current : Chat) (durable : DurableUpdate) : bool :=
  existsb (fun t => bool_decide (is_Some (usage (stored_turn t)))) (du_turns durable)
  || match m with
     | UpdateSummary s => negb (bool_decide (cost_center_id s = cost_center_id (summary current)))
     | _ => false
     end.
Definition wrapping_inc (x : Z) : Z := if x =? u64_max then 0 else x + 1.
(** The chat's part of [apply_update]. *)
Definition apply_chat_update (c : bytes) (m : ChatMutation) : run unit :=
  do known <- materialize_chat_locked c;
  if negb known then raise (Reconciliation "cannot update an unknown chat")
  else
    do store <- chat_store c;
    match store with
    | None => raise (Reconciliation "materialized chat has no reducer store")
    | Some store =>
        let current := chat_value store in
        do next <- of_outcome (apply_chat_mutation current m);
        do durable <- of_outcome (durable_update c m current next);
        do! store_update durable;
        do! chat_apply c m;
        do! put (fun l =>
          match m, slots l !! c with
          | UpdateSummary s, Some slot => l <| slots := <[c := slot <| slot_summary := s |>]> (slots l) |>
          | _, _ => l
          end);
        if usage_changed m current durable
        then put (fun l => l <| usage_changes := wrapping_inc (usage_changes l) |>)
        else ret tt
    end.
Definition apply_update (u : StateUpdate) : run unit :=
  do! of_outcome (validate_update_shape u);
  do! match up_chat u with Some (c, m) => apply_chat_update c m | None => ret tt end;
  match up_list u with Some m => list_apply m | None => ret tt end.

Definition harness_resumption (c : bytes)
  : run (option (ChatHarnessKind * option ChatModelSelection * option ResumeCursor)) :=
  query (fun d => load_resumption d c).
Definition store_resume_cursor (c : bytes) (cursor : ResumeCursor) : run unit :=
  store_update (no_update <| du_chat_id := Some c |> <| du_resume_cursor := Some cursor |>).

Definition checkpoint_chat (c : bytes) : run bool :=
  do known <- materialize_chat_locked c;
  if negb known then ret false
  else
    do store <- chat_store c;
    match store with
    | None => raise (Reconciliation "materialized chat has no reducer store")
    | Some store => do! storage_checkpoint [chat_value store]; ret true
    end.
(** The stores in the order of the map; the order of a [HashMap] is arbitrary, and
    checkpoints of different chats touch different rows. *)
Definition checkpoint : run unit :=
  do l <- get;
  storage_checkpoint (omap (fun '(_, s) => option_map chat_value (slot_store s)) (map_to_list (slots l))).

Definition subscribe_chats (after : option Stamp) (l : Layer) : SubscriptionState ChatList ChatListMutation :=
  subscribe (chat_list l) after.
Definition subscribe_chat (c : bytes) (after : option Stamp)
  : run (option (SubscriptionState Chat ChatMutation)) :=
  do known <- materialize_chat_locked c;
  if negb known then ret None
  else do store <- chat_store c; ret (option_map (fun st => subscribe st after) store).
