(* ===== verification/ChatState.v ===== *)
(** * Chat state

    [ChatState] of [crates/apps/tascarrel-guestd/src/services/chats/state/mod.rs]:
    the reconciliation of harness events with a chat and the operations the engine
    calls.  Clocks and generated identifiers are arguments.  The operation lock
    makes each operation one step. *)

From S2P Require Import Prelude Effects Lists Store ChatTypes ChatReduce ChatStorage ChatLayer ChatUsage.

(** [ChatStateError]: its kind, with the message where the code gives one. *)
Inductive ChatStateError :=
| InvalidInput (message : string) | InvalidHarnessEvent (message : string) | StorageFailure | Internal.
Definition state_layer_error (e : StateLayerError) : ChatStateError :=
  match e with Reconciliation _ => Internal | Storage => StorageFailure end.

Abbreviation op := (call Layer ChatStateError).
Definition layer {A} (m : call Layer StateLayerError A) : op A := map_err state_layer_error m.

(** ** Reconciliation of harness events *)
Record ReconciledEvent := {
  re_update : option StateUpdate; re_resume_cursor : option ResumeCursor; re_touch_summary : bool;
  re_attention_required : bool
}.
Definition summary_update (s : ChatSummary) : StateUpdate :=
  {| up_list := Some (ListUpsert s); up_chat := Some (chat_id s, UpdateSummary s) |}.
Definition require {A} (o : option A) (message : string) : outcome ChatStateError A :=
  ok_or o (InvalidHarnessEvent message).
Definition require_turn_id (i : option bytes) := require i "harness event requires a turn identifier".
Definition require_item_id (i : option bytes) := require i "harness event requires an item identifier".
Definition require_request_id (i : option bytes) := require i "harness event requires a request identifier".
Definition require_binding (actual expected : bytes) (kind : string) : outcome ChatStateError unit :=
  if bool_decide (actual = expected) then Ok tt
  else Err (InvalidHarnessEvent
              (String.append "harness event attempted to replace a " (String.append kind " from another binding"))).
Definition bound_to (c : Chat) (b : bytes) : bool :=
  match binding (summary c) with Some x => bool_decide (binding_id x = b) | None => false end.
Definition require_current_binding (c : Chat) (b : bytes) : outcome ChatStateError unit :=
  if bound_to c b then Ok tt else Err (InvalidHarnessEvent "harness event belongs to a stale binding").

(** [iter().find(p)]. *)
Definition find_turn (c : Chat) (i : bytes) : option ChatTurn := List.find (has_turn_id i) (turns c).
Definition find_item (c : Chat) (i : bytes) : option ChatItem := option_map snd (find_timeline_item i (timeline c)).
Fixpoint find_request_in (l : list ChatTimelineEntry) (i : bytes) : option ChatRequest :=
  match l with
  | [] => None
  | Request r :: rest => if bool_decide (request_id r = i) then Some r else find_request_in rest i
  | _ :: rest => find_request_in rest i
  end.
Definition find_request (c : Chat) (i : bytes) : option ChatRequest := find_request_in (timeline c) i.

(** [activity_payload]; [fresh] is [ChatActivityId::generate]. *)
Definition activity_payload (fresh b : bytes) (t : Timestamp) (k : ChatActivityKind) (message : bytes)
  (detail : option JsonValue) : ChatMutation :=
  UpsertTimelineEntry (Activity {| activity_id := fresh; activity_binding_id := b; activity_occurred_at := t;
                                   activity_kind := k; activity_message := message; detail := detail |}).
Definition error_activity (e : HarnessError) : ChatActivityKind * bytes := (ErrorActivity, he_message e).

(** The three results of the code's match: a mutation, a cursor, whether the
    summary is touched; or an early return. *)
Inductive Reconciled :=
| Continue (m : option ChatMutation) (cursor : option ResumeCursor) (touch : bool)
| Return (e : ReconciledEvent).
Definition nothing : ReconciledEvent :=
  {| re_update := None; re_resume_cursor := None; re_touch_summary := false; re_attention_required := false |}.
Definition only_summary (s : ChatSummary) : Reconciled :=
  Return {| re_update := Some (summary_update s); re_resume_cursor := None; re_touch_summary := false;
            re_attention_required := false |}.

Definition reconcile_turn_started (c : Chat) (b : bytes) (t : Timestamp) (turn : option bytes)
  : outcome ChatStateError Reconciled :=
  let? i := require_turn_id turn in
  let turn :=
    match find_turn c i with
    | None => {| turn_id := i; turn_binding_id := b; turn_state := TurnRunning; started_at := Some t;
                 turn_completed_at := None; error := None; usage := None |}
    | Some x => x <| turn_state := TurnRunning |> <| started_at := Some (default t (started_at x)) |>
    end in
  let? _ := require_binding (turn_binding_id turn) b "turn" in
  Ok (Continue (Some (UpsertTurn turn)) None true).

Definition reconcile_usage (c : Chat) (b : bytes) (t : Timestamp) (turn : option bytes)
  (u : ChatUsageSnapshot) (s : ChatUsageState) : outcome ChatStateError Reconciled :=
  let? i := require_turn_id turn in
  let? turn := require (find_turn c i) "turn usage requires an existing turn" in
  let? _ := require_binding (turn_binding_id turn) b "turn" in
  let settled := match usage turn with Some x => bool_decide (usage_state x = Settled) | None => false end in
  if bool_decide (s = Provisional) && (negb (bool_decide (turn_state turn = TurnRunning)) || settled)
  then Ok (Return nothing)
  else
    let turn := turn <| usage := Some {| usage_state := s; observed_at := t; usage_snapshot := u;
                                         calculated_cost := calculate_cost u |} |> in
    Ok (Continue (Some (UpsertTurn turn)) None false).

Definition reconcile_turn_completed (c : Chat) (b : bytes) (t : Timestamp) (turn : option bytes)
  (s : ChatTurnState) (e : option ChatFailure) : outcome ChatStateError Reconciled :=
  if bool_decide (s = TurnRunning)
  then Err (InvalidHarnessEvent "a completed turn must have a terminal state")
  else
    let? i := require_turn_id turn in
    let turn :=
      match find_turn c i with
      | None => {| turn_id := i; turn_binding_id := b; turn_state := s; started_at := None;
                   turn_completed_at := Some t; error := e; usage := None |}
      | Some x =>
          x <| turn_state := s |> <| turn_completed_at := Some t |> <| error := e |>
            <| usage := option_map (fun u => u <| usage_state := Settled |>) (usage x) |>
      end in
    let? _ := require_binding (turn_binding_id turn) b "turn" in
    Ok (Continue (Some (UpsertTurn turn)) None true).

Definition reconcile_item_completed (c : Chat) (b : bytes) (t : Timestamp) (turn item : option bytes)
  (k : ChatItemKind) (s : ChatItemState) (body : list ChatContent) : outcome ChatStateError Reconciled :=
  if bool_decide (s = ItemStarted)
  then Err (InvalidHarnessEvent "a completed item must have a terminal state")
  else
    let? i := require_item_id item in
    let? tid := require_turn_id turn in
    let current := find_item c i in
    let? _ := match current with
              | Some x => require_binding (item_binding_id x) b "item"
              | None => Ok tt
              end in
    if bool_decide (s = ItemCompleted)
       && match current with
          | Some x => bool_decide (item_state x = ItemStarted) && bool_decide (item_kind x = k)
                      && bool_decide (content x = body)
          | None => false
          end
    then Ok (Continue (Some (CompleteTimelineItem i t)) None true)
    else
      let x := {| item_id := i; item_binding_id := b; item_turn_id := tid; item_kind := k; item_state := s;
                  item_completed_at := Some t; content := body |} in
      Ok (Continue (Some (UpsertTimelineEntry (Item x))) None true).

Definition reconcile_payload (fresh : bytes) (c : Chat) (b : bytes) (e : HarnessEvent)
  : outcome ChatStateError Reconciled :=
  let t := occurred_at e in
  match payload e with
  | SessionStarted | SessionStateChanged _ _ | SessionExited None => Ok (Continue None None false)
  | SessionExited (Some error) | PError error =>
      let '(k, message) := error_activity error in
      Ok (Continue (Some (activity_payload fresh b t k message None)) None true)
  | ResumeCursorUpdated cursor => Ok (Continue None (Some cursor) false)
  | ModelChanged m =>
      Ok (only_summary ((summary c) <| model := Some m |> <| context_usage := None |> <| updated_at := t |>))
  | ContextUsageUpdated u =>
      Ok (only_summary ((summary c) <| context_usage :=
            option_map (fun u => {| used_tokens := hu_used_tokens u;
                                    context_window_tokens := hu_context_window_tokens u;
                                    accuracy := hu_accuracy u; cu_observed_at := t |}) u |>))
  | PTurnStarted => reconcile_turn_started c b t (ev_turn_id e)
  | TurnUsageUpdated u s => reconcile_usage c b t (ev_turn_id e) u s
  | PTurnCompleted s error => reconcile_turn_completed c b t (ev_turn_id e) s error
  | PItemStarted k =>
      let? i := require_item_id (ev_item_id e) in
      let? tid := require_turn_id (ev_turn_id e) in
      Ok (Continue (Some (UpsertTimelineEntry (Item
            {| item_id := i; item_binding_id := b; item_turn_id := tid; item_kind := k; item_state := ItemStarted;
               item_completed_at := None; content := [Text []] |}))) None false)
  | ChatItemContentAppended i delta =>
      if negb (bool_decide (ev_item_id e = Some i))
      then Err (InvalidHarnessEvent "content append item identifier does not match its event")
      else Ok (Continue (Some (AppendItemContent i delta)) None false)
  | PItemCompleted k s body => reconcile_item_completed c b t (ev_turn_id e) (ev_item_id e) k s body
  | UserInputRequested q =>
      let? i := require_request_id (ev_request_id e) in
      Ok (Continue (Some (UpsertTimelineEntry (Request
            {| request_id := i; request_binding_id := b; request_turn_id := ev_turn_id e;
               request_item_id := ev_item_id e; resolved := false; questions := q |}))) None true)
  | RequestResolved =>
      let? i := require_request_id (ev_request_id e) in
      let? r := require (find_request c i) "cannot resolve an unknown chat request" in
      let? _ := require_binding (request_binding_id r) b "request" in
      Ok (Continue (Some (UpsertTimelineEntry (Request (r <| resolved := true |>)))) None true)
  | Warning _ message =>
      Ok (Continue (Some (activity_payload fresh b t WarningActivity message None)) None true)
  | Unknown native_type _ =>
      Ok (Continue (Some (activity_payload fresh b t Information
                            (str "Unrecognized harness event: " ++ native_type) None)) None true)
  end.
Definition completes_turn (p : HarnessEventPayload) : bool :=
  match p with PTurnCompleted s _ => negb (bool_decide (s = TurnRunning)) | _ => false end.
Definition reconcile_harness_event (fresh : bytes) (c : Chat) (b : bytes) (e : HarnessEvent)
  : outcome ChatStateError ReconciledEvent :=
  let attention := bool_decide (queued_prompts c = []) && completes_turn (payload e) in
  let? r := reconcile_payload fresh c b e in
  match r with
  | Return e => Ok e
  | Continue m cursor touch =>
      Ok {| re_update := option_map (fun m => {| up_list := None; up_chat := Some (chat_id (summary c), m) |}) m;
            re_resume_cursor := cursor; re_touch_summary := touch; re_attention_required := attention |}
  end.

(** ** Derived state *)
Definition open_request (b : bytes) (e : ChatTimelineEntry) : bool :=
  match e with Request r => bool_decide (request_binding_id r = b) && negb (resolved r) | _ => false end.
Definition running_turn (b : bytes) (t : ChatTurn) : bool :=
  bool_decide (turn_binding_id t = b) && bool_decide (turn_state t = TurnRunning).
Definition started_item (b : bytes) (e : ChatTimelineEntry) : bool :=
  match e with Item i => bool_decide (item_binding_id i = b) && bool_decide (item_state i = ItemStarted) | _ => false end.
(** [agent_status]. *)
Definition status_of (c : Chat) : ChatAgentStatus :=
  match binding (summary c) with
  | None => Idle
  | Some x =>
      if existsb (open_request (binding_id x)) (timeline c) then UserInputRequired
      else if existsb (running_turn (binding_id x)) (turns c) then Working else Idle
  end.
Definition has_inflight_state (c : Chat) (b : bytes) : bool :=
  existsb (running_turn b) (turns c)
  || existsb (fun e => started_item b e || open_request b e) (timeline c).
Definition validate_cost_center_id (i : option bytes) : outcome ChatStateError unit :=
  match i with
  | Some i =>
      if is_valid_chat_cost_center_id i then Ok tt
      else Err (InvalidInput "cost-center identifier must contain 1-64 ASCII letters, digits, hyphens, or underscores")
  | None => Ok tt
  end.

(** ** Operations *)
Definition known {A} (message : string) (o : option A) : op A := of_outcome (ok_or o (InvalidInput message)).
Definition state_chat (c : bytes) : op (option Chat) := layer (chat c).
Definition summary_of (c : bytes) : op ChatSummary :=
  do x <- layer (chat c); known "chat does not exist" (option_map summary x).
Definition apply_summary (s : ChatSummary) : op unit := layer (apply_update (summary_update s)).
Definition touch_summary (c : bytes) (t : Timestamp) (attention : bool) : op unit :=
  do x <- layer (chat c);
  do x <- known "chat does not exist" x;
  let s := (summary x) <| agent_status := status_of x |>
             <| attention_required := attention_required (summary x) || attention |> in
  apply_summary (if updated_at s <? t then s <| updated_at := t |> else s).

Definition state_archive_chat (c : bytes) : op unit :=
  do archived <- layer (archive_chat c);
  if negb archived then raise (InvalidInput "cannot archive an unknown chat") else ret tt.
Definition acknowledge_attention (c : bytes) : op unit :=
  do s <- summary_of c;
  if negb (attention_required s) then ret tt else apply_summary (s <| attention_required := false |>).

Record CreateChatRequest := {
  cr_title : bytes; cr_pod_id : bytes; cr_cost_center_id : option bytes; cr_harness : ChatHarnessKind;
  cr_purpose : option ChatPurpose; cr_model : option ChatModelSelection
}.
(** [fresh] is [ChatId::generate], [now] the clock. *)
Definition state_create_chat (fresh : bytes) (now : Timestamp) (r : CreateChatRequest) : op bytes :=
  do! of_outcome (validate_cost_center_id (cr_cost_center_id r));
  do! layer (create_chat
        {| chat_id := fresh; pod_id := cr_pod_id r; binding := None; last_binding_error := None;
           agent_status := Idle; attention_required := false; harness := cr_harness r; purpose := cr_purpose r;
           model := cr_model r; context_usage := None; cost_center_id := cr_cost_center_id r; title := cr_title r;
           created_at := now; updated_at := now |});
  ret fresh.
Definition set_cost_center (c : bytes) (i : option bytes) : op unit :=
  do! of_outcome (validate_cost_center_id i);
  do s <- summary_of c;
  if bool_decide (cost_center_id s = i) then ret tt else apply_summary (s <| cost_center_id := i |>).

Definition ingest_harness_event (fresh c b : bytes) (e : HarnessEvent) : op unit :=
  do x <- layer (chat c);
  do x <- known "cannot ingest an event for an unknown chat" x;
  do! of_outcome (require_current_binding x b);
  do r <- of_outcome (reconcile_harness_event fresh x b e);
  do! match re_resume_cursor r with Some cursor => layer (store_resume_cursor c cursor) | None => ret tt end;
  do! match re_update r with Some u => layer (apply_update u) | None => ret tt end;
  if re_touch_summary r then touch_summary c (occurred_at e) (re_attention_required r) else ret tt.

Definition state_harness_resumption (c : bytes) := layer (harness_resumption c).
Definition same_binding (a b : option ChatBinding) : bool :=
  match a, b with Some x, Some y => bool_decide (binding_id x = binding_id y) | _, _ => false end.
Definition set_binding (c : bytes) (b : option ChatBinding) (last_error : option ChatBindingError) : op unit :=
  do s <- summary_of c;
  let s' := if same_binding b (binding s) then s else s <| agent_status := Idle |> in
  apply_summary (s' <| binding := b |> <| last_binding_error := last_error |>).
Definition set_prompt_queue (c : bytes) (prompts : list ChatQueuedPrompt) : op unit :=
  do x <- layer (chat c);
  do! known "cannot update an unknown chat prompt queue" x;
  layer (apply_update {| up_list := None; up_chat := Some (c, ReplacePromptQueue prompts) |}).
Definition upsert_attachment (c : bytes) (a : ChatPromptAttachment) : op unit :=
  do x <- layer (chat c);
  do! known "cannot add an attachment to an unknown chat" x;
  layer (apply_update {| up_list := None; up_chat := Some (c, UpsertAttachment a) |}).
Definition set_model (c : bytes) (m : ChatModelSelection) (now : Timestamp) : op unit :=
  do s <- summary_of c;
  apply_summary (s <| model := Some m |> <| updated_at := now |>).
Definition replace_title (c expected replacement : bytes) (now : Timestamp) : op bool :=
  do s <- summary_of c;
  if negb (bool_decide (title s = expected)) then ret false
  else if bool_decide (replacement = expected) then ret false
  else do! apply_summary (s <| title := replacement |> <| updated_at := now |>); ret true.
(** The summary [finish_binding] applies. *)
Definition unbound_summary (x : Chat) (b : bytes) (last_error : option ChatBindingError) (now : Timestamp) : ChatSummary :=
  let attention := has_inflight_state x b && bool_decide (queued_prompts x = []) in
  let s := (summary x) <| binding := None |> <| last_binding_error := last_error |> <| agent_status := Idle |> in
  if attention then s <| attention_required := true |> <| updated_at := now |> else s.
Definition finish_binding (c b : bytes) (last_error : option ChatBindingError) (now : Timestamp) : op unit :=
  do x <- layer (chat c);
  do x <- known "cannot finish a binding for an unknown chat" x;
  if negb (bound_to x b) then ret tt
  else
    do summary_result <- attempt (apply_summary (unbound_summary x b last_error now));
    do checkpoint_result <- attempt (layer (checkpoint_chat c));
    do! of_outcome summary_result;
    do! of_outcome checkpoint_result;
    ret tt.
(** [usage_report]: the interval is checked, the report is made by the storage. *)
Definition validate_usage_interval (from until : Timestamp) : outcome ChatStateError unit :=
  if until <=? from then Err (InvalidInput "usage report end must be later than its beginning") else Ok tt.
Definition state_usage_report (from until : Timestamp) : op ChatUsageReport :=
  do! of_outcome (validate_usage_interval from until);
  do r <- layer (query (fun d => usage_report d from until));
  of_outcome (match r with Ok x => Ok x | Err _ => Err StorageFailure | Panic s => Panic s end).
Definition state_checkpoint : op unit := layer checkpoint.
