(* ===== verification/ChatDurable.v ===== *)
(** * What chat storage holds

    The rows of a chat as the lists they encode, the effect of the statements on
    those lists, and that loading returns them. *)

From S2P Require Import Prelude Lists ChatTypes ChatReduce ChatStorage.

(** ** Lists *)
Lemma NoDup_omap {A B} (f : A -> option B) l :
  (forall a a' b, a ∈ l -> a' ∈ l -> f a = Some b -> f a' = Some b -> a = a') -> NoDup l -> NoDup (omap f l).
Proof.
  induction l as [|a l IH]; intros I N; [constructor|]. apply NoDup_cons in N as [Na N]. cbn.
  assert (Nl : NoDup (omap f l)) by (apply IH; [intros; eapply I; set_solver|done]).
  destruct (f a) as [b|] eqn:E; [|done]. constructor; [|done].
  intros (a' & Ia & E')%list_elem_of_omap. apply Na. rewrite (I a a' b); set_solver.
Qed.
Lemma elem_of_enumerate {A} (l : list A) i x :
  (i, x) ∈ enumerate l <-> exists n, i = Z.of_nat n /\ l !! n = Some x.
Proof.
  unfold enumerate. rewrite list_elem_of_lookup. setoid_rewrite list_lookup_imap. split.
  - intros (n & E). destruct (l !! n) eqn:L; [|done]. simplify_eq/=. eauto.
  - intros (n & -> & E). exists n. by rewrite E.
Qed.
Lemma lookup_enumerate {A} (l : list A) n : enumerate l !! n = option_map (fun x => (Z.of_nat n, x)) (l !! n).
Proof. unfold enumerate. rewrite list_lookup_imap. by destruct (l !! n). Qed.
Lemma NoDup_enumerate {A} (l : list A) : NoDup (enumerate l).
Proof.
  apply NoDup_alt. intros i j [k x]. rewrite !lookup_enumerate.
  destruct (l !! i), (l !! j); cbn; intros; simplify_eq; lia.
Qed.
Lemma enumerate_app {A} (l : list A) x : enumerate (l ++ [x]) = enumerate l ++ [(Z.of_nat (length l), x)].
Proof. unfold enumerate. rewrite imap_app. cbn. by rewrite Nat.add_0_r. Qed.
Lemma enumerate_sorted {A} (l : list A) : StronglySorted by_index (enumerate l).
Proof.
  induction l as [|x l IH] using rev_ind; [constructor|]. rewrite enumerate_app.
  assert (F : Forall (fun p => p.1 < Z.of_nat (length l)) (enumerate l)).
  { apply Forall_forall. intros [i y] (n & -> & E%lookup_lt_Some)%elem_of_enumerate. cbn. lia. }
  induction IH as [|p k S IH Fk]; cbn; [repeat constructor|]. inversion F as [|? ? Hp F']; subst. constructor; [by apply IH|].
  apply Forall_app. split; [done|]. constructor; [|done]. unfold by_index. apply Is_true_eq_left, Z.leb_le. cbn. lia.
Qed.
Lemma map_snd_enumerate {A} (l : list A) : map snd (enumerate l) = l.
Proof.
  apply list_eq. intros n. change (map snd (enumerate l)) with (snd <$> enumerate l).
  rewrite list_lookup_fmap, lookup_enumerate. by destruct (l !! n).
Qed.
Lemma elem_of_rows_of {A} (rows : gmap (bytes * bytes) A) c x :
  x ∈ rows_of rows c <-> exists k, rows !! (c, k) = Some x.
Proof.
  unfold rows_of. rewrite list_elem_of_omap. split.
  - intros ([[c' k] y] & I & E). case_bool_decide; [|done]. simplify_eq. apply elem_of_map_to_list in I. eauto.
  - intros (k & E). exists ((c, k), x). split; [by apply elem_of_map_to_list|]. by rewrite bool_decide_true.
Qed.
Lemma NoDup_rows_of {A} (rows : gmap (bytes * bytes) A) c (key : A -> bytes) :
  (forall k x, rows !! (c, k) = Some x -> key x = k) -> NoDup (rows_of rows c).
Proof.
  intros K. apply NoDup_omap; [|apply NoDup_map_to_list].
  intros [[c1 k1] x1] [[c2 k2] x2] b I1%elem_of_map_to_list I2%elem_of_map_to_list.
  repeat case_bool_decide; intros; simplify_eq. f_equal. f_equal. by rewrite <- (K _ _ I1), <- (K _ _ I2).
Qed.

(** ** Indexed tables *)
Section table.
Context {A : Type} (key : A -> bytes).
Implicit Types (rows : gmap (bytes * bytes) (Z * A)) (l : list A).

(** The rows of chat [c] are the elements of [l] at their positions. *)
Definition table rows (c : bytes) l : Prop :=
  forall k i x, rows !! (c, k) = Some (i, x) <-> exists n, i = Z.of_nat n /\ l !! n = Some x /\ key x = k.

Lemma table_row rows c l n x : table rows c l -> l !! n = Some x -> rows !! (c, key x) = Some (Z.of_nat n, x).
Proof. intros T E. apply T. eauto. Qed.
Lemma table_NoDup rows c l : table rows c l -> NoDup (key <$> l).
Proof.
  intros T. apply NoDup_alt. intros i j k. rewrite !list_lookup_fmap.
  destruct (l !! i) as [x|] eqn:Ei, (l !! j) as [y|] eqn:Ej; cbn; intros [= Kx] [= Ky].
  apply (table_row _ _ _ _ _ T) in Ei, Ej. rewrite Kx in Ei. rewrite Ky, Ei in Ej. simplify_eq. done.
Qed.
Lemma table_load rows c l : table rows c l -> sort_by by_index (rows_of rows c) = enumerate l.
Proof.
  intros T. assert (X : forall i x, (i, x) ∈ rows_of rows c <-> exists n, i = Z.of_nat n /\ l !! n = Some x).
  { intros i x. rewrite elem_of_rows_of. split; [intros (k & (n & ? & ? & _)%T); eauto|intros (n & -> & E); exists (key x); by apply (table_row _ _ l)]. }
  assert (C : Comparison (@by_index A)).
  { unfold by_index. split; [intros a b; rewrite !Z.leb_le; lia|intros a b d; rewrite !Z.leb_le; lia]. }
  apply (sorted_unique by_index).
  - intros [i x] [j y]. rewrite !sort_by_perm, !X. unfold by_index. cbn. intros (n & -> & E) (m & -> & E') H1 H2. bool_prop.
    assert (n = m) as -> by lia. congruence.
  - rewrite sort_by_perm. apply NoDup_Permutation.
    + apply (NoDup_rows_of _ _ (fun p => key p.2)). intros k [i x] (n & _ & _ & E)%T. done.
    + apply NoDup_enumerate.
    + intros [i x]. by rewrite X, elem_of_enumerate.
  - apply sort_by_sorted, C.
  - apply enumerate_sorted.
Qed.

(** A statement on another chat. *)
Lemma table_other rows c c' k v l : c' <> c -> table rows c' l -> table (<[(c, k) := v]> rows) c' l.
Proof. intros N T k' i x. rewrite lookup_insert_ne by congruence. apply T. Qed.
(** The first write of an element, and a later one. *)
Lemma table_append rows c l x :
  table rows c l -> key x ∉ key <$> l ->
  table (<[(c, key x) := (Z.of_nat (length l), x)]> rows) c (l ++ [x]).
Proof.
  intros T N k i y. destruct (decide (k = key x)) as [->|K].
  - rewrite lookup_insert_eq. split.
    + intros [= <- <-]. exists (length l). by rewrite list_lookup_middle.
    + intros (n & -> & [E|(L & E)]%lookup_app_Some & Ky); [destruct N; rewrite <- Ky; apply list_elem_of_fmap; exists y;
        split; [done|by eapply list_elem_of_lookup_2]|].
      apply list_lookup_singleton_Some in E as (? & ->). repeat f_equal. lia.
  - rewrite lookup_insert_ne by congruence. rewrite (T k i y). split; intros (n & -> & E & Ky); exists n; split_and!; try done.
    + by apply lookup_app_l_Some.
    + apply lookup_app_Some in E as [E|(_ & E)]; [done|]. apply list_lookup_singleton_Some in E as (_ & <-). congruence.
Qed.
Lemma table_replace rows c l n x y :
  table rows c l -> l !! n = Some y -> key y = key x ->
  table (<[(c, key x) := (Z.of_nat n, x)]> rows) c (<[n := x]> l).
Proof.
  intros T En Ky k i z. pose proof (table_NoDup _ _ _ T) as N. pose proof (lookup_lt_Some _ _ _ En).
  destruct (decide (k = key x)) as [->|K].
  - rewrite lookup_insert_eq. split.
    + intros [= <- <-]. exists n. by rewrite list_lookup_insert_eq.
    + intros (m & -> & E & Kz). destruct (decide (m = n)) as [->|M].
      { rewrite list_lookup_insert_eq in E by done. congruence. }
      rewrite list_lookup_insert_ne in E by done. destruct M. eapply lookup_key_unique; [done..|congruence].
  - rewrite lookup_insert_ne by congruence. rewrite (T k i z). split; intros (m & -> & E & Kz); exists m; split_and!; try done.
    + rewrite list_lookup_insert_ne; [done|]. intros <-. congruence.
    + destruct (decide (m = n)) as [->|M]; [rewrite list_lookup_insert_eq in E by done; congruence|].
      by rewrite list_lookup_insert_ne in E.
Qed.

Definition same_key (x y : A) : bool := bool_decide (key y = key x).
(** An upsert of the list, as the statement that stores the element at its position. *)
Lemma table_upsert rows c l x n :
  table rows c l -> position (same_key x) (upsert (same_key x) x l) = Some n ->
  table (<[(c, key x) := (Z.of_nat n, x)]> rows) c (upsert (same_key x) x l)
  /\ index_free rows c (key x) (Z.of_nat n) = true /\ (n <= length l)%nat.
Proof.
  intros T. pose proof (table_NoDup _ _ _ T) as N. unfold upsert.
  assert (F : forall n, (l !! n = None \/ exists y, l !! n = Some y /\ key y = key x) -> index_free rows c (key x) (Z.of_nat n) = true).
  { intros m Hm. apply forallb_forall. intros [[c' k] [j y]] I. apply list_elem_of_In, elem_of_map_to_list in I.
    case_bool_decide; [|done]. subst. destruct (j =? Z.of_nat m) eqn:E; [|done]. bool_prop. cbn. apply bool_decide_eq_true.
    apply T in I as (m' & -> & E' & <-). assert (m' = m) as -> by lia. destruct Hm as [?|(z & ? & ?)]; congruence. }
  destruct (position (same_key x) l) as [m|] eqn:P.
  - apply position_Some in P as (y & Ey & Ky). unfold same_key in Ky. bool_prop. pose proof (lookup_lt_Some _ _ _ Ey) as Lm.
    assert (Nx : NoDup (key <$> <[m := x]> l)).
    { rewrite list_fmap_insert, list_insert_id; [done|]. by rewrite list_lookup_fmap, Ey, <- Ky. }
    unfold same_key at 1. rewrite (position_unique key _ m x Nx) by (by apply list_lookup_insert_eq). intros [= <-].
    split_and!; [by eapply table_replace|apply F; right; eauto|lia].
  - apply position_key in P. assert (Nx : NoDup (key <$> (l ++ [x]))).
    { rewrite fmap_app. apply NoDup_app. split_and!; [done|set_solver|apply NoDup_singleton]. }
    unfold same_key. rewrite (position_unique key _ (length l) x Nx) by (by rewrite list_lookup_middle). intros [= <-].
    split_and!; [by apply table_append|apply F; left; by apply lookup_ge_None|lia].
Qed.
End table.

Lemma position_ext {A} (p q : A -> bool) l : (forall x, p x = q x) -> position p l = position q l.
Proof. intros E. induction l as [|x l IH]; cbn; [done|]. by rewrite E, IH. Qed.
Lemma upsert_ext {A} (p q : A -> bool) x l : (forall y, p y = q y) -> upsert p x l = upsert q x l.
Proof. intros E. unfold upsert. by rewrite (position_ext p q). Qed.
Lemma position_fmap {A K} (f : A -> K) `{EqDecision K} k l :
  position (fun y => bool_decide (f y = k)) l = position (fun y => bool_decide (y = k)) (f <$> l).
Proof. induction l as [|x l IH]; cbn; [done|]. by rewrite IH. Qed.
Lemma position_upsert {A K} (f : A -> K) `{EqDecision K} x l :
  is_Some (position (fun y => bool_decide (f y = f x)) (upsert (fun y => bool_decide (f y = f x)) x l)).
Proof.
  destruct (position _ _) eqn:P; [done|]. exfalso. apply position_key in P. apply P.
  apply list_elem_of_fmap. exists x. split; [done|apply upsert_elem].
Qed.

(** ** Memory and storage

    A list in memory and the list its rows encode: the same elements, up to those
    whose latest value need not be durable yet. *)
Section agreement.
Context {A : Type} (key : A -> bytes) (settled : A -> bool).
Implicit Types (m t : list A).
Definition agrees m t : Prop := Forall2 (fun x y => key x = key y /\ (settled x = true -> y = x)) m t.

Lemma agrees_refl m : agrees m m.
Proof. by apply Forall_Forall2_diag, Forall_forall. Qed.
Lemma agrees_keys m t : agrees m t -> key <$> m = key <$> t.
Proof. induction 1 as [|x y m t [E _] _ IH]; cbn; congruence. Qed.
Lemma agrees_position m t k :
  agrees m t -> position (fun y => bool_decide (key y = k)) m = position (fun y => bool_decide (key y = k)) t.
Proof. intros Ag. by rewrite (position_fmap key k m), (position_fmap key k t), (agrees_keys m t). Qed.
Lemma agrees_upsert m t x : agrees m t -> agrees (upsert (same_key key x) x m) (upsert (same_key key x) x t).
Proof.
  intros Ag. unfold upsert, same_key. rewrite (agrees_position m t) by done.
  destruct (position _ t); [by apply Forall2_insert|]. apply Forall2_app; [done|by repeat constructor].
Qed.
Lemma agrees_later m t n x y :
  agrees m t -> m !! n = Some y -> key y = key x -> settled x = false -> agrees (<[n := x]> m) t.
Proof.
  intros Ag E K S. apply Forall2_same_length_lookup. split.
  { rewrite length_insert. by eapply Forall2_length. }
  intros i a b. destruct (decide (i = n)) as [->|N].
  - rewrite list_lookup_insert_eq by (by eapply lookup_lt_Some). intros [= <-] Eb.
    destruct (Forall2_lookup_lr _ _ _ _ _ _ Ag E Eb) as [Kb _]. split; congruence.
  - rewrite list_lookup_insert_ne by done. intros Ea Eb. exact (Forall2_lookup_lr _ _ _ _ _ _ Ag Ea Eb).
Qed.
End agreement.

Lemma identity_key a b :
  timeline_entry_identity a = timeline_entry_identity b <-> timeline_entry_key a = timeline_entry_key b.
Proof.
  destruct a, b; cbn; unfold item_text, request_text, activity_text, str; cbn; split; intros E; simplify_eq; congruence.
Qed.
Lemma has_key_same e x : has_key (timeline_entry_key e) x = same_key timeline_entry_identity e x.
Proof. unfold has_key, same_key. apply bool_decide_ext. symmetry. apply identity_key. Qed.
Lemma has_item_id_key i x : has_item_id i x = has_key (KeyItem i) x.
Proof.
  destruct x; unfold has_key; cbn; [|by rewrite bool_decide_false..]. apply bool_decide_ext. naive_solver.
Qed.

(** ** The rows of a chat *)
Definition attachment_table (rows : gmap (bytes * bytes) ChatPromptAttachment) (c : bytes) (l : list ChatPromptAttachment) : Prop :=
  (forall k a, rows !! (c, k) = Some a <-> a ∈ l /\ attachment_id a = k)
  /\ StronglySorted attachment_before l /\ NoDup (attachment_id <$> l).
(** The durable state of chat [c] is [x]. *)
Record stored (d : Db) (c : bytes) (x : Chat) : Prop := {
  stored_row : exists r, chat_rows d !! c = Some r /\ row_archived r = false /\ row_check r = true
                         /\ summary x = row_summary c r;
  stored_turns : table turn_id (turn_rows d) c (turns x);
  stored_timeline : table timeline_entry_identity (entry_rows d) c (timeline x);
  stored_attachments : attachment_table (attachment_rows d) c (attachments x);
  stored_queue : queued_prompts x = []
}.

#[export] Instance attachment_comparison : Comparison attachment_before.
Proof.
  unfold attachment_before. split; [intros a b; apply bytes_leb_comparison|intros a b e; apply bytes_leb_comparison].
Qed.
Lemma attachment_ties l a b :
  NoDup (attachment_id <$> l) -> a ∈ l -> b ∈ l -> attachment_before a b = true -> attachment_before b a = true -> a = b.
Proof.
  intros N (i & Ea)%list_elem_of_lookup (j & Eb)%list_elem_of_lookup H1 H2.
  pose proof (bytes_leb_antisym _ _ H1 H2) as E.
  assert (i = j) as ->; [|congruence]. by eapply lookup_key_unique.
Qed.
Lemma load_attachments_eq d c l : attachment_table (attachment_rows d) c l -> load_attachments d c = l.
Proof.
  intros (T & S & N). unfold load_attachments.
  assert (P : rows_of (attachment_rows d) c ≡ₚ l).
  { apply NoDup_Permutation.
    - apply (NoDup_rows_of _ _ attachment_id). intros k a E. by apply T in E as [_ ?].
    - by apply NoDup_fmap_1 in N.
    - intros a. rewrite elem_of_rows_of. split; [intros (k & [? _]%T); done|intros I; exists (attachment_id a); by apply T]. }
  apply (sorted_unique attachment_before); [|by rewrite sort_by_perm|apply sort_by_sorted, _|done].
  intros a b. rewrite sort_by_perm, P. apply attachment_ties; done.
Qed.

(** Loading a chat returns its durable state. *)
Lemma materialize_stored d c x :
  stored d c x -> exists sc, load_chat d c = Some sc /\
  forall s, materialize_chat s sc = Ok (x <| summary := s |>).
Proof.
  intros [(r & E & Ar & _ & _) T L A Q]. unfold load_chat. rewrite E, Ar. eexists. split; [done|]. intros s.
  unfold materialize_chat, load_turns, load_timeline. cbn [sc_turns sc_timeline sc_attachments].
  rewrite (table_load _ _ _ _ T), (table_load _ _ _ _ L), (load_attachments_eq _ _ _ A).
  assert (X : forall B C (f : Z * B -> C) (g : C -> Z) (l : list B), (forall p, g (f p) = p.1) ->
    existsb (fun '(i, t) => negb (g t =? i)) (enumerate (map f (enumerate l))) = false).
  { intros B C f g l G. destruct (existsb _ _) eqn:Ex; [|done]. exfalso. apply existsb_exists in Ex as ([i t] & I & H).
    apply list_elem_of_In, elem_of_enumerate in I as (n & -> & E').
    change (map f (enumerate l)) with (f <$> enumerate l) in E'. rewrite list_lookup_fmap, lookup_enumerate in E'.
    destruct (l !! n); [|done]. cbn in E'. simplify_eq. rewrite G in H. cbn in H. bool_prop. lia. }
  rewrite (X _ _ (fun '(i, t) => {| stored_turn_chat := c; turn_index := i; stored_turn := t |}) turn_index) by (by intros []).
  rewrite (X _ _ (fun '(i, e) => {| stored_entry_chat := c; entry_index := i; stored_entry := e |}) entry_index) by (by intros []).
  assert (Y : forall B C (f : Z * B -> C) (g : C -> B) (l : list B), (forall p, g (f p) = p.2) ->
    map g (map f (enumerate l)) = l).
  { intros B C f g l G. rewrite map_map, <- (map_snd_enumerate l) at 1. rewrite map_snd_enumerate.
    rewrite <- (map_snd_enumerate l) at 2. by apply map_ext. }
  rewrite !Y by (by intros []). destruct x; cbn in *. by subst.
Qed.

(** ** Statements *)

(** Only rows of chat [c] change. *)
Record frame (c : bytes) (d d' : Db) : Prop := {
  frame_chats c' : c' <> c -> chat_rows d' !! c' = chat_rows d !! c';
  frame_turns c' k : c' <> c -> turn_rows d' !! (c', k) = turn_rows d !! (c', k);
  frame_entries c' k : c' <> c -> entry_rows d' !! (c', k) = entry_rows d !! (c', k);
  frame_attachments c' k : c' <> c -> attachment_rows d' !! (c', k) = attachment_rows d !! (c', k)
}.
Lemma frame_refl c d : frame c d d.
Proof. done. Qed.
Lemma frame_trans c d d' d'' : frame c d d' -> frame c d' d'' -> frame c d d''.
Proof.
  intros [A1 A2 A3 A4] [B1 B2 B3 B4].
  split; intros; [rewrite B1, A1|rewrite B2, A2|rewrite B3, A3|rewrite B4, A4]; done.
Qed.
Lemma stored_frame c c' d d' x : frame c d d' -> c' <> c -> stored d c' x -> stored d' c' x.
Proof.
  intros [F1 F2 F3 F4] N [R T L (A & S) Q]. split; [by rewrite F1|..|done].
  - intros k i t. rewrite F2 by done. apply T.
  - intros k i e. rewrite F3 by done. apply L.
  - split; [|done]. intros k a. rewrite F4 by done. apply A.
Qed.

Lemma store_turn_Ok s d d' :
  store_turn s d = Ok d' ->
  d' = d <| turn_rows := <[(stored_turn_chat s, turn_id (stored_turn s)) := (turn_index s, stored_turn s)]> (turn_rows d) |>.
Proof. unfold store_turn. case_match; [done|]. by intros [= <-]. Qed.
Lemma store_timeline_entry_Ok s d d' :
  store_timeline_entry s d = Ok d' ->
  d' = d <| entry_rows := <[(stored_entry_chat s, timeline_entry_identity (stored_entry s)) := (entry_index s, stored_entry s)]> (entry_rows d) |>.
Proof. unfold store_timeline_entry. case_match; [done|]. by intros [= <-]. Qed.
Lemma store_attachment_Ok s d d' :
  store_attachment s d = Ok d' ->
  d' = d <| attachment_rows := <[(stored_attachment_chat s, attachment_id (stored_attachment s)) := stored_attachment s]> (attachment_rows d) |>.
Proof. unfold store_attachment. case_match; [done|]. by intros [= <-]. Qed.

Lemma frame_turn_rows c d k v : frame c d (d <| turn_rows := <[(c, k) := v]> (turn_rows d) |>).
Proof. split; intros; cbn; try done. apply lookup_insert_ne. congruence. Qed.
Lemma frame_entry_rows c d k v : frame c d (d <| entry_rows := <[(c, k) := v]> (entry_rows d) |>).
Proof. split; intros; cbn; try done. apply lookup_insert_ne. congruence. Qed.
Lemma frame_attachment_rows c d k v : frame c d (d <| attachment_rows := <[(c, k) := v]> (attachment_rows d) |>).
Proof. split; intros; cbn; try done. apply lookup_insert_ne. congruence. Qed.
Lemma frame_chat_rows c d v : frame c d (d <| chat_rows := <[c := v]> (chat_rows d) |>).
Proof. split; intros; cbn; try done. by apply lookup_insert_ne. Qed.

Lemma stored_turn_write d c x n t :
  stored d c x -> position (same_key turn_id t) (upsert (same_key turn_id t) t (turns x)) = Some n ->
  stored (d <| turn_rows := <[(c, turn_id t) := (Z.of_nat n, t)]> (turn_rows d) |>) c
         (x <| turns := upsert (same_key turn_id t) t (turns x) |>).
Proof. intros [R T L A Q] P. split; try done. by apply table_upsert. Qed.
Lemma stored_entry_write d c x n e :
  stored d c x ->
  position (same_key timeline_entry_identity e) (upsert (same_key timeline_entry_identity e) e (timeline x)) = Some n ->
  stored (d <| entry_rows := <[(c, timeline_entry_identity e) := (Z.of_nat n, e)]> (entry_rows d) |>) c
         (x <| timeline := upsert (same_key timeline_entry_identity e) e (timeline x) |>).
Proof. intros [R T L A Q] P. split; try done. by apply table_upsert. Qed.

(** The reducer's treatment of an attachment. *)
Definition upsert_sorted (a : ChatPromptAttachment) (l : list ChatPromptAttachment) : list ChatPromptAttachment :=
  match position (has_attachment_id (attachment_id a)) l with
  | Some i => <[i := a]> l
  | None => sort_by attachment_before (l ++ [a])
  end.
Lemma upsert_sorted_perm a l : upsert_sorted a l ≡ₚ upsert (has_attachment_id (attachment_id a)) a l.
Proof. unfold upsert_sorted, upsert. destruct (position _ l); [done|apply sort_by_perm]. Qed.
Lemma sorted_insert_key i a y l :
  l !! i = Some y -> attachment_id y = attachment_id a ->
  StronglySorted attachment_before l -> StronglySorted attachment_before (<[i := a]> l).
Proof.
  intros E K S. revert i E. induction S as [|z l S IH F]; intros [|i] E; cbn in *; [done|done| |].
  - injection E as ->. constructor; [done|]. eapply Forall_impl; [exact F|]. intros b. unfold attachment_before. by rewrite K.
  - constructor; [by apply IH|]. apply Forall_insert; [done|]. rewrite Forall_lookup in F. specialize (F _ _ E).
    unfold attachment_before in *. by rewrite <- K.
Qed.
Lemma upsert_sorted_sorted a l : StronglySorted attachment_before l -> StronglySorted attachment_before (upsert_sorted a l).
Proof.
  intros S. unfold upsert_sorted, has_attachment_id. destruct (position _ l) as [i|] eqn:P; [|apply sort_by_sorted, _].
  apply position_Some in P as (y & E & K). bool_prop. by eapply sorted_insert_key.
Qed.
Lemma stored_attachment_write d c x a :
  stored d c x ->
  stored (d <| attachment_rows := <[(c, attachment_id a) := a]> (attachment_rows d) |>) c
         (x <| attachments := upsert_sorted a (attachments x) |>).
Proof.
  intros [R T L (A & S & N) Q]. split; try done. split_and!; [|by apply upsert_sorted_sorted|cbn; rewrite upsert_sorted_perm; by apply upsert_NoDup].
  intros k b. cbn. rewrite upsert_sorted_perm. unfold has_attachment_id. rewrite elem_of_upsert by done. destruct (decide (k = attachment_id a)) as [->|K].
  - rewrite lookup_insert_eq. naive_solver.
  - rewrite lookup_insert_ne by congruence. rewrite A. naive_solver.
Qed.

(** ** Updates

    The durable part of a summary, and how far storage may be behind memory: a
    running turn and a started item may be newer in memory. *)
Definition durable_summary (s : ChatSummary) : ChatSummary :=
  s <| binding := None |> <| last_binding_error := None |> <| agent_status := Idle |>.
Definition turn_settled (t : ChatTurn) : bool := negb (bool_decide (turn_state t = TurnRunning)).
Record behind (m x : Chat) : Prop := {
  behind_summary : summary x = durable_summary (summary m);
  behind_turns : agrees turn_id turn_settled (turns m) (turns x);
  behind_timeline : agrees timeline_entry_identity timeline_entry_is_terminal (timeline m) (timeline x);
  behind_attachments : attachments x = attachments m
}.
Definition keeps_identity (mu : ChatMutation) (m : Chat) : Prop :=
  match mu with
  | UpdateSummary s => purpose s = purpose (summary m) /\ created_at s = created_at (summary m)
  | _ => True
  end.

(** Writing the summary. *)
Lemma store_summary_stored s d d' c m x :
  stored d c x -> summary x = durable_summary (summary m) -> chat_id s = c ->
  purpose s = purpose (summary m) -> created_at s = created_at (summary m) ->
  store_summary s d = Ok d' -> stored d' c (x <| summary := durable_summary s |>) /\ frame c d d'.
Proof.
  intros [(r & E & Ar & Ck & R) T L A Q] B <- Hp Hc. unfold store_summary. rewrite E. case_match eqn:K; [|done]. intros [= <-].
  split; [|apply frame_chat_rows]. split; try done. cbn. eexists. rewrite lookup_insert_eq. split_and!; [done|done|done|].
  rewrite R in B. injection B as _ _ _ _ Bp _ _ _ _ Bc _. unfold durable_summary, row_summary. cbn. rewrite Bp, Bc, <- Hp, <- Hc. done.
Qed.

Lemma upsert_turn_eq t l : upsert (has_turn_id (turn_id t)) t l = upsert (same_key turn_id t) t l.
Proof. done. Qed.
Lemma upsert_timeline_eq e m next :
  apply_chat_mutation m (UpsertTimelineEntry e) = Ok next ->
  next = m <| timeline := upsert (same_key timeline_entry_identity e) e (timeline m) |>.
Proof.
  cbn. rewrite (position_ext _ _ _ (has_key_same e)). unfold upsert. destruct (position _ _) as [i|]; [|by intros [= <-]].
  destruct (timeline m !! i); [|done]. intros (? & _ & [= <-])%obind_Ok. done.
Qed.
Lemma attachment_mutation a m : apply_chat_mutation m (UpsertAttachment a) = Ok (m <| attachments := upsert_sorted a (attachments m) |>).
Proof. cbn. unfold upsert_sorted. by destruct (position _ _). Qed.
Lemma find_timeline_item_Some i l n x :
  find_timeline_item i l = Some (n, x) -> l !! n = Some (Item x) /\ item_id x = i /\ position (has_item_id i) l = Some n.
Proof.
  unfold find_timeline_item. destruct (position _ l) as [k|] eqn:P; [|done]. pose proof (position_Some _ _ _ P) as (y & E & H).
  rewrite E. destruct y; [|done..]. intros [= -> ->]. cbn in H. bool_prop. done.
Qed.

(** The database after one update. *)
Definition commits (u : DurableUpdate) (d d' : Db) : Prop :=
  if is_empty u then d' = d else apply_durable_update u d = Ok d'.

(** What an update must establish. *)
Definition carried (d d' : Db) (c : bytes) (next : Chat) : Prop :=
  exists x', stored d' c x' /\ behind next x' /\ frame c d d'.

Section update.
Context (d : Db) (c : bytes) (m x : Chat).
Hypothesis St : stored d c x.
Hypothesis Be : behind m x.

Lemma carried_same next : behind next x -> carried d d c next.
Proof using St. intros B. exists x. split_and!; [done|done|apply frame_refl]. Qed.

Lemma carried_turn t i d' :
  let next := m <| turns := upsert (same_key turn_id t) t (turns m) |> in
  position (has_turn_id (turn_id t)) (turns next) = Some i ->
  store_turn {| stored_turn_chat := c; turn_index := Z.of_nat i; stored_turn := t |} d = Ok d' -> carried d d' c next.
Proof using St Be.
  intros next P ->%store_turn_Ok. destruct Be as [Bs Bt Bl Ba]. cbn in *.
  pose proof (agrees_upsert _ _ _ _ t Bt) as Bt'. unfold has_turn_id in P. rewrite (agrees_position _ _ _ _ _ Bt') in P.
  eexists. split_and!; [by apply stored_turn_write|by split|apply frame_turn_rows].
Qed.
Lemma carried_entry e i d' :
  let next := m <| timeline := upsert (same_key timeline_entry_identity e) e (timeline m) |> in
  position (has_key (timeline_entry_key e)) (timeline next) = Some i ->
  store_timeline_entry {| stored_entry_chat := c; entry_index := Z.of_nat i; stored_entry := e |} d = Ok d' ->
  carried d d' c next.
Proof using St Be.
  intros next P ->%store_timeline_entry_Ok. destruct Be as [Bs Bt Bl Ba]. cbn in *.
  rewrite (position_ext _ _ _ (has_key_same e)) in P. unfold same_key at 1 in P.
  pose proof (agrees_upsert _ _ _ _ e Bl) as Bl'. rewrite (agrees_position _ _ _ _ _ Bl') in P.
  eexists. split_and!; [by apply stored_entry_write|by split|apply frame_entry_rows].
Qed.
Lemma carried_later n e e' :
  timeline m !! n = Some e' -> timeline_entry_identity e' = timeline_entry_identity e -> timeline_entry_is_terminal e = false ->
  carried d d c (m <| timeline := <[n := e]> (timeline m) |>).
Proof using St Be.
  intros E K S. apply carried_same. destruct Be as [Bs Bt Bl Ba]. split; try done. by eapply agrees_later.
Qed.
End update.

Lemma commits_entry c d d' s :
  commits (no_update <| du_chat_id := Some c |> <| du_timeline := [s] |>) d d' -> store_timeline_entry s d = Ok d'.
Proof. unfold commits. cbn. intros (d1 & E & H)%obind_Ok. cbn in H. apply obind_Ok in E as (d2 & E & [= <-]). by simplify_eq. Qed.
Lemma commits_turn c d d' s :
  commits (no_update <| du_chat_id := Some c |> <| du_turns := [s] |>) d d' -> store_turn s d = Ok d'.
Proof. unfold commits. cbn. intros (d1 & E & H)%obind_Ok. cbn in H. apply obind_Ok in E as (d2 & E & [= <-]). by simplify_eq. Qed.
Lemma commits_attachment c d d' s :
  commits (no_update <| du_chat_id := Some c |> <| du_attachments := [s] |>) d d' -> store_attachment s d = Ok d'.
Proof. unfold commits. cbn. intros (d1 & E & [= <-])%obind_Ok. done. Qed.
Lemma commits_summary c d d' s :
  commits (no_update <| du_chat_id := Some c |> <| du_summary := Some s |>) d d' -> store_summary s d = Ok d'.
Proof. unfold commits. cbn. intros (d1 & E & [= <-])%obind_Ok. done. Qed.

Lemma existsb_position {A} (p : A -> bool) l : existsb p l = true -> exists i y, position p l = Some i /\ l !! i = Some y /\ p y = true.
Proof.
  intros H. destruct (position p l) as [i|] eqn:P; [destruct (position_Some _ _ _ P) as (y & ? & ?); eauto|].
  apply position_None in P. apply existsb_exists in H as (y & I & H). rewrite Forall_forall in P.
  rewrite P in H; [done|by apply list_elem_of_In].
Qed.
Lemma position_item_insert i n x l :
  position (has_item_id i) l = Some n -> item_id x = i -> position (has_item_id i) (<[n := Item x]> l) = Some n.
Proof.
  intros P <-. revert n P. induction l as [|y l IH]; intros n P; cbn in *; [done|]. destruct (has_item_id _ y) eqn:H.
  - injection P as <-. cbn. by rewrite bool_decide_true.
  - destruct (position _ l) as [k|] eqn:Pl; [|done]. injection P as <-. cbn. by rewrite H, IH.
Qed.

(** Every mutation that is applied keeps storage at most [behind] memory. *)
Lemma durable_update_carried d d' c m x mu next u :
  stored d c x -> behind m x -> chat_id (summary m) = c -> keeps_identity mu m ->
  apply_chat_mutation m mu = Ok next -> durable_update c mu m next = Ok u -> commits u d d' -> carried d d' c next.
Proof.
  intros St Be Id Ki Ap. destruct mu as [s|t|e|i delta|i ti|q|a]; cbn [durable_update].
  - intros [= <-] C%commits_summary. cbn in Ap. case_match; [done|]. simplify_eq. bool_prop. destruct Be as [Bs Bt Bl Ba].
    destruct Ki as [Kp Kc]. eapply store_summary_stored in C as (St' & F); [|done..].
    eexists. split_and!; [done|by split|done].
  - injection Ap as <-. case_match eqn:W.
    + case_match eqn:P; [|done]. intros [= <-] C%commits_turn. eapply carried_turn; done.
    + intros [= <-] ->. bool_prop. apply existsb_position in H0 as (n & y & P & E & K).
      apply (carried_same _ _ _ St). destruct Be as [Bs Bt Bl Ba]. split; try done. cbn. unfold upsert. rewrite P.
      unfold has_turn_id in K. bool_prop. apply (agrees_later _ _ _ _ n _ y); try done.
      unfold turn_settled. by rewrite bool_decide_true.
  - apply upsert_timeline_eq in Ap as ->. case_match eqn:W.
    + case_match eqn:P; [|done]. intros [= <-] C%commits_entry. eapply carried_entry; done.
    + intros [= <-] ->. bool_prop. apply existsb_position in H0 as (n & y & P & E & K).
      rewrite (position_ext _ _ _ (has_key_same e)) in P. unfold has_key in K. bool_prop. apply identity_key in K.
      unfold upsert. rewrite P. by eapply carried_later.
  - intros [= <-] ->. cbn in Ap. destruct (find_timeline_item i (timeline m)) as [[n item]|] eqn:Fi; [|done].
    apply find_timeline_item_Some in Fi as (E & <- & P). case_match eqn:S; [done|]. bool_prop.
    destruct (text_content_index _); [|done]. destruct (content item !! _) as [[]|]; try done. injection Ap as <-.
    eapply carried_later; [done|done|done|done|]. cbn. by rewrite S, bool_decide_true.
  - cbn in Ap. destruct (find_timeline_item i (timeline m)) as [[n item]|] eqn:Fi; [|done].
    apply find_timeline_item_Some in Fi as (E & <- & P). case_match eqn:S; [done|]. injection Ap as <-. cbn.
    set (item' := item <| item_state := ItemCompleted |> <| item_completed_at := Some ti |>).
    rewrite (position_item_insert _ _ item' _ P) by done. rewrite list_lookup_insert_eq by (by eapply lookup_lt_Some).
    intros [= <-] C%commits_entry.
    pose proof (carried_entry d c m x St Be (Item item') n d') as X. cbn in X.
    assert (U : upsert (same_key timeline_entry_identity (Item item')) (Item item') (timeline m) = <[n := Item item']> (timeline m)).
    { unfold upsert. rewrite <- (position_ext (has_item_id (item_id item))); [by rewrite P|].
      intros y. rewrite has_item_id_key. apply (has_key_same (Item item')). }
    rewrite U in X. apply X; [|done]. rewrite <- (position_ext (has_item_id (item_id item))); [by apply position_item_insert|].
    intros y. apply has_item_id_key.
  - intros [= <-] ->. injection Ap as <-. apply (carried_same _ _ _ St). by destruct Be.
  - rewrite attachment_mutation in Ap. injection Ap as <-. intros [= <-] ->%commits_attachment%store_attachment_Ok.
    destruct Be as [Bs Bt Bl Ba]. eexists. split_and!; [by apply stored_attachment_write|split; cbn; try done; by rewrite Ba|apply frame_attachment_rows].
Qed.

(** ** Checkpoints *)
Lemma for_each_map {A B} (f : B -> Db -> outcome StateLayerError Db) (g : A -> B) l d :
  for_each f (map g l) d = for_each (fun a => f (g a)) l d.
Proof. revert d. induction l as [|a l IH]; intros d; cbn; [done|]. destruct (f (g a) d); cbn; [apply IH|done..]. Qed.

(** Writing every element of a list over rows with the same keys. *)
Section overwrite.
Context {A : Type} (key : A -> bytes) (c : bytes) (write : Z * A -> Db -> outcome StateLayerError Db).
Context (rep : Db -> list A -> Prop).
Hypothesis write_rep : forall d d' l n a b,
  rep d l -> l !! n = Some b -> key b = key a -> write (Z.of_nat n, a) d = Ok d' -> rep d' (<[n := a]> l) /\ frame c d d'.
Hypothesis write_succeeds : forall d l n a b,
  rep d l -> l !! n = Some b -> key b = key a -> Z.of_nat n <= i64_max -> exists d', write (Z.of_nat n, a) d = Ok d'.

Lemma overwrite_from s : forall p t d d',
  rep d (p ++ t) -> key <$> s = key <$> t ->
  for_each write (imap (fun i a => (Z.of_nat (length p + i), a)) s) d = Ok d' -> rep d' (p ++ s) /\ frame c d d'.
Proof using write_rep.
  induction s as [|a s IH]; intros p [|b t] d d' R K; cbn in K; try done.
  { intros [= <-]. split; [done|apply frame_refl]. }
  injection K as Ka Ks. cbn. rewrite Nat.add_0_r. intros (d1 & W & F)%obind_Ok.
  assert (Eb : (p ++ b :: t) !! length p = Some b) by apply list_lookup_middle, eq_refl.
  destruct (write_rep _ _ _ _ _ _ R Eb (eq_sym Ka) W) as [R1 F1].
  rewrite insert_app_r_alt, Nat.sub_diag in R1 by lia. cbn in R1. rewrite cons_middle, app_assoc in R1.
  destruct (IH (p ++ [a]) t d1 d' R1 Ks) as [R2 F2].
  - rewrite <- F. f_equal. apply imap_ext. intros i y _. cbn. rewrite length_app. cbn. f_equal. lia.
  - rewrite <- app_assoc in R2. split; [done|by eapply frame_trans].
Qed.
Lemma overwrite_succeeds s : forall p t d,
  rep d (p ++ t) -> key <$> s = key <$> t -> Z.of_nat (length p + length s) <= i64_max + 1 ->
  exists d', for_each write (imap (fun i a => (Z.of_nat (length p + i), a)) s) d = Ok d'.
Proof using write_rep write_succeeds.
  induction s as [|a s IH]; intros p [|b t] d R K L; cbn in K; try done; [by eexists|].
  injection K as Ka Ks. cbn. rewrite Nat.add_0_r. cbn in L.
  assert (Eb : (p ++ b :: t) !! length p = Some b) by apply list_lookup_middle, eq_refl.
  destruct (write_succeeds _ _ _ _ _ R Eb (eq_sym Ka) ltac:(lia)) as (d1 & W). rewrite W. cbn.
  destruct (write_rep _ _ _ _ _ _ R Eb (eq_sym Ka) W) as [R1 F1].
  rewrite insert_app_r_alt, Nat.sub_diag in R1 by lia. cbn in R1. rewrite cons_middle, app_assoc in R1.
  destruct (IH (p ++ [a]) t d1 R1 Ks) as (d' & E); [rewrite length_app; cbn; lia|]. exists d'. rewrite <- E. f_equal.
  apply imap_ext. intros i y _. cbn. rewrite length_app. cbn. f_equal. lia.
Qed.
End overwrite.

Lemma index_free_true {A} (key : A -> bytes) rows c l n a b :
  table key rows c l -> l !! n = Some b -> key b = key a -> index_free rows c (key a) (Z.of_nat n) = true.
Proof.
  intros T E K. apply forallb_forall. intros [[c' k] [j y]] I. apply list_elem_of_In, elem_of_map_to_list in I.
  case_bool_decide; [|done]. subst. destruct (j =? Z.of_nat n) eqn:J; [|done]. bool_prop. cbn. apply bool_decide_eq_true.
  apply T in I as (m' & -> & E' & <-). assert (m' = n) as -> by lia. congruence.
Qed.

Section checkpoint.
Context (c : bytes).
Definition write_turn (p : Z * ChatTurn) := store_turn {| stored_turn_chat := c; turn_index := p.1; stored_turn := p.2 |}.
Definition write_entry (p : Z * ChatTimelineEntry) :=
  store_timeline_entry {| stored_entry_chat := c; entry_index := p.1; stored_entry := p.2 |}.
Definition write_attachment (a : ChatPromptAttachment) :=
  store_attachment {| stored_attachment_chat := c; stored_attachment := a |}.

Lemma write_turn_rep x d d' l n a b :
  stored d c (x <| turns := l |>) -> l !! n = Some b -> turn_id b = turn_id a -> write_turn (Z.of_nat n, a) d = Ok d' ->
  stored d' c (x <| turns := <[n := a]> l |>) /\ frame c d d'.
Proof.
  intros [R T L A Q] E K ->%store_turn_Ok. split; [|apply frame_turn_rows]. split; try done. by eapply table_replace.
Qed.
Lemma write_turn_succeeds x d l n a b :
  stored d c (x <| turns := l |>) -> l !! n = Some b -> turn_id b = turn_id a -> Z.of_nat n <= i64_max ->
  exists d', write_turn (Z.of_nat n, a) d = Ok d'.
Proof.
  intros [(r & Er & _) T L A Q] E K B. unfold write_turn, store_turn. cbn. rewrite Er, bool_decide_true by done.
  rewrite (index_free_true turn_id _ _ _ _ _ _ T E K). assert ((i64_max <? Z.of_nat n) = false) as -> by (apply Z.ltb_ge; lia). by eexists.
Qed.
Lemma write_entry_rep x d d' l n a b :
  stored d c (x <| timeline := l |>) -> l !! n = Some b -> timeline_entry_identity b = timeline_entry_identity a ->
  write_entry (Z.of_nat n, a) d = Ok d' -> stored d' c (x <| timeline := <[n := a]> l |>) /\ frame c d d'.
Proof.
  intros [R T L A Q] E K ->%store_timeline_entry_Ok. split; [|apply frame_entry_rows]. split; try done. by eapply table_replace.
Qed.
Lemma write_entry_succeeds x d l n a b :
  stored d c (x <| timeline := l |>) -> l !! n = Some b -> timeline_entry_identity b = timeline_entry_identity a ->
  Z.of_nat n <= i64_max -> exists d', write_entry (Z.of_nat n, a) d = Ok d'.
Proof.
  intros [(r & Er & _) T L A Q] E K B. unfold write_entry, store_timeline_entry. cbn. rewrite Er, bool_decide_true by done.
  rewrite (index_free_true timeline_entry_identity _ _ _ _ _ _ L E K).
  assert ((i64_max <? Z.of_nat n) = false) as -> by (apply Z.ltb_ge; lia). by eexists.
Qed.
(** Attachments are durable as soon as they are known: writing them again changes
    nothing. *)
Lemma write_attachments x l : forall d,
  stored d c x -> (forall a, a ∈ l -> a ∈ attachments x) -> for_each write_attachment l d = Ok d.
Proof.
  induction l as [|a l IH]; intros d St I; [done|]. destruct St as [(r & Er & R) T L (A & S) Q] eqn:Es. cbn.
  unfold write_attachment at 1, store_attachment. cbn. rewrite Er, bool_decide_true by done. cbn.
  rewrite insert_id by (apply A; split; [apply I; set_solver|done]). replace (d <| attachment_rows := attachment_rows d |>) with d by by destruct d.
  apply IH; [done|set_solver].
Qed.
End checkpoint.

(** What a checkpoint makes durable: all of the chat but its runtime state. *)
Definition durable_chat (m : Chat) : Chat :=
  m <| summary := durable_summary (summary m) |> <| queued_prompts := [] |>.
Lemma behind_durable m : behind m (durable_chat m).
Proof. split; [done|apply agrees_refl..|done]. Qed.

Lemma store_summary_same d c m x :
  stored d c x -> summary x = durable_summary (summary m) -> chat_id (summary m) = c ->
  exists d', store_summary (summary m) d = Ok d' /\ stored d' c x /\ frame c d d'.
Proof.
  intros St B Id. pose proof (store_summary_stored (summary m) d) as X.
  destruct St as [(r & Er & Ar & Ck & R) ? ? ? ?] eqn:Es.
  assert (exists d', store_summary (summary m) d = Ok d') as (d' & E).
  { unfold store_summary. rewrite Id, Er. rewrite R in B. injection B as _ _ _ _ _ _ _ Hc Ht _ _.
    unfold row_check in *. cbn. rewrite <- Hc, <- Ht, Ck. by eexists. }
  exists d'. split; [done|]. eapply X in E as (St' & F); [|done..]. split; [|done].
  rewrite <- B in St'. by destruct x.
Qed.
Lemma checkpoint_update_eq m d :
  apply_durable_update (checkpoint_update m) d =
  (let? d1 := store_summary (summary m) d in
   let? d3 := for_each (write_turn (chat_id (summary m))) (enumerate (turns m)) d1 in
   let? d4 := for_each (write_entry (chat_id (summary m))) (enumerate (timeline m)) d3 in
   for_each (write_attachment (chat_id (summary m))) (attachments m) d4).
Proof.
  assert (X : forall A (f g : A -> Db -> outcome StateLayerError Db) l e, (forall a e, f a e = g a e) -> for_each f l e = for_each g l e).
  { intros A f g l. induction l as [|a l IH]; intros e Fg; cbn; [done|]. rewrite Fg. destruct (g a e); cbn; auto. }
  unfold apply_durable_update. cbn. destruct (store_summary (summary m) d); cbn; [|done..].
  rewrite for_each_map, (X _ _ (write_turn (chat_id (summary m)))) by (by intros []).
  destruct (for_each _ (enumerate (turns m)) _); cbn; [|done..].
  rewrite for_each_map, (X _ _ (write_entry (chat_id (summary m)))) by (by intros []).
  destruct (for_each _ (enumerate (timeline m)) _); cbn; [|done..]. by rewrite for_each_map.
Qed.
Lemma checkpoint_turns d c x l :
  stored d c x -> turn_id <$> l = turn_id <$> turns x ->
  (forall d', for_each (write_turn c) (enumerate l) d = Ok d' -> stored d' c (x <| turns := l |>) /\ frame c d d')
  /\ (len l <= i64_max -> exists d', for_each (write_turn c) (enumerate l) d = Ok d').
Proof.
  intros St K. set (rep d l := stored d c (x <| turns := l |>)).
  assert (R : rep d ([] ++ turns x)) by (by destruct x). split.
  - intros d' E. apply (overwrite_from turn_id c (write_turn c) rep ltac:(intros *; apply write_turn_rep) l [] (turns x)); done.
  - intros L. apply (overwrite_succeeds turn_id c (write_turn c) rep ltac:(intros *; apply write_turn_rep)
      ltac:(intros *; apply write_turn_succeeds) l [] (turns x)); [done|done|unfold len in L; cbn; lia].
Qed.
Lemma checkpoint_timeline d c x l :
  stored d c x -> timeline_entry_identity <$> l = timeline_entry_identity <$> timeline x ->
  (forall d', for_each (write_entry c) (enumerate l) d = Ok d' -> stored d' c (x <| timeline := l |>) /\ frame c d d')
  /\ (len l <= i64_max -> exists d', for_each (write_entry c) (enumerate l) d = Ok d').
Proof.
  intros St K. set (rep d l := stored d c (x <| timeline := l |>)).
  assert (R : rep d ([] ++ timeline x)) by (by destruct x). split.
  - intros d' E. apply (overwrite_from timeline_entry_identity c (write_entry c) rep ltac:(intros *; apply write_entry_rep) l [] (timeline x)); done.
  - intros L. apply (overwrite_succeeds timeline_entry_identity c (write_entry c) rep ltac:(intros *; apply write_entry_rep)
      ltac:(intros *; apply write_entry_succeeds) l [] (timeline x)); [done|done|unfold len in L; cbn; lia].
Qed.
Lemma checkpoint_carried d c m x :
  stored d c x -> behind m x -> chat_id (summary m) = c ->
  (forall d', apply_durable_update (checkpoint_update m) d = Ok d' -> stored d' c (durable_chat m) /\ frame c d d')
  /\ (len (turns m) <= i64_max -> len (timeline m) <= i64_max ->
      exists d', apply_durable_update (checkpoint_update m) d = Ok d').
Proof.
  intros St [Bs Bt Bl Ba] Id. rewrite checkpoint_update_eq, Id.
  destruct (store_summary_same d c m x St Bs Id) as (d1 & -> & St1 & F1). cbn [obind].
  destruct (checkpoint_turns d1 c x (turns m) St1 (agrees_keys _ _ _ _ Bt)) as [R2 S2].
  assert (X : forall d2 d3, stored d2 c (x <| turns := turns m |>) -> for_each (write_entry c) (enumerate (timeline m)) d2 = Ok d3 ->
    stored d3 c (durable_chat m) /\ frame c d2 d3 /\ for_each (write_attachment c) (attachments m) d3 = Ok d3).
  { intros d2 d3 St2 W. apply (proj1 (checkpoint_timeline _ _ _ _ St2 (agrees_keys _ _ _ _ Bl))) in W as [St3 F3].
    rewrite (write_attachments c _ _ _ St3) by (cbn; by rewrite Ba). split; [|done].
    destruct St as [_ _ _ _ Q]. destruct m, x; cbn in *. by subst. }
  split.
  - intros d' (d2 & (St2 & F2)%R2 & (d3 & W3 & W4)%obind_Ok)%obind_Ok. destruct (X _ _ St2 W3) as (St3 & F3 & W).
    rewrite W in W4. injection W4 as <-. split; [done|]. by eapply frame_trans; [|eapply frame_trans].
  - intros Lt Ll. destruct (S2 Lt) as (d2 & E2). rewrite E2. cbn. apply R2 in E2 as [St2 F2].
    destruct (proj2 (checkpoint_timeline _ _ _ _ St2 (agrees_keys _ _ _ _ Bl)) Ll) as (d3 & E3). rewrite E3. cbn.
    destruct (X _ _ St2 E3) as (_ & _ & ->). by eexists.
Qed.
