(* ===== verification/ChatInv.v ===== *)
(** * The state layer refines a map of chats

    The chats of a layer, in memory or still in storage, as one map; the invariant
    that ties it to the database and to the chat list; and what each operation of
    the layer does to it, whatever storage faults occur. *)

From S2P Require Import Prelude Effects Lists Store ChatTypes ChatReduce ChatStorage ChatLayer ChatDurable.

(** ** The chats of a layer *)
Definition view_slot (d : Db) (c : bytes) (slot : ChatSlot) : option Chat :=
  match slot_store slot with
  | Some st => Some (chat_value st)
  | None =>
      match load_chat d c with
      | Some sc => match materialize_chat (slot_summary slot) sc with Ok x => Some x | _ => None end
      | None => None
      end
  end.
Definition chats_of (l : Layer) : gmap bytes Chat := map_imap (view_slot (db l)) (slots l).

(** The list holds the summaries of the chats. *)
Definition listed (V : gmap bytes Chat) (l : ChatList) : Prop :=
  NoDup (chat_id <$> l) /\ forall s, s ∈ l <-> exists m, V !! chat_id s = Some m /\ summary m = s.

(** A chat without a row has no other rows (the foreign keys). *)
Definition stored_rows_empty (d : Db) (c : bytes) : Prop :=
  forall k, turn_rows d !! (c, k) = None /\ entry_rows d !! (c, k) = None /\ attachment_rows d !! (c, k) = None.

(** ** The invariant *)
Record Core (l : Layer) : Prop := {
  core_slot c slot : slots l !! c = Some slot ->
    exists m x, view_slot (db l) c slot = Some m /\ summary m = slot_summary slot /\ chat_id (summary m) = c
                /\ stored (db l) c x /\ behind m x;
  core_row c r : chat_rows (db l) !! c = Some r -> row_archived r = false -> is_Some (slots l !! c);
  core_fresh c : chat_rows (db l) !! c = None -> stored_rows_empty (db l) c
}.
(** [l] holds the chats [V] and lists the chats [W]; between operations they are
    the same. *)
Definition At (V W : gmap bytes Chat) (l : Layer) : Prop :=
  Core l /\ chats_of l = V /\ listed W (layer_chats l).

Lemma chats_of_lookup l c : chats_of l !! c = slots l !! c ≫= view_slot (db l) c.
Proof. unfold chats_of. by rewrite map_lookup_imap. Qed.
Lemma core_chat l c m :
  Core l -> chats_of l !! c = Some m ->
  exists slot x, slots l !! c = Some slot /\ view_slot (db l) c slot = Some m /\ slot_summary slot = summary m
                 /\ chat_id (summary m) = c /\ stored (db l) c x /\ behind m x.
Proof.
  intros C. rewrite chats_of_lookup. destruct (slots l !! c) as [slot|] eqn:E; [|done]. cbn. intros Ev.
  destruct (core_slot _ C _ _ E) as (m' & x & V & S & I & St & B). simplify_eq. naive_solver.
Qed.
Lemma core_no_chat l c : Core l -> chats_of l !! c = None <-> slots l !! c = None.
Proof.
  intros C. rewrite chats_of_lookup. destruct (slots l !! c) as [slot|] eqn:E; [|done].
  destruct (core_slot _ C _ _ E) as (m' & x & V & _). cbn. by rewrite V.
Qed.
Lemma stored_unique d c x y : stored d c x -> stored d c y -> x = y.
Proof.
  intros Sx Sy. destruct (materialize_stored _ _ _ Sx) as (sx & Ex & Mx), (materialize_stored _ _ _ Sy) as (sy & Ey & My).
  rewrite Ex in Ey. injection Ey as <-. destruct Sx as [(r & Er & _ & _ & Rx) _ _ _ _], Sy as [(r' & Er' & _ & _ & Ry) _ _ _ _].
  rewrite Er in Er'. injection Er' as <-. specialize (Mx (summary x)). rewrite My in Mx. injection Mx as Mx. rewrite <- Rx in Ry.
  destruct x, y. cbn in *. unfold set in Mx. cbn in Mx. congruence.
Qed.
(** A slot without a store: its chat is the durable one. *)
Lemma view_stored d c slot x :
  stored d c x -> slot_store slot = None -> view_slot d c slot = Some (x <| summary := slot_summary slot |>).
Proof.
  intros St N. unfold view_slot. rewrite N. destruct (materialize_stored _ _ _ St) as (sc & -> & M). by rewrite M.
Qed.
Lemma view_frame c c' d d' x slot :
  frame c d d' -> c' <> c -> stored d c' x -> view_slot d' c' slot = view_slot d c' slot.
Proof.
  intros F N St. destruct (slot_store slot) eqn:E; [by unfold view_slot; rewrite E|].
  by rewrite (view_stored _ _ _ _ St E), (view_stored _ _ _ _ (stored_frame _ _ _ _ _ F N St) E).
Qed.

(** The other chats when the rows of one change. *)
Lemma core_other l d c c' slot :
  Core l -> frame c (db l) d -> c' <> c -> slots l !! c' = Some slot ->
  view_slot d c' slot = view_slot (db l) c' slot
  /\ exists m x, view_slot d c' slot = Some m /\ summary m = slot_summary slot /\ chat_id (summary m) = c'
                 /\ stored d c' x /\ behind m x.
Proof.
  intros C F N E. destruct (core_slot _ C _ _ E) as (m & x & V & ? & ? & St & ?).
  pose proof (view_frame _ _ _ _ _ slot F N St) as Ev. split; [done|]. exists m, x. rewrite Ev. split_and!; try done. by eapply stored_frame.
Qed.
Lemma fresh_other l d c c' : Core l -> frame c (db l) d -> c' <> c -> chat_rows d !! c' = None -> stored_rows_empty d c'.
Proof.
  intros C F N E k. rewrite (frame_turns _ _ _ F), (frame_entries _ _ _ F), (frame_attachments _ _ _ F) by done.
  apply (core_fresh _ C). by rewrite <- (frame_chats _ _ _ F).
Qed.
(** An operation that rewrites the rows and the slot of one chat. *)
Lemma core_update l l' c slot m x :
  Core l -> frame c (db l) (db l') -> slots l' = <[c := slot]> (slots l) ->
  view_slot (db l') c slot = Some m -> summary m = slot_summary slot -> chat_id (summary m) = c ->
  stored (db l') c x -> behind m x -> Core l' /\ chats_of l' = <[c := m]> (chats_of l).
Proof.
  intros C F Es V S I St B. split; [split|].
  - intros c' slot'. rewrite Es. destruct (decide (c' = c)) as [->|N].
    + rewrite lookup_insert_eq. intros [= <-]. by exists m, x.
    + rewrite lookup_insert_ne by done. intros E. by eapply core_other.
  - intros c' r E Ar. rewrite Es. destruct (decide (c' = c)) as [->|N]; [rewrite lookup_insert_eq; by eexists|].
    rewrite lookup_insert_ne by done. apply (core_row _ C c' r); [|done]. by rewrite <- (frame_chats _ _ _ F).
  - intros c' E. destruct (decide (c' = c)) as [->|N]; [destruct St as [(r & ? & _)]; congruence|by eapply fresh_other].
  - apply map_eq. intros c'. rewrite chats_of_lookup, Es. destruct (decide (c' = c)) as [->|N].
    + by rewrite !lookup_insert_eq.
    + rewrite !lookup_insert_ne, chats_of_lookup by done. destruct (slots l !! c') eqn:E; [|done]. cbn. by eapply core_other.
Qed.
(** One that archives a chat. *)
Lemma core_delete l l' c r :
  Core l -> frame c (db l) (db l') -> slots l' = delete c (slots l) ->
  chat_rows (db l') !! c = Some r -> row_archived r = true -> Core l' /\ chats_of l' = delete c (chats_of l).
Proof.
  intros C F Es Er Ar. split; [split|].
  - intros c' slot'. rewrite Es, lookup_delete_Some. intros [N E]. by eapply core_other.
  - intros c' r' E Ar'. rewrite Es. destruct (decide (c' = c)) as [->|N]; [congruence|].
    rewrite lookup_delete_ne by done. apply (core_row _ C c' r'); [|done]. by rewrite <- (frame_chats _ _ _ F).
  - intros c' E. destruct (decide (c' = c)) as [->|N]; [congruence|by eapply fresh_other].
  - apply map_eq. intros c'. rewrite chats_of_lookup, Es. destruct (decide (c' = c)) as [->|N].
    + by rewrite !lookup_delete_eq.
    + rewrite !lookup_delete_ne, chats_of_lookup by done. destruct (slots l !! c') eqn:E; [|done]. cbn. by eapply core_other.
Qed.
(** One that touches neither. *)
Lemma core_same l l' : db l' = db l -> slots l' = slots l -> Core l -> Core l' /\ chats_of l' = chats_of l.
Proof.
  intros Ed Es [H1 H2 H3]. unfold chats_of. rewrite Ed, Es. split; [|done]. split; rewrite ?Ed, ?Es; done.
Qed.

(** ** The list *)
Lemma listed_upsert V l m :
  listed V l -> listed (<[chat_id (summary m) := m]> V) (reduce_chat_list l (ListUpsert (summary m))).
Proof.
  intros [N L]. cbn. split; [rewrite sort_by_perm; by apply upsert_NoDup|].
  intros s. rewrite sort_by_perm, elem_of_upsert, L by done. destruct (decide (chat_id s = chat_id (summary m))) as [E|E].
  - rewrite E, lookup_insert_eq. naive_solver.
  - rewrite lookup_insert_ne by done. naive_solver.
Qed.
Lemma listed_remove V l c : listed V l -> listed (delete c V) (reduce_chat_list l (ListRemove c)).
Proof.
  intros [N L]. cbn. destruct (position _ l) as [i|] eqn:P.
  - apply position_Some in P as (y & E & K). bool_prop. pose proof (delete_Permutation l i y E) as Pm.
    assert (N' : NoDup (chat_id <$> y :: delete i l)) by (by rewrite <- Pm). cbn in N'. apply NoDup_cons in N' as [Ny N'].
    split; [done|]. intros s. destruct (decide (chat_id s = c)) as [Es|Es].
    + rewrite Es, lookup_delete_eq. split; [|naive_solver]. intros I. destruct Ny. rewrite K, <- Es. by apply list_elem_of_fmap_2.
    + rewrite lookup_delete_ne by done. rewrite <- L. assert (I : s ∈ l <-> s ∈ y :: delete i l) by (by rewrite <- Pm).
      rewrite I, elem_of_cons. naive_solver.
  - apply position_key in P. split; [done|]. intros s. destruct (decide (chat_id s = c)) as [Es|Es].
    + rewrite Es, lookup_delete_eq. split; [|naive_solver]. intros I. destruct P. rewrite <- Es. by apply list_elem_of_fmap_2.
    + rewrite lookup_delete_ne by done. apply L.
Qed.
(** A change of a chat that leaves its summary alone. *)
Lemma listed_same V l c m m' : listed V l -> V !! c = Some m -> summary m' = summary m -> listed (<[c := m']> V) l.
Proof.
  intros [N L] E S. split; [done|]. intros s. rewrite L. destruct (decide (chat_id s = c)) as [<-|Es].
  - rewrite lookup_insert_eq. naive_solver.
  - by rewrite lookup_insert_ne.
Qed.

(** ** Operations

    Storage calls, then the operations of the layer.  [At V W] is kept with [V] and
    [W] unchanged unless the operation succeeds. *)
Lemma triple_query {A} P (f : Db -> A) :
  triple P (query f) (fun a l => P l /\ a = f (db l)) P.
Proof.
  eapply triple_bind; [apply triple_fallible|]. intros ?. eapply triple_seq; [apply triple_get|done|].
  intros l. apply triple_ret. by intros d [-> H].
Qed.
Lemma keeps_query {A} P (f : Db -> A) : keeps P (query f).
Proof. eapply triple_weaken; [apply triple_query|done|by intros ? ? []|done]. Qed.
Lemma triple_transaction P (f : Db -> outcome StateLayerError Db) :
  triple P (transaction f) (fun _ l' => exists l d, P l /\ f (db l) = Ok d /\ l' = l <| db := d |>) P.
Proof.
  eapply triple_bind; [apply triple_fallible|]. intros ?. eapply triple_seq; [apply triple_get|naive_solver|]. intros l.
  eapply triple_seq; [apply triple_outcome|naive_solver|]. intros d.
  eapply triple_seq; [apply triple_fallible|naive_solver|]. intros ?. apply triple_put. intros l' (E & -> & H). eauto.
Qed.
(** The list store. *)
Lemma layer_chats_apply g m c : value (snapshot (store_apply reduce_chat_list g m c).2) = reduce_chat_list (value (snapshot c)) m.
Proof. unfold store_apply. repeat case_match; done. Qed.
Lemma chat_value_apply g m c : chat_value (store_apply reduce_chat g m c).2 = reduce_chat (chat_value c) m.
Proof. unfold store_apply. repeat case_match; done. Qed.

Lemma at_other V W l l' : db l' = db l -> slots l' = slots l -> layer_chats l' = layer_chats l -> At V W l -> At V W l'.
Proof.
  intros Ed Es El (C & <- & L). destruct (core_same _ _ Ed Es C) as [C' E']. by rewrite <- El in L.
Qed.
(** Drawing a generation changes nothing else. *)
Lemma triple_draw P E : (forall l g, P l -> P (l <| next_generation := g |>)) -> triple P draw_generation (fun _ => P) E.
Proof. intros H w. apply H. Qed.
Lemma at_draw V W l g : At V W l -> At V W (l <| next_generation := g |>).
Proof. by apply (at_other _ _ l). Qed.
Lemma triple_list_apply V W m W' E :
  (forall l, listed W l -> listed W' (reduce_chat_list l m)) ->
  triple (At V W) (list_apply m) (fun _ => At V W') E.
Proof.
  intros H. eapply triple_bind; [apply triple_draw, at_draw|]. intros g. apply triple_put. intros l (C & <- & L).
  set (l' := l <| chat_list := _ |>). destruct (core_same l l') as [C' E']; [done..|].
  split_and!; [done|done|]. change (layer_chats l') with (value (snapshot (store_apply reduce_chat_list g m (chat_list l)).2)).
  rewrite layer_chats_apply. by apply H.
Qed.

(** *** Materialization and queries *)
Definition in_memory (c : bytes) (l : Layer) : Prop := exists slot st, slots l !! c = Some slot /\ slot_store slot = Some st.

Lemma triple_materialize V W c :
  triple (At V W) (materialize_chat_locked c)
    (fun b l => At V W l /\ if b then in_memory c l else V !! c = None) (At V W).
Proof.
  unfold materialize_chat_locked. eapply triple_seq; [apply triple_get|naive_solver|]. intros l.
  destruct (slots l !! c) as [slot|] eqn:E.
  2: { apply triple_ret. intros ? (-> & C & <- & L). split; [done|]. by apply core_no_chat. }
  destruct (slot_store slot) as [st|] eqn:Es.
  { apply triple_ret. intros ? (-> & A). split; [done|]. by eexists _, _. }
  eapply triple_seq; [apply triple_query|naive_solver|]. intros [sc|]; [|apply triple_raise; naive_solver].
  eapply triple_seq; [apply triple_outcome|naive_solver|]. intros x.
  set (P l' := At V W l' /\ slots l' !! c = Some slot /\ load_chat (db l') c = Some sc
               /\ materialize_chat (slot_summary slot) sc = Ok x).
  eapply (triple_weaken P); [|intros l1 (M & (-> & A) & Q); by split_and!|intros ? ? H; exact H|intros ? H; exact H].
  eapply triple_bind; [apply triple_draw|].
  { intros l1 g (A & H). split; [by apply at_draw|done]. }
  intros g. eapply triple_seq; [apply triple_get|by intros ? []|]. intros l1.
  destruct (slots l1 !! c) as [slot1|] eqn:E1; [|apply triple_ret; intros ? (-> & A & ? & _); congruence].
  eapply triple_bind; [|intros ?; apply triple_ret; intros ? H; exact H]. apply triple_put.
  intros l' (-> & (C & <- & L) & Es' & Ld & M). simplify_eq.
  destruct (core_slot _ C _ _ E1) as (m & y & Vw & S & I & St & B). set (l2 := l' <| slots := _ |>).
  assert (m = x) as ->. { unfold view_slot in Vw. rewrite Es, Ld, M in Vw. congruence. }
  destruct (core_update l' l2 c (slot1 <| slot_store := Some (Store_new g x EVENT_CAPACITY) |>) x y) as [C' E']; try done.
  rewrite insert_id in E' by (by rewrite chats_of_lookup, E1).
  split; [by split|]. eexists _, _. unfold l2. cbn. by rewrite lookup_insert_eq.
Qed.
Lemma triple_chat_store P c E :
  (forall l, P l -> E l) ->
  triple P (chat_store c) (fun r l => P l /\ r = slots l !! c ≫= slot_store) E.
Proof.
  intros He. unfold chat_store. eapply triple_seq; [apply triple_get|done|]. intros l. apply triple_ret. by intros ? [-> H].
Qed.
Lemma in_memory_value V W c l st :
  At V W l -> slots l !! c ≫= slot_store = Some st -> V !! c = Some (chat_value st).
Proof.
  intros (C & <- & _). rewrite chats_of_lookup. destruct (slots l !! c) as [slot|]; [|done]. cbn. intros E.
  unfold view_slot. by rewrite E.
Qed.
Lemma triple_chat V W c :
  triple (At V W) (chat c) (fun r l => At V W l /\ r = V !! c) (At V W).
Proof.
  unfold chat. eapply triple_bind; [apply triple_materialize|]. intros [|]; cbn; [|by apply triple_ret; intros ? [? ->]].
  eapply triple_bind; [apply triple_chat_store; naive_solver|]. intros r. apply triple_ret.
  intros l ((A & slot & st & E & Es) & ->). split; [done|]. rewrite E. cbn. rewrite Es. cbn.
  symmetry. eapply in_memory_value; [done|]. by rewrite E.
Qed.

(** *** Updates *)
Definition admissible (V : gmap bytes Chat) (c : bytes) (m : ChatMutation) : Prop :=
  forall cur, V !! c = Some cur -> keeps_identity m cur.
Lemma mutation_identity cur m next : apply_chat_mutation cur m = Ok next -> chat_id (summary next) = chat_id (summary cur).
Proof.
  destruct m as [s|t|e|i delta|i ti|q|a]; [| | | | | |rewrite attachment_mutation]; cbn; intros H; repeat case_hyp H; simplify_eq; bool_prop; try done.
  by apply obind_Ok in H as (? & _ & [= <-]).
Qed.
Lemma mutation_summary cur m next :
  apply_chat_mutation cur m = Ok next ->
  summary next = match m with UpdateSummary s => s | _ => summary cur end.
Proof.
  destruct m as [s|t|e|i delta|i ti|q|a]; [| | | | | |rewrite attachment_mutation]; cbn; intros H; repeat case_hyp H; simplify_eq; try done.
  by apply obind_Ok in H as (? & _ & [= <-]).
Qed.
Lemma triple_store_update P u :
  triple P (store_update u) (fun _ l' => exists l d, P l /\ commits u (db l) d /\ l' = l <| db := d |>) P.
Proof.
  unfold store_update, commits. destruct (is_empty u); [|apply triple_transaction].
  apply triple_ret. intros l H. exists l, (db l). split_and!; [done|done|by destruct l].
Qed.
(** The end of an update, in memory only. *)
Definition publish (c : bytes) (m : ChatMutation) (changed : bool) : run unit :=
  do! chat_apply c m;
  do! put (fun l =>
    match m, slots l !! c with
    | UpdateSummary s, Some slot => l <| slots := <[c := slot <| slot_summary := s |>]> (slots l) |>
    | _, _ => l
    end);
  if changed then put (fun l => l <| usage_changes := wrapping_inc (usage_changes l) |>) else ret tt.
Lemma triple_publish l c m changed slot st E :
  slots l !! c = Some slot -> slot_store slot = Some st ->
  triple (fun l' => l' = l) (publish c m changed)
    (fun _ l' => db l' = db l /\ layer_chats l' = layer_chats l /\
       exists slot' st', slots l' = <[c := slot']> (slots l) /\ slot_store slot' = Some st'
         /\ slot_summary slot' = (match m with UpdateSummary s => s | _ => slot_summary slot end)
         /\ chat_value st' = reduce_chat (chat_value st) m) E.
Proof.
  intros Es Et w <-. set (g := next_generation (dir w)). set (st' := (store_apply reduce_chat g m st).2).
  set (slot1 := slot <| slot_store := Some st' |>).
  set (slot2 := match m with UpdateSummary s => slot1 <| slot_summary := s |> | _ => slot1 end).
  assert (exists w', publish c m changed w = (Ok tt, w') /\ db (dir w') = db (dir w)
          /\ layer_chats (dir w') = layer_chats (dir w) /\ slots (dir w') = <[c := slot2]> (slots (dir w))) as (w' & -> & Ed & El & Esl).
  { unfold publish, chat_apply, draw_generation, andthen. cbn. rewrite Es. cbn. rewrite Et. cbn.
    destruct m; cbn; rewrite ?lookup_insert_eq; cbn; destruct changed; cbn; eexists; split_and!; try done; cbn; by rewrite insert_insert_eq. }
  split_and!; [done..|]. exists slot2, st'. split_and!; [done|by destruct m|by destruct m|]. apply chat_value_apply.
Qed.

Lemma triple_apply_chat_update V W c m :
  admissible V c m ->
  triple (At V W) (apply_chat_update c m)
    (fun _ l => exists cur next, V !! c = Some cur /\ apply_chat_mutation cur m = Ok next /\ At (<[c := next]> V) W l) (At V W).
Proof.
  intros Ad. unfold apply_chat_update. eapply triple_bind; [apply triple_materialize|].
  intros [|]; cbn; [|apply triple_raise; naive_solver]. eapply triple_bind; [apply triple_chat_store; naive_solver|].
  intros [st|]; [|apply triple_raise; naive_solver]. set (cur := chat_value st).
  eapply triple_seq; [apply triple_outcome|naive_solver|]. intros next.
  eapply triple_seq; [apply triple_outcome|naive_solver|]. intros u.
  eapply triple_seq; [apply triple_store_update|naive_solver|]. intros _u.
  change (triple ?P _ ?Q ?E) with (triple P (publish c m (usage_changed m cur u)) Q E).
  intros w (l & d & (Du & Ap & (A & slot & st' & Es & Et) & Est) & Co & Ew).
  rewrite Es in Est. cbn in Est. rewrite Et in Est. injection Est as ->.
  pose proof (in_memory_value _ _ c l st' A ltac:(by rewrite Es)) as Vc. fold cur in Vc.
  assert (C := proj1 A). destruct (core_slot _ C _ _ Es) as (m0 & x & Vw & Sm & I & St & B).
  assert (m0 = cur) as ->. { unfold view_slot in Vw. rewrite Et in Vw. by injection Vw as <-. }
  destruct (durable_update_carried _ _ _ _ _ _ _ _ St B I (Ad _ Vc) Ap Du Co) as (x' & St' & B' & F).
  assert (Ew' : slots (dir w) !! c = Some slot) by (by rewrite Ew).
  pose proof (triple_publish (dir w) c m (usage_changed m cur u) slot st' (fun _ => False) Ew' Et w eq_refl) as T.
  destruct (publish c m _ w) as [[_u'| |] w']; [|done..]. destruct T as (Ed & El & slot' & st2 & Esl & Est & Ess & Ev).
  generalize dependent (dir w'). intros l' Ed El Esl. exists cur, next. split_and!; [done|done|].
  destruct A as (_ & <- & L). rewrite Ew in Ed, El, Esl. cbn in Ed, Esl.
  destruct (core_update l l' c slot' next x') as [C' E']; try done; rewrite ?Ed; try done.
  - unfold view_slot. rewrite Est, Ev. unfold reduce_chat. change (apply_chat_mutation cur m = Ok next) in Ap. fold cur. by rewrite Ap.
  - rewrite Ess. erewrite mutation_summary by done. destruct m; done.
  - by erewrite mutation_identity.
  - split_and!; [done|done|]. by rewrite El.
Qed.

(** An update the chat state issues: no removal from the list alone, and no change
    of what a chat was created with. *)
Definition issued (V : gmap bytes Chat) (u : StateUpdate) : Prop :=
  match u with
  | {| up_list := Some (ListRemove _) |} => False
  | {| up_chat := Some (c, m) |} => admissible V c m
  | _ => True
  end.
Lemma shape_cases V u :
  validate_update_shape u = Ok tt -> issued V u ->
  (exists s, u = {| up_list := Some (ListUpsert s); up_chat := Some (chat_id s, UpdateSummary s) |}
             /\ admissible V (chat_id s) (UpdateSummary s))
  \/ exists c m, u = {| up_list := None; up_chat := Some (c, m) |} /\ admissible V c m
                 /\ match m with UpdateSummary _ => False | _ => True end.
Proof.
  destruct u as [[[s|c]|] [[c' m]|]]; cbn; try done.
  - destruct m as [s'| | | | | |]; try done. case_match eqn:E; [|done].
    apply andb_true_iff in E as [<-%bool_decide_eq_true_1 ->%bool_decide_eq_true_1]. eauto.
  - intros H Ad. right. exists c', m. split_and!; [done|done|]. by destruct m.
Qed.
Lemma triple_apply_update V u :
  issued V u ->
  triple (At V V) (apply_update u)
    (fun _ l => exists c m cur next, up_chat u = Some (c, m) /\ V !! c = Some cur /\ apply_chat_mutation cur m = Ok next
       /\ At (<[c := next]> V) (<[c := next]> V) l) (At V V).
Proof.
  intros Is. unfold apply_update. eapply triple_seq; [apply triple_outcome|naive_solver|]. intros [].
  apply triple_pure. intros Sh. destruct (shape_cases V u Sh Is) as [(s & -> & Ad)|(c & m & -> & Ad & Nm)]; cbn.
  - eapply (triple_seq _ _ _ (fun _ l => exists cur next, V !! chat_id s = Some cur
        /\ apply_chat_mutation cur (UpdateSummary s) = Ok next /\ At (<[chat_id s := next]> V) V l)); [by apply triple_apply_chat_update|done|].
    intros ?. do 2 (apply triple_exists; intros ?). apply triple_pure. intros Vc. apply triple_pure. intros Ap.
    pose proof (mutation_summary _ _ _ Ap) as Sm. cbn in Sm.
    intros w A. eapply (triple_list_apply _ V (ListUpsert s) (<[chat_id s := b0]> V) (fun _ => True)) in A;
      [|intros l L; rewrite <- Sm; by apply listed_upsert].
    unfold list_apply, draw_generation, andthen, get, put, ret in *. cbn in *. by exists (chat_id s), (UpdateSummary s), b, b0.
  - eapply triple_bind; [by apply triple_apply_chat_update|]. intros ?. apply triple_ret.
    intros l (cur & next & Vc & Ap & C & E & L). exists c, m, cur, next. split_and!; [done..|]. split_and!; [done|done|].
    eapply listed_same; [done..|]. rewrite (mutation_summary _ _ _ Ap). by destruct m.
Qed.

(** *** Creation and archival *)
Lemma create_stored s d d' :
  db_create_chat s d = Ok d' -> stored_rows_empty d (chat_id s) ->
  stored d' (chat_id s) (empty_chat (durable_summary s)) /\ frame (chat_id s) d d' /\ chat_rows d !! chat_id s = None.
Proof.
  unfold db_create_chat. intros H Em. case_match eqn:K; [done|]. injection H as <-. bool_prop.
  apply eq_None_not_Some in H. split_and!; [|apply frame_chat_rows|done]. split; cbn.
  - eexists. by rewrite lookup_insert_eq.
  - intros k i t. rewrite (proj1 (Em k)). split; [done|]. by intros (n & _ & ? & _).
  - intros k i e. rewrite (proj1 (proj2 (Em k))). split; [done|]. by intros (n & _ & ? & _).
  - split_and!; [|constructor..]. intros k a. rewrite (proj2 (proj2 (Em k))). set_solver.
  - done.
Qed.
Lemma triple_create_chat V s :
  triple (At V V) (create_chat s)
    (fun _ l => V !! chat_id s = None /\ At (<[chat_id s := empty_chat s]> V) (<[chat_id s := empty_chat s]> V) l) (At V V).
Proof.
  unfold create_chat. eapply triple_seq; [apply triple_get|naive_solver|]. intros l0.
  case_bool_decide as K; [apply triple_raise; naive_solver|]. apply eq_None_not_Some in K.
  eapply (triple_weaken (fun l => At V V l /\ slots l !! chat_id s = None)); [|naive_solver|intros ? ? H; exact H|intros ? H; exact H].
  set (c := chat_id s).
  set (P l' := exists l d, (At V V l /\ slots l !! c = None) /\ db_create_chat s (db l) = Ok d
       /\ db l' = d /\ slots l' = slots l /\ chat_list l' = chat_list l).
  eapply (triple_seq _ _ _ (fun _ => P) _ _ (At V V)); [|done|].
  { unfold storage_create_chat. eapply triple_seq; [apply triple_fallible|naive_solver|]. intros ?.
    eapply triple_seq; [apply triple_get|naive_solver|]. intros l1. eapply triple_seq; [apply triple_outcome|naive_solver|].
    intros d. apply triple_put. intros l (Ec & -> & A). by exists l, d. }
  intros ?. eapply triple_bind; [apply triple_draw; intros l g (l1 & d & H); by exists l1, d|]. intros g.
  eapply (triple_bind _ _ _ (fun _ l => V !! c = None /\ At (<[c := empty_chat s]> V) V l)).
  - apply triple_put. intros l' (l & d & ((C & <- & L) & Ns) & Cr & Ed & Es & El). split; [by apply core_no_chat|].
    assert (Em : stored_rows_empty (db l) c).
    { apply (core_fresh _ C). destruct (chat_rows (db l) !! c) eqn:R; [|done]. unfold db_create_chat in Cr. fold c in Cr. by rewrite R in Cr. }
    destruct (create_stored _ _ _ Cr Em) as (St & F & _). set (l2 := l' <| slots := _ |>). rewrite <- Ed in St, F.
    destruct (core_update l l2 c {| slot_summary := s; slot_store := Some (Store_new g (empty_chat s) EVENT_CAPACITY) |}
      (empty_chat s) (empty_chat (durable_summary s))) as [C' E']; try done; [by cbn; rewrite Es|split; try done; constructor|].
    split_and!; [done|done|]. unfold layer_chats, l2. cbn. by rewrite El.
  - intros ?. apply triple_pure. intros N. eapply triple_weaken; [|intros ? H; exact H|intros ? ? H; split; [done|exact H]|intros ? H; exact H].
    apply triple_list_apply. intros l L. by apply (listed_upsert V l (empty_chat s)).
Qed.

Lemma archive_frame c d changed d' : db_archive_chat c d = (changed, d') -> frame c d d'.
Proof. unfold db_archive_chat. repeat case_match; intros; simplify_eq; try apply frame_refl. apply frame_chat_rows. Qed.
Lemma triple_archive_chat V c :
  triple (At V V) (archive_chat c)
    (fun b l => if b then At (delete c V) (delete c V) l else At V V l) (At V V).
Proof.
  unfold archive_chat. eapply triple_seq; [apply triple_get|naive_solver|]. intros l0.
  case_bool_decide as K; [|apply triple_ret; naive_solver].
  eapply (triple_weaken (At V V)); [|naive_solver|intros ? ? H; exact H|intros ? H; exact H]. cbn.
  set (R l' := exists l, At V V l /\ (true, db l') = db_archive_chat c (db l) /\ slots l' = slots l /\ chat_list l' = chat_list l).
  eapply (triple_bind _ _ _ (fun (b : bool) l' => if b then R l' else At V V l')).
  - unfold storage_archive_chat. eapply triple_bind; [apply triple_fallible|]. intros ?. eapply triple_seq; [apply triple_get|naive_solver|].
    intros l. destruct (db_archive_chat c (db l)) as [b d] eqn:E. eapply triple_bind; [|intros ?; apply triple_ret; intros ? H; exact H].
    apply triple_put. intros l' [-> A]. destruct b; [by exists l'|].
    assert (d = db l') as ->. { unfold db_archive_chat in E. repeat case_match; simplify_eq; done. } by destruct l'.
  - intros [|]; cbn; [|by apply triple_ret].
    eapply (triple_bind _ _ _ (fun _ => At (delete c V) V)).
    + apply triple_put. intros l' (l & (C & <- & L) & E & Es & El).
      pose proof (archive_frame _ _ _ _ (eq_sym E)) as F. unfold db_archive_chat in E.
      destruct (chat_rows (db l) !! c) as [r|] eqn:Er; [|done]. destruct (row_archived r); [done|]. injection E as E.
      set (l2 := l' <| slots := _ |>). destruct (core_delete l l2 c (r <| row_archived := true |>)) as [C' E']; try done.
      * cbn. by rewrite Es.
      * cbn. rewrite E. cbn. by rewrite lookup_insert_eq.
      * split_and!; [done|done|]. unfold layer_chats, l2. cbn. by rewrite El.
    + intros ?. eapply triple_bind; [apply triple_list_apply; intros l; apply listed_remove|]. intros ?. by apply triple_ret.
Qed.

(** *** Cursors and checkpoints *)
Lemma resume_cursor_stored c cursor d x :
  stored d c x -> stored (db_store_resume_cursor c cursor d) c x.
Proof.
  intros [(r & Er & H) T L A Q]. unfold db_store_resume_cursor. rewrite Er. split; try done.
  cbn. eexists. rewrite lookup_insert_eq. split; [done|]. exact H.
Qed.
(** A change of the row of a chat that is not active. *)
Lemma core_inactive l l' c :
  Core l -> slots l !! c = None -> frame c (db l) (db l') -> slots l' = slots l ->
  (forall r, chat_rows (db l') !! c = Some r -> row_archived r = true) -> is_Some (chat_rows (db l') !! c) ->
  Core l' /\ chats_of l' = chats_of l.
Proof.
  intros C N F Es Ar [r Er]. destruct (core_delete l l' c r) as [C' E']; try done; [by rewrite Es, delete_id|by apply Ar|].
  split; [done|]. rewrite E', delete_id; [done|]. by apply core_no_chat.
Qed.
Lemma triple_store_resume_cursor V W c cursor : keeps (At V W) (store_resume_cursor c cursor).
Proof.
  eapply triple_weaken; [apply (triple_store_update (At V W))|done| |done].
  intros ? l' (l & d & (C & <- & L) & Co & ->). unfold commits in Co. cbn in Co. injection Co as <-.
  set (d := db_store_resume_cursor c cursor (db l)). set (l' := l <| db := d |>).
  assert (F : frame c (db l) d). { unfold d, db_store_resume_cursor. case_match; [apply frame_chat_rows|apply frame_refl]. }
  assert (Core l' /\ chats_of l' = chats_of l) as [C' E']; [|by split].
  destruct (slots l !! c) as [slot|] eqn:E.
  - destruct (core_slot _ C _ _ E) as (m & x & V & S & I & St & B). pose proof (resume_cursor_stored c cursor _ _ St) as St'.
    destruct (core_update l l' c slot m x) as [C' E']; try done; [by rewrite insert_id| |].
    + destruct (slot_store slot) eqn:Es; [unfold view_slot in *; by rewrite Es in *|].
      change (db l') with d. rewrite (view_stored d _ _ _ St' Es), <- (view_stored _ _ _ _ St Es). done.
    + split; [done|]. rewrite E', insert_id; [done|]. by rewrite chats_of_lookup, E.
  - destruct (chat_rows (db l) !! c) as [r|] eqn:Er.
    + apply (core_inactive l l' c); try done; unfold l', d, db_store_resume_cursor; rewrite Er; cbn; rewrite lookup_insert_eq; [|by eexists].
      intros r' [= <-]. cbn. destruct (row_archived r) eqn:Ar; [done|]. destruct (core_row _ C _ _ Er Ar). congruence.
    + apply core_same; [|done|done]. unfold l', d, db_store_resume_cursor. by rewrite Er.
Qed.

(** A chat that is not in memory is durable as it is. *)
Lemma not_in_memory V W c l m :
  At V W l -> V !! c = Some m -> in_memory c l \/ stored (db l) c (durable_chat m).
Proof.
  intros (C & <- & _) E. destruct (core_chat _ _ _ C E) as (slot & x & Es & Vw & Ss & I & St & B).
  destruct (slot_store slot) as [st|] eqn:Et; [left; by exists slot, st|right].
  rewrite (view_stored _ _ _ _ St Et) in Vw. injection Vw as <-. replace (durable_chat _) with x; [done|].
  destruct B as [Bs _ _ _], St as [_ _ _ _ Q]. destruct x. cbn in *. unfold durable_chat. cbn. by subst.
Qed.
(** Checkpoints of chats in memory. *)
Lemma checkpoint_one l c m d :
  Core l -> in_memory c l -> chats_of l !! c = Some m ->
  apply_durable_update (checkpoint_update m) (db l) = Ok d ->
  Core (l <| db := d |>) /\ chats_of (l <| db := d |>) = chats_of l /\ stored d c (durable_chat m) /\ frame c (db l) d.
Proof.
  intros C (slot & st & E & Es) Ec Ap. destruct (core_chat _ _ _ C Ec) as (slot' & x & E' & V & S & I & St & B). simplify_eq.
  destruct (proj1 (checkpoint_carried _ _ _ _ St B eq_refl) _ Ap) as [St' F].
  destruct (core_update l (l <| db := d |>) (chat_id (summary m)) slot m (durable_chat m)) as [C' E'']; try done;
    [by rewrite insert_id|by unfold view_slot in *; rewrite Es in *|apply behind_durable|].
  split_and!; [done| |done|done]. by rewrite E'', insert_id.
Qed.
Definition id_of (m : Chat) : bytes := chat_id (summary m).
Lemma checkpoint_all ms : forall l d,
  Core l -> (forall m, m ∈ ms -> in_memory (id_of m) l /\ chats_of l !! id_of m = Some m) ->
  for_each (fun m => apply_durable_update (checkpoint_update m)) ms (db l) = Ok d ->
  Core (l <| db := d |>) /\ chats_of (l <| db := d |>) = chats_of l
  /\ (forall c x, c ∉ id_of <$> ms -> stored (db l) c x -> stored d c x)
  /\ (forall m, m ∈ ms -> stored d (id_of m) (durable_chat m)).
Proof.
  induction ms as [|m ms IH]; intros l d C H; cbn.
  { intros [= <-]. replace (l <| db := db l |>) with l by (by destruct l). split_and!; [done|done|done|set_solver]. }
  intros (d1 & A & R)%obind_Ok. destruct (H m) as (M & Ec); [set_solver|].
  destruct (checkpoint_one _ _ _ _ C M Ec A) as (C1 & E1 & St1 & F1).
  destruct (IH (l <| db := d1 |>) d C1) as (C2 & E2 & K2 & St2); [|done|].
  { intros m' I'. rewrite E1. apply H. set_solver. }
  change ((l <| db := d1 |>) <| db := d |>) with (l <| db := d |>) in *. split_and!; [done|congruence| |].
  - intros c x [N1 N2]%not_elem_of_cons St. apply K2; [done|]. by eapply stored_frame.
  - intros m' [->|I']%elem_of_cons; [|by apply St2]. destruct (decide (id_of m ∈ id_of <$> ms)) as [In|In]; [|by apply K2].
    apply list_elem_of_fmap in In as (m' & Ei & I'). destruct (H m') as (_ & Ec'); [set_solver|]. rewrite <- Ei, Ec in Ec'.
    injection Ec' as <-. by apply St2.
Qed.
Lemma triple_storage_checkpoint V W ms l0 :
  At V W l0 -> (forall m, m ∈ ms -> in_memory (id_of m) l0 /\ V !! id_of m = Some m) ->
  triple (fun l => l = l0) (storage_checkpoint ms)
    (fun _ l => At V W l /\ slots l = slots l0 /\ forall m, m ∈ ms -> stored (db l) (id_of m) (durable_chat m)) (At V W).
Proof.
  intros (C & <- & L) H. unfold storage_checkpoint. destruct ms as [|m ms].
  { apply triple_ret. intros ? ->. split_and!; [by split|done|set_solver]. }
  eapply triple_weaken; [apply triple_transaction|intros ? E; exact E| |by intros ? ->].
  intros ? l (? & d & -> & E & ->). destruct (checkpoint_all _ _ _ C H E) as (C' & E' & _ & St). by split_and!; [split| |].
Qed.
Lemma triple_checkpoint_chat V W c :
  triple (At V W) (checkpoint_chat c)
    (fun b l => At V W l /\ if b then exists m, V !! c = Some m /\ stored (db l) c (durable_chat m) else V !! c = None) (At V W).
Proof.
  unfold checkpoint_chat. eapply triple_bind; [apply triple_materialize|]. intros [|]; cbn; [|by apply triple_ret].
  eapply triple_bind; [apply triple_chat_store; naive_solver|]. intros [st|]; [|apply triple_raise; naive_solver].
  apply triple_at. intros l [(A & M) Es]. pose proof (in_memory_value _ _ _ _ _ A (eq_sym Es)) as Vc.
  assert (I : id_of (chat_value st) = c).
  { destruct A as (C & <- & _). destruct (core_chat _ _ _ C Vc) as (_ & _ & _ & _ & _ & I & _). done. }
  eapply triple_bind; [apply (triple_storage_checkpoint V W [chat_value st] l A)|intros ?; apply triple_ret].
  - intros m ->%list_elem_of_singleton. by rewrite I.
  - cbn. intros l' (A' & _ & S). split; [done|]. exists (chat_value st). split; [done|]. rewrite <- I at 1. apply S. set_solver.
Qed.
Lemma triple_checkpoint V W :
  triple (At V W) checkpoint
    (fun _ l => At V W l /\ forall c m, in_memory c l -> V !! c = Some m -> stored (db l) c (durable_chat m)) (At V W).
Proof.
  unfold checkpoint. eapply triple_seq; [apply triple_get|naive_solver|]. intros l0. apply triple_at. intros ? [<- A].
  set (ms := omap _ _). assert (Ms : forall m, m ∈ ms <-> in_memory (id_of m) l0 /\ V !! id_of m = Some m).
  { intros m. destruct A as (C & <- & _). split.
    - intros ([c slot] & I%elem_of_map_to_list & E)%list_elem_of_omap. destruct (slot_store slot) as [st|] eqn:Es; [|done].
      injection E as <-. assert (Ec : chats_of l0 !! c = Some (chat_value st)) by (rewrite chats_of_lookup, I; unfold view_slot; cbn; by rewrite Es).
      destruct (core_chat _ _ _ C Ec) as (_ & _ & _ & _ & _ & <- & _). split; [by exists slot, st|done].
    - intros ((slot & st & Es & Et) & Ec). apply list_elem_of_omap. exists (id_of m, slot).
      split; [by apply elem_of_map_to_list|]. rewrite Et. rewrite chats_of_lookup, Es in Ec. unfold view_slot in Ec. cbn in Ec. by rewrite Et in Ec. }
  eapply triple_weaken; [apply (triple_storage_checkpoint V W ms _ A (fun m => proj1 (Ms m)))|done| |done].
  intros _ l (A' & Es & St). split; [done|]. intros c m (slot & st & E & Et) Vc. rewrite Es in E.
  assert (I : id_of m = c). { destruct A as (C & <- & _). by destruct (core_chat _ _ _ C Vc) as (_ & _ & _ & _ & _ & I & _). }
  rewrite <- I. apply St, Ms. rewrite I. split; [by exists slot, st|done].
Qed.

(** ** Opening a layer *)
Section opening.
Variable timestamp_text : Timestamp -> bytes.

Lemma open_slots_spec l : forall acc,
  NoDup (chat_id <$> l) -> (forall s, s ∈ l -> acc !! chat_id s = None) ->
  exists m, open_slots l acc = Ok m /\
    (forall s, s ∈ l -> m !! chat_id s = Some {| slot_summary := s; slot_store := None |})
    /\ (forall c, c ∉ chat_id <$> l -> m !! c = acc !! c).
Proof.
  induction l as [|s l IH]; intros acc N D; cbn; [exists acc; split_and!; [done|set_solver|done]|].
  apply NoDup_cons in N as [Ns N]. rewrite D by set_solver.
  destruct (IH (<[chat_id s := {| slot_summary := s; slot_store := None |}]> acc) N) as (m & E & H1 & H2).
  { intros s' I. rewrite lookup_insert_ne; [apply D; set_solver|]. intros Eq. apply Ns. rewrite Eq. by apply list_elem_of_fmap_2. }
  exists m. split_and!; [done| |].
  - intros s' [->|I]%elem_of_cons; [rewrite H2 by done; apply lookup_insert_eq|by apply H1].
  - intros c [Nc Nl]%not_elem_of_cons. rewrite H2 by done. by apply lookup_insert_ne.
Qed.
Lemma elem_of_summaries d s :
  s ∈ load_chat_summaries timestamp_text d <->
  exists r, chat_rows d !! chat_id s = Some r /\ row_archived r = false /\ s = row_summary (chat_id s) r.
Proof.
  unfold load_chat_summaries. rewrite sort_by_perm, list_elem_of_omap. split.
  - intros ([c r] & I%elem_of_map_to_list & E). destruct (row_archived r) eqn:A; [done|]. injection E as <-. by exists r.
  - intros (r & E & A & Es). exists (chat_id s, r). split; [by apply elem_of_map_to_list|]. rewrite A. by f_equal.
Qed.
Lemma NoDup_omap_keys {K A B} (f : B -> K) (g : K * A -> option B) (l : list (K * A)) :
  (forall k v y, g (k, v) = Some y -> f y = k) -> NoDup l.*1 -> NoDup (f <$> omap g l).
Proof.
  intros G. induction l as [|[k v] l IH]; intros N; cbn; [constructor|]. apply NoDup_cons in N as [Nk N].
  destruct (g (k, v)) as [y|] eqn:E; [|by apply IH]. cbn. constructor; [|by apply IH].
  rewrite (G _ _ _ E). intros (z & -> & ([k' v'] & I & E')%list_elem_of_omap)%list_elem_of_fmap. apply Nk.
  rewrite (G _ _ _ E'). by apply (list_elem_of_fmap_2 fst _ (k', v')).
Qed.
Lemma NoDup_summaries d : NoDup (chat_id <$> load_chat_summaries timestamp_text d).
Proof.
  unfold load_chat_summaries. rewrite sort_by_perm. apply NoDup_omap_keys; [|apply NoDup_fst_map_to_list].
  intros k r y E. case_match; [done|]. by injection E as <-.
Qed.

Lemma open_slot l sl c slot :
  open_slots (load_chat_summaries timestamp_text (db l)) ∅ = Ok sl ->
  sl !! c = Some slot <->
  exists r, chat_rows (db l) !! c = Some r /\ row_archived r = false /\ slot = {| slot_summary := row_summary c r; slot_store := None |}.
Proof.
  intros E0. destruct (open_slots_spec (load_chat_summaries timestamp_text (db l)) ∅ (NoDup_summaries _)) as (? & E & H1 & H2); [set_solver|].
  rewrite E in E0. injection E0 as ->. split.
  - intros Ec. destruct (decide (c ∈ chat_id <$> load_chat_summaries timestamp_text (db l))) as [I|N].
    + apply list_elem_of_fmap in I as (s & -> & I). rewrite H1 in Ec by done. injection Ec as <-.
      apply elem_of_summaries in I as (r & Er & Ar & Es). exists r. by rewrite <- Es.
    + rewrite H2 in Ec by done. by rewrite lookup_empty in Ec.
  - intros (r & Er & Ar & ->). apply (H1 (row_summary c r)). apply elem_of_summaries. by exists r.
Qed.
Lemma open_succeeds d g : exists l', open timestamp_text d g = Ok l' /\ db l' = d
  /\ layer_chats l' = load_chat_summaries timestamp_text d /\ open_slots (load_chat_summaries timestamp_text d) ∅ = Ok (slots l').
Proof.
  unfold open. destruct (open_slots_spec (load_chat_summaries timestamp_text d) ∅ (NoDup_summaries _)) as (sl & -> & _); [set_solver|].
  by eexists.
Qed.

(** A chat as it is after a restart. *)
Definition recovered (m x : Chat) : Prop := behind m x /\ queued_prompts x = [].
Lemma stored_view d c x r :
  stored d c x -> chat_rows d !! c = Some r ->
  view_slot d c {| slot_summary := row_summary c r; slot_store := None |} = Some x /\ behind x x /\ summary x = row_summary c r.
Proof.
  intros St Er. rewrite (view_stored _ _ _ _ St) by done. destruct St as [(r' & Er' & _ & _ & R) _ _ _ _]. simplify_eq.
  split_and!; [by destruct x; cbn in *; subst|split; [by rewrite R|apply agrees_refl..|done]|done].
Qed.
Lemma open_recovers V l g :
  At V V l ->
  exists l' V', open timestamp_text (db l) g = Ok l' /\ At V' V' l'
    /\ forall c, match V !! c, V' !! c with Some m, Some x => recovered m x /\ stored (db l) c x | None, None => True | _, _ => False end.
Proof.
  intros (C & <- & L). destruct (open_succeeds (db l) g) as (l' & Eo & Ed & El & Es). exists l', (chats_of l'). split; [done|].
  assert (Sl := fun c slot => open_slot l (slots l') c slot Es).
  assert (Act : forall c r, chat_rows (db l) !! c = Some r -> row_archived r = false -> exists m x,
     chats_of l !! c = Some m /\ chats_of l' !! c = Some x /\ stored (db l) c x /\ behind m x).
  { intros c r Er Ar. destruct (core_row _ C c r Er Ar) as [slot E]. destruct (core_slot _ C _ _ E) as (m & x & V & _ & _ & St & B).
    exists m, x. split_and!; [by rewrite chats_of_lookup, E| |done|done].
    rewrite chats_of_lookup, (proj2 (Sl c _)) by (by exists r). cbn. rewrite Ed. by apply stored_view. }
  split.
  - split_and!; [split|done|].
    + intros c slot (r & Er & Ar & ->)%Sl. destruct (Act c r Er Ar) as (m & x & _ & _ & St & B). destruct (stored_view _ _ _ _ St Er) as (V & B' & S).
      exists x, x. rewrite Ed. split_and!; try done. by rewrite S.
    + intros c r. rewrite Ed. intros Er Ar. eexists. apply Sl. by exists r.
    + intros c. rewrite Ed. apply C.
    + rewrite El. split; [apply NoDup_summaries|]. intros s. rewrite elem_of_summaries, chats_of_lookup. split.
      * intros (r & Er & Ar & Ess). destruct (Act _ r Er Ar) as (m & x & _ & Ex & St & _). rewrite chats_of_lookup in Ex.
        exists x. split; [done|]. destruct (stored_view _ _ _ _ St Er) as (_ & _ & ->). done.
      * intros (x & Ex & <-). destruct (slots l' !! _) as [slot|] eqn:Esl; [|done]. apply Sl in Esl as (r & Er & Ar & ->). exists r.
        destruct (Act _ r Er Ar) as (m & x' & _ & Ex' & St & _). cbn [mbind option_bind] in Ex. rewrite Ed in Ex.
        destruct (stored_view _ _ _ _ St Er) as (Vx & _ & Sx). split_and!; [done|done|]. rewrite Vx in Ex. by injection Ex as ->.
  - intros c. destruct (chats_of l !! c) as [m|] eqn:Em.
    + destruct (core_chat _ _ _ C Em) as (slot & x & _ & _ & _ & _ & St & B). destruct St as [(r & Er & Ar & _) _ _ _ Q].
      destruct (Act c r Er Ar) as (m' & x' & Em' & -> & St' & B'). simplify_eq. split; [split; [done|apply St']|done].
    + rewrite chats_of_lookup. destruct (slots l' !! c) as [slot|] eqn:E; [|done]. apply Sl in E as (r & Er & Ar & ->).
      destruct (Act c r Er Ar) as (m' & x' & Em' & _). congruence.
Qed.
End opening.

(** ** Archived chats stay archived *)
Definition archived (c : bytes) (d : Db) : Prop := exists r, chat_rows d !! c = Some r /\ row_archived r = true.
Definition buried (G : gset bytes) (l : Layer) : Prop := forall c, c ∈ G -> archived c (db l).
Definition preserves_archived (f : Db -> outcome StateLayerError Db) : Prop :=
  forall c d d', archived c d -> f d = Ok d' -> archived c d'.

Lemma store_summary_archived s : preserves_archived (store_summary s).
Proof.
  intros c d d' (r & E & A). unfold store_summary. destruct (chat_rows d !! chat_id s) as [r'|] eqn:E'; [|intros [= <-]; by exists r].
  case_match; [|done]. intros [= <-]. unfold archived. cbn. destruct (decide (chat_id s = c)) as [<-|N].
  - simplify_eq. rewrite lookup_insert_eq. by eexists.
  - rewrite lookup_insert_ne by done. by exists r.
Qed.
Lemma same_rows_archived f : (forall d d', f d = Ok d' -> chat_rows d' = chat_rows d) -> preserves_archived f.
Proof. intros H c d d' A E. unfold archived. by rewrite (H _ _ E). Qed.
Lemma for_each_archived {A} (f : A -> Db -> outcome StateLayerError Db) l :
  (forall a, preserves_archived (f a)) -> preserves_archived (for_each f l).
Proof.
  intros H c. induction l as [|a l IH]; intros d d' Ar; cbn; [by intros [= <-]|].
  intros (d1 & E1 & E2)%obind_Ok. eapply IH; [|done]. by eapply H.
Qed.
Lemma store_turn_archived s : preserves_archived (store_turn s).
Proof. apply same_rows_archived. by intros d d' ->%store_turn_Ok. Qed.
Lemma store_timeline_entry_archived s : preserves_archived (store_timeline_entry s).
Proof. apply same_rows_archived. by intros d d' ->%store_timeline_entry_Ok. Qed.
Lemma store_attachment_archived s : preserves_archived (store_attachment s).
Proof. apply same_rows_archived. by intros d d' ->%store_attachment_Ok. Qed.
Lemma resume_cursor_archived c cursor d c' : archived c' d -> archived c' (db_store_resume_cursor c cursor d).
Proof.
  intros (r & E & A). unfold db_store_resume_cursor, archived. destruct (chat_rows d !! c) as [r'|] eqn:E'; [|by exists r]. cbn.
  destruct (decide (c = c')) as [->|N]; [simplify_eq; rewrite lookup_insert_eq; by eexists|]. rewrite lookup_insert_ne by done. by exists r.
Qed.
Lemma durable_update_archived u : preserves_archived (apply_durable_update u).
Proof.
  intros c d d' A. unfold apply_durable_update.
  intros (d1 & E1 & (d2 & E2 & (d3 & E3 & (d4 & E4 & E5)%obind_Ok)%obind_Ok)%obind_Ok)%obind_Ok.
  eapply (for_each_archived _ _ store_attachment_archived); [|done].
  eapply (for_each_archived _ _ store_timeline_entry_archived); [|done].
  eapply (for_each_archived _ _ store_turn_archived); [|done].
  assert (A1 : archived c d1). { destruct (du_summary u); [by eapply store_summary_archived|by injection E1 as <-]. }
  repeat case_match; simplify_eq; try done; by apply resume_cursor_archived.
Qed.
Lemma create_archived s : preserves_archived (db_create_chat s).
Proof.
  intros c d d' (r & E & A). unfold db_create_chat. case_match eqn:K; [done|]. intros [= <-]. bool_prop. exists r. cbn. split; [|done].
  rewrite lookup_insert_ne; [done|]. intros <-. rewrite E in H. by apply H.
Qed.
Lemma archive_archived c d b d' c' : archived c' d -> db_archive_chat c d = (b, d') -> archived c' d'.
Proof.
  intros (r & E & A). unfold db_archive_chat. destruct (chat_rows d !! c) as [r'|] eqn:E'; [|intros [= _ <-]; by exists r].
  destruct (row_archived r'); intros [= _ <-]; [by exists r|]. unfold archived. cbn.
  destruct (decide (c = c')) as [->|N]; [simplify_eq; rewrite lookup_insert_eq; by eexists|]. rewrite lookup_insert_ne by done. by exists r.
Qed.

Section buried.
Context (G : gset bytes).
Lemma buried_transaction f : preserves_archived f -> keeps (buried G) (transaction f).
Proof.
  intros P. eapply triple_weaken; [apply (triple_transaction (buried G))|done| |done].
  intros ? ? (l & d & B & E & ->) c I. eapply P; [|done]. by apply B.
Qed.
Lemma buried_same (f : Layer -> Layer) : (forall l, db (f l) = db l) -> keeps (buried G) (put f : run unit).
Proof. intros E. apply keeps_put. intros l B c I. rewrite E. by apply B. Qed.
Lemma buried_draw : keeps (buried G) draw_generation.
Proof. unfold draw_generation. walk. by apply buried_same. Qed.
Lemma buried_list_apply m : keeps (buried G) (list_apply m).
Proof. unfold list_apply. apply keeps_bind; [apply buried_draw|intros ?]. by apply buried_same. Qed.
Lemma buried_store_update u : keeps (buried G) (store_update u).
Proof. unfold store_update. case_match; [apply keeps_ret|]. apply buried_transaction, durable_update_archived. Qed.
Lemma buried_materialize c : keeps (buried G) (materialize_chat_locked c).
Proof.
  unfold materialize_chat_locked, query.
  repeat first [by apply buried_same | apply buried_draw | progress walk].
Qed.
Lemma buried_chat_store c : keeps (buried G) (chat_store c).
Proof. unfold chat_store. walk. Qed.
Lemma buried_chat c : keeps (buried G) (chat c).
Proof. apply keeps_bind; [apply buried_materialize|intros ?]. case_match; [apply keeps_ret|]. walk. Qed.
Lemma buried_chat_apply c m : keeps (buried G) (chat_apply c m).
Proof. apply keeps_bind; [apply buried_draw|intros ?]. apply buried_same. intros l. by case_match. Qed.
Lemma buried_apply_chat_update c m : keeps (buried G) (apply_chat_update c m).
Proof.
  apply keeps_bind; [apply buried_materialize|intros ?]. case_match; [apply keeps_raise|].
  apply keeps_bind; [apply buried_chat_store|intros [st|]; [|apply keeps_raise]].
  do 2 (apply keeps_bind; [apply keeps_outcome|intros ?]). apply keeps_bind; [apply buried_store_update|intros ?].
  apply keeps_bind; [apply buried_chat_apply|intros ?]. apply keeps_bind; [|intros ?; case_match; [by apply buried_same|apply keeps_ret]].
  apply buried_same. intros l. by repeat case_match.
Qed.
Lemma buried_apply_update u : keeps (buried G) (apply_update u).
Proof.
  apply keeps_bind; [apply keeps_outcome|intros ?]. apply keeps_bind; [|intros ?].
  - case_match; [|apply keeps_ret]. case_match. apply buried_apply_chat_update.
  - case_match; [apply buried_list_apply|apply keeps_ret].
Qed.
Lemma buried_checkpoint ms : keeps (buried G) (storage_checkpoint ms).
Proof.
  unfold storage_checkpoint. case_match; [apply keeps_ret|]. apply buried_transaction, for_each_archived.
  intros a. apply durable_update_archived.
Qed.
Lemma buried_create s : keeps (buried G) (create_chat s).
Proof.
  apply keeps_bind; [apply keeps_get|intros ?]. case_match; [apply keeps_raise|].
  apply keeps_bind; [|intros ?; apply keeps_bind; [apply buried_draw|intros ?; apply keeps_bind; [by apply buried_same|intros ?; apply buried_list_apply]]].
  unfold storage_create_chat. eapply triple_bind; [apply triple_fallible|]. intros ?. eapply triple_seq; [apply triple_get|naive_solver|].
  intros l. eapply triple_seq; [apply triple_outcome|naive_solver|]. intros d. apply triple_put. intros ? (E & -> & B) c I.
  eapply create_archived; [|done]. by apply B.
Qed.
Lemma buried_archive c : keeps (buried G) (archive_chat c).
Proof.
  apply keeps_bind; [apply keeps_get|intros ?]. case_match; [apply keeps_ret|]. apply keeps_bind.
  - unfold storage_archive_chat. eapply triple_bind; [apply triple_fallible|]. intros ?. eapply triple_seq; [apply triple_get|naive_solver|].
    intros l. destruct (db_archive_chat c (db l)) as [b d] eqn:E. eapply triple_bind; [|intros ?; apply triple_ret; intros ? X; exact X].
    apply triple_put. intros ? [<- B] c' I. eapply archive_archived; [|done]. by apply B.
  - intros ?. case_match; [apply keeps_ret|]. apply keeps_bind; [by apply buried_same|intros ?].
    apply keeps_bind; [apply buried_list_apply|intros ?; apply keeps_ret].
Qed.
Lemma buried_checkpoint_chat c : keeps (buried G) (checkpoint_chat c).
Proof.
  apply keeps_bind; [apply buried_materialize|intros ?]. case_match; [apply keeps_ret|].
  apply keeps_bind; [apply buried_chat_store|intros [st|]; [|apply keeps_raise]].
  apply keeps_bind; [apply buried_checkpoint|intros ?; apply keeps_ret].
Qed.
Lemma buried_checkpoint_all : keeps (buried G) checkpoint.
Proof. apply keeps_bind; [apply keeps_get|intros ?; apply buried_checkpoint]. Qed.
Lemma buried_subscribe c after : keeps (buried G) (subscribe_chat c after).
Proof.
  apply keeps_bind; [apply buried_materialize|intros ?]. case_match; [apply keeps_ret|].
  apply keeps_bind; [apply buried_chat_store|intros ?; apply keeps_ret].
Qed.
End buried.

(** Archiving buries, and a buried chat is not created again. *)
Lemma triple_archive_buries c :
  triple (fun _ => True) (archive_chat c) (fun b l => b = true -> archived c (db l)) (fun _ => True).
Proof.
  unfold archive_chat. eapply triple_seq; [apply triple_get|done|]. intros l0. case_match; [by apply triple_ret|].
  eapply (triple_bind _ _ _ (fun b l => b = true -> archived c (db l))).
  - unfold storage_archive_chat. eapply triple_seq; [apply triple_fallible|done|]. intros ?. eapply triple_seq; [apply triple_get|done|].
    intros l. destruct (db_archive_chat c (db l)) as [b d] eqn:E. eapply triple_bind; [|intros ?; apply triple_ret; intros ? X; exact X].
    apply triple_put. intros ? _ ->. unfold db_archive_chat in E. repeat case_match; simplify_eq. unfold archived. cbn. rewrite lookup_insert_eq. by eexists.
  - intros [|]; cbn; [|by apply triple_ret]. eapply (triple_bind _ _ _ (fun _ l => archived c (db l))); [apply triple_put; by intros l A; apply A|].
    intros ?. eapply (triple_bind _ _ _ (fun _ l => archived c (db l))); [|intros ?; by apply triple_ret].
    eapply (triple_bind _ _ _ (fun _ l => archived c (db l))); [by apply triple_draw|]. intros ?. by apply triple_put.
Qed.
Lemma triple_create_buried s :
  triple (fun l => archived (chat_id s) (db l)) (create_chat s) (fun _ _ => False) (fun _ => True).
Proof.
  unfold create_chat. eapply triple_seq; [apply triple_get|done|]. intros l0. case_match; [by apply triple_raise|].
  eapply (triple_bind _ _ _ (fun _ _ => False)); [|by intros ? ?]. unfold storage_create_chat.
  eapply triple_seq; [apply triple_fallible|done|]. intros ?. eapply triple_seq; [apply triple_get|done|]. intros l.
  eapply triple_seq; [apply triple_outcome|done|]. intros d. apply triple_put. intros l' (E & -> & _ & r & Er & _).
  unfold db_create_chat in E. by rewrite Er in E.
Qed.
