(* ===== verification/ChatProps.v ===== *)
(** * What the chat state promises

    Recovery, exactness of checkpoints, permanence of history and agreement of the
    list, for every sequence of operations and restarts and every storage fault. *)

From S2P Require Import Prelude Effects Lists Store ChatTypes ChatReduce ChatStorage ChatLayer ChatUsage ChatState ChatDurable ChatInv.

(** * Properties of the chat state

    Every operation of the chat state, under any storage faults and any restarts,
    acts on the map of chats by whole mutations; what a restart recovers; what
    stays true of a chat for ever. *)

(** ** Operations *)
Inductive Op :=
| OpChat (c : bytes)
| OpArchive (c : bytes)
| OpAcknowledge (c : bytes)
| OpCreate (fresh : bytes) (now : Timestamp) (r : CreateChatRequest)
| OpSetCostCenter (c : bytes) (i : option bytes)
| OpIngest (fresh c b : bytes) (e : HarnessEvent)
| OpResumption (c : bytes)
| OpSetBinding (c : bytes) (b : option ChatBinding) (e : option ChatBindingError)
| OpSetQueue (c : bytes) (q : list ChatQueuedPrompt)
| OpAttach (c : bytes) (a : ChatPromptAttachment)
| OpSetModel (c : bytes) (m : ChatModelSelection) (now : Timestamp)
| OpReplaceTitle (c expected replacement : bytes) (now : Timestamp)
| OpFinish (c b : bytes) (e : option ChatBindingError) (now : Timestamp)
| OpUsage (from until : Timestamp)
| OpSubscribe (c : bytes) (after : option Stamp)
| OpCheckpoint.
Definition ignore {A} (m : op A) : op unit := do! m; ret tt.
Definition exec (o : Op) : op unit :=
  match o with
  | OpChat c => ignore (state_chat c)
  | OpArchive c => state_archive_chat c
  | OpAcknowledge c => acknowledge_attention c
  | OpCreate fresh now r => ignore (state_create_chat fresh now r)
  | OpSetCostCenter c i => set_cost_center c i
  | OpIngest fresh c b e => ingest_harness_event fresh c b e
  | OpResumption c => ignore (state_harness_resumption c)
  | OpSetBinding c b e => set_binding c b e
  | OpSetQueue c q => set_prompt_queue c q
  | OpAttach c a => upsert_attachment c a
  | OpSetModel c m now => set_model c m now
  | OpReplaceTitle c x y now => ignore (replace_title c x y now)
  | OpFinish c b e now => finish_binding c b e now
  | OpUsage f u => ignore (state_usage_report f u)
  | OpSubscribe c after => ignore (layer (subscribe_chat c after))
  | OpCheckpoint => state_checkpoint
  end.

(** ** What operations do to the chats

    The chats and the identifiers of those that were archived. *)
Definition Chats : Type := gmap bytes Chat * gset bytes.
Inductive change : Chats -> Chats -> Prop :=
| change_create V G s : V !! chat_id s = None -> chat_id s ∉ G -> change (V, G) (<[chat_id s := empty_chat s]> V, G)
| change_archive V G c : change (V, G) (delete c V, {[c]} ∪ G)
| change_mutate V G c m cur next :
    V !! c = Some cur -> keeps_identity m cur -> apply_chat_mutation cur m = Ok next -> change (V, G) (<[c := next]> V, G).

(** From the chats [S0] by whole changes; and the chat [c] is [x]. *)
Definition Holds (S : Chats) (l : Layer) : Prop := At S.1 S.1 l /\ buried S.2 l.
Definition Reaches (S0 : Chats) (l : Layer) : Prop := exists S, rtc change S0 S /\ Holds S l.
Definition Reading (S0 : Chats) (c : bytes) (x : Chat) (l : Layer) : Prop :=
  exists S, (rtc change S0 S /\ S.1 !! c = Some x) /\ Holds S l.
Lemma reading_reaches S0 c x l : Reading S0 c x l -> Reaches S0 l.
Proof. intros (S & [R _] & H). by exists S. Qed.

Section operations.
Context (V0 : Chats).
Implicit Types (c : bytes).

(** Operations of the layer, seen from the chat state. *)
Lemma keeps_holds {A} (m : run A) S :
  (forall V, keeps (At V V) m) -> (forall G, keeps (buried G) m) -> keeps (Holds S) (layer m).
Proof. intros K B. apply keeps_map_err, keeps_and; [apply K|apply B]. Qed.
Lemma keeps_layer {A} (m : run A) :
  (forall V, keeps (At V V) m) -> (forall G, keeps (buried G) m) -> keeps (Reaches V0) (layer m).
Proof.
  intros K B. apply triple_exists. intros S. apply triple_pure. intros R.
  eapply triple_weaken; [by apply keeps_holds|done|by exists S..].
Qed.
Lemma keeps_reading_layer {A} c x (m : run A) :
  (forall V, keeps (At V V) m) -> (forall G, keeps (buried G) m) -> keeps (Reading V0 c x) (layer m).
Proof.
  intros K B. apply triple_exists. intros S. apply triple_pure. intros R.
  eapply triple_weaken; [by apply keeps_holds|done|by exists S..].
Qed.
Lemma triple_read c :
  triple (Reaches V0) (layer (chat c))
    (fun r l => match r with Some x => Reading V0 c x l | None => Reaches V0 l end) (Reaches V0).
Proof.
  apply triple_exists. intros S. apply triple_pure. intros R. apply triple_map_err.
  eapply triple_weaken; [apply triple_conj; [apply triple_chat|apply buried_chat]|intros ? H; exact H| |by exists S].
  intros r l [[A ->] B]. destruct (S.1 !! c) eqn:E; by exists S.
Qed.
(** Reading a chat or its summary before going on. *)
Lemma with_chat {B} c message (k : Chat -> op B) Q :
  (forall x, triple (Reading V0 c x) (k x) Q (Reaches V0)) ->
  triple (Reaches V0) (do x <- layer (chat c); do x <- known message x; k x) Q (Reaches V0).
Proof.
  intros K. eapply triple_bind; [apply triple_read|]. intros [x|]; [|by apply triple_raise].
  eapply (triple_bind _ _ _ (fun y l => y = x /\ Reading V0 c x l)); [by intros w|].
  intros y. apply triple_pure. intros ->. apply K.
Qed.
Lemma with_summary {B} c (k : ChatSummary -> op B) Q :
  (forall x, triple (Reading V0 c x) (k (summary x)) Q (Reaches V0)) ->
  triple (Reaches V0) (do s <- summary_of c; k s) Q (Reaches V0).
Proof.
  intros K. eapply (triple_bind _ _ _ (fun s l => exists x, s = summary x /\ Reading V0 c x l)).
  - eapply triple_bind; [apply triple_read|]. intros [x|]; [intros w H; by exists x|by apply triple_raise].
  - intros s. apply triple_exists. intros x. apply triple_pure. intros ->. apply K.
Qed.
Lemma reading_id c x l : Reading V0 c x l -> chat_id (summary x) = c.
Proof. intros ([V G] & [_ E] & (C & Ec & _) & _). cbn in *. subst. by destruct (core_chat _ _ _ C E) as (_ & _ & _ & _ & _ & I & _). Qed.
Lemma triple_issue c x u :
  (forall V, V !! c = Some x -> issued V u) ->
  triple (Reading V0 c x) (layer (apply_update u)) (fun _ => Reaches V0) (Reaches V0).
Proof.
  intros Is. apply triple_map_err, triple_exists. intros [V G]. apply triple_pure. intros [R E]. cbn in E.
  eapply triple_weaken; [apply triple_conj; [apply triple_apply_update, Is, E|apply (buried_apply_update G)]|done| |by exists (V, G)].
  intros ? l [(c' & m & cur & next & Eu & Ec & Ap & A) B]. exists (<[c' := next]> V, G). split; [|done].
  eapply rtc_r; [done|]. apply (change_mutate _ _ _ m cur); [done| |done]. specialize (Is V E).
  unfold issued in Is. destruct u as [list ch]. cbn in Eu. subst. destruct list as [[]|]; [by apply Is|done|by apply Is].
Qed.
(** A mutation other than of the summary, and a new summary of the chat read. *)
Lemma triple_mutate c x m :
  match m with UpdateSummary _ => False | _ => True end ->
  triple (Reading V0 c x) (layer (apply_update {| up_list := None; up_chat := Some (c, m) |})) (fun _ => Reaches V0) (Reaches V0).
Proof. intros H. apply triple_issue. intros V E cur _. by destruct m. Qed.
Definition renewed (s : ChatSummary) (x : Chat) : Prop :=
  chat_id s = chat_id (summary x) /\ purpose s = purpose (summary x) /\ created_at s = created_at (summary x).
Lemma triple_apply_summary c x s :
  renewed s x -> triple (Reading V0 c x) (apply_summary s) (fun _ => Reaches V0) (Reaches V0).
Proof.
  intros (I & P & T). apply triple_at. intros l H. pose proof (reading_id _ _ _ H) as Ix. eapply triple_weaken.
  - apply (triple_issue c x). intros V E cur. cbn. rewrite I, Ix, E. by intros [= <-].
  - by intros ? ->.
  - intros ? ? R. exact R.
  - intros ? R. exact R.
Qed.
Lemma keeps_touch_summary c t attention : keeps (Reaches V0) (touch_summary c t attention).
Proof. apply with_chat. intros x. apply triple_apply_summary. unfold renewed. by case_match. Qed.
Lemma keeps_create fresh now r : keeps (Reaches V0) (state_create_chat fresh now r).
Proof.
  unfold state_create_chat. apply keeps_bind; [apply keeps_outcome|intros _].
  apply keeps_bind; [|intros ?; apply keeps_ret]. apply triple_map_err, triple_exists. intros [V G]. apply triple_pure. intros R.
  set (s := Build_ChatSummary _ _ _ _ _ _ _ _ _ _ _ _ _ _).
  pose proof (triple_conj _ _ _ _ _ _ _ (triple_create_chat V s) (buried_create G s)) as T.
  destruct (decide (chat_id s ∈ G)) as [I|N].
  - eapply triple_weaken; [apply (triple_conj _ _ _ _ _ _ _ T (triple_create_buried s))| |by intros ? ? []|intros ? [H _]; by exists (V, G)].
    intros l [A B]. split; [done|by apply B].
  - eapply triple_weaken; [exact T|done| |by exists (V, G)]. intros ? l [[Nv A] B]. eexists (_, G). split; [|by split].
    eapply rtc_r; [done|]. by apply change_create.
Qed.
Lemma keeps_archive c : keeps (Reaches V0) (state_archive_chat c).
Proof.
  unfold state_archive_chat. apply keeps_bind; [|intros ?; walk]. apply triple_map_err, triple_exists. intros [V G].
  apply triple_pure. intros R.
  eapply triple_weaken;
    [apply triple_conj; [apply (triple_conj _ _ _ _ _ _ _ (triple_archive_chat V c) (buried_archive G c))|apply (triple_archive_buries c)]
    |intros ? H; split; [exact H|done]| |intros ? [H _]; by exists (V, G)].
  intros [|] l [[A B] Ar]; [|by exists (V, G)]. exists (delete c V, {[c]} ∪ G).
  split; [eapply rtc_r; [done|apply change_archive]|]. split; [done|]. cbn. intros c' [->%elem_of_singleton|I]%elem_of_union; [by apply Ar|by apply B].
Qed.
Lemma reconcile_update fresh x b e r u :
  reconcile_harness_event fresh x b e = Ok r -> re_update r = Some u ->
  (exists m, u = {| up_list := None; up_chat := Some (chat_id (summary x), m) |}
             /\ match m with UpdateSummary _ => False | _ => True end)
  \/ (exists s, u = summary_update s /\ renewed s x /\ title s = title (summary x) /\ cost_center_id s = cost_center_id (summary x)).
Proof.
  unfold reconcile_harness_event. intros (p & P & H)%obind_Ok.
  assert (match p with
          | Continue (Some m) _ _ => match m with UpdateSummary _ => False | _ => True end
          | Continue None _ _ => True
          | Return r =>
              match re_update r with
              | Some u => exists s, u = summary_update s /\ renewed s x /\ title s = title (summary x)
                                    /\ cost_center_id s = cost_center_id (summary x)
              | None => True
              end
          end) as X.
  { unfold reconcile_payload, reconcile_turn_started, reconcile_usage, reconcile_turn_completed, reconcile_item_completed in P.
    destruct (payload e); repeat (first [done | match goal with H : obind _ _ = Ok _ |- _ => apply obind_Ok in H as (? & _ & H) end
      | case_hyp P | injection P as <-]); cbn; try done; eexists; (split; [done|done]). }
  destruct p as [[m|] cur t|r']; simplify_eq; cbn; [|done|].
  - intros [= <-]. left. by exists m.
  - intros E. rewrite E in X. by right.
Qed.
Lemma keeps_ingest fresh c b e : keeps (Reaches V0) (ingest_harness_event fresh c b e).
Proof.
  apply with_chat. intros x. eapply triple_seq; [apply triple_outcome|apply reading_reaches|]. intros ?. apply triple_pure. intros _.
  eapply triple_seq; [apply triple_outcome|apply reading_reaches|]. intros r. apply triple_pure. intros E.
  eapply (triple_seq _ _ _ (fun _ => Reading V0 c x)); [|apply reading_reaches|].
  { destruct (re_resume_cursor r); [|by apply triple_ret]. apply keeps_reading_layer; intros; [apply triple_store_resume_cursor|apply buried_store_update]. }
  intros ?. eapply (triple_bind _ _ _ (fun _ => Reaches V0)).
  - destruct (re_update r) as [u|] eqn:Eu; [|apply triple_ret, reading_reaches].
    apply triple_at. intros l H. pose proof (reading_id _ _ _ H) as Ix.
    eapply triple_weaken with (P := Reading V0 c x); [|by intros ? ->|intros ? ? R; exact R|intros ? R; exact R].
    destruct (reconcile_update _ _ _ _ _ _ E Eu) as [(m & -> & Nm)|(s & -> & Re & _)]; [|by apply triple_apply_summary].
    rewrite Ix. by apply triple_mutate.
  - intros ?. destruct (re_touch_summary r); [apply keeps_touch_summary|apply keeps_ret].
Qed.
Lemma keeps_finish c b e now : keeps (Reaches V0) (finish_binding c b e now).
Proof.
  apply with_chat. intros x. destruct (negb (bound_to x b)); [apply triple_ret, reading_reaches|].
  eapply (triple_bind _ _ _ (fun _ => Reaches V0)).
  - eapply triple_weaken; [apply triple_attempt, triple_apply_summary|done| |done].
    + unfold renewed, unbound_summary. by case_match.
    + by intros [] l.
  - intros ?. as_keeps. apply keeps_bind; [|intros ?; walk]. apply keeps_attempt, keeps_layer; intros.
    + eapply triple_weaken; [apply triple_checkpoint_chat|done|by intros ? ? []|done].
    + apply buried_checkpoint_chat.
Qed.
Lemma keeps_exec o : keeps (Reaches V0) (exec o).
Proof.
  destruct o; cbn; try (apply keeps_bind; [|intros ?; apply keeps_ret]).
  - apply keeps_layer; [intros V|intros; apply buried_chat]. eapply triple_weaken; [apply triple_chat|done|by intros ? ? []|done].
  - apply keeps_archive.
  - apply with_summary. intros x. case_match; [apply triple_ret, reading_reaches|]. by apply triple_apply_summary.
  - apply keeps_create.
  - apply keeps_bind; [apply keeps_outcome|intros _]. apply with_summary. intros x.
    case_match; [apply triple_ret, reading_reaches|]. by apply triple_apply_summary.
  - apply keeps_ingest.
  - apply keeps_layer; intros; apply keeps_query.
  - apply with_summary. intros x. apply triple_apply_summary. unfold renewed. by case_match.
  - apply with_chat. intros x. by apply triple_mutate.
  - apply with_chat. intros x. by apply triple_mutate.
  - apply with_summary. intros x. by apply triple_apply_summary.
  - apply with_summary. intros x. case_match; [apply triple_ret, reading_reaches|]. case_match; [apply triple_ret, reading_reaches|].
    eapply triple_bind; [by apply triple_apply_summary|]. intros ?. by apply triple_ret.
  - apply keeps_finish.
  - apply keeps_bind; [apply keeps_outcome|intros _]. apply keeps_bind; [|intros ?; apply keeps_outcome].
    apply keeps_layer; intros; apply keeps_query.
  - apply keeps_layer; [intros V|intros; apply buried_subscribe]. unfold subscribe_chat. eapply triple_bind; [apply triple_materialize|].
    intros [|]; cbn; [|by apply triple_ret; intros ? []]. eapply triple_bind; [apply triple_chat_store; naive_solver|].
    intros ?. apply triple_ret. naive_solver.
  - apply keeps_layer; [intros V|intros; apply buried_checkpoint_all]. eapply triple_weaken; [apply triple_checkpoint|done|by intros ? ? []|done].
Qed.
End operations.

(** ** Executions: operations and restarts *)
Section executions.
Variable timestamp_text : Timestamp -> bytes.

Inductive step : Layer -> Layer -> Prop :=
| step_exec w o : step (dir w) (dir (exec o w).2)
| step_restart l g l' : open timestamp_text (db l) g = Ok l' -> step l l'.
Definition reachable (l : Layer) : Prop := exists g l0, open timestamp_text empty_db g = Ok l0 /\ rtc step l0 l.

Lemma empty_layer g l : open timestamp_text empty_db g = Ok l -> Holds (∅, ∅) l.
Proof.
  intros E. destruct (open_succeeds timestamp_text empty_db g) as (l' & E' & Ed & El & Es). rewrite E in E'. injection E' as <-.
  assert (Sn : load_chat_summaries timestamp_text empty_db = []) by done. rewrite Sn in *. injection Es as Es.
  split; [|set_solver]. split_and!; [split|..].
  - intros c slot. by rewrite <- Es.
  - intros c r. by rewrite Ed.
  - intros c _ k. by rewrite Ed.
  - unfold chats_of. by rewrite <- Es.
  - rewrite El. split; [constructor|]. intros s. split; [set_solver|]. by intros (m & ? & _).
Qed.
Lemma open_At V l g l' :
  At V V l -> open timestamp_text (db l) g = Ok l' ->
  db l' = db l /\ At (chats_of l') (chats_of l') l'
  /\ forall c, match V !! c, chats_of l' !! c with
              | Some m, Some x => recovered m x /\ stored (db l) c x
              | None, None => True
              | _, _ => False
              end.
Proof.
  intros A E. destruct (open_recovers timestamp_text V l g A) as (l1 & V' & E' & A' & R). rewrite E in E'. injection E' as <-.
  destruct (open_succeeds timestamp_text (db l) g) as (l2 & E2 & Ed & _). rewrite E in E2. injection E2 as <-.
  destruct A' as (C' & <- & L'). split_and!; [done..|]. exact R.
Qed.
Lemma step_holds l l' : step l l' -> forall S, Holds S l -> exists S', Holds S' l'.
Proof.
  intros [w o|l1 g l1' E] S H.
  - assert (K : Reaches S (dir w)) by (exists S; by split; [apply rtc_refl|]).
    destruct (keeps_after _ _ w (keeps_exec S o) K) as (S' & _ & H'). by exists S'.
  - destruct S as [V G]. destruct H as [A B]. destruct (open_At _ _ _ _ A E) as (Ed & A' & _). exists (chats_of l1', G).
    split; [done|]. intros c I. rewrite Ed. by apply B.
Qed.
Lemma reachable_holds l : reachable l -> exists S, Holds S l.
Proof.
  intros (g & l0 & E & R). apply empty_layer in E. revert E. generalize (∅ : gmap bytes Chat, ∅ : gset bytes). induction R as [l|l l1 l2 St R IH]; intros S H; [by exists S|].
  destruct (step_holds _ _ St _ H) as (S' & H'). by eapply IH.
Qed.
Lemma reachable_At l : reachable l -> At (chats_of l) (chats_of l) l.
Proof. intros ([V G] & (C & E & L) & _)%reachable_holds. cbn in *. by subst. Qed.

(** Without storage faults a chat is read. *)
Lemma chat_reads c l : Core l -> exists w, chat c {| dir := l; faults := [] |} = (Ok (chats_of l !! c), w).
Proof.
  intros C. unfold chat, materialize_chat_locked, andthen, get, chat_store, query, fallible, next_fault, draw_generation, of_outcome, andthen. cbn.
  rewrite chats_of_lookup. destruct (slots l !! c) as [slot|] eqn:E; cbn; [|by eexists].
  destruct (core_slot _ C _ _ E) as (m & x & V & _ & _ & St & _). rewrite V. unfold view_slot in V.
  destruct (slot_store slot) as [st|] eqn:Es; cbn.
  - rewrite E. cbn. rewrite Es. cbn. injection V as <-. by eexists.
  - destruct (materialize_stored _ _ _ St) as (sc & -> & M). rewrite M. cbn. rewrite E. cbn. rewrite lookup_insert_eq. cbn.
    eexists. f_equal. f_equal. rewrite <- V. destruct (materialize_stored _ _ _ St) as (sc' & -> & M'). by rewrite M'.
Qed.
End executions.

(** ** How a chat may change *)
Definition entry_evolves (e e' : ChatTimelineEntry) : Prop :=
  match e, e' with
  | Item i, Item i' => item_id i' = item_id i /\ (item_state i <> ItemStarted -> item_state i' = item_state i)
  | Request r, Request r' => request_id r' = request_id r /\ (resolved r = true -> resolved r' = true)
  | Activity a, Activity a' => activity_id a' = activity_id a
  | _, _ => False
  end.
(** Turns and entries keep their positions, a terminal item its state, a resolved
    request stays resolved, and the chat is the one that was created. *)
Record evolves (m m' : Chat) : Prop := {
  ev_chat : chat_id (summary m') = chat_id (summary m) /\ purpose (summary m') = purpose (summary m)
            /\ created_at (summary m') = created_at (summary m);
  ev_turns : (turn_id <$> turns m) `prefix_of` (turn_id <$> turns m');
  ev_timeline : forall n e, timeline m !! n = Some e -> exists e', timeline m' !! n = Some e' /\ entry_evolves e e'
}.

Lemma entry_evolves_refl e : entry_evolves e e.
Proof. by destruct e; cbn. Qed.
Lemma entry_evolves_trans a b c : entry_evolves a b -> entry_evolves b c -> entry_evolves a c.
Proof.
  destruct a, b, c; cbn; try done; [|intros [E1 H1] [E2 H2]; split; [congruence|auto]|congruence].
  intros [E1 H1] [E2 H2]. split; [congruence|]. intros N. rewrite H2; [auto|]. by rewrite H1.
Qed.
Lemma evolves_refl m : evolves m m.
Proof. split; [done|done|]. intros n e E. exists e. split; [done|apply entry_evolves_refl]. Qed.
Lemma evolves_trans a b c : evolves a b -> evolves b c -> evolves a c.
Proof.
  intros [A1 A2 A3] [B1 B2 B3]. split; [destruct A1 as (?&?&?), B1 as (?&?&?); by split_and!; etrans|by etrans|].
  intros n e (e1 & E1 & V1)%A3. destruct (B3 _ _ E1) as (e2 & E2 & V2). exists e2. split; [done|by eapply entry_evolves_trans].
Qed.
Lemma timeline_insert_evolves (l : list ChatTimelineEntry) n e e' :
  l !! n = Some e -> entry_evolves e e' ->
  forall k x, l !! k = Some x -> exists x', <[n := e']> l !! k = Some x' /\ entry_evolves x x'.
Proof.
  intros E V k x Ek. destruct (decide (k = n)) as [->|N].
  - exists e'. simplify_eq. split; [|done]. apply list_lookup_insert_eq. by eapply lookup_lt_Some.
  - exists x. rewrite list_lookup_insert_ne by done. split; [done|apply entry_evolves_refl].
Qed.
Lemma replacement_evolves e e' :
  timeline_entry_key e' = timeline_entry_key e -> validate_timeline_replacement e e' = Ok tt -> entry_evolves e e'.
Proof.
  destruct e as [i|r|a], e' as [i'|r'|a']; cbn; try done; intros [= K]; try done.
  - case_match eqn:S; [done|]. intros _. split; [done|]. intros N. rewrite bool_decide_false in S by done. cbn in S. by bool_prop.
  - case_match eqn:S; [done|]. intros _. split; [done|]. intros R. rewrite R in S. by destruct (resolved r').
Qed.

Lemma mutation_evolves cur m next : keeps_identity m cur -> apply_chat_mutation cur m = Ok next -> evolves cur next.
Proof.
  intros K Ap. assert (Sm := mutation_summary _ _ _ Ap). assert (Id := mutation_identity _ _ _ Ap).
  assert (Hs : chat_id (summary next) = chat_id (summary cur) /\ purpose (summary next) = purpose (summary cur)
            /\ created_at (summary next) = created_at (summary cur)).
  { split; [done|]. rewrite Sm. destruct m; solve [done | apply K]. }
  assert (Refl : forall n e, timeline cur !! n = Some e -> exists e', timeline cur !! n = Some e' /\ entry_evolves e e').
  { intros n e E. exists e. split; [done|apply entry_evolves_refl]. }
  destruct m as [s|t|e|i delta|i ti|q|a].
  - cbn in Ap. case_match; [done|]. injection Ap as <-. by split.
  - injection Ap as <-. split; [done| |done]. cbn. unfold has_turn_id. rewrite upsert_keys. case_match; [done|]. by apply prefix_app_r.
  - cbn in Ap. destruct (position _ _) as [i|] eqn:P.
    + apply position_Some in P as (y & E & Ky). rewrite E in Ap. apply obind_Ok in Ap as ([] & V & [= <-]).
      split; [done|done|]. unfold has_key in Ky. bool_prop. cbn. eapply timeline_insert_evolves; [done|]. by apply replacement_evolves.
    + injection Ap as <-. split; [done|done|]. cbn. intros n x E. exists x. split; [by apply lookup_app_l_Some|apply entry_evolves_refl].
  - cbn in Ap. destruct (find_timeline_item i _) as [[n item]|] eqn:Fi; [|done].
    apply find_timeline_item_Some in Fi as (E & <- & P). case_match eqn:S; [done|]. bool_prop.
    repeat (case_match; try done). injection Ap as <-. split; [done|done|]. cbn. by eapply timeline_insert_evolves.
  - cbn in Ap. destruct (find_timeline_item i _) as [[n item]|] eqn:Fi; [|done].
    apply find_timeline_item_Some in Fi as (E & <- & P). case_match eqn:S; [done|]. bool_prop.
    injection Ap as <-. split; [done|done|]. cbn. by eapply timeline_insert_evolves.
  - injection Ap as <-. by split.
  - rewrite attachment_mutation in Ap. injection Ap as <-. by split.
Qed.
Lemma recovered_evolves m x : recovered m x -> evolves m x.
Proof.
  intros [[Bs Bt Bl Ba] _]. split; [by rewrite Bs|by rewrite (agrees_keys _ _ _ _ Bt)|].
  intros n e E. destruct (Forall2_lookup_l _ _ _ _ _ Bl E) as (e' & E' & K & T). exists e'. split; [done|].
  apply identity_key in K. destruct (timeline_entry_is_terminal e) eqn:Te; [rewrite T by done; apply entry_evolves_refl|].
  destruct e as [i|r|a]; [|done..]. destruct e'; cbn in K; simplify_eq. split; [done|]. cbn in Te. bool_prop. done.
Qed.

(** ** Following one chat *)
Definition follows (c : bytes) (m : Chat) (S : Chats) : Prop :=
  (exists m', S.1 !! c = Some m' /\ evolves m m') \/ (S.1 !! c = None /\ c ∈ S.2).
Lemma change_follows c m S S' : change S S' -> follows c m S -> follows c m S'.
Proof.
  intros [V G s N Ng|V G c'|V G c' mu cur next E K Ap] F; cbn in *.
  - destruct (decide (chat_id s = c)) as [<-|Nc].
    + destruct F as [(m' & ? & _)|[_ I]]; cbn in *; [congruence|done].
    + unfold follows. cbn. by rewrite lookup_insert_ne.
  - unfold follows. cbn. destruct (decide (c' = c)) as [->|Nc]; [right; rewrite lookup_delete_eq; set_solver|].
    rewrite lookup_delete_ne by done. destruct F as [F|[F I]]; [by left|right; set_solver].
  - unfold follows. cbn. destruct (decide (c' = c)) as [->|Nc]; [|by rewrite lookup_insert_ne].
    destruct F as [(m' & E' & Ev)|[F _]]; cbn in *; [|congruence]. left. exists next. rewrite lookup_insert_eq. split; [done|].
    simplify_eq. eapply evolves_trans; [done|]. by eapply mutation_evolves.
Qed.
Lemma changes_follow c m S S' : rtc change S S' -> follows c m S -> follows c m S'.
Proof. induction 1; eauto using change_follows. Qed.

Section follow.
Variable timestamp_text : Timestamp -> bytes.
Lemma step_follows c m l l' S :
  step timestamp_text l l' -> Holds S l -> follows c m S -> exists S', Holds S' l' /\ follows c m S'.
Proof.
  intros [w o|l1 g l1' E] H F.
  - assert (K : Reaches S (dir w)) by (exists S; by split; [apply rtc_refl|]).
    destruct (keeps_after _ _ w (keeps_exec S o) K) as (S' & R & H'). exists S'. split; [done|by eapply changes_follow].
  - destruct S as [V G]. destruct H as [A B]. destruct (open_At _ _ _ _ _ A E) as (Ed & A' & R). exists (chats_of l1', G).
    split; [split; [done|intros c' I; rewrite Ed; by apply B]|]. specialize (R c). unfold follows in *. cbn in *.
    destruct F as [(m' & E' & Ev)|[E' I]]; rewrite E' in R; destruct (chats_of l1' !! c) as [x|]; try done; [|by right].
    left. exists x. split; [done|]. eapply evolves_trans; [done|by apply recovered_evolves, R].
Qed.
Lemma steps_follow c m l l' S :
  rtc (step timestamp_text) l l' -> Holds S l -> follows c m S -> exists S', Holds S' l' /\ follows c m S'.
Proof.
  intros R. revert S. induction R as [|l l1 l2 St R IH]; intros S H F; [by exists S|].
  destruct (step_follows _ _ _ _ _ St H F) as (S1 & H1 & F1). by eapply IH.
Qed.
End follow.
(** The chat an idle reader gets. *)
Definition reads (l : Layer) (c : bytes) (r : option Chat) : Prop :=
  exists w, chat c {| dir := l; faults := [] |} = (Ok r, w).
Lemma reads_chats l c r : Core l -> reads l c r <-> r = chats_of l !! c.
Proof.
  intros C. destruct (chat_reads c l C) as (w & E). unfold reads. split; [intros (w' & E'); congruence|intros ->; by exists w].
Qed.

(** ** Properties *)

(** C4: Recovery: after any sequence of operations and restarts, with storage faults at
    any point, opening the database succeeds and every chat is read back: the same
    chats, turns and timeline entries at the same positions, with the same
    attachments and summary apart from runtime state; only a turn that was running
    and an item that was started may be older than in memory. *)
Theorem chats_recovered timestamp_text l g :
  reachable timestamp_text l ->
  exists l', open timestamp_text (db l) g = Ok l' /\
  forall c, exists before after, reads l c before /\ reads l' c after /\
    match before, after with Some m, Some x => recovered m x | None, None => True | _, _ => False end.
Proof.
  intros R%reachable_At. destruct (open_recovers timestamp_text _ _ g R) as (l' & V' & E & A' & Rec). exists l'. split; [done|].
  intros c. specialize (Rec c). destruct A' as (C' & <- & _). destruct R as (C & _ & _).
  exists (chats_of l !! c), (chats_of l' !! c). rewrite !reads_chats by done. split_and!; [done|done|].
  destruct (chats_of l !! c), (chats_of l' !! c); try done. apply Rec.
Qed.

(** C27: Exact checkpoints: when the checkpoint of a graceful shutdown succeeds, the next
    start reads back every chat exactly as it was, but with no binding, no error of a
    binding, an idle agent and an empty prompt queue: these four are not stored. *)
Theorem checkpoint_exact timestamp_text w w' g l' :
  reachable timestamp_text (dir w) -> exec OpCheckpoint w = (Ok tt, w') -> open timestamp_text (db (dir w')) g = Ok l' ->
  forall c, exists before, reads (dir w) c before /\ reads l' c (option_map durable_chat before).
Proof.
  intros R%reachable_At X E c. assert (A := R). destruct R as (C & _ & _). exists (chats_of (dir w) !! c).
  pose proof (triple_map_err _ state_layer_error _ _ _ (triple_checkpoint (chats_of (dir w)) (chats_of (dir w)))) as T.
  destruct (triple_use _ _ _ _ _ _ _ T A X) as (A' & St). destruct (open_At _ _ _ _ _ A' E) as (Ed & (C' & _ & _) & Rec).
  rewrite !reads_chats by done. split; [done|]. specialize (Rec c).
  destruct (chats_of (dir w) !! c) as [m|] eqn:Em, (chats_of l' !! c) as [x|]; try done. cbn. f_equal.
  eapply stored_unique; [|apply Rec]. destruct (not_in_memory _ _ c _ m A' Em); [by apply St|done].
Qed.

(** C26: History is permanent: whatever operations, faults and restarts follow, a chat
    that is still there has its turns and timeline entries at the same positions with
    the same identities, every terminal item in its state and every resolved request
    resolved; an archived chat is never replaced by another under its identifier. *)
Theorem history_permanent timestamp_text l l' c m m' :
  reachable timestamp_text l -> rtc (step timestamp_text) l l' ->
  reads l c (Some m) -> reads l' c (Some m') -> evolves m m'.
Proof.
  intros R St. destruct (reachable_holds _ _ R) as ([V G] & H). assert (C := proj1 (proj1 H)).
  rewrite (reads_chats l) by done. intros E. assert (F : follows c m (V, G)).
  { left. exists m. destruct H as [(_ & Ev & _) _]. cbn in *. subst. split; [by rewrite E|apply evolves_refl]. }
  destruct (steps_follow _ _ _ _ _ _ St H F) as ([V' G'] & (A' & B') & F'). destruct A' as (C' & Ec & _). cbn in Ec. subst V'.
  rewrite reads_chats by done. intros E'. destruct F' as [(m2 & E2 & Ev)|[N _]]; cbn [fst snd] in *; [|congruence].
  rewrite E2 in E'. by injection E' as ->.
Qed.

(** The chat list agrees with the chats: at every moment it holds, without
    duplicates, exactly the summaries of the chats that can be read. *)
Theorem list_agrees timestamp_text l :
  reachable timestamp_text l ->
  NoDup (chat_id <$> layer_chats l) /\
  forall s, s ∈ layer_chats l <-> exists m, reads l (chat_id s) (Some m) /\ summary m = s.
Proof.
  intros (C & _ & N & L)%reachable_At. split; [done|]. intros s. rewrite L. setoid_rewrite reads_chats; [|done].
  split; intros (m & E & S); by exists m.
Qed.

(** C28: Every operation refines an atomic map of chats: whatever storage calls fail
    inside it, it takes the chats from one state to another by creating an empty chat
    under an identifier that no chat has or had, archiving one, or applying whole
    mutations. *)
Theorem operations_refine timestamp_text w o G :
  reachable timestamp_text (dir w) -> buried G (dir w) ->
  exists G', rtc change (chats_of (dir w), G) (chats_of (dir (exec o w).2), G') /\ buried G' (dir (exec o w).2).
Proof.
  intros R%reachable_At B.
  assert (K : Reaches (chats_of (dir w), G) (dir w)) by (eexists; split; [apply rtc_refl|by split]).
  destruct (keeps_after _ _ w (keeps_exec (chats_of (dir w), G) o) K) as ([V' G'] & R' & (_ & E' & _) & B').
  cbn [fst snd] in *. rewrite E'. by exists G'.
Qed.

(** ** An execution *)
Definition no_text (t : Timestamp) : bytes := [].
Definition start : World Layer :=
  {| dir := {| db := empty_db; chat_list := Store_new 0 [] EVENT_CAPACITY; slots := ∅; usage_changes := 0; next_generation := 1 |};
     faults := [] |}.
Definition run_ops (ops : list Op) (w : World Layer) : World Layer := foldl (fun w o => (exec o w).2) w ops.
Lemma run_ops_steps ops w : rtc (step no_text) (dir w) (dir (run_ops ops w)).
Proof.
  revert w. induction ops as [|o ops IH]; intros w; [apply rtc_refl|]. eapply rtc_l; [apply step_exec|apply IH].
Qed.
Lemma run_ops_reachable ops : reachable no_text (dir (run_ops ops start)).
Proof. exists 0, (dir start). split; [reflexivity|apply run_ops_steps]. Qed.
Definition ev (t : Timestamp) (item : option bytes) (p : HarnessEventPayload) : HarnessEvent :=
  {| occurred_at := t; ev_turn_id := Some [7]; ev_item_id := item; ev_request_id := None; payload := p |}.
Definition demo : list Op :=
  [OpCreate [1] 10 {| cr_title := [65]; cr_pod_id := [2]; cr_cost_center_id := None; cr_harness := Codex; cr_purpose := None; cr_model := None |};
   OpSetBinding [1] (Some {| binding_id := [3]; binding_status := Attached |}) None;
   OpIngest [] [1] [3] (ev 11 None PTurnStarted);
   OpIngest [] [1] [3] (ev 12 (Some [8]) (PItemStarted AssistantMessage));
   OpIngest [] [1] [3] (ev 13 (Some [8]) (ChatItemContentAppended [8] [72; 105]))].
Definition demo_world : World Layer := run_ops demo start.
Definition streamed (body : list ChatContent) (x : option Chat) : Prop :=
  option_map (fun m => (turn_id <$> turns m, timeline m)) x
  = Some ([[7]], [Item {| item_id := [8]; item_binding_id := [3]; item_turn_id := [7]; item_kind := AssistantMessage;
                          item_state := ItemStarted; item_completed_at := None; content := body |}]).

Definition restart (w : World Layer) : Layer :=
  match open no_text (db (dir w)) 9 with Ok l => l | _ => dir w end.
Lemma restart_unique w l : open no_text (db (dir w)) 9 = Ok l -> l = restart w.
Proof. unfold restart. by intros ->. Qed.
Lemma restart_open w : open no_text (db (dir w)) 9 = Ok (restart w).
Proof. unfold restart. by destruct (open_succeeds no_text (db (dir w)) 9) as (l' & -> & _). Qed.

(** The content appended to a started item is not durable yet: a restart has the item
    without it. *)
Lemma chats_recovered_witness :
  streamed [Text [72; 105]] (chats_of (dir demo_world) !! [1]) /\ streamed [Text []] (chats_of (restart demo_world) !! [1])
  /\ exists before after, reads (dir demo_world) [1] (Some before) /\ reads (restart demo_world) [1] (Some after) /\ recovered before after.
Proof.
  split; [vm_compute; reflexivity|]. split; [vm_compute; reflexivity|].
  destruct (chats_recovered no_text (dir demo_world) 9 (run_ops_reachable demo)) as (l' & E & H).
  apply restart_unique in E. subst l'. destruct (H [1]) as (b & a & Rb & Ra & X).
  destruct b as [b|]; [destruct a as [a|]; [exists b, a; auto|destruct X]|].
  exfalso. destruct Rb as (w & E). vm_compute in E. discriminate E.
Defined.
(** After a checkpoint it is. *)
Lemma checkpoint_exact_witness :
  let w' := (exec OpCheckpoint demo_world).2 in
  streamed [Text [72; 105]] (chats_of (restart w') !! [1])
  /\ exists before, reads (dir demo_world) [1] before /\ reads (restart w') [1] (option_map durable_chat before).
Proof.
  split; [vm_compute; reflexivity|].
  apply (checkpoint_exact no_text demo_world (exec OpCheckpoint demo_world).2 9 (restart (exec OpCheckpoint demo_world).2) (run_ops_reachable demo));
    [vm_compute; reflexivity|apply restart_open].
Defined.
Definition completion : list Op :=
  [OpIngest [] [1] [3] (ev 14 (Some [8]) (PItemCompleted AssistantMessage ItemCompleted [Text [72; 105]]))].
Definition demo_end : World Layer := run_ops completion demo_world.
Lemma reads_now ops c m : chats_of (dir (run_ops ops start)) !! c = Some m -> reads (dir (run_ops ops start)) c (Some m).
Proof. intros E. apply reads_chats; [|done]. apply (reachable_At _ _ (run_ops_reachable ops)). Qed.
Lemma demo_end_eq : demo_end = run_ops (demo ++ completion) start.
Proof. unfold demo_end, demo_world, run_ops. by rewrite foldl_app. Qed.
Lemma history_permanent_witness :
  exists m m', chats_of (dir demo_world) !! [1] = Some m /\ chats_of (dir demo_end) !! [1] = Some m'
    /\ evolves m m' /\ option_map (length ∘ timeline) (Some m') = Some 1%nat.
Proof.
  destruct (chats_of (dir demo_world) !! [1]) as [m|] eqn:E; [|vm_compute in E; discriminate E].
  destruct (chats_of (dir demo_end) !! [1]) as [m'|] eqn:E'; [|vm_compute in E'; discriminate E'].
  exists m, m'. split; [reflexivity|]. split; [reflexivity|]. split.
  - apply (history_permanent no_text (dir demo_world) (dir demo_end) [1] m m' (run_ops_reachable demo) (run_ops_steps completion demo_world)).
    + exact (reads_now demo [1] m E).
    + rewrite demo_end_eq in *. exact (reads_now _ [1] m' E').
  - rewrite <- E'. vm_compute. reflexivity.
Defined.
Lemma list_agrees_witness :
  length (layer_chats (dir demo_world)) = 1%nat /\ NoDup (chat_id <$> layer_chats (dir demo_world)).
Proof. split; [vm_compute; reflexivity|apply (list_agrees no_text _ (run_ops_reachable demo))]. Defined.
Lemma operations_refine_witness :
  exists G, rtc change (chats_of (dir demo_world), ∅) (chats_of (dir (exec (OpArchive [1]) demo_world).2), G)
            /\ chats_of (dir (exec (OpArchive [1]) demo_world).2) !! [1] = None.
Proof.
  destruct (operations_refine no_text demo_world (OpArchive [1]) ∅ (run_ops_reachable demo)) as (G & R & _); [intros c []%not_elem_of_empty|].
  exists G. split; [exact R|vm_compute; reflexivity].
Defined.
