(* ===== verification/ChatEvents.v ===== *)
(** * What harness events do to a chat

    A specification of the ingestion of events that does not mention the reducers: which
    events a chat admits, what each puts in the place of which turn or entry, and how the
    summary follows.  The reconciliation of [ChatState] followed by the reducers of
    [ChatReduce] accepts exactly the events of the specification, with the result that it
    gives. *)

From S2P Require Import Prelude Lists ChatTypes ChatReduce ChatUsage ChatState ChatDurable.

(** ** Turns, items and requests *)

(** [after] takes the place of [before], the first element that [that] describes, or comes
    last where there is none. *)
Definition Put {A} (that : A -> Prop) (before : option A) (after : A) (l l' : list A) : Prop :=
  match before with
  | Some a => exists l1 l2, l = l1 ++ a :: l2 /\ l' = l1 ++ after :: l2 /\ that a /\ Forall (fun x => ~ that x) l1
  | None => l' = l ++ [after] /\ Forall (fun x => ~ that x) l
  end.

(** Usage that may still change. *)
Definition open_usage (x : ChatTurn) : Prop :=
  turn_state x = TurnRunning /\ forall u, usage x = Some u -> usage_state u = Provisional.
(** What an event of the binding [b] at the time [t] makes of the turn [i]. *)
Inductive TurnStep (b : bytes) (t : Timestamp) (i : bytes) : HarnessEventPayload -> option ChatTurn -> ChatTurn -> Prop :=
| turn_begins : TurnStep b t i PTurnStarted None
    {| turn_id := i; turn_binding_id := b; turn_state := TurnRunning; started_at := Some t;
       turn_completed_at := None; error := None; usage := None |}
| turn_resumes x : turn_binding_id x = b ->
    TurnStep b t i PTurnStarted (Some x) (x <| turn_state := TurnRunning |> <| started_at := Some (default t (started_at x)) |>)
| turn_measured u s x : turn_binding_id x = b -> (s = Provisional -> open_usage x) ->
    TurnStep b t i (TurnUsageUpdated u s) (Some x)
      (x <| usage := Some {| usage_state := s; observed_at := t; usage_snapshot := u; calculated_cost := calculate_cost u |} |>)
| turn_ends_unseen s f : s <> TurnRunning -> TurnStep b t i (PTurnCompleted s f) None
    {| turn_id := i; turn_binding_id := b; turn_state := s; started_at := None;
       turn_completed_at := Some t; error := f; usage := None |}
| turn_ends s f x : s <> TurnRunning -> turn_binding_id x = b ->
    TurnStep b t i (PTurnCompleted s f) (Some x)
      (x <| turn_state := s |> <| turn_completed_at := Some t |> <| error := f |>
         <| usage := (fun u => u <| usage_state := Settled |>) <$> usage x |>).

Definition not_text (c : ChatContent) : Prop := forall v, c <> Text v.
(** Of the item [i], in an event of the turn [turn].  An item that is completed with what
    it was started with keeps the turn it was started in. *)
Definition completes (x : ChatItem) (k : ChatItemKind) (s : ChatItemState) (body : list ChatContent) : Prop :=
  s = ItemCompleted /\ item_state x = ItemStarted /\ item_kind x = k /\ content x = body.
Inductive ItemStep (b : bytes) (t : Timestamp) (turn : option bytes) (i : bytes) : HarnessEventPayload -> option ChatItem -> ChatItem -> Prop :=
| item_begins k tid before : turn = Some tid -> (forall x, before = Some x -> item_state x = ItemStarted) ->
    ItemStep b t turn i (PItemStarted k) before
      {| item_id := i; item_binding_id := b; item_turn_id := tid; item_kind := k; item_state := ItemStarted;
         item_completed_at := None; content := [Text []] |}
| item_grows x delta l1 v l2 : item_state x = ItemStarted -> content x = l1 ++ Text v :: l2 -> Forall not_text l1 -> Forall not_text l2 ->
    ItemStep b t turn i (ChatItemContentAppended i delta) (Some x) (x <| content := l1 ++ Text (v ++ delta) :: l2 |>)
| item_completes k s body tid x : turn = Some tid -> item_binding_id x = b -> completes x k s body ->
    ItemStep b t turn i (PItemCompleted k s body) (Some x) (x <| item_state := ItemCompleted |> <| item_completed_at := Some t |>)
| item_ends k s body tid before : turn = Some tid -> s <> ItemStarted ->
    (forall x, before = Some x -> item_binding_id x = b /\ (item_state x = ItemStarted \/ item_state x = s) /\ ~ completes x k s body) ->
    ItemStep b t turn i (PItemCompleted k s body) before
      {| item_id := i; item_binding_id := b; item_turn_id := tid; item_kind := k; item_state := s;
         item_completed_at := Some t; content := body |}.

Inductive RequestStep (b : bytes) (turn item : option bytes) (i : bytes) : HarnessEventPayload -> option ChatRequest -> ChatRequest -> Prop :=
| request_asked q before : (forall r, before = Some r -> resolved r = false) ->
    RequestStep b turn item i (UserInputRequested q) before
      {| request_id := i; request_binding_id := b; request_turn_id := turn; request_item_id := item; resolved := false; questions := q |}
| request_answered r : request_binding_id r = b -> RequestStep b turn item i RequestResolved (Some r) (r <| resolved := true |>).

(** ** One event *)
Definition is_item (i : bytes) (e : ChatTimelineEntry) : Prop := exists x, e = Item x /\ item_id x = i.
Definition is_request (i : bytes) (e : ChatTimelineEntry) : Prop := exists r, e = Request r /\ request_id r = i.
Definition is_activity (i : bytes) (e : ChatTimelineEntry) : Prop := exists a, e = Activity a /\ activity_id a = i.
(** Events that say nothing about the contents of a chat, and events that are noted. *)
Definition silent (p : HarnessEventPayload) : Prop :=
  match p with SessionStarted | SessionStateChanged _ _ | SessionExited None | ResumeCursorUpdated _ => True | _ => False end.
Definition notice (p : HarnessEventPayload) : option (ChatActivityKind * bytes) :=
  match p with
  | SessionExited (Some e) | PError e => Some (ErrorActivity, he_message e)
  | Warning _ message => Some (WarningActivity, message)
  | Unknown native_type _ => Some (Information, str "Unrecognized harness event: " ++ native_type)
  | _ => None
  end.
Definition context_of (t : Timestamp) (u : HarnessContextUsage) : ChatContextUsage :=
  {| used_tokens := hu_used_tokens u; context_window_tokens := hu_context_window_tokens u; accuracy := hu_accuracy u; cu_observed_at := t |}.
(** What the event [e] of the binding [b] asks for; [fresh] identifies an activity. *)
Inductive Asks (fresh b : bytes) (e : HarnessEvent) (x : Chat) : Chat -> Prop :=
| asks_nothing : silent (payload e) -> Asks fresh b e x x
| asks_late u turn i l1 l2 : payload e = TurnUsageUpdated u Provisional -> ev_turn_id e = Some i ->
    turns x = l1 ++ turn :: l2 -> turn_id turn = i -> Forall (fun y => turn_id y <> i) l1 ->
    turn_binding_id turn = b -> ~ open_usage turn -> Asks fresh b e x x
| asks_model m : payload e = ModelChanged m ->
    Asks fresh b e x (x <| summary := (summary x) <| model := Some m |> <| context_usage := None |> <| updated_at := occurred_at e |> |>)
| asks_context u : payload e = ContextUsageUpdated u ->
    Asks fresh b e x (x <| summary := (summary x) <| context_usage := context_of (occurred_at e) <$> u |> |>)
| asks_note k message before l : notice (payload e) = Some (k, message) ->
    Put (is_activity fresh) before
      (Activity {| activity_id := fresh; activity_binding_id := b; activity_occurred_at := occurred_at e;
                   activity_kind := k; activity_message := message; detail := None |}) (timeline x) l ->
    Asks fresh b e x (x <| timeline := l |>)
| asks_turn i before after l : ev_turn_id e = Some i -> TurnStep b (occurred_at e) i (payload e) before after ->
    Put (fun t => turn_id t = i) before after (turns x) l -> Asks fresh b e x (x <| turns := l |>)
| asks_item i before after l : ev_item_id e = Some i -> ItemStep b (occurred_at e) (ev_turn_id e) i (payload e) before after ->
    Put (is_item i) (Item <$> before) (Item after) (timeline x) l -> Asks fresh b e x (x <| timeline := l |>)
| asks_request i before after l : ev_request_id e = Some i -> RequestStep b (ev_turn_id e) (ev_item_id e) i (payload e) before after ->
    Put (is_request i) (Request <$> before) (Request after) (timeline x) l -> Asks fresh b e x (x <| timeline := l |>).

(** Events after which the summary follows. *)
Definition visible (p : HarnessEventPayload) : bool :=
  match p with
  | SessionExited (Some _) | PError _ | Warning _ _ | Unknown _ _ | PTurnStarted | PTurnCompleted _ _ | PItemCompleted _ _ _
  | UserInputRequested _ | RequestResolved => true
  | _ => false
  end.
(** The status that the requests and turns of the current binding imply. *)
Inductive Status (x : Chat) : ChatAgentStatus -> Prop :=
| status_unbound : binding (summary x) = None -> Status x Idle
| status_asking c r : binding (summary x) = Some c -> Request r ∈ timeline x -> request_binding_id r = binding_id c -> resolved r = false ->
    Status x UserInputRequired
| status_working c t : binding (summary x) = Some c ->
    (forall r, Request r ∈ timeline x -> request_binding_id r = binding_id c -> resolved r = true) ->
    t ∈ turns x -> turn_binding_id t = binding_id c -> turn_state t = TurnRunning -> Status x Working
| status_idle c : binding (summary x) = Some c ->
    (forall r, Request r ∈ timeline x -> request_binding_id r = binding_id c -> resolved r = true) ->
    (forall t, t ∈ turns x -> turn_binding_id t = binding_id c -> turn_state t <> TurnRunning) -> Status x Idle.
(** The chat [x], which is otherwise as the event asks, with its summary at the event:
    the status, whether the user is wanted, and when it changed last. *)
Inductive Followed (e : HarnessEvent) (x : Chat) : Chat -> Prop :=
| followed status wanted : Status x status ->
    (wanted = true <-> attention_required (summary x) = true \/ queued_prompts x = [] /\ exists s f, payload e = PTurnCompleted s f) ->
    Followed e x (x <| summary := (summary x) <| agent_status := status |> <| attention_required := wanted |>
                                    <| updated_at := Z.max (updated_at (summary x)) (occurred_at e) |> |>).
(** The event [e] of the binding [b] takes the chat [x] to [y]. *)
Inductive Ingested (fresh b : bytes) (e : HarnessEvent) (x : Chat) : Chat -> Prop :=
| ingested_quietly c y : binding (summary x) = Some c -> binding_id c = b -> visible (payload e) = false -> Asks fresh b e x y -> Ingested fresh b e x y
| ingested_visibly c y z : binding (summary x) = Some c -> binding_id c = b -> visible (payload e) = true ->
    Asks fresh b e x y -> Followed e y z -> Ingested fresh b e x z.

(** ** What the code computes *)

(** The effect of an event on its chat. *)
Definition touched (t : Timestamp) (attention : bool) (x : Chat) : Chat :=
  let s := (summary x) <| agent_status := status_of x |>
             <| attention_required := attention_required (summary x) || attention |> in
  x <| summary := if updated_at s <? t then s <| updated_at := t |> else s |>.
Definition internal {A} (o : outcome StateLayerError A) : outcome ChatStateError A :=
  match o with Ok a => Ok a | Err e => Err (state_layer_error e) | Panic s => Panic s end.
Definition ingest_spec (fresh : bytes) (x : Chat) (b : bytes) (e : HarnessEvent) : outcome ChatStateError Chat :=
  let? _ := require_current_binding x b in
  let? r := reconcile_harness_event fresh x b e in
  let? y := match re_update r with
            | Some {| up_chat := Some (_, m) |} => internal (apply_chat_mutation x m)
            | _ => Ok x
            end in
  Ok (if re_touch_summary r then touched (occurred_at e) (re_attention_required r) y else y).

(** ** Lists *)
Lemma find_first {A} (p : A -> bool) l1 a l2 : Forall (fun x => p x = false) l1 -> p a = true ->
  List.find p (l1 ++ a :: l2) = Some a /\ forall x, upsert p x (l1 ++ a :: l2) = l1 ++ x :: l2.
Proof.
  intros F Pa. assert (position p (l1 ++ a :: l2) = Some (length l1)) as P.
  { induction F as [|y l1 Py F IH]; cbn; [by rewrite Pa|]. by rewrite Py, IH. }
  split; [|intros x; unfold upsert; rewrite P; by rewrite insert_app_r_alt, Nat.sub_diag by lia].
  clear P. induction F as [|y l1 Py F IH]; cbn; [by rewrite Pa|by rewrite Py].
Qed.
Lemma find_split {A} (p : A -> bool) l a : List.find p l = Some a -> exists l1 l2, l = l1 ++ a :: l2 /\ p a = true /\ Forall (fun x => p x = false) l1.
Proof.
  induction l as [|y l IH]; cbn; [done|]. destruct (p y) eqn:Py; [intros [= ->]; by exists [], l|].
  intros (l1 & l2 & -> & Pa & F)%IH. exists (y :: l1), l2. split_and!; [done|done|by constructor].
Qed.
Lemma find_None {A} (p : A -> bool) l : List.find p l = None <-> Forall (fun x => p x = false) l.
Proof.
  induction l as [|y l IH]; cbn; [done|]. rewrite Forall_cons, <- IH. destruct (p y); naive_solver.
Qed.
Lemma Put_upsert {A} (p : A -> bool) (that : A -> Prop) before after l l' : (forall x, p x = true <-> that x) ->
  Put that before after l l' <-> List.find p l = before /\ l' = upsert p after l.
Proof.
  intros H. assert (N : forall k, Forall (fun x => ~ that x) k <-> Forall (fun x => p x = false) k).
  { intros k. apply Forall_iff. intros x. by rewrite <- H, not_true_iff_false. }
  destruct before as [a|]; cbn; split.
  - intros (l1 & l2 & -> & -> & Ha & F). destruct (find_first p l1 a l2) as [E U]; [by apply N|by apply H|]. by rewrite U.
  - intros [(l1 & l2 & -> & Pa & F)%find_split ->]. exists l1, l2. destruct (find_first p l1 a l2 F Pa) as [_ ->]. split_and!; [done|done|by apply H|by apply N].
  - intros [-> F]. apply N in F. split; [by apply find_None|]. unfold upsert. by rewrite (proj2 (position_None p l)).
  - intros [F%find_None ->]. unfold upsert. rewrite (proj2 (position_None p l)) by done. split; [done|by apply N].
Qed.
Lemma find_lookup {A} (p : A -> bool) l : List.find p l = match position p l with Some n => l !! n | None => None end.
Proof. induction l as [|y l IH]; cbn; [done|]. destruct (p y); [done|]. rewrite IH. by destruct (position p l). Qed.
Lemma text_content_index_Some l v k :
  text_content_index l = Some k /\ l !! k = Some (Text v) <-> exists l1 l2, l = l1 ++ Text v :: l2 /\ length l1 = k /\ Forall not_text l1 /\ Forall not_text l2.
Proof.
  assert (N : forall l, Forall not_text l <-> Forall (fun c => is_text c = false) l).
  { intros l'. apply Forall_iff. intros []; unfold not_text; cbn; naive_solver. }
  unfold text_content_index. split.
  - intros [H E]. destruct (position is_text l) as [i|] eqn:P; [|done]. destruct (position is_text (drop (S i) l)) eqn:Q; [done|]. injection H as ->.
    exists (take k l), (drop (S k) l). split_and!.
    + by rewrite take_drop_middle.
    + rewrite length_take. apply lookup_lt_Some in E. lia.
    + apply N. clear Q E. revert k P. induction l as [|y l IH]; intros k; cbn; [done|]. destruct (is_text y) eqn:Y; [intros [= <-]; constructor|].
      destruct (position is_text l) as [j|]; [|done]. intros [= <-]. constructor; [done|by apply IH].
    + by apply N, position_None.
  - intros (l1 & l2 & -> & <- & F1%N & F2%N). assert (position is_text (l1 ++ Text v :: l2) = Some (length l1)) as ->.
    { clear F2. induction F1 as [|y l1 Py F IH]; cbn; [done|]. by rewrite Py, IH. }
    split; [|by apply list_lookup_middle].
    replace (drop (S (length l1)) (l1 ++ Text v :: l2)) with l2 by (clear; induction l1; done).
    by rewrite (proj2 (position_None is_text l2)).
Qed.

(** ** Turns and entries of a chat *)
Lemma that_turn i t : has_turn_id i t = true <-> turn_id t = i.
Proof. apply bool_decide_eq_true. Qed.
Lemma that_item i e : has_item_id i e = true <-> is_item i e.
Proof. unfold is_item. destruct e; cbn; rewrite ?bool_decide_eq_true; naive_solver. Qed.
Lemma that_request i e : has_key (KeyRequest i) e = true <-> is_request i e.
Proof. unfold is_request, has_key. rewrite bool_decide_eq_true. destruct e; cbn; naive_solver. Qed.
Lemma that_activity i e : has_key (KeyActivity i) e = true <-> is_activity i e.
Proof. unfold is_activity, has_key. rewrite bool_decide_eq_true. destruct e; cbn; naive_solver. Qed.
Lemma item_found i x : List.find (has_item_id i) (timeline x) = Item <$> find_item x i.
Proof.
  rewrite find_lookup. unfold find_item, find_timeline_item. destruct (position (has_item_id i) (timeline x)) as [n|] eqn:P; [|done].
  apply position_Some in P as (y & -> & (z & -> & _)%that_item). done.
Qed.
Lemma request_found i x : List.find (has_key (KeyRequest i)) (timeline x) = Request <$> find_request x i.
Proof.
  unfold find_request. induction (timeline x) as [|[]]; cbn; [done|done| |done]. unfold has_key. cbn.
  destruct (decide (request_id r = i)) as [->|N]; [by rewrite !bool_decide_true|by rewrite !bool_decide_false by congruence].
Qed.
(** An entry is put where one with its identifier is. *)
Lemma put_entry x e that y : (forall z, has_key (timeline_entry_key e) z = true <-> that z) ->
  apply_chat_mutation x (UpsertTimelineEntry e) = Ok y <->
  exists before l, Put that before e (timeline x) l /\ (forall z, before = Some z -> validate_timeline_replacement z e = Ok tt) /\ y = x <| timeline := l |>.
Proof.
  intros H. transitivity ((forall z, List.find (has_key (timeline_entry_key e)) (timeline x) = Some z -> validate_timeline_replacement z e = Ok tt)
    /\ y = x <| timeline := upsert (has_key (timeline_entry_key e)) e (timeline x) |>).
  - cbn. rewrite find_lookup. unfold upsert. destruct (position _ _) as [n|] eqn:P; [|naive_solver].
    apply position_Some in P as (z & -> & _). destruct (validate_timeline_replacement z e) as [[]|er|s] eqn:V; cbn; naive_solver congruence.
  - split.
    + intros [V ->]. eexists _, _. split; [by apply (Put_upsert _ _ _ _ _ _ H)|by split].
    + intros (before & l & [<- ->]%(Put_upsert _ _ _ _ _ _ H) & V & ->). by split.
Qed.
Lemma internal_Ok {A} (o : outcome StateLayerError A) a : internal o = Ok a <-> o = Ok a.
Proof. destruct o; cbn; naive_solver. Qed.
Lemma replaced_item z it : validate_timeline_replacement (Item z) (Item it) = Ok tt <-> item_state z = ItemStarted \/ item_state it = item_state z.
Proof.
  cbn. case_match eqn:E; bool_prop; rewrite ?bool_decide_eq_true, ?bool_decide_eq_false in *; [naive_solver|].
  apply andb_false_iff in E as [E|E]; bool_prop; naive_solver.
Qed.
Lemma replaced_request z r : validate_timeline_replacement (Request z) (Request r) = Ok tt <-> (resolved z = true -> resolved r = true).
Proof. cbn. destruct (resolved z), (resolved r); naive_solver. Qed.

(** ** What the code makes of an event before the summary follows *)
Definition asked (fresh : bytes) (x : Chat) (b : bytes) (e : HarnessEvent) : outcome ChatStateError Chat :=
  let? r := reconcile_harness_event fresh x b e in
  match re_update r with Some {| up_chat := Some (_, m) |} => internal (apply_chat_mutation x m) | _ => Ok x end.
Lemma asked_eq fresh x b e y : asked fresh x b e = Ok y <->
  exists p, reconcile_payload fresh x b e = Ok p /\ match p with
    | Continue (Some m) _ _ => apply_chat_mutation x m = Ok y
    | Continue None _ _ => y = x
    | Return r => match re_update r with Some {| up_chat := Some (_, m) |} => apply_chat_mutation x m = Ok y | _ => y = x end
    end.
Proof.
  unfold asked, reconcile_harness_event. rewrite obind_Ok. setoid_rewrite obind_Ok. split.
  - intros (r & (p & Ep & E) & H). exists p. split; [done|]. destruct p as [[m|] cursor touch|r']; injection E as <-; cbn in H.
    + by apply internal_Ok.
    + congruence.
    + repeat case_match; try (by apply internal_Ok); congruence.
  - intros (p & Ep & H). destruct p as [[m|] cursor touch|r']; (eexists; split; [by eexists|]); cbn; [by apply internal_Ok|by subst|].
    repeat case_match; try (by apply internal_Ok); by subst.
Qed.
Lemma put_turn x i j t before : find_turn x i = before -> j = i ->
  Put (fun t => turn_id t = i) before t (turns x) (upsert (has_turn_id j) t (turns x)).
Proof. intros <- ->. apply (Put_upsert (has_turn_id i)); [apply that_turn|done]. Qed.
Lemma find_turn_id x i t : find_turn x i = Some t -> turn_id t = i.
Proof. intros (? & ? & _ & H & _)%find_split. by apply that_turn. Qed.
Lemma late_open t s : negb (bool_decide (turn_state t = TurnRunning)) || match usage t with Some u => bool_decide (usage_state u = Settled) | None => false end = s ->
  s = false <-> open_usage t.
Proof.
  intros <-. unfold open_usage. rewrite orb_false_iff, negb_false_iff, bool_decide_eq_true.
  destruct (usage t) as [u|]; [|naive_solver]. rewrite bool_decide_eq_false. split; intros [A B]; (split; [done|]).
  - intros ? [= <-]. by destruct (usage_state u).
  - by rewrite (B u eq_refl).
Qed.
Lemma require_binding_Ok a b k : require_binding a b k = Ok tt <-> a = b.
Proof. unfold require_binding. case_bool_decide; naive_solver. Qed.
Lemma require_Ok {A} (o : option A) m a : require o m = Ok a <-> o = Some a.
Proof. apply ok_or_Ok. Qed.

Lemma sound_turn_started fresh x b e y : payload e = PTurnStarted -> asked fresh x b e = Ok y -> Asks fresh b e x y.
Proof.
  intros Pe (p & P & H)%asked_eq. unfold reconcile_payload in P. rewrite Pe in P. unfold reconcile_turn_started in P.
  apply obind_Ok in P as (i & Ei%require_Ok & P). apply obind_Ok in P as ([] & B%require_binding_Ok & [= <-]). cbn in H. injection H as <-.
  eapply (asks_turn _ _ _ _ i (find_turn x i)); [done|..]; swap 1 2.
  - apply put_turn; [done|]. destruct (find_turn x i) as [t|] eqn:F; [by apply find_turn_id in F|done].
  - rewrite Pe. destruct (find_turn x i) as [t|] eqn:F; [exact (turn_resumes b _ i t B)|constructor].
Qed.
Lemma sound_usage fresh x b e y u s : payload e = TurnUsageUpdated u s -> asked fresh x b e = Ok y -> Asks fresh b e x y.
Proof.
  intros Pe (p & P & H)%asked_eq. unfold reconcile_payload in P. rewrite Pe in P. unfold reconcile_usage in P.
  apply obind_Ok in P as (i & Ei%require_Ok & P). apply obind_Ok in P as (t & Et%require_Ok & P). apply obind_Ok in P as ([] & B%require_binding_Ok & P).
  destruct (negb _ || _) eqn:L in P; apply late_open in L.
  all: pose proof (find_turn_id _ _ _ Et) as It; destruct (bool_decide (s = Provisional)) eqn:S; cbn in P; injection P as <-; cbn in H.
  all: rewrite ?bool_decide_eq_true, ?bool_decide_eq_false in S.
  - subst. apply find_split in Et as (l1 & l2 & E & _ & F). eapply asks_late; [done|done|done|done| |done|].
    + eapply Forall_impl; [exact F|]. intros z Hz Ez. apply that_turn in Ez. congruence.
    + intros O%L. done.
  - injection H as <-. eapply (asks_turn _ _ _ _ i (Some t)); [done|..]; swap 1 2; [by apply put_turn|].
    rewrite Pe. exact (turn_measured b _ i u s t B (fun K => False_ind _ (S K))).
  - injection H as <-. eapply (asks_turn _ _ _ _ i (Some t)); [done|..]; swap 1 2; [by apply put_turn|].
    rewrite Pe. exact (turn_measured b _ i u s t B (fun _ => proj1 L eq_refl)).
  - injection H as <-. eapply (asks_turn _ _ _ _ i (Some t)); [done|..]; swap 1 2; [by apply put_turn|].
    rewrite Pe. exact (turn_measured b _ i u s t B (fun _ => proj1 L eq_refl)).
Qed.
Lemma sound_turn_completed fresh x b e y s f : payload e = PTurnCompleted s f -> asked fresh x b e = Ok y -> Asks fresh b e x y.
Proof.
  intros Pe (p & P & H)%asked_eq. unfold reconcile_payload in P. rewrite Pe in P. unfold reconcile_turn_completed in P. case_bool_decide as S; [done|].
  apply obind_Ok in P as (i & Ei%require_Ok & P). apply obind_Ok in P as ([] & B%require_binding_Ok & [= <-]). cbn in H. injection H as <-.
  eapply (asks_turn _ _ _ _ i (find_turn x i)); [done|..]; swap 1 2.
  - apply put_turn; [done|]. destruct (find_turn x i) as [t|] eqn:F; [by apply find_turn_id in F|done].
  - rewrite Pe. destruct (find_turn x i) as [t|] eqn:F; [exact (turn_ends b _ i s f t S B)|by constructor].
Qed.
(** Entries that the code puts where one with their identifier is. *)
Lemma put_item x it y i : item_id it = i -> apply_chat_mutation x (UpsertTimelineEntry (Item it)) = Ok y <->
  exists l, Put (is_item i) (Item <$> find_item x i) (Item it) (timeline x) l
    /\ (forall z, find_item x i = Some z -> item_state z = ItemStarted \/ item_state it = item_state z) /\ y = x <| timeline := l |>.
Proof.
  intros <-. assert (H : forall z, has_key (timeline_entry_key (Item it)) z = true <-> is_item (item_id it) z).
  { intros z. cbn. rewrite <- has_item_id_key. apply that_item. }
  rewrite (put_entry x (Item it) _ y H). pose proof (item_found (item_id it) x) as F. split.
  - intros (before & l & P & V & ->). exists l. pose proof P as [Eb _]%(Put_upsert _ _ _ _ _ _ (that_item (item_id it))).
    rewrite F in Eb. subst before. split_and!; [exact P| |done]. intros z Ez. apply replaced_item, V. by rewrite Ez.
  - intros (l & P & V & ->). eexists _, l. split_and!; [exact P| |done]. intros z (w & Ew & ->)%fmap_Some. apply replaced_item. by apply V.
Qed.
Lemma put_request x r y i : request_id r = i -> apply_chat_mutation x (UpsertTimelineEntry (Request r)) = Ok y <->
  exists l, Put (is_request i) (Request <$> find_request x i) (Request r) (timeline x) l
    /\ (forall z, find_request x i = Some z -> resolved z = true -> resolved r = true) /\ y = x <| timeline := l |>.
Proof.
  intros <-. assert (H : forall z, has_key (timeline_entry_key (Request r)) z = true <-> is_request (request_id r) z) by apply that_request.
  rewrite (put_entry x (Request r) _ y H). pose proof (request_found (request_id r) x) as F. split.
  - intros (before & l & P & V & ->). exists l. pose proof P as [Eb _]%(Put_upsert _ _ _ _ _ _ (that_request (request_id r))).
    rewrite F in Eb. subst before. split_and!; [exact P| |done]. intros z Ez. apply replaced_request, V. by rewrite Ez.
  - intros (l & P & V & ->). eexists _, l. split_and!; [exact P| |done]. intros z (w & Ew & ->)%fmap_Some. apply replaced_request. by apply V.
Qed.
Lemma find_item_id x i it : find_item x i = Some it -> item_id it = i.
Proof.
  unfold find_item. destruct (find_timeline_item i (timeline x)) as [[n z]|] eqn:F; [|done]. intros [= <-]. by apply find_timeline_item_Some in F as (_ & ? & _).
Qed.
Lemma find_request_id x i r : find_request x i = Some r -> request_id r = i.
Proof.
  intros F. pose proof (request_found i x) as E. rewrite F in E.
  apply find_split in E as (? & ? & _ & (? & [= <-] & ?)%that_request & _). done.
Qed.
(** An item that is replaced at its index. *)
Lemma item_at x i n it it' : find_timeline_item i (timeline x) = Some (n, it) ->
  find_item x i = Some it /\ Put (is_item i) (Some (Item it)) (Item it') (timeline x) (<[n := Item it']> (timeline x)).
Proof.
  intros F. assert (E : find_item x i = Some it) by (unfold find_item; by rewrite F). split; [done|].
  apply (Put_upsert (has_item_id i) _ _ _ _ _ (that_item i)). rewrite item_found, E. split; [done|].
  apply find_timeline_item_Some in F as (_ & _ & P). unfold upsert. by rewrite P.
Qed.
Lemma note_asks fresh b e x y k message : notice (payload e) = Some (k, message) ->
  apply_chat_mutation x (activity_payload fresh b (occurred_at e) k message None) = Ok y -> Asks fresh b e x y.
Proof.
  intros N (before & l & P & _ & ->)%(put_entry _ _ (is_activity fresh)); [|apply that_activity]. by eapply asks_note.
Qed.

Lemma sound_item fresh x b e y : (match payload e with PItemStarted _ | ChatItemContentAppended _ _ | PItemCompleted _ _ _ => True | _ => False end) ->
  asked fresh x b e = Ok y -> Asks fresh b e x y.
Proof.
  intros Pe (p & P & H)%asked_eq. unfold reconcile_payload in P. destruct (payload e) as [| | | | | | | | |k|i delta|k s body| | | | |] eqn:Pl; try done.
  - apply obind_Ok in P as (i & Ei%require_Ok & P). apply obind_Ok in P as (tid & Et%require_Ok & [= <-]).
    apply (put_item _ _ _ i) in H as (l & Pt & V & ->); [|done]. eapply (asks_item _ _ _ _ i); [done| |exact Pt].
    rewrite Pl. apply item_begins; [done|]. intros z Ez. by destruct (V z Ez).
  - destruct (negb _) eqn:D in P; [done|]. bool_prop. injection P as <-. cbn in H. destruct (find_timeline_item i (timeline x)) as [[n it]|] eqn:F; [|done].
    destruct (negb _) eqn:S in H; [done|]. bool_prop. destruct (text_content_index (content it)) as [j|] eqn:T; [|done]. destruct (content it !! j) as [[v| | |]|] eqn:C; try done.
    injection H as <-. destruct (item_at x i n it (it <| content := <[j:=Text (v ++ delta)]> (content it) |>) F) as [E Pt].
    destruct (proj1 (text_content_index_Some _ v j) (conj T C)) as (l1 & l2 & El & Ej & F1 & F2).
    eapply (asks_item _ _ _ _ i (Some it)); [done| |exact Pt]. rewrite Pl. rewrite El, <- Ej, insert_app_r_alt, Nat.sub_diag by lia. by apply item_grows with (l1 := l1).
  - unfold reconcile_item_completed in P. case_bool_decide as S; [done|].
    apply obind_Ok in P as (i & Ei%require_Ok & P). apply obind_Ok in P as (tid & Et%require_Ok & P). apply obind_Ok in P as ([] & B & P).
    assert (B' : forall z, find_item x i = Some z -> item_binding_id z = b) by (intros z Ez; rewrite Ez in B; by apply require_binding_Ok in B).
    destruct (_ && _) eqn:C in P; injection P as <-.
    + destruct (find_item x i) as [z|] eqn:F; bool_prop; [|done]. cbn in H. pose proof F as F0. unfold find_item in F. destruct (find_timeline_item i (timeline x)) as [[n it]|] eqn:Ft; [|done].
      injection F as ->. destruct (negb _) in H; [done|]. injection H as <-.
      destruct (item_at x i n z (z <| item_state := ItemCompleted |> <| item_completed_at := Some (occurred_at e) |>) Ft) as [_ Pt].
      eapply (asks_item _ _ _ _ i (Some z)); [done| |exact Pt]. rewrite Pl. eapply item_completes; [done|by apply B'|done].
    + apply (put_item _ _ _ i) in H as (l & Pt & V & ->); [|done]. eapply (asks_item _ _ _ _ i); [done| |exact Pt].
      rewrite Pl. apply item_ends; [done|done|]. intros z Ez. split_and!; [by apply B'|by destruct (V z Ez); [left|right]|].
      intros (C1 & C2 & C3 & C4). rewrite Ez in C. by rewrite C1, C2, C3, C4, !bool_decide_true in C.
Qed.
Lemma sound_request fresh x b e y : (match payload e with UserInputRequested _ | RequestResolved => True | _ => False end) ->
  asked fresh x b e = Ok y -> Asks fresh b e x y.
Proof.
  intros Pe (p & P & H)%asked_eq. unfold reconcile_payload in P. destruct (payload e) eqn:Pl; try done.
  - apply obind_Ok in P as (i & Ei%require_Ok & [= <-]). apply (put_request _ _ _ i) in H as (l & Pt & V & ->); [|done].
    eapply (asks_request _ _ _ _ i); [done| |exact Pt]. rewrite Pl. constructor. intros r Er. destruct (resolved r) eqn:R; [|done]. by specialize (V r Er R).
  - apply obind_Ok in P as (i & Ei%require_Ok & P). apply obind_Ok in P as (r & Er%require_Ok & P). apply obind_Ok in P as ([] & B%require_binding_Ok & [= <-]).
    apply (put_request _ _ _ i) in H as (l & Pt & V & ->); [|by apply find_request_id in Er]. rewrite Er in Pt.
    eapply (asks_request _ _ _ _ i (Some r)); [done| |exact Pt]. rewrite Pl. by constructor.
Qed.
Lemma asked_sound fresh x b e y : asked fresh x b e = Ok y -> Asks fresh b e x y.
Proof.
  destruct (payload e) as [| |[err|]|c|m|u| |u s|s f|k|i delta|k s body|q| |code message|err|native data] eqn:Pl.
  all: first [by apply sound_turn_started|by eapply sound_usage|by eapply sound_turn_completed|apply sound_item; by rewrite Pl|apply sound_request; by rewrite Pl|idtac].
  all: intros (p & P & H)%asked_eq; unfold reconcile_payload in P; rewrite Pl in P; injection P as <-; cbn - [apply_chat_mutation] in H.
  all: try (subst; apply asks_nothing; by rewrite Pl).
  all: try (eapply note_asks; [by rewrite Pl|exact H]).
  - cbn in H. rewrite bool_decide_true in H by done. injection H as <-. by apply asks_model.
  - cbn in H. rewrite bool_decide_true in H by done. injection H as <-. by eapply asks_context.
Qed.

Lemma require_binding_same a k : require_binding a a k = Ok tt.
Proof. by apply require_binding_Ok. Qed.
Lemma complete_turn fresh x b e i before after l : ev_turn_id e = Some i -> TurnStep b (occurred_at e) i (payload e) before after ->
  Put (fun t => turn_id t = i) before after (turns x) l -> asked fresh x b e = Ok (x <| turns := l |>).
Proof.
  intros Ei S [F ->]%(Put_upsert (has_turn_id i)); [|apply that_turn]. change (find_turn x i = before) in F. apply asked_eq. unfold reconcile_payload.
  assert (Id : forall t, before = Some t -> turn_id t = i) by (intros t E; apply (find_turn_id x); congruence).
  remember (payload e) as pl eqn:Pl. destruct S as [|t B|u s t B L|s f N|s f t N B]; rewrite <- ?B.
  - unfold reconcile_turn_started. rewrite Ei. cbn. rewrite F. cbn. rewrite require_binding_same. cbn. eexists. by split.
  - unfold reconcile_turn_started. rewrite Ei. cbn. rewrite F. cbn. rewrite require_binding_same. cbn. eexists. split; [done|]. cbn. by rewrite (Id t eq_refl).
  - unfold reconcile_usage. rewrite Ei. cbn. rewrite F. cbn. rewrite require_binding_same. cbn.
    assert (bool_decide (s = Provisional) && (negb (bool_decide (turn_state t = TurnRunning))
      || match usage t with Some u => bool_decide (usage_state u = Settled) | None => false end) = false) as ->.
    { case_bool_decide as P; [|done]. by apply (late_open t _ eq_refl), L. }
    eexists. split; [done|]. cbn. by rewrite (Id t eq_refl).
  - unfold reconcile_turn_completed. rewrite bool_decide_false by done. rewrite Ei. cbn. rewrite F. cbn. rewrite require_binding_same. cbn. eexists. by split.
  - unfold reconcile_turn_completed. rewrite bool_decide_false by done. rewrite Ei. cbn. rewrite F. cbn. rewrite require_binding_same. cbn.
    eexists. split; [done|]. cbn. by rewrite (Id t eq_refl).
Qed.
Lemma complete_item fresh x b e i before after l : ev_item_id e = Some i -> ItemStep b (occurred_at e) (ev_turn_id e) i (payload e) before after ->
  Put (is_item i) (Item <$> before) (Item after) (timeline x) l -> asked fresh x b e = Ok (x <| timeline := l |>).
Proof.
  intros Ei S P. pose proof P as [F El]%(Put_upsert _ _ _ _ _ _ (that_item i)). rewrite item_found in F. assert (find_item x i = before) as F'.
  { by destruct (find_item x i), before; simplify_eq/=. }
  assert (At : forall it, before = Some it -> exists n, find_timeline_item i (timeline x) = Some (n, it) /\ <[n := Item after]> (timeline x) = l).
  { intros it ->. unfold find_item in F'. destruct (find_timeline_item i (timeline x)) as [[n z]|] eqn:G; [|done]. injection F' as ->. exists n. split; [done|].
    apply find_timeline_item_Some in G as (_ & _ & Pn). subst l. unfold upsert. by rewrite Pn. }
  apply asked_eq. unfold reconcile_payload.
  remember (payload e) as pl eqn:Pl. destruct S as [k tid before Et V|z delta l1 v l2 Sz Ec F1 F2|k s body tid z Et B C|k s body tid before Et N V].
  - rewrite Ei, Et. cbn - [apply_chat_mutation]. eexists. split; [done|]. apply (put_item _ _ _ i); [done|]. exists l. rewrite F'. split_and!; [exact P| |done].
    intros z Ez. left. by apply V.
  - rewrite bool_decide_true by done. cbn - [apply_chat_mutation]. eexists. split; [done|]. cbn. destruct (At z eq_refl) as (n & -> & <-). rewrite bool_decide_true by done. cbn.
    destruct (proj2 (text_content_index_Some (content z) v (length l1))) as [-> ->]; [by exists l1, l2|]. rewrite Ec, insert_app_r_alt, Nat.sub_diag by lia. done.
  - unfold reconcile_item_completed. destruct C as (-> & C2 & C3 & C4). rewrite bool_decide_false by done. rewrite Ei, Et. cbn - [apply_chat_mutation]. rewrite F', B, require_binding_same. cbn - [apply_chat_mutation].
    rewrite C2, C3, C4, !bool_decide_true by done. cbn - [apply_chat_mutation]. eexists. split; [done|]. cbn. destruct (At z eq_refl) as (n & -> & <-). by rewrite bool_decide_true.
  - unfold reconcile_item_completed. rewrite bool_decide_false by done. rewrite Ei, Et. cbn - [apply_chat_mutation]. rewrite F'.
    assert (match before with Some z => require_binding (item_binding_id z) b "item" | None => Ok tt end = Ok tt) as ->.
    { destruct before as [z|]; [|done]. apply require_binding_Ok. by apply V. }
    cbn - [apply_chat_mutation]. destruct (_ && _) eqn:C.
    { exfalso. destruct before as [z|]; bool_prop; [|done]. destruct (V z eq_refl) as (_ & _ & []). by unfold completes. }
    eexists. split; [done|]. apply (put_item _ _ _ i); [done|]. exists l. rewrite F'. split_and!; [exact P| |done].
    intros z Ez. destruct (V z Ez) as (_ & [?|?] & _); [by left|by right].
Qed.
Lemma complete_request fresh x b e i before after l : ev_request_id e = Some i -> RequestStep b (ev_turn_id e) (ev_item_id e) i (payload e) before after ->
  Put (is_request i) (Request <$> before) (Request after) (timeline x) l -> asked fresh x b e = Ok (x <| timeline := l |>).
Proof.
  intros Ei S P. pose proof P as [F El]%(Put_upsert _ _ _ _ _ _ (that_request i)). rewrite request_found in F. assert (find_request x i = before) as F'.
  { by destruct (find_request x i), before; simplify_eq/=. }
  apply asked_eq. unfold reconcile_payload. remember (payload e) as pl eqn:Pl. destruct S as [q before V|r B]; rewrite Ei; cbn - [apply_chat_mutation].
  - eexists. split; [done|]. apply (put_request _ _ _ i); [done|]. exists l. rewrite F'. split_and!; [exact P| |done]. intros z Ez R. by rewrite (V z Ez) in R.
  - rewrite F'. cbn - [apply_chat_mutation]. rewrite B, require_binding_same. cbn - [apply_chat_mutation]. eexists. split; [done|].
    apply (put_request _ _ _ i); [by apply find_request_id in F'|]. exists l. rewrite F'. by split_and!.
Qed.
Lemma asked_complete fresh x b e y : Asks fresh b e x y -> asked fresh x b e = Ok y.
Proof.
  destruct 1 as [Si|u t i l1 l2 Pl Ei El Ii F B N|m Pl|u Pl|k message before l No P|i before after l Ei S P|i before after l Ei S P|i before after l Ei S P].
  - apply asked_eq. unfold reconcile_payload. destruct (payload e) as [| |[]| | | | | | | | | | | | | |]; try done; eexists; by split.
  - apply asked_eq. unfold reconcile_payload. rewrite Pl. unfold reconcile_usage. rewrite Ei. cbn.
    assert (find_turn x i = Some t) as ->.
    { unfold find_turn. rewrite El. apply find_first; [|by apply that_turn]. eapply Forall_impl; [exact F|]. intros z Hz. by apply bool_decide_eq_false. }
    cbn. rewrite B, require_binding_same. cbn. rewrite (proj1 (not_false_iff_true _) (fun E => N (proj1 (late_open t _ eq_refl) E))). eexists. by split.
  - apply asked_eq. unfold reconcile_payload. rewrite Pl. eexists. split; [done|]. cbn. by rewrite bool_decide_true.
  - apply asked_eq. unfold reconcile_payload. rewrite Pl. eexists. split; [done|]. cbn. by rewrite bool_decide_true.
  - apply asked_eq. assert (apply_chat_mutation x (activity_payload fresh b (occurred_at e) k message None) = Ok (x <| timeline := l |>)) as H.
    { apply (put_entry _ _ (is_activity fresh)); [apply that_activity|]. eexists _, l. split_and!; [exact P| |done].
      intros z ->. apply (Put_upsert _ _ _ _ _ _ (that_activity fresh)) in P as [(l1 & l2 & _ & (a & -> & _)%that_activity & _)%find_split _]. done. }
    unfold reconcile_payload. destruct (payload e) as [| |[]| | | | | | | | | | | | | |]; try done; injection No as <- <-; eexists; by split.
  - by eapply complete_turn.
  - by eapply complete_item.
  - by eapply complete_request.
Qed.

(** ** The summary *)
Lemma Status_of x s : Status x s <-> s = status_of x.
Proof.
  assert (Q : forall c, existsb (open_request c) (timeline x) = true <-> exists r, Request r ∈ timeline x /\ request_binding_id r = c /\ resolved r = false).
  { intros c. rewrite existsb_exists. setoid_rewrite <- list_elem_of_In. split.
    - intros ([|r|] & Hr & O); try done. cbn in O. bool_prop. eauto.
    - intros (r & Hr & <- & R). exists (Request r). split; [done|]. cbn. by rewrite bool_decide_true, R. }
  assert (W : forall c, existsb (running_turn c) (turns x) = true <-> exists t, t ∈ turns x /\ turn_binding_id t = c /\ turn_state t = TurnRunning).
  { intros c. rewrite existsb_exists. setoid_rewrite <- list_elem_of_In. unfold running_turn. setoid_rewrite andb_true_iff. by setoid_rewrite bool_decide_eq_true. }
  assert (Q' : forall c, existsb (open_request c) (timeline x) = false <-> forall r, Request r ∈ timeline x -> request_binding_id r = c -> resolved r = true).
  { intros c. rewrite <- not_true_iff_false, Q. split; [|intros H (r & Hr & E & R); by rewrite (H r Hr E) in R]. intros N r Hr E. destruct (resolved r) eqn:R; [done|]. exfalso. eauto. }
  assert (W' : forall c, existsb (running_turn c) (turns x) = false <-> forall t, t ∈ turns x -> turn_binding_id t = c -> turn_state t <> TurnRunning).
  { intros c. rewrite <- not_true_iff_false, W. split; [intros N t Ht E R; eauto|intros H (t & Ht & E & R); by apply (H t Ht E)]. }
  unfold status_of. split.
  - destruct 1 as [->|c r -> H1 H2 H3|c t -> H1 H2 H3 H4|c -> H1 H2]; [done|..].
    + by rewrite (proj2 (Q _)) by eauto.
    + rewrite (proj2 (Q' _)) by done. by rewrite (proj2 (W _)) by eauto.
    + rewrite (proj2 (Q' _)) by done. by rewrite (proj2 (W' _)) by eauto.
  - intros ->. destruct (binding (summary x)) as [c|] eqn:B; [|by constructor].
    destruct (existsb (open_request _) _) eqn:O; [apply Q in O as (r & ? & ? & ?); by eapply status_asking|]. rewrite Q' in O.
    destruct (existsb (running_turn _) _) eqn:R; [apply W in R as (t & ? & ? & ?); by eapply status_working|]. rewrite W' in R. by eapply status_idle.
Qed.
Lemma Followed_touched e x y a : (a = true <-> queued_prompts x = [] /\ exists s f, payload e = PTurnCompleted s f) ->
  Followed e x y <-> y = touched (occurred_at e) a x.
Proof.
  intros Ha. assert (E : forall wanted, (wanted = true <-> attention_required (summary x) = true \/ queued_prompts x = [] /\ exists s f, payload e = PTurnCompleted s f)
    <-> wanted = attention_required (summary x) || a).
  { intros wanted. rewrite <- Ha, <- orb_true_iff. symmetry. apply eq_iff_eq_true. }
  assert (T : touched (occurred_at e) a x = x <| summary := (summary x) <| agent_status := status_of x |> <| attention_required := attention_required (summary x) || a |>
    <| updated_at := Z.max (updated_at (summary x)) (occurred_at e) |> |>).
  { unfold touched. cbn. destruct (Z.ltb_spec (updated_at (summary x)) (occurred_at e)); [by rewrite Z.max_r by lia|by rewrite Z.max_l by lia]. }
  rewrite T. split.
  - destruct 1 as [s wanted ->%Status_of ->%E]. done.
  - intros ->. constructor; [by apply Status_of|by apply E].
Qed.
Lemma asks_queue fresh b e x y : Asks fresh b e x y -> queued_prompts y = queued_prompts x.
Proof. by destruct 1. Qed.
Lemma reconciled_visible fresh x b e r : reconcile_harness_event fresh x b e = Ok r ->
  re_touch_summary r = visible (payload e)
  /\ (visible (payload e) = true -> re_attention_required r = true <-> queued_prompts x = [] /\ exists s f, payload e = PTurnCompleted s f).
Proof.
  unfold reconcile_harness_event. intros (p & P & H)%obind_Ok. unfold reconcile_payload, reconcile_turn_started, reconcile_usage, reconcile_turn_completed, reconcile_item_completed in P.
  case_bool_decide as S; destruct (payload e) as [| |[]| | | | | |s f| | | | | | | |];
    repeat (first [discriminate P | match goal with H : obind _ _ = Ok _ |- _ => apply obind_Ok in H as (? & _ & H) end | case_hyp P]);
    injection P as <-; cbn in H; injection H as <-; cbn; (split; [done|]); try (by intros); intros _; rewrite ?andb_false_r; try naive_solver.
  all: match goal with H : bool_decide _ = false |- _ => rewrite H end; cbn; naive_solver.
Qed.
(** The code accepts exactly the events of the specification. *)
Lemma ingest_spec_Ingested fresh b e x y : ingest_spec fresh x b e = Ok y <-> Ingested fresh b e x y.
Proof.
  assert (B : require_current_binding x b = Ok tt <-> exists c, binding (summary x) = Some c /\ binding_id c = b).
  { unfold require_current_binding, bound_to. destruct (binding (summary x)); [case_bool_decide|]; naive_solver. }
  assert (S : ingest_spec fresh x b e = Ok y <-> require_current_binding x b = Ok tt /\ exists r y0, reconcile_harness_event fresh x b e = Ok r
    /\ asked fresh x b e = Ok y0 /\ y = if re_touch_summary r then touched (occurred_at e) (re_attention_required r) y0 else y0).
  { unfold ingest_spec. split.
    - intros ([] & R & (r & Er & (y0 & E0 & [= <-])%obind_Ok)%obind_Ok)%obind_Ok. split; [done|]. exists r, y0. unfold asked. by rewrite Er.
    - intros (R & r & y0 & Er & E0 & ->). unfold asked in E0. rewrite Er in E0. cbn in E0. rewrite R. cbn. rewrite Er. cbn. by rewrite E0. }
  rewrite S, B. split.
  - intros ((c & Bc & Bi) & r & y0 & Er & A%asked_sound & ->). destruct (reconciled_visible _ _ _ _ _ Er) as [-> At].
    destruct (visible (payload e)) eqn:V; [|by eapply ingested_quietly]. eapply ingested_visibly; [done..|].
    apply (Followed_touched e y0 _ (re_attention_required r)); [|done]. rewrite (asks_queue _ _ _ _ _ A). by apply At.
  - assert (R : forall y0, asked fresh x b e = Ok y0 -> exists r, reconcile_harness_event fresh x b e = Ok r).
    { unfold asked. intros y0 (r & Er & _)%obind_Ok. by exists r. }
    destruct 1 as [c y Bc Bi V A|c y z Bc Bi V A Fo]; (split; [by exists c|]); pose proof (asked_complete _ _ _ _ _ A) as Ac; destruct (R _ Ac) as [r Er];
      exists r, y; (split; [done|]); (split; [done|]); destruct (reconciled_visible _ _ _ _ _ Er) as [-> At]; rewrite V; [done|].
    eapply Followed_touched; [|exact Fo]. rewrite (asks_queue _ _ _ _ _ A). by apply At.
Qed.
