(* ===== verification/ChatIngest.v ===== *)
(** * The effect of harness events

    Without storage faults the statements of an update satisfy every constraint of the
    schema, so that a run of [ingest_harness_event] computes the pure function
    [ingest_spec], and has the effect that the relation [Ingested] of [ChatEvents]
    gives. *)

From S2P Require Import Prelude Effects Lists Store ChatTypes ChatReduce ChatStorage ChatLayer ChatUsage ChatState ChatDurable ChatInv ChatProps ChatEvents.

(** ** Updates satisfy the constraints *)
Definition summary_check (s : ChatSummary) : bool :=
  match title s with b :: _ => negb (b =? 0) | [] => false end
  && match cost_center_id s with Some c => is_valid_chat_cost_center_id c | None => true end.
Definition fits_index (m : Chat) : Prop := len (turns m) <= i64_max /\ len (timeline m) <= i64_max.

Definition storable (mu : ChatMutation) (m : Chat) : Prop :=
  match mu with UpdateSummary s => summary_check s = true | _ => fits_index m end.

Lemma turn_write_succeeds d c m x t n :
  stored d c x -> behind m x -> len (turns m) <= i64_max ->
  position (has_turn_id (turn_id t)) (upsert (same_key turn_id t) t (turns m)) = Some n ->
  exists d', store_turn {| stored_turn_chat := c; turn_index := Z.of_nat n; stored_turn := t |} d = Ok d'.
Proof.
  intros [(r & Er & _) T _ _ _] [_ Bt _ _] L P. unfold has_turn_id in P.
  rewrite (agrees_position _ _ _ _ _ (agrees_upsert _ _ _ _ t Bt)) in P. change (position (same_key turn_id t) (upsert (same_key turn_id t) t (turns x)) = Some n) in P.
  destruct (table_upsert _ _ _ _ _ _ T P) as (_ & F & Ln). unfold store_turn. cbn. rewrite Er, bool_decide_true, F by done.
  pose proof (Forall2_length _ _ _ Bt) as El. unfold len in L.
  assert ((i64_max <? Z.of_nat n) = false) as -> by (apply Z.ltb_ge; lia). by eexists.
Qed.
Lemma entry_write_succeeds d c m x e n :
  stored d c x -> behind m x -> len (timeline m) <= i64_max ->
  position (has_key (timeline_entry_key e)) (upsert (same_key timeline_entry_identity e) e (timeline m)) = Some n ->
  exists d', store_timeline_entry {| stored_entry_chat := c; entry_index := Z.of_nat n; stored_entry := e |} d = Ok d'.
Proof.
  intros [(r & Er & _) _ T _ _] [_ _ Bl _] L P. rewrite (position_ext _ _ _ (has_key_same e)) in P. unfold same_key at 1 in P.
  rewrite (agrees_position _ _ _ _ _ (agrees_upsert _ _ _ _ e Bl)) in P.
  change (position (same_key timeline_entry_identity e) (upsert (same_key timeline_entry_identity e) e (timeline x)) = Some n) in P.
  destruct (table_upsert _ _ _ _ _ _ T P) as (_ & F & Ln). unfold store_timeline_entry. cbn. rewrite Er, bool_decide_true, F by done.
  pose proof (Forall2_length _ _ _ Bl) as El. unfold len in L.
  assert ((i64_max <? Z.of_nat n) = false) as -> by (apply Z.ltb_ge; lia). by eexists.
Qed.
Lemma commits_of_entry c d d' s :
  store_timeline_entry s d = Ok d' -> commits (no_update <| du_chat_id := Some c |> <| du_timeline := [s] |>) d d'.
Proof. intros E. unfold commits. cbn. by rewrite E. Qed.
Lemma commits_of_turn c d d' s :
  store_turn s d = Ok d' -> commits (no_update <| du_chat_id := Some c |> <| du_turns := [s] |>) d d'.
Proof. intros E. unfold commits. cbn. by rewrite E. Qed.

Lemma durable_update_succeeds d c m x mu next :
  stored d c x -> behind m x -> chat_id (summary m) = c -> apply_chat_mutation m mu = Ok next ->
  storable mu m -> exists u d', durable_update c mu m next = Ok u /\ commits u d d'.
Proof.
  intros St Be Id Ap Ck. destruct mu as [s|t|e|i delta|i ti|q|a]; cbn [durable_update storable] in *; [|destruct Ck as [Lt Ll]..].
  - cbn in Ap. case_match eqn:K; [done|]. bool_prop. assert (exists d', store_summary s d = Ok d') as (d' & E).
    { destruct St as [(r & Er & _) _ _ _ _]. unfold store_summary. rewrite K, Id, Er. unfold row_check. cbn. fold (summary_check s). rewrite Ck. by eexists. }
    eexists _, d'. split; [done|]. unfold commits. cbn - [store_summary]. unfold apply_durable_update. cbn - [store_summary]. by rewrite E.
  - injection Ap as <-. case_match; [|by eexists _, _]. destruct (position_upsert turn_id t (turns m)) as [n P]. cbn.
    change (has_turn_id (turn_id t)) with (fun y => bool_decide (turn_id y = turn_id t)). rewrite P.
    destruct (turn_write_succeeds d c m x t n St Be Lt P) as (d' & E). eexists _, d'. split; [done|by apply commits_of_turn].
  - apply upsert_timeline_eq in Ap as ->. case_match; [|by eexists _, _]. cbn.
    destruct (position_upsert timeline_entry_identity e (timeline m)) as [n P].
    assert (P' : position (has_key (timeline_entry_key e)) (upsert (same_key timeline_entry_identity e) e (timeline m)) = Some n).
    { by rewrite (position_ext _ _ _ (has_key_same e)). }
    rewrite P'. destruct (entry_write_succeeds d c m x e n St Be Ll P') as (d' & E). eexists _, d'. split; [done|by apply commits_of_entry].
  - by eexists _, _.
  - cbn in Ap. destruct (find_timeline_item i (timeline m)) as [[n item]|] eqn:Fi; [|done].
    apply find_timeline_item_Some in Fi as (E & <- & P). case_match; [done|]. injection Ap as <-. cbn.
    set (item' := item <| item_state := ItemCompleted |> <| item_completed_at := Some ti |>).
    rewrite (position_item_insert _ _ item' _ P), list_lookup_insert_eq by (done || by eapply lookup_lt_Some).
    assert (X : forall y, has_item_id (item_id item) y = has_key (timeline_entry_key (Item item')) y) by (intros; apply has_item_id_key).
    assert (P' : position (has_key (timeline_entry_key (Item item'))) (upsert (same_key timeline_entry_identity (Item item')) (Item item') (timeline m)) = Some n).
    { rewrite <- (upsert_ext _ _ _ _ (has_key_same (Item item'))). unfold upsert. rewrite <- !(position_ext _ _ _ X), P. by apply position_item_insert. }
    destruct (entry_write_succeeds d c m x (Item item') n St Be Ll P') as (d' & E'). eexists _, d'. split; [done|by apply commits_of_entry].
  - by eexists _, _.
  - destruct St as [(r & Er & _) _ _ _ _]. eexists _, _. split; [done|]. unfold commits. cbn. unfold store_attachment. cbn.
    rewrite Er, bool_decide_true by done. done.
Qed.

(** ** Operations without storage faults *)
Lemma materialize_succeeds V W c : succeeds (At V W) (materialize_chat_locked c).
Proof.
  intros [l f] F (C & _ & _). cbn in F, C. subst f. unfold materialize_chat_locked, andthen, get, query, fallible, next_fault, draw_generation, of_outcome, andthen. cbn.
  destruct (slots l !! c) as [slot|] eqn:E; cbn; [|by eexists _, _].
  destruct (slot_store slot) as [st|] eqn:Es; cbn; [by eexists _, _|].
  destruct (core_slot _ C _ _ E) as (m & x & V' & _ & _ & St & _). destruct (materialize_stored _ _ _ St) as (sc & -> & M).
  rewrite M. cbn. rewrite E. by eexists _, _.
Qed.
Lemma chat_succeeds V W c : succeeds (At V W) (chat c).
Proof.
  eapply succeeds_bind; [apply materialize_succeeds|apply triple_materialize|]. intros [|]; cbn; [|apply succeeds_ret].
  intros w F _. unfold chat_store, andthen. cbn. by eexists _, _.
Qed.
Lemma store_update_eval u w d' :
  faults w = [] -> commits u (db (dir w)) d' ->
  store_update u w = (Ok tt, {| dir := (dir w) <| db := d' |>; faults := [] |}).
Proof.
  intros F C. destruct w as [l f]. cbn in *. subst f. unfold commits in C. unfold store_update.
  destruct (is_empty u); [subst; by destruct l|]. unfold transaction, andthen, fallible, andthen, next_fault. cbn.
  unfold of_outcome. by rewrite C.
Qed.
Definition layer_result {A B} (o : outcome StateLayerError A) (b : B) : outcome StateLayerError B :=
  match o with Ok _ => Ok b | Err e => Err e | Panic s => Panic s end.
Lemma apply_chat_update_eval V W c m cur w :
  faults w = [] -> At V W (dir w) -> V !! c = Some cur -> storable m cur ->
  exists w', apply_chat_update c m w = (layer_result (apply_chat_mutation cur m) tt, w') /\ faults w' = [].
Proof.
  intros F A Vc Ck. destruct (materialize_succeeds V W c w F A) as (b & w1 & E1 & F1).
  destruct (triple_use _ _ _ _ _ _ _ (triple_materialize V W c) A E1) as (A1 & B1). destruct b; [|congruence].
  destruct B1 as (slot & st & Es & Et). assert (Vs := in_memory_value _ _ c _ st A1 ltac:(by rewrite Es)). rewrite Vc in Vs. injection Vs as ->.
  unfold apply_chat_update, andthen. rewrite E1. cbn - [apply_chat_mutation durable_update store_update chat_value].
  rewrite Es, Et. cbn - [apply_chat_mutation durable_update store_update chat_value]. unfold of_outcome.
  destruct (apply_chat_mutation (chat_value st) m) as [next|e|p] eqn:Ap; [|by eexists..].
  destruct (core_chat _ _ _ (proj1 A1) ltac:(destruct A1 as (_ & -> & _); exact Vc)) as (slot' & x & _ & _ & _ & I & St & B).
  destruct (durable_update_succeeds _ _ _ _ m next St B I Ap Ck) as (u & d' & -> & Co). rewrite (store_update_eval u w1 d' F1 Co).
  cbn - [usage_changed]. case_match; by eexists.
Qed.
Lemma apply_update_eval V u c m cur w :
  faults w = [] -> At V V (dir w) -> validate_update_shape u = Ok tt -> up_chat u = Some (c, m) -> V !! c = Some cur -> storable m cur ->
  exists w', apply_update u w = (layer_result (apply_chat_mutation cur m) tt, w') /\ faults w' = [].
Proof.
  intros F A Sh Eu Vc Ck. destruct (apply_chat_update_eval V V c m cur w F A Vc Ck) as (w1 & E1 & F1).
  unfold apply_update, andthen, of_outcome. rewrite Sh, Eu, E1. destruct (apply_chat_mutation cur m); cbn; [|by eexists..].
  destruct (up_list u); [|by eexists]. unfold list_apply, draw_generation, andthen. cbn. by eexists.
Qed.

(** ** Harness events *)

(** Holding the chats [V] with no faults to come. *)
Definition Calm (V : gmap bytes Chat) (w : World Layer) : Prop := faults w = [] /\ At V V (dir w).
Lemma calm_read V c w : Calm V w -> exists w', layer (chat c) w = (Ok (V !! c), w') /\ Calm V w'.
Proof.
  intros [F A]. destruct (chat_succeeds V V c w F A) as (r & w' & E & F').
  destruct (triple_use _ _ _ _ _ _ _ (triple_chat V V c) A E) as (A' & ->).
  exists w'. unfold layer, map_err. by rewrite E.
Qed.
Lemma calm_summary_check V c x w : Calm V w -> V !! c = Some x -> summary_check (summary x) = true /\ chat_id (summary x) = c.
Proof.
  intros [_ (C & <- & _)] E. destruct (core_chat _ _ _ C E) as (_ & y & _ & _ & _ & I & [(r & Er & _ & Ck & R) _ _ _ _] & [Bs _ _ _]).
  split; [|done]. rewrite R in Bs. injection Bs as _ _ _ _ _ _ _ Hc Ht _ _. unfold summary_check. by rewrite <- Hc, <- Ht.
Qed.
Lemma calm_update V u c m cur w :
  Calm V w -> validate_update_shape u = Ok tt -> issued V u -> up_chat u = Some (c, m) -> V !! c = Some cur -> storable m cur ->
  exists w', layer (apply_update u) w = (internal (layer_result (apply_chat_mutation cur m) tt), w')
    /\ Calm (match apply_chat_mutation cur m with Ok next => <[c := next]> V | _ => V end) w'.
Proof.
  intros [F A] Sh Is Eu Vc Ck. destruct (apply_update_eval V u c m cur w F A Sh Eu Vc Ck) as (w' & E & F').
  exists w'. unfold layer, map_err. rewrite E. pose proof (triple_use _ _ _ _ _ _ _ (triple_apply_update V u Is) A E) as T.
  destruct (apply_chat_mutation cur m) as [next|e|p] eqn:Ap; cbn in *; (split; [done|split; [done|]]); [|done..].
  destruct T as (c' & m' & cur' & next' & Eu' & Ec & Ap' & A'). rewrite Eu in Eu'. injection Eu' as <- <-.
  rewrite Vc in Ec. injection Ec as <-. rewrite Ap in Ap'. by injection Ap' as <-.
Qed.
Lemma calm_summary V c x s w :
  Calm V w -> V !! c = Some x -> renewed s x -> title s = title (summary x) -> cost_center_id s = cost_center_id (summary x) ->
  exists w', apply_summary s w = (Ok tt, w') /\ Calm (<[c := x <| summary := s |>]> V) w'.
Proof.
  intros H E (I & P & T) Ht Hc. destruct (calm_summary_check _ _ _ _ H E) as [Ck Ix].
  assert (Ap : apply_chat_mutation x (UpdateSummary s) = Ok (x <| summary := s |>)) by (cbn; by rewrite bool_decide_true).
  destruct (calm_update V (summary_update s) c (UpdateSummary s) x w H) as (w' & Ew & Hw).
  - cbn. by rewrite !bool_decide_true.
  - cbn. rewrite I, Ix. intros cur Ec. rewrite E in Ec. by injection Ec as <-.
  - cbn. by rewrite I, Ix.
  - done.
  - unfold storable, summary_check. rewrite Ht, Hc. exact Ck.
  - exists w'. unfold apply_summary. rewrite Ew, Ap in *. done.
Qed.
Lemma calm_touch V c x t attention w :
  Calm V w -> V !! c = Some x ->
  exists w', touch_summary c t attention w = (Ok tt, w') /\ Calm (<[c := touched t attention x]> V) w'.
Proof.
  intros H E. destruct (calm_read V c w H) as (w1 & E1 & H1). unfold touch_summary, andthen at 1 2. rewrite E1, E. cbn - [apply_summary].
  apply calm_summary; [done|done|..]; unfold renewed; by case_match.
Qed.
Definition cursor_of (c : bytes) (w : World Layer) : option ResumeCursor := chat_rows (db (dir w)) !! c ≫= row_resume_cursor.
Lemma calm_cursor V c x cursor w : Calm V w -> V !! c = Some x ->
  exists w', layer (store_resume_cursor c cursor) w = (Ok tt, w') /\ Calm V w' /\ cursor_of c w' = Some cursor.
Proof.
  intros [F A] Vc. pose proof (store_update_eval (no_update <| du_chat_id := Some c |> <| du_resume_cursor := Some cursor |>) w
    (db_store_resume_cursor c cursor (db (dir w))) F eq_refl) as E.
  unfold layer, map_err, store_resume_cursor. rewrite E. eexists. split; [done|]. split; [split; [done|]|].
  - exact (triple_use _ _ _ _ _ _ _ (triple_store_resume_cursor V V c cursor) A E).
  - destruct (core_chat _ _ _ (proj1 A) ltac:(destruct A as (_ & -> & _); exact Vc)) as (_ & y & _ & _ & _ & _ & [(r & Er & _) _ _ _ _] & _).
    unfold cursor_of, db_store_resume_cursor. cbn. rewrite Er. cbn. by rewrite lookup_insert_eq.
Qed.
Lemma reconciled_cursor fresh x b e cursor r : payload e = ResumeCursorUpdated cursor -> reconcile_harness_event fresh x b e = Ok r ->
  re_update r = None /\ re_resume_cursor r = Some cursor /\ re_touch_summary r = false.
Proof. intros P. unfold reconcile_harness_event, reconcile_payload. rewrite P. by intros [= <-]. Qed.

(** An event is rejected with one of two errors, and never with a panic. *)
Definition rejection (er : ChatStateError) : Prop := er = Internal \/ exists message, er = InvalidHarnessEvent message.
Definition orderly {A} (o : outcome ChatStateError A) : Prop := match o with Ok _ => True | Err er => rejection er | Panic _ => False end.
Lemma orderly_bind {A B} (o : outcome ChatStateError A) (k : A -> outcome ChatStateError B) :
  orderly o -> (forall a, orderly (k a)) -> orderly (obind o k).
Proof. destruct o; cbn; auto. Qed.
Lemma orderly_require {A} (o : option A) m : orderly (require o m).
Proof. destruct o; cbn; [done|]. right. eauto. Qed.
Lemma orderly_binding a b k : orderly (require_binding a b k).
Proof. unfold require_binding. case_bool_decide; [done|]. right. eauto. Qed.
Lemma orderly_apply x m : orderly (internal (apply_chat_mutation x m)).
Proof.
  assert (E : match apply_chat_mutation x m with Ok _ => True | Err er => er <> Storage | Panic _ => False end).
  { assert (V : forall z y, match validate_timeline_replacement z y with Ok _ => True | Err er => er <> Storage | Panic _ => False end).
    { intros z y. destruct z, y; cbn; repeat case_match; simplify_eq; first [done|congruence]. }
    destruct m as [s|t|y|i delta|i t|q|a]; cbn - [validate_timeline_replacement]; [repeat case_match; simplify_eq; first [done|congruence]|done| | | |done|repeat case_match; simplify_eq; first [done|congruence]].
    - destruct (position _ _) as [n|] eqn:P; [|done]. apply position_Some in P as (z & -> & _). specialize (V z y). by destruct (validate_timeline_replacement z y).
    - repeat (case_match; simplify_eq; try first [done|congruence]).
    - repeat (case_match; simplify_eq; try first [done|congruence]). }
  destruct (apply_chat_mutation x m) as [|[]|]; cbn; [done|by left|done..].
Qed.
Lemma orderly_ingest fresh x b e : orderly (ingest_spec fresh x b e).
Proof.
  unfold ingest_spec, reconcile_harness_event. apply orderly_bind; [unfold require_current_binding; case_match; [done|right; eauto]|]. intros _.
  apply orderly_bind; [apply orderly_bind; [|by intros []]|intros r; apply orderly_bind; [|done]].
  - unfold reconcile_payload, reconcile_turn_started, reconcile_usage, reconcile_turn_completed, reconcile_item_completed.
    repeat first [done|by (right; eauto)|apply orderly_require|apply orderly_binding|apply orderly_bind; [|intros]|case_match].
  - repeat case_match; try done; apply orderly_apply.
Qed.
Definition update_result (r : ReconciledEvent) (x : Chat) : outcome StateLayerError Chat :=
  match re_update r with Some {| up_chat := Some (_, m) |} => apply_chat_mutation x m | _ => Ok x end.
Lemma calm_reconciled V fresh c x b e r w :
  Calm V w -> V !! c = Some x -> fits_index x -> reconcile_harness_event fresh x b e = Ok r ->
  exists w', (match re_update r with Some u => layer (apply_update u) | None => ret tt end) w
             = (internal (layer_result (update_result r x) tt), w')
    /\ Calm (match update_result r x with Ok y => <[c := y]> V | _ => V end) w'.
Proof.
  intros H E Fi Er. unfold update_result. destruct (calm_summary_check _ _ _ _ H E) as [Ck Ix].
  destruct (re_update r) as [u|] eqn:Eu; [|exists w; cbn; by rewrite insert_id].
  destruct (reconcile_update _ _ _ _ _ _ Er Eu) as [(m & -> & Nm)|(s & -> & Re & Ht & Hc)]; cbn.
  - apply calm_update; try done; [by destruct m|intros cur _; by destruct m|by rewrite Ix|by destruct m].
  - destruct (calm_summary V c x s w H E Re Ht Hc) as (w' & Ew & Hw).
    exists w'. rewrite bool_decide_true by apply Re. done.
Qed.

(** ** Attention and agent status *)
Lemma existsb_insert {A} (p : A -> bool) l n x y : l !! n = Some y -> p x = p y -> existsb p (<[n := x]> l) = existsb p l.
Proof.
  revert n. induction l as [|z l IH]; intros [|n] E P; cbn in *; try done; [by simplify_eq; rewrite P|by rewrite IH].
Qed.
Lemma status_same x y :
  binding (summary y) = binding (summary x) ->
  (forall b, existsb (open_request b) (timeline y) = existsb (open_request b) (timeline x)) ->
  (forall b, existsb (running_turn b) (turns y) = existsb (running_turn b) (turns x)) -> status_of y = status_of x.
Proof. intros B T R. unfold status_of. rewrite B. case_match; [|done]. by rewrite T, R. Qed.
Lemma find_position {A} (p : A -> bool) l t : List.find p l = Some t -> exists i, position p l = Some i /\ l !! i = Some t.
Proof.
  induction l as [|y l IH]; cbn; [done|]. destruct (p y); [intros [= ->]; by exists 0%nat|].
  intros (i & P & E)%IH. exists (S i). by rewrite P.
Qed.
(** Replacing an item by an item does not change requests. *)
Lemma item_requests l e i next :
  apply_chat_mutation l (UpsertTimelineEntry (Item i)) = Ok next \/ (exists n j, timeline l !! n = Some (Item j) /\ next = l <| timeline := <[n := Item i]> (timeline l) |>) ->
  existsb (open_request e) (timeline next) = existsb (open_request e) (timeline l).
Proof.
  intros [Ap|(n & j & E & ->)]; [|by eapply existsb_insert].
  cbn in Ap. destruct (position _ _) as [k|] eqn:P.
  - apply position_Some in P as (y & E & K). rewrite E in Ap. apply obind_Ok in Ap as (? & _ & [= <-]).
    eapply existsb_insert; [done|]. unfold has_key in K. bool_prop. by destruct y.
  - injection Ap as <-. cbn. rewrite existsb_app. cbn. by rewrite orb_false_r.
Qed.
Lemma quiet_status fresh x b e m cursor y :
  reconcile_payload fresh x b e = Ok (Continue (Some m) cursor false) -> apply_chat_mutation x m = Ok y -> status_of y = status_of x.
Proof.
  unfold reconcile_payload, reconcile_turn_started, reconcile_turn_completed, reconcile_item_completed. intros P.
  destruct (payload e) as [| | | | | | |u s| | |i delta| | | | | |];
    try (exfalso; repeat (first [discriminate P | match goal with H : obind _ _ = Ok _ |- _ => apply obind_Ok in H as (? & _ & H) end | case_hyp P]); fail).
  - unfold reconcile_usage in P. apply obind_Ok in P as (i & _ & (t & Et & (? & _ & P)%obind_Ok)%obind_Ok). case_match; [done|].
    injection P as <- _. unfold require, ok_or in Et. destruct (find_turn x i) as [t0|] eqn:Ft; [|done]. injection Et as ->.
    intros [= <-]. apply status_same; [done|done|]. intros b'. cbn. apply find_position in Ft as (n & Pn & E). unfold upsert.
    assert (turn_id t = i) as <- by (apply position_Some in Pn as (? & E' & K); unfold has_turn_id in K; bool_prop; congruence).
    cbn. rewrite Pn. by eapply existsb_insert.
  - apply obind_Ok in P as (i & _ & (t & _ & [= <- _])%obind_Ok). intros Ap. apply status_same.
    + by rewrite (mutation_summary _ _ _ Ap).
    + intros b'. eapply item_requests. by left.
    + intros b'. apply upsert_timeline_eq in Ap as ->. done.
  - case_match; [done|]. injection P as <- _. intros Ap. cbn in Ap.
    destruct (find_timeline_item i (timeline x)) as [[n item]|] eqn:Fi; [|done]. apply find_timeline_item_Some in Fi as (E & _ & _).
    repeat (case_match; try done). injection Ap as <-. apply status_same; [done| |done]. intros b'. eapply item_requests. right. by eexists _, _.
Qed.

(** The shape of a reconciliation. *)
Definition quiet (x : Chat) (e : HarnessEvent) (p : Reconciled) : Prop :=
  match p with
  | Continue m _ touch =>
      (touch = false -> completes_turn (payload e) = false)
      /\ match m with Some (UpdateSummary _) => False | _ => True end
  | Return r =>
      completes_turn (payload e) = false /\ re_touch_summary r = false
      /\ match re_update r with
         | Some u => exists s, u = summary_update s /\ binding s = binding (summary x) /\ agent_status s = agent_status (summary x)
                               /\ attention_required s = attention_required (summary x)
         | None => True
         end
  end.
Lemma reconcile_quiet fresh x b e p : reconcile_payload fresh x b e = Ok p -> quiet x e p.
Proof.
  unfold reconcile_payload, reconcile_turn_started, reconcile_usage, reconcile_turn_completed, reconcile_item_completed, quiet. intros P.
  destruct (payload e); repeat (first [done | match goal with H : obind _ _ = Ok _ |- _ => apply obind_Ok in H as (? & _ & H) end
    | case_hyp P | injection P as <-]); cbn; try done; split_and!; try done; by eexists.
Qed.
Lemma touched_status t a x : agent_status (summary (touched t a x)) = status_of (touched t a x).
Proof.
  assert (status_of (touched t a x) = status_of x) as ->.
  { apply status_same; [|done|done]. unfold touched. cbn. by case_match. }
  unfold touched. cbn. by case_match.
Qed.
Lemma touched_attention t a x : attention_required (summary (touched t a x)) = attention_required (summary x) || a.
Proof. unfold touched. cbn. by case_match. Qed.

(** Attention and status: an accepted event raises attention exactly when it completes
    a turn and no prompt is queued behind it, and an agent status that is the one the
    turns and requests of the current binding imply stays so. *)
Theorem ingest_attention fresh x b e y :
  ingest_spec fresh x b e = Ok y ->
  attention_required (summary y)
  = attention_required (summary x) || (bool_decide (queued_prompts x = []) && completes_turn (payload e))
  /\ (agent_status (summary x) = status_of x -> agent_status (summary y) = status_of y).
Proof.
  unfold ingest_spec, reconcile_harness_event. intros (_ & _ & (r & (p & P & Er)%obind_Ok & (z & U & [= <-])%obind_Ok)%obind_Ok)%obind_Ok.
  pose proof (reconcile_quiet _ _ _ _ _ P) as Q. destruct p as [m cursor touch|r']; cbn in Q.
  - injection Er as <-. cbn in *. destruct Q as [Qt Qm].
    assert (Z : summary z = summary x /\ (touch = false -> status_of z = status_of x)).
    { destruct m as [m|]; [|by injection U as <-]. cbn in U. unfold internal in U. destruct (apply_chat_mutation x m) as [n| |] eqn:Ap; [|done..].
      injection U as <-. split; [rewrite (mutation_summary _ _ _ Ap); by destruct m|]. intros ->. by eapply quiet_status. }
    destruct Z as [Zs Zt]. destruct touch.
    + rewrite touched_attention, Zs. split; [done|]. intros _. apply touched_status.
    + rewrite Zs, Qt, andb_false_r, orb_false_r, Zt by done. done.
  - injection Er as <-. destruct Q as (-> & -> & Qu). rewrite andb_false_r, orb_false_r.
    destruct (re_update r') as [u|]; [|by injection U as <-]. destruct Qu as (s & -> & Qb & Qs & Qa). cbn in U.
    case_bool_decide; [|done]. injection U as <-. cbn. split; [done|]. rewrite Qs. intros ->. symmetry. by apply status_same.
Qed.
Lemma ingest_attention_witness :
  exists x y, chats_of (dir demo_world) !! [1] = Some x /\ ingest_spec [] x [3] (ev 20 None (PTurnCompleted TurnCompleted None)) = Ok y
    /\ attention_required (summary x) = false /\ attention_required (summary y) = true.
Proof.
  destruct (chats_of (dir demo_world) !! [1]) as [x|] eqn:E; [|vm_compute in E; discriminate E]. exists x.
  destruct (ingest_spec [] x [3] (ev 20 None (PTurnCompleted TurnCompleted None))) as [y| |] eqn:S;
    [|vm_compute in E; injection E as <-; vm_compute in S; discriminate S..].
  exists y. destruct (ingest_attention _ _ _ _ _ S) as [A _]. split; [reflexivity|]. split; [reflexivity|].
  vm_compute in E. injection E as <-. split; [reflexivity|]. rewrite A. vm_compute. reflexivity.
Defined.

(** A run without faults computes [ingest_spec]. *)
Lemma ingest_runs timestamp_text w fresh c b e x :
  reachable timestamp_text (dir w) -> faults w = [] -> reads (dir w) c (Some x) -> fits_index x ->
  exists w', ingest_harness_event fresh c b e w
             = (match ingest_spec fresh x b e with Ok _ => Ok tt | Err er => Err er | Panic s => Panic s end, w')
    /\ chats_of (dir w')
       = match ingest_spec fresh x b e with Ok y => <[c := y]> (chats_of (dir w)) | _ => chats_of (dir w) end
    /\ forall y cursor, ingest_spec fresh x b e = Ok y -> payload e = ResumeCursorUpdated cursor -> cursor_of c w' = Some cursor.
Proof.
  intros R%reachable_At F Rd Fi. assert (C := proj1 R). apply reads_chats in Rd; [|done].
  set (V := chats_of (dir w)) in *. assert (H : Calm V w) by (by split). symmetry in Rd.
  assert (Q : forall X w', Calm X w' -> chats_of (dir w') = X) by (by intros X w' [_ (_ & ? & _)]).
  destruct (calm_read V c w H) as (w1 & E1 & H1).
  unfold ingest_harness_event, andthen at 1 2. rewrite E1, Rd. cbn [known ok_or of_outcome]. unfold andthen at 1, of_outcome at 1, ingest_spec.
  assert (Stop : forall w' (o : outcome ChatStateError Chat), is_ok o = false -> Calm V w' ->
    chats_of (dir w') = V /\ forall y cursor, o = Ok y -> payload e = ResumeCursorUpdated cursor -> cursor_of c w' = Some cursor).
  { intros w' o No Hw. split; [by apply Q|]. by intros y cursor ->. }
  destruct (require_current_binding x b) as [[]|er|p]; cbn [obind]; [|exists w1; split; [done|by apply Stop]..].
  unfold andthen at 1, of_outcome at 1.
  destruct (reconcile_harness_event fresh x b e) as [r|er|p] eqn:Er; cbn [obind]; [|exists w1; split; [done|by apply Stop]..].
  assert (exists w2, (match re_resume_cursor r with Some cursor => layer (store_resume_cursor c cursor) | None => ret tt end) w1 = (Ok tt, w2) /\ Calm V w2
    /\ forall cursor, re_resume_cursor r = Some cursor -> cursor_of c w2 = Some cursor) as (w2 & E2 & H2 & Cu).
  { destruct (re_resume_cursor r) as [cursor|]; [|by exists w1]. destruct (calm_cursor V c x cursor w1 H1 Rd) as (w2 & E2 & H2 & Cu).
    exists w2. split_and!; [done..|]. by intros ? [= <-]. }
  unfold andthen at 1. rewrite E2. destruct (calm_reconciled V fresh c x b e r w2 H2 Rd Fi Er) as (w3 & E3 & H3).
  assert (Cu3 : forall cursor, payload e = ResumeCursorUpdated cursor -> cursor_of c w3 = Some cursor /\ re_touch_summary r = false).
  { intros cursor (Ru & Rc & Rt)%(reconciled_cursor fresh x b e cursor r); [|done]. split; [|done]. rewrite Ru in E3. injection E3 as _ <-. by apply Cu. }
  unfold andthen at 1. rewrite E3.
  replace (match re_update r with Some _ => _ | None => _ end) with (internal (update_result r x)) by (unfold update_result; by repeat case_match).
  destruct (update_result r x) as [y|er|p]; cbn [layer_result internal obind] in *; [|exists w3; split; [done|by apply Stop]..].
  destruct (re_touch_summary r) eqn:Tr.
  - destruct (calm_touch _ c y (occurred_at e) (re_attention_required r) w3 H3) as (w4 & E4 & H4); [apply lookup_insert_eq|].
    exists w4. split; [done|]. rewrite insert_insert_eq in H4. split; [by apply Q|]. by intros ? cursor _ [_ ?]%Cu3.
  - exists w3. split; [done|]. split; [by apply Q|]. by intros ? cursor _ [? _]%Cu3.
Qed.

(** C21: Functional correctness of event ingestion: without storage faults an event of a
    chat whose numbers of turns and of timeline entries fit an i64 is applied exactly as
    the relation [Ingested] of [ChatEvents] says, which describes the effect of each kind
    of event on turns, entries and summary without the reducers of the code.  If the
    binding is the current one and the chat admits the event, the event is accepted, the
    chat becomes a specified one and no other chat changes, and a new resume cursor is
    stored; otherwise it is rejected as invalid or internal and no chat changes.  There is
    no panic, and no constraint of the schema is ever violated. *)
Theorem ingest_effect timestamp_text w fresh c b e x :
  reachable timestamp_text (dir w) -> faults w = [] -> reads (dir w) c (Some x) -> fits_index x ->
  exists r w', ingest_harness_event fresh c b e w = (r, w') /\
  match r with
  | Ok _ => (exists y, Ingested fresh b e x y /\ chats_of (dir w') = <[c := y]> (chats_of (dir w)))
            /\ forall cursor, payload e = ResumeCursorUpdated cursor -> cursor_of c w' = Some cursor
  | Err er => (forall y, ~ Ingested fresh b e x y) /\ chats_of (dir w') = chats_of (dir w) /\ rejection er
  | Panic _ => False
  end.
Proof.
  intros R F Rd Fi. destruct (ingest_runs timestamp_text w fresh c b e x R F Rd Fi) as (w' & E & Ec & Cu).
  eexists _, w'. split; [exact E|]. pose proof (orderly_ingest fresh x b e) as O.
  destruct (ingest_spec fresh x b e) as [y|er|p] eqn:Sp; cbn in O; [|split_and!; [|done..]|done].
  - split; [exists y; split; [by apply ingest_spec_Ingested|done]|]. intros cursor Pe. by eapply Cu.
  - intros y Iy%ingest_spec_Ingested. congruence.
Qed.

Definition completed_turn : HarnessEvent := ev 20 None (PTurnCompleted TurnCompleted None).
Lemma ingest_effect_witness :
  exists w' y, ingest_harness_event [] [1] [3] completed_turn demo_world = (Ok tt, w') /\ chats_of (dir w') !! [1] = Some y
    /\ (agent_status (summary y), attention_required (summary y), map turn_state (turns y)) = (Idle, true, [TurnCompleted])
    /\ exists x, chats_of (dir demo_world) !! [1] = Some x /\ Ingested [] [3] completed_turn x y.
Proof.
  destruct (chats_of (dir demo_world) !! [1]) as [x|] eqn:E; [|vm_compute in E; discriminate E].
  destruct (ingest_effect no_text demo_world [] [1] [3] completed_turn x) as (r & w' & Ew & Er).
  - exact (run_ops_reachable demo).
  - vm_compute. reflexivity.
  - exact (reads_now demo [1] x E).
  - vm_compute in E. injection E as <-. split; vm_compute; discriminate.
  - assert ((ingest_harness_event [] [1] [3] completed_turn demo_world).1 = Ok tt) as E1 by (vm_compute; reflexivity).
    assert (option_map (fun y => (agent_status (summary y), attention_required (summary y), map turn_state (turns y)))
      (chats_of (dir (ingest_harness_event [] [1] [3] completed_turn demo_world).2) !! [1]) = Some (Idle, true, [TurnCompleted])) as S by (vm_compute; reflexivity).
    rewrite Ew in E1, S. cbn [fst snd] in E1, S. subst r.
    destruct Er as [(y & I & Ec) _]. rewrite Ec, lookup_insert_eq in S. injection S as S1 S2 S3.
    refine (ex_intro _ w' (ex_intro _ y (conj Ew (conj _ (conj _ (ex_intro _ x (conj eq_refl I))))))); [by rewrite Ec, lookup_insert_eq|by rewrite S1, S2, S3].
Defined.
