(* ===== verification/ChatUsageThms.v ===== *)
(** * Properties of chat usage and cost *)

From S2P Require Import Prelude Lists ChatTypes ChatReduce ChatStorage ChatUsage.

(** ** Cost

    A reference definition in unbounded integers: the exact cost of every model, one
    rounding, and one range check at the end. *)
Definition usd (m : Money) (cur : bytes) : bool := bool_decide (currency m = cur).
Definition cache_write_exact (u : ChatTokenUsage) : Z :=
  match cache_write_input_tokens u with
  | Some n => n
  | None => foldr Z.add 0 (map cw_input_tokens (cache_writes_by_ttl u))
  end.
Definition model_cost_exact (u : ChatTokenUsage) (p : ChatModelPricing) (cur : bytes) : option Z :=
  let read_rate := default (input_price p) (cache_read_price p) in
  let write_rate := default (input_price p) (cache_write_price p) in
  let read := default 0 (cache_read_input_tokens u) in
  let write := cache_write_exact u in
  if (read + write <=? input_tokens u) && usd (input_price p) cur && usd read_rate cur && usd write_rate cur && usd (output_price p) cur
  then Some ((input_tokens u - read - write) * amount (input_price p) + read * amount read_rate
             + write * amount write_rate + output_tokens u * amount (output_price p))
  else None.
Fixpoint cost_exact (version : bytes) (count : Z) (cur : bytes) (l : list ChatModelUsage) : option Z :=
  match l with
  | [] => Some 0
  | m :: rest =>
      some p <- pricing m;
      if negb (bool_decide (catalog_version p = version)) || negb (token_count p =? count) then None
      else
        some n <- model_cost_exact (mu_tokens m) p cur;
        some total <- cost_exact version count cur rest;
        Some (n + total)
  end.
Definition cost_spec (u : ChatUsageSnapshot) : option ChatCalculatedCost :=
  some m <- head (models u);
  some p <- pricing m;
  let count := token_count p in
  let cur := currency (input_price p) in
  if count =? 0 then None
  else
    some n <- cost_exact (catalog_version p) count cur (models u);
    if (n + count / 2 <=? u128_max) && ((n + count / 2) / count <=? u64_max)
    then Some {| cost_amount := {| currency := cur; amount := (n + count / 2) / count |};
                 pricing_catalog_version := catalog_version p |}
    else None.

(** Counters and prices are [u64]s. *)
Definition money_ok (m : Money) : Prop := 0 <= amount m.
Definition tokens_ok (u : ChatTokenUsage) : Prop :=
  0 <= input_tokens u <= u64_max /\ 0 <= output_tokens u <= u64_max
  /\ (forall n, cache_read_input_tokens u = Some n -> 0 <= n) /\ (forall n, cache_write_input_tokens u = Some n -> 0 <= n)
  /\ Forall (fun w => 0 <= cw_input_tokens w) (cache_writes_by_ttl u).
Definition pricing_ok (p : ChatModelPricing) : Prop :=
  0 <= token_count p /\ money_ok (input_price p) /\ money_ok (output_price p)
  /\ (forall m, cache_read_price p = Some m -> money_ok m) /\ (forall m, cache_write_price p = Some m -> money_ok m).
Definition usage_ok (u : ChatUsageSnapshot) : Prop :=
  Forall (fun m => tokens_ok (mu_tokens m) /\ forall p, pricing m = Some p -> pricing_ok p) (models u).

Notation Zsum := (foldr Z.add 0).
Lemma Zsum_nonneg l : Forall (fun x => 0 <= x) l -> 0 <= Zsum l.
Proof. induction 1; cbn; lia. Qed.
Definition in_u128 (n : Z) : option Z := if n <=? u128_max then Some n else None.

Lemma checked_sum_eq l : forall total, Forall (fun x => 0 <= x) l -> total <= u64_max ->
  checked_sum u64_max total l = if total + Zsum l <=? u64_max then Some (total + Zsum l) else None.
Proof.
  induction l as [|x l IH]; intros total F T; cbn.
  - rewrite Z.add_0_r. by rewrite (proj2 (Z.leb_le _ _) T).
  - inversion F as [|? ? Hx Fl]; subst. pose proof (Zsum_nonneg l Fl). unfold checked_add. destruct (total + x <=? u64_max) eqn:E; bool_prop.
    + rewrite IH by done. by rewrite Z.add_assoc.
    + case_match; bool_prop; [lia|done].
Qed.
Lemma add_cost_eq total tokens rate cur :
  0 <= total -> 0 <= tokens -> money_ok rate ->
  add_cost total tokens rate cur = if usd rate cur then in_u128 (total + tokens * amount rate) else None.
Proof.
  unfold add_cost, usd, money_ok, in_u128. intros Ht Hk Hr. case_bool_decide; cbn; [|done].
  assert (0 <= tokens * amount rate) by nia. destruct (tokens * amount rate <=? u128_max) eqn:E; [done|]. case_match; bool_prop; [lia|done].
Qed.
Lemma cache_write_eq u :
  tokens_ok u -> cache_write_tokens u = (if bool_decide (cache_write_input_tokens u = None) && negb (cache_write_exact u <=? u64_max) then None else Some (cache_write_exact u))
  /\ 0 <= cache_write_exact u.
Proof.
  intros (_ & _ & _ & Hw & F). unfold cache_write_tokens, cache_write_exact. destruct (cache_write_input_tokens u) as [n|]; [split; [done|by apply Hw]|].
  assert (F' : Forall (fun x => 0 <= x) (map cw_input_tokens (cache_writes_by_ttl u))) by (by apply Forall_map).
  rewrite checked_sum_eq by (done || (unfold u64_max; lia)). split; [|by apply Zsum_nonneg]. rewrite bool_decide_true, Z.add_0_l by done. cbn. by case_match.
Qed.
Lemma model_cost_eq u p cur :
  tokens_ok u -> pricing_ok p ->
  model_cost_numerator u p cur = some n <- model_cost_exact u p cur; in_u128 n.
Proof.
  intros Ku (_ & Kin & Kout & Kr & Kw). destruct (cache_write_eq u Ku) as [Ew Nw]. destruct Ku as ((Hi & Mi) & (Ho & Mo) & Hr & Hw & _).
  unfold model_cost_numerator, model_cost_exact. rewrite Ew. set (w := cache_write_exact u) in *. set (r := default 0 (cache_read_input_tokens u)).
  assert (Nr : 0 <= r) by (unfold r; destruct (cache_read_input_tokens u); cbn; [by apply Hr|lia]).
  set (rr := default (input_price p) (cache_read_price p)). set (wr := default (input_price p) (cache_write_price p)).
  assert (Krr : money_ok rr) by (unfold rr; destruct (cache_read_price p); cbn; [by apply Kr|done]).
  assert (Kwr : money_ok wr) by (unfold wr; destruct (cache_write_price p); cbn; [by apply Kw|done]).
  destruct (r + w <=? input_tokens u) eqn:Ec; bool_prop; cbn [andb].
  2: { destruct (_ && negb _); [done|]. unfold checked_add. destruct (r + w <=? u64_max); [|done].
       by rewrite (proj2 (checked_sub_None _ _) Ec). }
  assert ((w <=? u64_max) = true) as -> by (apply Z.leb_le; lia). rewrite andb_false_r, checked_add_ok by lia.
  unfold checked_sub. assert ((r + w <=? input_tokens u) = true) as -> by (apply Z.leb_le; lia).
  unfold money_ok in *. rewrite add_cost_eq by (done || lia). destruct (usd (input_price p) cur); [|done]. unfold in_u128 at 1. cbn [andb].
  set (a := (input_tokens u - (r + w)) * amount (input_price p)). assert (Na : 0 <= a) by (unfold a; nia).
  set (b := r * amount rr). set (c := w * amount wr). set (d := output_tokens u * amount (output_price p)).
  assert (Nb : 0 <= b) by (unfold b; nia). assert (Nc : 0 <= c) by (unfold c; nia). assert (Nd : 0 <= d) by (unfold d; nia).
  replace ((input_tokens u - r - w) * amount (input_price p)) with a by (unfold a; lia).
  assert (Big : forall n, u128_max < a \/ u128_max < a + b \/ u128_max < a + b + c -> n = a + b + c + d -> in_u128 n = None).
  { intros n H ->. unfold in_u128. destruct (a + b + c + d <=? u128_max) eqn:E; [bool_prop; lia|done]. }
  destruct (0 + a <=? u128_max) eqn:E1; bool_prop; [|destruct (usd rr cur && usd wr cur && usd (output_price p) cur); [by rewrite (Big _ ltac:(lia) eq_refl)|done]].
  rewrite add_cost_eq by (done || lia). destruct (usd rr cur); [|done]. unfold in_u128 at 1. fold b. cbn [andb].
  destruct (0 + a + b <=? u128_max) eqn:E2; bool_prop; [|destruct (usd wr cur && usd (output_price p) cur); [by rewrite (Big _ ltac:(lia) eq_refl)|done]].
  rewrite add_cost_eq by (done || lia). destruct (usd wr cur); [|done]. unfold in_u128 at 1. fold c. cbn [andb].
  destruct (0 + a + b + c <=? u128_max) eqn:E3; bool_prop; [|destruct (usd (output_price p) cur); [by rewrite (Big _ ltac:(lia) eq_refl)|done]].
  rewrite add_cost_eq by (done || lia). destruct (usd (output_price p) cur); [|done]. fold d. f_equal; lia.
Qed.

Lemma model_cost_nonneg u p cur n : tokens_ok u -> pricing_ok p -> model_cost_exact u p cur = Some n -> 0 <= n.
Proof.
  intros Ku (_ & Kin & Kout & Kr & Kw). destruct (cache_write_eq u Ku) as [_ Nw]. destruct Ku as ((Hi & _) & (Ho & _) & Hr & _).
  unfold model_cost_exact. case_match eqn:E; [|done]. intros [= <-]. bool_prop. unfold money_ok in *.
  assert (0 <= default 0 (cache_read_input_tokens u)) by (destruct (cache_read_input_tokens u); cbn; [by apply Hr|lia]).
  assert (0 <= amount (default (input_price p) (cache_read_price p))) by (destruct (cache_read_price p); cbn; [by apply Kr|done]).
  assert (0 <= amount (default (input_price p) (cache_write_price p))) by (destruct (cache_write_price p); cbn; [by apply Kw|done]).
  nia.
Qed.
Definition model_ok (m : ChatModelUsage) : Prop := tokens_ok (mu_tokens m) /\ forall p, pricing m = Some p -> pricing_ok p.
Lemma cost_exact_nonneg v k cur l n : Forall model_ok l -> cost_exact v k cur l = Some n -> 0 <= n.
Proof.
  intros F. revert n. induction F as [|m l [Kt Kp] F IH]; intros n; cbn; [intros [= <-]; lia|].
  destruct (pricing m) as [p|] eqn:Ep; [|done]. case_match; [done|]. destruct (model_cost_exact _ _ _) as [a|] eqn:Ea; [|done].
  destruct (cost_exact _ _ _ l) as [b|]; [|done]. intros [= <-]. pose proof (model_cost_nonneg _ _ _ _ Kt (Kp _ eq_refl) Ea). specialize (IH b eq_refl). lia.
Qed.
Lemma cost_numerator_eq v k cur l : forall num, Forall model_ok l -> 0 <= num <= u128_max ->
  cost_numerator v k cur num l = some n <- cost_exact v k cur l; in_u128 (num + n).
Proof.
  induction l as [|m l IH]; intros num F N; cbn.
  - unfold in_u128. rewrite Z.add_0_r. by rewrite (proj2 (Z.leb_le _ _) (proj2 N)).
  - inversion F as [|? ? [Kt Kp] Fl]; subst. destruct (pricing m) as [p|] eqn:Ep; [|done]. destruct (negb (bool_decide (catalog_version p = v)) || negb (token_count p =? k)); [done|].
    rewrite model_cost_eq by (done || by apply Kp). destruct (model_cost_exact _ _ _) as [a|] eqn:Ea; [|done].
    pose proof (model_cost_nonneg _ _ _ _ Kt (Kp _ eq_refl) Ea) as Na.
    assert (Big : u128_max < num + a -> (some total <- cost_exact v k cur l; in_u128 (num + (a + total))) = None).
    { intros B. destruct (cost_exact v k cur l) as [t|] eqn:Et; [|done]. pose proof (cost_exact_nonneg _ _ _ _ _ Fl Et).
      unfold in_u128. by rewrite (proj2 (Z.leb_gt _ _)) by lia. }
    replace (some n <- some total <- cost_exact v k cur l; Some (a + total); in_u128 (num + n))
      with (some total <- cost_exact v k cur l; in_u128 (num + (a + total))) by (by destruct (cost_exact v k cur l)).
    unfold in_u128 at 1. destruct (a <=? u128_max) eqn:E1; bool_prop; [|by rewrite Big by lia].
    unfold checked_add. destruct (num + a <=? u128_max) eqn:E2; bool_prop; [|by rewrite Big by lia].
    rewrite IH by (done || lia). destruct (cost_exact v k cur l); [|done]. by rewrite Z.add_assoc.
Qed.

(** C29: Cost is exact: on any usage the calculation with checked 64- and 128-bit arithmetic
    returns what the reference gives in unbounded integers: the exact cost of all
    models rounded once to the nearest minor unit, or nothing. *)
Theorem calculate_cost_exact u : usage_ok u -> calculate_cost u = cost_spec u.
Proof.
  intros F. unfold calculate_cost, cost_spec. destruct (models u) as [|m l] eqn:El; [done|]. cbn [head].
  destruct (pricing m) as [p|] eqn:Ep; [|done]. destruct (token_count p =? 0) eqn:Ec; [done|]. unfold usage_ok in F. rewrite El in F. bool_prop.
  rewrite cost_numerator_eq by (done || (unfold u128_max; lia)). destruct (cost_exact _ _ _ _) as [n|] eqn:En; [|done]. rewrite Z.add_0_l.
  assert (Pc : 0 <= token_count p). { inversion F as [|? ? [_ Kp] _]; subst. by destruct (Kp p Ep). }
  pose proof (Z.div_pos (token_count p) 2 ltac:(lia) ltac:(lia)). unfold in_u128, checked_add, try_from.
  destruct (n <=? u128_max) eqn:E1; bool_prop; [|by rewrite (proj2 (Z.leb_gt _ _)) by lia].
  destruct (n + token_count p / 2 <=? u128_max); [|done]. by destruct (_ <=? u64_max).
Qed.
Definition sample_money (n : Z) : Money := {| currency := str "USD"; amount := n |}.
Definition sample_tokens : ChatTokenUsage :=
  {| input_tokens := 10000000; output_tokens := 1000000; cache_read_input_tokens := Some 2000000;
     cache_write_input_tokens := Some 1000000; cache_writes_by_ttl := []; reasoning_output_tokens := None |}.
Definition sample_usage : ChatUsageSnapshot :=
  {| coverage := ExecutionTree; tokens := sample_tokens;
     models := [{| mu_model := {| model_name := str "terra"; options := [] |}; mu_tokens := sample_tokens;
                   pricing := Some {| catalog_version := str "test"; token_count := 10000000; input_price := sample_money 2500;
                                      cache_read_price := Some (sample_money 250); cache_write_price := Some (sample_money 3125);
                                      output_price := sample_money 15000 |};
                   mu_provider_estimated_cost := None |}];
     provider_estimated_cost := None |}.
Lemma calculate_cost_exact_witness :
  calculate_cost sample_usage = Some {| cost_amount := sample_money 3613; pricing_catalog_version := str "test" |}.
Proof.
  rewrite (calculate_cost_exact sample_usage); [vm_compute; reflexivity|].
  constructor; [|constructor]. split.
  - unfold tokens_ok, u64_max. cbn. split_and!; try lia; [intros; simplify_eq; lia..|constructor].
  - intros p E. cbn in E. injection E as <-. unfold pricing_ok, money_ok. cbn. split_and!; try lia; intros; simplify_eq; cbn; lia.
Defined.

(** ** Reports *)
Fixpoint aggregate_from (a : AggregateBuilder) (l : list UsageRecord) : outcome UsageError AggregateBuilder :=
  match l with
  | [] => Ok a
  | r :: rest => let? a' := aggregate_add r a in aggregate_from a' rest
  end.
Definition aggregate (l : list UsageRecord) : outcome UsageError AggregateBuilder := aggregate_from AggregateBuilder_default l.
Definition of_center (k : option bytes) (r : UsageRecord) : Prop := ur_cost_center_id r = k.
#[export] Instance of_center_dec k r : Decision (of_center k r).
Proof. unfold of_center. apply _. Defined.

Lemma aggregate_snoc l r a b : aggregate_from a l = Ok b -> aggregate_from a (l ++ [r]) = aggregate_add r b.
Proof.
  revert a. induction l as [|x l IH]; intros a; cbn; [intros [= ->]; by destruct (aggregate_add r b)|].
  intros (a' & E & H)%obind_Ok. rewrite E. cbn. by apply IH.
Qed.
Lemma filter_none k l : k ∉ ur_cost_center_id <$> l -> filter (of_center k) l = [].
Proof.
  induction l as [|r l IH]; [done|]. rewrite fmap_cons. intros [N Nl]%not_elem_of_cons. rewrite filter_cons_False; [by apply IH|]. intros E. by apply N.
Qed.
(** One pass computes the total and every center. *)
Lemma aggregate_all_spec l : forall done t centers t' centers',
  aggregate done = Ok t ->
  (forall k, match centers !! k with
             | Some b => aggregate (filter (of_center k) done) = Ok b /\ k ∈ ur_cost_center_id <$> done
             | None => k ∉ ur_cost_center_id <$> done
             end) ->
  aggregate_all l t centers = Ok (t', centers') ->
  aggregate (done ++ l) = Ok t' /\
  forall k, match centers' !! k with
            | Some b => aggregate (filter (of_center k) (done ++ l)) = Ok b /\ k ∈ ur_cost_center_id <$> (done ++ l)
            | None => k ∉ ur_cost_center_id <$> (done ++ l)
            end.
Proof.
  induction l as [|r l IH]; intros done t centers t' centers' Ht Hc; cbn.
  { intros [= <- <-]. by rewrite app_nil_r. }
  intros (t1 & E1 & (c1 & Ec & H)%obind_Ok)%obind_Ok. rewrite cons_middle, app_assoc. eapply IH; [| |done].
  - unfold aggregate. by rewrite (aggregate_snoc _ _ _ _ Ht).
  - intros k. destruct (decide (k = ur_cost_center_id r)) as [->|N].
    + rewrite lookup_insert_eq. split; [|rewrite fmap_app; set_solver]. rewrite filter_app, filter_cons_True, filter_nil by done.
      specialize (Hc (ur_cost_center_id r)). destruct (centers !! ur_cost_center_id r) as [b|]; cbn in Ec.
      * unfold aggregate. by rewrite (aggregate_snoc _ _ _ _ (proj1 Hc)).
      * rewrite filter_none by done. cbn. by rewrite Ec.
    + rewrite lookup_insert_ne by done. rewrite filter_app, filter_cons_False, filter_nil, app_nil_r by (intros E; by apply N).
      specialize (Hc k). rewrite fmap_app. cbn. destruct (centers !! k); set_solver.
Qed.

(** The additive counters. *)
Inductive Counter := InputTokens | OutputTokens | Turns | PricedTurns | ProvisionalTurns | PrimaryAgentTurns.
Definition record_count (k : Counter) (r : UsageRecord) : Z :=
  let u := ur_usage r in
  match k with
  | InputTokens => input_tokens (tokens (usage_snapshot u))
  | OutputTokens => output_tokens (tokens (usage_snapshot u))
  | Turns => 1
  | PricedTurns => Z.b2z (bool_decide (is_Some (calculated_cost u)))
  | ProvisionalTurns => Z.b2z (bool_decide (usage_state u = Provisional))
  | PrimaryAgentTurns => Z.b2z (bool_decide (coverage (usage_snapshot u) = PrimaryAgent))
  end.
Definition builder_count (k : Counter) (a : AggregateBuilder) : Z :=
  match k with
  | InputTokens => ab_input_tokens a
  | OutputTokens => ab_output_tokens a
  | Turns => ab_turn_count a
  | PricedTurns => ab_priced_turn_count a
  | ProvisionalTurns => ab_provisional_turn_count a
  | PrimaryAgentTurns => ab_primary_agent_turn_count a
  end.
Definition count (k : Counter) (a : ChatUsageAggregate) : Z :=
  match k with
  | InputTokens => input_tokens (ag_tokens a)
  | OutputTokens => output_tokens (ag_tokens a)
  | Turns => ag_turn_count a
  | PricedTurns => ag_priced_turn_count a
  | ProvisionalTurns => ag_provisional_turn_count a
  | PrimaryAgentTurns => ag_primary_agent_turn_count a
  end.

Lemma usage_checked_add_Ok x y z : usage_checked_add x y = Ok z -> z = x + y.
Proof. unfold usage_checked_add, ok_or. destruct (checked_add _ _ _) eqn:E; [|done]. apply checked_add_Some in E as [-> _]. by intros [= <-]. Qed.
Lemma count_if_Ok b n m : count_if b n = Ok m -> m = n + Z.b2z b.
Proof. unfold count_if. destruct b; [apply usage_checked_add_Ok|]. intros [= <-]. cbn. lia. Qed.
Lemma aggregate_add_count k r a b : aggregate_add r a = Ok b -> builder_count k b = builder_count k a + record_count k r.
Proof.
  unfold aggregate_add.
  intros (i & ->%usage_checked_add_Ok & (o & ->%usage_checked_add_Ok & (cr & _ & (cw & _ & (re & _ & (ttl & _ &
    (tu & ->%usage_checked_add_Ok & (pv & ->%count_if_Ok & (pa & ->%count_if_Ok & (pr & ->%count_if_Ok & (co & _ & [= <-])
    %obind_Ok)%obind_Ok)%obind_Ok)%obind_Ok)%obind_Ok)%obind_Ok)%obind_Ok)%obind_Ok)%obind_Ok)%obind_Ok)%obind_Ok. by destruct k.
Qed.
Lemma aggregate_from_count k l : forall a b,
  aggregate_from a l = Ok b -> builder_count k b = builder_count k a + Zsum (map (record_count k) l).
Proof.
  induction l as [|r l IH]; intros a b; cbn; [intros [= <-]; lia|].
  intros (a' & E & H)%obind_Ok. rewrite (IH _ _ H), (aggregate_add_count k _ _ _ E). lia.
Qed.
Lemma aggregate_count k l b : aggregate l = Ok b -> count k (aggregate_finish b) = Zsum (map (record_count k) l).
Proof. intros E. apply (aggregate_from_count k) in E. destruct k; cbn in *; lia. Qed.

(** A sum split by centers. *)
Lemma Zsum_split (f : UsageRecord -> Z) ks l :
  NoDup ks -> (forall r, r ∈ l -> ur_cost_center_id r ∈ ks) ->
  Zsum (map (fun k => Zsum (map f (filter (of_center k) l))) ks) = Zsum (map f l).
Proof.
  intros N. induction l as [|r l IH]; intros C.
  - clear. induction ks; cbn in *; [done|]. done.
  - cbn [map foldr]. rewrite <- IH by (intros; apply C; set_solver). specialize (C r ltac:(set_solver)). clear IH. revert N C.
    induction ks as [|k ks IHk]; intros N C; [set_solver|]. apply NoDup_cons in N as [Nk N]. cbn [map foldr].
    destruct (decide (ur_cost_center_id r = k)) as [E|E].
    + rewrite filter_cons_True by done. cbn [map foldr].
      assert (X : forall ks, k ∉ ks -> map (fun k0 => Zsum (map f (filter (of_center k0) (r :: l)))) ks
                            = map (fun k0 => Zsum (map f (filter (of_center k0) l))) ks).
      { clear -E. intros ks Nk. apply map_ext_in. intros k0 I%list_elem_of_In. rewrite filter_cons_False; [done|]. unfold of_center. set_solver. }
      rewrite X by done. lia.
    + rewrite filter_cons_False by done. rewrite IHk; [lia|done|set_solver].
Qed.

Lemma elem_of_entries {K V} `{Countable K} (le : K -> K -> bool) (m : gmap K V) k v : (k, v) ∈ entries le m <-> m !! k = Some v.
Proof. unfold entries. rewrite sort_by_perm. apply elem_of_map_to_list. Qed.
Lemma NoDup_entries {K V} `{Countable K} (le : K -> K -> bool) (m : gmap K V) : NoDup (entries le m).*1.
Proof. unfold entries. rewrite sort_by_perm. apply NoDup_fst_map_to_list. Qed.
#[export] Instance option_leb_comparison : Comparison option_leb.
Proof.
  split.
  - intros [a|] [b|]; cbn; try tauto. apply bytes_leb_comparison.
  - intros [a|] [b|] [c|]; cbn; try done. apply bytes_leb_comparison.
Qed.
Lemma entries_sorted {V} (m : gmap (option bytes) V) : StronglySorted option_leb (entries option_leb m).*1.
Proof.
  unfold entries. set (l := map_to_list m).
  assert (S : StronglySorted (fun a b : option bytes * V => option_leb a.1 b.1) (sort_by (fun a b => option_leb a.1 b.1) l)).
  { apply sort_by_sorted. split; [intros a b; apply option_leb_comparison|intros a b c; apply option_leb_comparison]. }
  induction S as [|x k S IH F]; cbn; constructor; [done|]. by apply Forall_fmap.
Qed.

(** Usage reports partition usage: the total is the aggregate of all records, there is
    one entry per cost center that has records, in order, each the aggregate of that
    center's records alone, and every additive counter of the total is the sum over the
    centers. *)
Theorem report_partitions from until records r :
  build_report from until records = Ok r ->
  (exists t, aggregate records = Ok t /\ total r = aggregate_finish t)
  /\ StronglySorted option_leb (cost_centers r).*1 /\ NoDup (cost_centers r).*1
  /\ (forall k a, (k, a) ∈ cost_centers r <->
        k ∈ ur_cost_center_id <$> records /\ exists b, aggregate (filter (of_center k) records) = Ok b /\ a = aggregate_finish b)
  /\ (forall c, count c (total r) = Zsum (map (fun p => count c p.2) (cost_centers r))).
Proof.
  unfold build_report. intros ([t centers] & E & [= <-])%obind_Ok. cbn.
  destruct (aggregate_all_spec records [] _ ∅ t centers eq_refl) as [Ht Hc]; [intros k; rewrite lookup_empty; set_solver|done|]. cbn [app] in Ht, Hc.
  assert (Keys : (map (fun '(c, a) => (c, aggregate_finish a)) (entries option_leb centers)).*1 = (entries option_leb centers).*1).
  { induction (entries option_leb centers) as [|[k b] l IH]; [done|]. cbn. by f_equal. }
  assert (Mem : forall k b, (k, b) ∈ entries option_leb centers <-> k ∈ ur_cost_center_id <$> records /\ aggregate (filter (of_center k) records) = Ok b).
  { intros k b. rewrite elem_of_entries. specialize (Hc k). destruct (centers !! k) as [b'|]; [|set_solver].
    destruct Hc as [Ha Hk]. rewrite Ha. naive_solver. }
  split_and!; [by exists t|rewrite Keys; apply entries_sorted|rewrite Keys; apply NoDup_entries| |].
  - intros k a. change (map ?f ?l) with (f <$> l). rewrite list_elem_of_fmap. split.
    + intros ([k' b] & [= -> ->] & I%Mem). naive_solver.
    + intros (I & b & Hb & ->). exists (k, b). split; [done|]. by apply Mem.
  - intros c. rewrite (aggregate_count c _ _ Ht).
    rewrite <- (Zsum_split (record_count c) (entries option_leb centers).*1 records (NoDup_entries _ _)).
    + f_equal. rewrite map_map. change (map ?f ?l) with (f <$> l). rewrite <- list_fmap_compose. apply list_fmap_ext. intros n [k b] I%list_elem_of_lookup_2.
      cbn. apply Mem in I as [_ Ha]. by rewrite (aggregate_count c _ _ Ha).
    + intros x I. specialize (Hc (ur_cost_center_id x)). destruct (centers !! ur_cost_center_id x) as [b|] eqn:Eb.
      * apply list_elem_of_fmap. exists (ur_cost_center_id x, b). split; [done|]. by apply elem_of_entries.
      * destruct Hc. apply list_elem_of_fmap. by exists x.
Qed.
Definition sample_record (chat : bytes) (center : option bytes) (cost : option Z) : UsageRecord :=
  {| ur_chat_id := chat; ur_cost_center_id := center;
     ur_usage := {| usage_state := Settled; observed_at := 5; usage_snapshot := sample_usage;
                    calculated_cost := option_map (fun n => {| cost_amount := sample_money n; pricing_catalog_version := str "test" |}) cost |} |}.
Definition sample_records : list UsageRecord :=
  [sample_record [1] None (Some 3); sample_record [2] (Some [65]) None; sample_record [3] None (Some 5)].
Lemma report_partitions_witness :
  exists r, build_report 0 10 sample_records = Ok r /\ (cost_centers r).*1 = [None; Some [65]]
    /\ count PricedTurns (total r) = 2 /\ count Turns (total r) = Zsum (map (fun p => count Turns p.2) (cost_centers r)).
Proof.
  destruct (build_report 0 10 sample_records) as [r| |] eqn:E; [|vm_compute in E; discriminate E..].
  exists r. destruct (report_partitions 0 10 sample_records r E) as (_ & _ & _ & _ & C).
  split; [reflexivity|]. vm_compute in E. injection E as <-. split; [vm_compute; reflexivity|]. split; [vm_compute; reflexivity|]. exact (C Turns).
Defined.
