(* ===== verification/ShareTypes.v ===== *)
(** * Values of the copy-on-write share

    [tascarrel-sharefs/src/types.rs], [error.rs] and the helpers of
    [filesystem/support.rs]: versions, leases, changes and errors; paths; the metadata
    the operating system reports of the lower directory, which the host edits while
    the share is in use.

    A normalized path is the list of its names; [components] is the standard
    library's decomposition of a raw path.  Error values keep the path they report,
    as a path of the share ([Merged]) or of the lower directory ([InLower]). *)

From S2P Require Import Prelude Lists Text Effects.

Definition path := list bytes.

Inductive EntryKind := File | Directory | Symlink.
#[export] Instance EntryKind_eq_dec : EqDecision EntryKind.
Proof. solve_decision. Defined.
Record FileTime := { seconds : Z; nanoseconds : Z }.
#[export] Instance FileTime_eq_dec : EqDecision FileTime.
Proof. solve_decision. Defined.
(** A SHA-256 digest is its 32 bytes. *)
Record EntryVersion := { v_kind : EntryKind; v_size : Z; v_mode : Z; content_digest : option bytes }.
#[export] Instance EntryVersion_eq_dec : EqDecision EntryVersion.
Proof. solve_decision. Defined.
Record LowerLease := {
  version : EntryVersion; lease_modified_at : FileTime; lease_changed_at : FileTime;
  lease_device : Z; lease_inode : Z
}.
#[export] Instance LowerLease_eq_dec : EqDecision LowerLease.
Proof. solve_decision. Defined.
Record ShareChange := {
  change_path : path; change_base : option LowerLease; proposed : option EntryVersion; change_opaque : bool
}.
#[export] Instance ShareChange_eq_dec : EqDecision ShareChange.
Proof. solve_decision. Defined.
Record EntryMetadata := { md_kind : EntryKind; md_size : Z; md_mode : Z; md_modified_at : FileTime }.
#[export] Instance EntryMetadata_eq_dec : EqDecision EntryMetadata.
Proof. solve_decision. Defined.
Record DirectoryEntry := { de_name : bytes; de_metadata : EntryMetadata }.
Inductive FileWriteOutcome := Written (revision : bytes) | Conflict (revision : bytes).

(** ** Errors *)
Inductive Location := Merged (p : path) | InLower (p : path).
Inductive ShareFsError :=
| InvalidPath (p : bytes)
| InvalidMergedPath (p : path)
| NotFound (p : Location)
| AlreadyExists (p : path)
| NotDirectory (p : path)
| IsDirectory (p : path)
| DirectoryNotEmpty (p : path)
| UnsupportedEntryType (p : path)
| LowerDirectoryRename (p : path)
| ConcurrentLowerChange (p : path)
| CorruptState
| Io (action : string)
| Database (action : string)
| Poisoned.
Definition is_not_found (e : ShareFsError) : bool := match e with NotFound _ => true | _ => false end.

(** ** Paths *)
Inductive Component := RootDir | CurDir | ParentDir | Normal (name : bytes).
(** [Path::components]: empty pieces and dots are skipped, but for a leading dot. *)
Definition component (piece : bytes) : list Component :=
  if bool_decide (piece = []) || bool_decide (piece = str ".") then []
  else if bool_decide (piece = str "..") then [ParentDir] else [Normal piece].
Definition components (raw : bytes) : list Component :=
  match split 47 raw with
  | first :: rest =>
      (if bool_decide (first = str ".") then [CurDir]
       else if bool_decide (first = []) && negb (bool_decide (rest = [])) then [RootDir]
       else component first)
      ++ concat (map component rest)
  | [] => []
  end.
Fixpoint normal_names (raw : bytes) (cs : list Component) : outcome ShareFsError path :=
  match cs with
  | [] => Ok []
  | Normal name :: rest =>
      if contains 0 name then Err (InvalidPath raw)
      else let? p := normal_names raw rest in Ok (name :: p)
  | _ => Err (InvalidPath raw)
  end.
Definition normalize_path (raw : bytes) : outcome ShareFsError path := normal_names raw (components raw).
Definition normalize_non_root_path (raw : bytes) : outcome ShareFsError path :=
  let? p := normalize_path raw in
  if bool_decide (p = []) then Err (InvalidMergedPath p) else Ok p.
Definition split_parent (p : path) : outcome ShareFsError (path * bytes) :=
  match last p with
  | Some name => Ok (removelast p, name)
  | None => Err (InvalidMergedPath p)
  end.
(** The bytes of a path, by which changes are ordered. *)
Fixpoint path_bytes (p : path) : bytes :=
  match p with
  | [] => []
  | [name] => name
  | name :: rest => name ++ 47 :: path_bytes rest
  end.

(** ** The lower directory

    What the operating system answers for a path below the lower directory. *)
Inductive FileType := FtFile | FtDirectory | FtSymlink | FtOther.
#[export] Instance FileType_eq_dec : EqDecision FileType.
Proof. solve_decision. Defined.
Record Metadata := {
  file_type : FileType; m_dev : Z; m_ino : Z; m_mode : Z; m_size : Z;
  m_mtime : Z; m_mtime_nsec : Z; m_ctime : Z; m_ctime_nsec : Z
}.
#[export] Instance Metadata_eq_dec : EqDecision Metadata.
Proof. solve_decision. Defined.
(** An entry: its metadata, the bytes of a file or the target of a link, the names in
    a directory. *)
Record LowerNode := { meta : Metadata; data : bytes; children : list bytes }.
Inductive Access := Missing | Refused | Found (n : LowerNode).
(** [at_path] answers a system call on a path, [inode] one on an open descriptor. *)
Record Lower := { at_path : path -> Access; inode : Z -> Z -> LowerNode }.

Definition LOGICAL_MODE_MASK : Z := 4095.

Definition entry_kind (m : Metadata) (p : path) : outcome ShareFsError EntryKind :=
  match file_type m with
  | FtFile => Ok File
  | FtDirectory => Ok Directory
  | FtSymlink => Ok Symlink
  | FtOther => Err (UnsupportedEntryType p)
  end.
Definition entry_type_error (p : path) (m : Metadata) : ShareFsError :=
  if bool_decide (file_type m = FtDirectory) then IsDirectory p else UnsupportedEntryType p.
Definition entry_type_error_for_kind (p : path) (k : EntryKind) : ShareFsError :=
  if bool_decide (k = Directory) then IsDirectory p else UnsupportedEntryType p.
(** [u32::try_from]. *)
Definition u32_of (x : Z) : option Z := if fits u32_max x then Some x else None.
Definition metadata_modified_time (m : Metadata) : FileTime :=
  {| seconds := m_mtime m; nanoseconds := default 0 (u32_of (m_mtime_nsec m)) |}.
Definition logical_size (k : EntryKind) (m : Metadata) : Z :=
  match k with Directory => 0 | File | Symlink => m_size m end.
Definition metadata_value (m : Metadata) (p : path) : outcome ShareFsError EntryMetadata :=
  let? k := entry_kind m p in
  Ok {| md_kind := k; md_size := logical_size k m; md_mode := Z.land (m_mode m) LOGICAL_MODE_MASK;
        md_modified_at := metadata_modified_time m |}.
Definition base_record (m : Metadata) (k : EntryKind) (digest : option bytes) : LowerLease :=
  {| version := {| v_kind := k; v_size := logical_size k m; v_mode := Z.land (m_mode m) LOGICAL_MODE_MASK;
                   content_digest := digest |};
     lease_modified_at := metadata_modified_time m;
     lease_changed_at := {| seconds := m_ctime m; nanoseconds := default 0 (u32_of (m_ctime_nsec m)) |};
     lease_device := m_dev m; lease_inode := m_ino m |}.
Definition same_fingerprint (l r : Metadata) : bool :=
  (m_dev l =? m_dev r) && (m_ino l =? m_ino r) && (m_mode l =? m_mode r) && (m_size l =? m_size r)
  && (m_mtime l =? m_mtime r) && (m_mtime_nsec l =? m_mtime_nsec r)
  && (m_ctime l =? m_ctime r) && (m_ctime_nsec l =? m_ctime_nsec r).
Definition matches_lease_fingerprint (m : Metadata) (k : EntryKind) (lease : LowerLease) : bool :=
  bool_decide (k = v_kind (version lease))
  && (m_dev m =? lease_device lease) && (m_ino m =? lease_inode lease)
  && (bool_decide (k = Directory) || (m_size m =? v_size (version lease)))
  && (Z.land (m_mode m) LOGICAL_MODE_MASK =? v_mode (version lease))
  && (m_mtime m =? seconds (lease_modified_at lease))
  && bool_decide (u32_of (m_mtime_nsec m) = Some (nanoseconds (lease_modified_at lease)))
  && (m_ctime m =? seconds (lease_changed_at lease))
  && bool_decide (u32_of (m_ctime_nsec m) = Some (nanoseconds (lease_changed_at lease))).
