(* ===== verification/ShareIndex.v ===== *)
(** * The namespace index of a share

    [tascarrel-sharefs/src/state/mod.rs]: the two tables of the private upper, with
    the columns as they are stored and the constraints the schema declares (primary
    keys, foreign keys, [UNIQUE], [CHECK]).  A function on [Index] is the body of one
    transaction: a violated constraint or a row that does not decode fails it, and a
    failed transaction leaves the tables unchanged. *)

From S2P Require Import Prelude Lists ShareTypes.

Definition ROOT_NODE_ID : Z := 1.
Definition SCHEMA_VERSION : Z := 1.
Definition ENTRY_PRESENT : Z := 1.
Definition ENTRY_WHITEOUT : Z := 2.

(** ** Records *)
Record NewNode := {
  n_kind : EntryKind; object_name : option bytes; symlink_target : option bytes; n_mode : Z;
  n_modified_at : FileTime; merge_lower : bool; opaque : bool; metadata_changed : bool
}.
#[export] Instance eta_NewNode : Eta NewNode :=
  fun n => {| n_kind := n_kind n; object_name := object_name n; symlink_target := symlink_target n;
              n_mode := n_mode n; n_modified_at := n_modified_at n; merge_lower := merge_lower n;
              opaque := opaque n; metadata_changed := metadata_changed n |}.
(** [NodeRecord]: a [NewNode] and its identifier. *)
Record NodeRecord := { node_id : Z; node_value : NewNode }.
Inductive EntryState := Present (node : Z) | Whiteout.
#[export] Instance EntryState_eq_dec : EqDecision EntryState.
Proof. solve_decision. Defined.
Record EntryRecord := { entry_name : bytes; entry_state : EntryState; base : option LowerLease }.

(** ** Tables *)
Record NodeRow := {
  nr_kind : Z; nr_object_name : option bytes; nr_symlink_target : option bytes; nr_mode : Z;
  nr_modified_seconds : Z; nr_modified_nanoseconds : Z; nr_merge_lower : bool; nr_opaque : bool;
  nr_metadata_changed : bool
}.
#[export] Instance eta_NodeRow : Eta NodeRow :=
  fun r => {| nr_kind := nr_kind r; nr_object_name := nr_object_name r; nr_symlink_target := nr_symlink_target r;
              nr_mode := nr_mode r; nr_modified_seconds := nr_modified_seconds r;
              nr_modified_nanoseconds := nr_modified_nanoseconds r; nr_merge_lower := nr_merge_lower r;
              nr_opaque := nr_opaque r; nr_metadata_changed := nr_metadata_changed r |}.
Record EntryRow := {
  er_state : Z; er_node : option Z; base_kind : option Z; base_size : option bytes; base_mode : option Z;
  base_digest : option bytes; base_mtime_seconds : option Z; base_mtime_nanoseconds : option Z;
  base_ctime_seconds : option Z; base_ctime_nanoseconds : option Z;
  base_device : option bytes; base_inode : option bytes
}.
(** [share_nodes] by identifier and [share_entries] by parent and name. *)
Record Index := { nodes : gmap Z NodeRow; entries : gmap (Z * bytes) EntryRow }.
#[export] Instance eta_Index : Eta Index := fun i => {| nodes := nodes i; entries := entries i |}.
(** The database file: [PRAGMA user_version], what [PRAGMA quick_check] says of it,
    and its tables. *)
Record DbFile := { user_version : Z; quick_check : bool; index : Index }.
#[export] Instance eta_DbFile : Eta DbFile :=
  fun d => {| user_version := user_version d; quick_check := quick_check d; index := index d |}.

(** ** Encoding *)
Definition encode_kind (k : EntryKind) : Z := match k with File => 1 | Directory => 2 | Symlink => 3 end.
Definition decode_kind (v : Z) : option EntryKind :=
  if v =? 1 then Some File else if v =? 2 then Some Directory else if v =? 3 then Some Symlink else None.
Definition encode_u64 (v : Z) : bytes := to_be_bytes 8 v.
Definition decode_u64_blob (v : option bytes) : option Z :=
  match v with
  | Some bs => if len bs =? 8 then Some (from_be_bytes bs) else None
  | None => None
  end.
Definition decode_digest (v : option bytes) : option (option bytes) :=
  match v with
  | Some bs => if len bs =? 32 then Some (Some bs) else None
  | None => Some None
  end.
Definition decode_u32 (v : Z) : option Z := u32_of v.
Definition decode_optional_u32 (v : option Z) : option Z := v ≫= u32_of.

Definition node_row (n : NewNode) : NodeRow :=
  {| nr_kind := encode_kind (n_kind n); nr_object_name := object_name n; nr_symlink_target := symlink_target n;
     nr_mode := n_mode n; nr_modified_seconds := seconds (n_modified_at n);
     nr_modified_nanoseconds := nanoseconds (n_modified_at n); nr_merge_lower := merge_lower n;
     nr_opaque := opaque n; nr_metadata_changed := metadata_changed n |}.
Definition decode_node (i : Z) (r : NodeRow) : option NodeRecord :=
  k ← decode_kind (nr_kind r);
  m ← decode_u32 (nr_mode r);
  ns ← decode_u32 (nr_modified_nanoseconds r);
  Some {| node_id := i;
          node_value := {| n_kind := k; object_name := nr_object_name r; symlink_target := nr_symlink_target r;
                           n_mode := m; n_modified_at := {| seconds := nr_modified_seconds r; nanoseconds := ns |};
                           merge_lower := nr_merge_lower r; opaque := nr_opaque r;
                           metadata_changed := nr_metadata_changed r |} |}.
Definition entry_row (state : Z) (node : option Z) (b : option LowerLease) : EntryRow :=
  match b with
  | Some l =>
      {| er_state := state; er_node := node;
         base_kind := Some (encode_kind (v_kind (version l)));
         base_size := Some (encode_u64 (v_size (version l)));
         base_mode := Some (v_mode (version l));
         base_digest := content_digest (version l);
         base_mtime_seconds := Some (seconds (lease_modified_at l));
         base_mtime_nanoseconds := Some (nanoseconds (lease_modified_at l));
         base_ctime_seconds := Some (seconds (lease_changed_at l));
         base_ctime_nanoseconds := Some (nanoseconds (lease_changed_at l));
         base_device := Some (encode_u64 (lease_device l));
         base_inode := Some (encode_u64 (lease_inode l)) |}
  | None =>
      {| er_state := state; er_node := node; base_kind := None; base_size := None; base_mode := None;
         base_digest := None; base_mtime_seconds := None; base_mtime_nanoseconds := None;
         base_ctime_seconds := None; base_ctime_nanoseconds := None; base_device := None; base_inode := None |}
  end.
Definition decode_state (r : EntryRow) : option EntryState :=
  match er_node r with
  | Some n => if er_state r =? ENTRY_PRESENT then Some (Present n) else None
  | None => if er_state r =? ENTRY_WHITEOUT then Some Whiteout else None
  end.
Definition decode_base (r : EntryRow) : option (option LowerLease) :=
  match base_kind r with
  | None => Some None
  | Some kind =>
      digest ← decode_digest (base_digest r);
      k ← decode_kind kind;
      size ← decode_u64_blob (base_size r);
      mode ← decode_optional_u32 (base_mode r);
      ms ← base_mtime_seconds r;
      mns ← decode_optional_u32 (base_mtime_nanoseconds r);
      cs ← base_ctime_seconds r;
      cns ← decode_optional_u32 (base_ctime_nanoseconds r);
      dev ← decode_u64_blob (base_device r);
      ino ← decode_u64_blob (base_inode r);
      Some (Some {| version := {| v_kind := k; v_size := size; v_mode := mode; content_digest := digest |};
                    lease_modified_at := {| seconds := ms; nanoseconds := mns |};
                    lease_changed_at := {| seconds := cs; nanoseconds := cns |};
                    lease_device := dev; lease_inode := ino |})
  end.
Definition decode_entry (name : bytes) (r : EntryRow) : option EntryRecord :=
  s ← decode_state r;
  b ← decode_base r;
  Some {| entry_name := name; entry_state := s; base := b |}.

(** ** Statements *)
Definition database_error (action : string) : ShareFsError := Database action.

(** The row of a node: an unknown identifier is corruption. *)
Definition node (i : Z) (d : Index) : outcome ShareFsError NodeRecord :=
  match nodes d !! i with
  | None => Err CorruptState
  | Some r => ok_or (decode_node i r) (database_error "read an upper node")
  end.
Definition query_entry (parent : Z) (name : bytes) (d : Index) : outcome ShareFsError (option EntryRecord) :=
  match entries d !! (parent, name) with
  | None => Ok None
  | Some r =>
      let? e := ok_or (decode_entry name r) (database_error "read an upper directory entry") in
      Ok (Some e)
  end.
(** [ORDER BY name]. *)
Definition name_before (a b : bytes * EntryRow) : bool := bytes_leb a.1 b.1.
Definition rows_below (parent : Z) (d : Index) : list (bytes * EntryRow) :=
  sort_by name_before
    (omap (fun '((p, name), r) => if p =? parent then Some (name, r) else None) (map_to_list (entries d))).
Definition entries_of (parent : Z) (d : Index) : outcome ShareFsError (list EntryRecord) :=
  collect (fun '(name, r) => ok_or (decode_entry name r) (database_error "decode upper directory entries"))
    (rows_below parent d).

(** The identifier of an inserted row follows the largest one.  The largest
    representable identifier has no successor: an insertion is then an error here, where
    SQLite tries free identifiers at random before it gives up. *)
Definition i64_max : Z := 2 ^ 63 - 1.
Definition next_rowid (d : Index) : option Z :=
  let largest := foldr Z.max 0 (map fst (map_to_list (nodes d))) in
  if largest <? i64_max then Some (largest + 1) else None.
(** [object_name TEXT UNIQUE]. *)
Definition object_free (o : option bytes) (d : Index) : bool :=
  match o with
  | None => true
  | Some name => forallb (fun '(_, r) => negb (bool_decide (nr_object_name r = Some name))) (map_to_list (nodes d))
  end.
Definition insert_node (n : NewNode) (d : Index) : outcome ShareFsError (Z * Index) :=
  if negb (object_free (object_name n) d) then Err (database_error "insert an upper node")
  else
    match next_rowid d with
    | None => Err (database_error "insert an upper node")
    | Some i => Ok (i, d <| nodes := <[i := node_row n]> (nodes d) |>)
    end.
(** [REFERENCES share_nodes(id)]. *)
Definition references (i : Z) (d : Index) : bool := bool_decide (is_Some (nodes d !! i)).
Definition put_entry (parent : Z) (name : bytes) (state : Z) (i : option Z) (b : option LowerLease) (d : Index)
  : outcome ShareFsError Index :=
  let checked := match i with
                 | Some i => (state =? ENTRY_PRESENT) && references i d
                 | None => state =? ENTRY_WHITEOUT
                 end in
  if references parent d && checked
  then Ok (d <| entries := <[(parent, name) := entry_row state i b]> (entries d) |>)
  else Err (database_error "write an upper directory entry").
Definition put_present_entry (parent : Z) (name : bytes) (i : Z) (b : option LowerLease) (d : Index) :=
  put_entry parent name ENTRY_PRESENT (Some i) b d.
Definition put_whiteout (parent : Z) (name : bytes) (b : LowerLease) (d : Index) :=
  put_entry parent name ENTRY_WHITEOUT None (Some b) d.
Definition delete_entry (parent : Z) (name : bytes) (d : Index) : Index :=
  d <| entries := delete (parent, name) (entries d) |>.

(** ** Transactions *)
Definition install_node (parent : Z) (name : bytes) (n : NewNode) (b : option LowerLease) (d : Index)
  : outcome ShareFsError (Z * Index) :=
  let? (i, d) := insert_node n d in
  let? d := put_present_entry parent name i b d in
  Ok (i, d).
Definition remove_entry (parent : Z) (name : bytes) (b : option LowerLease) (d : Index)
  : outcome ShareFsError (unit * Index) :=
  match b with
  | Some b => let? d := put_whiteout parent name b d in Ok (tt, d)
  | None => Ok (tt, delete_entry parent name d)
  end.
Definition rename_entry (source_parent : Z) (source_name : bytes) (destination_parent : Z)
  (destination_name : bytes) (destination_base : option LowerLease) (d : Index)
  : outcome ShareFsError (unit * Index) :=
  let? e := query_entry source_parent source_name d in
  match e with
  | None => Err CorruptState
  | Some e =>
      match entry_state e with
      | Whiteout => Err CorruptState
      | Present i =>
          let? d := match base e with
                    | Some b => put_whiteout source_parent source_name b d
                    | None => Ok (delete_entry source_parent source_name d)
                    end in
          let? d := put_present_entry destination_parent destination_name i destination_base d in
          Ok (tt, d)
      end
  end.
Definition mark_content_changed (i : Z) (t : FileTime) (d : Index) : outcome ShareFsError (unit * Index) :=
  match nodes d !! i with
  | Some r =>
      if nr_kind r =? encode_kind File
      then Ok (tt, d <| nodes := <[i := r <| nr_modified_seconds := seconds t |>
                                         <| nr_modified_nanoseconds := nanoseconds t |>]> (nodes d) |>)
      else Err CorruptState
  | None => Err CorruptState
  end.
Definition set_node_mode (i mode : Z) (t : FileTime) (d : Index) : outcome ShareFsError (unit * Index) :=
  match nodes d !! i with
  | Some r =>
      Ok (tt, d <| nodes := <[i := r <| nr_mode := mode |> <| nr_metadata_changed := true |>
                                     <| nr_modified_seconds := seconds t |>
                                     <| nr_modified_nanoseconds := nanoseconds t |>]> (nodes d) |>)
  | None => Err CorruptState
  end.

(** [DELETE FROM share_nodes]: no entry may refer to a deleted node. *)
Definition unreferenced (i : Z) (d : Index) : bool :=
  forallb (fun '((p, _), r) => negb (p =? i) && negb (bool_decide (er_node r = Some i))) (map_to_list (entries d)).
Definition delete_node (i : Z) (d : Index) : outcome ShareFsError Index :=
  if unreferenced i d then Ok (d <| nodes := delete i (nodes d) |>)
  else Err (database_error "remove an unreachable upper node").
Fixpoint delete_nodes (ids : list Z) (d : Index) : outcome ShareFsError Index :=
  match ids with
  | [] => Ok d
  | i :: rest => let? d := delete_node i d in delete_nodes rest d
  end.
Definition restored_root (r : NodeRow) : NodeRow :=
  r <| nr_mode := 493 |> <| nr_modified_seconds := 0 |> <| nr_modified_nanoseconds := 0 |>
    <| nr_merge_lower := true |> <| nr_opaque := false |> <| nr_metadata_changed := false |>.
Definition clear_index (d : Index) : outcome ShareFsError (unit * Index) :=
  let d := d <| entries := ∅ |> in
  let d := d <| nodes := filter (fun '(i, _) => i = ROOT_NODE_ID) (nodes d) |> in
  Ok (tt, d <| nodes := alter restored_root ROOT_NODE_ID (nodes d) |>).

(** The recursive query of [collect_unreachable_objects]: the nodes that present
    entries reach from the root. *)
Definition present_child (s : gset Z) (e : (Z * bytes) * EntryRow) : option Z :=
  let '((p, _), r) := e in
  if bool_decide (p ∈ s) && (er_state r =? ENTRY_PRESENT) then er_node r else None.
Definition grow (d : Index) (s : gset Z) : gset Z :=
  s ∪ list_to_set (omap (present_child s) (map_to_list (entries d))).
Fixpoint iterate {A} (n : nat) (f : A -> A) (x : A) : A :=
  match n with O => x | S n' => iterate n' f (f x) end.
Definition reachable_ids (d : Index) : gset Z := iterate (size (nodes d)) (grow d) {[ROOT_NODE_ID]}.
Definition unreachable (d : Index) : list (Z * NodeRow) :=
  List.filter (fun '(i, _) => negb (bool_decide (i ∈ reachable_ids d))) (map_to_list (nodes d)).
Definition collect_unreachable_objects (d : Index) : outcome ShareFsError (list bytes * Index) :=
  let gone := unreachable d in
  let d := d <| entries := filter (fun '((p, _), _) => p ∉ map fst gone) (entries d) |> in
  let? d := delete_nodes (map fst gone) d in
  Ok (omap (fun '(_, r) => nr_object_name r) gone, d).
Definition referenced_objects (d : Index) : list bytes :=
  sort_by bytes_leb (omap (fun '(_, r) => nr_object_name r) (map_to_list (nodes d))).

(** ** Opening *)
Definition root_row : NodeRow :=
  {| nr_kind := 2; nr_object_name := None; nr_symlink_target := None; nr_mode := 493; nr_modified_seconds := 0;
     nr_modified_nanoseconds := 0; nr_merge_lower := true; nr_opaque := false; nr_metadata_changed := false |}.
Definition initial_index : Index := {| nodes := {[ROOT_NODE_ID := root_row]}; entries := ∅ |}.
Definition initialize_schema (f : DbFile) : outcome ShareFsError DbFile :=
  if user_version f =? 0 then Ok (f <| user_version := 1 |> <| index := initial_index |>)
  else if negb (user_version f =? SCHEMA_VERSION) then Err CorruptState else Ok f.
(** [PRAGMA foreign_key_check]. *)
Definition foreign_keys_ok (d : Index) : bool :=
  forallb (fun '((p, _), r) => references p d && match er_node r with Some i => references i d | None => true end)
    (map_to_list (entries d)).
Definition validate_schema (f : DbFile) : outcome ShareFsError unit :=
  if negb (quick_check f) then Err CorruptState
  else if negb (bool_decide (option_map nr_kind (nodes (index f) !! ROOT_NODE_ID) = Some (encode_kind Directory)))
  then Err CorruptState
  else if negb (foreign_keys_ok (index f)) then Err CorruptState else Ok tt.
