(* ===== verification/ShareFs.v ===== *)
(** * The copy-on-write share

    [tascarrel-sharefs/src/filesystem]: a merged view of a live lower directory and a
    private upper, which consists of the namespace index and of the object files that
    hold the contents of upper files.

    Operations are programs over a [Share].  Every system call and every transaction
    may fail, a query of the database only where [reads_fail] says so; before every
    call on the lower directory the host may have changed it to the next element of
    [host].  A file is read in one call.  The digest function
    is the [sha2] crate's and a parameter; the name of a new object (a random UUID),
    the current time and what a failing write has written are arguments. *)

From S2P Require Import Prelude Lists Text Effects ShareTypes ShareIndex.

Record Share := {
  db : DbFile; objects : gmap bytes bytes; staging : gmap bytes bytes; lower : Lower; host : list Lower;
  reads_fail : bool
}.
#[export] Instance eta_Share : Eta Share :=
  fun s => {| db := db s; objects := objects s; staging := staging s; lower := lower s; host := host s;
              reads_fail := reads_fail s |}.
Definition op (A : Type) : Type := call Share ShareFsError A.

(** ** System calls *)
Definition io_error (action : string) : ShareFsError := Io action.
Definition host_turn (s : Share) : Share :=
  match host s with l :: rest => s <| lower := l |> <| host := rest |> | [] => s end.
Definition on_path (p : path) (action : string) : op Access :=
  do! fallible (io_error action); do! put host_turn; do s <- get; ret (at_path (lower s) p).
Definition on_descriptor (dev ino : Z) (action : string) : op LowerNode :=
  do! fallible (io_error action); do! put host_turn; do s <- get; ret (inode (lower s) dev ino).
(** [fs::symlink_metadata] and the errors made of its result. *)
Definition symlink_metadata (p : path) (action : string) : op Metadata :=
  do a <- on_path p action;
  match a with
  | Found n => ret (meta n)
  | Missing => raise (NotFound (InLower p))
  | Refused => raise (io_error action)
  end.
Definition optional_symlink_metadata (p : path) (action : string) : op (option Metadata) :=
  do a <- on_path p action;
  match a with
  | Found n => ret (Some (meta n))
  | Missing => ret None
  | Refused => raise (io_error action)
  end.
(** [O_NOFOLLOW]: a link cannot be opened.  A descriptor keeps its inode. *)
Definition open_read_only_file (p : path) : op (Z * Z) :=
  do a <- on_path p "open a share file";
  match a with
  | Found n =>
      if bool_decide (file_type (meta n) = FtSymlink) then raise (io_error "open a share file")
      else ret (m_dev (meta n), m_ino (meta n))
  | _ => raise (io_error "open a share file")
  end.
Definition read_link_target (p : path) (action : string) : op bytes :=
  do a <- on_path p action;
  match a with
  | Found n => if bool_decide (file_type (meta n) = FtSymlink) then ret (data n) else raise (io_error action)
  | _ => raise (io_error action)
  end.
Definition directory_names (p : path) (action : string) : op (list bytes) :=
  do a <- on_path p action;
  match a with
  | Found n => if bool_decide (file_type (meta n) = FtDirectory) then ret (children n) else raise (io_error action)
  | _ => raise (io_error action)
  end.
Definition sync_directory : op unit := fallible (io_error "synchronize a share state directory").
Definition remove_file_if_exists (name : bytes) : op unit :=
  do! fallible (io_error "remove an upper object");
  put (fun s => s <| objects := delete name (objects s) |>).
Definition remove_staged (name : bytes) : op unit :=
  do! fallible (io_error "remove an upper object");
  put (fun s => s <| staging := delete name (staging s) |>).

(** A transaction and a query of the namespace database. *)
Definition transaction {A} (action : string) (f : Index -> outcome ShareFsError (A * Index)) : op A :=
  do! fallible (database_error action);
  do s <- get;
  do (a, d) <- of_outcome (f (index (db s)));
  do! put (fun s => s <| db := (db s) <| index := d |> |>);
  ret a.
Definition query {A} (action : string) (f : Index -> outcome ShareFsError A) : op A :=
  do s <- get;
  do! (if reads_fail s then fallible (database_error action) else ret tt);
  of_outcome (f (index (db s))).
Definition get_node (i : Z) : op NodeRecord := query "read an upper node" (node i).
Definition get_entry (parent : Z) (name : bytes) : op (option EntryRecord) :=
  query "read an upper directory entry" (query_entry parent name).
Definition get_entries (parent : Z) : op (list EntryRecord) :=
  query "enumerate upper directory entries" (entries_of parent).
Definition install (parent : Z) (name : bytes) (n : NewNode) (b : option LowerLease) : op NodeRecord :=
  do i <- transaction "commit an upper-node transaction" (install_node parent name n b);
  get_node i.

(** ** Object files *)
Definition start_object (fresh : bytes) : op unit :=
  do! fallible (io_error "create a staged upper object");
  do s <- get;
  if bool_decide (is_Some (staging s !! fresh)) then raise (io_error "create a staged upper object")
  else put (fun s => s <| staging := <[fresh := []]> (staging s) |>).
Definition publish (fresh contents : bytes) (s : Share) : Share :=
  s <| staging := delete fresh (staging s) |> <| objects := <[fresh := contents]> (objects s) |>.
Definition commit_object (fresh : bytes) : op unit :=
  do! fallible (io_error "flush a staged upper object");
  do! fallible (io_error "synchronize a staged upper object");
  do! fallible (io_error "publish a staged upper object");
  do s <- get;
  match staging s !! fresh with
  | Some contents => do! put (publish fresh contents); sync_directory
  | None => raise (io_error "publish a staged upper object")
  end.
Definition create_empty_object (fresh : bytes) : op unit :=
  do! start_object fresh; commit_object fresh.
Definition object_path (n : NewNode) : outcome ShareFsError bytes := ok_or (object_name n) CorruptState.
Definition object_contents (name : bytes) (action : string) : op bytes :=
  do! fallible (io_error action);
  do s <- get;
  of_outcome (ok_or (objects s !! name) (io_error action)).
Fixpoint remove_objects (l : list bytes) : op unit :=
  match l with
  | [] => ret tt
  | name :: rest => do! remove_file_if_exists name; remove_objects rest
  end.
Definition collect_garbage : op unit :=
  do gone <- transaction "commit upper-state collection" collect_unreachable_objects;
  remove_objects gone.

Section share.
(** [Sha256::digest]. *)
Context (sha256 : bytes -> bytes).

(** ** Capturing the lower directory *)
Definition concurrent_change (p : path) : ShareFsError := ConcurrentLowerChange p.
Definition capture_lower_symlink (p : path) : op (LowerLease * bytes) :=
  do before <- symlink_metadata p "inspect a lower symbolic link before capture";
  do k <- of_outcome (entry_kind before p);
  if negb (bool_decide (k = Symlink)) then raise (entry_type_error p before)
  else
    do target <- read_link_target p "read a lower symbolic link during capture";
    do after <- symlink_metadata p "reinspect a lower symbolic link after capture";
    if negb (same_fingerprint before after) then raise (concurrent_change p)
    else ret (base_record before Symlink (Some (sha256 target)), target).
(** [copy_to] names the staged object that receives the contents. *)
Definition capture_lower_entry (p : path) (copy_to : option bytes) : op LowerLease :=
  do before <- symlink_metadata p "inspect a lower entry before capture";
  do k <- of_outcome (entry_kind before p);
  match k with
  | File =>
      do (dev, ino) <- open_read_only_file p;
      do opened_before <- on_descriptor dev ino "inspect an opened lower file";
      if negb (same_fingerprint before (meta opened_before)) then raise (concurrent_change p)
      else
        do source <- on_descriptor dev ino "read a lower file during capture";
        do! match copy_to with
            | Some name =>
                do! fallible (io_error "copy a lower file into the upper");
                put (fun s => s <| staging := <[name := data source]> (staging s) |>)
            | None => ret tt
            end;
        do opened_after <- on_descriptor dev ino "reinspect an opened lower file";
        do path_after <- symlink_metadata p "reinspect a lower file after capture";
        if negb (same_fingerprint before (meta opened_after)) || negb (same_fingerprint before path_after)
        then raise (concurrent_change p)
        else ret (base_record before File (Some (sha256 (data source))))
  | Symlink => do (b, _) <- capture_lower_symlink p; ret b
  | Directory =>
      do after <- symlink_metadata p "reinspect a lower directory after capture";
      if negb (same_fingerprint before after) then raise (concurrent_change p)
      else ret (base_record before Directory None)
  end.

(** ** Resolution *)
Inductive ResolvedEntry := Upper (n : NodeRecord) | LowerPath (p : path).
Definition join (p : path) (name : bytes) : path := p ++ [name].
(** The loop of [resolve]: [walked] are the components before the current one,
    [upper_directory] and [lower_path] where they lead in the upper and below the
    lower directory. *)
Fixpoint resolve_from (full walked : path) (upper_directory : option Z) (lower_path : option path)
  (names : path) : op ResolvedEntry :=
  match names with
  | [] => raise (NotFound (Merged full))
  | name :: rest =>
      let final_component := bool_decide (rest = []) in
      let here := join walked name in
      do entry <- match upper_directory with
                  | Some parent => get_entry parent name
                  | None => ret None
                  end;
      match entry with
      | Some e =>
          match entry_state e with
          | Whiteout => raise (NotFound (Merged full))
          | Present i =>
              do n <- get_node i;
              if final_component then ret (Upper n)
              else if negb (bool_decide (n_kind (node_value n) = Directory)) then raise (NotDirectory here)
              else
                resolve_from full here (Some (node_id n))
                  (if merge_lower (node_value n) && negb (opaque (node_value n))
                   then option_map (fun parent => join parent name) lower_path else None)
                  rest
          end
      | None =>
          match lower_path with
          | None => raise (NotFound (Merged full))
          | Some parent =>
              let candidate := join parent name in
              do m <- optional_symlink_metadata candidate "inspect a lower share entry";
              match m with
              | None => raise (NotFound (Merged full))
              | Some m =>
                  do k <- of_outcome (entry_kind m full);
                  if final_component then ret (LowerPath candidate)
                  else if negb (bool_decide (k = Directory)) then raise (NotDirectory here)
                  else resolve_from full here None (Some candidate) rest
              end
          end
      end
  end.
Definition resolve (p : path) : op ResolvedEntry :=
  if bool_decide (p = []) then do n <- get_node ROOT_NODE_ID; ret (Upper n)
  else resolve_from p [] (Some ROOT_NODE_ID) (Some []) p.
Definition resolved_entry_kind (e : ResolvedEntry) (logical : path) : op EntryKind :=
  match e with
  | Upper n => ret (n_kind (node_value n))
  | LowerPath p => do m <- symlink_metadata p "inspect a resolved lower entry"; of_outcome (entry_kind m logical)
  end.
Definition ensure_absent (p : path) : op unit :=
  do r <- attempt (resolve p);
  match r with
  | Ok _ => raise (AlreadyExists p)
  | Err e => if is_not_found e then ret tt else raise e
  | Panic m => fun w => (Panic m, w)
  end.
Definition require_directory (p : path) : op unit :=
  do e <- resolve p;
  do k <- resolved_entry_kind e p;
  if negb (bool_decide (k = Directory)) then raise (NotDirectory p) else ret tt.

(** ** Metadata and enumeration *)
Definition lower_metadata (p logical : path) : op EntryMetadata :=
  do m <- symlink_metadata p "inspect lower entry metadata"; of_outcome (metadata_value m logical).
Definition upper_metadata (p : path) (n : NodeRecord) : op EntryMetadata :=
  if node_id n =? ROOT_NODE_ID then lower_metadata [] p
  else
    let v := node_value n in
    do merged <-
      (if bool_decide (n_kind v = Directory) && negb (metadata_changed v) && merge_lower v && negb (opaque v)
       then
         do m <- optional_symlink_metadata p "inspect merged lower directory metadata";
         match m with
         | None => ret None
         | Some m =>
             do k <- of_outcome (entry_kind m p);
             if bool_decide (k = Directory) then ret (Some m) else ret None
         end
       else ret None);
    match merged with
    | Some m => of_outcome (metadata_value m p)
    | None =>
        do size <- match n_kind v with
                   | File =>
                       do name <- of_outcome (object_path v);
                       do c <- object_contents name "inspect an upper file object";
                       ret (len c)
                   | Directory => ret 0
                   | Symlink => of_outcome (ok_or (option_map len (symlink_target v)) CorruptState)
                   end;
        ret {| md_kind := n_kind v; md_size := size; md_mode := n_mode v; md_modified_at := n_modified_at v |}
    end.
Definition metadata (p : path) : op EntryMetadata :=
  do e <- resolve p;
  match e with Upper n => upper_metadata p n | LowerPath l => lower_metadata l p end.

(** A [BTreeMap] of entries by name. *)
Definition entry_before (a b : DirectoryEntry) : bool := bytes_leb (de_name a) (de_name b).
Definition into_values (m : gmap bytes DirectoryEntry) : list DirectoryEntry :=
  sort_by entry_before (map snd (map_to_list m)).
Fixpoint lower_entries (p logical : path) (names : list bytes) (acc : gmap bytes DirectoryEntry)
  : op (gmap bytes DirectoryEntry) :=
  match names with
  | [] => ret acc
  | name :: rest =>
      do a <- on_path (join p name) "inspect a lower directory entry";
      match a with
      | Found n =>
          do v <- of_outcome (metadata_value (meta n) (join logical name));
          lower_entries p logical rest (<[name := {| de_name := name; de_metadata := v |}]> acc)
      | Missing => lower_entries p logical rest acc
      | Refused => raise (io_error "inspect a lower directory entry")
      end
  end.
Definition read_lower_directory (p logical : path) : op (list DirectoryEntry) :=
  do m <- symlink_metadata p "inspect a lower directory";
  do k <- of_outcome (entry_kind m logical);
  if negb (bool_decide (k = Directory)) then raise (NotDirectory logical)
  else
    do names <- directory_names p "enumerate a lower directory";
    do es <- lower_entries p logical names ∅;
    ret (into_values es).
Definition real_lower_directory (p : path) : op (option path) :=
  do m <- optional_symlink_metadata p "inspect a dynamically merged lower directory";
  match m with
  | None => ret None
  | Some m => if bool_decide (file_type m = FtDirectory) then ret (Some p) else ret None
  end.
Fixpoint apply_overrides (p : path) (es : list EntryRecord) (acc : gmap bytes DirectoryEntry)
  : op (gmap bytes DirectoryEntry) :=
  match es with
  | [] => ret acc
  | e :: rest =>
      match entry_state e with
      | Whiteout => apply_overrides p rest (delete (entry_name e) acc)
      | Present i =>
          do child <- get_node i;
          do m <- upper_metadata (join p (entry_name e)) child;
          apply_overrides p rest (<[entry_name e := {| de_name := entry_name e; de_metadata := m |}]> acc)
      end
  end.
Definition index_by_name (l : list DirectoryEntry) : gmap bytes DirectoryEntry :=
  foldl (fun m e => <[de_name e := e]> m) ∅ l.
Definition read_directory (p : path) : op (list DirectoryEntry) :=
  do e <- resolve p;
  match e with
  | LowerPath l => read_lower_directory l p
  | Upper n =>
      if negb (bool_decide (n_kind (node_value n) = Directory)) then raise (NotDirectory p)
      else
        do below <-
          (if merge_lower (node_value n) && negb (opaque (node_value n))
           then
             do l <- real_lower_directory p;
             match l with
             | Some l => do es <- read_lower_directory l p; ret (index_by_name es)
             | None => ret ∅
             end
           else ret ∅);
        do overrides <- get_entries (node_id n);
        do es <- apply_overrides p overrides below;
        ret (into_values es)
  end.

(** ** Copying up *)
(** [ensure_upper_directory], by recursion on the reversed path. *)
Fixpoint ensure_reversed (reversed : path) : op Z :=
  match reversed with
  | [] => ret ROOT_NODE_ID
  | name :: above =>
      let p := rev reversed in
      do parent <- ensure_reversed above;
      do entry <- get_entry parent name;
      match entry with
      | Some e =>
          match entry_state e with
          | Whiteout => raise (NotFound (Merged p))
          | Present i =>
              do n <- get_node i;
              if bool_decide (n_kind (node_value n) = Directory) then ret (node_id n) else raise (NotDirectory p)
          end
      | None =>
          do b <- capture_lower_entry p None;
          if negb (bool_decide (v_kind (version b) = Directory)) then raise (NotDirectory p)
          else
            do n <- install parent name
              {| n_kind := Directory; object_name := None; symlink_target := None; n_mode := v_mode (version b);
                 n_modified_at := lease_modified_at b; merge_lower := true; opaque := false;
                 metadata_changed := false |} (Some b);
            ret (node_id n)
      end
  end.
Definition ensure_upper_directory (p : path) : op Z := ensure_reversed (rev p).

(** [capture_lower_entry] of a file that is being copied up. *)
Definition capture_staged (p : path) (fresh : bytes) (preserve_contents : bool) : op LowerLease :=
  do r <- attempt (capture_lower_entry p (if preserve_contents then Some fresh else None));
  match r with
  | Ok b => ret b
  | Err e => do! remove_staged fresh; raise e
  | Panic m => fun w => (Panic m, w)
  end.
Definition install_or_discard (parent : Z) (name : bytes) (n : NewNode) (b : option LowerLease) (fresh : bytes)
  : op NodeRecord :=
  do r <- attempt (install parent name n b);
  match r with
  | Ok n => ret n
  | Err e => do! remove_file_if_exists fresh; raise e
  | Panic m => fun w => (Panic m, w)
  end.
Definition materialize_regular_file (fresh : bytes) (p : path) (preserve_contents : bool) : op NodeRecord :=
  do e <- resolve p;
  match e with
  | Upper n =>
      if negb (bool_decide (n_kind (node_value n) = File))
      then raise (entry_type_error_for_kind p (n_kind (node_value n))) else ret n
  | LowerPath l =>
      do m <- symlink_metadata l "inspect a copied-up lower file";
      do k <- of_outcome (entry_kind m p);
      if negb (bool_decide (k = File)) then raise (entry_type_error p m)
      else
        do! start_object fresh;
        do b <- capture_staged p fresh preserve_contents;
        do! commit_object fresh;
        do (parent, name) <- of_outcome (split_parent p);
        do parent_id <- ensure_upper_directory parent;
        install_or_discard parent_id name
          {| n_kind := File; object_name := Some fresh; symlink_target := None; n_mode := v_mode (version b);
             n_modified_at := lease_modified_at b; merge_lower := false; opaque := false;
             metadata_changed := false |} (Some b) fresh
  end.
Definition materialize_lower_symlink (p : path) : op NodeRecord :=
  do (b, target) <- capture_lower_symlink p;
  do (parent, name) <- of_outcome (split_parent p);
  do parent_id <- ensure_upper_directory parent;
  install parent_id name
    {| n_kind := Symlink; object_name := None; symlink_target := Some target; n_mode := v_mode (version b);
       n_modified_at := lease_modified_at b; merge_lower := false; opaque := false;
       metadata_changed := false |} (Some b).
Definition materialize_rename_source (fresh : bytes) (p : path) : op NodeRecord :=
  do e <- resolve p;
  match e with
  | Upper n => ret n
  | LowerPath l =>
      do m <- symlink_metadata l "inspect a rename source";
      do k <- of_outcome (entry_kind m p);
      match k with
      | File => materialize_regular_file fresh p true
      | Symlink => materialize_lower_symlink p
      | Directory => raise (LowerDirectoryRename p)
      end
  end.

(** ** Files *)
(** An open file: the inode of a lower one, the object of an upper one. *)
Inductive Descriptor := OnLower (dev ino : Z) | OnObject (name : bytes).
Definition open_file (p : path) : op Descriptor :=
  do e <- resolve p;
  match e with
  | LowerPath l =>
      do m <- symlink_metadata l "inspect a lower file";
      do k <- of_outcome (entry_kind m p);
      if negb (bool_decide (k = File)) then raise (entry_type_error p m)
      else
        do (dev, ino) <- open_read_only_file l;
        do n <- on_descriptor dev ino "inspect an opened share file";
        do k <- of_outcome (entry_kind (meta n) p);
        if negb (bool_decide (k = File)) then raise (entry_type_error p (meta n)) else ret (OnLower dev ino)
  | Upper n =>
      if negb (bool_decide (n_kind (node_value n) = File))
      then raise (entry_type_error_for_kind p (n_kind (node_value n)))
      else
        do name <- of_outcome (object_path (node_value n));
        do! object_contents name "open a share file";
        do! fallible (io_error "inspect an opened share file");
        ret (OnObject name)
  end.
Definition read_file (p : path) : op bytes :=
  do f <- open_file p;
  match f with
  | OnLower dev ino => do n <- on_descriptor dev ino "read a share file"; ret (data n)
  | OnObject name => object_contents name "read a share file"
  end.

(** What [write_all_at] and [set_len] leave in a file. *)
Definition resize (length : Z) (c : bytes) : bytes :=
  takez length c ++ repeat 0 (Z.to_nat (length - len c)).
Definition overwrite (offset : Z) (w c : bytes) : bytes :=
  if bool_decide (w = []) then c else resize offset c ++ w ++ dropz (offset + len w) c.
(** Opens an object for writing. *)
Definition open_object (name : bytes) (action : string) : op unit :=
  do! object_contents name action; ret tt.
(** [torn] bytes of a failing write arrive. *)
Definition write_all (name : bytes) (offset : Z) (w : bytes) (torn : nat) (action : string) : op unit :=
  do failed <- next_fault;
  do! put (fun s => s <| objects := alter (overwrite offset (if (failed : bool) then take torn w else w)) name (objects s) |>);
  if failed then raise (io_error action) else ret tt.
Definition write_file (fresh : bytes) (now : FileTime) (torn : nat) (p : path) (contents : bytes) : op unit :=
  do n <- materialize_regular_file fresh p false;
  do! transaction "mark upper file content changed" (mark_content_changed (node_id n) now);
  do name <- of_outcome (object_path (node_value n));
  do! open_object name "open an upper file for replacement";
  do! put (fun s => s <| objects := <[name := []]> (objects s) |>);
  write_all name 0 contents torn "replace upper file contents".
Definition write_at (fresh : bytes) (now : FileTime) (torn : nat) (p : path) (offset : Z) (contents : bytes) : op unit :=
  do n <- materialize_regular_file fresh p true;
  do! transaction "mark upper file content changed" (mark_content_changed (node_id n) now);
  do name <- of_outcome (object_path (node_value n));
  do! open_object name "open an upper file for writing";
  write_all name offset contents torn "write upper file contents".
Definition set_file_length (fresh : bytes) (now : FileTime) (p : path) (length : Z) : op unit :=
  do n <- materialize_regular_file fresh p true;
  do! transaction "mark upper file content changed" (mark_content_changed (node_id n) now);
  do name <- of_outcome (object_path (node_value n));
  do! open_object name "open an upper file for truncation";
  do! fallible (io_error "truncate an upper file");
  put (fun s => s <| objects := alter (resize length) name (objects s) |>).
Definition write_file_if_revision (fresh : bytes) (now : FileTime) (torn : nat) (p : path) (expected contents : bytes)
  : op FileWriteOutcome :=
  do c <- read_file p;
  let current := sha256 c in
  if negb (bool_decide (current = expected)) then ret (Conflict current)
  else do! write_file fresh now torn p contents; ret (Written (sha256 contents)).

(** ** Creation *)
Definition create_file (fresh : bytes) (now : FileTime) (p : path) (mode : Z) : op unit :=
  do! ensure_absent p;
  do (parent, name) <- of_outcome (split_parent p);
  do parent_id <- ensure_upper_directory parent;
  do existing <- get_entry parent_id name;
  let b := existing ≫= base in
  do! create_empty_object fresh;
  do! install_or_discard parent_id name
    {| n_kind := File; object_name := Some fresh; symlink_target := None; n_mode := mode; n_modified_at := now;
       merge_lower := false; opaque := false; metadata_changed := true |} b fresh;
  collect_garbage.
Definition create_directory (now : FileTime) (p : path) (mode : Z) : op unit :=
  do! ensure_absent p;
  do (parent, name) <- of_outcome (split_parent p);
  do parent_id <- ensure_upper_directory parent;
  do existing <- get_entry parent_id name;
  let b := existing ≫= base in
  let hides := match b with Some b => bool_decide (v_kind (version b) = Directory) | None => false end in
  do! install parent_id name
    {| n_kind := Directory; object_name := None; symlink_target := None; n_mode := mode; n_modified_at := now;
       merge_lower := true; opaque := hides; metadata_changed := true |} b;
  collect_garbage.
Definition create_symlink (now : FileTime) (p : path) (target : bytes) : op unit :=
  do! ensure_absent p;
  do (parent, name) <- of_outcome (split_parent p);
  do parent_id <- ensure_upper_directory parent;
  do existing <- get_entry parent_id name;
  let b := existing ≫= base in
  do! install parent_id name
    {| n_kind := Symlink; object_name := None; symlink_target := Some target; n_mode := 511; n_modified_at := now;
       merge_lower := false; opaque := false; metadata_changed := true |} b;
  collect_garbage.
Definition read_link (p : path) : op bytes :=
  do e <- resolve p;
  match e with
  | LowerPath l =>
      do m <- symlink_metadata l "inspect a lower symbolic link";
      do k <- of_outcome (entry_kind m p);
      if negb (bool_decide (k = Symlink)) then raise (entry_type_error p m)
      else read_link_target l "read a lower symbolic link"
  | Upper n =>
      if negb (bool_decide (n_kind (node_value n) = Symlink))
      then raise (entry_type_error_for_kind p (n_kind (node_value n)))
      else of_outcome (ok_or (symlink_target (node_value n)) CorruptState)
  end.

(** ** Removal and renaming *)
Definition remove (p : path) : op unit :=
  do e <- resolve p;
  do k <- match e with
          | Upper n => ret (n_kind (node_value n))
          | LowerPath l => do m <- symlink_metadata l "inspect a removed lower entry"; of_outcome (entry_kind m p)
          end;
  do! (if bool_decide (k = Directory)
       then do es <- read_directory p;
            if bool_decide (map de_name es = []) then ret tt else raise (DirectoryNotEmpty p)
       else ret tt);
  do (parent, name) <- of_outcome (split_parent p);
  do parent_id <- ensure_upper_directory parent;
  do current_override <- get_entry parent_id name;
  do b <- match current_override with
          | Some e => ret (base e)
          | None => do b <- capture_lower_entry p None; ret (Some b)
          end;
  do! transaction "commit an upper-removal transaction" (remove_entry parent_id name b);
  collect_garbage.
Fixpoint path_starts_with (prefix p : path) : bool :=
  match prefix, p with
  | [], _ => true
  | a :: prefix', b :: p' => bool_decide (a = b) && path_starts_with prefix' p'
  | _ :: _, [] => false
  end.
Definition validate_rename_source (source : path) (resolved : ResolvedEntry) (k : EntryKind) : op unit :=
  if negb (bool_decide (k = Directory)) then ret tt
  else
    match resolved with
    | LowerPath _ => raise (LowerDirectoryRename source)
    | Upper n =>
        do (parent, name) <- of_outcome (split_parent source);
        do parent_id <- ensure_upper_directory parent;
        do e <- get_entry parent_id name;
        match e with
        | None => raise CorruptState
        | Some e =>
            if merge_lower (node_value n) && negb (opaque (node_value n)) && bool_decide (is_Some (base e))
            then raise (LowerDirectoryRename source) else ret tt
        end
    end.
Definition validate_rename_destination (destination : path) (source_kind : EntryKind) : op unit :=
  do r <- attempt (resolve destination);
  match r with
  | Err e => if is_not_found e then ret tt else raise e
  | Panic m => fun w => (Panic m, w)
  | Ok e =>
      do k <- resolved_entry_kind e destination;
      match source_kind, k with
      | Directory, Directory =>
          do es <- read_directory destination;
          if bool_decide (map de_name es = []) then ret tt else raise (DirectoryNotEmpty destination)
      | Directory, _ => raise (NotDirectory destination)
      | _, Directory => raise (IsDirectory destination)
      | _, _ => ret tt
      end
  end.
Definition rename (fresh : bytes) (source destination : path) : op unit :=
  do resolved_source <- resolve source;
  do source_kind <- resolved_entry_kind resolved_source source;
  if bool_decide (source = destination) then ret tt
  else if path_starts_with source destination then raise (InvalidMergedPath destination)
  else
    do! validate_rename_source source resolved_source source_kind;
    do! validate_rename_destination destination source_kind;
    do (destination_parent, destination_name) <- of_outcome (split_parent destination);
    do! require_directory destination_parent;
    do! materialize_rename_source fresh source;
    do (source_parent, source_name) <- of_outcome (split_parent source);
    do source_parent_id <- ensure_upper_directory source_parent;
    do destination_parent_id <- ensure_upper_directory destination_parent;
    do existing_destination <- get_entry destination_parent_id destination_name;
    do destination_base <-
      match existing_destination with
      | Some e => ret (base e)
      | None =>
          do m <- optional_symlink_metadata destination "inspect a lower rename destination";
          match m with
          | Some _ => do b <- capture_lower_entry destination None; ret (Some b)
          | None => ret None
          end
      end;
    do! transaction "commit an upper-rename transaction"
      (rename_entry source_parent_id source_name destination_parent_id destination_name destination_base);
    collect_garbage.
Definition set_mode (fresh : bytes) (now : FileTime) (p : path) (mode : Z) : op unit :=
  do e <- resolve p;
  do n <- match e with
          | Upper n => ret n
          | LowerPath l =>
              do m <- symlink_metadata l "inspect lower entry metadata";
              do k <- of_outcome (entry_kind m p);
              match k with
              | File => materialize_regular_file fresh p true
              | Directory => do i <- ensure_upper_directory p; get_node i
              | Symlink => raise (UnsupportedEntryType p)
              end
          end;
  if bool_decide (n_kind (node_value n) = Symlink) then raise (UnsupportedEntryType p)
  else transaction "change upper node metadata" (set_node_mode (node_id n) mode now).

(** ** Changes *)
Definition version_for_node (n : NodeRecord) : op EntryVersion :=
  let v := node_value n in
  do (size, digest) <-
    match n_kind v with
    | File =>
        do name <- of_outcome (object_path v);
        do c <- object_contents name "inspect a proposed upper file";
        do! fallible (io_error "hash a proposed upper file");
        ret (len c, Some (sha256 c))
    | Directory => ret (0, None)
    | Symlink =>
        do t <- of_outcome (ok_or (symlink_target v) CorruptState);
        ret (len t, Some (sha256 t))
    end;
  ret {| v_kind := n_kind v; v_size := size; v_mode := n_mode v; content_digest := digest |}.
(** The recursion is bounded by [depth]; [changes] uses the number of nodes. *)
Fixpoint collect_changes (depth : nat) (directory : Z) (p : path) : op (list ShareChange) :=
  match depth with
  | O => fun w => (Panic "stack overflow", w)
  | S depth =>
      let fix each (es : list EntryRecord) : op (list ShareChange) :=
        match es with
        | [] => ret []
        | e :: rest =>
            let child_path := join p (entry_name e) in
            do here <-
              match entry_state e with
              | Whiteout =>
                  do b <- of_outcome (ok_or (base e) CorruptState);
                  ret [{| change_path := child_path; change_base := Some b; proposed := None; change_opaque := false |}]
              | Present i =>
                  do n <- get_node i;
                  do v <- version_for_node n;
                  let include := match base e with
                                 | None => true
                                 | Some b => opaque (node_value n) || negb (bool_decide (version b = v))
                                 end in
                  do below <- (if bool_decide (n_kind (node_value n) = Directory)
                               then collect_changes depth (node_id n) child_path else ret []);
                  ret ((if include
                        then [{| change_path := child_path; change_base := base e; proposed := Some v;
                                 change_opaque := opaque (node_value n) |}]
                        else []) ++ below)
              end;
            do others <- each rest;
            ret (here ++ others)
        end in
      do es <- get_entries directory;
      each es
  end.
Definition change_before (a b : ShareChange) : bool := bytes_leb (path_bytes (change_path a)) (path_bytes (change_path b)).
Definition changes : op (list ShareChange) :=
  do s <- get;
  do cs <- collect_changes (S (size (nodes (index (db s))))) ROOT_NODE_ID [];
  ret (sort_by change_before cs).
Definition lower_matches_lease (p : path) (lease : LowerLease) : op bool :=
  do m <- optional_symlink_metadata p "inspect a leased lower entry";
  match m with
  | None => ret false
  | Some m =>
      do k <- of_outcome (entry_kind m p);
      if matches_lease_fingerprint m k lease then ret true
      else if bool_decide (k = Directory) || bool_decide (v_kind (version lease) = Directory) then ret false
      else do current <- capture_lower_entry p None; ret (bool_decide (version current = version lease))
  end.

(** ** Synchronization, opening and clearing *)
Fixpoint sync_objects (l : list bytes) : op unit :=
  match l with
  | [] => ret tt
  | name :: rest =>
      do! object_contents name "open an upper object for synchronization";
      do! fallible (io_error "synchronize an upper object");
      sync_objects rest
  end.
Definition sync : op unit :=
  do names <- query "prepare an upper-object inventory" (fun d => Ok (referenced_objects d));
  do! sync_objects names;
  do! fallible (database_error "checkpoint the share namespace database");
  do! fallible (io_error "synchronize the share namespace database");
  do! sync_directory;
  sync_directory.
(** Unreferenced object files are removed; all referenced ones must be there. *)
Fixpoint remove_orphans (referenced : list bytes) (found : list bytes) : op unit :=
  match found with
  | [] => ret tt
  | name :: rest =>
      do! fallible (io_error "inspect an upper object");
      do! (if bool_decide (name ∈ referenced) then ret tt
           else do! fallible (io_error "remove an orphaned upper object");
                put (fun s => s <| objects := delete name (objects s) |>));
      remove_orphans referenced rest
  end.
Definition validate_objects : op unit :=
  do referenced <- query "prepare an upper-object inventory" (fun d => Ok (referenced_objects d));
  do! fallible (io_error "inventory upper object files");
  do s <- get;
  let found := map fst (map_to_list (objects s)) in
  do! remove_orphans referenced found;
  if bool_decide (Forall (fun name => name ∈ found) referenced) then ret tt else raise CorruptState.
Fixpoint clean_staging (names : list bytes) : op unit :=
  match names with
  | [] => ret tt
  | name :: rest =>
      do! fallible (io_error "remove an interrupted staged upper object");
      do! put (fun s => s <| staging := delete name (staging s) |>);
      clean_staging rest
  end.
Definition clean_staging_directory : op unit :=
  do! fallible (io_error "inventory staged upper objects");
  do s <- get;
  clean_staging (map fst (map_to_list (staging s))).
Definition open_state : op unit :=
  do! fallible (database_error "open the share namespace database");
  do s <- get;
  do f <- of_outcome (initialize_schema (db s));
  do! put (fun s => s <| db := f |>);
  of_outcome (validate_schema f).
(** [ShareFileSystem::open], after its checks of the two directories. *)
Definition open : op unit :=
  do! clean_staging_directory;
  do! open_state;
  do! collect_garbage;
  validate_objects.

(** [FrozenShareFileSystem]. *)
Definition snapshot : op (list ShareChange) := do! sync; changes.
Definition clear : op unit :=
  do! transaction "commit upper-state reset" clear_index;
  do! collect_garbage;
  sync.
End share.
