(* ===== verification/ShareInv.v ===== *)
(** * The invariant of a share

    What the tables of the namespace index and the object files satisfy after every
    operation, whatever calls fail and however the host edits the lower directory.
    Rows decode; present entries form a forest of directories in which the root has
    no parent and every other node at most one; whiteouts keep their lease; every
    regular file has an object of its own, and the object exists. *)

From S2P Require Import Prelude Lists Text Effects ShareTypes ShareIndex ShareFs.

(** ** Encoding round trips *)
Definition typed_time (t : FileTime) : Prop := fits u32_max (nanoseconds t) = true.
Definition typed_lease (l : LowerLease) : Prop :=
  fits u64_max (v_size (version l)) = true /\ fits u32_max (v_mode (version l)) = true
  /\ match content_digest (version l) with Some g => len g = 32 | None => True end
  /\ typed_time (lease_modified_at l) /\ typed_time (lease_changed_at l)
  /\ fits u64_max (lease_device l) = true /\ fits u64_max (lease_inode l) = true.
Definition typed_node (n : NewNode) : Prop :=
  fits u32_max (n_mode n) = true /\ typed_time (n_modified_at n)
  /\ match n_kind n with
     | File => is_Some (object_name n)
     | Directory => object_name n = None
     | Symlink => object_name n = None /\ is_Some (symlink_target n)
     end.
(** The row of a decoded entry. *)
Definition row_of (s : EntryState) (b : option LowerLease) : EntryRow :=
  match s with Present i => entry_row ENTRY_PRESENT (Some i) b | Whiteout => entry_row ENTRY_WHITEOUT None b end.

Lemma decode_encode_kind k : decode_kind (encode_kind k) = Some k.
Proof. by destruct k. Qed.
Lemma decode_encode_u64 x : fits u64_max x = true -> decode_u64_blob (Some (encode_u64 x)) = Some x.
Proof.
  unfold fits. intros. bool_prop. unfold decode_u64_blob, encode_u64. rewrite len_to_be_bytes. cbn [Z.of_nat].
  rewrite Z.eqb_refl, from_to_be_bytes; [done|]. unfold u64_max in *. lia.
Qed.
Lemma u32_of_fits x : fits u32_max x = true -> u32_of x = Some x.
Proof. unfold u32_of. by intros ->. Qed.
Lemma decode_node_row i n : typed_node n -> decode_node i (node_row n) = Some {| node_id := i; node_value := n |}.
Proof.
  intros (M & T & _). unfold decode_node, decode_u32. cbn [node_row nr_kind nr_mode nr_modified_nanoseconds].
  rewrite decode_encode_kind, !u32_of_fits by done. destruct n as [? ? ? ? []]. done.
Qed.
Lemma decode_base_row st i b : (forall l, b = Some l -> typed_lease l) -> decode_base (entry_row st i b) = Some b.
Proof.
  intros T. destruct b as [l|]; [|done]. destruct (T l eq_refl) as (Sz & Mo & Dg & Tm & Tc & De & In).
  unfold decode_base, decode_optional_u32. cbn - [decode_kind encode_kind encode_u64 decode_u64_blob u32_of fits u64_max u32_max].
  rewrite decode_encode_kind, !decode_encode_u64, !u32_of_fits by done.
  replace (decode_digest (content_digest (version l))) with (Some (content_digest (version l))).
  - destruct l as [[] [] [] ? ?]. done.
  - destruct (content_digest (version l)) as [g|]; [|done]. cbn. by rewrite Dg.
Qed.
Lemma decode_row_of nm s b :
  (forall l, b = Some l -> typed_lease l) ->
  decode_entry nm (row_of s b) = Some {| entry_name := nm; entry_state := s; base := b |}.
Proof.
  intros T. unfold decode_entry. assert (E : decode_state (row_of s b) = Some s) by by destruct s, b.
  rewrite E. destruct s; cbn [row_of]; by rewrite decode_base_row.
Qed.
Lemma row_of_inj s b s' b' :
  (forall l, b = Some l -> typed_lease l) -> (forall l, b' = Some l -> typed_lease l) ->
  row_of s b = row_of s' b' -> s = s' /\ b = b'.
Proof.
  intros T T' E. pose proof (decode_row_of [] s b T) as D. rewrite E, decode_row_of in D by done. by injection D as <- <-.
Qed.

(** ** The index *)
(** [edge m p nm i]: the present entry [nm] of [p] is [i]. *)
Definition edge (m : gmap (Z * bytes) EntryRow) (p : Z) (nm : bytes) (i : Z) : Prop :=
  exists r, m !! (p, nm) = Some r /\ er_state r = ENTRY_PRESENT /\ er_node r = Some i.
Definition child (m : gmap (Z * bytes) EntryRow) (i p : Z) : Prop := exists nm, edge m p nm i.
Definition is_dir (d : Index) (i : Z) : Prop := exists r, nodes d !! i = Some r /\ nr_kind r = encode_kind Directory.
Definition entry_ok (d : Index) (s : EntryState) (b : option LowerLease) : Prop :=
  (forall l, b = Some l -> typed_lease l)
  /\ match s with Present i => i <> ROOT_NODE_ID /\ is_Some (nodes d !! i) | Whiteout => is_Some b end.
Record IndexInv (d : Index) : Prop := {
  inv_root : is_dir d ROOT_NODE_ID;
  inv_node : forall i r, nodes d !! i = Some r -> 0 < i /\ exists n, r = node_row n /\ typed_node n;
  inv_entry : forall p nm r, entries d !! (p, nm) = Some r -> is_dir d p /\ exists s b, r = row_of s b /\ entry_ok d s b;
  inv_parent : forall p nm p' nm' i, edge (entries d) p nm i -> edge (entries d) p' nm' i -> p = p' /\ nm = nm';
  inv_acyclic : forall i, Acc (child (entries d)) i;
  inv_object : forall i j r r' o, nodes d !! i = Some r -> nodes d !! j = Some r' ->
    nr_object_name r = Some o -> nr_object_name r' = Some o -> i = j
}.

Lemma edge_row m p nm i b : m !! (p, nm) = Some (row_of (Present i) b) -> edge m p nm i.
Proof. intros E. exists (row_of (Present i) b). split_and!; [done|..]; by destruct b. Qed.
Lemma edge_insert m p nm s b q nm' j :
  edge (<[(p, nm) := row_of s b]> m) q nm' j ->
  (q = p /\ nm' = nm /\ s = Present j) \/ ((q, nm') <> (p, nm) /\ edge m q nm' j).
Proof.
  intros (r & E & St & Nd). destruct (decide ((p, nm) = (q, nm'))) as [[= <- <-]|N].
  - rewrite lookup_insert_eq in E. injection E as <-. left. split_and!; [done..|]. destruct s, b; cbn in *; congruence.
  - rewrite lookup_insert_ne in E by done. right. split; [congruence|by exists r].
Qed.
Lemma edge_delete m p nm q nm' j : edge (delete (p, nm) m) q nm' j -> (q, nm') <> (p, nm) /\ edge m q nm' j.
Proof.
  intros (r & E & St & Nd). apply lookup_delete_Some in E as [N E]. split; [congruence|by exists r].
Qed.
Lemma acyclic_sub m m' : (forall i p, child m' i p -> child m i p) -> (forall i, Acc (child m) i) -> forall i, Acc (child m') i.
Proof.
  intros S A i. induction (A i) as [i _ IH]. constructor. intros j C. by apply IH, S.
Qed.
(** Adding one edge to an acyclic graph whose target does not reach its source. *)
Lemma acyclic_add m m' p i :
  (forall j q, child m' j q -> child m j q \/ (j = i /\ q = p)) -> (forall j, Acc (child m) j) ->
  ~ rtc (fun a b => child m b a) i p -> forall j, Acc (child m') j.
Proof.
  intros S A N.
  assert (U : forall j, rtc (fun a b => child m b a) i j -> Acc (child m') j).
  { intros j. induction (A j) as [j _ IH]. intros R. constructor. intros k C.
    destruct (S _ _ C) as [C'|[-> ->]]; [|by destruct N]. apply IH; [done|]. by eapply rtc_r. }
  intros j. induction (A j) as [j _ IH]. constructor. intros k C.
  destruct (S _ _ C) as [C'|[-> ->]]; [by apply IH|]. by apply U.
Qed.

(** ** Statements keep the invariant *)
Lemma put_entry_inv d p nm s b :
  IndexInv d -> is_dir d p -> entry_ok d s b ->
  (forall i, s = Present i -> (forall q nm', edge (entries d) q nm' i -> (q, nm') = (p, nm))
                              /\ ~ rtc (fun a c => child (entries d) c a) i p) ->
  IndexInv (d <| entries := <[(p, nm) := row_of s b]> (entries d) |>).
Proof.
  intros I Dp Ok_ Fresh. constructor; cbn.
  - apply (inv_root _ I).
  - apply (inv_node _ I).
  - intros q nm' r E. destruct (decide ((p, nm) = (q, nm'))) as [[= <- <-]|N].
    + rewrite lookup_insert_eq in E. injection E as <-. split; [done|]. by exists s, b.
    + rewrite lookup_insert_ne in E by done. apply (inv_entry _ I _ _ _ E).
  - intros q nm1 q' nm2 i [(-> & -> & ->)|[N1 E1]]%edge_insert [(-> & -> & ?)|[N2 E2]]%edge_insert; simplify_eq.
    + done.
    + destruct (Fresh _ eq_refl) as [F _]. by destruct N2; apply F.
    + destruct (Fresh _ eq_refl) as [F _]. by destruct N1; apply F.
    + by eapply (inv_parent _ I).
  - destruct s as [i|].
    + eapply (acyclic_add (entries d) _ p i); [|apply (inv_acyclic _ I)|by apply Fresh].
      intros j q [nm' [(-> & -> & [= ->])|[_ E]]%edge_insert]; [by right|left; by exists nm'].
    + eapply acyclic_sub; [|apply (inv_acyclic _ I)]. intros j q [nm' [(_ & _ & ?)|[_ E]]%edge_insert]; [done|by exists nm'].
  - apply (inv_object _ I).
Qed.
Lemma delete_entries_inv d m : IndexInv d -> m ⊆ entries d -> IndexInv (d <| entries := m |>).
Proof.
  intros I S. assert (Ed : forall p nm i, edge m p nm i -> edge (entries d) p nm i).
  { intros p nm i (r & E & St). exists r. split; [|done]. by eapply lookup_weaken. }
  constructor; cbn; [apply (inv_root _ I)|apply (inv_node _ I)|..|apply (inv_object _ I)].
  - intros p nm r E. apply (inv_entry _ I p nm r). by eapply lookup_weaken.
  - intros p nm p' nm' i E1 E2. eapply (inv_parent _ I); by eapply Ed.
  - eapply acyclic_sub; [|apply (inv_acyclic _ I)]. intros i p [nm E]. exists nm. by apply Ed.
Qed.

Lemma next_rowid_fresh d i : next_rowid d = Some i -> 0 < i /\ nodes d !! i = None.
Proof.
  unfold next_rowid. case_match; [|done]. intros [= <-].
  assert (F : forall (l : list Z) x, x ∈ l -> x <= foldr Z.max 0 l).
  { intros l x Hx. induction Hx; cbn; lia. }
  assert (G : forall l : list Z, 0 <= foldr Z.max 0 l) by (induction l; cbn; lia).
  split; [specialize (G (map fst (map_to_list (nodes d)))); lia|]. apply eq_None_not_Some. intros [r E].
  assert (H' : foldr Z.max 0 (map fst (map_to_list (nodes d))) + 1 <= foldr Z.max 0 (map fst (map_to_list (nodes d)))); [|lia].
  apply F, list_elem_of_fmap. eexists (_, r). split; [|by apply elem_of_map_to_list]. done.
Qed.
Lemma object_free_spec o d : object_free (Some o) d = true -> forall i r, nodes d !! i = Some r -> nr_object_name r <> Some o.
Proof.
  cbn. rewrite forallb_forall. intros F i r E%elem_of_map_to_list%list_elem_of_In. specialize (F _ E). cbn in F. by bool_prop.
Qed.
Lemma insert_node_inv d n i :
  IndexInv d -> typed_node n -> object_free (object_name n) d = true -> next_rowid d = Some i ->
  IndexInv (d <| nodes := <[i := node_row n]> (nodes d) |>).
Proof.
  intros I T F [P N]%next_rowid_fresh.
  assert (W : forall j r, nodes d !! j = Some r -> <[i := node_row n]> (nodes d) !! j = Some r)
    by (intros j r E; rewrite lookup_insert_ne; congruence).
  assert (Dr : forall j, is_dir d j -> is_dir (d <| nodes := <[i := node_row n]> (nodes d) |>) j)
    by (intros j (r & E & K); exists r; split; [by apply W|done]).
  constructor; cbn.
  - apply Dr, (inv_root _ I).
  - intros j r E. destruct (decide (i = j)) as [<-|Nj]; [|rewrite lookup_insert_ne in E by done; by apply (inv_node _ I)].
    rewrite lookup_insert_eq in E. injection E as <-. split; [done|by exists n].
  - intros p nm r E. destruct (inv_entry _ I _ _ _ E) as (Dp & s & b & -> & Tb & Sp). split; [by apply Dr|].
    exists s, b. split; [done|]. split; [done|]. destruct s as [j|]; [|done]. destruct Sp as [Nr [r Er]]. split; [done|].
    exists r. by apply W.
  - apply (inv_parent _ I).
  - apply (inv_acyclic _ I).
  - assert (Sep : forall j r o, j <> i -> nodes d !! j = Some r -> nr_object_name r = Some o -> object_name n = Some o -> False).
    { intros j r o Nj E O En. rewrite En in F. by apply (object_free_spec _ _ F _ _ E). }
    intros j k r r' o [[<- <-]|[Nj Ej]]%lookup_insert_Some [[<- <-]|[Nk Ek]]%lookup_insert_Some Oj Ok_; cbn in *; [done|..].
    + by destruct (Sep k r' o).
    + by destruct (Sep j r o).
    + by eapply (inv_object _ I).
Qed.
Lemma entry_ok_nodes d d' s b : (forall i, is_Some (nodes d !! i) -> is_Some (nodes d' !! i)) -> entry_ok d s b -> entry_ok d' s b.
Proof. intros S [T P]. split; [done|]. destruct s; [|done]. naive_solver. Qed.
(** Nothing points to a node that is not there. *)
Lemma edge_node d p nm i : IndexInv d -> edge (entries d) p nm i -> i <> ROOT_NODE_ID /\ is_Some (nodes d !! i) /\ is_dir d p.
Proof.
  intros I (r & E & St & Nd). destruct (inv_entry _ I _ _ _ E) as (Dp & s & b & -> & _ & P).
  destruct s as [j|]; [|by destruct b]. assert (j = i) as -> by (destruct b; cbn in Nd; congruence). naive_solver.
Qed.
(** Rows that keep their kind and object keep the invariant. *)
Lemma update_node_inv d i r r' :
  IndexInv d -> nodes d !! i = Some r -> nr_kind r' = nr_kind r -> nr_object_name r' = nr_object_name r ->
  (exists n, r' = node_row n /\ typed_node n) -> IndexInv (d <| nodes := <[i := r']> (nodes d) |>).
Proof.
  intros I E K O T.
  assert (Dr : forall j, is_dir d j -> is_dir (d <| nodes := <[i := r']> (nodes d) |>) j).
  { intros j (x & Ex & Kx). destruct (decide (i = j)) as [<-|N].
    - rewrite E in Ex. injection Ex as <-. exists r'. cbn. rewrite lookup_insert_eq. split; [done|]. by rewrite K.
    - exists x. cbn. by rewrite lookup_insert_ne. }
  constructor; cbn; [apply Dr, (inv_root _ I)|..|apply (inv_parent _ I)|apply (inv_acyclic _ I)|].
  - intros j x Ex. destruct (decide (i = j)) as [<-|N]; [|rewrite lookup_insert_ne in Ex by done; by apply (inv_node _ I)].
    rewrite lookup_insert_eq in Ex. injection Ex as <-. split; [by apply (inv_node _ I) in E as [? _]|done].
  - intros p nm x Ex. destruct (inv_entry _ I _ _ _ Ex) as (Dp & s & b & -> & Ok_). split; [by apply Dr|]. exists s, b.
    split; [done|]. eapply entry_ok_nodes, Ok_. intros j Hj. cbn. apply lookup_insert_is_Some'. by right.
  - intros j k x y o. rewrite !lookup_insert_Some. intros Hj Hk Oj Ok_.
    assert (Ej : exists x', nodes d !! j = Some x' /\ nr_object_name x' = Some o) by (destruct Hj as [[<- <-]|[_ Hj]]; eauto; exists r; split; congruence).
    assert (Ek : exists x', nodes d !! k = Some x' /\ nr_object_name x' = Some o) by (destruct Hk as [[<- <-]|[_ Hk]]; eauto; exists r; split; congruence).
    destruct Ej as (? & ? & ?), Ek as (? & ? & ?). by eapply (inv_object _ I).
Qed.

(** ** Paths through the index *)
Inductive walks (m : gmap (Z * bytes) EntryRow) (i : Z) : path -> Z -> Prop :=
| walks_nil : walks m i [] i
| walks_snoc p j nm k : walks m i p j -> edge m j nm k -> walks m i (p ++ [nm]) k.
Lemma walks_app m i j k p q : walks m i p j -> walks m j q k -> walks m i (p ++ q) k.
Proof.
  intros W. induction 1 as [|q k nm l W' IH E]; [by rewrite app_nil_r|]. rewrite app_assoc. by econstructor.
Qed.
Lemma walks_sub m m' i p j : (forall a nm b, edge m a nm b -> edge m' a nm b) -> walks m i p j -> walks m' i p j.
Proof. intros S. induction 1; econstructor; eauto. Qed.
Lemma rtc_walks m i j : rtc (fun a c => child m c a) i j -> exists p, walks m i p j.
Proof.
  intros R. induction R as [i|i k j [nm E] R (p & W)]; [exists []; constructor|].
  exists ([nm] ++ p). eapply walks_app; [|done]. change [nm] with ([] ++ [nm]). econstructor; [constructor|done].
Qed.
(** A node has one path from the root. *)
Lemma walks_unique d p q i :
  IndexInv d -> walks (entries d) ROOT_NODE_ID p i -> walks (entries d) ROOT_NODE_ID q i -> p = q.
Proof.
  intros I W. revert q. induction W as [|p j nm k W IH E]; intros q W'.
  - inversion W' as [|q' j nm k W2 E]; subst; [done|]. by apply edge_node in E as [[] _].
  - inversion W' as [|q' j' nm' k' W2 E2]; subst; [by apply edge_node in E as [[] _]|].
    destruct (inv_parent _ I _ _ _ _ _ E E2) as [<- <-]. by rewrite (IH _ W2).
Qed.

(** ** Transactions *)
Definition extends (d d' : Index) : Prop := nodes d ⊆ nodes d' /\ entries d ⊆ entries d'.
#[export] Instance extends_preorder : PreOrder extends.
Proof. split; [by intros d|intros d1 d2 d3 [A B] [C D]; split; by etrans]. Qed.
Lemma extends_dir d d' i : extends d d' -> is_dir d i -> is_dir d' i.
Proof. intros [S _] (r & E & K). exists r. split; [by eapply lookup_weaken|done]. Qed.
Lemma extends_edge d d' p nm i : extends d d' -> edge (entries d) p nm i -> edge (entries d') p nm i.
Proof. intros [_ S] (r & E & K). exists r. split; [by eapply lookup_weaken|done]. Qed.

Definition typed_base (b : option LowerLease) : Prop := forall l, b = Some l -> typed_lease l.
Lemma put_entry_Ok p nm st i b d d' :
  put_entry p nm st i b d = Ok d' -> d' = d <| entries := <[(p, nm) := entry_row st i b]> (entries d) |>.
Proof. unfold put_entry. case_match; [by intros [= <-]|done]. Qed.
Lemma is_dir_references d i : is_dir d i -> references i d = true.
Proof. intros (r & E & _). apply bool_decide_eq_true. by rewrite E. Qed.
Lemma install_node_spec p nm n b d i d' :
  install_node p nm n b d = Ok (i, d') ->
  next_rowid d = Some i /\ object_free (object_name n) d = true
  /\ d' = {| nodes := <[i := node_row n]> (nodes d); entries := <[(p, nm) := row_of (Present i) b]> (entries d) |}.
Proof.
  unfold install_node, insert_node. destruct (object_free _ d) eqn:F; [|done]. cbn [negb].
  destruct (next_rowid d) as [k|]; [|done]. cbn [obind]. unfold put_present_entry.
  destruct (put_entry _ _ _ _ _ _) as [x| |] eqn:P; [|done..]. intros [= <- <-].
  apply put_entry_Ok in P as ->. by destruct d.
Qed.
Lemma install_node_inv p nm n b d i d' :
  IndexInv d -> is_dir d p -> typed_node n -> typed_base b -> install_node p nm n b d = Ok (i, d') -> IndexInv d'.
Proof.
  intros I Dp T Tb (R & F & ->)%install_node_spec. pose proof (insert_node_inv d n i I T F R) as I'.
  apply next_rowid_fresh in R as [P N]. assert (Ni : i <> ROOT_NODE_ID).
  { intros ->. destruct (inv_root _ I) as (r & E & _). congruence. }
  set (d1 := d <| nodes := <[i := node_row n]> (nodes d) |>) in *.
  change (IndexInv (d1 <| entries := <[(p, nm) := row_of (Present i) b]> (entries d1) |>)).
  assert (X : extends d d1) by (split; [by apply insert_subseteq|done]).
  apply put_entry_inv; [done|by eapply extends_dir|split; [done|split; [done|]]|].
  - cbn. rewrite lookup_insert_eq. by eexists.
  - intros j [= <-]. assert (No : forall q nm', ~ edge (entries d1) q nm' i).
    { intros q nm' E. change (edge (entries d) q nm' i) in E. apply edge_node in E as (_ & [r Er] & _); [|done]. congruence. }
    split; [by intros q nm' ?%No|]. intros Rt. apply rtc_inv in Rt as [<-|(k & [nm' E] & _)].
    + destruct Dp as (r & Er & _). congruence.
    + change (edge (entries d) i nm' k) in E. apply edge_node in E as (_ & _ & (r & Er & _)); [|done]. congruence.
Qed.
Lemma install_node_extends p nm n b d i d' :
  entries d !! (p, nm) = None -> install_node p nm n b d = Ok (i, d') -> extends d d'.
Proof.
  intros N (R & _ & ->)%install_node_spec. apply next_rowid_fresh in R as [_ Ni]. split; cbn; by apply insert_subseteq.
Qed.
Lemma install_node_dir p nm n b d i d' j :
  install_node p nm n b d = Ok (i, d') -> is_dir d j -> is_dir d' j.
Proof.
  intros (R & _ & ->)%install_node_spec (r & E & K). apply next_rowid_fresh in R as [_ Ni]. exists r. cbn.
  rewrite lookup_insert_ne by congruence. done.
Qed.
Lemma remove_entry_inv p nm b d d' u :
  IndexInv d -> is_dir d p -> typed_base b -> remove_entry p nm b d = Ok (u, d') -> IndexInv d'.
Proof.
  intros I Dp T. destruct b as [b|]; cbn.
  - destruct (put_whiteout p nm b d) as [x| |] eqn:P; [|done..]. intros [= _ <-]. apply put_entry_Ok in P as ->.
    apply (put_entry_inv d p nm Whiteout (Some b)); [done..|split; [done|by eexists]|done].
  - intros [= _ <-]. apply delete_entries_inv; [done|apply delete_subseteq].
Qed.
Lemma query_entry_spec p nm d e :
  IndexInv d -> query_entry p nm d = Ok (Some e) ->
  entry_name e = nm /\ entries d !! (p, nm) = Some (row_of (entry_state e) (base e)) /\ entry_ok d (entry_state e) (base e).
Proof.
  intros I. unfold query_entry. destruct (entries d !! (p, nm)) as [r|] eqn:E; [|done].
  destruct (inv_entry _ I _ _ _ E) as (_ & s & b & -> & T & P). rewrite decode_row_of by done. cbn. intros [= <-]. done.
Qed.
(** The source entry of a rename is gone. *)
Lemma vacate_inv sp sn d e i :
  IndexInv d -> entries d !! (sp, sn) = Some (row_of (Present i) (base e)) -> typed_base (base e) -> forall d1,
  match base e with Some b => put_whiteout sp sn b d | None => Ok (delete_entry sp sn d) end = Ok d1 ->
  IndexInv d1 /\ nodes d1 = nodes d
  /\ (forall q nm j, edge (entries d1) q nm j -> (q, nm) <> (sp, sn) /\ edge (entries d) q nm j).
Proof.
  intros I E T d1 H. assert (Ds : is_dir d sp) by apply (inv_entry _ I _ _ _ E). destruct (base e) as [b|].
  - unfold put_whiteout in H. apply put_entry_Ok in H as ->. split_and!; [|done|].
    + apply (put_entry_inv d sp sn Whiteout (Some b)); [done..|split; [done|by eexists]|done].
    + intros q nm j [(_ & _ & ?)|?]%(edge_insert _ _ _ Whiteout (Some b)); done.
  - injection H as <-. split_and!; [|done|intros q nm j; apply edge_delete].
    apply delete_entries_inv; [done|apply delete_subseteq].
Qed.
Lemma rename_entry_inv sp sn dp dn b d d' u spath dpath :
  IndexInv d -> is_dir d dp -> typed_base b ->
  walks (entries d) ROOT_NODE_ID spath sp -> walks (entries d) ROOT_NODE_ID dpath dp ->
  (forall q, dpath ++ [dn] <> spath ++ [sn] ++ q) ->
  rename_entry sp sn dp dn b d = Ok (u, d') -> IndexInv d'.
Proof.
  intros I Dd T Ws Wd Np. unfold rename_entry. destruct (query_entry sp sn d) as [[e|]| |] eqn:Q; [|done..]. cbn [obind].
  apply query_entry_spec in Q as (_ & E & Tb & Pe); [|done]. destruct (entry_state e) as [i|] eqn:Se; [|done].
  destruct (match base e with Some _ => _ | None => _ end) as [d1| |] eqn:V; [|done..]. cbn [obind].
  destruct (vacate_inv sp sn d e i I E Tb d1 V) as (I1 & En & Ed).
  unfold put_present_entry. destruct (put_entry dp dn _ _ b d1) as [d2| |] eqn:P; [|done..]. intros [= _ <-].
  apply put_entry_Ok in P as ->. apply (put_entry_inv d1 dp dn (Present i) b); [done|..].
  - destruct Dd as (r & Er & K). exists r. by rewrite En.
  - split; [done|]. by rewrite En.
  - intros j [= <-]. pose proof (edge_row _ _ _ _ _ E) as Es. split.
    + intros q nm' [N1 E1]%Ed. destruct (inv_parent _ I _ _ _ _ _ E1 Es) as [-> ->]. done.
    + intros (q & W)%rtc_walks. apply (walks_sub _ (entries d)) in W; [|intros a nm c ?; by apply Ed].
      assert (dpath = spath ++ [sn] ++ q) as ->.
      { apply (walks_unique d _ _ _ I Wd). rewrite app_assoc. eapply walks_app; [by econstructor|done]. }
      apply (Np (q ++ [dn])). by rewrite <- !app_assoc.
Qed.
Lemma mark_content_changed_inv i t d d' u :
  IndexInv d -> typed_time t -> mark_content_changed i t d = Ok (u, d') -> IndexInv d'.
Proof.
  intros I T. unfold mark_content_changed. destruct (nodes d !! i) as [r|] eqn:E; [|done]. case_match; [|done]. intros [= _ <-].
  apply (update_node_inv d i r); [done..|]. destruct (inv_node _ I _ _ E) as (_ & n & -> & Tm & _ & K).
  by exists (n <| n_modified_at := t |>).
Qed.
Lemma set_node_mode_inv i m t d d' u :
  IndexInv d -> typed_time t -> fits u32_max m = true -> set_node_mode i m t d = Ok (u, d') -> IndexInv d'.
Proof.
  intros I T F. unfold set_node_mode. destruct (nodes d !! i) as [r|] eqn:E; [|done]. intros [= _ <-].
  apply (update_node_inv d i r); [done..|]. destruct (inv_node _ I _ _ E) as (_ & n & -> & Tm & _ & K).
  by exists (n <| n_mode := m |> <| metadata_changed := true |> <| n_modified_at := t |>).
Qed.
Lemma initial_index_inv : IndexInv initial_index.
Proof.
  constructor; cbn.
  - by exists root_row.
  - intros i r [<- <-]%lookup_singleton_Some. split; [done|].
    by exists {| n_kind := Directory; object_name := None; symlink_target := None; n_mode := 493;
              n_modified_at := {| seconds := 0; nanoseconds := 0 |}; merge_lower := true; opaque := false; metadata_changed := false |}.
  - by intros p nm r E%lookup_empty_Some.
  - by intros p nm p' nm' i (r & E%lookup_empty_Some & _).
  - intros i. constructor. by intros j [nm (r & E%lookup_empty_Some & _)].
  - intros i j r r' o [<- <-]%lookup_singleton_Some [<- <-]%lookup_singleton_Some. done.
Qed.
Lemma clear_index_spec d : IndexInv d -> exists r, clear_index d = Ok (tt, {| nodes := {[ROOT_NODE_ID := restored_root r]}; entries := ∅ |})
  /\ nodes d !! ROOT_NODE_ID = Some r.
Proof.
  intros I. destruct (inv_root _ I) as (r & E & _). exists r. split; [|done].
  assert (M : alter restored_root ROOT_NODE_ID (filter (fun '(i, _) => i = ROOT_NODE_ID) (nodes d)) = {[ROOT_NODE_ID := restored_root r]});
    [|rewrite <- M; done].
  apply map_eq. intros i. destruct (decide (i = ROOT_NODE_ID)) as [->|N].
  - rewrite lookup_singleton_eq, lookup_alter_eq. by rewrite (map_lookup_filter_Some_2 _ _ _ r).
  - rewrite lookup_singleton_ne, lookup_alter_ne by done. apply map_lookup_filter_None. right. by intros x _ ?.
Qed.
Lemma clear_index_inv d d' u : IndexInv d -> clear_index d = Ok (u, d') -> IndexInv d'.
Proof.
  intros I. destruct (clear_index_spec d I) as (r & -> & E). intros [= _ <-].
  destruct (inv_root _ I) as (x & Ex & K). assert (x = r) as -> by congruence. destruct (inv_node _ I _ _ E) as (_ & n & -> & _ & _ & Kn).
  change {| nodes := {[ROOT_NODE_ID := restored_root (node_row n)]}; entries := ∅ |}
    with (initial_index <| nodes := {[ROOT_NODE_ID := restored_root (node_row n)]} |>).
  replace ({[ROOT_NODE_ID := restored_root (node_row n)]} : gmap Z NodeRow)
    with (<[ROOT_NODE_ID := restored_root (node_row n)]> (nodes initial_index)) by (unfold initial_index; cbn [nodes]; by rewrite insert_singleton_eq).
  assert (n_kind n = Directory) as Ek by (cbn in K; by destruct (n_kind n)). rewrite Ek in Kn.
  apply (update_node_inv _ _ root_row); [apply initial_index_inv|done|done|cbn; by rewrite Kn|].
  exists {| n_kind := n_kind n; object_name := object_name n; symlink_target := symlink_target n; n_mode := 493;
            n_modified_at := {| seconds := 0; nanoseconds := 0 |}; merge_lower := true; opaque := false; metadata_changed := false |}.
  split; [done|]. split; [done|]. split; [done|]. cbn. by rewrite Ek.
Qed.

(** ** Reachability *)
Lemma elem_of_grow d s x : x ∈ grow d s <-> x ∈ s \/ exists p nm, p ∈ s /\ edge (entries d) p nm x.
Proof.
  unfold grow. rewrite elem_of_union, elem_of_list_to_set, list_elem_of_omap. f_equiv. split.
  - intros ([[p nm] r] & E%elem_of_map_to_list & C). cbn in C. case_match; [|done]. bool_prop. exists p, nm. split; [done|]. by exists r.
  - intros (p & nm & Ps & r & E & St & Nd). exists ((p, nm), r). split; [by apply elem_of_map_to_list|]. cbn.
    by rewrite bool_decide_true, St, Nd.
Qed.
Lemma iterate_S {A} n (f : A -> A) x : iterate (S n) f x = f (iterate n f x).
Proof. revert x. induction n as [|n IH]; intros x; [done|]. cbn in *. by rewrite IH. Qed.
Lemma iterate_grow d n s :
  grow d (iterate n (grow d) s) ⊆ iterate n (grow d) s \/ (n + size s <= size (iterate n (grow d) s))%nat.
Proof.
  induction n as [|n IH]; [by right|]. rewrite iterate_S. set (x := iterate n (grow d) s) in *.
  destruct (decide (grow d x ⊆ x)) as [F|F].
  - assert (grow d x = x) as ->; [|by left]. apply set_eq. intros y. split; [apply F|]. rewrite elem_of_grow. by left.
  - destruct IH as [IH|IH]; [done|]. right. assert (x ⊂ grow d x).
    { split; [|done]. intros y. rewrite elem_of_grow. by left. }
    pose proof (subset_size x (grow d x) ltac:(done)). cbn [Nat.add]. lia.
Qed.
Lemma iterate_grow_root d n : ROOT_NODE_ID ∈ iterate n (grow d) {[ROOT_NODE_ID]}.
Proof. induction n as [|n IH]; [by apply elem_of_singleton|]. rewrite iterate_S, elem_of_grow. by left. Qed.
Lemma iterate_grow_sound d n x : x ∈ iterate n (grow d) {[ROOT_NODE_ID]} -> exists p, walks (entries d) ROOT_NODE_ID p x.
Proof.
  revert x. induction n as [|n IH]; intros x; [cbn; intros ->%elem_of_singleton; exists []; constructor|].
  rewrite iterate_S, elem_of_grow. intros [?|(p & nm & Hp & E)]; [by apply IH|]. destruct (IH _ Hp) as (q & W).
  exists (q ++ [nm]). by econstructor.
Qed.
Lemma walks_node d p i : IndexInv d -> walks (entries d) ROOT_NODE_ID p i -> is_Some (nodes d !! i).
Proof.
  intros I W. destruct W as [|p j nm k W E]; [destruct (inv_root _ I) as (r & E & _); by exists r|].
  by apply edge_node in E as (_ & ? & _).
Qed.
Lemma reachable_spec d i : IndexInv d -> i ∈ reachable_ids d <-> exists p, walks (entries d) ROOT_NODE_ID p i.
Proof.
  intros I. split; [apply iterate_grow_sound|]. intros (p & W). unfold reachable_ids.
  set (s := iterate (size (nodes d)) (grow d) {[ROOT_NODE_ID]}).
  assert (C : grow d s ⊆ s).
  { destruct (iterate_grow d (size (nodes d)) {[ROOT_NODE_ID]}) as [?|H]; [done|]. fold s in H. rewrite size_singleton in H.
    assert (S : s ⊆ dom (nodes d)).
    { intros x (q & Wx)%iterate_grow_sound. apply elem_of_dom. by eapply walks_node. }
    apply subseteq_size in S. rewrite size_dom in S. lia. }
  induction W as [|p j nm k W IH E].
  - apply iterate_grow_root.
  - apply C, elem_of_grow. right. by exists j, nm.
Qed.

(** ** Collection *)
Lemma elem_of_unreachable d i r : (i, r) ∈ unreachable d <-> nodes d !! i = Some r /\ i ∉ reachable_ids d.
Proof.
  unfold unreachable. rewrite list_elem_of_In, filter_In, <- list_elem_of_In, elem_of_map_to_list.
  by rewrite negb_true_iff, bool_decide_eq_false.
Qed.
Lemma elem_of_gone d i : i ∈ map fst (unreachable d) <-> is_Some (nodes d !! i) /\ i ∉ reachable_ids d.
Proof.
  rewrite list_elem_of_fmap. split.
  - intros ([j r] & -> & [E N]%elem_of_unreachable). cbn. rewrite E. by eauto.
  - intros [[r E] N]. exists (i, r). split; [done|]. by apply elem_of_unreachable.
Qed.
Lemma delete_nodes_spec ids d :
  (forall i, i ∈ ids -> unreferenced i d = true) ->
  delete_nodes ids d = Ok {| nodes := filter (fun '(i, _) => i ∉ ids) (nodes d); entries := entries d |}.
Proof.
  revert d. induction ids as [|i ids IH]; intros d U.
  - rewrite map_filter_id; [by destruct d|]. by intros i x _ ?%not_elem_of_nil.
  - cbn [delete_nodes]. unfold delete_node. rewrite U by set_solver. cbn [obind].
    rewrite IH by (intros j Hj; apply (U j); set_solver). do 2 f_equal. apply map_eq. intros j. apply option_eq. intros r.
    change (nodes (d <| nodes := delete i (nodes d) |>)) with (delete i (nodes d)).
    rewrite !map_lookup_filter_Some, lookup_delete_Some, not_elem_of_cons. naive_solver.
Qed.
(** Collection succeeds, removes what the root does not reach, and returns the
    objects of what it removed. *)
Definition kept_entries (d : Index) : gmap (Z * bytes) EntryRow :=
  filter (fun '((p, _), _) => p ∉ map fst (unreachable d)) (entries d).
Definition kept_nodes (d : Index) : gmap Z NodeRow := filter (fun '(i, _) => i ∉ map fst (unreachable d)) (nodes d).
Lemma kept_node_spec d i r : kept_nodes d !! i = Some r <-> nodes d !! i = Some r /\ i ∈ reachable_ids d.
Proof.
  unfold kept_nodes. rewrite map_lookup_filter_Some, elem_of_gone. split; [|naive_solver].
  intros [E N]. split; [done|]. destruct (decide (i ∈ reachable_ids d)); [done|]. destruct N. rewrite E. by eauto.
Qed.
Lemma kept_entry_spec d p nm r : IndexInv d -> kept_entries d !! (p, nm) = Some r <-> entries d !! (p, nm) = Some r /\ p ∈ reachable_ids d.
Proof.
  intros I. unfold kept_entries. rewrite map_lookup_filter_Some. cbn. rewrite elem_of_gone. split; [|naive_solver].
  intros [E N]. split; [done|]. destruct (inv_entry _ I _ _ _ E) as [(x & Ex & _) _].
  destruct (decide (p ∈ reachable_ids d)); [done|]. destruct N. rewrite Ex. by eauto.
Qed.
Lemma reachable_edge d p nm i : IndexInv d -> p ∈ reachable_ids d -> edge (entries d) p nm i -> i ∈ reachable_ids d.
Proof. intros I (q & W)%reachable_spec E; [|done]. apply reachable_spec; [done|]. exists (q ++ [nm]). by econstructor. Qed.
Lemma collect_spec d :
  IndexInv d ->
  collect_unreachable_objects d
  = Ok (omap (fun '(_, r) => nr_object_name r) (unreachable d), {| nodes := kept_nodes d; entries := kept_entries d |}).
Proof.
  intros I. unfold collect_unreachable_objects. fold (kept_entries d). rewrite delete_nodes_spec; [done|].
  intros i Hi. unfold unreferenced. apply forallb_forall. intros [[p nm] r] E%list_elem_of_In%elem_of_map_to_list.
  cbn in E. apply kept_entry_spec in E as [E Rp]; [|done]. apply elem_of_gone in Hi as [_ N]. apply andb_true_iff. split.
  - apply negb_true_iff, Z.eqb_neq. congruence.
  - apply negb_true_iff, bool_decide_eq_false. intros En. apply N. apply (reachable_edge d p nm i); [done..|]. exists r. split; [done|].
    destruct (inv_entry _ I _ _ _ E) as (_ & s & b & -> & _). destruct s, b; done.
Qed.
Lemma collect_inv d : IndexInv d -> IndexInv {| nodes := kept_nodes d; entries := kept_entries d |}.
Proof.
  intros I. assert (Dr : forall i, i ∈ reachable_ids d -> is_dir d i -> is_dir {| nodes := kept_nodes d; entries := kept_entries d |} i).
  { intros i R (r & E & K). exists r. cbn. by rewrite kept_node_spec. }
  assert (Sub : forall p nm i, edge (kept_entries d) p nm i -> edge (entries d) p nm i /\ p ∈ reachable_ids d).
  { intros p nm i (r & [E R]%kept_entry_spec & H); [|done]. split; [by exists r|done]. }
  constructor; cbn.
  - apply Dr, (inv_root _ I). apply iterate_grow_root.
  - intros i r [E _]%kept_node_spec. by apply (inv_node _ I).
  - intros p nm r [E R]%kept_entry_spec; [|done]. destruct (inv_entry _ I _ _ _ E) as (Dp & s & b & -> & T & P).
    split; [by apply Dr|]. exists s, b. split; [done|]. split; [done|]. destruct s as [i|]; [|done]. destruct P as [N [x Ex]].
    split; [done|]. exists x. apply kept_node_spec. split; [done|]. eapply reachable_edge; [done..|]. by eapply edge_row.
  - intros p nm p' nm' i [E _]%Sub [E' _]%Sub. by eapply (inv_parent _ I).
  - eapply acyclic_sub; [|apply (inv_acyclic _ I)]. intros i p [nm [E _]%Sub]. by exists nm.
  - intros i j r r' o [E _]%kept_node_spec [E' _]%kept_node_spec. by eapply (inv_object _ I).
Qed.
(** An object that is still referenced is not among the returned ones. *)
Lemma collect_objects d i r o :
  IndexInv d -> kept_nodes d !! i = Some r -> nr_object_name r = Some o ->
  o ∉ omap (fun '(_, r) => nr_object_name r) (unreachable d).
Proof.
  intros I [E R]%kept_node_spec O ([j x] & [Ex N]%elem_of_unreachable & Ox)%list_elem_of_omap.
  assert (i = j) as -> by by eapply (inv_object _ I). done.
Qed.
