(* ===== verification/ShareKeeps.v ===== *)
(** * Operations keep the invariant

    Every operation of the share, from a state that satisfies [Inv], ends in one,
    whatever system calls and transactions fail and however the host edits the lower
    directory meanwhile. *)

From S2P Require Import Prelude Lists Text Effects ShareTypes ShareIndex ShareFs ShareInv.

Definition typed_meta (m : Metadata) : Prop :=
  fits u64_max (m_size m) = true /\ fits u64_max (m_dev m) = true /\ fits u64_max (m_ino m) = true.
Definition typed_lower (l : Lower) : Prop :=
  (forall p n, at_path l p = Found n -> typed_meta (meta n)) /\ (forall dev ino, typed_meta (meta (inode l dev ino))).
Abbreviation tables s := (index (db s)).
(** Every object that the index refers to exists. *)
Definition backed (d : Index) (s : Share) : Prop :=
  forall i r o, nodes d !! i = Some r -> nr_object_name r = Some o -> is_Some (objects s !! o).
Record Inv (s : Share) : Prop := {
  inv_version : user_version (db s) = SCHEMA_VERSION;
  inv_check : quick_check (db s) = true;
  inv_reads : reads_fail s = false;
  inv_index : IndexInv (tables s);
  inv_backed : backed (tables s) s;
  inv_lower : typed_lower (lower s);
  inv_host : Forall typed_lower (host s)
}.
(** [o] is the name of no object of the index. *)
Definition unused (o : bytes) (d : Index) : Prop :=
  forall i r, nodes d !! i = Some r -> nr_object_name r <> Some o.
(** What of a state the operations below keep track of: the tables and the object
    files; [At v] says that they are [v]. *)
Definition View : Type := Index * gmap bytes bytes.
Definition view (s : Share) : View := (tables s, objects s).
Definition At (v : View) (s : Share) : Prop := Inv s /\ view s = v.
Lemma At_index v s : At v s -> tables s = v.1 /\ objects s = v.2.
Proof. by intros [_ <-]. Qed.

(** After [get] the state is known. *)
Lemma triple_pure_eq {A} (P : Share -> Prop) s (m : op A) Q E :
  (P s -> triple (fun s' => s' = s) m Q E) -> triple (fun s' => s = s' /\ P s') m Q E.
Proof. intros T w [Es H]. rewrite <- Es in H. exact (T H w (eq_sym Es)). Qed.
Lemma triple_index_transaction {A} (P : Share -> Prop) a (f : Index -> outcome ShareFsError (A * Index)) Q :
  (forall s x d', P s -> f (tables s) = Ok (x, d') -> Q x (s <| db := (db s) <| index := d' |> |>)) ->
  triple P (transaction a f) Q P.
Proof.
  intros H. unfold transaction. eapply triple_bind; [apply triple_fallible|]. intros [].
  eapply triple_bind; [apply triple_get|]. intros s. apply triple_pure_eq. intros Hs.
  intros w E. unfold andthen, of_outcome. destruct (f (tables s)) as [[x d']|e|m] eqn:Ef; cbn; rewrite E; [by apply H|done..].
Qed.
Lemma query_keeps {A} P a (f : Index -> outcome ShareFsError A) : keeps P (query a f).
Proof.
  unfold query. eapply triple_bind; [apply keeps_get|]. intros s. apply keeps_bind; [destruct (reads_fail s); auto with keeps|].
  intros []. apply keeps_outcome.
Qed.
(** Without a failure of its own a query succeeds when its function does. *)
Lemma query_run {A} a (f : Index -> outcome ShareFsError A) w :
  Inv (dir w) -> query a f w = (f (tables (dir w)), w).
Proof. intros I. unfold query, andthen, get. cbn. rewrite (inv_reads _ I). cbn. unfold of_outcome. by destruct (f _). Qed.

(** What a query returns when the tables are known. *)
Lemma triple_index_query {A} d a (f : Index -> outcome ShareFsError A) :
  triple (At d) (query a f) (fun x s => f d.1 = Ok x /\ At d s) (At d).
Proof. intros w A0. rewrite query_run by apply A0. destruct (At_index _ _ A0) as [-> _]. by destruct (f d.1). Qed.

(** ** Calls that do not touch the index *)
Definition same_view (f : Share -> Share) : Prop := forall s, view (f s) = view s /\ (Inv s -> Inv (f s)).
Lemma keeps_put_At d f : same_view f -> keeps (At d) (put f : op unit).
Proof. intros S. apply keeps_put. intros s [I E]. destruct (S s) as [Et If]. split; [by apply If|by rewrite Et]. Qed.
Lemma same_host_turn : same_view host_turn.
Proof.
  intros s. unfold host_turn. destruct (host s) as [|l rest] eqn:E; [done|]. split; [done|]. intros [V C R I B L H].
  rewrite E in H. apply Forall_cons in H as [H1 H2]. by constructor.
Qed.
Lemma same_staging f : same_view (fun s => s <| staging := f s |>).
Proof. intros s. split; [done|]. intros [V C R I B L H]. by constructor. Qed.
#[export] Hint Resolve query_keeps : keeps.
#[export] Hint Extern 1 (keeps (At _) (put host_turn)) => apply keeps_put_At, same_host_turn : keeps.
#[export] Hint Extern 1 (keeps (At _) (put (fun s => s <| staging := _ |>))) => apply keeps_put_At, same_staging : keeps.

(** Metadata read from the lower directory is within the range of its types. *)
Definition typed_access (a : Access) : Prop := match a with Found n => typed_meta (meta n) | _ => True end.
Lemma triple_on_path d p a : triple (At d) (on_path p a) (fun x s => typed_access x /\ At d s) (At d).
Proof.
  unfold on_path. eapply triple_bind; [apply triple_fallible|]. intros [].
  eapply triple_bind; [apply (keeps_put_At d), same_host_turn|]. intros []. eapply triple_bind; [apply triple_get|]. intros s.
  apply triple_ret. intros s' (-> & A). split; [|done]. destruct (at_path (lower s') p) eqn:E; [done..|].
  destruct A as [I _]. by eapply (proj1 (inv_lower _ I)).
Qed.
Lemma triple_on_descriptor d dev ino a : triple (At d) (on_descriptor dev ino a) (fun x s => typed_meta (meta x) /\ At d s) (At d).
Proof.
  unfold on_descriptor. eapply triple_bind; [apply triple_fallible|]. intros [].
  eapply triple_bind; [apply (keeps_put_At d), same_host_turn|]. intros []. eapply triple_bind; [apply triple_get|]. intros s.
  apply triple_ret. intros s' (-> & A). split; [|done]. destruct A as [I _]. by apply (proj2 (inv_lower _ I)).
Qed.
Lemma keeps_on_path d p a : keeps (At d) (on_path p a).
Proof. eapply triple_weaken; [apply triple_on_path|naive_solver..]. Qed.
Lemma keeps_on_descriptor d dev ino a : keeps (At d) (on_descriptor dev ino a).
Proof. eapply triple_weaken; [apply triple_on_descriptor|naive_solver..]. Qed.
#[export] Hint Resolve keeps_on_path keeps_on_descriptor : keeps.
Lemma triple_symlink_metadata d p a : triple (At d) (symlink_metadata p a) (fun m s => typed_meta m /\ At d s) (At d).
Proof.
  unfold symlink_metadata. eapply triple_bind; [apply triple_on_path|]. intros [| |n]; [apply triple_raise; naive_solver..|].
  by apply triple_ret.
Qed.
Lemma keeps_symlink_metadata d p a : keeps (At d) (symlink_metadata p a).
Proof. eapply triple_weaken; [apply triple_symlink_metadata|naive_solver..]. Qed.
Lemma keeps_optional_symlink_metadata d p a : keeps (At d) (optional_symlink_metadata p a).
Proof. unfold optional_symlink_metadata. walk. Qed.
Lemma keeps_open_read_only_file d p : keeps (At d) (open_read_only_file p).
Proof. unfold open_read_only_file. walk. Qed.
Lemma keeps_read_link_target d p a : keeps (At d) (read_link_target p a).
Proof. unfold read_link_target. walk. Qed.
Lemma keeps_directory_names d p a : keeps (At d) (directory_names p a).
Proof. unfold directory_names. walk. Qed.
Lemma keeps_sync_directory d : keeps (At d) sync_directory.
Proof. unfold sync_directory. walk. Qed.
Lemma keeps_object_contents d n a : keeps (At d) (object_contents n a).
Proof. unfold object_contents. walk. Qed.
Lemma keeps_get_node d i : keeps (At d) (get_node i).
Proof. apply query_keeps. Qed.
Lemma keeps_get_entry d p n : keeps (At d) (get_entry p n).
Proof. apply query_keeps. Qed.
Lemma keeps_get_entries d p : keeps (At d) (get_entries p).
Proof. apply query_keeps. Qed.
#[export] Hint Resolve keeps_symlink_metadata keeps_optional_symlink_metadata keeps_open_read_only_file
  keeps_read_link_target keeps_directory_names keeps_sync_directory keeps_object_contents keeps_get_node
  keeps_get_entry keeps_get_entries : keeps.
Lemma keeps_start_object d o : keeps (At d) (start_object o).
Proof. unfold start_object. walk. Qed.
Lemma keeps_remove_staged d o : keeps (At d) (remove_staged o).
Proof. unfold remove_staged. walk. Qed.
#[export] Hint Resolve keeps_start_object keeps_remove_staged : keeps.

Ltac as_inv := lazymatch goal with |- triple _ ?m _ _ => change (keeps Inv m) end.

Section operations.
Context (sha256 : bytes -> bytes) (sha256_len : forall b, len (sha256 b) = 32).

(** ** Leases are well-typed *)
Lemma land_mask m : fits u32_max (Z.land m LOGICAL_MODE_MASK) = true.
Proof.
  unfold fits, LOGICAL_MODE_MASK. change 4095 with (Z.ones 12). rewrite Z.land_ones by lia.
  pose proof (Z.mod_pos_bound m (2 ^ 12)). apply andb_true_iff. unfold u32_max. split; lia.
Qed.
Lemma typed_u32 x : fits u32_max (default 0 (u32_of x)) = true.
Proof. unfold u32_of. by destruct (fits u32_max x) eqn:E. Qed.
Lemma base_record_typed m k g : typed_meta m -> match g with Some g => len g = 32 | None => True end -> typed_lease (base_record m k g).
Proof.
  intros (Sz & De & In) G. unfold typed_lease, typed_time. cbn. split_and!; try done; try apply typed_u32.
  - by destruct k.
  - apply land_mask.
Qed.
Lemma triple_capture_lower_symlink d p :
  triple (At d) (capture_lower_symlink sha256 p) (fun r s => typed_lease r.1 /\ At d s) (At d).
Proof.
  unfold capture_lower_symlink. eapply triple_bind; [apply triple_symlink_metadata|]. intros m. apply triple_pure. intros T.
  eapply triple_bind; [apply keeps_outcome|]. intros k. case_match; [by apply triple_raise|].
  eapply triple_bind; [apply keeps_read_link_target|]. intros t. eapply triple_bind; [apply keeps_symlink_metadata|]. intros m'.
  case_match; [by apply triple_raise|]. apply triple_ret. intros s A. split; [|done]. by apply base_record_typed.
Qed.
Lemma keeps_capture_lower_symlink d p : keeps (At d) (capture_lower_symlink sha256 p).
Proof. eapply triple_weaken; [apply triple_capture_lower_symlink|naive_solver..]. Qed.
Hint Resolve keeps_capture_lower_symlink : keeps.
Lemma triple_capture_lower_entry d p c :
  triple (At d) (capture_lower_entry sha256 p c) (fun b s => typed_lease b /\ At d s) (At d).
Proof.
  unfold capture_lower_entry. eapply triple_bind; [apply triple_symlink_metadata|]. intros m. apply triple_pure. intros T.
  eapply triple_bind; [apply keeps_outcome|]. intros [].
  - eapply triple_bind; [apply keeps_open_read_only_file|]. intros [dev ino].
    eapply triple_bind; [apply keeps_on_descriptor|]. intros n1. case_match; [by apply triple_raise|].
    eapply triple_bind; [apply keeps_on_descriptor|]. intros n2.
    eapply (triple_bind (At d) _ _ (fun _ => At d)); [destruct c; as_keeps; walk|]. intros ?.
    eapply triple_bind; [apply keeps_on_descriptor|]. intros n3. eapply triple_bind; [apply keeps_symlink_metadata|]. intros m'.
    case_match; [by apply triple_raise|]. apply triple_ret. intros s A. split; [|done]. by apply base_record_typed.
  - eapply triple_bind; [apply keeps_symlink_metadata|]. intros m'. case_match; [by apply triple_raise|].
    apply triple_ret. intros s A. split; [|done]. by apply base_record_typed.
  - eapply triple_bind; [apply triple_capture_lower_symlink|]. intros [b t]. by apply triple_ret.
Qed.
Lemma keeps_capture_lower_entry d p c : keeps (At d) (capture_lower_entry sha256 p c).
Proof. eapply triple_weaken; [apply triple_capture_lower_entry|naive_solver..]. Qed.
Hint Resolve keeps_capture_lower_entry : keeps.

(** ** Reading *)
Lemma keeps_resolve_from d full walked u l names : keeps (At d) (resolve_from full walked u l names).
Proof.
  revert walked u l. induction names as [|nm names IH]; intros walked u l; cbn [resolve_from]; [walk|].
  apply keeps_bind; [walk|]. intros [e|]; [destruct (entry_state e)|destruct l]; walk; apply IH.
Qed.
Lemma keeps_resolve d p : keeps (At d) (resolve p).
Proof. unfold resolve. walk. apply keeps_resolve_from. Qed.
Hint Resolve keeps_resolve : keeps.
Lemma keeps_resolved_entry_kind d e p : keeps (At d) (resolved_entry_kind e p).
Proof. unfold resolved_entry_kind. walk. Qed.
Hint Resolve keeps_resolved_entry_kind : keeps.
Lemma keeps_ensure_absent d p : keeps (At d) (ensure_absent p).
Proof. unfold ensure_absent. walk. Qed.
Lemma keeps_require_directory d p : keeps (At d) (require_directory p).
Proof. unfold require_directory. walk. Qed.
Lemma keeps_lower_metadata d p l : keeps (At d) (lower_metadata p l).
Proof. unfold lower_metadata. walk. Qed.
Hint Resolve keeps_ensure_absent keeps_require_directory keeps_lower_metadata : keeps.
Lemma keeps_upper_metadata d p n : keeps (At d) (upper_metadata p n).
Proof. unfold upper_metadata. case_match; walk. Qed.
Hint Resolve keeps_upper_metadata : keeps.
Lemma keeps_metadata d p : keeps (At d) (metadata p).
Proof. unfold metadata. walk. Qed.
Lemma keeps_lower_entries d p l names acc : keeps (At d) (lower_entries p l names acc).
Proof. revert acc. induction names as [|nm names IH]; intros acc; cbn [lower_entries]; walk; apply IH. Qed.
Hint Resolve keeps_lower_entries : keeps.
Lemma keeps_read_lower_directory d p l : keeps (At d) (read_lower_directory p l).
Proof. unfold read_lower_directory. walk. Qed.
Lemma keeps_real_lower_directory d p : keeps (At d) (real_lower_directory p).
Proof. unfold real_lower_directory. walk. Qed.
Lemma keeps_apply_overrides d p es acc : keeps (At d) (apply_overrides p es acc).
Proof.
  revert acc. induction es as [|e es IH]; intros acc; cbn [apply_overrides]; [walk|]. destruct (entry_state e); walk; apply IH.
Qed.
Hint Resolve keeps_read_lower_directory keeps_real_lower_directory keeps_apply_overrides : keeps.
Lemma keeps_read_directory d p : keeps (At d) (read_directory p).
Proof. unfold read_directory. walk. Qed.
Lemma keeps_open_file d p : keeps (At d) (open_file p).
Proof. unfold open_file. walk. Qed.
Hint Resolve keeps_read_directory keeps_open_file : keeps.
Lemma keeps_read_file d p : keeps (At d) (read_file p).
Proof. unfold read_file. walk. Qed.
Lemma keeps_read_link d p : keeps (At d) (read_link p).
Proof. unfold read_link. walk. Qed.
Lemma keeps_version_for_node d n : keeps (At d) (version_for_node sha256 n).
Proof. unfold version_for_node. walk. Qed.
Lemma keeps_lower_matches_lease d p l : keeps (At d) (lower_matches_lease sha256 p l).
Proof. unfold lower_matches_lease. walk. Qed.
Hint Resolve keeps_read_file keeps_read_link keeps_version_for_node : keeps.

(** ** Copying up *)
Lemma triple_view {A} (F : View -> Prop) (m : op A) Q E :
  (forall d, F d -> triple (At d) m Q E) -> triple (fun s => Inv s /\ F (view s)) m Q E.
Proof. intros T w [I H]. by apply (T _ H). Qed.
Lemma triple_err {A} P (m : op A) Q (E E' : Share -> Prop) : triple P m Q E -> (forall s, E s -> E' s) -> triple P m Q E'.
Proof. intros T H. by eapply triple_weaken. Qed.
(** The invariant of the known tables. *)
Lemma triple_index {A} (d : View) (m : op A) Q E : (IndexInv d.1 -> triple (At d) m Q E) -> triple (At d) m Q E.
Proof. intros T w A0. apply T; [|done]. destruct (At_index _ _ A0) as [<- _]. apply A0. Qed.
Lemma At_view d (F : View -> Prop) s : F d -> At d s -> Inv s /\ F (view s).
Proof. by intros H [I <-]. Qed.
Lemma node_record d i n : IndexInv d -> node i d = Ok n ->
  node_id n = i /\ nodes d !! i = Some (node_row (node_value n)) /\ typed_node (node_value n).
Proof.
  intros I. unfold node. destruct (nodes d !! i) as [r|] eqn:E; [|done]. destruct (inv_node _ I _ _ E) as (_ & x & -> & T).
  rewrite decode_node_row by done. cbn. by intros [= <-].
Qed.
Lemma node_run d i n : nodes d !! i = Some (node_row n) -> typed_node n -> node i d = Ok {| node_id := i; node_value := n |}.
Proof. intros E T. unfold node. by rewrite E, decode_node_row. Qed.
Lemma node_dir d i n : nodes d !! i = Some (node_row n) -> n_kind n = Directory -> is_dir d i.
Proof. intros E K. exists (node_row n). split; [done|]. cbn. by rewrite K. Qed.

Lemma At_change v d' s :
  At v s -> IndexInv d' -> backed d' s -> At (d', v.2) (s <| db := (db s) <| index := d' |> |>).
Proof. intros [[V C R I B L H] <-] I' B'. split; [|done]. constructor; try done. Qed.
Definition has_object (n : NewNode) (ob : gmap bytes bytes) : Prop := forall o, object_name n = Some o -> is_Some (ob !! o).
Lemma triple_install v p nm n b :
  is_dir v.1 p -> typed_node n -> typed_base b -> has_object n v.2 ->
  triple (At v) (install p nm n b)
    (fun r s => exists i d', install_node p nm n b v.1 = Ok (i, d') /\ r = {| node_id := i; node_value := n |} /\ At (d', v.2) s)
    (At v).
Proof.
  intros Dp Tn Tb O. unfold install.
  eapply (triple_bind _ _ _ (fun i s => exists d', install_node p nm n b v.1 = Ok (i, d') /\ At (d', v.2) s)).
  - apply triple_index_transaction. intros s i d' A E. destruct (At_index _ _ A) as [Et Eo]. rewrite Et in E. exists d'. split; [done|].
    assert (I := inv_index _ (proj1 A)). rewrite Et in I. apply (At_change v); [done|by eapply install_node_inv|].
    apply install_node_spec in E as (_ & _ & ->). intros j r o Er Or. cbn [nodes] in Er. apply lookup_insert_Some in Er as [[<- <-]|[_ Er]].
    + rewrite Eo. by apply O.
    + apply (inv_backed _ (proj1 A) j r); [|done]. by rewrite Et.
  - intros i w (d' & E & A). unfold get_node. rewrite query_run by apply A. destruct (At_index _ _ A) as [-> _]. cbn [fst].
    rewrite (node_run d' i n); [|by apply install_node_spec in E as (_ & _ & ->); apply lookup_insert_eq|done]. by exists i, d'.
Qed.

(** What the tables keep while directories are copied up: their rows, and the name of
    an object in preparation stays free. *)
Definition grown (v0 : View) (o : option bytes) (v : View) : Prop :=
  extends v0.1 v.1 /\ v.2 = v0.2 /\ match o with Some o => unused o v.1 | None => True end.
Lemma install_unused p nm n b d i d' o :
  object_name n = None -> install_node p nm n b d = Ok (i, d') ->
  match o with Some o => unused o d | None => True end -> match o with Some o => unused o d' | None => True end.
Proof.
  intros N (_ & _ & ->)%install_node_spec U. destruct o as [o|]; [|done]. intros j r E. cbn in E.
  apply lookup_insert_Some in E as [[_ <-]|[_ E]]; [cbn; congruence|by apply (U j)].
Qed.
Definition located (d : Index) (p : path) (i : Z) : Prop := is_dir d i /\ walks (entries d) ROOT_NODE_ID p i.
Lemma located_extends d d' p i : extends d d' -> located d p i -> located d' p i.
Proof.
  intros X [D W]. split; [by eapply extends_dir|]. eapply walks_sub; [|done]. intros a nm c. by apply extends_edge.
Qed.
Lemma triple_ensure_reversed d0 o rp :
  triple (fun s => Inv s /\ grown d0 o (view s)) (ensure_reversed sha256 rp)
    (fun i s => Inv s /\ (grown d0 o (view s) /\ located (tables s) (rev rp) i))
    (fun s => Inv s /\ grown d0 o (view s)).
Proof.
  induction rp as [|nm rp IH]; cbn [ensure_reversed].
  - apply triple_ret. intros s [I G]. split; [done|]. split; [done|]. split; [apply (inv_root _ (inv_index _ I))|constructor].
  - eapply triple_bind; [apply IH|]. intros parent. cbn beta.
    apply (triple_view (fun d => grown d0 o d /\ located d.1 (rev rp) parent)). intros d [G [Dp Wp]].
    assert (Ed : forall s, At d s -> Inv s /\ grown d0 o (view s)) by (intros s; by apply (At_view d (grown d0 o))).
    apply (triple_err _ _ _ (At d)); [|exact Ed].
    eapply triple_bind; [apply triple_index_query|]. intros entry. apply triple_pure. intros Q. apply triple_index. intros Id.
    destruct entry as [e|].
    + apply query_entry_spec in Q as (_ & Ee & Te & Pe); [|done]. destruct (entry_state e) as [i|]; [|by apply triple_raise].
      eapply triple_bind; [apply triple_index_query|]. intros n. apply triple_pure. intros N.
      apply node_record in N as (<- & En & _); [|done]. case_bool_decide as K; [|by apply triple_raise].
      apply triple_ret. intros s A. apply (At_view d (fun d => grown d0 o d /\ located d.1 (rev (nm :: rp)) (node_id n))); [|done].
      split; [done|]. split; [by eapply node_dir|]. cbn. econstructor; [done|]. by eapply edge_row.
    + assert (Nn : entries d.1 !! (parent, nm) = None).
      { unfold query_entry in Q. destruct (entries d.1 !! _) as [r|] eqn:Er; [|done]. destruct (inv_entry _ Id _ _ _ Er) as (_ & x & b & -> & T & _).
        by rewrite decode_row_of in Q. }
      eapply triple_bind; [apply triple_capture_lower_entry|]. intros b. apply triple_pure. intros Tb. case_match; [by apply triple_raise|].
      set (n := {| n_kind := Directory |}). assert (Tn : typed_node n) by (split_and!; [apply Tb|apply Tb|done]).
      eapply triple_bind; [apply (triple_install d parent nm n (Some b)); [done..|by intros ? [= <-]|done]|].
      intros r. apply triple_exists. intros i. apply triple_exists. intros d'. apply triple_pure. intros E. apply triple_pure. intros ->.
      apply triple_ret. intros s A. apply (At_view (d', d.2) (fun d => grown d0 o d /\ located d.1 (rev (nm :: rp)) i)); [|done].
      pose proof (install_node_extends _ _ _ _ _ _ _ Nn E) as X. destruct G as (G1 & G2 & G3). split; [split_and!|].
      * etrans; [apply G1|done].
      * done.
      * by eapply install_unused; [|done|apply G3].
      * pose proof (install_node_spec _ _ _ _ _ _ _ E) as (_ & _ & Ed'). split.
        -- apply (node_dir d' i n); [rewrite Ed'; apply lookup_insert_eq|done].
        -- cbn. econstructor; [by apply (located_extends d.1)|]. apply (edge_row _ _ _ _ (Some b)). rewrite Ed'. apply lookup_insert_eq.
Qed.
Lemma triple_ensure_upper_directory d0 o p :
  triple (fun s => Inv s /\ grown d0 o (view s)) (ensure_upper_directory sha256 p)
    (fun i s => Inv s /\ (grown d0 o (view s) /\ located (tables s) p i))
    (fun s => Inv s /\ grown d0 o (view s)).
Proof.
  unfold ensure_upper_directory. pose proof (triple_ensure_reversed d0 o (rev p)) as T. by rewrite rev_involutive in T.
Qed.

(** ** From views to the invariant *)
Lemma keeps_view {A} (F : View -> Prop) (m : op A) : (forall v, keeps (At v) m) -> keeps (fun s => Inv s /\ F (view s)) m.
Proof.
  intros K. apply triple_view. intros v H. eapply triple_weaken; [apply K|done|intros ? s|intros s]; by apply At_view.
Qed.
Lemma keeps_inv {A} (m : op A) : (forall v, keeps (At v) m) -> keeps Inv m.
Proof. intros K. eapply triple_weaken; [apply (keeps_view (fun _ => True) m K)|done|naive_solver|naive_solver]. Qed.
Lemma inv_view s : Inv s -> At (view s) s.
Proof. done. Qed.
Lemma triple_inv {A} (m : op A) Q E : (forall v, triple (At v) m Q E) -> triple Inv m Q E.
Proof. intros T w I. by apply (T (view (dir w))). Qed.
(** A transaction that refers to no new object. *)
Definition no_new_object (d d' : Index) : Prop :=
  forall i r o, nodes d' !! i = Some r -> nr_object_name r = Some o -> exists j x, nodes d !! j = Some x /\ nr_object_name x = Some o.
Lemma backed_less d d' s : no_new_object d d' -> backed d s -> backed d' s.
Proof. intros N B i r o E O. destruct (N i r o E O) as (j & x & Ex & Ox). by eapply B. Qed.
Lemma triple_transaction_inv {A} v a (f : Index -> outcome ShareFsError (A * Index)) :
  (IndexInv v.1 -> forall x d', f v.1 = Ok (x, d') -> IndexInv d' /\ no_new_object v.1 d') ->
  triple (At v) (transaction a f) (fun x s => exists d', f v.1 = Ok (x, d') /\ At (d', v.2) s) (At v).
Proof.
  intros H. apply triple_index_transaction. intros s x d' A0 E. destruct (At_index _ _ A0) as [Et Eo]. rewrite Et in E.
  assert (I := inv_index _ (proj1 A0)). rewrite Et in I. destruct (H I x d' E) as [I' N]. exists d'. split; [done|].
  apply At_change; [done..|]. eapply backed_less; [done|]. rewrite <- Et. apply A0.
Qed.
Lemma keeps_transaction {A} a (f : Index -> outcome ShareFsError (A * Index)) :
  (forall d x d', IndexInv d -> f d = Ok (x, d') -> IndexInv d' /\ no_new_object d d') -> keeps Inv (transaction a f).
Proof.
  intros H. apply triple_inv. intros v. eapply triple_weaken; [apply triple_transaction_inv; intros; by eapply H|done| |].
  - by intros x s (d' & _ & ? & _).
  - by intros s [? _].
Qed.

(** ** Object files *)
Lemma Inv_objects s ob : Inv s -> (forall o, is_Some (objects s !! o) -> is_Some (ob !! o)) -> Inv (s <| objects := ob |>).
Proof. intros [V C R I B L H] S. constructor; try done. intros i r o E O. by apply S, (B i r). Qed.
Lemma Inv_publish o c s : Inv s -> Inv (publish o c s).
Proof.
  intros I. apply (Inv_objects (s <| staging := delete o (staging s) |>)); [|intros; by apply lookup_insert_is_Some'; right].
  destruct I. by constructor.
Qed.
Definition Fixed (d : Index) (s : Share) : Prop := Inv s /\ tables s = d.
Lemma triple_commit_object v o :
  triple (At v) (commit_object o) (fun _ s => Inv s /\ (tables s = v.1 /\ is_Some (objects s !! o))) (Fixed v.1).
Proof.
  assert (W : forall s, At v s -> Fixed v.1 s) by (intros s A0; split; [apply A0|exact (proj1 (At_index _ _ A0))]).
  unfold commit_object. do 3 (eapply triple_seq; [apply (triple_fallible (At v))|exact W|intros []]).
  eapply triple_seq; [apply triple_get|exact W|]. intros s. apply triple_pure_eq. intros A0.
  destruct (staging s !! o) as [c|]; [|apply triple_raise; intros s' ->; by apply W].
  eapply (triple_bind _ _ _ (fun _ s => Inv s /\ (tables s = v.1 /\ is_Some (objects s !! o)))).
  - apply triple_put. intros s' ->. split; [by apply Inv_publish, A0|]. split; [exact (proj1 (At_index _ _ A0))|].
    cbn. rewrite lookup_insert_eq. by eexists.
  - intros []. unfold sync_directory. eapply triple_weaken; [apply (triple_fallible (fun s => Inv s /\ (tables s = v.1 /\ is_Some (objects s !! o))))|done|done|].
    intros s' (I & E & _). done.
Qed.
Lemma triple_empty_object v o :
  triple (At v) (create_empty_object o) (fun _ s => Inv s /\ (tables s = v.1 /\ is_Some (objects s !! o))) (Fixed v.1).
Proof.
  unfold create_empty_object. eapply triple_seq; [apply keeps_start_object| |intros []; apply triple_commit_object].
  intros s A0. split; [apply A0|exact (proj1 (At_index _ _ A0))].
Qed.
Lemma triple_delete_object d o (e : ShareFsError) :
  unused o d -> keeps (Fixed d) (do! fallible e; put (fun s => s <| objects := delete o (objects s) |>) : op unit).
Proof.
  intros U. eapply triple_bind; [apply triple_fallible|]. intros []. apply triple_put. intros s [I E].
  split; [|done]. destruct I as [V C R I B L H]. constructor; try done. intros i r x Er Ex. cbn in Er.
  change (is_Some (delete o (objects s) !! x)). rewrite lookup_delete_ne; [by apply (B i r)|].
  intros <-. rewrite E in Er. by apply (U i r).
Qed.
Lemma triple_remove_file d o : unused o d -> triple (Fixed d) (remove_file_if_exists o) (fun _ => Fixed d) (Fixed d).
Proof. apply triple_delete_object. Qed.
Lemma triple_remove_objects d l : Forall (fun o => unused o d) l -> keeps (Fixed d) (remove_objects l).
Proof.
  induction 1 as [|o l U _ IH]; cbn [remove_objects]; [walk|]. apply keeps_bind; [by apply triple_remove_file|]. intros. apply IH.
Qed.
Lemma keeps_collect_garbage : keeps Inv collect_garbage.
Proof.
  unfold collect_garbage. apply triple_inv. intros v. apply triple_index. intros I. eapply triple_seq; [apply triple_transaction_inv| |].
  - intros _ x d' E. rewrite collect_spec in E by done. injection E as _ <-. split; [by apply collect_inv|].
    intros i r o Er O. cbn [nodes] in Er. apply kept_node_spec in Er as [Er _]. by exists i, r.
  - by intros s [? _].
  - intros gone. apply triple_exists. intros d'. apply triple_pure. intros E. rewrite collect_spec in E by done. injection E as <- <-.
    eapply triple_weaken; [apply (triple_remove_objects {| nodes := kept_nodes v.1; entries := kept_entries v.1 |})| | |].
    + apply Forall_forall. intros o Ho i r Er Or. by eapply collect_objects.
    + intros s A0. split; [apply A0|exact (proj1 (At_index _ _ A0))].
    + by intros _ s [? _].
    + by intros s [? _].
Qed.

(** ** Installing nodes *)
Lemma triple_install_or_discard v p nm n b o :
  object_name n = Some o -> is_dir v.1 p -> typed_node n -> typed_base b -> is_Some (v.2 !! o) -> unused o v.1 ->
  triple (At v) (install_or_discard p nm n b o) (fun _ => Inv) Inv.
Proof.
  intros On Dp Tn Tb Ob U. unfold install_or_discard. eapply triple_seq.
  - apply triple_attempt, (triple_install v p nm n b); [done..|]. intros x Ex. rewrite On in Ex. by injection Ex as <-.
  - by intros s [? _].
  - intros [r|e|m]; cbn beta iota.
    + apply triple_ret. by intros s (i & d' & _ & _ & ? & _).
    + eapply triple_seq; [eapply triple_weaken; [apply (triple_remove_file v.1 o U)| |intros a s H; exact H|intros s H; exact H]| |].
      * intros s A0. split; [apply A0|exact (proj1 (At_index _ _ A0))].
      * by intros s [? _].
      * intros []. apply triple_raise. by intros s [? _].
    + apply triple_panic. by intros s [? _].
Qed.
Lemma keeps_capture_staged v p o c : keeps (At v) (capture_staged sha256 p o c).
Proof. unfold capture_staged. walk. Qed.
Lemma triple_capture_staged v p o c :
  triple (At v) (capture_staged sha256 p o c) (fun b s => typed_lease b /\ At v s) (At v).
Proof.
  unfold capture_staged. eapply triple_bind; [apply triple_attempt, triple_capture_lower_entry|]. intros [b|e|m].
  - by apply triple_ret.
  - eapply triple_bind; [apply keeps_remove_staged|]. intros []. by apply triple_raise.
  - by apply triple_panic.
Qed.
(** The assertion of an operation that may create the object [o]. *)
Definition ready (o : bytes) (s : Share) : Prop := Inv s /\ unused o (tables s).
Lemma grown_refl o v : unused o v.1 -> grown v (Some o) v.
Proof. done. Qed.
(** A located parent, the object written. *)
Lemma triple_place v p o (k : Z -> op NodeRecord) :
  unused o v.1 -> is_Some (v.2 !! o) ->
  (forall v' i, is_dir v'.1 i -> is_Some (v'.2 !! o) -> unused o v'.1 -> triple (At v') (k i) (fun _ => Inv) Inv) ->
  triple (At v) (andthen (ensure_upper_directory sha256 p) k) (fun _ => Inv) Inv.
Proof.
  intros U Ob K. eapply triple_seq.
  - eapply triple_weaken; [apply (triple_ensure_upper_directory v (Some o) p)| |intros a s H; exact H|intros s H; exact H].
    intros s [I <-]. split; [done|]. by apply grown_refl.
  - by intros s [? _].
  - intros i. apply (triple_view (fun v' => grown v (Some o) v' /\ located v'.1 p i)). intros v' [(_ & Eo & U') [Di _]]. apply K; [done| |done]. by rewrite Eo.
Qed.
Lemma triple_materialize_regular_file o p c :
  triple (ready o) (materialize_regular_file sha256 o p c) (fun _ => Inv) Inv.
Proof.
  apply (triple_view (fun v => unused o v.1)). intros v U. unfold materialize_regular_file.
  assert (W : forall s, At v s -> Inv s) by by intros s [? _].
  eapply triple_seq; [apply keeps_resolve|exact W|]. intros [n|l].
  - case_match; [by apply triple_raise|by apply triple_ret].
  - eapply triple_seq; [apply keeps_symlink_metadata|exact W|]. intros m. eapply triple_seq; [apply keeps_outcome|exact W|]. intros k.
    case_match; [by apply triple_raise|]. eapply triple_seq; [apply keeps_start_object|exact W|]. intros [].
    eapply triple_seq; [apply triple_capture_staged|exact W|]. intros b. apply triple_pure. intros Tb.
    eapply triple_seq; [apply triple_commit_object|by intros s [? _]|]. intros [].
    apply (triple_view (fun v' => v'.1 = v.1 /\ is_Some (v'.2 !! o))). intros v' [E Ob]. eapply triple_seq; [apply keeps_outcome|by intros s [? _]|]. intros [parent name].
    apply triple_place with (o := o); [by rewrite E|done|]. intros v2 i Di Ob2 U2. apply triple_install_or_discard; try done.
    + split_and!; [apply Tb|apply Tb|by eexists].
    + by intros ? [= <-].
Qed.

(** ** Writing *)
Lemma no_new_same d d' : nodes d' = nodes d -> no_new_object d d'.
Proof. intros E i r o. rewrite E. by exists i, r. Qed.
Lemma no_new_update d i r r' :
  nodes d !! i = Some r -> nr_object_name r' = nr_object_name r -> no_new_object d (d <| nodes := <[i := r']> (nodes d) |>).
Proof.
  intros E O j x o Ex Ox. cbn in Ex. apply lookup_insert_Some in Ex as [[<- <-]|[_ Ex]]; [exists i, r; split; congruence|by exists j, x].
Qed.
Lemma keeps_mark i t : typed_time t -> keeps Inv (transaction "mark upper file content changed" (mark_content_changed i t)).
Proof.
  intros T. apply keeps_transaction. intros d [] d' I E. split; [by eapply mark_content_changed_inv|].
  unfold mark_content_changed in E. destruct (nodes d !! i) as [r|] eqn:Er; [|done]. case_match; [|done].
  injection E as <-. by apply (no_new_update d i r).
Qed.
Lemma keeps_set_node_mode i m t : typed_time t -> fits u32_max m = true -> keeps Inv (transaction "change upper node metadata" (set_node_mode i m t)).
Proof.
  intros T F. apply keeps_transaction. intros d [] d' I E. split; [by eapply set_node_mode_inv|].
  unfold set_node_mode in E. destruct (nodes d !! i) as [r|] eqn:Er; [|done]. injection E as <-. by apply (no_new_update d i r).
Qed.
Lemma keeps_put_objects g : (forall s o, is_Some (objects s !! o) -> is_Some (g s !! o)) -> keeps Inv (put (fun s => s <| objects := g s |>) : op unit).
Proof. intros G. apply keeps_put. intros s I. apply Inv_objects; [done|]. apply G. Qed.
Lemma alter_some {K A} `{Countable K} (f : A -> A) (i j : K) (m : gmap K A) : is_Some (m !! j) -> is_Some (alter f i m !! j).
Proof. by rewrite lookup_alter_is_Some. Qed.
Lemma keeps_open_object o a : keeps Inv (open_object o a).
Proof. unfold open_object, object_contents. walk. Qed.
Lemma keeps_write_all o off w n a : keeps Inv (write_all o off w n a).
Proof. unfold write_all. walk. apply keeps_put_objects. intros s x. apply alter_some. Qed.
Hint Resolve keeps_mark keeps_set_node_mode keeps_open_object keeps_write_all keeps_collect_garbage : keeps.
Lemma triple_write_file o t n p c : typed_time t -> triple (ready o) (write_file sha256 o t n p c) (fun _ => Inv) Inv.
Proof.
  intros T. unfold write_file. eapply triple_bind; [apply triple_materialize_regular_file|]. intros x. as_inv. walk.
  apply keeps_put_objects. intros s y ?. apply lookup_insert_is_Some'. by right.
Qed.
Lemma triple_write_at o t n p off c : typed_time t -> triple (ready o) (write_at sha256 o t n p off c) (fun _ => Inv) Inv.
Proof. intros T. unfold write_at. eapply triple_bind; [apply triple_materialize_regular_file|]. intros x. as_inv. walk. Qed.
Lemma triple_set_file_length o t p n : typed_time t -> triple (ready o) (set_file_length sha256 o t p n) (fun _ => Inv) Inv.
Proof.
  intros T. unfold set_file_length. eapply triple_bind; [apply triple_materialize_regular_file|]. intros x. as_inv. walk.
  apply keeps_put_objects. intros s y. apply alter_some.
Qed.
Lemma keeps_ready {A} o (m : op A) : (forall v, keeps (At v) m) -> keeps (ready o) m.
Proof. intros K. by apply (keeps_view (fun v => unused o v.1)). Qed.
Lemma ready_inv o s : ready o s -> Inv s.
Proof. by intros [? _]. Qed.
Lemma triple_write_file_if_revision o t n p e c :
  typed_time t -> triple (ready o) (write_file_if_revision sha256 o t n p e c) (fun _ => Inv) Inv.
Proof.
  intros T. unfold write_file_if_revision. eapply triple_seq; [apply keeps_ready; auto with keeps|apply ready_inv|]. intros x.
  case_match; [apply triple_ret; apply ready_inv|]. eapply triple_bind; [by apply triple_write_file|]. intros []. by apply triple_ret.
Qed.

(** ** Creating *)
(** A located parent and what its entry holds. *)
Lemma triple_parent {A} p name (k : Z -> option EntryRecord -> op A) :
  (forall v i e, is_dir v.1 i -> typed_base (e ≫= base) -> triple (At v) (k i e) (fun _ => Inv) Inv) ->
  triple Inv (do i <- ensure_upper_directory sha256 p; do e <- get_entry i name; k i e) (fun _ => Inv) Inv.
Proof.
  intros K. apply triple_inv. intros v. eapply triple_seq.
  - eapply triple_weaken; [apply (triple_ensure_upper_directory v None p)| |intros a s H; exact H|intros s H; exact H].
    intros s [I <-]. done.
  - by intros s [? _].
  - intros i. apply (triple_view (fun v' => grown v None v' /\ located v'.1 p i)). intros v' [_ [Di _]].
    apply triple_index. intros I. eapply triple_seq; [apply triple_index_query|by intros s [? _]|]. intros e. apply triple_pure. intros Q.
    apply K; [done|]. destruct e as [e|]; [|done]. by apply query_entry_spec in Q as (_ & _ & ? & _).
Qed.
Lemma keeps_install v p nm n b :
  object_name n = None -> is_dir v.1 p -> typed_node n -> typed_base b -> triple (At v) (install p nm n b) (fun _ => Inv) Inv.
Proof.
  intros N Dp Tn Tb. eapply triple_weaken; [apply triple_install; try done|done|by intros r s (? & ? & _ & _ & ? & _)|by intros s [? _]].
  intros o. congruence.
Qed.
Lemma keeps_create_directory t p m : typed_time t -> fits u32_max m = true -> keeps Inv (create_directory sha256 t p m).
Proof.
  intros T F. unfold create_directory. apply keeps_bind; [apply keeps_inv; auto with keeps|]. intros [].
  apply keeps_bind; [apply keeps_outcome|]. intros [parent name]. apply triple_parent. intros v i e Di Te.
  eapply triple_bind; [by apply keeps_install|]. intros ?. apply keeps_collect_garbage.
Qed.
Lemma keeps_create_symlink t p tg : typed_time t -> keeps Inv (create_symlink sha256 t p tg).
Proof.
  intros T. unfold create_symlink. apply keeps_bind; [apply keeps_inv; auto with keeps|]. intros [].
  apply keeps_bind; [apply keeps_outcome|]. intros [parent name]. apply triple_parent. intros v i e Di Te.
  eapply triple_bind; [apply keeps_install; [done..| |done]; split_and!; [done..|by eexists]|].
  intros ?. apply keeps_collect_garbage.
Qed.
Lemma triple_create_file o t p m : typed_time t -> fits u32_max m = true -> triple (ready o) (create_file sha256 o t p m) (fun _ => Inv) Inv.
Proof.
  intros T F. unfold create_file. eapply triple_seq; [apply keeps_ready; auto with keeps|apply ready_inv|]. intros [].
  eapply triple_seq; [apply keeps_outcome|apply ready_inv|]. intros [parent name].
  apply (triple_view (fun v => unused o v.1)). intros v U. eapply triple_seq.
  - eapply triple_weaken; [apply (triple_ensure_upper_directory v (Some o) parent)| |intros a s H; exact H|intros s H; exact H].
    intros s [I <-]. done.
  - by intros s [? _].
  - intros i. apply (triple_view (fun v' => grown v (Some o) v' /\ located v'.1 parent i)). intros v1 [(_ & _ & U1) [Di _]].
    apply triple_index. intros I. eapply triple_seq; [apply triple_index_query|by intros s [? _]|]. intros e. apply triple_pure. intros Q.
    assert (Tb : typed_base (e ≫= base)) by (destruct e as [e|]; [by apply query_entry_spec in Q as (_ & _ & ? & _)|done]).
    eapply triple_seq; [apply triple_empty_object|by intros s [? _]|]. intros [].
    apply (triple_view (fun v' => v'.1 = v1.1 /\ is_Some (v'.2 !! o))). intros v2 [E Ob].
    eapply triple_bind; [apply triple_install_or_discard; rewrite ?E; try done|].
    + split_and!; [done..|by eexists].
    + intros ?. apply keeps_collect_garbage.
Qed.

(** ** Removing and renaming *)
Lemma remove_entry_nodes p nm b d d' u : remove_entry p nm b d = Ok (u, d') -> nodes d' = nodes d.
Proof.
  destruct b as [b|]; cbn; [|by intros [= _ <-]]. destruct (put_whiteout p nm b d) as [x| |] eqn:E; [|done..].
  intros [= _ <-]. by apply put_entry_Ok in E as ->.
Qed.
Lemma rename_entry_nodes sp sn dp dn b d d' u : rename_entry sp sn dp dn b d = Ok (u, d') -> nodes d' = nodes d.
Proof.
  unfold rename_entry. destruct (query_entry sp sn d) as [[e|]| |]; [|done..]. cbn [obind]. destruct (entry_state e) as [i|]; [|done].
  destruct (match base e with Some _ => _ | None => _ end) as [d1| |] eqn:V; [|done..]. cbn [obind]. unfold put_present_entry.
  destruct (put_entry dp dn _ _ b d1) as [d2| |] eqn:P; [|done..]. intros [= _ <-]. apply put_entry_Ok in P as ->. cbn.
  destruct (base e); [by apply put_entry_Ok in V as ->|by injection V as <-].
Qed.
Lemma keeps_remove p : keeps Inv (remove sha256 p).
Proof.
  unfold remove. apply keeps_bind; [apply keeps_inv; auto with keeps|]. intros e.
  apply keeps_bind; [apply keeps_inv; intros; walk|]. intros k. apply keeps_bind; [apply keeps_inv; intros; walk|]. intros [].
  apply keeps_bind; [apply keeps_outcome|]. intros [parent name]. apply triple_parent. intros v i x Di Tx.
  eapply (triple_seq _ _ _ (fun b s => typed_base b /\ At v s) _ _ (At v)); [|by intros s [? _]|].
  - destruct x as [x|]; [by apply triple_ret|]. eapply triple_bind; [apply triple_capture_lower_entry|]. intros b.
    apply triple_ret. intros s [Tb A0]. split; [|done]. by intros ? [= <-].
  - intros b. apply triple_pure. intros Tb. eapply triple_seq; [apply triple_transaction_inv|by intros s [? _]|].
    + intros I [] d' E. split; [by eapply remove_entry_inv|]. by eapply no_new_same, remove_entry_nodes.
    + intros []. eapply triple_weaken; [apply keeps_collect_garbage|by intros s (? & _ & ? & _)|done..].
Qed.
Lemma keeps_materialize_lower_symlink p : keeps Inv (materialize_lower_symlink sha256 p).
Proof.
  unfold materialize_lower_symlink. apply triple_inv. intros v.
  eapply triple_seq; [apply triple_capture_lower_symlink|by intros s [? _]|]. intros [b t]. apply triple_pure. cbn [fst]. intros Tb.
  eapply triple_seq; [apply keeps_outcome|by intros s [? _]|]. intros [parent name]. eapply triple_seq.
  - eapply triple_weaken; [apply (triple_ensure_upper_directory v None parent)| |intros a s H; exact H|intros s H; exact H].
    intros s [I <-]. done.
  - by intros s [? _].
  - intros i. apply (triple_view (fun v' => grown v None v' /\ located v'.1 parent i)). intros v' [_ [Di _]].
    apply keeps_install; [done..| |by intros ? [= <-]]. split_and!; [apply Tb|apply Tb|by eexists].
Qed.
Lemma triple_materialize_rename_source o p : triple (ready o) (materialize_rename_source sha256 o p) (fun _ => Inv) Inv.
Proof.
  unfold materialize_rename_source. eapply triple_seq; [apply keeps_ready; auto with keeps|apply ready_inv|]. intros [n|l].
  - apply triple_ret. apply ready_inv.
  - eapply triple_seq; [apply keeps_ready; auto with keeps|apply ready_inv|]. intros m.
    eapply triple_seq; [apply keeps_outcome|apply ready_inv|]. intros [].
    + apply triple_materialize_regular_file.
    + apply triple_raise. apply ready_inv.
    + eapply triple_weaken; [apply keeps_materialize_lower_symlink|apply ready_inv|done..].
Qed.
(** Copying up directories keeps the invariant and free object names. *)
Lemma triple_ensure_ready o p : keeps (ready o) (ensure_upper_directory sha256 p).
Proof.
  apply (triple_view (fun v => unused o v.1)). intros v U.
  eapply triple_weaken; [apply (triple_ensure_upper_directory v (Some o) p)|intros s [I <-]; done|..].
  - by intros i s (I & (_ & _ & ?) & _).
  - by intros s (I & _ & _ & ?).
Qed.
Lemma keeps_validate_rename_source o source r k : keeps (ready o) (validate_rename_source sha256 source r k).
Proof.
  unfold validate_rename_source. case_match; [apply keeps_ret|]. destruct r as [n|l]; [|apply keeps_raise].
  apply keeps_bind; [apply keeps_outcome|]. intros [parent name]. apply keeps_bind; [apply triple_ensure_ready|]. intros i.
  apply keeps_bind; [apply keeps_ready; auto with keeps|]. intros [e|]; walk.
Qed.
Lemma keeps_validate_rename_destination v dst k : keeps (At v) (validate_rename_destination dst k).
Proof. unfold validate_rename_destination. walk. Qed.
Lemma path_starts_with_spec p q : path_starts_with p q = true <-> exists r, q = p ++ r.
Proof.
  revert q. induction p as [|a p IH]; intros q; cbn; [split; [by exists q|done]|].
  destruct q as [|b q]; [split; [done|by intros [r ?]]|]. rewrite andb_true_iff, bool_decide_eq_true, IH.
  split; [intros [-> [r ->]]; by exists r|intros [r [= -> ->]]; split; [done|by exists r]].
Qed.
Lemma split_parent_Ok p parent name : split_parent p = Ok (parent, name) -> p = parent ++ [name].
Proof.
  unfold split_parent. destruct (last p) as [x|] eqn:E; [|done]. intros [= <- <-].
  destruct (exists_last (l := p)) as (q & y & ->); [by intros ->|]. rewrite last_snoc in E. injection E as ->. by rewrite removelast_last.
Qed.
Lemma triple_rename o src dst : triple (ready o) (rename sha256 o src dst) (fun _ => Inv) Inv.
Proof.
  unfold rename. eapply triple_seq; [apply keeps_ready; auto with keeps|apply ready_inv|]. intros e.
  eapply triple_seq; [apply keeps_ready; auto with keeps|apply ready_inv|]. intros k.
  case_match; [apply triple_ret; apply ready_inv|]. destruct (path_starts_with src dst) eqn:Sw; [apply triple_raise; apply ready_inv|].
  eapply triple_seq; [apply keeps_validate_rename_source|apply ready_inv|]. intros [].
  eapply triple_seq; [apply keeps_ready; intros; apply keeps_validate_rename_destination|apply ready_inv|]. intros [].
  eapply triple_seq; [apply triple_outcome|apply ready_inv|]. intros [dparent dname]. apply triple_pure. intros Ed.
  eapply triple_seq; [apply keeps_ready; auto with keeps|apply ready_inv|]. intros [].
  eapply triple_bind; [apply triple_materialize_rename_source|]. intros n.
  eapply triple_bind; [apply triple_outcome|]. intros [sparent sname]. apply triple_pure. intros Es.
  apply split_parent_Ok in Ed, Es. apply triple_inv. intros v. eapply triple_seq.
  { eapply triple_weaken; [apply (triple_ensure_upper_directory v None sparent)|by intros s [I <-]|intros a s H'; exact H'|intros s H'; exact H']. }
  { by intros s [? _]. }
  intros si. apply (triple_view (fun v' => grown v None v' /\ located v'.1 sparent si)). intros v1 [_ Ls]. eapply triple_seq.
  { eapply triple_weaken; [apply (triple_ensure_upper_directory v1 None dparent)|by intros s [I <-]|intros a s H'; exact H'|intros s H'; exact H']. }
  { by intros s [? _]. }
  intros di. apply (triple_view (fun v' => grown v1 None v' /\ located v'.1 dparent di)). intros v2 [[X _] Ld].
  apply (located_extends _ _ _ _ X) in Ls. apply triple_index. intros I.
  eapply triple_seq; [apply triple_index_query|by intros s [? _]|]. intros de. apply triple_pure. intros Q.
  eapply (triple_seq _ _ _ (fun b s => typed_base b /\ At v2 s) _ _ (At v2)); [|by intros s [? _]|].
  - destruct de as [de|]; [apply triple_ret; intros s A0; split; [|done]; by apply query_entry_spec in Q as (_ & _ & ? & _)|].
    eapply triple_bind; [apply keeps_optional_symlink_metadata|]. intros [m|]; [|by apply triple_ret].
    eapply triple_bind; [apply triple_capture_lower_entry|]. intros b. apply triple_ret. intros s [Tb A0]. split; [|done]. by intros ? [= <-].
  - intros b. apply triple_pure. intros Tb. eapply triple_seq; [apply triple_transaction_inv|by intros s [? _]|].
    + intros _ [] d' E. split; [|by eapply no_new_same, rename_entry_nodes].
      eapply (rename_entry_inv si sname di dname b v2.1 d' tt sparent dparent); [done|apply Ld|done|apply Ls|apply Ld| |done].
      intros q Eq. apply not_true_iff_false in Sw. apply Sw, path_starts_with_spec. exists q. by rewrite Ed, Es, Eq, <- app_assoc.
    + intros []. eapply triple_weaken; [apply keeps_collect_garbage|by intros s (? & _ & ? & _)|done..].
Qed.
Lemma triple_set_mode o t p m : typed_time t -> fits u32_max m = true -> triple (ready o) (set_mode sha256 o t p m) (fun _ => Inv) Inv.
Proof.
  intros T F. unfold set_mode. eapply triple_seq; [apply keeps_ready; auto with keeps|apply ready_inv|]. intros e.
  eapply (triple_bind _ _ _ (fun _ => Inv)).
  - destruct e as [n|l]; [apply triple_ret; apply ready_inv|]. eapply triple_seq; [apply keeps_ready; auto with keeps|apply ready_inv|]. intros x.
    eapply triple_seq; [apply keeps_outcome|apply ready_inv|]. intros [].
    + apply triple_materialize_regular_file.
    + eapply triple_seq; [apply triple_ensure_ready|apply ready_inv|]. intros i.
      eapply triple_weaken; [apply keeps_inv; intros; apply (keeps_get_node v i)|apply ready_inv|done..].
    + apply triple_raise. apply ready_inv.
  - intros n. as_inv. case_match; [apply keeps_raise|]. by apply keeps_set_node_mode.
Qed.

(** ** Enumerating, synchronizing, clearing *)
Lemma keeps_collect_changes v n i p : keeps (At v) (collect_changes sha256 n i p).
Proof.
  revert i p. induction n as [|n IH]; intros i p; [apply keeps_panic|]. cbn [collect_changes].
  apply keeps_bind; [apply keeps_get_entries|]. intros es. induction es as [|e es IHes]; [apply keeps_ret|].
  apply keeps_bind; [|intros here; apply keeps_bind; [apply IHes|intros; apply keeps_ret]].
  destruct (entry_state e); walk; apply IH.
Qed.
Lemma keeps_changes v : keeps (At v) (changes sha256).
Proof. unfold changes. apply keeps_bind; [apply keeps_get|]. intros s.
  apply keeps_bind; [apply keeps_collect_changes|intros; apply keeps_ret]. Qed.
Lemma keeps_sync_objects v l : keeps (At v) (sync_objects l).
Proof. induction l as [|o l IH]; cbn [sync_objects]; walk; apply IH. Qed.
Lemma keeps_sync v : keeps (At v) sync.
Proof. unfold sync. walk. apply keeps_sync_objects. Qed.
Lemma keeps_snapshot v : keeps (At v) (snapshot sha256).
Proof. unfold snapshot. apply keeps_bind; [apply keeps_sync|]. intros []. apply keeps_changes. Qed.
Lemma keeps_clear : keeps Inv clear.
Proof.
  unfold clear. apply keeps_bind.
  - apply keeps_transaction. intros d [] d' I E. split; [by eapply clear_index_inv|].
    destruct (clear_index_spec d I) as (r & E' & Er). rewrite E' in E. injection E as <-. intros i x o Ex Ox. cbn in Ex.
    apply lookup_singleton_Some in Ex as [<- <-]. by exists ROOT_NODE_ID, r.
  - intros []. apply keeps_bind; [apply keeps_collect_garbage|]. intros []. apply keeps_inv, keeps_sync.
Qed.

(** ** Opening *)
Lemma elem_of_referenced d o : o ∈ referenced_objects d <-> exists i r, nodes d !! i = Some r /\ nr_object_name r = Some o.
Proof.
  unfold referenced_objects. rewrite sort_by_perm, list_elem_of_omap. split.
  - intros ([i r] & E%elem_of_map_to_list & O). by exists i, r.
  - intros (i & r & E & O). exists (i, r). split; [by apply elem_of_map_to_list|done].
Qed.
Lemma keeps_remove_orphans d found : keeps (Fixed d) (remove_orphans (referenced_objects d) found).
Proof.
  induction found as [|o l IH]; cbn [remove_orphans]; [apply keeps_ret|]. apply keeps_bind; [apply keeps_fallible|intros []]. apply keeps_bind; [|intros; apply IH].
  case_bool_decide as N; [apply keeps_ret|]. apply triple_delete_object. intros i r E O. apply N, elem_of_referenced. by exists i, r.
Qed.
Lemma keeps_clean_staging v l : keeps (At v) (clean_staging l).
Proof. induction l as [|o l IH]; cbn [clean_staging]; walk. Qed.
Lemma initialize_inv s : Inv s -> initialize_schema (db s) = Ok (db s).
Proof. intros I. unfold initialize_schema. by rewrite (inv_version _ I). Qed.
Lemma keeps_open_state v : keeps (At v) open_state.
Proof.
  unfold open_state. apply keeps_bind; [apply keeps_fallible|]. intros []. eapply triple_bind; [apply triple_get|]. intros s.
  apply triple_pure_eq. intros A0. eapply triple_weaken; [|intros s' Es; exact Es|intros a s' H; exact H|intros s' H; exact H].
  rewrite initialize_inv by apply A0. intros w E. unfold andthen, of_outcome, put. cbn. destruct s as [f ob st lo ho rf]. rewrite E. cbn.
  destruct (validate_schema f); done.
Qed.
Lemma keeps_validate_objects : keeps Inv validate_objects.
Proof.
  unfold validate_objects. apply triple_inv. intros v. eapply triple_seq; [apply triple_index_query|by intros s [? _]|]. intros l.
  apply triple_pure. intros [= <-]. eapply triple_seq; [apply triple_fallible|by intros s [? _]|]. intros [].
  eapply triple_seq; [apply keeps_get|by intros s [? _]|]. intros s. eapply triple_seq.
  - eapply triple_weaken; [apply keeps_remove_orphans| |intros a s' H; exact H|intros s' H; exact H].
    intros s' A0. split; [apply A0|exact (proj1 (At_index _ _ A0))].
  - by intros s' [? _].
  - intros []. case_bool_decide; [apply triple_ret|apply triple_raise]; by intros s' [? _].
Qed.
Lemma keeps_open : keeps Inv open.
Proof.
  unfold open. apply keeps_bind; [apply keeps_inv; intros v; unfold clean_staging_directory; walk; apply keeps_clean_staging|]. intros [].
  apply keeps_bind; [apply keeps_inv, keeps_open_state|]. intros []. apply keeps_bind; [apply keeps_collect_garbage|]. intros [].
  apply keeps_validate_objects.
Qed.
End operations.
