(* ===== verification/ShareProps.v ===== *)
(** * Properties of the share: recovery and enumeration

    Sequences of operations with failures and host edits, and what holds after them:
    the share can be opened again, and its changes can be enumerated and are exactly
    the overrides that its directories hold. *)

From S2P Require Import Prelude Lists Text Effects ShareTypes ShareIndex ShareFs ShareInv ShareKeeps.

(** ** Operations of [ShareFileSystem] and [FrozenShareFileSystem] *)
Inductive Operation :=
| OpMetadata (raw : bytes)
| OpReadDirectory (raw : bytes)
| OpReadFile (raw : bytes)
| OpReadLink (raw : bytes)
| OpWriteFile (fresh : bytes) (now : FileTime) (torn : nat) (raw contents : bytes)
| OpWriteFileIfRevision (fresh : bytes) (now : FileTime) (torn : nat) (raw expected contents : bytes)
| OpWriteAt (fresh : bytes) (now : FileTime) (torn : nat) (raw : bytes) (offset : Z) (contents : bytes)
| OpSetFileLength (fresh : bytes) (now : FileTime) (raw : bytes) (length : Z)
| OpCreateFile (fresh : bytes) (now : FileTime) (raw : bytes) (mode : Z)
| OpCreateDirectory (now : FileTime) (raw : bytes) (mode : Z)
| OpCreateSymlink (now : FileTime) (raw target : bytes)
| OpRemove (raw : bytes)
| OpRename (fresh source destination : bytes)
| OpSetMode (fresh : bytes) (now : FileTime) (raw : bytes) (mode : Z)
| OpChanges
| OpLowerMatchesLease (raw : bytes) (lease : LowerLease)
| OpSync
| OpSnapshot
| OpClear
| OpOpen.

Section operations.
Context (sha256 : bytes -> bytes).
Definition discard {A} (m : op A) : op unit := do! m; ret tt.
Definition on_raw (raw : bytes) {A} (k : path -> op A) : op unit :=
  do p <- of_outcome (normalize_non_root_path raw); discard (k p).
Definition masked (mode : Z) : Z := Z.land mode LOGICAL_MODE_MASK.
Definition exec (o : Operation) : op unit :=
  match o with
  | OpMetadata raw => do p <- of_outcome (normalize_path raw); discard (metadata p)
  | OpReadDirectory raw => do p <- of_outcome (normalize_path raw); discard (read_directory p)
  | OpReadFile raw => on_raw raw read_file
  | OpReadLink raw => on_raw raw read_link
  | OpWriteFile f t n raw c => on_raw raw (fun p => write_file sha256 f t n p c)
  | OpWriteFileIfRevision f t n raw e c => on_raw raw (fun p => write_file_if_revision sha256 f t n p e c)
  | OpWriteAt f t n raw off c => on_raw raw (fun p => write_at sha256 f t n p off c)
  | OpSetFileLength f t raw n => on_raw raw (fun p => set_file_length sha256 f t p n)
  | OpCreateFile f t raw m => on_raw raw (fun p => create_file sha256 f t p (masked m))
  | OpCreateDirectory t raw m => on_raw raw (fun p => create_directory sha256 t p (masked m))
  | OpCreateSymlink t raw target =>
      do p <- of_outcome (normalize_non_root_path raw);
      if contains 0 target then raise (InvalidPath target) else create_symlink sha256 t p target
  | OpRemove raw => on_raw raw (remove sha256)
  | OpRename f s d =>
      do src <- of_outcome (normalize_non_root_path s);
      do dst <- of_outcome (normalize_non_root_path d);
      rename sha256 f src dst
  | OpSetMode f t raw m => on_raw raw (fun p => set_mode sha256 f t p (masked m))
  | OpChanges => discard (changes sha256)
  | OpLowerMatchesLease raw l => on_raw raw (fun p => lower_matches_lease sha256 p l)
  | OpSync => sync
  | OpSnapshot => discard (snapshot sha256)
  | OpClear => clear
  | OpOpen => open
  end.

(** A clock reads nanoseconds below a second, and the random name of an object is not
    the name of one that exists. *)
Definition admissible (o : Operation) (s : Share) : Prop :=
  match o with
  | OpWriteFile f t _ _ _ | OpWriteFileIfRevision f t _ _ _ _ | OpWriteAt f t _ _ _ _ | OpSetFileLength f t _ _
  | OpCreateFile f t _ _ | OpSetMode f t _ _ => typed_time t /\ objects s !! f = None
  | OpCreateDirectory t _ _ | OpCreateSymlink t _ _ => typed_time t
  | OpRename f _ _ => objects s !! f = None
  | _ => True
  end.
(** One operation with whatever failures, or a change of the lower directory. *)
Inductive step (s : Share) : Share -> Prop :=
| step_op o fs : admissible o s -> step s (dir (exec o {| dir := s; faults := fs |}).2)
| step_host l : typed_lower l -> step s (s <| lower := l |>)
| step_meanwhile ls : Forall typed_lower ls -> step s (s <| host := ls |>).
(** A new share. *)
Definition created (l : Lower) : Share :=
  {| db := {| user_version := SCHEMA_VERSION; quick_check := true; index := initial_index |};
     objects := ∅; staging := ∅; lower := l; host := []; reads_fail := false |}.
Definition reachable (s : Share) : Prop := exists l, typed_lower l /\ rtc step (created l) s.
End operations.

(** ** Every reachable state satisfies the invariant *)
Lemma created_inv l : typed_lower l -> Inv (created l).
Proof.
  intros T. constructor; [reflexivity|reflexivity|reflexivity|apply initial_index_inv| |exact T|constructor].
  intros i r o E O. change (({[ROOT_NODE_ID := root_row]} : gmap Z NodeRow) !! i = Some r) in E. by apply lookup_singleton_Some in E as [<- <-].
Qed.
Lemma unused_new s f : Inv s -> objects s !! f = None -> unused f (tables s).
Proof. intros I N i r E O. destruct (inv_backed _ I i r f E O) as [c Ec]. congruence. Qed.
Lemma triple_discard {A} P (m : op A) (E : Share -> Prop) : triple P m (fun _ => E) E -> triple P (discard m) (fun _ => E) E.
Proof. intros T. eapply triple_bind; [exact T|]. intros a. by apply triple_ret. Qed.
Lemma triple_on_raw {A} P raw (k : path -> op A) :
  (forall s, P s -> Inv s) -> (forall p, triple P (k p) (fun _ => Inv) Inv) -> triple P (on_raw raw k) (fun _ => Inv) Inv.
Proof.
  intros W T. unfold on_raw. eapply triple_seq; [apply keeps_outcome|exact W|]. intros p. by apply triple_discard.
Qed.
Section reachability.
Context (sha256 : bytes -> bytes) (sha256_len : forall b, len (sha256 b) = 32).
Lemma keeps_operation o fs s :
  Inv s -> admissible o s -> Inv (dir (exec sha256 o {| dir := s; faults := fs |}).2).
Proof.
  intros I Ad.
  assert (K : forall m : op unit, keeps Inv m -> Inv (dir (m {| dir := s; faults := fs |}).2)) by (intros m Km; by apply keeps_after).
  assert (R : forall f (m : op unit), objects s !! f = None -> triple (ready f) m (fun _ => Inv) Inv -> Inv (dir (m {| dir := s; faults := fs |}).2)).
  { intros f m N T. specialize (T {| dir := s; faults := fs |}). destruct (m _) as [[] w']; apply T; by split; [|apply unused_new]. }
  assert (V : forall A (m : op A), (forall v, keeps (At v) m) -> keeps Inv (discard m)) by (intros A m Km; apply triple_discard, keeps_inv, Km).
  pose proof ready_inv as W. destruct o; cbn [exec]; cbn in Ad;
    first [ destruct Ad as [Tt Ad]; apply (R fresh); [exact Ad|] | apply (R fresh); [exact Ad|] | apply K ];
    try (apply triple_on_raw; [apply W|intros p]).
  - apply keeps_bind; [apply keeps_outcome|]. intros p. apply V. intros v. apply keeps_metadata.
  - apply keeps_bind; [apply keeps_outcome|]. intros p. apply V. intros v. apply keeps_read_directory.
  - apply (triple_on_raw Inv); [done|]. intros p. apply keeps_inv. intros v. apply keeps_read_file.
  - apply (triple_on_raw Inv); [done|]. intros p. apply keeps_inv. intros v. apply keeps_read_link.
  - by apply triple_write_file.
  - by apply triple_write_file_if_revision.
  - by apply triple_write_at.
  - by apply triple_set_file_length.
  - apply triple_create_file; [done..|]. apply land_mask.
  - apply (triple_on_raw Inv); [done|]. intros p. apply keeps_create_directory; [done..|]. apply land_mask.
  - apply keeps_bind; [apply keeps_outcome|]. intros p. case_match; [apply keeps_raise|]. by apply keeps_create_symlink.
  - apply (triple_on_raw Inv); [done|]. intros p. by apply keeps_remove.
  - eapply triple_seq; [apply keeps_outcome|apply W|]. intros src. eapply triple_seq; [apply keeps_outcome|apply W|]. intros dst.
    by apply triple_rename.
  - apply triple_set_mode; [done..|]. apply land_mask.
  - apply V. intros v. apply keeps_changes.
  - apply (triple_on_raw Inv); [done|]. intros p. apply keeps_inv. intros v. by apply keeps_lower_matches_lease.
  - apply keeps_inv, keeps_sync.
  - apply V. intros v. apply keeps_snapshot.
  - apply keeps_clear.
  - apply keeps_open.
Qed.
Lemma step_inv s s' : Inv s -> step sha256 s s' -> Inv s'.
Proof.
  intros I [o fs Ad|l T|ls T]; [by apply keeps_operation|destruct I; by constructor..].
Qed.
Lemma share_inv s : reachable sha256 s -> Inv s.
Proof.
  intros (l & T & R). apply created_inv in T. revert T. induction R as [s|s s1 s' St R IH]; [done|].
  intros I. by eapply IH, step_inv.
Qed.
End reachability.

(** ** Opening succeeds *)
Definition exactly_referenced (s : Share) : Prop := forall o, is_Some (objects s !! o) <-> o ∈ referenced_objects (tables s).
Lemma succeeds_clean_staging l : succeeds Inv (clean_staging l).
Proof.
  induction l as [|o l IH]; cbn [clean_staging]; [apply succeeds_ret|].
  eapply succeeds_bind; [apply succeeds_fallible|apply (keeps_fallible Inv)|]. intros [].
  eapply (succeeds_bind _ _ _ (fun _ => Inv) Inv); [apply succeeds_put| |intros []; exact IH].
  apply keeps_inv. intros v. apply keeps_put_At, same_staging.
Qed.
Lemma succeeds_remove_objects d l : Forall (fun o => unused o d) l -> succeeds (Fixed d) (remove_objects l).
Proof.
  induction 1 as [|o l U _ IH]; cbn [remove_objects]; [apply succeeds_ret|].
  eapply (succeeds_bind _ _ _ (fun _ => Fixed d) (Fixed d)); [|by apply triple_remove_file|intros []; exact IH]. unfold remove_file_if_exists.
  eapply succeeds_bind; [apply succeeds_fallible|apply (keeps_fallible (Fixed d))|]. intros []. apply succeeds_put.
Qed.
Lemma transaction_run {A} a (f : Index -> outcome ShareFsError (A * Index)) w x d' :
  faults w = [] -> f (tables (dir w)) = Ok (x, d') ->
  transaction a f w = (Ok x, {| dir := (dir w) <| db := (db (dir w)) <| index := d' |> |>; faults := [] |}).
Proof.
  intros F E. unfold transaction, fallible, andthen, next_fault. rewrite F. cbn. unfold of_outcome. rewrite E. cbn. by rewrite F.
Qed.
Lemma succeeds_collect_garbage : succeeds Inv collect_garbage.
Proof.
  intros w F I. unfold collect_garbage, andthen.
  erewrite transaction_run by (done || by apply collect_spec, (inv_index _ I)).
  apply succeeds_remove_objects with (d := {| nodes := kept_nodes (tables (dir w)); entries := kept_entries (tables (dir w)) |}).
  - apply Forall_forall. intros o Ho i r Er Or. eapply collect_objects; [apply (inv_index _ I)|done..].
  - done.
  - assert (A := inv_view _ I). split; [|done]. eapply (At_change (view (dir w))); [done|by apply collect_inv, (inv_index _ I)|].
    intros i r o Er Or. cbn [nodes] in Er. apply kept_node_spec in Er as [Er _]. by apply (inv_backed _ I i r).
Qed.
Lemma validate_schema_ok s : Inv s -> validate_schema (db s) = Ok tt.
Proof.
  intros I. unfold validate_schema. rewrite (inv_check _ I). cbn [negb]. destruct (inv_root _ (inv_index _ I)) as (r & E & K).
  rewrite E. cbn [option_map]. rewrite bool_decide_true by by rewrite K. cbn [negb].
  replace (foreign_keys_ok (tables s)) with true; [done|]. symmetry. apply forallb_forall. intros [[p nm] x] Ex%list_elem_of_In%elem_of_map_to_list.
  destruct (inv_entry _ (inv_index _ I) _ _ _ Ex) as (Dp & st & b & -> & _ & P). rewrite is_dir_references by done. cbn [andb].
  destruct st as [i|]; destruct b; cbn; try done; apply bool_decide_true; by destruct P.
Qed.
(** The objects that exist are among the referenced ones and those still to be looked at. *)
Definition among (l : list bytes) (s : Share) : Prop := forall o, is_Some (objects s !! o) -> o ∈ l.
Lemma triple_remove_orphans d l :
  triple (fun s => Fixed d s /\ among (referenced_objects d ++ l) s) (remove_orphans (referenced_objects d) l)
    (fun _ s => Fixed d s /\ among (referenced_objects d) s) (Fixed d).
Proof.
  induction l as [|x l IH]; cbn [remove_orphans].
  - apply triple_ret. intros s. by rewrite app_nil_r.
  - eapply triple_seq; [apply triple_fallible|by intros s [? _]|]. intros [].
    eapply (triple_bind _ _ _ (fun _ s => Fixed d s /\ among (referenced_objects d ++ l) s)); [|intros []; exact IH].
    case_bool_decide as N.
    + apply triple_ret. intros s (Fx & S). split; [done|]. intros o Ho. specialize (S o Ho). set_solver.
    + assert (T : triple (among (referenced_objects d ++ x :: l))
          (do! fallible (io_error "remove an orphaned upper object"); put (fun s => s <| objects := delete x (objects s) |>))
          (fun _ => among (referenced_objects d ++ l)) (fun _ => True)).
      { eapply triple_seq; [apply triple_fallible|done|]. intros []. apply triple_put. intros s S o [c Ec].
        change (delete x (objects s) !! o = Some c) in Ec. apply lookup_delete_Some in Ec as [Nx Ec]. specialize (S o (mk_is_Some _ _ Ec)). set_solver. }
      assert (U : unused x d) by (intros i r E O; apply N, elem_of_referenced; by exists i, r).
      eapply triple_weaken; [apply (triple_conj _ _ _ _ _ _ _ (triple_delete_object d x (io_error "remove an orphaned upper object") U) T)|..].
      * done.
      * by intros [] s.
      * by intros s [? _].
Qed.
Lemma succeeds_remove_orphans P r l : succeeds P (remove_orphans r l).
Proof.
  assert (S : forall w, faults w = [] -> exists u w', remove_orphans r l w = (Ok u, w') /\ faults w' = []); [|intros w F _; by apply S].
  induction l as [|x l IH]; intros w F; cbn [remove_orphans]; [by exists tt, w|].
  unfold andthen at 1. unfold fallible at 1, andthen at 1, next_fault at 1. rewrite F. cbn [ret]. unfold andthen at 1. case_bool_decide; cbn.
  - by apply IH.
  - unfold fallible, andthen, next_fault. rewrite F. cbn. by apply IH.
Qed.
Lemma triple_validate_objects : triple Inv validate_objects (fun _ s => Inv s /\ exactly_referenced s) Inv.
Proof.
  unfold validate_objects. apply triple_inv. intros v. eapply triple_seq; [apply triple_index_query|by intros s [? _]|]. intros l.
  apply triple_pure. intros [= <-]. eapply triple_seq; [apply triple_fallible|by intros s [? _]|]. intros [].
  eapply triple_seq; [apply triple_get|by intros s [? _]|]. intros s. apply triple_pure_eq. intros A0. destruct (At_index _ _ A0) as [Et Eo].
  eapply triple_seq; [eapply triple_weaken; [apply (triple_remove_orphans v.1 (map fst (map_to_list (objects s))))| |intros a s' H; exact H|intros s' H; exact H]| |].
  - intros s' ->. split; [split; [apply A0|done]|]. intros o [c Ec]. apply elem_of_app. right. apply list_elem_of_fmap.
    exists (o, c). split; [done|by apply elem_of_map_to_list].
  - by intros s' [? _].
  - intros []. case_bool_decide; [apply triple_ret|by apply triple_raise; intros s' [[? _] _]]. intros s' [[I E] S]. split; [done|].
    intros o. rewrite E. split; [apply S|]. intros (i & r & Er & Or)%elem_of_referenced. apply (inv_backed _ I i r); [by rewrite E|done].
Qed.
Lemma succeeds_validate_objects : succeeds Inv validate_objects.
Proof.
  intros w F I. unfold validate_objects, andthen at 1. rewrite query_run by done. cbn [fst snd].
  unfold andthen at 1, fallible at 1, andthen at 1, next_fault at 1. rewrite F. cbn [ret get]. unfold andthen at 1, get at 1.
  set (l := map fst (map_to_list (objects (dir w)))). destruct (succeeds_remove_orphans (fun _ => True) (referenced_objects (tables (dir w))) l w F) as (u & w' & E & F'); [done|].
  unfold andthen. rewrite E. rewrite bool_decide_true; [by exists tt, w'|]. apply Forall_forall. intros o (i & r & Er & Or)%elem_of_referenced.
  destruct (inv_backed _ I i r o Er Or) as [c Ec]. apply list_elem_of_fmap. exists (o, c). split; [done|by apply elem_of_map_to_list].
Qed.
Lemma succeeds_open : succeeds Inv open.
Proof.
  unfold open. eapply succeeds_bind; [|apply keeps_inv; intros v; unfold clean_staging_directory; walk; apply keeps_clean_staging|].
  { unfold clean_staging_directory. eapply succeeds_bind; [apply succeeds_fallible|apply (keeps_fallible Inv)|]. intros [].
    eapply succeeds_bind; [apply succeeds_get|apply keeps_get|]. intros s. apply succeeds_clean_staging. }
  intros []. eapply succeeds_bind; [|apply keeps_inv, keeps_open_state|].
  { intros w F I. unfold open_state, fallible, andthen, next_fault. rewrite F. cbn. unfold of_outcome. rewrite (initialize_inv _ I).
    rewrite (validate_schema_ok _ I). cbn. by eexists _, _. }
  intros []. eapply succeeds_bind; [apply succeeds_collect_garbage|apply keeps_collect_garbage|]. intros []. apply succeeds_validate_objects.
Qed.

(** ** What opening keeps *)
Definition collected (d : Index) : Index := {| nodes := kept_nodes d; entries := kept_entries d |}.
Lemma triple_fixed {A} d (m : op A) Q E : (forall v, v.1 = d -> triple (At v) m Q E) -> triple (Fixed d) m Q E.
Proof. intros T w [I Ed]. by apply (T (view (dir w))). Qed.
Lemma At_fixed v s : At v s -> Fixed v.1 s.
Proof. intros A0. split; [apply A0|exact (proj1 (At_index _ _ A0))]. Qed.
Lemma keeps_fixed {A} d (m : op A) : (forall v, keeps (At v) m) -> keeps (Fixed d) m.
Proof.
  intros K. apply triple_fixed. intros v <-. eapply triple_weaken; [apply K|done|intros a s; apply At_fixed|apply At_fixed].
Qed.
Lemma triple_collect_garbage d : triple (Fixed d) collect_garbage (fun _ => Fixed (collected d)) Inv.
Proof.
  apply triple_fixed. intros v <-. unfold collect_garbage. apply triple_index. intros I. eapply triple_seq; [apply triple_transaction_inv| |].
  - intros _ x d' E. rewrite collect_spec in E by done. injection E as _ <-. split; [by apply collect_inv|].
    intros i r o Er O. cbn [nodes] in Er. apply kept_node_spec in Er as [Er _]. by exists i, r.
  - by intros s [? _].
  - intros gone. apply triple_exists. intros d'. apply triple_pure. intros E. rewrite collect_spec in E by done. injection E as <- <-.
    eapply triple_weaken; [apply (triple_remove_objects (collected v.1))|intros s A0; by apply At_fixed in A0| |by intros s [? _]].
    + apply Forall_forall. intros o Ho i r Er Or. by eapply collect_objects.
    + done.
Qed.
Lemma keeps_validate_fixed d : keeps (Fixed d) validate_objects.
Proof.
  unfold validate_objects. apply triple_fixed. intros v <-. eapply triple_seq; [apply triple_index_query|apply At_fixed|]. intros l.
  apply triple_pure. intros [= <-]. eapply triple_seq; [apply triple_fallible|apply At_fixed|]. intros [].
  eapply triple_seq; [apply keeps_get|apply At_fixed|]. intros s. eapply triple_weaken; [|apply At_fixed|intros a s' H; exact H|intros s' H; exact H].
  apply keeps_bind; [apply keeps_remove_orphans|]. intros []. walk.
Qed.
Lemma triple_open d : triple (Fixed d) open (fun _ s => Fixed (collected d) s /\ exactly_referenced s) (fun _ => True).
Proof.
  unfold open. eapply triple_seq; [apply keeps_fixed; intros v; unfold clean_staging_directory; walk; apply keeps_clean_staging|done|]. intros [].
  eapply triple_seq; [apply keeps_fixed, keeps_open_state|done|]. intros []. eapply triple_seq; [apply triple_collect_garbage|done|]. intros [].
  eapply triple_weaken; [apply (triple_conj _ _ _ _ _ _ _ (keeps_validate_fixed (collected d)) triple_validate_objects)|..].
  - intros s Fx. split; [done|apply Fx].
  - by intros [] s [? [_ ?]].
  - done.
Qed.
Lemma keeps_fewer_objects ob : keeps (fun s => objects s ⊆ ob) open.
Proof.
  assert (D : forall o s, objects s ⊆ ob -> objects (s <| objects := delete o (objects s) |>) ⊆ ob).
  { intros o s S. etrans; [apply (delete_subseteq (objects s))|done]. }
  assert (Cs : forall l, keeps (fun s => objects s ⊆ ob) (clean_staging l)).
  { induction l as [|o l IH]; cbn [clean_staging]; walk; first [by apply keeps_put|apply keeps_put; apply D|apply IH]. }
  assert (Ro : forall l, keeps (fun s => objects s ⊆ ob) (remove_objects l)).
  { induction l as [|o l IH]; cbn [remove_objects]; unfold remove_file_if_exists; walk; first [by apply keeps_put|apply keeps_put; apply D|apply IH]. }
  assert (Rp : forall r l, keeps (fun s => objects s ⊆ ob) (remove_orphans r l)).
  { intros r l. induction l as [|o l IH]; cbn [remove_orphans]; walk; first [by apply keeps_put|apply keeps_put; apply D|apply IH]. }
  unfold open, clean_staging_directory, open_state, collect_garbage, transaction, validate_objects.
  walk; solve [apply Cs|apply Ro|apply Rp|by apply keeps_put].
Qed.

(** ** Recovery *)
(** C9: Crash safety of the private upper: after any sequence of operations, with any
    system calls and transactions failing (so also when the process stops in the middle
    of an operation) and the host editing the lower directory meanwhile, opening the
    share succeeds.  It finds every node and every override that a path from the root
    leads to and nothing else, with the contents of its files, and leaves no object
    file that nothing refers to. *)
Theorem share_recovers (sha256 : bytes -> bytes) (sha256_len : forall b, len (sha256 b) = 32) s :
  reachable sha256 s ->
  exists s', open {| dir := s; faults := [] |} = (Ok tt, {| dir := s'; faults := [] |})
    /\ (forall i r, nodes (tables s') !! i = Some r
                    <-> nodes (tables s) !! i = Some r /\ exists p, walks (entries (tables s)) ROOT_NODE_ID p i)
    /\ (forall i nm r, entries (tables s') !! (i, nm) = Some r
                    <-> entries (tables s) !! (i, nm) = Some r /\ exists p, walks (entries (tables s)) ROOT_NODE_ID p i)
    /\ (forall o, o ∈ referenced_objects (tables s') -> is_Some (objects s' !! o) /\ objects s' !! o = objects s !! o)
    /\ (forall o, is_Some (objects s' !! o) -> o ∈ referenced_objects (tables s')).
Proof.
  intros I%share_inv; [|done]. destruct (succeeds_open {| dir := s; faults := [] |} eq_refl I) as ([] & [s' fs] & E & F). cbn in F. subst fs.
  exists s'. split; [done|]. destruct (triple_use _ _ _ _ {| dir := s; faults := [] |} _ _ (triple_open (tables s)) (conj I eq_refl) E) as [[I' Et] Ex]. cbn in I', Et, Ex.
  pose proof (triple_use _ _ _ _ {| dir := s; faults := [] |} _ _ (keeps_fewer_objects (objects s)) (reflexivity _) E) as Sub. cbn in Sub.
  rewrite Et. split_and!.
  - intros i r. cbn. by rewrite kept_node_spec, reachable_spec by apply (inv_index _ I).
  - intros i nm r. cbn. by rewrite kept_entry_spec, reachable_spec by apply (inv_index _ I).
  - intros o Ho. rewrite <- Et in Ho. apply Ex in Ho as [c Ec]. split; [by exists c|]. rewrite Ec. symmetry. by eapply lookup_weaken.
  - intros o Ho. rewrite <- Et. by apply Ex.
Qed.

(** A lower directory given by the list of its paths. *)
Definition sample_node (t : FileType) (i : Z) (d : bytes) (c : list bytes) : LowerNode :=
  {| meta := {| file_type := t; m_dev := 1; m_ino := i; m_mode := 420; m_size := len d; m_mtime := 5; m_mtime_nsec := 6;
                m_ctime := 7; m_ctime_nsec := 8 |}; data := d; children := c |}.
Fixpoint find_path (t : list (path * LowerNode)) (p : path) : option LowerNode :=
  match t with
  | [] => None
  | (q, n) :: rest => if bool_decide (p = q) then Some n else find_path rest p
  end.
(** As the operating system does, a path through a regular file is refused. *)
Definition lower_of (t : list (path * LowerNode)) : Lower :=
  {| at_path p := match find_path t p with
                  | Some n => Found n
                  | None => match find_path t (removelast p) with
                            | Some n => if bool_decide (file_type (meta n) = FtFile) then Refused else Missing
                            | None => Missing
                            end
                  end;
     inode dev ino := match List.find (fun '(_, n) => (m_dev (meta n) =? dev) && (m_ino (meta n) =? ino)) t with
                      | Some (_, n) => n
                      | None => sample_node FtOther 0 [] []
                      end |}.
Definition typed_tree (t : list (path * LowerNode)) : bool :=
  forallb (fun '(_, n) => fits u64_max (m_size (meta n)) && fits u64_max (m_dev (meta n)) && fits u64_max (m_ino (meta n))) t.
Lemma lower_of_typed t : typed_tree t = true -> typed_lower (lower_of t).
Proof.
  unfold typed_tree. rewrite forallb_forall. intros F.
  assert (T : forall q n, In (q, n) t -> typed_meta (meta n)) by (intros q n H%F; by bool_prop).
  assert (G : forall p n, find_path t p = Some n -> exists q, In (q, n) t).
  { clear F T. induction t as [|[q m] t IH]; [done|]. intros p n. cbn. case_bool_decide; [intros [= <-]; exists q; by left|].
    intros [q' ?]%IH. exists q'. by right. }
  split.
  - intros p n. cbn. destruct (find_path t p) as [m|] eqn:E; [intros [= <-]; by apply G in E as [q ?%T]|].
    destruct (find_path t (removelast p)); [by case_bool_decide|done].
  - intros dev ino. cbn. destruct (List.find _ t) as [[q m]|] eqn:E; [|done]. by apply find_some in E as [?%T _].
Qed.
Definition sample_tree : list (path * LowerNode) :=
  [([], sample_node FtDirectory 1 [] [str "d"; str "f"]);
   ([str "f"], sample_node FtFile 2 (str "x") []);
   ([str "d"], sample_node FtDirectory 3 [] [str "e"]);
   ([str "d"; str "e"], sample_node FtDirectory 4 [] [str "g"]);
   ([str "d"; str "e"; str "g"], sample_node FtFile 5 (str "y") [])].
Definition sample : Share := created (lower_of sample_tree).
Lemma sample_tree_typed : typed_lower (lower_of sample_tree).
Proof. by apply lower_of_typed. Qed.
(** Thirty-two bytes of the argument. *)
Definition sample_digest (b : bytes) : bytes := take 32 (b ++ repeat 0 32).
Lemma sample_digest_len b : len (sample_digest b) = 32.
Proof. unfold sample_digest, len. rewrite length_take, length_app, repeat_length. lia. Qed.
Definition sample_time : FileTime := {| seconds := 9; nanoseconds := 0 |}.
(** A file is copied up, and the process stops before its node is stored. *)
Definition interrupted : Share :=
  dir (exec sample_digest (OpWriteAt (str "o1") sample_time 0 (str "d/e/g") 1 (str "z"))
         {| dir := sample; faults := repeat false 22 ++ repeat true 40 |}).2.
Lemma interrupted_reachable : reachable sample_digest interrupted.
Proof.
  exists (lower_of sample_tree). split; [apply sample_tree_typed|]. apply rtc_once. apply step_op. split; [done|]. reflexivity.
Qed.
Lemma share_recovers_witness :
  objects interrupted !! str "o1" = Some (str "y")
  /\ exists s', open {| dir := interrupted; faults := [] |} = (Ok tt, {| dir := s'; faults := [] |})
    /\ objects s' !! str "o1" = None.
Proof.
  split; [vm_compute; reflexivity|].
  destruct (share_recovers sample_digest sample_digest_len interrupted interrupted_reachable) as (s' & E & _ & _ & _ & Ex).
  exists s'. split; [exact E|]. destruct (objects s' !! str "o1") as [c|] eqn:Ec; [|reflexivity].
  specialize (Ex (str "o1") (mk_is_Some _ _ Ec)). exfalso.
  assert (X : s' = dir (open {| dir := interrupted; faults := [] |}).2) by (rewrite E; reflexivity).
  assert (N : bool_decide (str "o1" ∈ referenced_objects (tables (dir (open {| dir := interrupted; faults := [] |}).2))) = false)
    by (vm_compute; reflexivity).
  rewrite X in Ex. apply bool_decide_eq_false_1 in N. exact (N Ex).
Defined.
