(* ===== verification/ShareChanges.v ===== *)
(** * Enumeration of changes

    [changes] terminates, never panics, and reports exactly the overrides that the
    directories of the upper hold, however deeply they nest. *)

From S2P Require Import Prelude Lists Text Effects ShareTypes ShareIndex ShareFs ShareInv ShareKeeps ShareProps.

(** ** Runs

    [total v m Q]: from a state with the view [v], [m] ends with the same view, in a
    value satisfying [Q], or in an error when a call failed; it does not panic. *)
Definition total {A} (v : View) (m : op A) (Q : A -> Prop) : Prop :=
  forall w, At v (dir w) -> exists r w', m w = (r, w') /\ At v (dir w')
    /\ match r with Ok a => Q a | Err _ => faults w <> [] | Panic _ => False end
    /\ (faults w = [] -> faults w' = []).
Lemma total_ret {A} v (a : A) (Q : A -> Prop) : Q a -> total v (ret a) Q.
Proof. intros H w A0. by exists (Ok a), w. Qed.
Lemma total_bind {A B} v (m : op A) (k : A -> op B) Q R :
  total v m Q -> (forall a, Q a -> total v (k a) R) -> total v (andthen m k) R.
Proof.
  intros T K w A0. destruct (T w A0) as (r & w1 & E & A1 & H & F). unfold andthen. rewrite E. destruct r as [a|e|s]; [|by exists (Err e), w1|done].
  destruct (K a H w1 A1) as (r2 & w2 & E2 & A2 & H2 & F2). exists r2, w2. split_and!; [done..| |auto]. destruct r2; auto.
Qed.
Lemma total_weaken {A} v (m : op A) (Q Q' : A -> Prop) : total v m Q -> (forall a, Q a -> Q' a) -> total v m Q'.
Proof.
  intros T H w A0. destruct (T w A0) as (r & w1 & E & A1 & X & F). exists r, w1. split_and!; [done..| |done]. destruct r; auto.
Qed.
Lemma total_query {A} v a (f : Index -> outcome ShareFsError A) x (Q : A -> Prop) : f v.1 = Ok x -> Q x -> total v (query a f) Q.
Proof.
  intros E H w A0. exists (Ok x), w. rewrite query_run by apply A0. destruct (At_index _ _ A0) as [-> _]. by rewrite E.
Qed.
Lemma total_fallible v e (Q : unit -> Prop) : Q tt -> total v (fallible e) Q.
Proof.
  intros H [s [|[] fs]] A0; unfold fallible, andthen, next_fault; cbn in *.
  - by exists (Ok tt), {| dir := s; faults := [] |}.
  - by exists (Err e), {| dir := s; faults := fs |}.
  - by exists (Ok tt), {| dir := s; faults := fs |}.
Qed.
Lemma total_object v o a c (Q : bytes -> Prop) : v.2 !! o = Some c -> Q c -> total v (object_contents o a) Q.
Proof.
  intros E H. unfold object_contents. eapply total_bind; [by apply (total_fallible v _ (fun _ => True))|]. intros [] _ w A0.
  destruct (At_index _ _ A0) as [_ Eo]. unfold andthen, get. cbn. rewrite Eo, E. by exists (Ok c), w.
Qed.

(** ** The reference *)
Section changes.
Context (sha256 : bytes -> bytes).
(** The version of a node when the object files are [ob]. *)
Definition content_of (ob : gmap bytes bytes) (n : NewNode) : Z * option bytes :=
  match n_kind n with
  | File => let c := default [] (object_name n ≫= fun o => ob !! o) in (len c, Some (sha256 c))
  | Directory => (0, None)
  | Symlink => let t := default [] (symlink_target n) in (len t, Some (sha256 t))
  end.
Definition version_of (ob : gmap bytes bytes) (n : NewNode) : EntryVersion :=
  let '(size, digest) := content_of ob n in
  {| v_kind := n_kind n; v_size := size; v_mode := n_mode n; content_digest := digest |}.
(** What an override at the path [p] reports: a removal, or a node that is new, hides a
    directory or differs from the version it was copied from. *)
Definition reports (v : View) (p : path) (s : EntryState) (b : option LowerLease) (c : ShareChange) : Prop :=
  match s with
  | Whiteout => c = {| change_path := p; change_base := b; proposed := None; change_opaque := false |}
  | Present i => exists n, nodes v.1 !! i = Some (node_row n) /\ typed_node n
      /\ (forall l, b = Some l -> opaque n = true \/ version l <> version_of v.2 n)
      /\ c = {| change_path := p; change_base := b; proposed := Some (version_of v.2 n); change_opaque := opaque n |}
  end.
(** The changes below the directory [i], whose path is [p]. *)
Definition changed_below (v : View) (i : Z) (p : path) (c : ShareChange) : Prop :=
  exists q j nm s b, walks (entries v.1) i q j /\ entries v.1 !! (j, nm) = Some (row_of s b)
    /\ typed_base b /\ reports v (p ++ q ++ [nm]) s b c.

Lemma node_row_inj n n' : typed_node n -> typed_node n' -> node_row n = node_row n' -> n = n'.
Proof. intros T T' E. pose proof (decode_node_row 0 n T) as D. rewrite E, decode_node_row in D by done. by injection D. Qed.

(** ** Decomposition *)
Lemma walks_cons m i q j : walks m i q j -> (q = [] /\ i = j) \/ exists nm k q', q = nm :: q' /\ edge m i nm k /\ walks m k q' j.
Proof.
  induction 1 as [|q j nm k W [[-> <-]|(nm' & l & q' & -> & E & W')] Ed]; [by left|right..].
  - exists nm, k, []. split_and!; [done..|constructor].
  - exists nm', l, (q' ++ [nm]). split_and!; [done..|by econstructor].
Qed.
Lemma cons_walks m i nm k q j : edge m i nm k -> walks m k q j -> walks m i (nm :: q) j.
Proof. intros E W. apply (walks_app _ _ k _ [nm] q); [|done]. apply (walks_snoc _ _ [] i); [constructor|done]. Qed.
(** The changes of one entry of a directory. *)
Definition from_entry (v : View) (p : path) (e : EntryRecord) (c : ShareChange) : Prop :=
  reports v (join p (entry_name e)) (entry_state e) (base e) c
  \/ exists k, entry_state e = Present k /\ changed_below v k (join p (entry_name e)) c.
Definition has_row (d : Index) (i : Z) (e : EntryRecord) : Prop :=
  entries d !! (i, entry_name e) = Some (row_of (entry_state e) (base e)) /\ typed_base (base e).
Lemma edge_has_row d i nm k : IndexInv d -> edge (entries d) i nm k -> exists e, entry_name e = nm /\ entry_state e = Present k /\ has_row d i e.
Proof.
  intros I (r & E & St & Nd). destruct (inv_entry _ I _ _ _ E) as (_ & s & b & -> & T & _).
  exists {| entry_name := nm; entry_state := s; base := b |}. split_and!; [done| |done..]. destruct s, b; cbn in *; congruence.
Qed.
Lemma changed_below_entries v i p c : IndexInv v.1 -> changed_below v i p c <-> exists e, has_row v.1 i e /\ from_entry v p e c.
Proof.
  intros I. split.
  - intros (q & j & nm & s & b & W & E & T & R). apply walks_cons in W as [[-> <-]|(nm' & k & q' & -> & Ed & W)].
    + exists {| entry_name := nm; entry_state := s; base := b |}. split; [done|]. by left.
    + destruct (edge_has_row _ _ _ _ I Ed) as (e & <- & Es & H). exists e. split; [done|]. right. exists k. split; [done|].
      exists q', j, nm, s, b. split_and!; [done..|]. unfold join. by rewrite <- app_assoc.
  - intros (e & [E T] & [R|(k & Es & q & j & nm & s & b & W & E' & T' & R)]).
    + exists [], i, (entry_name e), (entry_state e), (base e). split_and!; [constructor|done..].
    + exists (entry_name e :: q), j, nm, s, b. split_and!; [|done..|].
      * eapply cons_walks; [|done]. rewrite Es in E. by eapply edge_row.
      * unfold join in R. by rewrite <- app_assoc in R.
Qed.
Lemma collect_all {E A B} (f : A -> outcome E B) (l : list A) :
  (forall x, x ∈ l -> is_ok (f x) = true) -> exists ys, collect f l = Ok ys /\ forall y, y ∈ ys <-> exists x, x ∈ l /\ f x = Ok y.
Proof.
  induction l as [|x l IH]; intros H; cbn; [exists []; split; [done|]; set_solver|].
  pose proof (H x ltac:(set_solver)) as Hx. destruct (f x) as [y| |] eqn:Ef; [|done..]. cbn.
  destruct IH as (ys & -> & Hy); [set_solver|]. exists (y :: ys). split; [done|]. intros z. rewrite elem_of_cons, Hy. split.
  - intros [->|(x' & ? & ?)]; [exists x|exists x']; set_solver.
  - intros (x' & [->|?]%elem_of_cons & E'); [left; congruence|right; by exists x'].
Qed.
Lemma entries_of_spec d i : IndexInv d -> exists es, entries_of i d = Ok es /\ forall e, e ∈ es <-> has_row d i e.
Proof.
  intros I. assert (R : forall nm r, (nm, r) ∈ rows_below i d <-> entries d !! (i, nm) = Some r).
  { intros nm r. unfold rows_below. rewrite sort_by_perm, list_elem_of_omap. split.
    - intros ([[p nm'] r'] & E%elem_of_map_to_list & H). destruct (p =? i) eqn:Ep; [|done]. apply Z.eqb_eq in Ep as ->. by injection H as -> ->.
    - intros E. exists ((i, nm), r). split; [by apply elem_of_map_to_list|]. by rewrite Z.eqb_refl. }
  assert (D : forall nm r, entries d !! (i, nm) = Some r -> exists s b, r = row_of s b /\ typed_base b
            /\ decode_entry nm r = Some {| entry_name := nm; entry_state := s; base := b |}).
  { intros nm r E. destruct (inv_entry _ I _ _ _ E) as (_ & s & b & -> & T & _). exists s, b. split_and!; [done..|]. by apply decode_row_of. }
  unfold entries_of. destruct (collect_all (fun '(name, r) => ok_or (decode_entry name r) (database_error "decode upper directory entries")) (rows_below i d)) as (es & E & H).
  - intros [nm r] (s & b & _ & _ & ->)%R%D. done.
  - exists es. split; [done|]. intros e. rewrite H. split.
    + intros ([nm r] & Er%R & Ed). destruct (D _ _ Er) as (s & b & -> & T & Ed'). rewrite Ed' in Ed. by injection Ed as <-.
    + intros [Er T]. exists (entry_name e, row_of (entry_state e) (base e)). split; [by apply R|]. rewrite decode_row_of by done. by destruct e.
Qed.

(** ** Termination *)
Definition backed_view (v : View) : Prop :=
  forall i r o, nodes v.1 !! i = Some r -> nr_object_name r = Some o -> is_Some (v.2 !! o).
Abbreviation down v := (fun a c : Z => child (entries v.1) c a).
Lemma no_cycle (R : Z -> Z -> Prop) x : Acc (fun c a => R a c) x -> ~ tc R x x.
Proof.
  induction 1 as [x _ IH]. intros T. inversion T as [? ? R1|? y ? R1 T1]; subst; [by apply (IH x R1)|].
  apply (IH y R1). by eapply tc_r.
Qed.
(** The directories above [i], from which it is reached. *)
Definition chain (v : View) (i : Z) (above : list Z) : Prop :=
  NoDup (i :: above) /\ Forall (fun a => is_Some (nodes v.1 !! a) /\ rtc (down v) a i) (i :: above).
Lemma chain_bound v i above : chain v i above -> (length (i :: above) <= size (nodes v.1))%nat.
Proof.
  intros [N F]. rewrite <- size_dom, <- (size_list_to_set (C := gset Z)) by done. apply subseteq_size.
  intros a Ha%elem_of_list_to_set. rewrite Forall_forall in F. apply elem_of_dom. by apply F.
Qed.
Lemma chain_down v i above nm k : IndexInv v.1 -> chain v i above -> edge (entries v.1) i nm k -> chain v k (i :: above).
Proof.
  intros I [N F] E. assert (C : child (entries v.1) k i) by by exists nm. rewrite Forall_forall in F. split.
  - apply NoDup_cons. split; [|done]. intros H. destruct (F k H) as [_ R].
    apply (no_cycle (down v) k); [apply (inv_acyclic _ I)|]. eapply tc_rtc_l; [done|]. by apply tc_once.
  - apply Forall_cons. split; [split; [by apply (edge_node _ _ _ _ I E)|done]|]. apply Forall_forall. intros a Ha.
    destruct (F a Ha). split; [done|]. by eapply rtc_r.
Qed.
Lemma version_total v n i : backed_view v -> typed_node n -> nodes v.1 !! i = Some (node_row n) ->
  total v (version_for_node sha256 {| node_id := i; node_value := n |}) (fun x => x = version_of v.2 n).
Proof.
  intros B (_ & _ & T) E. unfold version_for_node, version_of. cbn [node_value].
  eapply (total_bind _ _ _ (fun r => r = content_of v.2 n)).
  - unfold content_of. destruct (n_kind n) eqn:K.
    + destruct T as [o Eo]. destruct (B i _ o E Eo) as [c Ec]. rewrite Eo. cbn [object_path]. unfold object_path. rewrite Eo. cbn [ok_or mbind option_bind].
      rewrite Ec. cbn [default]. eapply (total_bind _ _ _ (fun x => x = o)); [intros w A0; by exists (Ok o), w|]. intros ? ->.
      eapply (total_bind _ _ _ (fun x => x = c)); [by eapply total_object|]. intros ? ->.
      eapply total_bind; [by apply (total_fallible v _ (fun _ => True))|]. intros [] _. by apply total_ret.
    + by apply total_ret.
    + destruct T as [_ [t Et]]. rewrite Et. cbn [ok_or default]. eapply (total_bind _ _ _ (fun x => x = t)); [intros w A0; by exists (Ok t), w|].
      intros ? ->. by apply total_ret.
  - intros [sz dg] Er. apply total_ret. by rewrite <- Er.
Qed.
Lemma collect_changes_total v depth i p above :
  IndexInv v.1 -> backed_view v -> chain v i above -> (size (nodes v.1) < depth + length (i :: above))%nat ->
  total v (collect_changes sha256 depth i p) (fun cs => forall c, c ∈ cs <-> changed_below v i p c).
Proof.
  intros I B. revert i p above. induction depth as [|depth IH]; intros i p above C S; [pose proof (chain_bound _ _ _ C); lia|].
  cbn [collect_changes]. destruct (entries_of_spec v.1 i I) as (es & E & Hes).
  eapply (total_bind _ _ _ (fun x => x = es)); [by eapply total_query|]. intros ? ->.
  eapply (total_weaken _ _ (fun cs => forall c, c ∈ cs <-> exists e, e ∈ es /\ from_entry v p e c)).
  2:{ intros cs H c. rewrite H, changed_below_entries by done. by setoid_rewrite Hes. }
  assert (Hr : forall e, e ∈ es -> has_row v.1 i e) by by (intros; apply Hes). clear E Hes.
  induction es as [|e es IHes]; [apply total_ret; intros c; split; [by intros ?%not_elem_of_nil|by intros (e & ?%not_elem_of_nil & _)]|].
  eapply (total_bind _ _ _ (fun cs => forall c, c ∈ cs <-> from_entry v p e c)).
  - destruct (Hr e ltac:(by left)) as [Er Tb]. clear IHes. unfold from_entry. destruct (entry_state e) as [k|] eqn:Es.
    + pose proof (edge_row _ _ _ _ _ Er) as Ed. destruct (edge_node _ _ _ _ I Ed) as (_ & [r Ek] & _).
      destruct (inv_node _ I _ _ Ek) as (_ & n & -> & Tn).
      eapply (total_bind _ _ _ (fun x => x = {| node_id := k; node_value := n |})); [eapply total_query; [by apply node_run|done]|]. intros ? ->.
      eapply total_bind; [by apply version_total|]. intros ? ->. cbn [node_value node_id].
      eapply (total_bind _ _ _ (fun cs => forall c, c ∈ cs <-> changed_below v k (join p (entry_name e)) c)).
      * case_bool_decide as K; [eapply IH; [by eapply chain_down|cbn [length] in *; lia]|]. apply total_ret. intros c. split; [by intros ?%not_elem_of_nil|].
        rewrite changed_below_entries by done. intros (e' & [Ee _] & _). destruct (inv_entry _ I _ _ _ Ee) as [(x & Ex & Kx) _].
        rewrite Ek in Ex. injection Ex as <-. destruct K. cbn in Kx. by destruct (n_kind n).
      * intros below Hb. apply total_ret. intros c. rewrite elem_of_app, Hb. f_equiv.
        -- cbn [reports]. split.
           ++ intros Hc. exists n. split_and!; [done..| |].
              ** intros l Eb. rewrite Eb in Hc. destruct (opaque n) eqn:O; [by left|]. right. case_bool_decide; [by apply not_elem_of_nil in Hc|done].
              ** clear IH. destruct (match base e with Some _ => _ | None => _ end); [by apply list_elem_of_singleton in Hc|by apply not_elem_of_nil in Hc].
           ++ intros (n' & En & Tn' & Hi & ->). rewrite Ek in En. assert (n' = n) as -> by by eapply node_row_inj; [..|congruence].
              replace (match base e with Some _ => _ | None => _ end) with true; [by apply list_elem_of_singleton|].
              destruct (base e) as [l|]; [|done]. destruct (Hi l eq_refl) as [->|N]; [done|]. by rewrite bool_decide_false, orb_true_r.
        -- split; [intros H; by exists k|intros (k' & [= <-] & H); done].
    + assert (is_Some (base e)) as [b Eb].
      { destruct (inv_entry _ I _ _ _ Er) as (_ & s & b & Eq & T & P). apply row_of_inj in Eq as [<- <-]; [done|done|done]. }
      rewrite Eb. cbn [ok_or]. eapply (total_bind _ _ _ (fun x => x = b)); [intros w A0; by exists (Ok b), w|]. intros ? ->.
      apply total_ret. intros c. cbn [reports]. rewrite list_elem_of_singleton. split; [by left|]. by intros [?|(k & ? & _)].
  - intros here Hh. eapply total_bind; [apply IHes; intros e' ?; apply Hr; by right|].
    clear IHes IH. intros others Ho. cbn beta in Ho. apply total_ret. intros c.
    rewrite elem_of_app, Hh, Ho. split; [intros [?|(e' & ? & ?)]; [exists e|exists e']; (split; [|done]); by constructor|].
    intros (e' & [->|?]%elem_of_cons & ?); [by left|right; by exists e'].
Qed.
End changes.

#[export] Instance change_before_comparison : Comparison change_before.
Proof.
  split; unfold change_before.
  - intros a b. apply cmp_total.
  - intros a b c. apply cmp_trans.
Qed.
Lemma sort_change_elem cs c : c ∈ sort_by change_before cs <-> c ∈ cs.
Proof. by rewrite sort_by_perm. Qed.
(** C24: Enumeration of changes is total and exact: in every state a share can reach,
    [changes] ends without a panic, and when no call fails it returns a list, ordered by
    path, of exactly the overrides that paths from the root lead to: each removal, and
    each node that is new, hides a directory or differs in kind, size, mode or digest
    from the version it was copied from. *)
Theorem changes_exact (sha256 : bytes -> bytes) (sha256_len : forall b, len (sha256 b) = 32) s fs :
  reachable sha256 s ->
  exists r w', changes sha256 {| dir := s; faults := fs |} = (r, w') /\ no_panic r /\ (fs = [] -> is_ok r = true)
    /\ forall cs, r = Ok cs ->
       (forall c, c ∈ cs <-> changed_below sha256 (view s) ROOT_NODE_ID [] c)
       /\ StronglySorted change_before cs.
Proof.
  intros I%share_inv; [|done]. pose proof (inv_index _ I) as Ix. assert (A0 := inv_view _ I).
  assert (T : total (view s) (changes sha256) (fun cs => exists l, cs = sort_by change_before l
              /\ forall c, c ∈ l <-> changed_below sha256 (view s) ROOT_NODE_ID [] c)).
  { unfold changes. eapply (total_bind _ _ _ (fun x => At (view s) x)); [intros w A1; by exists (Ok (dir w)), w|]. intros x A1.
    destruct (At_index _ _ A1) as [-> _]. eapply total_bind; [apply (collect_changes_total sha256 (view s) _ ROOT_NODE_ID [] [])|].
    - done.
    - intros i r o. apply (inv_backed _ I).
    - split; [apply NoDup_singleton|]. apply Forall_singleton. split; [|done]. destruct (inv_root _ Ix) as (r & E & _). by exists r.
    - cbn [length]. lia.
    - intros l H. apply total_ret. by exists l. }
  destruct (T {| dir := s; faults := fs |} A0) as (r & w' & E & _ & H & _). exists r, w'. split; [done|].
  destruct r as [cs|e|m]; [|done..]. split; [done|]. split; [done|]. intros ? [= <-]. destruct H as (l & -> & H). split.
  - intros c. by rewrite sort_change_elem.
  - apply sort_by_sorted. apply change_before_comparison.
Qed.
Definition edited : Share :=
  dir (exec sample_digest (OpWriteAt (str "o1") sample_time 0 (str "d/e/g") 1 (str "z")) {| dir := sample; faults := [] |}).2.
Lemma changes_exact_witness :
  exists cs w', changes sample_digest {| dir := edited; faults := [] |} = (Ok cs, w')
    /\ map change_path cs = [[str "d"; str "e"; str "g"]]
    /\ forall c, changed_below sample_digest (view edited) ROOT_NODE_ID [] c -> c ∈ cs.
Proof.
  assert (R : reachable sample_digest edited).
  { exists (lower_of sample_tree). split; [apply sample_tree_typed|]. apply rtc_once, step_op. split; [done|]. reflexivity. }
  destruct (changes_exact sample_digest sample_digest_len edited [] R) as (r & w' & E & _ & Ok_ & H).
  destruct r as [cs|e|m]; [|discriminate (Ok_ eq_refl)..]. exists cs, w'. split; [exact E|].
  destruct (H cs eq_refl) as [H1 _]. split; [|intros c; apply H1].
  assert (X : (changes sample_digest {| dir := edited; faults := [] |}).1 = Ok cs) by (rewrite E; reflexivity).
  vm_compute in X. injection X as <-. vm_compute. reflexivity.
Defined.
