(* ===== verification/ShareView.v ===== *)
(** * The merged view

    What a share shows while the host leaves the lower directory alone and no call
    fails: resolution and reading as functions of the tables, the object files and the
    lower directory, and how they depend on single overrides. *)

From S2P Require Import Prelude Lists Text Effects ShareTypes ShareIndex ShareFs ShareInv ShareKeeps.

(** ** Pure reading *)
Definition look (l : Lower) (p : path) (a : string) : outcome ShareFsError (option Metadata) :=
  match at_path l p with Found n => Ok (Some (meta n)) | Missing => Ok None | Refused => Err (io_error a) end.
Fixpoint view_from (d : Index) (l : Lower) (full walked : path) (u : option Z) (lp : option path) (names : path)
  : outcome ShareFsError ResolvedEntry :=
  match names with
  | [] => Err (NotFound (Merged full))
  | name :: rest =>
      let here := join walked name in
      let? entry := match u with Some parent => query_entry parent name d | None => Ok None end in
      match entry with
      | Some e =>
          match entry_state e with
          | Whiteout => Err (NotFound (Merged full))
          | Present i =>
              let? n := node i d in
              if bool_decide (rest = []) then Ok (Upper n)
              else if negb (bool_decide (n_kind (node_value n) = Directory)) then Err (NotDirectory here)
              else view_from d l full here (Some (node_id n))
                     (if merge_lower (node_value n) && negb (opaque (node_value n))
                      then option_map (fun parent => join parent name) lp else None) rest
          end
      | None =>
          match lp with
          | None => Err (NotFound (Merged full))
          | Some parent =>
              let? m := look l (join parent name) "inspect a lower share entry" in
              match m with
              | None => Err (NotFound (Merged full))
              | Some m =>
                  let? k := entry_kind m full in
                  if bool_decide (rest = []) then Ok (LowerPath (join parent name))
                  else if negb (bool_decide (k = Directory)) then Err (NotDirectory here)
                  else view_from d l full here None (Some (join parent name)) rest
              end
          end
      end
  end.
Definition view_at (d : Index) (l : Lower) (p : path) : outcome ShareFsError ResolvedEntry :=
  if bool_decide (p = []) then let? n := node ROOT_NODE_ID d in Ok (Upper n)
  else view_from d l p [] (Some ROOT_NODE_ID) (Some []) p.
(** What reading the resolved entry gives. *)
Definition contents_of (ob : gmap bytes bytes) (l : Lower) (p : path) (e : ResolvedEntry) : outcome ShareFsError bytes :=
  match e with
  | LowerPath lp =>
      match at_path l lp with
      | Found n =>
          let? k := entry_kind (meta n) p in
          if negb (bool_decide (k = File)) then Err (entry_type_error p (meta n)) else Ok (data n)
      | Missing => Err (NotFound (InLower lp))
      | Refused => Err (io_error "inspect a lower file")
      end
  | Upper n =>
      if negb (bool_decide (n_kind (node_value n) = File)) then Err (entry_type_error_for_kind p (n_kind (node_value n)))
      else
        let? o := object_path (node_value n) in
        ok_or (ob !! o) (io_error "open a share file")
  end.
Definition contents_at (d : Index) (ob : gmap bytes bytes) (l : Lower) (p : path) : outcome ShareFsError bytes :=
  let? e := view_at d l p in contents_of ob l p e.

(** ** Quiet runs *)
Definition quiet (w : World Share) : Prop := faults w = [] /\ host (dir w) = [] /\ Inv (dir w).
(** A descriptor shows what its path showed. *)
Definition coherent (l : Lower) : Prop := forall p n, at_path l p = Found n -> inode l (m_dev (meta n)) (m_ino (meta n)) = n.
Lemma fallible_run e (w : World Share) : faults w = [] -> fallible e w = (Ok tt, w) :> outcome ShareFsError unit * World Share.
Proof. intros F. unfold fallible, andthen, next_fault. by rewrite F. Qed.
Lemma andthen_run {A B} (m : op A) (k : A -> op B) w r : m w = (r, w) ->
  andthen m k w = match r with Ok a => k a w | Err e => (Err e, w) | Panic s => (Panic s, w) end.
Proof. intros E. unfold andthen. rewrite E. by destruct r. Qed.
Lemma on_path_run p a w : quiet w -> on_path p a w = (Ok (at_path (lower (dir w)) p), w).
Proof.
  intros (F & H & _). unfold on_path, andthen. rewrite fallible_run by done. unfold put, get, ret. cbn.
  unfold host_turn. rewrite H. by destruct w.
Qed.
Lemma on_descriptor_run dev ino a w : quiet w -> on_descriptor dev ino a w = (Ok (inode (lower (dir w)) dev ino), w).
Proof.
  intros (F & H & _). unfold on_descriptor, andthen. rewrite fallible_run by done. unfold put, get, ret. cbn.
  unfold host_turn. rewrite H. by destruct w.
Qed.
Lemma query_quiet {A} a (f : Index -> outcome ShareFsError A) w : quiet w -> query a f w = (f (tables (dir w)), w).
Proof. intros (_ & _ & I). by apply query_run. Qed.
Lemma symlink_metadata_run p a w : quiet w ->
  symlink_metadata p a w = (match at_path (lower (dir w)) p with Found n => Ok (meta n) | Missing => Err (NotFound (InLower p)) | Refused => Err (io_error a) end, w).
Proof. intros Q. unfold symlink_metadata, andthen. rewrite on_path_run by done. by destruct (at_path _ p). Qed.
Lemma optional_symlink_metadata_run p a w : quiet w -> optional_symlink_metadata p a w = (look (lower (dir w)) p a, w).
Proof. intros Q. unfold optional_symlink_metadata, andthen, look. rewrite on_path_run by done. by destruct (at_path _ p). Qed.
Lemma object_contents_run o a w : quiet w -> object_contents o a w = (ok_or (objects (dir w) !! o) (io_error a), w).
Proof. intros (F & _ & _). unfold object_contents, andthen. rewrite fallible_run by done. unfold get, of_outcome. by destruct (objects (dir w) !! o). Qed.
Lemma resolve_from_run full names : forall walked u lp w, quiet w ->
  resolve_from full walked u lp names w = (view_from (tables (dir w)) (lower (dir w)) full walked u lp names, w).
Proof.
  induction names as [|nm names IH]; intros walked u lp w Q; [done|]. cbn [resolve_from view_from].
  assert (E : (match u with Some parent => get_entry parent nm | None => ret None end : op (option EntryRecord)) w
              = (match u with Some parent => query_entry parent nm (tables (dir w)) | None => Ok None end, w)).
  { destruct u; [by apply query_quiet|done]. }
  rewrite (andthen_run _ _ _ _ E). destruct (match u with Some parent => query_entry parent nm (tables (dir w)) | None => Ok None end) as [[e|]| |];
    cbn [obind]; [..|done|done].
  - destruct (entry_state e) as [i|]; [|done]. unfold andthen, get_node. rewrite (query_quiet _ _ _ Q). destruct (node i _) as [n| |]; cbn [obind]; [|done..].
    case_bool_decide; [done|]. destruct (negb (bool_decide (n_kind (node_value n) = Directory))); [done|]. by apply IH.
  - destruct lp as [parent|]; [|done]. unfold andthen. rewrite optional_symlink_metadata_run by done.
    destruct (look _ _ _) as [[m|]| |]; cbn [obind]; [|done..]. unfold of_outcome. destruct (entry_kind m full) as [k| |]; cbn [obind]; [|done..].
    case_bool_decide; [done|]. destruct (negb (bool_decide (k = Directory))); [done|]. by apply IH.
Qed.
Lemma resolve_run p w : quiet w -> resolve p w = (view_at (tables (dir w)) (lower (dir w)) p, w).
Proof.
  intros Q. unfold resolve, view_at. case_bool_decide; [|by apply resolve_from_run]. unfold andthen, get_node. rewrite (query_quiet _ _ _ Q).
  by destruct (node _ _).
Qed.
Lemma open_read_only_file_run p w n : quiet w -> at_path (lower (dir w)) p = Found n -> file_type (meta n) <> FtSymlink ->
  open_read_only_file p w = (Ok (m_dev (meta n), m_ino (meta n)), w).
Proof. intros Q E N. unfold open_read_only_file, andthen. rewrite on_path_run, E by done. by rewrite bool_decide_false. Qed.
Lemma entry_kind_File m p : entry_kind m p = Ok File <-> file_type m = FtFile.
Proof. unfold entry_kind. by destruct (file_type m). Qed.
(** [read_file] reads the merged contents. *)
Lemma read_file_run p w : quiet w -> coherent (lower (dir w)) ->
  read_file p w = (contents_at (tables (dir w)) (objects (dir w)) (lower (dir w)) p, w).
Proof.
  intros Q C. assert (F := proj1 Q). unfold read_file, open_file, contents_at. unfold andthen at 1 2. rewrite resolve_run by done.
  destruct (view_at _ _ p) as [[n|lp]| |]; cbn [obind contents_of]; [..|done|done].
  - destruct (negb (bool_decide (n_kind (node_value n) = File))); [done|]. unfold andthen. destruct (object_path (node_value n)) as [o| |]; cbn [of_outcome obind]; [|done..].
    rewrite object_contents_run by done. destruct (objects (dir w) !! o) as [c|] eqn:Eo; cbn [ok_or]; [|done].
    rewrite fallible_run by done. cbn. rewrite object_contents_run by done. by rewrite Eo.
  - unfold andthen at 1. rewrite symlink_metadata_run by done. destruct (at_path _ lp) as [| |n] eqn:E; [done..|].
    unfold andthen at 1, of_outcome at 1. destruct (entry_kind (meta n) p) as [k| |] eqn:Ek; cbn [obind]; [|done..].
    case_bool_decide as K; [|done]. subst k. cbn [negb]. pose proof (proj1 (entry_kind_File _ _) Ek) as Ft.
    unfold andthen at 1. rewrite (open_read_only_file_run _ _ n) by (done || congruence). unfold andthen at 1.
    rewrite on_descriptor_run, (C _ _ E) by done. unfold andthen, of_outcome. rewrite Ek. unfold ret. rewrite (bool_decide_true (File = File)) by done. cbn -[on_descriptor].
    rewrite on_descriptor_run by done. by rewrite (C _ _ E).
Qed.

(** ** Walking the view *)
Lemma view_from_lower d d' l full names : forall walked lp, view_from d l full walked None lp names = view_from d' l full walked None lp names.
Proof.
  induction names as [|nm names IH]; intros walked lp; [done|]. cbn [view_from obind]. destruct lp as [parent|]; [|done].
  destruct (look l _ _) as [[m|]| |]; cbn [obind]; [|done..]. destruct (entry_kind m full) as [k| |]; cbn [obind]; [|done..].
  case_bool_decide; [done|]. case_bool_decide; [|done]. apply IH.
Qed.
(** A directory without overrides shows the lower directory. *)
Lemma view_from_bare d d' l full walked i lp names :
  (forall nm, entries d !! (i, nm) = None) -> view_from d l full walked (Some i) lp names = view_from d' l full walked None lp names.
Proof.
  intros N. destruct names as [|nm names]; [done|]. cbn [view_from]. unfold query_entry. rewrite N. cbn [obind].
  destruct lp as [parent|]; [|done]. destruct (look l _ _) as [[m|]| |]; cbn [obind]; [|done..].
  destruct (entry_kind m full) as [k| |]; cbn [obind]; [|done..]. case_bool_decide; [done|]. case_bool_decide; [|done]. apply view_from_lower.
Qed.
Definition merges (n : NewNode) : bool := merge_lower n && negb (opaque n).
(** Where the loop of [resolve] is after the names [p]: the lower path it carries. *)
Inductive along (d : Index) : path -> Z -> option path -> Prop :=
| along_nil : along d [] ROOT_NODE_ID (Some [])
| along_snoc p j lp nm k n :
    along d p j lp -> edge (entries d) j nm k -> nodes d !! k = Some (node_row n) -> typed_node n -> n_kind n = Directory ->
    along d (p ++ [nm]) k (if merges n then option_map (fun q => join q nm) lp else None).
Lemma edge_query d j nm k : IndexInv d -> edge (entries d) j nm k -> exists e, query_entry j nm d = Ok (Some e) /\ entry_state e = Present k.
Proof.
  intros I (r & E & St & Nd). destruct (inv_entry _ I _ _ _ E) as (_ & s & b & -> & T & _).
  exists {| entry_name := nm; entry_state := s; base := b |}. unfold query_entry. rewrite E, decode_row_of by done. split; [done|].
  destruct s, b; cbn in *; congruence.
Qed.
Lemma view_along d l p j lp : IndexInv d -> along d p j lp -> forall full rest, rest <> [] ->
  view_from d l full [] (Some ROOT_NODE_ID) (Some []) (p ++ rest) = view_from d l full p (Some j) lp rest.
Proof.
  intros I. induction 1 as [|p j lp nm k n A IH E En T K]; intros full rest N; [done|].
  rewrite <- app_assoc, IH by done. cbn [app view_from]. destruct (edge_query _ _ _ _ I E) as (e & Qe & Se).
  rewrite Qe. cbn [obind]. rewrite Se.
  rewrite (node_run _ _ _ En T). cbn [obind node_id node_value]. rewrite bool_decide_false by done. by rewrite bool_decide_true.
Qed.
Lemma view_at_along d l p j lp nm rest : IndexInv d -> along d p j lp ->
  view_at d l (p ++ nm :: rest) = view_from d l (p ++ nm :: rest) p (Some j) lp (nm :: rest).
Proof.
  intros I A. unfold view_at. rewrite bool_decide_false by by destruct p. by rewrite (view_along d l p j lp).
Qed.
Lemma along_walks d p j lp : along d p j lp -> walks (entries d) ROOT_NODE_ID p j.
Proof. induction 1; econstructor; eauto. Qed.
Lemma node_of d k : IndexInv d -> is_Some (nodes d !! k) -> exists n, nodes d !! k = Some (node_row n) /\ typed_node n.
Proof. intros I [r E]. destruct (inv_node _ I _ _ E) as (_ & n & -> & T). by exists n. Qed.
Lemma dir_node d k n : is_dir d k -> nodes d !! k = Some (node_row n) -> n_kind n = Directory.
Proof. intros (r & E & K) En. rewrite En in E. injection E as <-. cbn in K. by destruct (n_kind n). Qed.
Lemma walks_along d p j : IndexInv d -> is_dir d j -> walks (entries d) ROOT_NODE_ID p j -> exists lp, along d p j lp.
Proof.
  intros I D W. revert D. induction W as [|p j nm k W IH E]; intros D; [exists (Some []); constructor|].
  destruct (edge_node _ _ _ _ I E) as (_ & Sk & Dj). destruct (IH Dj) as (lp & A). destruct (node_of _ _ I Sk) as (n & En & T).
  eexists. apply (along_snoc d p j lp nm k n); [done..|]. exact (dir_node _ _ _ D En).
Qed.

(** ** Frames *)
(** [d'] differs from [d] in the override [(j, nm)] and in new nodes only. *)
Definition differs_at (d d' : Index) (j : Z) (nm : bytes) : Prop :=
  (forall k, k <> (j, nm) -> entries d' !! k = entries d !! k)
  /\ (forall i, is_Some (nodes d !! i) -> nodes d' !! i = nodes d !! i).
Lemma view_from_frame d d' l full j nm p : IndexInv d -> differs_at d d' j nm -> walks (entries d) ROOT_NODE_ID p j ->
  (forall r, full <> p ++ nm :: r) ->
  forall names walked u lp, full = walked ++ names -> (forall i, u = Some i -> walks (entries d) ROOT_NODE_ID walked i) ->
  view_from d' l full walked u lp names = view_from d l full walked u lp names.
Proof.
  intros I [De Dn] W N. induction names as [|x names IH]; intros walked u lp F U; [done|]. cbn [view_from].
  assert (Q : (match u with Some parent => query_entry parent x d' | None => Ok None end)
              = (match u with Some parent => query_entry parent x d | None => Ok None end)).
  { destruct u as [i|]; [|done]. unfold query_entry. rewrite De; [done|]. intros [= -> ->].
    rewrite (walks_unique d _ _ _ I W (U _ eq_refl)) in N. by apply (N names). }
  rewrite Q. destruct (match u with Some parent => query_entry parent x d | None => Ok None end) as [[e|]| |] eqn:Eq; cbn [obind]; [..|done|done].
  - destruct (entry_state e) as [i|] eqn:Es; [|done]. destruct u as [i0|]; [|done].
    apply query_entry_spec in Eq as (Enm & Ee & _ & P); [|done]. rewrite Es in Ee, P.
    assert (Ed := edge_row _ _ _ _ _ Ee). unfold node at 1. rewrite Dn by apply P. fold (node i d).
    destruct (node i d) as [n| |] eqn:En; cbn [obind]; [|done..]. case_bool_decide; [done|]. case_bool_decide; [|done]. cbn [negb].
    apply IH; [unfold join; by rewrite <- app_assoc|]. intros k [= <-]. apply node_record in En as (-> & _ & _); [|done]. econstructor; [by apply U|done].
  - destruct lp as [parent|]; [|done]. destruct (look l _ _) as [[m|]| |]; cbn [obind]; [|done..].
    destruct (entry_kind m full) as [k| |]; cbn [obind]; [|done..]. case_bool_decide; [done|]. case_bool_decide; [|done]. cbn [negb].
    apply IH; [unfold join; by rewrite <- app_assoc|done].
Qed.
Lemma merged_view_frame d d' l j nm p q : IndexInv d -> differs_at d d' j nm -> walks (entries d) ROOT_NODE_ID p j ->
  (forall r, q <> p ++ nm :: r) -> view_at d' l q = view_at d l q.
Proof.
  intros I D W N. unfold view_at. case_bool_decide.
  - unfold node. destruct (inv_root _ I) as (r & E & _). by rewrite (proj2 D) by by exists r.
  - eapply view_from_frame; [done..|]. intros i [= <-]. constructor.
Qed.

(** ** Directories on the way *)
(** The loop passes the names [p]: each is a directory of the upper, or of the lower
    directory where nothing overrides it. *)
Inductive passes (d : Index) (l : Lower) : path -> option Z -> option path -> Prop :=
| passes_nil : passes d l [] (Some ROOT_NODE_ID) (Some [])
| passes_upper p j lp nm k n :
    passes d l p (Some j) lp -> edge (entries d) j nm k -> nodes d !! k = Some (node_row n) -> typed_node n -> n_kind n = Directory ->
    passes d l (p ++ [nm]) (Some k) (if merges n then option_map (fun q => join q nm) lp else None)
| passes_lower p u nm m :
    passes d l p u (Some p) -> (forall j, u = Some j -> entries d !! (j, nm) = None) ->
    at_path l (p ++ [nm]) = Found m -> file_type (meta m) = FtDirectory ->
    passes d l (p ++ [nm]) None (Some (p ++ [nm])).
Lemma passes_along d l p j lp : passes d l p (Some j) lp -> along d p j lp.
Proof.
  intros P. remember (Some j) as u eqn:Eu. revert j Eu. induction P as [|p j lp nm k n P IH E En T K|p u nm m P IH N E F]; intros x Ex.
  - injection Ex as <-. constructor.
  - injection Ex as <-. econstructor; eauto.
  - done.
Qed.
Lemma passes_lower_path d l p u q : passes d l p u (Some q) -> q = p.
Proof.
  intros P. remember (Some q) as lp eqn:El. revert q El. induction P as [|p j lp nm k n P IH E En T K|p u nm m P IH N E F]; intros x Ex.
  - by injection Ex as <-.
  - destruct (merges n); [|done]. destruct lp as [y|]; [|done]. cbn in Ex. injection Ex as <-. unfold join. by rewrite (IH y).
  - by injection Ex as <-.
Qed.
Lemma along_passes d l p j lp : along d p j lp -> passes d l p (Some j) lp.
Proof. induction 1; [constructor|by econstructor]. Qed.
Lemma entry_kind_dir m p : entry_kind m p = Ok Directory <-> file_type m = FtDirectory.
Proof. unfold entry_kind. by destruct (file_type m). Qed.
(** A resolved path passes its proper prefixes. *)
Lemma view_passes d l full e names : IndexInv d -> forall walked u lp, passes d l walked u lp ->
  forall rest, rest <> [] -> view_from d l full walked u lp (names ++ rest) = Ok e ->
  exists u' lp', passes d l (walked ++ names) u' lp' /\ view_from d l full (walked ++ names) u' lp' rest = Ok e.
Proof.
  intros I. induction names as [|nm names IH]; intros walked u lp P rest Nr V.
  - exists u, lp. by rewrite app_nil_r.
  - assert (Nn : names ++ rest <> []) by by destruct names.
    change ((nm :: names) ++ rest) with (nm :: (names ++ rest)) in V. cbn [view_from] in V.
    replace (walked ++ nm :: names) with ((walked ++ [nm]) ++ names) by by rewrite <- app_assoc.
    destruct (match u with Some parent => query_entry parent nm d | None => Ok None end) as [[x|]| |] eqn:Q; cbn [obind] in V; [..|done|done].
    + destruct (entry_state x) as [i|] eqn:Es; [|done]. destruct u as [j|]; [|done]. apply query_entry_spec in Q as (_ & Ee & _ & _); [|done].
      rewrite Es in Ee. apply edge_row in Ee. destruct (node i d) as [n| |] eqn:En; cbn [obind] in V; [|done..].
      apply node_record in En as (Ei & En & T); [|done]. rewrite Ei in V. rewrite bool_decide_false in V by done. case_bool_decide as K; [|done]. cbn [negb] in V.
      eapply IH; [|done|exact V]. by eapply passes_upper.
    + destruct lp as [q|]; [|done]. assert (q = walked) as -> by by eapply passes_lower_path.
      unfold look in V. destruct (at_path l (join walked nm)) as [| |m] eqn:Ea; cbn [obind] in V; [done..|].
      destruct (entry_kind (meta m) full) as [k| |] eqn:Ek; cbn [obind] in V; [|done..]. rewrite bool_decide_false in V by done.
      case_bool_decide as K; [|done]. subst k. cbn [negb] in V. eapply IH; [|done|exact V].
      eapply passes_lower; [done| |done|by eapply entry_kind_dir]. intros j ->. unfold query_entry in Q.
      destruct (entries d !! (j, nm)) as [r|] eqn:Er; [|done]. destruct (inv_entry _ I _ _ _ Er) as (_ & s & b & -> & T & _).
      by rewrite decode_row_of in Q.
Qed.
Lemma view_at_passes d l p nm e : IndexInv d -> view_at d l (p ++ [nm]) = Ok e ->
  exists u lp, passes d l p u lp /\ view_from d l (p ++ [nm]) p u lp [nm] = Ok e.
Proof.
  intros I. unfold view_at. rewrite bool_decide_false by by destruct p. intros V.
  by apply (view_passes d l (p ++ [nm]) e p I [] _ _ (passes_nil d l) [nm]) in V.
Qed.

Lemma below_dec (p q : path) : (exists r, q = p ++ r) \/ ~ exists r, q = p ++ r.
Proof. destruct (path_starts_with p q) eqn:E; [left|right; rewrite <- path_starts_with_spec; congruence]. by apply path_starts_with_spec. Qed.

(** ** Copying directories up *)
(** The views of [d] and [d'] are the same, but for lower directories copied up. *)
Definition copied (l : Lower) (d d' : Index) : Prop :=
  forall q, view_at d' l q = view_at d l q
    \/ exists m n, view_at d l q = Ok (LowerPath q) /\ at_path l q = Found m /\ file_type (meta m) = FtDirectory
       /\ view_at d' l q = Ok (Upper n) /\ n_kind (node_value n) = Directory.
Lemma copied_refl l d : copied l d d.
Proof. by left. Qed.
Lemma copied_trans l d1 d2 d3 : copied l d1 d2 -> copied l d2 d3 -> copied l d1 d3.
Proof.
  intros C1 C2 q. destruct (C1 q) as [E1|(m & n & V1 & Ea & Ft & V2 & K)], (C2 q) as [E2|(m' & n' & W1 & Ea' & Ft' & W2 & K')].
  - left. congruence.
  - right. exists m', n'. split_and!; congruence.
  - right. exists m, n. split_and!; congruence.
  - congruence.
Qed.
Lemma copied_contents l d d' ob q : copied l d d' -> contents_at d' ob l q = contents_at d ob l q.
Proof.
  intros C. unfold contents_at. destruct (C q) as [->|(m & n & -> & Ea & Ft & -> & K)]; [done|]. cbn [obind contents_of].
  rewrite Ea, (proj2 (entry_kind_dir _ _) Ft), K. cbn [obind]. unfold entry_type_error, entry_type_error_for_kind. by rewrite Ft.
Qed.
Lemma install_differs p nm n b d i d' : install_node p nm n b d = Ok (i, d') -> differs_at d d' p nm.
Proof.
  intros (R & _ & ->)%install_node_spec. apply next_rowid_fresh in R as [_ N]. split; cbn.
  - intros k Nk. by rewrite lookup_insert_ne.
  - intros j [r Er]. rewrite lookup_insert_ne; [done|congruence].
Qed.
Lemma install_bare d j nm n b i d' : IndexInv d -> is_dir d j -> install_node j nm n b d = Ok (i, d') -> forall x, entries d' !! (i, x) = None.
Proof.
  intros I Dj (R & _ & ->)%install_node_spec x. apply next_rowid_fresh in R as [_ N]. cbn.
  rewrite lookup_insert_ne by (intros [= -> _]; destruct Dj as (r & Er & _); congruence).
  destruct (entries d !! (i, x)) as [r|] eqn:E; [|done]. destruct (inv_entry _ I _ _ _ E) as [(y & Ey & _) _]. congruence.
Qed.
Lemma along_extends d d' p j lp : extends d d' -> along d p j lp -> along d' p j lp.
Proof.
  intros X. induction 1; [constructor|]. econstructor; eauto; [by eapply extends_edge|]. by eapply lookup_weaken; [|apply X].
Qed.
Lemma copy_up l d p j nm n b i d' m :
  IndexInv d -> IndexInv d' -> along d p j (Some p) -> is_dir d j -> entries d !! (j, nm) = None ->
  at_path l (p ++ [nm]) = Found m -> file_type (meta m) = FtDirectory ->
  n_kind n = Directory -> merges n = true -> typed_node n -> install_node j nm n b d = Ok (i, d') ->
  copied l d d' /\ along d' (p ++ [nm]) i (Some (p ++ [nm])).
Proof.
  intros I I' A Dj Ne Ea Ft K M T E. pose proof (install_node_extends _ _ _ _ _ _ _ Ne E) as X.
  pose proof (along_extends _ _ _ _ _ X A) as A'. pose proof (install_node_spec _ _ _ _ _ _ _ E) as (_ & _ & Ed).
  assert (Ei : nodes d' !! i = Some (node_row n)) by (rewrite Ed; apply lookup_insert_eq).
  assert (Ee : entries d' !! (j, nm) = Some (row_of (Present i) b)) by (rewrite Ed; apply lookup_insert_eq).
  pose proof (edge_row _ _ _ _ _ Ee) as Eg. split.
  - intros q. destruct (below_dec (p ++ [nm]) q) as [(r & ->)|N]; [rewrite <- app_assoc; cbn [app]|].
    + rewrite (view_at_along d l p j (Some p)), (view_at_along d' l p j (Some p)) by done. cbn [view_from].
      destruct (edge_query _ _ _ _ I' Eg) as (e & -> & Es). unfold query_entry. rewrite Ne. cbn [obind]. rewrite Es.
      rewrite (node_run _ _ _ Ei T). unfold join. unfold look. rewrite Ea. cbn [obind node_id node_value].
      rewrite (proj2 (entry_kind_dir _ _) Ft). cbn [obind]. destruct r as [|x r].
      * rewrite !bool_decide_true by done. right. by exists m, {| node_id := i; node_value := n |}.
      * rewrite !bool_decide_false by done. rewrite K. rewrite !bool_decide_true by done. cbn [negb]. left.
        fold (merges n). rewrite M. cbn [option_map]. apply view_from_bare. exact (install_bare _ _ _ _ _ _ _ I Dj E).
    + left. eapply merged_view_frame; [done|by eapply install_differs|by eapply along_walks|]. intros r ->. apply N. exists r. by rewrite <- app_assoc.
  - assert (A2 : along d' (p ++ [nm]) i (if merges n then option_map (fun q => join q nm) (Some p) else None)) by by eapply along_snoc.
    by rewrite M in A2.
Qed.

(** ** Present entries *)
Lemma view_present d l p j lp nm i n b :
  IndexInv d -> along d p j lp -> entries d !! (j, nm) = Some (row_of (Present i) b) -> nodes d !! i = Some (node_row n) -> typed_node n ->
  view_at d l (p ++ [nm]) = Ok (Upper {| node_id := i; node_value := n |})
  /\ (n_kind n <> Directory -> forall x r, view_at d l (p ++ nm :: x :: r) = Err (NotDirectory (p ++ [nm]))).
Proof.
  intros I A E En T. destruct (edge_query _ _ _ _ I (edge_row _ _ _ _ _ E)) as (e & Qe & Se).
  rewrite (view_at_along d l p j lp) by done. split.
  - cbn [view_from]. rewrite Qe. cbn [obind]. rewrite Se, (node_run _ _ _ En T). cbn [obind]. by rewrite bool_decide_true.
  - intros K x r. rewrite (view_at_along d l p j lp) by done. cbn [view_from]. rewrite Qe. cbn [obind]. rewrite Se, (node_run _ _ _ En T).
    cbn [obind node_value]. rewrite bool_decide_false by done. by rewrite bool_decide_false.
Qed.
(** Below a lower entry that is not a directory there is nothing. *)
Lemma view_lower_file d l p u nm m :
  IndexInv d -> passes d l p u (Some p) -> (forall j, u = Some j -> entries d !! (j, nm) = None) ->
  at_path l (p ++ [nm]) = Found m -> file_type (meta m) = FtFile ->
  forall x r, view_at d l (p ++ nm :: x :: r) = Err (NotDirectory (p ++ [nm])).
Proof.
  intros I P N E F x r.
  assert (V : view_at d l (p ++ nm :: x :: r) = view_from d l (p ++ nm :: x :: r) p u (Some p) (nm :: x :: r)).
  { clear E F. generalize (x :: r). intros rest. unfold view_at. rewrite bool_decide_false by by destruct p.
    generalize (p ++ nm :: rest) at 1 3. intros full. revert nm N rest. induction P as [|p j lp y k n P IH Ed En T K|p u y m' P IH N' E' F']; intros nm N rest.
    - done.
    - rewrite <- app_assoc. cbn [app]. rewrite (view_along d l p j lp) by (done || by apply passes_along in P). cbn [view_from].
      destruct (edge_query _ _ _ _ I Ed) as (e & Qe & Se). rewrite Qe. cbn [obind]. rewrite Se, (node_run _ _ _ En T). cbn [obind node_id node_value].
      by rewrite bool_decide_false, bool_decide_true by done.
    - rewrite <- app_assoc. cbn [app]. rewrite (IH y N'). cbn [view_from].
      replace (match u with Some parent => query_entry parent y d | None => Ok None end) with (Ok None : outcome ShareFsError (option EntryRecord)).
      2:{ destruct u as [j|]; [|done]. unfold query_entry. by rewrite N'. }
      cbn [obind]. unfold join at 1, look. rewrite E'. cbn [obind]. rewrite (proj2 (entry_kind_dir _ _) F'). cbn [obind].
      by rewrite bool_decide_false, bool_decide_true by done. }
  rewrite V. cbn [view_from]. replace (match u with Some parent => query_entry parent nm d | None => Ok None end) with (Ok None : outcome ShareFsError (option EntryRecord)).
  2:{ destruct u as [j|]; [|done]. unfold query_entry. by rewrite N. }
  cbn [obind]. unfold join at 1, look. rewrite E. cbn [obind]. rewrite (proj2 (entry_kind_File _ _) F). cbn [obind].
  rewrite bool_decide_false by done. by rewrite bool_decide_false.
Qed.
