(* ===== verification/ShareSpec.v ===== *)
(** * Writing through the share

    The share as a function from paths to contents: replacing a file, writing at an
    offset and truncating update this function at one path, whether the file is an
    upper one or has to be copied up from the lower directory first. *)

From S2P Require Import Prelude Lists Text Effects ShareTypes ShareIndex ShareFs ShareInv ShareKeeps ShareProps ShareView.

(** ** Runs without failures *)
Definition still (s : Share) : World Share := {| dir := s; faults := [] |}.
Definition calm (s : Share) : Prop := host s = [] /\ Inv s.
Definition runs {A} (s : Share) (m : op A) (a : A) (s' : Share) : Prop := m (still s) = (Ok a, still s').
Lemma calm_quiet s : calm s -> quiet (still s).
Proof. by intros []. Qed.
Lemma runs_ret {A} s (a : A) : runs s (ret a) a s.
Proof. done. Qed.
Lemma runs_bind {A B} s s1 s2 (m : op A) (k : A -> op B) a b : runs s m a s1 -> runs s1 (k a) b s2 -> runs s (andthen m k) b s2.
Proof. unfold runs, andthen. by intros ->. Qed.
Lemma runs_fallible s e : runs s (fallible e) tt s.
Proof. done. Qed.
Lemma runs_put s f : runs s (put f) tt (f s).
Proof. done. Qed.
Lemma runs_get s : runs s get s s.
Proof. done. Qed.
Lemma runs_outcome {A} s (a : A) o : o = Ok a -> runs s (of_outcome o) a s.
Proof. by intros ->. Qed.
Lemma runs_attempt {A} s (m : op A) a s' : runs s m a s' -> runs s (attempt m) (Ok a) s'.
Proof. unfold runs, attempt. by intros ->. Qed.
Lemma runs_query {A} s a (f : Index -> outcome ShareFsError A) x : calm s -> f (tables s) = Ok x -> runs s (query a f) x s.
Proof. intros C E. unfold runs. rewrite query_quiet by by apply calm_quiet. by cbn; rewrite E. Qed.
Lemma runs_resolve s p e : calm s -> view_at (tables s) (lower s) p = Ok e -> runs s (resolve p) e s.
Proof. intros C E. unfold runs. rewrite resolve_run by by apply calm_quiet. by cbn; rewrite E. Qed.
Lemma runs_metadata s p a n : calm s -> at_path (lower s) p = Found n -> runs s (symlink_metadata p a) (meta n) s.
Proof. intros C E. unfold runs. rewrite symlink_metadata_run by by apply calm_quiet. by cbn; rewrite E. Qed.
Lemma runs_descriptor s dev ino a : calm s -> runs s (on_descriptor dev ino a) (inode (lower s) dev ino) s.
Proof. intros C. unfold runs. by rewrite on_descriptor_run by by apply calm_quiet. Qed.
Lemma runs_object s o a c : calm s -> objects s !! o = Some c -> runs s (object_contents o a) c s.
Proof. intros C E. unfold runs. rewrite object_contents_run by by apply calm_quiet. by cbn; rewrite E. Qed.
Create HintDb runs.
#[export] Hint Resolve runs_ret runs_fallible runs_put runs_get runs_attempt runs_query runs_resolve runs_metadata runs_descriptor runs_object : runs.
Ltac run_step := eapply runs_bind; [eauto with runs|].

Definition with_index (s : Share) (d : Index) : Share := s <| db := (db s) <| index := d |> |>.
Lemma with_index_same s : with_index s (tables s) = s.
Proof. destruct s as [[] ? ? ? ? ?]. done. Qed.
Lemma runs_transaction {A} s a (f : Index -> outcome ShareFsError (A * Index)) x d :
  f (tables s) = Ok (x, d) -> runs s (transaction a f) x (with_index s d).
Proof. intros E. unfold runs. by rewrite (transaction_run a f _ x d). Qed.
Lemma calm_with_index s d : calm s -> IndexInv d -> backed d s -> calm (with_index s d).
Proof. intros [H []] I B. split; [done|]. by constructor. Qed.

(** ** Installing *)
Definition bounded (d : Index) (b : Z) : Prop := 0 <= b /\ forall i, is_Some (nodes d !! i) -> i <= b.
Lemma next_rowid_bounded d b : bounded d b -> b < i64_max -> exists i, next_rowid d = Some i /\ i <= b + 1.
Proof.
  intros [P H] L. unfold next_rowid.
  assert (M : foldr Z.max 0 (map fst (map_to_list (nodes d))) <= b).
  { assert (F : Forall (fun i => i <= b) (map fst (map_to_list (nodes d)))).
    { apply Forall_forall. intros i ([j r] & -> & E%elem_of_map_to_list)%list_elem_of_fmap. by apply H; exists r. }
    induction F; cbn; lia. }
  exists (foldr Z.max 0 (map fst (map_to_list (nodes d))) + 1). rewrite (proj2 (Z.ltb_lt _ _)) by lia. split; [done|lia].
Qed.
Lemma unused_free o d : unused o d -> object_free (Some o) d = true.
Proof.
  intros U. apply forallb_forall. intros [i r] E%list_elem_of_In%elem_of_map_to_list. apply negb_true_iff, bool_decide_eq_false. by apply (U i).
Qed.
Lemma install_node_runs d p nm n b l :
  bounded d l -> l < i64_max -> is_dir d p -> object_free (object_name n) d = true ->
  exists i d', install_node p nm n b d = Ok (i, d') /\ bounded d' (l + 1).
Proof.
  intros B L Dp F. destruct (next_rowid_bounded _ _ B L) as (i & E & Li).
  assert (X : exists d', install_node p nm n b d = Ok (i, d')).
  { unfold install_node, insert_node. rewrite F, E. cbn [negb obind]. unfold put_present_entry, put_entry.
    assert (Rp : references p (d <| nodes := <[i := node_row n]> (nodes d) |>) = true).
    { apply bool_decide_eq_true. destruct Dp as (r & Er & _). cbn. apply lookup_insert_is_Some'. right. by exists r. }
    assert (Ri : references i (d <| nodes := <[i := node_row n]> (nodes d) |>) = true).
    { apply bool_decide_eq_true. cbn. apply lookup_insert_is_Some'. by left. }
    rewrite Rp, Ri. cbn. by eexists. }
  destruct X as (d' & X). exists i, d'. split; [done|]. apply install_node_spec in X as (_ & _ & ->). destruct B as [P H]. split; [lia|].
  cbn. intros j [->|Hj]%lookup_insert_is_Some'; [done|]. specialize (H j Hj). lia.
Qed.
Lemma runs_install s p nm n b i d :
  calm s -> install_node p nm n b (tables s) = Ok (i, d) -> IndexInv d -> backed d s -> typed_node n ->
  runs s (install p nm n b) {| node_id := i; node_value := n |} (with_index s d).
Proof.
  intros C E I B T. unfold install. eapply runs_bind; [by apply runs_transaction|]. apply runs_query; [by apply calm_with_index|].
  apply install_node_spec in E as (_ & _ & ->). apply node_run; [|done]. cbn. apply lookup_insert_eq.
Qed.

Section writes.
Context (sha256 : bytes -> bytes) (sha256_len : forall b, len (sha256 b) = 32).

(** ** Capturing *)
Lemma same_fingerprint_refl m : same_fingerprint m m = true.
Proof. unfold same_fingerprint. by rewrite !Z.eqb_refl. Qed.
Lemma runs_capture_directory s p n :
  calm s -> at_path (lower s) p = Found n -> file_type (meta n) = FtDirectory ->
  runs s (capture_lower_entry sha256 p None) (base_record (meta n) Directory None) s.
Proof.
  intros C E F. unfold capture_lower_entry. run_step. eapply runs_bind; [by apply runs_outcome, entry_kind_dir|]. cbv iota.
  run_step. rewrite same_fingerprint_refl. apply runs_ret.
Qed.
(** The staged object that a capture leaves. *)
Definition staged (s : Share) (copy_to : option bytes) (n : LowerNode) : Share :=
  match copy_to with Some o => s <| staging := <[o := data n]> (staging s) |> | None => s end.
Lemma calm_staging s f : calm s -> calm (s <| staging := f |>).
Proof. intros [H []]. split; [done|]. by constructor. Qed.
Lemma runs_capture_file s p c n :
  calm s -> coherent (lower s) -> at_path (lower s) p = Found n -> file_type (meta n) = FtFile ->
  runs s (capture_lower_entry sha256 p c) (base_record (meta n) File (Some (sha256 (data n)))) (staged s c n).
Proof.
  intros C Co E F. unfold capture_lower_entry. run_step. eapply runs_bind; [by apply runs_outcome, entry_kind_File|]. cbv iota.
  eapply runs_bind; [unfold runs; eapply open_read_only_file_run; [by apply calm_quiet|exact E|congruence]|]. cbv iota beta.
  run_step. rewrite (Co _ _ E), same_fingerprint_refl. cbn [negb]. run_step. rewrite (Co _ _ E).
  assert (C' : calm (staged s c n)) by (destruct c; [by apply calm_staging|done]).
  assert (El : lower (staged s c n) = lower s) by by destruct c.
  eapply (runs_bind _ (staged s c n)); [destruct c; [run_step; apply runs_put|apply runs_ret]|].
  eapply runs_bind; [by apply runs_descriptor|]. eapply runs_bind; [apply (runs_metadata _ _ _ n); [done|by rewrite El]|].
  rewrite El, (Co _ _ E), same_fingerprint_refl. apply runs_ret.
Qed.

(** ** Copying directories up *)
Lemma typed_copy m k g o : typed_meta m -> match k with File => is_Some o | _ => o = None end -> k <> Symlink ->
  typed_node {| n_kind := k; object_name := o; symlink_target := None; n_mode := v_mode (version (base_record m k g));
                n_modified_at := lease_modified_at (base_record m k g); merge_lower := bool_decide (k = Directory); opaque := false;
                metadata_changed := false |}.
Proof. intros T K N. split; [apply land_mask|]. split; [apply typed_u32|]. by destruct k. Qed.
Lemma no_new_refl d : no_new_object d d.
Proof. intros i r o. by exists i, r. Qed.
Lemma no_new_trans d1 d2 d3 : no_new_object d1 d2 -> no_new_object d2 d3 -> no_new_object d1 d3.
Proof. intros A B i r o E O. destruct (B i r o E O) as (j & x & Ej & Ox). by apply (A j x o). Qed.
Lemma install_no_new p nm n b d i d' : object_name n = None -> install_node p nm n b d = Ok (i, d') -> no_new_object d d'.
Proof.
  intros N (_ & _ & ->)%install_node_spec j r o E O. cbn in E. apply lookup_insert_Some in E as [[_ <-]|[_ E]]; [cbn in O; congruence|by exists j, r].
Qed.
(** What [ensure_upper_directory] does: nothing where the directory is an upper one,
    copies of the lower directories on the way where it is not. *)
Record ensured (l : Lower) (d : Index) (p : path) (u : option Z) (lp : option path) (i : Z) (d' : Index) : Prop := {
  ens_inv : IndexInv d';
  ens_extends : extends d d';
  ens_copied : copied l d d';
  ens_along : along d' p i lp;
  ens_upper : forall j, u = Some j -> i = j /\ d' = d;
  ens_lower : u = None -> forall nm, entries d' !! (i, nm) = None;
  ens_objects : no_new_object d d'
}.
Lemma ensured_same l d p j lp : IndexInv d -> along d p j lp -> ensured l d p (Some j) lp j d.
Proof.
  intros I A. constructor; [done|done|apply copied_refl|done| |done|apply no_new_refl]. by intros k [= <-].
Qed.
Lemma ensured_free l d p u lp i d' nm : ensured l d p u lp i d' -> (forall j, u = Some j -> entries d !! (j, nm) = None) -> entries d' !! (i, nm) = None.
Proof.
  intros E N. destruct u as [j|]; [destruct (ens_upper _ _ _ _ _ _ _ E j eq_refl) as [-> ->]; by apply N|by apply (ens_lower _ _ _ _ _ _ _ E)].
Qed.
Lemma along_dir d p i lp : IndexInv d -> along d p i lp -> is_dir d i.
Proof. intros I. destruct 1; [apply (inv_root _ I)|by eapply node_dir]. Qed.
Lemma ensure_run s l p u lp b :
  calm s -> lower s = l -> passes (tables s) l p u lp -> bounded (tables s) b -> b + Z.of_nat (length p) < i64_max ->
  exists i d', runs s (ensure_upper_directory sha256 p) i (with_index s d') /\ ensured l (tables s) p u lp i d'
    /\ bounded d' (b + Z.of_nat (length p)).
Proof.
  intros C El P B. unfold ensure_upper_directory. assert (I := inv_index _ (proj2 C)).
  induction P as [|p j lp nm k n P IH E En T K|p u nm m P IH N E F]; intros L.
  - exists ROOT_NODE_ID, (tables s). rewrite with_index_same. split; [apply runs_ret|].
    split; [apply ensured_same; [done|constructor]|]. by rewrite Z.add_0_r.
  - rewrite length_app in L |- *. cbn [length] in L |- *. destruct IH as (i & d' & R & En1 & _); [lia|].
    destruct (ens_upper _ _ _ _ _ _ _ En1 j eq_refl) as [-> ->]. rewrite with_index_same in R.
    exists k, (tables s). rewrite with_index_same. split; [|split].
    + rewrite rev_app_distr. cbn [rev app ensure_reversed]. eapply runs_bind; [exact R|]. destruct (edge_query _ _ _ _ I E) as (e & Qe & Se).
      eapply runs_bind; [by apply runs_query|]. cbv iota. rewrite Se. eapply runs_bind; [apply runs_query; [done|by apply node_run]|].
      cbn [node_value node_id]. rewrite bool_decide_true by done. apply runs_ret.
    + apply ensured_same; [done|]. eapply along_snoc; eauto using ens_along.
    + destruct B as [B0 B]. split; [lia|]. intros i Hi. specialize (B i Hi). lia.
  - rewrite length_app in L |- *. cbn [length] in L |- *. destruct IH as (i & d1 & R & En1 & B1); [lia|].
    pose proof (ensured_free _ _ _ _ _ _ _ _ En1 N) as Nf. assert (I1 := ens_inv _ _ _ _ _ _ _ En1).
    pose proof (along_dir _ _ _ _ I1 (ens_along _ _ _ _ _ _ _ En1)) as Di.
    set (n := {| n_kind := Directory; object_name := None; symlink_target := None; n_mode := v_mode (version (base_record (meta m) Directory None));
                 n_modified_at := lease_modified_at (base_record (meta m) Directory None); merge_lower := true; opaque := false;
                 metadata_changed := false |}).
    assert (Tm : typed_meta (meta m)) by (apply (proj1 (inv_lower _ (proj2 C)) (p ++ [nm])); by rewrite El).
    assert (Tn : typed_node n) by by apply (typed_copy (meta m) Directory None None).
    destruct (install_node_runs d1 i nm n (Some (base_record (meta m) Directory None)) (b + Z.of_nat (length p))) as (k & d2 & In & B2); [done|lia|done..|].
    assert (I2 : IndexInv d2).
    { eapply install_node_inv; [exact I1|exact Di|exact Tn| |exact In]. intros x [= <-]. by apply base_record_typed. }
    pose proof (no_new_trans _ _ _ (ens_objects _ _ _ _ _ _ _ En1) (install_no_new i nm n _ _ _ _ eq_refl In)) as Nn.
    assert (C1 : calm (with_index s d1)).
    { apply calm_with_index; [done..|]. eapply backed_less; [apply (ens_objects _ _ _ _ _ _ _ En1)|exact (inv_backed _ (proj2 C))]. }
    destruct (copy_up l d1 p i nm n (Some (base_record (meta m) Directory None)) k d2 m) as [Cp Al];
      [done|done|apply (ens_along _ _ _ _ _ _ _ En1)|done..|].
    exists k, d2. split; [|split; [|by rewrite Nat2Z.inj_add, Z.add_assoc]].
    + rewrite rev_app_distr. cbn [rev app ensure_reversed]. eapply runs_bind; [exact R|].
      eapply runs_bind; [apply (runs_query _ _ _ None); [done|]; unfold query_entry; cbn; by rewrite Nf|]. cbv iota.
      rewrite rev_involutive. eapply runs_bind; [apply (runs_capture_directory _ _ m); [done|by cbn; rewrite El|done]|].
      cbn [version v_kind base_record]. rewrite bool_decide_true by done. cbn [negb].
      eapply runs_bind; [apply (runs_install _ _ _ n _ k d2); [done|exact In|done| |done]|apply runs_ret].
      eapply backed_less; [exact Nn|exact (inv_backed _ (proj2 C))].
    + constructor; [done| |by eapply copied_trans; [apply (ens_copied _ _ _ _ _ _ _ En1)|]|done|done| |done].
      * etrans; [apply (ens_extends _ _ _ _ _ _ _ En1)|by eapply install_node_extends].
      * intros _ x. exact (install_bare _ _ _ _ _ _ _ I1 Di In x).
Qed.

(** ** What a path resolves to *)
Definition shows (s : Share) (p : path) : outcome ShareFsError bytes := contents_at (tables s) (objects s) (lower s) p.
Lemma view_upper d l p x : IndexInv d -> view_at d l p = Ok (Upper x) ->
  walks (entries d) ROOT_NODE_ID p (node_id x) /\ nodes d !! node_id x = Some (node_row (node_value x)) /\ typed_node (node_value x).
Proof.
  intros I V. induction p as [|nm q _] using rev_ind.
  - unfold view_at in V. rewrite bool_decide_true in V by done. destruct (node ROOT_NODE_ID d) as [n| |] eqn:E; [|done..].
    cbn in V. injection V as ->. apply node_record in E as (E & En & T); [|done]. rewrite E in *. split; [constructor|done].
  - apply view_at_passes in V as (u & lp & P & V); [|done]. cbn [view_from] in V. destruct u as [j|].
    + destruct (query_entry j nm d) as [[e|]| |] eqn:Q; cbn [obind] in V; [..|done|done].
      * destruct (entry_state e) as [i|] eqn:Es; [|done]. apply query_entry_spec in Q as (_ & Ee & _ & _); [|done]. rewrite Es in Ee.
        destruct (node i d) as [n| |] eqn:En; cbn [obind] in V; [|done..]. injection V as ->.
        apply node_record in En as (Ei & En & T); [|done]. rewrite Ei in *. split; [|done].
        econstructor; [by eapply along_walks, passes_along|by eapply edge_row].
      * destruct lp as [r|]; [|done]. by destruct (look l _ _) as [[m|]| |]; cbn [obind] in V; [destruct (entry_kind m _)|..].
    + cbn [obind] in V. destruct lp as [r|]; [|done]. by destruct (look l _ _) as [[m|]| |]; cbn [obind] in V; [destruct (entry_kind m _)|..].
Qed.
Lemma view_lower d l q nm r : IndexInv d -> view_at d l (q ++ [nm]) = Ok (LowerPath r) ->
  r = q ++ [nm] /\ exists u, passes d l q u (Some q) /\ forall j, u = Some j -> entries d !! (j, nm) = None.
Proof.
  intros I (u & lp & P & V)%view_at_passes; [|done]. cbn [view_from] in V.
  destruct (match u with Some parent => query_entry parent nm d | None => Ok None end) as [[e|]| |] eqn:Q; cbn [obind] in V; [..|done|done].
  - destruct (entry_state e) as [i|]; [|done]. by destruct (node i d).
  - destruct lp as [y|]; [|done]. assert (y = q) as -> by by eapply passes_lower_path.
    destruct (look l _ _) as [[m|]| |]; cbn [obind] in V; [|done..]. destruct (entry_kind m _); [|done..]. cbn in V. injection V as <-.
    split; [done|]. exists u. split; [done|]. intros j ->. unfold query_entry in Q.
    destruct (entries d !! (j, nm)) as [r|] eqn:Er; [|done]. destruct (inv_entry _ I _ _ _ Er) as (_ & s & b & -> & T & _).
    by rewrite decode_row_of in Q.
Qed.

(** ** Copying a file up *)
Record materialized (s : Share) (p : path) (old : bytes) (keep : bool) (n : NodeRecord) (s' : Share) : Prop := {
  mat_calm : calm s';
  mat_lower : lower s' = lower s;
  mat_view : view_at (tables s') (lower s) p = Ok (Upper n);
  mat_kind : n_kind (node_value n) = File;
  mat_object : exists o c, object_name (node_value n) = Some o /\ objects s' !! o = Some c /\ (keep = true -> c = old);
  mat_others : forall q, q <> p -> shows s' q = shows s q
}.
Lemma runs_commit s o c : calm s -> staging s !! o = Some c -> runs s (commit_object o) tt (publish o c s).
Proof.
  intros C E. unfold commit_object. do 3 (eapply runs_bind; [apply runs_fallible|]). eapply runs_bind; [apply runs_get|]. rewrite E.
  eapply runs_bind; [apply runs_put|apply runs_fallible].
Qed.
Lemma calm_publish s o c : calm s -> calm (publish o c s).
Proof. intros [H I]. split; [done|by apply Inv_publish]. Qed.
(** An object that nothing refers to does not show. *)
Lemma shows_unused d ob l o c q : IndexInv d -> unused o d -> contents_at d (<[o := c]> ob) l q = contents_at d ob l q.
Proof.
  intros I U. unfold contents_at. destruct (view_at d l q) as [[x|y]| |] eqn:V; [|done..]. cbn [obind contents_of].
  apply view_upper in V as (_ & E & _); [|done]. case_bool_decide; [|done]. cbn [negb]. unfold object_path.
  destruct (object_name (node_value x)) as [o'|] eqn:Eo; [|done]. cbn [ok_or obind]. rewrite lookup_insert_ne; [done|].
  intros <-. by apply (U _ _ E).
Qed.
(** Installing a file over a lower file. *)
Lemma install_file_shows l d d' ob p j nm n b i m o c :
  IndexInv d -> IndexInv d' -> along d p j (Some p) -> entries d !! (j, nm) = None -> at_path l (p ++ [nm]) = Found m -> file_type (meta m) = FtFile ->
  n_kind n = File -> object_name n = Some o -> typed_node n -> unused o d -> install_node j nm n b d = Ok (i, d') ->
  view_at d' l (p ++ [nm]) = Ok (Upper {| node_id := i; node_value := n |})
  /\ forall q, q <> p ++ [nm] -> contents_at d' (<[o := c]> ob) l q = contents_at d ob l q.
Proof.
  intros I I' A Ne Ea Ft K O T U E. pose proof (install_node_extends _ _ _ _ _ _ _ Ne E) as X. pose proof (install_differs _ _ _ _ _ _ _ E) as Df.
  pose proof (along_extends _ _ _ _ _ X A) as A'. pose proof (install_node_spec _ _ _ _ _ _ _ E) as (_ & _ & Ed).
  destruct (view_present d' l p j (Some p) nm i n b) as [V Vb]; [done..| | |done|]; [rewrite Ed; apply lookup_insert_eq..|].
  split; [done|]. intros q Nq. destruct (below_dec (p ++ [nm]) q) as [([|x r] & ->)|N]; [by rewrite app_nil_r in Nq|..].
  - unfold contents_at. rewrite <- app_assoc. cbn [app]. rewrite Vb by congruence.
    by rewrite (view_lower_file d l p (Some j) nm m) by (done || by apply along_passes || (intros ? [= <-]; done)).
  - rewrite <- (shows_unused d ob l o c) by done. unfold contents_at.
    rewrite (merged_view_frame d d' l j nm p q); [done..|by eapply along_walks|]. intros r ->. apply N. exists r. by rewrite <- app_assoc.
Qed.
Lemma shows_file s p old : shows s p = Ok old ->
  exists e, view_at (tables s) (lower s) p = Ok e /\
    match e with
    | Upper n => n_kind (node_value n) = File /\ exists o, object_name (node_value n) = Some o /\ objects s !! o = Some old
    | LowerPath r => exists m, at_path (lower s) r = Found m /\ file_type (meta m) = FtFile /\ data m = old
    end.
Proof.
  unfold shows, contents_at. destruct (view_at _ _ p) as [[n|r]| |]; [..|done|done]; cbn [obind contents_of]; intros E; eexists; (split; [done|]).
  - case_bool_decide as K; [|done]. split; [done|]. unfold object_path in E. destruct (object_name (node_value n)) as [o|]; [|done]. exists o.
    cbn in E. split; [done|]. destruct (objects s !! o) eqn:Eo; [|done]. cbn in E. by injection E as ->.
  - destruct (at_path _ r) as [| |m] eqn:Ea; [done..|]. exists m. destruct (entry_kind (meta m) p) as [k| |] eqn:Ek; [|done..]. cbn in E.
    case_bool_decide; [|done]. subst k. cbn in E. injection E as <-. split; [done|]. split; [exact (proj1 (entry_kind_File _ _) Ek)|done].
Qed.
Lemma split_parent_snoc p nm : split_parent (p ++ [nm]) = Ok (p, nm).
Proof. unfold split_parent. by rewrite last_snoc, removelast_last. Qed.
Lemma runs_start_object s o : staging s !! o = None -> runs s (start_object o) tt (s <| staging := <[o := []]> (staging s) |>).
Proof.
  intros N. unfold start_object. eapply runs_bind; [apply runs_fallible|]. eapply runs_bind; [apply runs_get|].
  rewrite bool_decide_false by by rewrite N; intros []. exact (runs_put s (fun s => s <| staging := <[o := []]> (staging s) |>)).
Qed.
(** The object is staged, filled and published. *)
Lemma runs_stage s p fresh (keep : bool) m :
  calm s -> coherent (lower s) -> at_path (lower s) p = Found m -> file_type (meta m) = FtFile -> staging s !! fresh = None ->
  exists s1, calm s1 /\ db s1 = db s /\ lower s1 = lower s /\ objects s1 = <[fresh := if keep then data m else []]> (objects s)
    /\ forall A (k : LowerLease -> op A) a s', runs s1 (k (base_record (meta m) File (Some (sha256 (data m))))) a s' ->
       runs s (do! start_object fresh; do b <- capture_staged sha256 p fresh keep; do! commit_object fresh; k b) a s'.
Proof.
  intros C Co E F N. set (s1 := s <| staging := <[fresh := []]> (staging s) |>). assert (C1 : calm s1) by by apply calm_staging.
  set (s2 := staged s1 (if keep then Some fresh else None) m).
  assert (C2 : calm s2) by (unfold s2, staged; destruct keep; [by apply calm_staging|done]).
  assert (Es : staging s2 !! fresh = Some (if keep then data m else [])) by (unfold s2, staged; destruct keep; apply lookup_insert_eq).
  exists (publish fresh (if keep then data m else []) s2).
  split; [by apply calm_publish|]. do 3 (split; [unfold s2, staged; by destruct keep|]). intros A k a s' K.
  eapply runs_bind; [by apply runs_start_object|]. fold s1. eapply runs_bind; [|eapply runs_bind; [by apply runs_commit|exact K]].
  unfold capture_staged. eapply runs_bind; [apply runs_attempt, (runs_capture_file s1 p _ m); done|]. apply runs_ret.
Qed.
Lemma typed_file m fresh : typed_meta (meta m) -> let base := base_record (meta m) File (Some (sha256 (data m))) in
  typed_node {| n_kind := File; object_name := Some fresh; symlink_target := None; n_mode := v_mode (version base);
                n_modified_at := lease_modified_at base; merge_lower := false; opaque := false; metadata_changed := false |}
  /\ typed_base (Some base).
Proof. intros T base. split; [by apply (typed_copy (meta m) File _ (Some fresh))|]. intros x [= <-]. by apply base_record_typed. Qed.
(** Copying a lower file up: its directories, its object, its node. *)
Lemma copy_up_run s fresh q nm (keep : bool) m u b :
  calm s -> coherent (lower s) -> objects s !! fresh = None -> staging s !! fresh = None ->
  bounded (tables s) b -> b + Z.of_nat (length q) < i64_max ->
  view_at (tables s) (lower s) (q ++ [nm]) = Ok (LowerPath (q ++ [nm])) -> at_path (lower s) (q ++ [nm]) = Found m -> file_type (meta m) = FtFile ->
  passes (tables s) (lower s) q u (Some q) -> (forall j, u = Some j -> entries (tables s) !! (j, nm) = None) ->
  exists n s', runs s (materialize_regular_file sha256 fresh (q ++ [nm]) keep) n s' /\ materialized s (q ++ [nm]) (data m) keep n s'.
Proof.
  intros C Co No Ns B L V Ea Ft P N. assert (U : unused fresh (tables s)) by (apply unused_new; [apply C|done]).
  assert (Tm : typed_meta (meta m)) by by apply (proj1 (inv_lower _ (proj2 C)) (q ++ [nm])).
  destruct (typed_file m fresh Tm) as [Tn Tb]. set (base := base_record (meta m) File (Some (sha256 (data m)))) in *.
  set (n := Build_NewNode _ _ _ _ _ _ _ _) in Tn.
  destruct (runs_stage s (q ++ [nm]) fresh keep m) as (s1 & C1 & Ed & El & Eo & R1); [done..|].
  destruct (ensure_run s1 (lower s) q u (Some q) b) as (i & d1 & R2 & En & B1); [done|done|by rewrite Ed..|done|]. rewrite Ed in En.
  pose proof (ensured_free _ _ _ _ _ _ _ _ En N) as Nf. assert (I1 := ens_inv _ _ _ _ _ _ _ En).
  pose proof (along_dir _ _ _ _ I1 (ens_along _ _ _ _ _ _ _ En)) as Di.
  assert (U1 : unused fresh d1).
  { intros j r Ej Oj. destruct (ens_objects _ _ _ _ _ _ _ En j r fresh Ej Oj) as (k & x & Ek & Ok_). by apply (U k x). }
  destruct (install_node_runs d1 i nm n (Some base) (b + Z.of_nat (length q))) as (k & d2 & In & _); [done..|by apply unused_free|].
  assert (I2 : IndexInv d2) by by eapply install_node_inv.
  assert (Bk1 : backed d1 s1) by (eapply backed_less; [|apply (inv_backed _ (proj2 C1))]; rewrite Ed; apply (ens_objects _ _ _ _ _ _ _ En)).
  assert (Bk2 : backed d2 s1).
  { intros j r o Ej Oj. pose proof (install_node_spec _ _ _ _ _ _ _ In) as (_ & _ & ->). cbn in Ej. apply lookup_insert_Some in Ej as [[_ <-]|[_ Ej]]; [|by apply (Bk1 j r)].
    cbn in Oj. injection Oj as <-. rewrite Eo. apply lookup_insert_is_Some'. by left. }
  assert (C2 : calm (with_index s1 d1)) by by apply calm_with_index.
  destruct (install_file_shows (lower s) d1 d2 (objects s) q i nm n (Some base) k m fresh (if keep then data m else [])) as [V2 Sh2];
    [done|done|apply (ens_along _ _ _ _ _ _ _ En)|done..|].
  exists {| node_id := k; node_value := n |}, (with_index s1 d2). split.
  - unfold materialize_regular_file. eapply runs_bind; [by apply runs_resolve|]. cbv iota. eapply runs_bind; [by apply runs_metadata|].
    eapply runs_bind; [by apply runs_outcome, entry_kind_File|]. rewrite bool_decide_true by done. cbn [negb]. apply R1.
    eapply runs_bind; [apply runs_outcome, split_parent_snoc|]. cbv iota beta. eapply runs_bind; [exact R2|].
    unfold install_or_discard. eapply runs_bind; [apply runs_attempt, (runs_install (with_index s1 d1) i nm n (Some base) k d2); done|]. apply runs_ret.
  - constructor; [by apply calm_with_index|done|done|done| |].
    + exists fresh, (if keep then data m else []). split; [done|]. split; [cbn; rewrite Eo; apply lookup_insert_eq|by intros ->].
    + intros q' Nq. unfold shows. cbn. rewrite Eo, El, Sh2 by done. apply copied_contents, (ens_copied _ _ _ _ _ _ _ En).
Qed.
Lemma materialize_run s fresh p keep old b :
  calm s -> coherent (lower s) -> shows s p = Ok old -> objects s !! fresh = None -> staging s !! fresh = None ->
  bounded (tables s) b -> b + Z.of_nat (length p) < i64_max ->
  exists n s', runs s (materialize_regular_file sha256 fresh p keep) n s' /\ materialized s p old keep n s'.
Proof.
  intros C Co Sh No Ns B L. assert (I := inv_index _ (proj2 C)). destruct (shows_file _ _ _ Sh) as ([n|r] & V & H).
  - destruct H as (K & o & On & Oc). exists n, s. split.
    + unfold materialize_regular_file. eapply runs_bind; [by apply runs_resolve|]. cbv iota. rewrite bool_decide_true by done. apply runs_ret.
    + constructor; [done..| |done]. by exists o, old.
  - destruct H as (m & Ea & Ft & <-). destruct p as [|nm q _] using rev_ind.
    { unfold view_at in V. cbn in V. by destruct (node _ _). }
    apply view_lower in V as V'; [|done]. destruct V' as (-> & u & P & N). rewrite length_app in L. cbn [length] in L.
    apply (copy_up_run s fresh q nm keep m u b); (done || lia).
Qed.

(** ** Changing a file *)
(** The view after [mark_content_changed]. *)
Definition touch (t : FileTime) (x : NodeRecord) : NodeRecord :=
  {| node_id := node_id x; node_value := (node_value x) <| n_modified_at := t |> |}.
Definition retouch (i : Z) (t : FileTime) (e : ResolvedEntry) : ResolvedEntry :=
  match e with
  | Upper x => if bool_decide (node_id x = i) then Upper (touch t x) else e
  | LowerPath _ => e
  end.
Definition marked (d : Index) (i : Z) (n : NewNode) (t : FileTime) : Index :=
  d <| nodes := <[i := node_row (n <| n_modified_at := t |>)]> (nodes d) |>.
Lemma mark_runs d i n t : nodes d !! i = Some (node_row n) -> n_kind n = File -> mark_content_changed i t d = Ok (tt, marked d i n t).
Proof. intros E K. unfold mark_content_changed. rewrite E. cbn [nr_kind node_row]. rewrite K. by destruct n. Qed.
Lemma marked_node d i n t j : nodes d !! i = Some (node_row n) -> typed_node n -> typed_time t ->
  node j (marked d i n t) = let? x := node j d in Ok (if bool_decide (node_id x = i) then touch t x else x).
Proof.
  intros E T Tt. assert (T' : typed_node (n <| n_modified_at := t |>)) by (destruct T as (? & _ & ?); by split).
  destruct (decide (i = j)) as [<-|N].
  - rewrite (node_run (marked d i n t) i _ (lookup_insert_eq _ _ _) T'), (node_run d i n E T). cbn [obind node_id]. by rewrite bool_decide_true.
  - unfold node, marked. cbn [nodes]. change (nodes (d <| nodes := <[i := node_row (n <| n_modified_at := t |>)]> (nodes d) |>)) with (<[i := node_row (n <| n_modified_at := t |>)]> (nodes d)).
    rewrite lookup_insert_ne by done. destruct (nodes d !! j) as [r|]; [|done]. destruct (decode_node j r) as [x|] eqn:Ex; [|done]. cbn [ok_or obind].
    rewrite bool_decide_false; [done|]. intros <-. apply N. unfold decode_node in Ex. by simplify_option_eq.
Qed.
Lemma view_from_marked d i n t l full names : nodes d !! i = Some (node_row n) -> n_kind n = File -> typed_node n -> typed_time t ->
  forall walked u lp, view_from (marked d i n t) l full walked u lp names = let? e := view_from d l full walked u lp names in Ok (retouch i t e).
Proof.
  intros E K T Tt. induction names as [|nm names IH]; intros walked u lp; [done|]. cbn [view_from].
  change (query_entry) with (fun parent name d => match entries d !! (parent, name) with
     | None => Ok None | Some r => let? e := ok_or (decode_entry name r) (database_error "read an upper directory entry") in Ok (Some e) end).
  cbv beta. change (entries (marked d i n t)) with (entries d).
  destruct (match u with Some parent => _ | None => _ end) as [[e|]| |]; cbn [obind]; [..|done|done].
  - destruct (entry_state e) as [j|]; [|done]. rewrite marked_node by done. destruct (node j d) as [x| |]; cbn [obind]; [|done..].
    case_bool_decide as Er; [cbn; by case_bool_decide|].
    assert (Kx : n_kind (node_value (if bool_decide (node_id x = i) then touch t x else x)) = n_kind (node_value x)) by by case_bool_decide.
    rewrite Kx. destruct (bool_decide (n_kind (node_value x) = Directory)); [|done]. cbn [negb]. case_bool_decide; apply IH.
  - destruct lp as [parent|]; [|done]. destruct (look l _ _) as [[m|]| |]; cbn [obind]; [|done..]. destruct (entry_kind m full) as [k| |]; cbn [obind]; [|done..].
    case_bool_decide; [done|]. case_bool_decide; [|done]. apply IH.
Qed.
Lemma view_marked d i n t l p : nodes d !! i = Some (node_row n) -> n_kind n = File -> typed_node n -> typed_time t ->
  view_at (marked d i n t) l p = let? e := view_at d l p in Ok (retouch i t e).
Proof.
  intros E K T Tt. unfold view_at. case_bool_decide; [|by apply view_from_marked]. rewrite marked_node by done.
  destruct (node ROOT_NODE_ID d) as [x| |]; [|done..]. cbn. by case_bool_decide.
Qed.
Lemma contents_retouch ob l p i t e : contents_of ob l p (retouch i t e) = contents_of ob l p e.
Proof. destruct e as [x|]; [|done]. cbn. by case_bool_decide. Qed.
(** The state after the contents of a file were set. *)
Definition rewritten (s : Share) (n : NodeRecord) (t : FileTime) (o c : bytes) : Share :=
  (with_index s (marked (tables s) (node_id n) (node_value n) t)) <| objects := <[o := c]> (objects s) |>.
Lemma rewritten_shows s n t o c p : calm s -> typed_time t ->
  view_at (tables s) (lower s) p = Ok (Upper n) -> n_kind (node_value n) = File -> object_name (node_value n) = Some o ->
  shows (rewritten s n t o c) p = Ok c /\ forall q, q <> p -> shows (rewritten s n t o c) q = shows s q.
Proof.
  intros C Tt V K O. assert (I := inv_index _ (proj2 C)). destruct (view_upper _ _ _ _ I V) as (W & E & T).
  unfold shows, contents_at. change (tables (rewritten s n t o c)) with (marked (tables s) (node_id n) (node_value n) t).
  change (objects (rewritten s n t o c)) with (<[o := c]> (objects s)). change (lower (rewritten s n t o c)) with (lower s). split.
  - rewrite view_marked, V by done. cbn [obind]. rewrite contents_retouch. cbn [contents_of]. rewrite bool_decide_true by done. cbn [negb].
    unfold object_path. rewrite O. cbn. by rewrite lookup_insert_eq.
  - intros q Nq. rewrite view_marked by done. destruct (view_at (tables s) (lower s) q) as [e| |] eqn:Vq; [|done..]. cbn [obind]. rewrite contents_retouch.
    destruct e as [x|r]; [|done]. cbn [contents_of]. case_bool_decide; [|done]. cbn [negb]. unfold object_path.
    destruct (object_name (node_value x)) as [o'|] eqn:Ox; [|done]. cbn [ok_or obind]. rewrite lookup_insert_ne; [done|]. intros <-.
    apply Nq. destruct (view_upper _ _ _ _ I Vq) as (Wq & Eq & _). assert (Ei : node_id x = node_id n) by (eapply (inv_object _ I); done).
    rewrite Ei in Wq. by eapply walks_unique.
Qed.

(** ** The three ways to change a file *)
Inductive FileWrite := Replace (contents : bytes) | WriteAt (offset : Z) (contents : bytes) | Truncate (length : Z).
Definition perform (f : FileWrite) (fresh : bytes) (now : FileTime) (torn : nat) (p : path) : op unit :=
  match f with
  | Replace c => write_file sha256 fresh now torn p c
  | WriteAt off c => write_at sha256 fresh now torn p off c
  | Truncate n => set_file_length sha256 fresh now p n
  end.
Definition updated (f : FileWrite) (old : bytes) : bytes :=
  match f with Replace c => c | WriteAt off c => overwrite off c old | Truncate n => resize n old end.
Lemma runs_open_object s o a c : calm s -> objects s !! o = Some c -> runs s (open_object o a) tt s.
Proof. intros C E. unfold open_object. eapply runs_bind; [by eapply runs_object|apply runs_ret]. Qed.
Lemma runs_mark s n t A (k : bytes -> op A) o a s' :
  nodes (tables s) !! node_id n = Some (node_row (node_value n)) -> n_kind (node_value n) = File -> object_name (node_value n) = Some o ->
  runs (with_index s (marked (tables s) (node_id n) (node_value n) t)) (k o) a s' ->
  runs s (do! transaction "mark upper file content changed" (mark_content_changed (node_id n) t); do name <- of_outcome (object_path (node_value n)); k name) a s'.
Proof.
  intros E K O R. eapply runs_bind; [by apply runs_transaction, mark_runs|]. eapply runs_bind; [|exact R]. apply runs_outcome. unfold object_path. by rewrite O.
Qed.
Lemma alter_known (g : bytes -> bytes) (o c : bytes) (ob : gmap bytes bytes) : ob !! o = Some c -> alter g o ob = <[o := g c]> ob.
Proof.
  intros E. apply map_eq. intros x. destruct (decide (x = o)) as [->|N]; [by rewrite lookup_alter_eq, E, lookup_insert_eq|].
  by rewrite lookup_alter_ne, lookup_insert_ne.
Qed.
Lemma overwrite_empty w : overwrite 0 w [] = w.
Proof. unfold overwrite. case_bool_decide; [done|]. change (resize 0 []) with ([] : bytes).
  replace (dropz (0 + len w) []) with ([] : bytes) by (unfold dropz; by destruct (Z.to_nat _)). apply app_nil_r. Qed.
Lemma runs_objects {A} s1 s2 (m : op A) a ob ob' : runs s1 m a (s2 <| objects := ob |>) -> ob = ob' -> runs s1 m a (s2 <| objects := ob' |>).
Proof. by intros R <-. Qed.
Lemma marked_calm s n t : calm s -> typed_time t -> nodes (tables s) !! node_id n = Some (node_row (node_value n)) -> n_kind (node_value n) = File ->
  calm (with_index s (marked (tables s) (node_id n) (node_value n) t)).
Proof.
  intros C Tt E K. apply calm_with_index; [done|eapply mark_content_changed_inv; [apply (inv_index _ (proj2 C))|exact Tt|by apply mark_runs]|].
  eapply backed_less; [|exact (inv_backed _ (proj2 C))]. by apply (no_new_update _ _ (node_row (node_value n))).
Qed.
Lemma rewritten_calm s n t o c : calm s -> typed_time t -> nodes (tables s) !! node_id n = Some (node_row (node_value n)) -> n_kind (node_value n) = File ->
  calm (rewritten s n t o c).
Proof.
  intros C Tt E K. destruct (marked_calm s n t C Tt E K) as [H I]. split; [done|]. apply (Inv_objects _ (<[o := c]> (objects s)) I).
  intros x Hx. apply lookup_insert_is_Some'. by right.
Qed.
Lemma perform_tail f s fresh now torn p n s1 old o c :
  runs s (materialize_regular_file sha256 fresh p (match f with Replace _ => false | _ => true end)) n s1 ->
  calm s1 -> typed_time now -> nodes (tables s1) !! node_id n = Some (node_row (node_value n)) -> n_kind (node_value n) = File ->
  typed_node (node_value n) -> object_name (node_value n) = Some o -> objects s1 !! o = Some c ->
  ((match f with Replace _ => false | _ => true end) = true -> c = old) ->
  runs s (perform f fresh now torn p) tt (rewritten s1 n now o (updated f old)).
Proof.
  intros R C Tt E K T O Ec Keep. set (d := marked (tables s1) (node_id n) (node_value n) now).
  assert (C1 : calm (with_index s1 d)) by by apply marked_calm.
  destruct f as [w|off w|len]; cbn [perform]; (eapply runs_bind; [exact R|]); (apply runs_mark with (o := o); [done..|]);
    (eapply runs_bind; [by eapply runs_open_object|]).
  - eapply runs_bind; [apply runs_put|].
    apply (runs_objects _ (with_index s1 d) _ _ (alter (overwrite 0 w) o (<[o := []]> (objects s1)))); [reflexivity|].
    by rewrite (alter_known _ _ []), overwrite_empty, insert_insert_eq by apply lookup_insert_eq.
  - rewrite <- Keep by done. apply (runs_objects _ (with_index s1 d) _ _ (alter (overwrite off w) o (objects s1))); [reflexivity|]. by apply alter_known.
  - rewrite <- Keep by done. eapply runs_bind; [apply runs_fallible|].
    apply (runs_objects _ (with_index s1 d) _ _ (alter (resize len) o (objects s1))); [reflexivity|]. by apply alter_known.
Qed.
End writes.

(** ** Refinement *)
(** C8: Writing refines an update of a map from paths to contents: in a reachable share
    that the host leaves alone, and without failing calls, replacing a file, writing at an
    offset and truncating succeed on every file that can be read, whether it is an upper
    one or has to be copied up from below any depth of lower directories; the file then
    reads as its updated contents, and every other path of the merged view reads as
    before. *)
Theorem writes_refine (sha256 : bytes -> bytes) (sha256_len : forall b, len (sha256 b) = 32) s f fresh now torn p old :
  reachable sha256 s -> host s = [] -> coherent (lower s) -> typed_time now ->
  objects s !! fresh = None -> staging s !! fresh = None ->
  (forall i, is_Some (nodes (tables s) !! i) -> i + Z.of_nat (length p) < i64_max) ->
  read_file p (still s) = (Ok old, still s) ->
  exists s', perform sha256 f fresh now torn p (still s) = (Ok tt, still s')
    /\ read_file p (still s') = (Ok (updated f old), still s')
    /\ forall q, q <> p -> read_file q (still s') = ((read_file q (still s)).1, still s').
Proof.
  intros I%share_inv H Co Tt No Ns B R; [|done]. assert (C : calm s) by by split.
  assert (S : forall s q, calm s -> coherent (lower s) -> read_file q (still s) = (shows s q, still s)).
  { intros s0 q C0 Co0. by apply (read_file_run q (still s0)); [apply calm_quiet|]. }
  rewrite S in R by done. injection R as Sh.
  destruct (materialize_run sha256 sha256_len s fresh p (match f with Replace _ => false | _ => true end) old (i64_max - 1 - Z.of_nat (length p))) as (n & s1 & R & M);
    [done..| |lia|].
  { split; [|intros i Hi; specialize (B i Hi); lia]. destruct (inv_root _ (inv_index _ I)) as (r & Er & _).
    specialize (B ROOT_NODE_ID (mk_is_Some _ _ Er)). unfold ROOT_NODE_ID in B. lia. }
  destruct M as [C1 El V K (o & c & O & Ec & Keep) Oth]. rewrite <- El in V, Co.
  destruct (view_upper _ _ _ _ (inv_index _ (proj2 C1)) V) as (_ & E & T).
  pose proof (perform_tail sha256 f s fresh now torn p n s1 old o c R C1 Tt E K T O Ec Keep) as Rt.
  destruct (rewritten_shows s1 n now o (updated f old) p C1 Tt V K O) as [Sp Sq].
  exists (rewritten s1 n now o (updated f old)). split; [done|].
  assert (C2 : calm (rewritten s1 n now o (updated f old))) by by apply rewritten_calm.
  split; [by rewrite S, Sp|]. intros q Nq. rewrite !S, Sq, Oth by (done || by rewrite <- El). done.
Qed.
(** A file two lower directories deep is written at an offset. *)
Lemma sample_coherent : coherent (lower_of sample_tree).
Proof.
  intros p n. cbn -[sample_tree find_path]. destruct (find_path sample_tree p) as [m|] eqn:E.
  - intros [= <-]. cbn in E. repeat (case_bool_decide; [injection E as <-; reflexivity|]). done.
  - destruct (find_path sample_tree (removelast p)); [by case_bool_decide|done].
Qed.
Lemma sample_share_reachable : reachable sample_digest sample.
Proof. exists (lower_of sample_tree). split; [apply sample_tree_typed|]. reflexivity. Qed.
Lemma writes_refine_witness :
  exists s', perform sample_digest (WriteAt 1 (str "zz")) (str "o1") sample_time 0 [str "d"; str "e"; str "g"] (still sample) = (Ok tt, still s')
    /\ read_file [str "d"; str "e"; str "g"] (still s') = (Ok (str "yzz"), still s')
    /\ read_file [str "f"] (still s') = (Ok (str "x"), still s').
Proof.
  destruct (writes_refine sample_digest sample_digest_len sample (WriteAt 1 (str "zz")) (str "o1") sample_time 0
              [str "d"; str "e"; str "g"] (str "y") sample_share_reachable eq_refl sample_coherent eq_refl eq_refl eq_refl) as (s' & E & R & O).
  - intros i [r Er]. change (({[ROOT_NODE_ID := root_row]} : gmap Z NodeRow) !! i = Some r) in Er. apply lookup_singleton_Some in Er as [<- _]. reflexivity.
  - vm_compute. reflexivity.
  - exists s'. split; [exact E|]. split; [exact R|]. rewrite O; [reflexivity|discriminate].
Defined.

(** ** Where the share does not keep its promises

    Reachable states and runs in which the merged view contradicts itself, a directory
    cannot be used, and a failing query leaves a share that cannot be opened again.  The
    states come from the same operations as in [ShareProps], on its sample. *)
(** The operations one after another, without failures. *)
Fixpoint after (ops : list Operation) (s : Share) : Share :=
  match ops with [] => s | o :: rest => after rest (dir (exec sample_digest o (still s)).2) end.
Fixpoint all_admissible (ops : list Operation) (s : Share) : Prop :=
  match ops with [] => True | o :: rest => admissible o s /\ all_admissible rest (dir (exec sample_digest o (still s)).2) end.
Lemma operations_reachable ops : all_admissible ops sample -> reachable sample_digest (after ops sample).
Proof.
  intros A. exists (lower_of sample_tree). split; [apply sample_tree_typed|]. fold sample. revert A. generalize sample.
  induction ops as [|o ops IH]; intros s A; [reflexivity|]. destruct A as [A1 A2]. eapply rtc_l; [by apply step_op|by apply IH].
Qed.
Definition names_of (r : outcome ShareFsError (list DirectoryEntry)) : list bytes :=
  match r with Ok es => map de_name es | _ => [] end.
Definition outcome_of {A} (m : op A) (s : Share) : outcome ShareFsError A := (m (still s)).1.

(** ** A directory that was removed and created again *)
Definition emptied : list Operation := [OpRemove (str "d/e/g"); OpRemove (str "d/e"); OpRemove (str "d"); OpCreateDirectory sample_time (str "d") 493].
Definition recreated : Share := after (emptied ++ [OpCreateDirectory sample_time (str "d/e") 493]) sample.
(** The listing of a directory can contradict its resolution: after the guest removed
    a lower tree and created its directories anew, the new subdirectory lists a name of
    the removed tree, and that name does not exist.  ([read_directory] merges the lower
    directory at the same path; [resolve] knows that it is hidden by the opaque parent.) *)
Lemma listing_shows_hidden_names :
  exists s p nm, reachable sample_digest s /\ host s = []
    /\ nm ∈ names_of (outcome_of (read_directory p) s) /\ outcome_of (resolve (p ++ [nm])) s = Err (NotFound (Merged (p ++ [nm]))).
Proof.
  exists recreated, [str "d"; str "e"], (str "g"). split; [apply operations_reachable; vm_compute; by split_and!|]. split; [reflexivity|]. split.
  - apply list_elem_of_In. vm_compute. by left.
  - vm_compute. reflexivity.
Qed.
(** A directory below the opaque one, which does not exist, comes back when a file is
    created in it, and [changes] does not mention it. *)
Definition opaque_only : Share := after emptied sample.
Definition resurrected : Share := dir (create_file sample_digest (str "o1") sample_time [str "d"; str "e"; str "z"] 420 (still opaque_only)).2.
Lemma hidden_directory_resurrected :
  reachable sample_digest opaque_only
  /\ outcome_of (resolve [str "d"; str "e"]) opaque_only = Err (NotFound (Merged [str "d"; str "e"]))
  /\ outcome_of (create_file sample_digest (str "o1") sample_time [str "d"; str "e"; str "z"] 420) opaque_only = Ok tt
  /\ outcome_of (read_file [str "d"; str "e"; str "z"]) resurrected = Ok []
  /\ match outcome_of (changes sample_digest) resurrected with
     | Ok cs => map change_path cs = [[str "d"]; [str "d"; str "e"; str "z"]]
     | _ => False
     end.
Proof. split; [apply operations_reachable; vm_compute; by split_and!|]. vm_compute. by split_and!. Qed.

(** A file that is renamed into a directory below the opaque one, and that has the
    contents and the mode of the removed lower file, is left out of the changes. *)
Definition renamed : Share :=
  after (emptied ++ [OpCreateFile (str "o1") sample_time (str "q") 420; OpWriteFile (str "o2") sample_time 0 (str "q") (str "y");
                     OpCreateDirectory sample_time (str "d/e") 493; OpRename (str "o3") (str "q") (str "d/e/g")]) sample.
(** The changes of a share can miss a file: there is a reachable share with a file
    that can be read, a directory above it whose change replaces the lower directory (it
    is opaque), and no change for the file, so that whoever applies the changes loses it.
    ([rename] takes the hidden lower file at the destination as the base of the renamed
    one, and [collect_changes] omits a version that equals its base.) *)
Theorem changes_miss_visible_file :
  exists s p above contents cs, reachable sample_digest s /\ host s = []
    /\ outcome_of (read_file p) s = Ok contents
    /\ outcome_of (changes sample_digest) s = Ok cs
    /\ (exists c rest, In c cs /\ change_opaque c = true /\ change_path c = above /\ rest <> [] /\ p = above ++ rest)
    /\ ~ (exists c, In c cs /\ change_path c = p).
Proof.
  exists renamed, [str "d"; str "e"; str "g"], [str "d"], (str "y"). eexists.
  split; [apply operations_reachable; vm_compute; by split_and!|]. split; [reflexivity|]. split; [vm_compute; reflexivity|].
  split; [vm_compute; reflexivity|]. split.
  - eexists _, [str "e"; str "g"]. split; [by left|]. by split_and!.
  - intros (c & H & E). revert E. destruct H as [<-|[<-|[]]]; vm_compute; discriminate.
Qed.

(** ** A directory in place of a lower file *)
Definition replaced : Share := after [OpRemove (str "f"); OpCreateDirectory sample_time (str "f") 493] sample.
Lemma replaced_file_unusable :
  reachable sample_digest replaced
  /\ outcome_of (read_directory [str "f"]) replaced = Ok []
  /\ outcome_of (resolve [str "f"; str "x"]) replaced = Err (Io "inspect a lower share entry")
  /\ outcome_of (create_file sample_digest (str "o1") sample_time [str "f"; str "x"] 420) replaced = Err (Io "inspect a lower share entry").
Proof. split; [apply operations_reachable; vm_compute; by split_and!|]. vm_compute. by split_and!. Qed.

(** ** Objects that outlive their nodes and nodes that outlive their objects *)
Definition cleared : Share := after [OpCreateFile (str "o1") sample_time (str "n") 420; OpClear] sample.
Lemma clear_leaves_objects :
  reachable sample_digest cleared /\ nodes (tables cleared) !! 2 = None /\ is_Some (objects cleared !! str "o1").
Proof. split; [apply operations_reachable; vm_compute; by split_and!|]. split; [vm_compute; reflexivity|]. by eexists; vm_compute. Qed.
(** Queries of the database that can fail. *)
Definition unreliable : Share := sample <| reads_fail := true |>.
Definition stale : World Share :=
  (create_file sample_digest (str "o1") sample_time [str "n"] 420 {| dir := unreliable; faults := repeat false 9 ++ [true] |}).2.
(** A failing query can make a share unusable: the node of a new file is committed,
    reading it back fails, and the object file of the committed node is then removed as
    if it had not been installed; afterwards the share cannot be opened any more, although
    nothing fails.  ([install_node] reads the node back after its commit, and
    [create_file] takes its error for a failed installation.) *)
Theorem readback_failure_corrupts :
  exists s fs w e, create_file sample_digest (str "o1") sample_time [str "n"] 420 {| dir := s; faults := fs |} = (Err e, w)
    /\ outcome_of open s = Ok tt
    /\ outcome_of open ((dir w) <| reads_fail := false |>) = Err CorruptState.
Proof.
  exists unreliable, (repeat false 9 ++ [true]), stale, (Database "read an upper node").
  split; [apply injective_projections; [vm_compute; reflexivity|reflexivity]|]. split; vm_compute; reflexivity.
Qed.
