(* ===== verification/ShareGate.v ===== *)
(** * The operation gate of a share

    [OperationGate] of [tascarrel-sharefs/src/filesystem/interface.rs]: a monitor that
    lets operations of the file system in, and that a freeze closes and drains.  The
    mutex makes every section between two waits atomic; a waiting thread is woken by
    [notify_all], or spuriously, and then tests its condition again. *)

From S2P Require Import Prelude.

(** ** The monitor *)
Record GateState := { active : Z; frozen : bool }.
#[export] Instance eta_GateState : Eta GateState := fun g => {| active := active g; frozen := frozen g |}.
(** What a thread of the program does with the gate: [enter] and [freeze] before their
    first test or after a wakeup, waiting, and holding the guard. *)
Inductive Phase :=
| Entering | EnterParked | Holding
| Freezing | FreezeParked | Draining | DrainParked | HoldingFreeze
| Refused | Finished.
#[export] Instance Phase_eq_dec : EqDecision Phase.
Proof. solve_decision. Defined.

(** The loop of [enter]. *)
Definition enter (g : GateState) : Phase * GateState :=
  if frozen g then (EnterParked, g)
  else match checked_add usize_max (active g) 1 with
       | Some a => (Holding, g <| active := a |>)
       | None => (Refused, g)
       end.
(** The loops of [freeze]. *)
Definition drain (g : GateState) : Phase * GateState :=
  if negb (active g =? 0) then (DrainParked, g) else (HoldingFreeze, g).
Definition freeze (g : GateState) : Phase * GateState :=
  if frozen g then (FreezeParked, g) else drain (g <| frozen := true |>).
(** The guards' [drop], and whether it notifies. *)
Definition drop_operation (g : GateState) : GateState * bool :=
  let g := g <| active := saturating_sub (active g) 1 |> in (g, active g =? 0).
Definition drop_freeze (g : GateState) : GateState * bool := (g <| frozen := false |>, true).
(** [notify_all]. *)
Definition wake (p : Phase) : Phase :=
  match p with EnterParked => Entering | FreezeParked => Freezing | DrainParked => Draining | _ => p end.

(** ** Threads *)
Definition Threads : Type := GateState * list Phase.
Definition finish (i : nat) (r : GateState * bool) (ts : list Phase) : Threads :=
  (r.1, <[i := Finished]> (if r.2 then map wake ts else ts)).
Definition advance (i : nat) (r : Phase * GateState) (ts : list Phase) : Threads := (r.2, <[i := r.1]> ts).
(** One atomic section of thread [i]; a waiting thread has none. *)
Definition turn (i : nat) (t : Threads) : option Threads :=
  let '(g, ts) := t in
  match ts !! i with
  | Some Entering => Some (advance i (enter g) ts)
  | Some Freezing => Some (advance i (freeze g) ts)
  | Some Draining => Some (advance i (drain g) ts)
  | Some Holding => Some (finish i (drop_operation g) ts)
  | Some HoldingFreeze => Some (finish i (drop_freeze g) ts)
  | _ => None
  end.
Definition moves (t t' : Threads) : Prop := exists i, turn i t = Some t'.
Inductive gate_step (t : Threads) : Threads -> Prop :=
| gate_moves t' : moves t t' -> gate_step t t'
| gate_spurious i p : t.2 !! i = Some p -> gate_step t (t.1, <[i := wake p]> t.2)
| gate_enters : gate_step t (t.1, t.2 ++ [Entering])
| gate_freezes : gate_step t (t.1, t.2 ++ [Freezing]).
Definition gate_reachable (t : Threads) : Prop := rtc gate_step ({| active := 0; frozen := false |}, []) t.

(** ** Sums over threads *)
Fixpoint weigh (f : Phase -> Z) (ts : list Phase) : Z :=
  match ts with [] => 0 | p :: rest => f p + weigh f rest end.
Lemma weigh_app f ts us : weigh f (ts ++ us) = weigh f ts + weigh f us.
Proof. induction ts as [|x ts IH]; cbn; [done|].  lia. Qed.
Lemma weigh_insert f ts i x y : ts !! i = Some x -> weigh f (<[i := y]> ts) = weigh f ts - f x + f y.
Proof.
  intros E. rewrite <- (take_drop_middle ts i x E) at 2. rewrite insert_take_drop by by eapply lookup_lt_Some.
  rewrite !weigh_app. cbn. lia.
Qed.
Lemma weigh_map f h ts : (forall x, f (h x) = f x) -> weigh f (map h ts) = weigh f ts.
Proof. intros E. induction ts as [|x ts IH]; cbn; [done|]. rewrite E.  lia. Qed.
Lemma weigh_nonneg f ts : (forall x, 0 <= f x) -> 0 <= weigh f ts.
Proof. intros P. induction ts as [|x ts IH]; cbn; [done|]. specialize (P x).  lia. Qed.
Lemma weigh_ge f ts i x : (forall x, 0 <= f x) -> ts !! i = Some x -> f x <= weigh f ts.
Proof.
  intros P E. rewrite <- (take_drop_middle ts i x E), weigh_app. cbn. pose proof (weigh_nonneg f (take i ts) P).
  pose proof (weigh_nonneg f (drop (S i) ts) P). lia.
Qed.
Lemma weigh_pos f ts : 0 < weigh f ts -> exists i x, ts !! i = Some x /\ f x <> 0.
Proof.
  induction ts as [|x ts IH]; cbn; [done|]. destruct (Z.eq_dec (f x) 0) as [E|N]; [|by exists O, x].
  intros P. destruct IH as (i & y & Ey & Ny); [lia|]. by exists (S i), y.
Qed.
Lemma weigh_one f ts i j x y : (forall x, 0 <= f x) -> weigh f ts <= 1 -> ts !! i = Some x -> ts !! j = Some y -> f x = 1 -> f y = 1 -> i = j.
Proof.
  intros P. revert i j. induction ts as [|z ts IH]; [done|]. intros i j L Ei Ej Fx Fy. cbn in L.
  assert (L' : weigh f ts <= 1) by (specialize (P z); lia).
  destruct i as [|i], j as [|j]; [done|..]; cbn in Ei, Ej.
  - injection Ei as ->. pose proof (weigh_ge f ts j y P Ej). lia.
  - injection Ej as ->. pose proof (weigh_ge f ts i x P Ei). lia.
  - f_equal. by apply (IH i j).
Qed.

(** ** The invariant *)
Definition holds (p : Phase) : Z := match p with Holding => 1 | _ => 0 end.
Definition closes (p : Phase) : Z := match p with Draining | DrainParked | HoldingFreeze => 1 | _ => 0 end.
Definition waits (p : Phase) : bool := match p with EnterParked | FreezeParked | DrainParked => true | _ => false end.
(** A phase agrees with the gate: a waiting thread waits for a condition that still
    holds, and a freeze holds its guard only when nothing else holds one. *)
Definition agrees (g : GateState) (p : Phase) : Prop :=
  match p with
  | EnterParked | FreezeParked => frozen g = true
  | DrainParked => active g <> 0
  | HoldingFreeze => active g = 0
  | _ => True
  end.
Record GateInv (t : Threads) : Prop := {
  gi_active : active t.1 = weigh holds t.2;
  gi_frozen : weigh closes t.2 = if frozen t.1 then 1 else 0;
  gi_agrees : Forall (agrees t.1) t.2
}.
Lemma holds_nonneg p : 0 <= holds p.
Proof. by destruct p. Qed.
Lemma closes_nonneg p : 0 <= closes p.
Proof. by destruct p. Qed.
Lemma holds_wake p : holds (wake p) = holds p.
Proof. by destruct p. Qed.
Lemma closes_wake p : closes (wake p) = closes p.
Proof. by destruct p. Qed.
#[local] Hint Resolve holds_nonneg closes_nonneg holds_wake closes_wake : core.
Lemma gate_nonneg t : GateInv t -> 0 <= active t.1.
Proof. intros I. rewrite (gi_active _ I). by apply weigh_nonneg. Qed.
Lemma closes_frozen t i p : GateInv t -> t.2 !! i = Some p -> closes p = 1 -> frozen t.1 = true.
Proof. intros I E C. pose proof (weigh_ge closes _ _ _ closes_nonneg E). pose proof (gi_frozen _ I). destruct (frozen t.1); [done|lia]. Qed.
(** Replacing the phase of one thread. *)
Lemma advance_inv g g' ts i x y :
  GateInv (g, ts) -> ts !! i = Some x -> active g' = active g - holds x + holds y ->
  (if frozen g' then 1 else 0) = (if frozen g then 1 else 0) - closes x + closes y ->
  agrees g' y -> (forall j p, j <> i -> ts !! j = Some p -> agrees g p -> agrees g' p) -> GateInv (g', <[i := y]> ts).
Proof.
  intros [A F G] E Ha Hf Hy Ho. cbn in *. constructor; cbn.
  - rewrite (weigh_insert _ _ _ _ _ E). lia.
  - rewrite (weigh_insert _ _ _ _ _ E). lia.
  - apply Forall_lookup. intros j p [(<- & <- & _)|[N Ej]]%list_lookup_insert_Some; [done|].
    apply (Ho j); [done..|]. by eapply Forall_lookup_1 in G.
Qed.
(** After [notify_all] nothing waits. *)
Lemma finish_inv g g' (woken : bool) ts i x :
  GateInv (g, ts) -> ts !! i = Some x -> active g' = active g - holds x ->
  (if frozen g' then 1 else 0) = (if frozen g then 1 else 0) - closes x ->
  (forall j p, j <> i -> ts !! j = Some p -> agrees g p -> (woken = true -> waits p = false) -> agrees g' p) ->
  GateInv (g', <[i := Finished]> (if woken then map wake ts else ts)).
Proof.
  intros [A F G] E Ha Hf Ho. cbn in *. set (us := if woken then map wake ts else ts).
  assert (Eu : exists x', us !! i = Some x' /\ holds x' = holds x /\ closes x' = closes x).
  { unfold us. destruct woken; [|by exists x]. exists (wake x). rewrite list_lookup_fmap, E. cbn. auto. }
  assert (Wh : weigh holds us = weigh holds ts) by (unfold us; destruct woken; [by apply weigh_map|done]).
  assert (Wc : weigh closes us = weigh closes ts) by (unfold us; destruct woken; [by apply weigh_map|done]).
  destruct Eu as (x' & Ex & Hx & Cx). constructor; cbn.
  - rewrite (weigh_insert _ _ _ _ _ Ex), Wh. cbn. lia.
  - rewrite (weigh_insert _ _ _ _ _ Ex), Wc. cbn. lia.
  - apply Forall_lookup. intros j p [(<- & <- & _)|[N Ej]]%list_lookup_insert_Some; [done|]. unfold us in Ej. destruct woken.
    + rewrite list_lookup_fmap in Ej. destruct (ts !! j) as [q|] eqn:Eq; [|done]. cbn in Ej. injection Ej as <-.
      eapply Forall_lookup_1 in G; [|exact Eq]. destruct q; try done; by apply (Ho j) in Eq.
    + apply (Ho j); [done..| |done]. by eapply Forall_lookup_1 in G.
Qed.
Lemma gate_turn_inv i t t' : GateInv t -> turn i t = Some t' -> GateInv t'.
Proof.
  intros I. pose proof (gate_nonneg _ I) as P. destruct t as [g ts]. cbn in P. unfold turn.
  destruct (ts !! i) as [[]|] eqn:E; try done; intros [= <-].
  - unfold enter. destruct (frozen g) eqn:F; [|destruct (checked_add usize_max (active g) 1) as [a|] eqn:C].
    + eapply advance_inv; [done..| | | |]; cbn; [lia|lia|done|done].
    + apply checked_add_Some in C as [-> _]. eapply advance_inv; [done..| | | |]; cbn; [lia|rewrite F; lia|done|].
      intros j [] Nj Ej; cbn; try done; [lia|]. pose proof (closes_frozen _ _ _ I Ej eq_refl). cbn in *. congruence.
    + eapply advance_inv; [done..| | | |]; cbn; [lia|lia|done|done].
  - unfold drop_operation. pose proof (weigh_ge holds _ _ _ holds_nonneg E) as W. cbn in W. pose proof (gi_active _ I) as A. cbn in A.
    eapply finish_inv; [done..| | |]; cbn; [unfold saturating_sub; lia|lia|]. intros j [] Nj Ej; cbn; try done; unfold saturating_sub.
    + intros _ Nw Z. assert (X : Z.max 0 (active g - 1) =? 0 = true) by by apply Z.eqb_eq. by specialize (Nw X).
    + lia.
  - unfold freeze. destruct (frozen g) eqn:F; [eapply advance_inv; [done..| | | |]; cbn; [lia|lia|done|done]|].
    unfold drain. cbn. destruct (active g =? 0) eqn:Z; bool_prop; cbn; (eapply advance_inv; [done..| | | |]; cbn; [lia|rewrite F; lia|done|]).
    + intros j [] Nj Ej; cbn; done.
    + intros j [] Nj Ej; cbn; done.
  - unfold drain. destruct (active g =? 0) eqn:Ea; bool_prop; cbn; (eapply advance_inv; [done..| | | |]; cbn; [lia|lia|done|done]).
  - unfold drop_freeze. pose proof (closes_frozen _ _ _ I E eq_refl) as F. cbn in F.
    eapply finish_inv; [done..| | |]; cbn; [lia|rewrite F; lia|]. intros j [] Nj Ej; cbn; try done; intros _ Nw; by specialize (Nw eq_refl).
Qed.
Lemma gate_step_inv t t' : GateInv t -> gate_step t t' -> GateInv t'.
Proof.
  intros I [t1 [i E]|i p E| |].
  - by eapply gate_turn_inv.
  - destruct t as [g ts]. cbn in *. eapply advance_inv; [done..| | | |]; rewrite ?holds_wake, ?closes_wake; [lia|lia| |done].
    pose proof (gi_agrees _ I) as G. eapply Forall_lookup_1 in G; [|exact E]. by destruct p.
  - destruct t as [g ts], I as [A F G]. cbn in *. constructor; cbn; rewrite ?weigh_app; cbn; [lia..|]. apply Forall_app. by split; [|constructor].
  - destruct t as [g ts], I as [A F G]. cbn in *. constructor; cbn; rewrite ?weigh_app; cbn; [lia..|]. apply Forall_app. by split; [|constructor].
Qed.
Lemma gate_reachable_inv t : gate_reachable t -> GateInv t.
Proof.
  intros R. unfold gate_reachable in R.
  assert (I : GateInv ({| active := 0; frozen := false |}, [])) by (constructor; [done|done|constructor]).
  revert I. induction R as [|a b c S R IH]; [done|]. intros I. by eapply IH, gate_step_inv.
Qed.

(** ** Progress *)
Definition rank (p : Phase) : Z :=
  match p with
  | Freezing => 6 | FreezeParked => 5 | Draining | Entering => 4 | DrainParked | EnterParked => 3
  | HoldingFreeze | Holding => 2 | Refused | Finished => 0
  end.
Definition unfinished (p : Phase) : Z := match p with Refused | Finished => 0 | _ => 1 end.
(** A notification wakes every thread at most once, and follows the end of one. *)
Definition potential (ts : list Phase) : Z := weigh rank ts + len ts * weigh unfinished ts.
Lemma rank_wake ts : weigh rank (map wake ts) <= weigh rank ts + len ts.
Proof. induction ts as [|x ts IH]; [done|]. cbn [map weigh]. rewrite len_cons. destruct x; cbn in *; lia. Qed.
Lemma potential_insert ts i x y : ts !! i = Some x -> rank y < rank x -> unfinished y <= unfinished x -> potential (<[i := y]> ts) < potential ts.
Proof.
  intros E R U. unfold potential. rewrite !(weigh_insert _ _ _ _ _ E). unfold len. rewrite length_insert.
  assert (0 <= Z.of_nat (length ts)) by lia. nia.
Qed.
Lemma potential_finish ts i x (woken : bool) : ts !! i = Some x -> wake x = x -> rank x = 2 ->
  potential (<[i := Finished]> (if woken then map wake ts else ts)) < potential ts.
Proof.
  intros E W R. assert (U : unfinished x = 1) by by destruct x.
  destruct woken; [|apply (potential_insert _ _ x); [done|cbn; lia|cbn; lia]].
  assert (E' : map wake ts !! i = Some x) by by rewrite list_lookup_fmap, E; cbn; rewrite W.
  unfold potential. rewrite !(weigh_insert _ _ _ _ _ E'), (weigh_map unfinished) by by intros []. cbn [rank unfinished]. rewrite R, U.
  unfold len. rewrite length_insert, length_map. pose proof (rank_wake ts). unfold len in *. nia.
Qed.
Lemma turn_potential i t t' : turn i t = Some t' -> potential t'.2 < potential t.2.
Proof.
  destruct t as [g ts]. unfold turn. destruct (ts !! i) as [[]|] eqn:E; try done; intros [= <-].
  - unfold enter. destruct (frozen g); [|destruct (checked_add _ _ _)]; by eapply potential_insert.
  - by eapply potential_finish.
  - unfold freeze, drain. destruct (frozen g); [|destruct (negb _)]; by eapply potential_insert.
  - unfold drain. destruct (negb _); by eapply potential_insert.
  - by eapply potential_finish.
Qed.
Lemma potential_nonneg ts : 0 <= potential ts.
Proof.
  unfold potential. pose proof (weigh_nonneg rank ts ltac:(by intros [])). pose proof (weigh_nonneg unfinished ts ltac:(by intros [])).
  pose proof (len_nonneg ts). nia.
Qed.
Lemma moves_terminate t : Acc (fun a b => moves b a) t.
Proof.
  remember (Z.to_nat (potential t.2)) as n eqn:En. revert t En. induction (lt_wf n) as [n _ IH]. intros t ->. constructor.
  intros t' [i E%turn_potential]. pose proof (potential_nonneg t'.2). eapply IH; [|reflexivity]. lia.
Qed.
(** Where no thread can take a turn none is waiting. *)
Lemma stuck_finished t : GateInv t -> (forall i, turn i t = None) -> forall i p, t.2 !! i = Some p -> unfinished p = 0.
Proof.
  intros I S. destruct t as [g ts]. cbn.
  assert (Nh : forall j p, ts !! j = Some p -> waits p = true \/ unfinished p = 0).
  { intros j p E. specialize (S j). unfold turn in S. rewrite E in S. destruct p; cbn; auto; done. }
  assert (Z : active g = 0).
  { pose proof (gi_active _ I) as A. cbn in A. rewrite A. destruct (Z.eq_dec (weigh holds ts) 0) as [|N]; [done|].
    destruct (weigh_pos holds ts) as (j & p & E & H); [pose proof (weigh_nonneg holds ts holds_nonneg); lia|].
    destruct (Nh j p E); by destruct p. }
  assert (G := gi_agrees _ I). cbn in G. rewrite Forall_lookup in G.
  assert (F : frozen g = false).
  { pose proof (gi_frozen _ I) as W. cbn in W. destruct (frozen g); [|done]. exfalso.
    destruct (weigh_pos closes ts) as (j & p & E & H); [lia|]. specialize (G j p E). destruct (Nh j p E); by destruct p. }
  intros i p E. specialize (G i p E). destruct (Nh i p E) as [W|]; [|done]. destruct p; try done; cbn in G; congruence.
Qed.

(** ** Properties *)
(** C25: A freeze is exclusive: whatever the interleaving of operations, freezes, drops
    and spurious wakeups, while one thread holds the freeze of the share no operation of
    the file system is in progress and no other thread holds a freeze, and an operation in
    progress keeps every freeze from being held. *)
Theorem freeze_excludes t i j :
  gate_reachable t -> t.2 !! i = Some HoldingFreeze -> t.2 !! j <> Some Holding /\ (t.2 !! j = Some HoldingFreeze -> j = i).
Proof.
  intros I%gate_reachable_inv Ei. split.
  - intros Ej. pose proof (weigh_ge holds _ _ _ holds_nonneg Ej) as W. cbn in W. rewrite <- (gi_active _ I) in W.
    pose proof (gi_agrees _ I) as G. eapply Forall_lookup_1 in G; [|exact Ei]. cbn in G. lia.
  - intros Ej. eapply (weigh_one closes t.2); [done| |exact Ej|exact Ei|done..]. rewrite (gi_frozen _ I). by destruct (frozen t.1).
Qed.
(** The gate loses no wakeup: from every reachable state, when no further threads
    arrive, every schedule of the threads ends after finitely many sections, and when no
    thread can go on, each has got its guard and dropped it; none is left waiting.  (A
    thread is refused only when as many guards as a [usize] counts are held.) *)
Theorem gate_no_lost_wakeup t :
  gate_reachable t ->
  Acc (fun a b => moves b a) t
  /\ forall t', rtc moves t t' -> (forall i, turn i t' = None) -> Forall (fun p => p = Finished \/ p = Refused) t'.2.
Proof.
  intros I%gate_reachable_inv. split; [apply moves_terminate|]. intros t' R S.
  assert (I' : GateInv t') by (clear S; induction R as [|a b c [i E] R IH]; [done|]; by eapply IH, gate_turn_inv).
  apply Forall_lookup. intros i p E. pose proof (stuck_finished _ I' S i p E). destruct p; try done; auto.
Qed.

(** ** A schedule *)
(** An operation enters, a freeze closes the gate and waits for it, a second operation
    waits for the freeze, the first ends, and the freeze is held. *)
Definition scheduled : Threads := ({| active := 0; frozen := true |}, [Finished; HoldingFreeze; Entering]).
Lemma reach_turn i t t' : gate_reachable t -> turn i t = Some t' -> gate_reachable t'.
Proof. intros R E. eapply rtc_r; [exact R|]. apply gate_moves. by exists i. Qed.
Lemma scheduled_reachable : gate_reachable scheduled.
Proof.
  apply (reach_turn 1 ({| active := 0; frozen := true |}, [Finished; Draining; Entering])); [|reflexivity].
  apply (reach_turn 0 ({| active := 1; frozen := true |}, [Holding; DrainParked; EnterParked])); [|reflexivity].
  apply (reach_turn 2 ({| active := 1; frozen := true |}, [Holding; DrainParked; Entering])); [|reflexivity].
  eapply rtc_r; [|apply (gate_enters ({| active := 1; frozen := true |}, [Holding; DrainParked]))].
  apply (reach_turn 1 ({| active := 1; frozen := false |}, [Holding; Freezing])); [|reflexivity].
  eapply rtc_r; [|apply (gate_freezes ({| active := 1; frozen := false |}, [Holding]))].
  apply (reach_turn 0 ({| active := 0; frozen := false |}, [Entering])); [|reflexivity].
  apply rtc_once, (gate_enters ({| active := 0; frozen := false |}, [])).
Qed.
Lemma freeze_excludes_witness : scheduled.2 !! 1%nat = Some HoldingFreeze /\ scheduled.2 !! 2%nat <> Some Holding.
Proof. split; [reflexivity|]. apply (freeze_excludes scheduled 1 2); [exact scheduled_reachable|reflexivity]. Defined.
Definition drained : Threads := ({| active := 0; frozen := false |}, [Finished; Finished; Finished]).
Lemma gate_no_lost_wakeup_witness : Acc (fun a b => moves b a) scheduled /\ rtc moves scheduled drained
  /\ Forall (fun p => p = Finished \/ p = Refused) drained.2.
Proof.
  assert (R : rtc moves scheduled drained).
  { eapply rtc_l; [exists 1%nat; reflexivity|]. eapply rtc_l; [exists 2%nat; reflexivity|]. apply rtc_once. exists 2%nat. reflexivity. }
  destruct (gate_no_lost_wakeup scheduled scheduled_reachable) as [A F]. split; [exact A|]. split; [exact R|].
  apply F; [exact R|]. intros [|[|[|i]]]; reflexivity.
Defined.
