(* ===== verification/Outage.v ===== *)
(** * Operations that can fail and stop

    A program over a persistent state [D] whose process may also stop at any call: a
    system call or command takes the next element of [events], which says whether it
    runs, fails, or never returns.  A command may fail or be cut off with part of its
    work done, and may time out.  A failure is an [Err] that the program can handle; a
    stop is a [Panic], which nothing handles.  The second half is a program logic in
    the style of crash Hoare logic: every triple has a condition for a stop. *)

From S2P Require Import Prelude.

(** [finished] says which parts of the work of a command were done. *)
Inductive Event := Runs | Fails (finished : list bool) (timed_out : bool) | Stops (finished : list bool).

Section programs.
Context {D E : Type}.
Record Machine := { disk : D; events : list Event }.
Definition prog (A : Type) : Type := Machine -> outcome E A * Machine.
Definition ret {A} (a : A) : prog A := fun w => (Ok a, w).
Definition raise {A} (e : E) : prog A := fun w => (Err e, w).
Definition stop {A} : prog A := fun w => (Panic "stopped", w).
Definition andthen {A B} (m : prog A) (k : A -> prog B) : prog B := fun w =>
  match m w with
  | (Ok a, w') => k a w'
  | (Err e, w') => (Err e, w')
  | (Panic s, w') => (Panic s, w')
  end.
Definition next_event : prog Event := fun w =>
  match events w with
  | e :: rest => (Ok e, {| disk := disk w; events := rest |})
  | [] => (Ok Runs, w)
  end.
Definition get : prog D := fun w => (Ok (disk w), w).
Definition put (f : D -> D) : prog unit := fun w => (Ok tt, {| disk := f (disk w); events := events w |}).
Definition of_outcome {A} (o : outcome E A) : prog A := fun w => (o, w).
(** A handled failure. *)
Definition attempt {A} (m : prog A) : prog (E + A) := fun w =>
  match m w with
  | (Ok a, w') => (Ok (inr a), w')
  | (Err e, w') => (Ok (inl e), w')
  | (Panic s, w') => (Panic s, w')
  end.
(** A system call with the effect [f], which fails without it. *)
Definition syscall (e : E) (f : D -> D) : prog unit :=
  andthen next_event (fun ev =>
    match ev with
    | Runs => put f
    | Fails _ _ => raise e
    | Stops _ => stop
    end).
(** A command with several effects, any of which may have happened when it fails. *)
Fixpoint partly (finished : list bool) (fs : list (D -> D)) (s : D) : D :=
  match finished, fs with
  | b :: finished', f :: fs' => partly finished' fs' (if b then f s else s)
  | _, _ => s
  end.
Definition all_of (fs : list (D -> D)) (s : D) : D := foldl (fun s f => f s) s fs.
Definition command (failed late : E) (unwell : D -> D) (fs : list (D -> D)) : prog unit :=
  andthen next_event (fun ev =>
    match ev with
    | Runs => put (all_of fs)
    | Fails finished true => andthen (put (fun s => unwell (partly finished fs s))) (fun _ => raise late)
    | Fails finished false => andthen (put (partly finished fs)) (fun _ => raise failed)
    | Stops finished => andthen (put (partly finished fs)) (fun _ => stop)
    end).
End programs.
Arguments Machine : clear implicits.
Arguments prog : clear implicits.
Notation "'do' x <- m ; k" := (andthen m (fun x => k)) (at level 200, x pattern, right associativity) : tsc_scope.
Notation "'do!' m ; k" := (andthen m (fun _ => k)) (at level 200, right associativity) : tsc_scope.

(** The first value that a loop returns early with. *)
Fixpoint each {D E A B} (f : A -> prog D E (option B)) (l : list A) : prog D E (option B) :=
  match l with
  | [] => ret None
  | a :: rest => do r <- f a; match r with Some b => ret (Some b) | None => each f rest end
  end.
Fixpoint gather {D E A B} (f : A -> prog D E B) (l : list A) : prog D E (list B) :=
  match l with
  | [] => ret []
  | a :: rest => do b <- f a; do bs <- gather f rest; ret (b :: bs)
  end.
Fixpoint for_each {D E A} (f : A -> prog D E unit) (l : list A) : prog D E unit :=
  match l with
  | [] => ret tt
  | a :: rest => do! f a; for_each f rest
  end.

(** ** Triples

    [hoare ok P m Q R Y]: from a state satisfying [P], and for events that all satisfy
    [ok], [m] ends with a value and a state satisfying [Q], or with an error and a state
    satisfying [R], or stops in a state satisfying [Y]. *)
Definition any_event (e : Event) : Prop := True.
(** Calls run or never return. *)
Definition crash_event (e : Event) : Prop := match e with Fails _ _ => False | _ => True end.
Definition no_event (e : Event) : Prop := e = Runs.

Section logic.
Context {D E : Type} (ok : Event -> Prop).
Implicit Types (P Y : D -> Prop) (R : E -> D -> Prop).
Definition hoare {A} P (m : prog D E A) (Q : A -> D -> Prop) R Y : Prop :=
  forall w, Forall ok (events w) -> P (disk w) ->
  Forall ok (events (m w).2)
  /\ match (m w).1 with
     | Ok a => Q a (disk (m w).2)
     | Err e => R e (disk (m w).2)
     | Panic _ => Y (disk (m w).2)
     end.

Lemma hoare_ret {A} P (a : A) (Q : A -> D -> Prop) R Y : (forall s, P s -> Q a s) -> hoare P (ret a) Q R Y.
Proof. intros H w F HP. split; [done|]. by apply H. Qed.
Lemma hoare_raise {A} P e (Q : A -> D -> Prop) R Y : (forall s, P s -> R e s) -> hoare P (raise e) Q R Y.
Proof. intros H w F HP. split; [done|]. by apply H. Qed.
Lemma hoare_bind {A B} P (m : prog D E A) (k : A -> prog D E B) M Q R Y :
  hoare P m M R Y -> (forall a, hoare (M a) (k a) Q R Y) -> hoare P (andthen m k) Q R Y.
Proof.
  intros Hm Hk w F HP. destruct (Hm w F HP) as [F' H]. unfold andthen. destruct (m w) as [[a|e|s] w']; cbn in *; [by apply Hk|done|done].
Qed.
Lemma hoare_weaken {A} P P' (m : prog D E A) (Q Q' : A -> D -> Prop) R R' Y Y' :
  hoare P m Q R Y -> (forall s, P' s -> P s) -> (forall a s, Q a s -> Q' a s) -> (forall e s, R e s -> R' e s) ->
  (forall s, Y s -> Y' s) -> hoare P' m Q' R' Y'.
Proof.
  intros T Hp Hq Hr Hy w F HP. destruct (T w F (Hp _ HP)) as [F' H]. split; [done|]. destruct ((m w).1); auto.
Qed.
Lemma hoare_get P (Q : D -> D -> Prop) R Y : (forall s, P s -> Q s s) -> hoare P get Q R Y.
Proof. intros H w F HP. split; [done|]. by apply H. Qed.
Lemma hoare_put P f (Q : unit -> D -> Prop) R Y : (forall s, P s -> Q tt (f s)) -> hoare P (put f) Q R Y.
Proof. intros H w F HP. split; [done|]. by apply H. Qed.
Lemma hoare_outcome {A} P (o : outcome E A) (Q : A -> D -> Prop) R Y :
  (forall s, P s -> match o with Ok a => Q a s | Err e => R e s | Panic _ => Y s end) -> hoare P (of_outcome o) Q R Y.
Proof. intros H w F HP. split; [done|]. cbn. specialize (H _ HP). by destruct o. Qed.
Lemma hoare_attempt {A} P (m : prog D E A) (Q : E + A -> D -> Prop) R Y :
  hoare P m (fun a => Q (inr a)) (fun e => Q (inl e)) Y -> hoare P (attempt m) Q R Y.
Proof.
  intros T w F HP. destruct (T w F HP) as [F' H]. unfold attempt. destruct (m w) as [[a|e|s] w']; by split.
Qed.
Lemma hoare_event P (Q : Event -> D -> Prop) R Y : ok Runs -> (forall e s, ok e -> P s -> Q e s) -> hoare P next_event Q R Y.
Proof.
  intros O H w F HP. unfold next_event. destruct (events w) as [|e rest] eqn:Ee; cbn.
  - split; [by rewrite Ee|]. by apply H.
  - apply Forall_cons in F as [F1 F2]. split; [done|]. by apply H.
Qed.
Lemma hoare_syscall P e f (Q : unit -> D -> Prop) R Y :
  ok Runs -> (forall s, P s -> Q tt (f s)) -> (forall b t s, ok (Fails b t) -> P s -> R e s) ->
  (forall b s, ok (Stops b) -> P s -> Y s) -> hoare P (syscall e f) Q R Y.
Proof.
  intros O H1 H2 H3. eapply (hoare_bind _ _ _ (fun ev s => ok ev /\ P s)); [by apply hoare_event|].
  intros [|b t|b]; [apply hoare_put; naive_solver|apply hoare_raise|]; [intros s [? ?]; by eapply H2|].
  intros w F [O' HP]. split; [done|]. by eapply H3.
Qed.
Lemma hoare_command P failed late unwell fs (Q : unit -> D -> Prop) R Y :
  ok Runs -> (forall s, P s -> Q tt (all_of fs s)) ->
  (forall b s, ok (Fails b false) -> P s -> R failed (partly b fs s)) ->
  (forall b s, ok (Fails b true) -> P s -> R late (unwell (partly b fs s))) ->
  (forall b s, ok (Stops b) -> P s -> Y (partly b fs s)) -> hoare P (command failed late unwell fs) Q R Y.
Proof.
  intros O H1 H2 H3 H4. eapply (hoare_bind _ _ _ (fun ev s => ok ev /\ P s)); [by apply hoare_event|].
  intros [|b [|]|b].
  - apply hoare_put. naive_solver.
  - eapply (hoare_bind _ _ _ (fun _ => R late)); [apply hoare_put; naive_solver|intros []; by apply hoare_raise].
  - eapply (hoare_bind _ _ _ (fun _ => R failed)); [apply hoare_put; naive_solver|intros []; by apply hoare_raise].
  - eapply (hoare_bind _ _ _ (fun _ => Y)); [apply hoare_put; naive_solver|]. intros [] w F HY. by split.
Qed.
Lemma hoare_pure {A} (X : Prop) P (m : prog D E A) Q R Y : (X -> hoare P m Q R Y) -> hoare (fun s => X /\ P s) m Q R Y.
Proof. intros T w F [H1 H2]. by apply T. Qed.
Lemma hoare_exists {A B} (P : B -> D -> Prop) (m : prog D E A) Q R Y :
  (forall b, hoare (P b) m Q R Y) -> hoare (fun s => exists b, P b s) m Q R Y.
Proof. intros T w F [b H]. by apply (T b). Qed.
(** Naming the initial state. *)
Lemma hoare_at {A} P (m : prog D E A) Q R Y : (forall s, P s -> hoare (eq s) m Q R Y) -> hoare P m Q R Y.
Proof. intros T w F H. by apply (T (disk w)). Qed.
Lemma hoare_pre {A} P P' (m : prog D E A) (Q : A -> D -> Prop) R Y : hoare P m Q R Y -> (forall s, P' s -> P s) -> hoare P' m Q R Y.
Proof. intros T H. eapply hoare_weaken; eauto. Qed.
(** A loop that keeps an assertion. *)
Lemma hoare_for_each {A} (P : list A -> D -> Prop) (f : A -> prog D E unit) R Y l :
  (forall a rest, hoare (P (a :: rest)) (f a) (fun _ => P rest) R Y) -> hoare (P l) (for_each f l) (fun _ => P []) R Y.
Proof.
  intros H. induction l as [|a l IH]; cbn [for_each]; [by apply hoare_ret|]. eapply hoare_bind; [apply H|]. intros []. exact IH.
Qed.
End logic.
(** A run without events, and one that a triple speaks about. *)
Lemma hoare_run {D E A} ok (P : D -> Prop) (m : prog D E A) Q R Y w r w' :
  hoare ok P m Q R Y -> Forall ok (events w) -> P (disk w) -> m w = (r, w') ->
  match r with Ok a => Q a (disk w') | Err e => R e (disk w') | Panic _ => Y (disk w') end.
Proof. intros T F H X. destruct (T w F H) as [_ G]. by rewrite X in G. Qed.

(** ** Programs that only read

    [reads ok s m Q R]: [m] leaves the state [s]; its value satisfies [Q] and its error
    satisfies [R]. *)
Definition can_fail (ok : Event -> Prop) : Prop := exists finished timed_out, ok (Fails finished timed_out).
Lemma crash_cannot_fail : ~ can_fail crash_event.
Proof. by intros (b & t & H). Qed.

Section reading.
Context {D E : Type} (ok : Event -> Prop) (Runs_ok : ok Runs).
Definition reads {A} (s : D) (m : prog D E A) (Q : A -> Prop) (R : E -> Prop) : Prop :=
  hoare ok (eq s) m (fun a s' => s' = s /\ Q a) (fun e s' => s' = s /\ R e) (eq s).

Lemma reads_ret {A} s (a : A) (Q : A -> Prop) R : Q a -> reads s (ret a) Q R.
Proof. intros H. apply hoare_ret. by intros ? <-. Qed.
Lemma reads_raise {A} s e (Q : A -> Prop) (R : E -> Prop) : R e -> reads s (raise e) Q R.
Proof. intros H. apply hoare_raise. by intros ? <-. Qed.
Lemma reads_bind {A B} s (m : prog D E A) (k : A -> prog D E B) M Q R :
  reads s m M R -> (forall a, M a -> reads s (k a) Q R) -> reads s (andthen m k) Q R.
Proof.
  intros H1 H2. eapply hoare_bind; [exact H1|]. intros a. eapply hoare_pre; [apply hoare_pure; exact (H2 a)|]. by intros ? [-> ?].
Qed.
Lemma reads_weaken {A} s (m : prog D E A) (Q Q' : A -> Prop) (R R' : E -> Prop) :
  reads s m Q R -> (forall a, Q a -> Q' a) -> (forall e, R e -> R' e) -> reads s m Q' R'.
Proof. intros H HQ HR. eapply hoare_weaken; [exact H|done|naive_solver|naive_solver|done]. Qed.
Lemma reads_get s (Q : D -> Prop) R : Q s -> reads s get Q R.
Proof. intros H. apply hoare_get. by intros ? <-. Qed.
Lemma reads_outcome {A} s (o : outcome E A) (Q : A -> Prop) R :
  (match o with Ok a => Q a | Err e => R e | Panic _ => True end) -> reads s (of_outcome o) Q R.
Proof. intros H. apply hoare_outcome. intros ? <-. by destruct o. Qed.
Lemma reads_attempt {A} s (m : prog D E A) (Q : E + A -> Prop) R R' :
  reads s m (fun a => Q (inr a)) R -> (forall e, R e -> Q (inl e)) -> reads s (attempt m) Q R'.
Proof. intros H HR. apply hoare_attempt. eapply hoare_weaken; [exact H|done|naive_solver|naive_solver|done]. Qed.
Lemma reads_syscall s e f (Q : unit -> Prop) (R : E -> Prop) :
  f s = s -> Q tt -> (can_fail ok -> R e) -> reads s (syscall e f) Q R.
Proof.
  intros Hf HQ HR. apply hoare_syscall; [done|by intros ? <-| |by intros ? ? ? <-]. intros b t ? O <-. split; [done|]. apply HR. by exists b, t.
Qed.
Lemma reads_gather {A B} s (f : A -> prog D E B) (q : A -> B -> Prop) R l :
  (forall a, a ∈ l -> reads s (f a) (q a) R) -> reads s (gather f l) (fun bs => Forall2 q l bs) R.
Proof.
  induction l as [|a l IH]; intros H; cbn [gather]; [by apply reads_ret|].
  eapply reads_bind; [apply H; left|]. intros b Hb. eapply reads_bind; [apply IH; intros; apply H; by right|].
  intros bs Hbs. apply reads_ret. by constructor.
Qed.
Lemma reads_each {A B} s (f : A -> prog D E (option B)) (g : A -> option B) R l :
  (forall a, a ∈ l -> reads s (f a) (fun r => r = g a) R) -> reads s (each f l) (fun r => r = head (omap g l)) R.
Proof.
  induction l as [|a l IH]; intros H; cbn [each]; [by apply reads_ret|].
  eapply reads_bind; [apply H; left|]. intros r ->. cbn [omap list_omap]. destruct (g a); [by apply reads_ret|]. apply IH. intros; apply H; by right.
Qed.
(** A read in front of a program with a triple. *)
Lemma reads_then {A B} s (m : prog D E A) (k : A -> prog D E B) M (RM : E -> Prop) Q (R : E -> D -> Prop) (Y : D -> Prop) :
  reads s m M RM -> (forall e, RM e -> R e s) -> Y s -> (forall a, M a -> hoare ok (eq s) (k a) Q R Y) ->
  hoare ok (eq s) (andthen m k) Q R Y.
Proof.
  intros H HR HY Hk. eapply hoare_bind.
  - eapply hoare_weaken; [exact H|done| |intros e ? [-> ?]; by apply HR|by intros ? <-]. intros a ? X. exact X.
  - intros a. eapply hoare_pre; [apply hoare_pure; exact (Hk a)|]. by intros ? [-> ?].
Qed.
End reading.
Lemma Forall2_fun {A B} (f : A -> B) l bs : Forall2 (fun a b => b = f a) l bs -> bs = f <$> l.
Proof. induction 1; csimpl; congruence. Qed.

(** The value of a reading program as a function of the state: [m] computes [o], unless
    a call fails. *)
Section computing.
Context {D E : Type} (ok : Event -> Prop) (Runs_ok : ok Runs).
Definition computes {A} (s : D) (m : prog D E A) (o : outcome E A) : Prop :=
  reads ok s m (fun a => o = Ok a) (fun e => can_fail ok \/ o = Err e).
Lemma computes_ret {A} s (a : A) : computes s (ret a) (Ok a).
Proof. by apply reads_ret. Qed.
Lemma computes_raise {A} s e : computes (A := A) s (raise e) (Err e).
Proof. apply reads_raise. by right. Qed.
Lemma computes_get s : computes s get (Ok s).
Proof. by apply reads_get. Qed.
Lemma computes_outcome {A} s (o : outcome E A) : computes s (of_outcome o) o.
Proof. apply reads_outcome. destruct o; naive_solver. Qed.
Lemma computes_same s e f : f s = s -> computes s (syscall e f) (Ok tt).
Proof. intros H. apply reads_syscall; [done|done|done|by left]. Qed.
Lemma computes_bind {A B} s (m : prog D E A) (k : A -> prog D E B) o (g : A -> outcome E B) :
  computes s m o -> (forall a, o = Ok a -> computes s (k a) (g a)) -> computes s (andthen m k) (let? a := o in g a).
Proof.
  intros Hm Hk. eapply reads_bind.
  - eapply reads_weaken; [exact Hm|intros a Ha; exact Ha|]. intros e [?| ->]; [by left|by right].
  - intros a ->. apply Hk. done.
Qed.
Lemma computes_step {A B} s (m : prog D E A) (k : A -> prog D E B) a o :
  computes s m (Ok a) -> computes s (k a) o -> computes s (andthen m k) o.
Proof. intros Hm Hk. apply (computes_bind _ _ _ (Ok a) (fun _ => o)); [done|]. by intros ? [= <-]. Qed.
Lemma computes_fail {A B} s (m : prog D E A) (k : A -> prog D E B) e : computes s m (Err e) -> computes s (andthen m k) (Err e).
Proof. intros Hm. by apply (computes_bind _ _ _ (Err e) (fun _ => Err e)). Qed.
Lemma computes_eq {A} s (m : prog D E A) o o' : computes s m o -> o = o' -> computes s m o'.
Proof. by intros ? <-. Qed.
Lemma computes_ok {A} s (m : prog D E A) a : computes s m (Ok a) <-> reads ok s m (fun x => x = a) (fun _ => can_fail ok).
Proof. split; intros H; (eapply reads_weaken; [exact H|naive_solver|naive_solver]). Qed.
Lemma computes_gather {A B} s (f : A -> prog D E B) (g : A -> B) l :
  (forall a, a ∈ l -> computes s (f a) (Ok (g a))) -> computes s (gather f l) (Ok (map g l)).
Proof.
  intros H. apply computes_ok. eapply reads_weaken; [apply (reads_gather _ _ _ (fun a b => b = g a)); intros a Ha; by apply computes_ok, H| |done].
  intros bs. apply (Forall2_fun g).
Qed.
Lemma computes_each {A B} s (f : A -> prog D E (option B)) (g : A -> option B) l :
  (forall a, a ∈ l -> computes s (f a) (Ok (g a))) -> computes s (each f l) (Ok (head (omap g l))).
Proof. intros H. apply computes_ok, reads_each. intros a Ha. by apply computes_ok, H. Qed.
(** What a handled failure of [m] can be. *)
Definition answer {A} (o : outcome E A) (r : E + A) : Prop :=
  match r with inr a => o = Ok a | inl e => can_fail ok \/ o = Err e end.
Lemma computes_attempt {A} s (m : prog D E A) o R : computes s m o -> reads ok s (attempt m) (answer o) R.
Proof. intros H. eapply reads_attempt; [exact H|]. done. Qed.
(** A computation in front of a program with a triple. *)
Lemma computes_then {A B} s (m : prog D E A) (k : A -> prog D E B) o Q (R : E -> D -> Prop) (Y : D -> Prop) :
  computes s m o -> (forall e, can_fail ok \/ o = Err e -> R e s) -> Y s -> (forall a, o = Ok a -> hoare ok (eq s) (k a) Q R Y) ->
  hoare ok (eq s) (andthen m k) Q R Y.
Proof. intros H ? ? ?. by eapply reads_then; [exact H|..]. Qed.
End computing.

(** ** Invariants of programs *)
Section keeping.
Context {D E : Type} (ok : Event -> Prop) (Runs_ok : ok Runs).
Implicit Types (P : D -> Prop).
Definition keeps {A} P (m : prog D E A) : Prop := hoare ok P m (fun _ => P) (fun _ => P) P.
Lemma keeping_ret {A} P (a : A) : keeps P (ret a).
Proof. by apply hoare_ret. Qed.
Lemma keeping_raise {A} P e : keeps (A := A) P (raise e).
Proof. by apply hoare_raise. Qed.
Lemma keeping_stop {A} P : keeps (A := A) P stop.
Proof. by intros w F H. Qed.
Lemma keeping_get P : keeps P get.
Proof. by apply hoare_get. Qed.
Lemma keeping_outcome {A} P (o : outcome E A) : keeps P (of_outcome o).
Proof. apply hoare_outcome. intros s H. by destruct o. Qed.
Lemma keeping_bind {A B} P (m : prog D E A) (k : A -> prog D E B) : keeps P m -> (forall a, keeps P (k a)) -> keeps P (andthen m k).
Proof. intros H1 H2. by eapply hoare_bind. Qed.
Lemma keeping_attempt {A} P (m : prog D E A) : keeps P m -> keeps P (attempt m).
Proof. intros H. by apply hoare_attempt. Qed.
Lemma keeping_put P f : (forall s, P s -> P (f s)) -> keeps P (put f).
Proof. intros H. by apply hoare_put. Qed.
Lemma keeping_event P : keeps P next_event.
Proof. by apply hoare_event. Qed.
Lemma keeping_syscall P e f : (forall s, P s -> P (f s)) -> keeps P (syscall e f).
Proof. intros H. by apply hoare_syscall. Qed.
Lemma partly_keeps P fs : Forall (fun f => forall s, P s -> P (f s)) fs -> forall finished s, P s -> P (partly finished fs s).
Proof. induction 1 as [|f fs Hf _ IH]; intros [|[] finished] s Hs; cbn; auto. Qed.
Lemma all_of_keeps P fs : Forall (fun f => forall s, P s -> P (f s)) fs -> forall s, P s -> P (all_of fs s).
Proof. unfold all_of. induction 1 as [|f fs Hf _ IH]; intros s Hs; cbn; auto. Qed.
Lemma keeping_command P failed late unwell fs :
  Forall (fun f => forall s, P s -> P (f s)) fs -> (forall s, P s -> P (unwell s)) -> keeps P (command failed late unwell fs).
Proof.
  intros H U. apply hoare_command; [done|by apply all_of_keeps|..]; intros b s _ Hs; [|apply U|]; by apply partly_keeps.
Qed.
Lemma keeping_gather {A B} P (f : A -> prog D E B) l : (forall a, a ∈ l -> keeps P (f a)) -> keeps P (gather f l).
Proof.
  induction l as [|a l IH]; intros H; cbn [gather]; [apply keeping_ret|]. apply keeping_bind; [apply H; left|]. intros b.
  apply keeping_bind; [apply IH; intros; apply H; by right|]. intros. apply keeping_ret.
Qed.
Lemma keeping_each {A B} P (f : A -> prog D E (option B)) l : (forall a, a ∈ l -> keeps P (f a)) -> keeps P (each f l).
Proof.
  induction l as [|a l IH]; intros H; cbn [each]; [apply keeping_ret|]. apply keeping_bind; [apply H; left|].
  intros [b|]; [apply keeping_ret|]. apply IH; intros; apply H; by right.
Qed.
Lemma keeping_for_each {A} P (f : A -> prog D E unit) l : (forall a, a ∈ l -> keeps P (f a)) -> keeps P (for_each f l).
Proof.
  induction l as [|a l IH]; intros H; cbn [for_each]; [apply keeping_ret|]. apply keeping_bind; [apply H; left|].
  intros []. apply IH; intros; apply H; by right.
Qed.
(** Keeping an assertion in front of a triple. *)
Lemma keeping_then {A B} P (m : prog D E A) (k : A -> prog D E B) Q (R : E -> D -> Prop) (Y : D -> Prop) :
  keeps P m -> (forall e s, P s -> R e s) -> (forall s, P s -> Y s) -> (forall a, hoare ok P (k a) Q R Y) ->
  hoare ok P (andthen m k) Q R Y.
Proof. intros H HR HY Hk. eapply hoare_bind; [|exact Hk]. eapply hoare_weaken; [exact H|auto..]. Qed.
Lemma reads_keeps {A} P (m : prog D E A) Q R : (forall s, P s -> reads ok s m Q R) -> keeps P m.
Proof.
  intros H. apply hoare_at. intros s Hs. eapply hoare_weaken; [exact (H s Hs)|done|..]; cbn; [by intros ? ? [-> _]|by intros ? ? [-> _]|by intros ? <-].
Qed.
Lemma keeping_found {A B} P (m : prog D E A) (k : A -> prog D E B) (M : A -> Prop) R :
  (forall s, P s -> reads ok s m M R) -> (forall a, M a -> keeps P (k a)) -> keeps P (andthen m k).
Proof.
  intros H Hk. apply hoare_at. intros s Hs. eapply reads_then; [by apply H|done|done|]. intros a Ha. eapply hoare_pre; [by apply Hk|]. by intros ? <-.
Qed.
End keeping.

(** ** Runs that can only stop

    When calls run or never return, a program from a state has one result.
    [runs s m r s' Y]: from [s] it is [r], with the state [s']; where [m] stops, [Y]
    holds. *)
Section running.
Context {D E : Type}.
Implicit Types (s : D) (Y : D -> Prop).
Definition runs {A} s (m : prog D E A) (r : outcome E A) s' Y : Prop :=
  hoare crash_event (eq s) m (fun a x => r = Ok a /\ x = s') (fun e x => r = Err e /\ x = s') Y.
Lemma running_ret {A} s (a : A) Y : runs s (ret a) (Ok a) s Y.
Proof. apply hoare_ret. by intros ? <-. Qed.
Lemma running_raise {A} s e Y : runs (A := A) s (raise e) (Err e) s Y.
Proof. apply hoare_raise. by intros ? <-. Qed.
Lemma running_bind {A B} s s1 s2 (m : prog D E A) (k : A -> prog D E B) a r Y :
  runs s m (Ok a) s1 Y -> runs s1 (k a) r s2 Y -> runs s (andthen m k) r s2 Y.
Proof.
  intros H1 H2. eapply hoare_bind; [eapply hoare_weaken; [exact H1|done|intros ? ? X; exact X|by intros ? ? [? _]|done]|].
  intros b. eapply hoare_pre; [apply (hoare_pure _ (@Ok E A a = Ok b) (eq s1)); intros [= <-]; exact H2|]. by intros ? [? ->].
Qed.
Lemma running_fail {A B} s s1 (m : prog D E A) (k : A -> prog D E B) e Y : runs s m (Err e) s1 Y -> runs s (andthen m k) (Err e) s1 Y.
Proof.
  intros H. eapply (hoare_bind _ _ _ _ (fun _ _ => False)); [eapply hoare_weaken; [exact H|done|by intros ? ? [? _]|naive_solver|done]|]. intros a w F X. exfalso. exact X.
Qed.
Lemma running_attempt {A} s s1 (m : prog D E A) a Y : runs s m (Ok a) s1 Y -> runs s (attempt m) (Ok (inr a)) s1 Y.
Proof. intros H. apply hoare_attempt. eapply hoare_weaken; [exact H|done|..|done]; cbn; intros ? ? [X ->]; simplify_eq; done. Qed.
Lemma running_handled {A} s s1 (m : prog D E A) e Y : runs s m (Err e) s1 Y -> runs s (attempt m) (Ok (inl e)) s1 Y.
Proof. intros H. apply hoare_attempt. eapply hoare_weaken; [exact H|done|..|done]; cbn; intros ? ? [X ->]; simplify_eq; done. Qed.
Lemma running_computes {A} s (m : prog D E A) o Y : computes crash_event s m o -> Y s -> runs s m o s Y.
Proof.
  intros H HY. eapply hoare_weaken; [exact H|done|naive_solver| |by intros ? <-]. intros e ? [-> [X|X]]; [by destruct (crash_cannot_fail X)|done].
Qed.
Lemma running_syscall s e f Y : Y s -> runs s (syscall e f) (Ok tt) (f s) Y.
Proof. intros H. apply hoare_syscall; [done|by intros ? <-|intros ? ? ? X; exfalso; exact X|by intros ? ? _ <-]. Qed.
Lemma running_command s failed late unwell fs Y :
  (forall finished, Y (partly finished fs s)) -> runs s (command failed late unwell fs) (Ok tt) (all_of fs s) Y.
Proof. intros H. apply hoare_command; [done|by intros ? <-|intros ? ? X; exfalso; exact X|intros ? ? X; exfalso; exact X|by intros ? ? _ <-]. Qed.
Lemma running_weaken {A} s (m : prog D E A) r s' Y Y' : runs s m r s' Y -> (forall x, Y x -> Y' x) -> runs s m r s' Y'.
Proof. intros H HY. eapply hoare_weaken; [exact H|done|naive_solver|naive_solver|done]. Qed.
Lemma running_eq {A} s (m : prog D E A) r r' s' s'' Y : runs s m r s' Y -> r = r' -> s' = s'' -> runs s m r' s'' Y.
Proof. by intros H <- <-. Qed.
End running.

(** ** Programs that return

    [returns m]: whatever fails, [m] ends with a value or an error, unless a call never
    returns. *)
Definition answered (e : Event) : Prop := match e with Stops _ => False | _ => True end.
Section returning.
Context {D E : Type}.
Definition returns {A} (m : prog D E A) : Prop := hoare answered (fun _ => True) m (fun _ _ => True) (fun _ _ => True) (fun _ => False).
Lemma returns_ret {A} (a : A) : returns (ret a).
Proof. by apply hoare_ret. Qed.
Lemma returns_raise {A} e : returns (A := A) (raise e).
Proof. by apply hoare_raise. Qed.
Lemma returns_get : returns get.
Proof. by apply hoare_get. Qed.
Lemma returns_put f : returns (put f).
Proof. by apply hoare_put. Qed.
Lemma returns_outcome {A} (o : outcome E A) : (forall x, o <> Panic x) -> returns (of_outcome o).
Proof. intros H. apply hoare_outcome. intros s _. destruct o; [done|done|]. by eapply H. Qed.
Lemma returns_bind {A B} (m : prog D E A) (k : A -> prog D E B) : returns m -> (forall a, returns (k a)) -> returns (andthen m k).
Proof. intros H1 H2. by eapply hoare_bind. Qed.
Lemma returns_attempt {A} (m : prog D E A) : returns m -> returns (attempt m).
Proof. intros H. by apply hoare_attempt. Qed.
Lemma returns_syscall e f : returns (syscall e f).
Proof. apply hoare_syscall; [done|done|done|]. intros b s X. exfalso. exact X. Qed.
Lemma returns_command failed late unwell fs : returns (command failed late unwell fs).
Proof. apply hoare_command; [done|done|done|done|]. intros b s X. exfalso. exact X. Qed.
Lemma returns_gather {A B} (f : A -> prog D E B) l : (forall a, returns (f a)) -> returns (gather f l).
Proof. intros H. induction l; cbn [gather]; [apply returns_ret|]. apply returns_bind; [done|]. intros b. apply returns_bind; [done|]. intros. apply returns_ret. Qed.
Lemma returns_each {A B} (f : A -> prog D E (option B)) l : (forall a, returns (f a)) -> returns (each f l).
Proof. intros H. induction l; cbn [each]; [apply returns_ret|]. apply returns_bind; [done|]. intros [b|]; [apply returns_ret|done]. Qed.
Lemma returns_for_each {A} (f : A -> prog D E unit) l : (forall a, returns (f a)) -> returns (for_each f l).
Proof. intros H. induction l; cbn [for_each]; [apply returns_ret|]. by apply returns_bind. Qed.
Lemma returns_run {A} (m : prog D E A) w r w' : returns m -> Forall answered (events w) -> m w = (r, w') -> forall x, r <> Panic x.
Proof. intros H F X x ->. exact (hoare_run _ _ _ _ _ _ w _ _ H F I X). Qed.
End returning.

(** ** Runs from one state

    What a program does from the state [w], whatever fails: an error and a stop leave a
    state satisfying [R]. *)
Section ending.
Context {D E : Type}.
Implicit Types (w : D) (R : D -> Prop).
Definition ends {A} w (m : prog D E A) (Q : A -> D -> Prop) R : Prop := hoare any_event (eq w) m Q (fun _ => R) R.
Lemma ends_bind {A B} w (m : prog D E A) (k : A -> prog D E B) M Q R :
  ends w m M R -> (forall a w', M a w' -> ends w' (k a) Q R) -> ends w (andthen m k) Q R.
Proof. intros H1 H2. eapply hoare_bind; [exact H1|]. intros a. apply hoare_at. intros w' Hw. by apply H2. Qed.
Lemma ends_ret {A} w (a : A) (Q : A -> D -> Prop) R : Q a w -> ends w (ret a) Q R.
Proof. intros H. apply hoare_ret. by intros ? <-. Qed.
Lemma ends_raise {A} w e (Q : A -> D -> Prop) R : R w -> ends w (raise e) Q R.
Proof. intros H. apply hoare_raise. by intros ? <-. Qed.
Lemma ends_outcome {A} w (o : outcome E A) (Q : A -> D -> Prop) R :
  (forall a, o = Ok a -> Q a w) -> R w -> ends w (of_outcome o) Q R.
Proof. intros H1 H2. apply hoare_outcome. intros ? <-. destruct o; auto. Qed.
Lemma ends_syscall w e f (Q : unit -> D -> Prop) R : Q tt (f w) -> R w -> ends w (syscall e f) Q R.
Proof. intros H1 H2. apply hoare_syscall; [done|by intros ? <-|by intros ? ? ? ? <-|by intros ? ? ? <-]. Qed.
Lemma ends_put w f (Q : unit -> D -> Prop) R : Q tt (f w) -> ends w (put f) Q R.
Proof. intros H. apply hoare_put. by intros ? <-. Qed.
Lemma ends_get w (Q : D -> D -> Prop) R : Q w w -> ends w get Q R.
Proof. intros H. apply hoare_get. by intros ? <-. Qed.
Lemma ends_attempt {A} w (m : prog D E A) (Q : E + A -> D -> Prop) (R S : D -> Prop) :
  ends w m (fun a => Q (inr a)) S -> (forall e w', S w' -> Q (inl e) w') -> (forall w', S w' -> R w') -> ends w (attempt m) Q R.
Proof. intros H1 H2 H3. apply hoare_attempt. eapply hoare_weaken; [exact H1|done|done|intros e w' H; by apply H2|done]. Qed.
Lemma ends_weaken {A} w (m : prog D E A) (Q Q' : A -> D -> Prop) (R R' : D -> Prop) :
  ends w m Q R -> (forall a w', Q a w' -> Q' a w') -> (forall w', R w' -> R' w') -> ends w m Q' R'.
Proof. intros H HQ HR. eapply hoare_weaken; [exact H|done|done|intros ?; done|done]. Qed.
Lemma ends_keeps {A} (P : D -> Prop) (m : prog D E A) : (forall w, P w -> ends w m (fun _ => P) P) -> keeps any_event P m.
Proof. intros H. apply hoare_at. intros w Hw. by apply H. Qed.
Lemma keeps_ends {A} (P : D -> Prop) (m : prog D E A) w : keeps any_event P m -> P w -> ends w m (fun _ => P) P.
Proof. intros H Hw. eapply hoare_pre; [exact H|by intros ? <-]. Qed.
Lemma keeps_run {A} (P : D -> Prop) (m : prog D E A) w evs : keeps any_event P m -> P w -> P (disk (m {| disk := w; events := evs |}).2).
Proof.
  intros H Pw. destruct (H {| disk := w; events := evs |}) as [_ H']; [by apply Forall_forall|done|].
  by destruct ((m {| disk := w; events := evs |}).1).
Qed.
End ending.
