(* ===== verification/PodTypes.v ===== *)
(** * Pod storage: identifiers, manifests and errors

    [guestd/runtime/pod/id.rs], [manifest.rs] and the configuration of an image in
    [store.rs].  Identifiers name files of the store; their constructors admit single
    safe path components only. *)

From S2P Require Import Prelude Lists Text.

(** ** Identifiers *)
Definition MAX_POD_ID_LEN : Z := 64.
Definition MAX_DIGEST_ALGORITHM_LEN : Z := 32.
Definition MIN_DIGEST_ENCODED_LEN : Z := 16.
Definition MAX_DIGEST_ENCODED_LEN : Z := 128.
Inductive IdentifierError := InvalidPodId (reason : string) | InvalidImageId (reason : string).
Definition id_byte (b : Z) : bool := is_ascii_alphanumeric b || (b =? 95) || (b =? 45).
Definition pod_id (value : bytes) : outcome IdentifierError bytes :=
  if bool_decide (value = []) || (MAX_POD_ID_LEN <? len value)
  then Err (InvalidPodId "length must be between 1 and 64 bytes")
  else
    match value with
    | first :: rest =>
        if negb (is_ascii_alphanumeric first) then Err (InvalidPodId "the first byte must be an ASCII letter or digit")
        else if negb (forallb id_byte rest) then Err (InvalidPodId "only ASCII letters, digits, `_`, and `-` are allowed")
        else Ok value
    | [] => Err (InvalidPodId "the first byte must be an ASCII letter or digit")
    end.
(** [+ . _ -] *)
Definition algorithm_separator (b : Z) : bool := (b =? 43) || (b =? 46) || (b =? 95) || (b =? 45).
(** The loop over the algorithm: the separator seen last, or [None] for an error. *)
Fixpoint algorithm_scan (index : nat) (previous_separator : bool) (algorithm : bytes) : option bool :=
  match algorithm with
  | [] => Some previous_separator
  | b :: rest =>
      let separator := algorithm_separator b in
      if negb (is_ascii_lowercase b || is_ascii_digit b || separator)
         || (separator && Nat.eqb index 0) || (separator && previous_separator)
      then None else algorithm_scan (S index) separator rest
  end.
Definition image_id (value : bytes) : outcome IdentifierError bytes :=
  match split_once 58 value with
  | None => Err (InvalidImageId "expected `algorithm:encoded`")
  | Some (algorithm, encoded) =>
      if bool_decide (algorithm = []) || (MAX_DIGEST_ALGORITHM_LEN <? len algorithm)
      then Err (InvalidImageId "algorithm length must be between 1 and 32 bytes")
      else
        match algorithm_scan 0 false algorithm with
        | None => Err (InvalidImageId "algorithm contains an invalid or repeated separator")
        | Some true => Err (InvalidImageId "algorithm must not end with a separator")
        | Some false =>
            if negb ((MIN_DIGEST_ENCODED_LEN <=? len encoded) && (len encoded <=? MAX_DIGEST_ENCODED_LEN))
            then Err (InvalidImageId "encoded digest length must be between 16 and 128 bytes")
            else if negb (forallb (fun b => id_byte b || (b =? 61)) encoded)
            then Err (InvalidImageId "encoded digest contains a path-unsafe byte")
            else Ok value
        end
  end.

(** ** Image configuration *)
Definition ID_MAP_SIZE : Z := 65536.
Definition MAX_IMAGE_ENVIRONMENT_ENTRIES : Z := 4096.
Definition MAX_IMAGE_ADDITIONAL_GIDS : Z := 64.
Definition MAX_IMAGE_USER_NAME_BYTES : Z := 128.
Definition MAX_IMAGE_WORKING_DIRECTORY_BYTES : Z := 4096.
Definition MAX_IMAGE_CONFIG_BYTES : Z := 60 * 1024.
Record ImageUser := { user_name : bytes; uid : Z; gid : Z; additional_gids : list Z }.
#[export] Instance ImageUser_eq_dec : EqDecision ImageUser.
Proof. solve_decision. Defined.
Record ImageConfig := { environment : list bytes; user : ImageUser; working_directory : bytes }.
#[export] Instance ImageConfig_eq_dec : EqDecision ImageConfig.
Proof. solve_decision. Defined.
(** [char::is_control] on the UTF-8 of a string. *)
Fixpoint has_control_char (s : bytes) : bool :=
  match s with
  | b :: s' =>
      (b <? 32) || (b =? 127)
      || ((b =? 194) && match s' with c :: _ => (128 <=? c) && (c <=? 159) | [] => false end)
      || has_control_char s'
  | [] => false
  end.
(** [windows(2)] with a pair that does not ascend. *)
Fixpoint ascending (l : list Z) : bool :=
  match l with
  | a :: ((b :: _) as rest) => (a <? b) && ascending rest
  | _ => true
  end.
Definition validate_user (u : ImageUser) : outcome string unit :=
  if bool_decide (user_name u = []) || (MAX_IMAGE_USER_NAME_BYTES <? len (user_name u))
     || has_control_char (user_name u) || contains 0 (user_name u) || contains 58 (user_name u)
  then Err "image user name is empty, unsafe, or too long"
  else if (ID_MAP_SIZE <=? uid u) || (ID_MAP_SIZE <=? gid u)
  then Err "image user UID or GID is outside the pod user-namespace map"
  else if (MAX_IMAGE_ADDITIONAL_GIDS <? len (additional_gids u))
          || existsb (fun g => (ID_MAP_SIZE <=? g) || (g =? gid u)) (additional_gids u)
          || negb (ascending (additional_gids u))
  then Err "image supplementary groups are invalid or excessive"
  else Ok tt.
(** [sort_unstable] and [dedup]. *)
Fixpoint dedup (l : list Z) : list Z :=
  match l with
  | a :: rest => match dedup rest with b :: _ as r => if a =? b then r else a :: r | [] => [a] end
  | [] => []
  end.
Definition image_user (name : bytes) (u g : Z) (groups : list Z) : outcome string ImageUser :=
  let v := {| user_name := name; uid := u; gid := g;
              additional_gids := List.filter (fun x => negb (x =? g)) (dedup (sort_by Z.leb groups)) |} in
  let? _ := validate_user v in Ok v.
(** [Path::components] has a [CurDir] only for a leading dot, which an absolute path
    does not have. *)
Definition safe_working_directory (p : bytes) : bool :=
  negb (MAX_IMAGE_WORKING_DIRECTORY_BYTES <? len p) && negb (contains 0 p) && starts_with (str "/") p
  && negb (bool_decide (str ".." ∈ split 47 p)).
Fixpoint validate_entries (total : Z) (es : list bytes) : outcome string Z :=
  match es with
  | [] => Ok total
  | e :: rest =>
      let? total := ok_or (checked_add usize_max total (len e)) "environment size overflowed" in
      match split_once 61 e with
      | None => Err "environment entry does not contain '='"
      | Some (name, _) =>
          if bool_decide (name = []) || contains 0 e then Err "environment entry has an empty name or NUL byte"
          else validate_entries total rest
      end
  end.
(** [serialized_len] is the length of the JSON of the configuration. *)
Definition validate_config (serialized_len : ImageConfig -> Z) (c : ImageConfig) : outcome string unit :=
  let? _ := validate_user (user c) in
  if negb (safe_working_directory (working_directory c))
  then Err "image working directory must be a bounded, normalized absolute path"
  else if MAX_IMAGE_ENVIRONMENT_ENTRIES <? len (environment c) then Err "environment has too many entries"
  else
    let? total := validate_entries 0 (environment c) in
    if MAX_IMAGE_CONFIG_BYTES <? total then Err "environment exceeds its limit"
    else if MAX_IMAGE_CONFIG_BYTES <? serialized_len c then Err "serialized environment exceeds its limit"
    else Ok tt.

(** ** Manifests *)
Definition STORE_FORMAT_VERSION : Z := 5.
Record StoreManifest := { store_format_version : Z }.
Record ImageManifest := { im_format_version : Z; im_id : bytes; im_config : ImageConfig; im_created_at_unix_ms : Z }.
#[export] Instance ImageManifest_eq_dec : EqDecision ImageManifest.
Proof. solve_decision. Defined.
Record PodManifest := { pm_format_version : Z; pm_id : bytes; pm_image : bytes; pm_created_at_unix_ms : Z }.
Inductive TransactionOperation :=
| StageImage
| PublishImage (image : bytes)
| CreatePod (pod image : bytes)
| DeletePod (pod : bytes)
| DeleteImage (image : bytes).
#[export] Instance TransactionOperation_eq_dec : EqDecision TransactionOperation.
Proof. solve_decision. Defined.
Record TransactionManifest := { tm_format_version : Z; transaction_id : bytes; operation : TransactionOperation }.
Record SetupSeedManifest := { sm_image : bytes; sm_context : bytes; sm_generation : bytes }.
Record SelectedImageManifest := { selected_image_id : bytes }.
Inductive Manifest :=
| MStore (m : StoreManifest) | MImage (m : ImageManifest) | MPod (m : PodManifest)
| MTransaction (m : TransactionManifest) | MSeed (m : SetupSeedManifest) | MSelected (m : SelectedImageManifest).
Definition references_image (o : TransactionOperation) (i : bytes) : bool :=
  match o with
  | PublishImage x | CreatePod _ x | DeleteImage x => bool_decide (x = i)
  | StageImage | DeletePod _ => false
  end.
Definition references_pod (o : TransactionOperation) (p : bytes) : bool :=
  match o with
  | CreatePod x _ | DeletePod x => bool_decide (x = p)
  | StageImage | PublishImage _ | DeleteImage _ => false
  end.
Definition is_hexdigit (b : Z) : bool :=
  is_ascii_digit b || ((65 <=? b) && (b <=? 70)) || ((97 <=? b) && (b <=? 102)).
Definition valid_transaction_id (v : bytes) : bool :=
  negb (bool_decide (v = [])) && (len v <=? 96) && forallb (fun b => is_hexdigit b || (b =? 45)) v.

(** ** Paths and errors *)
(** The four subvolumes of a pod. *)
Inductive Part := Root | Workspace | Docker | Temporary.
#[export] Instance Part_eq_dec : EqDecision Part.
Proof. solve_decision. Defined.
Inductive Path :=
| RootPath (name : string)
| image_directory (image : bytes) | image_file (image : bytes) (name : string)
| staging_path (t : bytes) | publishing_path (t : bytes) | publishing_file (t : bytes) (name : string)
| transaction_path (t : bytes)
| pod_manifest_path (pod : bytes) | pod_path (part : Part) (pod : bytes)
| trash_path (t : bytes) | trash_file (t : bytes) (name : string)
| seed_path (generation : bytes) | seed_file (generation : bytes) (name : string)
| cache_path (name : bytes) | golden_staging_path (name : bytes) | outside_path (path : bytes).
#[export] Instance Path_eq_dec : EqDecision Path.
Proof. solve_decision. Defined.
(** [CommandFailed] stands for [CommandStart] too. *)
Inductive StoreError :=
| NonEmptyUninitializedStore
| UnsafePath (p : Path)
| Io (action : string) (p : Path)
| ManifestTooLarge (p : Path)
| UnsupportedFormat (p : Path) (actual : Z)
| CorruptManifest (p : Path) (message : string)
| CommandFailed (action : string)
| ImageExists (image : bytes)
| ImageNotFound (image : bytes)
| PodExists (pod : bytes)
| PodNotFound (pod : bytes)
| ImageInUse (image pod : bytes)
| ImageSelected (image : bytes)
| InvalidStaging
| StorageUnhealthy
| OperationTimedOut (action : string)
| InvalidImageConfig (message : string)
| InvalidCacheName (message : IdentifierError)
| RollbackFailed (action : string) (cause rollback : StoreError).
Definition check_format (p : Path) (actual : Z) : outcome StoreError unit :=
  if actual =? STORE_FORMAT_VERSION then Ok tt else Err (UnsupportedFormat p actual).
