(* ===== verification/PodStore.v ===== *)
(** * The Btrfs store of images and pods

    [BtrfsStore] of [guestd/runtime/pod/store.rs].  The state is the content of the
    store directory, which nothing else writes to: a managed path is absent or of its
    kind, and a manifest that is there was written by [write_json_atomic], whose size
    limit is the reader's.  Every system call and every Btrfs command takes an event of
    [Outage]: it runs, fails, or the daemon stops at it.  Effects reach the disk in
    order; what a power failure undoes is not modelled.  Operations hold their locks
    from beginning to end and are modelled one at a time.  Random identifiers, the clock
    and the length of the JSON of a manifest are parameters. *)

From S2P Require Import Prelude Lists Text Outage PodTypes.

#[export] Instance Part_countable : Countable Part.
Proof.
  apply (inj_countable' (fun p => match p with Root => 0 | Workspace => 1 | Docker => 2 | Temporary => 3 end)
    (fun n => if n =? 0 then Root else if n =? 1 then Workspace else if n =? 2 then Docker else Temporary)).
  by intros [].
Defined.

(** ** State *)
Record Subvol := {
  sv_data : bytes; sv_uid : Z; sv_gid : Z; sv_mode : Z; sv_read_only : bool; sv_limit : option Z
}.
#[export] Instance eta_Subvol : Eta Subvol :=
  fun v => {| sv_data := sv_data v; sv_uid := sv_uid v; sv_gid := sv_gid v; sv_mode := sv_mode v;
              sv_read_only := sv_read_only v; sv_limit := sv_limit v |}.
(** The directory of an image: published, being published, or being deleted.
    [im_temps] counts the temporary files of [write_json_atomic] in it. *)
Record ImageDir := {
  im_root : option Subvol; im_manifest : option ImageManifest; im_seed : option SetupSeedManifest; im_temps : nat
}.
#[export] Instance eta_ImageDir : Eta ImageDir :=
  fun d => {| im_root := im_root d; im_manifest := im_manifest d; im_seed := im_seed d; im_temps := im_temps d |}.
Record SeedDir := { sd_root : option Subvol; sd_workspace : option Subvol }.
#[export] Instance eta_SeedDir : Eta SeedDir := fun d => {| sd_root := sd_root d; sd_workspace := sd_workspace d |}.
Record Store := {
  store_manifest : option StoreManifest; foreign : bool; init_temps : nat; directories : gset string;
  images : gmap bytes ImageDir; image_staging : gmap bytes Subvol; image_publishing : gmap bytes ImageDir;
  pods : gmap bytes PodManifest; pod_temps : nat; pod_parts : gmap (Part * bytes) Subvol;
  caches : gmap bytes Subvol; golden : option Subvol; golden_staging : gmap bytes Subvol;
  seeds : gmap bytes SeedDir; selected : option SelectedImageManifest; selected_temps : nat;
  transactions : gmap bytes TransactionManifest; transaction_temps : nat; trash : gmap bytes ImageDir;
  outside : gmap bytes Subvol; healthy : bool
}.
#[export] Instance eta_Store : Eta Store :=
  fun s => {| store_manifest := store_manifest s; foreign := foreign s; init_temps := init_temps s; directories := directories s;
    images := images s; image_staging := image_staging s; image_publishing := image_publishing s;
    pods := pods s; pod_temps := pod_temps s; pod_parts := pod_parts s;
    caches := caches s; golden := golden s; golden_staging := golden_staging s;
    seeds := seeds s; selected := selected s; selected_temps := selected_temps s;
    transactions := transactions s; transaction_temps := transaction_temps s; trash := trash s;
    outside := outside s; healthy := healthy s |}.
Definition op (A : Type) : Type := prog Store StoreError A.
Definition same (s : Store) : Store := s.

(** ** Files *)
Definition path_state {A} (p : Path) (f : Store -> option A) : op (option A) :=
  do! syscall (Io "inspect" p) same; do s <- get; ret (f s).
Definition sync_directory (p : Path) : op unit := syscall (Io "sync directory" p) same.
Definition read_json {A} (p : Path) (f : Store -> option A) : op A :=
  do v <- path_state p f;
  match v with
  | None => raise (Io "open" p)
  | Some v => do! syscall (Io "open" p) same; do! syscall (Io "read" p) same; ret v
  end.
(** The directories that temporary files are created in. *)
Inductive TempDir := InStore | InSelected | InPods | InTransactions | InImage (image : bytes) | InPublishing (t : bytes).
Definition parent_path (d : TempDir) : Path :=
  match d with
  | InStore | InSelected => RootPath "."
  | InPods => RootPath "pods"
  | InTransactions => RootPath "transactions"
  | InImage i => image_directory i
  | InPublishing t => publishing_path t
  end.
Definition parent_there (d : TempDir) (s : Store) : option unit :=
  if match d with
     | InStore | InSelected => true
     | InPods => bool_decide ("pods" ∈ directories s)
     | InTransactions => bool_decide ("transactions" ∈ directories s)
     | InImage i => bool_decide (is_Some (images s !! i))
     | InPublishing t => bool_decide (is_Some (image_publishing s !! t))
     end
  then Some tt else None.
Definition change_temps (f : nat -> nat) (d : TempDir) (s : Store) : Store :=
  match d with
  | InStore => s <| init_temps := f (init_temps s) |>
  | InSelected => s <| selected_temps := f (selected_temps s) |>
  | InPods => s <| pod_temps := f (pod_temps s) |>
  | InTransactions => s <| transaction_temps := f (transaction_temps s) |>
  | InImage i => s <| images := alter (fun x => x <| im_temps := f (im_temps x) |>) i (images s) |>
  | InPublishing t => s <| image_publishing := alter (fun x => x <| im_temps := f (im_temps x) |>) t (image_publishing s) |>
  end.
Definition MANIFEST_SIZE_LIMIT : Z := 64 * 1024.

Section store.
Context (encoded_len : Manifest -> Z) (config_len : ImageConfig -> Z).
(** The temporary file is renamed over the manifest; when something fails it is removed,
    whatever comes of that. *)
Definition write_json_atomic (p : Path) (d : TempDir) (m : Manifest) (publish : Store -> Store) : op unit :=
  let discard (left_over : bool) (e : StoreError) : op unit :=
    do! attempt (syscall (Io "remove" p) (fun s => if left_over then change_temps Nat.pred d s else s)); raise e in
  do there <- path_state (parent_path d) (parent_there d);
  match there with
  | None => raise (UnsafePath (parent_path d))
  | Some _ =>
      do! path_state p (fun _ => Some tt);
      if MANIFEST_SIZE_LIMIT <? encoded_len m + 1 then raise (ManifestTooLarge p)
      else
        do created <- attempt (syscall (Io "create" p) (change_temps S d));
        match created with
        | inl e => discard false e
        | inr _ =>
            do renamed <- attempt (do! syscall (Io "write" p) same; do! syscall (Io "sync" p) same;
                                   syscall (Io "publish" p) (fun s => publish (change_temps Nat.pred d s)));
            match renamed with
            | inl e => discard true e
            | inr _ =>
                do synced <- attempt (sync_directory (parent_path d));
                match synced with
                | inl e => discard false e
                | inr _ => ret tt
                end
            end
        end
  end.
Definition remove_file_durable {A} (p parent : Path) (f : Store -> option A) (unlink : Store -> Store) : op unit :=
  do v <- path_state p f;
  match v with
  | None => ret tt
  | Some _ => do! syscall (Io "remove" p) unlink; sync_directory parent
  end.
(** [fs::remove_dir] refuses a directory with entries. *)
Definition remove_empty_directory {A} (p parent : Path) (f : Store -> option A) (is_empty : A -> bool) (rmdir : Store -> Store) : op unit :=
  do v <- path_state p f;
  match v with
  | None => ret tt
  | Some v =>
      if is_empty v then do! syscall (Io "remove directory" p) rmdir; sync_directory parent
      else do! syscall (Io "remove directory" p) same; raise (Io "remove directory" p)
  end.
Definition empty_image_dir (d : ImageDir) : bool :=
  match im_root d, im_manifest d, im_seed d, im_temps d with None, None, None, O => true | _, _, _, _ => false end.
Definition empty_seed_dir (d : SeedDir) : bool :=
  match sd_root d, sd_workspace d with None, None => true | _, _ => false end.
(** [entries] temporary files. *)
Fixpoint remove_temps (p : Path) (d : TempDir) (entries : nat) : op unit :=
  match entries with
  | O => ret tt
  | S n => do! syscall (Io "inspect" p) same; do! syscall (Io "remove" p) (change_temps Nat.pred d); remove_temps p d n
  end.
Definition cleanup_atomic_temps (p : Path) (d : TempDir) (count : Store -> nat) : op unit :=
  do! syscall (Io "read" p) same;
  do s <- get;
  do! remove_temps p d (count s);
  if Nat.eqb (count s) 0 then ret tt else sync_directory p.

(** ** Btrfs *)
Definition ensure_healthy : op unit :=
  do s <- get; if healthy s then ret tt else raise StorageUnhealthy.
Definition run_btrfs (action : string) (fs : list (Store -> Store)) : op unit :=
  do! ensure_healthy;
  command (CommandFailed action) (OperationTimedOut action) (fun s => s <| healthy := false |>) fs.
Definition commit_transaction : op unit := run_btrfs "commit storage transaction" [].
Definition new_subvol : Subvol :=
  {| sv_data := []; sv_uid := 0; sv_gid := 0; sv_mode := 493; sv_read_only := false; sv_limit := None |}.
Definition snapshot_of (v : Subvol) : Subvol := v <| sv_read_only := false |> <| sv_limit := None |>.
(** Where a subvolume is. *)
Record Place := { place_path : Path; look : Store -> option Subvol; fill : Subvol -> Store -> Store; clear : Store -> Store }.
Definition created_there (l : Place) (message : string) : op unit :=
  do v <- path_state (place_path l) (look l);
  match v with None => raise (CorruptManifest (place_path l) message) | Some _ => ret tt end.
Definition create_subvolume (l : Place) (action : string) : op unit :=
  do v <- path_state (place_path l) (look l);
  match v with
  | Some _ => raise (UnsafePath (place_path l))
  | None =>
      do! run_btrfs action [fill l new_subvol];
      created_there l "btrfs reported success without creating a subvolume"
  end.
Definition snapshot_subvolume_with_operation (source : Store -> option Subvol) (l : Place) (action : string) : op unit :=
  do v <- path_state (place_path l) (look l);
  match v with
  | Some _ => raise (UnsafePath (place_path l))
  | None =>
      do s <- get;
      do! match source s with
          | Some v => run_btrfs action [fill l (snapshot_of v)]
          | None => do! run_btrfs action []; raise (CommandFailed action)
          end;
      created_there l "btrfs reported success without creating a snapshot"
  end.
Definition snapshot_subvolume (source : Store -> option Subvol) (l : Place) : op unit :=
  snapshot_subvolume_with_operation source l "snapshot pod root subvolume".
Definition modify (l : Place) (f : Subvol -> Subvol) (s : Store) : Store :=
  match look l s with Some v => fill l (f v) s | None => s end.
Definition set_subvolume_read_only (l : Place) : op unit :=
  run_btrfs "mark setup seed read-only" [modify l (fun v => v <| sv_read_only := true |>)].
Definition delete_subvolume_if_exists (l : Place) (action : string) : op unit :=
  do v <- path_state (place_path l) (look l);
  match v with
  | None => ret tt
  | Some _ =>
      do! run_btrfs action [clear l];
      do v <- path_state (place_path l) (look l);
      match v with
      | Some _ => raise (CorruptManifest (place_path l) "btrfs reported success without deleting the subvolume")
      | None => ret tt
      end
  end.
Definition POD_TEMPORARY_QUOTA_BYTES : Z := 128 * 1024 * 1024 * 1024.

(** ** Managed subvolumes *)
Definition part_place (part : Part) (pod : bytes) : Place :=
  {| place_path := pod_path part pod; look s := pod_parts s !! (part, pod);
     fill v s := s <| pod_parts := <[(part, pod) := v]> (pod_parts s) |>;
     clear s := s <| pod_parts := delete (part, pod) (pod_parts s) |> |}.
Definition staging_place (t : bytes) : Place :=
  {| place_path := staging_path t; look s := image_staging s !! t;
     fill v s := s <| image_staging := <[t := v]> (image_staging s) |>;
     clear s := s <| image_staging := delete t (image_staging s) |> |}.
Definition set_root (r : option Subvol) (d : ImageDir) : ImageDir := d <| im_root := r |>.
Definition publishing_root (t : bytes) : Place :=
  {| place_path := publishing_file t "root"; look s := image_publishing s !! t ≫= im_root;
     fill v s := s <| image_publishing := alter (set_root (Some v)) t (image_publishing s) |>;
     clear s := s <| image_publishing := alter (set_root None) t (image_publishing s) |> |}.
Definition trash_root (t : bytes) : Place :=
  {| place_path := trash_file t "root"; look s := trash s !! t ≫= im_root;
     fill v s := s <| trash := alter (set_root (Some v)) t (trash s) |>;
     clear s := s <| trash := alter (set_root None) t (trash s) |> |}.
Definition seed_root (g : bytes) : Place :=
  {| place_path := seed_file g "root"; look s := seeds s !! g ≫= sd_root;
     fill v s := s <| seeds := alter (fun d => d <| sd_root := Some v |>) g (seeds s) |>;
     clear s := s <| seeds := alter (fun d => d <| sd_root := None |>) g (seeds s) |> |}.
Definition seed_workspace (g : bytes) : Place :=
  {| place_path := seed_file g "workspace"; look s := seeds s !! g ≫= sd_workspace;
     fill v s := s <| seeds := alter (fun d => d <| sd_workspace := Some v |>) g (seeds s) |>;
     clear s := s <| seeds := alter (fun d => d <| sd_workspace := None |>) g (seeds s) |> |}.
Definition cache_place (name : bytes) : Place :=
  {| place_path := cache_path name; look s := caches s !! name;
     fill v s := s <| caches := <[name := v]> (caches s) |>;
     clear s := s <| caches := delete name (caches s) |> |}.
Definition golden_stage (name : bytes) : Place :=
  {| place_path := golden_staging_path name; look s := golden_staging s !! name;
     fill v s := s <| golden_staging := <[name := v]> (golden_staging s) |>;
     clear s := s <| golden_staging := delete name (golden_staging s) |> |}.
Definition outside_place (p : bytes) : Place :=
  {| place_path := outside_path p; look s := outside s !! p;
     fill v s := s <| outside := <[p := v]> (outside s) |>;
     clear s := s <| outside := delete p (outside s) |> |}.

Definition chmod (l : Place) (action : string) (mode : Z) : op unit :=
  syscall (Io action (place_path l)) (modify l (fun v => v <| sv_mode := mode |>)).
(** [match rollback with Ok => Err(error), Err(rollback) => rollback_failed ..] *)
Definition roll_back {A} (action : string) (error : StoreError) (rollback : op unit) : op A :=
  do r <- attempt rollback;
  match r with
  | inr _ => raise error
  | inl e => raise (RollbackFailed action error e)
  end.
Definition create_pod_temporary (pod : bytes) : op unit :=
  let l := part_place Temporary pod in
  do! create_subvolume l "create pod temporary subvolume";
  do configured <- attempt (
    do! run_btrfs "limit pod temporary subvolume" [modify l (fun v => v <| sv_limit := Some POD_TEMPORARY_QUOTA_BYTES |>)];
    chmod l "set pod temporary permissions" 1023);
  match configured with
  | inr _ => ret tt
  | inl error => roll_back "create pod temporary subvolume" error (delete_subvolume_if_exists l "roll back pod temporary subvolume")
  end.
(** The names in a managed directory. *)
Definition read_dir {A} (name : string) (f : Store -> A) : op A :=
  do! syscall (Io "read" (RootPath name)) same;
  do s <- get;
  if decide (name ∈ directories s) then ret (f s) else raise (Io "read" (RootPath name)).

(** ** Transactions *)
Definition write_transaction (m : TransactionManifest) : op unit :=
  let t := transaction_id m in
  if negb (valid_transaction_id t) then raise (CorruptManifest (transaction_path t) "invalid transaction ID")
  else write_json_atomic (transaction_path t) InTransactions (MTransaction m)
         (fun s => s <| transactions := <[t := m]> (transactions s) |>).
Definition transaction_of (t : bytes) (o : TransactionOperation) : TransactionManifest :=
  {| tm_format_version := STORE_FORMAT_VERSION; transaction_id := t; operation := o |}.
Definition begin_transaction (t : bytes) (o : TransactionOperation) : op unit := write_transaction (transaction_of t o).
Definition finish_transaction (t : bytes) : op unit :=
  remove_file_durable (transaction_path t) (RootPath "transactions") (fun s => transactions s !! t)
    (fun s => s <| transactions := delete t (transactions s) |>).
Definition commit_and_finish_transaction (t : bytes) : op unit :=
  do! commit_transaction; finish_transaction t.
Definition read_transaction (t : bytes) : op (bytes * TransactionManifest) :=
  let p := transaction_path t in
  if negb (valid_transaction_id t) then raise (UnsafePath p)
  else
    do m <- read_json p (fun s => transactions s !! t);
    do! of_outcome (check_format p (tm_format_version m));
    if decide (transaction_id m = t) then ret (t, m)
    else raise (CorruptManifest p "transaction ID does not match its file name").
Definition fst_leb {A} (a b : bytes * A) : bool := bytes_leb a.1 b.1.
Definition read_transactions : op (list (bytes * TransactionManifest)) :=
  do names <- read_dir "transactions" (fun s => (map_to_list (transactions s)).*1);
  do l <- gather read_transaction names;
  ret (sort_by fst_leb l).

(** ** Images *)
Record ImageGeneration := { ig_id : bytes; ig_root : Path; ig_config : ImageConfig; ig_created_at_unix_ms : Z }.
Definition validate (c : ImageConfig) : op unit :=
  match validate_config config_len c with
  | Ok _ => ret tt
  | Err e => raise (InvalidImageConfig e)
  | Panic _ => stop
  end.
Definition image_unlocked (image : bytes) : op ImageGeneration :=
  do directory <- path_state (image_directory image) (fun s => images s !! image);
  match directory with
  | None => raise (ImageNotFound image)
  | Some _ =>
      let p := image_file image "manifest.json" in
      do m <- read_json p (fun s => images s !! image ≫= im_manifest);
      do! of_outcome (check_format p (im_format_version m));
      do! validate (im_config m);
      if decide (im_id m = image) then
        do root <- path_state (image_file image "root") (fun s => images s !! image ≫= im_root);
        match root with
        | None => raise (CorruptManifest p "image root subvolume is missing")
        | Some _ =>
            ret {| ig_id := im_id m; ig_root := image_file image "root"; ig_config := im_config m;
                   ig_created_at_unix_ms := im_created_at_unix_ms m |}
        end
      else raise (CorruptManifest p "image digest does not match its directory")
  end.
Definition checked_id {A} (f : bytes -> outcome IdentifierError A) (p : bytes -> Path) (name : bytes) : op A :=
  match f name with
  | Ok i => ret i
  | Err _ => raise (CorruptManifest (p name) "identifier")
  | Panic _ => stop
  end.
Definition image_ids : op (list bytes) :=
  do names <- read_dir "images" (fun s => (map_to_list (images s)).*1);
  do ids <- gather (checked_id image_id image_directory) names;
  ret (sort_by bytes_leb ids).
Definition image : bytes -> op ImageGeneration := image_unlocked.
(** [list_images] and [list_pods]: an entry that is gone is skipped. *)
Definition gather_found {A B} (not_found : StoreError -> bool) (f : A -> op B) (l : list A) : op (list B) :=
  do found <- gather (fun a =>
    do r <- attempt (f a);
    match r with
    | inr b => ret [b]
    | inl e => if not_found e then ret [] else raise e
    end) l;
  ret (mjoin found).
Definition list_images : op (list ImageGeneration) :=
  do ids <- image_ids; gather_found (fun e => match e with ImageNotFound _ => true | _ => false end) image ids.
Definition list_images_unlocked : op (list ImageGeneration) :=
  do ids <- image_ids; gather image_unlocked ids.
Definition selected_image_unlocked : op (option bytes) :=
  let p := RootPath "selected-image.json" in
  do v <- path_state p selected;
  match v with
  | None => ret None
  | Some _ =>
      do m <- read_json p selected;
      do! image_unlocked (selected_image_id m);
      ret (Some (selected_image_id m))
  end.
Definition selected_image : op (option bytes) := selected_image_unlocked.
Definition select_image (image : bytes) : op unit :=
  do! image_unlocked image;
  let m := {| selected_image_id := image |} in
  write_json_atomic (RootPath "selected-image.json") InSelected (MSelected m) (fun s => s <| selected := Some m |>).
Definition clear_selected_image : op unit :=
  remove_file_durable (RootPath "selected-image.json") (RootPath ".") selected (fun s => s <| selected := None |>).

(** ** Publishing an image *)
Definition ensure_new_directory {A} (p parent : Path) (f : Store -> option A) (mkdir : Store -> Store) : op unit :=
  do v <- path_state p f;
  match v with
  | Some _ => raise (UnsafePath p)
  | None => do! syscall (Io "create directory" p) mkdir; sync_directory parent
  end.
Definition new_image_dir : ImageDir := {| im_root := None; im_manifest := None; im_seed := None; im_temps := 0 |}.
Definition cleanup_image_publication (t : bytes) : op unit :=
  do! delete_subvolume_if_exists (staging_place t) "delete image staging subvolume";
  do v <- path_state (publishing_path t) (fun s => image_publishing s !! t);
  match v with
  | None => ret tt
  | Some _ =>
      do! delete_subvolume_if_exists (publishing_root t) "delete unpublished image subvolume";
      do! remove_file_durable (publishing_file t "manifest.json") (publishing_path t)
            (fun s => image_publishing s !! t ≫= im_manifest)
            (fun s => s <| image_publishing := alter (fun d => d <| im_manifest := None |>) t (image_publishing s) |>);
      remove_empty_directory (publishing_path t) (RootPath "image-publishing") (fun s => image_publishing s !! t)
        empty_image_dir (fun s => s <| image_publishing := delete t (image_publishing s) |>)
  end.
Context (root : bytes).
Record ImageStaging := { store_root : bytes; staging_transaction : bytes; staging_dir : Path }.
Definition begin_image (t : bytes) : op ImageStaging :=
  do! begin_transaction t StageImage;
  do created <- attempt (create_subvolume (staging_place t) "create image staging subvolume");
  match created with
  | inl error =>
      roll_back "begin image" error (do! cleanup_image_publication t; commit_and_finish_transaction t)
  | inr _ => ret {| store_root := root; staging_transaction := t; staging_dir := staging_path t |}
  end.
Definition validate_staging (h : ImageStaging) : op unit :=
  let t := staging_transaction h in
  if negb (bool_decide (store_root h = root)) || negb (bool_decide (staging_dir h = staging_path t)) then raise InvalidStaging
  else
    do r <- attempt (read_json (transaction_path t) (fun s => transactions s !! t));
    match r with
    | inl _ => raise InvalidStaging
    | inr m =>
        do! of_outcome (check_format (transaction_path t) (tm_format_version m));
        if negb (bool_decide (transaction_id m = t)) || negb (bool_decide (operation m = StageImage)) then raise InvalidStaging
        else
          do v <- path_state (staging_path t) (fun s => image_staging s !! t);
          match v with None => raise InvalidStaging | Some _ => ret tt end
    end.
(** Moves the staging subvolume; without it the call fails. *)
Definition move_staging (t : bytes) : op unit :=
  do s <- get;
  match image_staging s !! t with
  | None => do! syscall (Io "move image staging subvolume" (staging_path t)) same;
            raise (Io "move image staging subvolume" (staging_path t))
  | Some v =>
      syscall (Io "move image staging subvolume" (staging_path t))
        (fun s => fill (publishing_root t) v (clear (staging_place t) s))
  end.
(** Moves the directory of the image; without it, or onto a directory with entries, the
    call fails. *)
Definition move_published (t image : bytes) : op unit :=
  do s <- get;
  match image_publishing s !! t, images s !! image with
  | Some d, None =>
      syscall (Io "publish image generation" (image_directory image))
        (fun s => s <| image_publishing := delete t (image_publishing s) |> <| images := <[image := d]> (images s) |>)
  | _, _ => do! syscall (Io "publish image generation" (image_directory image)) same;
            raise (Io "publish image generation" (image_directory image))
  end.
Definition publish_image_inner (h : ImageStaging) (image : bytes) (config : ImageConfig) (now : Z) : op ImageGeneration :=
  let t := staging_transaction h in
  do! ensure_new_directory (publishing_path t) (RootPath "image-publishing") (fun s => image_publishing s !! t)
        (fun s => s <| image_publishing := <[t := new_image_dir]> (image_publishing s) |>);
  do! move_staging t;
  do! sync_directory (RootPath "image-staging");
  do! sync_directory (publishing_path t);
  let m := {| im_format_version := STORE_FORMAT_VERSION; im_id := image; im_config := config; im_created_at_unix_ms := now |} in
  let p := publishing_file t "manifest.json" in
  do! write_json_atomic p (InPublishing t) (MImage m)
        (fun s => s <| image_publishing := alter (fun d => d <| im_manifest := Some m |>) t (image_publishing s) |>);
  do persisted <- read_json p (fun s => image_publishing s !! t ≫= im_manifest);
  if decide (persisted = m) then
    do! run_btrfs "make image generation read-only" [modify (publishing_root t) (fun v => v <| sv_read_only := true |>)];
    do! commit_transaction;
    do! move_published t image;
    do! sync_directory (RootPath "images");
    do! sync_directory (RootPath "image-publishing");
    do! commit_transaction;
    ret {| ig_id := image; ig_root := image_file image "root"; ig_config := config; ig_created_at_unix_ms := now |}
  else raise (CorruptManifest p "newly written image manifest did not round-trip").
Definition publish_image (h : ImageStaging) (image : bytes) (config : ImageConfig) (now : Z) : op ImageGeneration :=
  let t := staging_transaction h in
  do! validate_staging h;
  do there <- path_state (image_directory image) (fun s => images s !! image);
  do exists_ <- match there with
                | Some _ => ret true
                | None =>
                    do l <- read_transactions;
                    ret (existsb (fun x => negb (bool_decide (transaction_id x.2 = t)) && references_image (operation x.2) image) l)
                end;
  if (exists_ : bool) then
    roll_back "publish image" (ImageExists image) (do! cleanup_image_publication t; commit_and_finish_transaction t)
  else
    do! begin_transaction t (PublishImage image);
    do result <- attempt (publish_image_inner h image config now);
    match result with
    | inr generation => do! finish_transaction t; ret generation
    | inl error =>
        do visible <- attempt (image_unlocked image);
        match visible with
        | inr _ => raise error
        | inl _ => roll_back "publish image" error (do! cleanup_image_publication t; commit_and_finish_transaction t)
        end
    end.
Definition discard_image (h : ImageStaging) : op unit :=
  do! validate_staging h;
  do! cleanup_image_publication (staging_transaction h);
  commit_and_finish_transaction (staging_transaction h).

(** ** Setup seeds *)
Definition seed_manifest_path (image : bytes) : Path := image_file image "workspace-seed.json".
Definition seed_manifest_of (image : bytes) (s : Store) : option SetupSeedManifest := images s !! image ≫= im_seed.
(** The manifest; the paths are those of its generation. *)
Definition setup_seed_for_image_with_manifest (image : bytes) : op (option SetupSeedManifest) :=
  let p := seed_manifest_path image in
  do v <- path_state p (seed_manifest_of image);
  match v with
  | None => ret None
  | Some _ =>
      do m <- read_json p (seed_manifest_of image);
      if decide (sm_image m = image) then
        let g := sm_generation m in
        let incomplete := CorruptManifest p "published setup seed is incomplete" in
        do r <- path_state (seed_file g "root") (look (seed_root g));
        match r with
        | None => raise incomplete
        | Some _ =>
            do w <- path_state (seed_file g "workspace") (look (seed_workspace g));
            match w with None => raise incomplete | Some _ => ret (Some m) end
        end
      else ret None
  end.
Definition setup_seed_for_image (image : bytes) : op (option (Place * Place)) :=
  do seed <- setup_seed_for_image_with_manifest image;
  ret (option_map (fun m => (seed_root (sm_generation m), seed_workspace (sm_generation m))) seed).
Definition image_workspace_seed (image : bytes) : op (option Path) :=
  do seed <- setup_seed_for_image image; ret (option_map (fun x => place_path x.2) seed).
Definition setup_seed_image (context : bytes) : op (option bytes) :=
  do l <- list_images_unlocked;
  each (fun generation =>
    let p := seed_manifest_path (ig_id generation) in
    do v <- path_state p (seed_manifest_of (ig_id generation));
    match v with
    | None => ret None
    | Some _ =>
        do m <- read_json p (seed_manifest_of (ig_id generation));
        ret (if decide (sm_context m = context) then Some (sm_image m) else None)
    end) l.
Definition delete_seed_generation (g : bytes) : op unit :=
  do v <- path_state (seed_path g) (fun s => seeds s !! g);
  match v with
  | None => ret tt
  | Some _ =>
      do! delete_subvolume_if_exists (seed_workspace g) "delete image workspace seed";
      do! delete_subvolume_if_exists (seed_root g) "delete image root seed";
      remove_empty_directory (seed_path g) (RootPath "setup-seeds") (fun s => seeds s !! g) empty_seed_dir
        (fun s => s <| seeds := delete g (seeds s) |>)
  end.

(** ** Pods *)
Record PodStorage := {
  ps_id : bytes; ps_image : bytes; ps_root : Path; ps_workspace : Path; ps_docker : Path; ps_temporary : Path;
  ps_image_config : ImageConfig; ps_created_at_unix_ms : Z
}.
Definition pod_storage (pod image : bytes) (config : ImageConfig) (now : Z) : PodStorage :=
  {| ps_id := pod; ps_image := image; ps_root := pod_path Root pod; ps_workspace := pod_path Workspace pod;
     ps_docker := pod_path Docker pod; ps_temporary := pod_path Temporary pod; ps_image_config := config;
     ps_created_at_unix_ms := now |}.
Definition require_subvolume_path (part : Part) (pod : bytes) : op unit :=
  do v <- path_state (pod_path part pod) (look (part_place part pod));
  match v with
  | None => raise (CorruptManifest (pod_manifest_path pod) "required subvolume is missing")
  | Some _ => ret tt
  end.
(** Reads and checks the manifest named [pod]. *)
Definition read_pod_manifest (pod : bytes) (message : string) (wanted : PodManifest -> bool) : op PodManifest :=
  let p := pod_manifest_path pod in
  do m <- read_json p (fun s => pods s !! pod);
  do! of_outcome (check_format p (pm_format_version m));
  if wanted m then ret m else raise (CorruptManifest p message).
Definition pod_unlocked (pod : bytes) : op PodStorage :=
  do v <- path_state (pod_manifest_path pod) (fun s => pods s !! pod);
  match v with
  | None => raise (PodNotFound pod)
  | Some _ =>
      do m <- read_pod_manifest pod "pod ID does not match its file name" (fun m => bool_decide (pm_id m = pod));
      do generation <- image_unlocked (pm_image m);
      do! require_subvolume_path Root pod;
      do! require_subvolume_path Workspace pod;
      do! require_subvolume_path Docker pod;
      do temporary <- path_state (pod_path Temporary pod) (look (part_place Temporary pod));
      do! match temporary with
          | Some _ => ret tt
          | None => do! create_pod_temporary pod; commit_transaction
          end;
      ret (pod_storage (pm_id m) (pm_image m) (ig_config generation) (pm_created_at_unix_ms m))
  end.
Definition pod : bytes -> op PodStorage := pod_unlocked.
Definition pod_ids : op (list bytes) :=
  do names <- read_dir "pods" (fun s => (map_to_list (pods s)).*1);
  do ids <- gather (checked_id pod_id pod_manifest_path) names;
  ret (sort_by bytes_leb ids).
Definition list_pods : op (list PodStorage) :=
  do ids <- pod_ids; gather_found (fun e => match e with PodNotFound _ => true | _ => false end) pod ids.
Definition there {A} (p : Path) (f : Store -> option A) : op (option unit) :=
  do v <- path_state p f; ret (option_map (fun _ => tt) v).
Definition pod_storage_exists (pod : bytes) : op bool :=
  do manifest <- there (pod_manifest_path pod) (fun s => pods s !! pod);
  match manifest with
  | Some _ => ret true
  | None =>
      do found <- each (fun part => there (pod_path part pod) (look (part_place part pod))) [Root; Workspace; Docker; Temporary];
      ret (bool_decide (is_Some found))
  end.
Definition transaction_references_pod (pod : bytes) : op bool :=
  do l <- read_transactions; ret (existsb (fun x => references_pod (operation x.2) pod) l).
(** One command deletes the subvolumes that are there. *)
Definition cleanup_pod_subvolumes (pod : bytes) : op unit :=
  do found <- gather (fun part => do v <- there (pod_path part pod) (look (part_place part pod));
                                  ret (match v with Some _ => [part] | None => [] end)) [Temporary; Docker; Workspace; Root];
  let parts := mjoin found in
  match parts with
  | [] => commit_transaction
  | _ =>
      do! run_btrfs "delete pod subvolumes" (map (fun part => clear (part_place part pod)) parts);
      for_each (fun part =>
        do v <- path_state (pod_path part pod) (look (part_place part pod));
        match v with
        | Some _ => raise (CorruptManifest (pod_path part pod) "btrfs reported success without deleting the pod subvolume")
        | None => ret tt
        end) parts
  end.
Inductive PodWorkspaceBasis := ImageSeed | GoldenWorkspace.
Definition set_directory_owner (l : Place) (u g : Z) : op unit :=
  do! syscall (Io "open fresh pod workspace" (place_path l)) same;
  syscall (Io "set fresh pod workspace ownership" (place_path l)) (modify l (fun v => v <| sv_uid := u |> <| sv_gid := g |>)).
Definition create_pod_inner (pod image : bytes) (config : ImageConfig) (now : Z) (basis : PodWorkspaceBasis) : op PodStorage :=
  do setup <- match basis with ImageSeed => setup_seed_for_image image | GoldenWorkspace => ret None end;
  do! snapshot_subvolume (match setup with Some (r, _) => look r | None => fun s => images s !! image ≫= im_root end)
        (part_place Root pod);
  let workspace := part_place Workspace pod in
  do! match setup with
      | Some (_, w) => snapshot_subvolume (look w) workspace
      | None =>
          do seed <- path_state (RootPath "golden-workspace") golden;
          if match seed with Some v => (sv_uid v =? uid (user config)) && (sv_gid v =? gid (user config)) | None => false end
          then snapshot_subvolume golden workspace
          else
            do! create_subvolume workspace "create pod workspace subvolume";
            if (uid (user config) =? 0) && (gid (user config) =? 0) then ret tt
            else set_directory_owner workspace (uid (user config)) (gid (user config))
      end;
  do! create_subvolume (part_place Docker pod) "create pod Docker subvolume";
  do! create_pod_temporary pod;
  do! commit_transaction;
  let m := {| pm_format_version := STORE_FORMAT_VERSION; pm_id := pod; pm_image := image; pm_created_at_unix_ms := now |} in
  do! write_json_atomic (pod_manifest_path pod) InPods (MPod m) (fun s => s <| pods := <[pod := m]> (pods s) |>);
  ret (pod_storage pod image config now).
Definition create_pod_from_basis (t pod image : bytes) (now : Z) (basis : PodWorkspaceBasis) : op PodStorage :=
  do generation <- image_unlocked image;
  do exists_ <- pod_storage_exists pod;
  do exists_ <- (if (exists_ : bool) then ret true else transaction_references_pod pod);
  if (exists_ : bool) then raise (PodExists pod)
  else
    do! begin_transaction t (CreatePod pod image);
    do result <- attempt (create_pod_inner pod image (ig_config generation) now basis);
    match result with
    | inr storage => do! finish_transaction t; ret storage
    | inl error =>
        do complete <- attempt (pod_unlocked pod);
        match complete with
        | inr _ => raise error
        | inl _ => roll_back "create pod" error (do! cleanup_pod_subvolumes pod; finish_transaction t)
        end
    end.
Definition create_pod (t pod image : bytes) (now : Z) : op PodStorage := create_pod_from_basis t pod image now ImageSeed.
Definition create_setup_pod (t pod image : bytes) (now : Z) : op PodStorage := create_pod_from_basis t pod image now GoldenWorkspace.
Definition reset_pod_temporary (pod : bytes) : op PodStorage :=
  do! pod_unlocked pod;
  do! delete_subvolume_if_exists (part_place Temporary pod) "delete pod temporary subvolume";
  do! create_pod_temporary pod;
  do! commit_transaction;
  pod_unlocked pod.
Definition remove_pod_manifest (pod : bytes) : op unit :=
  remove_file_durable (pod_manifest_path pod) (RootPath "pods") (fun s => pods s !! pod)
    (fun s => s <| pods := delete pod (pods s) |>).
Definition continue_delete_pod (pod : bytes) : op unit :=
  do! remove_pod_manifest pod; cleanup_pod_subvolumes pod.
Definition destroy_pod (t pod : bytes) : op unit :=
  do! pod_unlocked pod;
  do! begin_transaction t (DeletePod pod);
  do! continue_delete_pod pod;
  finish_transaction t.

(** ** Caches and the golden workspace *)
Definition ensure_cache (name : bytes) : op Path :=
  match pod_id name with
  | Err e => raise (InvalidCacheName e)
  | Panic _ => stop
  | Ok _ =>
      let l := cache_place name in
      do v <- path_state (cache_path name) (look l);
      match v with
      | Some _ => ret (cache_path name)
      | None =>
          do! create_subvolume l "create workspace cache subvolume";
          do! chmod l "set workspace cache permissions" 511;
          do! commit_transaction;
          ret (cache_path name)
      end
  end.
(** [fs::canonicalize] fails on a missing path. *)
Definition canonicalize (source : bytes) (action : string) : op unit :=
  do! syscall (Io action (outside_path source)) same;
  do s <- get;
  match look (outside_place source) s with
  | None => raise (Io action (outside_path source))
  | Some _ =>
      do v <- path_state (outside_path source) (look (outside_place source));
      match v with None => raise (UnsafePath (outside_path source)) | Some _ => ret tt end
  end.
Definition exchange_golden (name : bytes) (s : Store) : Store :=
  match golden s, golden_staging s !! name with
  | Some old, Some new => s <| golden := Some new |> <| golden_staging := <[name := old]> (golden_staging s) |>
  | _, _ => s
  end.
Definition rename_golden (name : bytes) (s : Store) : Store :=
  match golden_staging s !! name with
  | Some new => s <| golden := Some new |> <| golden_staging := delete name (golden_staging s) |>
  | None => s
  end.
Definition publish_golden_workspace (name source : bytes) : op Path :=
  let staging := golden_stage name in
  let seed := RootPath "golden-workspace" in
  let discard error : op unit :=
    roll_back "publish golden workspace" error (delete_subvolume_if_exists staging "discard golden workspace staging") in
  do! canonicalize source "canonicalize golden workspace source";
  do! snapshot_subvolume (look (outside_place source)) staging;
  do v <- path_state seed golden;
  do! match v with
      | Some _ =>
          do! syscall (Io "open store root" (RootPath ".")) same;
          do exchanged <- attempt (syscall (Io "atomically publish golden workspace" seed) (exchange_golden name));
          match exchanged with
          | inl error => discard error
          | inr _ =>
              do! commit_transaction;
              delete_subvolume_if_exists staging "retire previous golden workspace"
          end
      | None =>
          do renamed <- attempt (syscall (Io "publish initial golden workspace" seed) (rename_golden name));
          match renamed with inl error => discard error | inr _ => ret tt end
      end;
  do! commit_transaction;
  ret seed.
Definition golden_workspace : op (option Path) :=
  do v <- path_state (RootPath "golden-workspace") golden;
  ret (option_map (fun _ => RootPath "golden-workspace") v).

(** ** Publishing a seed *)
Definition new_seed_dir : SeedDir := {| sd_root := None; sd_workspace := None |}.
(** [fs::create_dir] fails on a path that is there. *)
Definition create_seed_directory (g : bytes) (action : string) : op unit :=
  do s <- get;
  match seeds s !! g with
  | Some _ => do! syscall (Io action (seed_path g)) same; raise (Io action (seed_path g))
  | None => syscall (Io action (seed_path g)) (fun s => s <| seeds := <[g := new_seed_dir]> (seeds s) |>)
  end.
Definition write_seed (image context g : bytes) (source_root source_workspace : Store -> option Subvol) : op unit :=
  do! snapshot_subvolume source_root (seed_root g);
  do! snapshot_subvolume source_workspace (seed_workspace g);
  do! set_subvolume_read_only (seed_root g);
  do! set_subvolume_read_only (seed_workspace g);
  do! commit_transaction;
  let m := {| sm_image := image; sm_context := context; sm_generation := g |} in
  write_json_atomic (seed_manifest_path image) (InImage image) (MSeed m)
    (fun s => s <| images := alter (fun d => d <| im_seed := Some m |>) image (images s) |>).
Definition publish_setup_seed (g pod context : bytes) : op bytes :=
  do storage <- pod_unlocked pod;
  let image := ps_image storage in
  do storage <- pod_unlocked pod;
  if decide (ps_image storage = image) then
    do seed <- setup_seed_for_image_with_manifest image;
    do! create_seed_directory g "create setup seed generation";
    do result <- attempt (write_seed image context g (look (part_place Root pod)) (look (part_place Workspace pod)));
    match result with
    | inl error => roll_back "publish setup seed" error (delete_seed_generation g)
    | inr _ =>
        do! match seed with
            | Some previous => do! attempt (delete_seed_generation (sm_generation previous)); ret tt
            | None => ret tt
            end;
        ret g
    end
  else raise (CorruptManifest (pod_manifest_path pod) "pod image changed while publishing its setup seed").
Definition publish_image_workspace_seed (g image source : bytes) : op bytes :=
  do seed <- setup_seed_for_image_with_manifest image;
  match seed with
  | None => raise (CorruptManifest (seed_manifest_path image) "image has no completed workspace seed")
  | Some m =>
      do! canonicalize source "canonicalize image workspace seed source";
      do! create_seed_directory g "create image seed generation";
      do result <- attempt (write_seed image (sm_context m) g (look (seed_root (sm_generation m))) (look (outside_place source)));
      match result with
      | inl error => roll_back "publish image workspace seed" error (delete_seed_generation g)
      | inr _ => do! attempt (delete_seed_generation (sm_generation m)); ret g
      end
  end.

(** ** Removing an image *)
Definition image_reference_excluding_transaction (image excluded : bytes) : op (option bytes) :=
  do ids <- pod_ids;
  do used <- each (fun pod =>
    do m <- read_pod_manifest pod "pod ID does not match its file name" (fun m => bool_decide (pm_id m = pod));
    ret (if decide (pm_image m = image) then Some pod else None)) ids;
  match used with
  | Some pod => ret (Some pod)
  | None =>
      do l <- read_transactions;
      each (fun x => ret (if decide (x.1 = excluded) then None
                          else match operation x.2 with
                               | CreatePod pod i => if decide (i = image) then Some pod else None
                               | _ => None
                               end)) l
  end.
Definition image_reference (image : bytes) : op (option bytes) := image_reference_excluding_transaction image [].
Definition trash_seed (t : bytes) (s : Store) : option SetupSeedManifest := trash s !! t ≫= im_seed.
Definition delete_image_tree (t : bytes) : op unit :=
  do v <- path_state (trash_path t) (fun s => trash s !! t);
  match v with
  | None => ret tt
  | Some _ =>
      let p := trash_file t "workspace-seed.json" in
      do seed <- path_state p (trash_seed t);
      do! match seed with
          | None => ret tt
          | Some _ =>
              do m <- read_json p (trash_seed t);
              do! delete_seed_generation (sm_generation m);
              remove_file_durable p (trash_path t) (trash_seed t)
                (fun s => s <| trash := alter (fun d => d <| im_seed := None |>) t (trash s) |>)
          end;
      do! delete_subvolume_if_exists (trash_root t) "delete image generation subvolume";
      do! remove_file_durable (trash_file t "manifest.json") (trash_path t) (fun s => trash s !! t ≫= im_manifest)
            (fun s => s <| trash := alter (fun d => d <| im_manifest := None |>) t (trash s) |>);
      remove_empty_directory (trash_path t) (RootPath "trash") (fun s => trash s !! t) empty_image_dir
        (fun s => s <| trash := delete t (trash s) |>)
  end.
Definition hide_image (t image : bytes) (d : ImageDir) (s : Store) : Store :=
  s <| images := delete image (images s) |> <| trash := <[t := d]> (trash s) |>.
Definition continue_delete_image (t image : bytes) : op unit :=
  do hidden <- path_state (trash_path t) (fun s => trash s !! t);
  do! match hidden with
      | Some _ => ret tt
      | None =>
          do v <- path_state (image_directory image) (fun s => images s !! image);
          match v with
          | None => ret tt
          | Some d =>
              do! syscall (Io "hide image generation" (image_directory image)) (hide_image t image d);
              do! sync_directory (RootPath "images");
              sync_directory (RootPath "trash")
          end
      end;
  do! delete_image_tree t;
  commit_transaction.
Definition remove_image (t image : bytes) : op unit :=
  do! image_unlocked image;
  do chosen <- selected_image_unlocked;
  if decide (chosen = Some image) then raise (ImageSelected image)
  else
    do used <- image_reference image;
    match used with
    | Some pod => raise (ImageInUse image pod)
    | None =>
        do! begin_transaction t (DeleteImage image);
        do! continue_delete_image t image;
        finish_transaction t
    end.

(** ** Recovery *)
Definition recover_create_pod (pod image : bytes) : op unit :=
  do v <- path_state (pod_manifest_path pod) (fun s => pods s !! pod);
  match v with
  | None => cleanup_pod_subvolumes pod
  | Some _ =>
      do! read_pod_manifest pod "published pod does not match its creation transaction"
            (fun m => bool_decide (pm_id m = pod) && bool_decide (pm_image m = image));
      do found <- gather (fun part => there (pod_path part pod) (look (part_place part pod))) [Root; Workspace; Docker; Temporary];
      if forallb (fun v => bool_decide (is_Some v)) found then do! pod_unlocked pod; ret tt
      else do! remove_pod_manifest pod; cleanup_pod_subvolumes pod
  end.
Definition part_dir (part : Part) : string :=
  match part with Root => "pod-roots" | Workspace => "pod-workspaces" | Docker => "pod-docker" | Temporary => "pod-temporaries" end.
Definition parts_of (part : Part) (s : Store) : list bytes :=
  map (fun x => x.1.2) (List.filter (fun x => bool_decide (x.1.1 = part)) (map_to_list (pod_parts s))).
(** A [BTreeSet] of identifiers, in order. *)
Definition sorted_set (l : list bytes) : list bytes := sort_by bytes_leb (remove_dups l).
Definition cleanup_orphaned_pod_subvolumes : op unit :=
  do found <- gather (fun part =>
    do names <- read_dir (part_dir part) (parts_of part);
    gather (fun name => do! syscall (Io "inspect" (pod_path part name)) same; checked_id pod_id (pod_path part) name) names)
    [Root; Workspace; Docker; Temporary];
  for_each (fun pod =>
    do v <- path_state (pod_manifest_path pod) (fun s => pods s !! pod);
    match v with None => cleanup_pod_subvolumes pod | Some _ => ret tt end) (sorted_set (mjoin found)).
Definition recover_transaction (x : bytes * TransactionManifest) : op unit :=
  let t := x.1 in
  do needs_commit <- match operation x.2 with
    | StageImage => do! cleanup_image_publication t; ret true
    | PublishImage image =>
        do r <- attempt (image_unlocked image);
        match r with
        | inr _ | inl (ImageNotFound _) => do! cleanup_image_publication t; ret true
        | inl error => raise error
        end
    | CreatePod pod image => do! recover_create_pod pod image; ret false
    | DeletePod pod => do! continue_delete_pod pod; ret false
    | DeleteImage image =>
        do used <- image_reference_excluding_transaction image t;
        match used with
        | Some pod => raise (ImageInUse image pod)
        | None => do! continue_delete_image t image; ret true
        end
    end;
  do! (if (needs_commit : bool) then commit_transaction else ret tt);
  finish_transaction t.
Definition recover : op unit :=
  do! cleanup_atomic_temps (RootPath "pods") InPods pod_temps;
  do! cleanup_atomic_temps (RootPath "transactions") InTransactions transaction_temps;
  do l <- read_transactions;
  do! for_each recover_transaction l;
  cleanup_orphaned_pod_subvolumes.

(** ** Opening the store *)
Definition cleanup_initialization_temps : op unit :=
  do! syscall (Io "read" (RootPath ".")) same;
  do s <- get;
  do! remove_temps (RootPath ".") InStore (init_temps s);
  sync_directory (RootPath ".").
Definition root_empty (s : Store) : bool :=
  negb (foreign s) && Nat.eqb (init_temps s) 0 && bool_decide (directories s = ∅) && Nat.eqb (selected_temps s) 0
  && match store_manifest s, selected s, golden s with None, None, None => bool_decide (golden_staging s = ∅) | _, _, _ => false end.
Definition layout_directories : list string :=
  ["images"; "image-staging"; "image-publishing"; "pods"; "pod-roots"; "pod-workspaces"; "pod-docker"; "pod-temporaries";
   "caches"; "setup-seeds"; "transactions"; "trash"].
Definition ensure_managed_directory (name : string) : op unit :=
  do v <- path_state (RootPath name) (fun s => if decide (name ∈ directories s) then Some tt else None);
  match v with
  | Some _ => ret tt
  | None =>
      do! syscall (Io "create directory" (RootPath name)) (fun s => s <| directories := {[name]} ∪ directories s |>);
      sync_directory (RootPath ".")
  end.
(** An empty root becomes a store. *)
Definition adopt_root : op unit :=
  let p := RootPath "store.json" in
  do v <- path_state p store_manifest;
  match v with
  | Some _ => ret tt
  | None =>
      do! cleanup_initialization_temps;
      do! syscall (Io "read" (RootPath ".")) same;
      do s <- get;
      if negb (root_empty s) then raise NonEmptyUninitializedStore
      else
        let m := {| store_format_version := STORE_FORMAT_VERSION |} in
        write_json_atomic p InStore (MStore m) (fun s => s <| store_manifest := Some m |>)
  end.
Definition initialize_layout : op unit :=
  let p := RootPath "store.json" in
  do! adopt_root;
  do m <- read_json p store_manifest;
  do! of_outcome (check_format p (store_format_version m));
  for_each ensure_managed_directory layout_directories.
(** The inspection has no deadline; [true] in its event stands for a command that did
    not start. *)
Definition ensure_quotas_enabled : op unit :=
  do ev <- next_event;
  match ev with
  | Runs => ret tt
  | Fails _ true => raise (CommandFailed "inspect storage quotas")
  | Fails _ false => run_btrfs "enable simple storage quotas" []
  | Stops _ => stop
  end.
(** A new process opens the store at its root. *)
Definition open : op unit :=
  do! put (fun s => s <| healthy := true |>);
  do! run_btrfs "verify store filesystem" [];
  do! ensure_quotas_enabled;
  do! initialize_layout;
  recover.

(** ** Staging workspaces of repositories *)
Definition create_repository_staging_workspace (source : option bytes) (destination : bytes) : op unit :=
  match source with
  | Some p =>
      snapshot_subvolume_with_operation (look (outside_place p)) (outside_place destination)
        "snapshot repository reconciliation staging workspace"
  | None => create_subvolume (outside_place destination) "create repository reconciliation staging workspace"
  end.
Definition remove_repository_staging_workspace (staging : bytes) : op unit :=
  delete_subvolume_if_exists (outside_place staging) "delete repository reconciliation staging workspace".
End store.
