(* ===== verification/PodReads.v ===== *)
(** * What the pod store reads

    [sound] is what holds of the store whatever fails: published images are complete and
    immutable, and the image of a pod is there.  In a sound store every reading operation
    computes a function of the state, for events of any kind. *)

From S2P Require Import Prelude Lists Text Outage PodTypes PodStore.

Section soundness.
Context (config_len : ImageConfig -> Z).
Definition complete_image (i : bytes) (d : ImageDir) : Prop :=
  exists m v, im_manifest d = Some m /\ im_id m = i /\ im_format_version m = STORE_FORMAT_VERSION
    /\ validate_config config_len (im_config m) = Ok tt /\ im_root d = Some v /\ sv_read_only v = true
    /\ (forall x, im_seed d = Some x -> sm_image x = i /\ image_id (sm_context x) = Ok (sm_context x)).
Record sound (s : Store) : Prop := {
  sound_images : forall i d, images s !! i = Some d -> image_id i = Ok i /\ complete_image i d;
  sound_pods : forall p m, pods s !! p = Some m ->
    pod_id p = Ok p /\ pm_id m = p /\ pm_format_version m = STORE_FORMAT_VERSION /\ is_Some (images s !! pm_image m);
  sound_transactions : forall t m, transactions s !! t = Some m ->
    valid_transaction_id t = true /\ transaction_id m = t /\ tm_format_version m = STORE_FORMAT_VERSION
    /\ match operation m with CreatePod p i => pod_id p = Ok p /\ is_Some (images s !! i) | _ => True end;
  sound_parts : forall part p v, pod_parts s !! (part, p) = Some v -> pod_id p = Ok p
}.
End soundness.

Section reads.
Context (encoded_len : Manifest -> Z) (config_len : ImageConfig -> Z) (root : bytes).
Context (ok : Event -> Prop) (Runs_ok : ok Runs).
Implicit Types (s : Store).
Local Notation computes := (computes ok).

Lemma path_state_computes {A} s p (f : Store -> option A) : computes s (path_state p f) (Ok (f s)).
Proof.
  eapply computes_step; [by apply computes_same|]. eapply computes_step; [apply computes_get|]. apply computes_ret.
Qed.
Lemma there_computes {A} s p (f : Store -> option A) : computes s (there p f) (Ok (option_map (fun _ => tt) (f s))).
Proof. eapply computes_step; [apply path_state_computes|]. apply computes_ret. Qed.
Lemma read_json_computes {A} s p (f : Store -> option A) v : f s = Some v -> computes s (read_json p f) (Ok v).
Proof.
  intros H. eapply computes_step; [apply path_state_computes|]. rewrite H.
  eapply computes_step; [by apply computes_same|]. eapply computes_step; [by apply computes_same|]. apply computes_ret.
Qed.
Lemma read_dir_computes {A} s name (f : Store -> A) : name ∈ directories s -> computes s (read_dir name f) (Ok (f s)).
Proof.
  intros H. eapply computes_step; [by apply computes_same|]. eapply computes_step; [apply computes_get|].
  rewrite decide_True by done. apply computes_ret.
Qed.
Lemma gather_found_computes {A B} s nf (f : A -> op B) (g : A -> B) l :
  ~ can_fail ok -> (forall a, a ∈ l -> computes s (f a) (Ok (g a))) -> computes s (gather_found nf f l) (Ok (map g l)).
Proof.
  intros C H. eapply computes_step.
  - apply (computes_gather _ _ _ (fun a => [g a])). intros a Ha. apply computes_ok. eapply reads_bind.
    + apply computes_attempt. exact (H a Ha).
    + intros [e|b] X; cbn in X; [naive_solver|]. simplify_eq. by apply reads_ret.
  - replace (map g l) with (mjoin (map (fun a => [g a]) l)); [apply computes_ret|]. clear. induction l; cbn; [done|by f_equal].
Qed.

(** ** The functions *)
Definition layout s : Prop := Forall (fun n => n ∈ directories s) layout_directories.
Lemma layout_in s n : layout s -> bool_decide (n ∈ layout_directories) = true -> n ∈ directories s.
Proof. intros L H%bool_decide_eq_true. unfold layout in L. rewrite Forall_forall in L. by apply L. Qed.
Definition transaction_list s : list (bytes * TransactionManifest) := sort_by fst_leb (map_to_list (transactions s)).
Definition generation_of (i : bytes) (m : ImageManifest) : ImageGeneration :=
  {| ig_id := i; ig_root := image_file i "root"; ig_config := im_config m; ig_created_at_unix_ms := im_created_at_unix_ms m |}.
Definition image_of s (i : bytes) : outcome StoreError ImageGeneration :=
  match images s !! i ≫= im_manifest with Some m => Ok (generation_of i m) | None => Err (ImageNotFound i) end.
Definition ids_of {A} (m : gmap bytes A) : list bytes := sort_by bytes_leb (map_to_list m).*1.
(** The pod that keeps an image. *)
Definition reference_of s (i excluded : bytes) : option bytes :=
  match head (omap (fun p => if decide (option_map pm_image (pods s !! p) = Some i) then Some p else None) (ids_of (pods s))) with
  | Some p => Some p
  | None =>
      head (omap (fun x => if decide (x.1 = excluded) then None
                           else match operation x.2 with
                                | CreatePod p j => if decide (j = i) then Some p else None
                                | _ => None
                                end) (transaction_list s))
  end.

Context (s : Store) (Hs : sound config_len s) (Hl : layout s).
Local Notation image_unlocked := (image_unlocked config_len).

Lemma read_transaction_computes t m :
  transactions s !! t = Some m -> computes s (read_transaction t) (Ok (t, m)).
Proof.
  intros H. destruct (sound_transactions _ _ Hs _ _ H) as (V & T & F & _). unfold read_transaction. rewrite V. cbn [negb].
  eapply computes_step; [by apply read_json_computes|]. eapply computes_step.
  - unfold check_format. rewrite F. apply computes_outcome.
  - rewrite decide_True by done. apply computes_ret.
Qed.
Lemma read_transactions_computes : computes s read_transactions (Ok (transaction_list s)).
Proof.
  eapply computes_step; [apply read_dir_computes; by apply layout_in|]. eapply computes_step.
  - apply (computes_gather _ _ _ (fun t => (t, default {| tm_format_version := 0; transaction_id := []; operation := StageImage |} (transactions s !! t)))).
    intros t Ht. apply list_elem_of_fmap in Ht as ([t' m] & -> & Hm%elem_of_map_to_list). cbn. rewrite Hm. by apply read_transaction_computes.
  - eapply computes_eq; [apply computes_ret|]. unfold transaction_list. do 2 f_equal. rewrite map_map.
    rewrite <-(map_id (map_to_list _)) at 2. apply map_ext_in. intros [t m] Hm. cbn.
    apply list_elem_of_In, elem_of_map_to_list in Hm. by rewrite Hm.
Qed.
Lemma image_unlocked_computes i : computes s (image_unlocked i) (image_of s i).
Proof.
  unfold image_of. eapply computes_step; [apply path_state_computes|]. destruct (images s !! i) as [d|] eqn:Hd; cbn [mbind option_bind]; [|apply computes_raise].
  destruct (sound_images _ _ Hs _ _ Hd) as (_ & m & v & Hm & Hi & F & V & R & _). rewrite Hm.
  eapply computes_step; [apply read_json_computes; by rewrite Hd|]. eapply computes_step.
  - unfold check_format. rewrite F. apply computes_outcome.
  - eapply computes_step; [unfold validate; rewrite V; apply computes_ret|]. rewrite decide_True by done.
    eapply computes_step; [apply path_state_computes|]. rewrite Hd. cbn [mbind option_bind]. rewrite R, Hi. apply computes_ret.
Qed.
Lemma image_ids_computes : computes s image_ids (Ok (ids_of (images s))).
Proof.
  eapply computes_step; [apply read_dir_computes; by apply layout_in|]. eapply computes_step.
  - apply (computes_gather _ _ _ id). intros t Ht. apply list_elem_of_fmap in Ht as ([t' m] & -> & Hm%elem_of_map_to_list).
    unfold checked_id. cbn. rewrite (proj1 (sound_images _ _ Hs _ _ Hm)). apply computes_ret.
  - rewrite map_id. apply computes_ret.
Qed.
Lemma pod_ids_computes : computes s pod_ids (Ok (ids_of (pods s))).
Proof.
  eapply computes_step; [apply read_dir_computes; by apply layout_in|]. eapply computes_step.
  - apply (computes_gather _ _ _ id). intros t Ht. apply list_elem_of_fmap in Ht as ([t' m] & -> & Hm%elem_of_map_to_list).
    unfold checked_id. cbn. rewrite (proj1 (sound_pods _ _ Hs _ _ Hm)). apply computes_ret.
  - rewrite map_id. apply computes_ret.
Qed.
Lemma elem_ids {A} (m : gmap bytes A) i : i ∈ ids_of m <-> is_Some (m !! i).
Proof.
  unfold ids_of. rewrite sort_by_perm, list_elem_of_fmap. split.
  - intros ([j x] & -> & H%elem_of_map_to_list). by exists x.
  - intros [x H]. exists (i, x). by rewrite elem_of_map_to_list.
Qed.
Lemma image_of_found i : is_Some (images s !! i) -> exists g, image_of s i = Ok g.
Proof.
  intros [d Hd]. destruct (sound_images _ _ Hs _ _ Hd) as (_ & m & v & Hm & _). unfold image_of. rewrite Hd. cbn [mbind option_bind]. rewrite Hm. eauto.
Qed.
Lemma image_of_ok i g : image_of s i = Ok g -> exists d m, images s !! i = Some d /\ im_manifest d = Some m /\ g = generation_of i m.
Proof.
  unfold image_of. destruct (images s !! i) as [d|] eqn:Hd; cbn [mbind option_bind]; [|done]. destruct (im_manifest d) as [m|] eqn:Hm; [|done].
  intros [= <-]. eauto.
Qed.
Definition selected_of : outcome StoreError (option bytes) :=
  match selected s with
  | None => Ok None
  | Some m => match image_of s (selected_image_id m) with Ok _ => Ok (Some (selected_image_id m)) | Err e => Err e | Panic x => Panic x end
  end.
Lemma selected_image_computes : computes s (selected_image_unlocked config_len) selected_of.
Proof.
  unfold selected_of. eapply computes_step; [apply path_state_computes|]. destruct (selected s) as [m|] eqn:Hm; [|apply computes_ret].
  eapply computes_step; [by apply read_json_computes|]. pose proof (image_unlocked_computes (selected_image_id m)) as H.
  unfold image_of in *. destruct (images s !! selected_image_id m ≫= im_manifest); [|by apply computes_fail].
  eapply computes_step; [exact H|]. apply computes_ret.
Qed.
Definition seed_of (i : bytes) : outcome StoreError (option SetupSeedManifest) :=
  match seed_manifest_of i s with
  | None => Ok None
  | Some m =>
      match look (seed_root (sm_generation m)) s, look (seed_workspace (sm_generation m)) s with
      | Some _, Some _ => Ok (Some m)
      | _, _ => Err (CorruptManifest (seed_manifest_path i) "published setup seed is incomplete")
      end
  end.
Lemma seed_manifest_valid i m : seed_manifest_of i s = Some m -> sm_image m = i /\ image_id (sm_context m) = Ok (sm_context m).
Proof.
  unfold seed_manifest_of. destruct (images s !! i) as [d|] eqn:Hd; [|done]. cbn [mbind option_bind]. intros H.
  destruct (sound_images _ _ Hs _ _ Hd) as (_ & ? & ? & _ & _ & _ & _ & _ & _ & G). by apply G.
Qed.
Lemma setup_seed_computes i : computes s (setup_seed_for_image_with_manifest i) (seed_of i).
Proof.
  unfold seed_of. eapply computes_step; [apply path_state_computes|]. destruct (seed_manifest_of i s) as [m|] eqn:Hm; [|apply computes_ret].
  eapply computes_step; [by apply read_json_computes|]. rewrite decide_True by by apply seed_manifest_valid.
  eapply computes_step; [apply path_state_computes|]. destruct (look (seed_root _) s); [|apply computes_raise].
  eapply computes_step; [apply path_state_computes|]. destruct (look (seed_workspace _) s); [apply computes_ret|apply computes_raise].
Qed.
Lemma seed_of_valid i m : seed_of i = Ok (Some m) -> image_id (sm_context m) = Ok (sm_context m).
Proof. unfold seed_of. destruct (seed_manifest_of i s) eqn:H; [|done]. repeat case_match; try done. intros [= <-]. by apply seed_manifest_valid in H as [_ ?]. Qed.
Lemma read_pod_manifest_computes p m message wanted :
  pods s !! p = Some m -> wanted m = true -> computes s (read_pod_manifest p message wanted) (Ok m).
Proof.
  intros H W. destruct (sound_pods _ _ Hs _ _ H) as (_ & _ & F & _). eapply computes_step; [by apply read_json_computes|].
  eapply computes_step; [unfold check_format; rewrite F; apply computes_outcome|]. rewrite W. apply computes_ret.
Qed.
Lemma image_reference_computes i excluded :
  computes s (image_reference_excluding_transaction i excluded) (Ok (reference_of s i excluded)).
Proof.
  eapply computes_step; [apply pod_ids_computes|]. unfold reference_of. eapply computes_step.
  - apply (computes_each _ _ _ (fun p => if decide (option_map pm_image (pods s !! p) = Some i) then Some p else None)).
    intros p [m Hm]%elem_ids. destruct (sound_pods _ _ Hs _ _ Hm) as (_ & I & _).
    eapply computes_step; [apply read_pod_manifest_computes; [exact Hm|by apply bool_decide_eq_true]|]. rewrite Hm. cbn.
    eapply computes_eq; [apply computes_ret|]. f_equal. repeat case_decide; congruence.
  - destruct (head _); [apply computes_ret|]. eapply computes_step; [apply read_transactions_computes|]. apply computes_each.
    intros x Hx. apply computes_ret.
Qed.
Definition all_parts : list Part := [Root; Workspace; Docker; Temporary].
Definition has_storage (p : bytes) : bool :=
  bool_decide (is_Some (pods s !! p)) || existsb (fun part => bool_decide (is_Some (pod_parts s !! (part, p)))) all_parts.
Lemma elem_parts part : part ∈ all_parts.
Proof. destruct part; repeat (try (by left); right). Qed.
Lemma has_storage_false p : has_storage p = false <-> pods s !! p = None /\ forall part, pod_parts s !! (part, p) = None.
Proof.
  unfold has_storage. rewrite orb_false_iff, bool_decide_eq_false, <-eq_None_not_Some. split; (intros [H1 H2]; split; [done|]).
  - intros part. destruct (pod_parts s !! (part, p)) eqn:X; [|done]. exfalso. apply not_true_iff_false in H2. apply H2.
    apply existsb_exists. exists part. split; [apply list_elem_of_In, elem_parts|]. rewrite X. done.
  - apply not_true_iff_false. intros (part & _ & X)%existsb_exists. rewrite H2 in X. done.
Qed.
Lemma head_first {A B} (f : A -> option B) l : bool_decide (is_Some (head (omap f l))) = existsb (fun a => bool_decide (is_Some (f a))) l.
Proof. induction l as [|a l IH]; [done|]. cbn. destruct (f a); [done|exact IH]. Qed.
Lemma existsb_ext' {A} (f g : A -> bool) l : (forall a, f a = g a) -> existsb f l = existsb g l.
Proof. intros H. induction l; cbn; congruence. Qed.
Lemma pod_storage_exists_computes p : computes s (pod_storage_exists p) (Ok (has_storage p)).
Proof.
  eapply computes_step; [apply there_computes|]. unfold has_storage. destruct (pods s !! p) eqn:Hp; cbn [option_map].
  - rewrite bool_decide_true by eauto. apply computes_ret.
  - eapply computes_step; [apply computes_each; intros a _; apply there_computes|]. eapply computes_eq; [apply computes_ret|].
    rewrite head_first, (bool_decide_false (is_Some None)) by by intros [? ?]. cbn [orb]. f_equal. apply existsb_ext'. intros part. cbn [look part_place].
    destruct (pod_parts s !! (part, p)); done.
Qed.
Definition references_any (p : bytes) : bool := existsb (fun x => references_pod (operation x.2) p) (transaction_list s).
Lemma transaction_references_pod_computes p : computes s (transaction_references_pod p) (Ok (references_any p)).
Proof. eapply computes_step; [apply read_transactions_computes|]. apply computes_ret. Qed.
(** A handle that the store accepts. *)
Definition staged (h : ImageStaging) : bool :=
  let t := staging_transaction h in
  bool_decide (store_root h = root) && bool_decide (staging_dir h = staging_path t)
  && bool_decide (option_map operation (transactions s !! t) = Some StageImage) && bool_decide (is_Some (image_staging s !! t)).
Lemma validate_staging_computes h : computes s (validate_staging root h) (if staged h then Ok tt else Err InvalidStaging).
Proof.
  unfold validate_staging, staged. set (t := staging_transaction h).
  destruct (bool_decide (store_root h = root)); cbn [negb andb orb]; [|apply computes_raise].
  destruct (bool_decide (staging_dir h = staging_path t)); cbn [negb andb orb]; [|apply computes_raise].
  destruct (transactions s !! t) as [m|] eqn:Hm; cbn [option_map].
  - destruct (sound_transactions _ _ Hs _ _ Hm) as (_ & T & F & _).
    eapply reads_bind; [apply computes_attempt; apply read_json_computes; exact Hm|]. intros [e|m'] X; cbn in X.
    + destruct X as [X|]; [|done]. apply reads_raise. by left.
    + injection X as <-. eapply (computes_step _ _ _ _ tt); [unfold check_format; rewrite F; apply computes_outcome|].
      rewrite (bool_decide_true (transaction_id m = t)) by done. cbn [negb orb].
      destruct (decide (operation m = StageImage)) as [O|O].
      * rewrite (bool_decide_true (operation m = StageImage)), (bool_decide_true (Some _ = Some _)) by congruence. cbn [negb andb].
        eapply computes_step; [apply path_state_computes|]. destruct (image_staging s !! t).
        -- rewrite bool_decide_true by eauto. apply computes_ret.
        -- rewrite bool_decide_false by by intros [? ?]. apply computes_raise.
      * rewrite (bool_decide_false (operation m = StageImage)), (bool_decide_false (Some _ = Some _)) by congruence. apply computes_raise.
  - rewrite (bool_decide_false (None = _)) by done. cbn [andb]. eapply reads_bind.
    + eapply (reads_attempt _ _ _ (fun r => exists e, r = inl e) (fun _ => True)); [|eauto].
      eapply (reads_weaken _ _ _ (fun _ => False) _ (fun _ => True)); [|done|done].
      eapply reads_bind; [eapply reads_weaken; [apply path_state_computes|intros a X; exact X|done]|]. intros a [= <-]. rewrite Hm. by apply reads_raise.
    + intros ? [e ->]. apply computes_raise.
Qed.
Lemma elem_transactions t m : (t, m) ∈ transaction_list s <-> transactions s !! t = Some m.
Proof. unfold transaction_list. by rewrite sort_by_perm, elem_of_map_to_list. Qed.
Lemma references_any_false p t m : references_any p = false -> transactions s !! t = Some m -> references_pod (operation m) p = false.
Proof.
  intros H Hm. apply not_true_iff_false. intros X. apply not_true_iff_false in H. apply H. apply existsb_exists. exists (t, m).
  split; [by apply list_elem_of_In, elem_transactions|done].
Qed.
End reads.
Lemma head_omap_none {A B} (f : A -> option B) l : head (omap f l) = None -> forall a, a ∈ l -> f a = None.
Proof.
  induction l as [|x l IH]; cbn; intros H a; [by rewrite elem_of_nil|]. destruct (f x) eqn:X; [done|].
  rewrite elem_of_cons. intros [-> |Ha]; auto.
Qed.
Lemma reference_of_none s i x :
  reference_of s i x = None -> (forall m p j, transactions s !! x = Some m -> operation m <> CreatePod p j) ->
  (forall p m, pods s !! p = Some m -> pm_image m <> i) /\ (forall t m p, transactions s !! t = Some m -> operation m <> CreatePod p i).
Proof.
  unfold reference_of. destruct (head _) eqn:Hp; [done|]. intros Ht Hx. split.
  - intros p m Hm X. eapply head_omap_none in Hp; [|apply elem_ids; eauto]. cbn in Hp. rewrite Hm, decide_True in Hp; [done|]. cbn. by f_equal.
  - intros t m p Hm O. eapply head_omap_none in Ht; [|by apply (elem_transactions s t m)]. cbn in Ht. case_decide as D; [subst; by eapply Hx|].
    rewrite O, decide_True in Ht; done.
Qed.
Lemma omap_none {A B} (f : A -> option B) l : (forall a, a ∈ l -> f a = None) -> omap f l = [].
Proof. induction l as [|a l IH]; intros H; cbn; [done|]. rewrite (H a) by left. apply IH. intros. apply H. by right. Qed.
Lemma unreferenced_reference s i x :
  (forall p m, pods s !! p = Some m -> pm_image m <> i) -> (forall t m p, transactions s !! t = Some m -> operation m <> CreatePod p i) ->
  reference_of s i x = None.
Proof.
  intros H1 H2. unfold reference_of. rewrite omap_none.
  - cbn. rewrite omap_none; [done|]. intros [t m] Hm%elem_transactions. cbn. case_decide; [done|]. destruct (operation m) as [| |p j| |] eqn:O; try done.
    case_decide; [|done]. subst. by destruct (H2 t m p Hm).
  - intros p [m Hm]%elem_ids. rewrite Hm. cbn. case_decide as D; [|done]. injection D as D. by destruct (H1 p m Hm).
Qed.

(** * Invariants of the operations of the pod store

    For each operation, the changes of the store that an assertion must be closed under
    so that the operation keeps it, whatever fails. *)

Definition closed (P : Store -> Prop) (f : Store -> Store) : Prop := forall s, P s -> P (f s).

Ltac keep_step :=
  match goal with
  | |- keeps _ _ (ret _) => apply keeping_ret
  | |- keeps _ _ (raise _) => apply keeping_raise
  | |- keeps _ _ stop => apply keeping_stop
  | |- keeps _ _ get => apply keeping_get
  | |- keeps _ _ (of_outcome _) => apply keeping_outcome
  | |- keeps _ _ (attempt _) => apply keeping_attempt
  | |- keeps _ _ (syscall _ same) => apply keeping_syscall; [assumption|unfold same; by intros ? ?]
  | |- keeps _ _ (syscall _ _) => apply keeping_syscall; [assumption|]
  | |- keeps _ _ next_event => apply keeping_event; [assumption]
  | |- keeps _ _ (gather _ _) => apply keeping_gather; intros ? ?
  | |- keeps _ _ (each _ _) => apply keeping_each; intros ? ?
  | |- keeps _ _ (for_each _ _) => apply keeping_for_each; intros ? ?
  | |- keeps _ _ (andthen _ _) => apply keeping_bind; [|intro]
  | |- keeps _ _ (match ?x with _ => _ end) => destruct x
  | |- keeps _ _ (if ?x then _ else _) => destruct x
  end.
Ltac keep lemmas := repeat first [keep_step | lemmas ()].

Section keeping.
Context (encoded_len : Manifest -> Z) (config_len : ImageConfig -> Z) (root : bytes).
Context (ok : Event -> Prop) (Runs_ok : ok Runs) (P : Store -> Prop).
Local Notation keeps := (keeps ok P).

Lemma path_state_keeps {A} p (f : Store -> option A) : keeps (path_state p f).
Proof. unfold path_state. keep fail. Qed.
Lemma there_keeps {A} p (f : Store -> option A) : keeps (there p f).
Proof. unfold there, path_state. keep fail. Qed.
Lemma sync_directory_keeps p : keeps (sync_directory p).
Proof. unfold sync_directory. keep fail. Qed.
Lemma read_json_keeps {A} p (f : Store -> option A) : keeps (read_json p f).
Proof. unfold read_json, path_state. keep fail. Qed.
Lemma read_dir_keeps {A} n (f : Store -> A) : keeps (read_dir n f).
Proof. unfold read_dir. keep fail. Qed.
Lemma write_json_atomic_keeps p d m publish :
  closed P (change_temps S d) -> closed P (change_temps Nat.pred d) -> closed P publish -> keeps (write_json_atomic encoded_len p d m publish).
Proof.
  intros C1 C2 C3. unfold write_json_atomic, path_state, sync_directory.
  keep fail; intros x Hx; repeat case_match; auto.
Qed.
Lemma remove_file_durable_keeps {A} p q (f : Store -> option A) unlink : closed P unlink -> keeps (remove_file_durable p q f unlink).
Proof. intros C. unfold remove_file_durable, path_state, sync_directory. keep fail. exact C. Qed.
Lemma remove_empty_directory_keeps {A} p q (f : Store -> option A) e rmdir : closed P rmdir -> keeps (remove_empty_directory p q f e rmdir).
Proof. intros C. unfold remove_empty_directory, path_state, sync_directory. keep fail. exact C. Qed.
(** ** Subvolumes *)
Context (unwell : closed P (fun s => s <| healthy := false |>)).
Lemma run_btrfs_keeps a fs : Forall (closed P) fs -> keeps (run_btrfs a fs).
Proof. intros F. unfold run_btrfs, ensure_healthy. keep fail. by apply keeping_command. Qed.
Lemma commit_transaction_keeps : keeps commit_transaction.
Proof. by apply run_btrfs_keeps. Qed.
Lemma create_subvolume_keeps l a : (forall v, closed P (fill l v)) -> keeps (create_subvolume l a).
Proof.
  intros C. unfold create_subvolume, created_there, path_state. keep fail. apply run_btrfs_keeps. constructor; [done|constructor].
Qed.
Lemma snapshot_subvolume_keeps src l a : (forall v, closed P (fill l v)) -> keeps (snapshot_subvolume_with_operation src l a).
Proof.
  intros C. unfold snapshot_subvolume_with_operation, created_there, path_state. keep fail; apply run_btrfs_keeps; repeat (constructor; try done).
Qed.
Lemma modify_closed l f : (forall v, closed P (fill l v)) -> closed P (modify l f).
Proof. intros C s Hs. unfold modify. case_match; [by apply C|done]. Qed.
Lemma delete_subvolume_keeps l a : closed P (clear l) -> keeps (delete_subvolume_if_exists l a).
Proof. intros C. unfold delete_subvolume_if_exists, path_state. keep fail. apply run_btrfs_keeps. repeat (constructor; try done). Qed.
Lemma roll_back_keeps {A} a e m : keeps m -> keeps (roll_back (A := A) a e m).
Proof. intros H. unfold roll_back. keep fail. done. Qed.

(** ** Pods *)
Lemma image_unlocked_keeps i : keeps (image_unlocked config_len i).
Proof. unfold image_unlocked, validate. keep ltac:(fun _ => first [apply path_state_keeps|apply read_json_keeps]). Qed.
Lemma read_transactions_keeps : keeps read_transactions.
Proof. unfold read_transactions, read_transaction. keep ltac:(fun _ => first [apply read_dir_keeps|apply read_json_keeps]). Qed.
Context (p : bytes) (parts : forall part v, closed P (fill (part_place part p) v)).
Context (no_parts : forall part, closed P (clear (part_place part p))).
Lemma create_pod_temporary_keeps : keeps (create_pod_temporary p).
Proof.
  unfold create_pod_temporary, chmod. keep fail; [by apply create_subvolume_keeps|apply run_btrfs_keeps; repeat constructor| |]; try by apply modify_closed.
  apply roll_back_keeps. by apply delete_subvolume_keeps.
Qed.
Lemma pod_unlocked_keeps : keeps (pod_unlocked config_len p).
Proof.
  unfold pod_unlocked, read_pod_manifest, require_subvolume_path.
  keep ltac:(fun _ => first [apply path_state_keeps|apply read_json_keeps|apply image_unlocked_keeps|apply create_pod_temporary_keeps|apply commit_transaction_keeps]).
Qed.
Lemma cleanup_pod_subvolumes_keeps : keeps (cleanup_pod_subvolumes p).
Proof.
  unfold cleanup_pod_subvolumes. apply keeping_bind; [keep ltac:(fun _ => apply there_keeps)|]. intros found. destruct (mjoin found) as [|x l]; [apply commit_transaction_keeps|].
  keep ltac:(fun _ => apply path_state_keeps). apply run_btrfs_keeps. apply Forall_forall. intros f (part & -> & _)%list_elem_of_fmap. apply no_parts.
Qed.
Lemma remove_pod_manifest_keeps : closed P (fun s => s <| pods := delete p (pods s) |>) -> keeps (remove_pod_manifest p).
Proof. apply remove_file_durable_keeps. Qed.
Lemma continue_delete_pod_keeps : closed P (fun s => s <| pods := delete p (pods s) |>) -> keeps (continue_delete_pod p).
Proof. intros C. unfold continue_delete_pod. keep ltac:(fun _ => first [by apply remove_pod_manifest_keeps|apply cleanup_pod_subvolumes_keeps]). Qed.
End keeping.
