(* ===== verification/PodSafe.v ===== *)
(** * What no failure breaks

    [sound] is an invariant of every operation, for system calls and commands that run,
    fail half-way, time out or never return. *)

From S2P Require Import Prelude Lists Text Outage PodTypes PodStore PodReads.

Section safety.
Context (encoded_len : Manifest -> Z) (config_len : ImageConfig -> Z) (root : bytes).
Implicit Types (s : Store).
Local Notation sound := (sound config_len).
(** No pod and no pod that is being created uses the image. *)
Definition unreferenced (i : bytes) s : Prop :=
  (forall p m, pods s !! p = Some m -> pm_image m <> i) /\ (forall t m p, transactions s !! t = Some m -> operation m <> CreatePod p i).
(** The images of [K] are there, those of [N] are not referenced, and the transactions of
    [T] are pending. *)
Record frame (K N : list bytes) (T : list (bytes * TransactionManifest)) s : Prop := {
  frame_sound : sound s;
  frame_layout : layout s;
  frame_kept : Forall (fun i => is_Some (images s !! i)) K;
  frame_free : Forall (fun i => unreferenced i s) N;
  frame_pending : Forall (fun x => transactions s !! x.1 = Some x.2) T
}.
(** Changes elsewhere, and changes of images that leave them complete. *)
Lemma sound_ext s s' :
  pods s' = pods s -> transactions s' = transactions s -> pod_parts s' = pod_parts s ->
  (forall i, is_Some (images s !! i) -> is_Some (images s' !! i)) ->
  (forall i d, images s' !! i = Some d -> image_id i = Ok i /\ complete_image config_len i d) -> sound s -> sound s'.
Proof.
  intros E1 E2 E3 K C [H1 H2 H3 H4]. constructor; rewrite ?E1, ?E2, ?E3; [done|naive_solver| |done].
  intros t m Ht. destruct (H3 t m Ht) as (? & ? & ? & H). do 3 (split; [done|]). destruct (operation m); naive_solver.
Qed.
Lemma frame_ext K N T s s' :
  directories s' = directories s -> pods s' = pods s -> transactions s' = transactions s -> pod_parts s' = pod_parts s ->
  images s' = images s -> frame K N T s -> frame K N T s'.
Proof.
  intros E0 E1 E2 E3 E4 [H1 H2 H3 H4 H5]. constructor.
  - eapply sound_ext; eauto; rewrite E4; [done|]. apply H1.
  - unfold layout. by rewrite E0.
  - by rewrite E4.
  - eapply Forall_impl; [exact H4|]. intros i. unfold unreferenced. by rewrite E1, E2.
  - by rewrite E2.
Qed.
Lemma frame_alter K N T f i :
  (forall d, complete_image config_len i d -> complete_image config_len i (f d)) ->
  closed (frame K N T) (fun s => s <| images := alter f i (images s) |>).
Proof.
  intros C s [H1 H2 H3 H4 H5].
  assert (forall j, is_Some (images s !! j) -> is_Some (alter f i (images s) !! j)) as A by (intros j; by rewrite lookup_alter_is_Some).
  constructor; [|exact H2| |exact H4|exact H5].
  - apply (sound_ext s); [done..|exact A| |exact H1]. intros j d Hd. change (alter f i (images s) !! j = Some d) in Hd.
    apply lookup_alter_Some in Hd as [(<- & d' & Hd & ->)|[? Hd]]; [|by apply H1]. destruct (sound_images _ _ H1 _ _ Hd). auto.
  - eapply Forall_impl; [exact H3|]. exact A.
Qed.
Lemma frame_parts K N T part p v : pod_id p = Ok p -> closed (frame K N T) (fill (part_place part p) v).
Proof.
  intros V s [[S1 S2 S3 S4] H2 H3 H4 H5]. constructor; [constructor|done..]; [exact S1|exact S2|exact S3|].
  intros part' p' v' H. change (<[(part, p):=v]> (pod_parts s) !! (part', p') = Some v') in H.
  apply lookup_insert_Some in H as [[[= <- <-] _]|[_ H]]; [done|]. by eapply S4.
Qed.
Lemma frame_no_parts K N T part p : closed (frame K N T) (clear (part_place part p)).
Proof.
  intros s [[S1 S2 S3 S4] H2 H3 H4 H5]. constructor; [constructor|done..]; [exact S1|exact S2|exact S3|].
  intros part' p' v' H. change (delete (part, p) (pod_parts s) !! (part', p') = Some v') in H.
  apply lookup_delete_Some in H as [_ H]. by eapply S4.
Qed.
Lemma frame_no_pod K N T p : closed (frame K N T) (fun s => s <| pods := delete p (pods s) |>).
Proof.
  intros s [[S1 S2 S3 S4] H2 H3 H4 H5]. constructor; [constructor|exact H2|exact H3| |exact H5]; [exact S1| |exact S3|exact S4|].
  - intros p' m H. change (delete p (pods s) !! p' = Some m) in H. apply lookup_delete_Some in H as [_ H]. by apply S2.
  - eapply Forall_impl; [exact H4|]. intros i [F1 F2]. split; [|exact F2]. intros p' m H. change (delete p (pods s) !! p' = Some m) in H.
    apply lookup_delete_Some in H as [_ H]. by eapply F1.
Qed.
Lemma frame_pod K T p m :
  pod_id p = Ok p -> pm_id m = p -> pm_format_version m = STORE_FORMAT_VERSION -> pm_image m ∈ K ->
  closed (frame K [] T) (fun s => s <| pods := <[p := m]> (pods s) |>).
Proof.
  intros V1 V2 V3 V4 s [[S1 S2 S3 S4] H2 H3 H4 H5]. constructor; [constructor|exact H2|exact H3|constructor|exact H5]; [exact S1| |exact S3|exact S4].
  intros p' m' H. change (<[p:=m]> (pods s) !! p' = Some m') in H. apply lookup_insert_Some in H as [[<- <-]|[_ H]]; [|by apply S2].
  do 3 (split; [done|]). rewrite Forall_forall in H3. by apply H3.
Qed.
Lemma frame_transaction K N T t o :
  valid_transaction_id t = true -> t ∉ T.*1 ->
  match o with CreatePod p i => pod_id p = Ok p /\ i ∈ K /\ i ∉ N | _ => True end ->
  closed (frame K N T) (fun s => s <| transactions :=
    <[t := transaction_of t o]> (transactions s) |>).
Proof.
  intros V HT HO s [[S1 S2 S3 S4] H2 H3 H4 H5]. constructor; [constructor|exact H2|exact H3| |]; [exact S1|exact S2| |exact S4| |].
  - intros t' m' H. change (<[t:=transaction_of t o]> (transactions s) !! t' = Some m') in H. apply lookup_insert_Some in H as [[<- <-]|[_ H]]; [|by apply S3].
    do 3 (split; [done|]). cbn. destruct o; try done. destruct HO as (? & HK & _). split; [done|]. rewrite Forall_forall in H3. by apply H3.
  - apply Forall_forall. intros i Hi. rewrite Forall_forall in H4. destruct (H4 i Hi) as [F1 F2]. split; [exact F1|]. intros t' m' p' H.
    change (<[t:=transaction_of t o]> (transactions s) !! t' = Some m') in H. apply lookup_insert_Some in H as [[<- <-]|[_ H]]; [|by eapply F2].
    cbn. intros ->. naive_solver.
  - apply Forall_forall. intros [t' m'] Hx. rewrite Forall_forall in H5. change (<[t:=transaction_of t o]> (transactions s) !! t' = Some m').
    rewrite lookup_insert_ne; [by apply (H5 (t', m'))|]. intros <-. apply HT. by apply (list_elem_of_fmap_2 fst _ (t, m')).
Qed.
Lemma frame_finish K N T t : t ∉ T.*1 -> closed (frame K N T) (fun s => s <| transactions := delete t (transactions s) |>).
Proof.
  intros HT s [[S1 S2 S3 S4] H2 H3 H4 H5]. constructor; [constructor|exact H2|exact H3| |]; [exact S1|exact S2| |exact S4| |].
  - intros t' m' H. change (delete t (transactions s) !! t' = Some m') in H. apply lookup_delete_Some in H as [_ H]. by apply S3.
  - eapply Forall_impl; [exact H4|]. intros i [F1 F2]. split; [exact F1|]. intros t' m' p' H.
    change (delete t (transactions s) !! t' = Some m') in H. apply lookup_delete_Some in H as [_ H]. by eapply F2.
  - apply Forall_forall. intros [t' m'] Hx. rewrite Forall_forall in H5. change (delete t (transactions s) !! t' = Some m').
    rewrite lookup_delete_ne; [by apply (H5 (t', m'))|]. intros <-. apply HT. by apply (list_elem_of_fmap_2 fst _ (t, m')).
Qed.
Lemma frame_publish K N T s s' i d :
  frame K N T s -> image_id i = Ok i -> complete_image config_len i d -> images s' = <[i := d]> (images s) ->
  directories s' = directories s -> pods s' = pods s -> transactions s' = transactions s -> pod_parts s' = pod_parts s -> frame K N T s'.
Proof.
  intros [H1 H2 H3 H4 H5] V C E0 E1 E2 E3 E4.
  assert (forall j, is_Some (images s !! j) -> is_Some (images s' !! j)) as A.
  { intros j Hj. rewrite E0. destruct (decide (i = j)) as [->|]; [rewrite lookup_insert_eq; eauto|by rewrite lookup_insert_ne]. }
  constructor.
  - apply (sound_ext s); [done..|exact A| |exact H1]. intros j x. rewrite E0. intros [[<- <-]|[_ Hd]]%lookup_insert_Some; [done|by apply H1].
  - unfold layout. by rewrite E1.
  - eapply Forall_impl; [exact H3|]. exact A.
  - eapply Forall_impl; [exact H4|]. intros j. unfold unreferenced. by rewrite E2, E3.
  - by rewrite E3.
Qed.
Lemma frame_hide K N T t i d : i ∈ N -> i ∉ K -> closed (frame K N T) (hide_image t i d).
Proof.
  intros HN HK s [H1 H2 H3 H4 H5].
  assert (forall j, j <> i -> is_Some (images s !! j) -> is_Some (delete i (images s) !! j)) as A by (intros j ? ?; by rewrite lookup_delete_ne).
  rewrite Forall_forall in H4. destruct (H4 _ HN) as [F1 F2]. constructor; [|exact H2| |by apply Forall_forall|exact H5].
  - destruct H1 as [S1 S2 S3 S4]. constructor; [| | |exact S4].
    + intros j x H. change (delete i (images s) !! j = Some x) in H. apply lookup_delete_Some in H as [_ H]. by apply S1.
    + intros p m H. destruct (S2 _ _ H) as (? & ? & ? & ?). do 3 (split; [done|]). apply A; [by eapply F1|done].
    + intros t' m H. destruct (S3 _ _ H) as (? & ? & ? & X). do 3 (split; [done|]). destruct (operation m) eqn:O; try done.
      split; [apply X|]. apply A; [|apply X]. intros ->. by eapply F2.
  - apply Forall_forall. intros j Hj. rewrite Forall_forall in H3. apply A; [congruence|by apply H3].
Qed.

(** ** Parts of the operations *)
Context (ok : Event -> Prop) (Runs_ok : ok Runs).
Ltac elsewhere := let H := fresh in intros ? H; eapply (frame_ext _ _ _ _ _); [..|exact H]; reflexivity.
Lemma frame_unwell K N T : closed (frame K N T) (fun s => s <| healthy := false |>).
Proof. elsewhere. Qed.
Lemma frame_temps K N T f d : closed (frame K N T) (change_temps f d).
Proof.
  destruct d; try elsewhere. intros s H. apply (frame_alter K N T (fun x => x <| im_temps := f (im_temps x) |>)); [|done]. by intros d.
Qed.
Hint Resolve frame_unwell frame_temps frame_no_parts frame_no_pod : core.
Lemma write_json_frame K N T p d m publish : closed (frame K N T) publish -> keeps ok (frame K N T) (write_json_atomic encoded_len p d m publish).
Proof. intros H. apply write_json_atomic_keeps; auto. Qed.
Lemma begin_transaction_frame K N T t o :
  t ∉ T.*1 -> match o with CreatePod p i => pod_id p = Ok p /\ i ∈ K /\ i ∉ N | _ => True end ->
  keeps ok (frame K N T) (begin_transaction encoded_len t o).
Proof.
  intros HT HO. unfold begin_transaction, write_transaction. cbn [transaction_id transaction_of].
  destruct (valid_transaction_id t) eqn:V; cbn [negb]; [|apply keeping_raise]. apply write_json_frame. by apply frame_transaction.
Qed.
Lemma finish_transaction_frame K N T t : t ∉ T.*1 -> keeps ok (frame K N T) (finish_transaction t).
Proof. intros HT. apply remove_file_durable_keeps; [done|]. by apply frame_finish. Qed.
Lemma commit_frame K N T : keeps ok (frame K N T) commit_transaction.
Proof. by apply commit_transaction_keeps. Qed.
Lemma delete_subvolume_frame K N T l a : closed (frame K N T) (clear l) -> keeps ok (frame K N T) (delete_subvolume_if_exists l a).
Proof. intros H. by apply delete_subvolume_keeps. Qed.
Lemma cleanup_image_publication_frame K N T t : keeps ok (frame K N T) (cleanup_image_publication t).
Proof.
  unfold cleanup_image_publication. keep ltac:(fun _ => first [apply path_state_keeps; done|apply delete_subvolume_frame; elsewhere
    |apply remove_file_durable_keeps; [done|elsewhere]|apply remove_empty_directory_keeps; [done|elsewhere]]).
Qed.
Lemma delete_seed_generation_frame K N T g : keeps ok (frame K N T) (delete_seed_generation g).
Proof.
  unfold delete_seed_generation. keep ltac:(fun _ => first [apply path_state_keeps; done|apply delete_subvolume_frame; elsewhere
    |apply remove_empty_directory_keeps; [done|elsewhere]]).
Qed.
Lemma delete_image_tree_frame K N T t : keeps ok (frame K N T) (delete_image_tree t).
Proof.
  unfold delete_image_tree. keep ltac:(fun _ => first [apply path_state_keeps; done|apply read_json_keeps; done|apply delete_seed_generation_frame
    |apply delete_subvolume_frame; elsewhere|apply remove_file_durable_keeps; [done|elsewhere]|apply remove_empty_directory_keeps; [done|elsewhere]]).
Qed.
Lemma continue_delete_image_frame K N T t i : i ∈ N -> i ∉ K -> keeps ok (frame K N T) (continue_delete_image t i).
Proof.
  intros HN HK. unfold continue_delete_image. keep ltac:(fun _ => first [apply path_state_keeps; done|apply sync_directory_keeps; done
    |apply delete_image_tree_frame|apply commit_frame]). by apply frame_hide.
Qed.
Lemma create_temporary_frame K N T p : pod_id p = Ok p -> keeps ok (frame K N T) (create_pod_temporary p).
Proof. intros V. apply create_pod_temporary_keeps; auto using frame_parts. Qed.
Lemma pod_unlocked_frame K N T p : pod_id p = Ok p -> keeps ok (frame K N T) (pod_unlocked config_len p).
Proof. intros V. apply pod_unlocked_keeps; auto using frame_parts. Qed.
Lemma cleanup_pod_frame K N T p : keeps ok (frame K N T) (cleanup_pod_subvolumes p).
Proof. apply cleanup_pod_subvolumes_keeps; auto. Qed.
Lemma continue_delete_pod_frame K N T p : keeps ok (frame K N T) (continue_delete_pod p).
Proof. apply continue_delete_pod_keeps; auto. Qed.
Lemma setup_seed_frame K N T i : keeps ok (frame K N T) (setup_seed_for_image_with_manifest i).
Proof. unfold setup_seed_for_image_with_manifest. keep ltac:(fun _ => first [apply path_state_keeps; done|apply read_json_keeps; done]). Qed.
Lemma create_pod_inner_frame K T p i c now basis :
  pod_id p = Ok p -> i ∈ K -> keeps ok (frame K [] T) (create_pod_inner encoded_len p i c now basis).
Proof.
  intros V HK. unfold create_pod_inner, setup_seed_for_image, snapshot_subvolume, set_directory_owner.
  assert (forall part v, closed (frame K [] T) (fill (part_place part p) v)) as C by (intros; by apply frame_parts).
  keep ltac:(fun _ => first [apply path_state_keeps; done|apply setup_seed_frame|apply snapshot_subvolume_keeps; by auto
    |apply create_subvolume_keeps; by auto|by apply create_temporary_frame|apply commit_frame|apply write_json_frame, frame_pod; done]).
  apply modify_closed; auto.
Qed.

(** ** Operations *)
Definition ready : Store -> Prop := frame [] [] [].
Lemma frame_ready K N T s : frame K N T s -> ready s.
Proof. intros []. by constructor. Qed.
Lemma keeping_frame {A} K N T (m : op A) s : frame K N T s -> keeps ok (frame K N T) m -> hoare ok (eq s) m (fun _ => ready) (fun _ => ready) ready.
Proof. intros H X. eapply hoare_weaken; [exact X|by intros ? <-|..]; cbn; eauto using frame_ready. Qed.
Lemma create_pod_safe t p i now basis : pod_id p = Ok p -> keeps ok ready (create_pod_from_basis encoded_len config_len t p i now basis).
Proof.
  intros V. apply hoare_at. intros s H. pose proof (frame_sound _ _ _ _ H) as HS. pose proof (frame_layout _ _ _ _ H) as HL. eapply computes_then; [by apply image_unlocked_computes|done|done|].
  intros g (d & m & Hd & _)%image_of_ok.
  assert (frame [i] [] [] s) as F by (constructor; [done|done|repeat constructor; by rewrite Hd|constructor|constructor]).
  eapply keeping_frame; [exact F|]. keep ltac:(fun _ => first [apply there_keeps; done|apply read_transactions_keeps; done|
    apply begin_transaction_frame; [apply not_elem_of_nil|split; [done|split; [left|apply not_elem_of_nil]]]|apply create_pod_inner_frame; [done|left]
    |apply finish_transaction_frame, not_elem_of_nil|by apply pod_unlocked_frame|apply roll_back_keeps|apply cleanup_pod_frame
    |progress unfold pod_storage_exists, transaction_references_pod]).
Qed.
Lemma remove_image_safe t i : keeps ok ready (remove_image encoded_len config_len t i).
Proof.
  apply hoare_at. intros s H. pose proof (frame_sound _ _ _ _ H) as HS. pose proof (frame_layout _ _ _ _ H) as HL. eapply computes_then; [by apply image_unlocked_computes|done|done|]. intros g _.
  eapply computes_then; [by apply selected_image_computes|done|done|]. intros c _.
  destruct (decide (c = Some i)); [eapply keeping_frame; [exact H|apply keeping_raise]|].
  eapply computes_then; [by apply (image_reference_computes config_len)|done|done|]. intros r [= <-].
  destruct (reference_of s i []) eqn:R; [eapply keeping_frame; [exact H|apply keeping_raise]|].
  apply reference_of_none in R; [|intros m p j Hm; by destruct (sound_transactions _ _ HS _ _ Hm) as [? _]].
  assert (frame [] [i] [] s) as F by (constructor; [done|done|constructor|repeat constructor; apply R|constructor]). eapply keeping_frame; [exact F|].
  keep ltac:(fun _ => first [apply begin_transaction_frame; [apply not_elem_of_nil|done]|apply finish_transaction_frame, not_elem_of_nil
    |apply continue_delete_image_frame; [left|apply not_elem_of_nil]]).
Qed.

(** The directory of an image that is being published. *)
Definition publishing (t : bytes) (Q : ImageDir -> Prop) s : Prop :=
  ready s /\ exists d, image_publishing s !! t = Some d /\ im_seed d = None /\ Q d.
Lemma publishing_ready t Q s : publishing t Q s -> ready s.
Proof. by intros [? _]. Qed.
Lemma publishing_alter t Q s s' f :
  ready s' -> image_publishing s' = alter f t (image_publishing s) -> (forall d, im_seed (f d) = im_seed d) ->
  publishing t (fun d => Q (f d)) s -> publishing t Q s'.
Proof.
  intros R E S [_ (d & Hd & H1 & H2)]. split; [done|]. exists (f d). rewrite E, lookup_alter_eq, Hd. split; [done|]. by rewrite S.
Qed.
Lemma publishing_same t Q s s' : ready s' -> image_publishing s' = image_publishing s -> publishing t Q s -> publishing t Q s'.
Proof. intros R E [_ H]. split; [done|]. by rewrite E. Qed.
Ltac ready_elsewhere H := eapply (frame_ext [] [] [] _ _); [..|eapply publishing_ready; exact H]; reflexivity.
(** [P] holds after [m], which is kept when it does not return. *)
Definition leads {A} P (m : op A) Q : Prop := hoare ok P m Q (fun _ => ready) ready.
Lemma leads_bind {A B} P (m : op A) (k : A -> op B) M Q : leads P m M -> (forall a, leads (M a) (k a) Q) -> leads P (andthen m k) Q.
Proof. intros H1 H2. by eapply hoare_bind. Qed.
Lemma leads_keeps {A} P (m : op A) : (forall s, P s -> ready s) -> keeps ok P m -> leads P m (fun _ => P).
Proof. intros H X. eapply hoare_weaken; [exact X|auto..]. Qed.
Lemma leads_syscall P e f (Q : unit -> Store -> Prop) : (forall s, P s -> ready s) -> (forall s, P s -> Q tt (f s)) -> leads P (syscall e f) Q.
Proof. intros H1 H2. apply hoare_syscall; auto. Qed.
Lemma leads_raise {A} P e Q : (forall s, P s -> ready s) -> leads (A := A) P (raise e) Q.
Proof. intros H. by apply hoare_raise. Qed.

Lemma ensure_new_publishing t :
  leads ready (ensure_new_directory (publishing_path t) (RootPath "image-publishing") (fun s => image_publishing s !! t)
    (fun s => s <| image_publishing := <[t := new_image_dir]> (image_publishing s) |>)) (fun _ => publishing t (fun _ => True)).
Proof.
  unfold ensure_new_directory. eapply leads_bind; [apply leads_keeps; [done|by apply path_state_keeps]|]. intros [d|]; [by apply leads_raise|].
  eapply (leads_bind _ _ _ (fun _ => publishing t (fun _ => True))).
  - apply leads_syscall; [done|]. intros s H. split; [revert s H; elsewhere|]. exists new_image_dir.
    change (image_publishing _) with (<[t:=new_image_dir]> (image_publishing s)). by rewrite lookup_insert_eq.
  - intros ?. apply leads_keeps; [apply publishing_ready|]. by apply sync_directory_keeps.
Qed.
Lemma move_staging_publishing t : leads (publishing t (fun _ => True)) (move_staging t) (fun _ => publishing t (fun d => is_Some (im_root d))).
Proof.
  unfold move_staging. eapply leads_bind; [apply leads_keeps; [apply publishing_ready|apply keeping_get]|]. intros x.
  destruct (image_staging x !! t) as [v|].
  - apply leads_syscall; [apply publishing_ready|]. intros s H. eapply (publishing_alter t _ s _ (set_root (Some v))); [ready_elsewhere H|done|done|].
    destruct H as [? (d & ? & ? & ?)]. split; [done|]. exists d. repeat split; eauto.
  - eapply leads_bind; [apply leads_keeps; [apply publishing_ready|by apply keeping_syscall]|]. intros ?. apply leads_raise, publishing_ready.
Qed.
Lemma write_publishing t p m :
  keeps ok (publishing t (fun d => is_Some (im_root d)))
    (write_json_atomic encoded_len p (InPublishing t) (MImage m)
       (fun s => s <| image_publishing := alter (fun d => d <| im_manifest := Some m |>) t (image_publishing s) |>)).
Proof.
  apply write_json_atomic_keeps; [done|..]; intros s H; (eapply publishing_alter; [ready_elsewhere H|reflexivity|done|exact H]).
Qed.
Lemma read_publishing t p :
  leads (publishing t (fun d => is_Some (im_root d))) (read_json p (fun s => image_publishing s !! t ≫= im_manifest))
    (fun m => publishing t (fun d => is_Some (im_root d) /\ im_manifest d = Some m)).
Proof.
  apply hoare_at. intros s H. destruct (image_publishing s !! t ≫= im_manifest) as [m|] eqn:E.
  - eapply hoare_weaken; [apply (read_json_computes _ Runs_ok s p _ m E)|done|..]; cbn.
    + intros a ? [-> X]. injection X as <-. destruct H as [? (d & Hd & ? & ?)]. rewrite Hd in E. split; [done|]. eauto 6.
    + intros e ? [-> _]. by eapply publishing_ready.
    + intros ? <-. by eapply publishing_ready.
  - destruct H as [H _]. unfold read_json. eapply computes_then; [by apply path_state_computes|done|done|]. intros a [= <-]. rewrite E. apply leads_raise. by intros ? <-.
Qed.
Lemma freeze_publishing t m a :
  leads (publishing t (fun d => is_Some (im_root d) /\ im_manifest d = Some m))
    (run_btrfs a [modify (publishing_root t) (fun v => v <| sv_read_only := true |>)])
    (fun _ => publishing t (fun d => (exists v, im_root d = Some v /\ sv_read_only v = true) /\ im_manifest d = Some m)).
Proof.
  assert (forall f, closed (fun s => exists Q, publishing t Q s) (modify (publishing_root t) f)) as C.
  { intros f. intros s (Q & H). unfold modify. destruct (look _ s) as [v|]; [|by exists Q]. exists (fun _ => True).
    eapply (publishing_alter t _ s _ (set_root (Some (f v)))); [ready_elsewhere H|done|done|]. destruct H as [? (d & ? & ? & ?)]. split; eauto. }
  assert (forall b s Q, publishing t Q s -> ready (partly b [modify (publishing_root t) (fun v => v <| sv_read_only := true |>)] s)) as C'.
  { intros b s Q H. edestruct (partly_keeps (fun s => exists Q, publishing t Q s)) as [? X]; [|by exists Q|by eapply publishing_ready; exact X]. repeat constructor. apply C. }
  unfold run_btrfs, ensure_healthy. eapply leads_bind; [apply leads_keeps; [apply publishing_ready|keep fail]|]. intros ?.
  apply hoare_command; [done|..].
  - intros s H. cbn. unfold modify. pose proof H as [_ (d & Hd & _ & [v Hv] & _)]. cbn [look publishing_root]. rewrite Hd. cbn [mbind option_bind]. rewrite Hv.
    eapply (publishing_alter t _ s _ (set_root (Some _))); [ready_elsewhere H|done|done|].
    destruct H as [? (d' & ? & ? & ? & ?)]. split; [done|]. exists d'. repeat split; eauto.
  - intros b s ? H. by eapply C'.
  - intros b s ? H. apply frame_unwell. by eapply C'.
  - intros b s ? H. by eapply C'.
Qed.
Lemma move_published_safe t i m :
  image_id i = Ok i -> im_id m = i -> im_format_version m = STORE_FORMAT_VERSION -> validate_config config_len (im_config m) = Ok tt ->
  leads (publishing t (fun d => (exists v, im_root d = Some v /\ sv_read_only v = true) /\ im_manifest d = Some m)) (move_published t i) (fun _ => ready).
Proof.
  intros V1 V2 V3 V4. unfold move_published. apply hoare_at. intros s H. eapply computes_then; [apply computes_get| |by eapply publishing_ready|].
  - intros e ?. by eapply publishing_ready.
  - intros x [= <-]. pose proof H as [R (d & Hd & S & (v & Hv & W) & Hm)]. rewrite Hd. destruct (images s !! i) eqn:Hi.
    + eapply keeping_frame; [exact R|]. keep fail.
    + apply leads_syscall; [by intros ? <-|]. intros ? <-. eapply (frame_publish [] [] [] s _ i d R V1); try reflexivity.
      exists m, v. split_and!; try done. intros y Hy. by rewrite S in Hy.
Qed.
Lemma publish_image_inner_safe h i c now :
  image_id i = Ok i -> validate_config config_len c = Ok tt ->
  keeps ok ready (publish_image_inner encoded_len h i c now).
Proof.
  intros V1 V2. unfold publish_image_inner. set (t := staging_transaction h).
  eapply leads_bind; [apply ensure_new_publishing|]. intros ?. eapply leads_bind; [apply move_staging_publishing|]. intros ?.
  eapply leads_bind; [apply leads_keeps; [apply publishing_ready|by apply sync_directory_keeps]|]. intros ?.
  eapply leads_bind; [apply leads_keeps; [apply publishing_ready|by apply sync_directory_keeps]|]. intros ?.
  eapply leads_bind; [apply leads_keeps; [apply publishing_ready|apply write_publishing]|]. intros ?.
  eapply leads_bind; [apply read_publishing|]. intros m. case_decide as D; [|apply leads_raise, publishing_ready].
  eapply leads_bind; [apply freeze_publishing|]. intros ?. eapply leads_bind; [apply leads_keeps; [apply publishing_ready|]|intros ?].
  - apply commit_transaction_keeps; [done|]. intros s H. apply (publishing_same _ _ s); [|reflexivity|exact H]. apply frame_unwell. by eapply publishing_ready.
  - eapply leads_bind; [apply move_published_safe; by rewrite ?D|]. intros ?.
    apply leads_keeps; [done|]. keep ltac:(fun _ => first [apply sync_directory_keeps; done|apply commit_frame]).
Qed.
Ltac safe_step :=
  first [apply path_state_keeps; done|apply there_keeps; done|apply read_json_keeps; done|apply read_dir_keeps; done
    |apply sync_directory_keeps; done|apply read_transactions_keeps; done|apply image_unlocked_keeps; done
    |apply begin_transaction_frame; [apply not_elem_of_nil|done]|apply finish_transaction_frame, not_elem_of_nil
    |apply commit_frame|apply cleanup_image_publication_frame|apply delete_seed_generation_frame|apply setup_seed_frame
    |by apply pod_unlocked_frame|by apply create_temporary_frame|apply cleanup_pod_frame|apply continue_delete_pod_frame
    |apply roll_back_keeps|apply write_json_frame; elsewhere|apply remove_file_durable_keeps; [done|elsewhere]
    |apply delete_subvolume_frame; elsewhere|apply create_subvolume_keeps; [done|apply frame_unwell|intros ?; elsewhere]
    |apply snapshot_subvolume_keeps; [done|apply frame_unwell|intros ?; elsewhere]|apply modify_closed; intros ?; elsewhere].
Ltac safe := unfold ready; keep ltac:(fun _ => safe_step).
Lemma begin_image_safe t : keeps ok ready (begin_image encoded_len root t).
Proof. unfold begin_image, commit_and_finish_transaction. safe. Qed.
Lemma validate_staging_safe h : keeps ok ready (validate_staging root h).
Proof. unfold validate_staging. safe. Qed.
Lemma publish_image_safe h i c now :
  image_id i = Ok i -> validate_config config_len c = Ok tt -> keeps ok ready (publish_image encoded_len config_len root h i c now).
Proof.
  intros V1 V2. unfold publish_image, commit_and_finish_transaction. apply keeping_bind; [apply validate_staging_safe|]. intros ?.
  safe. by apply publish_image_inner_safe.
Qed.
Lemma discard_image_safe h : keeps ok ready (discard_image root h).
Proof. unfold discard_image, commit_and_finish_transaction. apply keeping_bind; [apply validate_staging_safe|]. intros ?. safe. Qed.
Lemma select_image_safe i : keeps ok ready (select_image encoded_len config_len i).
Proof. unfold select_image. safe. Qed.
Lemma clear_selected_image_safe : keeps ok ready clear_selected_image.
Proof. unfold clear_selected_image. safe. Qed.
Lemma reset_pod_temporary_safe p : pod_id p = Ok p -> keeps ok ready (reset_pod_temporary config_len p).
Proof. intros V. unfold reset_pod_temporary. safe. apply delete_subvolume_frame, frame_no_parts. Qed.
Lemma destroy_pod_safe t p : pod_id p = Ok p -> keeps ok ready (destroy_pod encoded_len config_len t p).
Proof. intros V. unfold destroy_pod. safe. Qed.
Lemma ensure_cache_safe name : keeps ok ready (ensure_cache name).
Proof. unfold ensure_cache, chmod. safe. Qed.
Lemma canonicalize_safe source a : keeps ok ready (canonicalize source a).
Proof. unfold canonicalize. safe. Qed.
Lemma exchange_golden_frame K N T name : closed (frame K N T) (exchange_golden name).
Proof. intros s H. unfold exchange_golden. repeat case_match; try done; revert H; apply frame_ext; done. Qed.
Lemma rename_golden_frame K N T name : closed (frame K N T) (rename_golden name).
Proof. intros s H. unfold rename_golden. repeat case_match; try done; revert H; apply frame_ext; done. Qed.
Lemma publish_golden_workspace_safe name source : keeps ok ready (publish_golden_workspace name source).
Proof.
  unfold publish_golden_workspace, snapshot_subvolume. apply keeping_bind; [apply canonicalize_safe|]. intros ?.
  safe; [apply exchange_golden_frame|apply rename_golden_frame].
Qed.
Lemma set_read_only_frame K N T l : (forall v, closed (frame K N T) (fill l v)) -> keeps ok (frame K N T) (set_subvolume_read_only l).
Proof. intros C. apply run_btrfs_keeps; [done|apply frame_unwell|]. constructor; [by apply modify_closed|constructor]. Qed.
Lemma write_seed_safe i c g r w : image_id c = Ok c -> keeps ok ready (write_seed encoded_len i c g r w).
Proof.
  intros V. unfold write_seed, snapshot_subvolume. safe; try (apply set_read_only_frame; intros ?; elsewhere).
  apply write_json_frame, frame_alter. intros d (m & v & H1 & H2 & H3 & H4 & H5 & H6 & _). exists m, v. split_and!; try done.
  intros x Hx. cbn in Hx. by injection Hx as <-.
Qed.
Lemma create_seed_directory_safe g a : keeps ok ready (create_seed_directory g a).
Proof. unfold create_seed_directory. safe. elsewhere. Qed.
Lemma publish_setup_seed_safe g p c : pod_id p = Ok p -> image_id c = Ok c -> keeps ok ready (publish_setup_seed encoded_len config_len g p c).
Proof.
  intros V Vc. unfold publish_setup_seed. keep ltac:(fun _ => first [by apply write_seed_safe|apply create_seed_directory_safe|unfold ready; safe_step]).
Qed.
Lemma publish_image_workspace_seed_safe g i source : keeps ok ready (publish_image_workspace_seed encoded_len g i source).
Proof.
  unfold publish_image_workspace_seed. eapply (keeping_found _ _ _ _ (fun r => forall m, r = Some m -> image_id (sm_context m) = Ok (sm_context m)) (fun _ => True)).
  { intros s F. eapply reads_weaken; [apply (setup_seed_computes config_len ok Runs_ok s (frame_sound _ _ _ _ F))| |].
    - intros r H m ->. exact (seed_of_valid _ _ (frame_sound _ _ _ _ F) _ _ H).
    - done. }
  intros [m|] Vm; [specialize (Vm m eq_refl)|];
  keep ltac:(fun _ => first [apply canonicalize_safe|by apply write_seed_safe|apply create_seed_directory_safe|unfold ready; safe_step]).
Qed.
Lemma pod_ids_keeps : keeps ok ready pod_ids.
Proof. unfold pod_ids, checked_id. safe. Qed.
Lemma image_ids_keeps : keeps ok ready image_ids.
Proof. unfold image_ids, checked_id. safe. Qed.
Lemma list_images_safe : keeps ok ready (list_images config_len).
Proof. unfold list_images, gather_found, image. apply keeping_bind; [apply image_ids_keeps|]. intros ?. safe. Qed.
Lemma selected_image_safe : keeps ok ready (selected_image config_len).
Proof. unfold selected_image, selected_image_unlocked. safe. Qed.
Lemma setup_seed_image_safe c : keeps ok ready (setup_seed_image config_len c).
Proof. unfold setup_seed_image, list_images_unlocked. apply keeping_bind; [apply keeping_bind; [apply image_ids_keeps|intros ?; safe]|]. intros ?. safe. Qed.
Lemma image_workspace_seed_safe i : keeps ok ready (image_workspace_seed i).
Proof. unfold image_workspace_seed, setup_seed_for_image. safe. Qed.
Lemma golden_workspace_safe : keeps ok ready golden_workspace.
Proof. unfold golden_workspace. safe. Qed.
Lemma list_pods_safe : keeps ok ready (list_pods config_len).
Proof.
  unfold list_pods, gather_found, pod. apply hoare_at. intros s H. pose proof (frame_sound _ _ _ _ H) as HS. pose proof (frame_layout _ _ _ _ H) as HL.
  eapply computes_then; [by apply (pod_ids_computes config_len)|done|done|]. intros ids [= <-]. eapply keeping_frame; [exact H|].
  keep ltac:(fun _ => apply pod_unlocked_frame). match goal with X : _ ∈ ids_of _ |- _ => apply elem_ids in X as [m Hm] end.
  by destruct (sound_pods _ _ HS _ _ Hm).
Qed.

Lemma create_staging_safe src dst : keeps ok ready (create_repository_staging_workspace src dst).
Proof. unfold create_repository_staging_workspace. safe. Qed.
Lemma remove_staging_safe p : keeps ok ready (remove_repository_staging_workspace p).
Proof. unfold remove_repository_staging_workspace. safe. Qed.

(** ** Recovery *)
Lemma recover_create_pod_frame K N T p i : pod_id p = Ok p -> keeps ok (frame K N T) (recover_create_pod config_len p i).
Proof.
  intros V. unfold recover_create_pod, read_pod_manifest. keep ltac:(fun _ => first [apply remove_pod_manifest_keeps; [done|apply frame_no_pod]|safe_step]).
Qed.
Lemma recover_transaction_frame T t m : t ∉ T.*1 -> leads (frame [] [] ((t, m) :: T)) (recover_transaction config_len (t, m)) (fun _ => frame [] [] T).
Proof.
  intros HT. apply hoare_at. intros s H.
  assert (frame [] [] T s) as H' by (destruct H as [? ? ? ? HP]; constructor; try done; by inversion HP).
  pose proof (frame_sound _ _ _ _ H) as HS. pose proof (frame_layout _ _ _ _ H) as HL.
  assert (transactions s !! t = Some m) as Hm by (destruct H as [_ _ _ _ HP]; by inversion HP).
  destruct (sound_transactions _ _ HS _ _ Hm) as (_ & _ & _ & HO).
  assert (forall N (k : op unit), frame [] N T s -> keeps ok (frame [] N T) k -> hoare ok (eq s) k (fun _ => frame [] [] T) (fun _ => ready) ready) as G.
  { intros N k F X. eapply hoare_weaken; [exact X|by intros ? <-|..]; cbn; eauto using frame_ready. intros ? s' [? ? ? ? ?]. by constructor. }
  unfold recover_transaction. cbn [fst snd]. destruct (operation m) as [|i|p i|p|i] eqn:O.
  - eapply G; [exact H'|]. keep ltac:(fun _ => first [apply finish_transaction_frame; done|safe_step]).
  - eapply G; [exact H'|]. keep ltac:(fun _ => first [apply finish_transaction_frame; done|safe_step]).
  - eapply G; [exact H'|]. destruct HO. keep ltac:(fun _ => first [apply finish_transaction_frame; done|by apply recover_create_pod_frame|safe_step]).
  - eapply G; [exact H'|]. keep ltac:(fun _ => first [apply finish_transaction_frame; done|safe_step]).
  - eapply (hoare_bind _ _ _ _ (fun _ => frame [] [] T)).
    + eapply computes_then; [by apply (image_reference_computes config_len)|by intros; eapply frame_ready|by eapply frame_ready|].
      intros r [= <-]. destruct (reference_of s i t) eqn:R; [apply hoare_raise; intros ? <-; by eapply frame_ready|].
      apply reference_of_none in R; [|intros m' p' j Hm' ?; congruence].
      assert (frame [] [i] T s) as F by (destruct H'; constructor; [done|done|constructor|repeat constructor; apply R|done]).
      eapply (hoare_bind _ _ _ _ (fun _ => frame [] [] T)); [eapply G; [exact F|]|intros ?; by apply hoare_ret].
      apply continue_delete_image_frame; [left|apply not_elem_of_nil].
    + intros b. apply leads_keeps; [apply frame_ready|]. keep ltac:(fun _ => first [apply finish_transaction_frame; done|safe_step]).
Qed.
Lemma transaction_list_nodup s : NoDup (transaction_list s).*1.
Proof. unfold transaction_list. rewrite sort_by_perm. apply NoDup_fst_map_to_list. Qed.
Lemma cleanup_orphans_safe : keeps ok ready cleanup_orphaned_pod_subvolumes.
Proof. unfold cleanup_orphaned_pod_subvolumes, checked_id. safe. Qed.
Lemma remove_temps_frame K N T p d n : keeps ok (frame K N T) (remove_temps p d n).
Proof. induction n; cbn [remove_temps]; keep ltac:(fun _ => first [apply frame_temps|exact IHn]). Qed.
Lemma cleanup_atomic_temps_frame K N T p d count : keeps ok (frame K N T) (cleanup_atomic_temps p d count).
Proof. unfold cleanup_atomic_temps. keep ltac:(fun _ => first [apply remove_temps_frame|safe_step]). Qed.
Lemma recover_safe : keeps ok ready (recover config_len).
Proof.
  unfold recover. apply keeping_bind; [apply cleanup_atomic_temps_frame|]. intros ?. apply keeping_bind; [apply cleanup_atomic_temps_frame|]. intros ?.
  apply hoare_at. intros s H. pose proof (frame_sound _ _ _ _ H) as HS. pose proof (frame_layout _ _ _ _ H) as HL.
  eapply computes_then; [by apply (read_transactions_computes config_len)|done|done|]. intros l [= <-].
  eapply (hoare_bind _ _ _ _ (fun _ => ready)); [|intros ?; apply cleanup_orphans_safe].
  assert (frame [] [] (transaction_list s) s) as F.
  { constructor; [done|done|constructor|constructor|]. apply Forall_forall. intros [t m] Hx. by apply elem_transactions. }
  eapply (hoare_pre _ (frame [] [] (transaction_list s))); [|by intros ? <-]. clear F. generalize (transaction_list_nodup s).
  generalize (transaction_list s) as l. clear s H HS HL. induction l as [|[t m] l IH]; intros N; cbn [for_each]; [by apply keeping_ret|].
  apply NoDup_cons in N as [N1 N2]. eapply leads_bind; [by apply recover_transaction_frame|]. intros ?. by apply IH.
Qed.

(** ** Opening *)
Lemma sound_same s s' :
  pods s' = pods s -> transactions s' = transactions s -> pod_parts s' = pod_parts s -> images s' = images s -> sound s -> sound s'.
Proof. intros E1 E2 E3 E4 H. eapply sound_ext; eauto; rewrite E4; [done|]. apply H. Qed.
Ltac sound_elsewhere := let H := fresh in intros ? H; eapply sound_same; [..|exact H]; reflexivity.
Lemma remove_temps_sound p n : keeps ok sound (remove_temps p InStore n).
Proof. induction n; cbn [remove_temps]; keep ltac:(fun _ => first [exact IHn|sound_elsewhere]). Qed.
Lemma ensure_directory_post n : hoare ok sound (ensure_managed_directory n) (fun _ s => sound s /\ n ∈ directories s) (fun _ => sound) sound.
Proof.
  apply hoare_at. intros s H. unfold ensure_managed_directory. eapply computes_then; [by apply path_state_computes|done|done|]. intros v [= <-].
  case_decide; [apply hoare_ret; by intros ? <-|]. eapply (hoare_bind _ _ _ _ (fun _ s => sound s /\ n ∈ directories s)).
  - apply hoare_syscall; [done|intros ? <-|by intros ? ? ? ? <-|by intros ? ? ? <-]. split; [by apply (sound_same s)|].
    change (n ∈ {[n]} ∪ directories s). set_solver.
  - intros ?. eapply hoare_weaken; [apply (sync_directory_keeps _ Runs_ok (fun s => sound s /\ n ∈ directories s))|naive_solver..].
Qed.
Lemma ensure_directory_keeps n n' : keeps ok (fun s => sound s /\ n' ∈ directories s) (ensure_managed_directory n).
Proof.
  unfold ensure_managed_directory. keep ltac:(fun _ => first [apply path_state_keeps; done|apply sync_directory_keeps; done]).
  intros s [H1 H2]. split; [by apply (sound_same s)|]. change (n' ∈ {[n]} ∪ directories s). set_solver.
Qed.
Lemma ensure_directories_post l :
  hoare ok sound (for_each ensure_managed_directory l) (fun _ s => sound s /\ Forall (fun n => n ∈ directories s) l) (fun _ => sound) sound.
Proof.
  assert (forall done, hoare ok (fun s => sound s /\ Forall (fun n => n ∈ directories s) done) (for_each ensure_managed_directory l)
    (fun _ s => sound s /\ Forall (fun n => n ∈ directories s) (l ++ done)) (fun _ => sound) sound) as G.
  { induction l as [|n l IH]; intros dn; cbn [for_each app]; [by apply hoare_ret|].
    eapply (hoare_bind _ _ _ _ (fun _ s => sound s /\ Forall (fun n => n ∈ directories s) (n :: dn))).
    - intros w F [H1 H2]. pose proof (ensure_directory_post n w F H1) as [F' X]. split; [done|].
      assert (forall n', n' ∈ dn -> n' ∈ directories (disk (ensure_managed_directory n w).2)) as K.
      { intros n' Hn. rewrite Forall_forall in H2. pose proof (ensure_directory_keeps n n' w F (conj H1 (H2 _ Hn))) as [_ Y].
        destruct ((ensure_managed_directory n w).1); apply Y. }
      destruct ((ensure_managed_directory n w).1); [|done|done]. split; [apply X|]. constructor; [apply X|]. apply Forall_forall. exact K.
    - intros ?. eapply hoare_weaken; [apply (IH (n :: dn))|done| |done|done]. intros ? s [? X]. split; [done|].
      change (Forall (fun n => n ∈ directories s) ([n] ++ l ++ dn)). rewrite Forall_app in X. rewrite !Forall_app. destruct X as [? X]. inversion X. subst. split_and!; auto. }
  eapply hoare_weaken; [apply (G [])|by intros s H| |done|done]. intros ? s [? X]. rewrite app_nil_r in X. done.
Qed.
Lemma open_safe : hoare ok sound (open encoded_len config_len) (fun _ => ready) (fun _ => sound) sound.
Proof.
  assert (closed sound (fun s => s <| healthy := false |>)) as U by sound_elsewhere.
  unfold open. apply keeping_then; [apply keeping_put; sound_elsewhere|done|done|]. intros ?.
  apply keeping_then; [by apply run_btrfs_keeps|done|done|]. intros ?.
  apply keeping_then; [unfold ensure_quotas_enabled; keep ltac:(fun _ => by apply run_btrfs_keeps)|done|done|]. intros ?.
  eapply (hoare_bind _ _ _ _ (fun _ => ready)).
  - unfold initialize_layout. apply keeping_then; [|done|done|].
    + unfold adopt_root, cleanup_initialization_temps. apply keeping_bind; [by apply path_state_keeps|]. intros ?. keep ltac:(fun _ => first [apply remove_temps_sound|apply sync_directory_keeps; done
        |apply write_json_atomic_keeps; [done|sound_elsewhere|sound_elsewhere|sound_elsewhere]]).
    + intros ?. apply keeping_then; [by apply read_json_keeps|done|done|]. intros ?. apply keeping_then; [apply keeping_outcome|done|done|]. intros ?.
      eapply hoare_weaken; [apply ensure_directories_post|done| |done|done]. intros ? s [? ?]. by constructor.
  - intros ?. eapply hoare_weaken; [apply recover_safe|done|done|..]; [by intros ? ? []|by intros ? []].
Qed.
End safety.
