(* ===== verification/PodOps.v ===== *)
(** * Histories of the pod store

    The operations of [BtrfsStore] as requests, and the states that processes reach which
    open the store, run operations and stop, while pods and image builders write to their
    subvolumes. *)

From S2P Require Import Prelude Lists Text Outage PodTypes PodStore PodReads PodSafe.

Inductive Request :=
| BeginImage (t : bytes)
| PublishImageAs (h : ImageStaging) (image : bytes) (config : ImageConfig) (now : Z)
| DiscardImage (h : ImageStaging)
| GetImage (image : bytes)
| ListImages
| SelectedImage
| SelectImage (image : bytes)
| ClearSelectedImage
| CreatePodFrom (t pod image : bytes) (now : Z) (basis : PodWorkspaceBasis)
| GetPod (pod : bytes)
| ListPods
| ResetPodTemporary (pod : bytes)
| EnsureCache (name : bytes)
| PublishGoldenWorkspace (name source : bytes)
| GetGoldenWorkspace
| PublishSetupSeed (g pod context : bytes)
| PublishImageWorkspaceSeed (g image source : bytes)
| ImageWorkspaceSeed (image : bytes)
| SetupSeedImage (context : bytes)
| DestroyPod (t pod : bytes)
| RemoveImage (t image : bytes)
| Recover
| CreateStagingWorkspace (source : option bytes) (destination : bytes)
| RemoveStagingWorkspace (staging : bytes).
Inductive Reply :=
| Done | Staging (h : ImageStaging) | Generation (g : ImageGeneration) | Generations (l : list ImageGeneration)
| Identifier (i : option bytes) | Storage (p : PodStorage) | Storages (l : list PodStorage) | Located (p : option Path).
(** The types of the arguments: identifiers and configurations have been validated, random
    identifiers are those of [unique_id], times are [u64]. *)
Definition is_image (i : bytes) : Prop := image_id i = Ok i.
Definition is_pod (p : bytes) : Prop := pod_id p = Ok p.
Definition is_unique (t : bytes) : Prop := valid_transaction_id t = true.
Definition is_time (now : Z) : Prop := 0 <= now <= u64_max.
Definition valid_request (config_len : ImageConfig -> Z) (r : Request) : Prop :=
  match r with
  | BeginImage t => is_unique t
  | PublishImageAs _ i c now => is_image i /\ validate_config config_len c = Ok tt /\ is_time now
  | GetImage i | SelectImage i | ImageWorkspaceSeed i => is_image i
  | CreatePodFrom t p i now _ => is_unique t /\ is_pod p /\ is_image i /\ is_time now
  | GetPod p | ResetPodTemporary p => is_pod p
  | PublishSetupSeed g p c => is_unique g /\ is_pod p /\ is_image c
  | PublishImageWorkspaceSeed g i _ => is_unique g /\ is_image i
  | DestroyPod t p => is_unique t /\ is_pod p
  | RemoveImage t i => is_unique t /\ is_image i
  | SetupSeedImage c => is_image c
  | _ => True
  end.

Section histories.
Context (encoded_len : Manifest -> Z) (config_len : ImageConfig -> Z) (root : bytes).
Definition answering {A} (m : op A) (f : A -> Reply) : op Reply := do a <- m; ret (f a).
Definition exec (r : Request) : op Reply :=
  match r with
  | BeginImage t => answering (begin_image encoded_len root t) Staging
  | PublishImageAs h i c now => answering (publish_image encoded_len config_len root h i c now) Generation
  | DiscardImage h => answering (discard_image root h) (fun _ => Done)
  | GetImage i => answering (image config_len i) Generation
  | ListImages => answering (list_images config_len) Generations
  | SelectedImage => answering (selected_image config_len) Identifier
  | SelectImage i => answering (select_image encoded_len config_len i) (fun _ => Done)
  | ClearSelectedImage => answering clear_selected_image (fun _ => Done)
  | CreatePodFrom t p i now basis => answering (create_pod_from_basis encoded_len config_len t p i now basis) Storage
  | GetPod p => answering (pod config_len p) Storage
  | ListPods => answering (list_pods config_len) Storages
  | ResetPodTemporary p => answering (reset_pod_temporary config_len p) Storage
  | EnsureCache name => answering (ensure_cache name) (fun p => Located (Some p))
  | PublishGoldenWorkspace name source => answering (publish_golden_workspace name source) (fun p => Located (Some p))
  | GetGoldenWorkspace => answering golden_workspace Located
  | PublishSetupSeed g p c => answering (publish_setup_seed encoded_len config_len g p c) (fun g => Identifier (Some g))
  | PublishImageWorkspaceSeed g i source => answering (publish_image_workspace_seed encoded_len g i source) (fun g => Identifier (Some g))
  | ImageWorkspaceSeed i => answering (image_workspace_seed i) Located
  | SetupSeedImage c => answering (setup_seed_image config_len c) Identifier
  | DestroyPod t p => answering (destroy_pod encoded_len config_len t p) (fun _ => Done)
  | RemoveImage t i => answering (remove_image encoded_len config_len t i) (fun _ => Done)
  | Recover => answering (recover config_len) (fun _ => Done)
  | CreateStagingWorkspace src dst => answering (create_repository_staging_workspace src dst) (fun _ => Done)
  | RemoveStagingWorkspace p => answering (remove_repository_staging_workspace p) (fun _ => Done)
  end.
Definition start (s : Store) (es : list Event) : Machine Store := {| disk := s; events := es |}.
(** What runs in a writable subvolume changes its content, owner and mode. *)
Definition rewritten (v : Subvol) (data : bytes) (u g mode : Z) : Subvol :=
  v <| sv_data := data |> <| sv_uid := u |> <| sv_gid := g |> <| sv_mode := mode |>.
Inductive writable : Place -> Prop :=
| part_writable part p : writable (part_place part p)
| staging_writable t : writable (staging_place t)
| cache_writable name : writable (cache_place name)
| outside_writable p : writable (outside_place p).
Definition empty_store : Store :=
  {| store_manifest := None; foreign := false; init_temps := 0; directories := ∅; images := ∅; image_staging := ∅;
     image_publishing := ∅; pods := ∅; pod_temps := 0; pod_parts := ∅; caches := ∅; golden := None; golden_staging := ∅;
     seeds := ∅; selected := None; selected_temps := 0; transactions := ∅; transaction_temps := 0; trash := ∅;
     outside := ∅; healthy := true |}.
(** [running] tells a store that a process has opened. *)
Inductive reachable : bool -> Store -> Prop :=
| reach_empty : reachable false empty_store
| reach_open running s es r w :
    reachable running s -> open encoded_len config_len (start s es) = (r, w) ->
    reachable (match r with Ok _ => true | _ => false end) (disk w)
| reach_exec s q es r w :
    reachable true s -> valid_request config_len q -> exec q (start s es) = (r, w) ->
    reachable (match r with Panic _ => false | _ => true end) (disk w)
| reach_write running s l v data u g mode :
    reachable running s -> writable l -> look l s = Some v -> sv_read_only v = false ->
    reachable running (fill l (rewritten v data u g mode) s)
| reach_outside running s x : reachable running s -> reachable running (s <| outside := x |>).

Lemma exec_safe q : valid_request config_len q -> keeps any_event (ready config_len) (exec q).
Proof.
  intros V. destruct q; cbn [exec valid_request] in *; unfold answering; (apply keeping_bind; [|intros ?; apply keeping_ret]).
  - by apply begin_image_safe.
  - destruct V as (? & ? & _). by apply publish_image_safe.
  - by apply discard_image_safe.
  - by apply image_unlocked_keeps.
  - by apply list_images_safe.
  - by apply selected_image_safe.
  - by apply select_image_safe.
  - by apply clear_selected_image_safe.
  - destruct V as (_ & ? & _). by apply create_pod_safe.
  - by apply pod_unlocked_frame.
  - by apply list_pods_safe.
  - by apply reset_pod_temporary_safe.
  - by apply ensure_cache_safe.
  - by apply publish_golden_workspace_safe.
  - by apply golden_workspace_safe.
  - destruct V as (_ & ? & ?). by apply publish_setup_seed_safe.
  - by apply publish_image_workspace_seed_safe.
  - by apply image_workspace_seed_safe.
  - by apply setup_seed_image_safe.
  - destruct V. by apply destroy_pod_safe.
  - by apply remove_image_safe.
  - by apply recover_safe.
  - by apply create_staging_safe.
  - by apply remove_staging_safe.
Qed.
Lemma write_sound s l v x : writable l -> look l s = Some v -> sound config_len s -> sound config_len (fill l x s).
Proof.
  intros W H S. destruct W as [part p|t|name|p]; try by apply (sound_same _ s).
  destruct S as [S1 S2 S3 S4]. constructor; [exact S1|exact S2|exact S3|]. intros part' p' y Hy.
  change (<[(part, p):=x]> (pod_parts s) !! (part', p') = Some y) in Hy.
  apply lookup_insert_Some in Hy as [[[= <- <-] _]|[_ Hy]]; [exact (S4 _ _ _ H)|exact (S4 _ _ _ Hy)].
Qed.
Lemma write_layout s l x : writable l -> layout s -> layout (fill l x s).
Proof. by intros []. Qed.
Lemma reachable_sound running s : reachable running s -> sound config_len s /\ (running = true -> layout s).
Proof.
  induction 1 as [|running s es r w _ [IH _] X|s q es r w _ [IH IL] V X|running s l v data u g mode _ [IH IL] W L _|running s x _ [IH IL]].
  - split; [|done]. constructor; intros ? ? *; rewrite ?lookup_empty; done.
  - assert (Forall any_event es) as F by by apply Forall_true.
    pose proof (hoare_run _ _ _ _ _ _ (start s es) _ _ (open_safe encoded_len config_len any_event I) F IH X) as H.
    destruct r; [|done|done]. destruct H. auto.
  - assert (Forall any_event es) as F by by apply Forall_true.
    pose proof (hoare_run _ _ _ _ _ _ (start s es) _ _ (exec_safe q V) F (Build_frame _ [] [] [] s IH (IL eq_refl) (Forall_nil_2 _) (Forall_nil_2 _) (Forall_nil_2 _)) X) as H.
    destruct r; destruct H; auto.
  - split; [by eapply write_sound|]. intros R. apply write_layout; auto.
  - split; [by apply (sound_same _ s)|exact IL].
Qed.
End histories.

(** * Every operation of the pod store returns

    A value or an error, whatever fails, as long as no call hangs. *)

(** ** Validations do not panic *)
Lemma pod_id_total v x : pod_id v <> Panic x.
Proof. unfold pod_id. repeat case_match; done. Qed.
Lemma image_id_total v x : image_id v <> Panic x.
Proof. unfold image_id. repeat case_match; done. Qed.
Lemma check_format_total p a x : check_format p a <> Panic x.
Proof. unfold check_format. by case_match. Qed.
Lemma obind_total {E A B} (o : outcome E A) (k : A -> outcome E B) x : o <> Panic x -> (forall a, k a <> Panic x) -> obind o k <> Panic x.
Proof. destruct o; cbn; [auto|done|congruence]. Qed.
Lemma validate_user_total u x : validate_user u <> Panic x.
Proof. unfold validate_user. repeat case_match; done. Qed.
Lemma validate_entries_total es t x : validate_entries t es <> Panic x.
Proof.
  revert t. induction es as [|e es IH]; intros t; cbn; [done|]. apply obind_total; [unfold ok_or; by case_match|]. intros a. repeat case_match; auto; done.
Qed.
Lemma validate_config_total l c x : validate_config l c <> Panic x.
Proof.
  unfold validate_config. apply obind_total; [apply validate_user_total|]. intros _. repeat case_match; try done;
    (apply obind_total; [apply validate_entries_total|]; intros t; repeat case_match; done).
Qed.

Ltac returning_step :=
  match goal with
  | |- returns (ret _) => apply returns_ret
  | |- returns (raise _) => apply returns_raise
  | |- returns get => apply returns_get
  | |- returns (put _) => apply returns_put
  | |- returns (of_outcome _) => apply returns_outcome, check_format_total
  | |- returns (attempt _) => apply returns_attempt
  | |- returns (syscall _ _) => apply returns_syscall
  | |- returns (command _ _ _ _) => apply returns_command
  | |- returns (gather _ _) => apply returns_gather; intro
  | |- returns (each _ _) => apply returns_each; intro
  | |- returns (for_each _ _) => apply returns_for_each; intro
  | |- returns (andthen _ _) => apply returns_bind; [|intro]
  | |- returns (match ?x with _ => _ end) => destruct x eqn:?
  | |- returns (if ?x then _ else _) => destruct x
  end.
Create HintDb returning.
Ltac returning := repeat first [returning_step | solve [auto with returning]].

Section total.
Context (encoded_len : Manifest -> Z) (config_len : ImageConfig -> Z) (root : bytes).
Lemma path_state_returns {A} p (f : Store -> option A) : returns (path_state p f).
Proof. unfold path_state. returning. Qed.
#[local] Hint Resolve path_state_returns : returning.
Lemma there_returns {A} p (f : Store -> option A) : returns (there p f).
Proof. unfold there. returning. Qed.
Lemma sync_returns p : returns (sync_directory p).
Proof. unfold sync_directory. returning. Qed.
Lemma read_json_returns {A} p (f : Store -> option A) : returns (read_json p f).
Proof. unfold read_json. returning. Qed.
Lemma read_dir_returns {A} n (f : Store -> A) : returns (read_dir n f).
Proof. unfold read_dir. returning. Qed.
#[local] Hint Resolve there_returns sync_returns read_json_returns read_dir_returns : returning.
Lemma write_json_returns p d m f : returns (write_json_atomic encoded_len p d m f).
Proof. unfold write_json_atomic. returning. Qed.
Lemma remove_file_returns {A} p q (f : Store -> option A) u : returns (remove_file_durable p q f u).
Proof. unfold remove_file_durable. returning. Qed.
Lemma remove_dir_returns {A} p q (f : Store -> option A) e u : returns (remove_empty_directory p q f e u).
Proof. unfold remove_empty_directory. returning. Qed.
Lemma run_btrfs_returns a fs : returns (run_btrfs a fs).
Proof. unfold run_btrfs, ensure_healthy. returning. Qed.
#[local] Hint Resolve write_json_returns remove_file_returns remove_dir_returns run_btrfs_returns : returning.
Lemma commit_returns : returns commit_transaction.
Proof. apply run_btrfs_returns. Qed.
Lemma create_subvolume_returns l a : returns (create_subvolume l a).
Proof. unfold create_subvolume, created_there. returning. Qed.
Lemma snapshot_returns f l a : returns (snapshot_subvolume_with_operation f l a).
Proof. unfold snapshot_subvolume_with_operation, created_there. returning. Qed.
Lemma snapshot_subvolume_returns f l : returns (snapshot_subvolume f l).
Proof. apply snapshot_returns. Qed.
Lemma delete_subvolume_returns l a : returns (delete_subvolume_if_exists l a).
Proof. unfold delete_subvolume_if_exists. returning. Qed.
Lemma set_read_only_returns l : returns (set_subvolume_read_only l).
Proof. apply run_btrfs_returns. Qed.
#[local] Hint Resolve commit_returns create_subvolume_returns snapshot_returns snapshot_subvolume_returns delete_subvolume_returns set_read_only_returns : returning.
Lemma roll_back_returns {A} a e m : returns m -> returns (roll_back (A := A) a e m).
Proof. intros H. unfold roll_back. returning. Qed.
#[local] Hint Extern 1 (returns (roll_back _ _ _)) => apply roll_back_returns; returning : returning.
Lemma create_temporary_returns p : returns (create_pod_temporary p).
Proof. unfold create_pod_temporary, chmod. returning. Qed.
Lemma begin_returns t o : returns (begin_transaction encoded_len t o).
Proof. unfold begin_transaction, write_transaction. returning. Qed.
Lemma finish_returns t : returns (finish_transaction t).
Proof. apply remove_file_returns. Qed.
#[local] Hint Resolve create_temporary_returns begin_returns finish_returns : returning.
Lemma commit_and_finish_returns t : returns (commit_and_finish_transaction t).
Proof. unfold commit_and_finish_transaction. returning. Qed.
Lemma read_transactions_returns : returns read_transactions.
Proof. unfold read_transactions, read_transaction. returning. Qed.
Lemma validate_returns c : returns (validate config_len c).
Proof. unfold validate. returning. by edestruct validate_config_total. Qed.
#[local] Hint Resolve commit_and_finish_returns read_transactions_returns validate_returns : returning.
Lemma image_unlocked_returns i : returns (image_unlocked config_len i).
Proof. unfold image_unlocked. returning. Qed.
Lemma checked_pod_returns p n : returns (checked_id pod_id p n).
Proof. unfold checked_id. returning. by edestruct pod_id_total. Qed.
Lemma checked_image_returns p n : returns (checked_id image_id p n).
Proof. unfold checked_id. returning. by edestruct image_id_total. Qed.
#[local] Hint Resolve image_unlocked_returns checked_pod_returns checked_image_returns : returning.
Lemma image_ids_returns : returns image_ids.
Proof. unfold image_ids. returning. Qed.
Lemma pod_ids_returns : returns pod_ids.
Proof. unfold pod_ids. returning. Qed.
Lemma selected_returns : returns (selected_image_unlocked config_len).
Proof. unfold selected_image_unlocked. returning. Qed.
Lemma pod_unlocked_returns p : returns (pod_unlocked config_len p).
Proof. unfold pod_unlocked, read_pod_manifest, require_subvolume_path. returning. Qed.
Lemma cleanup_publication_returns t : returns (cleanup_image_publication t).
Proof. unfold cleanup_image_publication. returning. Qed.
Lemma seed_returns i : returns (setup_seed_for_image_with_manifest i).
Proof. unfold setup_seed_for_image_with_manifest. returning. Qed.
Lemma delete_generation_returns g : returns (delete_seed_generation g).
Proof. unfold delete_seed_generation. returning. Qed.
Lemma cleanup_pod_returns p : returns (cleanup_pod_subvolumes p).
Proof. unfold cleanup_pod_subvolumes. apply returns_bind; [returning|]. intros found. destruct (mjoin found); returning. Qed.
Lemma canonicalize_returns x a : returns (canonicalize x a).
Proof. unfold canonicalize. returning. Qed.
Lemma create_seed_directory_returns g a : returns (create_seed_directory g a).
Proof. unfold create_seed_directory. returning. Qed.
Lemma write_seed_returns i c g r w : returns (write_seed encoded_len i c g r w).
Proof. unfold write_seed. returning. Qed.
Lemma validate_staging_returns h : returns (validate_staging root h).
Proof. unfold validate_staging. returning. Qed.
#[local] Hint Resolve image_ids_returns pod_ids_returns selected_returns pod_unlocked_returns cleanup_publication_returns seed_returns
  delete_generation_returns cleanup_pod_returns canonicalize_returns create_seed_directory_returns write_seed_returns validate_staging_returns : returning.
Lemma publish_inner_returns h i c now : returns (publish_image_inner encoded_len h i c now).
Proof. unfold publish_image_inner, ensure_new_directory, move_staging, move_published. returning. Qed.
Lemma create_inner_returns p i c now b : returns (create_pod_inner encoded_len p i c now b).
Proof. unfold create_pod_inner, setup_seed_for_image, set_directory_owner. returning. Qed.
Lemma reference_returns i x : returns (image_reference_excluding_transaction i x).
Proof. unfold image_reference_excluding_transaction, read_pod_manifest. returning. Qed.
Lemma delete_pod_returns p : returns (continue_delete_pod p).
Proof. unfold continue_delete_pod, remove_pod_manifest. returning. Qed.
Lemma delete_image_returns t i : returns (continue_delete_image t i).
Proof. unfold continue_delete_image, delete_image_tree. returning. Qed.
Lemma recover_create_returns p i : returns (recover_create_pod config_len p i).
Proof. unfold recover_create_pod, read_pod_manifest, remove_pod_manifest. returning. Qed.
#[local] Hint Resolve publish_inner_returns create_inner_returns reference_returns delete_pod_returns delete_image_returns recover_create_returns : returning.
Lemma remove_temps_returns p d n : returns (remove_temps p d n).
Proof. induction n; cbn [remove_temps]; returning. Qed.
#[local] Hint Resolve remove_temps_returns : returning.
Lemma recover_returns : returns (recover config_len).
Proof. unfold recover, cleanup_atomic_temps, recover_transaction, cleanup_orphaned_pod_subvolumes. returning. Qed.
#[local] Hint Resolve recover_returns : returning.
Lemma open_returns : returns (open encoded_len config_len).
Proof.
  unfold open, initialize_layout, adopt_root, cleanup_initialization_temps, ensure_managed_directory. returning.
  unfold ensure_quotas_enabled. eapply (hoare_bind _ _ _ _ (fun e _ => answered e)); [by apply hoare_event|]. intros [|b []|b].
  - by apply hoare_ret.
  - by apply hoare_raise.
  - eapply hoare_pre; [apply run_btrfs_returns|done].
  - intros w F X. exfalso. exact X.
Qed.
Lemma gather_found_returns {A B} nf (f : A -> op B) l : (forall a, returns (f a)) -> returns (gather_found nf f l).
Proof. intros H. unfold gather_found. returning. Qed.
#[local] Hint Resolve gather_found_returns : returning.
Lemma ensure_cache_returns name : returns (ensure_cache name).
Proof. unfold ensure_cache, chmod. destruct (pod_id name) eqn:X; [returning|returning|by edestruct pod_id_total]. Qed.
#[local] Hint Resolve ensure_cache_returns : returning.
Lemma exec_returns q : returns (exec encoded_len config_len root q).
Proof.
  destruct q; cbn [exec]; unfold answering;
    unfold begin_image, publish_image, discard_image, PodStore.image, list_images, selected_image, select_image, clear_selected_image,
      create_pod_from_basis, pod_storage_exists, transaction_references_pod, PodStore.pod, list_pods, reset_pod_temporary, publish_golden_workspace,
      golden_workspace, publish_setup_seed, publish_image_workspace_seed, image_workspace_seed, setup_seed_for_image, setup_seed_image, list_images_unlocked,
      destroy_pod, remove_image, image_reference, create_repository_staging_workspace, remove_repository_staging_workspace, chmod; solve [returning].
Qed.
End total.
