(* ===== verification/PodIds.v ===== *)
(** * Names of the files of the pod store

    Where the paths of the store are, below its root, and the identifiers that
    [unique_id] makes.  Validated identifiers are single path components, so every path
    stays below the root, and different paths name different files: the maps of the
    model do not overlap on the disk. *)

From S2P Require Import Prelude Lists Text Outage PodTypes PodStore PodReads PodSafe PodOps.

(** ** [unique_id] *)
Definition hex_digit (d : Z) : Z := if d <? 10 then 48 + d else 87 + d.
(** [{:x}], with a digit for each unit of [fuel]. *)
Fixpoint hex_digits (fuel : nat) (n : Z) (tail : bytes) : bytes :=
  match fuel with
  | O => tail
  | S fuel => let tail := hex_digit (n mod 16) :: tail in if n <? 16 then tail else hex_digits fuel (n / 16) tail
  end.
(** The widest integer has 128 bits. *)
Definition hex (n : Z) : bytes := hex_digits 32 n [].
Definition unique_id (process nanos counter : Z) : bytes := hex process ++ str "-" ++ hex nanos ++ str "-" ++ hex counter.

Definition hex_value (b : Z) : Z := if b <? 58 then b - 48 else b - 87.
Definition read_hex (v : bytes) (start : Z) : Z := foldl (fun n b => n * 16 + hex_value b) start v.
Lemma hex_digit_value d : 0 <= d < 16 -> is_hexdigit (hex_digit d) = true /\ hex_value (hex_digit d) = d /\ hex_digit d <> 45.
Proof.
  intros H. assert (d ∈ seqZ 0 16) as E by (apply elem_of_seqZ; lia). clear H.
  repeat (apply elem_of_cons in E as [->|E]; [by vm_compute|]). by apply elem_of_nil in E.
Qed.
Lemma hex_digits_read fuel n tail : 0 <= n < 16 ^ Z.of_nat fuel -> read_hex (hex_digits fuel n tail) 0 = read_hex tail n.
Proof.
  revert n tail. induction fuel as [|fuel IH]; intros n tail H; [cbn in *; by replace n with 0 by lia|]. cbn [hex_digits].
  rewrite Nat2Z.inj_succ, Z.pow_succ_r in H by lia. pose proof (Z.mod_pos_bound n 16 eq_refl) as M. pose proof (Z.div_mod n 16 ltac:(done)) as DM.
  destruct (hex_digit_value (n mod 16) M) as (_ & V & _). case_match eqn:C.
  - unfold read_hex at 1. cbn [foldl]. rewrite V, Z.mod_small by lia. done.
  - rewrite IH by lia. unfold read_hex. cbn [foldl]. rewrite V. f_equal. lia.
Qed.
Lemma hex_digits_forall fuel n tail (P : Z -> Prop) :
  0 <= n -> (forall d, 0 <= d < 16 -> P (hex_digit d)) -> Forall P tail -> Forall P (hex_digits fuel n tail).
Proof.
  intros H HP. revert n tail H. induction fuel as [|fuel IH]; intros n tail H Ht; [done|]. cbn [hex_digits].
  assert (Forall P (hex_digit (n mod 16) :: tail)) by (constructor; [apply HP, Z.mod_pos_bound; lia|done]).
  case_match; [done|]. apply IH; [by apply Z.div_pos|done].
Qed.
Lemma hex_digits_length fuel k n tail : 0 <= n < 16 ^ Z.of_nat (S k) -> len (hex_digits fuel n tail) <= Z.of_nat (S k) + len tail.
Proof.
  revert k n tail. induction fuel as [|fuel IH]; intros k n tail H; cbn [hex_digits]; [lia|].
  rewrite Nat2Z.inj_succ, Z.pow_succ_r in H by lia. case_match eqn:C; [unfold len; cbn [length]; lia|].
  destruct k as [|k]; [cbn in H; lia|]. specialize (IH k (n / 16) (hex_digit (n mod 16) :: tail)). unfold len in *. cbn [length] in IH.
  pose proof (Z.div_mod n 16 ltac:(done)). pose proof (Z.mod_pos_bound n 16 eq_refl).
  enough (0 <= n / 16 < 16 ^ Z.of_nat (S k)) by (specialize (IH ltac:(done)); lia). lia.
Qed.
Lemma hex_hexdigits n : 0 <= n -> Forall (fun b => is_hexdigit b = true /\ b <> 45) (hex n).
Proof. intros H. apply hex_digits_forall; [done| |constructor]. intros d Hd. by destruct (hex_digit_value d Hd) as (? & _ & ?). Qed.
Lemma hex_inj n m : 0 <= n < 2 ^ 128 -> 0 <= m < 2 ^ 128 -> hex n = hex m -> n = m.
Proof.
  intros Hn Hm E. assert (forall k, 0 <= k < 2 ^ 128 -> read_hex (hex k) 0 = k) as R by (intros k Hk; by apply (hex_digits_read 32)).
  rewrite <-(R n), <-(R m) by done. by rewrite E.
Qed.
Definition u32 (n : Z) : Prop := 0 <= n < 2 ^ 32.
Definition u64 (n : Z) : Prop := 0 <= n < 2 ^ 64.
Definition u128 (n : Z) : Prop := 0 <= n < 2 ^ 128.
Lemma unique_id_valid process nanos counter : u32 process -> u128 nanos -> u64 counter -> is_unique (unique_id process nanos counter).
Proof.
  unfold u32, u64, u128. intros H1 H2 H3. unfold is_unique, valid_transaction_id. apply andb_true_iff; split; [apply andb_true_iff; split|].
  - apply negb_true_iff, bool_decide_eq_false_2. intros [_ E]%app_eq_nil. discriminate E.
  - apply Z.leb_le. pose proof (hex_digits_length 32 7 process [] H1). pose proof (hex_digits_length 32 31 nanos [] H2).
    pose proof (hex_digits_length 32 15 counter [] H3). unfold unique_id, hex, len in *. rewrite !length_app.
    change (length (str "-")) with 1%nat. cbn [length] in *. lia.
  - assert (forall n, 0 <= n -> forallb (fun b => is_hexdigit b || (b =? 45)) (hex n) = true) as A.
    { intros n Hn. apply forallb_forall. intros b Hb%list_elem_of_In. pose proof (hex_hexdigits n Hn) as F.
      eapply Forall_forall in F as [-> _]; [done|exact Hb]. }
    unfold unique_id. rewrite !forallb_app, !A by lia. done.
Qed.
Lemma unique_id_inj a b c a' b' c' :
  u32 a -> u128 b -> u64 c -> u32 a' -> u128 b' -> u64 c' -> unique_id a b c = unique_id a' b' c' -> a = a' /\ b = b' /\ c = c'.
Proof.
  unfold u32, u64, u128. intros A B C A' B' C' E.
  assert (forall n, 0 <= n -> ~ (45 ∈ hex n)) as N.
  { intros n Hn X. pose proof (hex_hexdigits n Hn) as F. eapply Forall_forall in F as [_ F]; [by apply F|exact X]. }
  assert (forall n r, 0 <= n -> split_once 45 (hex n ++ 45 :: r) = Some (hex n, r)) as S by (intros n r Hn; apply split_once_spec; split; [done|by apply N]).
  change (hex a ++ 45 :: hex b ++ 45 :: hex c = hex a' ++ 45 :: hex b' ++ 45 :: hex c') in E.
  pose proof (f_equal (split_once 45) E) as E1. rewrite !S in E1 by lia. injection E1 as E1 E2.
  pose proof (f_equal (split_once 45) E2) as E3. rewrite !S in E3 by lia. injection E3 as E3 E4.
  split_and!; apply hex_inj; done || lia.
Qed.

(** ** Paths *)
(** A name that [Path::join] appends as one component. *)
Definition component (v : bytes) : Prop := v <> [] /\ 47 ∉ v /\ 0 ∉ v /\ v <> str "." /\ v <> str "..".
(** The components of a path below the root of the store; a path outside is none of them. *)
Definition location (p : Path) : option (list bytes) :=
  match p with
  | RootPath name => Some (if String.eqb name "." then [] else [str name])
  | image_directory i => Some [str "images"; i]
  | image_file i name => Some [str "images"; i; str name]
  | staging_path t => Some [str "image-staging"; t]
  | publishing_path t => Some [str "image-publishing"; t]
  | publishing_file t name => Some [str "image-publishing"; t; str name]
  | transaction_path t => Some [str "transactions"; t ++ str ".json"]
  | pod_manifest_path p => Some [str "pods"; p ++ str ".json"]
  | pod_path part p => Some [str (part_dir part); p]
  | trash_path t => Some [str "trash"; t]
  | trash_file t name => Some [str "trash"; t; str name]
  | seed_path g => Some [str "setup-seeds"; g]
  | seed_file g name => Some [str "setup-seeds"; g; str name]
  | cache_path name => Some [str "caches"; name]
  | golden_staging_path name => Some [str ".golden-workspace-" ++ name]
  | outside_path _ => None
  end.
(** The files of the store's root and of the directories of images and seeds. *)
Definition root_names : list string := "." :: "store.json" :: "selected-image.json" :: "golden-workspace" :: layout_directories.
Definition image_names : list string := ["root"; "manifest.json"; "workspace-seed.json"].
Definition seed_names : list string := ["root"; "workspace"].
Definition managed_path (p : Path) : Prop :=
  match p with
  | RootPath name => name ∈ root_names
  | image_directory i => is_image i
  | image_file i name => is_image i /\ name ∈ image_names
  | staging_path t | publishing_path t | transaction_path t | trash_path t | seed_path t | golden_staging_path t => is_unique t
  | publishing_file t name | trash_file t name => is_unique t /\ name ∈ image_names
  | pod_manifest_path p | pod_path _ p | cache_path p => is_pod p
  | seed_file g name => is_unique g /\ name ∈ seed_names
  | outside_path _ => False
  end.
Definition plain (b : Z) : Prop := b <> 47 /\ b <> 0.
Lemma plain_component v first rest : v = first :: rest -> first <> 46 -> Forall plain v -> component v.
Proof.
  intros -> N F. assert (forall b, ~ plain b -> b ∉ first :: rest) as A by (intros b H X; eapply Forall_forall in F; [exact (H F)|exact X]).
  split_and!; [done|apply A; by intros []|apply A; by intros []|by intros [= ? _]|by intros [= ? _]].
Qed.
Lemma id_byte_plain b : id_byte b = true -> plain b /\ b <> 46.
Proof.
  unfold id_byte, is_ascii_alphanumeric, is_ascii_alphabetic, is_ascii_uppercase, is_ascii_lowercase, is_ascii_digit, plain.
  rewrite !orb_true_iff, !andb_true_iff. lia.
Qed.
Lemma forallb_plain (f : Z -> bool) v : (forall b, f b = true -> plain b) -> forallb f v = true -> Forall plain v.
Proof. intros H F. apply Forall_forall. intros b Hb. apply H. rewrite forallb_forall in F. by apply F, list_elem_of_In. Qed.
Lemma alphanumeric_id b : is_ascii_alphanumeric b = true -> id_byte b = true.
Proof. unfold id_byte. by intros ->. Qed.
Lemma pod_id_plain p : is_pod p -> Forall plain p /\ exists first rest, p = first :: rest /\ first <> 46.
Proof.
  unfold is_pod, pod_id. case_match; [done|]. destruct p as [|b p]; [done|]. destruct (is_ascii_alphanumeric b) eqn:A; [|done].
  destruct (forallb id_byte p) eqn:F; [|done]. intros _. apply alphanumeric_id, id_byte_plain in A as [A N]. split; [|by exists b, p].
  constructor; [done|]. eapply forallb_plain; [|exact F]. intros c Hc. by apply id_byte_plain.
Qed.
Lemma algorithm_scan_plain a n b : is_Some (algorithm_scan n b a) -> Forall plain a /\ (n = O -> forall first rest, a = first :: rest -> first <> 46).
Proof.
  revert n b. induction a as [|c a IH]; intros n b; cbn [algorithm_scan]; [done|]. case_match eqn:C; [by intros []|]. intros H.
  apply IH in H as [H _]. apply orb_false_iff in C as [[C1 C2]%orb_false_iff C3]. apply negb_false_iff in C1. split.
  - constructor; [|done]. unfold algorithm_separator, is_ascii_lowercase, is_ascii_digit, plain in *. rewrite !orb_true_iff, !andb_true_iff in C1. lia.
  - intros -> first rest [= <- _] ->. done.
Qed.
Lemma image_id_plain i : is_image i -> Forall plain i /\ exists first rest, i = first :: rest /\ first <> 46.
Proof.
  unfold is_image, image_id. destruct (split_once 58 i) as [[a e]|] eqn:S; [|done]. apply split_once_spec in S as [-> _].
  case_match eqn:L; [done|]. destruct (algorithm_scan 0 false a) as [[]|] eqn:A; [done| |done]. case_match; [done|]. case_match eqn:F; [done|].
  intros _. destruct (algorithm_scan_plain a 0 false) as [Pa N]; [by rewrite A|]. apply orb_false_iff in L as [L _]. apply bool_decide_eq_false in L.
  apply negb_false_iff in F. split.
  - apply Forall_app. split; [done|]. constructor; [done|]. eapply forallb_plain; [|exact F]. intros b [Hb|Hb]%orb_true_iff; [by apply id_byte_plain|].
    unfold plain. lia.
  - destruct a as [|c a]; [done|]. exists c, (a ++ 58 :: e). split; [done|]. by eapply N.
Qed.
Lemma unique_plain t : is_unique t -> Forall plain t /\ exists first rest, t = first :: rest /\ first <> 46.
Proof.
  unfold is_unique, valid_transaction_id. rewrite !andb_true_iff. intros [[N _] F]. apply negb_true_iff, bool_decide_eq_false in N.
  assert (forall b, is_hexdigit b || (b =? 45) = true -> plain b /\ b <> 46) as A.
  { intros b. unfold is_hexdigit, is_ascii_digit, plain. rewrite !orb_true_iff, !andb_true_iff. lia. }
  split; [eapply forallb_plain; [|exact F]; intros b Hb; by apply A|]. destruct t as [|b t]; [done|]. exists b, t. split; [done|].
  cbn in F. apply andb_true_iff in F as [F _]. by apply A.
Qed.
#[local] Instance component_decision v : Decision (component v).
Proof. unfold component. apply _. Defined.
Lemma component_str name : name ∈ tail root_names ++ image_names ++ seed_names -> component (str name).
Proof.
  intros E. apply (Forall_forall (fun n => component (str n)) (tail root_names ++ image_names ++ seed_names)); [|exact E].
  repeat (constructor; [by eapply bool_decide_eq_true_1|]). constructor.
Qed.
Lemma component_prefixed pre v : component pre -> Forall plain v -> pre ++ v <> str "." -> pre ++ v <> str ".." -> component (pre ++ v).
Proof.
  intros (N & S & Z & _) F D1 D2. assert (forall b, ~ plain b -> b ∉ v) as A by (intros b H X; eapply Forall_forall in F; [exact (H F)|exact X]).
  split_and!; [by destruct pre|..|done|done]; (rewrite elem_of_app; intros [X|X]; [done|]; revert X; apply A; by intros []).
Qed.
(** A validated identifier, alone and in a file name. *)
Definition named (v : bytes) : Prop := component v /\ component (v ++ str ".json") /\ component (str ".golden-workspace-" ++ v).
Lemma plain_named v : (Forall plain v /\ exists first rest, v = first :: rest /\ first <> 46) -> named v.
Proof.
  intros (F & first & rest & -> & N). split_and!; [by eapply plain_component|..].
  - eapply plain_component; [reflexivity|done|]. apply Forall_app. split; [done|]. by repeat constructor.
  - apply component_prefixed; [by eapply bool_decide_eq_true_1|done|done|done].
Qed.
Lemma location_components p l : managed_path p -> location p = Some l -> Forall component l.
Proof.
  pose proof (fun i H => plain_named i (image_id_plain i H)) as Ai. pose proof (fun i H => plain_named i (pod_id_plain i H)) as Ap.
  pose proof (fun i H => plain_named i (unique_plain i H)) as At. unfold named in *.
  assert (forall n, bool_decide (n ∈ tail root_names) = true -> component (str n)) as Al.
  { intros n H%bool_decide_eq_true. apply component_str, elem_of_app. by left. }
  assert (forall n, n ∈ image_names \/ n ∈ seed_names -> component (str n)) as An.
  { intros n H. apply component_str. rewrite !elem_of_app. by right. }
  destruct p as [name|i|i name|t|t|t name|t|p|part p|t|t name|g|g name|n|n|x]; cbn [managed_path location]; [|intros H [= <-]..|done].
  1: { intros H. case_match eqn:E; intros [= <-]; [constructor|]. apply Forall_singleton. apply Al, bool_decide_eq_true.
    apply elem_of_cons in H as [->|H]; [by rewrite String.eqb_refl in E|exact H]. }
  all: repeat match goal with H : _ /\ _ |- _ => destruct H end;
    repeat match goal with |- Forall _ _ => constructor end; first [by apply Al|by apply An; auto|by apply Ai|by apply Ap|by apply At|destruct part; by apply Al].
Qed.
Lemma str_inj a b : str a = str b -> a = b.
Proof.
  revert b. induction a as [|x a IH]; intros [|y b]; [done|done|done|]. change (Z.of_N (Ascii.N_of_ascii x) :: str a = Z.of_N (Ascii.N_of_ascii y) :: str b -> String x a = String y b).
  intros [= E1 E2]. apply N2Z.inj in E1. f_equal; [|by apply IH]. by rewrite <-(Ascii.ascii_N_embedding x), E1, Ascii.ascii_N_embedding.
Qed.
Lemma location_inj p q : managed_path p -> managed_path q -> location p = location q -> p = q.
Proof.
  assert (forall v w, v ++ str ".json" = w ++ str ".json" -> v = w) as J by (intros v w; apply app_inj_2; done).
  assert (forall n v, n ∈ root_names -> [str n] <> [str ".golden-workspace-" ++ v]) as G.
  { intros n v H. unfold root_names, layout_directories in H. repeat (apply elem_of_cons in H as [->|H]; [done|]). by apply elem_of_nil in H. }
  destruct p; destruct q; cbn [managed_path location]; intros Hp Hq E; try destruct (String.eqb_spec name "."); try destruct (String.eqb_spec name0 "."); simplify_eq; try done;
    repeat match goal with E : str _ = str _ |- _ => apply str_inj in E; simplify_eq end; try done.
  all: try (repeat match goal with p : Part |- _ => destruct p end; done).
  - destruct (G name name0 Hp). congruence.
  - f_equal. by apply J.
  - f_equal. by apply J.
  - destruct (G name0 name Hq). congruence.
Qed.

(** C36: every path of the pod store that is made of validated identifiers is a sequence
    of single path components below the store's root, and two different paths never name
    the same file; the identifiers that [unique_id] makes of a process, a time and a
    counter are valid, and differ when any of the three does. *)
Theorem paths_confined :
  (forall p, managed_path p -> exists l, location p = Some l /\ Forall component l)
  /\ (forall p q, managed_path p -> managed_path q -> location p = location q -> p = q)
  /\ (forall a b c a' b' c', u32 a -> u128 b -> u64 c -> u32 a' -> u128 b' -> u64 c' ->
       is_unique (unique_id a b c) /\ (unique_id a b c = unique_id a' b' c' -> a = a' /\ b = b' /\ c = c')).
Proof.
  split_and!.
  - intros p H. assert (is_Some (location p)) as [l Hl] by (destruct p; cbn in *; by eauto). exists l. split; [done|]. by eapply location_components.
  - apply location_inj.
  - intros. split; [by apply unique_id_valid|by apply unique_id_inj].
Qed.
