(* ===== verification/PodDown.v ===== *)
(** * States that a crash can leave

    [down] is what holds of the store at every instant when calls run or never return: it
    is what recovery finds.  A [tame] change keeps it and the durable view. *)

From S2P Require Import Prelude Lists Text Outage PodTypes PodStore PodReads PodSafe PodOps.

(** * What the pod store promises

    The content of the store that survives a crash, and the operations on it: images with
    their seed, pods with their three persistent subvolumes, the selected image and the
    golden workspace.  Image stagings live as long as the process. *)

Record ImageView := { iv_manifest : ImageManifest; iv_root : Subvol; iv_seed : option (bytes * Subvol * Subvol) }.
#[export] Instance eta_ImageView : Eta ImageView :=
  fun v => {| iv_manifest := iv_manifest v; iv_root := iv_root v; iv_seed := iv_seed v |}.
Record PodView := { pv_manifest : PodManifest; pv_root : Subvol; pv_workspace : Subvol; pv_docker : Subvol }.
Record View := {
  v_images : gmap bytes ImageView; v_pods : gmap bytes PodView; v_selected : option bytes; v_golden : option Subvol;
  v_staged : gmap bytes Subvol; v_outside : gmap bytes Subvol
}.
#[export] Instance eta_View : Eta View :=
  fun v => {| v_images := v_images v; v_pods := v_pods v; v_selected := v_selected v; v_golden := v_golden v;
              v_staged := v_staged v; v_outside := v_outside v |}.

(** ** The view of a state *)
Definition pending (s : Store) : list TransactionOperation := (fun x => operation x.2) <$> map_to_list (transactions s).
Definition seed_view (s : Store) (m : SetupSeedManifest) : option (bytes * Subvol * Subvol) :=
  match look (seed_root (sm_generation m)) s, look (seed_workspace (sm_generation m)) s with
  | Some r, Some w => Some (sm_context m, r, w)
  | _, _ => None
  end.
Definition image_view (s : Store) (d : ImageDir) : option ImageView :=
  match im_manifest d, im_root d with
  | Some m, Some r => Some {| iv_manifest := m; iv_root := r; iv_seed := im_seed d ≫= seed_view s |}
  | _, _ => None
  end.
Definition view_image (s : Store) (i : bytes) (d : ImageDir) : option ImageView :=
  if decide (DeleteImage i ∈ pending s) then None else image_view s d.
Definition view_pod (s : Store) (p : bytes) (m : PodManifest) : option PodView :=
  if decide (DeletePod p ∈ pending s) then None
  else
    match pod_parts s !! (Root, p), pod_parts s !! (Workspace, p), pod_parts s !! (Docker, p) with
    | Some r, Some w, Some k => Some {| pv_manifest := m; pv_root := r; pv_workspace := w; pv_docker := k |}
    | _, _, _ => None
    end.
Definition view (s : Store) : View :=
  {| v_images := map_imap (view_image s) (images s); v_pods := map_imap (view_pod s) (pods s);
     v_selected := selected_image_id <$> selected s; v_golden := golden s; v_staged := image_staging s; v_outside := outside s |}.
(** What a crash leaves. *)
Definition surviving (v : View) : View := v <| v_staged := ∅ |>.
Definition durable (s : Store) : View := surviving (view s).

(** ** Operations on views *)
Definition view_generation (i : bytes) (x : ImageView) : ImageGeneration := generation_of i (iv_manifest x).
Definition view_storage (v : View) (p : bytes) (x : PodView) : option PodStorage :=
  (fun y => pod_storage p (pm_image (pv_manifest x)) (im_config (iv_manifest y)) (pm_created_at_unix_ms (pv_manifest x)))
    <$> v_images v !! pm_image (pv_manifest x).
Definition find_image {A} (v : View) (i : bytes) (k : ImageView -> outcome StoreError A * View) : outcome StoreError A * View :=
  match v_images v !! i with Some x => k x | None => (Err (ImageNotFound i), v) end.
Definition find_pod {A} (v : View) (p : bytes) (k : PodView -> outcome StoreError A * View) : outcome StoreError A * View :=
  match v_pods v !! p with Some x => k x | None => (Err (PodNotFound p), v) end.
(** A pod starts from the seed of the image, or from its root and a workspace. *)
Definition fresh_workspace (v : View) (c : ImageConfig) : Subvol :=
  let new := if (uid (user c) =? 0) && (gid (user c) =? 0) then new_subvol
             else new_subvol <| sv_uid := uid (user c) |> <| sv_gid := gid (user c) |> in
  match v_golden v with
  | Some g => if (sv_uid g =? uid (user c)) && (sv_gid g =? gid (user c)) then snapshot_of g else new
  | None => new
  end.
Definition new_pod (v : View) (p i : bytes) (x : ImageView) (now : Z) (basis : PodWorkspaceBasis) : PodView :=
  let m := {| pm_format_version := STORE_FORMAT_VERSION; pm_id := p; pm_image := i; pm_created_at_unix_ms := now |} in
  match basis, iv_seed x with
  | ImageSeed, Some (_, r, w) =>
      {| pv_manifest := m; pv_root := snapshot_of r; pv_workspace := snapshot_of w; pv_docker := new_subvol |}
  | _, _ =>
      {| pv_manifest := m; pv_root := snapshot_of (iv_root x); pv_workspace := fresh_workspace v (im_config (iv_manifest x));
         pv_docker := new_subvol |}
  end.
Definition frozen (x : Subvol) : Subvol := x <| sv_read_only := true |>.
Definition image_users (v : View) (i : bytes) : option bytes :=
  head (omap (fun p => if decide ((fun x => pm_image (pv_manifest x)) <$> v_pods v !! p = Some i) then Some p else None) (ids_of (v_pods v))).
Definition with_seed (i context : bytes) (r w : Subvol) (v : View) : View :=
  v <| v_images := alter (fun x => x <| iv_seed := Some (context, frozen (snapshot_of r), frozen (snapshot_of w)) |>) i (v_images v) |>.
Definition sources {A} (v : View) (source : bytes) (action : string) (k : Subvol -> outcome StoreError A * View) :
  outcome StoreError A * View :=
  match v_outside v !! source with
  | Some x => k x
  | None => (Err (Io action (outside_path source)), v)
  end.
Definition spec (root : bytes) (q : Request) (v : View) : outcome StoreError Reply * View :=
  match q with
  | BeginImage t =>
      (Ok (Staging {| store_root := root; staging_transaction := t; staging_dir := staging_path t |}),
       v <| v_staged := <[t := new_subvol]> (v_staged v) |>)
  | PublishImageAs h i c now =>
      let t := staging_transaction h in
      if bool_decide (store_root h = root) && bool_decide (staging_dir h = staging_path t) then
        match v_staged v !! t with
        | None => (Err InvalidStaging, v)
        | Some x =>
            match v_images v !! i with
            | Some _ => (Err (ImageExists i), v <| v_staged := delete t (v_staged v) |>)
            | None =>
                let m := {| im_format_version := STORE_FORMAT_VERSION; im_id := i; im_config := c; im_created_at_unix_ms := now |} in
                (Ok (Generation (generation_of i m)),
                 v <| v_staged := delete t (v_staged v) |>
                   <| v_images := <[i := {| iv_manifest := m; iv_root := frozen x; iv_seed := None |}]> (v_images v) |>)
            end
        end
      else (Err InvalidStaging, v)
  | DiscardImage h =>
      let t := staging_transaction h in
      if bool_decide (store_root h = root) && bool_decide (staging_dir h = staging_path t)
         && bool_decide (is_Some (v_staged v !! t))
      then (Ok Done, v <| v_staged := delete t (v_staged v) |>)
      else (Err InvalidStaging, v)
  | GetImage i => find_image v i (fun x => (Ok (Generation (view_generation i x)), v))
  | ListImages =>
      (Ok (Generations (omap (fun i => view_generation i <$> v_images v !! i) (ids_of (v_images v)))), v)
  | SelectedImage => (Ok (Identifier (v_selected v)), v)
  | SelectImage i => find_image v i (fun _ => (Ok Done, v <| v_selected := Some i |>))
  | ClearSelectedImage => (Ok Done, v <| v_selected := None |>)
  | CreatePodFrom _ p i now basis =>
      find_image v i (fun x =>
        match v_pods v !! p with
        | Some _ => (Err (PodExists p), v)
        | None =>
            (Ok (Storage (pod_storage p i (im_config (iv_manifest x)) now)),
             v <| v_pods := <[p := new_pod v p i x now basis]> (v_pods v) |>)
        end)
  | GetPod p | ResetPodTemporary p =>
      find_pod v p (fun x => (match view_storage v p x with Some y => Ok (Storage y) | None => Err (PodNotFound p) end, v))
  | ListPods => (Ok (Storages (omap (fun p => v_pods v !! p ≫= view_storage v p) (ids_of (v_pods v)))), v)
  | PublishGoldenWorkspace _ source =>
      sources v source "canonicalize golden workspace source" (fun x =>
        (Ok (Located (Some (RootPath "golden-workspace"))), v <| v_golden := Some (snapshot_of x) |>))
  | GetGoldenWorkspace => (Ok (Located ((fun _ => RootPath "golden-workspace") <$> v_golden v)), v)
  | PublishSetupSeed g p c =>
      find_pod v p (fun x =>
        (Ok (Identifier (Some g)), with_seed (pm_image (pv_manifest x)) c (pv_root x) (pv_workspace x) v))
  | PublishImageWorkspaceSeed g i source =>
      match v_images v !! i ≫= iv_seed with
      | None => (Err (CorruptManifest (seed_manifest_path i) "image has no completed workspace seed"), v)
      | Some (c, r, _) =>
          sources v source "canonicalize image workspace seed source" (fun w => (Ok (Identifier (Some g)), with_seed i c r w v))
      end
  | DestroyPod _ p => find_pod v p (fun _ => (Ok Done, v <| v_pods := delete p (v_pods v) |>))
  | RemoveImage _ i =>
      find_image v i (fun _ =>
        if decide (v_selected v = Some i) then (Err (ImageSelected i), v)
        else
          match image_users v i with
          | Some p => (Err (ImageInUse i p), v)
          | None => (Ok Done, v <| v_images := delete i (v_images v) |>)
          end)
  | EnsureCache name =>
      (match pod_id name with Ok _ => Ok (Located (Some (cache_path name))) | Err e => Err (InvalidCacheName e) | Panic x => Panic x end, v)
  | SetupSeedImage c =>
      (Ok (Identifier (head (omap (fun i => if decide ((fun x => x.1.1) <$> (v_images v !! i ≫= iv_seed) = Some c) then Some i else None)
                                  (ids_of (v_images v))))), v)
  | CreateStagingWorkspace source destination =>
      match v_outside v !! destination with
      | Some _ => (Err (UnsafePath (outside_path destination)), v)
      | None =>
          match source with
          | None => (Ok Done, v <| v_outside := <[destination := new_subvol]> (v_outside v) |>)
          | Some p =>
              match v_outside v !! p with
              | Some x => (Ok Done, v <| v_outside := <[destination := snapshot_of x]> (v_outside v) |>)
              | None => (Err (CommandFailed "snapshot repository reconciliation staging workspace"), v)
              end
          end
      end
  | RemoveStagingWorkspace p => (Ok Done, v <| v_outside := delete p (v_outside v) |>)
  | ImageWorkspaceSeed _ | Recover => (Ok Done, v)
  end.

Section down.
Context (config_len : ImageConfig -> Z).
Implicit Types (s : Store).
(** The transaction of an image that is staged or being published. *)
Definition stages s (t : bytes) : Prop :=
  exists m, transactions s !! t = Some m /\ match operation m with StageImage | PublishImage _ => True | _ => False end.
Record down s : Prop := {
  d_sound : sound config_len s;
  d_pods : forall p m part, pods s !! p = Some m -> DeletePod p ∉ pending s -> part <> Temporary -> is_Some (pod_parts s !! (part, p));
  d_creating : forall p i m, CreatePod p i ∈ pending s -> pods s !! p = Some m -> pm_image m = i /\ forall part, is_Some (pod_parts s !! (part, p));
  d_deleting : forall i, DeleteImage i ∈ pending s -> unreferenced i s /\ selected_image_id <$> selected s <> Some i;
  d_staging : forall t, is_Some (image_staging s !! t) -> stages s t;
  d_publishing : forall t d, image_publishing s !! t = Some d -> stages s t /\ im_seed d = None;
  d_trash : forall t, is_Some (trash s !! t) -> exists m i, transactions s !! t = Some m /\ operation m = DeleteImage i /\ images s !! i = None;
  d_seeds : forall i m, seed_manifest_of i s = Some m ->
    is_Some (look (seed_root (sm_generation m)) s) /\ is_Some (look (seed_workspace (sm_generation m)) s);
  d_unique : forall i j m m', seed_manifest_of i s = Some m -> seed_manifest_of j s = Some m' -> sm_generation m = sm_generation m' -> i = j;
  d_trash_seeds : forall i m t m', seed_manifest_of i s = Some m -> trash_seed t s = Some m' -> sm_generation m <> sm_generation m';
  d_selected : forall m, selected s = Some m -> is_Some (images s !! selected_image_id m)
}.
Definition tame s s' : Prop := down s' /\ durable s' = durable s /\ store_manifest s' = store_manifest s.
Lemma tame_refl s : down s -> tame s s.
Proof. by split. Qed.
Lemma tame_trans s1 s2 s3 : tame s1 s2 -> tame s2 s3 -> tame s1 s3.
Proof. intros (? & E & F) (? & ? & ?). split; [done|]. split; [by rewrite <-E|by rewrite <-F]. Qed.
Lemma elem_pending s o : o ∈ pending s <-> exists t m, transactions s !! t = Some m /\ operation m = o.
Proof.
  unfold pending. rewrite list_elem_of_fmap. split.
  - intros ([t m] & -> & H%elem_of_map_to_list). by exists t, m.
  - intros (t & m & H & <-). exists (t, m). by rewrite elem_of_map_to_list.
Qed.
(** Views are equal when every entry is. *)
Definition entry_image s i : option ImageView := images s !! i ≫= view_image s i.
Definition entry_pod s p : option PodView := pods s !! p ≫= view_pod s p.
Lemma lookup_v_images s i : v_images (view s) !! i = entry_image s i.
Proof. cbn. by rewrite map_lookup_imap. Qed.
Lemma lookup_v_pods s p : v_pods (view s) !! p = entry_pod s p.
Proof. cbn. by rewrite map_lookup_imap. Qed.
Lemma durable_eq s v :
  (forall i, v_images v !! i = entry_image s i) -> (forall p, v_pods v !! p = entry_pod s p) ->
  v_selected v = selected_image_id <$> selected s -> v_golden v = golden s -> v_outside v = outside s -> v_staged v = ∅ -> durable s = v.
Proof.
  destruct v as [vi vp vs vg vt vo]. intros H1 H2 H3 H4 H5 H6. cbn in *. subst.
  change (Build_View (map_imap (view_image s) (images s)) (map_imap (view_pod s) (pods s)) (selected_image_id <$> selected s) (golden s) ∅ (outside s)
    = Build_View vi vp (selected_image_id <$> selected s) (golden s) ∅ (outside s)). f_equal.
  - apply map_eq. intros i. by rewrite map_lookup_imap, H1.
  - apply map_eq. intros p. by rewrite map_lookup_imap, H2.
Qed.
Lemma durable_ext s s' :
  (forall i, entry_image s' i = entry_image s i) -> (forall p, entry_pod s' p = entry_pod s p) ->
  selected s' = selected s -> golden s' = golden s -> outside s' = outside s -> durable s' = durable s.
Proof.
  intros H1 H2 H3 H4 H5. apply durable_eq.
  - intros i. change (v_images (durable s)) with (v_images (view s)). by rewrite lookup_v_images, H1.
  - intros p. change (v_pods (durable s)) with (v_pods (view s)). by rewrite lookup_v_pods, H2.
  - by rewrite H3.
  - by rewrite H4.
  - by rewrite H5.
  - done.
Qed.

(** ** Tame changes *)
(** The fields that [down] and the view speak of. *)
Lemma down_elsewhere s s' :
  images s' = images s -> image_staging s' = image_staging s -> image_publishing s' = image_publishing s -> pods s' = pods s ->
  pod_parts s' = pod_parts s -> seeds s' = seeds s -> selected s' = selected s -> transactions s' = transactions s ->
  trash s' = trash s -> down s -> down s' /\ (forall i, entry_image s' i = entry_image s i) /\ (forall p, entry_pod s' p = entry_pod s p).
Proof.
  intros E1 E2 E3 E4 E5 E6 E7 E8 E9 H.
  assert (forall o, o ∈ pending s' <-> o ∈ pending s) as EP by (intros; by rewrite !elem_pending, E8).
  assert (forall i, seed_manifest_of i s' = seed_manifest_of i s) as ES by (intros; unfold seed_manifest_of; by rewrite E1).
  assert (forall t, stages s' t <-> stages s t) as ET by (intros; unfold stages; by rewrite E8).
  assert (forall i, unreferenced i s' <-> unreferenced i s) as EU by (intros; unfold unreferenced; by rewrite E4, E8).
  split; [|split].
  - constructor; try setoid_rewrite EP; try setoid_rewrite ES; try setoid_rewrite ET; try setoid_rewrite EU;
      unfold trash_seed; cbn [look seed_root seed_workspace]; rewrite ?E1, ?E2, ?E3, ?E4, ?E5, ?E6, ?E7, ?E8, ?E9; try apply H.
    by apply (sound_same _ s); [..|apply H].
  - assert (forall m, seed_view s' m = seed_view s m) as EV by (intros; unfold seed_view; cbn [look seed_root seed_workspace]; by rewrite E6).
    intros i. unfold entry_image. rewrite E1. destruct (images s !! i) as [d|]; [|done]. cbn. unfold view_image, image_view.
    rewrite (decide_ext _ _ _ _ (EP _)). case_decide; [done|]. do 2 (case_match; [|done]). do 2 f_equal. destruct (im_seed d); [apply EV|done].
  - intros p. unfold entry_pod. rewrite E4. destruct (pods s !! p) as [m|]; [|done]. cbn. unfold view_pod.
    rewrite (decide_ext _ _ _ _ (EP _)), E5. done.
Qed.
Lemma tame_elsewhere s s' :
  images s' = images s -> image_staging s' = image_staging s -> image_publishing s' = image_publishing s -> pods s' = pods s ->
  pod_parts s' = pod_parts s -> seeds s' = seeds s -> selected s' = selected s -> transactions s' = transactions s ->
  trash s' = trash s -> golden s' = golden s -> outside s' = outside s -> store_manifest s' = store_manifest s -> down s -> tame s s'.
Proof.
  intros E1 E2 E3 E4 E5 E6 E7 E8 E9 E10 E11 E12 H. destruct (down_elsewhere s s') as (D & F1 & F2); try done.
  split; [done|split; [|done]]. by apply durable_ext.
Qed.
Lemma entry_image_ext s s' i :
  images s' !! i = images s !! i -> (DeleteImage i ∈ pending s' <-> DeleteImage i ∈ pending s) ->
  (forall m, seed_manifest_of i s = Some m -> seed_view s' m = seed_view s m) -> entry_image s' i = entry_image s i.
Proof.
  intros E1 E2 E3. unfold entry_image, seed_manifest_of in *. rewrite E1. destruct (images s !! i) as [d|]; [|done]. cbn [mbind option_bind] in *.
  unfold view_image, image_view. rewrite (decide_ext _ _ _ _ E2). case_decide; [done|]. do 2 (case_match; [|done]). do 2 f_equal.
  destruct (im_seed d); [by apply E3|done].
Qed.
Lemma entry_pod_ext s s' p :
  pods s' !! p = pods s !! p -> (DeletePod p ∈ pending s' <-> DeletePod p ∈ pending s) ->
  (is_Some (pods s !! p) -> forall part, part <> Temporary -> pod_parts s' !! (part, p) = pod_parts s !! (part, p)) -> entry_pod s' p = entry_pod s p.
Proof.
  intros E1 E2 E3. unfold entry_pod. rewrite E1. destruct (pods s !! p) as [m|]; [|done]. cbn [mbind option_bind].
  unfold view_pod. rewrite (decide_ext _ _ _ _ E2). case_decide; [done|]. rewrite !E3 by eauto. done.
Qed.
Lemma tame_parts s x :
  (forall part p, is_Some (pods s !! p) -> part <> Temporary -> x !! (part, p) = pod_parts s !! (part, p)) ->
  (forall p i, CreatePod p i ∈ pending s -> is_Some (pods s !! p) -> is_Some (pod_parts s !! (Temporary, p)) -> is_Some (x !! (Temporary, p))) ->
  (forall part p v, x !! (part, p) = Some v -> pod_id p = Ok p) -> down s -> tame s (s <| pod_parts := x |>).
Proof.
  intros X1 X2 X3 H. split; [constructor|split; [|done]].
  - destruct (d_sound _ H) as [S1 S2 S3 S4]. constructor; [exact S1|exact S2|exact S3|exact X3].
  - intros p m part Hp Hd Ht. change (is_Some (x !! (part, p))). rewrite X1; [|by exists m|done]. by eapply (d_pods _ H).
  - intros p i m Hc Hp. destruct (d_creating _ H p i m Hc Hp) as [E A]. split; [done|]. intros part. change (is_Some (x !! (part, p))).
    destruct (decide (part = Temporary)) as [->|]; [eapply X2; eauto|]. rewrite X1; [done|by exists m|done].
  - exact (d_deleting _ H).
  - exact (d_staging _ H).
  - exact (d_publishing _ H).
  - exact (d_trash _ H).
  - exact (d_seeds _ H).
  - exact (d_unique _ H).
  - exact (d_trash_seeds _ H).
  - exact (d_selected _ H).
  - apply durable_ext; [done| |done..]. intros p. apply entry_pod_ext; [done|done|]. intros ? part ?. by apply X1.
Qed.
Lemma tame_fill_part s part p v : pod_id p = Ok p -> pods s !! p = None \/ part = Temporary -> down s -> tame s (fill (part_place part p) v s).
Proof.
  intros V C H. apply tame_parts; [..|done].
  - intros part' p' [m Hp] Ht. rewrite lookup_insert_ne; [done|]. intros [= <- <-]. destruct C; congruence.
  - intros p' i _ _ X. destruct (decide ((part, p) = (Temporary, p'))) as [<-|]; [rewrite lookup_insert_eq; eauto|by rewrite lookup_insert_ne].
  - intros part' p' v' [[[= <- <-] _]|[_ X]]%lookup_insert_Some; [done|]. by eapply (sound_parts _ _ (d_sound _ H)).
Qed.
Lemma tame_clear_part s part p :
  pods s !! p = None \/ part = Temporary /\ (forall i, CreatePod p i ∉ pending s) -> down s -> tame s (clear (part_place part p) s).
Proof.
  intros C H. apply tame_parts; [..|done].
  - intros part' p' [m Hp] Ht. rewrite lookup_delete_ne; [done|]. intros [= <- <-]. destruct C as [|[? _]]; congruence.
  - intros p' i Hc [m Hp] X. rewrite lookup_delete_ne; [done|]. intros [= -> ->]. destruct C as [|[_ C]]; [congruence|by eapply C].
  - intros part' p' v' [_ X]%lookup_delete_Some. by eapply (sound_parts _ _ (d_sound _ H)).
Qed.
(** Stagings and image directories that are being published. *)
Lemma tame_staging s x : (forall t, is_Some (x !! t) -> stages s t) -> down s -> tame s (s <| image_staging := x |>).
Proof.
  intros X H. split; [constructor|split; [|done]]; try apply H; [by apply (sound_same _ s); [..|apply H]|exact X|by apply durable_ext].
Qed.
Lemma tame_publishing s x :
  (forall t d, x !! t = Some d -> stages s t /\ im_seed d = None) -> down s -> tame s (s <| image_publishing := x |>).
Proof.
  intros X H. split; [constructor|split; [|done]]; try apply H; [by apply (sound_same _ s); [..|apply H]|exact X|by apply durable_ext].
Qed.
Lemma tame_publishing_alter s t f :
  (forall d, im_seed (f d) = im_seed d) -> down s -> tame s (s <| image_publishing := alter f t (image_publishing s) |>).
Proof.
  intros F H. apply tame_publishing; [|done]. intros t' d [(<- & d' & Hd & ->)|[_ Hd]]%lookup_alter_Some; [|by apply (d_publishing _ H)].
  rewrite F. by apply (d_publishing _ H).
Qed.
(** Images that are being deleted, and their seeds. *)
Lemma tame_trash s x :
  (forall t, is_Some (x !! t) -> is_Some (trash s !! t)) -> (forall t d m, x !! t = Some d -> im_seed d = Some m -> trash_seed t s = Some m) ->
  down s -> tame s (s <| trash := x |>).
Proof.
  intros X1 X2 H. split; [constructor|split; [|done]]; try apply H; [by apply (sound_same _ s); [..|apply H]| | |by apply durable_ext].
  - intros t Ht. by apply (d_trash _ H), X1.
  - intros i m t m' Hm Ht. apply (d_trash_seeds _ H _ _ t _ Hm). change (x !! t ≫= im_seed = Some m') in Ht.
    destruct (x !! t) as [d|] eqn:E; [|done]. by eapply X2.
Qed.
Lemma tame_trash_alter s t f : (forall d, im_seed (f d) = im_seed d \/ im_seed (f d) = None) -> down s -> tame s (s <| trash := alter f t (trash s) |>).
Proof.
  intros F H. apply tame_trash; [..|done].
  - intros t'. by rewrite lookup_alter_is_Some.
  - unfold trash_seed. intros t' d m [(<- & d' & Hd & ->)|[_ Hd]]%lookup_alter_Some E; rewrite Hd; cbn; [|done]. destruct (F d'); congruence.
Qed.
Definition unnamed (g : bytes) s : Prop := forall i m, seed_manifest_of i s = Some m -> sm_generation m <> g.
Lemma tame_seeds s g x : (forall g', g' <> g -> x !! g' = seeds s !! g') -> unnamed g s -> down s -> tame s (s <| seeds := x |>).
Proof.
  intros X U H. assert (forall i m, seed_manifest_of i s = Some m -> x !! sm_generation m = seeds s !! sm_generation m) as E.
  { intros i m Hm. apply X. by eapply U. }
  split; [constructor|split; [|done]]; try apply H; [by apply (sound_same _ s); [..|apply H]| |].
  - intros i m Hm. change (is_Some (x !! sm_generation m ≫= sd_root) /\ is_Some (x !! sm_generation m ≫= sd_workspace)).
    rewrite (E i m Hm). by apply (d_seeds _ H i).
  - apply durable_ext; [|done..]. intros i. apply entry_image_ext; [done|done|]. intros m Hm. unfold seed_view.
    change (look (seed_root (sm_generation m)) (s <| seeds := x |>)) with (x !! sm_generation m ≫= sd_root).
    change (look (seed_workspace (sm_generation m)) (s <| seeds := x |>)) with (x !! sm_generation m ≫= sd_workspace). by rewrite (E i m Hm).
Qed.
Lemma tame_image_temps s f i : down s -> tame s (change_temps f (InImage i) s).
Proof.
  intros H. set (a := fun d : ImageDir => d <| im_temps := f (im_temps d) |>).
  assert (forall j, seed_manifest_of j (change_temps f (InImage i) s) = seed_manifest_of j s) as E.
  { intros j. unfold seed_manifest_of. change (images (change_temps f (InImage i) s)) with (alter a i (images s)).
    destruct (decide (i = j)) as [<-|]; [rewrite lookup_alter_eq|by rewrite lookup_alter_ne]. by destruct (images s !! i). }
  split; [constructor|split; [|done]]; try setoid_rewrite E; try apply H.
  - destruct (d_sound _ H) as [S1 S2 S3 S4].
    apply (sound_ext _ s); [done..|intros j; change (images (change_temps f (InImage i) s)) with (alter a i (images s)); by rewrite lookup_alter_is_Some| |done].
    intros j d Hd. change (alter a i (images s) !! j = Some d) in Hd. apply lookup_alter_Some in Hd as [(<- & d' & Hd & ->)|[? Hd]]; [exact (S1 _ _ Hd)|by apply S1].
  - intros t Ht. destruct (d_trash _ H t Ht) as (m & k & ? & ? & ?). exists m, k. split_and!; [done|done|]. change (alter a i (images s) !! k = None). by apply lookup_alter_None.
  - intros m Hm. change (is_Some (alter a i (images s) !! selected_image_id m)). rewrite lookup_alter_is_Some. by apply (d_selected _ H).
  - apply durable_ext; [|done..]. intros j. unfold entry_image. change (images (change_temps f (InImage i) s)) with (alter a i (images s)).
    destruct (decide (i = j)) as [<-|]; [rewrite lookup_alter_eq|by rewrite lookup_alter_ne]. by destruct (images s !! i).
Qed.
(** Temporary files. *)
Lemma tame_temps s f d : down s -> tame s (change_temps f d s).
Proof.
  intros H. destruct d; [by apply tame_elsewhere|by apply tame_elsewhere|by apply tame_elsewhere|by apply tame_elsewhere|by apply tame_image_temps|].
  by apply tame_publishing_alter.
Qed.
Lemma tame_no_pod s p : DeletePod p ∈ pending s -> down s -> tame s (s <| pods := delete p (pods s) |>).
Proof.
  intros D H. set (s' := s <| pods := delete p (pods s) |>).
  assert (forall p' m, pods s' !! p' = Some m -> pods s !! p' = Some m) as X.
  { intros p' m Hp. change (delete p (pods s) !! p' = Some m) in Hp. by apply lookup_delete_Some in Hp as [_ ?]. }
  split; [constructor|split; [|done]]; try apply H.
  - destruct (d_sound _ H) as [S1 S2 S3 S4]. constructor; [exact S1| |exact S3|exact S4]. intros p' m Hp. by apply S2, X.
  - intros p' m part Hp. by apply (d_pods _ H p' m), X.
  - intros p' i m C Hp. by apply (d_creating _ H), X.
  - intros i C. destruct (d_deleting _ H i C) as [[U1 U2] ?]. split; [|done]. split; [|exact U2]. intros p' m Hp. by eapply U1, X.
  - apply durable_ext; [done| |done..]. intros p'. unfold entry_pod. change (pods s') with (delete p (pods s)).
    destruct (decide (p = p')) as [<-|]; [|by rewrite lookup_delete_ne]. rewrite lookup_delete_eq. destruct (pods s !! p); [|done]. cbn.
    unfold view_pod. by rewrite decide_True.
Qed.

(** ** Transactions *)
Definition add_transaction (t : bytes) (o : TransactionOperation) s : Store := s <| transactions := <[t := transaction_of t o]> (transactions s) |>.
Definition drop_transaction (t : bytes) s : Store := s <| transactions := delete t (transactions s) |>.
Lemma lookup_add t o s t' m :
  transactions (add_transaction t o s) !! t' = Some m <-> t' = t /\ m = transaction_of t o \/ t' <> t /\ transactions s !! t' = Some m.
Proof.
  change (transactions (add_transaction t o s)) with (<[t:=transaction_of t o]> (transactions s)). rewrite lookup_insert_Some. naive_solver.
Qed.
Lemma lookup_drop t s t' m : transactions (drop_transaction t s) !! t' = Some m <-> t' <> t /\ transactions s !! t' = Some m.
Proof. change (transactions (drop_transaction t s)) with (delete t (transactions s)). rewrite lookup_delete_Some. naive_solver. Qed.
(** The transaction [t] is new, or replaces one that has no claim on pods and images. *)
Definition replaceable (t : bytes) s : Prop :=
  forall m, transactions s !! t = Some m -> match operation m with StageImage | PublishImage _ => True | _ => False end.
Lemma pending_add t o s o' :
  replaceable t s -> (match o' with StageImage | PublishImage _ => False | _ => True end) ->
  o' ∈ pending (add_transaction t o s) <-> o' = o \/ o' ∈ pending s.
Proof.
  intros R O. rewrite !elem_pending. setoid_rewrite lookup_add. split.
  - intros (t' & m & [[-> ->]|[? H]] & <-); [by left|right; eauto].
  - intros [->|(t' & m & H & <-)]; [exists t, (transaction_of t o); auto|]. exists t', m. split; [|done]. right. split; [|done].
    intros ->. apply R in H. by destruct (operation m).
Qed.
Lemma sound_add t o s :
  valid_transaction_id t = true -> match o with CreatePod p i => pod_id p = Ok p /\ is_Some (images s !! i) | _ => True end ->
  sound config_len s -> sound config_len (add_transaction t o s).
Proof.
  intros V O [S1 S2 S3 S4]. constructor; [exact S1|exact S2| |exact S4]. intros t' m [[-> ->]|[_ H]]%lookup_add; [by repeat split|by apply S3].
Qed.
Definition starts s (t : bytes) (o : TransactionOperation) : Prop :=
  match o with
  | StageImage | PublishImage _ => True
  | CreatePod p i =>
      pod_id p = Ok p /\ is_Some (images s !! i) /\ DeleteImage i ∉ pending s
      /\ (forall m, pods s !! p = Some m -> pm_image m = i /\ forall part, is_Some (pod_parts s !! (part, p)))
      /\ image_staging s !! t = None /\ image_publishing s !! t = None
  | DeletePod p => image_staging s !! t = None /\ image_publishing s !! t = None
  | DeleteImage i =>
      unreferenced i s /\ selected_image_id <$> selected s <> Some i /\ image_staging s !! t = None /\ image_publishing s !! t = None
  end.
Lemma down_add t o s : valid_transaction_id t = true -> replaceable t s -> starts s t o -> down s -> down (add_transaction t o s).
Proof.
  intros V R O H. assert (forall t', t' <> t -> stages s t' -> stages (add_transaction t o s) t') as ST.
  { intros t' ? (m & Hm & Ho). exists m. split; [|done]. apply lookup_add. auto. }
  assert (forall t', image_staging s !! t <> None \/ image_publishing s !! t <> None \/ t' <> t -> stages s t' -> stages (add_transaction t o s) t') as ST'.
  { intros t' C S. destruct (decide (t' = t)) as [->|]; [|by apply ST]. exists (transaction_of t o). split; [apply lookup_add; auto|].
    destruct o; cbn in *; naive_solver. }
  constructor.
  - apply sound_add; [done| |apply H]. destruct o; try done. by destruct O as (? & ? & _).
  - intros p m part Hp Hd. apply (d_pods _ H p m part Hp). intros X. apply Hd. apply pending_add; auto.
  - intros p i m [E|C]%pending_add Hp; [|by apply (d_creating _ H)|done|done]. subst o. destruct O as (_ & _ & _ & O & _). by apply O.
  - intros i [E|C]%pending_add; [subst o|..|done|done].
    + destruct O as ([U1 U2] & ? & _). split; [|done]. split; [exact U1|]. intros t' m p [[-> ->]|[_ Hm]]%lookup_add; [done|by eapply U2].
    + destruct (d_deleting _ H i C) as [[U1 U2] ?]. split; [|done]. split; [exact U1|]. intros t' m p [[-> ->]|[_ Hm]]%lookup_add; [|by eapply U2].
      cbn. intros ->. by destruct O as (_ & _ & O & _).
  - intros t' Ht. apply ST'; [|by apply (d_staging _ H)]. destruct (decide (t' = t)) as [->|]; [|auto]. left. intros E.
    change (is_Some (image_staging s !! t)) in Ht. rewrite E in Ht. by destruct Ht.
  - intros t' d Ht. destruct (d_publishing _ H t' d Ht). split; [|done]. apply ST'; [|done]. destruct (decide (t' = t)) as [->|]; [|auto]. right. left. intros E.
    change (image_publishing s !! t = Some d) in Ht. congruence.
  - intros t' Ht. destruct (d_trash _ H t' Ht) as (m & i & Hm & Ho & Hi). exists m, i. split_and!; [|done|done]. apply lookup_add. right. split; [|done].
    intros ->. apply R in Hm. by rewrite Ho in Hm.
  - exact (d_seeds _ H).
  - exact (d_unique _ H).
  - exact (d_trash_seeds _ H).
  - exact (d_selected _ H).
Qed.
Lemma tame_add t o s :
  valid_transaction_id t = true -> replaceable t s -> starts s t o -> match o with DeletePod _ | DeleteImage _ => False | _ => True end ->
  down s -> tame s (add_transaction t o s).
Proof.
  intros V R O N H. split; [by apply down_add|split; [|done]]. apply durable_ext; [| |done..].
  - intros i. apply entry_image_ext; [done| |done]. rewrite pending_add by done. split; [intros [<-|]; done|auto].
  - intros p. apply entry_pod_ext; [done| |done]. rewrite pending_add by done. split; [intros [<-|]; done|auto].
Qed.
Lemma durable_delete_pod t p s :
  replaceable t s -> durable (add_transaction t (DeletePod p) s) = (durable s) <| v_pods := delete p (v_pods (durable s)) |>.
Proof.
  intros R. apply durable_eq; [| |done..].
  - intros i. change (v_images (view s) !! i = entry_image (add_transaction t (DeletePod p) s) i). rewrite lookup_v_images. symmetry.
    apply entry_image_ext; [done| |done]. rewrite pending_add by done. split; [by intros [|]|auto].
  - intros p'. change (delete p (v_pods (view s)) !! p' = entry_pod (add_transaction t (DeletePod p) s) p').
    destruct (decide (p = p')) as [<-|N].
    + rewrite lookup_delete_eq. unfold entry_pod. destruct (pods _ !! p); [|done]. cbn. unfold view_pod. rewrite decide_True; [done|]. apply pending_add; auto.
    + rewrite lookup_delete_ne, lookup_v_pods by done. symmetry. apply entry_pod_ext; [done| |done]. rewrite pending_add by done.
      split; [intros [|]; congruence|auto].
Qed.
Lemma durable_delete_image t i s :
  replaceable t s -> durable (add_transaction t (DeleteImage i) s) = (durable s) <| v_images := delete i (v_images (durable s)) |>.
Proof.
  intros R. apply durable_eq; [| |done..].
  - intros j. change (delete i (v_images (view s)) !! j = entry_image (add_transaction t (DeleteImage i) s) j).
    destruct (decide (i = j)) as [<-|N].
    + rewrite lookup_delete_eq. unfold entry_image. destruct (images _ !! i); [|done]. cbn. unfold view_image. rewrite decide_True; [done|]. apply pending_add; auto.
    + rewrite lookup_delete_ne, lookup_v_images by done. symmetry. apply entry_image_ext; [done| |done]. rewrite pending_add by done.
      split; [intros [|]; congruence|auto].
  - intros p. change (v_pods (view s) !! p = entry_pod (add_transaction t (DeleteImage i) s) p). rewrite lookup_v_pods. symmetry.
    apply entry_pod_ext; [done| |done]. rewrite pending_add by done. split; [by intros [|]|auto].
Qed.
(** A transaction whose work is done. *)
Definition settled s (t : bytes) : Prop :=
  image_staging s !! t = None /\ image_publishing s !! t = None /\ trash s !! t = None
  /\ forall m, transactions s !! t = Some m ->
       match operation m with DeletePod p => pods s !! p = None | DeleteImage i => images s !! i = None | _ => True end.
Lemma pending_drop t s o : o ∈ pending (drop_transaction t s) -> o ∈ pending s.
Proof. rewrite !elem_pending. setoid_rewrite lookup_drop. intros (t' & m & [? ?] & ?). eauto. Qed.
Lemma pending_undrop t s o : o ∈ pending s -> o ∈ pending (drop_transaction t s) \/ exists m, transactions s !! t = Some m /\ operation m = o.
Proof.
  rewrite !elem_pending. setoid_rewrite lookup_drop. intros (t' & m & Hm & Ho). destruct (decide (t' = t)) as [->|]; [right; eauto|left; eauto 6].
Qed.
Lemma tame_drop t s : settled s t -> down s -> tame s (drop_transaction t s).
Proof.
  intros (Z1 & Z2 & Z3 & Z4) H.
  assert (forall t', t' <> t -> stages s t' -> stages (drop_transaction t s) t') as ST.
  { intros t' ? (m & Hm & Ho). exists m. split; [|done]. apply lookup_drop. auto. }
  assert (forall p, is_Some (pods s !! p) -> DeletePod p ∈ pending (drop_transaction t s) <-> DeletePod p ∈ pending s) as PP.
  { intros p [m Hp]. split; [apply pending_drop|]. intros [X|(m' & X & Y)]%(pending_undrop t); [done|]. apply Z4 in X. rewrite Y in X. congruence. }
  assert (forall i, is_Some (images s !! i) -> DeleteImage i ∈ pending (drop_transaction t s) <-> DeleteImage i ∈ pending s) as PI.
  { intros i [d Hi]. split; [apply pending_drop|]. intros [X|(m' & X & Y)]%(pending_undrop t); [done|]. apply Z4 in X. rewrite Y in X. congruence. }
  split; [constructor|split; [|done]].
  - destruct (d_sound _ H) as [S1 S2 S3 S4]. constructor; [exact S1|exact S2| |exact S4]. intros t' m [_ X]%lookup_drop. by apply S3.
  - intros p m part Hp Hd. apply (d_pods _ H p m part Hp). by rewrite <-PP by eauto.
  - intros p i m C%pending_drop. by apply (d_creating _ H).
  - intros i C%pending_drop. destruct (d_deleting _ H i C) as [[U1 U2] ?]. split; [|done]. split; [exact U1|]. intros t' m p [_ X]%lookup_drop. by eapply U2.
  - intros t' Ht. apply ST; [|by apply (d_staging _ H)]. intros ->. change (is_Some (image_staging s !! t)) in Ht. rewrite Z1 in Ht. by destruct Ht.
  - intros t' d Ht. destruct (d_publishing _ H t' d Ht). split; [|done]. apply ST; [|done]. intros ->. change (image_publishing s !! t = Some d) in Ht. congruence.
  - intros t' Ht. destruct (d_trash _ H t' Ht) as (m & i & Hm & Ho & Hi). exists m, i. split_and!; [|done|done]. apply lookup_drop. split; [|done].
    intros ->. change (is_Some (trash s !! t)) in Ht. rewrite Z3 in Ht. by destruct Ht.
  - exact (d_seeds _ H).
  - exact (d_unique _ H).
  - exact (d_trash_seeds _ H).
  - exact (d_selected _ H).
  - apply durable_ext; [| |done..].
    + intros i. destruct (images s !! i) as [d|] eqn:E; [|unfold entry_image; change (images (drop_transaction t s)) with (images s); by rewrite E].
      apply entry_image_ext; [done| |done]. by apply PI.
    + intros p. destruct (pods s !! p) as [m|] eqn:E; [|unfold entry_pod; change (pods (drop_transaction t s)) with (pods s); by rewrite E].
      apply entry_pod_ext; [done| |done]. by apply PP.
Qed.

(** ** Changes that commit an operation *)
Lemma seed_manifest_hide t i d s j : seed_manifest_of j (hide_image t i d s) = if decide (i = j) then None else seed_manifest_of j s.
Proof.
  unfold seed_manifest_of. change (images (hide_image t i d s)) with (delete i (images s)).
  case_decide as E; [subst; by rewrite lookup_delete_eq|by rewrite lookup_delete_ne].
Qed.
Lemma tame_hide t m i d s :
  transactions s !! t = Some m -> operation m = DeleteImage i -> images s !! i = Some d -> down s -> tame s (hide_image t i d s).
Proof.
  intros Hm Ho Hd H. assert (DeleteImage i ∈ pending s) as P by (apply elem_pending; eauto).
  destruct (d_deleting _ H i P) as [[U1 U2] U3]. split; [constructor|split; [|done]].
  - destruct (d_sound _ H) as [S1 S2 S3 S4]. constructor; [| | |exact S4].
    + intros j x X. change (delete i (images s) !! j = Some x) in X. apply lookup_delete_Some in X as [_ X]. by apply S1.
    + intros p pm X. destruct (S2 _ _ X) as (? & ? & ? & Y). do 3 (split; [done|]). change (is_Some (delete i (images s) !! pm_image pm)).
      rewrite lookup_delete_ne; [done|]. intros E. by eapply U1.
    + intros t' m' X. destruct (S3 _ _ X) as (? & ? & ? & Y). do 3 (split; [done|]). destruct (operation m') as [| |p' i'| |] eqn:O; try done.
      split; [apply Y|]. change (is_Some (delete i (images s) !! i')). rewrite lookup_delete_ne; [apply Y|]. intros ->. by eapply U2.
  - exact (d_pods _ H).
  - exact (d_creating _ H).
  - exact (d_deleting _ H).
  - exact (d_staging _ H).
  - exact (d_publishing _ H).
  - intros t' Ht. change (is_Some (<[t:=d]> (trash s) !! t')) in Ht.
    destruct (decide (t = t')) as [<-|]; [exists m, i; split_and!; [done|done|apply lookup_delete_eq]|]. rewrite lookup_insert_ne in Ht by done.
    destruct (d_trash _ H t' Ht) as (m' & i' & ? & ? & ?). exists m', i'. split_and!; [done|done|]. change (delete i (images s) !! i' = None). by apply lookup_delete_None; right.
  - intros j sm. rewrite seed_manifest_hide. case_decide; [done|]. apply (d_seeds _ H).
  - intros j k sm sm'. rewrite !seed_manifest_hide. do 2 (case_decide; [done|]). apply (d_unique _ H).
  - intros j sm t' sm'. rewrite !seed_manifest_hide. case_decide as N; [done|]. intros Hj Ht. change (<[t:=d]> (trash s) !! t' ≫= im_seed = Some sm') in Ht.
    destruct (decide (t = t')) as [<-|]; [|rewrite lookup_insert_ne in Ht by done; by apply (d_trash_seeds _ H j sm t')].
    rewrite lookup_insert_eq in Ht. cbn in Ht. intros E. apply N. apply (d_unique _ H i j sm' sm); [|done|done]. unfold seed_manifest_of. by rewrite Hd.
  - intros sm Hs. change (is_Some (delete i (images s) !! selected_image_id sm)). rewrite lookup_delete_ne; [by apply (d_selected _ H)|].
    intros ->. apply U3. change (selected s = Some sm) in Hs. by rewrite Hs.
  - apply durable_ext; [|done..]. intros j. destruct (decide (i = j)) as [<-|].
    + unfold entry_image. change (images (hide_image t i d s)) with (delete i (images s)). rewrite lookup_delete_eq, Hd. cbn. unfold view_image.
      by rewrite decide_True.
    + apply entry_image_ext; [|done|done]. change (images (hide_image t i d s)) with (delete i (images s)). by rewrite lookup_delete_ne.
Qed.
Lemma commit_pod p m r w k s :
  pod_id p = Ok p -> pm_id m = p -> pm_format_version m = STORE_FORMAT_VERSION -> is_Some (images s !! pm_image m) ->
  pod_parts s !! (Root, p) = Some r -> pod_parts s !! (Workspace, p) = Some w -> pod_parts s !! (Docker, p) = Some k ->
  is_Some (pod_parts s !! (Temporary, p)) -> (forall i, CreatePod p i ∈ pending s -> i = pm_image m) ->
  DeleteImage (pm_image m) ∉ pending s -> DeletePod p ∉ pending s -> down s ->
  down (s <| pods := <[p := m]> (pods s) |>)
  /\ durable (s <| pods := <[p := m]> (pods s) |>)
     = (durable s) <| v_pods := <[p := {| pv_manifest := m; pv_root := r; pv_workspace := w; pv_docker := k |}]> (v_pods (durable s)) |>.
Proof.
  intros V1 V2 V3 V4 Hr Hw Hk Ht HC HI HP H. set (s' := s <| pods := <[p := m]> (pods s) |>).
  assert (forall p' m', pods s' !! p' = Some m' -> p' = p /\ m' = m \/ pods s !! p' = Some m') as X.
  { intros p' m' E. change (<[p:=m]> (pods s) !! p' = Some m') in E. apply lookup_insert_Some in E as [[<- <-]|[_ E]]; auto. }
  assert (forall part, is_Some (pod_parts s !! (part, p))) as A by (intros []; [by exists r|by exists w|by exists k|done]).
  split; [constructor; try apply H|].
  - destruct (d_sound _ H) as [S1 S2 S3 S4]. constructor; [exact S1| |exact S3|exact S4]. intros p' m' [[-> ->]|E]%X; [done|by apply S2].
  - intros p' m' part [[-> ->]|E]%X; [intros; apply A|by apply (d_pods _ H p' m')].
  - intros p' i m' C [[-> ->]|E]%X; [|by apply (d_creating _ H)]. split; [symmetry; by apply HC|exact A].
  - intros i C. destruct (d_deleting _ H i C) as [[U1 U2] ?]. split; [|done]. split; [|exact U2]. intros p' m' [[-> ->]|E]%X; [by intros <-|by eapply U1].
  - apply durable_eq; [| |done..].
    + intros i. change (v_images (view s) !! i = entry_image s' i). rewrite lookup_v_images. done.
    + intros p'. change (<[p := {| pv_manifest := m; pv_root := r; pv_workspace := w; pv_docker := k |}]> (v_pods (view s)) !! p' = entry_pod s' p').
      destruct (decide (p = p')) as [<-|].
      * rewrite lookup_insert_eq. unfold entry_pod. change (pods s') with (<[p:=m]> (pods s)). rewrite lookup_insert_eq. cbn. unfold view_pod.
        rewrite decide_False by done. change (pod_parts s') with (pod_parts s). by rewrite Hr, Hw, Hk.
      * rewrite lookup_insert_ne, lookup_v_pods by done. symmetry. apply entry_pod_ext; [|done|done]. change (pods s') with (<[p:=m]> (pods s)). by rewrite lookup_insert_ne.
Qed.
Lemma commit_image t i d m r s :
  image_id i = Ok i -> complete_image config_len i d -> im_manifest d = Some m -> im_root d = Some r -> im_seed d = None ->
  images s !! i = None -> DeleteImage i ∉ pending s -> down s ->
  let s' := s <| image_publishing := delete t (image_publishing s) |> <| images := <[i := d]> (images s) |> in
  down s' /\ durable s' = (durable s) <| v_images := <[i := {| iv_manifest := m; iv_root := r; iv_seed := None |}]> (v_images (durable s)) |>.
Proof.
  intros V C Hm Hr Hs Hi HD H s'.
  assert (forall j, seed_manifest_of j s' = seed_manifest_of j s) as ES.
  { intros j. unfold seed_manifest_of. change (images s') with (<[i:=d]> (images s)). destruct (decide (i = j)) as [<-|]; [|by rewrite lookup_insert_ne].
    rewrite lookup_insert_eq, Hi. done. }
  assert (forall j, is_Some (images s !! j) -> is_Some (images s' !! j)) as A.
  { intros j Hj. change (images s') with (<[i:=d]> (images s)). destruct (decide (i = j)) as [<-|]; [rewrite lookup_insert_eq; eauto|by rewrite lookup_insert_ne]. }
  split; [constructor; try setoid_rewrite ES; try apply H|].
  - apply (sound_ext _ s); [done..|exact A| |apply H]. intros j x E. change (<[i:=d]> (images s) !! j = Some x) in E.
    apply lookup_insert_Some in E as [[<- <-]|[_ E]]; [done|by apply (d_sound _ H)].
  - intros t' x E. change (delete t (image_publishing s) !! t' = Some x) in E. apply lookup_delete_Some in E as [_ E]. by apply (d_publishing _ H).
  - intros t' Ht. destruct (d_trash _ H t' Ht) as (m' & i' & ? & ? & ?). exists m', i'. split_and!; [done|done|]. change (<[i:=d]> (images s) !! i' = None).
    rewrite lookup_insert_ne; [done|]. intros <-. apply HD, elem_pending. eauto.
  - intros sm E. by apply A, (d_selected _ H).
  - apply durable_eq; [| |done..].
    + intros j. change (<[i := {| iv_manifest := m; iv_root := r; iv_seed := None |}]> (v_images (view s)) !! j = entry_image s' j).
      destruct (decide (i = j)) as [<-|].
      * rewrite lookup_insert_eq. unfold entry_image. change (images s') with (<[i:=d]> (images s)). rewrite lookup_insert_eq. cbn. unfold view_image.
        rewrite decide_False by done. unfold image_view. by rewrite Hm, Hr, Hs.
      * rewrite lookup_insert_ne, lookup_v_images by done. symmetry. apply entry_image_ext; [|done|done]. change (images s') with (<[i:=d]> (images s)). by rewrite lookup_insert_ne.
    + intros p. change (v_pods (view s) !! p = entry_pod s' p). rewrite lookup_v_pods. done.
Qed.
Lemma commit_seed i m d r w s :
  images s !! i = Some d -> sm_image m = i -> image_id (sm_context m) = Ok (sm_context m) -> look (seed_root (sm_generation m)) s = Some r -> look (seed_workspace (sm_generation m)) s = Some w ->
  unnamed (sm_generation m) s -> (forall t m', trash_seed t s = Some m' -> sm_generation m <> sm_generation m') -> down s ->
  let s' := s <| images := alter (fun d => d <| im_seed := Some m |>) i (images s) |> in
  down s' /\ durable s' = (durable s) <| v_images := alter (fun x => x <| iv_seed := Some (sm_context m, r, w) |>) i (v_images (durable s)) |>.
Proof.
  intros Hd Hi Hc Hr Hw HU HT H s'. set (a := fun d : ImageDir => d <| im_seed := Some m |>).
  assert (forall j, seed_manifest_of j s' = if decide (i = j) then Some m else seed_manifest_of j s) as ES.
  { intros j. unfold seed_manifest_of. change (images s') with (alter a i (images s)).
    case_decide as E; [subst j; by rewrite lookup_alter_eq, Hd|by rewrite lookup_alter_ne]. }
  split; [constructor; try apply H|].
  - destruct (d_sound _ H) as [S1 S2 S3 S4].
    apply (sound_ext _ s); [done..|intros j; change (images s') with (alter a i (images s)); by rewrite lookup_alter_is_Some| |done].
    intros j x E. change (alter a i (images s) !! j = Some x) in E. apply lookup_alter_Some in E as [(<- & x' & E & ->)|[_ E]]; [|by apply S1].
    destruct (S1 _ _ E) as (? & m' & v & C1 & C2 & C3 & C4 & C5 & C6 & _). split; [done|]. exists m', v. split_and!; try done. intros y [= <-]. done.
  - intros t' Ht. destruct (d_trash _ H t' Ht) as (m' & k & ? & ? & ?). exists m', k. split_and!; [done|done|].
    change (alter a i (images s) !! k = None). by apply lookup_alter_None.
  - intros j m'. rewrite ES. case_decide; [intros [= <-]; split; [by exists r|by exists w]|]. by apply (d_seeds _ H).
  - intros j k m1 m2. rewrite !ES. case_decide as E1; case_decide as E2; [congruence| | |by apply (d_unique _ H)].
    + intros [= <-] X E. by destruct (HU k m2 X).
    + intros X [= <-] E. by destruct (HU j m1 X).
  - intros j m1 t m2. rewrite ES. case_decide; [intros [= <-] X; by eapply HT|by apply (d_trash_seeds _ H)].
  - intros sm E. change (is_Some (alter a i (images s) !! selected_image_id sm)). rewrite lookup_alter_is_Some. by apply (d_selected _ H).
  - apply durable_eq; [| |done..].
    + intros j. change (alter (fun x => x <| iv_seed := Some (sm_context m, r, w) |>) i (v_images (view s)) !! j = entry_image s' j).
      destruct (decide (i = j)) as [<-|].
      * rewrite lookup_alter_eq, lookup_v_images. unfold entry_image. change (images s') with (alter a i (images s)). rewrite lookup_alter_eq, Hd. cbn.
        unfold view_image. change (pending s') with (pending s). case_decide; [done|]. unfold image_view. cbn. do 2 (case_match; [|done]). cbn.
        unfold seed_view. change (look (seed_root (sm_generation m)) s') with (look (seed_root (sm_generation m)) s).
        change (look (seed_workspace (sm_generation m)) s') with (look (seed_workspace (sm_generation m)) s). by rewrite Hr, Hw.
      * rewrite lookup_alter_ne, lookup_v_images by done. symmetry. apply entry_image_ext; [|done|done]. change (images s') with (alter a i (images s)). by rewrite lookup_alter_ne.
    + intros p. change (v_pods (view s) !! p = entry_pod s' p). rewrite lookup_v_pods. done.
Qed.
Lemma commit_selected x s :
  (forall m, x = Some m -> is_Some (images s !! selected_image_id m) /\ DeleteImage (selected_image_id m) ∉ pending s) -> down s ->
  down (s <| selected := x |>) /\ durable (s <| selected := x |>) = (durable s) <| v_selected := selected_image_id <$> x |>.
Proof.
  intros X H. split; [|done]. constructor; try apply H; [by apply (sound_same _ s); [..|apply H]| |].
  - intros i C. destruct (d_deleting _ H i C) as [U _]. split; [exact U|]. change (selected_image_id <$> x <> Some i). destruct x as [m|]; [|done].
    cbn. intros [= <-]. by destruct (X m eq_refl).
  - intros m E. change (x = Some m) in E. by apply X.
Qed.
Lemma commit_golden s s' :
  images s' = images s -> image_staging s' = image_staging s -> image_publishing s' = image_publishing s -> pods s' = pods s ->
  pod_parts s' = pod_parts s -> seeds s' = seeds s -> selected s' = selected s -> transactions s' = transactions s ->
  trash s' = trash s -> outside s' = outside s -> down s -> down s' /\ durable s' = (durable s) <| v_golden := golden s' |>.
Proof.
  intros E1 E2 E3 E4 E5 E6 E7 E8 E9 E10 H. destruct (down_elsewhere s s') as (D & F1 & F2); try done. split; [done|].
  apply durable_eq; [| |by rewrite E7|done|by rewrite E10|done].
  - intros i. change (v_images (view s) !! i = entry_image s' i). by rewrite lookup_v_images.
  - intros p. change (v_pods (view s) !! p = entry_pod s' p). by rewrite lookup_v_pods.
Qed.
End down.
