(* ===== verification/PodRecover.v ===== *)
(** * Recovery

    From every state that a crash leaves, opening the store succeeds, keeps the durable
    view, and leaves no transaction and no garbage; a crash of the recovery itself leaves
    such a state again.  What is excluded is a temporary file of a manifest in an image
    directory, which recovery does not remove. *)

From S2P Require Import Prelude Lists Text Outage PodTypes PodStore PodReads PodSafe PodOps PodDown.

(** * Runs of the parts of the operations

    The result of each helper of the pod store when calls run or never return, with the
    states that it can stop in. *)

Section runs.
Context (encoded_len : Manifest -> Z) (config_len : ImageConfig -> Z).
Implicit Types (s : Store) (Y : Store -> Prop).

Lemma path_state_runs {A} s p (f : Store -> option A) Y : Y s -> runs s (path_state p f) (Ok (f s)) s Y.
Proof. intros H. by apply running_computes; [apply path_state_computes|]. Qed.
Lemma there_runs {A} s p (f : Store -> option A) Y : Y s -> runs s (there p f) (Ok (option_map (fun _ => tt) (f s))) s Y.
Proof. intros H. by apply running_computes; [apply there_computes|]. Qed.
Lemma read_json_runs {A} s p (f : Store -> option A) v Y : f s = Some v -> Y s -> runs s (read_json p f) (Ok v) s Y.
Proof. intros E H. by apply running_computes; [apply read_json_computes|]. Qed.
Lemma sync_runs s p Y : Y s -> runs s (sync_directory p) (Ok tt) s Y.
Proof. intros H. by apply (running_syscall s _ same). Qed.
Definition count_temps (f : nat -> nat) (d : ImageDir) : ImageDir := d <| im_temps := f (im_temps d) |>.
Lemma alter_back (i : bytes) (m : gmap bytes ImageDir) : alter (count_temps Nat.pred) i (alter (count_temps S) i m) = m.
Proof.
  apply map_eq. intros k. destruct (decide (i = k)) as [<-|]; [|by rewrite !lookup_alter_ne]. rewrite !lookup_alter_eq. by destruct (m !! i) as [[]|].
Qed.
Lemma temps_back d s : change_temps Nat.pred d (change_temps S d s) = s.
Proof.
  destruct d as [| | | |i|t]; [by destruct s..| |].
  - change (s <| images := alter (count_temps Nat.pred) i (alter (count_temps S) i (images s)) |> = s). rewrite alter_back. by destruct s.
  - change (s <| image_publishing := alter (count_temps Nat.pred) t (alter (count_temps S) t (image_publishing s)) |> = s). rewrite alter_back. by destruct s.
Qed.
Definition fits (m : Manifest) : Prop := encoded_len m + 1 <= MANIFEST_SIZE_LIMIT.
Lemma write_json_runs s p d m publish Y :
  fits m -> parent_there d s = Some tt -> Y s -> Y (change_temps S d s) -> Y (publish s) ->
  runs s (write_json_atomic encoded_len p d m publish) (Ok tt) (publish s) Y.
Proof.
  intros F P H1 H2 H3. unfold write_json_atomic. eapply running_bind; [by apply path_state_runs|]. rewrite P.
  eapply running_bind; [by apply path_state_runs|]. rewrite (proj2 (Z.ltb_ge _ _)) by exact F.
  eapply running_bind; [eapply running_attempt, running_syscall; exact H1|]. cbn beta iota.
  eapply running_bind; [apply (running_attempt _ (publish s) _ tt)|].
  - eapply running_bind; [by apply (running_syscall _ _ same)|]. eapply running_bind; [by apply (running_syscall _ _ same)|].
    eapply running_eq; [by apply running_syscall|done|]. unfold same. by rewrite temps_back.
  - cbn beta iota. eapply running_bind; [apply running_attempt; by apply sync_runs|]. apply running_ret.
Qed.
Lemma remove_file_runs {A} s p q (f : Store -> option A) unlink Y :
  Y s -> Y (unlink s) -> runs s (remove_file_durable p q f unlink) (Ok tt) (match f s with Some _ => unlink s | None => s end) Y.
Proof.
  intros H1 H2. eapply running_bind; [by apply path_state_runs|]. destruct (f s); [|apply running_ret].
  eapply running_bind; [by apply running_syscall|]. by apply sync_runs.
Qed.
Lemma remove_directory_runs {A} s p q (f : Store -> option A) e rmdir v Y :
  f s = Some v -> e v = true -> Y s -> Y (rmdir s) -> runs s (remove_empty_directory p q f e rmdir) (Ok tt) (rmdir s) Y.
Proof.
  intros E1 E2 H1 H2. eapply running_bind; [by apply path_state_runs|]. rewrite E1, E2.
  eapply running_bind; [by apply running_syscall|]. by apply sync_runs.
Qed.
Lemma run_btrfs_runs s a fs Y :
  healthy s = true -> (forall finished, Y (partly finished fs s)) -> runs s (run_btrfs a fs) (Ok tt) (all_of fs s) Y.
Proof.
  intros E H. unfold run_btrfs. eapply (running_bind _ s); [|by apply running_command]. unfold ensure_healthy.
  eapply (running_bind _ s); [apply running_computes; [apply computes_get|exact (H [])]|]. rewrite E. apply running_ret.
Qed.
Lemma run_btrfs_one s a f Y : healthy s = true -> Y s -> Y (f s) -> runs s (run_btrfs a [f]) (Ok tt) (f s) Y.
Proof. intros E H1 H2. apply (run_btrfs_runs s a [f]); [done|]. intros [|[] [|? ?]]; done. Qed.
Lemma commit_runs s Y : healthy s = true -> Y s -> runs s commit_transaction (Ok tt) s Y.
Proof. intros E H. apply (run_btrfs_runs s _ []); [done|]. by intros [|? ?]. Qed.
Lemma create_subvolume_runs s l a Y :
  healthy s = true -> look l s = None -> is_Some (look l (fill l new_subvol s)) -> Y s -> Y (fill l new_subvol s) ->
  runs s (create_subvolume l a) (Ok tt) (fill l new_subvol s) Y.
Proof.
  intros E L1 [v L2] H1 H2. eapply running_bind; [by apply path_state_runs|]. rewrite L1. eapply running_bind; [by apply run_btrfs_one|].
  eapply running_bind; [by apply path_state_runs|]. rewrite L2. apply running_ret.
Qed.
Lemma snapshot_runs s src l a v Y :
  healthy s = true -> look l s = None -> src s = Some v -> is_Some (look l (fill l (snapshot_of v) s)) -> Y s -> Y (fill l (snapshot_of v) s) ->
  runs s (snapshot_subvolume_with_operation src l a) (Ok tt) (fill l (snapshot_of v) s) Y.
Proof.
  intros E L1 Sv [w L2] H1 H2. eapply running_bind; [by apply path_state_runs|]. rewrite L1.
  eapply running_bind; [apply running_computes; [apply computes_get|done]|]. rewrite Sv. eapply running_bind; [by apply run_btrfs_one|].
  eapply running_bind; [by apply path_state_runs|]. rewrite L2. apply running_ret.
Qed.
Lemma delete_subvolume_runs s l a Y :
  healthy s = true -> look l (clear l s) = None -> Y s -> Y (clear l s) ->
  runs s (delete_subvolume_if_exists l a) (Ok tt) (match look l s with Some _ => clear l s | None => s end) Y.
Proof.
  intros E L H1 H2. eapply running_bind; [by apply path_state_runs|]. destruct (look l s); [|apply running_ret].
  eapply running_bind; [by apply run_btrfs_one|]. eapply running_bind; [by apply path_state_runs|]. rewrite L. apply running_ret.
Qed.
Lemma modify_some l f s v : look l s = Some v -> modify l f s = fill l (f v) s.
Proof. intros E. unfold modify. by rewrite E. Qed.
Lemma chmod_runs s l a mode v Y : look l s = Some v -> Y s -> runs s (chmod l a mode) (Ok tt) (fill l (v <| sv_mode := mode |>) s) Y.
Proof. intros E H. eapply running_eq; [by apply running_syscall|done|]. by rewrite (modify_some _ _ _ _ E). Qed.
(** ** Pods *)
Lemma look_part part p v s : look (part_place part p) (fill (part_place part p) v s) = Some v.
Proof. apply lookup_insert_eq. Qed.
Lemma refill_part part p v w s : fill (part_place part p) v (fill (part_place part p) w s) = fill (part_place part p) v s.
Proof.
  change (s <| pod_parts := <[(part, p):=v]> (<[(part, p):=w]> (pod_parts s)) |> = s <| pod_parts := <[(part, p):=v]> (pod_parts s) |>).
  by rewrite insert_insert_eq.
Qed.
Definition temporary_subvol : Subvol := new_subvol <| sv_limit := Some POD_TEMPORARY_QUOTA_BYTES |> <| sv_mode := 1023 |>.
Lemma create_temporary_runs s p Y :
  healthy s = true -> pod_parts s !! (Temporary, p) = None -> Y s -> (forall v, Y (fill (part_place Temporary p) v s)) ->
  runs s (create_pod_temporary p) (Ok tt) (fill (part_place Temporary p) temporary_subvol s) Y.
Proof.
  intros E L H1 H2. unfold create_pod_temporary. eapply running_bind; [apply create_subvolume_runs; [done|done|rewrite look_part; eauto|done|done]|].
  eapply running_bind; [eapply (running_attempt _ _ _ tt)|apply running_ret]. eapply running_bind.
  - eapply run_btrfs_one; [done|done|]. erewrite modify_some by apply look_part. by rewrite refill_part.
  - erewrite modify_some by apply look_part. rewrite refill_part. eapply running_eq; [eapply chmod_runs; [apply look_part|done]|done|].
    by rewrite refill_part.
Qed.
Lemma require_runs s part p Y : is_Some (pod_parts s !! (part, p)) -> Y s -> runs s (require_subvolume_path part p) (Ok tt) s Y.
Proof. intros [v E] H. eapply running_bind; [by apply path_state_runs|]. cbn [look part_place]. rewrite E. apply running_ret. Qed.
Definition with_temporary (p : bytes) s : Store :=
  match pod_parts s !! (Temporary, p) with Some _ => s | None => fill (part_place Temporary p) temporary_subvol s end.
Definition storage_of (p : bytes) (m : PodManifest) (g : ImageGeneration) : PodStorage :=
  pod_storage p (pm_image m) (ig_config g) (pm_created_at_unix_ms m).
Lemma pod_unlocked_runs s p m g Y :
  sound config_len s -> healthy s = true -> pods s !! p = Some m -> image_of s (pm_image m) = Ok g ->
  (forall part, part <> Temporary -> is_Some (pod_parts s !! (part, p))) -> Y s ->
  (pod_parts s !! (Temporary, p) = None -> forall v, Y (fill (part_place Temporary p) v s)) ->
  runs s (pod_unlocked config_len p) (Ok (storage_of p m g)) (with_temporary p s) Y.
Proof.
  intros S E P I A H1 H2. destruct (sound_pods _ _ S _ _ P) as (_ & Q & _).
  eapply running_bind; [by apply path_state_runs|]. cbn beta. rewrite P.
  eapply running_bind; [apply running_computes; [apply (read_pod_manifest_computes config_len); [done|done|exact P|by apply bool_decide_eq_true]|done]|].
  eapply (running_bind _ s _ _ _ g); [apply running_computes; [rewrite <-I; by apply image_unlocked_computes|done]|].
  do 3 (eapply running_bind; [by apply require_runs; [apply A|]|]). eapply running_bind; [by apply path_state_runs|].
  unfold with_temporary. cbn [look part_place]. destruct (pod_parts s !! (Temporary, p)) eqn:T.
  - eapply running_bind; [apply running_ret|]. rewrite Q. apply running_ret.
  - eapply (running_bind _ (fill (part_place Temporary p) temporary_subvol s)).
    + eapply running_bind; [apply create_temporary_runs; auto|]. apply commit_runs; [done|]. by apply H2.
    + rewrite Q. apply running_ret.
Qed.
End runs.

Section recovery.
Context (encoded_len : Manifest -> Z) (config_len : ImageConfig -> Z).
Implicit Types (s : Store).
Local Notation tame := (tame config_len).
Local Notation down := (down config_len).
(** No temporary file in the directory of an image. *)
Definition no_temps s : Prop :=
  (forall i d, images s !! i = Some d -> im_temps d = O) /\ (forall t d, image_publishing s !! t = Some d -> im_temps d = O)
  /\ (forall t d, trash s !! t = Some d -> im_temps d = O).
Definition good s0 s : Prop := tame s0 s /\ no_temps s.
Lemma good_down s0 s : good s0 s -> down s.
Proof. by intros [[? _] _]. Qed.
Lemma good_step s0 s s' : good s0 s -> (down s -> tame s s') -> (no_temps s -> no_temps s') -> good s0 s'.
Proof. intros [T N] H1 H2. split; [|by apply H2]. eapply PodDown.tame_trans; [exact T|]. apply H1. apply T. Qed.

Lemma delete_absent {A} (m : gmap bytes A) k : m !! k = None -> delete k m = m.
Proof. apply delete_id. Qed.
(** ** Image publications *)
Definition no_staging (t : bytes) s : Store := s <| image_staging := delete t (image_staging s) |>.
Definition no_publishing (t : bytes) s : Store := s <| image_publishing := delete t (image_publishing s) |>.
Lemma no_staging_id t s : image_staging s !! t = None -> no_staging t s = s.
Proof. intros H. unfold no_staging. rewrite delete_id by done. by destruct s. Qed.
Lemma no_publishing_id t s : image_publishing s !! t = None -> no_publishing t s = s.
Proof. intros H. unfold no_publishing. rewrite delete_id by done. by destruct s. Qed.
Lemma tame_no_staging t s : down s -> tame s (no_staging t s).
Proof.
  intros H. apply tame_staging; [|done]. intros t' [v X]. apply lookup_delete_Some in X as [_ X]. apply (d_staging _ _ H). by exists v.
Qed.
Lemma tame_no_publishing t s : down s -> tame s (no_publishing t s).
Proof. intros H. apply tame_publishing; [|done]. intros t' d [_ X]%lookup_delete_Some. by apply (d_publishing _ _ H). Qed.
Lemma no_temps_publishing t f s :
  (forall d, im_temps (f d) = im_temps d) -> no_temps s -> no_temps (s <| image_publishing := alter f t (image_publishing s) |>).
Proof.
  intros F (N1 & N2 & N3). split_and!; [exact N1| |exact N3]. intros t' d X. change (alter f t (image_publishing s) !! t' = Some d) in X.
  apply lookup_alter_Some in X as [(<- & d' & X & ->)|[_ X]]; [rewrite F|]; by eapply N2.
Qed.
Lemma no_temps_no_publishing t s : no_temps s -> no_temps (no_publishing t s).
Proof.
  intros (N1 & N2 & N3). split_and!; [exact N1| |exact N3]. intros t' d X. change (delete t (image_publishing s) !! t' = Some d) in X.
  apply lookup_delete_Some in X as [_ X]. by eapply N2.
Qed.
Definition no_manifest (d : ImageDir) : ImageDir := d <| im_manifest := None |>.
Lemma cleanup_publication_runs s0 t s :
  good s0 s -> healthy s = true -> runs s (cleanup_image_publication t) (Ok tt) (no_publishing t (no_staging t s)) (good s0).
Proof.
  intros G E. set (s1 := no_staging t s).
  assert (good s0 s1) as G1 by (eapply good_step; [exact G|apply tame_no_staging|done]).
  unfold cleanup_image_publication. eapply (running_bind _ s1).
  { eapply running_eq; [apply delete_subvolume_runs; [done|apply lookup_delete_eq|done|exact G1]|done|].
    cbn [look staging_place]. destruct (image_staging s !! t) eqn:X; [done|]. symmetry. by apply no_staging_id. }
  eapply running_bind; [by apply path_state_runs|]. destruct (image_publishing s1 !! t) as [d|] eqn:X; [|rewrite no_publishing_id by done; apply running_ret].
  set (s2 := s1 <| image_publishing := alter (set_root None) t (image_publishing s1) |>).
  assert (good s0 s2) as G2 by (eapply good_step; [exact G1|by apply tame_publishing_alter|by apply no_temps_publishing]).
  assert (image_publishing s2 !! t = Some (set_root None d)) as X2 by (change (alter (set_root None) t (image_publishing s1) !! t = Some (set_root None d)); by rewrite lookup_alter_eq, X).
  eapply (running_bind _ s2).
  { eapply running_eq; [apply delete_subvolume_runs; [done|by change (image_publishing s2 !! t ≫= im_root = None); rewrite X2|done|exact G2]|done|].
    cbn [look publishing_root]. rewrite X. cbn [mbind option_bind]. destruct (im_root d) eqn:R; [done|]. unfold s2. rewrite alter_id; [by destruct s1|].
    rewrite X. intros ? [= <-]. unfold set_root. rewrite <-R. by destruct d. }
  set (s3 := s2 <| image_publishing := alter no_manifest t (image_publishing s2) |>).
  assert (good s0 s3) as G3 by (eapply good_step; [exact G2|by apply tame_publishing_alter|by apply no_temps_publishing]).
  assert (image_publishing s3 !! t = Some (no_manifest (set_root None d))) as X3 by (change (alter no_manifest t (image_publishing s2) !! t = Some (no_manifest (set_root None d))); by rewrite lookup_alter_eq, X2).
  eapply (running_bind _ s3).
  { eapply running_eq; [apply remove_file_runs; [done|exact G3]|done|]. cbn beta. rewrite X2. cbn [mbind option_bind].
    destruct (im_manifest (set_root None d)) eqn:R; [done|]. unfold s3. rewrite alter_id; [by destruct s2|].
    rewrite X2. intros ? [= <-]. unfold no_manifest. rewrite <-R. by destruct d. }
  assert (no_publishing t s1 = no_publishing t s3) as EQ.
  { change (s1 <| image_publishing := delete t (image_publishing s1) |>
      = s1 <| image_publishing := delete t (alter no_manifest t (alter (set_root None) t (image_publishing s1))) |>). by rewrite !delete_alter_eq. }
  rewrite EQ. apply (remove_directory_runs s3 _ _ _ _ _ (no_manifest (set_root None d))); [exact X3| |done|].
  - destruct G1 as [[D1 _] (_ & N & _)]. destruct (d_publishing _ _ D1 t d X) as [_ Z]. unfold empty_image_dir. cbn. by rewrite Z, (N t d X).
  - eapply good_step; [exact G3|apply tame_no_publishing|apply no_temps_no_publishing].
Qed.

(** ** Seeds and deleted images *)
Definition no_seed (g : bytes) s : Store := s <| seeds := delete g (seeds s) |>.
Lemma no_seed_id g s : seeds s !! g = None -> no_seed g s = s.
Proof. intros H. unfold no_seed. rewrite delete_id by done. by destruct s. Qed.
Lemma good_seeds s0 s g x : good s0 s -> unnamed g s -> (forall g', g' <> g -> x !! g' = seeds s !! g') -> good s0 (s <| seeds := x |>).
Proof. intros G U X. eapply good_step; [exact G|by eapply tame_seeds|done]. Qed.
Lemma delete_generation_runs (Y : Store -> Prop) g s :
  (forall x, (forall g', g' <> g -> x !! g' = seeds s !! g') -> Y (s <| seeds := x |>)) -> Y s -> healthy s = true ->
  runs s (delete_seed_generation g) (Ok tt) (no_seed g s) Y.
Proof.
  intros HY H0 E. eapply running_bind; [by apply path_state_runs|]. destruct (seeds s !! g) as [d|] eqn:X; [|rewrite no_seed_id by done; apply running_ret].
  set (f1 := fun d : SeedDir => d <| sd_workspace := None |>). set (f2 := fun d : SeedDir => d <| sd_root := None |>).
  set (s1 := s <| seeds := alter f1 g (seeds s) |>). set (s2 := s1 <| seeds := alter f2 g (seeds s1) |>).
  assert (forall x, (forall g', g' <> g -> x !! g' = seeds s !! g') -> Y (s1 <| seeds := x |>)) as H1 by exact HY.
  assert (seeds s1 !! g = Some (f1 d)) as X1 by (change (alter f1 g (seeds s) !! g = Some (f1 d)); by rewrite lookup_alter_eq, X).
  assert (seeds s2 !! g = Some (f2 (f1 d))) as X2 by (change (alter f2 g (seeds s1) !! g = Some (f2 (f1 d))); by rewrite lookup_alter_eq, X1).
  assert (Y s1) as G1 by (apply HY; intros; by rewrite lookup_alter_ne).
  assert (Y s2) as G2 by (apply H1; intros; change (seeds s1) with (alter f1 g (seeds s)); by rewrite !lookup_alter_ne).
  eapply (running_bind _ s1).
  { eapply running_eq; [apply delete_subvolume_runs; [done|by change (seeds s1 !! g ≫= sd_workspace = None); rewrite X1|done|exact G1]|done|].
    cbn [look seed_workspace]. rewrite X. cbn [mbind option_bind]. destruct (sd_workspace d) eqn:R; [done|]. unfold s1. rewrite alter_id; [by destruct s|].
    rewrite X. intros ? [= <-]. unfold f1. rewrite <-R. by destruct d. }
  eapply (running_bind _ s2).
  { eapply running_eq; [apply delete_subvolume_runs; [done|by change (seeds s2 !! g ≫= sd_root = None); rewrite X2|done|exact G2]|done|].
    cbn [look seed_root]. rewrite X1. cbn [mbind option_bind]. destruct (sd_root (f1 d)) eqn:R; [done|]. unfold s2. rewrite alter_id; [by destruct s1|].
    rewrite X1. intros ? [= <-]. unfold f2. rewrite <-R. by destruct d. }
  assert (no_seed g s = no_seed g s2) as EQ.
  { change (s <| seeds := delete g (seeds s) |> = s <| seeds := delete g (alter f2 g (alter f1 g (seeds s))) |>). by rewrite !delete_alter_eq. }
  rewrite EQ. apply (remove_directory_runs s2 _ _ _ _ _ (f2 (f1 d))); [exact X2|done|done|].
  fold (no_seed g s2). rewrite <-EQ. apply HY. intros. by rewrite lookup_delete_ne.
Qed.
Definition no_trash (t : bytes) s : Store := s <| trash := delete t (trash s) |>.
(** The seed named by a deleted image goes with it. *)
Definition burn (t : bytes) s : Store :=
  no_trash t (match trash_seed t s with Some m => no_seed (sm_generation m) s | None => s end).
Lemma no_temps_trash t f s : (forall d, im_temps (f d) = im_temps d) -> no_temps s -> no_temps (s <| trash := alter f t (trash s) |>).
Proof.
  intros F (N1 & N2 & N3). split_and!; [exact N1|exact N2|]. intros t' d X. change (alter f t (trash s) !! t' = Some d) in X.
  apply lookup_alter_Some in X as [(<- & d' & X & ->)|[_ X]]; [rewrite F|]; by eapply N3.
Qed.
Lemma good_no_trash s0 t s : good s0 s -> good s0 (no_trash t s).
Proof.
  intros G. eapply good_step; [exact G| |].
  - intros H. apply tame_trash; [| |done].
    + intros t' [d X]. apply lookup_delete_Some in X as [_ X]. eauto.
    + intros t' d m [_ X]%lookup_delete_Some E. unfold trash_seed. by rewrite X.
  - intros (N1 & N2 & N3). split_and!; [exact N1|exact N2|]. intros t' d X. change (delete t (trash s) !! t' = Some d) in X.
    apply lookup_delete_Some in X as [_ X]. by eapply N3.
Qed.
Lemma trash_unnamed t m s : down s -> trash_seed t s = Some m -> unnamed (sm_generation m) s.
Proof. intros H Ht i sm Hi. by eapply (d_trash_seeds _ _ H). Qed.
Definition no_seed_manifest (d : ImageDir) : ImageDir := d <| im_seed := None |>.
Lemma trash_alter_eq s t d f : trash s !! t = Some d -> trash (s <| trash := alter f t (trash s) |>) !! t = Some (f d).
Proof. intros X. change (alter f t (trash s) !! t = Some (f d)). by rewrite lookup_alter_eq, X. Qed.
Lemma trash_alter_id s t d f : trash s !! t = Some d -> f d = d -> s <| trash := alter f t (trash s) |> = s.
Proof. intros X E. rewrite alter_id; [by destruct s|]. rewrite X. intros ? [= <-]. done. Qed.
Lemma good_trash_alter s0 s t f :
  (forall d, im_seed (f d) = im_seed d \/ im_seed (f d) = None) -> (forall d, im_temps (f d) = im_temps d) -> good s0 s ->
  good s0 (s <| trash := alter f t (trash s) |>).
Proof. intros F1 F2 G. eapply good_step; [exact G|by apply tame_trash_alter|by apply no_temps_trash]. Qed.
(** The rest of an image directory without a seed. *)
Lemma delete_tree_rest_runs s0 t s d :
  good s0 s -> healthy s = true -> trash s !! t = Some d -> im_seed d = None ->
  runs s (do! delete_subvolume_if_exists (trash_root t) "delete image generation subvolume";
          do! remove_file_durable (trash_file t "manifest.json") (trash_path t) (fun s => trash s !! t ≫= im_manifest)
                (fun s => s <| trash := alter (fun d => d <| im_manifest := None |>) t (trash s) |>);
          remove_empty_directory (trash_path t) (RootPath "trash") (fun s => trash s !! t) empty_image_dir
            (fun s => s <| trash := delete t (trash s) |>)) (Ok tt) (no_trash t s) (good s0).
Proof.
  intros G E X Z. set (s1 := s <| trash := alter (set_root None) t (trash s) |>). set (s2 := s1 <| trash := alter no_manifest t (trash s1) |>).
  pose proof (trash_alter_eq s t d (set_root None) X : trash s1 !! t = _) as X1.
  pose proof (trash_alter_eq s1 t _ no_manifest X1 : trash s2 !! t = _) as X2.
  assert (good s0 s1) as G1 by (apply good_trash_alter; auto). assert (good s0 s2) as G2 by (apply good_trash_alter; auto).
  eapply (running_bind _ s1).
  { eapply running_eq; [apply delete_subvolume_runs; [done|by change (trash s1 !! t ≫= im_root = None); rewrite X1|done|exact G1]|done|].
    cbn [look trash_root]. rewrite X. cbn [mbind option_bind]. destruct (im_root d) eqn:R; [done|]. symmetry. apply (trash_alter_id s t d); [done|].
    unfold set_root. rewrite <-R. by destruct d. }
  eapply (running_bind _ s2).
  { eapply running_eq; [apply remove_file_runs; [done|exact G2]|done|]. cbn beta. rewrite X1. cbn [mbind option_bind].
    destruct (im_manifest (set_root None d)) eqn:R; [done|]. symmetry. apply (trash_alter_id s1 t (set_root None d)); [done|].
    unfold no_manifest. rewrite <-R. by destruct d. }
  assert (no_trash t s = no_trash t s2) as EQ.
  { change (s <| trash := delete t (trash s) |> = s <| trash := delete t (alter no_manifest t (alter (set_root None) t (trash s))) |>). by rewrite !delete_alter_eq. }
  rewrite EQ. apply (remove_directory_runs s2 _ _ _ _ _ (no_manifest (set_root None d))); [exact X2| |done|].
  - destruct G as [_ (_ & _ & N)]. unfold empty_image_dir. cbn. by rewrite Z, (N t d X).
  - fold (no_trash t s2). rewrite <-EQ. by apply good_no_trash.
Qed.
Lemma delete_tree_runs s0 t s :
  good s0 s -> healthy s = true -> runs s (delete_image_tree t) (Ok tt) (burn t s) (good s0).
Proof.
  intros G E. eapply running_bind; [by apply path_state_runs|]. unfold burn. destruct (trash s !! t) as [d|] eqn:X.
  - assert (trash_seed t s = im_seed d) as TS by (unfold trash_seed; by rewrite X). eapply running_bind; [by apply path_state_runs|]. rewrite TS.
    destruct (im_seed d) as [m|] eqn:Z.
    + pose proof (trash_unnamed _ _ _ (good_down _ _ G) TS) as U.
      set (s1 := no_seed (sm_generation m) s). set (s2 := s1 <| trash := alter no_seed_manifest t (trash s1) |>).
      assert (good s0 s1) as G1 by (apply (good_seeds s0 s (sm_generation m)); [done|done|intros; by rewrite lookup_delete_ne]).
      assert (good s0 s2) as G2 by (apply good_trash_alter; auto).
      eapply (running_bind _ s2).
      * eapply running_bind; [apply read_json_runs; [exact TS|done]|]. eapply (running_bind _ s1).
        -- apply delete_generation_runs; [|done|done]. intros x Hx. by apply (good_seeds s0 s (sm_generation m)).
        -- eapply running_eq; [apply remove_file_runs; [done|exact G2]|done|]. by change (trash_seed t s1) with (trash_seed t s); rewrite TS.
      * assert (no_trash t s1 = no_trash t s2) as EQ.
        { change (s1 <| trash := delete t (trash s1) |> = s1 <| trash := delete t (alter no_seed_manifest t (trash s1)) |>). by rewrite delete_alter_eq. }
        rewrite EQ. eapply (delete_tree_rest_runs s0 t s2 (no_seed_manifest d)); [done|done| |done]. by apply (trash_alter_eq s1).
    + eapply (running_bind _ s); [apply running_ret|]. by apply (delete_tree_rest_runs s0 t s d).
  - unfold trash_seed. rewrite X. cbn [mbind option_bind]. unfold no_trash. rewrite delete_id by done. eapply running_eq; [apply running_ret|done|by destruct s].
Qed.
(** The image moves to the trash, unless it has. *)
Definition hidden (t i : bytes) s : Store :=
  match trash s !! t, images s !! i with None, Some d => hide_image t i d s | _, _ => s end.
Lemma no_temps_hide t i d s : images s !! i = Some d -> no_temps s -> no_temps (hide_image t i d s).
Proof.
  intros X (N1 & N2 & N3). split_and!; [|exact N2|].
  - intros j d' Y. change (delete i (images s) !! j = Some d') in Y. apply lookup_delete_Some in Y as [_ Y]. by eapply N1.
  - intros t' d' Y. change (<[t:=d]> (trash s) !! t' = Some d') in Y. apply lookup_insert_Some in Y as [[_ <-]|[_ Y]]; [by eapply N1|by eapply N3].
Qed.
Lemma continue_delete_image_runs s0 t i m s :
  good s0 s -> healthy s = true -> transactions s !! t = Some m -> operation m = DeleteImage i ->
  runs s (continue_delete_image t i) (Ok tt) (burn t (hidden t i s)) (good s0) /\ good s0 (burn t (hidden t i s)).
Proof.
  intros G E Hm Ho. assert (good s0 (hidden t i s)) as G1.
  { unfold hidden. destruct (trash s !! t); [done|]. destruct (images s !! i) as [d|] eqn:X; [|done].
    eapply good_step; [exact G|intros; by eapply tame_hide|by apply no_temps_hide]. }
  assert (healthy (hidden t i s) = true) as E1 by (unfold hidden; by repeat case_match).
  assert (good s0 (burn t (hidden t i s))) as G2.
  { unfold burn. apply good_no_trash. destruct (trash_seed t (hidden t i s)) eqn:TS; [|done]. apply (good_seeds _ _ (sm_generation s1)); [done| |].
    - eapply trash_unnamed; [by eapply good_down|done].
    - intros. by rewrite lookup_delete_ne. }
  split; [|exact G2]. unfold continue_delete_image. eapply running_bind; [by apply path_state_runs|]. eapply (running_bind _ (hidden t i s)).
  - unfold hidden in *. destruct (trash s !! t); [apply running_ret|]. eapply running_bind; [by apply path_state_runs|].
    destruct (images s !! i) as [d|]; [|apply running_ret]. eapply running_bind; [by apply running_syscall|].
    eapply running_bind; [by apply sync_runs|]. by apply sync_runs.
  - eapply running_bind; [by apply delete_tree_runs|]. apply commit_runs; [|done].
    unfold burn. destruct (trash_seed t (hidden t i s)); exact E1.
Qed.

(** ** Pods *)
Definition no_parts (p : bytes) s : Store := s <| pod_parts := filter (fun x => x.1.2 <> p) (pod_parts s) |>.
Definition without (p : bytes) (l : list Part) (m : gmap (Part * bytes) Subvol) : gmap (Part * bytes) Subvol :=
  foldl (fun m part => delete (part, p) m) m l.
Lemma all_of_clear p l s : all_of (map (fun part => clear (part_place part p)) l) s = s <| pod_parts := without p l (pod_parts s) |>.
Proof.
  revert s. induction l as [|part l IH]; intros s; [by destruct s|]. unfold all_of in *. cbn [map foldl]. by rewrite IH.
Qed.
Lemma lookup_without p l m part p' : without p l m !! (part, p') = if decide (p' = p /\ part ∈ l) then None else m !! (part, p').
Proof.
  revert m. induction l as [|x l IH]; intros m; cbn [without foldl].
  - case_decide as D; [|done]. destruct D as [_ D]. by apply elem_of_nil in D.
  - fold (without p l (delete (x, p) m)). rewrite IH. destruct (decide ((x, p) = (part, p'))) as [[= <- <-]|N].
    + rewrite lookup_delete_eq. rewrite (decide_True (P := p = p /\ x ∈ x :: l)) by (split; [done|left]). by case_decide.
    + rewrite lookup_delete_ne by done. apply decide_ext. rewrite elem_of_cons. naive_solver.
Qed.
Lemma without_found p s l :
  (forall part v, pod_parts s !! (part, p) = Some v -> part ∈ l) -> s <| pod_parts := without p l (pod_parts s) |> = no_parts p s.
Proof.
  intros H. unfold no_parts. assert (without p l (pod_parts s) = filter (fun x => x.1.2 <> p) (pod_parts s)) as ->; [|done].
  apply map_eq. intros [part p']. rewrite lookup_without. destruct (decide (p' = p)) as [->|N].
  - rewrite map_lookup_filter_None_2 by (right; intros v _; cbn; naive_solver). case_decide as D; [done|].
    destruct (pod_parts s !! (part, p)) eqn:X; [|done]. apply H in X. naive_solver.
  - rewrite decide_False by naive_solver. destruct (pod_parts s !! (part, p')) as [v|] eqn:X; symmetry.
    + by apply map_lookup_filter_Some_2.
    + apply map_lookup_filter_None_2. by left.
Qed.
Definition cleanup_order : list Part := [Temporary; Docker; Workspace; Root].
Definition found_parts (p : bytes) s : list Part :=
  List.filter (fun part => bool_decide (is_Some (pod_parts s !! (part, p)))) cleanup_order.
Lemma elem_found p s part : part ∈ found_parts p s <-> is_Some (pod_parts s !! (part, p)).
Proof.
  unfold found_parts. rewrite list_elem_of_In, filter_In, <-list_elem_of_In, bool_decide_eq_true. split; [by intros [_ ?]|]. intros H. split; [|done].
  destruct part; repeat (try (by left); right).
Qed.
Lemma good_without s0 p l s : good s0 s -> pods s !! p = None -> good s0 (s <| pod_parts := without p l (pod_parts s) |>).
Proof.
  intros G P. eapply good_step; [exact G| |done]. intros H. apply tame_parts; [..|done].
  - intros part p' [m X] _. rewrite lookup_without, decide_False; [done|]. intros [-> _]. congruence.
  - intros p' i _ [m X] Y. rewrite lookup_without, decide_False; [done|]. intros [-> _]. congruence.
  - intros part p' v. rewrite lookup_without. case_decide; [done|]. apply (sound_parts _ _ (d_sound _ _ H)).
Qed.
Lemma partly_clear p finished l s :
  exists l', partly finished (map (fun part => clear (part_place part p)) l) s = s <| pod_parts := without p l' (pod_parts s) |>.
Proof.
  revert finished s. induction l as [|part l IH]; intros [|[] finished] s; cbn [map partly]; try (exists []; by destruct s).
  - destruct (IH finished (clear (part_place part p) s)) as [l' ->]. by exists (part :: l').
  - apply IH.
Qed.
Lemma cleanup_pod_runs s0 p s :
  good s0 s -> healthy s = true -> pods s !! p = None ->
  runs s (cleanup_pod_subvolumes p) (Ok tt) (no_parts p s) (good s0) /\ good s0 (no_parts p s).
Proof.
  intros G E P. rewrite <-(without_found p s (found_parts p s)) by (intros; apply elem_found; eauto).
  assert (good s0 (s <| pod_parts := without p (found_parts p s) (pod_parts s) |>)) as G1 by by apply good_without.
  split; [|exact G1]. unfold cleanup_pod_subvolumes. eapply (running_bind _ s).
  { apply running_computes; [|done]. apply (computes_gather _ _ _ (fun part => if decide (is_Some (pod_parts s !! (part, p))) then [part] else [])).
    intros part _. eapply computes_step; [by apply there_computes|]. cbn [look part_place]. destruct (pod_parts s !! (part, p)) eqn:X; cbn.
    - rewrite decide_True by eauto. apply computes_ret.
    - rewrite decide_False by by intros [? ?]. apply computes_ret. }
  cbv beta zeta. change [Temporary; Docker; Workspace; Root] with cleanup_order.
  assert (mjoin (map (fun part => if decide (is_Some (pod_parts s !! (part, p))) then [part] else []) cleanup_order) = found_parts p s) as ->.
  { unfold found_parts. induction cleanup_order as [|part l IH]; [done|]. cbn. destruct (decide _) as [Y|Y].
    - rewrite bool_decide_true by done. cbn. by f_equal.
    - rewrite bool_decide_false by done. exact IH. }
  destruct (found_parts p s) as [|x l] eqn:F.
  - eapply running_eq; [by apply commit_runs|done|]. by destruct s.
  - rewrite <-F in *. clear x l F. eapply (running_bind _ (s <| pod_parts := without p (found_parts p s) (pod_parts s) |>)).
    + eapply running_eq; [apply run_btrfs_runs; [done|]|done|apply all_of_clear]. intros b. destruct (partly_clear p b (found_parts p s) s) as [l' ->]. by apply good_without.
    + set (s1 := s <| pod_parts := _ |>) in *.
      assert (forall l, (forall part, part ∈ l -> part ∈ found_parts p s) -> runs s1 (for_each (fun part =>
        do v <- path_state (pod_path part p) (look (part_place part p));
        match v with
        | Some _ => raise (CorruptManifest (pod_path part p) "btrfs reported success without deleting the pod subvolume")
        | None => ret tt
        end) l) (Ok tt) s1 (good s0)) as L; [|by apply L].
      induction l as [|part l IH]; intros HL; cbn [for_each]; [apply running_ret|]. eapply running_bind; [|apply IH; intros; apply HL; by right].
      eapply running_bind; [by apply path_state_runs|]. cbn [look part_place].
      change (pod_parts s1) with (without p (found_parts p s) (pod_parts s)). rewrite lookup_without, decide_True by (split; [done|apply HL; left]). apply running_ret.
Qed.
Lemma recover_create_pod_runs s0 p i s :
  good s0 s -> healthy s = true -> CreatePod p i ∈ pending s ->
  let s' := match pods s !! p with Some _ => s | None => no_parts p s end in
  runs s (recover_create_pod config_len p i) (Ok tt) s' (good s0) /\ good s0 s'.
Proof.
  intros G E C. cbn zeta. pose proof (good_down _ _ G) as D. pose proof (d_sound _ _ D) as S. destruct (pods s !! p) as [m|] eqn:P.
  - split; [|done]. destruct (d_creating _ _ D p i m C P) as [I A]. destruct (sound_pods _ _ S _ _ P) as (_ & Q & _ & HI).
    destruct (image_of_found config_len s S _ HI) as [g Hg]. eapply running_bind; [by apply path_state_runs|]. cbn beta. rewrite P.
    eapply running_bind; [apply running_computes; [apply (read_pod_manifest_computes config_len); [done|done|exact P|]|done]|].
    { by rewrite !bool_decide_true. }
    eapply running_bind; [apply running_computes; [apply (computes_gather _ _ _ (fun part => Some tt))|done]|].
    { intros part _. eapply computes_eq; [by apply there_computes|]. cbn [look part_place]. by destruct (A part) as [v ->]. }
    cbn. eapply (running_bind _ s); [|apply running_ret]. eapply running_eq; [by eapply (pod_unlocked_runs _ s p m g); [..|intros X; destruct (A Temporary); congruence]|done|].
    unfold with_temporary. by destruct (A Temporary) as [v ->].
  - destruct (cleanup_pod_runs s0 p s) as [R G1]; [done..|]. split; [|done]. eapply running_bind; [by apply path_state_runs|]. cbn beta. by rewrite P.
Qed.
Definition no_pod (p : bytes) s : Store := s <| pods := delete p (pods s) |>.
Lemma continue_delete_pod_runs s0 p s :
  good s0 s -> healthy s = true -> DeletePod p ∈ pending s ->
  runs s (continue_delete_pod p) (Ok tt) (no_parts p (no_pod p s)) (good s0) /\ good s0 (no_parts p (no_pod p s)).
Proof.
  intros G E C. assert (good s0 (no_pod p s)) as G1 by (eapply good_step; [exact G|by apply tame_no_pod|done]).
  destruct (cleanup_pod_runs s0 p (no_pod p s)) as [R G2]; [done|done|apply lookup_delete_eq|]. split; [|done].
  unfold continue_delete_pod. eapply (running_bind _ (no_pod p s)); [|exact R]. eapply running_eq; [apply remove_file_runs; [done|exact G1]|done|].
  cbn beta. destruct (pods s !! p) eqn:P; [done|]. unfold no_pod. rewrite delete_id by done. by destruct s.
Qed.

(** ** The transactions *)
Record resumed s0 s : Prop := {
  r_good : good s0 s; r_healthy : healthy s = true; r_layout : layout s; r_opened : is_Some (store_manifest s)
}.
Lemma finish_runs s0 t m s :
  good s0 s -> transactions s !! t = Some m -> settled s t -> runs s (finish_transaction t) (Ok tt) (drop_transaction t s) (good s0) /\ good s0 (drop_transaction t s).
Proof.
  intros G Hm Z. assert (good s0 (drop_transaction t s)) as G1 by (eapply good_step; [exact G|by apply tame_drop|done]).
  split; [|done]. eapply running_eq; [apply remove_file_runs; [done|exact G1]|done|]. cbn beta. by rewrite Hm.
Qed.
Lemma no_stage s t m : down s -> transactions s !! t = Some m ->
  match operation m with StageImage | PublishImage _ => False | _ => True end -> image_staging s !! t = None /\ image_publishing s !! t = None.
Proof.
  intros D Hm O. split.
  - destruct (image_staging s !! t) eqn:X; [|done]. destruct (d_staging _ _ D t) as (m' & Hm' & O'); [eauto|]. rewrite Hm in Hm'. injection Hm' as <-.
    by destruct (operation m).
  - destruct (image_publishing s !! t) eqn:X; [|done]. destruct (d_publishing _ _ D t _ X) as [(m' & Hm' & O') _]. rewrite Hm in Hm'. injection Hm' as <-.
    by destruct (operation m).
Qed.
Lemma no_trash_entry s t m : down s -> transactions s !! t = Some m ->
  match operation m with DeleteImage _ => False | _ => True end -> trash s !! t = None.
Proof.
  intros D Hm O. destruct (trash s !! t) eqn:X; [|done]. destruct (d_trash _ _ D t) as (m' & j & Hm' & O' & _); [eauto|].
  rewrite Hm in Hm'. injection Hm' as <-. by rewrite O' in O.
Qed.
Lemma burn_keeps t i s (P : Store -> Prop) :
  P s -> (forall x d, P x -> P (hide_image t i d x)) -> (forall x g, P x -> P (no_seed g x)) -> (forall x, P x -> P (no_trash t x)) ->
  P (burn t (hidden t i s)).
Proof.
  intros P0 P1 P2 P3. unfold burn. apply P3. assert (P (hidden t i s)) as P4 by (unfold hidden; repeat case_match; auto).
  destruct (trash_seed t (hidden t i s)); auto.
Qed.
Lemma burnt t i m s : down s -> transactions s !! t = Some m -> operation m = DeleteImage i ->
  trash (burn t (hidden t i s)) !! t = None /\ images (burn t (hidden t i s)) !! i = None /\ transactions (burn t (hidden t i s)) = transactions s.
Proof.
  intros D Hm O. assert (forall x, trash (burn t x) !! t = None) as X1 by (intros x; unfold burn; destruct (trash_seed t x); apply lookup_delete_eq).
  assert (forall x, images (burn t x) = images x) as X2 by (intros x; unfold burn; by destruct (trash_seed t x)).
  assert (forall x, transactions (burn t x) = transactions x) as X3 by (intros x; unfold burn; by destruct (trash_seed t x)).
  split_and!; [apply X1|rewrite X2|rewrite X3]; unfold hidden; destruct (trash s !! t) eqn:T; try done.
  - destruct (d_trash _ _ D t) as (m' & i' & Hm' & O' & ?); [eauto|]. rewrite Hm in Hm'. injection Hm' as <-. rewrite O in O'. by injection O' as <-.
  - destruct (images s !! i) as [d|] eqn:I; [apply lookup_delete_eq|done].
  - by destruct (images s !! i).
Qed.
Lemma recover_transaction_runs s0 t m s :
  resumed s0 s -> transactions s !! t = Some m ->
  exists s', runs s (recover_transaction config_len (t, m)) (Ok tt) s' (good s0) /\ resumed s0 s' /\ transactions s' = delete t (transactions s).
Proof.
  intros [G E L O] Hm. pose proof (good_down _ _ G) as D. pose proof (d_sound _ _ D) as S.
  assert (forall s1 (k : op bool) b, runs s k (Ok b) s1 (good s0) -> good s0 s1 -> healthy s1 = true -> layout s1 -> is_Some (store_manifest s1) ->
    transactions s1 = transactions s -> settled s1 t ->
    exists s', runs s (do needs_commit <- k; do! (if (needs_commit : bool) then commit_transaction else ret tt); finish_transaction t) (Ok tt) s' (good s0)
      /\ resumed s0 s' /\ transactions s' = delete t (transactions s)) as K.
  { intros s1 k b R0 G1 E1 L1 O1 T Z. rewrite <-T in Hm. destruct (finish_runs s0 t m s1 G1 Hm Z) as [R G2]. exists (drop_transaction t s1). split; [|split].
    - eapply running_bind; [exact R0|]. eapply (running_bind _ s1); [|exact R]. destruct b; [by apply commit_runs|apply running_ret].
    - by constructor.
    - by rewrite <-T. }
  assert (good s0 (no_publishing t (no_staging t s))) as GP.
  { eapply good_step; [eapply good_step; [exact G|apply tame_no_staging|done]|apply tame_no_publishing|apply no_temps_no_publishing]. }
  pose proof (cleanup_publication_runs s0 t s G E) as CP.
  assert (operation m = StageImage \/ (exists i, operation m = PublishImage i) -> settled (no_publishing t (no_staging t s)) t) as ZP.
  { intros HO. split_and!; [apply lookup_delete_eq|apply lookup_delete_eq| |].
    - change (trash s !! t = None). apply (no_trash_entry s t m D Hm). by destruct HO as [-> |[i ->]].
    - intros m' Hm'. change (transactions s !! t = Some m') in Hm'. rewrite Hm in Hm'. injection Hm' as <-. by destruct HO as [-> |[i ->]]. }
  unfold recover_transaction. cbn [fst snd]. destruct (operation m) as [|i|p i|p|i] eqn:HO.
  - eapply (K (no_publishing t (no_staging t s))); try done; [|by apply ZP; left]. eapply running_bind; [exact CP|apply running_ret].
  - eapply (K (no_publishing t (no_staging t s))); try done; [|apply ZP; eauto]. pose proof (image_unlocked_computes config_len crash_event I s S i) as C.
    destruct (image_of s i) as [g|e|] eqn:Hg.
    + eapply running_bind; [apply running_attempt, running_computes; [exact C|done]|]. eapply running_bind; [exact CP|apply running_ret].
    + assert (e = ImageNotFound i) as -> by (unfold image_of in Hg; case_match; congruence).
      eapply running_bind; [apply running_handled, running_computes; [exact C|done]|]. eapply running_bind; [exact CP|apply running_ret].
    + unfold image_of in Hg. case_match; congruence.
  - destruct (recover_create_pod_runs s0 p i s) as [R G1]; [done|done|apply elem_pending; eauto|].
    destruct (no_stage s t m D Hm) as [? ?]; [by rewrite HO|]. assert (trash s !! t = None) by (apply (no_trash_entry s t m D Hm); by rewrite HO).
    eapply (K (match pods s !! p with Some _ => s | None => no_parts p s end)); [eapply running_bind; [exact R|apply running_ret]|exact G1|..]; try by destruct (pods s !! p).
    assert (forall m', transactions s !! t = Some m' -> operation m' = CreatePod p i) as X by congruence.
    destruct (pods s !! p); (split_and!; [done|done|done|]; intros m' Hm'; by rewrite (X m' Hm')).
  - destruct (continue_delete_pod_runs s0 p s) as [R G1]; [done|done|apply elem_pending; eauto|].
    destruct (no_stage s t m D Hm) as [? ?]; [by rewrite HO|]. assert (trash s !! t = None) by (apply (no_trash_entry s t m D Hm); by rewrite HO).
    eapply (K (no_parts p (no_pod p s))); [eapply running_bind; [exact R|apply running_ret]|exact G1|done..|].
    split_and!; [done|done|done|]. intros m' Hm'. change (transactions s !! t = Some m') in Hm'. rewrite Hm in Hm'. injection Hm' as <-. rewrite HO. apply lookup_delete_eq.
  - destruct (continue_delete_image_runs s0 t i m s) as [R G1]; [done..|]. destruct (no_stage s t m D Hm) as [? ?]; [by rewrite HO|].
    destruct (burnt t i m s D Hm HO) as (B1 & B2 & B3). destruct (d_deleting _ _ D i) as [[U1 U2] _]; [apply elem_pending; eauto|].
    pose proof (burn_keeps t i s) as F.
    eapply (K (burn t (hidden t i s))).
    + eapply running_bind; [apply running_computes; [by apply (image_reference_computes config_len)|done]|]. cbn beta. rewrite unreferenced_reference by done.
      eapply running_bind; [exact R|apply running_ret].
    + exact G1.
    + by apply (F (fun x => healthy x = true)).
    + by apply (F layout).
    + by apply (F (fun x => is_Some (store_manifest x))).
    + exact B3.
    + split_and!; [by apply (F (fun x => image_staging x !! t = None))|by apply (F (fun x => image_publishing x !! t = None))|done|].
      rewrite B3, Hm. intros m' [= <-]. by rewrite HO.
Qed.
Lemma recover_loop s0 l s :
  resumed s0 s -> (forall t m, transactions s !! t = Some m <-> (t, m) ∈ l) -> NoDup l.*1 ->
  exists s', runs s (for_each (recover_transaction config_len) l) (Ok tt) s' (good s0) /\ resumed s0 s' /\ transactions s' = ∅.
Proof.
  revert s. induction l as [|[t m] l IH]; intros s R X N; cbn [for_each].
  - exists s. split; [apply running_ret|]. split; [done|]. apply map_eq. intros t. rewrite lookup_empty. destruct (transactions s !! t) eqn:Y; [|done].
    apply X in Y. by apply elem_of_nil in Y.
  - apply NoDup_cons in N as [N1 N2]. destruct (recover_transaction_runs s0 t m s R) as (s1 & R1 & R2 & T); [apply X; left|].
    destruct (IH s1) as (s2 & R3 & R4 & T2); [done| |done|].
    + intros t' m'. rewrite T, lookup_delete_Some, X, elem_of_cons. split; [intros [? [[= -> ->]|?]]; done|]. intros H. split; [|by right].
      intros <-. apply N1. by apply (list_elem_of_fmap_2 fst _ (t, m')).
    + exists s2. split; [|done]. by eapply running_bind.
Qed.
(** ** Orphaned subvolumes and temporary files *)
Definition no_orphans s : Prop := forall part p v, pod_parts s !! (part, p) = Some v -> is_Some (pods s !! p).
Lemma resumed_no_parts s0 p s : resumed s0 s -> good s0 (no_parts p s) -> resumed s0 (no_parts p s).
Proof. intros [? ? ? ?] ?. by constructor. Qed.
Lemma orphans_loop s0 l s :
  resumed s0 s -> transactions s = ∅ -> (forall part p v, pod_parts s !! (part, p) = Some v -> is_Some (pods s !! p) \/ p ∈ l) ->
  exists s', runs s (for_each (fun pod => do v <- path_state (pod_manifest_path pod) (fun s => pods s !! pod);
                                          match v with None => cleanup_pod_subvolumes pod | Some _ => ret tt end) l) (Ok tt) s' (good s0)
    /\ resumed s0 s' /\ transactions s' = ∅ /\ no_orphans s'.
Proof.
  revert s. induction l as [|p l IH]; intros s R T X; cbn [for_each].
  - exists s. split_and!; [apply running_ret|done|done|]. intros part p v H. destruct (X part p v H) as [|Y]; [done|]. by apply elem_of_nil in Y.
  - destruct (pods s !! p) as [m|] eqn:P.
    + destruct (IH s R T) as (s' & R1 & R2).
      { intros part p' v H. destruct (X part p' v H) as [|[-> |]%elem_of_cons]; [by left|rewrite P; left; eauto|by right]. }
      exists s'. split; [|done]. eapply running_bind; [|exact R1]. eapply running_bind; [apply path_state_runs, R|]. cbn beta. rewrite P. apply running_ret.
    + destruct (cleanup_pod_runs s0 p s) as [R1 G1]; [apply R|apply R|done|]. destruct (IH (no_parts p s)) as (s' & R2 & R3).
      * by apply resumed_no_parts.
      * done.
      * intros part p' v H. apply map_lookup_filter_Some in H as [H H']. cbn in H'.
        destruct (X part p' v H) as [|[-> |]%elem_of_cons]; [by left|done|by right].
      * exists s'. split; [|done]. eapply running_bind; [|exact R2]. eapply running_bind; [apply path_state_runs, R|]. cbn beta. rewrite P. exact R1.
Qed.
Lemma elem_parts_of part s p : p ∈ parts_of part s <-> is_Some (pod_parts s !! (part, p)).
Proof.
  unfold parts_of. rewrite list_elem_of_In, in_map_iff. split.
  - intros ([[part' p'] v] & <- & [H D]%filter_In). apply bool_decide_eq_true in D. cbn in *. subst.
    apply list_elem_of_In, elem_of_map_to_list in H. eauto.
  - intros [v H]. exists ((part, p), v). split; [done|]. apply filter_In. split; [|by apply bool_decide_eq_true].
    by apply list_elem_of_In, elem_of_map_to_list.
Qed.
Lemma orphans_runs s0 s :
  resumed s0 s -> transactions s = ∅ ->
  exists s', runs s cleanup_orphaned_pod_subvolumes (Ok tt) s' (good s0) /\ resumed s0 s' /\ transactions s' = ∅ /\ no_orphans s'.
Proof.
  intros R T. destruct (orphans_loop s0 (sorted_set (mjoin (map (fun part => parts_of part s) all_parts))) s R T) as (s' & R1 & R2).
  - intros part p v H. right. unfold sorted_set. rewrite sort_by_perm, elem_of_remove_dups. apply list_elem_of_join.
    exists (parts_of part s). split; [apply elem_parts_of; eauto|]. apply list_elem_of_In, (in_map (fun part => parts_of part s)), list_elem_of_In, elem_parts.
  - exists s'. split; [|exact R2]. eapply (running_bind _ s); [|exact R1]. apply running_computes; [|apply R].
    apply (computes_gather _ _ _ (fun part => parts_of part s)). intros part _.
    eapply computes_step; [apply read_dir_computes; [done|apply layout_in; [apply R|by destruct part]]|].
    eapply computes_eq; [apply (computes_gather _ _ _ id)|by rewrite map_id]. intros p [v H]%elem_parts_of.
    eapply computes_step; [by apply computes_same|]. unfold checked_id. rewrite (sound_parts _ _ (d_sound _ _ (good_down _ _ (r_good _ _ R))) _ _ _ H). apply computes_ret.
Qed.
Lemma remove_temps_runs (Y : Store -> Prop) p d n s :
  Y s -> (forall x, Y x -> Y (change_temps Nat.pred d x)) -> runs s (remove_temps p d n) (Ok tt) (Nat.iter n (change_temps Nat.pred d) s) Y.
Proof.
  intros G C. revert s G. induction n as [|n IH]; intros s G; cbn [remove_temps]; [apply running_ret|]. rewrite Nat.iter_succ_r.
  eapply running_bind; [by apply (running_syscall _ _ same)|]. eapply running_bind; [by apply running_syscall|]. apply IH. by apply C.
Qed.
Lemma good_temps s0 d x : match d with InImage _ | InPublishing _ => False | _ => True end -> good s0 x -> good s0 (change_temps Nat.pred d x).
Proof. intros N Gx. eapply good_step; [exact Gx|apply tame_temps|]. by destruct d. Qed.
Lemma iter_temps (P : Store -> Prop) d n s : P s -> (forall x, P x -> P (change_temps Nat.pred d x)) -> P (Nat.iter n (change_temps Nat.pred d) s).
Proof. intros H C. induction n; cbn; auto. Qed.
Lemma cleanup_temps_runs s0 p d count s :
  resumed s0 s -> match d with InPods | InTransactions => True | _ => False end ->
  exists s', runs s (cleanup_atomic_temps p d count) (Ok tt) s' (good s0) /\ resumed s0 s' /\ transactions s' = transactions s.
Proof.
  intros R D. destruct R as [G E L O]. assert (forall x, good s0 x -> good s0 (change_temps Nat.pred d x)) as C by (intros; apply good_temps; [by destruct d|done]).
  pose proof (remove_temps_runs (good s0) p d (count s) s G C) as R1. pose proof (iter_temps (good s0) d (count s) s G C) as G1.
  exists (Nat.iter (count s) (change_temps Nat.pred d) s). split_and!.
  - eapply running_bind; [by apply (running_syscall _ _ same)|]. eapply running_bind; [apply running_computes; [apply computes_get|done]|].
    eapply running_bind; [exact R1|]. destruct (Nat.eqb _ _); [apply running_ret|by apply sync_runs].
  - constructor; [done|..]; [apply (iter_temps (fun x => healthy x = true))|apply (iter_temps layout)|apply (iter_temps (fun x => is_Some (store_manifest x)))]; try done; by destruct d.
  - apply (iter_temps (fun x => transactions x = transactions s)); [done|by destruct d].
Qed.
Lemma recover_runs s0 s :
  resumed s0 s -> exists s', runs s (recover config_len) (Ok tt) s' (good s0) /\ resumed s0 s' /\ transactions s' = ∅ /\ no_orphans s'.
Proof.
  intros R. destruct (cleanup_temps_runs s0 (RootPath "pods") InPods pod_temps s R I) as (s1 & R1 & R1' & _).
  destruct (cleanup_temps_runs s0 (RootPath "transactions") InTransactions transaction_temps s1 R1' I) as (s2 & R2 & R2' & _).
  destruct (recover_loop s0 (transaction_list s2) s2 R2') as (s3 & R3 & R3' & T3).
  { intros t m. by rewrite elem_transactions. }
  { apply transaction_list_nodup. }
  destruct (orphans_runs s0 s3 R3' T3) as (s4 & R4 & R4'). exists s4. split; [|exact R4'].
  eapply running_bind; [exact R1|]. eapply running_bind; [exact R2|].
  eapply running_bind; [apply running_computes; [apply (read_transactions_computes config_len); [done|apply (d_sound _ _ (good_down _ _ (r_good _ _ R2')))|apply R2']|apply R2']|].
  eapply running_bind; [exact R3|exact R4].
Qed.

(** ** Opening *)
Definition store_format : StoreManifest := {| store_format_version := STORE_FORMAT_VERSION |}.
(** The store has been initialized, or nothing but temporary files of its manifest is there. *)
Definition adoptable s : Prop :=
  store_manifest s = Some store_format \/ store_manifest s = None /\ root_empty (s <| init_temps := O |>) = true.
Record crashed s : Prop := { c_down : down s; c_temps : no_temps s; c_store : adoptable s }.
(** A store that a process has opened. *)
Record up s : Prop := {
  u_down : down s; u_temps : no_temps s; u_healthy : healthy s = true; u_layout : layout s; u_store : store_manifest s = Some store_format;
  u_stage : forall t m, transactions s !! t = Some m -> operation m = StageImage;
  u_publishing : image_publishing s = ∅; u_trash : trash s = ∅; u_orphans : no_orphans s
}.
Definition lost s0 s : Prop := crashed s /\ durable s = durable s0.
Lemma good_lost s0 s : store_manifest s0 = Some store_format -> good s0 s -> lost s0 s.
Proof. intros E [(D & V & M) N]. split; [|done]. constructor; [done|done|]. left. congruence. Qed.
Lemma directories_runs s0 l s :
  store_manifest s0 = Some store_format -> good s0 s -> healthy s = true ->
  exists s', runs s (for_each ensure_managed_directory l) (Ok tt) s' (good s0) /\ good s0 s' /\ healthy s' = true
    /\ directories s ⊆ directories s' /\ Forall (fun n => n ∈ directories s') l.
Proof.
  intros M. revert s. induction l as [|n l IH]; intros s G E; cbn [for_each]; [exists s; split_and!; [apply running_ret|done|done|done|constructor]|].
  set (s1 := if decide (n ∈ directories s) then s else s <| directories := {[n]} ∪ directories s |>).
  assert (good s0 s1) as G1 by (unfold s1; case_decide; [done|]; eapply good_step; [exact G|by apply tame_elsewhere|done]).
  assert (directories s ⊆ directories s1 /\ n ∈ directories s1) as [D1 D2].
  { unfold s1. case_decide; [done|]. change (directories s ⊆ {[n]} ∪ directories s /\ n ∈ {[n]} ∪ directories s). set_solver. }
  assert (healthy s1 = true) as E1 by (unfold s1; by case_decide).
  destruct (IH s1 G1 E1) as (s2 & R2 & G2 & E2 & D3 & D4). exists s2. split_and!; [|done|done|set_solver|constructor; [set_solver|done]].
  eapply (running_bind _ s1); [|exact R2]. eapply running_bind; [by apply path_state_runs|]. cbn beta. unfold s1 in *. case_decide; [apply running_ret|].
  eapply running_bind; [by apply running_syscall|]. by apply sync_runs.
Qed.
Lemma lost_temps s0 f x : lost s0 x -> lost s0 (change_temps f InStore x).
Proof.
  intros [[D N A] V]. destruct (tame_temps config_len x f InStore D) as (D' & V' & M'). split; [|by rewrite V']. constructor; [done|done|]. exact A.
Qed.
Lemma init_temps_iter n s : init_temps (Nat.iter n (change_temps Nat.pred InStore) s) = Nat.sub (init_temps s) n.
Proof. revert s. induction n as [|n IH]; intros s; [cbn; lia|]. rewrite Nat.iter_succ_r, IH. change (init_temps (change_temps Nat.pred InStore s)) with (Nat.pred (init_temps s)). lia. Qed.
Lemma root_empty_temps s : init_temps s = O -> root_empty (s <| init_temps := O |>) = root_empty s.
Proof. intros E. rewrite <-E. by destruct s. Qed.
Context (store_fits : fits encoded_len (MStore store_format)).
Lemma adopt_runs s :
  crashed s -> healthy s = true ->
  exists s', runs s (adopt_root encoded_len) (Ok tt) s' (lost s)
    /\ lost s s' /\ healthy s' = true /\ store_manifest s' = Some store_format.
Proof.
  intros C E. assert (lost s s) as L by by split. destruct (c_store _ C) as [M|[M R]].
  - exists s. split_and!; try done. eapply running_bind; [by apply path_state_runs|]. rewrite M. apply running_ret.
  - set (s1 := Nat.iter (init_temps s) (change_temps Nat.pred InStore) s).
    assert (lost s s1) as L1 by (apply iter_temps; [done|intros; by apply lost_temps]).
    assert (healthy s1 = true) as E1 by (by apply (iter_temps (fun x => healthy x = true))).
    assert (root_empty s1 = true) as R1.
    { rewrite <-root_empty_temps by (unfold s1; rewrite init_temps_iter; lia). by apply (iter_temps (fun x => root_empty (x <| init_temps := O |>) = true)). }
    set (s2 := s1 <| store_manifest := Some store_format |>).
    assert (lost s s2) as L2.
    { destruct L1 as [[D1 N1 _] V1]. destruct (down_elsewhere config_len s1 s2) as (D2 & F1 & F2); try done. split; [constructor; [done|done|by left]|].
      rewrite <-V1. by apply durable_ext. }
    exists s2. split_and!; try done. eapply running_bind; [by apply path_state_runs|]. rewrite M. eapply (running_bind _ s1).
    + eapply running_bind; [by apply (running_syscall _ _ same)|]. eapply running_bind; [apply running_computes; [apply computes_get|done]|].
      eapply running_bind; [apply remove_temps_runs; [done|intros; by apply lost_temps]|]. by apply sync_runs.
    + eapply running_bind; [by apply (running_syscall _ _ same)|]. eapply running_bind; [apply running_computes; [apply computes_get|done]|].
      unfold same. rewrite R1. cbn [negb]. apply (write_json_runs encoded_len); [exact store_fits|done|done|by apply lost_temps|exact L2].
Qed.
Lemma open_runs s :
  crashed s -> exists s', runs s (open encoded_len config_len) (Ok tt) s' (lost s) /\ up s' /\ view s' = durable s.
Proof.
  intros C. set (s1 := s <| healthy := true |>). assert (tame s s1) as (D1 & V1 & M1) by (apply tame_elsewhere; try done; apply C).
  assert (crashed s1) as C1 by (constructor; [done|apply C|apply C]). destruct (adopt_runs s1 C1 eq_refl) as (s2 & R2 & L2 & E2 & M2).
  assert (forall x, lost s1 x -> lost s x) as W1 by (intros x [? H]; split; [done|by rewrite <-V1]).
  assert (good s2 s2) as G2 by (split; [apply PodDown.tame_refl, L2|apply L2]).
  assert (forall x, good s2 x -> lost s x) as W2.
  { intros x G. apply W1. destruct (good_lost s2 x M2 G) as [? H]. split; [done|]. rewrite H. apply L2. }
  destruct (directories_runs s2 layout_directories s2 M2 G2 E2) as (s3 & R3 & G3 & E3 & _ & L3).
  assert (resumed s2 s3) as R3' by (constructor; [done|done|done|destruct G3 as [(_ & _ & ->) _]; by rewrite M2]).
  destruct (recover_runs s2 s3 R3') as (s4 & R4 & R4' & T4 & O4). destruct R4' as [G4 E4 L4 _]. pose proof (good_down _ _ G4) as D4.
  assert (image_staging s4 = ∅) as S4.
  { apply map_eq. intros t. rewrite lookup_empty. destruct (image_staging s4 !! t) eqn:X; [|done]. destruct (d_staging _ _ D4 t) as (m & Hm & _); [eauto|].
    by rewrite T4, lookup_empty in Hm. }
  assert (image_publishing s4 = ∅) as P4.
  { apply map_eq. intros t. rewrite lookup_empty. destruct (image_publishing s4 !! t) eqn:X; [|done]. destruct (d_publishing _ _ D4 _ _ X) as [(m & Hm & _) _].
    by rewrite T4, lookup_empty in Hm. }
  assert (trash s4 = ∅) as TR4.
  { apply map_eq. intros t. rewrite lookup_empty. destruct (trash s4 !! t) eqn:X; [|done]. destruct (d_trash _ _ D4 t) as (m & j & Hm & _); [eauto|].
    by rewrite T4, lookup_empty in Hm. }
  exists s4. split_and!.
  - unfold open. eapply (running_bind _ s1); [apply hoare_put; by intros ? <-|]. assert (lost s s1) as L1 by (split; [done|done]).
    eapply (running_bind _ s1); [apply (run_btrfs_runs s1 _ []); [done|by intros [|? ?]]|].
    eapply (running_bind _ s1).
    { unfold ensure_quotas_enabled. eapply (hoare_bind _ _ _ _ (fun ev x => crash_event ev /\ s1 = x)); [by apply hoare_event|].
      intros [|b [] |b]; [apply hoare_ret; naive_solver|..]; try (intros w F [X _]; exfalso; exact X). intros w F [_ X]. split; [done|]. cbn. by rewrite <-X. }
    eapply (running_bind _ s3); [|eapply running_weaken; [exact R4|exact W2]].
    unfold initialize_layout. eapply running_weaken; [|exact W1].
    eapply running_bind; [exact R2|]. eapply running_weaken; [|intros x; exact (fun H => H)].
    eapply running_bind; [apply read_json_runs; [exact M2|exact L2]|]. eapply (running_bind _ s2); [apply hoare_outcome; by intros ? <-|].
    eapply running_weaken; [exact R3|]. intros x G. destruct (good_lost s2 x M2 G) as [? H]. split; [done|]. rewrite H. apply L2.
  - constructor; try done; [apply G4| |intros t m; by rewrite T4]. destruct G4 as [(_ & _ & ->) _]. done.
  - assert (durable s4 = durable s) as <-.
    { destruct G4 as [(_ & V4 & _) _]. destruct L2 as [_ V2]. by rewrite V4, V2, V1. }
    unfold durable, surviving, view. by rewrite S4.
Qed.
End recovery.
