(* ===== verification/PodRefine.v ===== *)
(** * The operations implement the view

    When calls run or never return, an operation on an opened store answers what [spec]
    answers and changes the view as [spec] does; where it stops, the durable view is the
    one before the operation or the one after it, in a state that recovery accepts. *)

From S2P Require Import Prelude Lists Text Outage PodTypes PodStore PodReads PodSafe PodOps PodDown PodRecover.

Section refinement.
Context (encoded_len : Manifest -> Z) (config_len : ImageConfig -> Z) (root : bytes).
Implicit Types (s : Store) (v : View).
Local Notation down := (down config_len).
Local Notation tame := (tame config_len).
Local Notation up := (up config_len).
(** A manifest of validated parts, whose encoding is bounded. *)
Definition valid_manifest (m : Manifest) : Prop :=
  match m with
  | MStore m => store_format_version m = STORE_FORMAT_VERSION
  | MImage m => is_image (im_id m) /\ validate_config config_len (im_config m) = Ok tt /\ is_time (im_created_at_unix_ms m)
  | MPod m => is_pod (pm_id m) /\ is_image (pm_image m) /\ is_time (pm_created_at_unix_ms m)
  | MTransaction m =>
      is_unique (transaction_id m)
      /\ match operation m with
         | StageImage => True
         | PublishImage i | DeleteImage i => is_image i
         | CreatePod p i => is_pod p /\ is_image i
         | DeletePod p => is_pod p
         end
  | MSeed m => is_image (sm_image m) /\ is_image (sm_context m) /\ is_unique (sm_generation m)
  | MSelected m => is_image (selected_image_id m)
  end.
Context (manifests_fit : forall m, valid_manifest m -> fits encoded_len m).

(** Between the views before and after an operation. *)
Definition between s v x : Prop :=
  down x /\ store_manifest x = Some store_format /\ (durable x = durable s \/ durable x = surviving v).
Lemma between_refl s v : up s -> between s v s.
Proof. intros U. split_and!; [apply U|apply U|by left]. Qed.
Lemma between_tame s v x y : between s v x -> (down x -> tame x y) -> between s v y.
Proof. intros (D & M & V) T. destruct (T D) as (D' & V' & M'). split_and!; [done|congruence|by rewrite V']. Qed.
Lemma between_temps s v x f d : between s v x -> between s v (change_temps f d x).
Proof. intros B. eapply between_tame; [exact B|apply tame_temps]. Qed.
Lemma between_commit s v x y : between s v x -> down y -> store_manifest y = store_manifest x -> durable y = surviving v -> between s v y.
Proof. intros (_ & M & _) D E V. split_and!; [done|congruence|by right]. Qed.
Lemma view_durable s : view s = (durable s) <| v_staged := image_staging s |>.
Proof. done. Qed.
Lemma between_view s s1 v x : view s1 = view s -> between s1 v x -> between s v x.
Proof. intros E (B1 & B2 & [B3|B3]); split_and!; auto. left. rewrite B3. unfold durable. by rewrite E. Qed.
(** A request and its specification. *)
Definition refines q s : Prop :=
  exists r s', runs s (exec encoded_len config_len root q) r s' (between s (spec root q (view s)).2) /\ up s' /\ spec root q (view s) = (r, view s').
Lemma refines_intro q s r s' v :
  spec root q (view s) = (r, v) -> runs s (exec encoded_len config_len root q) r s' (between s v) -> up s' -> view s' = v -> refines q s.
Proof. intros E R U V. exists r, s'. rewrite E. by subst v. Qed.
Lemma answering_ok {A} s s' (m : op A) f a Y : runs s m (Ok a) s' Y -> runs s (answering m f) (Ok (f a)) s' Y.
Proof. intros R. eapply running_bind; [exact R|]. apply running_ret. Qed.
Lemma answering_err {A} s s' (m : op A) f e Y : runs s m (Err e) s' Y -> runs s (answering m f) (Err e) s' Y.
Proof. apply running_fail. Qed.
Lemma answers_ok {A} s (m : op A) f a : computes crash_event s m (Ok a) -> computes crash_event s (answering m f) (Ok (f a)).
Proof. intros C. eapply computes_step; [exact C|]. apply computes_ret. Qed.
Lemma answers_err {A} s (m : op A) f e : computes crash_event s m (Err e) -> computes crash_event s (answering m f) (Err e).
Proof. apply computes_fail. Qed.
Lemma refines_read q s o : up s -> spec root q (view s) = (o, view s) -> computes crash_event s (exec encoded_len config_len root q) o -> refines q s.
Proof. intros U E C. eapply refines_intro; [exact E| |exact U|done]. apply running_computes; [done|by apply between_refl]. Qed.

(** ** An opened store *)
Section opened.
Context s (U : up s).
Lemma up_sound : sound config_len s.
Proof. apply (d_sound _ _ (u_down _ _ U)). Qed.
Lemma up_pending o : o ∈ pending s -> o = StageImage.
Proof. intros (t & m & Hm & <-)%elem_pending. by eapply (u_stage _ _ U). Qed.
Lemma up_no_image i : images s !! i = None -> v_images (view s) !! i = None.
Proof. intros H. rewrite lookup_v_images. unfold entry_image. by rewrite H. Qed.
Lemma up_image i d : images s !! i = Some d ->
  exists m r, im_manifest d = Some m /\ im_root d = Some r /\ im_id m = i /\ validate_config config_len (im_config m) = Ok tt
    /\ image_of s i = Ok (generation_of i m)
    /\ v_images (view s) !! i = Some {| iv_manifest := m; iv_root := r; iv_seed := im_seed d ≫= seed_view s |}.
Proof.
  intros H. destruct (sound_images _ _ up_sound _ _ H) as (_ & m & r & H1 & H2 & _ & H4 & H5 & _). exists m, r. split_and!; try done.
  - unfold image_of. rewrite H. cbn. by rewrite H1.
  - rewrite lookup_v_images. unfold entry_image. rewrite H. cbn. unfold view_image. rewrite decide_False by by intros ?%up_pending.
    unfold image_view. by rewrite H1, H5.
Qed.
Lemma up_no_pod p : pods s !! p = None -> v_pods (view s) !! p = None /\ forall part, pod_parts s !! (part, p) = None.
Proof.
  intros H. split; [rewrite lookup_v_pods; unfold entry_pod; by rewrite H|]. intros part. destruct (pod_parts s !! (part, p)) eqn:X; [|done].
  apply (u_orphans _ _ U) in X as [? ?]. congruence.
Qed.
Lemma up_pod p m : pods s !! p = Some m ->
  exists r w k, pod_parts s !! (Root, p) = Some r /\ pod_parts s !! (Workspace, p) = Some w /\ pod_parts s !! (Docker, p) = Some k
    /\ pm_id m = p /\ is_Some (images s !! pm_image m)
    /\ v_pods (view s) !! p = Some {| pv_manifest := m; pv_root := r; pv_workspace := w; pv_docker := k |}.
Proof.
  intros H. assert (DeletePod p ∉ pending s) as N by by intros ?%up_pending. pose proof (d_pods _ _ (u_down _ _ U) p m) as A.
  destruct (A Root) as [r Hr]; [done..|]. destruct (A Workspace) as [w Hw]; [done..|]. destruct (A Docker) as [k Hk]; [done..|].
  destruct (sound_pods _ _ up_sound _ _ H) as (_ & Q & _ & I). exists r, w, k. split_and!; try done.
  rewrite lookup_v_pods. unfold entry_pod. rewrite H. cbn. unfold view_pod. rewrite decide_False by done. by rewrite Hr, Hw, Hk.
Qed.
Lemma ids_of_ext {A B : Type} (m : gmap bytes A) (m' : gmap bytes B) : (forall i, is_Some (m !! i) <-> is_Some (m' !! i)) -> ids_of m = ids_of m'.
Proof.
  intros H. apply (StronglySorted_unique_strong bytes_leb).
  - intros a b _ _ X%Is_true_eq_true Y%Is_true_eq_true. by apply bytes_leb_antisym.
  - apply sort_by_sorted. apply _.
  - apply sort_by_sorted. apply _.
  - apply NoDup_Permutation.
    + unfold ids_of. rewrite sort_by_perm. apply NoDup_fst_map_to_list.
    + unfold ids_of. rewrite sort_by_perm. apply NoDup_fst_map_to_list.
    + intros i. by rewrite !elem_ids.
Qed.
Lemma up_image_ids : ids_of (v_images (view s)) = ids_of (images s).
Proof.
  apply ids_of_ext. intros i. destruct (images s !! i) as [d|] eqn:H.
  - destruct (up_image i d H) as (m & r & _ & _ & _ & _ & _ & ->). split; eauto.
  - by rewrite up_no_image.
Qed.
Lemma up_pod_ids : ids_of (v_pods (view s)) = ids_of (pods s).
Proof.
  apply ids_of_ext. intros p. destruct (pods s !! p) as [m|] eqn:H.
  - destruct (up_pod p m H) as (r & w & k & _ & _ & _ & _ & _ & ->). split; eauto.
  - by destruct (up_no_pod p H) as [-> _].
Qed.

(** ** Reading *)
Lemma refines_get_image i : refines (GetImage i) s.
Proof.
  pose proof (image_unlocked_computes config_len crash_event I s up_sound i) as C. destruct (images s !! i) as [d|] eqn:H.
  - destruct (up_image i d H) as (m & r & _ & _ & _ & _ & E & V). rewrite E in C. eapply refines_read; [done| |by apply (answers_ok s _ Generation)].
    cbn [spec]. unfold find_image. by rewrite V.
  - assert (image_of s i = Err (ImageNotFound i)) as E by (unfold image_of; by rewrite H). rewrite E in C.
    eapply refines_read; [done| |by apply answers_err]. cbn [spec]. unfold find_image. by rewrite up_no_image.
Qed.
Lemma omap_map {A B} (f : A -> option B) (g : A -> B) l : (forall a, a ∈ l -> f a = Some (g a)) -> omap f l = map g l.
Proof. induction l as [|a l IH]; intros H; cbn; [done|]. rewrite (H a) by left. f_equal. apply IH. intros. apply H. by right. Qed.
Lemma refines_list_images : refines ListImages s.
Proof.
  set (g := fun i => match image_of s i with Ok g => g | _ => generation_of i {| im_format_version := 0; im_id := []; im_config :=
    {| environment := []; user := {| user_name := []; uid := 0; gid := 0; additional_gids := [] |}; working_directory := [] |}; im_created_at_unix_ms := 0 |} end).
  eapply (refines_read _ _ (Ok (Generations (map g (ids_of (images s)))))); [done| |].
  - cbn [spec]. rewrite up_image_ids. do 3 f_equal. apply omap_map. intros i [d Hd]%elem_ids.
    destruct (up_image i d Hd) as (m & r & _ & _ & _ & _ & E & V). unfold g. by rewrite E, V.
  - apply (answers_ok s _ Generations). eapply computes_step; [apply (image_ids_computes config_len); [done|apply up_sound|apply U]|].
    apply gather_found_computes; [apply crash_cannot_fail|]. intros i [d Hd]%elem_ids. destruct (up_image i d Hd) as (m & r & _ & _ & _ & _ & E & _).
    eapply computes_eq; [apply image_unlocked_computes; [done|apply up_sound]|]. unfold g. by rewrite E.
Qed.
Lemma up_selected m : selected s = Some m -> exists g, image_of s (selected_image_id m) = Ok g.
Proof. intros E. apply (image_of_found config_len); [apply up_sound|]. by apply (d_selected _ _ (u_down _ _ U)). Qed.
Lemma refines_selected_image : refines SelectedImage s.
Proof.
  pose proof (selected_image_computes config_len crash_event I s up_sound) as C.
  assert (selected_of s = Ok (selected_image_id <$> selected s)) as E.
  { unfold selected_of. destruct (selected s) as [m|] eqn:H; [|done]. by destruct (up_selected m H) as [g ->]. }
  rewrite E in C. eapply refines_read; [done| |by apply (answers_ok s _ Identifier)]. done.
Qed.
Lemma refines_golden_workspace : refines GetGoldenWorkspace s.
Proof.
  eapply refines_read; [done| |apply (answers_ok s _ Located)].
  - done.
  - eapply computes_step; [by apply path_state_computes|]. apply computes_ret.
Qed.
End opened.

(** ** Pods *)
Lemma up_tame s s' :
  up s -> tame s s' -> no_temps s' -> no_orphans s' -> healthy s' = true -> layout s' -> transactions s' = transactions s ->
  image_publishing s' = ∅ -> trash s' = ∅ -> up s'.
Proof.
  intros U (D & _ & M) N O E L T P R. constructor; try done; [by rewrite M; apply U|]. rewrite T. apply U.
Qed.
Lemma view_tame s s' : tame s s' -> image_staging s' = image_staging s -> view s' = view s.
Proof. intros (_ & V & _) E. by rewrite !view_durable, V, E. Qed.
Lemma tame_temporary p m (v : Subvol) s : up s -> pods s !! p = Some m -> tame s (fill (part_place Temporary p) v s).
Proof.
  intros U P. apply tame_fill_part; [|by right|apply U]. by destruct (sound_pods _ _ (up_sound s U) _ _ P).
Qed.
Lemma up_temporary p m (v : Subvol) s : up s -> pods s !! p = Some m -> up (fill (part_place Temporary p) v s).
Proof.
  intros U P. eapply up_tame; [exact U|by eapply tame_temporary|apply U| |apply U|apply U|done|apply U|apply U].
  intros part p' v' X. change (<[(Temporary, p):=v]> (pod_parts s) !! (part, p') = Some v') in X.
  apply lookup_insert_Some in X as [[[= <- <-] _]|[_ X]]; [by exists m|by apply (u_orphans _ _ U) in X].
Qed.
Lemma with_temporary_up p m s : up s -> pods s !! p = Some m -> up (with_temporary p s) /\ view (with_temporary p s) = view s.
Proof.
  intros U P. unfold with_temporary. destruct (pod_parts s !! (Temporary, p)); [done|]. split; [by eapply up_temporary|].
  apply view_tame; [by eapply tame_temporary|done].
Qed.
(** What a pod is looked up as. *)
Lemma pod_runs s p m : up s -> pods s !! p = Some m ->
  exists x, (forall v, runs s (pod_unlocked config_len p) (Ok x) (with_temporary p s) (between s v))
    /\ exists y, v_pods (view s) !! p = Some y /\ pv_manifest y = m /\ view_storage (view s) p y = Some x /\ ps_image x = pm_image m.
Proof.
  intros U P. destruct (up_pod s U p m P) as (r & w & k & Hr & Hw & Hk & Q & [d Hd] & V).
  destruct (up_image s U _ d Hd) as (im & ir & _ & _ & _ & _ & Hg & Vi). exists (storage_of p m (generation_of (pm_image m) im)). split.
  - intros v. apply (pod_unlocked_runs config_len s p m (generation_of (pm_image m) im)); [by apply up_sound|apply U|done|done| |by apply between_refl|].
    + intros [] H; [by exists r|by exists w|by exists k|done].
    + intros _ x. eapply between_tame; [by apply between_refl|]. intros _. by eapply tame_temporary.
  - eexists. split_and!; [exact V|done| |done]. unfold view_storage. cbn [pv_manifest]. by rewrite Vi.
Qed.
Lemma no_pod_runs s p v : up s -> pods s !! p = None -> runs s (pod_unlocked config_len p) (Err (PodNotFound p)) s (between s v).
Proof. intros U P. eapply running_bind; [by apply path_state_runs, between_refl|]. cbn beta. rewrite P. apply running_raise. Qed.
Lemma refines_get_pod p s : up s -> refines (GetPod p) s.
Proof.
  intros U. destruct (pods s !! p) as [m|] eqn:P.
  - destruct (pod_runs s p m U P) as (x & R & y & V & _ & E & _). destruct (with_temporary_up p m s U P) as [U' V'].
    eapply refines_intro; [|apply (answering_ok _ _ _ Storage), R|exact U'|exact V']. cbn [spec]. unfold find_pod. by rewrite V, E.
  - destruct (up_no_pod s U p P) as [V _]. eapply refines_intro; [|by apply answering_err, no_pod_runs|exact U|done].
    cbn [spec]. unfold find_pod. by rewrite V.
Qed.
Lemma list_pods_loop s0 v l s :
  up s -> (forall p, p ∈ l -> is_Some (pods s !! p)) -> (forall x, between s v x -> between s0 v x) ->
  exists xs s', runs s (gather (fun p => do r <- attempt (pod config_len p);
      match r with inr b => ret [b] | inl e => if match e with PodNotFound _ => true | _ => false end then ret [] else raise e end) l)
      (Ok (map (fun x => [x]) xs)) s' (between s0 v)
    /\ up s' /\ view s' = view s /\ omap (fun p => v_pods (view s) !! p ≫= view_storage (view s) p) l = xs.
Proof.
  revert s. induction l as [|p l IH]; intros s U A W; cbn [gather].
  - exists [], s. split_and!; [apply running_ret|done|done|done].
  - destruct (A p) as [m P]; [left|]. destruct (pod_runs s p m U P) as (x & R & y & V & _ & E & _). destruct (with_temporary_up p m s U P) as [U' V'].
    destruct (IH (with_temporary p s)) as (xs & s' & R' & U'' & V'' & X).
    + done.
    + intros p' H. assert (pods (with_temporary p s) = pods s) as -> by (unfold with_temporary; by case_match). apply A. by right.
    + intros z B. apply W. by eapply between_view.
    + exists (x :: xs), s'. split_and!; [|done|by rewrite V''|].
      * eapply running_bind; [eapply running_bind; [apply running_attempt; eapply running_weaken; [apply R|exact W]|apply running_ret]|].
        eapply running_bind; [exact R'|]. apply running_ret.
      * cbn [omap list_omap]. rewrite V. cbn [mbind option_bind]. rewrite E. f_equal. by rewrite <-X, V'.
Qed.
Lemma refines_list_pods s : up s -> refines ListPods s.
Proof.
  intros U. destruct (list_pods_loop s (view s) (ids_of (pods s)) s U) as (xs & s' & R & U' & V' & X); [by intros p ?%elem_ids|done|].
  eapply refines_intro; [|apply (answering_ok _ _ _ Storages)|exact U'|exact V'].
  - cbn [spec]. rewrite up_pod_ids by done. by rewrite X.
  - eapply running_bind; [apply running_computes; [apply (pod_ids_computes config_len); [done|by apply up_sound|apply U]|by apply between_refl]|].
    eapply running_bind; [exact R|]. eapply running_eq; [apply running_ret| |done]. f_equal. clear. induction xs; cbn; [done|by f_equal].
Qed.
Lemma refines_reset_temporary p s : up s -> refines (ResetPodTemporary p) s.
Proof.
  intros U. destruct (pods s !! p) as [m|] eqn:P.
  - destruct (pod_runs s p m U P) as (x & R & y & V & _ & E & _). destruct (with_temporary_up p m s U P) as [U1 V1].
    set (s1 := with_temporary p s) in *. assert (pods s1 !! p = Some m) as P1 by (unfold s1, with_temporary; by case_match).
    set (s2 := clear (part_place Temporary p) s1).
    assert (tame s1 s2) as T2 by (apply tame_clear_part; [right; split; [done|by intros i ?%(up_pending s1 U1)]|apply U1]).
    assert (up s2) as U2.
    { eapply up_tame; [exact U1|exact T2|apply U1| |apply U1|apply U1|done|apply U1|apply U1]. intros part p' v' X.
      change (delete (Temporary, p) (pod_parts s1) !! (part, p') = Some v') in X. apply lookup_delete_Some in X as [_ X]. by apply (u_orphans _ _ U1) in X. }
    assert (view s2 = view s) as V2 by (rewrite (view_tame s1 s2 T2 eq_refl); exact V1).
    set (s3 := fill (part_place Temporary p) temporary_subvol s2). assert (pods s2 !! p = Some m) as P2 by done.
    pose proof (up_temporary p m temporary_subvol s2 U2 P2 : up s3) as U3.
    assert (view s3 = view s) as V3 by (rewrite <-V2; apply view_tame; [by eapply tame_temporary|done]).
    destruct (pod_runs s3 p m U3 P2) as (x' & R' & y' & V' & _ & E' & _). rewrite V3 in V', E'. assert (x' = x) as -> by congruence.
    assert (pod_parts s3 !! (Temporary, p) = Some temporary_subvol) as X3 by apply look_part.
    assert (with_temporary p s3 = s3) as T3 by (unfold with_temporary; by rewrite X3).
    rewrite T3 in R'. eapply refines_intro; [|apply (answering_ok _ s3 _ Storage)|exact U3|exact V3].
    + cbn [spec]. unfold find_pod. rewrite V, E. done.
    + eapply running_bind; [apply R|]. assert (forall z, up z -> view z = view s -> between s (view s) z) as B.
      { intros z Uz Vz. eapply between_view; [exact Vz|by apply between_refl]. }
      eapply (running_bind _ s2).
      { eapply running_eq; [apply delete_subvolume_runs; [apply U1|apply lookup_delete_eq|by apply B|by apply B]|done|]. cbn [look part_place].
        assert (is_Some (pod_parts s1 !! (Temporary, p))) as [tv ->]; [|done]. unfold s1, with_temporary.
        destruct (pod_parts s !! (Temporary, p)) eqn:X; [by rewrite X|]. exists temporary_subvol. apply look_part. }
      eapply (running_bind _ s3); [apply create_temporary_runs; [apply U2|apply lookup_delete_eq|by apply B|]|].
      { intros z. apply B; [by eapply up_temporary|]. rewrite <-V2. apply view_tame; [by eapply tame_temporary|done]. }
      eapply running_bind; [apply commit_runs; [apply U3|by apply B]|]. eapply running_weaken; [apply R'|]. intros z. by apply between_view.
  - destruct (up_no_pod s U p P) as [V _]. eapply refines_intro; [|by apply answering_err; eapply running_fail, no_pod_runs|exact U|done].
    cbn [spec]. unfold find_pod. by rewrite V.
Qed.
End refinement.

(** * The operations implement the view: changes

    The selected image, the golden workspace, pods, images and seeds. *)

Section writes.
Context (encoded_len : Manifest -> Z) (config_len : ImageConfig -> Z) (root : bytes).
Implicit Types (s : Store) (v : View).
Local Notation down := (down config_len).
Local Notation tame := (tame config_len).
Local Notation up := (up config_len).
Local Notation between := (between config_len).
Local Notation refines := (refines encoded_len config_len root).
Context (manifests_fit : forall m, valid_manifest config_len m -> fits encoded_len m).

Lemma up_change s s' :
  up s -> down s' -> store_manifest s' = store_manifest s -> no_temps s' -> no_orphans s' -> healthy s' = true -> layout s' ->
  transactions s' = transactions s -> image_publishing s' = ∅ -> trash s' = ∅ -> up s'.
Proof. intros U D M N O E L T P R. constructor; try done; [by rewrite M; apply U|]. rewrite T. apply U. Qed.
Lemma begin_runs s v x t o :
  between s v x -> layout x -> valid_manifest config_len (MTransaction (transaction_of t o)) -> between s v (add_transaction t o x) ->
  runs x (begin_transaction encoded_len t o) (Ok tt) (add_transaction t o x) (between s v).
Proof.
  intros B L V B'. unfold begin_transaction, write_transaction. cbn [transaction_id transaction_of]. rewrite (proj1 V : valid_transaction_id t = true). cbn [negb].
  apply (write_json_runs encoded_len); [by apply manifests_fit| |done|by apply between_temps|exact B'].
  unfold parent_there. by rewrite bool_decide_true by by apply layout_in.
Qed.
Lemma finish_between s v x t m :
  between s v x -> transactions x !! t = Some m -> settled x t ->
  runs x (finish_transaction t) (Ok tt) (drop_transaction t x) (between s v) /\ between s v (drop_transaction t x).
Proof.
  intros B Hm Z. assert (between s v (drop_transaction t x)) as B' by (eapply between_tame; [exact B|by apply tame_drop]).
  split; [|done]. eapply running_eq; [apply remove_file_runs; [exact B|exact B']|done|]. cbn beta. by rewrite Hm.
Qed.
Lemma durable_view s' v : durable s' = surviving v -> image_staging s' = v_staged v -> view s' = v.
Proof. intros E1 E2. rewrite view_durable, E1, E2. by destruct v. Qed.
Lemma image_runs s i d v : up s -> images s !! i = Some d ->
  exists m r, im_manifest d = Some m /\ im_root d = Some r /\ runs s (image_unlocked config_len i) (Ok (generation_of i m)) s (between s v)
    /\ v_images (view s) !! i = Some {| iv_manifest := m; iv_root := r; iv_seed := im_seed d ≫= seed_view s |}.
Proof.
  intros U H. destruct (up_image config_len s U i d H) as (m & r & Hm & Hr & _ & _ & E & V). exists m, r. split_and!; try done.
  apply running_computes; [|by apply between_refl]. rewrite <-E. by apply image_unlocked_computes; [|apply up_sound].
Qed.
Lemma no_image_runs s i v : up s -> images s !! i = None -> runs s (image_unlocked config_len i) (Err (ImageNotFound i)) s (between s v).
Proof.
  intros U H. assert (image_of s i = Err (ImageNotFound i)) as E by (unfold image_of; by rewrite H).
  apply running_computes; [|by apply between_refl]. rewrite <-E. by apply image_unlocked_computes; [|apply up_sound].
Qed.
(** ** The selected image *)
Lemma refines_select_image i s : is_image i -> up s -> refines (SelectImage i) s.
Proof.
  intros HI U. destruct (images s !! i) as [d|] eqn:H.
  - set (m := {| selected_image_id := i |}). set (s' := s <| selected := Some m |>).
    destruct (commit_selected config_len (Some m) s) as [D V].
    { intros ? [= <-]. split; [by exists d|]. by intros ?%(up_pending config_len s U). }
    { apply U. }
    eapply (refines_intro encoded_len config_len root _ s (Ok Done) s' ((view s) <| v_selected := Some i |>)).
    + destruct (image_runs s i d (view s) U H) as (im & r & _ & _ & _ & Vi). cbn [spec]. unfold find_image. by rewrite Vi.
    + destruct (image_runs s i d ((view s) <| v_selected := Some i |>) U H) as (im & r & _ & _ & R & _).
      apply (answering_ok s s' _ (fun _ => Done) tt). eapply running_bind; [exact R|].
      apply (write_json_runs encoded_len); [by apply manifests_fit|done|by apply between_refl|by apply between_temps, between_refl|].
      eapply between_commit; [by apply between_refl|exact D|done|exact V].
    + eapply up_change; [exact U|exact D|done|apply U|apply U|apply U|apply U|done|apply U|apply U].
    + by apply durable_view.
  - eapply refines_intro; [|by apply answering_err; eapply running_fail, no_image_runs|exact U|done].
    cbn [spec]. unfold find_image. by rewrite up_no_image.
Qed.
Lemma refines_clear_selected s : up s -> refines ClearSelectedImage s.
Proof.
  intros U. set (s' := s <| selected := None |>). destruct (commit_selected config_len None s) as [D V]; [done|apply U|].
  eapply (refines_intro encoded_len config_len root _ s (Ok Done) s' ((view s) <| v_selected := None |>)); [done| | |].
  - apply (answering_ok s s' _ (fun _ => Done) tt). eapply running_eq; [apply remove_file_runs; [by apply between_refl|]|done|].
    + eapply between_commit; [by apply between_refl|exact D|done|exact V].
    + destruct (selected s) eqn:X; [done|]. unfold s'. rewrite <-X. by destruct s.
  - eapply up_change; [exact U|exact D|done|apply U|apply U|apply U|apply U|done|apply U|apply U].
  - by apply durable_view.
Qed.

(** ** The golden workspace *)
Lemma canonicalize_computes s source a :
  computes crash_event s (canonicalize source a)
    (match outside s !! source with Some _ => Ok tt | None => Err (Io a (outside_path source)) end).
Proof.
  eapply computes_step; [by apply computes_same|]. eapply computes_step; [apply computes_get|]. cbn [look outside_place].
  destruct (outside s !! source) eqn:X; [|apply computes_raise]. eapply computes_step; [by apply path_state_computes|]. cbn [look outside_place].
  rewrite X. apply computes_ret.
Qed.
Lemma refines_publish_golden name source s : golden_staging s !! name = None -> up s -> refines (PublishGoldenWorkspace name source) s.
Proof.
  intros F U. pose proof (canonicalize_computes s source "canonicalize golden workspace source") as C. destruct (outside s !! source) as [x|] eqn:X.
  - set (v' := (view s) <| v_golden := Some (snapshot_of x) |>).
    assert (forall y, golden y = Some (snapshot_of x) -> images y = images s -> image_staging y = image_staging s -> image_publishing y = image_publishing s -> pods y = pods s ->
      pod_parts y = pod_parts s -> seeds y = seeds s -> selected y = selected s -> transactions y = transactions s -> trash y = trash s -> outside y = outside s ->
      store_manifest y = store_manifest s -> between s v' y /\ view y = v' /\ down y) as G.
    { intros y Hy E1 E2 E3 E4 E5 E6 E7 E8 E9 E10 E11. destruct (commit_golden config_len s y) as [D V]; try done; [apply U|]. rewrite Hy in V.
      split_and!; [|by apply durable_view|done]. eapply between_commit; [by apply between_refl|exact D|done|exact V]. }
    set (s1 := fill (golden_stage name) (snapshot_of x) s).
    assert (between s v' s1) as B1 by (eapply between_tame; [by apply between_refl|by apply tame_elsewhere]).
    assert (golden_staging s1 !! name = Some (snapshot_of x)) as X1 by apply lookup_insert_eq.
    set (s2 := match golden s with Some _ => exchange_golden name s1 | None => rename_golden name s1 end).
    assert (between s v' s2 /\ view s2 = v' /\ down s2 /\ healthy s2 = true) as (B2 & V2 & D2 & E2).
    { unfold s2. destruct (golden s) as [g|] eqn:Hg; unfold exchange_golden, rename_golden; change (golden s1) with (golden s); rewrite X1, ?Hg.
      - edestruct G as (? & ? & ?); [..|split_and!; [eassumption|eassumption|eassumption|apply U]]; done.
      - edestruct G as (? & ? & ?); [..|split_and!; [eassumption|eassumption|eassumption|apply U]]; done. }
    set (s3 := match golden s with Some _ => clear (golden_stage name) s2 | None => s2 end).
    assert (tame s2 s3) as T3 by (unfold s3; destruct (golden s); [by apply tame_elsewhere|by apply PodDown.tame_refl]).
    assert (between s v' s3) as B3 by (eapply between_tame; [exact B2|done]).
    assert (forall P : Store -> Prop, P s -> (forall y a b, P y -> P (y <| golden := a |> <| golden_staging := b |>)) -> (forall y b, P y -> P (y <| golden_staging := b |>)) -> P s3) as K.
    { intros P P0 P1 P2. assert (P s1) as Ps1 by by apply P2. assert (P s2) as Ps2 by (unfold s2, exchange_golden, rename_golden; repeat case_match; auto).
      unfold s3. destruct (golden s); [by apply P2|done]. }
    eapply (refines_intro encoded_len config_len root _ s (Ok (Located (Some (RootPath "golden-workspace")))) s3 v').
    + cbn [spec]. unfold sources. change (v_outside (view s)) with (outside s). by rewrite X.
    + apply (answering_ok s s3 _ (fun p => Located (Some p)) (RootPath "golden-workspace")). unfold publish_golden_workspace.
      eapply running_bind; [apply running_computes; [exact C|by apply between_refl]|].
      eapply (running_bind _ s1); [apply (snapshot_runs s); [apply U|exact F|exact X|exists (snapshot_of x); exact X1|by apply between_refl|exact B1]|].
      eapply running_bind; [by apply path_state_runs|]. change (golden s1) with (golden s). eapply (running_bind _ s3).
      * unfold s3, s2 in *. destruct (golden s) as [g|] eqn:Hg.
        -- eapply running_bind; [by apply (running_syscall _ _ same)|]. eapply running_bind; [by apply running_attempt, running_syscall|]. cbn beta iota. unfold same.
           eapply running_bind; [by apply commit_runs|]. eapply running_eq; [apply delete_subvolume_runs; [done|apply lookup_delete_eq|done|exact B3]|done|].
           cbn [look golden_stage]. unfold exchange_golden. change (golden s1) with (golden s). rewrite X1, Hg.
           match goal with |- match ?o with _ => _ end = _ => assert (is_Some o) as [? ->]; [|done] end. exists g. apply lookup_insert_eq.
        -- eapply running_bind; [by apply running_attempt, running_syscall|]. apply running_ret.
      * eapply running_bind; [apply commit_runs; [|exact B3]|apply running_ret]. by apply (K (fun y => healthy y = true)); [apply U|..].
    + eapply up_change; [exact U|apply B3|..].
      * by apply (K (fun y => store_manifest y = store_manifest s)).
      * by apply (K no_temps); [apply U|..].
      * by apply (K no_orphans); [apply U|..].
      * by apply (K (fun y => healthy y = true)); [apply U|..].
      * by apply (K layout); [apply U|..].
      * by apply (K (fun y => transactions y = transactions s)).
      * by apply (K (fun y => image_publishing y = ∅)); [apply U|..].
      * by apply (K (fun y => trash y = ∅)); [apply U|..].
    + rewrite <-V2. apply (view_tame config_len); [exact T3|]. unfold s3. by destruct (golden s).
  - eapply refines_intro; [|apply answering_err; eapply running_fail, running_computes; [exact C|by apply between_refl]|exact U|done].
    cbn [spec]. unfold sources. change (v_outside (view s)) with (outside s). by rewrite X.
Qed.

(** ** Deletions *)
Lemma good_between s v s1 x : between s v s1 -> good config_len s1 x -> between s v x.
Proof. intros B [T _]. eapply between_tame; [exact B|]. by intros _. Qed.
Lemma good_refl s : down s -> no_temps s -> good config_len s s.
Proof. intros D N. split; [by apply PodDown.tame_refl|done]. Qed.
Lemma fresh_unstaged s t : up s -> transactions s !! t = None -> image_staging s !! t = None /\ image_publishing s !! t = None /\ trash s !! t = None.
Proof.
  intros U F. rewrite (u_publishing _ _ U), (u_trash _ _ U), !lookup_empty. split_and!; try done. destruct (image_staging s !! t) eqn:X; [|done].
  destruct (d_staging _ _ (u_down _ _ U) t) as (m & Hm & _); [eauto|]. congruence.
Qed.
Lemma fresh_replaceable s t : transactions s !! t = None -> replaceable t s.
Proof. intros F m Hm. congruence. Qed.
Lemma drop_add s t o : transactions s !! t = None -> delete t (<[t := transaction_of t o]> (transactions s)) = transactions s.
Proof. intros F. by rewrite delete_insert_id. Qed.
Lemma refines_destroy_pod t p s : is_unique t -> is_pod p -> transactions s !! t = None -> up s -> refines (DestroyPod t p) s.
Proof.
  intros Ht Hp F U. destruct (pods s !! p) as [m|] eqn:P.
  - set (v' := (view s) <| v_pods := delete p (v_pods (view s)) |>). destruct (pod_runs config_len s p m U P) as (x & R & y & V & _).
    destruct (with_temporary_up config_len p m s U P) as [U1 V1]. set (s1 := with_temporary p s) in *.
    assert (transactions s1 !! t = None) as F1 by (unfold s1, with_temporary; by case_match).
    destruct (fresh_unstaged s1 t U1 F1) as (Z1 & Z2 & Z3). pose proof (fresh_replaceable s1 t F1) as RP. set (s2 := add_transaction t (DeletePod p) s1).
    assert (down s2) as D2 by (apply down_add; [done|done|done|apply U1]).
    assert (durable s2 = surviving v') as E2 by (unfold s2; rewrite durable_delete_pod by done; unfold durable; by rewrite V1).
    assert (between s v' s1) as B1 by (eapply between_view; [exact V1|by apply between_refl]).
    assert (between s v' s2) as B2 by (eapply between_commit; [exact B1|exact D2|done|exact E2]).
    destruct (continue_delete_pod_runs config_len s2 p s2) as [R3 G3]; [apply good_refl; [done|apply U1]|apply U1| |].
    { apply pending_add; auto. }
    set (s3 := no_parts p (no_pod p s2)) in *.
    assert (transactions s3 !! t = Some (transaction_of t (DeletePod p))) as M3 by apply lookup_insert_eq.
    assert (settled s3 t) as Z.
    { split_and!; [exact Z1|exact Z2|exact Z3|]. rewrite M3. intros ? [= <-]. apply lookup_delete_eq. }
    destruct (finish_runs config_len s2 t _ s3 G3 M3 Z) as [R4 G4]. set (s4 := drop_transaction t s3) in *.
    eapply (refines_intro encoded_len config_len root _ s (Ok Done) s4 v').
    + cbn [spec]. unfold find_pod. by rewrite V.
    + apply (answering_ok s s4 _ (fun _ => Done) tt). eapply running_bind; [apply R|].
      eapply (running_bind _ s2); [apply begin_runs; [exact B1|apply U1|done|exact B2]|].
      eapply (running_bind _ s3); [eapply running_weaken; [exact R3|]|eapply running_weaken; [exact R4|]]; intros z; by apply good_between.
    + destruct G4 as [(D4 & _ & M4) N4]. eapply up_change; [exact U1|exact D4|by rewrite M4|exact N4| |apply U1|apply U1|by apply drop_add|apply U1|apply U1].
      intros part p' z X. change (filter (fun x => x.1.2 <> p) (pod_parts s1) !! (part, p') = Some z) in X. apply map_lookup_filter_Some in X as [X N]. cbn in N.
      apply (u_orphans _ _ U1) in X. change (is_Some (delete p (pods s1) !! p')). by rewrite lookup_delete_ne.
    + destruct G4 as [(_ & V4 & _) _]. apply (durable_view s4 v'); [rewrite V4; exact E2|]. change (image_staging s1 = image_staging s). unfold s1, with_temporary. by case_match.
  - destruct (up_no_pod config_len s U p P) as [V _].
    eapply refines_intro; [|by apply answering_err; eapply running_fail, no_pod_runs|exact U|done]. cbn [spec]. unfold find_pod. by rewrite V.
Qed.
Lemma up_image_users s i : up s -> image_users (view s) i = reference_of s i [].
Proof.
  intros U. unfold image_users, reference_of. rewrite (up_pod_ids config_len) by done.
  assert (forall l : list bytes, (forall p, p ∈ l -> is_Some (pods s !! p)) ->
    omap (fun p => if decide ((fun x => pm_image (pv_manifest x)) <$> v_pods (view s) !! p = Some i) then Some p else None) l
    = omap (fun p => if decide (option_map pm_image (pods s !! p) = Some i) then Some p else None) l) as E.
  { induction l as [|p l IH]; intros A; [done|]. cbn [omap list_omap]. rewrite IH by (intros; apply A; by right). destruct (A p) as [m P]; [left|].
    destruct (up_pod config_len s U p m P) as (r & w & k & _ & _ & _ & _ & _ & V). by rewrite V, P. }
  rewrite E by by intros p ?%elem_ids. destruct (head _) eqn:H; [done|]. rewrite omap_none; [done|].
  intros [t m] Hm%elem_transactions. cbn. case_decide; [done|]. by rewrite (u_stage _ _ U t m Hm).
Qed.
Lemma refines_remove_image t i s : is_unique t -> is_image i -> transactions s !! t = None -> up s -> refines (RemoveImage t i) s.
Proof.
  intros Ht Hi F U. pose proof (up_sound config_len s U) as S. destruct (images s !! i) as [d|] eqn:H.
  - assert (computes crash_event s (selected_image_unlocked config_len) (Ok (v_selected (view s)))) as CS.
    { eapply computes_eq; [by apply selected_image_computes|]. unfold selected_of. cbn. destruct (selected s) as [m|] eqn:X; [|done].
      by destruct (up_selected config_len s U m X) as [g ->]. }
    pose proof (image_reference_computes config_len crash_event I s S (u_layout _ _ U) i []) as CR. fold (image_reference i) in CR.
    destruct (image_runs s i d (view s) U H) as (im & r & _ & _ & R0 & Vi).
    destruct (decide (v_selected (view s) = Some i)) as [Es|Es].
    { eapply refines_intro; [|apply answering_err; eapply running_bind; [exact R0|]; eapply running_bind; [apply running_computes; [exact CS|by apply between_refl]|]|exact U|done].
      - cbn [spec]. unfold find_image. rewrite Vi, decide_True by done. done.
      - rewrite decide_True by done. apply running_raise. }
    rewrite <-(up_image_users s i U) in CR. destruct (image_users (view s) i) as [p|] eqn:EU.
    { eapply refines_intro; [|apply answering_err; eapply running_bind; [exact R0|]; eapply running_bind; [apply running_computes; [exact CS|by apply between_refl]|]|exact U|done].
      - cbn [spec]. unfold find_image. rewrite Vi, decide_False, EU by done. done.
      - rewrite decide_False by done. eapply running_bind; [apply running_computes; [exact CR|by apply between_refl]|]. apply running_raise. }
    clear R0. set (v' := (view s) <| v_images := delete i (v_images (view s)) |>). destruct (image_runs s i d v' U H) as (im' & r' & _ & _ & R0 & _).
    assert (unreferenced i s) as UR.
    { apply (reference_of_none s i []); [by rewrite <-up_image_users|]. intros m p j Hm. rewrite (u_stage _ _ U _ _ Hm). done. }
    destruct (fresh_unstaged s t U F) as (Z1 & Z2 & Z3). pose proof (fresh_replaceable s t F) as RP. set (s2 := add_transaction t (DeleteImage i) s).
    assert (down s2) as D2 by (apply down_add; [done|done|by split_and!|apply U]).
    assert (durable s2 = surviving v') as E2 by (unfold s2; by rewrite durable_delete_image).
    assert (between s v' s2) as B2 by (eapply between_commit; [by apply between_refl|exact D2|done|exact E2]).
    assert (transactions s2 !! t = Some (transaction_of t (DeleteImage i))) as M2 by apply lookup_insert_eq.
    destruct (continue_delete_image_runs config_len s2 t i (transaction_of t (DeleteImage i)) s2) as [R3 G3]; [apply good_refl; [done|apply U]|apply U|exact M2|done|].
    destruct (burnt config_len t i (transaction_of t (DeleteImage i)) s2 D2 M2 eq_refl) as (B31 & B32 & B33). set (s3 := burn t (hidden t i s2)) in *.
    pose proof (burn_keeps t i s2) as K. fold s3 in K.
    assert (settled s3 t) as Z.
    { split_and!; [by apply (K (fun x => image_staging x !! t = None))|by apply (K (fun x => image_publishing x !! t = None))|done|].
      rewrite B33, M2. intros ? [= <-]. exact B32. }
    assert (transactions s3 !! t = Some (transaction_of t (DeleteImage i))) as M3 by by rewrite B33.
    destruct (finish_runs config_len s2 t _ s3 G3 M3 Z) as [R4 G4]. set (s4 := drop_transaction t s3) in *.
    eapply (refines_intro encoded_len config_len root _ s (Ok Done) s4 v').
    + cbn [spec]. unfold find_image. by rewrite Vi, decide_False, EU by done.
    + apply (answering_ok s s4 _ (fun _ => Done) tt). eapply running_bind; [exact R0|].
      eapply running_bind; [apply running_computes; [exact CS|by apply between_refl]|]. rewrite decide_False by done.
      eapply running_bind; [apply running_computes; [exact CR|by apply between_refl]|].
      eapply (running_bind _ s2); [apply begin_runs; [by apply between_refl|apply U|done|exact B2]|].
      eapply (running_bind _ s3); [eapply running_weaken; [exact R3|]|eapply running_weaken; [exact R4|]]; intros z; by apply good_between.
    + destruct G4 as [(D4 & _ & M4) N4]. eapply up_change; [exact U|exact D4|by rewrite M4|exact N4|..].
      * by apply (K no_orphans); [apply U|..].
      * by apply (K (fun x => healthy x = true)); [apply U|..].
      * by apply (K layout); [apply U|..].
      * change (delete t (transactions s3) = transactions s). rewrite B33. by apply drop_add.
      * by apply (K (fun x => image_publishing x = ∅)); [apply U|..].
      * change (trash s3 = ∅). apply map_eq. intros t'. rewrite lookup_empty. destruct (decide (t' = t)) as [->|N]; [exact B31|].
        apply (K (fun x => trash x !! t' = None)).
        -- change (trash s !! t' = None). by rewrite (u_trash _ _ U).
        -- intros x d' X. change (<[t:=d']> (trash x) !! t' = None). by rewrite lookup_insert_ne.
        -- done.
        -- intros x X. change (delete t (trash x) !! t' = None). by rewrite lookup_delete_ne.
    + destruct G4 as [(_ & V4 & _) _]. apply (durable_view s4 v'); [rewrite V4; exact E2|].
      change (image_staging s3 = image_staging s). by apply (K (fun x => image_staging x = image_staging s)).
  - eapply refines_intro; [|by apply answering_err; eapply running_fail, no_image_runs|exact U|done]. cbn [spec]. unfold find_image. by rewrite up_no_image.
Qed.
End writes.
