(* ===== verification/PodCreate.v ===== *)
(** * The operations implement the view: creations

    Pods, images and seeds, which are built aside and become visible at once. *)

From S2P Require Import Prelude Lists Text Outage PodTypes PodStore PodReads PodSafe PodOps PodDown PodRecover PodRefine.

Section creations.
Context (encoded_len : Manifest -> Z) (config_len : ImageConfig -> Z) (root : bytes).
Implicit Types (s : Store) (v : View).
Local Notation down := (down config_len).
Local Notation tame := (tame config_len).
Local Notation up := (up config_len).
Local Notation between := (between config_len).
Local Notation refines := (refines encoded_len config_len root).
Context (manifests_fit : forall m, valid_manifest config_len m -> fits encoded_len m).

(** ** Pods *)
Lemma seed_computes s i d :
  down s -> images s !! i = Some d ->
  computes crash_event s (setup_seed_for_image_with_manifest i) (Ok (im_seed d))
  /\ forall m, im_seed d = Some m -> exists r w, look (seed_root (sm_generation m)) s = Some r /\ look (seed_workspace (sm_generation m)) s = Some w
       /\ seed_view s m = Some (sm_context m, r, w).
Proof.
  intros D H. assert (seed_manifest_of i s = im_seed d) as E by (unfold seed_manifest_of; by rewrite H).
  assert (forall m, im_seed d = Some m -> exists r w, look (seed_root (sm_generation m)) s = Some r /\ look (seed_workspace (sm_generation m)) s = Some w
    /\ seed_view s m = Some (sm_context m, r, w)) as A.
  { intros m Hm. rewrite <-E in Hm. destruct (d_seeds _ _ D i m Hm) as [[r Hr] [w Hw]]. exists r, w. split_and!; [done|done|]. unfold seed_view. by rewrite Hr, Hw. }
  split; [|exact A]. eapply computes_eq; [apply (setup_seed_computes config_len); [done|apply D]|]. unfold seed_of. rewrite E.
  destruct (im_seed d) as [m|]; [|done]. destruct (A m eq_refl) as (r & w & Hr & Hw & _). by rewrite Hr, Hw.
Qed.
Section pod.
Context s v (x : Store) (p i : bytes) (d : ImageDir) (im : ImageManifest) (r : Subvol) (now : Z) (basis : PodWorkspaceBasis) (np : PodView).
Context (Bx : between s v x) (Ex : healthy x = true) (Lx : layout x) (Vp : is_pod p) (Vi : is_image i) (Vn : is_time now).
Context (Hi : images x !! i = Some d) (Hm : im_manifest d = Some im) (Hr : im_root d = Some r).
Context (Hp : pods x !! p = None) (Ha : forall part, pod_parts x !! (part, p) = None).
Context (Hnp : np = new_pod (view x) p i {| iv_manifest := im; iv_root := r; iv_seed := im_seed d ≫= seed_view x |} now basis).
Definition y1 : Store := fill (part_place Root p) (pv_root np) x.
Definition y2 : Store := fill (part_place Workspace p) (pv_workspace np) y1.
Definition y3 : Store := fill (part_place Docker p) new_subvol y2.
Definition y4 : Store := fill (part_place Temporary p) temporary_subvol y3.
Definition y5 : Store := y4 <| pods := <[p := pv_manifest np]> (pods y4) |>.
Lemma fill_between y part w : pods y !! p = None -> between s v y -> between s v (fill (part_place part p) w y).
Proof. intros P B. eapply between_tame; [exact B|]. apply tame_fill_part; auto. Qed.
Lemma y_between : between s v y1 /\ between s v y2 /\ between s v y3 /\ between s v y4.
Proof.
  assert (between s v y1) by by apply fill_between. assert (between s v y2) by by apply fill_between.
  assert (between s v y3) by by apply fill_between. assert (between s v y4) by by apply fill_between. done.
Qed.
Lemma empty_part y part part' w : part <> part' -> pod_parts y !! (part, p) = None -> pod_parts (fill (part_place part' p) w y) !! (part, p) = None.
Proof. intros N H. change (<[(part', p):=w]> (pod_parts y) !! (part, p) = None). rewrite lookup_insert_ne by congruence. done. Qed.
Lemma look_seed_workspace g : look (seed_workspace g) y1 = look (seed_workspace g) x.
Proof. done. Qed.
Lemma np_docker : pv_docker np = new_subvol.
Proof. subst np. unfold new_pod. by repeat case_match. Qed.
(** The source of the pod: the seed, or the root of the image. *)
Definition setup : option SetupSeedManifest := match basis with ImageSeed => im_seed d | GoldenWorkspace => None end.
Lemma np_seed m rs ws : setup = Some m -> seed_view x m = Some (sm_context m, rs, ws) -> pv_root np = snapshot_of rs /\ pv_workspace np = snapshot_of ws.
Proof. unfold setup. destruct basis; [|done]. intros E W. subst np. unfold new_pod. cbn [iv_seed]. rewrite E. cbn [mbind option_bind]. rewrite W. done. Qed.
Lemma np_plain : setup = None -> pv_root np = snapshot_of r /\ pv_workspace np = fresh_workspace (view x) (im_config im).
Proof. unfold setup. subst np. unfold new_pod. cbn [iv_seed iv_root iv_manifest]. destruct basis; [intros ->|]; done. Qed.
Lemma setup_runs :
  runs x (match basis with ImageSeed => setup_seed_for_image i | GoldenWorkspace => ret None end)
    (Ok (option_map (fun m => (seed_root (sm_generation m), seed_workspace (sm_generation m))) setup)) x (between s v).
Proof.
  unfold setup. destruct basis; [|apply running_ret]. destruct (seed_computes x i d (proj1 Bx) Hi) as [C _].
  eapply running_bind; [apply running_computes; [exact C|exact Bx]|]. apply running_ret.
Qed.
Lemma root_runs :
  runs x (snapshot_subvolume (match option_map (fun m => (seed_root (sm_generation m), seed_workspace (sm_generation m))) setup with
          | Some (r, _) => look r | None => fun s => images s !! i ≫= im_root end) (part_place Root p)) (Ok tt) y1 (between s v).
Proof.
  destruct y_between as (B1 & _). unfold y1 in *. destruct setup as [m|] eqn:Es; cbn [option_map].
  - assert (im_seed d = Some m) as Em by (unfold setup in Es; by destruct basis). destruct (seed_computes x i d (proj1 Bx) Hi) as [_ A].
    destruct (A m Em) as (rs & ws & Hrs & _ & W). destruct (np_seed m rs ws Es W) as [E _]. rewrite E in *.
    apply snapshot_runs; [done|apply Ha|exact Hrs|exists (snapshot_of rs); apply look_part|done|done].
  - destruct (np_plain Es) as [E _]. rewrite E in *.
    apply snapshot_runs; [done|apply Ha|by rewrite Hi|exists (snapshot_of r); apply look_part|done|done].
Qed.
Lemma workspace_runs :
  runs y1 (match option_map (fun m => (seed_root (sm_generation m), seed_workspace (sm_generation m))) setup with
      | Some (_, w) => snapshot_subvolume (look w) (part_place Workspace p)
      | None =>
          do seed <- path_state (RootPath "golden-workspace") golden;
          if match seed with Some v => (sv_uid v =? uid (user (im_config im))) && (sv_gid v =? gid (user (im_config im))) | None => false end
          then snapshot_subvolume golden (part_place Workspace p)
          else
            do! create_subvolume (part_place Workspace p) "create pod workspace subvolume";
            if (uid (user (im_config im)) =? 0) && (gid (user (im_config im)) =? 0) then ret tt
            else set_directory_owner (part_place Workspace p) (uid (user (im_config im))) (gid (user (im_config im)))
      end) (Ok tt) y2 (between s v).
Proof.
  destruct y_between as (B1 & B2 & _). unfold y2 in *. assert (pod_parts y1 !! (Workspace, p) = None) as A1 by by apply empty_part.
  destruct setup as [m|] eqn:Es; cbn [option_map].
  - assert (im_seed d = Some m) as Em by (unfold setup in Es; by destruct basis). destruct (seed_computes x i d (proj1 Bx) Hi) as [_ A].
    destruct (A m Em) as (rs & ws & _ & Hws & W). destruct (np_seed m rs ws Es W) as [_ E]. rewrite E in *.
    apply snapshot_runs; [done|done|exact Hws|exists (snapshot_of ws); apply look_part|done|done].
  - destruct (np_plain Es) as [_ E]. rewrite E in *. clear E. set (c := im_config im) in *. eapply running_bind; [by apply path_state_runs|]. change (golden y1) with (golden x).
    unfold fresh_workspace in *. change (v_golden (view x)) with (golden x) in *.
    assert (forall w, w = (if (uid (user c) =? 0) && (gid (user c) =? 0) then new_subvol else new_subvol <| sv_uid := uid (user c) |> <| sv_gid := gid (user c) |>) ->
      runs y1 (do! create_subvolume (part_place Workspace p) "create pod workspace subvolume";
            if (uid (user c) =? 0) && (gid (user c) =? 0) then ret tt else set_directory_owner (part_place Workspace p) (uid (user c)) (gid (user c)))
        (Ok tt) (fill (part_place Workspace p) w y1) (between s v)) as New.
    { intros w ->. eapply running_bind; [apply create_subvolume_runs; [done|done|exists new_subvol; apply look_part|done|by apply fill_between]|].
      destruct ((uid (user c) =? 0) && (gid (user c) =? 0)); [apply running_ret|].
      eapply running_bind; [apply (running_syscall _ _ same); by apply fill_between|]. eapply running_eq; [apply running_syscall; by apply fill_between|done|].
      unfold same. erewrite modify_some by apply look_part. by rewrite refill_part. }
    destruct (golden x) as [g|] eqn:G; [|by apply New].
    destruct ((sv_uid g =? uid (user c)) && (sv_gid g =? gid (user c))); [|by apply New].
    apply snapshot_runs; [done|done|exact G|exists (snapshot_of g); apply look_part|done|done].
Qed.
Lemma np_manifest : pv_manifest np = {| pm_format_version := STORE_FORMAT_VERSION; pm_id := p; pm_image := i; pm_created_at_unix_ms := now |}.
Proof. subst np. unfold new_pod. by repeat case_match. Qed.
Lemma create_inner_runs :
  between s v y5 -> runs x (create_pod_inner encoded_len p i (im_config im) now basis) (Ok (pod_storage p i (im_config im) now)) y5 (between s v).
Proof.
  intros B5. destruct y_between as (B1 & B2 & B3 & B4). unfold create_pod_inner. eapply running_bind; [exact setup_runs|].
  eapply running_bind; [exact root_runs|]. eapply running_bind; [exact workspace_runs|].
  eapply (running_bind _ y3).
  { apply create_subvolume_runs; [done| |exists new_subvol; apply look_part|done|done]. do 2 (apply empty_part; [done|]). apply Ha. }
  eapply (running_bind _ y4).
  { apply create_temporary_runs; [done| |done|intros; by apply fill_between]. do 3 (apply empty_part; [done|]). apply Ha. }
  eapply running_bind; [by apply commit_runs|]. eapply (running_bind _ y5); [|apply running_ret].
  pose proof np_manifest as E. unfold y5 in *. rewrite E in *.
  eapply running_eq; [eapply (write_json_runs encoded_len y4); [by apply manifests_fit| |exact B4|by apply between_temps|exact B5]|done|done].
  unfold parent_there. rewrite bool_decide_true; [done|]. apply layout_in; [exact Lx|done].
Qed.
Lemma y_tame : tame x y4.
Proof.
  assert (forall y part w, pods y !! p = None -> down y -> tame y (fill (part_place part p) w y)) as T by (intros; apply tame_fill_part; auto).
  assert (tame x y1) as T1 by (apply T; [done|apply Bx]). assert (tame y1 y2) as T2 by (apply T; [done|apply T1]).
  assert (tame y2 y3) as T3 by (apply T; [done|apply T2]). assert (tame y3 y4) as T4 by (apply T; [done|apply T3]).
  eapply PodDown.tame_trans; [exact T1|]. eapply PodDown.tame_trans; [exact T2|]. by eapply PodDown.tame_trans.
Qed.
Lemma y5_down :
  (forall o, o ∈ pending x -> o = StageImage \/ o = CreatePod p i) ->
  down y5 /\ durable y5 = (durable x) <| v_pods := <[p := np]> (v_pods (durable x)) |>.
Proof.
  intros O. destruct y_tame as (D4 & V4 & _). rewrite <-V4.
  destruct (commit_pod config_len p (pv_manifest np) (pv_root np) (pv_workspace np) new_subvol y4) as [D5 V5].
  - exact Vp.
  - by rewrite np_manifest.
  - by rewrite np_manifest.
  - rewrite np_manifest. by exists d.
  - change (<[(Temporary, p):=temporary_subvol]> (<[(Docker, p):=new_subvol]> (<[(Workspace, p):=pv_workspace np]> (<[(Root, p):=pv_root np]> (pod_parts x)))) !! (Root, p) = Some (pv_root np)).
    rewrite !lookup_insert_ne by done. apply lookup_insert_eq.
  - change (<[(Temporary, p):=temporary_subvol]> (<[(Docker, p):=new_subvol]> (<[(Workspace, p):=pv_workspace np]> (pod_parts y1))) !! (Workspace, p) = Some (pv_workspace np)).
    rewrite !lookup_insert_ne by done. apply lookup_insert_eq.
  - change (<[(Temporary, p):=temporary_subvol]> (<[(Docker, p):=new_subvol]> (pod_parts y2)) !! (Docker, p) = Some new_subvol).
    rewrite !lookup_insert_ne by done. apply lookup_insert_eq.
  - exists temporary_subvol. apply look_part.
  - rewrite np_manifest. intros j C. destruct (O _ C) as [|[= ->]]; done.
  - rewrite np_manifest. intros C. by destruct (O _ C).
  - intros C. by destruct (O _ C).
  - exact D4.
  - split; [exact D5|]. unfold y5. rewrite V5. do 2 f_equal. rewrite <-np_docker. by destruct np.
Qed.
End pod.
Lemma refines_create_pod t p i now basis s :
  is_unique t -> is_pod p -> is_image i -> is_time now -> transactions s !! t = None -> up s -> refines (CreatePodFrom t p i now basis) s.
Proof.
  intros Ht Hp Hi Hn F U. destruct (images s !! i) as [d|] eqn:H.
  2: { eapply refines_intro; [|by apply answering_err; eapply running_fail, no_image_runs|exact U|done]. cbn [spec]. unfold find_image. by rewrite up_no_image. }
  pose proof (up_sound config_len s U) as S. pose proof (pod_storage_exists_computes crash_event I s p) as C1.
  destruct (pods s !! p) as [m|] eqn:P.
  - destruct (image_runs config_len s i d (view s) U H) as (im & r & _ & _ & R0 & Vi). destruct (up_pod config_len s U p m P) as (? & ? & ? & _ & _ & _ & _ & _ & Vp).
    eapply refines_intro; [|apply answering_err; eapply running_bind; [exact R0|]|exact U|done].
    + cbn [spec]. unfold find_image. by rewrite Vi, Vp.
    + eapply running_bind; [apply running_computes; [exact C1|by apply between_refl]|]. unfold has_storage. rewrite P, bool_decide_true by eauto. cbn [orb].
      eapply running_bind; [apply running_ret|]. apply running_raise.
  - destruct (up_no_pod config_len s U p P) as [Vp Ha].
    destruct (image_runs config_len s i d (view s) U H) as (im & r & Hm & Hr & _ & Vi). set (x := {| iv_manifest := im; iv_root := r; iv_seed := im_seed d ≫= seed_view s |}) in *.
    set (np := new_pod (view s) p i x now basis). set (v' := (view s) <| v_pods := <[p := np]> (v_pods (view s)) |>).
    destruct (fresh_unstaged config_len s t U F) as (Z1 & Z2 & Z3). pose proof (fresh_replaceable s t F) as RP. set (s1 := add_transaction t (CreatePod p i) s).
    assert (tame s s1) as T1.
    { apply tame_add; [done|done| |done|apply U]. unfold starts. split; [done|]. split; [by exists d|].
      split; [by intros ?%(up_pending config_len s U)|]. split; [intros m; by rewrite P|]. done. }
    assert (between s v' s1) as B1 by (eapply between_tame; [by apply between_refl|done]).
    assert (view s1 = view s) as V1 by by apply (view_tame config_len).
    assert (forall o, o ∈ pending s1 -> o = StageImage \/ o = CreatePod p i) as O1.
    { intros o (t' & m & [[-> ->]|[_ Hm']]%lookup_add & <-)%elem_pending; [by right|left]. by eapply (u_stage _ _ U). }
    assert (np = new_pod (view s1) p i x now basis) as Enp by by rewrite V1.
    destruct (y5_down s v' s1 p i d im r now basis np B1 Hp H P Enp O1) as [D5 E5]. set (s5 := y5 s1 p np) in *.
    assert (durable s5 = surviving v') as E5' by (rewrite E5; destruct T1 as (_ & -> & _); done).
    assert (between s v' s5) as B5 by (eapply between_commit; [exact B1|exact D5|done|exact E5']).
    assert (transactions s5 !! t = Some (transaction_of t (CreatePod p i))) as M5 by apply lookup_insert_eq.
    assert (settled s5 t) as Z by (split_and!; [done|done|done|rewrite M5; by intros ? [= <-]]).
    destruct (finish_between config_len s v' s5 t _ B5 M5 Z) as [R6 B6]. set (s6 := drop_transaction t s5) in *.
    destruct (image_runs config_len s i d v' U H) as (im' & r' & Hm' & Hr' & R0 & _). assert (im' = im) as -> by congruence. clear Hm' Hr' r'.
    eapply (refines_intro encoded_len config_len root _ s (Ok (Storage (pod_storage p i (im_config im) now))) s6 v').
    + cbn [spec]. unfold find_image. by rewrite Vi, Vp.
    + apply (answering_ok s s6 _ Storage). eapply running_bind; [exact R0|].
      eapply running_bind; [apply running_computes; [exact C1|by apply between_refl]|].
      assert (has_storage s p = false) as -> by by apply has_storage_false.
      eapply (running_bind _ s _ _ _ false).
      { apply running_computes; [|by apply between_refl]. eapply computes_eq; [apply (transaction_references_pod_computes config_len); [done|done|apply U]|]. f_equal.
        apply not_true_iff_false. intros ([t' m] & X%list_elem_of_In%elem_transactions & Y)%existsb_exists. cbn in Y. by rewrite (u_stage _ _ U _ _ X) in Y. }
      eapply (running_bind _ s1); [apply begin_runs; [done|by apply between_refl|apply U|done|exact B1]|].
      eapply (running_bind _ s5); [apply running_attempt|].
      * apply (create_inner_runs s v' s1 p i d im r now basis np); done || apply U.
      * cbn beta iota. eapply running_bind; [exact R6|apply running_ret].
    + eapply up_change; [exact U|apply B6|done|apply U| |apply U|apply U|by apply drop_add|apply U|apply U].
      intros part p' w X. change (is_Some (<[p := pv_manifest np]> (pods s) !! p')). destruct (decide (p = p')) as [<-|N]; [rewrite lookup_insert_eq; eauto|].
      rewrite lookup_insert_ne by done. apply (u_orphans _ _ U part p' w).
      change (<[(Temporary, p):=temporary_subvol]> (<[(Docker, p):=new_subvol]> (<[(Workspace, p):=pv_workspace np]> (<[(Root, p):=pv_root np]> (pod_parts s)))) !! (part, p') = Some w) in X.
      by rewrite !lookup_insert_ne in X by congruence.
    + apply (durable_view s6 v'); [|done]. destruct (tame_drop config_len t s5 Z D5) as (_ & V6 & _). etransitivity; [exact V6|exact E5'].
Qed.
End creations.

(** * The operations implement the view: images

    Stagings, publication of images and of their seeds. *)

Section images.
Context (encoded_len : Manifest -> Z) (config_len : ImageConfig -> Z) (root : bytes).
Implicit Types (s : Store) (v : View).
Local Notation down := (down config_len).
Local Notation tame := (tame config_len).
Local Notation up := (up config_len).
Local Notation between := (between config_len).
Local Notation refines := (refines encoded_len config_len root).
Context (manifests_fit : forall m, valid_manifest config_len m -> fits encoded_len m).

(** An opened store with other image stagings. *)
Lemma up_stagings s s' :
  up s -> tame s s' -> no_temps s' -> no_orphans s' -> healthy s' = true -> layout s' ->
  (forall t m, transactions s' !! t = Some m -> operation m = StageImage) -> image_publishing s' = ∅ -> trash s' = ∅ -> up s'.
Proof. intros U (D & _ & M) N O E L T P R. constructor; try done. rewrite M. apply U. Qed.
Lemma refines_begin_image t s : is_unique t -> transactions s !! t = None -> up s -> refines (BeginImage t) s.
Proof.
  intros Ht F U. destruct (fresh_unstaged config_len s t U F) as (Z1 & Z2 & Z3). pose proof (fresh_replaceable s t F) as RP.
  set (s1 := add_transaction t StageImage s). assert (tame s s1) as T1 by (apply tame_add; try done; apply U).
  set (s2 := fill (staging_place t) new_subvol s1).
  assert (tame s1 s2) as T2.
  { apply tame_staging; [|apply T1]. intros t' H. destruct (decide (t = t')) as [<-|N].
    - exists (transaction_of t StageImage). split; [apply lookup_insert_eq|done].
    - rewrite lookup_insert_ne in H by done. destruct (d_staging _ _ (u_down _ _ U) t' H) as (m & Hm & Ho). exists m. split; [|done].
      apply lookup_add. auto. }
  set (v' := (view s) <| v_staged := <[t := new_subvol]> (v_staged (view s)) |>).
  assert (tame s s2) as T by by eapply PodDown.tame_trans.
  assert (between s v' s1) as B1 by (eapply between_tame; [by apply between_refl|done]).
  assert (between s v' s2) as B2 by (eapply between_tame; [exact B1|done]).
  eapply (refines_intro encoded_len config_len root _ s _ s2 v'); [done| | |].
  - apply (answering_ok s s2 _ Staging). eapply (running_bind _ s1); [apply begin_runs; [done|by apply between_refl|apply U|done|exact B1]|].
    eapply (running_bind _ s2); [apply running_attempt, create_subvolume_runs; [apply U|done|exists new_subvol; apply lookup_insert_eq|done|done]|]. apply running_ret.
  - eapply up_stagings; [exact U|exact T|apply U|apply U|apply U|apply U| |apply U|apply U]. intros t' m [[-> ->]|[_ Hm]]%lookup_add; [done|by eapply (u_stage _ _ U)].
  - apply (durable_view s2 v'); [|done]. destruct T as (_ & -> & _). done.
Qed.
(** A handle of this store for a staging that is there. *)
Definition good_handle s (h : ImageStaging) : bool :=
  bool_decide (store_root h = root) && bool_decide (staging_dir h = staging_path (staging_transaction h)) && bool_decide (is_Some (image_staging s !! staging_transaction h)).
Lemma up_staged s h : up s -> staged root s h = good_handle s h.
Proof.
  intros U. unfold staged, good_handle. destruct (image_staging s !! staging_transaction h) as [x|] eqn:X.
  - destruct (d_staging _ _ (u_down _ _ U) (staging_transaction h)) as (m & Hm & _); [eauto|]. pose proof (u_stage _ _ U _ _ Hm) as O.
    rewrite Hm. cbn [option_map]. rewrite O, (bool_decide_true (Some StageImage = Some StageImage)) by done. by rewrite andb_true_r.
  - rewrite (bool_decide_false (is_Some None)) by by intros [? ?]. by rewrite !andb_false_r.
Qed.
Lemma validate_runs s h v : up s -> runs s (validate_staging root h) (if good_handle s h then Ok tt else Err InvalidStaging) s (between s v).
Proof.
  intros U. apply running_computes; [|by apply between_refl]. rewrite <-up_staged by done. by apply (validate_staging_computes config_len); [|apply up_sound].
Qed.
(** The staging goes, with its transaction. *)
Definition unstaged (t : bytes) s : Store := drop_transaction t (no_publishing t (no_staging t s)).
Lemma unstage_runs s t x v :
  up s -> image_staging s !! t = Some x ->
  runs s (do! cleanup_image_publication t; commit_and_finish_transaction t) (Ok tt) (unstaged t s) (between s v)
  /\ up (unstaged t s) /\ view (unstaged t s) = (view s) <| v_staged := delete t (v_staged (view s)) |>.
Proof.
  intros U X. destruct (d_staging _ _ (u_down _ _ U) t) as (m & Hm & _); [eauto|]. pose proof (u_stage _ _ U _ _ Hm) as O.
  assert (good config_len s s) as G by (apply good_refl; apply U). pose proof (cleanup_publication_runs config_len s t s G (u_healthy _ _ U)) as R1.
  set (s1 := no_publishing t (no_staging t s)) in *.
  assert (tame s s1) as T1.
  { eapply PodDown.tame_trans; [apply tame_no_staging, U|]. apply tame_no_publishing. apply tame_no_staging, U. }
  assert (good config_len s s1) as G1 by (split; [done|apply no_temps_no_publishing, U]).
  assert (settled s1 t) as Z.
  { split_and!; [apply lookup_delete_eq|apply lookup_delete_eq|change (trash s !! t = None); by rewrite (u_trash _ _ U)|].
    intros m' Hm'. change (transactions s !! t = Some m') in Hm'. rewrite Hm in Hm'. injection Hm' as <-. by rewrite O. }
  destruct (finish_runs config_len s t m s1 G1 Hm Z) as [R2 G2]. fold (unstaged t s) in R2, G2. split_and!.
  - eapply running_weaken; [|intros z; by apply good_between, between_refl]. eapply running_bind; [exact R1|]. eapply running_bind; [by apply commit_runs; [apply U|]|exact R2].
  - destruct G2 as [T2 N2]. eapply up_stagings; [exact U|exact T2|exact N2|apply U|apply U|apply U| | |apply U].
    + intros t' m' [_ Hm']%lookup_drop. by eapply (u_stage _ _ U).
    + change (delete t (image_publishing s) = ∅). rewrite (u_publishing _ _ U). apply delete_empty.
  - destruct G2 as [(_ & V2 & _) _]. by apply durable_view.
Qed.
Lemma refines_discard_image h s : up s -> refines (DiscardImage h) s.
Proof.
  intros U. set (t := staging_transaction h). destruct (good_handle s h) eqn:G.
  - pose proof G as G'. unfold good_handle in G. fold t in G. apply andb_true_iff in G as [G [x X]%bool_decide_eq_true].
    destruct (unstage_runs s t x ((view s) <| v_staged := delete t (v_staged (view s)) |>) U X) as (R & U' & V').
    eapply refines_intro; [|apply (answering_ok _ _ _ (fun _ => Done) tt)|exact U'|exact V'].
    + cbn [spec]. fold t. change (v_staged (view s)) with (image_staging s). rewrite G, X, bool_decide_true by eauto. done.
    + eapply running_bind; [|exact R]. eapply running_eq; [by apply validate_runs|by rewrite G'|done].
  - eapply refines_intro; [|apply answering_err; eapply running_fail; eapply running_eq; [by apply validate_runs|by rewrite G|done]|exact U|done].
    cbn [spec]. change (v_staged (view s)) with (image_staging s). unfold good_handle in G. by rewrite G.
Qed.

(** ** Publication *)
Section publication.
Context s v (s1 : Store) (t i : bytes) (c : ImageConfig) (now : Z) (x : Subvol).
Context (B1 : between s v s1) (E1 : healthy s1 = true) (St : stages s1 t).
Context (Vi : is_image i) (Vc : validate_config config_len c = Ok tt) (Vn : is_time now).
Context (X1 : image_staging s1 !! t = Some x) (P1 : image_publishing s1 = ∅) (I1 : images s1 !! i = None).
Definition image_manifest : ImageManifest :=
  {| im_format_version := STORE_FORMAT_VERSION; im_id := i; im_config := c; im_created_at_unix_ms := now |}.
(** The directory [d] of the image, with the staging moved into it. *)
Definition holding (d : ImageDir) : Store := (no_staging t s1) <| image_publishing := {[t := d]} |>.
Lemma holding_between d : im_seed d = None -> between s v (holding d).
Proof.
  intros Z. eapply between_tame; [eapply between_tame; [exact B1|apply tame_no_staging]|]. intros D. apply tame_publishing; [|done].
  intros t' d' [<- <-]%lookup_singleton_Some. done.
Qed.
Lemma holding_alter d f : (holding d) <| image_publishing := alter f t (image_publishing (holding d)) |> = holding (f d).
Proof.
  change ((no_staging t s1) <| image_publishing := alter f t ({[t := d]} : gmap bytes ImageDir) |> = (no_staging t s1) <| image_publishing := {[t := f d]} |>).
  by rewrite alter_singleton_eq.
Qed.
Lemma holding_lookup d : image_publishing (holding d) !! t = Some d.
Proof. apply lookup_singleton_eq. Qed.
Definition d1 : ImageDir := set_root (Some x) new_image_dir.
Definition d2 : ImageDir := d1 <| im_manifest := Some image_manifest |>.
Definition d3 : ImageDir := set_root (Some (frozen x)) d2.
Definition published : Store := (no_staging t s1) <| images := <[i := d3]> (images s1) |>.
Lemma published_eq :
  (holding d3) <| image_publishing := delete t (image_publishing (holding d3)) |> <| images := <[i := d3]> (images (holding d3)) |> = published.
Proof.
  change (image_publishing (holding d3)) with ({[t := d3]} : gmap bytes ImageDir). rewrite delete_singleton_eq.
  change ((no_staging t s1) <| image_publishing := ∅ |> <| images := <[i := d3]> (images s1) |> = (no_staging t s1) <| images := <[i := d3]> (images s1) |>).
  rewrite <-P1. by destruct s1.
Qed.
Lemma d3_complete : complete_image config_len i d3.
Proof. exists image_manifest, (frozen x). split_and!; try done. Qed.
Lemma publish_inner_runs h :
  staging_transaction h = t -> between s v published ->
  runs s1 (publish_image_inner encoded_len h i c now) (Ok (generation_of i image_manifest)) published (between s v).
Proof.
  intros Hh B2. unfold publish_image_inner. rewrite Hh. fold image_manifest.
  set (s2 := s1 <| image_publishing := <[t := new_image_dir]> (image_publishing s1) |>).
  assert (between s v s2) as Bs2.
  { eapply between_tame; [exact B1|]. intros D. apply tame_publishing; [|done]. rewrite P1. intros t' d [<- <-]%lookup_singleton_Some. done. }
  eapply (running_bind _ s2).
  { eapply running_bind; [by apply path_state_runs|]. cbn beta.
    assert (image_publishing s1 !! t = None) as -> by by rewrite P1. eapply running_bind; [by apply running_syscall|]. by apply sync_runs. }
  eapply (running_bind _ (holding d1)).
  { unfold move_staging. eapply running_bind; [apply running_computes; [apply computes_get|done]|]. change (image_staging s2) with (image_staging s1). rewrite X1.
    eapply running_eq; [by apply running_syscall|done|]. unfold holding. change (no_staging t s1 <| image_publishing := alter (set_root (Some x)) t (<[t := new_image_dir]> (image_publishing s1)) |> = holding d1).
    rewrite P1. unfold holding. change (<[t:=new_image_dir]> ∅) with ({[t := new_image_dir]} : gmap bytes ImageDir). by rewrite alter_singleton_eq. }
  assert (between s v (holding d1)) as H1 by by apply holding_between. assert (between s v (holding d2)) as H2 by by apply holding_between.
  assert (between s v (holding d3)) as H3 by by apply holding_between.
  eapply running_bind; [by apply sync_runs|]. eapply running_bind; [by apply sync_runs|]. eapply (running_bind _ (holding d2)).
  { eapply running_eq; [eapply (write_json_runs encoded_len (holding d1)); [by apply manifests_fit| |done|by apply between_temps|]|done|].
    - unfold parent_there. rewrite holding_lookup, bool_decide_true by eauto. done.
    - rewrite holding_alter. exact H2.
    - by rewrite holding_alter. }
  eapply (running_bind _ (holding d2)); [apply (read_json_runs _ _ _ image_manifest); [by rewrite holding_lookup|done]|].
  rewrite decide_True by done.
  assert (modify (publishing_root t) (fun y : Subvol => y <| sv_read_only := true |>) (holding d2) = holding d3) as M.
  { rewrite (modify_some _ _ _ x); [|cbn [look publishing_root]; by rewrite holding_lookup]. cbn [fill publishing_root]. by rewrite holding_alter. }
  eapply (running_bind _ (holding d3)); [eapply running_eq; [apply run_btrfs_one; [done|done|by rewrite M]|done|exact M]|].
  eapply running_bind; [by apply commit_runs|]. eapply (running_bind _ published).
  { unfold move_published. eapply running_bind; [apply running_computes; [apply computes_get|done]|]. rewrite holding_lookup.
    change (images (holding d3)) with (images s1). rewrite I1. eapply running_eq; [by apply running_syscall|done|]. apply published_eq. }
  eapply running_bind; [by apply sync_runs|]. eapply running_bind; [by apply sync_runs|]. eapply running_bind; [by apply commit_runs|]. apply running_ret.
Qed.
Lemma published_down :
  (forall o, o ∈ pending s1 -> o = StageImage \/ o = PublishImage i) ->
  down published /\ durable published = (durable s1) <| v_images := <[i := {| iv_manifest := image_manifest; iv_root := frozen x; iv_seed := None |}]> (v_images (durable s1)) |>.
Proof.
  intros O. assert (tame s1 (no_staging t s1)) as T by apply tame_no_staging, B1.
  assert (tame (no_staging t s1) (holding d3)) as T3.
  { apply tame_publishing; [|apply T]. by intros t' d' [<- <-]%lookup_singleton_Some. }
  destruct (commit_image config_len t i d3 image_manifest (frozen x) (holding d3)) as [D V]; try done.
  - apply d3_complete.
  - intros C. by destruct (O _ C).
  - apply T3.
  - rewrite published_eq in D, V. split; [done|]. rewrite V. destruct T3 as (_ & -> & _). destruct T as (_ & -> & _). done.
Qed.
End publication.
Lemma up_no_reference s t i : up s ->
  existsb (fun x => negb (bool_decide (transaction_id x.2 = t)) && references_image (operation x.2) i) (transaction_list s) = false.
Proof.
  intros U. apply not_true_iff_false. intros ([t' m] & X%list_elem_of_In%elem_transactions & Y)%existsb_exists. cbn in Y.
  rewrite (u_stage _ _ U _ _ X) in Y. cbn in Y. by rewrite andb_false_r in Y.
Qed.
Lemma refines_publish_image h i c now s :
  is_image i -> validate_config config_len c = Ok tt -> is_time now -> up s -> refines (PublishImageAs h i c now) s.
Proof.
  intros Hi Hc Hn U. set (t := staging_transaction h). destruct (good_handle s h) eqn:G.
  2: { eapply refines_intro; [|apply answering_err; eapply running_fail; eapply running_eq; [by apply validate_runs|by rewrite G|done]|exact U|done].
    cbn [spec]. change (v_staged (view s)) with (image_staging s). unfold good_handle in G. destruct (bool_decide (store_root h = root) && _); [|done].
    apply bool_decide_eq_false, eq_None_not_Some in G. by rewrite G. }
  pose proof G as G'. unfold good_handle in G. fold t in G. apply andb_true_iff in G as [G [x X]%bool_decide_eq_true].
  destruct (images s !! i) as [d|] eqn:I.
  - set (v' := (view s) <| v_staged := delete t (v_staged (view s)) |>). destruct (unstage_runs s t x v' U X) as (R & U' & V').
    destruct (image_runs config_len s i d (view s) U I) as (im & r & _ & _ & _ & Vi).
    eapply (refines_intro encoded_len config_len root _ s (Err (ImageExists i)) (unstaged t s) v'); [|apply answering_err|exact U'|exact V'].
    + cbn [spec]. fold t. change (v_staged (view s)) with (image_staging s). by rewrite G, X, Vi.
    + unfold publish_image. fold t. eapply (running_bind _ s _ _ _ tt); [eapply running_eq; [by apply validate_runs|by rewrite G'|done]|].
      eapply running_bind; [by apply path_state_runs, between_refl|]. cbn beta. rewrite I. eapply running_bind; [apply running_ret|].
      unfold roll_back. eapply running_bind; [apply running_attempt; exact R|]. apply running_raise.
  - set (iv := {| iv_manifest := image_manifest i c now; iv_root := frozen x; iv_seed := None |}).
    set (v' := (view s) <| v_staged := delete t (v_staged (view s)) |> <| v_images := <[i := iv]> (v_images (view s)) |>).
    destruct (d_staging _ _ (u_down _ _ U) t) as (m & Hm & _); [eauto|]. pose proof (u_stage _ _ U _ _ Hm) as O.
    assert (is_unique t) as Ht by by destruct (sound_transactions _ _ (up_sound config_len s U) _ _ Hm).
    assert (replaceable t s) as RP by (intros m' Hm'; by rewrite (u_stage _ _ U _ _ Hm')).
    set (s1 := add_transaction t (PublishImage i) s). assert (tame s s1) as T1 by (apply tame_add; try done; apply U).
    assert (between s v' s1) as B1 by (eapply between_tame; [by apply between_refl|done]).
    assert (transactions s1 !! t = Some (transaction_of t (PublishImage i))) as M1 by apply lookup_insert_eq.
    assert (stages s1 t) as St by by exists (transaction_of t (PublishImage i)).
    assert (forall o, o ∈ pending s1 -> o = StageImage \/ o = PublishImage i) as O1.
    { intros o (t' & m' & [[-> ->]|[_ Hm']]%lookup_add & <-)%elem_pending; [by right|left]. by eapply (u_stage _ _ U). }
    assert (image_publishing s1 = ∅) as P1 by apply U. assert (healthy s1 = true) as E1 by apply U. destruct (published_down s v' s1 t i c now x) as [D2 E2]; try done. set (s2 := published s1 t i c now x) in *.
    assert (durable s2 = surviving v') as E2' by (rewrite E2; destruct T1 as (_ & -> & _); done).
    assert (between s v' s2) as B2 by (eapply between_commit; [exact B1|exact D2|done|exact E2']).
    assert (settled s2 t) as Z.
    { split_and!; [apply lookup_delete_eq|change (image_publishing s !! t = None); by rewrite (u_publishing _ _ U)|change (trash s !! t = None); by rewrite (u_trash _ _ U)|].
      intros m' Hm'. change (transactions s1 !! t = Some m') in Hm'. rewrite M1 in Hm'. by injection Hm' as <-. }
    destruct (finish_between config_len s v' s2 t _ B2 M1 Z) as [R3 B3]. set (s3 := drop_transaction t s2) in *.
    eapply (refines_intro encoded_len config_len root _ s (Ok (Generation (generation_of i (image_manifest i c now)))) s3 v').
    + cbn [spec]. fold t. change (v_staged (view s)) with (image_staging s). by rewrite G, X, (up_no_image s).
    + apply (answering_ok s s3 _ Generation). unfold publish_image. fold t. eapply (running_bind _ s _ _ _ tt); [eapply running_eq; [by apply validate_runs|by rewrite G'|done]|].
      eapply running_bind; [by apply path_state_runs, between_refl|]. cbn beta. rewrite I. eapply (running_bind _ s _ _ _ false).
      { eapply running_bind; [apply running_computes; [apply (read_transactions_computes config_len); [done|by apply up_sound|apply U]|by apply between_refl]|].
        eapply running_eq; [apply running_ret| |done]. f_equal. by apply up_no_reference. }
      eapply (running_bind _ s1); [apply begin_runs; [done|by apply between_refl|apply U|done|exact B1]|].
      eapply (running_bind _ s2); [apply running_attempt, (publish_inner_runs s v' s1 t i c now x); try done; apply U|].
      cbn beta iota. eapply running_bind; [exact R3|apply running_ret].
    + constructor; [apply B3| |apply U|apply U|apply B3| |apply U|apply U|apply U].
      * destruct (u_temps _ _ U) as (N1 & N2 & N3). split_and!; [|exact N2|exact N3]. intros j d' Hd. change (<[i := d3 i c now x]> (images s) !! j = Some d') in Hd.
        apply lookup_insert_Some in Hd as [[_ <-]|[_ Hd]]; [done|by eapply N1].
      * intros t' m' [N [[? ?]|[_ Hm']]%lookup_add]%lookup_drop; [done|]. by eapply (u_stage _ _ U).
    + apply (durable_view s3 v'); [|done]. destruct (tame_drop config_len t s2 Z D2) as (_ & V3 & _). etransitivity; [exact V3|exact E2'].
Qed.
End images.

(** * The operations implement the view: seeds

    A generation of a seed is built aside; the manifest in the image directory switches to
    it, and the previous one is deleted. *)

Section seeds.
Context (encoded_len : Manifest -> Z) (config_len : ImageConfig -> Z) (root : bytes).
Implicit Types (s : Store) (v : View).
Local Notation down := (down config_len).
Local Notation tame := (tame config_len).
Local Notation up := (up config_len).
Local Notation between := (between config_len).
Local Notation refines := (refines encoded_len config_len root).
Context (manifests_fit : forall m, valid_manifest config_len m -> fits encoded_len m).

Section generation.
Context s v (x : Store) (i c g : bytes) (d : ImageDir) (r w : Subvol) (src_r src_w : Store -> option Subvol).
Context (U : up x) (Vx : view x = view s) (Ev : v = with_seed i c r w (view x)).
Context (Vi : is_image i) (Vc : is_image c) (Vg : is_unique g).
Context (Hi : images x !! i = Some d) (Hg : seeds x !! g = None).
(** The store with the directory [e] of the generation. *)
Definition seeding (e : SeedDir) : Store := x <| seeds := <[g := e]> (seeds x) |>.
Context (Hr : forall e, src_r (seeding e) = Some r) (Hw : forall e, src_w (seeding e) = Some w).
Lemma fresh_unnamed : unnamed g x.
Proof.
  intros j m Hm E. destruct (d_seeds _ _ (u_down _ _ U) j m Hm) as [[y Hy] _]. cbn in Hy. by rewrite E, Hg in Hy.
Qed.
Lemma seeding_tame e : tame x (seeding e).
Proof. apply (tame_seeds config_len x g); [intros g' N; by rewrite lookup_insert_ne|apply fresh_unnamed|apply U]. Qed.
Lemma base_between : between s v x.
Proof. eapply between_view; [exact Vx|by apply between_refl]. Qed.
Lemma seeding_between e : between s v (seeding e).
Proof. eapply between_tame; [apply base_between|]. intros _. apply seeding_tame. Qed.
Lemma seeding_alter e f : (seeding e) <| seeds := alter f g (seeds (seeding e)) |> = seeding (f e).
Proof.
  change (x <| seeds := alter f g (<[g := e]> (seeds x)) |> = x <| seeds := <[g := f e]> (seeds x) |>). f_equal.
  assert (alter f g (<[g:=e]> (seeds x)) = <[g:=f e]> (seeds x)) as ->; [|done].
  apply map_eq. intros k. destruct (decide (g = k)) as [<-|N]; [by rewrite lookup_alter_eq, !lookup_insert_eq|by rewrite lookup_alter_ne, !lookup_insert_ne].
Qed.
Lemma look_seeding_root e : look (seed_root g) (seeding e) = sd_root e.
Proof. change (<[g := e]> (seeds x) !! g ≫= sd_root = sd_root e). by rewrite lookup_insert_eq. Qed.
Lemma look_seeding_workspace e : look (seed_workspace g) (seeding e) = sd_workspace e.
Proof. change (<[g := e]> (seeds x) !! g ≫= sd_workspace = sd_workspace e). by rewrite lookup_insert_eq. Qed.
Lemma fill_seeding_root e y : fill (seed_root g) y (seeding e) = seeding (e <| sd_root := Some y |>).
Proof. apply seeding_alter. Qed.
Lemma fill_seeding_workspace e y : fill (seed_workspace g) y (seeding e) = seeding (e <| sd_workspace := Some y |>).
Proof. apply seeding_alter. Qed.
Definition seed_manifest : SetupSeedManifest := {| sm_image := i; sm_context := c; sm_generation := g |}.
Definition seed_dir : SeedDir := {| sd_root := Some (frozen (snapshot_of r)); sd_workspace := Some (frozen (snapshot_of w)) |}.
Definition switched : Store := (seeding seed_dir) <| images := alter (fun d => d <| im_seed := Some seed_manifest |>) i (images x) |>.
Lemma switched_down : down switched /\ durable switched = surviving v.
Proof.
  destruct (seeding_tame seed_dir) as (D & V & _).
  destruct (commit_seed config_len i seed_manifest d (frozen (snapshot_of r)) (frozen (snapshot_of w)) (seeding seed_dir)) as [D' V'].
  - exact Hi.
  - done.
  - exact Vc.
  - apply look_seeding_root.
  - apply look_seeding_workspace.
  - exact fresh_unnamed.
  - intros t m H. unfold trash_seed in H. change (trash (seeding seed_dir)) with (trash x) in H. by rewrite (u_trash _ _ U), lookup_empty in H.
  - exact D.
  - split; [exact D'|]. etransitivity; [exact V'|]. rewrite V, Ev. done.
Qed.
Lemma switched_between : between s v switched.
Proof. destruct switched_down as [D V]. eapply between_commit; [apply (seeding_between seed_dir)|exact D|done|exact V]. Qed.
Lemma write_seed_runs : runs (seeding new_seed_dir) (write_seed encoded_len i c g src_r src_w) (Ok tt) switched (between s v).
Proof.
  unfold write_seed. pose proof seeding_between as B. set (e1 := new_seed_dir <| sd_root := Some (snapshot_of r) |>).
  set (e2 := e1 <| sd_workspace := Some (snapshot_of w) |>). set (e3 := e2 <| sd_root := Some (frozen (snapshot_of r)) |>).
  eapply (running_bind _ (seeding e1)).
  { eapply running_eq; [apply (snapshot_runs _ _ _ _ r); [apply U|apply look_seeding_root|done| |apply B|]|done|apply fill_seeding_root]; rewrite fill_seeding_root; [|apply B].
    rewrite look_seeding_root. by exists (snapshot_of r). }
  eapply (running_bind _ (seeding e2)).
  { eapply running_eq; [apply (snapshot_runs _ _ _ _ w); [apply U|apply look_seeding_workspace|done| |apply B|]|done|apply fill_seeding_workspace]; rewrite fill_seeding_workspace; [|apply B].
    rewrite look_seeding_workspace. by exists (snapshot_of w). }
  assert (modify (seed_root g) frozen (seeding e2) = seeding e3) as M3.
  { rewrite (modify_some _ _ _ (snapshot_of r)) by apply look_seeding_root. apply fill_seeding_root. }
  assert (modify (seed_workspace g) frozen (seeding e3) = seeding seed_dir) as M4.
  { rewrite (modify_some _ _ _ (snapshot_of w)) by apply look_seeding_workspace. apply fill_seeding_workspace. }
  eapply (running_bind _ (seeding e3)).
  { eapply running_eq; [apply (run_btrfs_one _ _ (modify (seed_root g) frozen)); [apply U|apply B|rewrite M3; apply B]|done|exact M3]. }
  eapply (running_bind _ (seeding seed_dir)).
  { eapply running_eq; [apply (run_btrfs_one _ _ (modify (seed_workspace g) frozen)); [apply U|apply B|rewrite M4; apply B]|done|exact M4]. }
  eapply running_bind; [apply commit_runs; [apply U|apply B]|]. fold seed_manifest.
  eapply running_eq; [eapply (write_json_runs encoded_len (seeding seed_dir)); [by apply manifests_fit| |apply B|apply between_temps, B|exact switched_between]|done|done].
  unfold parent_there. rewrite bool_decide_true; [done|]. by exists d.
Qed.
(** Retiring the previous generation. *)
Definition retired : Store := match im_seed d with Some m => no_seed (sm_generation m) switched | None => switched end.
Lemma seed_manifest_switched j : seed_manifest_of j switched = if decide (i = j) then Some seed_manifest else seed_manifest_of j x.
Proof.
  unfold seed_manifest_of. change (images switched) with (alter (fun d => d <| im_seed := Some seed_manifest |>) i (images x)).
  case_decide as E; [subst j; by rewrite lookup_alter_eq, Hi|by rewrite lookup_alter_ne].
Qed.
Lemma previous_unnamed m : im_seed d = Some m -> unnamed (sm_generation m) switched.
Proof.
  intros Hm. assert (seed_manifest_of i x = Some m) as Hs by (unfold seed_manifest_of; by rewrite Hi). intros j m'. rewrite seed_manifest_switched. case_decide as E.
  - intros [= <-] X. cbn in X. by apply (fresh_unnamed i m Hs).
  - intros Hj X. apply E. apply (d_unique _ _ (u_down _ _ U) i j m m'); congruence.
Qed.
Lemma retire_runs m : im_seed d = Some m -> runs switched (delete_seed_generation (sm_generation m)) (Ok tt) (no_seed (sm_generation m) switched) (between s v).
Proof.
  intros Hm. apply delete_generation_runs; [|exact switched_between|apply U]. intros y Hy.
  eapply between_tame; [exact switched_between|]. intros D. apply (tame_seeds config_len switched (sm_generation m)); [done|by apply previous_unnamed|done].
Qed.
Lemma retired_up : up retired /\ view retired = v.
Proof.
  assert (tame switched retired) as T.
  { unfold retired. destruct (im_seed d) as [m|] eqn:Hm; [|by apply PodDown.tame_refl, switched_down].
    apply (tame_seeds config_len switched (sm_generation m)); [intros; by rewrite lookup_delete_ne|by apply previous_unnamed|apply switched_down]. }
  assert (forall P : Store -> Prop, P switched -> (forall y, P switched -> P (switched <| seeds := y |>)) -> P retired) as K.
  { intros P P0 P1. unfold retired. destruct (im_seed d); [by apply P1|done]. }
  split.
  - eapply up_change; [exact U|apply T|..].
    + by apply (K (fun y => store_manifest y = store_manifest x)).
    + apply (K no_temps); [|done]. destruct (u_temps _ _ U) as (N1 & N2 & N3). split_and!; [|exact N2|exact N3]. intros j e Hj.
      change (alter (fun d => d <| im_seed := Some seed_manifest |>) i (images x) !! j = Some e) in Hj.
      apply lookup_alter_Some in Hj as [(<- & e' & Hj & ->)|[_ Hj]]; by eapply (N1 _ _ Hj).
    + by apply (K no_orphans); [apply U|].
    + by apply (K (fun y => healthy y = true)); [apply U|].
    + by apply (K layout); [apply U|].
    + by apply (K (fun y => transactions y = transactions x)).
    + by apply (K (fun y => image_publishing y = ∅)); [apply U|].
    + by apply (K (fun y => trash y = ∅)); [apply U|].
  - apply (durable_view retired v).
    + destruct T as (_ & V & _). etransitivity; [exact V|]. apply switched_down.
    + rewrite Ev. change (image_staging retired = image_staging x). by apply (K (fun y => image_staging y = image_staging x)).
Qed.
End generation.

Lemma create_directory_runs s g a Y :
  seeds s !! g = None -> Y s -> runs s (create_seed_directory g a) (Ok tt) (seeding s g new_seed_dir) Y.
Proof.
  intros H HY. eapply running_bind; [apply running_computes; [apply computes_get|done]|]. rewrite H. eapply running_eq; [by apply running_syscall|done|done].
Qed.
Lemma with_temporary_idem p s : with_temporary p (with_temporary p s) = with_temporary p s.
Proof.
  unfold with_temporary at 2 3. destruct (pod_parts s !! (Temporary, p)) eqn:X; unfold with_temporary; [by rewrite X|].
  assert (pod_parts (fill (part_place Temporary p) temporary_subvol s) !! (Temporary, p) = Some temporary_subvol) as -> by apply look_part. done.
Qed.
Lemma refines_publish_setup_seed g p c s : is_unique g -> is_pod p -> is_image c -> seeds s !! g = None -> up s -> refines (PublishSetupSeed g p c) s.
Proof.
  intros Hg Hp Hc F U. destruct (pods s !! p) as [m|] eqn:P.
  2: { destruct (up_no_pod config_len s U p P) as [V _].
    eapply refines_intro; [|by apply answering_err; eapply running_fail, no_pod_runs|exact U|done]. cbn [spec]. unfold find_pod. by rewrite V. }
  destruct (pod_runs config_len s p m U P) as (y & R & z & V & Em & _ & Ei). destruct (with_temporary_up config_len p m s U P) as [U1 V1].
  set (x := with_temporary p s) in *. assert (pods x !! p = Some m) as P1 by (unfold x, with_temporary; by case_match).
  assert (seeds x !! g = None) as F1 by (unfold x, with_temporary; by case_match).
  destruct (pod_runs config_len x p m U1 P1) as (y' & R' & z' & V' & _ & _ & Ei'). assert (with_temporary p x = x) as Tx by apply with_temporary_idem. rewrite Tx in R'.
  destruct (up_pod config_len x U1 p m P1) as (r & w & k & Hr & Hw & _ & _ & [d Hd] & Vz). rewrite V1, V in Vz. injection Vz as ->.
  set (i := pm_image m) in *. assert (is_image i) as Vi by by destruct (sound_images _ _ (up_sound config_len x U1) _ _ Hd).
  set (v := with_seed i c r w (view x)). set (sr := look (part_place Root p)). set (sw := look (part_place Workspace p)).
  destruct (retired_up v x i c g d r w) as [U2 V2]; try done. set (x' := retired x i c g d r w) in *.
  pose proof (switched_between s v x i c g d r w) as B. pose proof (base_between s v x U1 V1) as B0.
  eapply (refines_intro encoded_len config_len root _ s (Ok (Identifier (Some g))) x' v).
  - cbn [spec]. unfold find_pod. rewrite V. cbn [pv_manifest pv_root pv_workspace]. fold i. by rewrite <-V1.
  - apply (answering_ok s x' _ (fun g => Identifier (Some g))). unfold publish_setup_seed. eapply running_bind; [apply R|].
    eapply running_bind; [eapply running_weaken; [apply R'|intros ?; by apply between_view]|]. rewrite Ei, Ei'. rewrite decide_True by done. fold i.
    destruct (seed_computes config_len x i d (u_down _ _ U1) Hd) as [C _]. eapply running_bind; [apply running_computes; [exact C|exact B0]|].
    eapply running_bind; [by apply create_directory_runs|].
    eapply running_bind; [apply running_attempt; apply (write_seed_runs s v x i c g d r w sr sw); try done|].
    cbn beta iota. eapply (running_bind _ x'); [|apply running_ret]. unfold x', retired. destruct (im_seed d) as [pm|] eqn:Hs; [|apply running_ret].
    eapply running_bind; [apply running_attempt; by apply (retire_runs s v x i c g d r w)|]. apply running_ret.
  - exact U2.
  - exact V2.
Qed.
Lemma refines_publish_workspace_seed g i source s :
  is_unique g -> is_image i -> seeds s !! g = None -> up s ->
  refines (PublishImageWorkspaceSeed g i source) s.
Proof.
  intros Hg Vi F U. destruct (images s !! i) as [d|] eqn:Hd.
  2: { assert (computes crash_event s (setup_seed_for_image_with_manifest i) (Ok None)) as C.
    { eapply computes_eq; [apply (setup_seed_computes config_len); [done|by apply up_sound]|]. unfold seed_of, seed_manifest_of. by rewrite Hd. }
    eapply refines_intro; [|apply answering_err; eapply running_bind; [apply running_computes; [exact C|by apply between_refl]|apply running_raise]|exact U|done].
    cbn [spec]. by rewrite (up_no_image s). }
  destruct (seed_computes config_len s i d (u_down _ _ U) Hd) as [C A]. destruct (image_runs config_len s i d (view s) U Hd) as (im & ir & _ & _ & _ & Vd).
  destruct (im_seed d) as [m|] eqn:Hs.
  2: { eapply refines_intro; [|apply answering_err; eapply running_bind; [apply running_computes; [exact C|by apply between_refl]|apply running_raise]|exact U|done].
    cbn [spec]. rewrite Vd. cbn [mbind option_bind iv_seed]. by rewrite ?Hs. }
  destruct (A m eq_refl) as (r & w0 & Hr & _ & W). pose proof (canonicalize_computes s source "canonicalize image workspace seed source") as CC.
  assert (v_images (view s) !! i ≫= iv_seed = Some (sm_context m, r, w0)) as Vs by (rewrite Vd; cbn [mbind option_bind iv_seed]; rewrite ?Hs; exact W).
  destruct (outside s !! source) as [w|] eqn:O.
  2: { eapply refines_intro; [|apply answering_err; eapply running_bind; [apply running_computes; [exact C|by apply between_refl]|]; eapply running_fail, running_computes; [exact CC|by apply between_refl]|exact U|done].
    cbn [spec]. rewrite Vs. unfold sources. change (v_outside (view s)) with (outside s). by rewrite O. }
  set (c := sm_context m) in *. set (v := with_seed i c r w (view s)). set (sr := look (seed_root (sm_generation m))). set (sw := look (outside_place source)).
  assert (is_image c) as Vc by (apply (seed_manifest_valid config_len s (up_sound config_len s U) i m); unfold seed_manifest_of; by rewrite Hd).
  assert (g <> sm_generation m) as N by (intros ->; cbn in Hr; by rewrite F in Hr).
  destruct (retired_up v s i c g d r w) as [U2 V2]; try done. set (x' := retired s i c g d r w) in *.
  eapply (refines_intro encoded_len config_len root _ s (Ok (Identifier (Some g))) x' v).
  - cbn [spec]. rewrite Vs. unfold sources. change (v_outside (view s)) with (outside s). by rewrite O.
  - apply (answering_ok s x' _ (fun g => Identifier (Some g))). unfold publish_image_workspace_seed.
    eapply running_bind; [apply running_computes; [exact C|by apply between_refl]|]. eapply running_bind; [apply running_computes; [exact CC|by apply between_refl]|].
    eapply running_bind; [apply create_directory_runs; [done|by apply between_refl]|].
    eapply running_bind; [apply running_attempt; apply (write_seed_runs s v s i c g d r w sr sw); try done|].
    + intros e. change (<[g := e]> (seeds s) !! sm_generation m ≫= sd_root = Some r). by rewrite lookup_insert_ne.
    + cbn beta iota. unfold x', retired. rewrite Hs. eapply running_bind; [apply running_attempt; by apply (retire_runs s v s i c g d r w)|]. apply running_ret.
  - exact U2.
  - exact V2.
Qed.
End seeds.

(** * Caches, staging workspaces and the image of a seed

    The operations that change nothing that survives but subvolumes outside the store. *)

Section staging.
Context (encoded_len : Manifest -> Z) (config_len : ImageConfig -> Z) (root : bytes).
Implicit Types (s : Store) (v : View).
Local Notation down := (down config_len).
Local Notation up := (up config_len).
Local Notation between := (between config_len).
Local Notation refines := (refines encoded_len config_len root).
Lemma refines_ensure_cache name s : up s -> refines (EnsureCache name) s.
Proof.
  intros U. assert (forall m : gmap bytes Subvol, between s (view s) (s <| caches := m |>)) as B.
  { intros m. eapply between_tame; [by apply between_refl|]. by apply tame_elsewhere. }
  assert (forall m : gmap bytes Subvol, up (s <| caches := m |>)) as U'.
  { intros m. eapply up_change; [exact U| |done|apply U|apply U|apply U|apply U|done|apply U|apply U]. apply (tame_elsewhere config_len s); try done. apply U. }
  unfold exec, ensure_cache. destruct (pod_id name) as [i|e|x] eqn:V.
  - set (l := cache_place name). destruct (caches s !! name) as [y|] eqn:X.
    + eapply (refines_intro _ _ _ _ s (Ok (Located (Some (cache_path name)))) s); [cbn [spec]; by rewrite V| |exact U|done].
      apply (answering_ok s s _ (fun p => Located (Some p))). unfold ensure_cache. rewrite V.
      eapply running_bind; [by apply path_state_runs, between_refl|]. fold l. change (look l s) with (caches s !! name). rewrite X. apply running_ret.
    + set (s1 := fill l new_subvol s). set (s2 := fill l (new_subvol <| sv_mode := 511 |>) s1).
      assert (look l s1 = Some new_subvol) as L1 by apply lookup_insert_eq.
      assert (exists m, s2 = s <| caches := m |>) as [m E2] by by eexists.
      eapply (refines_intro _ _ _ _ s (Ok (Located (Some (cache_path name)))) s2); [cbn [spec]; by rewrite V| |rewrite E2; apply U'|by rewrite E2].
      apply (answering_ok s s2 _ (fun p => Located (Some p))). unfold ensure_cache. rewrite V.
      eapply running_bind; [by apply path_state_runs, between_refl|]. fold l. change (look l s) with (caches s !! name). rewrite X.
      eapply (running_bind _ s1); [apply create_subvolume_runs; [apply U|exact X|by exists new_subvol|by apply between_refl|apply B]|].
      eapply (running_bind _ s2); [apply chmod_runs; [exact L1|apply B]|]. eapply running_bind; [apply commit_runs; [rewrite E2; apply U|rewrite E2; apply B]|]. apply running_ret.
  - eapply refines_intro; [|apply answering_err; unfold ensure_cache; rewrite V; apply running_raise|exact U|done]. cbn [spec]. by rewrite V.
  - exfalso. revert V. unfold pod_id. repeat case_match; done.
Qed.
(** ** Staging workspaces *)
Lemma outside_change s (m : gmap bytes Subvol) : up s -> let s' := s <| outside := m |> in
  up s' /\ view s' = (view s) <| v_outside := m |> /\ between s ((view s) <| v_outside := m |>) s'.
Proof.
  intros U s'. destruct (down_elsewhere config_len s s') as (D & F1 & F2); try done; [apply U|].
  assert (up s') as U' by (eapply up_change; [exact U|exact D|done|apply U|apply U|apply U|apply U|done|apply U|apply U]). split_and!; [done|done|].
  split_and!; [exact D|apply U|by right].
Qed.
Lemma refines_create_staging source destination s : up s -> refines (CreateStagingWorkspace source destination) s.
Proof.
  intros U. set (l := outside_place destination). assert (between s (view s) s) as B0 by by apply between_refl.
  destruct (outside s !! destination) as [y|] eqn:X.
  { eapply refines_intro; [|apply answering_err|exact U|done].
    - cbn [spec]. change (v_outside (view s)) with (outside s). by rewrite X.
    - destruct source; (eapply running_bind; [by apply path_state_runs|]); cbn beta; change (look (outside_place destination) s) with (outside s !! destination); rewrite X; apply running_raise. }
  destruct source as [p|].
  - destruct (outside s !! p) as [x|] eqn:P.
    + destruct (outside_change s (<[destination := snapshot_of x]> (outside s)) U) as (U' & V' & B').
      eapply refines_intro; [|apply (answering_ok _ _ _ (fun _ => Done) tt)|exact U'|exact V'].
      * cbn [spec]. change (v_outside (view s)) with (outside s). by rewrite X, P.
      * apply (snapshot_runs s _ l _ x); [apply U|exact X|exact P|exists (snapshot_of x); apply lookup_insert_eq|by apply between_refl|exact B'].
    + eapply refines_intro; [|apply answering_err|exact U|done].
      * cbn [spec]. change (v_outside (view s)) with (outside s). by rewrite X, P.
      * eapply running_bind; [by apply path_state_runs|]. cbn beta. change (look (outside_place destination) s) with (outside s !! destination). rewrite X.
        eapply running_bind; [apply running_computes; [apply computes_get|done]|]. cbn beta. change (look (outside_place p) s) with (outside s !! p). rewrite P.
        eapply running_fail. eapply running_bind; [apply run_btrfs_runs; [apply U|by intros [|? ?]]|]. apply running_raise.
  - destruct (outside_change s (<[destination := new_subvol]> (outside s)) U) as (U' & V' & B').
    eapply refines_intro; [|apply (answering_ok _ _ _ (fun _ => Done) tt)|exact U'|exact V'].
    + cbn [spec]. change (v_outside (view s)) with (outside s). by rewrite X.
    + apply (create_subvolume_runs s l); [apply U|exact X|exists new_subvol; apply lookup_insert_eq|by apply between_refl|exact B'].
Qed.
Lemma refines_remove_staging p s : up s -> refines (RemoveStagingWorkspace p) s.
Proof.
  intros U. set (l := outside_place p). destruct (outside_change s (delete p (outside s)) U) as (U' & V' & B').
  eapply refines_intro; [done|apply (answering_ok _ _ _ (fun _ => Done) tt)|exact U'|exact V'].
  eapply running_eq; [apply (delete_subvolume_runs s l); [apply U|apply lookup_delete_eq|by apply between_refl|exact B']|done|].
  change (look l s) with (outside s !! p). destruct (outside s !! p) eqn:X; [done|]. rewrite delete_id by done. by destruct s.
Qed.
(** ** The image of a seed *)
Lemma refines_setup_seed_image c s : up s -> refines (SetupSeedImage c) s.
Proof.
  intros U. pose proof (up_sound config_len s U) as S. set (f := fun i => if decide (sm_context <$> seed_manifest_of i s = Some c) then Some i else None).
  assert (forall i, is_Some (images s !! i) -> exists g, image_of s i = Ok g /\ ig_id g = i
    /\ (fun x => x.1.1) <$> (v_images (view s) !! i ≫= iv_seed) = sm_context <$> seed_manifest_of i s) as A.
  { intros i [d H]. destruct (up_image config_len s U i d H) as (m & r & _ & _ & _ & _ & E & V). exists (generation_of i m). split_and!; [done|done|].
    rewrite V. cbn [mbind option_bind iv_seed]. unfold seed_manifest_of. rewrite H. cbn [mbind option_bind]. destruct (im_seed d) as [x|] eqn:X; [|done].
    destruct (seed_computes config_len s i d (u_down _ _ U) H) as [_ W]. destruct (W x X) as (a & b & _ & _ & Y). cbn [mbind option_bind]. by rewrite Y. }
  eapply (refines_read _ _ _ _ _ (Ok (Identifier (head (omap f (ids_of (images s))))))); [done| |].
  - cbn [spec]. rewrite (up_image_ids config_len s U). do 4 f_equal. apply list_omap_ext, Forall_Forall2_diag, Forall_forall.
    intros i Hi%elem_ids. destruct (A i Hi) as (g & _ & _ & ->). done.
  - apply (answers_ok s _ Identifier), computes_ok. eapply reads_bind.
    + eapply reads_bind; [apply computes_ok, (image_ids_computes config_len); [done|exact S|apply U]|]. intros ids ->.
      apply (reads_gather _ _ _ (fun i g => image_of s i = Ok g)). intros i Hi%elem_ids. destruct (A i Hi) as (g & E & _).
      eapply reads_weaken; [by apply image_unlocked_computes|by intros ? ->|]. intros e [X|X]; [done|congruence].
    + intros gs G. eapply reads_weaken; [apply (reads_each _ _ _ (fun g => f (ig_id g)))|intros r ->; f_equal|intros e X; exact X].
      * intros g Hg. apply computes_ok. eapply computes_step; [by apply path_state_computes|]. unfold f.
        destruct (seed_manifest_of (ig_id g) s) as [m|] eqn:M; [|apply computes_ret].
        eapply computes_step; [by apply read_json_computes|]. destruct (seed_manifest_valid config_len s S _ m M) as [-> _].
        eapply computes_eq; [apply computes_ret|]. f_equal. cbn [fmap option_fmap option_map]. repeat case_decide; congruence.
      * symmetry. apply list_omap_ext. eapply Forall2_impl; [exact G|].
        intros i g E. by destruct (image_of_ok s i g E) as (d & m & _ & _ & ->).
Qed.
End staging.
