(* ===== verification/PodProps.v ===== *)
(** * The pod store is crash safe

    What the operations of [BtrfsStore] guarantee, whatever fails and wherever the daemon
    stops: published images stay complete and immutable and the image of a pod stays.
    When calls only run or stop, operations are those of the abstract store [spec], a
    stop leaves the store before or after the operation, and opening it recovers it. *)

From S2P Require Import Prelude Lists Text Outage PodTypes PodStore PodReads PodSafe PodOps PodDown PodRecover PodRefine PodCreate PodIds.

(** The requests that [spec] is about; random identifiers are new. *)
Definition specified (q : Request) : bool :=
  match q with
  | ImageWorkspaceSeed _ | Recover => false
  | _ => true
  end.
Definition unused (q : Request) (s : Store) : Prop :=
  match q with
  | BeginImage t | CreatePodFrom t _ _ _ _ | DestroyPod t _ | RemoveImage t _ => transactions s !! t = None
  | PublishSetupSeed g _ _ | PublishImageWorkspaceSeed g _ _ => seeds s !! g = None
  | PublishGoldenWorkspace name _ => golden_staging s !! name = None
  | _ => True
  end.

(** What runs in the subvolumes of pods, stagings and caches writes to them. *)
Inductive Target := PodPart (part : Part) (pod : bytes) | StagedImage (t : bytes) | CacheOf (name : bytes).
Definition write_pod (part : Part) (f : Subvol -> Subvol) (x : PodView) : PodView :=
  let (m, r, w, k) := x in
  match part with
  | Root => {| pv_manifest := m; pv_root := f r; pv_workspace := w; pv_docker := k |}
  | Workspace => {| pv_manifest := m; pv_root := r; pv_workspace := f w; pv_docker := k |}
  | Docker => {| pv_manifest := m; pv_root := r; pv_workspace := w; pv_docker := f k |}
  | Temporary => x
  end.
Definition spec_write (x : Target) (f : Subvol -> Subvol) (v : View) : View :=
  match x with
  | PodPart part p => v <| v_pods := alter (write_pod part f) p (v_pods v) |>
  | StagedImage t => v <| v_staged := alter f t (v_staged v) |>
  | CacheOf _ => v
  end.

Inductive Action :=
| Opened | OpenStopped | Answered (q : Request) (r : outcome StoreError Reply) | Stopped (q : Request)
| Wrote (x : Target) (f : Subvol -> Subvol) | Elsewhere (x : gmap bytes Subvol).
Definition no_view : View :=
  {| v_images := ∅; v_pods := ∅; v_selected := None; v_golden := None; v_staged := ∅; v_outside := ∅ |}.

Section props.
Context (encoded_len : Manifest -> Z) (config_len : ImageConfig -> Z) (root : bytes).
Lemma all_refine q s :
  (forall m, valid_manifest config_len m -> fits encoded_len m) -> up config_len s -> valid_request config_len q -> specified q = true -> unused q s ->
  refines encoded_len config_len root q s.
Proof.
  intros M U V S N. destruct q; cbn [valid_request specified unused] in *; try done.
  - by apply refines_begin_image.
  - destruct V as (? & ? & ?). by apply refines_publish_image.
  - by apply refines_discard_image.
  - by apply refines_get_image.
  - by apply refines_list_images.
  - by apply refines_selected_image.
  - by apply refines_select_image.
  - by apply refines_clear_selected.
  - destruct V as (? & ? & ? & ?). by apply refines_create_pod.
  - by apply refines_get_pod.
  - by apply refines_list_pods.
  - by apply refines_reset_temporary.
  - by apply refines_ensure_cache.
  - by apply refines_publish_golden.
  - by apply refines_golden_workspace.
  - destruct V as (? & ? & ?). by apply refines_publish_setup_seed.
  - destruct V as [? ?]. by apply refines_publish_workspace_seed.
  - by apply refines_setup_seed_image.
  - destruct V as [? ?]. by apply refines_destroy_pod.
  - destruct V as [? ?]. by apply refines_remove_image.
  - by apply refines_create_staging.
  - by apply refines_remove_staging.
Qed.
Local Notation up := (up config_len).
Local Notation crashed := (crashed config_len).

(** ** Writes to subvolumes *)
Definition target_place (x : Target) : Place :=
  match x with
  | PodPart part p => part_place part p
  | StagedImage t => staging_place t
  | CacheOf name => cache_place name
  end.
Lemma up_parts s x :
  up s -> (forall k, is_Some (x !! k) <-> is_Some (pod_parts s !! k)) -> up (s <| pod_parts := x |>).
Proof.
  intros U E. set (s' := s <| pod_parts := x |>). pose proof (u_down _ _ U) as H.
  assert (down config_len s') as D.
  { constructor; try apply H.
    - destruct (d_sound _ _ H) as [S1 S2 S3 S4]. constructor; [exact S1|exact S2|exact S3|]. intros part p v X.
      destruct (E (part, p)) as [[w Hw] _]; [by exists v|]. by eapply S4.
    - intros p m part P N T. change (is_Some (x !! (part, p))). apply E. by eapply (d_pods _ _ H).
    - intros p i m C P. destruct (d_creating _ _ H p i m C P) as [? A]. split; [done|]. intros part. apply E, A. }
  eapply up_change; [exact U|exact D|done|apply U| |apply U|apply U|done|apply U|apply U].
  intros part p v X. destruct (E (part, p)) as [[w Hw] _]; [by exists v|]. by apply (u_orphans _ _ U) in Hw.
Qed.
Lemma write_part s part p v f : up s -> pod_parts s !! (part, p) = Some v ->
  up (fill (part_place part p) (f v) s) /\ view (fill (part_place part p) (f v) s) = spec_write (PodPart part p) f (view s).
Proof.
  intros U X. set (s' := fill (part_place part p) (f v) s). assert (up s') as U'.
  { apply up_parts; [done|]. intros k. destruct (decide ((part, p) = k)) as [<-|]; [rewrite lookup_insert_eq, X; split; eauto|by rewrite lookup_insert_ne]. }
  split; [exact U'|]. apply durable_view; [|done]. apply durable_eq; [| |done..].
  - intros i. change (v_images (view s) !! i = entry_image s' i). by rewrite lookup_v_images.
  - intros q. change (alter (write_pod part f) p (v_pods (view s)) !! q = entry_pod s' q). destruct (decide (p = q)) as [<-|N].
    + rewrite lookup_alter_eq. destruct (u_orphans _ _ U part p v X) as [m P]. destruct (up_pod config_len s U p m P) as (r & w & k & Hr & Hw & Hk & _ & _ & ->).
      rewrite <-lookup_v_pods. destruct (up_pod config_len s' U' p m P) as (r' & w' & k' & Hr' & Hw' & Hk' & _ & _ & ->). cbn [fmap option_fmap option_map]. f_equal.
      change (<[(part, p) := f v]> (pod_parts s) !! (Root, p) = Some r') in Hr'. change (<[(part, p) := f v]> (pod_parts s) !! (Workspace, p) = Some w') in Hw'.
      change (<[(part, p) := f v]> (pod_parts s) !! (Docker, p) = Some k') in Hk'. rewrite lookup_insert in Hr', Hw', Hk'.
      destruct part; cbn [write_pod]; repeat case_decide; simplify_eq; done.
    + rewrite lookup_alter_ne, lookup_v_pods by done. symmetry. apply entry_pod_ext; [done|done|]. intros _ part' _.
      change (<[(part, p) := f v]> (pod_parts s) !! (part', q) = pod_parts s !! (part', q)). rewrite lookup_insert_ne; [done|congruence].
Qed.
Lemma write_up s x v f : up s -> look (target_place x) s = Some v ->
  up (fill (target_place x) (f v) s) /\ view (fill (target_place x) (f v) s) = spec_write x f (view s).
Proof.
  intros U X. destruct x as [part p|t|name]; [by apply write_part|..].
  - split; [|change (view (s <| image_staging := <[t := f v]> (image_staging s) |>) = (view s) <| v_staged := alter f t (image_staging s) |>)].
    + eapply up_change; [exact U| |done|apply U|apply U|apply U|apply U|done|apply U|apply U].
      apply tame_staging; [|apply U]. intros t' H. apply (d_staging _ _ (u_down _ _ U)). destruct (decide (t = t')) as [<-|]; [by exists v|by rewrite lookup_insert_ne in H].
    + assert (alter f t (image_staging s) = <[t := f v]> (image_staging s)) as ->; [|done]. change (image_staging s !! t = Some v) in X.
      apply map_eq. intros t'. destruct (decide (t = t')) as [<-|]; [by rewrite lookup_alter_eq, lookup_insert_eq, X|by rewrite lookup_alter_ne, lookup_insert_ne].
  - split; [|done]. eapply up_change; [exact U| |done|apply U|apply U|apply U|apply U|done|apply U|apply U]. by apply (tame_elsewhere config_len s); try done; apply U.
Qed.

(** ** Histories

    Processes that open the store, serve requests and stop, and what the abstract store
    makes of the same actions. *)
Inductive history : list Action -> bool -> Store -> Prop :=
| history_new : history [] false empty_store
| history_open l b s es w :
    history l b s -> Forall crash_event es -> open encoded_len config_len (start s es) = (Ok tt, w) ->
    history (l ++ [Opened]) true (disk w)
| history_open_stops l b s es w x :
    history l b s -> Forall crash_event es -> open encoded_len config_len (start s es) = (Panic x, w) ->
    history (l ++ [OpenStopped]) false (disk w)
| history_answer l s q es r w :
    history l true s -> valid_request config_len q -> specified q = true -> unused q s -> Forall crash_event es ->
    exec encoded_len config_len root q (start s es) = (r, w) -> (forall x, r <> Panic x) ->
    history (l ++ [Answered q r]) true (disk w)
| history_stop l s q es w x :
    history l true s -> valid_request config_len q -> specified q = true -> unused q s -> Forall crash_event es ->
    exec encoded_len config_len root q (start s es) = (Panic x, w) -> no_temps (disk w) ->
    history (l ++ [Stopped q]) false (disk w)
| history_write l s x v f :
    history l true s -> look (target_place x) s = Some v -> history (l ++ [Wrote x f]) true (fill (target_place x) (f v) s)
| history_elsewhere l s x : history l true s -> history (l ++ [Elsewhere x]) true (s <| outside := x |>).
Inductive abstract_history : list Action -> bool -> View -> Prop :=
| abstract_new : abstract_history [] false no_view
| abstract_open l b v : abstract_history l b v -> abstract_history (l ++ [Opened]) true (surviving v)
| abstract_open_stops l b v : abstract_history l b v -> abstract_history (l ++ [OpenStopped]) false (surviving v)
| abstract_answer l v q r v' : abstract_history l true v -> spec root q v = (r, v') -> abstract_history (l ++ [Answered q r]) true v'
| abstract_before l v q : abstract_history l true v -> abstract_history (l ++ [Stopped q]) false (surviving v)
| abstract_after l v q r v' :
    abstract_history l true v -> spec root q v = (r, v') -> abstract_history (l ++ [Stopped q]) false (surviving v')
| abstract_write l v x f : abstract_history l true v -> abstract_history (l ++ [Wrote x f]) true (spec_write x f v)
| abstract_elsewhere l v x : abstract_history l true v -> abstract_history (l ++ [Elsewhere x]) true (v <| v_outside := x |>).
(** The abstract store of a state. *)
Definition stands_for (b : bool) (s : Store) (v : View) : Prop :=
  if b then up s /\ view s = v else crashed s /\ durable s = v.
Lemma up_crashed s : up s -> crashed s.
Proof. intros U. constructor; [apply U|apply U|left; apply U]. Qed.
Lemma stands_crashed b s v : stands_for b s v -> crashed s /\ durable s = surviving v.
Proof.
  destruct b; intros [U <-]; [split; [by apply up_crashed|done]|]. split; [done|]. done.
Qed.
Lemma running_result {A} s (m : op A) r s' Y es x w :
  runs s m r s' Y -> Forall crash_event es -> m (start s es) = (x, w) ->
  match x with Panic _ => Y (disk w) | _ => x = r /\ disk w = s' end.
Proof.
  intros R F E. pose proof (hoare_run _ _ _ _ _ _ (start s es) _ _ R F eq_refl E) as H. destruct x; [by destruct H as [-> ->]|by destruct H as [-> ->]|done].
Qed.
Lemma empty_crashed : crashed empty_store.
Proof.
  constructor; [constructor|..]; try (intros *; cbn; rewrite ?lookup_empty; naive_solver).
  - constructor; intros ? ? *; rewrite ?lookup_empty; done.
  - intros i (t & m & X & _)%elem_pending. change ((∅ : gmap bytes TransactionManifest) !! t = Some m) in X. by rewrite lookup_empty in X.
  - split_and!; intros ? ?; cbn; by rewrite lookup_empty.
  - right. by split.
Qed.
Lemma open_result s es r w :
  fits encoded_len (MStore store_format) -> crashed s -> Forall crash_event es -> open encoded_len config_len (start s es) = (r, w) ->
  match r with
  | Ok _ => up (disk w) /\ view (disk w) = durable s
  | Err _ => False
  | Panic _ => crashed (disk w) /\ durable (disk w) = durable s
  end.
Proof.
  intros M C F E. destruct (open_runs encoded_len config_len M s C) as (s' & R & U & V). pose proof (running_result _ _ _ _ _ _ _ _ R F E) as X.
  destruct r; [by destruct X as [_ ->]|by destruct X as [? _]|exact X].
Qed.
Lemma exec_result q s es r w :
  (forall m, valid_manifest config_len m -> fits encoded_len m) -> up s -> valid_request config_len q -> specified q = true -> unused q s ->
  Forall crash_event es -> exec encoded_len config_len root q (start s es) = (r, w) ->
  match r with
  | Panic _ => between config_len s (spec root q (view s)).2 (disk w)
  | _ => up (disk w) /\ spec root q (view s) = (r, view (disk w))
  end.
Proof.
  intros M U V S N F E. destruct (all_refine q s M U V S N) as (r' & s' & R & U' & E'). pose proof (running_result _ _ _ _ _ _ _ _ R F E) as X.
  destruct r; [destruct X as [-> ->]; by split|destruct X as [-> ->]; by split|exact X].
Qed.
Lemma history_stands l b s :
  (forall m, valid_manifest config_len m -> fits encoded_len m) -> history l b s -> exists v, abstract_history l b v /\ stands_for b s v.
Proof.
  intros M. induction 1 as [|l b s es w _ (v & A & S) F E|l b s es w x _ (v & A & S) F E|l s q es r w _ (v & A & U & <-) V Q N F E P
    |l s q es w x _ (v & A & U & <-) V Q N F E T|l s x v' f _ (v & A & U & <-) L|l s x _ (v & A & U & <-)].
  - exists no_view. split; [constructor|]. split; [apply empty_crashed|done].
  - apply stands_crashed in S as [C D]. exists (surviving v). split; [by econstructor|]. destruct (open_result s es (Ok tt) w) as [U V]; try done; [by apply M|]. rewrite <-D. by split.
  - apply stands_crashed in S as [C D]. exists (surviving v). split; [by econstructor|]. destruct (open_result s es (Panic x) w) as [U V]; try done; [by apply M|]. rewrite <-D. by split.
  - pose proof (exec_result q s es r w M U V Q N F E) as H. destruct r as [a|e|x]; [..|by destruct (P x)]; destruct H as [U' H]; (exists (view (disk w)); split; [by econstructor|by split]).
  - pose proof (exec_result q s es _ w M U V Q N F E) as (D & St & H).
    assert (crashed (disk w)) as C by (constructor; [done|done|by left]). destruct (spec root q (view s)) as [r v'] eqn:X. cbn in H.
    destruct H as [H|H]; [exists (surviving (view s))|exists (surviving v')]; (split; [|split; [done|exact H]]); [by apply abstract_before|by eapply abstract_after].
  - destruct (write_up s x v' f U L) as [U' V']. exists (spec_write x f (view s)). split; [by constructor|by split].
  - destruct (outside_change config_len s x U) as (U' & V' & _). exists ((view s) <| v_outside := x |>). split; [by constructor|by split].
Qed.
End props.

(** ** The store of an example *)
Module Demo.
Definition encoded_len (m : Manifest) : Z := 100.
Definition config_len (c : ImageConfig) : Z := 100.
Definition root : bytes := str "/store".
Definition t1 : bytes := unique_id 7 1000 0.
Definition t2 : bytes := unique_id 7 1001 1.
Definition image1 : bytes := str "sha256:0123456789abcdef".
Definition pod1 : bytes := str "pod-1".
Definition config : ImageConfig :=
  {| environment := [str "PATH=/bin"]; user := {| user_name := str "root"; uid := 0; gid := 0; additional_gids := [] |};
     working_directory := str "/" |}.
Definition staging : ImageStaging := {| store_root := root; staging_transaction := t1; staging_dir := staging_path t1 |}.
Definition opening (s : Store) (es : list Event) : outcome StoreError unit * Machine Store := open encoded_len config_len (start s es).
Definition serving (q : Request) (s : Store) (es : list Event) : outcome StoreError Reply * Machine Store :=
  exec encoded_len config_len root q (start s es).
Definition create1 : Request := CreatePodFrom t2 pod1 image1 5 ImageSeed.
Definition s1 : Store := disk (opening empty_store []).2.
Definition s2 : Store := disk (serving (BeginImage t1) s1 []).2.
Definition s3 : Store := disk (serving (PublishImageAs staging image1 config 4) s2 []).2.
(** The daemon stops while the pod is created, with its manifest not yet written. *)
Definition stop_at (n : nat) : list Event := replicate n Runs ++ [Stops []].
Definition s4 : Store := disk (serving create1 s3 (stop_at 40)).2.
Definition s5 : Store := disk (opening s4 []).2.
Definition image_reply : Reply := Generation {| ig_id := image1; ig_root := image_file image1 "root"; ig_config := config; ig_created_at_unix_ms := 4 |}.
Definition example : list Action :=
  [Opened; Answered (BeginImage t1) (Ok (Staging staging)); Answered (PublishImageAs staging image1 config 4) (Ok image_reply);
   Stopped create1; Opened].
End Demo.
Lemma ran {A B : Type} (x : A * B) r : x.1 = r -> x = (r, x.2).
Proof. intros <-. apply surjective_pairing. Qed.
Lemma no_temps_ok s :
  bool_decide (map_Forall (fun _ d => im_temps d = O) (images s)) && bool_decide (map_Forall (fun _ d => im_temps d = O) (image_publishing s))
    && bool_decide (map_Forall (fun _ d => im_temps d = O) (trash s)) = true -> no_temps s.
Proof. rewrite !andb_true_iff, !bool_decide_eq_true. intros [[H1 H2] H3]. split_and!; by apply map_Forall_lookup. Qed.
Lemma example_history : history Demo.encoded_len Demo.config_len Demo.root Demo.example true Demo.s5.
Proof.
  apply (history_open _ _ _ [_; _; _; _] false Demo.s4 []); [|constructor|by apply ran; vm_compute].
  apply (history_stop _ _ _ [_; _; _] Demo.s3 Demo.create1 (Demo.stop_at 40) _ "stopped"); [|by vm_compute|done|by vm_compute|by repeat constructor|by apply ran; vm_compute|by apply no_temps_ok; vm_compute].
  apply (history_answer _ _ _ [_; _] Demo.s2 (PublishImageAs Demo.staging Demo.image1 Demo.config 4) []); [|by vm_compute|done|done|constructor|by apply ran; vm_compute|done].
  apply (history_answer _ _ _ [_] Demo.s1 (BeginImage Demo.t1) []); [|by vm_compute|done|by vm_compute|constructor|by apply ran; vm_compute|done].
  apply (history_open _ _ _ [] false empty_store []); [constructor|constructor|by apply ran; vm_compute].
Qed.

(** C5: processes that open the pod store, serve requests and stop at any system call or
    in the middle of any Btrfs command implement the abstract store [spec], while pods
    and image builders write to their subvolumes: every history of actions and answers
    is one of the abstract store, in which the request that a process stopped at was
    done entirely or not at all, and the state of a running store is the abstract one.
    A stop that leaves a temporary file in the directory of an image is excluded (it is
    the defect below); manifests of validated parts fit their size limit. *)
Theorem pod_histories_refine encoded_len config_len root l b s :
  (forall m, valid_manifest config_len m -> fits encoded_len m) -> history encoded_len config_len root l b s ->
  exists v, abstract_history root l b v /\ stands_for config_len b s v.
Proof. apply history_stands. Qed.
Lemma pod_histories_refine_witness :
  exists v, abstract_history Demo.root Demo.example true v /\ stands_for Demo.config_len true Demo.s5 v.
Proof. apply (pod_histories_refine Demo.encoded_len); [|exact example_history]. intros m _. vm_compute. discriminate. Defined.

(** C6: after any such history the store can be opened: with no failing call [open]
    succeeds, with the content that the abstract store has, and where it stops again it
    has lost nothing and can be opened again. *)
Theorem pod_store_recovers encoded_len config_len root l b s :
  (forall m, valid_manifest config_len m -> fits encoded_len m) -> history encoded_len config_len root l b s ->
  (exists v w, abstract_history root l b v /\ open encoded_len config_len (start s []) = (Ok tt, w) /\ view (disk w) = surviving v)
  /\ forall es r w, Forall crash_event es -> open encoded_len config_len (start s es) = (r, w) ->
     match r with
     | Ok _ => up config_len (disk w) /\ view (disk w) = durable s
     | Err _ => False
     | Panic _ => crashed config_len (disk w) /\ durable (disk w) = durable s
     end.
Proof.
  intros M H. destruct (history_stands _ _ _ l b s M H) as (v & A & [C D]%stands_crashed). split.
  - destruct (open encoded_len config_len (start s [])) as [r w] eqn:E. exists v, w.
    pose proof (open_result encoded_len config_len s [] r w (M (MStore store_format) eq_refl) C ltac:(constructor) E) as X.
    pose proof (returns_run _ (start s _) _ _ (open_returns encoded_len config_len) (Forall_nil_2 _) E) as T.
    destruct r as [[]|e|x]; [|done|by destruct (T x)]. split_and!; [done|done|]. destruct X as [_ ->]. exact D.
  - intros es r w F E. by apply (open_result encoded_len config_len s es); [apply M| | |].
Qed.
Lemma pod_store_recovers_witness :
  exists v w, abstract_history Demo.root Demo.example true v /\ Demo.opening Demo.s5 [] = (Ok tt, w) /\ view (disk w) = surviving v.
Proof.
  apply (pod_store_recovers Demo.encoded_len Demo.config_len Demo.root Demo.example true Demo.s5); [|exact example_history]. intros m _. vm_compute. discriminate.
Defined.

(** C7: whatever calls fail, time out, do part of their work or never return, and
    whatever is written to writable subvolumes: in every reachable store a published
    image has its own identifier, a validated configuration and a read-only root; a pod
    has its own identifier in a manifest of the current format, and its image is there;
    every transaction is filed under its own identifier, which is valid, in the current
    format, so that reading it as recovery does gives it back; and the image of a pod
    that is being created is there. *)
Theorem pod_store_sound encoded_len config_len root running s :
  reachable encoded_len config_len root running s ->
  (forall i d, images s !! i = Some d -> image_id i = Ok i /\ complete_image config_len i d)
  /\ (forall p m, pods s !! p = Some m ->
       pod_id p = Ok p /\ pm_id m = p /\ pm_format_version m = STORE_FORMAT_VERSION /\ is_Some (images s !! pm_image m))
  /\ (forall t m, transactions s !! t = Some m ->
       valid_transaction_id t = true /\ transaction_id m = t /\ tm_format_version m = STORE_FORMAT_VERSION
       /\ (read_transaction t (start s [])).1 = Ok (t, m)
       /\ match operation m with CreatePod p i => pod_id p = Ok p /\ is_Some (images s !! i) | _ => True end).
Proof.
  intros H. destruct (reachable_sound _ _ _ _ _ H) as [S _]. pose proof S as [S1 S2 S3 S4]. split_and!; [done|done|].
  intros t m Ht. destruct (S3 t m Ht) as (V & I & F & X). split_and!; [done|done|done| |done].
  unfold read_transaction, read_json, path_state, start. rewrite V. cbv [negb andthen syscall next_event put get ret of_outcome same events disk]. rewrite Ht. unfold check_format. rewrite F. cbn. by rewrite decide_True.
Qed.
(** A pod is created by a process whose first Btrfs command half fails. *)
Definition failing : Store := disk (Demo.serving Demo.create1 Demo.s3 (replicate 20 Runs ++ [Fails [true] false])).2.
Lemma failing_reachable : reachable Demo.encoded_len Demo.config_len Demo.root true failing.
Proof.
  apply (reach_exec _ _ _ Demo.s3 Demo.create1 (replicate 20 Runs ++ [Fails [true] false]) (Err (CommandFailed "snapshot pod root subvolume")));
    [|by vm_compute|by apply ran; vm_compute].
  apply (reach_exec _ _ _ Demo.s2 (PublishImageAs Demo.staging Demo.image1 Demo.config 4) [] (Ok Demo.image_reply)); [|by vm_compute|by apply ran; vm_compute].
  apply (reach_exec _ _ _ Demo.s1 (BeginImage Demo.t1) [] (Ok (Staging Demo.staging))); [|by vm_compute|by apply ran; vm_compute].
  apply (reach_open _ _ _ false empty_store [] (Ok tt)); [constructor|by apply ran; vm_compute].
Qed.
Lemma pod_store_sound_witness : exists d, images failing !! Demo.image1 = Some d /\ complete_image Demo.config_len Demo.image1 d.
Proof.
  destruct (images failing !! Demo.image1) as [d|] eqn:E; [|vm_compute in E; discriminate]. exists d. split; [reflexivity|].
  destruct (pod_store_sound Demo.encoded_len Demo.config_len Demo.root true failing failing_reachable) as [H _]. exact (proj2 (H _ _ E)).
Defined.

(** ** Defects of the pod store

    Runs of the modelled code on the store of [PodProps.Demo] that end badly: a single
    stop or a single failing call after which the store cannot be opened, or loses what
    it holds. *)
Import Demo.

Definition t3 : bytes := unique_id 7 1002 2.
Definition t4 : bytes := unique_id 7 1003 3.
Definition t5 : bytes := unique_id 7 1004 4.
Definition pod2 : bytes := str "pod-2".
Definition publish1 : Request := PublishImageAs staging image1 config 4.
(** The store with a pod. *)
Definition with_pod : Store := disk (serving create1 s3 []).2.
Definition fail_at (n : nat) : list Event := replicate n Runs ++ [Fails [] false].
Definition after (q : Request) (s : Store) (es : list Event) : Store := disk (serving q s es).2.
(** Opening fails, and leaves a state in which it fails the same way. *)
Definition cannot_open (s : Store) (e : StoreError) : Prop :=
  exists s', opening s [] = (Err e, start s' []) /\ opening s' [] = (Err e, start s' []).
Lemma cannot_open_intro s e :
  (opening s []).1 = Err e -> events (opening s []).2 = [] -> opening (disk (opening s []).2) [] = (Err e, start (disk (opening s []).2) []) -> cannot_open s e.
Proof.
  intros H1 H2 H3. exists (disk (opening s []).2). split; [|done]. destruct (opening s []) as [r [d es]]. cbn in *. by subst.
Qed.
Ltac run :=
  repeat match goal with
  | |- let _ := _ in _ => cbv zeta
  | |- _ /\ _ => split
  | |- cannot_open _ _ => apply cannot_open_intro
  end; vm_compute; reflexivity.

(** When the daemon stops while [publish_image] writes the manifest into the directory
    of the image, the temporary file stays in it; recovery removes what it knows, cannot
    remove the directory, and every later [open] fails.  The same happens after a stop
    while a seed manifest is written, once the image is removed. *)
Lemma stop_bricks_store :
  (serving publish1 s2 (stop_at 26)).1 = Panic "stopped"
  /\ cannot_open (after publish1 s2 (stop_at 26)) (Io "remove directory" (publishing_path t1))
  /\ let seeding := after (PublishSetupSeed t3 pod1 image1) with_pod (stop_at 41) in
     (opening seeding []).1 = Ok tt
     /\ (serving (DestroyPod t4 pod1) seeding []).1 = Ok Done
     /\ cannot_open (after (RemoveImage t5 image1) (after (DestroyPod t4 pod1) seeding []) []) (Io "remove directory" (trash_path t5)).
Proof. run. Qed.

(** A removal of an image that fails after its transaction has been written leaves
    the image in use and the transaction pending: creating a pod of the image then
    succeeds, and every later [open] fails with [ImageInUse]; selecting the image
    succeeds too, and the next [open] removes the selected image. *)
Theorem failed_removal_unsafe :
  let failed := after (RemoveImage t3 image1) s3 (fail_at 17) in
  (serving (RemoveImage t3 image1) s3 (fail_at 17)).1 = Err (Io "hide image generation" (image_directory image1))
  /\ (serving create1 failed []).1 = (serving create1 s3 []).1
  /\ cannot_open (after create1 failed []) (ImageInUse image1 pod1)
  /\ (serving (SelectImage image1) failed []).1 = Ok Done
  /\ (opening (after (SelectImage image1) failed []) []).1 = Ok tt
  /\ (serving SelectedImage (disk (opening (after (SelectImage image1) failed []) []).2) []).1 = Err (ImageNotFound image1).
Proof. run. Qed.

(** When the directory cannot be synchronized after a seed manifest has been renamed
    into place, [publish_setup_seed] deletes the generation that the manifest names: no
    pod can be created from the image any more and no seed published, before and after
    a restart. *)
Theorem seed_sync_failure_breaks_image :
  let broken := after (PublishSetupSeed t3 pod1 image1) with_pod (fail_at 43) in
  let incomplete := CorruptManifest (seed_manifest_path image1) "published setup seed is incomplete" in
  (serving (PublishSetupSeed t3 pod1 image1) with_pod (fail_at 43)).1 = Err (Io "sync directory" (image_directory image1))
  /\ (serving (CreatePodFrom t4 pod2 image1 6 ImageSeed) broken []).1 = Err incomplete
  /\ (serving (PublishSetupSeed t4 pod1 image1) broken []).1 = Err incomplete
  /\ (opening broken []).1 = Ok tt
  /\ (serving (CreatePodFrom t4 pod2 image1 6 ImageSeed) (disk (opening broken []).2) []).1 = Err incomplete.
Proof. run. Qed.

(** A creation whose transaction could not be finished leaves a pod that is served; when
    the daemon then stops while the pod's temporary storage is reset, recovery takes the
    pod for an unfinished one and deletes it. *)
Lemma interrupted_reset_loses_pod :
  let created := after create1 s3 (fail_at 43) in
  (serving create1 s3 (fail_at 43)).1 = Err (Io "remove" (transaction_path t2))
  /\ (serving (GetPod pod1) created []).1 = (serving (GetPod pod1) with_pod []).1
  /\ (serving (ResetPodTemporary pod1) created (stop_at 16)).1 = Panic "stopped"
  /\ (opening (after (ResetPodTemporary pod1) created (stop_at 16)) []).1 = Ok tt
  /\ (serving (GetPod pod1) (disk (opening (after (ResetPodTemporary pod1) created (stop_at 16)) []).2) []).1 = Err (PodNotFound pod1)
  /\ look (part_place Workspace pod1) (disk (opening (after (ResetPodTemporary pod1) created (stop_at 16)) []).2) = None.
Proof. run. Qed.
(** A second failure, in the rollback of a creation whose manifest had been renamed into
    place, leaves the manifest without its subvolumes: pods can no longer be listed. *)
Lemma failed_rollback_breaks_listing :
  let es := fail_at 41 ++ replicate 13 Runs ++ [Fails [] false] in
  (serving create1 s3 es).1 = Err (Io "sync directory" (RootPath "pods"))
  /\ (serving ListPods (after create1 s3 es) []).1 = Err (CorruptManifest (pod_manifest_path pod1) "required subvolume is missing").
Proof. run. Qed.
(** What a stop leaves of a golden workspace that was being published stays for ever. *)
Lemma staged_workspace_leaks :
  let s := s1 <| outside := {[ str "/ws" := new_subvol ]} |> in
  let stopped := after (PublishGoldenWorkspace t3 (str "/ws")) s (stop_at 5) in
  (serving (PublishGoldenWorkspace t3 (str "/ws")) s (stop_at 5)).1 = Panic "stopped"
  /\ (opening stopped []).1 = Ok tt
  /\ golden_staging (disk (opening stopped []).2) !! t3 = Some new_subvol.
Proof. run. Qed.
(** A cache whose creation was interrupted before its permissions were set is served with
    the permissions of a new subvolume. *)
Lemma interrupted_cache_mode :
  let name := str "cargo" in
  let stopped := after (EnsureCache name) s1 (stop_at 4) in
  let s := disk (opening stopped []).2 in
  (serving (EnsureCache name) s []).1 = Ok (Located (Some (cache_path name)))
  /\ sv_mode <$> caches (after (EnsureCache name) s []) !! name = Some 493
  /\ sv_mode <$> caches (after (EnsureCache name) s1 []) !! name = Some 511.
Proof. run. Qed.
