(* ===== verification/OverlayTypes.v ===== *)
(** * Snapshots of share overlays

    [tascarrel-protocol/src/data_plane/workspace/share_overlays.rs]: the messages in
    which a guest sends the changes of one share to the host, and their validation in
    [tascarrel-hostd/src/services/share_overlays/mod.rs], which trusts nothing the guest
    sends.  Base64, SHA-256 and JSON are parameters: crates that the program calls.
    Strings of the wire format are byte lists. *)

From S2P Require Import Prelude Lists Text Utf8 PodTypes ShareTypes.

Definition MAX_SHARE_OVERLAY_CHANGES : Z := 100000.
Definition MAX_SHARE_OVERLAY_CONTENT_BYTES : Z := 48 * 1024 * 1024.
Definition MAX_PATH_BYTES : Z := 4096.

(** ** Wire format *)
Record ShareOverlayEntryVersion := { o_kind : EntryKind; o_size : Z; o_mode : Z; o_digest : option bytes }.
#[export] Instance ShareOverlayEntryVersion_eq_dec : EqDecision ShareOverlayEntryVersion.
Proof. solve_decision. Defined.
Record ShareOverlayBase := {
  base_version : ShareOverlayEntryVersion; modified_seconds : Z; modified_nanoseconds : Z;
  changed_seconds : Z; changed_nanoseconds : Z
}.
#[export] Instance ShareOverlayBase_eq_dec : EqDecision ShareOverlayBase.
Proof. solve_decision. Defined.
Record ShareOverlayEntry := { wire_version : ShareOverlayEntryVersion; wire_contents : option bytes }.
#[export] Instance ShareOverlayEntry_eq_dec : EqDecision ShareOverlayEntry.
Proof. solve_decision. Defined.
Record ShareOverlayChange := {
  wire_path : list bytes; wire_base : option ShareOverlayBase; wire_proposed : option ShareOverlayEntry;
  wire_opaque : bool
}.
#[export] Instance ShareOverlayChange_eq_dec : EqDecision ShareOverlayChange.
Proof. solve_decision. Defined.
Record ShareOverlaySnapshot := { wire_revision : bytes; wire_changes : list ShareOverlayChange }.

Inductive ShareOverlayServiceError :=
| InvalidRequest (message : string)
| Unavailable (message : string)
| Internal (message : string).
#[export] Instance ShareOverlayServiceError_eq_dec : EqDecision ShareOverlayServiceError.
Proof. solve_decision. Defined.

(** ** Validated changes *)
Record ValidatedEntry := { entry_version : ShareOverlayEntryVersion; entry_contents : option bytes }.
Record ValidatedChange := {
  names : path; base : option ShareOverlayBase; proposal : option ValidatedEntry; opaque : bool
}.
Record ValidatedSnapshot := { revision : bytes; changes : list ValidatedChange }.

(** [PathBuf] of the components, by its bytes. *)
Definition joined (c : ValidatedChange) : bytes := path_bytes (names c).

(** ** Names *)
Definition valid_workspace_share_name (name : bytes) : bool :=
  if bool_decide (name = []) || (64 <? len name) then false
  else match name with
       | [] => false
       | first :: rest => is_ascii_alphanumeric first && forallb id_byte rest
       end.
Definition workspace_name (name : bytes) : bool :=
  negb (bool_decide (name = []) || (64 <? len name) || negb (forallb id_byte name)).

(** ** Hexadecimal digests *)
Definition hex_digit (n : Z) : Z := if n <? 10 then 48 + n else 87 + n.
Definition hex_bytes (bs : bytes) : bytes := concat (map (fun b => [hex_digit (b / 16); hex_digit (b mod 16)]) bs).

(** A component that names an entry of its directory. *)
Definition unsafe_component (name : bytes) : bool :=
  bool_decide (name = []) || bool_decide (name = str ".") || bool_decide (name = str "..")
  || contains 47 name || contains 0 name.

Definition validate_version (v : ShareOverlayEntryVersion) (is_proposed : bool) : outcome ShareOverlayServiceError unit :=
  if negb (Z.land (o_mode v) (Z.lxor u32_max 4095) =? 0) then Err (InvalidRequest "ShareFS entry contains invalid permission bits")
  else
    let? _ :=
      match o_kind v, o_digest v with
      | File, None | Symlink, None => Err (InvalidRequest "ShareFS content entry has no digest")
      | File, Some digest | Symlink, Some digest =>
          if negb (len digest =? 64) || negb (forallb is_hexdigit digest)
          then Err (InvalidRequest "ShareFS entry contains an invalid digest") else Ok tt
      | Directory, Some _ => Err (InvalidRequest "ShareFS directory unexpectedly has a digest")
      | Directory, None => Ok tt
      end in
    if is_proposed && (MAX_SHARE_OVERLAY_CONTENT_BYTES <? o_size v)
    then Err (InvalidRequest "ShareFS proposed entry exceeds the approval limit") else Ok tt.

Section validation.
(** [BASE64.decode], [Sha256::digest] and [serde_json::to_vec] of a list of changes. *)
Variable decode : bytes -> option bytes.
Variable sha256 : bytes -> bytes.
Variable to_json : list ShareOverlayChange -> option bytes.

Definition hex_digest (bs : bytes) : bytes := hex_bytes (sha256 bs).

Definition validate_contents (v : ShareOverlayEntryVersion) (contents : option bytes) : outcome ShareOverlayServiceError unit :=
  match o_kind v, contents with
  | Directory, None => Ok tt
  | File, Some c | Symlink, Some c =>
      if negb (len c =? o_size v) || negb (bool_decide (o_digest v = Some (hex_digest c)))
      then Err (InvalidRequest "ShareFS proposed contents do not match their version")
      else if bool_decide (o_kind v = Symlink) && contains 0 c
      then Err (InvalidRequest "ShareFS symbolic-link target contains NUL") else Ok tt
  | _, _ => Err (InvalidRequest "ShareFS proposed entry has incompatible content representation")
  end.

(** The components of a path and the bytes counted for them so far. *)
Fixpoint validate_components (total : Z) (path : list bytes) : outcome ShareOverlayServiceError (list bytes * Z) :=
  match path with
  | [] => Ok ([], total)
  | component :: rest =>
      let? name := ok_or (decode component) (InvalidRequest "ShareFS path component is not valid Base64") in
      let? total' := ok_or (checked_add usize_max total (len name + 1)) (InvalidRequest "ShareFS path length overflowed") in
      if unsafe_component name then Err (InvalidRequest "ShareFS path contains an unsafe component")
      else let? (names, size) := validate_components total' rest in Ok (name :: names, size)
  end.

Definition validate_base (b : ShareOverlayBase) : outcome ShareOverlayServiceError unit :=
  let? _ := validate_version (base_version b) false in
  if (1000000000 <=? modified_nanoseconds b) || (1000000000 <=? changed_nanoseconds b)
  then Err (InvalidRequest "ShareFS base contains an invalid timestamp") else Ok tt.

(** A proposed entry and the content bytes counted so far. *)
Definition validate_entry (total : Z) (e : ShareOverlayEntry) : outcome ShareOverlayServiceError (ValidatedEntry * Z) :=
  let? _ := validate_version (wire_version e) true in
  let? contents :=
    match wire_contents e with
    | None => Ok None
    | Some encoded => match decode encoded with
                      | Some c => Ok (Some c)
                      | None => Err (InvalidRequest "ShareFS content is not valid Base64")
                      end
    end in
  let? _ := validate_contents (wire_version e) contents in
  let? total' :=
    match contents with
    | None => Ok total
    | Some c =>
        let? t := ok_or (checked_add u64_max total (len c)) (InvalidRequest "ShareFS content length overflowed") in
        if MAX_SHARE_OVERLAY_CONTENT_BYTES <? t
        then Err (InvalidRequest "ShareFS content exceeds the approval limit") else Ok t
    end in
  Ok ({| entry_version := wire_version e; entry_contents := contents |}, total').

Definition validate_change (total : Z) (c : ShareOverlayChange) : outcome ShareOverlayServiceError (ValidatedChange * Z) :=
  if bool_decide (wire_path c = []) then Err (InvalidRequest "ShareFS change contains an empty path")
  else
    let? (components, size) := validate_components 0 (wire_path c) in
    if MAX_PATH_BYTES <? size then Err (InvalidRequest "ShareFS path exceeds the supported length")
    else
      let? _ := match wire_base c with None => Ok tt | Some b => validate_base b end in
      let? (entry, total') :=
        match wire_proposed c with
        | None => Ok (None, total)
        | Some e => let? (v, t) := validate_entry total e in Ok (Some v, t)
        end in
      match wire_base c, entry with
      | None, None => Err (InvalidRequest "ShareFS change has neither a base nor a proposal")
      | _, _ => Ok ({| names := components; base := wire_base c; proposal := entry; opaque := wire_opaque c |}, total')
      end.

Fixpoint validate_changes (total : Z) (previous : option bytes) (cs : list ShareOverlayChange) : outcome ShareOverlayServiceError (list ValidatedChange) :=
  match cs with
  | [] => Ok []
  | c :: rest =>
      let? (v, total') := validate_change total c in
      if match previous with Some p => bytes_leb (joined v) p | None => false end
      then Err (InvalidRequest "ShareFS changes are not strictly path-sorted")
      else let? vs := validate_changes total' (Some (joined v)) rest in Ok (v :: vs)
  end.

Definition validate_snapshot (s : ShareOverlaySnapshot) : outcome ShareOverlayServiceError ValidatedSnapshot :=
  if negb (len (wire_revision s) =? 64) || negb (forallb is_hexdigit (wire_revision s))
     || (MAX_SHARE_OVERLAY_CHANGES <? len (wire_changes s))
  then Err (InvalidRequest "guest returned an invalid ShareFS revision")
  else
    let? canonical := ok_or (to_json (wire_changes s)) (Internal "could not encode ShareFS revision") in
    if negb (bool_decide (hex_digest canonical = wire_revision s))
    then Err (InvalidRequest "guest returned a mismatched ShareFS revision")
    else let? vs := validate_changes 0 None (wire_changes s) in
         Ok {| revision := hex_digest canonical; changes := vs |}.
End validation.

(** * Validated snapshots

    What [validate_snapshot] guarantees of the changes it returns, for any message of a
    guest. *)

Section valid.
Context (decode : bytes -> option bytes) (sha256 : bytes -> bytes) (to_json : list ShareOverlayChange -> option bytes).

(** The bytes that a path is counted with, and those of a proposed entry. *)
Definition path_size (p : path) : Z := foldr (fun n s => len n + 1 + s) 0 p.
Definition content_size (c : ValidatedChange) : Z :=
  match proposal c with Some e => match entry_contents e with Some x => len x | None => 0 end | None => 0 end.
Definition total_size (cs : list ValidatedChange) : Z := foldr (fun c s => content_size c + s) 0 cs.

(** The name of one entry of a directory. *)
Definition Entry_name (n : bytes) : Prop := n <> [] /\ n <> str "." /\ n <> str ".." /\ 47 ∉ n /\ 0 ∉ n.
Lemma safe_component n : unsafe_component n = false -> Entry_name n.
Proof.
  unfold unsafe_component, Entry_name. intros H. bool_prop. split_and!; [done|done|done|..]; by intros I%contains_spec; congruence.
Qed.
(** A proposed entry: permission bits only, and contents of the announced size and
    digest exactly for files and links. *)
Record Sound_entry (e : ValidatedEntry) : Prop := {
  sound_mode : Z.land (o_mode (entry_version e)) (Z.lxor u32_max 4095) = 0;
  sound_contents : match o_kind (entry_version e) with
    | Directory => entry_contents e = None /\ o_digest (entry_version e) = None
    | k => exists c, entry_contents e = Some c /\ o_size (entry_version e) = len c /\ o_digest (entry_version e) = Some (hex_digest sha256 c)
                     /\ (k = Symlink -> 0 ∉ c)
    end
}.
(** A change: names that lead to an entry of their directory, and a faithful decoding of
    the message. *)
Record Sound (w : ShareOverlayChange) (c : ValidatedChange) : Prop := {
  sound_names : Forall2 (fun n d => decode n = Some d) (wire_path w) (names c);
  sound_path : names c <> [] /\ Forall Entry_name (names c) /\ path_size (names c) <= MAX_PATH_BYTES;
  sound_base : base c = wire_base w;
  sound_opaque : opaque c = wire_opaque w;
  sound_either : base c = None -> proposal c <> None;
  sound_proposal : match proposal c, wire_proposed w with
    | Some e, Some x => Sound_entry e /\ entry_version e = wire_version x
                        /\ match entry_contents e, wire_contents x with Some b, Some b' => decode b' = Some b | None, None => True | _, _ => False end
    | None, None => True
    | _, _ => False
    end
}.

Lemma validate_version_Ok v p : validate_version v p = Ok tt ->
  Z.land (o_mode v) (Z.lxor u32_max 4095) = 0 /\ (o_kind v = Directory -> o_digest v = None).
Proof.
  unfold validate_version. destruct (negb _) eqn:M; [done|]. bool_prop. intros ([] & X & _)%obind_Ok. split; [done|].
  intros K. rewrite K in X. by destruct (o_digest v).
Qed.
Lemma validate_contents_Ok v c : validate_contents sha256 v c = Ok tt ->
  match o_kind v with
  | Directory => c = None
  | k => exists x, c = Some x /\ o_size v = len x /\ o_digest v = Some (hex_digest sha256 x) /\ (k = Symlink -> 0 ∉ x)
  end.
Proof.
  unfold validate_contents. destruct (o_kind v) eqn:K, c as [x|]; try done.
  - rewrite (bool_decide_false (File = Symlink)) by done. cbn. destruct (_ || _) eqn:B; [done|]. bool_prop. intros _. by exists x.
  - rewrite (bool_decide_true (Symlink = Symlink)) by done. cbn. destruct (_ || _) eqn:B; [done|]. destruct (contains 0 x) eqn:Z0; [done|]. bool_prop. intros _. exists x. split_and!; [done..|]. intros _ I%contains_spec. congruence.
Qed.
Lemma validate_components_Ok total p ns size : validate_components decode total p = Ok (ns, size) ->
  Forall2 (fun n d => decode n = Some d) p ns /\ Forall Entry_name ns /\ size = total + path_size ns.
Proof.
  revert total ns size. induction p as [|n p IH]; intros total ns size; cbn; [intros [= <- <-]; split_and!; [done|done|unfold path_size; cbn [foldr]; lia]|].
  intros (d & Hd & (t & Ht & X)%obind_Ok)%obind_Ok. destruct (decode n) as [d'|] eqn:D; [|done]. injection Hd as ->.
  destruct (checked_add _ _ _) as [t'|] eqn:A; [|done]. injection Ht as ->. apply checked_add_Some in A as [-> _].
  destruct (unsafe_component d) eqn:U; [done|]. apply obind_Ok in X as ([ns' size'] & Y & [= <- <-]). apply IH in Y as (Y1 & Y2 & ->).
  split_and!; [by constructor|constructor; [by apply safe_component|done]|unfold path_size; cbn [foldr]; lia].
Qed.
Lemma validate_entry_Ok total x e total' : validate_entry decode sha256 total x = Ok (e, total') ->
  Sound_entry e /\ entry_version e = wire_version x
  /\ match entry_contents e, wire_contents x with Some b, Some b' => decode b' = Some b | None, None => True | _, _ => False end
  /\ total' = total + match entry_contents e with Some c => len c | None => 0 end
  /\ (total <= MAX_SHARE_OVERLAY_CONTENT_BYTES -> total' <= MAX_SHARE_OVERLAY_CONTENT_BYTES).
Proof.
  unfold validate_entry. intros ([] & V & (c & C & ([] & Vc & (t & T & [= <- <-])%obind_Ok)%obind_Ok)%obind_Ok)%obind_Ok.
  apply validate_version_Ok in V as [Vm Vd]. apply validate_contents_Ok in Vc. cbn. split_and!.
  - constructor; cbn; [done|]. destruct (o_kind (wire_version x)); [done|by rewrite Vd|done].
  - done.
  - destruct (wire_contents x) as [b|]; [|by injection C as <-]. destruct (decode b) eqn:D; [|done]. injection C as <-. done.
  - destruct c; [|injection T as <-; lia]. apply obind_Ok in T as (t' & A & T). destruct (checked_add _ _ _) eqn:K; [|done]. injection A as ->.
    apply checked_add_Some in K as [-> _]. destruct (_ <? _); [done|]. by injection T as <-.
  - destruct c; [|by injection T as <-]. apply obind_Ok in T as (t' & _ & T). destruct (_ <? _) eqn:L; [done|]. bool_prop. injection T as <-. lia.
Qed.
Lemma validate_change_Ok total w c total' : validate_change decode sha256 total w = Ok (c, total') ->
  Sound w c /\ total' = total + content_size c /\ (total <= MAX_SHARE_OVERLAY_CONTENT_BYTES -> total' <= MAX_SHARE_OVERLAY_CONTENT_BYTES).
Proof.
  unfold validate_change. case_bool_decide as Ne; [done|]. intros ([ns size] & Hc & X)%obind_Ok. apply validate_components_Ok in Hc as (H1 & H2 & ->).
  destruct (_ <? _) eqn:L; [done|]. bool_prop. apply obind_Ok in X as ([] & _ & ([e t] & He & X)%obind_Ok).
  assert (E : c = {| names := ns; base := wire_base w; proposal := e; opaque := wire_opaque w |} /\ total' = t /\ (wire_base w = None -> e <> None)).
  { destruct (wire_base w), e; try done; by injection X as <- <-. }
  destruct E as (-> & -> & Ei).
  assert (Nn : ns <> []) by (intros ->; inversion H1; congruence).
  destruct (wire_proposed w) as [x|] eqn:Wx.
  - apply obind_Ok in He as ([v t'] & Hv & [= <- <-]). apply validate_entry_Ok in Hv as (V1 & V2 & V3 & V4 & V5).
    split; [|done]. constructor; cbn [names base proposal opaque]; [done|split_and!; [done|done|lia]|done|done|done|by rewrite Wx].
  - injection He as <- <-. split; [|split; [unfold content_size; cbn [proposal]; lia|done]]. constructor; cbn [names base proposal opaque]; [done|split_and!; [done|done|lia]|done|done|done|by rewrite Wx].
Qed.
Definition before (a b : bytes) : Prop := bytes_leb b a = false.
Lemma validate_changes_Ok total previous ws cs : validate_changes decode sha256 total previous ws = Ok cs ->
  total <= MAX_SHARE_OVERLAY_CONTENT_BYTES ->
  Forall2 Sound ws cs /\ total + total_size cs <= MAX_SHARE_OVERLAY_CONTENT_BYTES
  /\ Sorted before (map joined cs) /\ match previous, cs with Some p, c :: _ => before p (joined c) | _, _ => True end.
Proof.
  revert total previous cs. induction ws as [|w ws IH]; intros total previous cs; cbn [validate_changes].
  { intros [= <-] H. split_and!; [done|unfold total_size; cbn [foldr]; lia|constructor|by destruct previous]. }
  intros ([c t] & Hc & X)%obind_Ok H. apply validate_change_Ok in Hc as (S & -> & Hb).
  destruct (match previous with Some p => _ | None => _ end) eqn:P; [done|]. apply obind_Ok in X as (cs' & Hcs & [= <-]).
  destruct (IH _ _ _ Hcs (Hb H)) as (F & B & So & Fi). split_and!; [by constructor|unfold total_size in *; cbn [foldr]; lia| |by destruct previous].
  cbn. constructor; [done|]. by destruct cs'; constructor.
Qed.

Lemma before_trans a b c : before a b -> before b c -> before a c.
Proof.
  unfold before. intros H1 H2. destruct (bytes_leb c a) eqn:E; [|done]. destruct (cmp_total a b) as [X|X]; [|congruence].
  by rewrite (cmp_trans c a b E X) in H2.
Qed.
Lemma before_ne a b : before a b -> a <> b.
Proof. unfold before. intros H ->. by rewrite bytes_leb_refl in H. Qed.
Lemma before_distinct l : Sorted before l -> NoDup l.
Proof.
  intros S%Sorted_StronglySorted; [|intros a b c; apply before_trans]. induction S as [|a l S IH F]; constructor; [|done].
  rewrite Forall_forall in F. intros X. by apply (before_ne a a (F a X)).
Qed.
(** What holds of every snapshot that passes. *)
Record Validated (w : ShareOverlaySnapshot) (v : ValidatedSnapshot) : Prop := {
  valid_revision : revision v = wire_revision w;
  valid_digest : exists canonical, to_json (wire_changes w) = Some canonical /\ wire_revision w = hex_digest sha256 canonical;
  valid_count : len (changes v) <= MAX_SHARE_OVERLAY_CHANGES;
  valid_changes : Forall2 Sound (wire_changes w) (changes v);
  valid_size : total_size (changes v) <= MAX_SHARE_OVERLAY_CONTENT_BYTES;
  valid_sorted : StronglySorted before (map joined (changes v));
  valid_distinct : NoDup (map names (changes v))
}.
Lemma validate_snapshot_Ok w v : validate_snapshot decode sha256 to_json w = Ok v -> Validated w v.
Proof.
  unfold validate_snapshot. destruct (_ || _) eqn:B; [done|]. bool_prop. intros (canonical & J & X)%obind_Ok.
  destruct (to_json (wire_changes w)) as [c|] eqn:Ej; [|done]. injection J as ->. destruct (negb _) eqn:R; [done|]. bool_prop.
  apply obind_Ok in X as (cs & Hcs & [= <-]). apply validate_changes_Ok in Hcs as (F & T & So & _); [|done].
  constructor; cbn [changes revision]; [done|by eexists| |done|lia| |].
  - unfold len in *. apply Forall2_length in F. lia.
  - apply Sorted_StronglySorted; [intros ? ? ?; apply before_trans|done].
  - apply before_distinct in So. apply (NoDup_fmap_1 path_bytes). by rewrite <- list_fmap_compose.
Qed.
End valid.
