(* ===== verification/OverlayHost.v ===== *)
(** * Applying an overlay on the host

    The part of [tascarrel-hostd/src/services/share_overlays/mod.rs] that inspects and
    changes the shared directory of the host.

    The file systems of the host are inodes; a directory maps names to inodes, and a
    file descriptor is an inode, so that it stays with a directory that is moved or
    removed.  A dot names the directory itself and two dots the one above it.  Other
    processes use the directory at the same time: before every system
    call the next element of [others] changes the file systems in any way.  A system
    call takes the next event of [Outage]: it runs, fails without effect, or never
    returns; a failing write may have written a part.  Errors that the code tells apart
    have their [Errno]; [EIO] stands for all other failures, permissions included.  The
    number that follows the operation in the text of an I/O error is left out.  The
    [similar] and [uuid] crates, SHA-256, the umask, the size of a directory, and the
    number of reads for which a file that keeps growing is followed are parameters. *)

From S2P Require Import Prelude Lists Utf8 ShareTypes Outage OverlayTypes.

(** ** File systems *)
Inductive Node :=
| RegularFile (contents : bytes)
| DirectoryNode (entries : gmap bytes Z) (linked : bool)
| SymbolicLink (target : bytes)
| Special.
Record Inode := { node : Node; perm : Z; dev : Z; mtime : Z * Z; ctime : Z * Z }.
#[export] Instance eta_Inode : Eta Inode := fun i =>
  {| node := node i; perm := perm i; dev := dev i; mtime := mtime i; ctime := ctime i |}.
(** [above] is the directory that a directory is in. *)
Record Fs := { inodes : gmap Z Inode; above : gmap Z Z; clock : Z * Z }.
#[export] Instance eta_Fs : Eta Fs := fun f => {| inodes := inodes f; above := above f; clock := clock f |}.
(** [drawn] counts the identifiers that were generated. *)
Record Host := { fs : Fs; others : list (Fs -> Fs); drawn : nat }.
#[export] Instance eta_Host : Eta Host := fun h => {| fs := fs h; others := others h; drawn := drawn h |}.

Inductive Errno := NOENT | NOTDIR | LOOP | EXIST | ISDIR | NOTEMPTY | INVAL | EIO.
#[export] Instance Errno_eq_dec : EqDecision Errno.
Proof. solve_decision. Defined.

Definition op (A : Type) : Type := prog Host ShareOverlayServiceError A.
Definition turn (h : Host) : Host :=
  match others h with [] => h | f :: rest => {| fs := f (fs h); others := rest; drawn := drawn h |} end.
(** What a system call does to the file systems. *)
Definition os {A} (f : Fs -> Errno + (A * Fs)) : op (Errno + A) :=
  do! put turn;
  do ev <- next_event;
  match ev with
  | Runs =>
      do h <- get;
      match f (fs h) with
      | inl e => ret (inl e)
      | inr (a, fs') => do! put (fun h => h <| fs := fs' |>); ret (inr a)
      end
  | Fails _ _ => ret (inl EIO)
  | Stops _ => stop
  end.
Definition io_error (operation : string) : ShareOverlayServiceError := Internal operation.
Definition check {A} (operation : string) (r : Errno + A) : op A :=
  match r with inl _ => raise (io_error operation) | inr a => ret a end.
(** A system call whose failure is an error of the operation. *)
Definition must {A} (operation : string) (f : Fs -> Errno + (A * Fs)) : op A :=
  do r <- os f; check operation r.

(** ** System calls *)
Definition pure_call {A} (r : Fs -> Errno + A) (f : Fs) : Errno + (A * Fs) :=
  match r f with inl e => inl e | inr a => inr (a, f) end.
Definition directory (f : Fs) (d : Z) : Errno + (gmap bytes Z * bool) :=
  match inodes f !! d with
  | Some i => match node i with DirectoryNode es linked => inr (es, linked) | _ => inl NOTDIR end
  | None => inl EIO
  end.
(** The names that every directory lists. *)
Definition dot (name : bytes) : bool := bool_decide (name = str ".") || bool_decide (name = str "..").
(** A path none of whose names is a dot or two dots. *)
Definition plain (p : path) : Prop := Forall (fun n => dot n = false) p.
Lemma plain_snoc p n : plain (p ++ [n]) <-> plain p /\ dot n = false.
Proof. unfold plain. by rewrite Forall_app, Forall_singleton. Qed.
Definition entry_named (f : Fs) (d : Z) (es : gmap bytes Z) (name : bytes) : option Z :=
  if bool_decide (name = str ".") then Some d else if bool_decide (name = str "..") then above f !! d else es !! name.
Definition child (f : Fs) (d : Z) (name : bytes) : Errno + (Z * Inode) :=
  match directory f d with
  | inl e => inl e
  | inr (es, _) =>
      match entry_named f d es name with
      | None => inl NOENT
      | Some i => match inodes f !! i with Some x => inr (i, x) | None => inl EIO end
      end
  end.

Section host.
Variable sha256 : bytes -> bytes.
(** The [n]th identifier of [Uuid::new_v4]. *)
Variable new_v4 : nat -> bytes.
(** [TextDiff::from_lines] with [unified_diff] and its header. *)
Variable unified_diff : bytes -> bytes -> bytes.
Variable umask : Z.
Variable directory_size : gmap bytes Z -> Z.
Variable max_reads : nat.

Definition stat_of (i : Z) (x : Inode) : Metadata :=
  {| file_type := match node x with
                  | RegularFile _ => FtFile | DirectoryNode _ _ => FtDirectory
                  | SymbolicLink _ => FtSymlink | Special => FtOther end;
     m_dev := dev x; m_ino := i; m_mode := perm x;
     m_size := match node x with
               | RegularFile c => len c | DirectoryNode es _ => directory_size es
               | SymbolicLink t => len t | Special => 0 end;
     m_mtime := (mtime x).1; m_mtime_nsec := (mtime x).2; m_ctime := (ctime x).1; m_ctime_nsec := (ctime x).2 |}.

Definition statat (d : Z) (name : bytes) : Fs -> Errno + (Metadata * Fs) :=
  pure_call (fun f => match child f d name with inl e => inl e | inr (i, x) => inr (stat_of i x) end).
Definition fstat (i : Z) : Fs -> Errno + (Metadata * Fs) :=
  pure_call (fun f => match inodes f !! i with Some x => inr (stat_of i x) | None => inl EIO end).
(** [openat] of ".", and of a name with [O_DIRECTORY] and [O_NOFOLLOW]. *)
Definition open_dot (d : Z) : Fs -> Errno + (Z * Fs) :=
  pure_call (fun f => match directory f d with inl e => inl e | inr _ => inr d end).
Definition open_directory (d : Z) (name : bytes) : Fs -> Errno + (Z * Fs) :=
  pure_call (fun f =>
    match child f d name with
    | inl e => inl e
    | inr (i, x) => match node x with DirectoryNode _ _ => inr i | _ => inl NOTDIR end
    end).
(** [openat] for reading with [O_NOFOLLOW]. *)
Definition open_file (d : Z) (name : bytes) : Fs -> Errno + (Z * Fs) :=
  pure_call (fun f =>
    match child f d name with
    | inl e => inl e
    | inr (i, x) => match node x with SymbolicLink _ => inl LOOP | _ => inr i end
    end).
Definition READ_BYTES : Z := 128 * 1024.
Definition read_at (i offset : Z) : Fs -> Errno + (bytes * Fs) :=
  pure_call (fun f =>
    match inodes f !! i with
    | Some x => match node x with
                | RegularFile c => inr (takez READ_BYTES (dropz offset c))
                | DirectoryNode _ _ => inl ISDIR
                | _ => inl INVAL
                end
    | None => inl EIO
    end).
Definition readlinkat (d : Z) (name : bytes) : Fs -> Errno + (bytes * Fs) :=
  pure_call (fun f =>
    match child f d name with
    | inl e => inl e
    | inr (_, x) => match node x with SymbolicLink t => inr t | _ => inl INVAL end
    end).
(** The names of a directory, in the order in which it lists them. *)
Definition read_directory (d : Z) : Fs -> Errno + (list bytes * Fs) :=
  pure_call (fun f =>
    match directory f d with inl e => inl e | inr (es, _) => inr (str "." :: str ".." :: (map_to_list es).*1) end).

(** Changing an inode updates its times. *)
Definition set_entries (f : Fs) (d : Z) (es : gmap bytes Z) : Fs :=
  match inodes f !! d with
  | Some x => f <| inodes := <[d := {| node := DirectoryNode es true; perm := perm x; dev := dev x; mtime := clock f; ctime := clock f |}]> (inodes f) |>
  | None => f
  end.
Definition new_inode (f : Fs) (d : Z) (n : Node) (mode : Z) : Inode :=
  {| node := n; perm := mode; dev := match inodes f !! d with Some x => dev x | None => 0 end;
     mtime := clock f; ctime := clock f |}.
(** A new entry of a directory: [mkdirat], [openat] with [O_CREAT | O_EXCL], [symlinkat]. *)
Definition create_entry (d : Z) (name : bytes) (n : Node) (mode : Z) (f : Fs) : Errno + (Z * Fs) :=
  match directory f d with
  | inl e => inl e
  | inr (es, linked) =>
      if dot name then inl EXIST
      else
        match es !! name with
        | Some _ => inl EXIST
        | None =>
            if linked then
              let i := fresh (dom (inodes f)) in
              inr (i, set_entries (f <| inodes := <[i := new_inode f d n mode]> (inodes f) |> <| above := <[i := d]> (above f) |>) d (<[name := i]> es))
            else inl NOENT
        end
  end.
Definition masked (mode : Z) : Z := Z.land mode (Z.lxor 1023 umask).
Definition mkdirat (d : Z) (name : bytes) (mode : Z) : Fs -> Errno + (Z * Fs) :=
  create_entry d name (DirectoryNode ∅ true) (masked mode).
Definition create_file (d : Z) (name : bytes) (mode : Z) : Fs -> Errno + (Z * Fs) :=
  create_entry d name (RegularFile []) (masked mode).
Definition symlinkat (target : bytes) (d : Z) (name : bytes) : Fs -> Errno + (Z * Fs) :=
  create_entry d name (SymbolicLink target) 511.
Definition fchmod (i mode : Z) (f : Fs) : Errno + (unit * Fs) :=
  match inodes f !! i with
  | Some x => inr (tt, f <| inodes := <[i := {| node := node x; perm := mode; dev := dev x; mtime := mtime x; ctime := clock f |}]> (inodes f) |>)
  | None => inl EIO
  end.
(** Appends to an open file. *)
Definition append (i : Z) (data : bytes) (f : Fs) : Fs :=
  match inodes f !! i with
  | Some x => match node x with
              | RegularFile c => f <| inodes := <[i := {| node := RegularFile (c ++ data); perm := perm x; dev := dev x; mtime := clock f; ctime := clock f |}]> (inodes f) |>
              | _ => f
              end
  | None => f
  end.
Definition fsync (f : Fs) : Errno + (unit * Fs) := inr (tt, f).
Definition touch (f : Fs) (i : Z) : Fs :=
  match inodes f !! i with
  | Some x => f <| inodes := <[i := {| node := node x; perm := perm x; dev := dev x; mtime := mtime x; ctime := clock f |}]> (inodes f) |>
  | None => f
  end.
Definition unlink_directory (f : Fs) (i : Z) : Fs :=
  match inodes f !! i with
  | Some x => f <| inodes := <[i := {| node := DirectoryNode ∅ false; perm := perm x; dev := dev x; mtime := mtime x; ctime := clock f |}]> (inodes f) |>
  | None => f
  end.
Definition unlinkat (d : Z) (name : bytes) (f : Fs) : Errno + (unit * Fs) :=
  match directory f d, child f d name with
  | inl e, _ | _, inl e => inl e
  | inr (es, _), inr (i, x) =>
      match node x with
      | DirectoryNode _ _ => inl ISDIR
      | _ => inr (tt, set_entries (touch f i) d (delete name es))
      end
  end.
(** [unlinkat] with [AT_REMOVEDIR]. *)
Definition rmdirat (d : Z) (name : bytes) (f : Fs) : Errno + (unit * Fs) :=
  if dot name then inl (if bool_decide (name = str ".") then INVAL else NOTEMPTY)
  else match directory f d, child f d name with
  | inl e, _ | _, inl e => inl e
  | inr (es, _), inr (i, x) =>
      match node x with
      | DirectoryNode below _ =>
          if bool_decide (below = ∅) then inr (tt, set_entries (unlink_directory f i) d (delete name es)) else inl NOTEMPTY
      | _ => inl NOTDIR
      end
  end.
(** [renameat] within one directory. *)
Definition renameat (d : Z) (from to : bytes) (f : Fs) : Errno + (unit * Fs) :=
  if dot from || dot to then inl EIO
  else match directory f d, child f d from with
  | inl e, _ | _, inl e => inl e
  | inr (es, _), inr (i, x) =>
      match child f d to with
      | inl NOENT => inr (tt, set_entries (touch f i) d (<[to := i]> (delete from es)))
      | inl e => inl e
      | inr (j, y) =>
          if i =? j then inr (tt, f)
          else
            match node x, node y with
            | DirectoryNode _ _, DirectoryNode below _ =>
                if bool_decide (below = ∅)
                then inr (tt, set_entries (unlink_directory (touch f i) j) d (<[to := i]> (delete from es)))
                else inl NOTEMPTY
            | DirectoryNode _ _, _ => inl NOTDIR
            | _, DirectoryNode _ _ => inl ISDIR
            | _, _ => inr (tt, set_entries (touch (touch f i) j) d (<[to := i]> (delete from es)))
            end
      end
  end.
(** [File::write_all]: a failing or interrupted write may have written a part. *)
Definition write_all (i : Z) (data : bytes) : op (Errno + unit) :=
  do! put turn;
  do ev <- next_event;
  match ev with
  | Runs => do! put (fun h => h <| fs := append i data (fs h) |>); ret (inr tt)
  | Fails written _ => do! put (fun h => h <| fs := append i (take (length written) data) (fs h) |>); ret (inl EIO)
  | Stops written => do! put (fun h => h <| fs := append i (take (length written) data) (fs h) |>); stop
  end.
Definition draw : op bytes :=
  do h <- get; do! put (fun h => h <| drawn := S (drawn h) |>); ret (new_v4 (drawn h)).

(** ** The current entry of a path *)
Definition entry_kind (m : Metadata) : outcome ShareOverlayServiceError EntryKind :=
  match file_type m with
  | FtFile => Ok File
  | FtDirectory => Ok Directory
  | FtSymlink => Ok Symlink
  | FtOther => Err (InvalidRequest "host share contains an unsupported entry type")
  end.
Definition same_stat_fingerprint (a b : Metadata) : bool :=
  (m_dev a =? m_dev b) && (m_ino a =? m_ino b) && bool_decide (file_type a = file_type b) && (m_mode a =? m_mode b)
  && (m_size a =? m_size b) && (m_mtime a =? m_mtime b) && (m_mtime_nsec a =? m_mtime_nsec b)
  && (m_ctime a =? m_ctime b) && (m_ctime_nsec a =? m_ctime_nsec b).
Definition current_path_matches (d : Z) (name : bytes) (expected : Metadata) (operation : string) : op bool :=
  do r <- os (statat d name);
  match r with
  | inr actual => ret (same_stat_fingerprint expected actual)
  | inl NOENT => ret false
  | inl _ => raise (io_error operation)
  end.

Inductive CurrentContents := Stable (digest contents : option bytes) | ContentsChanged.
Definition MAX_TEXT_DIFF_BYTES : Z := 256 * 1024.

(** The bytes hashed and the bytes retained. *)
Fixpoint read_file (fuel : nat) (i : Z) (hashed retained : bytes) : op (bytes * bytes) :=
  match fuel with
  | O => stop
  | S fuel' =>
      do chunk <- must "read current host share file" (read_at i (len hashed));
      if bool_decide (chunk = []) then ret (hashed, retained)
      else read_file fuel' i (hashed ++ chunk) (if len retained <=? MAX_TEXT_DIFF_BYTES then retained ++ chunk else retained)
  end.
Definition current_file_contents (d : Z) (name : bytes) (stat : Metadata) : op CurrentContents :=
  do file <- must "open current host share file" (open_file d name);
  do before <- must "inspect opened host share file" (fstat file);
  if negb (same_stat_fingerprint stat before) then ret ContentsChanged
  else
    do (hashed, retained) <- read_file max_reads file [] [];
    do after <- must "reinspect opened host share file" (fstat file);
    do same <- (if same_stat_fingerprint stat after
                then current_path_matches d name stat "reinspect host share file path" else ret false);
    if negb same then ret ContentsChanged
    else ret (Stable (Some (hex_digest sha256 hashed)) (if len retained <=? MAX_TEXT_DIFF_BYTES then Some retained else None)).
Definition current_symlink_contents (d : Z) (name : bytes) (stat : Metadata) : op CurrentContents :=
  do target <- must "read current host share symbolic link" (readlinkat d name);
  do same <- current_path_matches d name stat "reinspect host share symbolic link";
  if negb same then ret ContentsChanged
  else ret (Stable (Some (hex_digest sha256 target)) (if len target <=? MAX_TEXT_DIFF_BYTES then Some target else None)).
Definition current_contents (d : Z) (name : bytes) (stat : Metadata) (kind : EntryKind) : op CurrentContents :=
  match kind with
  | File => current_file_contents d name stat
  | Symlink => current_symlink_contents d name stat
  | Directory =>
      do same <- current_path_matches d name stat "reinspect host share directory";
      ret (if same : bool then Stable None None else ContentsChanged)
  end.

Record CurrentEntry := {
  cur_version : ShareOverlayEntryVersion; cur_modified_seconds : Z; cur_modified_nanoseconds : Z;
  cur_changed_seconds : Z; cur_changed_nanoseconds : Z; cur_contents : option bytes
}.
Inductive CurrentEntryLookup :=
| Entry (current : option CurrentEntry) | BlockedParent (parent : path) | ConcurrentChange | Unsupported.

Definition split_last (p : path) : outcome ShareOverlayServiceError (path * bytes) :=
  match last p with Some name => Ok (removelast p, name) | None => Err (InvalidRequest "ShareFS path has no final component") end.
(** The directory that the names lead to, or the path of the first that is none. *)
Fixpoint current_directory (d : Z) (walked names : path) : op (path + Z) :=
  match names with
  | [] => ret (inr d)
  | name :: rest =>
      do r <- os (open_directory d name);
      match r with
      | inr below => current_directory below (walked ++ [name]) rest
      | inl NOENT | inl NOTDIR | inl LOOP => ret (inl (walked ++ [name]))
      | inl _ => raise (io_error "traverse pinned overlay host share")
      end
  end.
Definition current_parent (root : Z) (names : path) : op (path + (Z * bytes)) :=
  do (parents, name) <- of_outcome (split_last names);
  do top <- must "duplicate pinned overlay host share" (open_dot root);
  do r <- current_directory top [] parents;
  match r with inl blocked => ret (inl blocked) | inr d => ret (inr (d, name)) end.
Definition unsigned (m : Z) (x : Z) (message : string) : outcome ShareOverlayServiceError Z :=
  if fits m x then Ok x else Err (InvalidRequest message).
Definition current_entry (root : Z) (names : path) : op CurrentEntryLookup :=
  do p <- current_parent root names;
  match p with
  | inl blocked => ret (BlockedParent blocked)
  | inr (d, name) =>
      do r <- os (statat d name);
      match r with
      | inl NOENT => ret (Entry None)
      | inl _ => raise (io_error "inspect current host share entry")
      | inr stat =>
          match entry_kind stat with
          | Ok kind =>
              do c <- current_contents d name stat kind;
              match c with
              | ContentsChanged => ret ConcurrentChange
              | Stable digest contents =>
                  do mn <- of_outcome (unsigned u32_max (m_mtime_nsec stat) "host share entry has an invalid modification timestamp");
                  do cn <- of_outcome (unsigned u32_max (m_ctime_nsec stat) "host share entry has an invalid change timestamp");
                  do size <- of_outcome (unsigned u64_max (m_size stat) "host share entry has a negative size");
                  ret (Entry (Some {|
                    cur_version := {| o_kind := kind; o_size := size; o_mode := Z.land (m_mode stat) 4095; o_digest := digest |};
                    cur_modified_seconds := m_mtime stat; cur_modified_nanoseconds := mn;
                    cur_changed_seconds := m_ctime stat; cur_changed_nanoseconds := cn; cur_contents := contents |}))
              end
          | _ => ret Unsupported
          end
      end
  end.

Definition matches_base (b : ShareOverlayBase) (c : CurrentEntry) : bool :=
  let v := base_version b in
  let w := cur_version c in
  if bool_decide (o_kind v = o_kind w) && (o_mode v =? o_mode w)
     && (bool_decide (o_kind v = Directory) || (o_size v =? o_size w))
     && (modified_seconds b =? cur_modified_seconds c) && (modified_nanoseconds b =? cur_modified_nanoseconds c)
     && (changed_seconds b =? cur_changed_seconds c) && (changed_nanoseconds b =? cur_changed_nanoseconds c)
  then true
  else negb (bool_decide (o_kind v = Directory)) && bool_decide (v = w).

(** ** Review *)
Definition text_diff (current proposed : bytes) : option bytes :=
  if (MAX_TEXT_DIFF_BYTES <? len current) || (MAX_TEXT_DIFF_BYTES <? len proposed) then None
  else if negb (Utf8.valid current) then None
  else if negb (Utf8.valid proposed) then None
  else let diff := unified_diff current proposed in
       if len diff <=? MAX_TEXT_DIFF_BYTES then Some diff else None.

Definition duplicate_root (root : Z) : op Z := must "duplicate pinned overlay host share" (open_dot root).

(** A change as it is shown for review. *)
Record ChangeSummary := {
  s_path : bytes; s_base_kind : option EntryKind; s_proposed_kind : option EntryKind;
  s_proposed_size : option Z; s_text_diff : option bytes
}.
Definition summary (c : ValidatedChange) (diff : option bytes) : ChangeSummary :=
  {| s_path := Utf8.lossy (joined c);
     s_base_kind := (fun b => o_kind (base_version b)) <$> base c;
     s_proposed_kind := (fun e => o_kind (entry_version e)) <$> proposal c;
     s_proposed_size :=
       match proposal c with
       | Some e => if bool_decide (o_kind (entry_version e) = File) then Some (o_size (entry_version e)) else None
       | None => None
       end;
     s_text_diff := diff |}.
Definition summaries (s : ValidatedSnapshot) : list ChangeSummary := map (fun c => summary c None) (changes s).

Definition review_text_diff (root : Z) (c : ValidatedChange) : op (option bytes) :=
  let proposed :=
    match proposal c with
    | None => match base c with
              | Some b => if bool_decide (o_kind (base_version b) = File) then Some [] else None
              | None => None
              end
    | Some e => if bool_decide (o_kind (entry_version e) = File) then entry_contents e else None
    end in
  match proposed with
  | None => ret None
  | Some p =>
      match base c with
      | None => ret (text_diff [] p)
      | Some b =>
          if negb (bool_decide (o_kind (base_version b) = File)) then ret None
          else
            do current <- current_entry root (names c);
            match current with
            | Entry (Some current) =>
                if negb (matches_base b current) then ret None
                else ret (match cur_contents current with Some text => text_diff text p | None => None end)
            | _ => ret None
            end
      end
  end.
Definition MAX_REVIEW_TEXT_DIFF_TOTAL_BYTES : Z := 8 * 1024 * 1024.
(** The difference is shown while the total stays within its bound. *)
Definition keep_diff (total : Z) (diff : option bytes) : option bytes * Z :=
  match diff with
  | None => (None, total)
  | Some d =>
      match checked_add usize_max total (len d) with
      | None => (None, total)
      | Some t => if MAX_REVIEW_TEXT_DIFF_TOTAL_BYTES <? t then (None, total) else (Some d, t)
      end
  end.
Fixpoint review_loop (root : Z) (total : Z) (cs : list ValidatedChange) : op (list ChangeSummary) :=
  match cs with
  | [] => ret []
  | c :: rest =>
      do diff <- review_text_diff root c;
      let '(shown, total') := keep_diff total diff in
      do more <- review_loop root total' rest;
      ret (summary c shown :: more)
  end.
Definition review_summaries (root : Z) (s : ValidatedSnapshot) : op (list ChangeSummary) :=
  do root' <- duplicate_root root; review_loop root' 0 (changes s).
End host.

(** * Conflicts and application

    The rest of what [share_overlays/mod.rs] does in the shared directory: the check of
    all captured versions, and the removals, directories, files and links of the
    changes.  The parameters are those of [OverlayHost]; [max_depth] bounds the
    recursion of the removal of a directory, whose depth other processes can extend. *)

Record ShareOverlayConflict := { conflict_path : bytes; reason : bytes; conflict_diff : option bytes }.
Inductive ApplyAttempt := Applied | Conflicts (conflicts : list ShareOverlayConflict).

Definition proposes (k : EntryKind) (c : ValidatedChange) : bool :=
  match proposal c with Some e => bool_decide (o_kind (entry_version e) = k) | None => false end.
(** The paths whose current entries are removed first. *)
Definition is_removal (c : ValidatedChange) : bool :=
  match proposal c with
  | None => true
  | Some e => opaque c || match base c with Some b => negb (bool_decide (o_kind (base_version b) = o_kind (entry_version e))) | None => false end
  end.
Definition removes_contents (c : ValidatedChange) : bool :=
  opaque c || match base c with Some b => bool_decide (o_kind (base_version b) = Directory) | None => false end.
Definition deeper_first (a b : ValidatedChange) : bool := bool_decide (length (names b) <= length (names a))%nat.
Definition shallower_first (a b : ValidatedChange) : bool := bool_decide (length (names a) <= length (names b))%nat.
Definition removals (cs : list ValidatedChange) : list ValidatedChange :=
  sort_by deeper_first (List.filter is_removal cs).
Definition directories (cs : list ValidatedChange) : list ValidatedChange :=
  sort_by shallower_first (List.filter (proposes Directory) cs).

Section apply.
Variable sha256 : bytes -> bytes.
Variable new_v4 : nat -> bytes.
Variable unified_diff : bytes -> bytes -> bytes.
Variable umask : Z.
Variable directory_size : gmap bytes Z -> Z.
Variables max_reads max_depth : nat.

(** ** Conflicts *)
Definition matched (b : option ShareOverlayBase) (current : option CurrentEntry) : bool :=
  match b, current with
  | None, None => true
  | Some b, Some c => matches_base b c
  | _, _ => false
  end.
Definition conflict (c : ValidatedChange) (why : bytes) (diff : option bytes) : ShareOverlayConflict :=
  {| conflict_path := Utf8.lossy (joined c); reason := why; conflict_diff := diff |}.
(** The version of one change against what is there. *)
Definition judge (c : ValidatedChange) (current : option CurrentEntry) : option ShareOverlayConflict :=
  if matched (base c) current then None
  else
    let diff :=
      match current, proposal c with
      | Some cur, Some e =>
          match cur_contents cur, entry_contents e with
          | Some a, Some b => text_diff unified_diff a b
          | _, _ => None
          end
      | _, _ => None
      end in
    Some (conflict c (str "the current host entry no longer matches the captured base") diff).
Definition verdict (proposed_directories : list bytes) (c : ValidatedChange) (l : CurrentEntryLookup) : option ShareOverlayConflict :=
  match l with
  | Entry current => judge c current
  | BlockedParent parent =>
      if bool_decide (path_bytes parent ∈ proposed_directories) then judge c None
      else Some (conflict c (str "the current host parent " ++ Utf8.lossy (path_bytes parent)
                             ++ str " is absent or is not a directory") None)
  | ConcurrentChange => Some (conflict c (str "the current host entry changed while it was being inspected") None)
  | Unsupported => Some (conflict c (str "the current host entry has an unsupported type") None)
  end.
Fixpoint conflicts_loop (root : Z) (proposed_directories : list bytes) (cs : list ValidatedChange) : op (list ShareOverlayConflict) :=
  match cs with
  | [] => ret []
  | c :: rest =>
      do l <- current_entry sha256 directory_size max_reads root (names c);
      do more <- conflicts_loop root proposed_directories rest;
      ret (match verdict proposed_directories c l with Some x => x :: more | None => more end)
  end.
Definition conflicts (root : Z) (s : ValidatedSnapshot) : op (list ShareOverlayConflict) :=
  do root' <- duplicate_root root;
  conflicts_loop root' (map joined (List.filter (proposes Directory) (changes s))) (changes s).

(** ** Application *)
Fixpoint open_directories (d : Z) (names : path) : op Z :=
  match names with
  | [] => ret d
  | name :: rest => do below <- must "traverse pinned overlay host share" (open_directory d name); open_directories below rest
  end.
Definition open_parent (root : Z) (names : path) : op (Z * bytes) :=
  do (parents, name) <- of_outcome (split_last names);
  do top <- duplicate_root root;
  do d <- open_directories top parents;
  ret (d, name).
Definition host_mode (mode : Z) : outcome ShareOverlayServiceError Z :=
  match try_from u32_max mode with
  | Some m => Ok m
  | None => Err (Internal "validated ShareFS mode does not fit the host mode type")
  end.
Definition temporary_name (uuid : bytes) : bytes := str ".tascarrel-sharefs-" ++ uuid.
Lemma dot_temporary uuid : dot (temporary_name uuid) = false.
Proof. done. Qed.

Definition write_directory (root : Z) (c : ValidatedChange) : op unit :=
  do e <- of_outcome (ok_or (proposal c) (Internal "missing proposed ShareFS directory"));
  do (d, name) <- open_parent root (names c);
  do mode <- of_outcome (host_mode (o_mode (entry_version e)));
  do made <- os (mkdirat umask d name mode);
  match made with
  | inr _ | inl EXIST =>
      do i <- must "open approved host share directory" (open_directory d name);
      must "set approved host share directory mode" (fchmod i mode)
  | inl _ => raise (io_error "create approved host share directory")
  end.

(** [result] after the temporary entry of a failed publication was removed. *)
Definition or_unlink (d : Z) (temporary : bytes) (m : op unit) : op unit :=
  do r <- attempt m;
  match r with
  | inr _ => ret tt
  | inl e => do _ <- os (unlinkat d temporary); raise e
  end.
Definition fill_file (d file : Z) (temporary name contents : bytes) (mode : Z) : op unit :=
  do w <- write_all file contents;
  do! check "write approved host share file" w;
  do! must "set approved host share file mode" (fchmod file mode);
  do! must "sync approved host share file" fsync;
  must "publish approved host share file" (renameat d temporary name).
Definition write_file (root : Z) (c : ValidatedChange) (e : ValidatedEntry) : op unit :=
  do contents <- of_outcome (ok_or (entry_contents e) (Internal "missing approved file contents"));
  do (d, name) <- open_parent root (names c);
  do mode <- of_outcome (host_mode (o_mode (entry_version e)));
  do uuid <- draw new_v4;
  let temporary := temporary_name uuid in
  do file <- must "create approved host share temporary file" (create_file umask d temporary 384);
  or_unlink d temporary (fill_file d file temporary name contents mode).
Definition write_symlink (root : Z) (c : ValidatedChange) (e : ValidatedEntry) : op unit :=
  do target <- of_outcome (ok_or (entry_contents e) (Internal "missing approved symbolic-link target"));
  do (d, name) <- open_parent root (names c);
  do uuid <- draw new_v4;
  let temporary := temporary_name uuid in
  do _ <- must "create approved host share symbolic link" (symlinkat target d temporary);
  or_unlink d temporary (must "publish approved host share symbolic link" (renameat d temporary name)).

Fixpoint remove_directory_contents (depth : nat) (d : Z) : op unit :=
  match depth with
  | O => stop
  | S depth' =>
      do entries <- must "enumerate approved recursive removal" (read_directory d);
      for_each (fun name =>
        if bool_decide (name = str ".") || bool_decide (name = str "..") then ret tt
        else
          do stat <- must "inspect approved recursive removal entry" (statat directory_size d name);
          do kind <- of_outcome (entry_kind stat);
          if bool_decide (kind = Directory) then
            do below <- must "open approved recursive removal directory" (open_directory d name);
            do! remove_directory_contents depth' below;
            must "remove approved recursive directory" (rmdirat d name)
          else must "remove approved recursive entry" (unlinkat d name)) entries
  end.
Definition remove_existing (root : Z) (names : path) (recursive : bool) : op unit :=
  do (d, name) <- open_parent root names;
  do r <- os (statat directory_size d name);
  match r with
  | inl NOENT => ret tt
  | inl _ => raise (io_error "inspect approved removal target")
  | inr stat =>
      do kind <- of_outcome (entry_kind stat);
      if bool_decide (kind = Directory) then
        do! (if recursive then
               do below <- must "open approved recursive removal" (open_directory d name);
               remove_directory_contents max_depth below
             else ret tt);
        must "remove approved host share directory" (rmdirat d name)
      else must "remove approved host share entry" (unlinkat d name)
  end.

Definition write_entry (root : Z) (c : ValidatedChange) : op unit :=
  match proposal c with
  | None => ret tt
  | Some e =>
      match o_kind (entry_version e) with
      | File => write_file root c e
      | Symlink => write_symlink root c e
      | Directory => ret tt
      end
  end.
Definition apply_changes (root : Z) (cs : list ValidatedChange) : op unit :=
  do root' <- duplicate_root root;
  do! for_each (fun c => remove_existing root' (names c) (removes_contents c)) (removals cs);
  do! for_each (write_directory root') (directories cs);
  for_each (write_entry root') cs.
Definition validate_and_apply (root : Z) (s : ValidatedSnapshot) : op ApplyAttempt :=
  do cs <- conflicts root s;
  match cs with
  | [] => do! apply_changes root (changes s); ret Applied
  | _ :: _ => ret (Conflicts cs)
  end.
End apply.
