(* ===== verification/OverlayService.v ===== *)
(** * Approval of share overlays

    [ShareOverlayService] of [tascarrel-hostd/src/services/share_overlays/mod.rs] and its
    [storage.rs]: pending approvals, kept in memory and as one record each on disk; the
    exchange with the guest; inspection and application.

    The guest is the list of its replies in [inbox]; what it is told is logged in
    [sent].  Frames are decoded values; the running virtual machine of a workspace,
    JSON, generated identifiers and the parameters of [OverlayHost] are parameters; the
    texts of their errors are replaced by constants.
    The transition lock makes operations atomic to each other.  Records are written to a
    temporary file that is renamed into place; temporary files have no other effect. *)

From S2P Require Import Prelude Lists Utf8 PodTypes RepoStore ShareTypes Outage OverlayTypes OverlayHost.

(** ** Records *)
Definition RECORD_VERSION : Z := 1.
Definition MAX_RECORD_BYTES : Z := 64 * 1024 * 1024.
Definition MAX_RECORDS : Z := 10000.
Record StoredShareOverlayApproval := {
  a_version : Z; a_id : bytes; a_workspace : bytes; a_pod_id : bytes; a_share : bytes; a_created_at : Z;
  a_revision : bytes; a_changes : list ChangeSummary
}.
Inductive ShareOverlayApprovalStorageError :=
| UnsupportedVersion (version : Z) | InvalidRecord | RecordLimit | RecordTooLarge | AlreadyExists | UnsafePath | Io | InvalidJson.
Definition storage_message (e : ShareOverlayApprovalStorageError) : string :=
  match e with
  | UnsupportedVersion v => String.append "overlay approval storage has unsupported record version " (pretty v)
  | InvalidRecord => "overlay approval storage contains an invalid record"
  | RecordLimit => "overlay approval storage exceeds its record limit"
  | RecordTooLarge => "overlay approval record exceeds its size limit"
  | AlreadyExists => "overlay approval record already exists"
  | UnsafePath => "overlay approval storage path is unsafe"
  | Io => "overlay approval storage I/O failed"
  | InvalidJson => "overlay approval storage contains invalid JSON"
  end.
Definition storage_error (e : ShareOverlayApprovalStorageError) : ShareOverlayServiceError := Internal (storage_message e).

Definition lower_hex (b : Z) : bool := is_hexdigit b && negb ((65 <=? b) && (b <=? 90)).
Definition validate_record (a : StoredShareOverlayApproval) : outcome ShareOverlayServiceError unit :=
  if negb (a_version a =? RECORD_VERSION) then Err (storage_error (UnsupportedVersion (a_version a)))
  else if negb (workspace_name (a_workspace a)) || negb (pod_id_ok (a_pod_id a))
          || negb (valid_workspace_share_name (a_share a)) || negb (len (a_revision a) =? 64)
          || negb (forallb lower_hex (a_revision a)) || (MAX_SHARE_OVERLAY_CHANGES <? len (a_changes a))
  then Err (storage_error InvalidRecord) else Ok tt.

(** ** Messages *)
Inductive ShareOverlayOperation := Inspect | Apply (revision : bytes).
Inductive ShareOverlayPrepareResponse :=
| Snapshot (snapshot : ShareOverlaySnapshot) | RevisionChanged (snapshot : ShareOverlaySnapshot) | PrepareError (message : string).
Inductive ShareOverlayDecision := DecideApplied | Retain.
Inductive ShareOverlayCompletion := Complete | CompletionError (message : string).
Inductive HostMessage := Request (pod share : bytes) (operation : ShareOverlayOperation) | Decision (d : ShareOverlayDecision).
Inductive GuestMessage := Prepared (r : ShareOverlayPrepareResponse) | Completed (c : ShareOverlayCompletion).

(** ** The service and its surroundings *)
Record World := {
  host : Host; inbox : list GuestMessage; sent : list HostMessage;
  store_root : option bool; records : gmap bytes (entry StoredShareOverlayApproval);
  approvals : gmap bytes StoredShareOverlayApproval; generation : Z; now : Z; generated : nat
}.
#[export] Instance eta_World : Eta World := fun w =>
  {| host := host w; inbox := inbox w; sent := sent w; store_root := store_root w; records := records w;
     approvals := approvals w; generation := generation w; now := now w; generated := generated w |}.
Definition act (A : Type) : Type := prog World ShareOverlayServiceError A.
Definition on_host {A} (m : op A) : act A := fun w =>
  let '(r, w') := m {| disk := host (disk w); events := events w |} in
  (r, {| disk := (disk w) <| host := disk w' |>; events := events w' |}).

Section storage.
(** The length of [serde_json::to_vec_pretty]. *)
Variable encoded_len : StoredShareOverlayApproval -> Z.

Definition io : ShareOverlayServiceError := storage_error Io.
Definition ensure_private_directory : act unit :=
  do! syscall io id;
  do w <- get;
  do! match store_root w with
      | Some false => raise (storage_error UnsafePath)
      | Some true => ret tt
      | None => syscall io (fun w => w <| store_root := Some true |>)
      end;
  syscall io id.
Definition read_record (e : entry StoredShareOverlayApproval) : act StoredShareOverlayApproval :=
  do! syscall io id;
  match e with
  | Other => raise (storage_error InvalidRecord)
  | Regular content size =>
      if MAX_RECORD_BYTES <? size then raise (storage_error RecordTooLarge)
      else
        do! syscall io id;
        match content with Some a => ret a | None => raise (storage_error InvalidJson) end
  end.
Fixpoint load_loop (entries : list (bytes * entry StoredShareOverlayApproval)) (loaded : list StoredShareOverlayApproval) : act (list StoredShareOverlayApproval) :=
  match entries with
  | [] => ret loaded
  | (stem, e) :: rest =>
      do! syscall io id;
      if len loaded =? MAX_RECORDS then raise (storage_error RecordLimit)
      else
        do a <- read_record e;
        do! of_outcome (validate_record a);
        if bool_decide (stem = a_id a) then load_loop rest (loaded ++ [a]) else raise (storage_error InvalidRecord)
  end.
Definition earlier (a b : StoredShareOverlayApproval) : bool :=
  (a_created_at a <? a_created_at b) || ((a_created_at a =? a_created_at b) && bytes_leb (a_id a) (a_id b)).
Definition load : act (list StoredShareOverlayApproval) :=
  do! syscall io id;
  do w <- get;
  do loaded <- load_loop (map_to_list (records w)) [];
  ret (sort_by earlier loaded).
Definition sync_directory : act unit := syscall io id.
(** [Path::exists], which is false when it cannot tell. *)
Definition record_exists (i : bytes) : act bool :=
  do r <- attempt (syscall io id);
  do w <- get;
  ret (match r with inr _ => bool_decide (is_Some (records w !! i)) | inl _ => false end).
Definition create (a : StoredShareOverlayApproval) : act unit :=
  do! of_outcome (validate_record a);
  do present <- record_exists (a_id a);
  if present : bool then raise (storage_error AlreadyExists)
  else if MAX_RECORD_BYTES <? encoded_len a then raise (storage_error RecordTooLarge)
  else
    do! syscall io id;
    do! syscall io id;
    do! syscall io id;
    do! syscall io (fun w => w <| records := <[a_id a := Regular (Some a) (encoded_len a)]> (records w) |>);
    sync_directory.
Definition remove_record (i : bytes) : act unit :=
  do w <- get;
  match records w !! i with
  | None => do! syscall io id; raise io
  | Some _ => do! syscall io (fun w => w <| records := delete i (records w) |>); sync_directory
  end.
End storage.

Section service.
Variable decode : bytes -> option bytes.
Variable sha256 : bytes -> bytes.
Variable to_json : list ShareOverlayChange -> option bytes.
Variable new_v4 : nat -> bytes.
Variable unified_diff : bytes -> bytes -> bytes.
Variable umask : Z.
Variable directory_size : gmap bytes Z -> Z.
Variables max_reads max_depth : nat.
Variable encoded_len : StoredShareOverlayApproval -> Z.
(** The shared directory of a running workspace. *)
Variable overlay_share : bytes -> bytes -> option Z.
Variable generate : nat -> bytes.

(** ** Exchange with the guest *)
Definition unreachable : ShareOverlayServiceError := Unavailable "the guest endpoint failed".
Definition connection (workspace share : bytes) : act Z :=
  if negb (valid_workspace_share_name share) then raise (InvalidRequest "invalid overlay share name")
  else if negb (workspace_name workspace) then raise (InvalidRequest "invalid workspace name")
  else
    do! syscall (Unavailable "the workspace is not running") id;
    of_outcome (ok_or (overlay_share workspace share) (Unavailable "the workspace has no such overlay share")).
Definition send (m : HostMessage) : act unit := syscall unreachable (fun w => w <| sent := sent w ++ [m] |>).
(** [Framed::read]: the next message, or nothing when the guest closed. *)
Definition receive : act (option GuestMessage) :=
  do! syscall unreachable id;
  do w <- get;
  match inbox w with
  | [] => ret None
  | m :: rest => do! put (fun w => w <| inbox := rest |>); ret (Some m)
  end.
Definition receive_prepared (closed : string) : act ShareOverlayPrepareResponse :=
  do m <- receive;
  match m with
  | Some (Prepared r) => ret r
  | Some (Completed _) => raise unreachable
  | None => raise (Unavailable closed)
  end.
Definition prepare (pod share : bytes) : act ShareOverlaySnapshot :=
  do! send (Request pod share Inspect);
  do r <- receive_prepared "guest closed the ShareFS inspection request";
  match r with
  | Snapshot s => ret s
  | RevisionChanged _ => raise (Internal "guest changed an inspection revision unexpectedly")
  | PrepareError message => raise (Unavailable (String.append "guest could not inspect the ShareFS revision: " message))
  end.
Definition send_decision (d : ShareOverlayDecision) : act unit :=
  do! send (Decision d);
  do m <- receive;
  match m with
  | Some (Completed Complete) => ret tt
  | Some (Completed (CompletionError message)) => raise (Internal (String.append "guest could not commit the ShareFS decision: " message))
  | Some (Prepared _) => raise unreachable
  | None => raise (Unavailable "guest closed before acknowledging the ShareFS decision")
  end.

Definition inspect_revision (workspace pod share : bytes) : act (bytes * list ChangeSummary) :=
  do root <- connection workspace share;
  do! syscall unreachable id;
  do s <- prepare pod share;
  do v <- of_outcome (validate_snapshot decode sha256 to_json s);
  do cs <- on_host (review_summaries sha256 unified_diff directory_size max_reads root v);
  ret (revision v, cs).

Inductive ShareOverlayApplyResult :=
| ResultApplied | ResultRevisionChanged (revision : bytes) (changes : list ChangeSummary)
| ResultConflicts (conflicts : list ShareOverlayConflict).
Definition apply_revision (workspace pod share reviewed : bytes) : act ShareOverlayApplyResult :=
  do root <- connection workspace share;
  do! syscall unreachable id;
  do! send (Request pod share (Apply reviewed));
  do r <- receive_prepared "guest closed the ShareFS approval request";
  match r with
  | RevisionChanged s =>
      do v <- of_outcome (validate_snapshot decode sha256 to_json s);
      ret (ResultRevisionChanged (revision v) (summaries v))
  | PrepareError message => raise (Unavailable (String.append "guest could not prepare the ShareFS revision: " message))
  | Snapshot s =>
      do v <- of_outcome (validate_snapshot decode sha256 to_json s);
      if negb (bool_decide (revision v = reviewed)) then
        do! send_decision Retain;
        raise (InvalidRequest "guest returned a different ShareFS revision")
      else
        do attempted <- attempt (on_host (validate_and_apply sha256 new_v4 unified_diff umask directory_size max_reads max_depth root v));
        match attempted with
        | inr Applied => do! send_decision DecideApplied; ret ResultApplied
        | inr (Conflicts cs) => do! send_decision Retain; ret (ResultConflicts cs)
        | inl e => do! send_decision Retain; raise e
        end
  end.

(** ** Operations of the service *)
Definition wrapping_add (x y : Z) : Z := (x + y) mod (u64_max + 1).
Definition publish : act unit := put (fun w => w <| generation := wrapping_add (generation w) 1 |>).
Definition open : act unit :=
  do! ensure_private_directory;
  do loaded <- load;
  put (fun w => w <| approvals := list_to_map (map (fun a => (a_id a, a)) loaded) |> <| generation := 0 |>).
Definition remove (i : bytes) : act unit :=
  do! remove_record i;
  do! put (fun w => w <| approvals := delete i (approvals w) |>);
  publish.
(** The pending requests in the order of their identifiers. *)
Definition values (w : World) : list StoredShareOverlayApproval :=
  sort_by (fun a b => bytes_leb (a_id a) (a_id b)) (map snd (map_to_list (approvals w))).
Definition same_share (workspace pod share : bytes) (a : StoredShareOverlayApproval) : bool :=
  bool_decide (a_workspace a = workspace) && bool_decide (a_pod_id a = pod) && bool_decide (a_share a = share).
Definition remove_matching (workspace pod share rev : bytes) : act unit :=
  do w <- get;
  for_each remove
    (map a_id (List.filter (fun a => same_share workspace pod share a && bool_decide (a_revision a = rev)) (values w))).
Definition apply (workspace pod share rev : bytes) : act ShareOverlayApplyResult :=
  do r <- apply_revision workspace pod share rev;
  match r with
  | ResultApplied => do! remove_matching workspace pod share rev; ret r
  | _ => ret r
  end.
(** A request as clients see it. *)
Record ShareOverlayApprovalRequest := {
  q_id : bytes; q_pod_id : bytes; q_share : bytes; q_created_at : Z; q_revision : bytes; q_changes : list ChangeSummary
}.
Definition api_approval (a : StoredShareOverlayApproval) : outcome ShareOverlayServiceError ShareOverlayApprovalRequest :=
  if pod_id_ok (a_pod_id a)
  then Ok {| q_id := a_id a; q_pod_id := a_pod_id a; q_share := a_share a; q_created_at := a_created_at a;
             q_revision := a_revision a; q_changes := a_changes a |}
  else Err (Internal "stored overlay approval has an invalid pod identifier").
Definition request_approval (workspace pod share : bytes) : act ShareOverlayApprovalRequest :=
  do (rev, cs) <- inspect_revision workspace pod share;
  if bool_decide (length cs = 0%nat) then raise (InvalidRequest "overlay share has no changes to submit")
  else
    do w <- get;
    match List.find (same_share workspace pod share) (values w) with
    | Some existing =>
        if bool_decide (a_revision existing = rev) then of_outcome (api_approval existing)
        else raise (InvalidRequest "a different revision of this overlay share is already awaiting approval")
    | None =>
        let a := {| a_version := RECORD_VERSION; a_id := generate (generated w); a_workspace := workspace; a_pod_id := pod;
                    a_share := share; a_created_at := now w; a_revision := rev; a_changes := cs |} in
        do! put (fun w => w <| generated := S (generated w) |>);
        do! create encoded_len a;
        do request <- of_outcome (api_approval a);
        do! put (fun w => w <| approvals := <[a_id a := a]> (approvals w) |>);
        do! publish;
        ret request
    end.
Definition cancel_approval (workspace pod i : bytes) : act unit :=
  do w <- get;
  match approvals w !! i with
  | None => raise (InvalidRequest "overlay approval request does not exist")
  | Some a =>
      if negb (bool_decide (a_workspace a = workspace)) || negb (bool_decide (a_pod_id a = pod))
      then raise (InvalidRequest "overlay approval request does not exist")
      else
        do! remove_record i;
        do! put (fun w => w <| approvals := delete i (approvals w) |>);
        publish
  end.
Inductive ShareOverlayApprovalDecision := Reject | Approve.
Inductive ShareOverlayApprovalResolution :=
| Rejected | ResolvedApplied | ResolvedRevisionChanged (revision : bytes) (changes : list ChangeSummary)
| ResolvedConflicts (conflicts : list ShareOverlayConflict).
Definition resolve_approval (workspace i : bytes) (d : ShareOverlayApprovalDecision) : act ShareOverlayApprovalResolution :=
  do w <- get;
  match approvals w !! i with
  | None => raise (InvalidRequest "overlay approval request does not exist")
  | Some a =>
      if negb (bool_decide (a_workspace a = workspace)) then raise (InvalidRequest "overlay approval request does not exist")
      else
        match d with
        | Reject => do! remove i; ret Rejected
        | Approve =>
            if negb (pod_id_ok (a_pod_id a)) then raise (Internal "stored overlay approval has an invalid pod identifier")
            else
              do r <- apply_revision workspace (a_pod_id a) (a_share a) (a_revision a);
              match r with
              | ResultApplied => do! remove i; ret ResolvedApplied
              | ResultRevisionChanged rev cs => ret (ResolvedRevisionChanged rev cs)
              | ResultConflicts cs => ret (ResolvedConflicts cs)
              end
        end
  end.

(** ** Subscriptions *)
(** [serde_json::to_vec] of a list of requests. *)
Variable list_json : list ShareOverlayApprovalRequest -> option bytes.
(** [s_seen] is the generation that the receiver of the channel has seen. *)
Record ShareOverlayApprovalSubscription := {
  s_workspace : bytes; s_pod_id : option bytes; s_cursor : option bytes; s_seen : Z; s_current_pending : bool
}.
#[export] Instance eta_Subscription : Eta ShareOverlayApprovalSubscription := fun s =>
  {| s_workspace := s_workspace s; s_pod_id := s_pod_id s; s_cursor := s_cursor s; s_seen := s_seen s; s_current_pending := s_current_pending s |}.
Definition subscribe (workspace : bytes) (pod cursor : option bytes) (w : World) : ShareOverlayApprovalSubscription :=
  {| s_workspace := workspace; s_pod_id := pod; s_cursor := cursor; s_seen := generation w; s_current_pending := true |}.
Definition earlier_request (a b : ShareOverlayApprovalRequest) : bool :=
  (q_created_at a <? q_created_at b) || ((q_created_at a =? q_created_at b) && bytes_leb (q_id a) (q_id b)).
Definition pending (workspace : bytes) (pod : option bytes) (w : World) : outcome ShareOverlayServiceError (list ShareOverlayApprovalRequest) :=
  let? requests := collect api_approval (List.filter (fun a => bool_decide (a_workspace a = workspace)
       && match pod with Some p => bool_decide (a_pod_id a = p) | None => true end) (values w)) in
  Ok (sort_by earlier_request requests).
Definition approval_list_revision (value : list ShareOverlayApprovalRequest) : outcome ShareOverlayServiceError bytes :=
  let? encoded := ok_or (list_json value) (Internal "could not derive overlay approval list revision") in
  Ok (hex_digest sha256 encoded).
(** [recv] while the service is as it is: [None] when it goes on waiting for a change. *)
Fixpoint recv (fuel : nat) (w : World) (s : ShareOverlayApprovalSubscription) :
    outcome ShareOverlayServiceError (option (bytes * list ShareOverlayApprovalRequest)) * ShareOverlayApprovalSubscription :=
  match fuel with
  | O => (Panic "out of fuel", s)
  | S fuel' =>
      if negb (s_current_pending s) && (s_seen s =? generation w) then (Ok None, s)
      else
        let s := if s_current_pending s then s <| s_current_pending := false |> else s <| s_seen := generation w |> in
        match (let? value := pending (s_workspace s) (s_pod_id s) w in
               let? revision := approval_list_revision value in Ok (value, revision)) with
        | Ok (value, revision) =>
            if bool_decide (s_cursor s = Some revision) then recv fuel' w s
            else (Ok (Some (revision, value)), s <| s_cursor := Some revision |>)
        | Err e => (Err e, s)
        | Panic m => (Panic m, s)
        end
  end.
End service.
