(* ===== verification/OverlaySafe.v ===== *)
(** * Application stays inside the share

    Whatever the guest proposes, whatever is in the directory, whatever calls fail and
    whatever other processes do there, the service changes nothing outside the shared
    directory, follows no symbolic link out of it, and never writes into a file that
    exists.  [O] is a set of inodes that are not reachable from the root of the share,
    [K] a set of regular files, inside or outside; [J] is any property of the inodes in
    [O] and of the contents of the files in [K].  Other processes are restricted only in
    that they keep [J] and move nothing of [O] into the share: then [J] holds at the end
    of every run, of one that fails or never returns too. *)

From S2P Require Import Prelude Lists ShareTypes Outage OverlayTypes OverlayHost.

Section safe.
Context (O K : gset Z) (root : Z) (J : Fs -> Prop).

(** What the service leaves as it is. *)
Definition spares (f g : Fs) : Prop :=
  (forall i, i ∈ O -> inodes g !! i = inodes f !! i) /\ (forall i, i ∈ K -> node <$> inodes g !! i = node <$> inodes f !! i).
Record Inside (f : Fs) : Prop := {
  inside_root : root ∉ O;
  inside_known : O ∪ K ⊆ dom (inodes f);
  inside_files : forall i x, i ∈ K -> inodes f !! i = Some x -> exists c, node x = RegularFile c;
  inside_closed : forall d x es l n i, d ∉ O -> inodes f !! d = Some x -> node x = DirectoryNode es l -> es !! n = Some i -> i ∉ O;
  inside_kept : J f
}.
Context (J_spared : forall f g, spares f g -> J f -> J g).
Definition rely (g : Fs -> Fs) : Prop := forall f, Inside f -> Inside (g f).
Definition Safe (h : Host) : Prop := Inside (fs h) /\ Forall rely (others h).

(** ** Changes of the file systems *)
Lemma spares_refl f : spares f f.
Proof. by split. Qed.
Lemma spares_trans f g k : spares f g -> spares g k -> spares f k.
Proof. intros [A1 A2] [B1 B2]. split; intros i H; [by rewrite B1, A1|by rewrite B2, A2]. Qed.

(** An inode that may be changed: not in [O], and in [K] only without changing its
    contents; as a directory it leads nowhere outside. *)
Definition admits (f : Fs) (i : Z) (x : Inode) : Prop :=
  i ∉ O /\ (i ∈ K -> node <$> inodes f !! i = Some (node x))
  /\ (forall es l n j, node x = DirectoryNode es l -> es !! n = Some j -> j ∉ O).
Lemma Inside_insert f i x : Inside f -> admits f i x -> Inside (f <| inodes := <[i := x]> (inodes f) |>).
Proof.
  intros [R D F C H] (A1 & A2 & A3).
  assert (Sp : spares f (f <| inodes := <[i := x]> (inodes f) |>)).
  { split; intros k Hk; cbn.
    - rewrite lookup_insert_ne by (intros ->; done). done.
    - destruct (decide (i = k)) as [->|N]; [rewrite lookup_insert_eq; symmetry; by apply A2|by rewrite lookup_insert_ne]. }
  constructor; [done|cbn; rewrite dom_insert; set_solver| | |by eapply J_spared].
  - intros k y Hk. cbn. destruct (decide (i = k)) as [->|N].
    + rewrite lookup_insert_eq. intros [= <-]. specialize (A2 Hk). destruct (inodes f !! k) as [y|] eqn:E; [|done].
      injection A2 as <-. by eapply F.
    + rewrite lookup_insert_ne by done. by apply F.
  - intros d y es l n j Hd. cbn. destruct (decide (i = d)) as [->|N].
    + rewrite lookup_insert_eq. intros [= <-]. apply A3.
    + rewrite lookup_insert_ne by done. by apply C.
Qed.
Lemma Inside_child f d name i x : Inside f -> d ∉ O -> dot name = false -> child f d name = inr (i, x) -> i ∉ O /\ inodes f !! i = Some x.
Proof.
  intros I Hd [D1%bool_decide_eq_false D2%bool_decide_eq_false]%orb_false_iff. unfold child, directory, entry_named. destruct (inodes f !! d) as [y|] eqn:E; [|done].
  destruct (node y) as [|es l| |] eqn:En; try done. rewrite !bool_decide_false by done. destruct (es !! name) as [k|] eqn:Ek; [|done].
  destruct (inodes f !! k) as [z|] eqn:Ez; [|done]. intros [= -> ->]. split; [|done]. by eapply inside_closed.
Qed.
Lemma directory_Some f d es l : directory f d = inr (es, l) <-> exists x, inodes f !! d = Some x /\ node x = DirectoryNode es l.
Proof.
  unfold directory. split.
  - destruct (inodes f !! d) as [x|]; [|done]. destruct (node x) eqn:E; try done. intros [= -> ->]. eauto.
  - by intros (x & -> & ->).
Qed.
Lemma file_not_directory f i x es l : Inside f -> inodes f !! i = Some x -> node x = DirectoryNode es l -> i ∉ K.
Proof. intros I E En H. destruct (inside_files f I i x H E) as [c Ec]. congruence. Qed.

(** New entries of a directory of the share. *)
Lemma Inside_above f m : Inside f -> Inside (f <| above := m |>).
Proof. intros [R D F C H]. constructor; [done|done|exact F|exact C|]. eapply J_spared; [|exact H]. by split. Qed.
Lemma Inside_entries f d es l es' :
  Inside f -> d ∉ O -> directory f d = inr (es, l) -> (forall n j, es' !! n = Some j -> j ∉ O) -> Inside (set_entries f d es').
Proof.
  intros I Hd (x & E & En)%directory_Some H. unfold set_entries. rewrite E. apply Inside_insert; [done|].
  split; [done|]. split; [intros HK; by destruct (file_not_directory f d x es l)|]. cbn. intros ? ? ? ? [= <- <-]. apply H.
Qed.
Lemma Inside_known_child f d es l n j : Inside f -> d ∉ O -> directory f d = inr (es, l) -> es !! n = Some j -> j ∉ O.
Proof. intros I Hd (x & E & En)%directory_Some H. by eapply inside_closed. Qed.
Lemma Inside_new f d n mode i :
  Inside f -> (forall es l m j, n = DirectoryNode es l -> es !! m = Some j -> j ∉ O) -> i = fresh (dom (inodes f)) ->
  Inside (f <| inodes := <[i := new_inode f d n mode]> (inodes f) |>) /\ i ∉ O /\ i ∉ K.
Proof.
  intros I Hn ->. pose proof (is_fresh (dom (inodes f))) as Fr. pose proof (inside_known f I) as Kn.
  assert (fresh (dom (inodes f)) ∉ O /\ fresh (dom (inodes f)) ∉ K) as [? ?] by set_solver.
  split; [|done]. apply Inside_insert; [done|]. by split.
Qed.
Lemma Inside_touch f i : Inside f -> i ∉ O -> Inside (touch f i).
Proof.
  intros I Hi. unfold touch. destruct (inodes f !! i) as [x|] eqn:E; [|done]. apply Inside_insert; [done|].
  split; [done|]. split; [by rewrite E|]. cbn. intros es l n j En. by eapply inside_closed.
Qed.
Lemma touch_node f i k : node <$> inodes (touch f i) !! k = node <$> inodes f !! k.
Proof.
  unfold touch. destruct (inodes f !! i) as [x|] eqn:E; [|done]. cbn.
  destruct (decide (i = k)) as [->|]; [by rewrite lookup_insert_eq, E|by rewrite lookup_insert_ne].
Qed.
Lemma directory_node f g d : node <$> inodes g !! d = node <$> inodes f !! d -> directory g d = directory f d.
Proof. unfold directory. destruct (inodes f !! d), (inodes g !! d); cbn; intros H; simplify_eq; [by rewrite H|done]. Qed.
Lemma Inside_unlink_directory f i x es l :
  Inside f -> i ∉ O -> inodes f !! i = Some x -> node x = DirectoryNode es l -> Inside (unlink_directory f i).
Proof.
  intros I Hi E En. unfold unlink_directory. rewrite E. apply Inside_insert; [done|]. split; [done|].
  split; [intros HK; by destruct (file_not_directory f i x es l)|]. cbn. by intros ? ? ? ? [= <- <-].
Qed.
(** A directory other than the one that was removed. *)
Lemma unlink_directory_other f i d es l : i <> d -> directory f d = inr (es, l) -> directory (unlink_directory f i) d = inr (es, l).
Proof.
  intros N H. unfold unlink_directory. destruct (inodes f !! i); [|done]. unfold directory. cbn. by rewrite lookup_insert_ne.
Qed.
Lemma unlink_directory_self f i es l : directory f i = inr (es, l) -> directory (unlink_directory f i) i = inr (∅, false).
Proof.
  intros (x & E & _)%directory_Some. apply directory_Some. unfold unlink_directory. rewrite E. cbn. rewrite lookup_insert_eq. eauto.
Qed.
Lemma directory_after_unlink f i d es l : directory f d = inr (es, l) -> exists es' l', directory (unlink_directory f i) d = inr (es', l').
Proof.
  intros H. destruct (decide (i = d)) as [->|N]; [eexists _, _; by eapply unlink_directory_self|eexists _, _; by apply unlink_directory_other].
Qed.
Lemma Inside_append f i data : Inside f -> i ∉ O -> i ∉ K -> Inside (append i data f).
Proof.
  intros I HO HK. unfold append. destruct (inodes f !! i) as [x|]; [|done]. destruct (node x); [|done..]. apply Inside_insert; [done|].
  split; [done|]. split; [done|]. done.
Qed.
Lemma Inside_fchmod f i mode f' : Inside f -> i ∉ O -> fchmod i mode f = inr (tt, f') -> Inside f'.
Proof.
  intros I HO. unfold fchmod. destruct (inodes f !! i) as [x|] eqn:E; [|done]. intros [= <-]. apply Inside_insert; [done|].
  split; [done|]. split; [by rewrite E|]. cbn. intros es l n j En. by eapply inside_closed.
Qed.

(** ** System calls

    A call leaves the share [Inside], and its value satisfies [Q]. *)
Definition stays {A} (c : Fs -> Errno + (A * Fs)) (Q : A -> Prop) : Prop :=
  forall f a f', Inside f -> c f = inr (a, f') -> Inside f' /\ Q a.
Lemma stays_pure {A} (r : Fs -> Errno + A) (Q : A -> Prop) :
  (forall f a, Inside f -> r f = inr a -> Q a) -> stays (pure_call r) Q.
Proof. intros H f a f' I. unfold pure_call. destruct (r f) eqn:E; [done|]. intros [= <- <-]. split; [done|by eapply H]. Qed.
Lemma stays_open_dot d : d ∉ O -> stays (open_dot d) (fun i => i ∉ O).
Proof. intros H. apply stays_pure. intros f a I. destruct (directory f d); [done|]. by intros [= <-]. Qed.
Lemma stays_open_directory d name : d ∉ O -> dot name = false -> stays (open_directory d name) (fun i => i ∉ O).
Proof.
  intros H Hn. apply stays_pure. intros f a I. destruct (child f d name) as [|[i x]] eqn:E; [done|].
  apply Inside_child in E as [? _]; [|done..]. destruct (node x); [done| |done..]. by intros [= <-].
Qed.
Lemma stays_create d name n mode :
  d ∉ O -> (forall es l m j, n = DirectoryNode es l -> es !! m = Some j -> j ∉ O) ->
  stays (create_entry d name n mode) (fun i => i ∉ O /\ i ∉ K).
Proof.
  intros Hd Hn f a f' I. unfold create_entry. destruct (directory f d) as [|[es l]] eqn:E; [done|]. destruct (dot name); [done|].
  destruct (es !! name) eqn:En; [done|]. destruct l; [|done]. intros [= <- <-].
  destruct (Inside_new f d n mode _ I Hn eq_refl) as (I' & N1 & N2). split; [|done].
  assert (d <> fresh (dom (inodes f))).
  { apply directory_Some in E as (x & E & _). pose proof (is_fresh (dom (inodes f))). apply elem_of_dom_2 in E. congruence. }
  eapply (Inside_entries _ d es true); [by apply Inside_above|done| |].
  - rewrite <- E. apply directory_node. cbn. by rewrite lookup_insert_ne.
  - intros m j [[<- <-]|[_ Hj]]%lookup_insert_Some; [done|]. by eapply (Inside_known_child f d es).
Qed.
Lemma stays_fchmod i mode : i ∉ O -> stays (fchmod i mode) (fun _ => True).
Proof. intros H f [] f' I E. split; [by eapply Inside_fchmod|done]. Qed.
Lemma stays_unlinkat d name : d ∉ O -> dot name = false -> stays (unlinkat d name) (fun _ => True).
Proof.
  intros Hd Hn f a f' I. unfold unlinkat. destruct (directory f d) as [|[es l]] eqn:E; [done|].
  destruct (child f d name) as [|[i x]] eqn:Ec; [done|]. apply Inside_child in Ec as [Hi Ei]; [|done..].
  assert (Inside (set_entries (touch f i) d (delete name es))).
  { eapply (Inside_entries _ d es l); [by apply Inside_touch|done|rewrite <- E; apply directory_node, touch_node|].
    intros n j [_ Hj]%lookup_delete_Some. by eapply (Inside_known_child f d es). }
  destruct (node x); intros [= <- <-]; by split.
Qed.
Lemma stays_rmdirat d name : d ∉ O -> stays (rmdirat d name) (fun _ => True).
Proof.
  intros Hd f a f' I. unfold rmdirat. destruct (dot name) eqn:Hn; [done|]. destruct (directory f d) as [|[es l]] eqn:E; [done|].
  destruct (child f d name) as [|[i x]] eqn:Ec; [done|]. apply Inside_child in Ec as [Hi Ei]; [|done..].
  destruct (node x) as [|below bl| |] eqn:Ex; [done| |done..]. case_bool_decide; [|done]. intros [= <- <-]. split; [|done].
  destruct (directory_after_unlink f i d es l E) as (es' & l' & E').
  eapply (Inside_entries _ d es' l'); [by eapply Inside_unlink_directory|done|done|].
  intros n j [_ Hj]%lookup_delete_Some. by eapply (Inside_known_child f d es).
Qed.
Lemma renamed_inside f d es l from to i : Inside f -> d ∉ O -> directory f d = inr (es, l) -> i ∉ O ->
  forall n j, <[to := i]> (delete from es) !! n = Some j -> j ∉ O.
Proof. intros I Hd E Hi n j [[<- <-]|[_ [_ Hj]%lookup_delete_Some]]%lookup_insert_Some; [done|]. by eapply (Inside_known_child f d es). Qed.
Lemma stays_renameat d from to : d ∉ O -> stays (renameat d from to) (fun _ => True).
Proof.
  intros Hd f a f' I. unfold renameat. destruct (dot from || dot to) eqn:Hn; [done|]. apply orb_false_iff in Hn as [Hn Hn']. destruct (directory f d) as [|[es l]] eqn:E; [done|].
  destruct (child f d from) as [|[i x]] eqn:Ec; [done|]. apply Inside_child in Ec as [Hi Ei]; [|done..].
  pose proof (renamed_inside f d es l from to i I Hd E Hi) as Hes.
  assert (Dt : forall k, directory (touch (touch f i) k) d = inr (es, l)).
  { intros k. rewrite <- E. apply directory_node. by rewrite !touch_node. }
  assert (Dt1 : directory (touch f i) d = inr (es, l)) by (rewrite <- E; apply directory_node, touch_node).
  assert (It := Inside_touch f i I Hi).
  destruct (child f d to) as [[]|[j y]] eqn:Et; try done; [intros [= <- <-]; split; [by eapply Inside_entries|done]|].
  apply Inside_child in Et as [Hj Ej]; [|done..]. destruct (i =? j); [intros [= <- <-]; by split|].
  assert (Inside (set_entries (touch (touch f i) j) d (<[to:=i]> (delete from es)))).
  { eapply Inside_entries; [by apply Inside_touch|done|apply Dt|done]. }
  destruct (node x); (destruct (node y) as [|below bl| |] eqn:Ey; try done); try (intros [= <- <-]; by split).
  case_bool_decide; [|done]. intros [= <- <-]. split; [|done].
  destruct (directory_after_unlink _ j d es l Dt1) as (es' & l' & E').
  assert (exists y', inodes (touch f i) !! j = Some y' /\ node y' = DirectoryNode below bl) as (y' & Ey1 & Ey2).
  { pose proof (touch_node f i j) as Tn. rewrite Ej in Tn. destruct (inodes (touch f i) !! j) as [y'|]; [|done].
    exists y'. split; [done|]. cbn in Tn. injection Tn as ->. done. }
  eapply (Inside_entries _ d es' l'); [by eapply Inside_unlink_directory|done|done|done].
Qed.

(** ** Programs *)
Definition safe {A} (m : op A) (Q : A -> Prop) : Prop :=
  hoare any_event Safe m (fun a h => Safe h /\ Q a) (fun _ => Safe) Safe.
Lemma safe_weaken {A} (m : op A) (Q R : A -> Prop) : safe m Q -> (forall a, Q a -> R a) -> safe m R.
Proof. intros H W. eapply hoare_weaken; [exact H|done|naive_solver|done|done]. Qed.
Lemma safe_ret {A} (a : A) (Q : A -> Prop) : Q a -> safe (ret a) Q.
Proof. intros H. by apply hoare_ret. Qed.
Lemma safe_raise {A} e (Q : A -> Prop) : safe (raise e) Q.
Proof. by apply hoare_raise. Qed.
Lemma safe_stop {A} (Q : A -> Prop) : safe stop Q.
Proof. intros w F H. by split. Qed.
Lemma safe_bind {A B} (m : op A) (k : A -> op B) Q R : safe m Q -> (forall a, Q a -> safe (k a) R) -> safe (andthen m k) R.
Proof.
  intros H1 H2. eapply hoare_bind; [exact H1|]. intros a. eapply hoare_pre; [apply hoare_pure; exact (H2 a)|]. by intros h [? ?].
Qed.
Lemma safe_outcome {A} (o : outcome ShareOverlayServiceError A) (Q : A -> Prop) : (forall a, o = Ok a -> Q a) -> safe (of_outcome o) Q.
Proof. intros H. apply hoare_outcome. intros h S. destruct o; auto. Qed.
Lemma safe_attempt {A} (m : op A) (Q : A -> Prop) : safe m Q -> safe (attempt m) (fun r => match r with inr a => Q a | inl _ => True end).
Proof. intros H. apply hoare_attempt. eapply hoare_weaken; [exact H|done|done|done|done]. Qed.
Lemma safe_turn : safe (put turn) (fun _ => True).
Proof.
  apply hoare_put. intros h [I R]. split; [|done]. unfold turn. destruct (others h) as [|g rest] eqn:E.
  - split; [done|by rewrite E].
  - apply Forall_cons in R as [R1 R2]. split; [by apply R1|done].
Qed.
Lemma safe_event : safe next_event (fun _ => True).
Proof. by apply hoare_event. Qed.
Lemma safe_put (g : Fs -> Fs) : (forall f, Inside f -> Inside (g f)) -> safe (put (fun h => h <| fs := g (fs h) |>)) (fun _ => True).
Proof. intros H. apply hoare_put. intros h [I R]. split; [|done]. split; [by apply H|done]. Qed.
Lemma safe_os {A} (c : Fs -> Errno + (A * Fs)) Q : stays c Q -> safe (os c) (fun r => match r with inr a => Q a | inl _ => True end).
Proof.
  intros H. eapply safe_bind; [apply safe_turn|]. intros _ _. eapply safe_bind; [apply safe_event|].
  intros [| |] _; [|by apply safe_ret|apply safe_stop].
  intros w F S. unfold andthen, get, put, ret. cbn. destruct (c (fs (disk w))) as [e|[a f']] eqn:E; cbn; [done|].
  split; [done|]. destruct S as [I R]. destruct (H _ _ _ I E) as [I' Hq]. exact (conj (conj I' R) Hq).
Qed.
Lemma safe_check {A} o (r : Errno + A) (Q : A -> Prop) : match r with inr a => Q a | inl _ => True end -> safe (check o r) Q.
Proof. destruct r; intros H; [apply safe_raise|by apply safe_ret]. Qed.
Lemma safe_must {A} o (c : Fs -> Errno + (A * Fs)) Q : stays c Q -> safe (must o c) Q.
Proof. intros H. eapply safe_bind; [by apply safe_os|]. intros r Hr. by apply safe_check. Qed.
Lemma safe_for_each {A} (f : A -> op unit) l : (forall a, a ∈ l -> safe (f a) (fun _ => True)) -> safe (for_each f l) (fun _ => True).
Proof.
  induction l as [|a l IH]; cbn [for_each]; intros H; [by apply safe_ret|]. eapply safe_bind; [apply H; left|]. intros _ _. apply IH. intros b Hb. apply H. by right.
Qed.

(** ** The operations of the service *)
Context (sha256 : bytes -> bytes) (new_v4 : nat -> bytes) (unified_diff : bytes -> bytes -> bytes) (umask : Z)
        (directory_size : gmap bytes Z -> Z) (max_reads max_depth : nat).
Definition any_value {A} (a : A) : Prop := True.
Lemma stays_any {A} (r : Fs -> Errno + A) : stays (pure_call r) any_value.
Proof. by apply stays_pure. Qed.
Lemma safe_any {A} (m : op A) Q : safe m Q -> safe m any_value.
Proof. intros H. by eapply safe_weaken. Qed.

(** Runs through a program whose calls are safe for any value they return. *)
Ltac safe_step :=
  match goal with
  | |- safe (ret _) _ => apply safe_ret; done
  | |- safe (raise _) _ => apply safe_raise
  | |- safe stop _ => apply safe_stop
  | |- safe (of_outcome _) _ => eapply safe_weaken; [by apply (safe_outcome _ any_value)|done]
  | |- safe (andthen _ _) _ => eapply (safe_bind _ _ any_value); [|intros ? _]
  | |- safe (os (pure_call _)) any_value => eapply safe_any, safe_os, stays_any
  | |- safe (must _ (pure_call _)) any_value => eapply safe_any, safe_must, stays_any
  | |- safe (check _ _) _ => apply safe_check
  end.
Ltac safe_cases := repeat (safe_step || match goal with |- safe (match ?x with _ => _ end) _ => destruct x end).

Lemma safe_path_matches d name m o : safe (current_path_matches directory_size d name m o) any_value.
Proof. unfold current_path_matches, statat. safe_cases. Qed.
Lemma safe_read_file fuel i hashed retained : safe (read_file fuel i hashed retained) any_value.
Proof.
  revert hashed retained. induction fuel as [|fuel IH]; intros hashed retained; cbn [read_file]; [apply safe_stop|].
  unfold read_at. safe_step; [safe_step|]. case_bool_decide; [safe_step|apply IH].
Qed.
Lemma safe_contents d name m k : safe (current_contents sha256 directory_size max_reads d name m k) any_value.
Proof.
  destruct k; cbn.
  - unfold current_file_contents, open_file, fstat. do 2 (safe_step; [safe_step|]). destruct (negb _); [safe_step|].
    safe_step; [apply safe_read_file|]. case_match. safe_step; [safe_step|].
    safe_step; [destruct (same_stat_fingerprint _ _); [apply safe_path_matches|safe_step]|]. safe_cases.
  - safe_step; [apply safe_path_matches|]. safe_cases.
  - unfold current_symlink_contents, readlinkat. safe_step; [safe_step|]. safe_step; [apply safe_path_matches|]. safe_cases.
Qed.
Lemma safe_directory d walked p : safe (current_directory d walked p) any_value.
Proof.
  revert d walked. induction p as [|n p IH]; intros d walked; cbn [current_directory]; [safe_step|]. unfold open_directory.
  safe_step; [safe_step|]. destruct a as [[]|]; (apply IH || safe_step).
Qed.
Lemma safe_entry r p : safe (current_entry sha256 directory_size max_reads r p) any_value.
Proof.
  unfold current_entry, current_parent, open_dot, statat. safe_step; [safe_step; [safe_step|]; case_match; safe_step; [safe_step|]; safe_step; [apply safe_directory|]; safe_cases|].
  case_match; [safe_step|]. case_match. safe_step; [safe_step|]. case_match; [safe_cases|]. case_match; [|safe_step..]. safe_step; [apply safe_contents|]. safe_cases.
Qed.
Lemma safe_duplicate r : r ∉ O -> safe (duplicate_root r) (fun i => i ∉ O).
Proof. intros H. by apply safe_must, stays_open_dot. Qed.
Lemma safe_conflicts r s : r ∉ O -> safe (conflicts sha256 unified_diff directory_size max_reads r s) any_value.
Proof.
  intros H. unfold conflicts. eapply safe_bind; [by apply safe_duplicate|]. intros i Hi. generalize (map joined (List.filter (proposes Directory) (changes s))).
  intros ds. induction (changes s) as [|c cs IH]; cbn [conflicts_loop]; [safe_step|].
  safe_step; [apply safe_entry|]. safe_step; [apply IH|]. safe_step.
Qed.
Lemma safe_review r s : r ∉ O -> safe (review_summaries sha256 unified_diff directory_size max_reads r s) any_value.
Proof.
  intros H. unfold review_summaries. eapply safe_bind; [by apply safe_duplicate|]. intros i Hi. generalize 0.
  induction (changes s) as [|c cs IH]; intros total; cbn [review_loop]; [safe_step|].
  safe_step; [|case_match; safe_step; [apply IH|safe_step]].
  unfold review_text_diff. cbv zeta. safe_cases. all: apply safe_entry.
Qed.
Lemma safe_open_directories d p : d ∉ O -> plain p -> safe (open_directories d p) (fun i => i ∉ O).
Proof.
  intros Hd Hp. revert d Hd. induction Hp as [|n p Hn Hp IH]; intros d Hd; cbn [open_directories]; [by apply safe_ret|].
  eapply safe_bind; [by apply safe_must, stays_open_directory|]. intros i Hi. by apply IH.
Qed.
Lemma safe_open_parent r p : r ∉ O -> plain p -> safe (open_parent r p) (fun x => x.1 ∉ O /\ dot x.2 = false).
Proof.
  intros H Hp. unfold open_parent. eapply (safe_bind _ _ (fun x => plain x.1 /\ dot x.2 = false)).
  { apply safe_outcome. intros x. unfold split_last. destruct (last p) as [n|] eqn:L; [|done]. intros [= <-]. apply last_Some in L as [q ->].
    apply Forall_app in Hp as [Hq Hn]. rewrite List.removelast_last. split; [done|]. by inversion Hn. }
  intros [parents name] [Hq Hn]. eapply safe_bind; [by apply safe_duplicate|]. intros top Ht. eapply safe_bind; [by apply safe_open_directories|]. intros d Hd. by apply safe_ret.
Qed.
Lemma safe_write_directory r c : r ∉ O -> plain (names c) -> safe (write_directory umask r c) any_value.
Proof.
  intros H Hp. unfold write_directory. safe_step; [safe_step|]. eapply safe_bind; [by apply safe_open_parent|]. intros [d name] [Hd Hn].
  safe_step; [safe_step|]. cbn [fst snd] in Hd, Hn. eapply (safe_bind _ _ any_value).
  { eapply safe_any, safe_os, stays_create; [done|]. by intros ? ? ? ? [= <- <-]. }
  intros made _. assert (T : safe (do i <- must "open approved host share directory" (open_directory d name);
                                  must "set approved host share directory mode" (fchmod i a0)) any_value).
  { eapply safe_bind; [by apply safe_must, stays_open_directory|]. intros i Hi. by eapply safe_any, safe_must, stays_fchmod. }
  destruct made as [[]|]; (exact T || apply safe_raise).
Qed.
Lemma safe_or_unlink d t m : d ∉ O -> dot t = false -> safe m any_value -> safe (or_unlink d t m) any_value.
Proof.
  intros Hd Ht H. eapply safe_bind; [by apply safe_attempt|]. intros [e|[]] _; [|by apply safe_ret].
  eapply (safe_bind _ _ any_value); [by eapply safe_any, safe_os, stays_unlinkat|]. intros _ _. apply safe_raise.
Qed.
Lemma safe_write_all i data : i ∉ O -> i ∉ K -> safe (write_all i data) any_value.
Proof.
  intros HO HK. unfold write_all. eapply safe_bind; [apply safe_turn|]. intros _ _. eapply safe_bind; [apply safe_event|].
  intros [|written ?|written] _; (eapply safe_bind; [apply (safe_put (append i _)); intros f I; by apply Inside_append|]);
    intros _ _; [by apply safe_ret|by apply safe_ret|apply safe_stop].
Qed.
Lemma safe_draw : safe (draw new_v4) any_value.
Proof. intros w F [I R]. split; [done|]. split; [exact (conj I R)|done]. Qed.
Lemma safe_fill_file d i t n c mode : d ∉ O -> i ∉ O -> i ∉ K -> safe (fill_file d i t n c mode) any_value.
Proof.
  intros Hd HO HK. unfold fill_file. safe_step; [by apply safe_write_all|]. eapply (safe_bind _ _ any_value); [by apply safe_check; case_match|]. intros _ _.
  eapply (safe_bind _ _ any_value); [by eapply safe_any, safe_must, stays_fchmod|]. intros _ _.
  eapply (safe_bind _ _ any_value); [apply safe_must; by intros f [] f' I' [= <-]|]. intros _ _.
  by eapply safe_any, safe_must, stays_renameat.
Qed.
Lemma safe_write_file r c e : r ∉ O -> plain (names c) -> safe (write_file new_v4 umask r c e) any_value.
Proof.
  intros H Hp. unfold write_file. safe_step; [safe_step|]. eapply safe_bind; [by apply safe_open_parent|]. intros [d name] [Hd Hn]. cbn [fst snd] in Hd, Hn.
  safe_step; [safe_step|]. safe_step; [apply safe_draw|]. cbv zeta.
  eapply safe_bind; [by apply safe_must, stays_create|]. intros i [HO HK]. apply safe_or_unlink; [done|apply dot_temporary|by apply safe_fill_file].
Qed.
Lemma safe_write_symlink r c e : r ∉ O -> plain (names c) -> safe (write_symlink new_v4 r c e) any_value.
Proof.
  intros H Hp. unfold write_symlink. safe_step; [safe_step|]. eapply safe_bind; [by apply safe_open_parent|]. intros [d name] [Hd Hn]. cbn [fst snd] in Hd, Hn.
  safe_step; [apply safe_draw|]. cbv zeta. eapply safe_bind; [by apply safe_must, stays_create|]. intros i _.
  apply safe_or_unlink; [done|apply dot_temporary|]. by eapply safe_any, safe_must, stays_renameat.
Qed.
Lemma safe_remove_contents depth d : d ∉ O -> safe (remove_directory_contents directory_size depth d) any_value.
Proof.
  revert d. induction depth as [|depth IH]; intros d Hd; cbn [remove_directory_contents]; [apply safe_stop|].
  unfold read_directory, statat. safe_step; [safe_step|]. apply safe_for_each. intros name _. fold (dot name). destruct (dot name) eqn:Hn; [by apply safe_ret|].
  do 2 (safe_step; [safe_step|]). case_bool_decide; [|by apply safe_must, stays_unlinkat].
  eapply safe_bind; [by apply safe_must, stays_open_directory|]. intros i Hi. safe_step; [by apply IH|]. by apply safe_must, stays_rmdirat.
Qed.
Lemma safe_remove_existing r p rec : r ∉ O -> plain p -> safe (remove_existing directory_size max_depth r p rec) any_value.
Proof.
  intros H Hp. unfold remove_existing, statat. eapply safe_bind; [by apply safe_open_parent|]. intros [d name] [Hd Hn]. cbn [fst snd] in Hd, Hn.
  safe_step; [safe_step|]. case_match; [safe_cases|]. safe_step; [safe_step|]. case_bool_decide; [|by apply safe_must, stays_unlinkat].
  safe_step; [|by apply safe_must, stays_rmdirat]. destruct rec; [|safe_step].
  eapply safe_bind; [by apply safe_must, stays_open_directory|]. intros i Hi. by apply safe_remove_contents.
Qed.
Lemma safe_apply r cs : r ∉ O -> Forall (fun c => plain (names c)) cs -> safe (apply_changes new_v4 umask directory_size max_depth r cs) any_value.
Proof.
  intros H Hcs. unfold apply_changes. eapply safe_bind; [by apply safe_duplicate|]. intros i Hi.
  assert (Hin : forall f c, c ∈ List.filter f cs -> plain (names c)).
  { intros f c Hc%list_elem_of_In. apply List.filter_In in Hc as [Hc _]. rewrite Forall_forall in Hcs. by apply Hcs, list_elem_of_In. }
  safe_step; [apply safe_for_each; intros c Hc; unfold removals in Hc; rewrite sort_by_perm in Hc; by eapply safe_remove_existing, Hin|].
  safe_step; [apply safe_for_each; intros c Hc; unfold directories in Hc; rewrite sort_by_perm in Hc; by eapply safe_write_directory, Hin|].
  apply safe_for_each. intros c Hc. rewrite Forall_forall in Hcs. specialize (Hcs c Hc). unfold write_entry. destruct (proposal c) as [e|]; [|by apply safe_ret].
  destruct (o_kind _); [by apply safe_write_file|by apply safe_ret|by apply safe_write_symlink].
Qed.
Lemma safe_validate_and_apply r s : r ∉ O -> Forall (fun c => plain (names c)) (changes s) ->
  safe (validate_and_apply sha256 new_v4 unified_diff umask directory_size max_reads max_depth r s) any_value.
Proof.
  intros H Hs. unfold validate_and_apply. safe_step; [by apply safe_conflicts|]. case_match; [|safe_step].
  safe_step; [by apply safe_apply|safe_step].
Qed.
End safe.
