(* ===== verification/OverlayTree.v ===== *)
(** * The shared directory as a tree

    The inodes below the root of a share, seen as a map from paths to entries.  A
    system call that changes one directory changes the map at one or two paths
    ([edit_look]); the map is all that the exactness of an application speaks of. *)

From S2P Require Import Prelude Lists ShareTypes Outage OverlayTypes OverlayHost.

Inductive TNode := TFile (mode : Z) (contents : bytes) | TDir (mode : Z) | TLink (target : bytes) | TSpecial.
Definition tnode (x : Inode) : TNode :=
  match node x with
  | RegularFile c => TFile (perm x) c
  | DirectoryNode _ _ => TDir (perm x)
  | SymbolicLink t => TLink t
  | Special => TSpecial
  end.

(** ** Walking *)
Definition step (f : Fs) (d : Z) (n : bytes) : option Z :=
  match directory f d with inr (es, _) => es !! n | inl _ => None end.
Fixpoint walk (f : Fs) (d : Z) (p : path) : option Z :=
  match p with [] => Some d | n :: p' => step f d n ≫= fun i => walk f i p' end.
Lemma walk_app f d p q : walk f d (p ++ q) = walk f d p ≫= fun i => walk f i q.
Proof. revert d. induction p as [|n p IH]; intros d; [done|]. cbn. destruct (step f d n); cbn; [apply IH|done]. Qed.
Lemma walk_snoc f d p n : walk f d (p ++ [n]) = walk f d p ≫= fun i => step f i n.
Proof. rewrite walk_app. destruct (walk f d p); cbn; [|done]. by destruct (step f z n). Qed.
Lemma walk_snoc_Some f d p n i : walk f d (p ++ [n]) = Some i <-> exists j, walk f d p = Some j /\ step f j n = Some i.
Proof. rewrite walk_snoc. apply bind_Some. Qed.
Lemma walk_prefix f d p q i : walk f d (p ++ q) = Some i -> exists j, walk f d p = Some j /\ walk f j q = Some i.
Proof. rewrite walk_app. by intros H%bind_Some. Qed.

(** The name and the rest of a path behind a proper prefix. *)
Fixpoint below (p q : path) : option (bytes * path) :=
  match p, q with
  | [], n :: q' => Some (n, q')
  | m :: p', n :: q' => if decide (m = n) then below p' q' else None
  | _, [] => None
  end.
Lemma below_Some p q n q' : below p q = Some (n, q') <-> q = p ++ n :: q'.
Proof.
  revert q. induction p as [|m p IH]; intros [|k q]; cbn; [naive_solver..|]. case_decide as E.
  - subst. rewrite IH. naive_solver.
  - split; [done|]. intros [= -> _]. done.
Qed.
Lemma below_snoc p q m n q' : below p q = Some (n, q') -> below p (q ++ [m]) = Some (n, q' ++ [m]).
Proof. intros ->%below_Some. apply below_Some. by rewrite <- (assoc_L (++)). Qed.
Lemma below_self p m : below p (p ++ [m]) = Some (m, []).
Proof. by apply below_Some. Qed.
Lemma below_irrefl p : below p p = None.
Proof. destruct (below p p) as [[n q']|] eqn:E; [|done]. apply below_Some in E. apply (f_equal length) in E. rewrite length_app in E. cbn in E. lia. Qed.
Lemma below_snoc_None p q m : below p q = None -> q <> p -> below p (q ++ [m]) = None.
Proof.
  intros H N. destruct (below p (q ++ [m])) as [[n q']|] eqn:E; [|done]. apply below_Some in E.
  destruct q' as [|k q'' _] using rev_ind; [by apply app_inj_tail in E as [-> _]|].
  rewrite app_comm_cons, (assoc_L (++)) in E. apply app_inj_tail in E as [-> _].
  rewrite (proj2 (below_Some p (p ++ n :: q'') n q'')) in H by done. done.
Qed.

Definition look (f : Fs) (root : Z) (p : path) : option TNode :=
  walk f root p ≫= fun i => tnode <$> inodes f !! i.

(** Directories have one name; everything has an inode; directories are not removed. *)
Record Shaped (f : Fs) (root : Z) : Prop := {
  shaped_root : exists es, directory f root = inr (es, true);
  shaped_known : forall p i, walk f root p = Some i -> is_Some (inodes f !! i);
  shaped_linked : forall p i es l, walk f root p = Some i -> directory f i = inr (es, l) -> l = true;
  shaped_unique : forall p q i es l, walk f root p = Some i -> walk f root q = Some i -> directory f i = inr (es, l) -> p = q
}.
Lemma directory_inr f d es l : directory f d = inr (es, l) <-> exists x, inodes f !! d = Some x /\ node x = DirectoryNode es l.
Proof.
  unfold directory. split.
  - destruct (inodes f !! d) as [x|]; [|done]. destruct (node x) eqn:E; try done. intros [= -> ->]. eauto.
  - by intros (x & -> & ->).
Qed.
Lemma step_directory f d n i : step f d n = Some i -> exists es l, directory f d = inr (es, l) /\ es !! n = Some i.
Proof. unfold step. destruct (directory f d) as [|[es l]]; [done|]. eauto. Qed.

(** ** Changing the entries of one directory *)
Section edit.
Context (f f' : Fs) (root : Z) (p : path) (d : Z) (es es' : gmap bytes Z).
(** A path that does not lead through a changed entry. *)
Definition unchanged (q : path) : Prop :=
  match below p q with Some (n, _) => es' !! n = es !! n | None => True end.
(** A new entry: no directory, or an empty one that has no other name. *)
Definition fresh_entry (n : bytes) (i : Z) : Prop :=
  is_Some (inodes f' !! i)
  /\ ((exists e, directory f' i = inl e)
      \/ (directory f' i = inr (∅, true) /\ (forall q, walk f root q <> Some i) /\ (forall m, es' !! m = Some i -> m = n))).
Record Edit : Prop := {
  edit_at : walk f root p = Some d;
  edit_old : directory f d = inr (es, true);
  edit_new : directory f' d = inr (es', true);
  edit_others : forall q i, walk f root q = Some i -> i <> d -> unchanged q -> directory f' i = directory f i;
  edit_nodes : forall q i, walk f root q = Some i -> unchanged q -> tnode <$> inodes f' !! i = tnode <$> inodes f !! i;
  edit_fresh : forall n i, es' !! n = Some i -> es' !! n <> es !! n -> fresh_entry n i
}.
Definition edited_walk (q : path) : option Z :=
  match below p q with
  | Some (n, q') => if decide (es' !! n = es !! n) then walk f root q
                    else match es' !! n with Some i => if decide (q' = []) then Some i else None | None => None end
  | None => walk f root q
  end.
Context (Sh : Shaped f root) (Ed : Edit).
Lemma edit_only q : walk f root q = Some d -> q = p.
Proof. intros W. eapply (shaped_unique _ _ Sh); [exact W|apply Ed|apply (edit_old Ed)]. Qed.
Lemma unchanged_self : unchanged p.
Proof. unfold unchanged. by rewrite below_irrefl. Qed.
Lemma fresh_leaf n i m : fresh_entry n i -> step f' i m = None.
Proof. intros [_ [[e E]|[E _]]]; unfold step; by rewrite E. Qed.
Lemma edit_walk q : walk f' root q = edited_walk q.
Proof.
  unfold edited_walk. induction q as [|m q IH] using rev_ind; [by destruct p|]. rewrite walk_snoc, IH. clear IH.
  assert (Same : forall q0 e, walk f root q0 = Some e -> q0 <> p -> unchanged q0 -> step f' e m = step f e m).
  { intros q0 e W N U. unfold step. rewrite (edit_others Ed q0); [done|done|intros ->; by apply N, edit_only|done]. }
  destruct (below p q) as [[n q']|] eqn:B.
  - rewrite (below_snoc _ _ m _ _ B). assert (q <> p) by (intros ->; by rewrite below_irrefl in B).
    case_decide as C.
    + rewrite walk_snoc. destruct (walk f root q) as [e|] eqn:W; [|done]. cbn. apply (Same q); [done|done|]. unfold unchanged. by rewrite B.
    + destruct (es' !! n) as [i|] eqn:Ei; [|done]. rewrite (decide_False (P := q' ++ [m] = [])) by (by destruct q').
      case_decide; [|done]. cbn. eapply fresh_leaf, (edit_fresh Ed); by rewrite Ei.
  - destruct (decide (q = p)) as [->|N].
    + rewrite below_self, (edit_at Ed). cbn. unfold step at 1. rewrite (edit_new Ed).
      assert (W : walk f root (p ++ [m]) = es !! m) by (rewrite walk_snoc, (edit_at Ed); cbn; unfold step; by rewrite (edit_old Ed)).
      rewrite W. case_decide as C; [done|]. by destruct (es' !! m).
    + rewrite (below_snoc_None _ _ m B N), walk_snoc. destruct (walk f root q) as [e|] eqn:W; [|done]. cbn.
      apply (Same q); [done|done|]. unfold unchanged. by rewrite B.
Qed.
(** What a walk after the change finds. *)
Lemma edit_walk_cases q i : walk f' root q = Some i ->
  (walk f root q = Some i /\ unchanged q)
  \/ exists n, q = p ++ [n] /\ es' !! n = Some i /\ es' !! n <> es !! n.
Proof.
  rewrite edit_walk. unfold edited_walk, unchanged. destruct (below p q) as [[n q']|] eqn:B; [|by left].
  case_decide as C; [by left|]. destruct (es' !! n) as [j|] eqn:Ej; [|done]. case_decide; [|done]. intros [= ->]. right.
  apply below_Some in B as ->. exists n. subst. by rewrite Ej.
Qed.
Lemma edit_directory q i es0 l : walk f root q = Some i -> unchanged q -> directory f' i = inr (es0, l) -> exists es1, directory f i = inr (es1, l).
Proof.
  intros W U. destruct (decide (i = d)) as [->|N].
  - rewrite (edit_new Ed). intros [= <- <-]. exists es. apply (edit_old Ed).
  - rewrite (edit_others Ed q) by done. eauto.
Qed.
Lemma edit_shaped : Shaped f' root.
Proof.
  assert (Fr : forall n i es0 l, es' !! n = Some i -> es' !! n <> es !! n -> directory f' i = inr (es0, l) ->
               l = true /\ (forall q, walk f root q <> Some i) /\ (forall m, es' !! m = Some i -> m = n)).
  { intros n i es0 l E1 E2 E3. destruct (edit_fresh Ed n i E1 E2) as [_ [[e E]|(E & ? & ?)]]; [congruence|].
    rewrite E in E3. injection E3 as <- <-. done. }
  constructor.
  - destruct (shaped_root _ _ Sh) as [es0 E0]. destruct (decide (root = d)) as [->|N]; [exists es'; apply (edit_new Ed)|].
    exists es0. rewrite (edit_others Ed []); [done|done|done|]. unfold unchanged. by destruct p.
  - intros q i [[W U]|(n & -> & E1 & E2)]%edit_walk_cases.
    + pose proof (edit_nodes Ed q i W U) as H. destruct (shaped_known _ _ Sh q i W) as [x Ex]. rewrite Ex in H.
      destruct (inodes f' !! i); [done|]. done.
    + apply (edit_fresh Ed n i E1 E2).
  - intros q i es0 l [[W U]|(n & -> & E1 & E2)]%edit_walk_cases H; [|by destruct (Fr n i es0 l E1 E2 H)].
    destruct (edit_directory q i es0 l W U H) as [es1 H1]. by eapply (shaped_linked _ _ Sh).
  - intros q1 q2 i es0 l [[W1 U1]|(n1 & -> & A1 & A2)]%edit_walk_cases [[W2 U2]|(n2 & -> & B1 & B2)]%edit_walk_cases H.
    + destruct (edit_directory q1 i es0 l W1 U1 H) as [es1 H1]. by eapply (shaped_unique _ _ Sh).
    + by destruct (Fr n2 i es0 l B1 B2 H) as (_ & ?%(fun g => g q1) & _).
    + by destruct (Fr n1 i es0 l A1 A2 H) as (_ & ?%(fun g => g q2) & _).
    + destruct (Fr n1 i es0 l A1 A2 H) as (_ & _ & Hm). by rewrite (Hm n2 B1).
Qed.
Definition edited_look (q : path) : option TNode :=
  match below p q with
  | Some (n, q') => if decide (es' !! n = es !! n) then look f root q
                    else match es' !! n with Some i => if decide (q' = []) then tnode <$> inodes f' !! i else None | None => None end
  | None => look f root q
  end.
Lemma edit_look q : look f' root q = edited_look q.
Proof.
  unfold look at 1. rewrite edit_walk. unfold edited_walk, edited_look.
  assert (Same : unchanged q -> (walk f root q ≫= fun i => tnode <$> inodes f' !! i) = look f root q).
  { intros U. unfold look. destruct (walk f root q) as [i|] eqn:W; [|done]. cbn. by apply (edit_nodes Ed q). }
  unfold unchanged in Same. destruct (below p q) as [[n q']|] eqn:B; [|by apply Same].
  case_decide as C; [by apply Same|]. destruct (es' !! n) as [i|]; [|done]. by case_decide.
Qed.
End edit.

(** ** System calls on trees *)
Definition upd {A} (T : path -> A) (q : path) (v : A) : path -> A := fun x => if decide (x = q) then v else T x.
Lemma upd_eq {A} (T : path -> A) q v : upd T q v q = v.
Proof. unfold upd. by rewrite decide_True. Qed.
Lemma upd_ne {A} (T : path -> A) q v x : x <> q -> upd T q v x = T x.
Proof. intros. unfold upd. by rewrite decide_False. Qed.

(** An inode that nothing can be reached from. *)
Definition barren (f : Fs) (i : Z) : Prop := forall n, step f i n = None.
Lemma barren_walk f root q i n q' : walk f root q = Some i -> barren f i -> walk f root (q ++ n :: q') = None.
Proof. intros W B. rewrite walk_app, W. cbn. by rewrite B. Qed.
Lemma barren_look f root q i n q' : walk f root q = Some i -> barren f i -> look f root (q ++ n :: q') = None.
Proof. intros W B. unfold look. by rewrite (barren_walk f root q i). Qed.
Lemma absent_look f root q n q' : walk f root q = None -> look f root (q ++ n :: q') = None.
Proof. intros W. unfold look. by rewrite walk_app, W. Qed.
Lemma walk_entry f root p d es l n : walk f root p = Some d -> directory f d = inr (es, l) -> walk f root (p ++ [n]) = es !! n.
Proof. intros W D. rewrite walk_snoc, W. cbn. unfold step. by rewrite D. Qed.
Lemma snoc_cons (p : path) n q : p ++ n :: q = (p ++ [n]) ++ q.
Proof. by rewrite <- (assoc_L (++)). Qed.

Section calls.
Context (f : Fs) (root : Z) (p : path) (d : Z) (es : gmap bytes Z).
Context (Sh : Shaped f root) (W : walk f root p = Some d) (D : directory f d = inr (es, true)).

Lemma set_entries_at g es' : directory g d = inr (es, true) -> directory (set_entries g d es') d = inr (es', true).
Proof. intros (x & E & _)%directory_inr. apply directory_inr. unfold set_entries. rewrite E. cbn. rewrite lookup_insert_eq. eauto. Qed.
Lemma set_entries_ne g es' i : i <> d -> inodes (set_entries g d es') !! i = inodes g !! i.
Proof. intros N. unfold set_entries. destruct (inodes g !! d); [|done]. cbn. by rewrite lookup_insert_ne. Qed.
Lemma directory_inodes g g' i : inodes g' !! i = inodes g !! i -> directory g' i = directory g i.
Proof. unfold directory. by intros ->. Qed.
Lemma set_entries_tnode g es' i : directory g d = inr (es, true) -> tnode <$> inodes (set_entries g d es') !! i = tnode <$> inodes g !! i.
Proof.
  intros (x & E & En)%directory_inr. destruct (decide (i = d)) as [->|N]; [|by rewrite set_entries_ne].
  unfold set_entries. rewrite E. cbn. rewrite lookup_insert_eq. cbn. unfold tnode. cbn. by rewrite En.
Qed.
Lemma set_entries_edit g es' :
  (forall q i, walk f root q = Some i -> unchanged p es es' q -> directory g i = directory f i /\ tnode <$> inodes g !! i = tnode <$> inodes f !! i) ->
  (forall n i, es' !! n = Some i -> es' !! n <> es !! n -> fresh_entry f (set_entries g d es') root es' n i) ->
  Edit f (set_entries g d es') root p d es es'.
Proof.
  intros H Fr. assert (Dg : directory g d = inr (es, true)).
  { destruct (H p d W) as [-> _]; [apply unchanged_self|done]. }
  constructor; [done|done|by apply set_entries_at| | |done].
  - intros q i Wq N U. rewrite (directory_inodes g) by (by apply set_entries_ne). by apply (H q).
  - intros q i Wq U. rewrite set_entries_tnode by done. by apply (H q).
Qed.

(** A change of names below which there is nothing. *)
Definition pointwise (f' : Fs) (es' : gmap bytes Z) (q : path) : option TNode :=
  match below p q with
  | Some (n, []) => if decide (es' !! n = es !! n) then look f root q else es' !! n ≫= fun i => tnode <$> inodes f' !! i
  | _ => look f root q
  end.
Lemma edit_points f' es' q : Edit f f' root p d es es' ->
  (forall n i, es' !! n <> es !! n -> es !! n = Some i -> barren f i) -> look f' root q = pointwise f' es' q.
Proof.
  intros Ed B. rewrite (edit_look f f' root p d es es' Sh Ed q). unfold edited_look, pointwise.
  destruct (below p q) as [[n q']|] eqn:Bq; [|done]. case_decide as C; [by destruct q'|].
  destruct q' as [|k q']; [by destruct (es' !! n)|].
  apply below_Some in Bq as ->. assert (N : look f root (p ++ n :: k :: q') = None).
  { rewrite snoc_cons. pose proof (walk_entry f root p d es true n W D) as Wn. destruct (es !! n) as [i|] eqn:Ei.
    - eapply barren_look; [exact Wn|]. apply (B n); [by rewrite Ei|done].
    - by apply absent_look. }
  rewrite N. destruct (es' !! n); [by rewrite decide_False|done].
Qed.
Lemma pointwise_upd f' es' n q : (forall m, m <> n -> es' !! m = es !! m) ->
  (es' !! n = es !! n -> look f root (p ++ [n]) = es' !! n ≫= fun i => tnode <$> inodes f' !! i) ->
  pointwise f' es' q = upd (look f root) (p ++ [n]) (es' !! n ≫= fun i => tnode <$> inodes f' !! i) q.
Proof.
  intros H1 H2. unfold pointwise. destruct (below p q) as [[m [|k q']]|] eqn:B.
  - apply below_Some in B as ->. destruct (decide (m = n)) as [->|N].
    + rewrite upd_eq. case_decide; [by apply H2|done].
    + rewrite decide_True by (by apply H1). rewrite upd_ne; [done|]. intros X%app_inv_head. congruence.
  - apply below_Some in B as ->. rewrite upd_ne; [done|]. intros X%app_inv_head. congruence.
  - rewrite upd_ne; [done|]. intros ->. by rewrite below_self in B.
Qed.
(** The same of walks. *)
Lemma edit_walks f' es' n q : Edit f f' root p d es es' -> (forall m, m <> n -> es' !! m = es !! m) ->
  (forall i, es' !! n <> es !! n -> es !! n = Some i -> barren f i) -> walk f' root q = upd (walk f root) (p ++ [n]) (es' !! n) q.
Proof.
  intros Ed H1 B. rewrite (edit_walk f f' root p d es es' Sh Ed q). unfold edited_walk.
  pose proof (walk_entry f root p d es true n W D) as Wn. destruct (below p q) as [[m q']|] eqn:Bq.
  - apply below_Some in Bq as ->. destruct (decide (m = n)) as [->|N].
    + destruct q' as [|k q'].
      * rewrite upd_eq. case_decide; [congruence|]. destruct (es' !! n); [by rewrite decide_True|done].
      * rewrite upd_ne by (intros X%app_inv_head; congruence). case_decide as C; [done|]. rewrite snoc_cons. symmetry.
        transitivity (@None Z); [|by destruct (es' !! n)]. destruct (es !! n) as [i|] eqn:Ei; [|by rewrite walk_app, Wn].
        eapply barren_walk; [exact Wn|]. by apply B.
    + rewrite decide_True by (by apply H1). rewrite upd_ne; [done|]. intros X%app_inv_head. congruence.
  - rewrite upd_ne; [done|]. intros ->. by rewrite below_self in Bq.
Qed.

(** [mkdirat], [openat] with [O_EXCL], [symlinkat]. *)
Definition leaf_node (n : Node) : Prop := match n with DirectoryNode es0 l => es0 = ∅ /\ l = true | _ => True end.
Lemma create_tree n nd mode i f' : leaf_node nd -> create_entry d n nd mode f = inr (i, f') ->
  Shaped f' root /\ walk f' root p = Some d /\ walk f' root (p ++ [n]) = Some i
  /\ (forall q, walk f' root q = Some i -> q = p ++ [n])
  /\ (exists x, inodes f' !! i = Some x /\ node x = nd /\ perm x = mode)
  /\ walk f root (p ++ [n]) = None
  /\ forall q, look f' root q = upd (look f root) (p ++ [n]) (tnode <$> inodes f' !! i) q.
Proof.
  intros L. unfold create_entry. rewrite D. destruct (dot n); [done|]. destruct (es !! n) eqn:En; [done|]. intros [= <- <-].
  set (i := fresh (dom (inodes f))). set (g := f <| inodes := <[i := new_inode f d nd mode]> (inodes f) |> <| above := <[i := d]> (above f) |>).
  assert (Fi : inodes f !! i = None) by (apply not_elem_of_dom, is_fresh).
  assert (Nw : forall q, walk f root q <> Some i).
  { intros q Wq. destruct (shaped_known _ _ Sh q i Wq) as [x Ex]. congruence. }
  assert (Nd : d <> i) by (intros X; apply (Nw p); by rewrite W, X).
  assert (Gi : inodes (set_entries g d (<[n := i]> es)) !! i = Some (new_inode f d nd mode)).
  { rewrite set_entries_ne by done. cbn. by rewrite lookup_insert_eq. }
  assert (Ed : Edit f (set_entries g d (<[n := i]> es)) root p d es (<[n := i]> es)).
  { apply set_entries_edit.
    - intros q j Wq _. assert (j <> i) by (intros ->; by apply (Nw q)).
      assert (X : inodes g !! j = inodes f !! j) by (cbn; by rewrite lookup_insert_ne). split; [by apply directory_inodes|by rewrite X].
    - intros m j [[<- <-]|[N Hj]]%lookup_insert_Some C; [|by rewrite lookup_insert_ne in C].
      split; [by rewrite Gi|]. unfold directory. rewrite Gi. cbn. destruct nd as [|es0 l| |]; [left; eauto| |left; eauto..].
      destruct L as [-> ->]. right. split_and!; [done|done|]. intros m [[? _]|[? Hm]]%lookup_insert_Some; [done|].
      exfalso. apply (Nw (p ++ [m])). by rewrite (walk_entry f root p d es true). }
  assert (Wn : walk f root (p ++ [n]) = None) by (by rewrite (walk_entry f root p d es true)).
  assert (Walk := edit_walk f _ root p d es _ Sh Ed).
  split_and!.
  - by eapply edit_shaped.
  - rewrite Walk. unfold edited_walk. by rewrite below_irrefl.
  - rewrite Walk. unfold edited_walk. rewrite below_self, lookup_insert_eq, En, !decide_False by done. by rewrite decide_True.
  - intros q Hq. destruct (edit_walk_cases f _ root p d es _ Sh Ed q i Hq) as [[Wq _]|(m & -> & Hm & _)]; [by destruct (Nw q)|].
    apply lookup_insert_Some in Hm as [[<- _]|[_ Hm]]; [done|]. exfalso. apply (Nw (p ++ [m])). by rewrite (walk_entry f root p d es true).
  - exists (new_inode f d nd mode). by rewrite Gi.
  - done.
  - intros q. rewrite (edit_points _ _ q Ed).
    + rewrite (pointwise_upd _ _ n); [by rewrite lookup_insert_eq|by intros; rewrite lookup_insert_ne|]. rewrite lookup_insert_eq, En. done.
    + intros m j C Hj. destruct (decide (m = n)) as [->|N]; [congruence|]. by rewrite lookup_insert_ne in C.
Qed.

(** [unlinkat]: an entry below which there is nothing goes. *)
Lemma delete_tree g n i : es !! n = Some i -> barren f i ->
  (forall q j, walk f root q = Some j -> q <> p ++ [n] -> directory g j = directory f j /\ tnode <$> inodes g !! j = tnode <$> inodes f !! j) ->
  Shaped (set_entries g d (delete n es)) root
  /\ (forall q, walk (set_entries g d (delete n es)) root q = upd (walk f root) (p ++ [n]) None q)
  /\ forall q, look (set_entries g d (delete n es)) root q = upd (look f root) (p ++ [n]) None q.
Proof.
  intros En B H. pose proof (walk_entry f root p d es true n W D) as Wn.
  assert (Ed : Edit f (set_entries g d (delete n es)) root p d es (delete n es)).
  { apply set_entries_edit.
    - intros q j Wq U. apply (H q j Wq). intros ->. unfold unchanged in U. rewrite below_self, lookup_delete_eq, En in U. done.
    - intros m j [N Hj]%lookup_delete_Some C. by rewrite lookup_delete_ne in C. }
  assert (Ne : forall m, m <> n -> delete n es !! m = es !! m) by (intros; by rewrite lookup_delete_ne).
  split_and!.
  - by eapply edit_shaped.
  - intros q. rewrite (edit_walks _ _ n q Ed Ne); [by rewrite lookup_delete_eq|congruence].
  - intros q. rewrite (edit_points _ _ q Ed).
    + rewrite (pointwise_upd _ _ n); [by rewrite lookup_delete_eq|done|]. by rewrite lookup_delete_eq, En.
    + intros m j C Hj. destruct (decide (m = n)) as [->|N]; [congruence|]. by rewrite lookup_delete_ne in C.
Qed.
Lemma entry_plain (g : Fs) (k : Z) (m : gmap bytes Z) (n : bytes) : dot n = false -> entry_named g k m n = m !! n.
Proof. intros [D1%bool_decide_eq_false D2%bool_decide_eq_false]%orb_false_iff. unfold entry_named. by rewrite !bool_decide_false. Qed.
Lemma child_inr n i x : dot n = false -> child f d n = inr (i, x) <-> es !! n = Some i /\ inodes f !! i = Some x.
Proof.
  intros Hn. unfold child. rewrite D, entry_plain by done. split.
  - destruct (es !! n) as [j|]; [|done]. destruct (inodes f !! j) eqn:E; [|done]. intros [= -> ->]. done.
  - by intros [-> ->].
Qed.
Lemma touch_inode i j : tnode <$> inodes (touch f i) !! j = tnode <$> inodes f !! j /\ directory (touch f i) j = directory f j.
Proof.
  unfold touch. destruct (inodes f !! i) as [x|] eqn:E; [|done]. unfold directory. cbn.
  destruct (decide (i = j)) as [->|]; [by rewrite lookup_insert_eq, E|by rewrite lookup_insert_ne].
Qed.
Lemma barren_leaf i x : inodes f !! i = Some x -> (forall es0 l, node x <> DirectoryNode es0 l) -> barren f i.
Proof. intros E N m. unfold step, directory. rewrite E. by destruct (node x) eqn:?; [|destruct (N entries linked)|..]. Qed.
Lemma unlinkat_tree n f' : dot n = false -> unlinkat d n f = inr (tt, f') ->
  Shaped f' root /\ (forall q, walk f' root q = upd (walk f root) (p ++ [n]) None q)
  /\ forall q, look f' root q = upd (look f root) (p ++ [n]) None q.
Proof.
  intros Hn. unfold unlinkat. rewrite D. destruct (child f d n) as [|[i x]] eqn:Ec; [done|]. apply child_inr in Ec as [En Ex]; [|done].
  assert (X : (forall es0 l, node x <> DirectoryNode es0 l) -> inr (tt, set_entries (touch f i) d (delete n es)) = @inr Errno _ (tt, f') ->
     Shaped f' root /\ (forall q, walk f' root q = upd (walk f root) (p ++ [n]) None q) /\ forall q, look f' root q = upd (look f root) (p ++ [n]) None q).
  { intros N [= <-]. apply (delete_tree _ n i En); [by eapply barren_leaf|]. intros q j _ _. split; apply touch_inode. }
  by destruct (node x); try done; apply X.
Qed.
Lemma rmdirat_tree n f' : rmdirat d n f = inr (tt, f') ->
  Shaped f' root /\ (forall q, walk f' root q = upd (walk f root) (p ++ [n]) None q)
  /\ forall q, look f' root q = upd (look f root) (p ++ [n]) None q.
Proof.
  unfold rmdirat. destruct (dot n) eqn:Hn; [done|]. rewrite D. destruct (child f d n) as [|[i x]] eqn:Ec; [done|]. apply child_inr in Ec as [En Ex]; [|done].
  destruct (node x) as [|below bl| |] eqn:Ex'; [done| |done..]. case_bool_decide as Hb; [|done]. subst. intros [= <-].
  assert (Di : directory f i = inr (∅, bl)) by (apply directory_inr; eauto).
  apply (delete_tree _ n i En).
  - intros m. unfold step. by rewrite Di.
  - intros q j Wq N. assert (j <> i).
    { intros ->. apply N. eapply (shaped_unique _ _ Sh); [exact Wq| |exact Di]. by rewrite (walk_entry f root p d es true). }
    assert (X : inodes (unlink_directory f i) !! j = inodes f !! j).
    { unfold unlink_directory. rewrite Ex. cbn. by rewrite lookup_insert_ne. }
    split; [by apply directory_inodes|by rewrite X].
Qed.

(** [renameat] of a file or link that has one name.  [g] is [f] with new times. *)
Section renaming.
Context (t n : bytes) (i : Z) (x : Inode) (g : Fs).
Context (Et : es !! t = Some i) (Ex : inodes f !! i = Some x) (Nx : forall es0 l, node x <> DirectoryNode es0 l).
Definition renamed : gmap bytes Z := <[n := i]> (delete t es).
Context (Tn : t <> n) (Bn : forall j, es !! n = Some j -> barren f j)
        (Gs : forall j, directory g j = directory f j /\ tnode <$> inodes g !! j = tnode <$> inodes f !! j).
Lemma renamed_other m : m <> n -> m <> t -> renamed !! m = es !! m.
Proof. intros. unfold renamed. by rewrite lookup_insert_ne, lookup_delete_ne. Qed.
Lemma renamed_to : renamed !! n = Some i.
Proof. unfold renamed. by rewrite lookup_insert_eq. Qed.
Lemma renamed_from : renamed !! t = None.
Proof. unfold renamed. by rewrite lookup_insert_ne, lookup_delete_eq. Qed.
Lemma moved_node : tnode <$> inodes (set_entries g d renamed) !! i = Some (tnode x).
Proof.
  assert (Nd : i <> d) by (intros ->; apply directory_inr in D as (y & Ey & Eny); simplify_eq; by eapply Nx).
  rewrite set_entries_ne by done. destruct (Gs i) as [_ ->]. by rewrite Ex.
Qed.
Lemma rename_edit : Edit f (set_entries g d renamed) root p d es renamed.
Proof.
  assert (Nd : i <> d) by (intros ->; apply directory_inr in D as (y & Ey & Eny); simplify_eq; by eapply Nx).
  apply set_entries_edit; [intros q j _ _; apply Gs|]. intros m j Hm C. destruct (decide (m = n)) as [->|N].
  - rewrite renamed_to in Hm. injection Hm as <-. split; [pose proof moved_node as M; by destruct (inodes (set_entries g d renamed) !! i)|]. left.
    rewrite (directory_inodes g) by (by apply set_entries_ne). destruct (Gs i) as [-> _]. unfold directory. rewrite Ex.
    destruct (node x) eqn:E; [eauto| |eauto..]. by destruct (Nx entries linked).
  - destruct (decide (m = t)) as [->|N2]; [by rewrite renamed_from in Hm|]. by rewrite renamed_other in C.
Qed.
Lemma renamed_barren m j : renamed !! m <> es !! m -> es !! m = Some j -> barren f j.
Proof.
  intros C Hj. destruct (decide (m = n)) as [->|N]; [by apply Bn|]. destruct (decide (m = t)) as [->|N2].
  - rewrite Et in Hj. injection Hj as <-. by eapply barren_leaf.
  - by rewrite renamed_other in C.
Qed.
(** Both names of a pointwise property of the directory. *)
Lemma renamed_points {A} (F G : path -> option A) (v : Z -> option A) :
  (forall q, F q = match below p q with
     | Some (m, []) => if decide (renamed !! m = es !! m) then G q else renamed !! m ≫= v | _ => G q end) ->
  (es !! n = Some i -> G (p ++ [n]) = v i) -> forall q, F q = upd (upd G (p ++ [t]) None) (p ++ [n]) (v i) q.
Proof.
  intros HF Hn q. rewrite HF. destruct (below p q) as [[m [|k q']]|] eqn:Bq.
  - apply below_Some in Bq as ->. destruct (decide (m = n)) as [->|N].
    + rewrite upd_eq, renamed_to. case_decide as C; [|done]. by apply Hn.
    + rewrite (upd_ne _ (p ++ [n])) by (intros Y%app_inv_head; congruence). destruct (decide (m = t)) as [->|N2].
      * by rewrite upd_eq, renamed_from, Et.
      * rewrite renamed_other, decide_True by done. rewrite upd_ne; [done|]. intros Y%app_inv_head. congruence.
  - apply below_Some in Bq as ->. rewrite !upd_ne; [done|intros Y%app_inv_head; congruence..].
  - rewrite !upd_ne; [done|intros ->; by rewrite below_self in Bq..].
Qed.
Lemma rename_tree :
  Shaped (set_entries g d renamed) root
  /\ (forall q, walk (set_entries g d renamed) root q = upd (upd (walk f root) (p ++ [t]) None) (p ++ [n]) (Some i) q)
  /\ forall q, look (set_entries g d renamed) root q = upd (upd (look f root) (p ++ [t]) None) (p ++ [n]) (Some (tnode x)) q.
Proof.
  pose proof rename_edit as Ed. split; [by eapply edit_shaped|]. split.
  - apply (renamed_points _ _ Some).
    + intros q. rewrite (edit_walk f _ root p d es _ Sh Ed q). unfold edited_walk. destruct (below p q) as [[m q']|] eqn:Bq; [|done].
      apply below_Some in Bq as ->. case_decide as C; [by destruct q'|]. destruct q' as [|k q']; [destruct (renamed !! m); [by rewrite decide_True|done]|].
      transitivity (@None Z); [destruct (renamed !! m); [by rewrite decide_False|done]|]. symmetry. rewrite snoc_cons.
      pose proof (walk_entry f root p d es true m W D) as Wm. destruct (es !! m) as [j|] eqn:Ej; [|by rewrite walk_app, Wm].
      eapply barren_walk; [exact Wm|]. apply (renamed_barren m); [by rewrite Ej|done].
    + intros En. by rewrite (walk_entry f root p d es true).
  - rewrite <- moved_node. apply (renamed_points _ _ (fun j => tnode <$> inodes (set_entries g d renamed) !! j)).
    + intros q. apply (edit_points _ _ q Ed renamed_barren).
    + intros En. rewrite moved_node. unfold look. rewrite (walk_entry f root p d es true), En by done. cbn. by rewrite Ex.
Qed.
End renaming.
Lemma touch_twice i j k :
  directory (touch (touch f i) j) k = directory f k /\ tnode <$> inodes (touch (touch f i) j) !! k = tnode <$> inodes f !! k.
Proof.
  destruct (touch_inode i j) as [N1 D1], (touch_inode i k) as [N2 D2]. unfold touch at 1 3.
  destruct (inodes (touch f i) !! j) as [z|] eqn:Ez; [|done]. unfold directory in *. cbn. destruct (decide (j = k)) as [->|].
  - rewrite lookup_insert_eq. rewrite Ez in *. by split.
  - by rewrite lookup_insert_ne.
Qed.
Lemma renameat_tree t n i x f' : es !! t = Some i -> inodes f !! i = Some x -> (forall es0 l, node x <> DirectoryNode es0 l) ->
  (forall q, walk f root q = Some i -> q = p ++ [t]) -> renameat d t n f = inr (tt, f') ->
  Shaped f' root /\ (forall q, walk f' root q = upd (upd (walk f root) (p ++ [t]) None) (p ++ [n]) (Some i) q)
  /\ forall q, look f' root q = upd (upd (look f root) (p ++ [t]) None) (p ++ [n]) (Some (tnode x)) q.
Proof.
  intros Et Ex Nx Only. pose proof (walk_entry f root p d es true t W D) as Wt. rewrite Et in Wt.
  unfold renameat. destruct (dot t || dot n) eqn:Dt; [done|]. apply orb_false_iff in Dt as [Dt Dn]. rewrite D, (proj2 (child_inr t i x Dt) (conj Et Ex)). destruct (child f d n) as [e|[j y]] eqn:Ec.
  - assert (t <> n) by (intros ->; by rewrite (proj2 (child_inr n i x Dn) (conj Et Ex)) in Ec).
    destruct e; try done. intros [= <-]. apply rename_tree; [done..| |intros j; split; apply touch_inode]. intros j Hj.
    unfold child in Ec. rewrite D, entry_plain, Hj in Ec by done. by destruct (inodes f !! j).
  - apply child_inr in Ec as [Ej Ey]; [|done]. destruct (Z.eqb_spec i j) as [<-|Nij].
    + intros [= <-]. assert (Y : p ++ [n] = p ++ [t]) by (apply Only; by rewrite (walk_entry f root p d es true)).
      apply app_inv_head in Y. injection Y as ->. split; [done|].
      split; intros q; unfold upd; repeat case_decide; subst; try done. unfold look. rewrite Wt. cbn. by rewrite Ex.
    + assert (t <> n) by (intros ->; congruence).
      assert (Bn : (forall es0 l, node y <> DirectoryNode es0 l) -> forall k, es !! n = Some k -> barren f k).
      { intros Ny k Hk. rewrite Ej in Hk. injection Hk as <-. by eapply barren_leaf. }
      assert (Main : (forall es0 l, node y <> DirectoryNode es0 l) -> f' = set_entries (touch (touch f i) j) d (renamed t n i) ->
        Shaped f' root /\ (forall q, walk f' root q = upd (upd (walk f root) (p ++ [t]) None) (p ++ [n]) (Some i) q)
        /\ forall q, look f' root q = upd (upd (look f root) (p ++ [t]) None) (p ++ [n]) (Some (tnode x)) q).
      { intros Ny ->. apply rename_tree; [done|done|done|done|by apply Bn|apply touch_twice]. }
      destruct (node x) as [c|es0 l|tg|] eqn:Enx; [|by destruct (Nx es0 l)|..];
        destruct (node y) as [| | |] eqn:Eny; intros [= <-]; (apply Main; [by intros|done]).
Qed.

(** Changes of inodes that keep every directory. *)
Lemma same_walk g f0 root0 q : (forall j, directory g j = directory f0 j) -> walk g root0 q = walk f0 root0 q.
Proof.
  intros H. revert root0. induction q as [|m q IH]; intros r; [done|]. cbn. unfold step. rewrite H.
  destruct (directory f0 r) as [|[es0 l]]; [done|]. destruct (es0 !! m); cbn; [apply IH|done].
Qed.
End calls.
Lemma inode_tree f root i x q0 : Shaped f root -> walk f root q0 = Some i -> (forall q, walk f root q = Some i -> q = q0) ->
  (forall y, inodes f !! i = Some y -> match node x with
     | DirectoryNode es l => node y = DirectoryNode es l
     | _ => forall es l, node y <> DirectoryNode es l end) ->
  let f' := f <| inodes := <[i := x]> (inodes f) |> in
  Shaped f' root /\ (forall q, walk f' root q = walk f root q) /\ forall q, look f' root q = upd (look f root) q0 (Some (tnode x)) q.
Proof.
  intros Sh W Only Hx f'. destruct (shaped_known _ _ Sh q0 i W) as [y Ey].
  assert (Dir : forall j, directory f' j = directory f j).
  { intros j. unfold directory, f'. cbn. destruct (decide (i = j)) as [->|]; [|by rewrite lookup_insert_ne].
    rewrite lookup_insert_eq, Ey. specialize (Hx y Ey). destruct (node x); [|by rewrite Hx|..]; by destruct (node y) eqn:?; [|destruct (Hx entries linked)|..]. }
  assert (Wk : forall q, walk f' root q = walk f root q) by (intros q; by apply same_walk).
  assert (Known : forall j, is_Some (inodes f !! j) -> is_Some (inodes f' !! j)).
  { intros j Hj. unfold f'. cbn. destruct (decide (i = j)) as [->|]; [by rewrite lookup_insert_eq|by rewrite lookup_insert_ne]. }
  split_and!; [|done|].
  - constructor.
    + setoid_rewrite Dir. apply Sh.
    + intros q j. rewrite Wk. intros H. apply Known. by eapply shaped_known.
    + intros q j es l. rewrite Wk, Dir. by apply Sh.
    + intros q q' j es l. rewrite !Wk, Dir. by apply Sh.
  - intros q. unfold look, upd. rewrite Wk. case_decide as C.
    + subst. rewrite W. cbn. by rewrite lookup_insert_eq.
    + destruct (walk f root q) as [j|] eqn:Wq; [|done]. cbn. rewrite lookup_insert_ne; [done|]. intros <-. apply C. by apply Only.
Qed.
