(* ===== verification/OverlayExact.v ===== *)
(** * What an application does to the tree

    Triples for the operations of [OverlayHost] on a share that no other process uses:
    each changes the tree of the share at the paths of one change and nowhere else.  The
    error condition of all triples is [excused]: it is [True] for statements about runs
    that return, whatever calls fail; for runs in which no call fails it is [False], and
    the premises that are needed then stand behind [excused \/ _]. *)

From S2P Require Import Prelude Lists ShareTypes Outage OverlayTypes OverlayHost OverlayTree.

(** The tree [T] of the share. *)
Definition Is (h : Host) (root : Z) (T : path -> option TNode) : Prop :=
  others h = [] /\ Shaped (fs h) root /\ forall q, look (fs h) root q = T q.
Lemma Is_ext h root T T' : Is h root T -> (forall q, T q = T' q) -> Is h root T'.
Proof. intros (A & B & C) H. split_and!; [done|done|]. intros q. by rewrite C, H. Qed.
(** Nothing is below a path where nothing is. *)
Lemma look_None f root q r : look f root q = None -> Shaped f root -> look f root (q ++ r) = None.
Proof.
  unfold look. intros H Sh. rewrite walk_app. destruct (walk f root q) as [i|] eqn:W; [|done].
  destruct (shaped_known _ _ Sh q i W) as [x Ex]. cbn in H. by rewrite Ex in H.
Qed.
Lemma look_Some f root q t : look f root q = Some t <-> exists i x, walk f root q = Some i /\ inodes f !! i = Some x /\ tnode x = t.
Proof.
  unfold look. rewrite bind_Some. split.
  - intros (i & W & H). apply fmap_Some in H as (x & Ex & ->). eauto.
  - intros (i & x & W & E & <-). exists i. split; [done|]. by rewrite E.
Qed.
Lemma tnode_dir x m : tnode x = TDir m <-> perm x = m /\ exists es l, node x = DirectoryNode es l.
Proof. unfold tnode. destruct (node x); naive_solver. Qed.
Lemma look_dir f root q m : Shaped f root -> look f root q = Some (TDir m) ->
  exists d es x, walk f root q = Some d /\ directory f d = inr (es, true) /\ inodes f !! d = Some x /\ perm x = m.
Proof.
  intros Sh (d & x & W & E & (P & es & l & N)%tnode_dir)%look_Some.
  assert (D : directory f d = inr (es, l)) by (apply directory_inr; eauto).
  assert (l = true) as -> by (by eapply shaped_linked). eauto 10.
Qed.
Lemma look_not_dir f root q d es l : Shaped f root -> walk f root q = Some d -> directory f d = inr (es, l) -> exists m, look f root q = Some (TDir m).
Proof. intros Sh W (x & E & N)%directory_inr. exists (perm x). apply look_Some. exists d, x. split_and!; [done|done|]. apply tnode_dir. eauto. Qed.

Section exact.
Context (ok : Event -> Prop) (ok_runs : ok Runs) (excused : Prop) (calm : excused \/ forall e, ok e -> e = Runs).
Definition tr {A} (P : Host -> Prop) (m : op A) (Q : A -> Host -> Prop) : Prop :=
  hoare ok P m Q (fun _ _ => excused) (fun _ => excused).
Lemma tr_ret {A} P (a : A) (Q : A -> Host -> Prop) : (forall h, P h -> Q a h) -> tr P (ret a) Q.
Proof. apply hoare_ret. Qed.
Lemma tr_raise {A} P e (Q : A -> Host -> Prop) : (forall h, P h -> excused) -> tr P (raise e) Q.
Proof. intros H. apply hoare_raise. exact H. Qed.
Lemma tr_stop {A} P (Q : A -> Host -> Prop) : (forall h, P h -> excused) -> tr P stop Q.
Proof. intros H w F HP. split; [done|]. by eapply H. Qed.
Lemma tr_bind {A B} P (m : op A) (k : A -> op B) M Q : tr P m M -> (forall a, tr (M a) (k a) Q) -> tr P (andthen m k) Q.
Proof. apply hoare_bind. Qed.
Lemma tr_at {A} P (m : op A) Q : (forall h, P h -> tr (eq h) m Q) -> tr P m Q.
Proof. apply hoare_at. Qed.
Lemma tr_outcome {A} P (o : outcome ShareOverlayServiceError A) (Q : A -> Host -> Prop) :
  (forall h, P h -> match o with Ok a => Q a h | _ => excused end) -> tr P (of_outcome o) Q.
Proof. intros H. apply hoare_outcome. intros h HP. specialize (H h HP). by destruct o. Qed.
Lemma tr_pre {A} P P' (m : op A) Q : tr P m Q -> (forall h, P' h -> P h) -> tr P' m Q.
Proof. intros. by eapply hoare_pre. Qed.
Lemma tr_post {A} P (m : op A) (Q Q' : A -> Host -> Prop) : tr P m Q -> (forall a h, Q a h -> Q' a h) -> tr P m Q'.
Proof. intros H W. by eapply hoare_weaken. Qed.

Lemma tr_os {A} h (c : Fs -> Errno + (A * Fs)) (Q : Errno + A -> Host -> Prop) :
  others h = [] -> match c (fs h) with inl e => Q (inl e) h | inr (a, f') => Q (inr a) (h <| fs := f' |>) end ->
  (excused -> Q (inl EIO) h) -> tr (eq h) (os c) Q.
Proof.
  intros Ho H1 H2. eapply (tr_bind _ _ _ (fun _ => eq h)).
  { apply hoare_put. intros ? <-. unfold turn. by rewrite Ho. }
  intros []. eapply (tr_bind _ _ _ (fun e h' => ok e /\ h = h')); [by apply hoare_event|].
  intros [| |].
  - intros w F [_ E]. unfold andthen, get, put, ret. cbn. rewrite <- E.
    destruct (c (fs h)) as [e|[a f']]; cbn; rewrite <- ?E; done.
  - apply tr_ret. intros ? [O <-]. apply H2. destruct calm as [?|C]; [done|]. by apply C in O.
  - apply tr_stop. intros ? [O <-]. destruct calm as [?|C]; [done|]. by apply C in O.
Qed.
Lemma tr_must {A} h o (c : Fs -> Errno + (A * Fs)) (Q : A -> Host -> Prop) :
  others h = [] -> match c (fs h) with inl e => excused | inr (a, f') => Q a (h <| fs := f' |>) end -> tr (eq h) (must o c) Q.
Proof.
  intros Ho H. eapply (tr_bind _ _ _ (fun r h' => match r with inl _ => excused | inr a => Q a h' end)).
  - apply tr_os; [done| |done]. by destruct (c (fs h)) as [|[a f']].
  - intros [e|a]; [by apply tr_raise|by apply tr_ret].
Qed.
(** A call after an error. *)
Lemma tr_os_excused {A} (c : Fs -> Errno + (A * Fs)) : tr (fun _ => excused) (os c) (fun _ _ => excused).
Proof.
  eapply (tr_bind _ _ _ (fun _ _ => excused)); [by apply hoare_put|]. intros [].
  eapply (tr_bind _ _ _ (fun _ _ => excused)); [by apply hoare_event|]. intros [| |]; [|by apply tr_ret|by apply tr_stop].
  eapply (tr_bind _ _ _ (fun _ _ => excused)); [by apply hoare_get|]. intros s. destruct (c (fs s)) as [|[a f']]; [by apply tr_ret|].
  eapply (tr_bind _ _ _ (fun _ _ => excused)); [by apply hoare_put|]. intros []. by apply tr_ret.
Qed.
Lemma same_host h : h <| fs := fs h |> = h.
Proof. by destruct h. Qed.
Lemma tr_must_pure {A} h o (r : Fs -> Errno + A) (Q : A -> Host -> Prop) :
  others h = [] -> match r (fs h) with inl e => excused | inr a => Q a h end -> tr (eq h) (must o (pure_call r)) Q.
Proof. intros Ho H. apply tr_must; [done|]. unfold pure_call. destruct (r (fs h)); [done|]. by rewrite same_host. Qed.

(** ** The parent of a path *)
Context (root : Z).
Lemma tr_open_directory h d n o (Q : Z -> Host -> Prop) : dot n = false -> others h = [] ->
  (forall i es l, step (fs h) d n = Some i -> directory (fs h) i = inr (es, l) -> Q i h) ->
  (excused \/ exists i es l, step (fs h) d n = Some i /\ directory (fs h) i = inr (es, l)) ->
  tr (eq h) (must o (open_directory d n)) Q.
Proof.
  intros Hn Ho HQ HE. apply tr_must_pure; [done|]. unfold child, step in *. destruct (directory (fs h) d) as [e|[es l]] eqn:D.
  { destruct HE as [?|(i & ? & ? & ? & _)]; done. }
  rewrite entry_plain by done.
  destruct (es !! n) as [i|] eqn:En; [|by destruct HE as [?|(i & ? & ? & ? & _)]].
  destruct (inodes (fs h) !! i) as [x|] eqn:Ex.
  - destruct (node x) as [|es0 l0| |] eqn:N; [|eapply HQ; [done|]; apply directory_inr; eauto|..];
      (destruct HE as [?|(i' & es0 & l0 & [= <-] & (x' & ? & ?)%directory_inr)]; [done|congruence]).
  - destruct HE as [?|(i' & es0 & l0 & [= <-] & (x' & ? & ?)%directory_inr)]; [done|congruence].
Qed.
Lemma tr_open_directories h d p : plain p -> others h = [] -> (exists es, directory (fs h) d = inr (es, true)) ->
  (forall q i es l, walk (fs h) d q = Some i -> directory (fs h) i = inr (es, l) -> l = true) ->
  (excused \/ exists i es l, walk (fs h) d p = Some i /\ directory (fs h) i = inr (es, l)) ->
  tr (eq h) (open_directories d p) (fun i h' => h' = h /\ walk (fs h) d p = Some i /\ exists es, directory (fs h) i = inr (es, true)).
Proof.
  intros Hp Ho. revert d. induction Hp as [|n p Hn Hp IH]; intros d Hd Hl HE; cbn [open_directories].
  { apply tr_ret. by intros ? <-. }
  eapply tr_bind; [apply (tr_open_directory _ _ _ _ (fun i h' => h' = h /\ step (fs h) d n = Some i /\ exists es l, directory (fs h) i = inr (es, l))); [done|done|by eauto 10|]|].
  - destruct HE as [?|(i & es & l & W & D)]; [by left|right]. cbn in W. apply bind_Some in W as (j & St & W).
    exists j. destruct p as [|m p]; [injection W as ->; eauto|]. cbn in W. apply bind_Some in W as (k & (es' & l' & D' & _)%step_directory & _). eauto.
  - intros i. apply tr_at. intros h0 (-> & St & es & l & D). assert (l = true) as -> by (apply (Hl [n] i es); [by cbn; rewrite St|done]).
    eapply tr_post; [apply IH|].
    + eauto.
    + intros q j es' l' W. apply (Hl (n :: q)). cbn. by rewrite St.
    + destruct HE as [?|(j & es' & l' & W & D')]; [by left|right]. cbn in W. rewrite St in W. eauto.
    + intros j h1 (-> & W & HD). cbn. rewrite St. done.
Qed.
Lemma tr_duplicate_root h r : others h = [] -> (exists es, directory (fs h) r = inr (es, true)) -> tr (eq h) (duplicate_root r) (fun i h' => h' = h /\ i = r).
Proof. intros Ho [es D]. apply tr_must_pure; [done|]. by rewrite D. Qed.
Lemma split_last_snoc p n : split_last (p ++ [n]) = Ok (p, n).
Proof. unfold split_last. by rewrite last_snoc, removelast_last. Qed.
Definition Parent (h : Host) (p : path) (d : Z) : Prop := walk (fs h) root p = Some d /\ exists es, directory (fs h) d = inr (es, true).
Lemma tr_open_parent h T p n : plain p -> Is h root T -> (excused \/ exists m, T p = Some (TDir m)) ->
  tr (eq h) (open_parent root (p ++ [n])) (fun x h' => h' = h /\ x.2 = n /\ Parent h p x.1).
Proof.
  intros Hp (Ho & Sh & HT) HE. unfold open_parent. eapply (tr_bind _ _ _ (fun x h' => h' = h /\ x = (p, n))).
  { apply tr_outcome. intros ? <-. by rewrite split_last_snoc. }
  intros [p' n']. apply tr_at. intros h0 [-> [= -> ->]]. eapply tr_bind; [apply tr_duplicate_root; [done|apply Sh]|].
  intros r. apply tr_at. intros h0 [-> ->]. eapply tr_bind; [apply tr_open_directories; [done|done|apply Sh| |]|].
  - intros q i es l. by apply (shaped_linked _ _ Sh).
  - destruct HE as [?|[m Hm]]; [by left|right]. rewrite <- HT in Hm. destruct (look_dir _ _ _ _ Sh Hm) as (d & es & x & W & D & _). eauto.
  - intros d. apply tr_ret. intros h0 (-> & W & D). done.
Qed.

(** ** Calls on the tree *)
Lemma Parent_look h p d m : Shaped (fs h) root -> walk (fs h) root p = Some d -> look (fs h) root p = Some (TDir m) -> Parent h p d.
Proof. intros Sh W L. destruct (look_dir _ _ _ _ Sh L) as (d' & es & x & W' & D & _). rewrite W in W'. injection W' as <-. by split; [|exists es]. Qed.
Lemma Parent_dir h p d : Shaped (fs h) root -> Parent h p d -> exists m, look (fs h) root p = Some (TDir m).
Proof. intros Sh [W [es D]]. by eapply look_not_dir. Qed.
Lemma snoc_ne (p : path) n : p <> p ++ [n].
Proof. intros X. apply (f_equal length) in X. rewrite length_app in X. cbn in X. lia. Qed.
Lemma Is_look h T q : Is h root T -> look (fs h) root q = T q.
Proof. by intros (_ & _ & H). Qed.

Lemma Is_create h T p d n nd mode i f' : Is h root T -> Parent h p d -> leaf_node nd -> create_entry d n nd mode (fs h) = inr (i, f') ->
  T (p ++ [n]) = None /\ exists x, inodes f' !! i = Some x /\ node x = nd /\ perm x = mode
  /\ Is (h <| fs := f' |>) root (upd T (p ++ [n]) (Some (tnode x))) /\ Parent (h <| fs := f' |>) p d
  /\ walk f' root (p ++ [n]) = Some i /\ (forall q, walk f' root q = Some i -> q = p ++ [n]).
Proof.
  intros (Ho & Sh & HT) P L C. pose proof P as [W [es D]].
  destruct (create_tree _ _ _ _ _ Sh W D n nd mode i f' L C) as (Sh' & W' & Wn & Only & (x & Ex & En & Em) & Wo & Lk).
  rewrite <- HT. split; [unfold look; by rewrite Wo|]. exists x. rewrite Ex in Lk. split_and!; try done.
  - split_and!; [done|done|]. intros q. cbn. rewrite Lk. unfold upd. case_decide; [done|apply HT].
  - destruct (Parent_dir h p d Sh P) as [m Hm]. apply (Parent_look (h <| fs := f' |>) p d m); [done|done|]. cbn. rewrite Lk, upd_ne by apply snoc_ne. done.
Qed.
(** A new entry is refused only where there is one. *)
Lemma create_refused h T p d n nd mode e : dot n = false -> Is h root T -> Parent h p d -> create_entry d n nd mode (fs h) = inl e -> e = EXIST /\ is_Some (T (p ++ [n])).
Proof.
  intros Hn (Ho & Sh & HT) [W [es D]]. unfold create_entry. rewrite D, Hn. destruct (es !! n) as [i|] eqn:En; [|done]. intros [= <-]. split; [done|].
  rewrite <- HT. unfold look. rewrite (walk_entry _ root p d es true n W D), En. cbn.
  destruct (shaped_known _ _ Sh (p ++ [n]) i) as [x ->]; [|done]. by rewrite (walk_entry _ root p d es true n W D).
Qed.
(** An inode with one name gets new contents or a new mode. *)
Lemma Is_inode h T q i x : Is h root T -> walk (fs h) root q = Some i -> (forall r, walk (fs h) root r = Some i -> r = q) ->
  (forall y, inodes (fs h) !! i = Some y -> match node x with
     | DirectoryNode es l => node y = DirectoryNode es l
     | _ => forall es l, node y <> DirectoryNode es l end) ->
  let h' := h <| fs := (fs h) <| inodes := <[i := x]> (inodes (fs h)) |> |> in
  Is h' root (upd T q (Some (tnode x))) /\ forall r, walk (fs h') root r = walk (fs h) root r.
Proof.
  intros (Ho & Sh & HT) W Only Hx h'. destruct (inode_tree _ root i x q Sh W Only Hx) as (Sh' & Wk & Lk). split; [|done].
  split_and!; [done|done|]. intros r. etransitivity; [apply Lk|]. unfold upd. case_decide; [done|apply HT].
Qed.
Lemma directory_only h T d es q : Is h root T -> walk (fs h) root q = Some d -> directory (fs h) d = inr (es, true) -> forall r, walk (fs h) root r = Some d -> r = q.
Proof. intros (_ & Sh & _) W D r Wr. by eapply shaped_unique. Qed.

(** ** Directories *)
Context (umask : Z).
Definition parented (T : path -> option TNode) (p : path) : Prop := exists m, T p = Some (TDir m).
Lemma tr_chmod_directory h T p d n mode o1 o2 : dot n = false -> Is h root T -> Parent h p d -> (excused \/ parented T (p ++ [n])) ->
  tr (eq h) (do i <- must o1 (open_directory d n); must o2 (fchmod i mode)) (fun _ h' => Is h' root (upd T (p ++ [n]) (Some (TDir mode)))).
Proof.
  intros Hn I P HE. pose proof I as (Ho & Sh & HT). pose proof P as [W [es D]].
  assert (Wn := walk_entry _ root p d es true n W D).
  eapply tr_bind; [apply (tr_open_directory h d n _ (fun i h' => h' = h /\ es !! n = Some i /\ exists es0 l, directory (fs h) i = inr (es0, l))); [done|done| |]|].
  - intros i es0 l. unfold step. rewrite D. eauto.
  - destruct HE as [?|[m Hm]]; [by left|right]. rewrite <- HT in Hm. destruct (look_dir _ _ _ _ Sh Hm) as (i & es0 & x & Wi & Di & _).
    rewrite Wn in Wi. exists i, es0, true. split; [|done]. unfold step. by rewrite D.
  - intros i. apply tr_at. intros h0 (-> & Ei & es0 & l & Di). rewrite Ei in Wn.
    assert (l = true) as -> by (by eapply (shaped_linked _ _ Sh)). pose proof Di as (x & Ex & Nx)%directory_inr.
    apply tr_must; [done|]. unfold fchmod. rewrite Ex.
    set (y := {| node := node x; perm := mode; dev := dev x; mtime := mtime x; ctime := clock (fs h) |}).
    destruct (Is_inode h T (p ++ [n]) i y I Wn) as [I' _].
    { by eapply directory_only. }
    { intros z Ez. rewrite Ex in Ez. injection Ez as <-. cbn. rewrite Nx. done. }
    eapply Is_ext; [exact I'|]. intros q. unfold upd, tnode. cbn. by rewrite Nx.
Qed.
Lemma upd_upd {A} (T : path -> A) q v v' x : upd (upd T q v) q v' x = upd T q v' x.
Proof. unfold upd. by case_decide. Qed.
Lemma host_mode_ok m : m <= u32_max -> host_mode m = Ok m.
Proof. intros H. unfold host_mode, try_from. rewrite (proj2 (Z.leb_le _ _)) by done. done. Qed.
Lemma host_mode_Ok m m' : host_mode m = Ok m' -> m' = m.
Proof. unfold host_mode, try_from. destruct (m <=? u32_max); [|done]. by intros [= <-]. Qed.
Lemma tr_host_mode P m : (excused \/ m <= u32_max) -> tr P (of_outcome (host_mode m)) (fun m' h => P h /\ m' = m).
Proof.
  intros HE. apply tr_outcome. intros h HP. destruct HE as [?|?]; [|by rewrite host_mode_ok].
  destruct (host_mode m) as [m'| |] eqn:E; [|done..]. by apply host_mode_Ok in E as ->.
Qed.

Lemma tr_write_directory h T c p n e : plain (names c) -> Is h root T -> names c = p ++ [n] -> proposal c = Some e ->
  (excused \/ parented T p /\ (T (p ++ [n]) = None \/ parented T (p ++ [n])) /\ o_mode (entry_version e) <= u32_max) ->
  tr (eq h) (write_directory umask root c) (fun _ h' => Is h' root (upd T (p ++ [n]) (Some (TDir (o_mode (entry_version e)))))).
Proof.
  intros Hc I En Ep HE. rewrite En in Hc. apply plain_snoc in Hc as [Hp Hd]. pose proof I as (Ho & Sh & HT). unfold write_directory. rewrite En, Ep.
  eapply (tr_bind _ _ _ (fun e' h' => h' = h /\ e' = e)); [by apply tr_outcome; intros ? <-|].
  intros e'. apply tr_at. intros h0 [-> ->]. eapply tr_bind; [apply (tr_open_parent h T p n Hp I); tauto|].
  intros [d n']. apply tr_at. intros h0 (-> & Hn & P). cbn [fst snd] in *. subst n'.
  eapply tr_bind; [apply tr_host_mode; tauto|]. intros mode. apply tr_at. intros h0 [<- ->].
  eapply tr_bind; [apply (tr_os h _ (fun r h' => match r with
      | inr _ => exists m, Is h' root (upd T (p ++ [n]) (Some (TDir m))) /\ Parent h' p d
      | inl EXIST => h' = h /\ is_Some (T (p ++ [n]))
      | inl _ => excused end)); [done| |done]|].
  - unfold mkdirat. destruct (create_entry _ _ _ _ _) as [err|[i f']] eqn:C.
    + by destruct (create_refused h T p d n _ _ err Hd I P C) as [-> ?].
    + apply (Is_create h T p d) in C as (_ & x & Ex & Nx & _ & I' & P' & _); [|done..]. exists (perm x). split; [|done].
      eapply Is_ext; [exact I'|]. intros q. unfold upd, tnode. by rewrite Nx.
  - intros [[]|i]; try (by apply tr_raise).
    + apply tr_at. intros h0 [-> [t Ht]]. apply tr_chmod_directory; [done..|]. destruct HE as [?|(_ & [?|?] & _)]; [by left|congruence|by right].
    + apply tr_at. intros h0 (m & I' & P'). eapply tr_post; [apply (tr_chmod_directory _ _ p d n _ _ _ Hd I' P')|].
      * right. exists m. by rewrite upd_eq.
      * intros [] h1 I1. eapply Is_ext; [exact I1|]. apply upd_upd.
Qed.

(** ** Files and links *)
Definition Single (h : Host) (q : path) (i : Z) (n : Node) (m : Z) : Prop :=
  walk (fs h) root q = Some i /\ (forall r, walk (fs h) root r = Some i -> r = q)
  /\ exists x, inodes (fs h) !! i = Some x /\ node x = n /\ perm x = m.
Lemma Parent_kept h h' p d q v T : Is h root T -> Is h' root (upd T q v) -> Parent h p d -> p <> q ->
  walk (fs h') root p = walk (fs h) root p -> Parent h' p d.
Proof.
  intros I (Ho' & Sh' & HT') P N W'. destruct (Parent_dir h p d) as [m Hm]; [by destruct I as (_ & ? & _)|done|].
  apply (Parent_look h' p d m); [done|rewrite W'; apply P|]. rewrite HT', upd_ne by done. by rewrite <- (Is_look h T p I).
Qed.
(** New contents or a new mode for a file with one name. *)
Lemma Single_change h T p t d i c m c' m' mt ct : Is h root T -> Parent h p d -> Single h (p ++ [t]) i (RegularFile c) m ->
  forall x, inodes (fs h) !! i = Some x ->
  let h' := h <| fs := (fs h) <| inodes := <[i := {| node := RegularFile c'; perm := m'; dev := dev x; mtime := mt; ctime := ct |}]> (inodes (fs h)) |> |> in
  Is h' root (upd T (p ++ [t]) (Some (TFile m' c'))) /\ Parent h' p d /\ Single h' (p ++ [t]) i (RegularFile c') m'.
Proof.
  intros I P (W & Only & y & Ey & Ny & My) x Ex h'.
  destruct (Is_inode h T (p ++ [t]) i {| node := RegularFile c'; perm := m'; dev := dev x; mtime := mt; ctime := ct |} I W Only) as [I' Wk].
  { intros z Ez. cbn. rewrite Ey in Ez. injection Ez as <-. by rewrite Ny. }
  split; [exact I'|]. split.
  - eapply (Parent_kept h h' p d (p ++ [t])); [exact I|exact I'|done|apply snoc_ne|apply Wk].
  - split; [by rewrite Wk|]. split; [intros r; rewrite Wk; apply Only|]. eexists. cbn. by rewrite lookup_insert_eq.
Qed.
Lemma tr_write_all h T p t d i m data : Is h root T -> Parent h p d -> Single h (p ++ [t]) i (RegularFile []) m ->
  tr (eq h) (write_all i data) (fun r h' => match r with
    | inl _ => excused
    | inr _ => Is h' root (upd T (p ++ [t]) (Some (TFile m data))) /\ Parent h' p d /\ Single h' (p ++ [t]) i (RegularFile data) m end).
Proof.
  intros I P Si. pose proof I as (Ho & Sh & HT). pose proof Si as (W & Only & x & Ex & Nx & Mx). unfold write_all.
  eapply (tr_bind _ _ _ (fun _ => eq h)). { apply hoare_put. intros ? <-. unfold turn. by rewrite Ho. }
  intros []. eapply (tr_bind _ _ _ (fun e h' => ok e /\ h = h')); [by apply hoare_event|]. intros [|written ?|written].
  - intros w F [_ E]. split; [done|]. cbn. rewrite <- E. unfold append. rewrite Ex, Nx. cbn [app]. rewrite <- Mx in Si |- *.
    by apply (Single_change h T p t d i [] (perm x)).
  - apply tr_at. intros h0 [O <-]. assert excused by (destruct calm as [?|C]; [done|by apply C in O]).
    eapply (tr_bind _ _ _ (fun _ _ => True)); [by apply hoare_put|]. intros []. by apply tr_ret.
  - apply tr_at. intros h0 [O <-]. assert excused by (destruct calm as [?|C]; [done|by apply C in O]).
    eapply (tr_bind _ _ _ (fun _ _ => True)); [by apply hoare_put|]. intros []. by apply tr_stop.
Qed.
(** Publishing under the final name. *)
Definition replaceable (T : path -> option TNode) (q : path) : Prop := forall m, T q <> Some (TDir m).
Lemma tr_publish h T p t n d i nd m o : dot t = false -> dot n = false -> Is h root T -> Parent h p d -> Single h (p ++ [t]) i nd m ->
  (forall es l, nd <> DirectoryNode es l) -> (excused \/ replaceable T (p ++ [n])) ->
  tr (eq h) (must o (renameat d t n)) (fun _ h' => forall t', tnode {| node := nd; perm := m; dev := 0; mtime := (0, 0); ctime := (0, 0) |} = t' ->
    Is h' root (upd (upd T (p ++ [t]) None) (p ++ [n]) (Some t'))).
Proof.
  intros Dt Dn I P (W & Only & x & Ex & Nx & Mx) Nd HE. pose proof I as (Ho & Sh & HT). pose proof P as [Wp [es D]].
  assert (Et : es !! t = Some i) by (by rewrite <- (walk_entry _ root p d es true t Wp D)).
  assert (Nx' : forall es0 l, node x <> DirectoryNode es0 l) by (rewrite Nx; apply Nd).
  apply tr_must; [done|]. destruct (renameat d t n (fs h)) as [e|[[] f']] eqn:R.
  - destruct HE as [?|Rp]; [done|]. exfalso. unfold renameat in R. rewrite Dt, Dn, D, (proj2 (child_inr _ d es D t i x Dt) (conj Et Ex)) in R. cbn [orb] in R.
    unfold child in R. rewrite D, entry_plain in R by done. destruct (es !! n) as [j|] eqn:En; [|done].
    assert (Wn : walk (fs h) root (p ++ [n]) = Some j) by (by rewrite (walk_entry _ root p d es true n Wp D)).
    destruct (shaped_known _ _ Sh _ _ Wn) as [y Ey]. rewrite Ey in R. destruct (i =? j); [done|].
    assert (exists es0 l, node y = DirectoryNode es0 l) as (es0 & l & Ny).
    { destruct (node x) as [|es1 l1| |] eqn:Enx; [|by destruct (Nx' es1 l1)|..]; (destruct (node y); [done|by eauto|done..]). }
    apply (Rp (perm y)). rewrite <- HT. apply look_Some. exists j, y. split_and!; [done|done|]. apply tnode_dir. eauto.
  - destruct (renameat_tree _ root p d es Sh Wp D t n i x f' Et Ex Nx' Only R) as (Sh' & _ & Lk).
    intros t' Ht. split_and!; [done|done|]. intros q. cbn. rewrite Lk. unfold upd. rewrite <- Ht. unfold tnode. rewrite Nx, Mx. cbn.
    case_decide; [done|]. case_decide; [done|]. apply HT.
Qed.
Lemma tr_or_unlink P d t (m : op unit) Q : tr P m (fun _ => Q) -> tr P (or_unlink d t m) (fun _ => Q).
Proof.
  intros H. eapply (tr_bind _ _ _ (fun r h => match r with inl _ => excused | inr _ => Q h end)).
  - apply hoare_attempt. eapply hoare_weaken; [exact H|done|by intros []|done|done].
  - intros [e|[]]; [|by apply tr_ret]. eapply tr_bind; [apply tr_os_excused|]. intros r. by apply tr_raise.
Qed.
Lemma tr_fill_file h T p t n d i m contents mode : dot t = false -> dot n = false -> Is h root T -> Parent h p d -> Single h (p ++ [t]) i (RegularFile []) m ->
  (excused \/ replaceable T (p ++ [n])) ->
  tr (eq h) (fill_file d i t n contents mode) (fun _ h' => Is h' root (upd (upd T (p ++ [t]) None) (p ++ [n]) (Some (TFile mode contents)))).
Proof.
  intros Dt Dn I P Si HE. unfold fill_file. eapply tr_bind; [by eapply (tr_write_all h T p t d i m contents)|].
  intros w. eapply (tr_bind _ _ _ (fun _ h' => Is h' root (upd T (p ++ [t]) (Some (TFile m contents))) /\ Parent h' p d /\ Single h' (p ++ [t]) i (RegularFile contents) m)).
  { destruct w as [e|[]]; [by apply tr_raise|by apply tr_ret]. }
  intros []. apply tr_at. intros h1 (I1 & P1 & Si1).
  eapply (tr_bind _ _ _ (fun _ h' => Is h' root (upd T (p ++ [t]) (Some (TFile mode contents))) /\ Parent h' p d /\ Single h' (p ++ [t]) i (RegularFile contents) mode)).
  { pose proof I1 as (Ho1 & _). apply tr_must; [done|]. pose proof Si1 as (_ & _ & x & Ex & Nx & Mx). unfold fchmod. rewrite Ex, Nx.
    destruct (Single_change h1 _ p t d i contents m contents mode (mtime x) (clock (fs h1)) I1 P1 Si1 x Ex) as (I2 & P2 & S2).
    split; [|done]. eapply Is_ext; [exact I2|]. apply upd_upd. }
  intros []. apply tr_at. intros h2 (I2 & P2 & Si2).
  eapply (tr_bind _ _ _ (fun _ h' => h' = h2)).
  { pose proof I2 as (Ho2 & _). apply tr_must; [done|]. cbn. apply same_host. }
  intros []. apply tr_at. intros h3 ->. eapply tr_post; [eapply (tr_publish h2 _ p t n d i _ mode _ Dt Dn I2 P2 Si2); [done|]|].
  - destruct HE as [?|R]; [by left|right]. intros m'. unfold upd. case_decide; [done|apply R].
  - intros [] h4 H4. eapply Is_ext; [by apply H4|]. intros q. unfold upd. repeat case_decide; done.
Qed.

Context (new_v4 : nat -> bytes).
Definition no_temporaries (T : path -> option TNode) : Prop := forall p k, T (p ++ [temporary_name (new_v4 k)]) = None.
Lemma tr_draw h : tr (eq h) (draw new_v4) (fun u h' => u = new_v4 (drawn h) /\ fs h' = fs h /\ others h' = others h).
Proof. intros w F ->. by repeat split. Qed.
Lemma Is_fs h h' T : fs h' = fs h -> others h' = others h -> Is h root T -> Is h' root T.
Proof. intros E1 E2 (A & B & C). split_and!; [by rewrite E2|by rewrite E1|]. intros q. by rewrite E1. Qed.
Lemma Parent_fs h h' p d : fs h' = fs h -> Parent h p d -> Parent h' p d.
Proof. intros E. unfold Parent. by rewrite E. Qed.
(** What a written entry needs when no call fails. *)
Definition writable (T : path -> option TNode) (p : path) (n : bytes) (e : ValidatedEntry) : Prop :=
  parented T p /\ replaceable T (p ++ [n]) /\ o_mode (entry_version e) <= u32_max /\ is_Some (entry_contents e) /\ no_temporaries T.
(** A new temporary entry. *)
Lemma tr_temporary h T p d u nd m o : dot u = false -> Is h root T -> Parent h p d -> leaf_node nd -> (forall es l, nd <> DirectoryNode es l) ->
  (excused \/ T (p ++ [u]) = None) ->
  tr (eq h) (must o (create_entry d u nd m)) (fun i h' => T (p ++ [u]) = None /\ exists t, (forall q, replaceable T q -> replaceable (upd T (p ++ [u]) t) q)
    /\ Is h' root (upd T (p ++ [u]) t) /\ Parent h' p d /\ Single h' (p ++ [u]) i nd m).
Proof.
  intros Du I P L Nd HE. pose proof I as (Ho & _). apply tr_must; [done|]. destruct (create_entry d u nd m (fs h)) as [e|[i f']] eqn:C.
  - destruct (create_refused h T p d u nd m e Du I P C) as [-> [t Ht]]. destruct HE as [?|?]; [done|congruence].
  - apply (Is_create h T p d) in C as (HT & x & Ex & Nx & Mx & I' & P' & Wn & Only); [|done..]. split; [done|]. exists (Some (tnode x)). split.
    + intros q R k. unfold upd. case_decide; [|apply R]. intros [= (_ & es & l & Nd')%tnode_dir]. subst nd. by destruct (Nd es l).
    + split; [exact I'|]. split; [done|]. split; [done|]. split; [done|]. by exists x.
Qed.
Lemma tr_write_file h T c p n e : plain (names c) -> Is h root T -> names c = p ++ [n] -> (excused \/ writable T p n e) ->
  tr (eq h) (write_file new_v4 umask root c e) (fun _ h' => exists contents, entry_contents e = Some contents
    /\ Is h' root (upd T (p ++ [n]) (Some (TFile (o_mode (entry_version e)) contents)))).
Proof.
  intros Hc I En HE. rewrite En in Hc. apply plain_snoc in Hc as [Hp Dn]. unfold write_file. rewrite En.
  eapply (tr_bind _ _ _ (fun x h' => h' = h /\ entry_contents e = Some x)).
  { apply tr_outcome. intros ? <-. destruct (entry_contents e) eqn:Ec; [done|]. destruct HE as [?|(_ & _ & _ & [? ?] & _)]; [done|congruence]. }
  intros contents. apply tr_at. intros h0 [-> Ec]. eapply tr_bind; [apply (tr_open_parent h T p n Hp I); unfold writable in HE; tauto|].
  intros [d n']. apply tr_at. intros h0 (-> & Hn & P). cbn [fst snd] in *. subst n'.
  eapply tr_bind; [apply tr_host_mode; unfold writable in HE; tauto|]. intros mode. apply tr_at. intros h0 [<- ->].
  eapply tr_bind; [apply tr_draw|]. intros u. apply tr_at. intros h1 (Hu & E1 & E2). cbv zeta.
  eapply tr_bind; [eapply (tr_temporary h1 T p d (temporary_name u) (RegularFile [])); [apply dot_temporary|by eapply Is_fs|by eapply Parent_fs|done|done|]|].
  { destruct HE as [?|(_ & _ & _ & _ & N)]; [by left|right]. subst u. apply N. }
  intros i. apply tr_at. intros h2 (Tu & t & Rt & I2 & P2 & Si2).
  eapply tr_post; [apply (tr_or_unlink (eq h2) d (temporary_name u)), (tr_fill_file h2 _ p _ n d i _ contents (o_mode (entry_version e)) (dot_temporary u) Dn I2 P2 Si2)|].
  - destruct HE as [?|(_ & R & _)]; [by left|right; by apply Rt].
  - intros [] h3 I3. exists contents. split; [done|]. eapply Is_ext; [exact I3|]. intros q. unfold upd. repeat case_decide; subst; by rewrite ?Tu.
Qed.
Lemma tr_write_symlink h T c p n e : plain (names c) -> Is h root T -> names c = p ++ [n] -> (excused \/ writable T p n e) ->
  tr (eq h) (write_symlink new_v4 root c e) (fun _ h' => exists target, entry_contents e = Some target /\ Is h' root (upd T (p ++ [n]) (Some (TLink target)))).
Proof.
  intros Hc I En HE. rewrite En in Hc. apply plain_snoc in Hc as [Hp Dn]. unfold write_symlink. rewrite En.
  eapply (tr_bind _ _ _ (fun x h' => h' = h /\ entry_contents e = Some x)).
  { apply tr_outcome. intros ? <-. destruct (entry_contents e) eqn:Ec; [done|]. destruct HE as [?|(_ & _ & _ & [? ?] & _)]; [done|congruence]. }
  intros target. apply tr_at. intros h0 [-> Ec]. eapply tr_bind; [apply (tr_open_parent h T p n Hp I); unfold writable in HE; tauto|].
  intros [d n']. apply tr_at. intros h0 (-> & Hn & P). cbn [fst snd] in *. subst n'.
  eapply tr_bind; [apply tr_draw|]. intros u. apply tr_at. intros h1 (Hu & E1 & E2). cbv zeta.
  eapply tr_bind; [eapply (tr_temporary h1 T p d (temporary_name u) (SymbolicLink target)); [apply dot_temporary|by eapply Is_fs|by eapply Parent_fs|done|done|]|].
  { destruct HE as [?|(_ & _ & _ & _ & N)]; [by left|right]. subst u. apply N. }
  intros i. apply tr_at. intros h2 (Tu & t & Rt & I2 & P2 & Si2). apply tr_or_unlink.
  eapply tr_post; [apply (tr_publish h2 _ p (temporary_name u) n d i _ _ _ (dot_temporary u) Dn I2 P2 Si2); [done|]|].
  - destruct HE as [?|(_ & R & _)]; [by left|right; by apply Rt].
  - intros [] h3 I3. exists target. split; [done|]. eapply Is_ext; [by apply I3|]. intros q. unfold upd. repeat case_decide; subst; by rewrite ?Tu.
Qed.
End exact.

(** * Removal of entries

    Triples for [remove_directory_contents] and [remove_existing], in the style of
    [OverlayExact]: what is removed is a path with everything below it, and nothing
    else. *)

Definition dotless (T : path -> option TNode) : Prop := forall p m, dot m = true -> T (p ++ [m]) = None.
(** Everything below a path but for entries with such names, which no file system has. *)
Definition prune (T : path -> option TNode) (p q : path) : option TNode :=
  match below p q with Some (m, _) => if dot m then T q else None | None => T q end.
(** A path and everything below it. *)
Definition cut (T : path -> option TNode) (p q : path) : option TNode := if decide (p `prefix_of` q) then None else T q.

Lemma Is_closed h root T q r : Is h root T -> T q = None -> T (q ++ r) = None.
Proof. intros (_ & Sh & HT) H. rewrite <- HT in *. by apply look_None. Qed.
Lemma prefix_below (p q : path) : p `prefix_of` q <-> q = p \/ exists n q', below p q = Some (n, q').
Proof.
  setoid_rewrite below_Some. split.
  - intros [[|n r] ->]; [left; by rewrite app_nil_r|right; eauto].
  - intros [->|(n & r & ->)]; [done|by exists (n :: r)].
Qed.

Section remove.
Context (ok : Event -> Prop) (ok_runs : ok Runs) (excused : Prop) (calm : excused \/ forall e, ok e -> e = Runs).
Context (root : Z) (directory_size : gmap bytes Z -> Z).
Notation tr := (tr ok excused).

(** What a removal below [p] needs when no call fails. *)
Record Clearable (T : path -> option TNode) (p : path) (depth : nat) : Prop := {
  clear_dots : dotless T;
  clear_depth : forall q, T (p ++ q) <> None -> (length q < depth)%nat;
  clear_kinds : forall m q, T (p ++ m :: q) <> Some TSpecial
}.
(** The entries with the names in [rest] are still there. *)
Definition partial (T : path -> option TNode) (p : path) (rest : list bytes) (q : path) : option TNode :=
  match below p q with Some (m, _) => if dot m || bool_decide (m ∈ rest) then T q else None | None => T q end.
Definition Kept (h h' : Host) (p : path) : Prop := forall q, below p q = None -> walk (fs h') root q = walk (fs h) root q.
Lemma Kept_Parent h h' T T' p d : Is h root T -> Is h' root T' -> Parent root h p d -> Kept h h' p -> T' p = T p -> Parent root h' p d.
Proof.
  intros I I' P K E. destruct (Parent_dir root h p d) as [m Hm]; [by destruct I as (_ & ? & _)|done|].
  apply (Parent_look root h' p d m); [by destruct I' as (_ & ? & _)|rewrite K by apply below_irrefl; apply P|].
  rewrite (Is_look root h' T' p I'), E, <- (Is_look root h T p I). done.
Qed.

(** ** One entry *)
Lemma tr_unlinkat h T p d m o : dot m = false -> Is h root T -> Parent root h p d ->
  (excused \/ exists t, T (p ++ [m]) = Some t /\ forall k, t <> TDir k) ->
  tr (eq h) (must o (unlinkat d m)) (fun _ h' => Is h' root (cut T (p ++ [m])) /\ Kept h h' p).
Proof.
  intros Dm I P HE. pose proof I as (Ho & Sh & HT). pose proof P as [W [es D]]. apply tr_must; [done..|].
  destruct (unlinkat d m (fs h)) as [e|[[] f']] eqn:U.
  - destruct HE as [?|(t & Ht & Nt)]; [done|]. exfalso. rewrite <- HT in Ht. apply look_Some in Ht as (i & x & Wi & Ex & Tx).
    rewrite (walk_entry _ root p d es true m W D) in Wi. unfold unlinkat in U.
    rewrite D, (proj2 (child_inr _ d es D m i x Dm) (conj Wi Ex)) in U. destruct (node x) as [|es0 l| |] eqn:Nx; [done| |done..].
    apply (Nt (perm x)). rewrite <- Tx. apply tnode_dir. eauto.
  - destruct (unlinkat_tree _ root p d es Sh W D m f' Dm U) as (Sh' & Wk & Lk).
    assert (I' : Is (h <| fs := f' |>) root (upd T (p ++ [m]) None)).
    { split_and!; [done|done|]. intros q. cbn. rewrite Lk. unfold upd. case_decide; [done|apply HT]. }
    split.
    + eapply Is_ext; [exact I'|]. intros q. unfold cut. case_decide as C; [|apply upd_ne; by intros ->]. destruct C as [r ->].
      eapply (Is_closed _ _ _ (p ++ [m]) r I'). apply upd_eq.
    + intros q B. cbn. rewrite Wk, upd_ne; [done|]. intros ->. by rewrite below_self in B.
Qed.
Lemma tr_rmdirat h T p d m o : dot m = false -> Is h root T -> Parent root h p d ->
  (excused \/ exists k, T (p ++ [m]) = Some (TDir k) /\ forall n, T ((p ++ [m]) ++ [n]) = None) ->
  tr (eq h) (must o (rmdirat d m)) (fun _ h' => Is h' root (cut T (p ++ [m])) /\ Kept h h' p).
Proof.
  intros Dm I P HE. pose proof I as (Ho & Sh & HT). pose proof P as [W [es D]]. apply tr_must; [done..|].
  destruct (rmdirat d m (fs h)) as [e|[[] f']] eqn:U.
  - destruct HE as [?|(k & Ht & Nt)]; [done|]. exfalso. rewrite <- HT in Ht. destruct (look_dir _ _ _ _ Sh Ht) as (i & es0 & x & Wi & Di & Ex & _).
    pose proof Wi as Wi'. rewrite (walk_entry _ root p d es true m W D) in Wi'. unfold rmdirat in U.
    rewrite Dm, D, (proj2 (child_inr _ d es D m i x Dm) (conj Wi' Ex)) in U. apply directory_inr in Di as Dx. destruct Dx as (x' & Ex' & Nx). simplify_eq.
    rewrite Nx in U. case_bool_decide as B; [done|]. apply B. apply map_empty. intros n. destruct (es0 !! n) as [j|] eqn:Ej; [|done].
    specialize (Nt n). rewrite <- HT in Nt. unfold look in Nt. rewrite (walk_entry _ root _ i es0 true n Wi Di), Ej in Nt. cbn in Nt.
    destruct (shaped_known _ _ Sh ((p ++ [m]) ++ [n]) j) as [y Ey]; [by rewrite (walk_entry _ root _ i es0 true n Wi Di)|]. by rewrite Ey in Nt.
  - destruct (rmdirat_tree _ root p d es Sh W D m f' U) as (Sh' & Wk & Lk).
    assert (I' : Is (h <| fs := f' |>) root (upd T (p ++ [m]) None)).
    { split_and!; [done|done|]. intros q. cbn. rewrite Lk. unfold upd. case_decide; [done|apply HT]. }
    split.
    + eapply Is_ext; [exact I'|]. intros q. unfold cut. case_decide as C; [|apply upd_ne; by intros ->]. destruct C as [r ->].
      eapply (Is_closed _ _ _ (p ++ [m]) r I'). apply upd_eq.
    + intros q B. cbn. rewrite Wk, upd_ne; [done|]. intros ->. by rewrite below_self in B.
Qed.
(** The kind of an entry as [statat] reports it. *)
Lemma tr_stat_kind h T p d m o : dot m = false -> Is h root T -> Parent root h p d -> (excused \/ exists t, T (p ++ [m]) = Some t /\ t <> TSpecial) ->
  tr (eq h) (do stat <- must o (statat directory_size d m); of_outcome (entry_kind stat))
    (fun k h' => h' = h /\ exists t, T (p ++ [m]) = Some t /\ (if bool_decide (k = Directory) then exists j, t = TDir j else forall j, t <> TDir j)).
Proof.
  intros Dm I P HE. pose proof I as (Ho & Sh & HT). pose proof P as [W [es D]].
  eapply (tr_bind _ _ _ _ _ (fun s h' => h' = h /\ exists i x, T (p ++ [m]) = Some (tnode x) /\ s = stat_of directory_size i x)).
  - apply tr_must_pure; [done..|]. unfold child. rewrite D, entry_plain by done.
    assert (L : look (fs h) root (p ++ [m]) = es !! m ≫= fun i => tnode <$> inodes (fs h) !! i) by (unfold look; by rewrite (walk_entry _ root p d es true m W D)).
    rewrite HT in L. destruct (es !! m) as [i|]; cbn in L; [|destruct HE as [?|(t & Ht & _)]; [done|congruence]].
    destruct (inodes (fs h) !! i) as [x|]; cbn in L; [|destruct HE as [?|(t & Ht & _)]; [done|congruence]]. eauto.
  - intros s. apply tr_outcome. intros ? (-> & i & x & Ht & ->). unfold entry_kind. cbn. unfold tnode in Ht.
    destruct (node x) eqn:N; cbn; try (split; [done|]; eexists; split; [exact Ht|]; case_bool_decide; [by eauto|done]).
    destruct HE as [?|(t & Ht' & Nt)]; [done|]. congruence.
Qed.
Lemma tr_bind_assoc {A B C} P (m : op A) (k : A -> op B) (c : B -> op C) M Q :
  tr P (andthen m k) M -> (forall b, tr (M b) (c b) Q) -> tr P (andthen m (fun a => andthen (k a) c)) Q.
Proof.
  intros H1 H2 w. pose proof (tr_bind ok excused P (andthen m k) c M Q H1 H2 w) as H. unfold andthen in *.
  by destruct (m w) as [[a| |] w'].
Qed.

(** ** The contents of a directory *)
Lemma below_assoc p m q : below (p ++ [m]) q = match below p q with Some (n, k :: r) => if decide (n = m) then Some (k, r) else None | _ => None end.
Proof.
  destruct (below (p ++ [m]) q) as [[k r]|] eqn:B.
  - apply below_Some in B as ->. rewrite <- (assoc_L (++)). cbn. rewrite (proj2 (below_Some p _ m (k :: r))) by done. by rewrite decide_True.
  - destruct (below p q) as [[n [|k r]]|] eqn:B'; [done| |done]. case_decide as C; [|done]. subst. apply below_Some in B' as ->.
    rewrite (proj2 (below_Some (p ++ [m]) _ k r)) in B; [done|]. by rewrite <- (assoc_L (++)).
Qed.
(** The entry [m] and all below it are gone. *)
Lemma partial_cut T p m rest q : dot m = false -> m ∉ rest -> cut (prune (partial T p (m :: rest)) (p ++ [m])) (p ++ [m]) q = partial T p rest q.
Proof.
  intros Dm Hm. unfold cut, prune, partial. case_decide as C.
  - destruct C as [r ->]. rewrite <- (assoc_L (++)). cbn. rewrite (proj2 (below_Some p _ m r)) by done. rewrite Dm. cbn. by rewrite bool_decide_false.
  - assert (N : below (p ++ [m]) q = None).
    { destruct (below (p ++ [m]) q) as [[n r]|] eqn:B; [|done]. exfalso. apply C, prefix_below. eauto. }
    rewrite N. destruct (below p q) as [[n r]|] eqn:B; [|done]. assert (n <> m).
    { intros ->. apply C. apply below_Some in B as ->. exists r. by rewrite <- (assoc_L (++)). }
    rewrite !(bool_decide_ext (n ∈ m :: rest) (n ∈ rest)) by set_solver. done.
Qed.
Lemma prune_leaf T p m q : (forall r n, T ((p ++ [m]) ++ n :: r) = None) -> prune T (p ++ [m]) q = T q.
Proof.
  intros H. unfold prune. destruct (below (p ++ [m]) q) as [[n r]|] eqn:B; [|done]. apply below_Some in B as ->. by rewrite H; case_match.
Qed.
Lemma Kept_below h h' p m : Kept h h' (p ++ [m]) -> Kept h h' p.
Proof. intros K q B. apply K. rewrite below_assoc, B. done. Qed.
Lemma Kept_trans h h1 h2 p : Kept h h1 p -> Kept h1 h2 p -> Kept h h2 p.
Proof. intros A B q N. by rewrite B, A. Qed.

(** One step of the loop, given the removal of what is below it. *)
Lemma tr_remove_step depth h T p d m rest :
  (forall h T p d, Is h root T -> Parent root h p d -> (excused \/ Clearable T p depth) ->
     tr (eq h) (remove_directory_contents directory_size depth d) (fun _ h' => Is h' root (prune T p) /\ Kept h h' p)) ->
  Is h root (partial T p (m :: rest)) -> Parent root h p d -> dot m = false -> m ∉ rest ->
  (excused \/ Clearable T p (S depth) /\ is_Some (T (p ++ [m]))) ->
  tr (eq h)
    (do stat <- must "inspect approved recursive removal entry" (statat directory_size d m);
     do kind <- of_outcome (entry_kind stat);
     if bool_decide (kind = Directory) then
       do below <- must "open approved recursive removal directory" (open_directory d m);
       do! remove_directory_contents directory_size depth below;
       must "remove approved recursive directory" (rmdirat d m)
     else must "remove approved recursive entry" (unlinkat d m))
    (fun _ h' => Is h' root (partial T p rest) /\ Kept h h' p).
Proof.
  intros IH I P Dm Hm HE. pose proof I as (Ho & Sh & HT). pose proof P as [W [es D]]. set (T1 := partial T p (m :: rest)) in *.
  assert (Tm : forall r, T1 (p ++ m :: r) = T (p ++ m :: r)).
  { intros r. unfold T1, partial. rewrite (proj2 (below_Some p _ m r)) by done. rewrite (bool_decide_true (m ∈ _)) by set_solver. by rewrite orb_true_r. }
  assert (T1d : dotless T -> dotless T1).
  { intros Hd p' m' Dm'. unfold T1, partial. rewrite (Hd p' m' Dm'). by repeat case_match. }
  eapply tr_bind_assoc; [apply (tr_stat_kind h T1 p d m _ Dm I P)|].
  { destruct HE as [?|[C [t Ht]]]; [by left|right]. exists t. rewrite Tm. split; [done|]. intros ->. by apply (clear_kinds _ _ _ C m []). }
  intros k. apply tr_at. intros h0 (-> & t & Ht & Hk). case_bool_decide as Ek.
  - destruct Hk as [j ->]. eapply tr_bind; [apply (tr_open_directory ok ok_runs excused calm h d m _ (fun i h' => h' = h /\ Parent root h (p ++ [m]) i)); [done|done| |]|].
    + intros i es0 l St Di. split; [done|]. assert (Wi : walk (fs h) root (p ++ [m]) = Some i) by (rewrite walk_snoc, W; cbn; done).
      split; [done|]. assert (l = true) as -> by (by eapply (shaped_linked _ _ Sh)). eauto.
    + right. rewrite <- HT in Ht. destruct (look_dir _ _ _ _ Sh Ht) as (i & es0 & x & Wi & Di & _).
      exists i, es0, true. split; [|done]. rewrite walk_snoc, W in Wi. done.
    + intros i. apply tr_at. intros h0 [-> Pi]. eapply tr_bind; [apply (IH h T1 (p ++ [m]) i I Pi)|].
      { destruct HE as [?|[C _]]; [by left|right]. constructor; [apply T1d, C| |].
        - intros q. rewrite <- (assoc_L (++)). cbn. rewrite Tm. intros Hq%(clear_depth _ _ _ C (m :: q)). cbn in Hq. lia.
        - intros n q. rewrite <- (assoc_L (++)). cbn. rewrite Tm. apply (clear_kinds _ _ _ C). }
      intros []. apply tr_at. intros h1 [I1 K1]. assert (P1 : Parent root h1 p d).
      { eapply (Kept_Parent h h1); [exact I|exact I1|done|by apply (Kept_below _ _ _ m)|]. unfold prune. by rewrite below_assoc, below_irrefl. }
      eapply tr_post; [apply (tr_rmdirat h1 _ p d m _ Dm I1 P1)|].
      * destruct HE as [?|[C _]]; [by left|right]. exists j. unfold prune at 1. rewrite below_irrefl. split; [done|]. intros n. unfold prune.
        rewrite below_self. case_match eqn:Dn; [|done]. by apply T1d; [apply C|].
      * intros [] h2 [I2 K2]. split; [|eapply Kept_trans; [by apply (Kept_below _ _ _ m)|done]].
        eapply Is_ext; [exact I2|]. intros q. by apply partial_cut.
  - eapply tr_post; [apply (tr_unlinkat h T1 p d m _ Dm I P); right; by exists t|]. intros [] h1 [I1 K1]. split; [|done].
    eapply Is_ext; [exact I1|]. intros q. rewrite <- (partial_cut T p m rest q Dm Hm). unfold cut. case_decide; [done|]. symmetry. apply prune_leaf.
    intros r n. rewrite <- (Is_look root h T1 _ I). rewrite <- HT in Ht. apply look_Some in Ht as (i & x & Wi & Ex & Tx).
    eapply barren_look; [exact Wi|]. eapply barren_leaf; [exact Ex|]. intros es0 l N. apply (Hk (perm x)). rewrite <- Tx. apply tnode_dir. eauto.
Qed.
(** The names that are left to remove, which are distinct and there. *)
Definition Remaining (h : Host) (T : path -> option TNode) (p : path) (d : Z) (rest : list bytes) (h' : Host) : Prop :=
  Is h' root (partial T p rest) /\ Parent root h' p d /\ Kept h h' p /\ NoDup rest /\ Forall (fun m => is_Some (T (p ++ [m]))) rest.
Lemma partial_self T p rest : partial T p rest p = T p.
Proof. unfold partial. by rewrite below_irrefl. Qed.
Lemma tr_remove_contents depth h T p d : Is h root T -> Parent root h p d -> (excused \/ Clearable T p depth) ->
  tr (eq h) (remove_directory_contents directory_size depth d) (fun _ h' => Is h' root (prune T p) /\ Kept h h' p).
Proof.
  revert h T p d. induction depth as [|depth IH]; intros h T p d I P HE; cbn [remove_directory_contents].
  { apply tr_stop. intros ? <-. destruct HE as [?|C]; [done|]. exfalso. destruct (Parent_dir root h p d) as [m Hm]; [apply I|done|].
    rewrite (Is_look root h T p I) in Hm. pose proof (clear_depth _ _ _ C []) as L. rewrite app_nil_r, Hm in L. cbn in L. assert (0 < 0)%nat by (by apply L). lia. }
  pose proof I as (Ho & Sh & HT). pose proof P as [W [es D]].
  assert (Key : forall m, is_Some (T (p ++ [m])) <-> is_Some (es !! m)).
  { intros m. rewrite <- HT. unfold look. rewrite (walk_entry _ root p d es true m W D). destruct (es !! m) as [i|] eqn:Em; [|split; by intros [? ?]]. cbn.
    destruct (shaped_known _ _ Sh (p ++ [m]) i) as [x Ex]; [by rewrite (walk_entry _ root p d es true m W D)|]. rewrite Ex. split; by eauto. }
  eapply (tr_bind _ _ _ _ _ (fun l h' => h' = h /\ l = str "." :: str ".." :: (map_to_list es).*1)).
  { apply tr_must_pure; [done..|]. by rewrite D. }
  intros l. apply tr_at. intros h0 [-> ->]. cbn [for_each].
  eapply (tr_bind _ _ _ _ _ (fun _ => eq h)); [by apply tr_ret|]. intros []. eapply (tr_bind _ _ _ _ _ (fun _ => eq h)); [by apply tr_ret|]. intros [].
  eapply (tr_post _ _ _ _ (fun _ => Remaining h T p d [])).
  - eapply tr_pre; [apply (hoare_for_each ok (Remaining h T p d))|].
    + intros m rest. apply tr_at. intros h1 (I1 & P1 & K1 & Nd & Pr). apply NoDup_cons in Nd as [Hm Nd]. apply Forall_cons in Pr as [Hs Pr].
      destruct (dot m) eqn:Dm.
      * unfold dot in Dm. rewrite Dm. apply tr_ret. intros ? <-. split_and!; [|done..]. eapply Is_ext; [exact I1|]. intros q. unfold partial.
        destruct (below p q) as [[n r]|]; [|done]. destruct (dot n) eqn:Dn; [done|]. rewrite (bool_decide_ext (n ∈ m :: rest) (n ∈ rest)); [done|].
        assert (n <> m) by (intros ->; unfold dot in Dn; congruence). set_solver.
      * unfold dot in Dm. rewrite Dm. eapply tr_post; [apply (tr_remove_step depth h1 T p d m rest IH I1 P1 Dm Hm)|].
        -- destruct HE as [?|C]; [by left|by right].
        -- intros [] h2 [I2 K2]. split_and!; [done| |by eapply Kept_trans|done|done].
           eapply (Kept_Parent h1 h2); [exact I1|exact I2|done|done|]. by rewrite !partial_self.
    + intros ? <-. split_and!; [|done|done|apply NoDup_fst_map_to_list|].
      * eapply Is_ext; [exact I|]. intros q. unfold partial. destruct (below p q) as [[m r]|] eqn:B; [|done]. apply below_Some in B as ->.
        destruct (dot m); [done|]. cbn. case_bool_decide as C; [done|]. rewrite snoc_cons. apply (Is_closed h root); [done|].
        destruct (T (p ++ [m])) eqn:Tm; [|done]. exfalso. apply C. destruct (proj1 (Key m)) as [i Ei]; [by rewrite Tm|].
        apply list_elem_of_fmap. exists (m, i). split; [done|by apply elem_of_map_to_list].
      * apply Forall_forall. intros m ([m' i] & -> & E%elem_of_map_to_list)%list_elem_of_fmap. apply Key. cbn. eauto.
  - intros [] h' (I' & _ & K & _). split; [|done]. eapply Is_ext; [exact I'|]. intros q. unfold partial, prune. destruct (below p q) as [[m r]|]; [|done].
    rewrite (bool_decide_false (m ∈ [])) by set_solver. by rewrite orb_false_r.
Qed.

(** ** A removed path *)
Context (max_depth : nat).
Definition Removable (T : path -> option TNode) (p : path) (recursive : bool) : Prop :=
  T p <> Some TSpecial /\ (forall k, T p = Some (TDir k) -> if recursive then Clearable T p max_depth else forall n, T (p ++ [n]) = None).
Lemma cut_prune T p q : cut (prune T p) p q = cut T p q.
Proof. unfold cut, prune. case_decide as C; [done|]. destruct (below p q) as [[m r]|] eqn:B; [|done]. exfalso. apply C, prefix_below. eauto. Qed.
Lemma tr_remove_existing h T p n recursive : plain (p ++ [n]) -> Is h root T -> (excused \/ parented T p /\ Removable T (p ++ [n]) recursive) ->
  tr (eq h) (remove_existing directory_size max_depth root (p ++ [n]) recursive) (fun _ h' => Is h' root (cut T (p ++ [n]))).
Proof.
  intros Pl I HE. apply plain_snoc in Pl as [Pl Dn]. pose proof I as (Ho & Sh & HT). unfold remove_existing.
  eapply tr_bind; [apply (tr_open_parent ok ok_runs excused calm root h T p n Pl I); unfold parented in HE; tauto|].
  intros [d n']. apply tr_at. intros h0 (-> & Hn & P). cbn [fst snd] in *. subst n'. pose proof P as [W [es D]].
  assert (L : look (fs h) root (p ++ [n]) = es !! n ≫= fun i => tnode <$> inodes (fs h) !! i) by (unfold look; by rewrite (walk_entry _ root p d es true n W D)).
  rewrite HT in L. eapply tr_bind; [apply (tr_os ok ok_runs excused calm h _ (fun r h' => h' = h /\ match r with
      | inl NOENT => T (p ++ [n]) = None | inl _ => excused
      | inr s => exists i x, s = stat_of directory_size i x /\ T (p ++ [n]) = Some (tnode x) end)); [done| |done]|].
  { unfold statat, pure_call, child. rewrite D, entry_plain by done. destruct (es !! n) as [i|] eqn:En; cbn in L; [|done].
    destruct (shaped_known _ _ Sh (p ++ [n]) i) as [x Ex]; [by rewrite (walk_entry _ root p d es true n W D)|].
    rewrite Ex in L |- *. cbn in L. rewrite same_host. eauto. }
  intros [err|s]; apply tr_at; intros h0 [-> Hr].
  { destruct err; try (by apply tr_raise). apply tr_ret. intros ? <-. eapply Is_ext; [exact I|]. intros q. unfold cut. case_decide as C; [|done].
    destruct C as [r ->]. by apply (Is_closed h root). }
  destruct Hr as (i & x & -> & Tx). eapply (tr_bind _ _ _ _ _ (fun k h' => h' = h /\ (if bool_decide (k = Directory) then exists j, tnode x = TDir j else forall j, tnode x <> TDir j))).
  { apply tr_outcome. intros ? <-. unfold entry_kind, tnode in *. cbn. destruct (node x) eqn:N; cbn; try (split; [done|]; case_bool_decide; [by eauto|done]).
    destruct HE as [?|(_ & Ns & _)]; [done|]. congruence. }
  intros k. apply tr_at. intros h0 [-> Hk]. case_bool_decide as Ek.
  - destruct Hk as [j Hj]. rewrite Hj in Tx.
    eapply (tr_bind _ _ _ _ _ (fun _ h' => Is h' root (if recursive then prune T (p ++ [n]) else T) /\ Kept h h' (p ++ [n]))).
    { destruct recursive; [|apply tr_ret; by intros ? <-].
      eapply tr_bind; [apply (tr_open_directory ok ok_runs excused calm h d n _ (fun i h' => h' = h /\ Parent root h (p ++ [n]) i)); [done|done| |]|].
      - intros i' es0 l St Di. split; [done|]. assert (Wi : walk (fs h) root (p ++ [n]) = Some i') by (rewrite walk_snoc, W; cbn; done).
        split; [done|]. assert (l = true) as -> by (by eapply (shaped_linked _ _ Sh)). eauto.
      - right. rewrite <- HT in Tx. destruct (look_dir _ _ _ _ Sh Tx) as (i' & es0 & x' & Wi & Di & _).
        exists i', es0, true. split; [|done]. rewrite walk_snoc, W in Wi. done.
      - intros i'. apply tr_at. intros h0 [-> Pi]. apply tr_remove_contents; [done|done|]. destruct HE as [?|(_ & _ & R)]; [by left|right; by eapply R]. }
    intros []. apply tr_at. intros h1 [I1 K1]. assert (P1 : Parent root h1 p d).
    { eapply (Kept_Parent h h1); [exact I|exact I1|done|by apply (Kept_below _ _ _ n)|]. destruct recursive; [|done]. unfold prune. by rewrite below_assoc, below_irrefl. }
    eapply tr_post; [apply (tr_rmdirat h1 _ p d n _ Dn I1 P1)|].
    + destruct HE as [?|(_ & _ & R)]; [by left|right]. exists j. specialize (R j Tx). destruct recursive; [|by split].
      unfold prune at 1. rewrite below_irrefl. split; [done|]. intros m. unfold prune. rewrite below_self. case_match eqn:Dm; [|done]. by apply R.
    + intros [] h2 [I2 _]. eapply Is_ext; [exact I2|]. intros q. destruct recursive; [apply cut_prune|done].
  - eapply tr_post; [apply (tr_unlinkat h T p d n _ Dn I P); right; by eauto|]. intros [] h1 [I1 _]. exact I1.
Qed.
End remove.

(** * What a whole application does

    [apply_changes] takes the tree of the share to [applied]: at the path of a proposal
    is what it proposes, below a removed path there is otherwise nothing, and everything
    else is as it was.  [Coherent] is what the changes of one share satisfy when the
    check of their leases has passed, and is enough for an application without failing
    calls to succeed. *)

(** ** The tree after an application *)
Definition proposed_node (c : ValidatedChange) : option TNode :=
  match proposal c with
  | None => None
  | Some e =>
      match o_kind (entry_version e), entry_contents e with
      | Directory, _ => Some (TDir (o_mode (entry_version e)))
      | File, Some contents => Some (TFile (o_mode (entry_version e)) contents)
      | Symlink, Some target => Some (TLink target)
      | _, None => None
      end
  end.
Definition removed (cs : list ValidatedChange) (q : path) : bool :=
  existsb (fun c => is_removal c && bool_decide (names c `prefix_of` q)) cs.
Definition proposal_at (cs : list ValidatedChange) (q : path) : option TNode :=
  match List.find (fun c => bool_decide (names c = q)) cs with Some c => proposed_node c | None => None end.
Definition applied (cs : list ValidatedChange) (T : path -> option TNode) (q : path) : option TNode :=
  match proposal_at cs q with
  | Some t => Some t
  | None => if removed cs q then None else T q
  end.

(** ** Sequences of removals and writes *)
Definition removed_by (l : list ValidatedChange) (T : path -> option TNode) (q : path) : option TNode :=
  if existsb (fun c => bool_decide (names c `prefix_of` q)) l then None else T q.
Definition write_one (g : ValidatedChange -> option TNode) (T : path -> option TNode) (c : ValidatedChange) : path -> option TNode :=
  match g c with Some t => upd T (names c) (Some t) | None => T end.
Definition written g (l : list ValidatedChange) (T : path -> option TNode) : path -> option TNode := foldl (write_one g) T l.

Lemma removed_by_snoc l c T q : removed_by (l ++ [c]) T q = cut (removed_by l T) (names c) q.
Proof.
  unfold removed_by, cut. rewrite existsb_app. cbn. rewrite orb_false_r.
  case_decide as D; [rewrite (bool_decide_true _ D); by rewrite orb_true_r|rewrite (bool_decide_false _ D); by rewrite orb_false_r].
Qed.
Lemma removed_by_Some l T q : removed_by l T q <> None -> removed_by l T q = T q.
Proof. unfold removed_by. by destruct (existsb _ l). Qed.
Lemma existsb_perm {A} (p : A -> bool) l k : l ≡ₚ k -> existsb p l = existsb p k.
Proof. induction 1 as [|x l k H IH|x y l|l k m H1 IH1 H2 IH2]; cbn; [done|by rewrite IH|by destruct (p x), (p y)|congruence]. Qed.
Lemma removals_removed cs T q : removed_by (removals cs) T q = if removed cs q then None else T q.
Proof.
  unfold removed_by, removals, removed. rewrite (existsb_perm _ _ _ (sort_by_perm _ _)).
  assert (E : existsb (fun c => bool_decide (names c `prefix_of` q)) (List.filter is_removal cs)
              = existsb (fun c => is_removal c && bool_decide (names c `prefix_of` q)) cs).
  { induction cs as [|c cs IH]; [done|]. cbn. destruct (is_removal c); cbn; by rewrite IH. }
  by rewrite E.
Qed.
Lemma written_snoc g l c T : written g (l ++ [c]) T = write_one g (written g l T) c.
Proof. unfold written. by rewrite foldl_app. Qed.
Lemma written_out g l T q : (forall c, c ∈ l -> g c <> None -> names c <> q) -> written g l T q = T q.
Proof.
  induction l as [|c l IH] using rev_ind; intros H; [done|]. rewrite written_snoc. unfold write_one.
  destruct (g c) eqn:G; [rewrite upd_ne|]; [|symmetry; apply H; [set_solver|by rewrite G]..|]; (apply IH; intros c' Hc'; apply H; set_solver).
Qed.
Lemma written_in g l T c t : NoDup (map names l) -> c ∈ l -> g c = Some t -> written g l T (names c) = Some t.
Proof.
  induction l as [|c' l IH] using rev_ind; intros N Hc G; [set_solver|]. rewrite written_snoc. unfold write_one.
  rewrite map_app in N. apply NoDup_app in N as (N1 & N2 & _).
  destruct (decide (names c = names c')) as [E|Ne].
  - assert (c = c') as <-; [|by rewrite G, upd_eq]. apply elem_of_app in Hc as [Hc|Hc]; [|set_solver].
    exfalso. apply (N2 (names c)); [apply list_elem_of_fmap; eauto|set_solver].
  - assert (c ∈ l) by set_solver. destruct (g c'); [rewrite upd_ne by done|]; by apply IH.
Qed.
(** A path keeps being a directory, or becomes one. *)
Lemma written_cases g l T q : NoDup (map names l) ->
  (exists c t, c ∈ l /\ names c = q /\ g c = Some t /\ written g l T q = Some t) \/ ((forall c, c ∈ l -> g c <> None -> names c <> q) /\ written g l T q = T q).
Proof.
  intros N. destruct (decide (Exists (fun c => names c = q /\ g c <> None) l)) as [E|E].
  - left. apply Exists_exists in E as (c & Hc & <- & G). destruct (g c) as [t|] eqn:Gc; [|done]. exists c, t. split_and!; [done..|]. by apply written_in.
  - right. assert (H : forall c, c ∈ l -> g c <> None -> names c <> q).
    { intros c Hc G <-. apply E. apply Exists_exists. eauto. }
    split; [done|]. by apply written_out.
Qed.

(** ** The three loops *)
Lemma names_last c : names c <> [] -> exists p n, names c = p ++ [n].
Proof. intros H. destruct (names c) as [|n p _] using rev_ind; [done|]. eauto. Qed.
Lemma proposes_Some k c : proposes k c = true <-> exists e, proposal c = Some e /\ o_kind (entry_version e) = k.
Proof. unfold proposes. destruct (proposal c); [rewrite bool_decide_eq_true|]; naive_solver. Qed.
Definition file_node (c : ValidatedChange) : option TNode := if proposes Directory c then None else proposed_node c.

Section applying.
Context (ok : Event -> Prop) (ok_runs : ok Runs) (excused : Prop) (calm : excused \/ forall e, ok e -> e = Runs).
Context (root : Z) (directory_size : gmap bytes Z -> Z) (umask : Z) (new_v4 : nat -> bytes) (max_depth : nat).
Notation tr := (tr ok excused).
Context (cs : list ValidatedChange).
Context (nonempty : forall c, c ∈ cs -> names c <> []) (plains : forall c, c ∈ cs -> plain (names c)).

(** A loop whose steps take the tree from [F done] to [F (done ++ [c])]. *)
Lemma tr_loop (l : list ValidatedChange) (body : ValidatedChange -> op unit) (F : list ValidatedChange -> path -> option TNode) h :
  Is h root (F []) ->
  (forall done c rest h', l = done ++ c :: rest -> Is h' root (F done) -> tr (eq h') (body c) (fun _ h'' => Is h'' root (F (done ++ [c])))) ->
  tr (eq h) (for_each body l) (fun _ h' => Is h' root (F l)).
Proof.
  intros I H. set (P := fun (rest : list ValidatedChange) h' => exists done, l = done ++ rest /\ Is h' root (F done)).
  eapply (tr_post _ _ _ _ (fun _ => P [])).
  - eapply tr_pre; [apply (hoare_for_each ok P)|].
    + intros c rest. apply tr_at. intros h' (done & E & I'). eapply tr_post; [by apply (H done c rest)|].
      intros [] h'' I''. exists (done ++ [c]). split; [|done]. by rewrite <- (assoc_L (++)).
    + intros ? <-. by exists [].
  - intros [] h' (done & E & I'). rewrite app_nil_r in E. by subst.
Qed.

Lemma tr_removals h T : Is h root T ->
  (forall done c rest p n, removals cs = done ++ c :: rest -> names c = p ++ [n] ->
     excused \/ parented (removed_by done T) p /\ Removable max_depth (removed_by done T) (p ++ [n]) (removes_contents c)) ->
  tr (eq h) (for_each (fun c => remove_existing directory_size max_depth root (names c) (removes_contents c)) (removals cs))
     (fun _ h' => Is h' root (removed_by (removals cs) T)).
Proof.
  intros I HE. apply (tr_loop _ _ (fun l => removed_by l T)); [exact I|]. intros done c rest h' E I'.
  assert (c ∈ cs) as Hc.
  { assert (c ∈ removals cs) as Hc by (rewrite E; set_solver). unfold removals in Hc. rewrite sort_by_perm in Hc.
    apply list_elem_of_In, filter_In in Hc as [Hc _]. by apply list_elem_of_In. }
  destruct (names_last c (nonempty c Hc)) as (p & n & En). assert (Pl := plains c Hc). rewrite En in Pl |- *.
  eapply tr_post; [apply (tr_remove_existing ok ok_runs excused calm root directory_size max_depth h' _ p n _ Pl I'); exact (HE done c rest p n E En)|].
  intros [] h'' I''. eapply Is_ext; [exact I''|]. intros q. by rewrite removed_by_snoc, En.
Qed.
Lemma directories_elem c : c ∈ directories cs <-> c ∈ cs /\ proposes Directory c = true.
Proof. unfold directories. rewrite sort_by_perm. rewrite !list_elem_of_In, filter_In. done. Qed.
Lemma tr_directories h T : Is h root T ->
  (forall done c rest p n e, directories cs = done ++ c :: rest -> names c = p ++ [n] -> proposal c = Some e ->
     let T' := written proposed_node done T in
     excused \/ parented T' p /\ (T' (p ++ [n]) = None \/ parented T' (p ++ [n])) /\ o_mode (entry_version e) <= u32_max) ->
  tr (eq h) (for_each (write_directory umask root) (directories cs)) (fun _ h' => Is h' root (written proposed_node (directories cs) T)).
Proof.
  intros I HE. apply (tr_loop _ _ (fun l => written proposed_node l T)); [exact I|]. intros done c rest h' E I'.
  assert (c ∈ directories cs) as [Hc Pc]%directories_elem by (rewrite E; set_solver). apply proposes_Some in Pc as (e & Ep & Ek).
  destruct (names_last c (nonempty c Hc)) as (p & n & En).
  eapply tr_post; [apply (tr_write_directory ok ok_runs excused calm root umask h' _ c p n e (plains c Hc) I' En Ep); exact (HE done c rest p n e E En Ep)|].
  intros [] h'' I''. eapply Is_ext; [exact I''|]. intros q. rewrite written_snoc. unfold write_one, proposed_node. by rewrite Ep, Ek, En.
Qed.
Lemma tr_files h T : Is h root T ->
  (forall done c rest p n e, cs = done ++ c :: rest -> names c = p ++ [n] -> proposal c = Some e -> proposes Directory c = false ->
     excused \/ writable new_v4 (written file_node done T) p n e) ->
  tr (eq h) (for_each (write_entry new_v4 umask root) cs) (fun _ h' => Is h' root (written file_node cs T)).
Proof.
  intros I HE. apply (tr_loop _ _ (fun l => written file_node l T)); [exact I|]. intros done c rest h' E I'.
  assert (Hc : c ∈ cs) by (rewrite E; set_solver). unfold write_entry. rewrite written_snoc. unfold write_one, file_node, proposed_node.
  destruct (proposal c) as [e|] eqn:Ep; [|apply tr_ret; intros ? <-; by destruct (proposes Directory c)].
  destruct (names_last c (nonempty c Hc)) as (p & n & En). assert (Dc := HE done c rest p n e E En Ep). unfold proposes in *. rewrite Ep in *.
  destruct (o_kind (entry_version e)) eqn:Ek.
  - rewrite bool_decide_false in * by done. eapply tr_post; [apply (tr_write_file ok ok_runs excused calm root umask new_v4 h' _ c p n e (plains c Hc) I' En); by apply Dc|].
    intros [] h'' (contents & -> & I''). by rewrite En.
  - rewrite bool_decide_true by done. apply tr_ret. by intros ? <-.
  - rewrite bool_decide_false in * by done. eapply tr_post; [apply (tr_write_symlink ok ok_runs excused calm root new_v4 h' _ c p n e (plains c Hc) I' En); by apply Dc|].
    intros [] h'' (contents & -> & I''). by rewrite En.
Qed.

(** ** Exactness *)
Context (distinct : NoDup (map names cs)).
Lemma find_names c : c ∈ cs -> List.find (fun x => bool_decide (names x = names c)) cs = Some c.
Proof.
  clear nonempty plains. induction cs as [|c' l IH]; [set_solver|]. cbn in *. apply NoDup_cons in distinct as [N D]. intros [->|Hc]%elem_of_cons.
  - by rewrite bool_decide_true.
  - rewrite bool_decide_false; [by apply IH|]. intros E. apply N. rewrite E. apply list_elem_of_fmap. eauto.
Qed.
Lemma proposal_at_names c : c ∈ cs -> proposal_at cs (names c) = proposed_node c.
Proof. intros H. unfold proposal_at. by rewrite find_names. Qed.
Lemma file_node_Some c t : file_node c = Some t -> proposed_node c = Some t.
Proof. unfold file_node. by destruct (proposes Directory c). Qed.
Lemma directories_distinct : NoDup (map names (directories cs)).
Proof.
  assert (P : map names (directories cs) ≡ₚ map names (List.filter (proposes Directory) cs)) by (apply Permutation_map, sort_by_perm).
  rewrite P. clear P. clear nonempty plains. induction cs as [|c l IH]; [constructor|]. cbn in *. apply NoDup_cons in distinct as [N D].
  destruct (proposes Directory c); [|by apply IH]. cbn. constructor; [|by apply IH]. intros (c' & E & H)%list_elem_of_fmap. apply N.
  apply list_elem_of_In, filter_In in H as [H _]. rewrite E. apply list_elem_of_fmap. exists c'. split; [done|by apply list_elem_of_In].
Qed.
Lemma applied_eq T q : written file_node cs (written proposed_node (directories cs) (removed_by (removals cs) T)) q = applied cs T q.
Proof.
  unfold applied. destruct (written_cases file_node cs (written proposed_node (directories cs) (removed_by (removals cs) T)) q distinct) as [(c & t & Hc & <- & G & ->)|[N1 ->]].
  { rewrite proposal_at_names by done. by rewrite (file_node_Some c t G). }
  destruct (written_cases proposed_node (directories cs) (removed_by (removals cs) T) q directories_distinct) as [(c & t & [Hc _]%directories_elem & <- & G & ->)|[N2 ->]].
  { rewrite proposal_at_names by done. by rewrite G. }
  rewrite removals_removed. assert (proposal_at cs q = None) as ->; [|done]. unfold proposal_at.
  destruct (List.find _ cs) as [c|] eqn:F; [|done]. apply find_some in F as [Hc%list_elem_of_In En]. bool_prop.
  destruct (proposed_node c) eqn:Pn; [|done]. exfalso. destruct (proposes Directory c) eqn:Pd.
  - apply (N2 c); [by apply directories_elem|by rewrite Pn|done].
  - apply (N1 c); [done|unfold file_node; by rewrite Pd, Pn|done].
Qed.

(** ** Coherent changes *)
Definition tkind (t : TNode) : option EntryKind :=
  match t with TFile _ _ => Some File | TDir _ => Some Directory | TLink _ => Some Symlink | TSpecial => None end.
Definition standing (T : path -> option TNode) (p : path) : Prop :=
  p = [] \/ (exists c, c ∈ cs /\ names c = p /\ proposes Directory c = true) \/ (parented T p /\ removed cs p = false).
Record Coherent (T : path -> option TNode) : Prop := {
  co_leases : forall c, c ∈ cs -> match base c with
    | Some b => exists t, T (names c) = Some t /\ tkind t = Some (o_kind (base_version b))
    | None => T (names c) = None end;
  co_parents : forall c p n, c ∈ cs -> proposal c <> None -> names c = p ++ [n] -> standing T p;
  co_opaque : forall c, c ∈ cs -> opaque c = true -> base c <> None;
  co_changes : forall c, c ∈ cs -> base c = None -> proposal c <> None;
  co_entries : forall c e, c ∈ cs -> proposal c = Some e ->
    o_mode (entry_version e) <= u32_max /\ (o_kind (entry_version e) <> Directory -> is_Some (entry_contents e));
  co_dots : dotless T;
  co_depth : forall q, T q <> None -> (length q < max_depth)%nat;
  co_kinds : forall c m q, c ∈ cs -> is_removal c = true -> T (names c ++ m :: q) <> Some TSpecial;
  co_temporaries : no_temporaries new_v4 T;
  co_names : forall c p k, c ∈ cs -> names c <> p ++ [temporary_name (new_v4 k)]
}.
(** Entries are in directories. *)
Definition treelike (T : path -> option TNode) : Prop := parented T [] /\ forall p n, T (p ++ [n]) <> None -> parented T p.
Lemma Is_treelike h T : Is h root T -> treelike T.
Proof.
  intros (_ & Sh & HT). split.
  - destruct (shaped_root _ _ Sh) as [es D]. destruct (look_not_dir (fs h) root [] root es true Sh eq_refl D) as [m Hm]. exists m. by rewrite <- HT.
  - intros p n. rewrite <- HT. destruct (look (fs h) root (p ++ [n])) as [t|] eqn:L; [|done]. intros _. apply look_Some in L as (i & x & W & _).
    apply walk_snoc_Some in W as (j & W & (es & l & D & _)%step_directory). destruct (look_not_dir _ root p j es l Sh W D) as [m Hm]. exists m. by rewrite <- HT.
Qed.
Lemma removal_base T c : Coherent T -> c ∈ cs -> is_removal c = true -> exists b t, base c = Some b /\ T (names c) = Some t /\ tkind t = Some (o_kind (base_version b)).
Proof.
  intros Co Hc R. pose proof (co_leases T Co c Hc) as L. destruct (base c) as [b|] eqn:B; [destruct L as (t & ? & ?); eauto|]. exfalso.
  unfold is_removal in R. rewrite B in R. pose proof (co_changes T Co c Hc B). destruct (proposal c); [|done]. rewrite orb_false_r in R.
  by apply (co_opaque T Co c Hc).
Qed.
Lemma StronglySorted_before {A} (R : A -> A -> Prop) l a k b : StronglySorted R (l ++ a :: k) -> b ∈ l -> R b a.
Proof. intros S Hb. induction l as [|x l IH]; [set_solver|]. cbn in S. apply StronglySorted_inv in S as [S F]. apply elem_of_cons in Hb as [->|Hb]; [|by apply IH]. rewrite Forall_forall in F. apply F. set_solver. Qed.
Instance deeper_first_comparison : Comparison deeper_first.
Proof. split; intros; unfold deeper_first in *; bool_prop; rewrite ?bool_decide_eq_true; lia. Qed.
Instance shallower_first_comparison : Comparison shallower_first.
Proof. split; intros; unfold shallower_first in *; bool_prop; rewrite ?bool_decide_eq_true; lia. Qed.
Lemma removals_elem c : c ∈ removals cs <-> c ∈ cs /\ is_removal c = true.
Proof. unfold removals. rewrite sort_by_perm. rewrite !list_elem_of_In, filter_In. done. Qed.

(** The premises of the loops. *)
Lemma removals_ready T done c rest p n : Coherent T -> treelike T -> removals cs = done ++ c :: rest -> names c = p ++ [n] ->
  parented (removed_by done T) p /\ Removable max_depth (removed_by done T) (p ++ [n]) (removes_contents c).
Proof.
  intros Co [_ Tl] E En. assert (c ∈ removals cs) as [Hc Rc]%removals_elem by (rewrite E; set_solver).
  destruct (removal_base T c Co Hc Rc) as (b & t & Bb & Tt & Kt). rewrite En in Tt.
  assert (Keep : removed_by done T p = T p).
  { unfold removed_by. destruct (existsb _ done) eqn:X; [|done]. exfalso. apply existsb_exists in X as (r & Hr%list_elem_of_In & Pr). bool_prop.
    pose proof (sort_by_sorted deeper_first (List.filter is_removal cs)) as S. change (StronglySorted deeper_first (removals cs)) in S. rewrite E in S.
    pose proof (StronglySorted_before _ _ _ _ r S Hr) as D. apply Is_true_true in D. unfold deeper_first in D. bool_prop.
    apply prefix_length in Pr. rewrite En, length_app in D. cbn in D. lia. }
  assert (Par : parented T p) by (apply (Tl p n); by rewrite Tt).
  split; [unfold parented; by rewrite Keep|]. split.
  - intros X. rewrite removed_by_Some in X by (by rewrite X). rewrite Tt in X. by injection X as ->.
  - intros k X. rewrite removed_by_Some in X by (by rewrite X). rewrite Tt in X. injection X as ->. cbn in Kt. injection Kt as Kt.
    unfold removes_contents. rewrite Bb, <- Kt, bool_decide_true, orb_true_r by done. constructor.
    + intros p' m Dm. unfold removed_by. rewrite (co_dots T Co p' m Dm). by case_match.
    + intros q X. rewrite removed_by_Some in X by done. apply (co_depth T Co) in X. rewrite length_app in X. lia.
    + intros m q X. rewrite removed_by_Some in X by (by rewrite X). rewrite <- En in X. by apply (co_kinds T Co c m q Hc Rc).
Qed.
Notation after_removals T := (removed_by (removals cs) T).
Lemma removed_prefix c q : c ∈ cs -> is_removal c = true -> names c `prefix_of` q -> removed cs q = true.
Proof. intros Hc Rc Pq. unfold removed. apply existsb_exists. exists c. split; [by apply list_elem_of_In|]. by rewrite Rc, bool_decide_true. Qed.
(** What the entry of a proposal finds after the removals. *)
Lemma target_ready T c e : Coherent T -> c ∈ cs -> proposal c = Some e ->
  after_removals T (names c) = None \/ exists t, after_removals T (names c) = Some t /\ tkind t = Some (o_kind (entry_version e)).
Proof.
  intros Co Hc Ep. destruct (after_removals T (names c)) as [t|] eqn:X; [right|by left]. exists t. split; [done|].
  pose proof X as Y. rewrite removed_by_Some in Y by (by rewrite Y). rewrite removals_removed in X. destruct (removed cs (names c)) eqn:R; [done|].
  pose proof (co_leases T Co c Hc) as L. destruct (base c) as [b|] eqn:B; [|congruence]. destruct L as (t' & Et & Kt). rewrite Y in Et. injection Et as <-.
  rewrite Kt. destruct (decide (o_kind (base_version b) = o_kind (entry_version e))) as [->|N]; [done|]. exfalso.
  rewrite (removed_prefix c (names c)) in R; [done|done| |done]. unfold is_removal. rewrite Ep, B, bool_decide_false by done. by rewrite orb_true_r.
Qed.
(** Directories of the result stand after the removals, or are written. *)
Lemma standing_removed T p : treelike T -> standing T p -> (exists c, c ∈ cs /\ names c = p /\ proposes Directory c = true) \/ parented (after_removals T) p.
Proof.
  intros [Tr _] [->|[H|[P R]]]; [|by left|right; unfold parented; by rewrite removals_removed, R].
  right. unfold parented. rewrite removals_removed. destruct (removed cs []) eqn:R; [|done]. exfalso.
  apply existsb_exists in R as (c & Hc%list_elem_of_In & R). bool_prop. apply (nonempty c Hc). by apply prefix_nil_inv.
Qed.
Lemma written_standing T g l p : NoDup (map names l) -> (forall c t, c ∈ l -> names c = p -> g c = Some t -> exists m, t = TDir m) ->
  parented T p -> parented (written g l T) p.
Proof.
  intros N H P. destruct (written_cases g l T p N) as [(c & t & Hc & En & G & E)|[_ E]]; unfold parented; rewrite E; [|done].
  destruct (H c t Hc En G) as [m ->]. by exists m.
Qed.
Lemma directory_node_of c t : proposes Directory c = true -> proposed_node c = Some t -> exists m, t = TDir m.
Proof. intros (e & Ep & Ek)%proposes_Some. unfold proposed_node. rewrite Ep, Ek. intros [= <-]. eauto. Qed.
Lemma prefix_distinct (done : list ValidatedChange) c rest l : l = done ++ c :: rest -> NoDup (map names l) -> NoDup (map names done) /\ names c ∉ map names done.
Proof.
  intros -> N. rewrite map_app in N. apply NoDup_app in N as (N1 & N2 & N3). split; [done|]. intros X. apply (N2 _ X). cbn. set_solver.
Qed.
Lemma directories_ready T done c rest p n e : Coherent T -> treelike T ->
  directories cs = done ++ c :: rest -> names c = p ++ [n] -> proposal c = Some e ->
  let T' := written proposed_node done (after_removals T) in
  parented T' p /\ (T' (p ++ [n]) = None \/ parented T' (p ++ [n])) /\ o_mode (entry_version e) <= u32_max.
Proof.
  intros Co Tl E En Ep T'. assert (c ∈ directories cs) as [Hc Pc]%directories_elem by (rewrite E; set_solver).
  destruct (prefix_distinct done c rest _ E directories_distinct) as [Nd Nc].
  assert (Dn : forall x t, x ∈ done -> proposed_node x = Some t -> exists m, t = TDir m).
  { intros x t Hx. apply directory_node_of. assert (x ∈ directories cs) as [_ ?]%directories_elem by (rewrite E; set_solver). done. }
  split_and!; [| |by eapply (co_entries T Co c)].
  - destruct (standing_removed T p Tl) as [(c' & Hc' & Ec' & Pc')|P]; [by eapply (co_parents T Co c); [|rewrite Ep|]| |].
    + assert (c' ∈ done).
      { assert (c' ∈ directories cs) as X by (by apply directories_elem). rewrite E in X. apply elem_of_app in X as [X|X]; [done|]. exfalso.
        pose proof (sort_by_sorted shallower_first (List.filter (proposes Directory) cs)) as S. change (StronglySorted shallower_first (directories cs)) in S.
        rewrite E in S. apply elem_of_cons in X as [->|X]; [rewrite Ec' in En; by apply snoc_ne in En|].
        apply list_elem_of_split in X as (l1 & l2 & ->). rewrite app_comm_cons, (assoc_L (++)) in S.
        pose proof (StronglySorted_before _ _ _ _ c S ltac:(set_solver)) as D. apply Is_true_true in D. unfold shallower_first in D. bool_prop.
        rewrite En, Ec', length_app in D. cbn in D. lia. }
      apply proposes_Some in Pc' as (e' & Ep' & Ek'). exists (o_mode (entry_version e')). unfold T'. rewrite <- Ec'. apply written_in; [done|done|].
      unfold proposed_node. by rewrite Ep', Ek'.
    + by apply written_standing; [|intros x t Hx _; apply Dn|].
  - unfold parented, T'. rewrite <- En, written_out.
    + destruct (target_ready T c e Co Hc Ep) as [->|(t & Et & Kt)]; [by left|right]. rewrite Et.
      apply proposes_Some in Pc as (e' & Ep' & Ek'). rewrite Ep in Ep'. injection Ep' as <-. rewrite Ek' in Kt. destruct t; try done. eauto.
    + intros x Hx _ X. apply Nc. rewrite <- X. apply list_elem_of_fmap. eauto.
Qed.
Lemma files_ready T done c rest p n e : Coherent T -> treelike T ->
  cs = done ++ c :: rest -> names c = p ++ [n] -> proposal c = Some e -> proposes Directory c = false ->
  writable new_v4 (written file_node done (written proposed_node (directories cs) (after_removals T))) p n e.
Proof.
  intros Co Tl E En Ep Pd. assert (Hc : c ∈ cs) by (rewrite E; set_solver). destruct (prefix_distinct done c rest _ E distinct) as [Nd Nc].
  assert (Sub : forall x, x ∈ done -> x ∈ cs) by (intros x Hx; rewrite E; set_solver).
  assert (Same : forall x y, x ∈ cs -> y ∈ cs -> names x = names y -> x = y).
  { intros x y Hx Hy Exy. pose proof (find_names x Hx) as F. rewrite Exy, (find_names y Hy) in F. by injection F. }
  destruct (co_entries T Co c e Hc Ep) as [Hm Hcon]. split_and!; [| |done| |].
  - destruct (standing_removed T p Tl) as [(c' & Hc' & Ec' & Pc')|P]; [by eapply (co_parents T Co c); [|rewrite Ep|]| |].
    + apply written_standing; [done| |].
      * intros x t Hx Ex G. exfalso. assert (x = c') as -> by (apply Same; [by apply Sub|done|by rewrite Ex, Ec']). unfold file_node in G. by rewrite Pc' in G.
      * pose proof Pc' as (e' & Ep' & Ek')%proposes_Some. exists (o_mode (entry_version e')). rewrite <- Ec'. apply written_in; [apply directories_distinct|by apply directories_elem|].
        unfold proposed_node. by rewrite Ep', Ek'.
    + apply written_standing; [done| |].
      * intros x t Hx Ex G. exfalso. pose proof (file_node_Some x t G) as G'. assert (exists ex, proposal x = Some ex) as [ex Eex] by (unfold proposed_node in G'; destruct (proposal x); [eauto|done]).
        destruct P as [m Hm']. destruct (target_ready T x ex Co (Sub x Hx) Eex) as [N|(t' & Et & Kt)]; rewrite Ex in *; [congruence|].
        rewrite Hm' in Et. injection Et as <-. cbn in Kt. injection Kt as Kt. unfold file_node, proposes in G. by rewrite Eex, <- Kt, bool_decide_true in G.
      * apply written_standing; [apply directories_distinct| |done]. intros x t [_ Px]%directories_elem _. by apply directory_node_of.
  - intros m. rewrite <- En, !written_out.
    + destruct (target_ready T c e Co Hc Ep) as [->|(t & -> & Kt)]; [done|]. intros [= ->]. cbn in Kt. injection Kt as Kt.
      unfold proposes in Pd. by rewrite Ep, <- Kt, bool_decide_true in Pd.
    + intros x [Hx Px]%directories_elem _ X. by rewrite (Same x c Hx Hc X), Pd in Px.
    + intros x Hx _ X. apply Nc. rewrite <- X. apply list_elem_of_fmap. eauto.
  - apply Hcon. intros K. unfold proposes in Pd. by rewrite Ep, K, bool_decide_true in Pd.
  - intros p' k. rewrite !written_out; [unfold removed_by; rewrite (co_temporaries T Co p' k); by case_match|..].
    + intros x [Hx _]%directories_elem _. by apply (co_names T Co).
    + intros x Hx _. by apply (co_names T Co), Sub.
Qed.

Theorem tr_apply h T : Is h root T -> (excused \/ Coherent T) ->
  tr (eq h) (apply_changes new_v4 umask directory_size max_depth root cs) (fun _ h' => Is h' root (applied cs T)).
Proof.
  intros I HE. pose proof (Is_treelike h T I) as Tl. pose proof I as (Ho & Sh & _). unfold apply_changes.
  eapply tr_bind; [by apply tr_duplicate_root; [..|apply Sh]|]. intros r. apply tr_at. intros h0 [-> ->].
  eapply tr_bind; [apply (tr_removals h T I)|].
  { intros done c rest p n E En. destruct HE as [?|Co]; [by left|right]. by eapply removals_ready. }
  intros []. apply tr_at. intros h1 I1. eapply tr_bind; [apply (tr_directories h1 _ I1)|].
  { intros done c rest p n e E En Ep T'. destruct HE as [?|Co]; [by left|right]. by eapply directories_ready. }
  intros []. apply tr_at. intros h2 I2. eapply tr_post; [apply (tr_files h2 _ I2)|].
  { intros done c rest p n e E En Ep Pd. destruct HE as [?|Co]; [by left|right]. by eapply files_ready. }
  intros [] h3 I3. eapply Is_ext; [exact I3|]. intros q. apply applied_eq.
Qed.
End applying.
