(* ===== verification/OverlayLeases.v ===== *)
(** * The check of the leases

    What [current_entry] and [conflicts] return on a share that no other process uses,
    as functions of the file systems: every change is compared with what is at its path,
    and nothing is changed. *)

From S2P Require Import Prelude Lists ShareTypes Outage OverlayTypes OverlayHost OverlayTree OverlayExact.

Section leases.
Context (sha256 : bytes -> bytes) (unified_diff : bytes -> bytes -> bytes) (directory_size : gmap bytes Z -> Z) (max_reads : nat).

(** ** The entry of a path *)
Fixpoint current_dir (f : Fs) (d : Z) (walked names : path) : path + Z :=
  match names with
  | [] => inr d
  | n :: rest =>
      match child f d n with
      | inr (i, x) => match node x with DirectoryNode _ _ => current_dir f i (walked ++ [n]) rest | _ => inl (walked ++ [n]) end
      | inl _ => inl (walked ++ [n])
      end
  end.
Definition bounded (c : bytes) : option bytes := if len c <=? MAX_TEXT_DIFF_BYTES then Some c else None.
Definition entry_at (x : Inode) (k : EntryKind) (size : Z) (contents : option bytes) : CurrentEntryLookup :=
  Entry (Some {|
    cur_version := {| o_kind := k; o_size := size; o_mode := Z.land (perm x) 4095; o_digest := hex_digest sha256 <$> contents |};
    cur_modified_seconds := (mtime x).1; cur_modified_nanoseconds := (mtime x).2;
    cur_changed_seconds := (ctime x).1; cur_changed_nanoseconds := (ctime x).2; cur_contents := contents ≫= bounded |}).
Definition entry_of (x : Inode) : CurrentEntryLookup :=
  match node x with
  | RegularFile c => entry_at x File (len c) (Some c)
  | DirectoryNode es _ => entry_at x Directory (directory_size es) None
  | SymbolicLink t => entry_at x Symlink (len t) (Some t)
  | Special => Unsupported
  end.
Definition current_of (f : Fs) (root : Z) (p : path) : CurrentEntryLookup :=
  match last p with
  | None => Unsupported
  | Some n =>
      match current_dir f root [] (removelast p) with
      | inl blocked => BlockedParent blocked
      | inr d => match child f d n with inr (_, x) => entry_of x | inl _ => Entry None end
      end
  end.
(** The conflicts of a snapshot. *)
Definition lease_conflicts (f : Fs) (root : Z) (s : ValidatedSnapshot) : list ShareOverlayConflict :=
  omap (fun c => verdict unified_diff (map joined (List.filter (proposes Directory) (changes s))) c (current_of f root (names c))) (changes s).

(** What reading an inode needs: times and sizes in the ranges of their types, and files
    that [max_reads] reads reach the end of. *)
Definition readable (x : Inode) : Prop :=
  fits u32_max (mtime x).2 = true /\ fits u32_max (ctime x).2 = true
  /\ match node x with
     | RegularFile c => fits u64_max (len c) = true /\ len c + READ_BYTES <= READ_BYTES * Z.of_nat max_reads
     | DirectoryNode es _ => fits u64_max (directory_size es) = true
     | SymbolicLink t => fits u64_max (len t) = true
     | Special => True
     end.

Context (ok : Event -> Prop) (ok_runs : ok Runs) (excused : Prop) (calm : excused \/ forall e, ok e -> e = Runs).
Notation tr := (tr ok excused).

Lemma fingerprint_refl m : same_stat_fingerprint m m = true.
Proof. unfold same_stat_fingerprint. rewrite !Z.eqb_refl, bool_decide_true by done. done. Qed.
Lemma tr_path_matches h d n i x o : others h = [] -> child (fs h) d n = inr (i, x) ->
  tr (eq h) (current_path_matches directory_size d n (stat_of directory_size i x) o) (fun b h' => h' = h /\ b = true).
Proof.
  intros Ho C. eapply tr_bind; [apply (tr_os ok ok_runs excused calm h _ (fun r h' => h' = h /\ match r with inr s => s = stat_of directory_size i x | inl e => e = EIO /\ excused end)); [done| |done]|].
  - unfold statat, pure_call. rewrite C. by rewrite same_host.
  - intros [e|s]; apply tr_at; intros h0 [-> H]; [destruct H as [-> ?]; by apply tr_raise|]. subst. apply tr_ret. intros ? <-. by rewrite fingerprint_refl.
Qed.
(** [hashed] is what was read of [c]; what is retained is the same until it is too long. *)
Lemma tr_read_file fuel h i x c hashed retained rest : others h = [] -> inodes (fs h) !! i = Some x -> node x = RegularFile c ->
  c = hashed ++ rest -> (retained = hashed \/ MAX_TEXT_DIFF_BYTES < len retained /\ MAX_TEXT_DIFF_BYTES < len hashed) ->
  (excused \/ len rest + READ_BYTES <= READ_BYTES * Z.of_nat fuel) ->
  tr (eq h) (read_file fuel i hashed retained) (fun r h' => h' = h /\ r.1 = c /\ (if len r.2 <=? MAX_TEXT_DIFF_BYTES then Some r.2 else None) = bounded c).
Proof.
  intros Ho Ex Nx. revert hashed retained rest. induction fuel as [|fuel IH]; intros hashed retained rest Hc Hr HE; cbn [read_file].
  { apply tr_stop. intros ? <-. destruct HE as [?|L]; [done|]. unfold READ_BYTES in L. pose proof (len_nonneg rest). lia. }
  set (chunk := takez READ_BYTES (dropz (len hashed) c)). assert (Ec : dropz (len hashed) c = rest) by (subst c; by apply dropz_app_len).
  eapply (tr_bind _ _ _ _ _ (fun b h' => h' = h /\ b = chunk)).
  { apply tr_must_pure; [done..|]. by rewrite Ex, Nx. }
  intros b. apply tr_at. intros h0 [-> ->]. case_bool_decide as Ch.
  - apply tr_ret. intros ? <-. unfold chunk in Ch. rewrite Ec in Ch. assert (rest = []) as ->.
    { apply (f_equal len) in Ch. rewrite len_takez in Ch by (by unfold READ_BYTES). apply len_0. rewrite len_nil in Ch. unfold READ_BYTES in Ch. pose proof (len_nonneg rest). lia. }
    rewrite app_nil_r in Hc. split_and!; [done|done|]. unfold bounded. cbn [snd]. destruct Hr as [->|[H1 H2]]; [by subst|].
    rewrite (proj2 (Z.leb_gt _ _)) by lia. rewrite (proj2 (Z.leb_gt _ _)) by (by subst). done.
  - eapply IH with (rest := dropz READ_BYTES rest).
    + subst c. rewrite <- (assoc_L (++)). f_equal. unfold chunk. rewrite Ec. by rewrite takez_dropz.
    + pose proof (len_nonneg chunk). destruct (Z.leb_spec (len retained) MAX_TEXT_DIFF_BYTES) as [L|L].
      * destruct Hr as [->|[H1 H2]]; [by left|lia].
      * right. split; [done|]. rewrite len_app. destruct Hr as [->|[H1 H2]]; lia.
    + destruct HE as [?|L]; [by left|right]. rewrite len_dropz by (by unfold READ_BYTES). pose proof (len_nonneg rest).
      destruct (decide (rest = [])) as [->|N]; [exfalso; apply Ch; unfold chunk; by rewrite Ec|]. assert (0 < len rest) by (destruct rest; [done|]; rewrite len_cons; pose proof (len_nonneg rest); lia).
      unfold READ_BYTES in *. lia.
Qed.
Lemma tr_contents h d n i x k : others h = [] -> child (fs h) d n = inr (i, x) -> inodes (fs h) !! i = Some x ->
  entry_kind (stat_of directory_size i x) = Ok k -> (excused \/ readable x) ->
  tr (eq h) (current_contents sha256 directory_size max_reads d n (stat_of directory_size i x) k)
    (fun r h' => h' = h /\ exists content, r = Stable (hex_digest sha256 <$> content) (content ≫= bounded)
       /\ content = match node x with RegularFile c => Some c | SymbolicLink t => Some t | _ => None end).
Proof.
  intros Ho C Ex K HE. unfold entry_kind in K. cbn in K. destruct (node x) as [c|es l|t|] eqn:Nx; [injection K as <-..|done]; cbn [current_contents].
  - unfold current_file_contents, open_file, fstat. eapply (tr_bind _ _ _ _ _ (fun j h' => h' = h /\ j = i)).
    { apply tr_must_pure; [done..|]. by rewrite C, Nx. }
    intros j. apply tr_at. intros h0 [-> ->]. eapply (tr_bind _ _ _ _ _ (fun s h' => h' = h /\ s = stat_of directory_size i x)).
    { apply tr_must_pure; [done..|]. by rewrite Ex. }
    intros s. apply tr_at. intros h0 [-> ->]. rewrite fingerprint_refl. cbn [negb].
    eapply tr_bind; [apply (tr_read_file max_reads h i x c [] [] c Ho Ex Nx eq_refl); [by left|]|].
    { destruct HE as [?|(_ & _ & R)]; [by left|right]. rewrite Nx in R. apply R. }
    intros [hashed retained]. apply tr_at. intros h0 (-> & E1 & E2). cbn [fst snd] in *. subst hashed.
    eapply (tr_bind _ _ _ _ _ (fun s h' => h' = h /\ s = stat_of directory_size i x)).
    { apply tr_must_pure; [done..|]. by rewrite Ex. }
    intros s. apply tr_at. intros h0 [-> ->]. rewrite fingerprint_refl. eapply tr_bind; [by apply (tr_path_matches h d n i x)|].
    intros b. apply tr_at. intros h0 [-> ->]. cbn [negb]. apply tr_ret. intros ? <-. split; [done|]. exists (Some c). split; [|done]. cbn. by rewrite E2.
  - eapply tr_bind; [by apply (tr_path_matches h d n i x)|]. intros b. apply tr_ret. intros h0 [-> ->]. split; [done|]. by exists None.
  - unfold current_symlink_contents, readlinkat. eapply (tr_bind _ _ _ _ _ (fun b h' => h' = h /\ b = t)).
    { apply tr_must_pure; [done..|]. by rewrite C, Nx. }
    intros b. apply tr_at. intros h0 [-> ->]. eapply tr_bind; [by apply (tr_path_matches h d n i x)|].
    intros b. apply tr_at. intros h0 [-> ->]. cbn [negb]. apply tr_ret. intros ? <-. split; [done|]. by exists (Some t).
Qed.
Lemma tr_unsigned P m v msg : (excused \/ fits m v = true) -> tr P (of_outcome (unsigned m v msg)) (fun r h => P h /\ r = v).
Proof. intros HE. apply tr_outcome. intros h HP. unfold unsigned. destruct (fits m v); [done|]. by destruct HE. Qed.

(** ** Lookup *)
Context (root : Z).
Lemma child_cases h T p d n : dot n = false -> Is h root T -> Parent root h p d ->
  (exists i x, child (fs h) d n = inr (i, x) /\ inodes (fs h) !! i = Some x /\ walk (fs h) root (p ++ [n]) = Some i)
  \/ (child (fs h) d n = inl NOENT /\ walk (fs h) root (p ++ [n]) = None).
Proof.
  intros Dn (Ho & Sh & HT) [W [es D]]. pose proof (walk_entry _ root p d es true n W D) as Wn. unfold child. rewrite D, entry_plain by done.
  destruct (es !! n) as [i|]; [left|by right]. destruct (shaped_known _ _ Sh _ _ Wn) as [x Ex]. exists i, x. by rewrite Ex.
Qed.
Lemma Parent_child h T p n i x es l : Is h root T -> walk (fs h) root (p ++ [n]) = Some i -> inodes (fs h) !! i = Some x -> node x = DirectoryNode es l -> Parent root h (p ++ [n]) i.
Proof.
  intros (Ho & Sh & HT) W Ex Nx. split; [done|]. assert (D : directory (fs h) i = inr (es, l)) by (apply directory_inr; eauto).
  assert (l = true) as -> by (by eapply (shaped_linked _ _ Sh)). eauto.
Qed.
Lemma tr_current_directory h T p d q : plain q -> Is h root T -> Parent root h p d ->
  tr (eq h) (current_directory d p q) (fun r h' => h' = h /\ r = current_dir (fs h) d p q /\ match r with inr d' => Parent root h (p ++ q) d' | inl _ => True end).
Proof.
  intros Pl I. revert p d. induction Pl as [|n q Dn Pl IH]; intros p d P; cbn [current_directory current_dir].
  { apply tr_ret. intros ? <-. by rewrite app_nil_r. }
  pose proof I as (Ho & Sh & HT).
  eapply tr_bind; [apply (tr_os ok ok_runs excused calm h _ (fun r h' => h' = h /\ match r with
      | inr i => exists x es l, child (fs h) d n = inr (i, x) /\ node x = DirectoryNode es l /\ Parent root h (p ++ [n]) i
      | inl EIO => excused
      | inl e => (e = NOENT \/ e = NOTDIR) /\ match child (fs h) d n with inr (_, x) => forall es l, node x <> DirectoryNode es l | inl _ => True end
      end)); [done| |done]|].
  { unfold open_directory, pure_call. destruct (child_cases h T p d n Dn I P) as [(i & x & C & Ex & W)|[C _]]; rewrite C; [|split; [done|]; auto].
    destruct (node x) as [|es l| |] eqn:Nx; [split; [done|]; split; [by right|congruence]| |split; [done|]; split; [by right|congruence]..].
    rewrite same_host. split; [done|]. exists x, es, l. split_and!; [done|done|]. by eapply (Parent_child h T). }
  intros [e|i]; apply tr_at; intros h0 [-> Hr].
  - destruct e; try (by destruct Hr as [[?|?] _]); try (by apply tr_raise).
    + apply tr_ret. intros ? <-. destruct Hr as [_ Hr]. destruct (child (fs h) d n) as [|[j x]]; [done|]. by destruct (node x) eqn:?; [|destruct (Hr entries linked)|..].
    + apply tr_ret. intros ? <-. destruct Hr as [_ Hr]. destruct (child (fs h) d n) as [|[j x]]; [done|]. by destruct (node x) eqn:?; [|destruct (Hr entries linked)|..].
  - destruct Hr as (x & es & l & C & Nx & Pi). rewrite C, Nx. eapply tr_post; [by apply IH|]. intros r h' (-> & -> & Hr). split_and!; [done|done|].
    destruct (current_dir _ _ _ _); [done|]. by rewrite snoc_cons.
Qed.
Lemma tr_current_entry h T p n : plain (p ++ [n]) -> Is h root T -> (excused \/ forall q i x, walk (fs h) root q = Some i -> inodes (fs h) !! i = Some x -> readable x) ->
  tr (eq h) (current_entry sha256 directory_size max_reads root (p ++ [n])) (fun l h' => h' = h /\ l = current_of (fs h) root (p ++ [n])).
Proof.
  intros [Pl Dn]%plain_snoc I HE. pose proof I as (Ho & Sh & HT). unfold current_entry, current_parent, current_of. rewrite last_snoc, removelast_last.
  eapply (tr_bind _ _ _ _ _ (fun r h' => h' = h /\ match current_dir (fs h) root [] p with inl b => r = inl b | inr d => r = inr (d, n) /\ Parent root h p d end)).
  { eapply (tr_bind _ _ _ _ _ (fun x h' => h' = h /\ x = (p, n))). { apply tr_outcome. intros ? <-. by rewrite split_last_snoc. }
    intros [p' n']. apply tr_at. intros h0 [-> [= -> ->]]. eapply tr_bind; [by apply tr_duplicate_root; [..|apply Sh]|].
    intros r. apply tr_at. intros h0 [-> ->].
    assert (Pr : Parent root h [] root) by (split; [done|apply Sh]).
    eapply tr_bind; [apply (tr_current_directory h T [] root p Pl I Pr)|]. intros r. cbn [app]. destruct r as [b|d]; apply tr_ret; intros h0 (-> & E & Hp); by rewrite <- E. }
  intros r. apply tr_at. intros h0 [-> Hr]. destruct (current_dir (fs h) root [] p) as [b|d]; [subst r; by apply tr_ret; intros ? <-|].
  destruct Hr as [-> P]. eapply tr_bind; [apply (tr_os ok ok_runs excused calm h _ (fun r h' => h' = h /\ match r with
      | inr s => exists i x, child (fs h) d n = inr (i, x) /\ inodes (fs h) !! i = Some x /\ walk (fs h) root (p ++ [n]) = Some i /\ s = stat_of directory_size i x
      | inl NOENT => child (fs h) d n = inl NOENT | inl _ => excused end)); [done| |done]|].
  { unfold statat, pure_call. destruct (child_cases h T p d n Dn I P) as [(i & x & C & Ex & W)|[C _]]; rewrite C; [|done]. rewrite same_host. split; [done|]. by exists i, x. }
  intros [e|s]; apply tr_at; intros h0 [-> Hr].
  { destruct e; try (by apply tr_raise). rewrite Hr. apply tr_ret. by intros ? <-. }
  destruct Hr as (i & x & C & Ex & W & ->). rewrite C. assert (HE' : excused \/ readable x) by (destruct HE as [?|R]; [by left|right; by eapply R]).
  destruct (entry_kind (stat_of directory_size i x)) as [k| |] eqn:K.
  - eapply tr_bind; [by apply (tr_contents h d n i x k)|]. intros r. apply tr_at. intros h0 (-> & content & -> & Hc).
    eapply tr_bind; [apply tr_unsigned; destruct HE' as [?|(? & _)]; [by left|by right]|]. intros mn. apply tr_at. intros h0 [<- ->].
    eapply tr_bind; [apply tr_unsigned; destruct HE' as [?|(_ & ? & _)]; [by left|by right]|]. intros cn. apply tr_at. intros h0 [<- ->].
    eapply tr_bind; [apply tr_unsigned|].
    { destruct HE' as [?|(_ & _ & R)]; [by left|right]. cbn. unfold entry_kind in K. cbn in K. destruct (node x); [apply R|done..]. }
    intros sz. apply tr_ret. intros h0 [<- ->]. split; [done|]. unfold entry_of. subst content. unfold entry_kind in K. cbn in K |- *. by destruct (node x); simplify_eq.
  - apply tr_ret. intros ? <-. split; [done|]. unfold entry_of. unfold entry_kind in K. cbn in K. by destruct (node x).
  - unfold entry_kind in K. cbn in K. by destruct (node x).
Qed.
Lemma tr_conflicts h T s : Is h root T -> (forall c, c ∈ changes s -> names c <> []) -> (forall c, c ∈ changes s -> plain (names c)) ->
  (excused \/ forall q i x, walk (fs h) root q = Some i -> inodes (fs h) !! i = Some x -> readable x) ->
  tr (eq h) (conflicts sha256 unified_diff directory_size max_reads root s) (fun l h' => h' = h /\ l = lease_conflicts (fs h) root s).
Proof.
  intros I Ne Pl HE. pose proof I as (Ho & Sh & HT). unfold conflicts, lease_conflicts.
  eapply tr_bind; [by apply tr_duplicate_root; [..|apply Sh]|]. intros r. apply tr_at. intros h0 [-> ->].
  generalize (map joined (List.filter (proposes Directory) (changes s))). intros ds.
  induction (changes s) as [|c cs IH]; cbn [conflicts_loop]; [by apply tr_ret; intros ? <-|].
  destruct (names_last c) as (p & n & En); [apply Ne; set_solver|]. assert (Pc : plain (names c)) by (apply Pl; set_solver). rewrite En in Pc |- *.
  eapply tr_bind; [by apply (tr_current_entry h T p n)|]. intros l. apply tr_at. intros h0 [-> ->].
  eapply tr_bind; [apply IH; intros c' Hc'; [apply Ne|apply Pl]; set_solver|]. intros more. apply tr_ret. intros h0 [-> ->]. split; [done|].
  cbn [omap list_omap]. rewrite En. by destruct (verdict _ _ _ _).
Qed.

(** ** Leases that hold *)
Lemma current_dir_blocked f d walked q b : plain q -> current_dir f d walked q = inl b -> forall i es l, walk f d q = Some i -> directory f i = inr (es, l) -> False.
Proof.
  intros Pl. revert d walked. induction Pl as [|n q Dn Pl IH]; intros d walked; cbn [current_dir]; [done|]. intros H i es l W D. cbn in W.
  apply bind_Some in W as (j & (es0 & l0 & D0 & E0)%step_directory & W). unfold child in H. rewrite D0, entry_plain, E0 in H by done.
  assert (exists es1 l1, directory f j = inr (es1, l1)) as (es1 & l1 & (x & Ex & Nx)%directory_inr).
  { destruct q as [|m q]; [injection W as ->; eauto|]. cbn in W. apply bind_Some in W as (k & (es1 & l1 & D1 & _)%step_directory & _). eauto. }
  rewrite Ex, Nx in H. by eapply IH.
Qed.
Lemma current_dir_walk f d walked q d' : plain q -> current_dir f d walked q = inr d' -> walk f d q = Some d'.
Proof.
  intros Pl. revert d walked. induction Pl as [|n q Dn Pl IH]; intros d walked; cbn [current_dir walk]; [congruence|]. unfold child, step.
  destruct (directory f d) as [|[es l]]; [done|]. rewrite entry_plain by done. destruct (es !! n) as [i|]; [|done]. destruct (inodes f !! i) as [x|]; [|done].
  destruct (node x); [done| |done..]. cbn. apply IH.
Qed.
Lemma matches_kind b e : matches_base b e = true -> o_kind (base_version b) = o_kind (cur_version e).
Proof.
  unfold matches_base. destruct (_ && _) eqn:X; [intros _; by bool_prop|]. intros H. bool_prop. by f_equal.
Qed.
(** A change without conflict: what was captured is there, with its kind. *)
Lemma lease_holds f ds c p n : plain (p ++ [n]) -> Shaped f root -> names c = p ++ [n] -> verdict unified_diff ds c (current_of f root (p ++ [n])) = None ->
  match base c with
  | Some b => exists t, look f root (names c) = Some t /\ tkind t = Some (o_kind (base_version b))
  | None => look f root (names c) = None
  end.
Proof.
  intros [Pl Dn]%plain_snoc Sh En. rewrite En. unfold current_of. rewrite last_snoc, removelast_last. destruct (current_dir f root [] p) as [blocked|d] eqn:Cd.
  - cbn [verdict]. case_bool_decide; [|done]. unfold judge. destruct (base c) as [b|]; cbn; [done|]. intros _.
    destruct (look f root (p ++ [n])) as [t|] eqn:L; [|done]. exfalso. apply look_Some in L as (i & x & W & _).
    apply walk_snoc_Some in W as (j & W & (es & l & D & _)%step_directory). by eapply current_dir_blocked.
  - apply current_dir_walk in Cd; [|done]. assert (L : look f root (p ++ [n]) = match child f d n with inr (_, x) => Some (tnode x) | inl _ => None end).
    { unfold look. rewrite walk_snoc, Cd. cbn. unfold step, child. destruct (directory f d) as [|[es l]]; [done|]. rewrite entry_plain by done. destruct (es !! n) as [i|]; [|done]. cbn.
      by destruct (inodes f !! i). }
    rewrite L. destruct (child f d n) as [e|[i x]].
    + cbn [verdict]. unfold judge. by destruct (base c).
    + unfold entry_of, entry_at, tnode. destruct (node x); cbn [verdict]; [unfold judge..|done]; (destruct (base c) as [b|]; cbn [matched]; [|done]);
        (destruct (matches_base b _) eqn:M; [|done]); intros _; apply matches_kind in M; cbn in M; rewrite M; by eexists.
Qed.
End leases.

(** ** A whole application *)
Section application.
Context (decode : bytes -> option bytes) (sha256 : bytes -> bytes) (to_json : list ShareOverlayChange -> option bytes)
        (new_v4 : nat -> bytes) (unified_diff : bytes -> bytes -> bytes) (umask : Z) (directory_size : gmap bytes Z -> Z) (max_reads max_depth : nat).

(** When an application is bound to succeed unless a call fails: the host reports times
    and sizes in their ranges and has no files beyond [max_reads], no paths beyond
    [max_depth] and nothing but files, directories and links below a path to remove; every
    proposal has a directory to be put in, there already or proposed; what hides the
    contents of a directory replaces one; temporary names are not in use. *)
Record Applicable (f : Fs) (root : Z) (cs : list ValidatedChange) : Prop := {
  ap_readable : forall q i x, walk f root q = Some i -> inodes f !! i = Some x -> readable directory_size max_reads x;
  ap_parents : forall c p n, c ∈ cs -> proposal c <> None -> names c = p ++ [n] -> standing cs (look f root) p;
  ap_opaque : forall c, c ∈ cs -> opaque c = true -> base c <> None;
  ap_dots : dotless (look f root);
  ap_depth : forall q, look f root q <> None -> (length q < max_depth)%nat;
  ap_kinds : forall c m q, c ∈ cs -> is_removal c = true -> look f root (names c ++ m :: q) <> Some TSpecial;
  ap_temporaries : no_temporaries new_v4 (look f root);
  ap_names : forall c p k, c ∈ cs -> names c <> p ++ [temporary_name (new_v4 k)]
}.
(** Modes are 32-bit. *)
Definition typed (w : ShareOverlaySnapshot) : Prop :=
  forall c e, c ∈ wire_changes w -> wire_proposed c = Some e -> o_mode (wire_version e) <= u32_max.

Lemma sound_plain w0 c : Sound decode sha256 w0 c -> plain (names c).
Proof.
  intros S. destruct (sound_path _ _ _ _ S) as (_ & F & _). eapply Forall_impl; [exact F|]. intros n (_ & A & B & _). unfold dot.
  by rewrite !bool_decide_false.
Qed.
Lemma valid_plain w v c : Validated decode sha256 to_json w v -> c ∈ changes v -> plain (names c).
Proof.
  intros V [i Hi]%list_elem_of_lookup. destruct (Forall2_lookup_r _ _ _ _ _ (valid_changes _ _ _ _ _ V) Hi) as (w0 & _ & S). by eapply sound_plain.
Qed.
Lemma Applicable_Coherent w v f root : Validated decode sha256 to_json w v -> typed w -> Shaped f root -> Applicable f root (changes v) ->
  lease_conflicts sha256 unified_diff directory_size f root v = [] -> Coherent new_v4 max_depth (changes v) (look f root).
Proof.
  intros V Ty Sh A L. assert (So : forall c, c ∈ changes v -> exists w0, w0 ∈ wire_changes w /\ Sound decode sha256 w0 c).
  { intros c Hc. apply list_elem_of_lookup in Hc as [i Hi]. destruct (Forall2_lookup_r _ _ _ _ _ (valid_changes _ _ _ _ _ V) Hi) as (w0 & Hw & S).
    exists w0. split; [by eapply list_elem_of_lookup_2|done]. }
  constructor; try apply A.
  - intros c Hc. destruct (So c Hc) as (w0 & _ & S). destruct (names_last c) as (p & n & En); [apply (sound_path _ _ _ _ S)|].
    unfold lease_conflicts in L. set (ds := map joined (List.filter (proposes Directory) (changes v))) in L.
    apply (lease_holds sha256 unified_diff directory_size root f ds c p n ltac:(rewrite <- En; by eapply sound_plain) Sh En).
    destruct (verdict unified_diff ds c (current_of sha256 directory_size f root (p ++ [n]))) as [x|] eqn:X; [|done]. exfalso.
    assert (x ∈ @nil ShareOverlayConflict) as Hx; [|set_solver]. rewrite <- L. apply list_elem_of_omap. exists c. split; [done|]. by rewrite En.
  - intros c Hc. destruct (So c Hc) as (w0 & _ & S). apply (sound_either _ _ _ _ S).
  - intros c e Hc Ep. destruct (So c Hc) as (w0 & Hw & S). pose proof (sound_proposal _ _ _ _ S) as P. rewrite Ep in P.
    destruct (wire_proposed w0) as [x|] eqn:Wx; [|done]. destruct P as (Se & Ev & _). split; [rewrite Ev; by eapply Ty|].
    intros K. pose proof (sound_contents _ _ Se) as C. destruct (o_kind (entry_version e)); [|done|]; destruct C as (b & -> & _); eauto.
Qed.
Lemma valid_names w v c : Validated decode sha256 to_json w v -> c ∈ changes v -> names c <> [].
Proof.
  intros V [i Hi]%list_elem_of_lookup. destruct (Forall2_lookup_r _ _ _ _ _ (valid_changes _ _ _ _ _ V) Hi) as (w0 & _ & S). apply S.
Qed.
Lemma tr_validate_and_apply ok (Hok : ok Runs) excused (Calm : excused \/ forall e, ok e -> e = Runs) w v h root :
  Validated decode sha256 to_json w v -> typed w -> Is h root (look (fs h) root) -> (excused \/ Applicable (fs h) root (changes v)) ->
  let found := lease_conflicts sha256 unified_diff directory_size (fs h) root v in
  tr ok excused (eq h) (validate_and_apply sha256 new_v4 unified_diff umask directory_size max_reads max_depth root v) (fun r h' =>
    match r with
    | Applied => found = [] /\ Is h' root (applied (changes v) (look (fs h) root))
    | Conflicts l => l = found /\ found <> [] /\ h' = h
    end).
Proof.
  intros V Ty I HE found. unfold validate_and_apply.
  eapply tr_bind; [apply (tr_conflicts sha256 unified_diff directory_size max_reads ok Hok excused Calm root h _ v I (fun c => valid_names w v c V) (fun c => valid_plain w v c V))|].
  - destruct HE as [?|A]; [by left|right]. apply A.
  - intros l. apply tr_at. intros h0 [-> El]. change (l = found) in El. destruct l as [|x l].
    + eapply (tr_bind _ _ _ _ _ (fun _ h' => Is h' root (applied (changes v) (look (fs h) root)))).
      * apply tr_apply; [done|done|intros c; by apply (valid_names w v)|intros c; by apply (valid_plain w v)|apply V|done|]. destruct HE as [?|A]; [by left|right]. eapply Applicable_Coherent; try done. apply I.
      * intros []. by apply tr_ret.
    + apply tr_ret. intros ? <-. by rewrite <- El.
Qed.
End application.
