(* ===== verification/OverlayApprovals.v ===== *)
(** * What the guest is told, and what stays pending

    Triples for the service of [OverlayService] under any failures: the guest is told
    that a revision was applied only when it was, and pending approvals in memory agree
    with the records on disk. *)

From S2P Require Import Prelude Lists RepoStore ShareTypes Outage OverlayTypes OverlayHost OverlayService OverlayTree OverlayExact OverlayLeases.

(** ** Programs of the service *)
Lemma ends_on_host {A} w (m : op A) (R : World -> Prop) : (forall h, R (w <| host := h |>)) ->
  ends w (on_host m) (fun a w' => exists evs m', m {| disk := host w; events := evs |} = (Ok a, m') /\ w' = w <| host := disk m' |>) R.
Proof.
  intros HR w0 F E. cbn in E. subst w. unfold on_host. destruct (m _) as [r m'] eqn:X. cbn. split; [by apply Forall_forall|].
  destruct r; [by exists (events w0), m'|done|done].
Qed.

(** ** Telling the guest *)
Section exchange.
Context (decode : bytes -> option bytes) (sha256 : bytes -> bytes) (to_json : list ShareOverlayChange -> option bytes)
        (new_v4 : nat -> bytes) (unified_diff : bytes -> bytes -> bytes) (umask : Z) (directory_size : gmap bytes Z -> Z) (max_reads max_depth : nat)
        (encoded_len : StoredShareOverlayApproval -> Z) (overlay_share : bytes -> bytes -> option Z) (generate : nat -> bytes).
Notation apply_revision := (apply_revision decode sha256 to_json new_v4 unified_diff umask directory_size max_reads max_depth overlay_share).

(** No other process uses the shares, which are trees, and the messages of the guest are
    well-typed. *)
Definition SharesReady (w : World) : Prop :=
  others (host w) = [] /\ (forall workspace share root, overlay_share workspace share = Some root -> Shaped (fs (host w)) root)
  /\ (forall s, Prepared (Snapshot s) ∈ inbox w -> typed s).

Notation validate_and_apply := (validate_and_apply sha256 new_v4 unified_diff umask directory_size max_reads max_depth).
(** The guest sent a snapshot of the reviewed revision, and its application to the share
    of the workspace has succeeded.  If no other process uses the shares, the share is
    as the snapshot says. *)
Definition Done (w : World) (workspace share reviewed : bytes) (h : Host) : Prop :=
  exists root s v evs, overlay_share workspace share = Some root /\ head (inbox w) = Some (Prepared (Snapshot s))
    /\ validate_snapshot decode sha256 to_json s = Ok v /\ revision v = reviewed
    /\ (exists m, validate_and_apply root v {| disk := host w; events := evs |} = (Ok Applied, m) /\ h = disk m)
    /\ (SharesReady w -> Is h root (applied (changes v) (look (fs (host w)) root))).
(** What may have been said, and what was not touched. *)
Definition Told (w : World) (workspace pod share reviewed : bytes) (w' : World) : Prop :=
  records w' = records w /\ approvals w' = approvals w /\ generation w' = generation w
  /\ exists said, sent w' = sent w ++ said
     /\ (said = [] \/ said = [Request pod share (Apply reviewed)] \/ said = [Request pod share (Apply reviewed); Decision Retain]
         \/ said = [Request pod share (Apply reviewed); Decision DecideApplied] /\ Done w workspace share reviewed (host w')).
Lemma ends_receive w (Q : option GuestMessage -> World -> Prop) R :
  (forall m rest, inbox w = m :: rest -> Q (Some m) (w <| inbox := rest |>)) -> (inbox w = [] -> Q None w) -> R w -> ends w receive Q R.
Proof.
  intros H1 H2 HR. unfold receive. eapply ends_bind; [by apply (ends_syscall w _ id (fun _ w' => w' = w))|]. intros [] w' ->.
  eapply ends_bind; [by apply (ends_get w (fun a w' => a = w /\ w' = w))|]. intros a w' [-> ->]. destruct (inbox w) as [|m rest] eqn:E; [by apply ends_ret, H2|].
  eapply ends_bind; [by apply (ends_put w _ (fun _ w' => w' = w <| inbox := rest |>))|]. intros [] w' ->. apply ends_ret. by apply H1.
Qed.
Lemma ends_send_decision w d (Q : unit -> World -> Prop) (R : World -> Prop) :
  R w -> (forall rest, R (w <| sent := sent w ++ [Decision d] |> <| inbox := rest |>)) -> R (w <| sent := sent w ++ [Decision d] |>) ->
  (forall rest, Q tt (w <| sent := sent w ++ [Decision d] |> <| inbox := rest |>)) -> ends w (send_decision d) Q R.
Proof.
  intros R0 R1 R2 HQ. unfold send_decision. eapply ends_bind; [by apply (ends_syscall w _ _ (fun _ w' => w' = w <| sent := sent w ++ [Decision d] |>))|].
  intros [] w' ->. eapply ends_bind.
  { apply (ends_receive _ (fun m w' => w' = w <| sent := sent w ++ [Decision d] |> \/ exists rest, w' = w <| sent := sent w ++ [Decision d] |> <| inbox := rest |> /\ m <> None)); [|by left|done].
    intros m rest _. right. by exists rest. }
  intros [[|[]]|] w' Hw; try (apply ends_raise; destruct Hw as [->|(rest & -> & _)]; done).
  destruct Hw as [->|(rest & -> & _)]; [|by apply ends_ret].
  apply ends_ret. specialize (HQ (inbox (w <| sent := sent w ++ [Decision d] |>))). by destruct w.
Qed.
Lemma ends_connection w workspace share (R : World -> Prop) : R w ->
  ends w (connection overlay_share workspace share) (fun root w' => w' = w /\ overlay_share workspace share = Some root) R.
Proof.
  intros HR. unfold connection. destruct (negb (valid_workspace_share_name share)); [by apply ends_raise|]. destruct (negb (workspace_name workspace)); [by apply ends_raise|].
  eapply ends_bind; [by apply (ends_syscall w _ id (fun _ w' => w' = w))|]. intros [] w' ->. apply ends_outcome; [|done].
  intros root. destruct (overlay_share workspace share); [|done]. by intros [= ->].
Qed.
Lemma ends_receive_prepared w closed (R : World -> Prop) : R w -> (forall rest, R (w <| inbox := rest |>)) ->
  ends w (receive_prepared closed) (fun r w' => exists rest, head (inbox w) = Some (Prepared r) /\ w' = w <| inbox := rest |>) R.
Proof.
  intros R0 R1. unfold receive_prepared.
  eapply ends_bind; [apply (ends_receive w (fun m w' => R w' /\ forall r, m = Some (Prepared r) -> exists rest, head (inbox w) = Some (Prepared r) /\ w' = w <| inbox := rest |>)); [|by split|done]|].
  - intros m rest E. split; [done|]. intros r [= ->]. exists rest. by rewrite E.
  - intros [[r|c]|] w' [HR H]; [apply ends_ret; by apply H|by apply ends_raise..].
Qed.
Lemma ends_apply_revision w workspace pod share reviewed :
  ends w (apply_revision workspace pod share reviewed)
    (fun r w' => Told w workspace pod share reviewed w' /\ match r with
       | ResultApplied => sent w' = sent w ++ [Request pod share (Apply reviewed); Decision DecideApplied] /\ Done w workspace share reviewed (host w')
       | _ => SharesReady w -> fs (host w') = fs (host w) end)
    (Told w workspace pod share reviewed).
Proof.
  set (R := Told w workspace pod share reviewed).
  assert (R0 : R w) by (split_and!; [done..|]; exists []; rewrite app_nil_r; by split; [|left]).
  assert (R1 : forall rest h, R (w <| sent := sent w ++ [Request pod share (Apply reviewed)] |> <| inbox := rest |> <| host := h |>)).
  { intros rest h. split_and!; [done..|]. eexists. split; [done|]. by right; left. }
  assert (R2 : forall w', records w' = records w -> approvals w' = approvals w -> generation w' = generation w ->
    sent w' = (sent w ++ [Request pod share (Apply reviewed)]) ++ [Decision Retain] -> R w').
  { intros w' A B C D. split_and!; [done..|]. exists [Request pod share (Apply reviewed); Decision Retain].
    split; [by rewrite D, <- (assoc_L (++))|]. by right; right; left. }
  assert (Retained : forall rest h {A} (Q : A -> World -> Prop) (k : act A),
    (forall w', R w' -> host w' = h -> ends w' k Q R) ->
    ends (w <| sent := sent w ++ [Request pod share (Apply reviewed)] |> <| inbox := rest |> <| host := h |>) (andthen (send_decision Retain) (fun _ => k)) Q R).
  { intros rest h A Q k Hk. eapply (ends_bind _ _ _ (fun _ w' => R w' /\ host w' = h)); [|intros [] w' [? ?]; by apply Hk].
    apply ends_send_decision; [apply R1|by intros; apply R2|by apply R2|]. intros. by split; [apply R2|]. }
  unfold OverlayService.apply_revision. eapply ends_bind; [by apply ends_connection|]. intros root w' [-> Er].
  eapply ends_bind; [by apply (ends_syscall w _ id (fun _ w' => w' = w))|]. intros [] w' ->.
  set (w1 := w <| sent := sent w ++ [Request pod share (Apply reviewed)] |>).
  eapply ends_bind; [by apply (ends_syscall w _ _ (fun _ w' => w' = w1))|]. intros [] w' ->.
  assert (Rw1 : R w1) by (specialize (R1 (inbox w) (host w)); by destruct w).
  assert (Rr : forall rest, R (w1 <| inbox := rest |>)) by (intros rest; specialize (R1 rest (host w)); by destruct w).
  eapply ends_bind; [by apply (ends_receive_prepared w1 _ R)|]. intros r w' (rest & Hd & ->). destruct r as [s|s|message]; [| |by apply ends_raise].
  - eapply (ends_bind _ _ _ (fun v w' => w' = w1 <| inbox := rest |> /\ validate_snapshot decode sha256 to_json s = Ok v)); [by apply ends_outcome|].
    intros v w' [-> Hv]. assert (W : w1 <| inbox := rest |> = w <| sent := sent w ++ [Request pod share (Apply reviewed)] |> <| inbox := rest |> <| host := host w |>) by (by destruct w).
    destruct (negb (bool_decide (revision v = reviewed))) eqn:Rv.
    { rewrite W. apply Retained. intros w' HR _. by apply ends_raise. }
    bool_prop. eapply (ends_bind _ _ _ (fun a w' => exists h, w' = w1 <| inbox := rest |> <| host := h |> /\ match a with
        | inr Applied => Done w workspace share reviewed h | inr (Conflicts _) => SharesReady w -> h = host w | inl _ => True end)).
    { eapply (ends_attempt _ _ _ _ (fun w' => exists h, w' = w1 <| inbox := rest |> <| host := h |>)); [|intros e w' [h ->]; by exists h|intros w' [h ->]; apply R1].
      eapply ends_weaken; [apply (ends_on_host _ _ (fun w' => exists h, w' = w1 <| inbox := rest |> <| host := h |>)); by eauto| |done].
      intros a w' (evs & m & X & ->). exists (disk m). split; [done|]. change (host (w1 <| inbox := rest |>)) with (host w) in X.
      assert (T : SharesReady w -> match a with Applied => Is (disk m) root (applied (changes v) (look (fs (host w)) root)) | Conflicts _ => disk m = host w end).
      { intros (Ho & Sh & Ty).
        destruct (tr_validate_and_apply decode sha256 to_json new_v4 unified_diff umask directory_size max_reads max_depth any_event Logic.I True (or_introl Logic.I) s v (host w) root) with (w := {| disk := host w; events := evs |}) as [_ H].
        + by apply validate_snapshot_Ok.
        + apply Ty. change (head (inbox w) = Some (Prepared (Snapshot s))) in Hd. apply head_Some in Hd as [l ->]. set_solver.
        + split_and!; [done|by eapply Sh|done].
        + by left.
        + by apply Forall_forall.
        + done.
        + rewrite X in H. cbn in H. destruct a; [apply H|]. by destruct H as (_ & _ & ->). }
      destruct a as [|cs]; [|done]. exists root, s, v, evs. split_and!; [done|exact Hd|done|done|by exists m|done]. }
    intros [e|[|cs]] w' (h & -> & Hh).
    + apply Retained. intros w' HR _. by apply ends_raise.
    + eapply (ends_bind _ _ _ (fun _ w' => R w' /\ sent w' = sent w ++ [Request pod share (Apply reviewed); Decision DecideApplied] /\ Done w workspace share reviewed (host w'))).
      { assert (Said : forall r0, R (w1 <| inbox := rest |> <| host := h |> <| sent := sent w1 ++ [Decision DecideApplied] |> <| inbox := r0 |>)).
        { intros r0. split_and!; [done..|]. exists [Request pod share (Apply reviewed); Decision DecideApplied]. split; [change (sent w ++ [Request pod share (Apply reviewed); Decision DecideApplied]) with (sent w ++ ([Request pod share (Apply reviewed)] ++ [Decision DecideApplied])); by rewrite (assoc_L (++))|]. by right; right; right. }
        apply ends_send_decision; [apply R1|apply Said|specialize (Said rest); by destruct w|].
        intros r0. split; [apply Said|]. split; [|done]. etransitivity; [|symmetry; apply (assoc_L (++) (sent w) [_] [_])]. done. }
      intros [] w' (HR & Hs & HD). by apply ends_ret.
    + apply Retained. intros w' HR E. apply ends_ret. split; [done|]. intros Ready. by rewrite E, (Hh Ready).
  - eapply (ends_bind _ _ _ (fun v w' => w' = w1 <| inbox := rest |>)); [by apply ends_outcome|]. intros v w' ->. apply ends_ret. by split.
Qed.
End exchange.

(** ** Pending approvals *)
Section pending.
Context (decode : bytes -> option bytes) (sha256 : bytes -> bytes) (to_json : list ShareOverlayChange -> option bytes)
        (new_v4 : nat -> bytes) (unified_diff : bytes -> bytes -> bytes) (umask : Z) (directory_size : gmap bytes Z -> Z) (max_reads max_depth : nat)
        (encoded_len : StoredShareOverlayApproval -> Z) (overlay_share : bytes -> bytes -> option Z) (generate : nat -> bytes).

(** Every pending request is valid and filed under its identifier; its record is on
    disk, unless it is among those in [lost].  Identifiers that were not generated are not
    in use. *)
Record Pending (lost : gset bytes) (w : World) : Prop := {
  pending_valid : forall i a, approvals w !! i = Some a -> a_id a = i /\ validate_record a = Ok tt;
  pending_stored : forall i a, approvals w !! i = Some a -> (i ∈ lost /\ records w !! i = None) \/ exists size, records w !! i = Some (Regular (Some a) size);
  pending_fresh : forall n, (generated w <= n)%nat -> records w !! generate n = None /\ approvals w !! generate n = None
}.
(** At most one request per share. *)
Definition Unique (w : World) : Prop := forall i j a b, approvals w !! i = Some a -> approvals w !! j = Some b ->
  same_share (a_workspace b) (a_pod_id b) (a_share b) a = true -> i = j.
Definition Consistent (lost : gset bytes) (w : World) : Prop := Pending lost w /\ Unique w.
(** The pending requests whose records were there before and are not after. *)
Definition gone (w w' : World) : gset bytes := dom (approvals w') ∩ (dom (records w) ∖ dom (records w')).

(** What concerns neither records nor requests. *)
Definition ledger (w : World) := (records w, approvals w, generated w).
Lemma Consistent_ledger lost w w' : ledger w' = ledger w -> Consistent lost w -> Consistent lost w'.
Proof.
  unfold ledger. intros [= E1 E2 E3] [[A B C] U]. split; [constructor|].
  - intros i a. rewrite E2. apply A.
  - intros i a. rewrite E1, E2. apply B.
  - intros n. rewrite E1, E2, E3. apply C.
  - intros i j a b. rewrite E2. apply U.
Qed.
Definition still {A} (m : act A) : Prop := forall l, keeps any_event (fun w => ledger w = l) m.
Lemma still_bind {A B} (m : act A) (k : A -> act B) : still m -> (forall a, still (k a)) -> still (andthen m k).
Proof. intros H1 H2 l. apply keeping_bind; [apply H1|intros a; apply H2]. Qed.
Lemma still_ret {A} (a : A) : still (ret a).
Proof. intros l. apply keeping_ret. Qed.
Lemma still_raise {A} e : still (A := A) (raise e).
Proof. intros l. apply keeping_raise. Qed.
Lemma still_outcome {A} (o : outcome ShareOverlayServiceError A) : still (of_outcome o).
Proof. intros l. apply keeping_outcome. Qed.
Lemma still_syscall e f : (forall w, ledger (f w) = ledger w) -> still (syscall e f).
Proof. intros H l. apply keeping_syscall; [done|]. intros w <-. apply H. Qed.
Lemma still_put f : (forall w, ledger (f w) = ledger w) -> still (put f).
Proof. intros H l. apply keeping_put. intros w <-. apply H. Qed.
Lemma still_get : still get.
Proof. intros l. apply keeping_get. Qed.
Lemma still_attempt {A} (m : act A) : still m -> still (attempt m).
Proof. intros H l. apply keeping_attempt, H. Qed.
Lemma still_on_host {A} (m : op A) : still (on_host m).
Proof.
  intros l w F H. unfold on_host. destruct (m _) as [r w'] eqn:X. split; [by apply Forall_forall|]. by destruct r.
Qed.
Hint Resolve still_ret still_raise still_outcome still_get still_on_host : still.
Ltac still_step :=
  match goal with
  | |- still (syscall _ _) => apply still_syscall; by intros []
  | |- still (put _) => apply still_put; by intros []
  | |- still (attempt _) => apply still_attempt
  | |- still (andthen _ _) => apply still_bind; [|intros ?]
  | |- still (match ?x with _ => _ end) => destruct x
  | _ => solve [auto with still]
  end.
Lemma still_receive : still receive.
Proof. unfold receive. repeat still_step. Qed.
Lemma still_send_decision d : still (send_decision d).
Proof. unfold send_decision, send. repeat (apply still_receive || still_step). Qed.
Lemma still_prepared c : still (receive_prepared c).
Proof. unfold receive_prepared. repeat (apply still_receive || still_step). Qed.
Lemma still_connection workspace share : still (connection overlay_share workspace share).
Proof. unfold connection. repeat still_step. Qed.
Lemma still_inspect workspace pod share : still (inspect_revision decode sha256 to_json unified_diff directory_size max_reads overlay_share workspace pod share).
Proof. unfold inspect_revision, prepare, send. repeat (apply still_prepared || apply still_connection || still_step). Qed.
Lemma still_apply workspace pod share rev :
  still (apply_revision decode sha256 to_json new_v4 unified_diff umask directory_size max_reads max_depth overlay_share workspace pod share rev).
Proof. unfold apply_revision, send. repeat (apply still_prepared || apply still_connection || apply still_send_decision || still_step). Qed.

(** ** Records *)
Definition unfiled (i : bytes) (w : World) : World := w <| records := delete i (records w) |>.
Definition withdrawn (i : bytes) (w : World) : World :=
  (unfiled i w) <| approvals := delete i (approvals w) |> <| generation := wrapping_add (generation w) 1 |>.
Lemma ends_remove_record w i : ends w (remove_record i) (fun _ w' => w' = unfiled i w) (fun w' => w' = w \/ w' = unfiled i w).
Proof.
  unfold remove_record, sync_directory. eapply ends_bind; [by apply (ends_get w (fun a w' => a = w /\ w' = w))|]. intros a w' [-> ->].
  destruct (records w !! i).
  - eapply ends_bind; [apply (ends_syscall w _ _ (fun _ w' => w' = unfiled i w)); [done|by left]|]. intros [] w' ->. apply ends_syscall; [done|by right].
  - eapply ends_bind; [apply (ends_syscall w _ id (fun _ w' => w' = w)); [done|by left]|]. intros [] w' ->. apply ends_raise. by left.
Qed.
Lemma ends_remove w i : ends w (remove i) (fun _ w' => w' = withdrawn i w) (fun w' => w' = w \/ w' = unfiled i w).
Proof.
  unfold remove, publish. eapply ends_bind; [apply ends_remove_record|]. intros [] w' ->.
  eapply ends_bind; [by apply (ends_put _ _ (fun _ w' => w' = (unfiled i w) <| approvals := delete i (approvals w) |>))|]. intros [] w' ->. by apply ends_put.
Qed.
Lemma Pending_more lost lost' w : lost ⊆ lost' -> Pending lost w -> Pending lost' w.
Proof. intros S [A B C]. constructor; [done| |done]. intros i a Ha. destruct (B i a Ha) as [[Hl Hr]|H]; [left; split; [by apply S|done]|by right]. Qed.
(** A removal that went half-way. *)
Lemma Pending_unfiled lost w0 i w : records w ⊆ records w0 -> Pending lost w -> Pending (lost ∪ gone w0 (unfiled i w)) (unfiled i w).
Proof.
  intros S P. pose proof P as [A B C]. constructor; [apply A| |].
  - intros j a Ha. change (approvals w !! j = Some a) in Ha. cbn [records unfiled]. destruct (decide (i = j)) as [<-|N].
    + left. cbn. rewrite lookup_delete_eq. split; [|done]. destruct (B i a Ha) as [[Hl _]|[size Hr]]; [set_solver|].
      apply elem_of_union_r. unfold gone. cbn. apply elem_of_intersection. split; [by apply elem_of_dom|]. apply elem_of_difference.
      split; [apply elem_of_dom; eexists; by eapply lookup_weaken|]. rewrite dom_delete. set_solver.
    + cbn. rewrite lookup_delete_ne by done. destruct (B j a Ha) as [[Hl Hr]|H]; [left; split; [set_solver|done]|by right].
  - intros n Hn. cbn. split; [|by apply C]. apply lookup_delete_None. right. by apply C.
Qed.
Lemma withdrawn_approvals i w : approvals (withdrawn i w) = delete i (approvals w).
Proof. done. Qed.
Lemma Pending_withdrawn lost i w : Pending lost w -> Pending lost (withdrawn i w).
Proof.
  intros [A B C]. constructor.
  - intros j a. rewrite withdrawn_approvals. intros [_ Ha]%lookup_delete_Some. by apply A.
  - intros j a. rewrite withdrawn_approvals. intros [N Ha]%lookup_delete_Some. cbn. rewrite lookup_delete_ne by done. by apply B.
  - intros n Hn. rewrite withdrawn_approvals. cbn. split; apply lookup_delete_None; right; by apply C.
Qed.
Lemma Unique_withdrawn i w : Unique w -> Unique (withdrawn i w).
Proof. intros U j k a b. rewrite withdrawn_approvals. intros [_ Ha]%lookup_delete_Some [_ Hb]%lookup_delete_Some. by apply U. Qed.
Definition filed (a : StoredShareOverlayApproval) (w : World) : World :=
  w <| records := <[a_id a := Regular (Some a) (encoded_len a)]> (records w) |>.
Lemma ends_create w a : ends w (create encoded_len a) (fun _ w' => w' = filed a w /\ validate_record a = Ok tt) (fun w' => w' = w \/ w' = filed a w).
Proof.
  unfold create, record_exists, sync_directory. eapply (ends_bind _ _ _ (fun _ w' => w' = w /\ validate_record a = Ok tt)); [apply ends_outcome; [by intros []|by left]|].
  intros [] w' [-> V]. eapply (ends_bind _ _ _ (fun _ w' => w' = w)).
  { eapply ends_bind; [apply (ends_attempt w _ (fun _ w' => w' = w) _ (fun w' => w' = w)); [by apply ends_syscall|done|by left]|]. intros r w' ->.
    eapply ends_bind; [by apply (ends_get w (fun x w' => x = w /\ w' = w))|]. intros x w' [-> ->]. by apply ends_ret. }
  intros present w' ->. destruct present; [apply ends_raise; by left|]. destruct (_ <? _); [apply ends_raise; by left|].
  do 3 (eapply ends_bind; [apply (ends_syscall w _ id (fun _ w' => w' = w)); [done|by left]|]; intros [] w' ->).
  eapply ends_bind; [apply (ends_syscall w _ _ (fun _ w' => w' = filed a w)); [done|by left]|]. intros [] w' ->. apply ends_syscall; [done|by right].
Qed.

(** ** Operations keep requests consistent *)
Context (generate_inj : forall n m, generate n = generate m -> n = m).
Definition counted (w : World) : World := w <| generated := S (generated w) |>.
Lemma Pending_counted lost w : Pending lost w -> Pending lost (counted w).
Proof. intros [A B C]. constructor; [apply A|apply B|]. intros n Hn. apply C. cbn in Hn. lia. Qed.
Lemma generated_ne w n : (S (generated w) <= n)%nat -> generate (generated w) <> generate n.
Proof. intros H E%generate_inj. lia. Qed.
Lemma Pending_filed lost w a : Pending lost w -> a_id a = generate (generated w) -> Pending lost (filed a (counted w)).
Proof.
  intros P E. destruct (pending_fresh lost w P (generated w) (le_n _)) as [_ Fa]. pose proof (Pending_counted lost w P) as [A B C]. constructor; [apply A| |].
  - intros i b Hb. change (approvals w !! i = Some b) in Hb. cbn. rewrite E. destruct (decide (generate (generated w) = i)) as [<-|N]; [by rewrite Fa in Hb|]. rewrite lookup_insert_ne by done. by apply B.
  - intros n Hn. cbn. rewrite E, lookup_insert_ne by (by apply generated_ne). by apply C.
Qed.
Definition submitted (a : StoredShareOverlayApproval) (w : World) : World := (filed a (counted w)) <| approvals := <[a_id a := a]> (approvals w) |>.
Lemma submitted_approvals w a : approvals (submitted a w) = <[a_id a := a]> (approvals w).
Proof. done. Qed.
Lemma Pending_submitted lost w a : Pending lost w -> a_id a = generate (generated w) -> validate_record a = Ok tt -> Pending lost (submitted a w).
Proof.
  intros P E V. pose proof (Pending_filed lost w a P E) as [A B C]. constructor.
  - intros i b. rewrite submitted_approvals. intros [[<- <-]|[_ Hb]]%lookup_insert_Some; [done|by apply A].
  - intros i b. rewrite submitted_approvals. intros [[<- <-]|[_ Hb]]%lookup_insert_Some; [right; eexists; apply lookup_insert_eq|by apply B].
  - intros n Hn. split; [by apply C|]. rewrite submitted_approvals, E, lookup_insert_ne by (by apply generated_ne). by apply C.
Qed.
Lemma values_elem w i a : approvals w !! i = Some a -> a ∈ values w.
Proof.
  intros H. unfold values. rewrite sort_by_perm. change (map snd (map_to_list (approvals w))) with (snd <$> map_to_list (approvals w)).
  apply list_elem_of_fmap. exists (i, a). split; [done|by apply elem_of_map_to_list].
Qed.
Lemma same_share_sym a b : same_share (a_workspace b) (a_pod_id b) (a_share b) a = same_share (a_workspace a) (a_pod_id a) (a_share a) b.
Proof. unfold same_share. f_equal; [f_equal|]; by apply bool_decide_ext. Qed.
Lemma Unique_submitted w a : Unique w -> List.find (same_share (a_workspace a) (a_pod_id a) (a_share a)) (values w) = None -> Unique (submitted a w).
Proof.
  intros U F. assert (N : forall i b, approvals w !! i = Some b -> same_share (a_workspace a) (a_pod_id a) (a_share a) b = false).
  { intros i b Hb. eapply find_none; [exact F|]. apply list_elem_of_In. by eapply values_elem. }
  intros i j b c. rewrite submitted_approvals. intros [[<- <-]|[_ Hb]]%lookup_insert_Some [[<- <-]|[_ Hc]]%lookup_insert_Some E; [done| | |by eapply U].
  - rewrite same_share_sym in E. by rewrite (N j c Hc) in E.
  - by rewrite (N i b Hb) in E.
Qed.
Lemma ends_still {A} w (m : act A) : still m -> ends w m (fun _ w' => ledger w' = ledger w) (fun w' => ledger w' = ledger w).
Proof. intros H. by apply keeps_ends. Qed.
Lemma Consistent_more lost lost' w : lost ⊆ lost' -> Consistent lost w -> Consistent lost' w.
Proof. intros S [P U]. split; [by eapply Pending_more|done]. Qed.
(** What a failing removal leaves, since [w0]. *)
Definition fallen (lost : gset bytes) (w0 w : World) : Prop := Consistent (lost ∪ gone w0 w) w.
Lemma fallen_still lost w0 w w' : ledger w' = ledger w -> fallen lost w0 w -> fallen lost w0 w'.
Proof. intros E H. unfold fallen. replace (gone w0 w') with (gone w0 w); [by apply (Consistent_ledger _ w)|]. injection E as E1 E2 _. unfold gone. by rewrite E1, E2. Qed.
Lemma Consistent_fallen lost w0 w : Consistent lost w -> fallen lost w0 w.
Proof. apply Consistent_more. set_solver. Qed.
Lemma ends_remove_consistent lost w0 w i : Consistent lost w -> records w ⊆ records w0 ->
  ends w (remove i) (fun _ w' => Consistent lost w' /\ records w' ⊆ records w0) (fallen lost w0).
Proof.
  intros C S. pose proof C as [P U]. eapply ends_weaken; [apply ends_remove| |].
  - intros [] w' ->. split; [split; [by apply Pending_withdrawn|by apply Unique_withdrawn]|]. cbn. etransitivity; [apply delete_subseteq|done].
  - intros w' [->| ->]; [by apply Consistent_fallen|]. split; [by apply Pending_unfiled|exact U].
Qed.
Lemma ends_remove_all lost w0 l w : Consistent lost w -> records w ⊆ records w0 ->
  ends w (for_each remove l) (fun _ => Consistent lost) (fallen lost w0).
Proof.
  revert w. induction l as [|i l IH]; intros w C S; cbn [for_each]; [by apply ends_ret|].
  eapply ends_bind; [by apply (ends_remove_consistent lost w0)|]. intros [] w' [C' S']. by apply IH.
Qed.
Notation request_approval := (request_approval decode sha256 to_json unified_diff directory_size max_reads encoded_len overlay_share generate).
Notation resolve_approval := (resolve_approval decode sha256 to_json new_v4 unified_diff umask directory_size max_reads max_depth overlay_share).
Notation apply := (apply decode sha256 to_json new_v4 unified_diff umask directory_size max_reads max_depth overlay_share).
Lemma ends_request_approval lost w workspace pod share : Consistent lost w ->
  ends w (request_approval workspace pod share) (fun _ => Consistent lost) (Consistent lost).
Proof.
  intros C. unfold OverlayService.request_approval. eapply ends_bind; [eapply ends_weaken; [apply ends_still, still_inspect|intros r w' E; exact E|]|].
  { intros w' E. by apply (Consistent_ledger lost w). }
  intros [rev cs] w1 E%(Consistent_ledger lost); [|done]. clear C. revert E. generalize w1. clear w1 w. intros w [P U].
  case_bool_decide; [by apply ends_raise|].
  eapply ends_bind; [by apply (ends_get w (fun x w' => x = w /\ w' = w))|]. intros x w' [-> ->].
  destruct (List.find _ (values w)) as [a|] eqn:F; [destruct (bool_decide (a_revision a = rev)); [by apply ends_outcome|by apply ends_raise]|].
  cbv zeta. set (a := {| a_version := _ |}). eapply ends_bind; [by apply (ends_put w _ (fun _ w' => w' = counted w))|]. intros [] w' ->.
  assert (C1 : Consistent lost (counted w)) by (split; [by apply Pending_counted|exact U]).
  assert (C2 : Consistent lost (filed a (counted w))) by (split; [by apply Pending_filed|exact U]).
  eapply ends_bind; [eapply ends_weaken; [apply (ends_create (counted w) a)|intros x w' X; exact X|by intros w' [->| ->]]|]. intros [] w' [-> V].
  eapply (ends_bind _ _ _ (fun _ w' => w' = filed a (counted w))); [by apply ends_outcome|]. intros r w' ->.
  eapply ends_bind; [by apply (ends_put _ _ (fun _ w' => w' = submitted a w))|]. intros [] w' ->.
  assert (C3 : Consistent lost (submitted a w)) by (split; [by apply Pending_submitted|by apply Unique_submitted]).
  unfold publish. eapply ends_bind; [apply (ends_put _ _ (fun _ => Consistent lost)); by eapply Consistent_ledger, C3|]. intros [] w' C4. by apply ends_ret.
Qed.
Lemma ends_cancel_approval lost w workspace pod i : Consistent lost w -> ends w (cancel_approval workspace pod i) (fun _ => Consistent lost) (fallen lost w).
Proof.
  intros C. unfold cancel_approval. eapply ends_bind; [by apply (ends_get w (fun x w' => x = w /\ w' = w))|]. intros x w' [-> ->].
  pose proof (Consistent_fallen lost w w C) as Fw. destruct (approvals w !! i); [|by apply ends_raise]. destruct (_ || _); [by apply ends_raise|]. fold (remove i).
  eapply ends_weaken; [by apply (ends_remove_consistent lost w w)| |done]. by intros [] w' [? _].
Qed.
(** After the exchange with the guest. *)
Lemma ends_then {A B} lost w (m : act A) (k : A -> act B) : still m -> Consistent lost w ->
  (forall a w', ledger w' = ledger w -> Consistent lost w' -> records w' ⊆ records w -> ends w' (k a) (fun _ => Consistent lost) (fallen lost w)) ->
  ends w (andthen m k) (fun _ => Consistent lost) (fallen lost w).
Proof.
  intros H C Hk. eapply ends_bind; [eapply ends_weaken; [by apply ends_still|intros a w' E; exact E|]|].
  - intros w' E. by apply Consistent_fallen, (Consistent_ledger lost w).
  - intros a w' E. apply Hk; [done|by apply (Consistent_ledger lost w)|]. injection E as -> _ _. done.
Qed.
Lemma ends_resolve_approval lost w workspace i d : Consistent lost w -> ends w (resolve_approval workspace i d) (fun _ => Consistent lost) (fallen lost w).
Proof.
  intros C. unfold OverlayService.resolve_approval. eapply ends_bind; [by apply (ends_get w (fun x w' => x = w /\ w' = w))|]. intros x w' [-> ->].
  pose proof (Consistent_fallen lost w w C) as Fw. destruct (approvals w !! i) as [a|]; [|by apply ends_raise]. destruct (negb _); [by apply ends_raise|].
  assert (Rm : forall w' r, Consistent lost w' -> records w' ⊆ records w ->
    ends w' (do! remove i; ret r) (fun _ : ShareOverlayApprovalResolution => Consistent lost) (fallen lost w)).
  { intros w' r C' S. eapply ends_bind; [by apply (ends_remove_consistent lost w)|]. intros [] w1 [C1 _]. by apply ends_ret. }
  destruct d; [by apply Rm|]. destruct (negb _); [by apply ends_raise|]. apply ends_then; [apply still_apply|done|].
  intros [] w' _ C' S; [by apply Rm|by apply ends_ret..].
Qed.
Lemma ends_apply lost w workspace pod share rev : Consistent lost w -> ends w (apply workspace pod share rev) (fun _ => Consistent lost) (fallen lost w).
Proof.
  intros C. unfold OverlayService.apply. apply ends_then; [apply still_apply|done|]. intros [] w' _ C' S; [|by apply ends_ret..].
  eapply (ends_bind _ _ _ (fun _ => Consistent lost)); [|intros [] w1 C1; by apply ends_ret]. unfold remove_matching.
  eapply ends_bind; [by apply (ends_get w' (fun x w1 => x = w' /\ w1 = w'))|]. intros x w1 [-> ->]. by apply ends_remove_all.
Qed.
(** ** Histories of the service *)
Inductive Call :=
| CallInspect (workspace pod share : bytes) | CallApply (workspace pod share rev : bytes)
| CallRequest (workspace pod share : bytes) | CallCancel (workspace pod i : bytes)
| CallResolve (workspace i : bytes) (d : ShareOverlayApprovalDecision).
Definition call (c : Call) : act unit :=
  match c with
  | CallInspect workspace pod share => do _ <- inspect_revision decode sha256 to_json unified_diff directory_size max_reads overlay_share workspace pod share; ret tt
  | CallApply workspace pod share rev => do _ <- apply workspace pod share rev; ret tt
  | CallRequest workspace pod share => do _ <- request_approval workspace pod share; ret tt
  | CallCancel workspace pod i => cancel_approval workspace pod i
  | CallResolve workspace i d => do _ <- resolve_approval workspace i d; ret tt
  end.
(** The calls that remove requests. *)
Definition removes (c : Call) : bool := match c with CallInspect _ _ _ | CallRequest _ _ _ => false | _ => true end.
(** One call, with any failures, or anything that happens elsewhere: on the host, in
    the guest, to the clock.  A call that removes requests and does not succeed may lose
    records of requests that stay pending. *)
Inductive happens : gset bytes * World -> gset bytes * World -> Prop :=
| happens_call lost w c evs :
    let run := call c {| disk := w; events := evs |} in
    happens (lost, w) (if removes c && negb (is_ok run.1) then lost ∪ gone w (disk run.2) else lost, disk run.2)
| happens_elsewhere lost w w' : ledger w' = ledger w -> happens (lost, w) (lost, w').
Lemma ends_history_call lost w c : Consistent lost w ->
  ends w (call c) (fun _ => Consistent lost) (fun w' => if removes c then fallen lost w w' else Consistent lost w').
Proof.
  intros C. destruct c; cbn [removes call]; try (eapply ends_bind; [|intros ? w' C'; apply ends_ret; exact C']).
  - eapply ends_weaken; [apply ends_still, still_inspect|intros ? w' E|intros w' E]; by apply (Consistent_ledger lost w).
  - by apply ends_apply.
  - by apply ends_request_approval.
  - by apply ends_cancel_approval.
  - by apply ends_resolve_approval.
Qed.
Lemma happens_consistent c c' : happens c c' -> Consistent c.1 c.2 -> Consistent c'.1 c'.2.
Proof.
  intros [lost w x evs run|lost w0 w1 E] C; cbn [fst snd] in *; [|by apply (Consistent_ledger lost w0)].
  destruct (ends_history_call lost w x C {| disk := w; events := evs |}) as [_ H]; [by apply Forall_forall|done|]. fold run in H.
  destruct run as [[r|e|m] w']; cbn in *; destruct (removes x); exact H.
Qed.
Lemma history_consistent c c' : rtc happens c c' -> Consistent c.1 c.2 -> Consistent c'.1 c'.2.
Proof. induction 1; eauto using happens_consistent. Qed.

(** ** Starting *)
(** The records that can be loaded, and nothing else. *)
Definition Loaded (w : World) (l : list (bytes * entry StoredShareOverlayApproval)) (loaded : list StoredShareOverlayApproval) : Prop :=
  Forall2 (fun e a => e.1 = a_id a /\ validate_record a = Ok tt /\ exists size, e.2 = Regular (Some a) size) l loaded.
Lemma ends_read_record w e (R : World -> Prop) : R w -> ends w (read_record e) (fun a w' => w' = w /\ exists size, e = Regular (Some a) size) R.
Proof.
  intros HR. unfold read_record. eapply ends_bind; [by apply (ends_syscall w _ id (fun _ w' => w' = w))|]. intros [] w' ->.
  destruct e as [content size|]; [|by apply ends_raise]. destruct (_ <? _); [by apply ends_raise|].
  eapply ends_bind; [by apply (ends_syscall w _ id (fun _ w' => w' = w))|]. intros [] w' ->. destruct content; [apply ends_ret; by eauto|by apply ends_raise].
Qed.
Lemma ends_load_loop w l : forall done loaded, Loaded w done loaded ->
  ends w (load_loop l loaded) (fun loaded' w' => w' = w /\ Loaded w (done ++ l) loaded') (fun w' => w' = w).
Proof.
  induction l as [|[stem e] l IH]; intros dn loaded H; cbn [load_loop]; [apply ends_ret; by rewrite app_nil_r|].
  eapply ends_bind; [by apply (ends_syscall w _ id (fun _ w' => w' = w))|]. intros [] w' ->. destruct (_ =? _); [by apply ends_raise|].
  eapply ends_bind; [by apply ends_read_record|]. intros a w' [-> [size ->]].
  eapply (ends_bind _ _ _ (fun _ w' => w' = w /\ validate_record a = Ok tt)); [by apply ends_outcome; [intros []|]|]. intros [] w' [-> V].
  case_bool_decide as E; [|by apply ends_raise]. rewrite (cons_middle (stem, Regular (Some a) size) dn l), (assoc_L (++)). apply IH. apply Forall2_app; [done|].
  constructor; [|done]. split_and!; [done|done|by exists size].
Qed.
(** After a start the requests are the records on disk. *)
Definition Mirrors (w : World) : Prop := forall i a, approvals w !! i = Some a <-> exists size, records w !! i = Some (Regular (Some a) size).
Lemma Loaded_lookup w loaded : Loaded w (map_to_list (records w)) loaded ->
  (forall a, a ∈ loaded -> validate_record a = Ok tt /\ exists size, records w !! a_id a = Some (Regular (Some a) size))
  /\ (forall i e, records w !! i = Some e -> exists a size, a ∈ loaded /\ a_id a = i /\ e = Regular (Some a) size).
Proof.
  intros H. split.
  - intros a [k Ha]%list_elem_of_lookup. destruct (Forall2_lookup_r _ _ _ _ _ H Ha) as [[i e] [He (E & V & size & F)]]. cbn in *. subst.
    split; [done|]. exists size. apply elem_of_map_to_list. by apply list_elem_of_lookup_2 in He.
  - intros i e Hi%elem_of_map_to_list. apply list_elem_of_lookup in Hi as [k Hi]. destruct (Forall2_lookup_l _ _ _ _ _ H Hi) as [a [Ha (E & V & size & F)]].
    exists a, size. split_and!; [by eapply list_elem_of_lookup_2|done|done].
Qed.
Lemma still_private_directory : still ensure_private_directory.
Proof. unfold ensure_private_directory. repeat still_step. Qed.
Lemma Mirrors_loaded w w' loaded : Loaded w (map_to_list (records w)) loaded -> records w' = records w ->
  approvals w' = list_to_map (map (fun a => (a_id a, a)) (sort_by earlier loaded)) ->
  Mirrors w' /\ forall i a, approvals w' !! i = Some a -> a_id a = i /\ validate_record a = Ok tt.
Proof.
  intros [L1 L2]%Loaded_lookup Er Ea.
  assert (In : forall i a, approvals w' !! i = Some a -> a ∈ loaded /\ a_id a = i).
  { intros i a. rewrite Ea. intros H%elem_of_list_to_map_2. apply list_elem_of_fmap in H as (b & [= -> <-] & Hb). by rewrite sort_by_perm in Hb. }
  split; [|intros i a [H <-]%In; split; [done|by apply L1]].
  intros i a. rewrite Er. split; [intros [H <-]%In; by apply L1|]. intros [size H].
  destruct (L2 i _ H) as (b & size' & Hb & <- & [= <- _]). destruct (approvals w' !! a_id a) as [c|] eqn:X.
  - destruct (In _ _ X) as [Hc Ec]. destruct (L1 c Hc) as [_ [s Hs]]. rewrite Ec, H in Hs. congruence.
  - rewrite Ea in X. apply not_elem_of_list_to_map_2 in X. exfalso. apply X. apply list_elem_of_fmap. exists (a_id a, a). split; [done|].
    apply list_elem_of_fmap. exists a. split; [done|by rewrite sort_by_perm].
Qed.
Lemma ends_open w : ends w open
  (fun _ w' => ledger w' = (records w, approvals w', generated w) /\ Mirrors w' /\ forall i a, approvals w' !! i = Some a -> a_id a = i /\ validate_record a = Ok tt)
  (fun w' => ledger w' = ledger w).
Proof.
  unfold open, load. eapply (ends_bind _ _ _ (fun _ w' => ledger w' = ledger w)).
  { eapply hoare_weaken; [apply (still_private_directory (ledger w))|by intros ? <-|done|done|done]. }
  intros [] w1 E1. eapply (ends_bind _ _ _ (fun l w' => w' = w1 /\ exists loaded, l = sort_by earlier loaded /\ Loaded w1 (map_to_list (records w1)) loaded)).
  { eapply ends_bind; [by apply (ends_syscall w1 _ id (fun _ w' => w' = w1))|]. intros [] w' ->.
    eapply ends_bind; [by apply (ends_get w1 (fun x w' => x = w1 /\ w' = w1))|]. intros x w' [-> ->].
    eapply ends_bind; [eapply ends_weaken; [apply (ends_load_loop w1 _ [] []); constructor|intros l w' H; exact H|by intros w' ->]|].
    intros loaded w' [-> H]. apply ends_ret. split; [done|]. by exists loaded. }
  intros l w' [-> (loaded & -> & H)]. apply ends_put. injection E1 as R1 A1 G1. split; [unfold ledger; cbn; by rewrite R1, G1|].
  by eapply Mirrors_loaded.
Qed.
End pending.

(** ** Approving *)
Section approving.
Context (decode : bytes -> option bytes) (sha256 : bytes -> bytes) (to_json : list ShareOverlayChange -> option bytes)
        (new_v4 : nat -> bytes) (unified_diff : bytes -> bytes -> bytes) (umask : Z) (directory_size : gmap bytes Z -> Z) (max_reads max_depth : nat)
        (overlay_share : bytes -> bytes -> option Z).
Notation Told := (Told decode sha256 to_json new_v4 unified_diff umask directory_size max_reads max_depth overlay_share).
Notation Done := (Done decode sha256 to_json new_v4 unified_diff umask directory_size max_reads max_depth overlay_share).

(** What the guest was told about a request that is being approved, and what became of
    the request when the operation did not end well. *)
Definition Undecided (w : World) (i : bytes) (a : StoredShareOverlayApproval) (w' : World) : Prop :=
  approvals w' = approvals w /\ (records w' = records w \/ records w' = delete i (records w))
  /\ exists w1, Told w (a_workspace a) (a_pod_id a) (a_share a) (a_revision a) w1 /\ sent w' = sent w1 /\ host w' = host w1.
(** What a result says. *)
Definition Resolved (w : World) (i : bytes) (a : StoredShareOverlayApproval) (r : ShareOverlayApprovalResolution) (w' : World) : Prop :=
  match r with
  | ResolvedApplied =>
      sent w' = sent w ++ [Request (a_pod_id a) (a_share a) (Apply (a_revision a)); Decision DecideApplied]
      /\ Done w (a_workspace a) (a_share a) (a_revision a) (host w')
      /\ approvals w' = delete i (approvals w) /\ records w' = delete i (records w)
  | Rejected => False
  | _ => Undecided w i a w' /\ records w' = records w /\ (SharesReady overlay_share w -> fs (host w') = fs (host w))
  end.
Lemma Undecided_told w i a w' : Told w (a_workspace a) (a_pod_id a) (a_share a) (a_revision a) w' -> Undecided w i a w'.
Proof. intros T. destruct (T) as (R & A & _). split_and!; [done|by left|]. by exists w'. Qed.
Lemma ends_approve w i a : approvals w !! i = Some a ->
  ends w (resolve_approval decode sha256 to_json new_v4 unified_diff umask directory_size max_reads max_depth overlay_share (a_workspace a) i Approve)
    (Resolved w i a) (Undecided w i a).
Proof.
  intros Ha. assert (U0 : Undecided w i a w).
  { apply Undecided_told. split_and!; [done..|]. exists []. rewrite app_nil_r. by split; [|left]. }
  unfold resolve_approval. eapply ends_bind; [by apply (ends_get w (fun x w' => x = w /\ w' = w))|]. intros x w' [-> ->]. rewrite Ha.
  rewrite bool_decide_true by done. cbn [negb]. destruct (negb _); [by apply ends_raise|].
  eapply ends_bind; [eapply ends_weaken; [by apply ends_apply_revision|intros r w' H; exact H|intros w' T; by apply Undecided_told]|].
  intros [|rev cs|cs] w' [T H]; [|by apply ends_ret; split_and!; [apply Undecided_told|apply T|]..].
  destruct (T) as (Tr & Ta & _ & Ts). destruct H as [S D]. assert (U : Undecided w i a w') by (by apply Undecided_told).
  eapply ends_bind; [eapply ends_weaken; [apply ends_remove|intros r w1 H; exact H|]|].
  - intros w1 [->| ->]; [done|]. split_and!; [done|right; cbn; by rewrite Tr|]. exists w'. by split_and!.
  - intros [] w1 ->. apply ends_ret. split_and!; [done|done| |]; cbn; by rewrite ?Ta, ?Tr.
Qed.
End approving.

(** ** Subscribing *)
Section subscribing.
Context (sha256 : bytes -> bytes) (list_json : list ShareOverlayApprovalRequest -> option bytes).
Notation recv := (recv sha256 list_json).
(** The list that a subscription is about, with its digest. *)
Definition listing (w : World) (s : ShareOverlayApprovalSubscription) : outcome ShareOverlayServiceError (list ShareOverlayApprovalRequest * bytes) :=
  let? value := pending (s_workspace s) (s_pod_id s) w in
  let? revision := approval_list_revision sha256 list_json value in Ok (value, revision).
(** The subscriber knows the list, or is going to look. *)
Definition Informed (w : World) (s : ShareOverlayApprovalSubscription) : Prop :=
  s_current_pending s = true \/ s_seen s <> generation w \/ forall value revision, listing w s = Ok (value, revision) -> s_cursor s = Some revision.
Lemma collect_no_panic {E A B} (f : A -> outcome E B) l : (forall x m, f x <> Panic m) -> forall m, collect f l <> Panic m.
Proof.
  intros H. induction l as [|x l IH]; cbn; [done|]. intros m. specialize (H x). destruct (f x); cbn; [|done|naive_solver].
  destruct (collect f l); naive_solver.
Qed.
Lemma listing_no_panic w s m : listing w s <> Panic m.
Proof.
  unfold listing, pending, approval_list_revision. destruct (collect api_approval _) as [l|e|p] eqn:C; cbn; [|done|].
  - by destruct (list_json _).
  - exfalso. eapply collect_no_panic; [|exact C]. intros a ?. unfold api_approval. by destruct (pod_id_ok _).
Qed.
(** The subscription after it began to look. *)
Definition looked (w : World) (s : ShareOverlayApprovalSubscription) : ShareOverlayApprovalSubscription :=
  if s_current_pending s then s <| s_current_pending := false |> else s <| s_seen := generation w |>.
Lemma recv_S n w s : recv (S n) w s =
  if negb (s_current_pending s) && (s_seen s =? generation w) then (Ok None, s)
  else match listing w s with
       | Ok (value, revision) =>
           if bool_decide (s_cursor s = Some revision) then recv n w (looked w s)
           else (Ok (Some (revision, value)), (looked w s) <| s_cursor := Some revision |>)
       | Err e => (Err e, looked w s)
       | Panic m => (Panic m, looked w s)
       end.
Proof. by destruct s as [ws pod cur seen []]. Qed.
Lemma looked_listing w s : listing w (looked w s) = listing w s.
Proof. by destruct s as [ws pod cur seen []]. Qed.
Lemma looked_cursor w s : s_cursor (looked w s) = s_cursor s.
Proof. by destruct s as [ws pod cur seen []]. Qed.
Lemma looked_pending w s : s_current_pending (looked w s) = false.
Proof. by destruct s as [ws pod cur seen []]. Qed.
Lemma recv_known n w s value revision : listing w s = Ok (value, revision) -> s_cursor s = Some revision -> s_current_pending s = false ->
  exists s', recv (S (S n)) w s = (Ok None, s') /\ s_cursor s' = Some revision /\ listing w s' = listing w s.
Proof.
  intros L C P. rewrite recv_S. destruct (negb _ && _); [by exists s|]. rewrite L, bool_decide_true by done. exists (looked w s).
  rewrite recv_S, looked_pending, looked_cursor, looked_listing. split; [|done]. unfold looked. rewrite P. cbn. by rewrite Z.eqb_refl.
Qed.
(** A call of [recv] looks at most twice before it waits.  It receives the current list,
    unless that is the one the subscriber has. *)
Lemma recv_current w s : Informed w s ->
  let '(r, s') := recv 3 w s in
  Informed w s' /\ match r with
  | Ok None => forall value revision, listing w s' = Ok (value, revision) -> s_cursor s' = Some revision
  | Ok (Some (revision, value)) => listing w s = Ok (value, revision) /\ s_cursor s <> Some revision /\ s_cursor s' = Some revision
  | Err e => listing w s = Err e
  | Panic _ => False
  end.
Proof.
  intros I. rewrite recv_S. destruct (negb (s_current_pending s) && (s_seen s =? generation w)) eqn:Q.
  - split; [done|]. apply andb_true_iff in Q as [Q1 Q2]. destruct I as [I|[I|I]]; [by rewrite I in Q1|lia|exact I].
  - destruct (listing w s) as [[value revision]|e|m] eqn:L; [|split; [|done]; right; right; by rewrite looked_listing, L|by destruct (listing_no_panic w s m)].
    case_bool_decide as C.
    + destruct (recv_known 0 w (looked w s) value revision) as (s' & -> & C' & L'); [by rewrite looked_listing|by rewrite looked_cursor|apply looked_pending|].
      rewrite looked_listing, L in L'. split; [right; right|]; intros v r; rewrite L'; by intros [= <- <-].
    + assert (L' : listing w ((looked w s) <| s_cursor := Some revision |>) = listing w (looked w s)) by (by destruct (looked w s)).
      split; [|by split_and!]. right; right. intros v r. rewrite L', looked_listing, L. by intros [= <- <-].
Qed.
End subscribing.
