(* ===== verification/OverlayProps.v ===== *)
(** * Properties of share overlays on the host *)

From S2P Require Import Prelude Lists Text RepoStore ShareTypes Outage OverlayTypes OverlayHost OverlayService OverlaySafe OverlayTree OverlayExact OverlayLeases OverlayApprovals.

(** C14: Nothing that a guest sends can name a path outside the share.  A snapshot that
    passes validation has the digest it was reviewed under, is the faithful decoding of
    the message, and has strictly ordered, distinct paths, each a non-empty list of
    components that are names of single entries, never empty, a dot, two dots, or with a
    slash or a zero byte; contents have the announced size and digest; number of changes,
    length of paths and size of all contents are within their limits. *)
Theorem validated_snapshots_sound decode sha256 to_json w v :
  validate_snapshot decode sha256 to_json w = Ok v -> Validated decode sha256 to_json w v.
Proof. apply validate_snapshot_Ok. Qed.

(** ** An example *)
Module Example.
Definition sha256 (b : bytes) : bytes := repeat (len b) 32.
Definition to_json (cs : list ShareOverlayChange) : option bytes := Some (repeat 0 (length cs)).
Definition contents : bytes := str "new".
Definition new_file : ShareOverlayChange :=
  {| wire_path := [str "a"]; wire_base := None; wire_opaque := false;
     wire_proposed := Some {| wire_version := {| o_kind := File; o_size := 3; o_mode := 420; o_digest := Some (hex_bytes (sha256 contents)) |};
                              wire_contents := Some contents |} |}.
Definition snapshot : ShareOverlaySnapshot := {| wire_revision := hex_bytes (sha256 [0]); wire_changes := [new_file] |}.
Definition validated : ValidatedSnapshot :=
  {| revision := hex_bytes (sha256 [0]);
     changes := [{| names := [str "a"]; base := None; opaque := false;
                    proposal := Some {| entry_version := {| o_kind := File; o_size := 3; o_mode := 420; o_digest := Some (hex_bytes (sha256 contents)) |};
                                        entry_contents := Some contents |} |}] |}.
Definition root : Z := 1.
Definition empty_root : Inode := {| node := DirectoryNode ∅ true; perm := 493; dev := 1; mtime := (0, 0); ctime := (0, 0) |}.
Definition empty : Fs := {| inodes := {[ root := empty_root ]}; clock := (5, 0); above := ∅ |}.
End Example.
Lemma validated_snapshots_sound_witness : Validated Some Example.sha256 Example.to_json Example.snapshot Example.validated.
Proof. apply validated_snapshots_sound. vm_compute. reflexivity. Defined.

(** C11: An application stays inside the share.  Take any inodes [O] that are no entry of
    a directory of the share (the name of two dots, which every directory lists and which
    leads out of the root of the share, is not an entry), any regular files [K], inside or
    outside, and any property [J] of the inodes in [O] and of the contents of the files in
    [K].  Whatever snapshot that passes validation is applied, whatever is in the share,
    whatever calls fail or never return, and whatever other processes do in between, so
    long as they keep [J] and make nothing of [O] an entry of the share: [J] holds
    afterwards.  So neither a symbolic link nor two dots are followed out of the share,
    nothing outside is created, changed or removed, and no existing file is written to. *)
Theorem application_confined (O K : gset Z) (J : Fs -> Prop) decode sha256 to_json new_v4 unified_diff umask directory_size max_reads max_depth root w v h evs :
  (forall f g, spares O K f g -> J f -> J g) -> validate_snapshot decode sha256 to_json w = Ok v ->
  Inside O K root J (fs h) -> Forall (rely O K root J) (others h) ->
  J (fs (disk (validate_and_apply sha256 new_v4 unified_diff umask directory_size max_reads max_depth root v {| disk := h; events := evs |}).2)).
Proof.
  intros HJ V%validate_snapshot_Ok I R. assert (Hr : root ∉ O) by (by destruct I).
  assert (Pl : Forall (fun c => plain (names c)) (changes v)) by (apply Forall_forall; intros c; by eapply valid_plain).
  destruct (safe_validate_and_apply O K root J HJ sha256 new_v4 unified_diff umask directory_size max_reads max_depth root v Hr Pl {| disk := h; events := evs |}) as [_ H].
  - apply Forall_forall. done.
  - by split.
  - destruct ((validate_and_apply _ _ _ _ _ _ _ _ _ _).1); [destruct H as [[[] _] _]|destruct H as [[] _]..]; done.
Qed.
(** Another process makes time pass; [7] is the directory that the share is in, and [8]
    a file in it. *)
Definition Example_tick (f : Fs) : Fs := f <| clock := (9, 0) |>.
Definition Example_outside : Inode := {| node := RegularFile (str "secret"); perm := 384; dev := 1; mtime := (0, 0); ctime := (0, 0) |}.
Definition Example_parent : Inode :=
  {| node := DirectoryNode {[ str "share" := 1; str "secret" := 8 ]} true; perm := 493; dev := 1; mtime := (0, 0); ctime := (0, 0) |}.
Definition Example_host : Host :=
  {| fs := {| inodes := {[ 1 := Example.empty_root; 7 := Example_parent; 8 := Example_outside ]}; clock := (5, 0); above := {[ 1 := 7 ]} |};
     others := [Example_tick]; drawn := 0 |}.
Lemma application_confined_witness :
  let after := fs (disk (validate_and_apply Example.sha256 (fun _ => str "u") (fun _ _ => []) 18 (fun _ => 0) 5 5 1 Example.validated
    {| disk := Example_host; events := [Runs; Fails [] false] |}).2) in
  inodes after !! 7 = Some Example_parent /\ inodes after !! 8 = Some Example_outside.
Proof.
  apply (application_confined {[7; 8]} {[8]} (fun f => inodes f !! 7 = Some Example_parent /\ inodes f !! 8 = Some Example_outside) Some Example.sha256 Example.to_json)
    with (w := Example.snapshot).
  - intros f g [H _] E. rewrite !H; [done|set_solver..].
  - vm_compute. reflexivity.
  - constructor; [set_solver|set_solver| |intros d x es l n i|done].
    + intros i x ->%elem_of_singleton [= <-]. by eexists.
    + intros Hd Ex Ed En. cbn in Ex. assert (d <> 7 /\ d <> 8) as [N7 N8] by set_solver. destruct (decide (d = 1)) as [->|N].
      * cbn in Ex. injection Ex as <-. injection Ed as <- <-. done.
      * rewrite !lookup_insert_ne, lookup_singleton_ne in Ex; done.
  - apply Forall_singleton. intros f I. destruct I as [I1 I2 I3 I4 I5]. by constructor.
Defined.

(** ** Exactness *)
Section exactness.
Context (decode : bytes -> option bytes) (sha256 : bytes -> bytes) (to_json : list ShareOverlayChange -> option bytes)
        (new_v4 : nat -> bytes) (unified_diff : bytes -> bytes -> bytes) (umask : Z) (directory_size : gmap bytes Z -> Z) (max_reads max_depth : nat).

(** C10: An application is exact, and all or nothing where it reports anything.  On a
    share that no other process is using, and whatever calls fail: when [Applied] is
    returned every captured version still matched, and the share is exactly as the
    changes say: each proposal is at its path with its contents and mode, everything
    else at or below a removed or replaced path is gone, and every other path is as it
    was; when conflicts are returned they are those of the changes whose versions do not
    match, and nothing was changed.  When no call fails, and the changes are
    [Applicable], one of the two is returned. *)
Theorem application_exact w v f root drawn evs :
  validate_snapshot decode sha256 to_json w = Ok v -> typed w -> Shaped f root ->
  let run := validate_and_apply sha256 new_v4 unified_diff umask directory_size max_reads max_depth root v
               {| disk := {| fs := f; others := []; drawn := drawn |}; events := evs |} in
  let found := lease_conflicts sha256 unified_diff directory_size f root v in
  let after := fs (disk run.2) in
  match run.1 with
  | Ok Applied => found = [] /\ Shaped after root /\ forall q, look after root q = applied (changes v) (look f root) q
  | Ok (Conflicts reported) => reported = found /\ found <> [] /\ after = f
  | _ => True
  end
  /\ (evs = [] -> Applicable new_v4 directory_size max_reads max_depth f root (changes v) -> run.1 = Ok (match found with [] => Applied | _ :: _ => Conflicts found end)).
Proof.
  intros V%validate_snapshot_Ok Ty Sh run found after. set (h := {| fs := f; others := []; drawn := drawn |}).
  assert (I : Is h root (look f root)) by done.
  assert (Main := fun ok Hok excused Calm HE => tr_validate_and_apply decode sha256 to_json new_v4 unified_diff umask directory_size max_reads max_depth
    ok Hok excused Calm w v h root V Ty I HE).
  split.
  - destruct (Main any_event Logic.I True (or_introl Logic.I) (or_introl Logic.I) {| disk := h; events := evs |}) as [_ H]; [by apply Forall_forall|done|].
    change (validate_and_apply _ _ _ _ _ _ _ _ _ _) with run in H. destruct run.1 as [[|l]| |]; [|..|done|done].
    + destruct H as (? & _ & ? & ?). done.
    + destruct H as (? & ? & E). split_and!; [done|done|]. unfold after. by rewrite E.
  - intros -> A. destruct (Main no_event eq_refl False (or_intror (fun e E => E)) (or_intror A) {| disk := h; events := [] |}) as [_ H]; [constructor|done|].
    change (validate_and_apply _ _ _ _ _ _ _ _ _ _) with run in H. destruct run.1 as [[|l]| |]; [..|done|done].
    + destruct H as (E & _). change (found = []) in E. by rewrite E.
    + destruct H as (E & N & _). change (l = found) in E. change (found <> []) in N. rewrite E. by destruct found.
Qed.
End exactness.

Definition Example_run := validate_and_apply Example.sha256 (fun _ => str "u") (fun _ _ => []) 18 (fun _ => 0) 5 5 1 Example.validated
  {| disk := {| fs := Example.empty; others := []; drawn := 0 |}; events := [] |}.
Lemma empty_walk q i : walk Example.empty 1 q = Some i -> q = [] /\ i = 1.
Proof. destruct q as [|n q]; [by intros [= <-]|]. unfold walk, step. vm_compute. done. Qed.
Lemma empty_shaped : Shaped Example.empty 1.
Proof.
  constructor.
  - by exists ∅.
  - intros p i [-> ->]%empty_walk. by eexists.
  - intros p i es l [-> ->]%empty_walk [= <- <-]. done.
  - intros p q i es l [-> ->]%empty_walk [-> _]%empty_walk. done.
Qed.
Lemma empty_look q : q <> [] -> look Example.empty 1 q = None.
Proof. intros N. unfold look. destruct (walk Example.empty 1 q) as [i|] eqn:W; [|done]. by apply empty_walk in W as [-> _]. Qed.
Lemma empty_applicable : Applicable (fun _ => str "u") (fun _ => 0) 5 5 Example.empty 1 (changes Example.validated).
Proof.
  constructor.
  - intros q i x [-> ->]%empty_walk [= <-]. by vm_compute.
  - intros c p n ->%list_elem_of_singleton _ E. left. destruct p as [|m p]; [done|]. by destruct p.
  - by intros c ->%list_elem_of_singleton.
  - intros p m _. apply empty_look. by destruct p.
  - intros q H. destruct q as [|m q]; [cbn; lia|]. by rewrite empty_look in H.
  - by intros c m q ->%list_elem_of_singleton.
  - intros p k. apply empty_look. by destruct p.
  - intros c p k ->%list_elem_of_singleton E. cbn in E. destruct p as [|m p]; [by vm_compute in E|by destruct p].
Qed.
Lemma application_exact_witness : Example_run.1 = Ok Applied /\ look (fs (disk Example_run.2)) 1 [str "a"] = Some (TFile 420 (str "new")).
Proof.
  destruct (application_exact Some Example.sha256 Example.to_json (fun _ => str "u") (fun _ _ => []) 18 (fun _ => 0) 5 5
    Example.snapshot Example.validated Example.empty 1 0 []) as [H1 H2].
  - vm_compute. reflexivity.
  - intros c e ->%list_elem_of_singleton [= <-]. vm_compute. discriminate.
  - apply empty_shaped.
  - specialize (H2 eq_refl empty_applicable). cbv zeta in H1. fold Example_run in H1. change (Example_run.1 = Ok Applied) in H2. split; [done|].
    rewrite H2 in H1. destruct H1 as (_ & _ & ->). vm_compute. reflexivity.
Defined.

(** ** Approvals *)
Section approvals.
Context (decode : bytes -> option bytes) (sha256 : bytes -> bytes) (to_json : list ShareOverlayChange -> option bytes)
        (new_v4 : nat -> bytes) (unified_diff : bytes -> bytes -> bytes) (umask : Z) (directory_size : gmap bytes Z -> Z) (max_reads max_depth : nat)
        (encoded_len : StoredShareOverlayApproval -> Z) (overlay_share : bytes -> bytes -> option Z) (generate : nat -> bytes).

(** C12: An approval applies the revision that was reviewed, or nothing is claimed.
    Whatever the guest replies, whatever calls fail or never return, and whatever other
    processes do: the guest is told that its revision was applied only when it had sent a
    valid snapshot with the approved digest and the application of that snapshot to the
    share of the workspace has succeeded; [Applied] is answered only when it was told so
    and the request is gone from memory and from disk, with every other request left as
    it was; when the answer is conflicts or a changed revision, the request is still
    pending, and so it is in memory after an error.  If in addition no other process uses
    the shares meanwhile, a share that was applied to is exactly what the approved
    changes make of it, and after conflicts or a changed revision nothing was changed. *)
Theorem approved_revision_applied w i a evs :
  approvals w !! i = Some a ->
  let run := resolve_approval decode sha256 to_json new_v4 unified_diff umask directory_size max_reads max_depth overlay_share (a_workspace a) i Approve
               {| disk := w; events := evs |} in
  match run.1 with
  | Ok r => Resolved decode sha256 to_json new_v4 unified_diff umask directory_size max_reads max_depth overlay_share w i a r (disk run.2)
  | _ => Undecided decode sha256 to_json new_v4 unified_diff umask directory_size max_reads max_depth overlay_share w i a (disk run.2)
  end.
Proof.
  intros Ha run. destruct (ends_approve decode sha256 to_json new_v4 unified_diff umask directory_size max_reads max_depth overlay_share
    w i a Ha {| disk := w; events := evs |}) as [_ H]; [by apply Forall_forall|done|]. change (resolve_approval _ _ _ _ _ _ _ _ _ _ _ _ _ _) with run in H.
  by destruct run.1.
Qed.

(** C13: Pending requests survive and agree with the disk.  When the service starts, its
    requests are exactly the records on disk, all of them valid and under their
    identifiers, or it does not start.  If these are at most one for each share, then
    after any history of calls, with any failures, and whatever happens elsewhere, every
    pending request is valid, is the only one for its share of its pod, and has its record
    on disk; the only exception is one whose record went away in a call that removes
    requests and failed (the set [lost] of the history). *)
Theorem approvals_consistent w evs :
  (forall n m, generate n = generate m -> n = m) -> (forall n, (generated w <= n)%nat -> records w !! generate n = None) ->
  let started := open {| disk := w; events := evs |} in
  started.1 = Ok tt ->
  Mirrors (disk started.2) /\ Pending generate ∅ (disk started.2)
  /\ (Unique (disk started.2) -> forall lost w',
       rtc (happens decode sha256 to_json new_v4 unified_diff umask directory_size max_reads max_depth encoded_len overlay_share generate) (∅, disk started.2) (lost, w') ->
       Consistent generate lost w').
Proof.
  intros Inj Fresh started Hs. destruct (ends_open w {| disk := w; events := evs |}) as [_ H]; [by apply Forall_forall|done|].
  change (open _) with started in H. rewrite Hs in H. destruct H as (E & Mr & V). injection E as Er Eg.
  assert (P : Pending generate ∅ (disk started.2)).
  { constructor; [done| |].
    - intros i a Ha. right. by apply Mr.
    - intros n Hn. rewrite Eg in Hn. specialize (Fresh n Hn). rewrite Er. split; [done|].
      destruct (approvals (disk started.2) !! generate n) eqn:X; [|done]. apply Mr in X as [size X]. by rewrite Er, Fresh in X. }
  split_and!; [done|done|]. intros U lost w' R. by apply (history_consistent _ _ _ _ _ _ _ _ _ _ _ _ Inj _ _ R).
Qed.
End approvals.

Definition Example_pod : bytes := str "pod_" ++ repeat 49 22.
Definition Example_request : StoredShareOverlayApproval :=
  {| a_version := 1; a_id := str "i"; a_workspace := str "w"; a_pod_id := Example_pod; a_share := str "s"; a_created_at := 0;
     a_revision := revision Example.validated; a_changes := [] |}.
Definition Example_share (workspace share : bytes) : option Z := Some 1.
Definition Example_id (n : nat) : bytes := repeat 97 (S n).
Definition Example_world (replies : list GuestMessage) (pending : list StoredShareOverlayApproval) : World :=
  {| host := {| fs := Example.empty; others := []; drawn := 0 |}; inbox := replies; sent := []; store_root := Some true;
     records := list_to_map (map (fun a => (a_id a, Regular (Some a) 1)) pending); approvals := list_to_map (map (fun a => (a_id a, a)) pending);
     generation := 0; now := 1; generated := 0 |}.
Definition Example_resolve (d : ShareOverlayApprovalDecision) (evs : list Event) (w : World) :=
  resolve_approval Some Example.sha256 Example.to_json (fun _ => str "u") (fun _ _ => []) 18 (fun _ => 0) 5 5 Example_share (str "w") (str "i") d {| disk := w; events := evs |}.
Definition Example_call (c : Call) (evs : list Event) (w : World) :=
  call Some Example.sha256 Example.to_json (fun _ => str "u") (fun _ _ => []) 18 (fun _ => 0) 5 5 (fun _ => 1) Example_share Example_id c {| disk := w; events := evs |}.
Definition Example_approve := Example_resolve Approve [] (Example_world [Prepared (Snapshot Example.snapshot); Completed Complete] [Example_request]).
Lemma Example_ready pending rest : (forall s, Prepared (Snapshot s) ∈ rest -> s = Example.snapshot) -> SharesReady Example_share (Example_world rest pending).
Proof.
  intros H. split_and!; [done|intros ? ? ? [= <-]; apply empty_shaped|]. intros s ->%H c e ->%list_elem_of_singleton [= <-]. vm_compute. discriminate.
Qed.
Lemma approved_revision_applied_witness :
  Example_approve.1 = Ok ResolvedApplied /\ look (fs (host (disk Example_approve.2))) 1 [str "a"] = Some (TFile 420 (str "new"))
  /\ approvals (disk Example_approve.2) = ∅ /\ records (disk Example_approve.2) = ∅.
Proof.
  assert (E : Example_approve.1 = Ok ResolvedApplied) by (vm_compute; reflexivity). split; [exact E|].
  pose proof (approved_revision_applied Some Example.sha256 Example.to_json (fun _ => str "u") (fun _ _ => []) 18 (fun _ => 0) 5 5 Example_share
    (Example_world [Prepared (Snapshot Example.snapshot); Completed Complete] [Example_request]) (str "i") Example_request []) as H.
  cbv zeta in H. change (resolve_approval _ _ _ _ _ _ _ _ _ _ _ _ _ _) with Example_approve in H. rewrite E in H.
  destruct H as (_ & (root & s & v & evs & [= <-] & [= <-] & Hv & _ & _ & L) & -> & ->); [|destruct L as (_ & _ & L)].
  - reflexivity.
  - apply Example_ready. intros s0 [[= ->]|[=]%list_elem_of_singleton]%elem_of_cons. reflexivity.
  - rewrite L. assert (validate_snapshot Some Example.sha256 Example.to_json Example.snapshot = Ok Example.validated) as Hv' by (vm_compute; reflexivity).
    rewrite Hv' in Hv. injection Hv as <-. split_and!; vm_compute; reflexivity.
Defined.

Definition Example_submit : Call := CallRequest (str "w") Example_pod (str "s").
Definition Example_start := open {| disk := Example_world [Prepared (Snapshot Example.snapshot)] []; events := [] |}.
Definition Example_submitted := Example_call Example_submit [] (disk Example_start.2).
Lemma approvals_consistent_witness : Consistent Example_id ∅ (disk Example_submitted.2) /\ size (approvals (disk Example_submitted.2)) = 1%nat.
Proof.
  split; [|vm_compute; reflexivity].
  refine (proj2 (proj2 (approvals_consistent Some Example.sha256 Example.to_json (fun _ => str "u") (fun _ _ => []) 18 (fun _ => 0) 5 5 (fun _ => 1) Example_share Example_id
    (Example_world [Prepared (Snapshot Example.snapshot)] []) [] _ _ _)) _ _ _ _).
  - intros n m E. apply (f_equal length) in E. unfold Example_id in E. rewrite !repeat_length in E. lia.
  - reflexivity.
  - vm_compute. reflexivity.
  - intros i j a b. assert (approvals (disk Example_start.2) = ∅) as E by (vm_compute; reflexivity). unfold Example_start in E. rewrite E. intros [=].
  - apply rtc_once. apply (happens_call _ _ _ _ _ _ _ _ _ _ _ _ ∅ (disk Example_start.2) Example_submit []).
Defined.

(** ** What the service does not do *)
(** The same request made again after the directory could not be synchronized, and a
    restart. *)
Definition Example_retry : World :=
  let failed := disk (Example_call Example_submit (repeat Runs 10 ++ [Fails [] false]) (disk Example_start.2)).2 in
  let again := disk (Example_call Example_submit [] (failed <| inbox := [Prepared (Snapshot Example.snapshot)] |>)).2 in
  disk (open {| disk := again; events := [] |}).2.
(** A request that fails although its record is in place is not known to the service,
    which accepts another for the same share; after a restart both are pending. *)
Lemma failed_request_duplicated :
  ~ Unique Example_retry
  /\ (Example_call Example_submit (repeat Runs 10 ++ [Fails [] false]) (disk Example_start.2)).1 = Err (storage_error Io).
Proof.
  split; [|vm_compute; reflexivity]. intros U.
  assert (Example_id 0 = Example_id 1) as E; [|discriminate E].
  eapply (U (Example_id 0) (Example_id 1)); [vm_compute; reflexivity..].
Qed.

(** A request whose record is gone while it is still pending in memory can be neither
    cancelled nor rejected, whatever succeeds. *)
Section stuck.
Context (decode : bytes -> option bytes) (sha256 : bytes -> bytes) (to_json : list ShareOverlayChange -> option bytes)
        (new_v4 : nat -> bytes) (unified_diff : bytes -> bytes -> bytes) (umask : Z) (directory_size : gmap bytes Z -> Z) (max_reads max_depth : nat)
        (overlay_share : bytes -> bytes -> option Z).
Lemma ends_remove_record_missing w i (Q : unit -> World -> Prop) : records w !! i = None -> ends w (remove_record i) Q (fun w' => w' = w).
Proof.
  intros E. unfold remove_record. eapply ends_bind; [by apply (ends_get w (fun a w' => a = w /\ w' = w))|]. intros a w' [-> ->]. rewrite E.
  eapply ends_bind; [by apply (ends_syscall w _ id (fun _ w' => w' = w))|]. intros [] w' ->. by apply ends_raise.
Qed.
Lemma unfiled_request_stuck w i a evs : approvals w !! i = Some a -> records w !! i = None ->
  let cancelled := cancel_approval (a_workspace a) (a_pod_id a) i {| disk := w; events := evs |} in
  let rejected := resolve_approval decode sha256 to_json new_v4 unified_diff umask directory_size max_reads max_depth overlay_share (a_workspace a) i Reject {| disk := w; events := evs |} in
  is_ok cancelled.1 = false /\ disk cancelled.2 = w /\ is_ok rejected.1 = false /\ disk rejected.2 = w.
Proof.
  intros Ha Hr cancelled rejected.
  assert (End : forall B (m : act B), ends w m (fun _ _ => False) (fun w' => w' = w) -> is_ok (m {| disk := w; events := evs |}).1 = false /\ disk (m {| disk := w; events := evs |}).2 = w).
  { intros B m H. destruct (H {| disk := w; events := evs |}) as [_ X]; [by apply Forall_forall|done|]. by destruct ((m _).1). }
  assert (C : ends w (cancel_approval (a_workspace a) (a_pod_id a) i) (fun _ _ => False) (fun w' => w' = w)).
  { unfold cancel_approval. eapply ends_bind; [by apply (ends_get w (fun x w' => x = w /\ w' = w))|]. intros x w' [-> ->]. rewrite Ha.
    rewrite !bool_decide_true by done. cbn [negb orb]. eapply ends_bind; [by apply (ends_remove_record_missing w i (fun _ _ => False))|done]. }
  assert (R : ends w (resolve_approval decode sha256 to_json new_v4 unified_diff umask directory_size max_reads max_depth overlay_share (a_workspace a) i Reject) (fun _ _ => False) (fun w' => w' = w)).
  { unfold resolve_approval. eapply ends_bind; [by apply (ends_get w (fun x w' => x = w /\ w' = w))|]. intros x w' [-> ->]. rewrite Ha.
    rewrite bool_decide_true by done. cbn [negb]. eapply (ends_bind _ _ _ (fun _ _ => False)); [|done]. unfold remove.
    eapply ends_bind; [by apply (ends_remove_record_missing w i (fun _ _ => False))|done]. }
  by destruct (End _ _ C), (End _ _ R).
Qed.
End stuck.

(** ** Edits below a removed directory *)
(** A share with the file [d/x], whose contents were edited in place at [edited]. *)
Definition Example_directory : Inode := {| node := DirectoryNode {[ str "x" := 3 ]} true; perm := 493; dev := 1; mtime := (1, 0); ctime := (1, 0) |}.
Definition Example_edited (contents : bytes) (edited : Z * Z) : Fs :=
  {| inodes := {[ 1 := {| node := DirectoryNode {[ str "d" := 2 ]} true; perm := 493; dev := 1; mtime := (0, 0); ctime := (0, 0) |};
                  2 := Example_directory;
                  3 := {| node := RegularFile contents; perm := 420; dev := 1; mtime := edited; ctime := edited |} ]};
     clock := (9, 0); above := {[ 2 := 1 ]} |}.
(** The removal of [d], as it was captured. *)
Definition Example_removal : ValidatedSnapshot :=
  {| revision := []; changes := [{| names := [str "d"];
       base := Some {| base_version := {| o_kind := Directory; o_size := 0; o_mode := 493; o_digest := None |};
                       modified_seconds := 1; modified_nanoseconds := 0; changed_seconds := 1; changed_nanoseconds := 0 |};
       opaque := false; proposal := None |}] |}.
Definition Example_remove (contents : bytes) (edited : Z * Z) :=
  validate_and_apply Example.sha256 (fun _ => str "u") (fun _ _ => []) 18 (fun _ => 0) 5 5 1 Example_removal
    {| disk := {| fs := Example_edited contents edited; others := []; drawn := 0 |}; events := [] |}.
(** The version of a directory does not cover what is below it.  When the removal of
    a directory was captured, a file in it that is edited on the host afterwards,
    whatever its contents and whenever that was, is no conflict: the approved removal is
    applied, and the edit is lost. *)
Theorem removal_loses_host_edits contents edited :
  look (Example_edited contents edited) 1 [str "d"; str "x"] = Some (TFile 420 contents)
  /\ (Example_remove contents edited).1 = Ok Applied
  /\ look (fs (disk (Example_remove contents edited).2)) 1 [str "d"; str "x"] = None.
Proof. split_and!; vm_compute; reflexivity. Qed.

(** ** Opaque directories below new ones *)
Definition Example_opaque (names : path) (hides : bool) : ValidatedChange :=
  {| names := names; base := None; opaque := hides;
     proposal := Some {| entry_version := {| o_kind := Directory; o_size := 0; o_mode := 493; o_digest := None |}; entry_contents := None |} |}.
(** A new directory [n] with the directory [n/e], which was opaque where it was renamed
    from: there is no conflict, and the application fails although no call does. *)
Lemma opaque_below_new_fails :
  let v := {| revision := []; changes := [Example_opaque [str "n"] false; Example_opaque [str "n"; str "e"] true] |} in
  (validate_and_apply Example.sha256 (fun _ => str "u") (fun _ _ => []) 18 (fun _ => 0) 5 5 1 v
    {| disk := {| fs := Example.empty; others := []; drawn := 0 |}; events := [] |}).1 = Err (io_error "traverse pinned overlay host share").
Proof. vm_compute. reflexivity. Qed.
