(* ===== verification/HostopPlan.v ===== *)
(** * Plans of host operations

    [plan.rs] and [catalog.rs] of [tascarrel-hostd/src/services/host_operations], with
    the types of [tascarrel-api/schemas/host_operations.sidex] and the command
    definitions of [config.sidex]: how a request of a pod becomes the program, the
    arguments, the directory and the environment of a process on the host.

    Strings and paths are their bytes.  A map of the configuration is a [gmap]; the code
    walks it in the order of a hash table and stops at the first error, here in the order
    of [map_to_list].  The [regex] crate, [canonicalize] with the metadata of a file, the
    environment of the process and the texts of their errors are parameters or left out. *)

From S2P Require Import Prelude Lists Text Utf8 LinkPolicy ShareTypes.

(** ** Definitions of commands *)
Record WorkspaceHostCommandParameterConfig := {
  pc_required : option bool; pc_default : option bytes; pc_allowed_values : option (list bytes); pc_pattern : option bytes
}.
Inductive WorkspaceHostCommandCapture := CaptureWorkingTree | CaptureCleanHead | CaptureCommit | CapturePublishedRef.
Record WorkspaceHostCommandInputConfig := { ic_repository : bytes; ic_capture : option WorkspaceHostCommandCapture }.
Inductive WorkspaceHostCommandApproval := Always.
Record WorkspaceHostCommandEnvironmentConfig := { ec_inherit : option (list bytes); ec_values : option (gmap bytes bytes) }.
Record WorkspaceHostCommandConfig := {
  hc_description : option bytes; hc_program : bytes; hc_arguments : option (list bytes); hc_working_directory : option bytes;
  hc_parameters : option (gmap bytes WorkspaceHostCommandParameterConfig);
  hc_inputs : option (gmap bytes WorkspaceHostCommandInputConfig);
  hc_environment : option WorkspaceHostCommandEnvironmentConfig;
  hc_approval : option WorkspaceHostCommandApproval; hc_timeout_seconds : option Z
}.
(** The configured repositories and commands of a workspace. *)
Record WorkspaceConfig := { wc_repos : option (gset bytes); wc_host_commands : option (gmap bytes WorkspaceHostCommandConfig) }.
(** [ConfigChangedEvent]: the last valid configuration and the last error. *)
Record ConfigSnapshot := { cs_config : option WorkspaceConfig; cs_last_config_error : option bytes }.

(** ** Operations *)
Inductive HostOperationCapture := WorkingTree | CleanHead | Commit | PublishedRef.
Record HostOperationInput := {
  in_name : bytes; in_repository : bytes; in_capture : HostOperationCapture; in_revision : option bytes;
  in_base_revision : option bytes; in_materialized_path : option bytes; in_change_summary : option bytes
}.
Record HostOperationPendingInput := { pi_name : bytes; pi_repository : bytes; pi_capture : HostOperationCapture }.
Record HostOperationStarted := { approved_by : Actor; approved_at : Z; pid : option Z }.
Record HostOperationFinished := { finished_at : Z; exit_code : option Z; signal : option Z }.
Record HostOperationFailure := { failure_message : bytes; failed_at : Z; failure_exit_code : option Z; failure_signal : option Z }.
Inductive HostOperationState :=
| Preparing | AwaitingApproval (postponed : bool) | Starting (s : HostOperationStarted) | Running (s : HostOperationStarted)
| Succeeded (f : HostOperationFinished) | Failed (f : HostOperationFailure) | Rejected (f : HostOperationFinished)
| Canceled (f : HostOperationFinished) | Interrupted (f : HostOperationFinished).
Record HostOperation := {
  op_id : bytes; op_workspace : bytes; op_pod_id : bytes; op_command : bytes; op_description : option bytes;
  op_requested_by : Actor; op_created_at : Z; op_state : HostOperationState; op_parameters : gmap bytes bytes;
  op_program : bytes; op_arguments : list bytes; op_working_directory : option bytes;
  op_environment_names : list bytes; op_inputs : list HostOperationInput
}.
Record StoredEnvironment := { inherit : gset bytes; env_values : gmap bytes bytes }.
Record StoredOperation := {
  operation : HostOperation; environment : StoredEnvironment; timeout_seconds : option Z; pending_inputs : gset bytes
}.
#[export] Instance eta_HostOperation : Eta HostOperation := fun o =>
  {| op_id := op_id o; op_workspace := op_workspace o; op_pod_id := op_pod_id o; op_command := op_command o;
     op_description := op_description o; op_requested_by := op_requested_by o; op_created_at := op_created_at o;
     op_state := op_state o; op_parameters := op_parameters o; op_program := op_program o; op_arguments := op_arguments o;
     op_working_directory := op_working_directory o; op_environment_names := op_environment_names o; op_inputs := op_inputs o |}.
#[export] Instance eta_StoredOperation : Eta StoredOperation := fun s =>
  {| operation := operation s; environment := environment s; timeout_seconds := timeout_seconds s; pending_inputs := pending_inputs s |}.

Inductive HostOperationServiceError :=
| InvalidRequest (message : bytes) | InvalidConfiguration (message : bytes) | NotFound
| Unavailable (message : bytes) | Internal (message : bytes).

(** ** Names *)
Definition name_byte (b : Z) : bool := is_ascii_alphanumeric b || (b =? 45) || (b =? 95).
Definition validate_name (name kind : bytes) : outcome HostOperationServiceError unit :=
  if bool_decide (name = []) || (128 <? len name) || negb (forallb name_byte name)
  then Err (InvalidConfiguration (kind ++ str " name `" ++ name ++ str "` must use 1-128 ASCII letters, digits, hyphens, or underscores"))
  else Ok tt.
Definition environment_byte (b : Z) : bool := is_ascii_alphanumeric b || (b =? 95).
Definition valid_environment_name (name : bytes) : bool :=
  match name with
  | [] => false
  | first :: rest => (is_ascii_alphabetic first || (first =? 95)) && forallb environment_byte rest
  end.
Definition validate_environment_name (name : bytes) : outcome HostOperationServiceError unit :=
  if valid_environment_name name then Ok tt else Err (InvalidConfiguration (str "environment name `" ++ name ++ str "` is invalid")).

(** A check of every element, up to the first error. *)
Fixpoint check_each {E A} (f : A -> outcome E unit) (l : list A) : outcome E unit :=
  match l with
  | [] => Ok tt
  | a :: rest => let? _ := f a in check_each f rest
  end.
(** The entries of an optional map, the elements of an optional list. *)
Definition entries_of {A} (m : option (gmap bytes A)) : list (bytes * A) := match m with Some m => map_to_list m | None => [] end.
Definition elements_of {A} (l : option (list A)) : list A := match l with Some l => l | None => [] end.

Section plan.
(** [Regex::new], with [is_match] of the expression. *)
Variable regex : bytes -> option (bytes -> bool).
(** [executable]: the canonical path of an executable file. *)
Variable executable : bytes -> option bytes.
(** [env::var_os]. *)
Variable var_os : bytes -> option bytes.

Definition whole (pattern : bytes) : bytes := str "\A(?:" ++ pattern ++ str ")\z".
Definition expression (name pattern : bytes) : outcome HostOperationServiceError (bytes -> bool) :=
  ok_or (regex (whole pattern)) (InvalidConfiguration (str "parameter `" ++ name ++ str "` has an invalid pattern")).

(** ** Validation of a command *)
Definition validate_parameter (p : bytes * WorkspaceHostCommandParameterConfig) : outcome HostOperationServiceError unit :=
  let '(name, c) := p in
  let? _ := validate_name name (str "parameter") in
  if bool_decide (pc_required c = Some true) && bool_decide (is_Some (pc_default c))
  then Err (InvalidConfiguration (str "parameter `" ++ name ++ str "` is required and also defines a default"))
  else if bool_decide (pc_allowed_values c = Some [])
  then Err (InvalidConfiguration (str "parameter `" ++ name ++ str "` has an empty allowed-values list"))
  else match pc_pattern c with
       | Some pattern => let? _ := expression name pattern in Ok tt
       | None => Ok tt
       end.
Definition validate_input (repositories : option (gset bytes)) (p : bytes * WorkspaceHostCommandInputConfig) : outcome HostOperationServiceError unit :=
  let '(name, c) := p in
  let? _ := validate_name name (str "input") in
  if match repositories with None => true | Some repos => bool_decide (ic_repository c ∉ repos) end
  then Err (InvalidConfiguration (str "input `" ++ name ++ str "` selects an unconfigured repository `" ++ ic_repository c ++ str "`"))
  else Ok tt.
Definition validate_environment (e : WorkspaceHostCommandEnvironmentConfig) : outcome HostOperationServiceError unit :=
  let? _ := check_each validate_environment_name (elements_of (ec_inherit e)) in
  check_each (fun '(name, value) =>
    let? _ := validate_environment_name name in
    if contains 0 value then Err (InvalidConfiguration (str "environment value `" ++ name ++ str "` contains NUL")) else Ok tt)
    (entries_of (ec_values e)).
Definition validate_command (name : bytes) (c : WorkspaceHostCommandConfig) (w : WorkspaceConfig) : outcome HostOperationServiceError unit :=
  let? _ := validate_name name (str "command") in
  if bool_decide (hc_program c = []) || contains 0 (hc_program c) then Err (InvalidConfiguration (str "command program is empty or invalid"))
  else if bool_decide (hc_timeout_seconds c = Some 0) then Err (InvalidConfiguration (str "host command timeout must be greater than zero"))
  else
    let? _ := check_each (fun a => if contains 0 a then Err (InvalidConfiguration (str "host command argument contains NUL")) else Ok tt)
                (elements_of (hc_arguments c)) in
    if match hc_working_directory c with Some d => contains 0 d | None => false end
    then Err (InvalidConfiguration (str "host command working directory contains NUL"))
    else
      let? _ := check_each validate_parameter (entries_of (hc_parameters c)) in
      let? _ := check_each (validate_input (wc_repos w)) (entries_of (hc_inputs c)) in
      match hc_environment c with Some e => validate_environment e | None => Ok tt end.

(** ** Parameters *)
Definition resolve_parameter (requested : gmap bytes bytes) (name : bytes) (d : WorkspaceHostCommandParameterConfig) :
    outcome HostOperationServiceError (option bytes) :=
  match match requested !! name with Some v => Some v | None => pc_default d end with
  | None =>
      if match pc_required d with Some r => r | None => true end
      then Err (InvalidRequest (str "required parameter `" ++ name ++ str "` is missing")) else Ok None
  | Some value =>
      if contains 0 value then Err (InvalidRequest (str "parameter `" ++ name ++ str "` contains NUL"))
      else if match pc_allowed_values d with Some allowed => negb (bool_decide (value ∈ allowed)) | None => false end
      then Err (InvalidRequest (str "parameter `" ++ name ++ str "` is not one of its allowed values"))
      else
        let? _ :=
          match pc_pattern d with
          | None => Ok tt
          | Some pattern =>
              let? is_match := expression name pattern in
              if is_match value then Ok tt
              else Err (InvalidRequest (str "parameter `" ++ name ++ str "` does not match its configured pattern"))
          end in
        Ok (Some value)
  end.
Fixpoint resolve_loop (requested : gmap bytes bytes) (definitions : list (bytes * WorkspaceHostCommandParameterConfig)) (resolved : gmap bytes bytes) :
    outcome HostOperationServiceError (gmap bytes bytes) :=
  match definitions with
  | [] => Ok resolved
  | (name, d) :: rest =>
      let? v := resolve_parameter requested name d in
      resolve_loop requested rest (match v with Some value => <[name := value]> resolved | None => resolved end)
  end.
Definition declared (c : WorkspaceHostCommandConfig) (name : bytes) : bool :=
  match hc_parameters c with Some definitions => bool_decide (is_Some (definitions !! name)) | None => false end.
Definition resolve_parameters (c : WorkspaceHostCommandConfig) (requested : gmap bytes bytes) : outcome HostOperationServiceError (gmap bytes bytes) :=
  let? _ := check_each (fun '(name, _) =>
      if declared c name then Ok tt
      else Err (InvalidRequest (str "parameter `" ++ name ++ str "` is not declared by this command"))) (map_to_list requested) in
  resolve_loop requested (entries_of (hc_parameters c)) ∅.

(** ** Inputs *)
Definition resolve_capture (c : option WorkspaceHostCommandCapture) : HostOperationCapture :=
  match c with
  | None | Some CaptureWorkingTree => WorkingTree
  | Some CaptureCleanHead => CleanHead
  | Some CaptureCommit => Commit
  | Some CapturePublishedRef => PublishedRef
  end.
Definition resolve_inputs (c : WorkspaceHostCommandConfig) : list HostOperationInput * gset bytes :=
  let inputs := sort_by (fun a b => bytes_leb (in_name a) (in_name b))
    (map (fun '(name, i) =>
       {| in_name := name; in_repository := ic_repository i; in_capture := resolve_capture (ic_capture i);
          in_revision := None; in_base_revision := None; in_materialized_path := None; in_change_summary := None |})
       (entries_of (hc_inputs c))) in
  (inputs, list_to_set (map in_name inputs)).
Definition pending_input_list (s : StoredOperation) : list HostOperationPendingInput :=
  map (fun i => {| pi_name := in_name i; pi_repository := in_repository i; pi_capture := in_capture i |})
    (List.filter (fun i => bool_decide (in_name i ∈ pending_inputs s)) (op_inputs (operation s))).

(** ** Templates *)
Definition strip_suffix (suffix s : bytes) : option bytes := if ends_with suffix s then Some (takez (len s - len suffix) s) else None.
Definition placeholder (kind template : bytes) : option bytes := strip_prefix (str "${" ++ kind ++ str ".") template ≫= strip_suffix (str "}").
(** A whole placeholder has its value; a template without placeholders has none. *)
Definition expand_template (template : bytes) (parameters inputs : gmap bytes bytes) : outcome HostOperationServiceError (option bytes) :=
  match placeholder (str "parameters") template with
  | Some name =>
      let? value := ok_or (parameters !! name) (InvalidRequest (str "parameter placeholder `" ++ name ++ str "` has no value")) in
      Ok (Some value)
  | None =>
      match placeholder (str "inputs") template with
      | Some name =>
          let? path := ok_or (inputs !! name) (InvalidConfiguration (str "input placeholder `" ++ name ++ str "` is not declared")) in
          Ok (Some (Utf8.lossy path))
      | None =>
          if contains_str (str "${") template
          then Err (InvalidConfiguration (str "placeholders must occupy an entire argument and use parameters or inputs"))
          else Ok None
      end
  end.
Definition expand_argument (template : bytes) (parameters inputs : gmap bytes bytes) : outcome HostOperationServiceError bytes :=
  let? value := expand_template template parameters inputs in
  Ok (match value with Some v => v | None => template end).
Definition is_absolute (p : bytes) : bool := starts_with (str "/") p.
(** [Path::join] of a relative path. *)
Definition join_path (dir rest : bytes) : bytes :=
  if bool_decide (dir = []) || ends_with (str "/") dir then dir ++ rest else dir ++ str "/" ++ rest.
Definition is_normal (c : Component) : bool := match c with Normal _ => true | _ => false end.
Definition expand_working_directory (template work_dir : bytes) (parameters inputs : gmap bytes bytes) : outcome HostOperationServiceError bytes :=
  let? value := expand_template template parameters inputs in
  match value with
  | Some v => Ok v
  | None =>
      if is_absolute template then Ok template
      else if negb (forallb is_normal (components template))
      then Err (InvalidConfiguration (str "relative host command working directory must contain only normal components"))
      else Ok (join_path work_dir template)
  end.

(** ** Environment and executable *)
Definition resolve_environment (c : WorkspaceHostCommandConfig) : StoredEnvironment :=
  match hc_environment c with
  | None => {| inherit := ∅; env_values := ∅ |}
  | Some e => {| inherit := list_to_set (elements_of (ec_inherit e)); env_values := match ec_values e with Some m => m | None => ∅ end |}
  end.
Fixpoint inherit_loop (names : list bytes) (environment : gmap bytes bytes) : outcome HostOperationServiceError (gmap bytes bytes) :=
  match names with
  | [] => Ok environment
  | name :: rest =>
      match var_os name with
      | None => inherit_loop rest environment
      | Some value =>
          if Utf8.valid value then inherit_loop rest (<[name := value]> environment)
          else Err (InvalidConfiguration (str "inherited environment variable `" ++ name ++ str "` is not valid UTF-8"))
      end
  end.
Definition resolve_execution_environment (plan : StoredEnvironment) : outcome HostOperationServiceError (gmap bytes bytes) :=
  inherit_loop (elements (inherit plan)) (env_values plan).
(** [Iterator::find_map]. *)
Fixpoint find_executable (candidates : list bytes) : option bytes :=
  match candidates with
  | [] => None
  | p :: rest => match executable p with Some canonical => Some canonical | None => find_executable rest end
  end.
Definition resolve_executable (program : bytes) : outcome HostOperationServiceError bytes :=
  if is_absolute program then ok_or (executable program) (InvalidConfiguration (str "program is not executable: " ++ Utf8.lossy program))
  else if negb (bool_decide (length (components program) = 1%nat))
  then Err (InvalidConfiguration (str "program must be absolute or a bare executable name"))
  else
    let? search_path := ok_or (var_os (str "PATH")) (InvalidConfiguration (str "hostd PATH is unavailable")) in
    ok_or (find_executable (map (fun directory => join_path directory program) (split 58 search_path)))
      (InvalidConfiguration (str "program `" ++ program ++ str "` was not found in PATH")).

(** ** The plan of a request

    The part of [HostOperationService::request] before anything is stored; [root] is the
    directory of the storage, [id] and [now] are generated. *)
Record RequestHostOperationAction := { rq_workspace : bytes; rq_command : bytes; rq_parameters : gmap bytes bytes }.
Definition operation_dir (root id : bytes) : bytes := join_path root id.
Definition input_dir (root id name : bytes) : bytes := join_path (join_path (operation_dir root id) (str "inputs")) name.
Definition input_paths (root id : bytes) (c : WorkspaceHostCommandConfig) : gmap bytes bytes :=
  match hc_inputs c with
  | Some inputs => map_imap (fun name _ => Some (join_path (input_dir root id name) (str "tree"))) inputs
  | None => ∅
  end.
(** The names of a set in their order. *)
Definition sorted_names (s : gset bytes) : list bytes := sort_by bytes_leb (elements s).
Definition plan (root id : bytes) (now : Z) (q : RequestHostOperationAction) (requested_by : Actor)
    (snapshot : outcome HostOperationServiceError ConfigSnapshot) : outcome HostOperationServiceError StoredOperation :=
  match requested_by with
  | PodActor workspace pod =>
      if negb (bool_decide (workspace = rq_workspace q)) then Err (InvalidRequest (str "request workspace does not match the authenticated pod"))
      else
        let? s := snapshot in
        let? config := ok_or (cs_config s) (InvalidConfiguration (match cs_last_config_error s with Some m => m | None => str "workspace config is unavailable" end)) in
        let? definitions := ok_or (wc_host_commands config) (InvalidRequest (str "workspace defines no host commands")) in
        let? c := ok_or (definitions !! rq_command q) (InvalidRequest (str "host command is not configured")) in
        let? _ := validate_command (rq_command q) c config in
        let? parameters := resolve_parameters c (rq_parameters q) in
        let work_dir := join_path (operation_dir root id) (str "work") in
        let paths := input_paths root id c in
        let? program := resolve_executable (hc_program c) in
        let? arguments := collect (fun a => expand_argument a parameters paths) (elements_of (hc_arguments c)) in
        let? working_directory :=
          match hc_working_directory c with
          | Some d => expand_working_directory d work_dir parameters paths
          | None => Ok work_dir
          end in
        let environment := resolve_environment c in
        let '(inputs, pending) := resolve_inputs c in
        Ok {| operation :=
                {| op_id := id; op_workspace := rq_workspace q; op_pod_id := pod; op_command := rq_command q;
                   op_description := hc_description c; op_requested_by := requested_by; op_created_at := now;
                   op_state := if bool_decide (pending = ∅) then AwaitingApproval false else Preparing;
                   op_parameters := parameters; op_program := Utf8.lossy program; op_arguments := arguments;
                   op_working_directory := Some (Utf8.lossy working_directory);
                   op_environment_names := sorted_names (inherit environment ∪ dom (env_values environment));
                   op_inputs := inputs |};
              environment := environment; timeout_seconds := hc_timeout_seconds c; pending_inputs := pending |}
  | _ => Err (InvalidRequest (str "only a pod may request a host operation"))
  end.
End plan.

(** ** The catalog *)
Record HostCommandParameter := { cp_required : bool; cp_default : option bytes; cp_allowed_values : option (list bytes); cp_pattern : option bytes }.
Record HostCommandInput := { ci_repository : bytes; ci_capture : HostOperationCapture }.
Record HostCommand := {
  c_name : bytes; c_description : option bytes; c_program : bytes; c_arguments : list bytes; c_working_directory : option bytes;
  c_parameters : gmap bytes HostCommandParameter; c_inputs : gmap bytes HostCommandInput; c_environment_names : list bytes;
  c_timeout_seconds : option Z
}.
Record HostCommandList := { commands : list HostCommand; configuration_error : option bytes }.
Definition catalog_parameter (p : WorkspaceHostCommandParameterConfig) : HostCommandParameter :=
  {| cp_required := bool_decide (pc_default p = None) && match pc_required p with Some r => r | None => true end;
     cp_default := pc_default p; cp_allowed_values := pc_allowed_values p; cp_pattern := pc_pattern p |}.
Definition catalog_command (name : bytes) (c : WorkspaceHostCommandConfig) : HostCommand :=
  {| c_name := name; c_description := hc_description c; c_program := hc_program c; c_arguments := elements_of (hc_arguments c);
     c_working_directory := hc_working_directory c;
     c_parameters := match hc_parameters c with Some m => catalog_parameter <$> m | None => ∅ end;
     c_inputs := match hc_inputs c with
                 | Some m => (fun i => {| ci_repository := ic_repository i; ci_capture := resolve_capture (ic_capture i) |}) <$> m
                 | None => ∅ end;
     c_environment_names :=
       match hc_environment c with
       | Some e => sorted_names (list_to_set (elements_of (ec_inherit e) ++ map fst (entries_of (ec_values e))))
       | None => []
       end;
     c_timeout_seconds := hc_timeout_seconds c |}.
Definition host_command_catalog (s : ConfigSnapshot) : HostCommandList :=
  {| commands := sort_by (fun a b => bytes_leb (c_name a) (c_name b))
       (map (fun '(name, c) => catalog_command name c) (entries_of (cs_config s ≫= wc_host_commands)));
     configuration_error := cs_last_config_error s |}.

#[export] Instance HostOperationCapture_eq_dec : EqDecision HostOperationCapture.
Proof. solve_decision. Defined.
#[export] Instance HostCommandParameter_eq_dec : EqDecision HostCommandParameter.
Proof. solve_decision. Defined.
#[export] Instance HostCommandInput_eq_dec : EqDecision HostCommandInput.
Proof. solve_decision. Defined.
#[export] Instance HostCommand_eq_dec : EqDecision HostCommand.
Proof. solve_decision. Defined.
#[export] Instance HostCommandList_eq_dec : EqDecision HostCommandList.
Proof. solve_decision. Defined.
(** [HostCommandSubscription::recv] over the snapshots to come: the catalog, and those
    that are left. *)
Fixpoint catalog_recv (snapshots : list ConfigSnapshot) (previous : option HostCommandList) :
    outcome HostOperationServiceError (HostCommandList * list ConfigSnapshot) :=
  match snapshots with
  | [] => Err (Unavailable (str "configuration observation stopped"))
  | s :: rest =>
      let event := host_command_catalog s in
      if bool_decide (previous = Some event) then catalog_recv rest previous else Ok (event, rest)
  end.

(** ** Plans that are made *)
Section plans.
Context (regex : bytes -> option (bytes -> bool)) (executable var_os : bytes -> option bytes).
Lemma plan_inv root i now q requested_by snapshot s : plan regex executable var_os root i now q requested_by snapshot = Ok s ->
  exists v config definitions c parameters program arguments directory pod,
    snapshot = Ok v /\ cs_config v = Some config /\ wc_host_commands config = Some definitions /\ definitions !! rq_command q = Some c
    /\ requested_by = PodActor (rq_workspace q) pod
    /\ validate_command regex (rq_command q) c config = Ok tt /\ resolve_parameters regex c (rq_parameters q) = Ok parameters
    /\ resolve_executable executable var_os (hc_program c) = Ok program
    /\ collect (fun a => expand_argument a parameters (input_paths root i c)) (elements_of (hc_arguments c)) = Ok arguments
    /\ match hc_working_directory c with
       | Some d => expand_working_directory d (join_path (operation_dir root i) (str "work")) parameters (input_paths root i c)
       | None => Ok (join_path (operation_dir root i) (str "work"))
       end = Ok directory
    /\ s = {| operation :=
                {| op_id := i; op_workspace := rq_workspace q; op_pod_id := pod; op_command := rq_command q;
                   op_description := hc_description c; op_requested_by := requested_by; op_created_at := now;
                   op_state := if bool_decide ((resolve_inputs c).2 = ∅) then AwaitingApproval false else Preparing;
                   op_parameters := parameters; op_program := Utf8.lossy program; op_arguments := arguments;
                   op_working_directory := Some (Utf8.lossy directory);
                   op_environment_names := sorted_names (inherit (resolve_environment c) ∪ dom (env_values (resolve_environment c)));
                   op_inputs := (resolve_inputs c).1 |};
              environment := resolve_environment c; timeout_seconds := hc_timeout_seconds c; pending_inputs := (resolve_inputs c).2 |}.
Proof.
  unfold plan. destruct requested_by as [| | |workspace pod]; try done. destruct (bool_decide_reflect (workspace = rq_workspace q)) as [->|]; [|done]. cbn [negb].
  intros E. apply obind_Ok in E as (v & Ev & E). apply obind_Ok in E as (config & Ec & E). apply obind_Ok in E as (definitions & Ed & E).
  apply obind_Ok in E as (c & Eq & E). apply obind_Ok in E as ([] & Va & E). apply obind_Ok in E as (parameters & Pa & E).
  apply obind_Ok in E as (program & Pr & E). apply obind_Ok in E as (arguments & Ar & E). apply obind_Ok in E as (directory & Di & E).
  destruct (resolve_inputs c) as [inputs pending] eqn:In. injection E as <-. apply ok_or_Ok in Ec, Ed, Eq.
  exists v, config, definitions, c, parameters, program, arguments, directory, pod. by rewrite In.
Qed.
(** What a value of a parameter satisfies. *)
Definition chosen (q : RequestHostOperationAction) (name : bytes) (d : WorkspaceHostCommandParameterConfig) : option bytes :=
  match rq_parameters q !! name with Some v => Some v | None => pc_default d end.
Definition conforms (d : WorkspaceHostCommandParameterConfig) (value : bytes) : Prop :=
  0 ∉ value /\ (forall allowed, pc_allowed_values d = Some allowed -> value ∈ allowed)
  /\ (forall pattern, pc_pattern d = Some pattern -> exists is_match, regex (whole pattern) = Some is_match /\ is_match value = true).
Definition parameter_of (c : WorkspaceHostCommandConfig) (name : bytes) : option WorkspaceHostCommandParameterConfig :=
  match hc_parameters c with Some m => m !! name | None => None end.
Definition is_required (d : WorkspaceHostCommandParameterConfig) : bool := match pc_required d with Some r => r | None => true end.
Lemma resolve_parameter_Ok q name d v : resolve_parameter regex (rq_parameters q) name d = Ok v ->
  v = chosen q name d /\ (is_required d = true -> is_Some v) /\ (forall value, v = Some value -> conforms d value).
Proof.
  unfold resolve_parameter. fold (chosen q name d). destruct (chosen q name d) as [value|] eqn:C.
  - destruct (contains 0 value) eqn:N; [done|]. intros E. assert (N0 : 0 ∉ value) by (intros X%contains_spec; congruence).
    destruct (pc_allowed_values d) as [allowed|] eqn:A; [destruct (bool_decide_reflect (value ∈ allowed)) as [Ia|]; [|done]|]; cbn [negb] in E;
      apply obind_Ok in E as ([] & Ep & [= <-]); (split_and!; [done|by eexists|]); intros ? [= <-]; (split; [done|]); (split; [rewrite A; by intros ? [= <-]|]);
      intros pattern P; rewrite P in Ep; apply obind_Ok in Ep as (f & Ef & Ep); unfold expression in Ef; apply ok_or_Ok in Ef; exists f;
      (split; [done|by destruct (f value)]).
  - fold (is_required d). destruct (is_required d); [done|]. intros [= <-]. by split_and!.
Qed.
Lemma resolve_loop_Ok q l acc r : resolve_loop regex (rq_parameters q) l acc = Ok r -> NoDup l.*1 ->
  (forall name d, (name, d) ∈ l -> acc !! name = None -> resolve_parameter regex (rq_parameters q) name d = Ok (r !! name))
  /\ (forall name, name ∉ l.*1 -> r !! name = acc !! name).
Proof.
  revert acc. induction l as [|[n d] l IH]; intros acc; cbn [resolve_loop].
  - intros [= <-] _. split; [by intros ? ? ?%not_elem_of_nil|done].
  - intros E [N1 N2]%NoDup_cons. apply obind_Ok in E as (v & Ev & E). destruct (IH _ E N2) as [H1 H2]. split.
    + intros name d' [[= -> ->]|Hd]%elem_of_cons Ha.
      * rewrite Ev. f_equal. rewrite H2 by done. destruct v; [by rewrite lookup_insert_eq|done].
      * apply (H1 _ _ Hd). destruct v; [|done]. rewrite lookup_insert_ne; [done|]. intros <-. by apply N1, (list_elem_of_fmap_2 fst _ _ Hd).
    + intros name [N3 N4]%not_elem_of_cons. rewrite H2 by done. destruct v; [|done]. rewrite lookup_insert_ne; [done|]. by cbn in N3.
Qed.
Lemma check_each_Ok {E A} (f : A -> outcome E unit) l : check_each f l = Ok tt -> forall a, a ∈ l -> f a = Ok tt.
Proof.
  induction l as [|a l IH]; intros H x Hx; [by apply not_elem_of_nil in Hx|]. cbn in H. apply obind_Ok in H as ([] & H1 & H2).
  apply elem_of_cons in Hx as [->|Hx]; [done|by apply IH].
Qed.
Lemma resolve_parameters_Ok q c r : resolve_parameters regex c (rq_parameters q) = Ok r ->
  (forall name, is_Some (rq_parameters q !! name) -> is_Some (parameter_of c name))
  /\ (forall name d, parameter_of c name = Some d -> r !! name = chosen q name d /\ (is_required d = true -> is_Some (r !! name)) /\ forall value, r !! name = Some value -> conforms d value)
  /\ (forall name, parameter_of c name = None -> r !! name = None).
Proof.
  intros E. apply obind_Ok in E as ([] & Ed & E). split_and!.
  - intros name [v V]. apply elem_of_map_to_list in V. pose proof (check_each_Ok _ _ Ed _ V) as X. cbn in X. unfold declared, parameter_of in *.
    destruct (hc_parameters c) as [m|]; [|done]. by case_bool_decide.
  - intros name d P. unfold parameter_of, entries_of in *. destruct (hc_parameters c) as [m|]; [|done].
    destruct (resolve_loop_Ok _ _ _ _ E (NoDup_fst_map_to_list m)) as [H _]. apply resolve_parameter_Ok. apply H; [by apply elem_of_map_to_list|apply lookup_empty].
  - intros name P. unfold parameter_of, entries_of in *. destruct (hc_parameters c) as [m|]; cbn in E; [|injection E as <-; apply lookup_empty].
    destruct (resolve_loop_Ok _ _ _ _ E (NoDup_fst_map_to_list m)) as [_ H]. rewrite H; [apply lookup_empty|].
    intros ([n d] & -> & Hd)%list_elem_of_fmap. apply elem_of_map_to_list in Hd. cbn in P. congruence.
Qed.
(** A template and its text: a whole placeholder, or a text without placeholders. *)
Inductive expands (parameters inputs : gmap bytes bytes) : bytes -> bytes -> Prop :=
| expands_parameter name value : parameters !! name = Some value -> expands parameters inputs (str "${parameters." ++ name ++ str "}") value
| expands_input name path : inputs !! name = Some path -> expands parameters inputs (str "${inputs." ++ name ++ str "}") (Utf8.lossy path)
| expands_literal t : contains_str (str "${") t = false -> expands parameters inputs t t.
Lemma placeholder_Some kind t name : placeholder kind t = Some name -> t = str "${" ++ kind ++ str "." ++ name ++ str "}".
Proof.
  unfold placeholder. destruct (strip_prefix _ t) as [rest|] eqn:P; [|done]. cbn. unfold strip_suffix. destruct (ends_with (str "}") rest) eqn:S; [|done].
  intros [= <-]. apply strip_prefix_spec in P as ->. apply ends_with_spec in S as [pre ->]. rewrite <- !(assoc_L (++)). do 3 f_equal.
  rewrite takez_app_len; [done|]. rewrite len_app. lia.
Qed.
Lemma starts_contains needle rest : contains_str needle (needle ++ rest) = true.
Proof.
  unfold contains_str. apply bool_decide_eq_true. assert (E : strip_prefix needle (needle ++ rest) = Some rest) by by apply strip_prefix_spec.
  destruct (needle ++ rest); cbn [find_str]; rewrite E; by eexists.
Qed.
Lemma expand_template_Ok t parameters inputs v : expand_template t parameters inputs = Ok v ->
  match v with Some x => expands parameters inputs t x /\ contains_str (str "${") t = true | None => contains_str (str "${") t = false end.
Proof.
  unfold expand_template. destruct (placeholder (str "parameters") t) as [name|] eqn:P.
  - apply placeholder_Some in P. intros (value & Hv%ok_or_Ok & [= <-])%obind_Ok. rewrite P. split; [by apply (expands_parameter parameters inputs name)|].
    apply (starts_contains (str "${")).
  - destruct (placeholder (str "inputs") t) as [name|] eqn:I.
    + apply placeholder_Some in I. intros (path & Hv%ok_or_Ok & [= <-])%obind_Ok. rewrite I. split; [by apply (expands_input parameters inputs name)|].
      apply (starts_contains (str "${")).
    + destruct (contains_str _ t) eqn:C; [done|]. by intros [= <-].
Qed.
Lemma expand_argument_Ok t parameters inputs x : expand_argument t parameters inputs = Ok x -> expands parameters inputs t x.
Proof.
  intros (v & Ev%expand_template_Ok & [= <-])%obind_Ok. destruct v; [by destruct Ev|by constructor].
Qed.
(** The directory of a process: the one of the operation, an expanded placeholder, an
    absolute path, or one below the directory of the operation. *)
Inductive located (work_dir : bytes) (parameters inputs : gmap bytes bytes) : option bytes -> bytes -> Prop :=
| located_work : located work_dir parameters inputs None work_dir
| located_expanded t x : contains_str (str "${") t = true -> expands parameters inputs t x -> located work_dir parameters inputs (Some t) x
| located_absolute t : is_absolute t = true -> located work_dir parameters inputs (Some t) t
| located_below t : is_absolute t = false -> Forall (fun c => is_normal c = true) (components t) -> located work_dir parameters inputs (Some t) (join_path work_dir t).
Lemma expand_working_directory_Ok work_dir parameters inputs d x :
  match d with Some t => expand_working_directory t work_dir parameters inputs | None => Ok work_dir end = Ok x -> located work_dir parameters inputs d x.
Proof.
  destruct d as [t|]; [|intros [= <-]; constructor]. intros (v & Ev%expand_template_Ok & E)%obind_Ok. destruct v as [y|].
  - destruct Ev. injection E as <-. by constructor.
  - destruct (is_absolute t) eqn:A; [injection E as <-; by constructor|]. destruct (forallb is_normal (components t)) eqn:F; [|done]. injection E as <-.
    constructor; [done|]. by apply Forall_forall, forallb_forall in F || (apply List.Forall_forall; by apply forallb_forall).
Qed.
(** The executable: an absolute path, or a name in a directory of [PATH]. *)
Definition found (program canonical : bytes) : Prop :=
  (is_absolute program = true /\ executable program = Some canonical)
  \/ (is_absolute program = false /\ length (components program) = 1%nat /\ exists path directory,
        var_os (str "PATH") = Some path /\ directory ∈ split 58 path /\ executable (join_path directory program) = Some canonical).
Lemma find_executable_Some l p : find_executable executable l = Some p -> exists x, x ∈ l /\ executable x = Some p.
Proof.
  induction l as [|y l IH]; cbn; [done|]. destruct (executable y) eqn:Y.
  - intros [= <-]. exists y. split; [left|done].
  - intros H. destruct (IH H) as (x & Hx & Ex). exists x. split; [by right|done].
Qed.
Lemma resolve_executable_Ok program p : resolve_executable executable var_os program = Ok p -> found program p.
Proof.
  unfold resolve_executable, found. destruct (is_absolute program) eqn:A; [intros ?%ok_or_Ok; by left|]. destruct (bool_decide_reflect (length (components program) = 1%nat)); [|done]. cbn [negb].
  intros (path & Hp%ok_or_Ok & Hf%ok_or_Ok)%obind_Ok. right. split_and!; [done|done|]. apply find_executable_Some in Hf as (x & Hx & Ex).
  apply list_elem_of_In, in_map_iff in Hx as (directory & <- & Hd). exists path, directory. split_and!; [done|by apply list_elem_of_In|done].
Qed.
Definition input_of (c : WorkspaceHostCommandConfig) (name : bytes) : option WorkspaceHostCommandInputConfig :=
  match hc_inputs c with Some m => m !! name | None => None end.
Lemma entries_inputs c name d : (name, d) ∈ entries_of (hc_inputs c) <-> input_of c name = Some d.
Proof.
  unfold entries_of, input_of. destruct (hc_inputs c); [apply elem_of_map_to_list|]. split; [by intros ?%not_elem_of_nil|done].
Qed.
Definition unpinned (name : bytes) (d : WorkspaceHostCommandInputConfig) : HostOperationInput :=
  {| in_name := name; in_repository := ic_repository d; in_capture := resolve_capture (ic_capture d);
     in_revision := None; in_base_revision := None; in_materialized_path := None; in_change_summary := None |}.
Lemma resolve_inputs_spec c : (forall x, x ∈ (resolve_inputs c).1 <-> exists name d, input_of c name = Some d /\ x = unpinned name d)
  /\ (forall name, name ∈ (resolve_inputs c).2 <-> is_Some (input_of c name)).
Proof.
  assert (H : forall x, x ∈ (resolve_inputs c).1 <-> exists name d, input_of c name = Some d /\ x = unpinned name d).
  { intros x. unfold resolve_inputs. cbn [fst]. rewrite sort_by_perm, list_elem_of_fmap. split.
    - intros ([name d] & -> & Hd%entries_inputs). by exists name, d.
    - intros (name & d & Hd & ->). exists (name, d). split; [done|by apply entries_inputs]. }
  split; [exact H|]. intros name. change (resolve_inputs c).2 with (list_to_set (C := gset bytes) (map in_name (resolve_inputs c).1)).
  rewrite elem_of_list_to_set, list_elem_of_fmap. setoid_rewrite H. split.
  - intros (x & -> & n & d & Hd & ->). by exists d.
  - intros [d Hd]. exists (unpinned name d). split; [done|by exists name, d].
Qed.
(** C17: A plan is made only for the pod itself, from a command of its workspace.  Its
    parameters are declared, requested or default values that conform to the command,
    with every required one present; its arguments are the templates of the command one
    by one, each a whole placeholder or a text without one, so a value never reaches
    inside an argument; its program, directory and environment are the configured
    ones, and it waits for exactly the configured inputs. *)
Theorem plan_sound root i now q requested_by snapshot s : plan regex executable var_os root i now q requested_by snapshot = Ok s ->
  exists v config commands c pod, snapshot = Ok v /\ cs_config v = Some config /\ wc_host_commands config = Some commands /\ commands !! rq_command q = Some c
  /\ requested_by = PodActor (rq_workspace q) pod /\ op_pod_id (operation s) = pod /\ op_workspace (operation s) = rq_workspace q
  /\ (forall name, is_Some (rq_parameters q !! name) -> is_Some (parameter_of c name))
  /\ (forall name, op_parameters (operation s) !! name = (parameter_of c name ≫= chosen q name))
  /\ (forall name d, parameter_of c name = Some d -> (is_required d = true -> is_Some (op_parameters (operation s) !! name))
        /\ forall value, op_parameters (operation s) !! name = Some value -> conforms d value)
  /\ Forall2 (expands (op_parameters (operation s)) (input_paths root i c)) (elements_of (hc_arguments c)) (op_arguments (operation s))
  /\ (exists program, found (hc_program c) program /\ op_program (operation s) = Utf8.lossy program)
  /\ (exists directory, located (join_path (operation_dir root i) (str "work")) (op_parameters (operation s)) (input_paths root i c) (hc_working_directory c) directory
        /\ op_working_directory (operation s) = Some (Utf8.lossy directory))
  /\ environment s = resolve_environment c /\ timeout_seconds s = hc_timeout_seconds c
  /\ (forall name, name ∈ pending_inputs s <-> is_Some (input_of c name))
  /\ (forall x, x ∈ op_inputs (operation s) <-> exists name d, input_of c name = Some d /\ x = unpinned name d)
  /\ op_state (operation s) = if bool_decide (pending_inputs s = ∅) then AwaitingApproval false else Preparing.
Proof.
  intros (v & config & commands & c & parameters & program & arguments & directory & pod & E1 & E2 & E3 & E4 & E5 & _ & Pa & Pr & Ar & Di & ->)%plan_inv.
  destruct (resolve_parameters_Ok _ _ _ Pa) as (P1 & P2 & P3). destruct (resolve_inputs_spec c) as [I1 I2].
  exists v, config, commands, c, pod. cbn [operation environment timeout_seconds pending_inputs op_pod_id op_workspace op_parameters op_arguments op_program op_working_directory op_inputs op_state].
  split_and!; try done.
  - intros name. destruct (parameter_of c name) as [d|] eqn:D; [apply (P2 name d D)|by apply P3].
  - intros name d D. destruct (P2 name d D) as (_ & ?). done.
  - apply collect_Ok in Ar. eapply Forall2_impl; [exact Ar|]. intros t x. apply expand_argument_Ok.
  - exists program. split; [by apply resolve_executable_Ok|done].
  - exists directory. split; [by apply expand_working_directory_Ok|done].
Qed.
End plans.

(** ** What the catalog says *)
(** A catalog that is received differs from the one before, and those that were skipped
    did not. *)
Lemma catalog_recv_Ok snapshots previous event rest : catalog_recv snapshots previous = Ok (event, rest) ->
  previous <> Some event /\ exists skipped s, snapshots = skipped ++ s :: rest /\ event = host_command_catalog s
    /\ Forall (fun x => previous = Some (host_command_catalog x)) skipped.
Proof.
  induction snapshots as [|s l IH]; cbn [catalog_recv]; [done|]. case_bool_decide as E.
  - intros H. destruct (IH H) as (N & sk & x & -> & -> & F). split; [done|]. exists (s :: sk), x. split_and!; [done|done|by constructor].
  - intros [= <- <-]. split; [done|]. by exists [], s.
Qed.
(** A parameter that the catalog shows as required is one without which a request of the
    command is refused. *)
Lemma catalog_required regex q name d : rq_parameters q !! name = None ->
  cp_required (catalog_parameter d) = true <->
  resolve_parameter regex (rq_parameters q) name d = Err (InvalidRequest (str "required parameter `" ++ name ++ str "` is missing")) /\ pc_default d = None.
Proof.
  intros N. unfold resolve_parameter, catalog_parameter. rewrite N. cbn [cp_required]. destruct (pc_default d) as [x|] eqn:D.
  - rewrite bool_decide_false by done. cbn. naive_solver.
  - rewrite bool_decide_true by done. cbn. destruct (pc_required d) as [[]|]; naive_solver.
Qed.

(** ** A command and a request *)
Module Sample.
Definition command : WorkspaceHostCommandConfig :=
  {| hc_description := None; hc_program := str "/usr/bin/deploy"; hc_arguments := Some [str "--to"; str "${parameters.target}"]; hc_working_directory := None;
     hc_parameters := Some {[str "target" := {| pc_required := None; pc_default := None; pc_allowed_values := Some [str "staging"]; pc_pattern := None |}]};
     hc_inputs := None; hc_environment := None; hc_approval := None; hc_timeout_seconds := None |}.
Definition config : ConfigSnapshot :=
  {| cs_config := Some {| wc_repos := None; wc_host_commands := Some {[str "deploy" := command]} |}; cs_last_config_error := None |}.
Definition asked : RequestHostOperationAction :=
  {| rq_workspace := str "w"; rq_command := str "deploy"; rq_parameters := {[str "target" := str "staging"]} |}.
Definition pod : Actor := PodActor (str "w") (str "p").
Definition no_pattern (_ : bytes) : option (bytes -> bool) := None.
Definition no_variable (_ : bytes) : option bytes := None.
Definition the_plan : outcome HostOperationServiceError StoredOperation := plan no_pattern Some no_variable (str "/state") (str "op") 0 asked pod (Ok config).
End Sample.
Import Sample.
Lemma plan_sound_witness : exists s, the_plan = Ok s /\ op_arguments (operation s) = [str "--to"; str "staging"]
  /\ forall value, op_parameters (operation s) !! str "target" = Some value -> conforms no_pattern {| pc_required := None; pc_default := None; pc_allowed_values := Some [str "staging"]; pc_pattern := None |} value.
Proof.
  assert (A : match the_plan with Ok s => op_arguments (operation s) | _ => [] end = [str "--to"; str "staging"]) by by vm_compute.
  destruct the_plan as [s| |] eqn:P; [|done|done]. exists s. split; [done|]. split; [exact A|].
  destruct (plan_sound _ _ _ _ _ _ _ _ _ _ P) as (v & cf & commands & c & p & E1 & E2 & E3 & E4 & _ & _ & _ & _ & _ & H & _).
  injection E1 as <-. injection E2 as <-. injection E3 as <-. assert (Ec : Some command = Some c) by (rewrite <- E4; by vm_compute). injection Ec as <-.
  intros value Hv. destruct (H (str "target") {| pc_required := None; pc_default := None; pc_allowed_values := Some [str "staging"]; pc_pattern := None |}) as [_ X].
  - vm_compute. reflexivity.
  - exact (X value Hv).
Defined.

