(* ===== verification/HostopService.v ===== *)
(** * The host operation service

    [mod.rs] and [storage.rs] of [tascarrel-hostd/src/services/host_operations]: requests
    of pods, decisions of the host, the supervision of approved processes, the inputs
    that pods upload, and everything that is stored.

    The state is what is on disk, the memory of the daemon, the tasks it has in
    progress, and the processes it started.  A function runs as one step up to an await
    at which it holds no lock that excludes the others; what remains is a task: the end of
    a request, a spawned [run_operation], the supervision of its process, the recording
    of its result, of a failure, and an upload before and after its transfer.  A system
    call takes the next event of [Outage]; a failing write leaves a part.

    The stores of JSON lines are bytes, with serialization as parameters.  Git commands
    run, fail or never return; the process, the peer of an upload and the clock are
    arguments.  Broadcast notices, which only wake subscribers, are left out, and so are
    the texts of errors of the operating system. *)

From S2P Require Import Prelude Lists Text Utf8 RepoStore LinkPolicy ShareTypes Outage HostopPlan.

(** ** What is stored *)
Definition MAX_RECORD_BYTES : Z := 4 * 1024 * 1024.
Definition MAX_EVENT_BYTES : Z := 32 * 1024 * 1024.
Definition OUTPUT_CHUNK_BYTES : Z := 16 * 1024.
Definition MAX_HOST_OPERATION_INPUT_BYTES : Z := 64 * 1024 * 1024 * 1024.
Inductive HostOperationAuditKind :=
| AuditRequested | AuditInputCaptured | AuditPostponed | AuditApproved | AuditRejected | AuditStarted | AuditCancelRequested
| AuditCanceled | AuditTimedOut | AuditSucceeded | AuditFailed | AuditInterrupted.
Record HostOperationAuditEntry := {
  au_sequence : Z; au_timestamp : Z; au_kind : HostOperationAuditKind; au_message : bytes; au_actor : option Actor
}.
Inductive HostOperationOutputSource := Stdout | Stderr.
Record HostOperationOutputChunk := {
  ch_sequence : Z; ch_source : HostOperationOutputSource; ch_start_offset : Z; ch_end_offset : Z; ch_timestamp : Z; ch_data : bytes
}.
(** The directory of an operation; an input has the revision that was checked out. *)
Record OperationDir := {
  record : option (entry StoredOperation); audit : option bytes; output : option bytes;
  input_dirs : option (gmap bytes (option bytes)); work : bool
}.
#[export] Instance eta_OperationDir : Eta OperationDir := fun d =>
  {| record := record d; audit := audit d; output := output d; input_dirs := input_dirs d; work := work d |}.

(** ** What happens *)
Record OutputCounters := { sequence : Z; stdout_offset : Z; stderr_offset : Z }.
Record PodHostOperationInputRequest := { up_operation_id : bytes; up_input_name : bytes; up_revision : bytes; up_base_revision : option bytes; up_length : Z }.
Inductive ErrorCode := CodeInvalidRequest | CodePermissionDenied | CodeExecutionFailed.
Inductive HostOperationInputResponse := Ready | Completed | ResponseError (code : ErrorCode) (message : bytes).
Inductive Task :=
| Announce (id : bytes) (requested_by : Actor)
| Launch (id : bytes)
| Supervise (id : bytes) (counters : OutputCounters) (output_failed : bool)
| Finish (id : bytes) (state : HostOperationState) (kind : HostOperationAuditKind) (message : bytes)
| GiveUp (id : bytes) (message : bytes)
| Upload (input : PodHostOperationInputRequest)
| Capture (input : PodHostOperationInputRequest) (summary : bytes).
(** A process that was started. *)
Record Process := { p_id : bytes; p_program : bytes; p_arguments : list bytes; p_environment : gmap bytes bytes; p_directory : bytes }.
Record World := {
  root_directory : option bool; dirs : gmap bytes OperationDir;
  operations : gmap bytes StoredOperation; running : gmap bytes bool; generation : Z; tasks : list Task;
  spawned : list Process; now : Z; generated : nat
}.
#[export] Instance eta_World : Eta World := fun w =>
  {| root_directory := root_directory w; dirs := dirs w; operations := operations w; running := running w; generation := generation w;
     tasks := tasks w; spawned := spawned w; now := now w; generated := generated w |}.
Definition act (A : Type) : Type := prog World HostOperationServiceError A.

Definition durable : HostOperationServiceError := Unavailable (str "durable storage failed").
Definition display (e : HostOperationServiceError) : bytes :=
  match e with
  | InvalidRequest m => str "invalid host operation request: " ++ m
  | InvalidConfiguration m => str "invalid host command configuration: " ++ m
  | NotFound => str "host operation does not exist"
  | Unavailable m => str "host operation service unavailable: " ++ m
  | Internal m => str "host operation service failed: " ++ m
  end.
Definition is_terminal (s : HostOperationState) : bool :=
  match s with Succeeded _ | Failed _ | Rejected _ | Canceled _ | Interrupted _ => true | _ => false end.
Definition valid_git_object (value : bytes) : bool :=
  (40 <=? len value) && (len value <=? 64) && forallb (fun b => is_ascii_digit b || ((97 <=? b) && (b <=? 102))) value.

(** ** Lines *)
Definition strip_cr (l : bytes) : bytes := match strip_suffix [13] l with Some s => s | None => l end.
(** [BufRead::lines]. *)
Definition lines (content : bytes) : list bytes :=
  let pieces := split 10 content in
  map strip_cr (removelast pieces) ++ match last pieces with Some [] | None => [] | Some rest => [rest] end.
Definition decode_line {A} (from_json : bytes -> option A) (l : bytes) : outcome HostOperationServiceError A :=
  if negb (Utf8.valid l) || (MAX_EVENT_BYTES <? len l) then Err durable else ok_or (from_json l) durable.

(** The state of an operation, replaced. *)
Definition with_state (state : HostOperationState) (s : StoredOperation) : StoredOperation :=
  s <| operation := (operation s) <| op_state := state |> |>.
Definition is_active (s : HostOperationState) : bool := match s with Starting _ | Running _ => true | _ => false end.
Definition withdrawable (s : HostOperationState) : bool := match s with Preparing | AwaitingApproval _ | Starting _ => true | _ => false end.

Section service.
Variable encoded_len : StoredOperation -> Z.
Variables (audit_json : HostOperationAuditEntry -> bytes) (audit_of : bytes -> option HostOperationAuditEntry).
Variables (output_json : HostOperationOutputChunk -> bytes) (output_of : bytes -> option HostOperationOutputChunk).
Variable regex : bytes -> option (bytes -> bool).
(** The directory of the storage, and the identifiers that are generated. *)
Variable root : bytes.
Variable generate : nat -> bytes.

(** ** Storage *)
Definition call : act unit := syscall durable id.
Definition change_dir (i : bytes) (f : OperationDir -> OperationDir) (w : World) : World := w <| dirs := alter f i (dirs w) |>.
Definition write_record (s : StoredOperation) : act unit :=
  if MAX_RECORD_BYTES <? encoded_len s then raise durable
  else
    do w <- get;
    match dirs w !! op_id (operation s) with
    | None => do! call; raise durable
    | Some _ =>
        do! call; do! call; do! call;
        do! syscall durable (change_dir (op_id (operation s)) (fun d => d <| record := Some (Regular (Some s) (encoded_len s)) |>));
        call
    end.
(** [write_all] at the end of a file. *)
Definition write_all (i : bytes) (append : bytes -> OperationDir -> OperationDir) (data : bytes) : act unit :=
  do ev <- next_event;
  match ev with
  | Runs => put (change_dir i (append data))
  | Fails written _ => do! put (change_dir i (append (take (length written) data))); raise durable
  | Stops written => do! put (change_dir i (append (take (length written) data))); stop
  end.
Definition append_json_line (i : bytes) (append : bytes -> OperationDir -> OperationDir) (line : bytes) : act unit :=
  if MAX_EVENT_BYTES <? len line then raise durable
  else
    do w <- get;
    match dirs w !! i with
    | None => do! call; raise durable
    | Some _ =>
        do! syscall durable (change_dir i (append []));
        do! write_all i append (line ++ [10]);
        call
    end.
Definition contents (file : option bytes) : bytes := match file with Some c => c | None => [] end.
Definition append_to_audit (data : bytes) (d : OperationDir) : OperationDir := d <| audit := Some (contents (audit d) ++ data) |>.
Definition append_to_output (data : bytes) (d : OperationDir) : OperationDir := d <| output := Some (contents (output d) ++ data) |>.
Definition read_json_lines {A} (from_json : bytes -> option A) (file : option bytes) : act (list A) :=
  do! call;
  match file with
  | None => ret []
  | Some content => do! call; of_outcome (collect (decode_line from_json) (lines content))
  end.
Definition read_audit (i : bytes) : act (list HostOperationAuditEntry) := do w <- get; read_json_lines audit_of (dirs w !! i ≫= audit).
Definition read_output (i : bytes) : act (list HostOperationOutputChunk) := do w <- get; read_json_lines output_of (dirs w !! i ≫= output).
Definition next_audit_sequence (i : bytes) : act Z :=
  do entries <- read_audit i;
  match last entries with
  | None => ret 1
  | Some e => of_outcome (ok_or (checked_add u64_max (au_sequence e) 1) (Internal (str "audit storage task failed")))
  end.
Definition append_audit (i : bytes) (kind : HostOperationAuditKind) (message : bytes) (actor : option Actor) : act unit :=
  do next <- next_audit_sequence i;
  do w <- get;
  append_json_line i append_to_audit
    (audit_json {| au_sequence := next; au_timestamp := now w; au_kind := kind; au_message := message; au_actor := actor |}).
Definition prepare_operation (i : bytes) : act unit :=
  do w <- get;
  match dirs w !! i with
  | Some _ => do! call; raise durable
  | None =>
      do! syscall durable (fun w => w <| dirs := <[i := {| record := None; audit := None; output := None; input_dirs := None; work := false |}]> (dirs w) |>);
      do! syscall durable (change_dir i (fun d => d <| input_dirs := Some ∅ |>));
      do! syscall durable (change_dir i (fun d => d <| work := true |>));
      call
  end.
Definition set_input (i name : bytes) (tree : option bytes) : World -> World :=
  change_dir i (fun d => d <| input_dirs := insert name tree <$> input_dirs d |>).
Definition prepare_input (i name : bytes) : act unit :=
  do w <- get;
  match dirs w !! i ≫= input_dirs with
  | None => do! call; raise durable
  | Some inputs =>
      do! (if bool_decide (is_Some (inputs !! name)) then raise durable else ret tt);
      do! syscall durable (set_input i name None);
      call
  end.
(** [Drop] of an input directory that is not retained. *)
Definition discard_input (i name : bytes) : act unit :=
  do _ <- attempt (syscall durable (change_dir i (fun d => d <| input_dirs := delete name <$> input_dirs d |>))); ret tt.
Definition or_discard {A} (i name : bytes) (m : act A) : act A :=
  do r <- attempt m;
  match r with
  | inr a => ret a
  | inl e => do! discard_input i name; raise e
  end.

Definition ensure_private_directory : act unit :=
  do! call;
  do w <- get;
  do! match root_directory w with
      | Some false => raise durable
      | Some true => ret tt
      | None => syscall durable (fun w => w <| root_directory := Some true |>)
      end;
  call.
Definition read_json (e : entry StoredOperation) : act StoredOperation :=
  do! call;
  match e with
  | Other => raise durable
  | Regular content size =>
      if MAX_RECORD_BYTES <? size then raise durable
      else do! call; of_outcome (ok_or content durable)
  end.
Fixpoint load (entries : list (bytes * OperationDir)) : act (list StoredOperation) :=
  match entries with
  | [] => ret []
  | (_, d) :: rest =>
      do! call;
      do exists_ <- attempt call;
      match exists_, record d with
      | inr _, Some e => do s <- read_json e; do more <- load rest; ret (s :: more)
      | _, _ => load rest
      end
  end.

(** ** Service *)
Definition publish_operations : act unit := put (fun w => w <| generation := (generation w + 1) mod (u64_max + 1) |>).
Definition finished (w : World) (code sig : option Z) : HostOperationFinished := {| finished_at := now w; exit_code := code; signal := sig |}.
Definition interrupt (s : StoredOperation) : act StoredOperation :=
  do w <- get;
  let s' := with_state (Interrupted (finished w None None)) s in
  do! write_record s';
  do! append_audit (op_id (operation s)) AuditInterrupted (str "hostd restarted while the process was active") (Some HostActor);
  ret s'.
Fixpoint recover (loaded : list StoredOperation) (known : gmap bytes StoredOperation) : act (gmap bytes StoredOperation) :=
  match loaded with
  | [] => ret known
  | s :: rest =>
      let i := op_id (operation s) in
      if bool_decide (is_Some (known !! i)) then raise (Internal (str "duplicate durable host operation identifier"))
      else
        do s' <- (if is_active (op_state (operation s)) then interrupt s else ret s);
        recover rest (<[i := s']> known)
  end.
Definition open (git : bytes) : act unit :=
  if negb (is_absolute root) || negb (is_absolute git) then raise (InvalidConfiguration (str "state directory and Git executable must be absolute"))
  else
    do! ensure_private_directory;
    do! call;
    do w <- get;
    do loaded <- load (map_to_list (dirs w));
    do known <- recover loaded ∅;
    put (fun w => w <| operations := known |> <| running := ∅ |> <| generation := 1 |> <| tasks := [] |>).

Definition add_task (t : Task) : act unit := put (fun w => w <| tasks := tasks w ++ [t] |>).
Definition store_operation (s : StoredOperation) : act unit := put (fun w => w <| operations := <[op_id (operation s) := s]> (operations w) |>).
Definition require_operation (i : bytes) : act StoredOperation := do w <- get; of_outcome (ok_or (operations w !! i) NotFound).
(** A changed operation, on disk and then in memory. *)
Definition update_operation (s : StoredOperation) : act unit := do! write_record s; store_operation s.

(** [executable] and [var_os] are the executables and the environment at the time. *)
Definition request (executable var_os : bytes -> option bytes) (q : RequestHostOperationAction) (requested_by : Actor) (snapshot : outcome HostOperationServiceError ConfigSnapshot) :
    act (bytes * list HostOperationPendingInput) :=
  do w <- get;
  let i := generate (generated w) in
  do! put (fun w => w <| generated := S (generated w) |>);
  do s <- of_outcome (plan regex executable var_os root i (now w) q requested_by snapshot);
  do! prepare_operation i;
  do! write_record s;
  do! store_operation s;
  do! add_task (Announce i requested_by);
  ret (i, pending_input_list s).
(** The rest of [request]. *)
Definition announce (i : bytes) (requested_by : Actor) : act unit :=
  do! append_audit i AuditRequested (str "pod requested the configured host command") (Some requested_by);
  publish_operations.

Inductive HostOperationDecision := Approve | Reject | Postpone.
Definition resolve (i : bytes) (d : HostOperationDecision) (actor : Actor) : act unit :=
  do s <- require_operation i;
  match op_state (operation s) with
  | AwaitingApproval _ =>
      do w <- get;
      let '(state, kind, message) :=
        match d with
        | Postpone => (AwaitingApproval true, AuditPostponed, str "approval was postponed")
        | Reject => (Rejected (finished w None None), AuditRejected, str "operation was rejected")
        | Approve => (Starting {| approved_by := actor; approved_at := now w; pid := None |}, AuditApproved, str "operation was approved")
        end in
      do! update_operation (with_state state s);
      do! append_audit i kind message (Some actor);
      do! publish_operations;
      match d with Approve => add_task (Launch i) | _ => ret tt end
  | _ => raise (InvalidRequest (str "operation is not awaiting approval"))
  end.
Definition cancel (i : bytes) (actor : Actor) : act unit :=
  do w <- get;
  match running w !! i with
  | Some _ =>
      do! put (fun w => w <| running := <[i := true]> (running w) |>);
      append_audit i AuditCancelRequested (str "termination was requested") (Some actor)
  | None =>
      do s <- require_operation i;
      if withdrawable (op_state (operation s)) then
        do! update_operation (with_state (Canceled (finished w None None)) s);
        do! append_audit i AuditCanceled (str "operation was withdrawn before execution") (Some actor);
        publish_operations
      else raise (InvalidRequest (str "operation is already terminal"))
  end.
Definition fail_operation (i message : bytes) : act unit :=
  do! put (fun w => w <| running := delete i (running w) |>);
  do s <- require_operation i;
  if is_terminal (op_state (operation s)) then ret tt
  else
    do w <- get;
    do! update_operation (with_state (Failed {| failure_message := message; failed_at := now w; failure_exit_code := None; failure_signal := None |}) s);
    do! append_audit i AuditFailed message (Some HostActor);
    publish_operations.

(** ** Processes *)
Definition from_existing (chunks : list HostOperationOutputChunk) : OutputCounters :=
  foldl (fun c k =>
    let c := {| sequence := Z.max (sequence c) (ch_sequence k); stdout_offset := stdout_offset c; stderr_offset := stderr_offset c |} in
    match ch_source k with
    | Stdout => {| sequence := sequence c; stdout_offset := Z.max (stdout_offset c) (ch_end_offset k); stderr_offset := stderr_offset c |}
    | Stderr => {| sequence := sequence c; stdout_offset := stdout_offset c; stderr_offset := Z.max (stderr_offset c) (ch_end_offset k) |}
    end) {| sequence := 0; stdout_offset := 0; stderr_offset := 0 |} chunks.
(** [run_operation] up to the end of its first transition; [id_of] is the identifier of
    the process. *)
Definition start_operation (var_os : bytes -> option bytes) (i : bytes) (id_of : option Z) : act unit :=
  do s <- require_operation i;
  match op_state (operation s) with
  | Starting started =>
      do! put (fun w => w <| running := <[i := false]> (running w) |>);
      do env <- of_outcome (resolve_execution_environment var_os (environment s));
      do directory <- of_outcome (ok_or (op_working_directory (operation s)) (Internal (str "operation has no working directory")));
      do child <- attempt (syscall durable (fun w => w <| spawned := spawned w ++
        [{| p_id := i; p_program := op_program (operation s); p_arguments := op_arguments (operation s); p_environment := env; p_directory := directory |}] |>));
      match child with
      | inl _ => do! put (fun w => w <| running := delete i (running w) |>); raise (Unavailable (str "could not start host process"))
      | inr _ =>
          do! update_operation (with_state (Running {| approved_by := approved_by started; approved_at := approved_at started; pid := id_of |}) s);
          do! append_audit i AuditStarted (str "host process started") (Some HostActor);
          do! publish_operations;
          do chunks <- read_output i;
          add_task (Supervise i (from_existing chunks) false)
      end
  | _ => raise (Internal (str "approved operation is not in starting state"))
  end.
(** A failure of a spawned [run_operation] is recorded by [fail_operation]. *)
Definition or_give_up (i : bytes) (m : act unit) : act unit :=
  do r <- attempt m;
  match r with inr _ => ret tt | inl e => add_task (GiveUp i (display e)) end.
(** The counters after a chunk, and where it starts and ends. *)
Definition count (source : HostOperationOutputSource) (data : bytes) (c : OutputCounters) : option (OutputCounters * Z * Z) :=
  checked_add u64_max (sequence c) 1 ≫= fun next =>
  match source with
  | Stdout =>
      checked_add u64_max (stdout_offset c) (len data) ≫= fun e =>
      Some ({| sequence := next; stdout_offset := e; stderr_offset := stderr_offset c |}, stdout_offset c, e)
  | Stderr =>
      checked_add u64_max (stderr_offset c) (len data) ≫= fun e =>
      Some ({| sequence := next; stdout_offset := stdout_offset c; stderr_offset := e |}, stderr_offset c, e)
  end.
(** One turn of [read_process_output], with what the read returned. *)
Definition read_process_output (i : bytes) (c : OutputCounters) (output_failed : bool) (source : HostOperationOutputSource) (read : option bytes) : act unit :=
  match read ≫= fun data => count source data c ≫= fun r => Some (data, r) with
  | None => add_task (Supervise i c true)
  | Some (data, (c', start_offset, end_offset)) =>
      do w <- get;
      do r <- attempt (append_json_line i append_to_output (output_json {| ch_sequence := sequence c'; ch_source := source;
               ch_start_offset := start_offset; ch_end_offset := end_offset; ch_timestamp := now w; ch_data := data |}));
      add_task (Supervise i c' (output_failed || match r with inl _ => true | inr _ => false end))
  end.
(** How the wait for a process ends. *)
Inductive Ending := Exited (code sig : option Z) | Terminated (code sig : option Z) | TimedOut (code sig : option Z) | WaitFailed.
Definition decimal (z : Z) : bytes := str (pretty z).
Definition diagnostic (code sig : option Z) : bytes :=
  match code, sig with
  | Some c, _ => str "with exit code " ++ decimal c
  | None, Some s => str "after signal " ++ decimal s
  | None, None => str "without an exit status"
  end.
Definition verdict (w : World) (e : Ending) : outcome HostOperationServiceError (HostOperationState * HostOperationAuditKind * bytes) :=
  let failure m code sig := Failed {| failure_message := m; failed_at := now w; failure_exit_code := code; failure_signal := sig |} in
  match e with
  | WaitFailed => Err (Unavailable (str "could not wait for host process"))
  | Terminated code sig => Ok (Canceled (finished w code sig), AuditCanceled, str "host process was stopped")
  | TimedOut code sig => Ok (failure (str "host command exceeded its configured timeout") code sig, AuditTimedOut, str "host process exceeded its timeout")
  | Exited code sig =>
      if bool_decide (code = Some 0) then Ok (Succeeded (finished w code sig), AuditSucceeded, str "host process exited successfully")
      else let m := str "host process exited " ++ diagnostic code sig in Ok (failure m code sig, AuditFailed, m)
  end.
(** [run_operation] from the end of its process, and its last transition. *)
Definition end_process (i : bytes) (output_failed : bool) (e : Ending) : act unit :=
  do w <- get;
  do (state, kind, message) <- of_outcome (verdict w e);
  if output_failed then raise durable
  else
    do! put (fun w => w <| running := delete i (running w) |>);
    add_task (Finish i state kind message).
Definition finish_operation (i : bytes) (state : HostOperationState) (kind : HostOperationAuditKind) (message : bytes) : act unit :=
  do s <- require_operation i;
  do! update_operation (with_state state s);
  do! append_audit i kind message (Some HostActor);
  publish_operations.

(** ** Inputs *)
Definition respond (r : HostOperationInputResponse) : act HostOperationInputResponse := do! syscall (Unavailable (str "could not answer input transfer")) id; ret r.
(** [serve_input] up to the transfer; [workspace] and [pod] are authenticated. *)
Definition admit_input (workspace pod : bytes) (input : PodHostOperationInputRequest) : act HostOperationInputResponse :=
  let i := up_operation_id input in
  let name := up_input_name input in
  if (up_length input =? 0) || (MAX_HOST_OPERATION_INPUT_BYTES <? up_length input)
  then respond (ResponseError CodeInvalidRequest (str "input bundle length is invalid"))
  else
    do w <- get;
    match operations w !! i with
    | None => respond (ResponseError CodeInvalidRequest (str "host operation does not exist"))
    | Some s =>
        if negb (bool_decide (op_workspace (operation s) = workspace)) || negb (bool_decide (op_pod_id (operation s) = pod))
        then respond (ResponseError CodePermissionDenied (str "host operation does not belong to this pod"))
        else if negb match op_state (operation s) with Preparing => true | _ => false end || negb (bool_decide (name ∈ pending_inputs s))
        then respond (ResponseError CodeInvalidRequest (str "host operation input is not pending"))
        else if negb (existsb (fun x => bool_decide (in_name x = name)) (op_inputs (operation s)))
        then raise (Internal (str "pending input is absent from operation record"))
        else if negb (valid_git_object (up_revision input)) || match up_base_revision input with Some b => negb (valid_git_object b) | None => false end
        then respond (ResponseError CodeInvalidRequest (str "input revision is not a Git object identifier"))
        else
          do! prepare_input i name;
          do! or_discard i name (do! syscall (Unavailable (str "could not create input bundle")) id; do _ <- respond Ready; ret tt);
          do! add_task (Upload input);
          ret Ready
    end.
Definition git_failed : HostOperationServiceError := InvalidRequest (str "Git rejected the repository input").
(** [materialize_input]; a difference that cannot be shown is left out. *)
Definition materialize_input (input : PodHostOperationInputRequest) (difference : bytes) : act bytes :=
  do! syscall git_failed id;
  do! syscall git_failed id;
  do! syscall git_failed id;
  do! syscall (Unavailable (str "could not create materialized input")) id;
  do! syscall git_failed (set_input (up_operation_id input) (up_input_name input) (Some (up_revision input)));
  do r <- attempt (syscall git_failed id);
  ret (match r with inr _ => trim_text difference | inl _ => [] end).
(** [serve_input] from the end of the transfer to the verified input. *)
Definition receive_input (input : PodHostOperationInputRequest) (copied : Z) (difference : bytes) : act HostOperationInputResponse :=
  let i := up_operation_id input in
  let name := up_input_name input in
  do! or_discard i name (do! syscall (Unavailable (str "could not retain input bundle")) id; syscall (Unavailable (str "could not sync input bundle")) id);
  if negb (copied =? up_length input) then
    do r <- or_discard i name (respond (ResponseError CodeExecutionFailed (str "input transfer ended before the declared bundle length")));
    do! discard_input i name;
    ret r
  else
    do materialized <- attempt (materialize_input input difference);
    match materialized with
    | inr summary => do! add_task (Capture input summary); ret Ready
    | inl e =>
        do r <- or_discard i name (
          do r <- respond (ResponseError CodeInvalidRequest (display e));
          do! fail_operation i (display e);
          ret r);
        do! discard_input i name;
        ret r
    end.
(** The input with its pinned revision. *)
Definition pin (input : PodHostOperationInputRequest) (summary : bytes) (x : HostOperationInput) : HostOperationInput :=
  {| in_name := in_name x; in_repository := in_repository x; in_capture := in_capture x; in_revision := Some (up_revision input);
     in_base_revision := up_base_revision input;
     in_materialized_path := Some (Utf8.lossy (join_path (input_dir root (up_operation_id input) (up_input_name input)) (str "tree")));
     in_change_summary := if bool_decide (summary = []) then None else Some summary |}.
Fixpoint pin_first (input : PodHostOperationInputRequest) (summary : bytes) (l : list HostOperationInput) : option (list HostOperationInput) :=
  match l with
  | [] => None
  | x :: rest =>
      if bool_decide (in_name x = up_input_name input) then Some (pin input summary x :: rest)
      else cons x <$> pin_first input summary rest
  end.
Definition captured (input : PodHostOperationInputRequest) (xs : list HostOperationInput) (s : StoredOperation) : StoredOperation :=
  let pending := pending_inputs s ∖ {[ up_input_name input ]} in
  s <| operation := (operation s) <| op_inputs := xs |> <| op_state := if bool_decide (pending = ∅) then AwaitingApproval false else op_state (operation s) |> |>
    <| pending_inputs := pending |>.
(** The last part of [serve_input]. *)
Definition capture_input (input : PodHostOperationInputRequest) (summary : bytes) : act HostOperationInputResponse :=
  let i := up_operation_id input in
  let name := up_input_name input in
  do r <- or_discard i name (
    do s <- require_operation i;
    if negb match op_state (operation s) with Preparing => true | _ => false end || negb (bool_decide (name ∈ pending_inputs s))
    then do r <- respond (ResponseError CodeInvalidRequest (str "host operation input is no longer pending")); ret (Some r)
    else
      do xs <- of_outcome (ok_or (pin_first input summary (op_inputs (operation s))) (Internal (str "operation input disappeared during transfer")));
      do! update_operation (captured input xs s);
      ret None);
  match r with
  | Some r => do! discard_input i name; ret r
  | None =>
      do! append_audit i AuditInputCaptured (str "repository input `" ++ name ++ str "` was verified and pinned") (Some HostActor);
      do! publish_operations;
      respond Completed
  end.

(** ** Subscriptions *)
(** [serde_json::to_vec] of a list, and SHA-256. *)
Variable list_json : list HostOperation -> option bytes.
Variable digest : bytes -> bytes.
Record HostOperationSubscription := { s_workspace : option bytes; s_pod_id : option bytes; s_cursor : option bytes; s_seen : Z; s_current_pending : bool }.
#[export] Instance eta_Subscription : Eta HostOperationSubscription := fun s =>
  {| s_workspace := s_workspace s; s_pod_id := s_pod_id s; s_cursor := s_cursor s; s_seen := s_seen s; s_current_pending := s_current_pending s |}.
Definition selects {A} `{EqDecision A} (wanted : option A) (a : A) : bool := match wanted with Some x => bool_decide (a = x) | None => true end.
Definition newer (a b : HostOperation) : bool :=
  (op_created_at b <? op_created_at a) || ((op_created_at a =? op_created_at b) && bytes_leb (op_id b) (op_id a)).
Definition host_operation_list (s : HostOperationSubscription) (w : World) : list HostOperation :=
  sort_by newer (List.filter (fun o => selects (s_workspace s) (op_workspace o) && selects (s_pod_id s) (op_pod_id o))
    (map (fun e => operation e.2) (map_to_list (operations w)))).
Definition operation_revision (value : list HostOperation) : outcome HostOperationServiceError bytes :=
  let? encoded := ok_or (list_json value) (Internal (str "could not encode operation list")) in Ok (digest encoded).
(** [recv] while the service is as it is: [None] when it goes on waiting for a change. *)
Fixpoint recv (fuel : nat) (w : World) (s : HostOperationSubscription) : outcome HostOperationServiceError (option (bytes * list HostOperation)) * HostOperationSubscription :=
  match fuel with
  | O => (Panic "out of fuel", s)
  | S fuel' =>
      if negb (s_current_pending s) && (s_seen s =? generation w) then (Ok None, s)
      else
        let s := if s_current_pending s then s <| s_current_pending := false |> else s <| s_seen := generation w |> in
        let value := host_operation_list s w in
        match operation_revision value with
        | Ok revision =>
            if bool_decide (s_cursor s = Some revision) then recv fuel' w s
            else (Ok (Some (revision, value)), s <| s_cursor := Some revision |>)
        | Err e => (Err e, s)
        | Panic m => (Panic m, s)
        end
  end.
End service.

(** A stream of audit entries or of output: those up to the boundary, the boundary, and
    what comes later. *)
Record StreamSubscription := { after_sequence : Z; replay_boundary : Z; caught_up : bool }.
Inductive StreamUpdate (A : Type) := Event_ (a : A) | CaughtUp (boundary : Z).
Arguments Event_ {A}. Arguments CaughtUp {A}.
Definition subscribe_stream {A} (sequence_of : A -> Z) (entries : list A) (after : option Z) : StreamSubscription :=
  {| after_sequence := match after with Some x => x | None => 0 end;
     replay_boundary := match last entries with Some e => sequence_of e | None => 0 end; caught_up := false |}.
(** One look at what is stored; [None] when it waits for a notice. *)
Definition stream_recv {A} (sequence_of : A -> Z) (entries : list A) (s : StreamSubscription) : option (StreamUpdate A) * StreamSubscription :=
  match List.find (fun e => (after_sequence s <? sequence_of e) && (caught_up s || (sequence_of e <=? replay_boundary s))) entries with
  | Some e => (Some (Event_ e), {| after_sequence := sequence_of e; replay_boundary := replay_boundary s; caught_up := caught_up s |})
  | None =>
      if caught_up s then (None, s)
      else (Some (CaughtUp (replay_boundary s)), {| after_sequence := after_sequence s; replay_boundary := replay_boundary s; caught_up := true |})
  end.
