(* ===== verification/HostopProps.v ===== *)
(** * What the host operation service promises

    Histories of the service of [HostopService] with any failures, crashes and restarts:
    what was started was approved as it was planned, once; what is settled stays so. *)

From S2P Require Import Prelude Lists Text Utf8 RepoStore LinkPolicy ShareTypes Outage HostopPlan HostopService.

(** ** What an operation is *)
Definition blank (x : HostOperationInput) : HostOperationInput :=
  {| in_name := in_name x; in_repository := in_repository x; in_capture := in_capture x; in_revision := None;
     in_base_revision := None; in_materialized_path := None; in_change_summary := None |}.
(** An operation without its progress: what was planned. *)
Definition plan_of (s : StoredOperation) : StoredOperation :=
  s <| operation := (operation s) <| op_state := Preparing |> <| op_inputs := map blank (op_inputs (operation s)) |> |> <| pending_inputs := ∅ |>.
Definition state_of (s : StoredOperation) : HostOperationState := op_state (operation s).
Definition id_of (s : StoredOperation) : bytes := op_id (operation s).
(** Not approved, and not settled either. *)
Definition is_fresh (s : HostOperationState) : bool := match s with Preparing | AwaitingApproval _ => true | _ => false end.
Definition is_running (s : HostOperationState) : bool := match s with Running _ => true | _ => false end.
Lemma plan_with_state st s : plan_of (with_state st s) = plan_of s.
Proof. by destruct s as [[]]. Qed.
Lemma state_with_state st s : state_of (with_state st s) = st.
Proof. by destruct s as [[]]. Qed.
Lemma id_with_state st s : id_of (with_state st s) = id_of s.
Proof. by destruct s as [[]]. Qed.
Lemma pending_with_state st s : pending_inputs (with_state st s) = pending_inputs s.
Proof. by destruct s as [[]]. Qed.
Lemma plan_id s u : plan_of s = plan_of u -> id_of s = id_of u.
Proof. destruct s as [[]], u as [[]]. intros E. by injection E. Qed.

Definition recorded (w : World) (i : bytes) : option StoredOperation :=
  match dirs w !! i ≫= record with Some (Regular (Some s) _) => Some s | _ => None end.
Definition uploads (w : World) (i name : bytes) : bool :=
  match dirs w !! i ≫= input_dirs with Some m => bool_decide (is_Some (m !! name)) | None => false end.
(** The operation that a task supervises, and the input that it transfers. *)
Definition supervised (t : Task) : option bytes :=
  match t with Launch i | Supervise i _ _ | Finish i _ _ _ | GiveUp i _ => Some i | _ => None end.
Definition transferred (t : Task) : option (bytes * bytes) :=
  match t with Upload x | Capture x _ => Some (up_operation_id x, up_input_name x) | _ => None end.
Definition after_start (t : Task) : bool := match t with Supervise _ _ _ | Finish _ _ _ _ => true | _ => false end.

(** ** Parts of the state that grow *)
Record extends (w w' : World) : Prop := {
  ext_operations : operations w' = operations w; ext_tasks : tasks w' = tasks w; ext_spawned : spawned w' = spawned w;
  ext_recorded : forall i, recorded w' i = recorded w i; ext_uploads : forall i n, uploads w i n = true -> uploads w' i n = true;
  ext_audit : forall i d, dirs w !! i = Some d -> exists d' more, dirs w' !! i = Some d' /\ contents (audit d') = contents (audit d) ++ more
}.
Lemma extends_refl w : extends w w.
Proof. constructor; try done. intros i d E. exists d, []. by rewrite app_nil_r. Qed.
Lemma extends_trans w1 w2 w3 : extends w1 w2 -> extends w2 w3 -> extends w1 w3.
Proof.
  intros [A1 B1 C1 D1 E1 G1] [A2 B2 C2 D2 E2 G2]. constructor; [congruence|congruence|congruence|intros i; by rewrite D2|auto|].
  intros i d E. destruct (G1 i d E) as (d2 & m1 & X & Y). destruct (G2 i d2 X) as (d3 & m2 & X' & Y'). exists d3, (m1 ++ m2).
  split; [done|]. by rewrite Y', Y, (assoc_L (++)).
Qed.
Lemma extends_field w w' : dirs w' = dirs w -> operations w' = operations w -> tasks w' = tasks w -> spawned w' = spawned w -> extends w w'.
Proof.
  intros D O T S. constructor; try done; unfold recorded, uploads; rewrite ?D; try done.
  intros i d E. exists d, []. by rewrite app_nil_r.
Qed.
(** A change of one directory that keeps its record and adds to its inputs and audit. *)
Definition grows (a b : option (gmap bytes (option bytes))) : Prop := forall m, a = Some m -> exists m', b = Some m' /\ dom m ⊆ dom m'.
Lemma grows_refl a : grows a a.
Proof. intros m ->. by exists m. Qed.
Lemma extends_change w i f : (forall d, record (f d) = record d /\ grows (input_dirs d) (input_dirs (f d)) /\ exists more, contents (audit (f d)) = contents (audit d) ++ more) ->
  extends w (change_dir i f w).
Proof.
  intros H. assert (L : forall j, dirs (change_dir i f w) !! j = if decide (i = j) then f <$> dirs w !! j else dirs w !! j).
  { intros j. change (dirs (change_dir i f w)) with (alter f i (dirs w)). destruct (decide (i = j)) as [<-|N]; [apply lookup_alter_eq|by apply lookup_alter_ne]. }
  constructor; try done.
  - intros j. unfold recorded. rewrite L. destruct (decide (i = j)) as [<-|]; [|done]. destruct (dirs w !! i) as [d|]; [|done]. cbn. by destruct (H d) as (-> & _).
  - intros j n. unfold uploads. rewrite L. destruct (decide (i = j)) as [<-|]; [|done]. destruct (dirs w !! i) as [d|]; [|done]. cbn.
    destruct (H d) as (_ & G & _). destruct (input_dirs d) as [m|]; [|done]. destruct (G m eq_refl) as (m' & -> & S). rewrite !bool_decide_eq_true, <- !elem_of_dom. apply S.
  - intros j d E. rewrite L, E. destruct (decide (i = j)).
    + destruct (H d) as (_ & _ & more & X). by exists (f d), more.
    + exists d, []. by rewrite app_nil_r.
Qed.

Section service.
Context (encoded_len : StoredOperation -> Z) (audit_json : HostOperationAuditEntry -> bytes) (audit_of : bytes -> option HostOperationAuditEntry)
        (output_json : HostOperationOutputChunk -> bytes) (output_of : bytes -> option HostOperationOutputChunk) (regex : bytes -> option (bytes -> bool))
        (root : bytes) (generate : nat -> bytes).
(** The configurations that the host serves. *)
Context (served : ConfigSnapshot -> Prop).
Notation write_record := (write_record encoded_len).
Notation update_operation := (update_operation encoded_len).
Notation append_audit := (append_audit audit_json audit_of).

(** ** Triples of the storage *)
Definition quietly {A} (m : act A) : Prop := forall w, ends w m (fun _ => extends w) (extends w).
Lemma quietly_ret {A} (a : A) : quietly (ret a).
Proof. intros w. apply ends_ret, extends_refl. Qed.
Lemma quietly_raise {A} e : quietly (A := A) (raise e).
Proof. intros w. apply ends_raise, extends_refl. Qed.
Lemma quietly_outcome {A} (o : outcome HostOperationServiceError A) : quietly (of_outcome o).
Proof. intros w. apply ends_outcome; [intros|]; apply extends_refl. Qed.
Lemma quietly_get : quietly get.
Proof. intros w. apply ends_get, extends_refl. Qed.
Lemma quietly_bind {A B} (m : act A) (k : A -> act B) : quietly m -> (forall a, quietly (k a)) -> quietly (andthen m k).
Proof.
  intros H1 H2 w. eapply ends_bind; [apply H1|]. intros a w' E. eapply ends_weaken; [apply H2|intros ? ? E'|intros ? E']; exact (extends_trans _ _ _ E E').
Qed.
Lemma quietly_syscall e f : (forall w, extends w (f w)) -> quietly (syscall e f).
Proof. intros H w. apply ends_syscall; [apply H|apply extends_refl]. Qed.
Lemma quietly_put f : (forall w, extends w (f w)) -> quietly (put f).
Proof. intros H w. by apply ends_put. Qed.
Lemma quietly_attempt {A} (m : act A) : quietly m -> quietly (attempt m).
Proof. intros H w. eapply ends_attempt; [apply H|done|done]. Qed.
Lemma quietly_call e : quietly (syscall e id).
Proof. apply quietly_syscall, extends_refl. Qed.
Lemma quietly_write i app data : (forall x w, extends w (change_dir i (app x) w)) -> quietly (write_all i app data).
Proof.
  intros H w. unfold write_all. eapply (ends_bind _ _ _ (fun _ w' => w' = w)); [by apply hoare_event|]. intros [|b t|b] w' ->; [by apply ends_put|..].
  - eapply (ends_bind _ _ _ (fun _ => extends w)); [by apply ends_put|]. intros [] w' Hw. by apply ends_raise.
  - eapply (ends_bind _ _ _ (fun _ => extends w)); [by apply ends_put|]. intros [] w' Hw w0 F E. subst w'. by split.
Qed.
Lemma extends_audit i x w : extends w (change_dir i (append_to_audit x) w).
Proof. apply extends_change. intros d. split_and!; [done|apply grows_refl|by exists x]. Qed.
Lemma extends_output i x w : extends w (change_dir i (append_to_output x) w).
Proof. apply extends_change. intros d. split_and!; [done|apply grows_refl|]. exists []. by rewrite app_nil_r. Qed.
Hint Resolve quietly_ret quietly_raise quietly_outcome quietly_get quietly_call extends_audit extends_output : quiet.
Ltac quiet_step :=
  first [solve [auto with quiet]|match goal with
  | |- quietly (andthen _ _) => apply quietly_bind; [|intros ?]
  | |- quietly (attempt _) => apply quietly_attempt
  | |- quietly (match ?x with _ => _ end) => destruct x
  | |- quietly (write_all _ _ _) => apply quietly_write; intros
  | |- quietly (syscall _ _) => apply quietly_syscall; intros
  end].
Lemma quietly_append i app line : (forall x w, extends w (change_dir i (app x) w)) -> quietly (append_json_line i app line).
Proof. intros H. unfold append_json_line, call. repeat (apply H || quiet_step). Qed.
Lemma quietly_read {A} (f : bytes -> option A) c : quietly (read_json_lines f c).
Proof. unfold read_json_lines, call. repeat quiet_step. Qed.
Lemma quietly_audit i k m a : quietly (append_audit i k m a).
Proof.
  unfold HostopService.append_audit, next_audit_sequence, read_audit. repeat (apply quietly_read || apply quietly_append || quiet_step).
Qed.
Lemma quietly_publish : quietly publish_operations.
Proof. apply quietly_put. intros w. by apply extends_field. Qed.

(** A line that is in the audit of an operation. *)
Definition written (w : World) (i line : bytes) : Prop :=
  exists d before after, dirs w !! i = Some d /\ contents (audit d) = before ++ line ++ after.
Lemma extends_written w w' i x : extends w w' -> written w i x -> written w' i x.
Proof.
  intros E (d & b & a & H1 & H2). destruct (ext_audit _ _ E i d H1) as (d' & more & H1' & H2'). exists d', b, (a ++ more).
  split; [done|]. by rewrite H2', H2, <- !(assoc_L (++)).
Qed.
Lemma ends_append w i line : ends w (append_json_line i append_to_audit line)
  (fun _ w' => extends w w' /\ written w' i (line ++ [10])) (extends w).
Proof.
  unfold append_json_line. destruct (_ <? _); [apply ends_raise, extends_refl|].
  eapply ends_bind; [by apply (ends_get w (fun x w' => x = w /\ w' = w))|]. intros x w' [-> ->]. destruct (dirs w !! i) as [d|] eqn:D.
  - eapply (ends_bind _ _ _ (fun _ w' => w' = change_dir i (append_to_audit []) w)); [apply ends_syscall; [done|apply extends_refl]|]. intros [] w' ->.
    set (w1 := change_dir i (append_to_audit []) w). assert (X1 : extends w w1) by apply extends_audit.
    eapply (ends_bind _ _ _ (fun _ w' => w' = change_dir i (append_to_audit (line ++ [10])) w1)).
    { unfold write_all. eapply (ends_bind _ _ _ (fun _ w' => w' = w1)); [apply hoare_event; [done|by intros ? ? _ <-]|].
      intros [|b t|b] w' ->; [by apply ends_put|..].
      - eapply (ends_bind _ _ _ (fun _ => extends w)); [apply ends_put; by eapply extends_trans, extends_audit|]. intros [] w' Hw. by apply ends_raise.
      - eapply (ends_bind _ _ _ (fun _ => extends w)); [apply ends_put; by eapply extends_trans, extends_audit|]. intros [] w' Hw w0 F E. subst w'. by split. }
    intros [] w' ->. set (w2 := change_dir i _ w1). assert (X2 : extends w w2) by (eapply extends_trans; [exact X1|apply extends_audit]).
    apply ends_syscall; [|done]. split; [done|]. exists (append_to_audit (line ++ [10]) (append_to_audit [] d)), (contents (audit d)), [].
    split; [|cbn; by rewrite !app_nil_r]. change (dirs (id w2)) with (alter (append_to_audit (line ++ [10])) i (alter (append_to_audit []) i (dirs w))).
    by rewrite !lookup_alter_eq, D.
  - eapply ends_bind; [apply quietly_call|]. intros [] w' Hw. by apply ends_raise.
Qed.
Definition approved (w : World) (i : bytes) : Prop :=
  exists e actor, written w i (audit_json e ++ [10]) /\ au_kind e = AuditApproved /\ au_actor e = Some actor.
Lemma extends_approved w w' i : extends w w' -> approved w i -> approved w' i.
Proof. intros E (e & a & W & H). exists e, a. split; [by eapply extends_written|done]. Qed.
Lemma ends_approval w i m actor : ends w (append_audit i AuditApproved m (Some actor)) (fun _ w' => extends w w' /\ approved w' i) (extends w).
Proof.
  unfold HostopService.append_audit. eapply ends_bind.
  { unfold next_audit_sequence, read_audit. assert (Q : forall A (x : act A), quietly x -> ends w x (fun _ => extends w) (extends w)) by (intros A x H; apply H). apply Q.
    repeat (apply quietly_read || quiet_step). }
  intros n w1 E1. eapply ends_bind; [by apply (ends_get w1 (fun x w' => x = w1 /\ w' = w1))|]. intros x w' [-> ->].
  eapply ends_weaken; [apply ends_append|intros [] w2 [E2 W]|intros w2 E2]; [|exact (extends_trans _ _ _ E1 E2)].
  split; [exact (extends_trans _ _ _ E1 E2)|]. eexists _, actor. split; [exact W|done].
Qed.

(** ** Records *)
Definition filed (u : StoredOperation) (w : World) : World :=
  change_dir (id_of u) (fun d => d <| record := Some (Regular (Some u) (encoded_len u)) |>) w.
Definition stored (u : StoredOperation) (w : World) : World := (filed u w) <| operations := <[id_of u := u]> (operations w) |>.
Lemma ends_write_record w u : ends w (write_record u) (fun _ w' => w' = filed u w /\ is_Some (dirs w !! id_of u))
  (fun w' => w' = w \/ w' = filed u w /\ is_Some (dirs w !! id_of u)).
Proof.
  unfold HostopService.write_record, call. destruct (_ <? _); [apply ends_raise; by left|].
  eapply ends_bind; [by apply (ends_get w (fun x w' => x = w /\ w' = w))|]. intros x w' [-> ->]. fold (id_of u). destruct (dirs w !! id_of u) eqn:D.
  - do 3 (eapply ends_bind; [apply (ends_syscall w _ id (fun _ w' => w' = w)); [done|by left]|]; intros [] w' ->).
    eapply ends_bind; [apply (ends_syscall w _ _ (fun _ w' => w' = filed u w)); [done|by left]|]. intros [] w' ->.
    apply ends_syscall; [by split|by right].
  - eapply ends_bind; [apply (ends_syscall w _ id (fun _ w' => w' = w)); [done|by left]|]. intros [] w' ->. apply ends_raise. by left.
Qed.
Lemma ends_update w u : ends w (update_operation u) (fun _ w' => w' = stored u w /\ is_Some (dirs w !! id_of u))
  (fun w' => w' = w \/ w' = filed u w /\ is_Some (dirs w !! id_of u)).
Proof.
  unfold HostopService.update_operation, store_operation. eapply ends_bind; [apply ends_write_record|]. intros [] w' [-> K]. by apply ends_put.
Qed.
Lemma filed_dirs u w i : dirs (filed u w) !! i = if decide (id_of u = i) then (fun d => d <| record := Some (Regular (Some u) (encoded_len u)) |>) <$> dirs w !! i else dirs w !! i.
Proof.
  change (dirs (filed u w)) with (alter (fun d => d <| record := Some (Regular (Some u) (encoded_len u)) |>) (id_of u) (dirs w)).
  destruct (decide (id_of u = i)) as [<-|N]; [apply lookup_alter_eq|by apply lookup_alter_ne].
Qed.
Lemma filed_recorded u w i : is_Some (dirs w !! id_of u) -> recorded (filed u w) i = if decide (id_of u = i) then Some u else recorded w i.
Proof.
  intros [d D]. unfold recorded. rewrite filed_dirs. destruct (decide (id_of u = i)) as [<-|N]; [by rewrite D|done].
Qed.
Lemma filed_uploads u w i n : uploads (filed u w) i n = uploads w i n.
Proof. unfold uploads. rewrite filed_dirs. destruct (decide (id_of u = i)) as [<-|N]; [|done]. by destruct (dirs w !! id_of u). Qed.
Lemma filed_written u w i x : written (filed u w) i x <-> written w i x.
Proof.
  unfold written. rewrite filed_dirs. destruct (decide (id_of u = i)) as [<-|N]; [|done]. destruct (dirs w !! id_of u) as [d|]; [|done].
  split; intros (d' & b & a & [= <-] & H); (eexists _, b, a; split; [reflexivity|exact H]).
Qed.

(** ** The invariant *)
(** A plan of a configuration that was served. *)
Definition planned (s : StoredOperation) : Prop := exists snapshot executable var_os time q actor s0,
  served snapshot /\ plan regex executable var_os root (id_of s) time q actor (Ok snapshot) = Ok s0 /\ plan_of s = plan_of s0.
Definition launched_as (p : Process) (s : StoredOperation) : Prop :=
  p_id p = id_of s /\ p_program p = op_program (operation s) /\ p_arguments p = op_arguments (operation s)
  /\ op_working_directory (operation s) = Some (p_directory p)
  /\ exists var_os, resolve_execution_environment var_os (environment s) = Ok (p_environment p).
Lemma planned_plan s u : plan_of s = plan_of u -> planned s -> planned u.
Proof. intros E (c & x & v & n & q & a & s0 & H1 & H2 & H3). exists c, x, v, n, q, a, s0. split_and!; [done|by rewrite <- (plan_id _ _ E)|congruence]. Qed.
Lemma launched_plan p s u : plan_of s = plan_of u -> launched_as p s -> launched_as p u.
Proof.
  intros E. pose proof (plan_id _ _ E) as I. destruct s as [[]], u as [[]]. unfold launched_as. cbn in *. injection E as. by subst.
Qed.

(** [σ] are operations that are settled, [old] the processes that they had. *)
Record Disk (σ : gmap bytes StoredOperation) (old : list Process) (w : World) : Prop := {
  disk_planned : forall i s, recorded w i = Some s -> id_of s = i /\ planned s;
  disk_launched : forall p, p ∈ spawned w -> approved w (p_id p)
    /\ exists s, recorded w (p_id p) = Some s /\ is_fresh (state_of s) = false /\ launched_as p s;
  disk_once : NoDup (p_id <$> spawned w);
  disk_settled : forall i s, σ !! i = Some s -> recorded w i = Some s /\ is_terminal (state_of s) = true;
  disk_old : forall p, p ∈ spawned w -> is_Some (σ !! p_id p) -> p ∈ old
}.
Definition uploading (s : StoredOperation) (name : bytes) : Prop :=
  state_of s = Preparing /\ name ∈ pending_inputs s \/ is_terminal (state_of s) = true.
Record Memory (σ : gmap bytes StoredOperation) (w : World) : Prop := {
  mem_known : forall i s, operations w !! i = Some s -> id_of s = i
    /\ exists s', recorded w i = Some s' /\ plan_of s' = plan_of s
       /\ (is_fresh (state_of s) = false -> is_fresh (state_of s') = false) /\ (is_terminal (state_of s) = true -> s' = s);
  mem_launched : forall p s, p ∈ spawned w -> operations w !! p_id p = Some s -> is_fresh (state_of s) = false;
  mem_launch : forall i, Launch i ∈ tasks w -> i ∉ (p_id <$> spawned w) /\ approved w i;
  mem_finish : forall i st k m, Finish i st k m ∈ tasks w -> is_terminal st = true;
  mem_supervised : NoDup (omap supervised (tasks w));
  mem_busy : forall t i, t ∈ tasks w -> supervised t = Some i ->
    exists s, operations w !! i = Some s /\ is_fresh (state_of s) = false /\ (after_start t = true -> is_running (state_of s) = true);
  mem_transferred : NoDup (omap transferred (tasks w));
  mem_upload : forall t i n, t ∈ tasks w -> transferred t = Some (i, n) -> uploads w i n = true /\ exists s, operations w !! i = Some s /\ uploading s n;
  mem_settled : forall i s s', σ !! i = Some s -> operations w !! i = Some s' -> s' = s
}.
Context (σ : gmap bytes StoredOperation) (old : list Process).
Definition Good (w : World) : Prop := Disk σ old w /\ Memory σ w.
Lemma Disk_extends w w' : extends w w' -> Disk σ old w -> Disk σ old w'.
Proof.
  intros E [A B C D F]. constructor; [..|by rewrite (ext_spawned _ _ E)].
  - intros i s. rewrite (ext_recorded _ _ E). apply A.
  - intros p. rewrite (ext_spawned _ _ E). intros Hp. destruct (B p Hp) as (B1 & s & B2). split; [by eapply extends_approved|]. exists s. by rewrite (ext_recorded _ _ E).
  - by rewrite (ext_spawned _ _ E).
  - intros i s. rewrite (ext_recorded _ _ E). apply D.
Qed.
Lemma Good_extends w w' : extends w w' -> Good w -> Good w'.
Proof.
  intros E [D [A B C F G H I J K]]. split; [by eapply Disk_extends|]. constructor; rewrite ?(ext_tasks _ _ E), ?(ext_operations _ _ E), ?(ext_spawned _ _ E); try done.
  - intros i s. rewrite (ext_recorded _ _ E). apply A.
  - intros i Hi. destruct (C i Hi) as [C1 C2]. split; [done|by eapply extends_approved].
  - intros t i n Ht Et. destruct (J t i n Ht Et) as [J1 J2]. split; [by apply (ext_uploads _ _ E)|done].
Qed.
Lemma is_fresh_not_terminal s : is_fresh s = true -> is_terminal s = false.
Proof. by destruct s. Qed.

(** A change of an operation on disk. *)
Record Changes (w : World) (s u : StoredOperation) : Prop := {
  ch_known : operations w !! id_of s = Some s; ch_plan : plan_of u = plan_of s; ch_open : is_terminal (state_of s) = false;
  ch_fresh : is_fresh (state_of s) = false -> is_fresh (state_of u) = false
}.
Lemma Changes_id w s u : Changes w s u -> id_of u = id_of s.
Proof. intros C. by apply plan_id, ch_plan with w. Qed.
Lemma Changes_planned w s u : Good w -> Changes w s u -> planned u.
Proof.
  intros [D M] C. destruct (mem_known _ _ M _ _ (ch_known _ _ _ C)) as (_ & s' & R & P & _). destruct (disk_planned _ _ _ D _ _ R) as [_ Pl].
  eapply planned_plan; [|exact Pl]. by rewrite P, (ch_plan _ _ _ C).
Qed.
Lemma Disk_filed w u : Disk σ old w -> is_Some (dirs w !! id_of u) -> planned u -> σ !! id_of u = None ->
  (forall p, p ∈ spawned w -> p_id p = id_of u -> is_fresh (state_of u) = false /\ exists s, recorded w (id_of u) = Some s /\ plan_of s = plan_of u) ->
  Disk σ old (filed u w).
Proof.
  intros [A B C D O] K P N L. constructor; [..|exact O].
  - intros i s. rewrite filed_recorded by done. destruct (decide (id_of u = i)) as [E|]; [intros [= <-]; by split|apply A].
  - intros p Hp. destruct (B p Hp) as [(e & a & W & X) (s & R & F & La)]. split; [exists e, a; by rewrite filed_written|].
    rewrite filed_recorded by done. destruct (decide (id_of u = p_id p)) as [E|]; [|by exists s]. destruct (L p Hp (eq_sym E)) as (Fu & s' & R' & Ps).
    exists u. split_and!; [done|done|]. eapply launched_plan; [exact Ps|]. rewrite E, R in R'. by injection R' as <-.
  - done.
  - intros i s Hs. rewrite filed_recorded by done. destruct (decide (id_of u = i)) as [<-|]; [by rewrite N in Hs|by apply D].
Qed.
Lemma Good_filed w s u : Good w -> Changes w s u -> is_Some (dirs w !! id_of u) -> Good (filed u w).
Proof.
  intros [D M] C K. pose proof (Changes_id _ _ _ C) as Eu. destruct (mem_known _ _ M _ _ (ch_known _ _ _ C)) as (_ & s' & R & P & F & _).
  assert (Ns : σ !! id_of u = None).
  { destruct (σ !! id_of u) as [x|] eqn:X; [|done]. rewrite Eu in X. pose proof (mem_settled _ _ M _ _ _ X (ch_known _ _ _ C)). subst x.
    destruct (disk_settled _ _ _ D _ _ X) as [_ T]. by rewrite (ch_open _ _ _ C) in T. }
  split.
  - apply Disk_filed; [done|done|by eapply (Changes_planned w s u)|done|]. intros p Hp Ep. split.
    + apply (ch_fresh _ _ _ C). eapply (mem_launched _ _ M p); [done|]. rewrite Ep, Eu. apply C.
    + exists s'. rewrite Eu. split; [done|]. by rewrite P, (ch_plan _ _ _ C).
  - destruct M as [A B Cc Ff G H I J Kk]. constructor; try done.
    + intros i x Hx. destruct (A i x Hx) as (A1 & x' & A2). split; [done|]. rewrite filed_recorded by done. destruct (decide (id_of u = i)) as [<-|]; [|by exists x'].
      change (operations w !! id_of u = Some x) in Hx. rewrite Eu, (ch_known _ _ _ C) in Hx. injection Hx as <-. exists u.
      split_and!; [done|apply C|apply C|]. rewrite (ch_open _ _ _ C). done.
    + intros i Hi. destruct (Cc i Hi) as [C1 (e & a & W & X)]. split; [done|]. exists e, a. by rewrite filed_written.
    + intros t i n Ht E. rewrite filed_uploads. by apply (J t).
Qed.

(** The tasks of an operation allow its new state. *)
Definition Allows (w : World) (u : StoredOperation) : Prop :=
  (forall t, t ∈ tasks w -> supervised t = Some (id_of u) -> is_fresh (state_of u) = false /\ (after_start t = true -> is_running (state_of u) = true))
  /\ (forall t n, t ∈ tasks w -> transferred t = Some (id_of u, n) -> uploading u n).
Lemma stored_operations u w : operations (stored u w) = <[id_of u := u]> (operations w).
Proof. done. Qed.
Lemma Good_store w s u : Good w -> recorded w (id_of u) = Some u -> Allows w u ->
  (operations w !! id_of u = Some s /\ is_terminal (state_of s) = false /\ (is_fresh (state_of s) = false -> is_fresh (state_of u) = false)
   \/ operations w !! id_of u = None /\ (forall p, p ∈ spawned w -> p_id p <> id_of u)) ->
  Good (w <| operations := <[id_of u := u]> (operations w) |>).
Proof.
  intros [D [A B C F G H I J K]] R [L1 L2] S. split; [by destruct D|]. constructor; cbn; try done.
  - intros i x [[<- <-]|[_ Hx]]%lookup_insert_Some; [|by apply A]. split; [done|]. by exists u.
  - intros p x Hp [[E <-]|[_ Hx]]%lookup_insert_Some; [|by eapply B]. destruct S as [(O & T & Fr)|[_ N]]; [|by destruct (N p Hp)].
    apply Fr, (B p s Hp). by rewrite <- E.
  - intros t i Ht E. destruct (decide (id_of u = i)) as [<-|N]; [|rewrite lookup_insert_ne by done; by apply (H t)].
    exists u. rewrite lookup_insert_eq. split; [done|by apply (L1 t)].
  - intros t i n Ht E. destruct (J t i n Ht E) as [J1 J2]. split; [done|]. destruct (decide (id_of u = i)) as [<-|N]; [|by rewrite lookup_insert_ne].
    exists u. rewrite lookup_insert_eq. split; [done|by apply (L2 t)].
  - intros i x y Hx [[<- <-]|[_ Hy]]%lookup_insert_Some; [|by eapply K]. destruct (disk_settled _ _ _ D _ _ Hx) as [Rx _]. congruence.
Qed.
Lemma Good_stored w s u : Good w -> Changes w s u -> is_Some (dirs w !! id_of u) -> Allows w u -> Good (stored u w).
Proof.
  intros Gd C Kn L. pose proof (Good_filed w s u Gd C Kn) as Gf. unfold stored. apply (Good_store (filed u w) s u Gf).
  - rewrite filed_recorded by done. by rewrite decide_True.
  - exact L.
  - left. rewrite (Changes_id _ _ _ C). split; [apply C|split; apply C].
Qed.
(** A changed operation, in a program. *)
Lemma ends_change w s u : Good w -> Changes w s u -> Allows w u ->
  ends w (update_operation u) (fun _ w' => Good w' /\ tasks w' = tasks w /\ spawned w' = spawned w /\ operations w' = <[id_of u := u]> (operations w)
    /\ forall i n, uploads w' i n = uploads w i n)
    (fun w' => Good w' /\ tasks w' = tasks w /\ operations w' = operations w /\ forall i n, uploads w' i n = uploads w i n).
Proof.
  intros Gd C L. eapply ends_weaken; [apply ends_update| |].
  - intros [] w' [-> K]. split_and!; [by eapply Good_stored|done..|]. intros i n. apply filed_uploads.
  - intros w' [->|[-> K]]; [by split_and!|]. split_and!; [by eapply Good_filed|done..|]. intros i n. apply filed_uploads.
Qed.
(** A program that only extends, in front of another. *)
Lemma ends_quiet {A B} w (m : act A) (k : A -> act B) (Q : B -> World -> Prop) (R : World -> Prop) :
  quietly m -> (forall w', extends w w' -> R w') -> (forall a w', extends w w' -> ends w' (k a) Q R) -> ends w (andthen m k) Q R.
Proof. intros H HR Hk. eapply ends_bind; [eapply ends_weaken; [apply H|intros a w' X; exact X|exact HR]|]. exact Hk. Qed.
Lemma ends_quietly {A} w (m : act A) (Q : A -> World -> Prop) (R : World -> Prop) :
  quietly m -> (forall a w', extends w w' -> Q a w') -> (forall w', extends w w' -> R w') -> ends w m Q R.
Proof. intros H HQ HR. eapply ends_weaken; [apply H|exact HQ|exact HR]. Qed.
Lemma ends_require w i (Q : StoredOperation -> World -> Prop) (R : World -> Prop) :
  (forall s, operations w !! i = Some s -> Q s w) -> R w -> ends w (require_operation i) Q R.
Proof.
  intros HQ HR. unfold require_operation. eapply ends_bind; [by apply (ends_get w (fun x w' => x = w /\ w' = w))|]. intros x w' [-> ->].
  apply ends_outcome; [|done]. intros s. destruct (operations w !! i) eqn:E; [|done]. intros [= ->]. by apply HQ.
Qed.
(** Adding a task. *)
Definition fits_in (w : World) (t : Task) : Prop :=
  (forall i, supervised t = Some i -> (forall t', t' ∈ tasks w -> supervised t' <> Some i) /\
     exists s, operations w !! i = Some s /\ is_fresh (state_of s) = false /\ (after_start t = true -> is_running (state_of s) = true))
  /\ (forall i n, transferred t = Some (i, n) -> (forall t', t' ∈ tasks w -> transferred t' <> Some (i, n)) /\ uploads w i n = true
       /\ exists s, operations w !! i = Some s /\ uploading s n)
  /\ match t with Launch i => i ∉ (p_id <$> spawned w) /\ approved w i | Finish _ st _ _ => is_terminal st = true | _ => True end.
Lemma NoDup_omap_snoc {A B} (f : A -> option B) l a : NoDup (omap f l) -> (forall b, f a = Some b -> forall x, x ∈ l -> f x <> Some b) -> NoDup (omap f (l ++ [a])).
Proof.
  intros H N. rewrite omap_app. cbn. destruct (f a) as [b|] eqn:E; [|by rewrite app_nil_r]. apply NoDup_app. split_and!; [done| |apply NoDup_singleton].
  intros x Hx ->%list_elem_of_singleton. apply list_elem_of_omap in Hx as (y & Hy & E'). by eapply N.
Qed.
Lemma Good_add w t : Good w -> fits_in w t -> Good (w <| tasks := tasks w ++ [t] |>).
Proof.
  intros [D [A B C F G H I J K]] (T1 & T2 & T3). split; [by destruct D|]. constructor; cbn; try done.
  - intros i [Hi|E%list_elem_of_singleton]%elem_of_app; [by apply C|]. by subst t.
  - intros i st k m [Hi|E%list_elem_of_singleton]%elem_of_app; [by eapply F|]. by subst t.
  - apply NoDup_omap_snoc; [done|]. intros i E. by apply T1.
  - intros t' i [Ht|E%list_elem_of_singleton]%elem_of_app E'; [by apply (H t')|]. subst t'. by apply T1.
  - apply NoDup_omap_snoc; [done|]. intros [i n] E. by apply T2.
  - intros t' i n [Ht|E%list_elem_of_singleton]%elem_of_app E'; [by apply (J t')|]. subst t'. by apply T2.
Qed.
Lemma ends_add_task w t R : Good w -> fits_in w t -> ends w (add_task t) (fun _ => Good) R.
Proof. intros Gd F. apply ends_put. by apply Good_add. Qed.
(** Taking a task. *)
Lemma Good_take w l1 t l2 : Good w -> tasks w = l1 ++ t :: l2 -> Good (w <| tasks := l1 ++ l2 |>)
  /\ (forall i, supervised t = Some i -> forall t', t' ∈ l1 ++ l2 -> supervised t' <> Some i)
  /\ (forall i n, transferred t = Some (i, n) -> forall t', t' ∈ l1 ++ l2 -> transferred t' <> Some (i, n)).
Proof.
  intros [D [A B C F G H I J K]] E. rewrite E in *. assert (Sub : forall x, x ∈ l1 ++ l2 -> x ∈ l1 ++ t :: l2) by (intros x; rewrite !elem_of_app, elem_of_cons; tauto).
  assert (ND : forall X (f : Task -> option X), NoDup (omap f (l1 ++ t :: l2)) -> NoDup (omap f (l1 ++ l2)) /\ forall b, f t = Some b -> forall t', t' ∈ l1 ++ l2 -> f t' <> Some b).
  { intros X f N. rewrite omap_app in *. cbn in N. destruct (f t) as [b|] eqn:Ft; [|by split].
    rewrite <- Permutation_middle in N. apply NoDup_cons in N as [N1 N2]. split; [done|]. intros b' [= <-] t' Ht Eb. apply N1.
    rewrite <- omap_app. apply list_elem_of_omap. by exists t'. }
  split_and!.
  - split; [by destruct D|]. constructor; cbn; try done; try (by intros; eauto); by apply ND.
  - intros i. by apply ND.
  - intros i n. by apply ND.
Qed.

(** ** Operations

    Each keeps the invariant, whatever fails and wherever it stops. *)
Notation request := (request encoded_len regex root generate).
Notation announce := (announce audit_json audit_of).
Notation resolve := (resolve encoded_len audit_json audit_of).
Notation cancel := (cancel encoded_len audit_json audit_of).
Notation fail_operation := (fail_operation encoded_len audit_json audit_of).
Notation start_operation := (start_operation encoded_len audit_json audit_of output_of).
Notation read_process_output := (read_process_output output_json).
Notation finish_operation := (finish_operation encoded_len audit_json audit_of).
Notation receive_input := (receive_input encoded_len audit_json audit_of).
Notation capture_input := (capture_input encoded_len audit_json audit_of root).
Hint Resolve quietly_audit quietly_publish : quiet.
Lemma quietly_running f : quietly (put (fun w => w <| running := f (running w) |>)).
Proof. apply quietly_put. intros w. by apply extends_field. Qed.
Hint Resolve quietly_running : quiet.
(** No task supervises [i]; it is known, and not fresh. *)
Definition idle (w : World) (i : bytes) : Prop := forall t, t ∈ tasks w -> supervised t <> Some i.
Definition known_as (P : HostOperationState -> bool) (w : World) (i : bytes) : Prop := exists s, operations w !! i = Some s /\ P (state_of s) = true.
Definition Ready (i : bytes) (w : World) : Prop := Good w /\ idle w i /\ known_as (fun st => negb (is_fresh st)) w i.
Definition Active (i : bytes) (w : World) : Prop := Good w /\ idle w i /\ known_as is_running w i.
Lemma Active_Ready i w : Active i w -> Ready i w.
Proof. intros (G & I & s & E & R). split_and!; [done|done|]. exists s. split; [done|]. by destruct (state_of s). Qed.
Lemma extends_idle w w' i : extends w w' -> idle w i -> idle w' i.
Proof. intros E H t. rewrite (ext_tasks _ _ E). apply H. Qed.
Lemma extends_known_as P w w' i : extends w w' -> known_as P w i -> known_as P w' i.
Proof. intros E (s & H). exists s. by rewrite (ext_operations _ _ E). Qed.
Lemma extends_Ready i w w' : extends w w' -> Ready i w -> Ready i w'.
Proof. intros E (G & I & K). split_and!; [by eapply Good_extends|by eapply extends_idle|by eapply extends_known_as]. Qed.
Lemma extends_Active i w w' : extends w w' -> Active i w -> Active i w'.
Proof. intros E (G & I & K). split_and!; [by eapply Good_extends|by eapply extends_idle|by eapply extends_known_as]. Qed.
(** An assertion that every extension keeps, around a quiet program. *)
Definition stable (P : World -> Prop) : Prop := forall w w', extends w w' -> P w -> P w'.
Lemma stable_Good : stable Good.
Proof. intros w w'. apply Good_extends. Qed.
Lemma ends_stable {A} P w (m : act A) : stable P -> quietly m -> P w -> ends w m (fun _ => P) P.
Proof. intros S Q Hw. apply ends_quietly; [done|intros _|]; intros w' E; by apply (S w). Qed.
Lemma ends_stably {A B} P w (m : act A) (k : A -> act B) Q (R : World -> Prop) :
  stable P -> quietly m -> P w -> (forall w', P w' -> R w') -> (forall a w', P w' -> ends w' (k a) Q R) -> ends w (andthen m k) Q R.
Proof. intros S Qm Hw HR Hk. apply ends_quiet; [done|..]; intros; [apply HR|apply Hk]; by apply (S w). Qed.
Lemma ends_publish P w (m : act unit) : stable P -> quietly m -> P w -> ends w (andthen m (fun _ => publish_operations)) (fun _ => P) P.
Proof. intros S Q Hw. apply ends_stable; [done| |done]. apply quietly_bind; [done|]. intros _. apply quietly_publish. Qed.

Lemma ends_announce w i a : Good w -> ends w (announce i a) (fun _ => Good) Good.
Proof. intros G. apply ends_publish; auto using stable_Good with quiet. Qed.
Lemma fresh_idle w i s : Good w -> operations w !! i = Some s -> is_fresh (state_of s) = true -> idle w i.
Proof. intros [_ M] O F t Ht E. destruct (mem_busy _ _ M t i Ht E) as (s' & O' & F' & _). congruence. Qed.
Lemma Good_id w i s : Good w -> operations w !! i = Some s -> id_of s = i.
Proof. intros [_ M] O. by destruct (mem_known _ _ M i s O). Qed.
(** A change of the state of an operation. *)
Lemma Changes_state w i s st : Good w -> operations w !! i = Some s -> is_terminal (state_of s) = false ->
  (is_fresh (state_of s) = false -> is_fresh st = false) -> Changes w s (with_state st s).
Proof.
  intros G O T F. constructor; [by rewrite (Good_id w i s G O)|apply plan_with_state|done|by rewrite state_with_state].
Qed.
Lemma Allows_idle w i s st : id_of s = i -> idle w i -> (forall t n, t ∈ tasks w -> transferred t = Some (i, n) -> uploading (with_state st s) n) -> Allows w (with_state st s).
Proof. intros <- I H. unfold Allows. rewrite id_with_state. split; [intros t Ht E; by destruct (I t Ht)|done]. Qed.
Lemma uploading_state w t i n s : Good w -> t ∈ tasks w -> transferred t = Some (i, n) -> operations w !! i = Some s -> uploading s n.
Proof. intros [_ M] Ht E O. destruct (mem_upload _ _ M t i n Ht E) as (_ & s' & O' & U). congruence. Qed.
Lemma uploading_terminal st s n : is_terminal st = true -> uploading (with_state st s) n.
Proof. intros T. right. by rewrite state_with_state. Qed.

Lemma resolve_allows w i s st : Good w -> operations w !! i = Some s -> (exists p, state_of s = AwaitingApproval p) -> Allows w (with_state st s).
Proof.
  intros G O (p & E). assert (F : is_fresh (state_of s) = true) by by rewrite E. apply (Allows_idle w i); [by eapply Good_id|by eapply fresh_idle|].
  intros t n Ht Et. destruct (uploading_state w t i n s G Ht Et O) as [[P _]|T]; [by rewrite E in P|by rewrite E in T].
Qed.
Lemma fits_launch w i s : Good w -> operations w !! i = Some s -> is_fresh (state_of s) = false -> idle w i -> i ∉ (p_id <$> spawned w) -> approved w i -> fits_in w (Launch i).
Proof.
  intros G O F I N A. split_and!; [|done|done|done]. intros j [= <-]. split; [exact I|]. by exists s.
Qed.
Lemma ends_resolve w i d actor : Good w -> ends w (resolve i d actor) (fun _ => Good) Good.
Proof.
  intros G. unfold HostopService.resolve. apply (ends_bind _ _ _ (fun s w' => w' = w /\ operations w !! i = Some s)); [by apply ends_require|]. intros s w' [-> O].
  destruct (op_state (operation s)) as [|p| | | | | | |] eqn:E; try by apply ends_raise.
  apply (ends_bind _ _ _ (fun x w' => x = w /\ w' = w)); [by apply ends_get|]. intros x w' [-> ->].
  assert (Fs : is_fresh (state_of s) = true) by (unfold state_of; by rewrite E). assert (I : idle w i) by by eapply fresh_idle.
  assert (Ch : forall st, Changes w s (with_state st s)) by (intros st; apply (Changes_state w i); [done|done|unfold state_of; by rewrite E|congruence]).
  assert (Al : forall st, Allows w (with_state st s)) by (intros st; apply (resolve_allows w i); [done|done|by exists p]).
  assert (Up : forall st k m, ends w (do! update_operation (with_state st s); do! append_audit i k m (Some actor); do! publish_operations; ret tt) (fun _ => Good) Good).
  { intros st k m. eapply ends_bind; [eapply ends_weaken; [by apply (ends_change w s)|intros ? ? X; exact X|by intros ? [? _]]|]. intros _ w1 (G1 & _).
    eapply ends_stably; [exact stable_Good|auto with quiet|done|done|]. intros _ w2 G2. apply ends_stable; [exact stable_Good|apply quietly_bind; auto with quiet|done]. }
  destruct d; cbn [HostopService.publish_operations]; [|apply Up|apply Up].
  eapply ends_bind; [eapply ends_weaken; [by apply (ends_change w s)|intros ? ? X; exact X|by intros ? [? _]]|]. intros _ w1 (G1 & T1 & S1 & O1 & _).
  eapply ends_bind; [eapply ends_weaken; [apply ends_approval|intros ? ? X; exact X|intros w' X; by eapply Good_extends]|]. intros _ w2 [X2 A2].
  eapply ends_quiet; [auto with quiet|intros w3 X3; eapply Good_extends; [exact X3|by eapply Good_extends]|]. intros _ w3 X3. pose proof (extends_trans _ _ _ X2 X3) as X.
  assert (G3 : Good w3) by by eapply Good_extends. apply ends_add_task; [done|].
  eapply fits_launch with (s := with_state _ s); [done|rewrite (ext_operations _ _ X), O1, id_with_state, (Good_id w i s G O); apply lookup_insert_eq|by rewrite state_with_state| | |exact (extends_approved _ _ _ X3 A2)].
  - eapply extends_idle; [exact X|]. intros t. rewrite T1. apply I.
  - rewrite (ext_spawned _ _ X), S1. intros (q & Eq & Hq)%list_elem_of_fmap. destruct G as [_ M]. pose proof (mem_launched _ _ M q s Hq). rewrite <- Eq in H. specialize (H O). congruence.
Qed.
(** The end of an operation that no process runs. *)
Lemma ends_settle w i s st k m a : Good w -> operations w !! i = Some s -> is_terminal (state_of s) = false -> is_terminal st = true ->
  (forall t, t ∈ tasks w -> supervised t = Some i -> after_start t = false) ->
  ends w (do! update_operation (with_state st s); do! append_audit i k m a; publish_operations) (fun _ w' => Good w' /\ tasks w' = tasks w) (fun w' => Good w' /\ tasks w' = tasks w).
Proof.
  intros G O T Ts N. pose proof (Good_id w i s G O) as Ei. eapply ends_bind.
  - eapply ends_weaken; [apply (ends_change w s); [done| |]|intros ? ? X; exact X|by intros ? (? & ? & _)].
    + apply (Changes_state w i); [done..|]. by destruct st.
    + split; rewrite id_with_state, Ei; [|intros; by apply uploading_terminal]. intros t Ht E. rewrite state_with_state, (N t Ht E). by destruct st.
  - intros _ w1 (G1 & T1 & _). eapply ends_weaken; [apply (ends_publish (fun w' => Good w' /\ tasks w' = tasks w)); [|auto with quiet|by split]|done|done].
    intros x y E [Gx Tx]. split; [by eapply Good_extends|by rewrite (ext_tasks _ _ E)].
Qed.
Lemma ends_cancel w i a : Good w -> ends w (cancel i a) (fun _ => Good) Good.
Proof.
  intros G. unfold HostopService.cancel. apply (ends_bind _ _ _ (fun x w' => x = w /\ w' = w)); [by apply ends_get|]. intros x w' [-> ->].
  destruct (running w !! i).
  - apply ends_stable; [exact stable_Good| |done]. apply quietly_bind; auto with quiet.
  - apply (ends_bind _ _ _ (fun s w' => w' = w /\ operations w !! i = Some s)); [by apply ends_require|]. intros s w' [-> O].
    destruct (withdrawable _) eqn:W; [|by apply ends_raise].
    eapply ends_weaken; [eapply ends_settle; [done|exact O| |done|]|by intros ? ? [? _]|by intros ? [? _]].
    + unfold state_of. by destruct (op_state (operation s)).
    + intros t Ht E. destruct G as [_ M]. destruct (mem_busy _ _ M t i Ht E) as (s' & O' & _ & R). rewrite O in O'. injection O' as <-.
      destruct (after_start t); [|done]. specialize (R eq_refl). unfold state_of in R. by destruct (op_state (operation s)).
Qed.
Lemma ends_fail w i m : Good w -> (forall t s, t ∈ tasks w -> supervised t = Some i -> operations w !! i = Some s -> is_terminal (state_of s) = false -> after_start t = false) ->
  ends w (fail_operation i m) (fun _ w' => Good w' /\ tasks w' = tasks w) (fun w' => Good w' /\ tasks w' = tasks w).
Proof.
  intros G N. unfold HostopService.fail_operation.
  assert (E1 : extends w (w <| running := delete i (running w) |>)) by by apply extends_field.
  eapply ends_bind; [by apply (ends_put w _ (fun _ w' => w' = w <| running := delete i (running w) |>))|]. intros _ ? ->. set (w1 := w <| running := _ |>) in *.
  assert (G1 : Good w1) by by eapply Good_extends. apply (ends_bind _ _ _ (fun s w' => w' = w1 /\ operations w1 !! i = Some s)); [by apply ends_require|]. intros s ? [-> O].
  destruct (is_terminal _) eqn:T; [by apply ends_ret|].
  apply (ends_bind _ _ _ (fun x w' => x = w1 /\ w' = w1)); [by apply ends_get|]. intros x ? [-> ->].
  apply (ends_settle w1 i s); [done|done|done|done|]. intros t Ht E. by apply (N t s).
Qed.
Lemma ends_give_up w i m : Good w -> idle w i -> ends w (fail_operation i m) (fun _ => Good) Good.
Proof.
  intros G I. eapply ends_weaken; [apply ends_fail; [done|]|by intros ? ? [? _]|by intros ? [? _]]. intros t s Ht E. by destruct (I t Ht).
Qed.

(** *** Requests *)
Definition New (w : World) (i : bytes) (w' : World) : Prop :=
  (exists d, record d = None /\ dirs w' = <[i := d]> (dirs w)) /\ operations w' = operations w /\ tasks w' = tasks w /\ spawned w' = spawned w.
Lemma New_extends w i w' : dirs w !! i = None -> New w i w' -> extends w w'.
Proof.
  intros N ((d & R & D) & O & T & S). constructor; [done..| | |]; unfold recorded, uploads; rewrite D.
  - intros j. destruct (decide (i = j)) as [<-|]; [by rewrite lookup_insert_eq, N; cbn; rewrite R|by rewrite lookup_insert_ne].
  - intros j n. destruct (decide (i = j)) as [<-|]; [by rewrite N|by rewrite lookup_insert_ne].
  - intros j x E. destruct (decide (i = j)) as [<-|]; [congruence|]. rewrite lookup_insert_ne by done. exists x, []. by rewrite app_nil_r.
Qed.
Lemma New_change w i w' f : (forall d, record (f d) = record d) -> New w i w' -> New w i (change_dir i f w').
Proof.
  intros Hf ((d & R & D) & X). split; [|exact X]. exists (f d). rewrite Hf. split; [done|]. change (dirs (change_dir i f w')) with (alter f i (dirs w')).
  by rewrite D, alter_insert_eq.
Qed.
Lemma ends_prepare w i : ends w (prepare_operation i) (fun _ w' => extends w w' /\ dirs w !! i = None /\ is_Some (dirs w' !! i)) (extends w).
Proof.
  unfold prepare_operation, call. apply (ends_bind _ _ _ (fun x w' => x = w /\ w' = w)); [by apply ends_get|]. intros x w' [-> ->].
  destruct (dirs w !! i) as [d|] eqn:D.
  { eapply ends_bind; [apply quietly_call|]. intros ? w' E. by apply ends_raise. }
  eapply (ends_bind _ _ _ (fun _ => New w i)); [apply ends_syscall; [split; [eexists; split; [|reflexivity]; done|done]|apply extends_refl]|]. intros _ w1 N1.
  eapply (ends_bind _ _ _ (fun _ => New w i)); [apply ends_syscall; [by apply New_change|by eapply New_extends]|]. intros _ w2 N2.
  eapply (ends_bind _ _ _ (fun _ => New w i)); [apply ends_syscall; [by apply New_change|by eapply New_extends]|]. intros _ w3 N3.
  pose proof (New_extends _ _ _ D N3) as X. apply ends_syscall; [|done]. split_and!; [done|done|]. destruct N3 as ((d & _ & Dd) & _). cbn [id]. rewrite Dd, lookup_insert_eq. by eexists.
Qed.
(** The first record of an operation. *)
Lemma unknown_operation w i : Good w -> recorded w i = None -> operations w !! i = None /\ (forall p, p ∈ spawned w -> p_id p <> i) /\ σ !! i = None.
Proof.
  intros [D M] R. split_and!.
  - destruct (operations w !! i) as [s|] eqn:O; [|done]. destruct (mem_known _ _ M i s O) as (_ & s' & R' & _). congruence.
  - intros p Hp <-. destruct (disk_launched _ _ _ D p Hp) as (_ & s & R' & _). congruence.
  - destruct (σ !! i) as [s|] eqn:S; [|done]. destruct (disk_settled _ _ _ D i s S). congruence.
Qed.
Lemma Good_first w u : Good w -> is_Some (dirs w !! id_of u) -> recorded w (id_of u) = None -> planned u -> Good (filed u w).
Proof.
  intros G K R P. destruct (unknown_operation w _ G R) as (O & S & N). destruct G as [D [A B C F G H I J L]]. split.
  - apply Disk_filed; [done..|]. intros p Hp E. by destruct (S p Hp).
  - constructor; try done.
    + intros i x Hx. destruct (A i x Hx) as (A1 & A2). split; [done|]. rewrite filed_recorded by done. destruct (decide (id_of u = i)) as [<-|]; [|done].
      change (operations w !! id_of u = Some x) in Hx. congruence.
    + intros i Hi. destruct (C i Hi) as [C1 (e & a & W & X)]. split; [done|]. exists e, a. by rewrite filed_written.
    + intros t i n Ht E. rewrite filed_uploads. by apply (J t).
Qed.
Lemma plan_request executable var_os i time q actor snapshot s : (forall c, snapshot = Ok c -> served c) ->
  plan regex executable var_os root i time q actor snapshot = Ok s -> id_of s = i /\ planned s /\ is_fresh (state_of s) = true.
Proof.
  intros Sv E. destruct (plan_inv _ _ _ _ _ _ _ _ _ _ E) as (c & ? & ? & ? & ? & ? & ? & ? & ? & Ec & _ & _ & _ & _ & _ & _ & _ & _ & _ & Es).
  assert (I : id_of s = i) by by subst s. split_and!; [done| |rewrite Es; unfold state_of; cbn [operation op_state]; by destruct (bool_decide _)].
  exists c, executable, var_os, time, q, actor, s. rewrite I, <- Ec. split; [by apply Sv|done].
Qed.
Lemma ends_request w executable var_os q actor snapshot : Good w -> (forall c, snapshot = Ok c -> served c) -> ends w (request executable var_os q actor snapshot) (fun _ => Good) Good.
Proof.
  intros G Sv. unfold HostopService.request. apply (ends_bind _ _ _ (fun x w' => x = w /\ w' = w)); [by apply ends_get|]. intros x w' [-> ->].
  eapply ends_stably; [exact stable_Good|apply quietly_put; intros; by apply extends_field|done|done|]. intros _ w1 G1.
  eapply ends_bind; [apply (ends_outcome w1 _ (fun s w' => w' = w1 /\ plan regex executable var_os root (generate (generated w)) (now w) q actor snapshot = Ok s)); [by intros|done]|].
  intros s ? [-> E]. destruct (plan_request _ _ _ _ _ _ _ _ Sv E) as (I & P & F). rewrite <- I.
  eapply ends_bind; [eapply ends_weaken; [apply ends_prepare|intros ? ? X; exact X|intros w' X; by eapply Good_extends]|]. intros _ w2 (X & D1 & D2).
  assert (G2 : Good w2) by by eapply Good_extends. assert (R : recorded w2 (id_of s) = None) by (rewrite (ext_recorded _ _ X); unfold recorded; by rewrite D1).
  destruct (unknown_operation w2 _ G2 R) as (O & S & _). assert (G3 : Good (filed s w2)) by by apply Good_first.
  eapply ends_bind; [eapply ends_weaken; [apply ends_write_record|intros ? ? Y; exact Y|by intros w' [->|[-> _]]]|]. intros _ ? [-> _].
  eapply (ends_bind _ _ _ (fun _ => Good)).
  - apply ends_put. apply (Good_store (filed s w2) s s); [done|by rewrite filed_recorded, decide_True by done| |right; by split].
    destruct G2 as [_ M]. split.
    + intros t Ht Et. destruct (mem_busy _ _ M t _ Ht Et) as (s' & O' & _). congruence.
    + intros t n Ht Et. destruct (mem_upload _ _ M t _ n Ht Et) as (_ & s' & O' & _). congruence.
  - intros _ w4 G4. eapply (ends_bind _ _ _ (fun _ => Good)); [by apply ends_add_task|]. intros _ w5 G5. by apply ends_ret.
Qed.

(** *** Processes *)
Lemma ends_or_give_up w i m : ends w m (fun _ => Good) (Ready i) -> ends w (or_give_up i m) (fun _ => Good) Good.
Proof.
  intros H. unfold or_give_up. eapply (ends_bind _ _ _ (fun r w' => match r with inr _ => Good w' | inl _ => Ready i w' end)).
  - eapply ends_attempt; [exact H|by intros ? ? X|by intros ? [? _]].
  - intros [e|[]] w' X; [|by apply ends_ret]. destruct X as (G & I & s & O & F). apply ends_add_task; [done|]. split_and!; [|done|done].
    intros j [= <-]. split; [exact I|]. exists s. split_and!; [done|by apply negb_true_iff|done].
Qed.
Definition ready_to_launch (i : bytes) (w : World) : Prop := Ready i w /\ i ∉ (p_id <$> spawned w) /\ approved w i.
Lemma extends_launch i w w' : extends w w' -> ready_to_launch i w -> ready_to_launch i w'.
Proof.
  intros E (R & N & A). split_and!; [by eapply extends_Ready|by rewrite (ext_spawned _ _ E)|by eapply extends_approved].
Qed.
Lemma Ready_spawn w i s p : ready_to_launch i w -> operations w !! i = Some s -> is_terminal (state_of s) = false -> launched_as p s -> p_id p = i -> Ready i (w <| spawned := spawned w ++ [p] |>).
Proof.
  intros (([[D1 D2 D3 D4 D5] [A B C F G H I J K]] & Id & (s0 & O0 & F0)) & N & Ap) O T L Ep. rewrite O in O0. injection O0 as <-. apply negb_true_iff in F0.
  split_and!; [split; constructor; cbn; try done|exact Id|exists s; by rewrite F0].
  - intros q [Hq|E%list_elem_of_singleton]%elem_of_app; [by apply D2|]. subst q. rewrite Ep. split; [done|].
    destruct (A i s O) as (_ & s' & R & P & Fr & _). exists s'. split_and!; [done|by apply Fr|by eapply launched_plan].
  - rewrite fmap_app. apply NoDup_app. split_and!; [done| |apply NoDup_singleton]. intros x Hx ->%list_elem_of_singleton. by rewrite Ep in Hx.
  - intros q [Hq|E%list_elem_of_singleton]%elem_of_app; [by apply D5|]. subst q. rewrite Ep. intros [x X]. pose proof (K i x s X O) as <-.
    destruct (D4 i s X) as [_ Tx]. congruence.
  - intros q x [Hq|E%list_elem_of_singleton]%elem_of_app; [by apply B|]. subst q. rewrite Ep, O. by intros [= <-].
  - intros j Hj. destruct (C j Hj) as [C1 C2]. split; [|done]. rewrite fmap_app, not_elem_of_app. split; [done|]. intros ->%list_elem_of_singleton.
    rewrite Ep in Hj. by apply (Id _ Hj).
Qed.
(** A change of an operation that nothing else supervises. *)
Lemma ends_advance w i s st : Ready i w -> operations w !! i = Some s -> is_terminal (state_of s) = false -> is_fresh st = false ->
  ends w (update_operation (with_state st s)) (fun _ w' => Ready i w' /\ operations w' !! i = Some (with_state st s)) (Ready i).
Proof.
  intros (G & Id & s0 & O0 & F0) O T Fst. rewrite O in O0. injection O0 as <-. pose proof (Good_id w i s G O) as Ei. apply negb_true_iff in F0.
  eapply ends_weaken; [apply (ends_change w s); [done|by apply (Changes_state w i)|]| |].
  - apply (Allows_idle w i); [done|done|]. intros t n Ht E. destruct (uploading_state w t i n s G Ht E O) as [[P _]|X]; [by rewrite P in F0|by rewrite X in T].
  - intros _ w' (G' & T' & _ & O' & _). assert (L : operations w' !! i = Some (with_state st s)) by (rewrite O', id_with_state, Ei; apply lookup_insert_eq).
    split; [|done]. split_and!; [done|intros t; rewrite T'; apply Id|]. exists (with_state st s). by rewrite state_with_state, Fst.
  - intros w' (G' & T' & O' & _). split_and!; [done|intros t; rewrite T'; apply Id|]. exists s. by rewrite O', F0.
Qed.
Lemma Active_fits w i c f : Active i w -> fits_in w (Supervise i c f).
Proof.
  intros (G & Id & s & O & R). split_and!; [|done|done]. intros j [= <-]. split; [exact Id|]. exists s. split_and!; [done|by destruct (state_of s)|done].
Qed.
Lemma stable_Ready i : stable (Ready i).
Proof. intros w w'. apply extends_Ready. Qed.
Lemma stable_Active i : stable (Active i).
Proof. intros w w'. apply extends_Active. Qed.
Lemma stable_launch i : stable (ready_to_launch i).
Proof. intros w w'. apply extends_launch. Qed.
Lemma quietly_output i : quietly (read_output output_of i).
Proof. unfold read_output. apply quietly_bind; [apply quietly_get|]. intros w. apply quietly_read. Qed.
Hint Resolve quietly_output : quiet.
Lemma ends_start w var_os i pid : ready_to_launch i w -> ends w (start_operation var_os i pid) (fun _ => Good) (Ready i).
Proof.
  intros RL. assert (R : Ready i w) by apply RL. unfold HostopService.start_operation.
  apply (ends_bind _ _ _ (fun s w' => w' = w /\ operations w !! i = Some s)); [by apply ends_require|]. intros s ? [-> O].
  destruct (op_state (operation s)) eqn:E; try by apply ends_raise.
  eapply (ends_bind _ _ _ (fun _ w' => ready_to_launch i w' /\ operations w' !! i = Some s)).
  { apply ends_put. split; [|done]. eapply extends_launch; [|exact RL]. by apply extends_field. }
  intros _ w1 [L1 O1]. assert (R1 : Ready i w1) by apply L1.
  eapply (ends_bind _ _ _ (fun env w' => w' = w1 /\ resolve_execution_environment var_os (environment s) = Ok env)); [by apply ends_outcome|]. intros env ? [-> Ev].
  eapply (ends_bind _ _ _ (fun d w' => w' = w1 /\ op_working_directory (operation s) = Some d)); [apply ends_outcome; [by intros d ?%ok_or_Ok|done]|]. intros d ? [-> Di].
  eapply (ends_bind _ _ _ (fun r w' => Ready i w' /\ operations w' !! i = Some s)).
  { eapply ends_attempt with (S := fun w' => Ready i w' /\ operations w' !! i = Some s); [|done|by intros ? [? _]]. apply ends_syscall; [|done]. split; [|done].
    apply (Ready_spawn w1 i s); [done|done|unfold state_of; by rewrite E| |done]. split_and!; [|done|done|done|by exists var_os]. symmetry. apply (Good_id w1); [apply L1|done]. }
  intros [e|[]] w2 [R2 O2].
  - eapply ends_stably; [apply stable_Ready|auto with quiet|done|done|]. intros _ w3 R3. by apply ends_raise.
  - eapply ends_bind; [eapply ends_advance; [done|exact O2|unfold state_of; by rewrite E|done]|]. intros _ w3 [R3 O3].
    assert (A3 : Active i w3) by (split_and!; [apply R3|apply R3|eexists; split; [exact O3|by rewrite state_with_state]]).
    eapply ends_stably; [apply stable_Active|auto with quiet|done|apply Active_Ready|]. intros _ w4 A4.
    eapply ends_stably; [apply stable_Active|auto with quiet|done|apply Active_Ready|]. intros _ w5 A5.
    eapply ends_stably; [apply stable_Active|auto with quiet|done|apply Active_Ready|]. intros chunks w6 A6.
    apply ends_add_task; [apply A6|by apply Active_fits].
Qed.
Lemma ends_read w i c f source data : Active i w -> ends w (read_process_output i c f source data) (fun _ => Good) (Ready i).
Proof.
  intros A. unfold HostopService.read_process_output. destruct (data ≫= _) as [[bs [[c' x] y]]|]; [|apply ends_add_task; [apply A|by apply Active_fits]].
  eapply ends_stably; [apply stable_Active|auto with quiet|done|apply Active_Ready|]. intros x0 w1 A1.
  eapply ends_stably; [apply stable_Active| |exact A1|apply Active_Ready|].
  - apply quietly_attempt, quietly_append. intros. apply extends_output.
  - intros r w2 A2. apply ends_add_task; [apply A2|by apply Active_fits].
Qed.
Lemma verdict_terminal w e st k m : verdict w e = Ok (st, k, m) -> is_terminal st = true.
Proof. destruct e; cbn; try case_bool_decide; naive_solver. Qed.
Lemma ends_end w i f e : Active i w -> ends w (end_process i f e) (fun _ => Good) (Ready i).
Proof.
  intros A. unfold end_process. eapply (ends_bind _ _ _ (fun x w' => x = w /\ w' = w)); [by apply ends_get|]. intros ? ? [-> ->].
  eapply (ends_bind _ _ _ (fun r w' => w' = w /\ verdict w e = Ok r)); [apply ends_outcome; [done|by apply Active_Ready]|]. intros [[st k] m] ? [-> V].
  destruct f; [by apply ends_raise, Active_Ready|]. eapply ends_stably; [apply stable_Active|auto with quiet|done|apply Active_Ready|].
  intros _ w1 (G & Id & s & O & R). apply ends_add_task; [done|]. split_and!; [|done|by eapply verdict_terminal].
  intros j [= <-]. split; [exact Id|]. exists s. split_and!; [done|by destruct (state_of s)|done].
Qed.
Lemma ends_finish w i st k m : Active i w -> is_terminal st = true -> ends w (finish_operation i st k m) (fun _ => Good) (Ready i).
Proof.
  intros (G & Id & s & O & R) T. unfold HostopService.finish_operation.
  apply (ends_bind _ _ _ (fun s w' => w' = w /\ operations w !! i = Some s)).
  { apply ends_require; [done|]. split_and!; [done|done|]. exists s. split; [done|by destruct (state_of s)]. }
  intros ? ? [-> O']. rewrite O in O'. injection O' as <-. eapply ends_bind.
  - apply (ends_advance w i s); [|done|by destruct (state_of s)|by destruct st]. split_and!; [done|done|]. exists s. split; [done|by destruct (state_of s)].
  - intros _ w1 [R1 _]. eapply ends_weaken; [apply (ends_publish (Ready i)); [apply stable_Ready|auto with quiet|done]|by intros ? ? [? _]|done].
Qed.

(** *** Inputs *)
Definition free (w : World) (i name : bytes) : Prop := forall t, t ∈ tasks w -> transferred t <> Some (i, name).
Definition Moving (i name : bytes) (w : World) : Prop :=
  Good w /\ free w i name /\ uploads w i name = true /\ exists s, operations w !! i = Some s /\ uploading s name.
Lemma stable_Moving i name : stable (Moving i name).
Proof.
  intros w w' E (G & F & U & s & O & Us). split_and!; [by eapply Good_extends|intros t; rewrite (ext_tasks _ _ E); apply F|by apply (ext_uploads _ _ E)|].
  exists s. by rewrite (ext_operations _ _ E).
Qed.
Lemma quietly_respond r : quietly (respond r).
Proof. unfold respond. apply quietly_bind; [apply quietly_call|]. intros. apply quietly_ret. Qed.
Hint Resolve quietly_respond : quiet.
Lemma extends_set_input i name tree w : extends w (set_input i name tree w).
Proof.
  apply extends_change. intros d. split_and!; [done| |exists []; by rewrite app_nil_r]. intros m E. exists (<[name := tree]> m).
  split; [cbn; by rewrite E|]. rewrite dom_insert. set_solver.
Qed.
Lemma uploads_set_input i name tree w : is_Some (dirs w !! i ≫= input_dirs) -> uploads (set_input i name tree w) i name = true.
Proof.
  intros [m E]. unfold uploads, set_input. change (dirs (change_dir i ?f w)) with (alter f i (dirs w)). rewrite lookup_alter_eq.
  destruct (dirs w !! i) as [d|]; [|done]. cbn in *. rewrite E. cbn. rewrite lookup_insert_eq. by apply bool_decide_eq_true.
Qed.
Lemma Good_discard w i name : Good w -> free w i name -> Good (change_dir i (fun d => d <| input_dirs := delete name <$> input_dirs d |>) w).
Proof.
  intros [[D1 D2 D3 D4 D5] [A B C F G H I J K]] Fr. set (w' := change_dir _ _ w).
  assert (L : forall j, dirs w' !! j = if decide (i = j) then (fun d => d <| input_dirs := delete name <$> input_dirs d |>) <$> dirs w !! j else dirs w !! j).
  { intros j. change (dirs w') with (alter (fun d => d <| input_dirs := delete name <$> input_dirs d |>) i (dirs w)).
    destruct (decide (i = j)) as [<-|N]; [apply lookup_alter_eq|by apply lookup_alter_ne]. }
  assert (R : forall j, recorded w' j = recorded w j).
  { intros j. unfold recorded. rewrite L. destruct (decide (i = j)); [|done]. by destruct (dirs w !! j). }
  assert (W : forall j x, written w j x -> written w' j x).
  { intros j x (d & b & a & E & X). unfold written. rewrite L, E. destruct (decide (i = j)); [|by exists d, b, a]. by eexists _, b, a. }
  assert (Ap : forall j, approved w j -> approved w' j) by (intros j (e & a & X & Y); exists e, a; split; [by apply W|done]).
  assert (U : forall j n, (j, n) <> (i, name) -> uploads w' j n = uploads w j n).
  { intros j n N. unfold uploads. rewrite L. destruct (decide (i = j)) as [<-|]; [|done]. destruct (dirs w !! i) as [d|]; [|done]. cbn.
    destruct (input_dirs d) as [m|]; [|done]. cbn. rewrite lookup_delete_ne; [done|congruence]. }
  split; constructor; try done.
  - intros j s. rewrite R. apply D1.
  - intros p Hp. destruct (D2 p Hp) as [X1 X2]. split; [by apply Ap|]. by rewrite R.
  - intros j s. rewrite R. apply D4.
  - intros j s Hs. rewrite R. by apply A.
  - intros j Hj. destruct (C j Hj). split; [done|by apply Ap].
  - intros t j n Ht E. rewrite U; [by apply (J t)|]. intros E'. rewrite E' in E. by apply (Fr t).
Qed.
Lemma ends_discard w i name : Good w -> free w i name -> ends w (discard_input i name) (fun _ => Good) Good.
Proof.
  intros G F. unfold discard_input. eapply (ends_bind _ _ _ (fun _ => Good)); [|intros ? w' G'; by apply ends_ret].
  eapply (ends_attempt _ _ _ _ Good); [|done|done]. apply ends_syscall; [by apply Good_discard|done].
Qed.
Lemma ends_or_discard {A} w i name (m : act A) Q : ends w m Q (fun w' => Good w' /\ free w' i name) -> ends w (or_discard i name m) Q Good.
Proof.
  intros H. unfold or_discard. eapply (ends_bind _ _ _ (fun r w' => match r with inr a => Q a w' | inl _ => Good w' /\ free w' i name end)).
  - eapply ends_attempt; [exact H|by intros|by intros ? [? _]].
  - intros [e|a] w' X; [|by apply ends_ret]. eapply ends_bind; [apply ends_discard; apply X|]. intros ? w1 G1. by apply ends_raise.
Qed.
Lemma Moving_free i name w : Moving i name w -> Good w /\ free w i name.
Proof. by intros (G & F & _). Qed.
(** A quiet part of an upload. *)
Lemma ends_moving {A} w i name (m : act A) : quietly m -> Moving i name w -> ends w (or_discard i name m) (fun _ => Moving i name) Good.
Proof.
  intros Q M. apply ends_or_discard. eapply ends_weaken; [apply ends_stable; [apply stable_Moving|exact Q|exact M]|done|apply Moving_free].
Qed.
Lemma quietly_prepare_input i name w : ends w (prepare_input i name) (fun _ w' => extends w w' /\ uploads w i name = false /\ uploads w' i name = true) (extends w).
Proof.
  unfold prepare_input, call. apply (ends_bind _ _ _ (fun x w' => x = w /\ w' = w)); [by apply ends_get|]. intros ? ? [-> ->].
  destruct (dirs w !! i ≫= input_dirs) as [inputs|] eqn:E; [|eapply ends_bind; [apply quietly_call|]; intros ? w' X; by apply ends_raise].
  assert (U : uploads w i name = bool_decide (is_Some (inputs !! name))) by (unfold uploads; by rewrite E). destruct (bool_decide _) eqn:B.
  { eapply (ends_bind _ _ _ (fun _ _ => False)); [apply ends_raise, extends_refl|]. by intros. }
  eapply (ends_bind _ _ _ (fun _ w' => w' = w)); [by apply ends_ret|]. intros _ ? ->.
  eapply (ends_bind _ _ _ (fun _ w' => w' = set_input i name None w)); [apply ends_syscall; [done|apply extends_refl]|]. intros _ ? ->.
  apply ends_syscall; [|apply extends_set_input]. split_and!; [apply extends_set_input|done|]. apply uploads_set_input. by eexists.
Qed.
Lemma Moving_upload w x : Moving (up_operation_id x) (up_input_name x) w -> fits_in w (Upload x).
Proof. intros (G & F & U & M). split_and!; [done| |done]. intros i n [= <- <-]. by split_and!. Qed.
Lemma Moving_capture w x summary : Moving (up_operation_id x) (up_input_name x) w -> fits_in w (Capture x summary).
Proof. intros (G & F & U & M). split_and!; [done| |done]. intros i n [= <- <-]. by split_and!. Qed.
Ltac branch H := match goal with |- ends _ (if ?b then _ else _) _ _ => destruct b eqn:H end.
Lemma ends_admit w workspace pod x : Good w -> ends w (admit_input workspace pod x) (fun _ => Good) Good.
Proof.
  intros G. assert (Rs : forall r, ends w (respond r) (fun _ => Good) Good) by (intros; apply ends_stable; auto using stable_Good with quiet).
  unfold admit_input. branch B0; [apply Rs|]. apply (ends_bind _ _ _ (fun y w' => y = w /\ w' = w)); [by apply ends_get|]. intros ? ? [-> ->].
  destruct (operations w !! _) as [s|] eqn:O; [|apply Rs]. branch B1; [apply Rs|]. branch P; [apply Rs|].
  branch B2; [by apply ends_raise|]. branch B3; [apply Rs|].
  apply orb_false_iff in P as [P1%negb_false_iff P2%negb_false_iff%bool_decide_eq_true].
  assert (U : uploading s (up_input_name x)) by (left; split; [|done]; unfold state_of; by destruct (op_state (operation s))).
  eapply ends_bind; [eapply ends_weaken; [apply quietly_prepare_input|intros ? ? X; exact X|intros w' X; by eapply Good_extends]|]. intros ? w1 (X & U0 & U1).
  assert (M : Moving (up_operation_id x) (up_input_name x) w1).
  { split_and!; [by eapply Good_extends| |done|exists s; by rewrite (ext_operations _ _ X)]. intros t. rewrite (ext_tasks _ _ X). intros Ht E.
    destruct G as [_ Me]. destruct (mem_upload _ _ Me t _ _ Ht E). congruence. }
  eapply ends_bind; [apply ends_moving; [|exact M]|].
  { apply quietly_bind; [apply quietly_call|]. intros _. apply quietly_bind; auto with quiet. }
  intros ? w2 M2. eapply (ends_bind _ _ _ (fun _ => Good)); [apply ends_add_task; [apply M2|by apply Moving_upload]|]. intros ? w3 G3. by apply ends_ret.
Qed.
Lemma quietly_materialize x difference : quietly (materialize_input x difference).
Proof.
  unfold materialize_input. do 4 (apply quietly_bind; [apply quietly_call|]; intros _). apply quietly_bind; [apply quietly_syscall, extends_set_input|]. intros _.
  apply quietly_bind; [apply quietly_attempt, quietly_call|]. intros r. apply quietly_ret.
Qed.
Lemma ends_received w x copied difference : Moving (up_operation_id x) (up_input_name x) w -> ends w (receive_input x copied difference) (fun _ => Good) Good.
Proof.
  intros M. unfold HostopService.receive_input. eapply ends_bind; [apply ends_moving; [|exact M]; apply quietly_bind; intros; apply quietly_call|]. intros ? w1 M1.
  destruct (negb _).
  - eapply ends_bind; [by apply ends_moving; auto with quiet|]. intros r w2 M2. eapply (ends_bind _ _ _ (fun _ => Good)); [by apply ends_discard; apply M2|].
    intros ? w3 G3. by apply ends_ret.
  - eapply (ends_bind _ _ _ (fun _ => Moving (up_operation_id x) (up_input_name x))).
    { eapply ends_weaken; [apply ends_stable; [apply stable_Moving|apply quietly_attempt, quietly_materialize|exact M1]|done|by intros ? [? _]]. }
    intros [e|summary] w2 M2.
    + eapply (ends_bind _ _ _ (fun _ w' => Good w' /\ free w' (up_operation_id x) (up_input_name x))).
      * apply ends_or_discard. eapply ends_stably; [apply stable_Moving|auto with quiet|exact M2|apply Moving_free|]. intros r w3 M3.
        assert (Tk : forall w', Good w' /\ tasks w' = tasks w3 -> Good w' /\ free w' (up_operation_id x) (up_input_name x)).
        { intros w' [G T]. split; [done|]. intros t. rewrite T. apply M3. }
        eapply ends_bind; [eapply ends_weaken; [apply ends_fail; [apply M3|]|intros ? ? Y; exact (Tk _ Y)|exact Tk]|intros ? w4 Y; by apply ends_ret].
        intros t s Ht Et O T. destruct M3 as (G3 & _ & _ & s' & O' & U). rewrite O in O'. injection O' as <-. destruct U as [[P _]|U]; [|congruence].
        destruct G3 as [_ Me]. destruct (mem_busy _ _ Me t _ Ht Et) as (s'' & O'' & F & _). rewrite O in O''. injection O'' as <-. by rewrite P in F.
      * intros r w3 [G3 F3]. eapply (ends_bind _ _ _ (fun _ => Good)); [by apply ends_discard|]. intros ? w4 G4. by apply ends_ret.
    + eapply (ends_bind _ _ _ (fun _ => Good)); [apply ends_add_task; [apply M2|by apply Moving_capture]|]. intros ? w3 G3. by apply ends_ret.
Qed.
Lemma pin_first_blank x summary l xs : pin_first root x summary l = Some xs -> map blank xs = map blank l.
Proof.
  revert xs. induction l as [|y l IH]; intros xs; cbn [pin_first]; [done|]. case_bool_decide.
  - intros [= <-]. done.
  - destruct (pin_first root x summary l) as [ys|]; [|done]. cbn. intros [= <-]. cbn. by rewrite (IH ys).
Qed.
Lemma captured_plan x xs s : map blank xs = map blank (op_inputs (operation s)) -> plan_of (captured x xs s) = plan_of s.
Proof.
  intros E. destruct s as [o e t p]. unfold plan_of. change (op_inputs (operation (captured x xs {| operation := o; environment := e; timeout_seconds := t; pending_inputs := p |}))) with xs.
  rewrite E. by destruct o.
Qed.
Lemma captured_state x xs s : state_of (captured x xs s) = if bool_decide (pending_inputs s ∖ {[up_input_name x]} = ∅) then AwaitingApproval false else state_of s.
Proof. by destruct s as [[]]. Qed.
Lemma captured_pending x xs s : pending_inputs (captured x xs s) = pending_inputs s ∖ {[up_input_name x]}.
Proof. by destruct s as [[]]. Qed.
Lemma ends_captured w x xs s : Moving (up_operation_id x) (up_input_name x) w -> operations w !! up_operation_id x = Some s -> state_of s = Preparing ->
  map blank xs = map blank (op_inputs (operation s)) ->
  ends w (update_operation (captured x xs s)) (fun _ => Good) (fun w' => Good w' /\ free w' (up_operation_id x) (up_input_name x)).
Proof.
  intros (G & F & U & _) O P E. pose proof (Good_id w _ s G O) as Ei. pose proof (captured_plan x xs s E) as Pl.
  eapply ends_weaken; [apply (ends_change w s); [done| |]|by intros ? ? [? _]|].
  - constructor; [by rewrite Ei|done|by rewrite P|by rewrite P].
  - pose proof (plan_id _ _ Pl) as Iu. split; rewrite Iu, Ei.
    + intros t Ht Et. destruct G as [_ M]. destruct (mem_busy _ _ M t _ Ht Et) as (s' & O' & Fs & _). rewrite O in O'. injection O' as <-. by rewrite P in Fs.
    + intros t n Ht Et. destruct (uploading_state w t _ n s G Ht Et O) as [[_ Hn]|T]; [|by rewrite P in T]. left.
      assert (N : n <> up_input_name x) by (intros ->; by apply (F t)). rewrite captured_state, captured_pending. case_bool_decide; [set_solver|]. split; [done|set_solver].
  - intros w' (G' & T & _). split; [done|]. intros t. rewrite T. apply F.
Qed.
Lemma ends_capture w x summary : Moving (up_operation_id x) (up_input_name x) w -> ends w (capture_input x summary) (fun _ => Good) Good.
Proof.
  intros M. unfold HostopService.capture_input.
  apply (ends_bind _ _ _ (fun r w' => match r with Some _ => Moving (up_operation_id x) (up_input_name x) w' | None => Good w' end)).
  - apply ends_or_discard. apply (ends_bind _ _ _ (fun s w' => w' = w /\ operations w !! up_operation_id x = Some s)); [apply ends_require; [done|by apply Moving_free]|].
    intros s ? [-> O]. branch P.
    + eapply ends_stably; [apply stable_Moving|auto with quiet|exact M|apply Moving_free|]. intros r w1 M1. by apply ends_ret.
    + apply orb_false_iff in P as [P _]. apply negb_false_iff in P.
      eapply (ends_bind _ _ _ (fun xs w' => w' = w /\ pin_first root x summary (op_inputs (operation s)) = Some xs)); [apply ends_outcome; [by intros xs ?%ok_or_Ok|by apply Moving_free]|].
      intros xs ? [-> E]. eapply ends_bind; [apply ends_captured; [done|done|unfold state_of; by destruct (op_state (operation s))|by eapply pin_first_blank]|].
      intros ? w1 G1. by apply ends_ret.
  - intros [r|] w1 X.
    + eapply (ends_bind _ _ _ (fun _ => Good)); [by apply ends_discard; apply X|]. intros ? w2 G2. by apply ends_ret.
    + apply ends_stable; [exact stable_Good| |done]. apply quietly_bind; [auto with quiet|]. intros. apply quietly_bind; auto with quiet.
Qed.

(** *** A restart *)
Lemma loads_recorded l w : (forall e, e ∈ l -> dirs w !! e.1 = Some e.2) -> ends w (load l) (fun ss w' => w' = w /\ forall s, s ∈ ss -> exists i, recorded w i = Some s) (fun w' => w' = w).
Proof.
  induction l as [|[i d] l IH]; intros H; cbn [load]; [apply ends_ret; split; [done|]; intros s Hs; by apply not_elem_of_nil in Hs|].
  unfold call. eapply (ends_bind _ _ _ (fun _ w' => w' = w)); [by apply ends_syscall|]. intros _ ? ->.
  eapply (ends_bind _ _ _ (fun _ w' => w' = w)); [eapply (ends_attempt _ _ _ _ (fun w' => w' = w)); [by apply ends_syscall|done|done]|]. intros r ? ->.
  assert (IH' := IH (fun e He => H e (list_elem_of_further _ _ _ He))). destruct r as [|[]]; [done|]. destruct (record d) as [e|] eqn:R; [|done].
  eapply (ends_bind _ _ _ (fun s w' => w' = w /\ recorded w i = Some s)).
  - unfold read_json, call. eapply (ends_bind _ _ _ (fun _ w' => w' = w)); [by apply ends_syscall|]. intros _ ? ->. destruct e as [content size|]; [|by apply ends_raise].
    destruct (_ <? _); [by apply ends_raise|]. eapply (ends_bind _ _ _ (fun _ w' => w' = w)); [by apply ends_syscall|]. intros _ ? ->.
    apply ends_outcome; [|done]. intros s ->%ok_or_Ok. split; [done|]. unfold recorded. pose proof (H (i, d) (list_elem_of_here _ _)) as E. cbn in E. rewrite E. cbn. by rewrite R.
  - intros s ? [-> Rs]. eapply ends_bind; [exact IH'|]. intros ss ? [-> Hss]. apply ends_ret. split; [done|].
    intros s' [->|Hs]%elem_of_cons; [by exists i|by apply Hss].
Qed.
(** What a restart has read and what it has yet to settle. *)
Definition Restored (w : World) (known : gmap bytes StoredOperation) : Prop := forall i s, known !! i = Some s -> recorded w i = Some s.
Lemma ends_interrupt w s : Disk σ old w -> recorded w (id_of s) = Some s -> is_active (state_of s) = true ->
  ends w (interrupt encoded_len audit_json audit_of s) (fun s' w' => Disk σ old w' /\ id_of s' = id_of s /\ recorded w' (id_of s) = Some s' /\ forall j, j <> id_of s -> recorded w' j = recorded w j) (Disk σ old).
Proof.
  intros D R Ac. unfold interrupt. eapply (ends_bind _ _ _ (fun x w' => x = w /\ w' = w)); [by apply ends_get|]. intros ? ? [-> ->].
  set (u := with_state _ s). assert (Iu : id_of u = id_of s) by apply id_with_state.
  assert (Du : is_Some (dirs w !! id_of u) -> Disk σ old (filed u w)).
  { intros K. destruct (disk_planned _ _ _ D _ _ R) as [_ P]. apply Disk_filed; [done|done|eapply planned_plan; [|exact P]; symmetry; apply plan_with_state| |].
    - rewrite Iu. destruct (σ !! id_of s) as [x|] eqn:X; [|done]. destruct (disk_settled _ _ _ D _ _ X) as [Rx T]. rewrite R in Rx. injection Rx as <-. by destruct (state_of s).
    - intros p _ _. split; [by unfold u; rewrite state_with_state|]. exists s. rewrite Iu. split; [done|]. symmetry. apply plan_with_state. }
  eapply (ends_bind _ _ _ (fun _ w' => w' = filed u w /\ is_Some (dirs w !! id_of u))).
  { eapply ends_weaken; [apply ends_write_record|by intros|]. intros w' [->|[-> K]]; [done|by apply Du]. }
  intros ? ? [-> K]. eapply ends_quiet; [auto with quiet|intros w' X; eapply Disk_extends; [exact X|by apply Du]|]. intros ? w' X. apply ends_ret.
  split_and!; [eapply Disk_extends; [exact X|by apply Du]|done|..].
  - by rewrite (ext_recorded _ _ X), filed_recorded, Iu, decide_True by done.
  - intros j N. by rewrite (ext_recorded _ _ X), filed_recorded, Iu, decide_False by done.
Qed.
Lemma ends_recover l : forall known w, Disk σ old w -> (forall s, s ∈ l -> is_Some (known !! id_of s) \/ recorded w (id_of s) = Some s) -> Restored w known ->
  ends w (recover encoded_len audit_json audit_of l known) (fun known' w' => Disk σ old w' /\ Restored w' known') (Disk σ old).
Proof.
  induction l as [|s l IH]; intros known w D Hl K; cbn [recover]; [by apply ends_ret|]. change (op_id (operation s)) with (id_of s). destruct (bool_decide_reflect (is_Some (known !! id_of s))) as [B|B]; [by apply ends_raise|].
  assert (R : recorded w (id_of s) = Some s) by (destruct (Hl s (list_elem_of_here _ _)); [done|done]).
  eapply (ends_bind _ _ _ (fun s' w' => Disk σ old w' /\ recorded w' (id_of s) = Some s' /\ forall j, j <> id_of s -> recorded w' j = recorded w j)).
  { destruct (is_active _) eqn:Ac; [|by apply ends_ret]. eapply ends_weaken; [by apply ends_interrupt|by intros ? ? (? & ? & ? & ?)|done]. }
  intros s' w1 (D1 & R1 & N1). apply IH; [done|..].
  - intros x Hx. destruct (decide (id_of x = id_of s)) as [E|N]; [left; rewrite E, lookup_insert_eq; by eexists|]. rewrite lookup_insert_ne by done.
    destruct (Hl x (list_elem_of_further _ _ _ Hx)); [by left|right]. by rewrite N1.
  - intros j x [[<- <-]|[N Hj]]%lookup_insert_Some; [done|]. rewrite N1 by done. by apply K.
Qed.
Lemma ends_restart w git : Disk σ old w -> ends w (open encoded_len audit_json audit_of root git) (fun _ => Good) (Disk σ old).
Proof.
  intros D. assert (SD : stable (Disk σ old)) by (intros x y; apply Disk_extends). unfold open, call. destruct (_ || _); [by apply ends_raise|].
  eapply ends_stably; [exact SD| |exact D|done|].
  { unfold ensure_private_directory, call. apply quietly_bind; [apply quietly_call|]. intros _. apply quietly_bind; [apply quietly_get|]. intros x.
    apply quietly_bind; [destruct (root_directory x) as [[]|]; [apply quietly_ret|apply quietly_raise|apply quietly_syscall; intros; by apply extends_field]|]. intros. apply quietly_call. }
  intros ? w1 D1. eapply ends_stably; [exact SD|apply quietly_call|exact D1|done|]. intros ? w2 D2.
  eapply (ends_bind _ _ _ (fun x w' => x = w2 /\ w' = w2)); [by apply ends_get|]. intros ? ? [-> ->].
  eapply ends_bind; [eapply ends_weaken; [apply loads_recorded|intros ? ? X; exact X|by intros ? ->]|].
  { intros [i d] Hd. by apply elem_of_map_to_list in Hd. }
  intros ss ? [-> Hss]. eapply ends_bind; [apply ends_recover; [exact D2| |]|].
  - intros s Hs. right. destruct (Hss s Hs) as [i R]. by destruct (disk_planned _ _ _ D2 i s R) as [-> _].
  - intros i s Hi. by rewrite lookup_empty in Hi.
  - intros known w3 [D3 K]. apply ends_put. split; [by destruct D3|]. constructor; cbn; try done.
    + intros i s Hi. pose proof (K i s Hi) as R. split; [apply (disk_planned _ _ _ D3 i s R)|by exists s].
    + intros p s Hp Hs. destruct (disk_launched _ _ _ D3 p Hp) as (_ & s' & R & F & _). rewrite (K _ _ Hs) in R. by injection R as <-.
    + intros i Hi. by apply not_elem_of_nil in Hi.
    + intros i st k m Hi. by apply not_elem_of_nil in Hi.
    + constructor.
    + intros t i Ht. by apply not_elem_of_nil in Ht.
    + constructor.
    + intros t i n Ht. by apply not_elem_of_nil in Ht.
    + intros i s s' Hi Hs. destruct (disk_settled _ _ _ D3 i s Hi) as [R _]. rewrite (K _ _ Hs) in R. by injection R as <-.
Qed.

(** ** Histories *)
Inductive called : act unit -> Prop :=
| called_request executable var_os q actor snapshot :
    (forall c, snapshot = Ok c -> served c) -> called (do _ <- request executable var_os q actor snapshot; ret tt)
| called_resolve i d actor : called (resolve i d actor)
| called_cancel i actor : called (cancel i actor)
| called_admit workspace pod x : called (do _ <- admit_input workspace pod x; ret tt).
(** How a task goes on. *)
Inductive turn : Task -> act unit -> Prop :=
| turn_announce i a : turn (Announce i a) (announce i a)
| turn_launch i var_os pid : turn (Launch i) (or_give_up i (start_operation var_os i pid))
| turn_output i c f source data : (forall bs, data = Some bs -> 0 < len bs <= OUTPUT_CHUNK_BYTES) -> turn (Supervise i c f) (or_give_up i (read_process_output i c f source data))
| turn_end i c f e : turn (Supervise i c f) (or_give_up i (end_process i f e))
| turn_finish i st k m : turn (Finish i st k m) (or_give_up i (finish_operation i st k m))
| turn_give_up i m : turn (GiveUp i m) (fail_operation i m)
| turn_upload x copied difference : turn (Upload x) (do _ <- receive_input x copied difference; ret tt)
| turn_capture x summary : turn (Capture x summary) (do _ <- capture_input x summary; ret tt).
(** The daemon is up, unless it stopped; it comes up when [open] succeeds. *)
Definition went (r : outcome HostOperationServiceError unit * Machine World) : bool * World :=
  (match r.1 with Panic _ => false | _ => true end, disk r.2).
Definition opened (r : outcome HostOperationServiceError unit * Machine World) : bool * World := (is_ok r.1, disk r.2).
Inductive step : bool * World -> bool * World -> Prop :=
| step_open w git evs : step (false, w) (opened (open encoded_len audit_json audit_of root git {| disk := w; events := evs |}))
| step_call w m evs : called m -> step (true, w) (went (m {| disk := w; events := evs |}))
| step_task w l1 t l2 m evs : tasks w = l1 ++ t :: l2 -> turn t m -> step (true, w) (went (m {| disk := w <| tasks := l1 ++ l2 |>; events := evs |}))
| step_crash w : step (true, w) (false, w)
| step_time b w t : step (b, w) (b, w <| now := t |>).
Definition Inv (c : bool * World) : Prop := if c.1 then Good c.2 else Disk σ old c.2.
Lemma ends_unit {A} w (m : act A) : ends w m (fun _ => Good) Good -> ends w (do _ <- m; ret tt) (fun _ => Good) Good.
Proof. intros H. eapply ends_bind; [exact H|]. intros a w' G. by apply ends_ret. Qed.
Lemma ends_called w m : called m -> Good w -> ends w m (fun _ => Good) Good.
Proof.
  intros [] G; [by apply ends_unit, ends_request|by apply ends_resolve|by apply ends_cancel|by apply ends_unit, ends_admit].
Qed.
Lemma ends_turn w l1 t l2 m : Good w -> tasks w = l1 ++ t :: l2 -> turn t m -> ends (w <| tasks := l1 ++ l2 |>) m (fun _ => Good) Good.
Proof.
  intros G E T. destruct (Good_take w l1 t l2 G E) as (G' & S & X). assert (Ht : t ∈ tasks w) by (rewrite E; set_solver). destruct G as [_ M].
  assert (Rd : forall i, supervised t = Some i -> Ready i (w <| tasks := l1 ++ l2 |>)).
  { intros i Ei. split_and!; [done|exact (S i Ei)|]. destruct (mem_busy _ _ M t i Ht Ei) as (s & O & F & _). exists s. split; [done|by rewrite F]. }
  assert (Ac : forall i, supervised t = Some i -> after_start t = true -> Active i (w <| tasks := l1 ++ l2 |>)).
  { intros i Ei A. split_and!; [done|exact (S i Ei)|]. destruct (mem_busy _ _ M t i Ht Ei) as (s & O & F & R). exists s. split; [done|by apply R]. }
  assert (Mo : forall i n, transferred t = Some (i, n) -> Moving i n (w <| tasks := l1 ++ l2 |>)).
  { intros i n Ei. destruct (mem_upload _ _ M t i n Ht Ei) as (U & s & O & Us). split_and!; [done|exact (X i n Ei)|done|by exists s]. }
  destruct T.
  - by apply ends_announce.
  - destruct (mem_launch _ _ M i Ht) as [N A]. apply ends_or_give_up, ends_start. split_and!; [by apply Rd|done|done].
  - apply ends_or_give_up, ends_read. by apply Ac.
  - apply ends_or_give_up, ends_end. by apply Ac.
  - apply ends_or_give_up, ends_finish; [by apply Ac|by eapply (mem_finish _ _ M)].
  - apply ends_give_up; [done|exact (S i eq_refl)].
  - apply ends_unit, ends_received. by apply Mo.
  - apply ends_unit, ends_capture. by apply Mo.
Qed.
Lemma ends_run {A} w (m : act A) Q R evs : ends w m Q R ->
  match (m {| disk := w; events := evs |}).1 with Ok a => Q a (disk (m {| disk := w; events := evs |}).2) | _ => R (disk (m {| disk := w; events := evs |}).2) end.
Proof.
  intros H. destruct (H {| disk := w; events := evs |}) as [_ X]; [by apply Forall_forall|done|]. by destruct ((m _).1).
Qed.
Lemma Inv_went w m evs : ends w m (fun _ => Good) Good -> Inv (went (m {| disk := w; events := evs |})).
Proof.
  intros H. apply (ends_run _ _ _ _ evs) in H. unfold went, Inv. destruct ((m _).1); cbn; [done|done|apply H].
Qed.
Lemma host_step_keeps c c' : step c c' -> Inv c -> Inv c'.
Proof.
  intros [w git evs|w m evs C|w l1 t l2 m evs E T|w|b w t] I.
  - pose proof (ends_run _ _ _ _ evs (ends_restart w git I)) as H. unfold opened, Inv. by destruct ((open _ _ _ _ _ _).1).
  - apply Inv_went. by apply ends_called.
  - apply Inv_went. by eapply ends_turn.
  - apply I.
  - destruct b; [eapply (Good_extends w)|eapply (Disk_extends w)]; try exact I; by apply extends_field.
Qed.
Lemma steps_Inv c c' : rtc step c c' -> Inv c -> Inv c'.
Proof. induction 1; eauto using host_step_keeps. Qed.
End service.

(** ** What histories show *)
Definition first_world : World :=
  {| root_directory := None; dirs := ∅; operations := ∅; running := ∅; generation := 1; tasks := []; spawned := []; now := 0; generated := 0 |}.

Section histories.
Context (encoded_len : StoredOperation -> Z) (audit_json : HostOperationAuditEntry -> bytes) (audit_of : bytes -> option HostOperationAuditEntry)
        (output_json : HostOperationOutputChunk -> bytes) (output_of : bytes -> option HostOperationOutputChunk) (regex : bytes -> option (bytes -> bool))
        (root : bytes) (generate : nat -> bytes) (served : ConfigSnapshot -> Prop).
Notation step := (step encoded_len audit_json audit_of output_json output_of regex root generate served).
Notation Inv := (Inv audit_json regex root served).
Lemma first_Inv : Inv ∅ [] (false, first_world).
Proof.
  constructor; [|by intros p Hp%not_elem_of_nil|constructor|intros i s Hi; by rewrite lookup_empty in Hi|by intros p Hp%not_elem_of_nil].
  intros i s. unfold recorded. cbn. by rewrite lookup_empty.
Qed.
(** C15: In any history of requests, decisions, uploads, failures, crashes and restarts,
    every process that was started has an approval with its actor in the audit of its
    operation, whose record is not waiting for a decision any more, is what a served
    configuration planned for its request, and has the program, arguments, directory and
    environment of the process; no operation is started twice. *)
Theorem host_commands_approved c : rtc step (false, first_world) c ->
  NoDup (p_id <$> spawned c.2) /\ forall p, p ∈ spawned c.2 -> approved audit_json c.2 (p_id p)
    /\ exists s, recorded c.2 (p_id p) = Some s /\ is_fresh (state_of s) = false /\ planned regex root served s /\ launched_as p s.
Proof.
  intros R. pose proof (steps_Inv _ _ _ _ _ _ _ _ _ _ _ _ _ R first_Inv) as I.
  assert (D : Disk audit_json regex root served ∅ [] c.2) by (destruct c as [[] w]; [apply I|exact I]).
  split; [apply D|]. intros p Hp. destruct (disk_launched _ _ _ _ _ _ _ D p Hp) as (A & s & Rs & F & L). split; [done|]. exists s.
  split_and!; [done|done|apply (disk_planned _ _ _ _ _ _ _ D _ _ Rs)|done].
Qed.
(** C16: An operation that the service shows as rejected, canceled, failed, interrupted or
    succeeded stays so on disk, and in memory while it is known, whatever happens, across
    failures, crashes and restarts, and no process is started for it. *)
Theorem settled_operations_permanent w i s c : rtc step (false, first_world) (true, w) -> operations w !! i = Some s -> is_terminal (state_of s) = true ->
  rtc step (true, w) c ->
  recorded c.2 i = Some s /\ (forall s', c.1 = true -> operations c.2 !! i = Some s' -> s' = s) /\ (forall p, p ∈ spawned c.2 -> p_id p = i -> p ∈ spawned w).
Proof.
  intros R O T R'. pose proof (steps_Inv _ _ _ _ _ _ _ _ _ _ _ _ _ R first_Inv) as [D M]. destruct (mem_known _ _ _ M i s O) as (_ & s0 & Rs & _ & _ & E). rewrite (E T) in Rs.
  assert (I : Inv {[i := s]} (spawned w) (true, w)).
  { split; [destruct D as [A B C F G]|destruct M as [A B C F G H J K L]]; constructor; try done.
    - intros j x [<- <-]%lookup_singleton_Some. by split.
    - intros j x x' [<- <-]%lookup_singleton_Some. cbn. rewrite O. by intros [= <-]. }
  pose proof (steps_Inv _ _ _ _ _ _ _ _ _ _ _ _ _ R' I) as I'. assert (L : {[i := s]} !! i = Some s) by apply lookup_singleton_eq.
  assert (D' : Disk audit_json regex root served {[i := s]} (spawned w) c.2) by (destruct c as [[] w']; [apply I'|exact I']).
  split_and!; [apply (disk_settled _ _ _ _ _ _ _ D' _ _ L)| |].
  - intros s' E' O'. destruct c as [b w']. cbn in E'. subst b. destruct I' as [_ M']. by eapply (mem_settled _ _ _ M').
  - intros p Hp <-. apply (disk_old _ _ _ _ _ _ _ D' p Hp). by eexists.
Qed.
End histories.

(** ** Streams

    What a subscriber of an audit or of output receives while the log stays as it is. *)
Section streams.
Context {A : Type} (seq : A -> Z).
Fixpoint received (n : nat) (log : list A) (s : StreamSubscription) : list (StreamUpdate A) :=
  match n with
  | O => []
  | S n' => match stream_recv seq log s with (Some u, s') => u :: received n' log s' | (None, _) => [] end
  end.
Definition due (a : Z) (ok : A -> bool) (e : A) : bool := (a <? seq e) && ok e.
Lemma due_next a ok log e l : StronglySorted (fun x y => seq x < seq y) log -> List.filter (due a ok) log = e :: l ->
  List.find (due a ok) log = Some e /\ List.filter (due (seq e) ok) log = l.
Proof.
  induction 1 as [|x log S IH F]; [done|]. cbn. rewrite List.Forall_forall in F. destruct (due a ok x) eqn:D.
  - intros [= <- <-]. split; [done|]. unfold due at 1. rewrite Z.ltb_irrefl. cbn. apply filter_ext_in. intros y Hy. specialize (F y Hy).
    apply andb_true_iff in D as [D _]. apply Z.ltb_lt in D. unfold due. by rewrite !(proj2 (Z.ltb_lt _ _)) by lia.
  - intros E. destruct (IH E) as [IH1 IH2]. split; [done|]. assert (He : In e log) by (apply (filter_In (due a ok)); rewrite E; by left).
    specialize (F e He). unfold due at 1. by rewrite (proj2 (Z.ltb_ge _ _)) by lia.
Qed.
Lemma due_none a ok log : List.filter (due a ok) log = [] -> List.find (due a ok) log = None.
Proof. induction log as [|x log IH]; cbn; [done|]. by destruct (due a ok x). Qed.
(** One phase of a stream: the entries that are due, in order. *)
Lemma received_due log n a b c (l : list A) : StronglySorted (fun x y => seq x < seq y) log ->
  List.filter (due a (fun e => c || (seq e <=? b))) log = l -> exists a',
  received (length l + n) log {| after_sequence := a; replay_boundary := b; caught_up := c |}
  = map Event_ l ++ received n log {| after_sequence := a'; replay_boundary := b; caught_up := c |}
  /\ List.filter (due a' (fun e => c || (seq e <=? b))) log = []
  /\ (l = [] /\ a' = a \/ exists e, last l = Some e /\ a' = seq e).
Proof.
  intros S. revert a. induction l as [|e l IH]; intros a E; [exists a; split_and!; [done|done|by left]|].
  destruct (due_next _ _ _ _ _ S E) as [F N]. destruct (IH _ N) as (a' & R & Z_ & X). exists a'. split_and!; [|done|].
  - cbn [length Nat.add received]. unfold stream_recv. cbn [after_sequence replay_boundary caught_up].
    change (fun e0 : A => (a <? seq e0) && (c || (seq e0 <=? b))) with (due a (fun e => c || (seq e <=? b))). rewrite F. cbn [map app]. by rewrite R.
  - right. destruct X as [[-> ->]|(x & L & ->)]; [by exists e|]. exists x. split; [|done]. by destruct l.
Qed.
Lemma filter_due_ext a ok ok' l : (forall e, In e l -> ok e = ok' e) -> List.filter (due a ok) l = List.filter (due a ok') l.
Proof. intros H. apply filter_ext_in. intros e He. unfold due. by rewrite H. Qed.
Lemma sorted_app_lt l l' : StronglySorted (fun x y => seq x < seq y) (l ++ l') -> forall x y, In x l -> In y l' -> seq x < seq y.
Proof.
  induction l as [|z l IH]; intros S x y Hx Hy; [done|]. apply StronglySorted_inv in S as [S F]. rewrite List.Forall_forall in F.
  destruct Hx as [->|Hx]; [apply F, in_or_app; by right|by apply IH].
Qed.
Lemma last_sorted l e : StronglySorted (fun x y => seq x < seq y) l -> last l = Some e -> forall x, In x l -> seq x <= seq e.
Proof.
  induction l as [|z l IH]; intros S L x Hx; [done|]. apply StronglySorted_inv in S as [S F]. rewrite List.Forall_forall in F.
  destruct l as [|y l]; [injection L as <-; destruct Hx as [->|[]]; lia|]. destruct Hx as [->|Hx]; [|by apply IH].
  assert (He : In e (y :: l)) by (apply list_elem_of_In; by apply last_Some_elem_of). specialize (F e He). lia.
Qed.
(** A subscription that was opened when the log was [old] receives its entries after the
    given sequence in order, then the boundary, then what was added. *)
Lemma stream_exact old new after : StronglySorted (fun x y => seq x < seq y) (old ++ new) -> (forall e, In e (old ++ new) -> 0 < seq e) ->
  let a := match after with Some x => x | None => 0 end in
  let later l := List.filter (due a (fun _ => true)) l in
  received (length (later old) + S (length (later new) + 1)) (old ++ new) (subscribe_stream seq old after)
  = map Event_ (later old) ++ [CaughtUp (match last old with Some e => seq e | None => 0 end)] ++ map Event_ (later new).
Proof.
  intros S P a later. unfold subscribe_stream. fold a. set (b := match last old with Some e => seq e | None => 0 end).
  assert (Ob : forall e, In e old -> (seq e <=? b) = true).
  { intros e He. apply Z.leb_le. subst b. destruct (last old) as [x|] eqn:L; [|apply last_None in L; by subst old].
    eapply last_sorted; [|exact L|exact He]. clear - S. induction old as [|z l IH]; [constructor|]. apply StronglySorted_inv in S as [S F]. constructor; [by apply IH|].
    rewrite List.Forall_forall in *. intros y Hy. apply F, in_or_app. by left. }
  assert (Nb : forall e, In e new -> (seq e <=? b) = false).
  { intros e He. apply Z.leb_gt. subst b. destruct (last old) as [x|] eqn:L; [|apply P, in_or_app; by right].
    eapply sorted_app_lt; [exact S| |exact He]. apply list_elem_of_In. by apply last_Some_elem_of. }
  assert (F1 : List.filter (due a (fun e => false || (seq e <=? b))) (old ++ new) = later old).
  { rewrite List.filter_app, (filter_due_ext a _ (fun _ => true) old) by (intros; by apply Ob). rewrite (filter_due_ext a _ (fun _ => false) new) by (intros; by apply Nb).
    assert (N : List.filter (due a (fun _ : A => false)) new = []) by (clear; induction new as [|x l IH]; cbn; [done|]; unfold due at 1; by rewrite andb_false_r).
    by rewrite N, app_nil_r. }
  destruct (received_due _ (Datatypes.S (length (later new) + 1)) _ _ _ _ S F1) as (a' & -> & N1 & X). f_equal.
  cbn [received]. unfold stream_recv at 1. cbn [after_sequence replay_boundary caught_up].
  change (fun e => (a' <? seq e) && (false || (seq e <=? b))) with (due a' (fun e => false || (seq e <=? b))). rewrite (due_none _ _ _ N1). cbn [app]. f_equal.
  assert (F2 : List.filter (due a' (fun e => true || (seq e <=? b))) (old ++ new) = later new).
  { rewrite List.filter_app. assert (N2 : List.filter (due a' (fun e => true || (seq e <=? b))) old = []).
    { rewrite List.filter_app, (filter_due_ext a' _ (fun _ => true) old) in N1 by (intros; by apply Ob). destruct (app_eq_nil _ _ N1) as [N2 _]. exact N2. }
    rewrite N2. cbn [app]. destruct X as [[_ ->]|(x & L & ->)]; [done|]. apply filter_ext_in. intros e He.
    assert (Hx : In x (later old)) by (apply list_elem_of_In; by apply last_Some_elem_of). apply filter_In in Hx as [Hx Dx].
    apply andb_true_iff in Dx as [Dx _]. apply Z.ltb_lt in Dx. pose proof (sorted_app_lt _ _ S _ _ Hx He). unfold due. by rewrite !(proj2 (Z.ltb_lt _ _)) by lia. }
  destruct (received_due _ 1 _ _ true _ S F2) as (a'' & -> & N2 & _).
  cbn [received]. unfold stream_recv. cbn [after_sequence replay_boundary caught_up].
  change (fun e => (a'' <? seq e) && (true || (seq e <=? b))) with (due a'' (fun e => true || (seq e <=? b))). rewrite (due_none _ _ _ N2). by rewrite !app_nil_r.
Qed.
End streams.

(** ** The list of operations *)
Definition looked (w : World) (s : HostOperationSubscription) : HostOperationSubscription :=
  if s_current_pending s then s <| s_current_pending := false |> else s <| s_seen := generation w |>.
Lemma recv_turn list_json digest n w s : recv list_json digest (S n) w s =
  if negb (s_current_pending s) && (s_seen s =? generation w) then (Ok None, s)
  else match operation_revision list_json digest (host_operation_list s w) with
       | Ok revision => if bool_decide (s_cursor s = Some revision) then recv list_json digest n w (looked w s)
                        else (Ok (Some (revision, host_operation_list s w)), (looked w s) <| s_cursor := Some revision |>)
       | Err e => (Err e, looked w s)
       | Panic m => (Panic m, looked w s)
       end.
Proof. by destruct s as [ws pd cu seen []]. Qed.
Lemma looked_same w s : host_operation_list (looked w s) w = host_operation_list s w /\ s_cursor (looked w s) = s_cursor s /\ s_current_pending (looked w s) = false
  /\ (s_current_pending s = false -> s_seen (looked w s) = generation w).
Proof. by destruct s as [ws pd cu seen []]. Qed.
(** A call of [recv] looks at most twice before it waits, and receives the current list
    unless the subscriber has it. *)
Lemma operation_list_current list_json digest w s : let '(r, s') := recv list_json digest 3 w s in
  match r with
  | Ok None => s_current_pending s' = false /\ s_seen s' = generation w
  | Ok (Some (revision, value)) => value = host_operation_list s w /\ operation_revision list_json digest value = Ok revision
      /\ s_cursor s <> Some revision /\ s_cursor s' = Some revision
  | Err e => operation_revision list_json digest (host_operation_list s w) = Err e
  | Panic _ => False
  end.
Proof.
  assert (Np : forall v m, operation_revision list_json digest v <> Panic m) by (intros v m; unfold operation_revision; by destruct (list_json v)).
  destruct (looked_same w s) as (L1 & C1 & P1 & S1). destruct (looked_same w (looked w s)) as (L2 & C2 & P2 & S2). specialize (S2 P1).
  rewrite recv_turn. destruct (negb (s_current_pending s) && _) eqn:W; [apply andb_true_iff in W as [W1 W2]; split; [by apply negb_true_iff|lia]|].
  destruct (operation_revision _ _ (host_operation_list s w)) as [rev|e|m] eqn:R; [|done|by apply Np in R].
  case_bool_decide as C; [|by split_and!]. rewrite recv_turn, P1, L1, R, C1, C. cbn [negb andb]. destruct (Z.eqb_spec (s_seen (looked w s)) (generation w)); [done|].
  rewrite bool_decide_true by done. rewrite recv_turn, P2, S2, Z.eqb_refl. cbn. by rewrite P2, S2.
Qed.

(** ** A command that is requested, approved and run *)
Module Demo.
Import Sample.
Definition line : HostOperationAuditEntry := {| au_sequence := 1; au_timestamp := 0; au_kind := AuditRequested; au_message := []; au_actor := None |}.
Definition decode (l : bytes) : option HostOperationAuditEntry := if bool_decide (l = str "{}") then Some line else None.
Definition id : bytes := str "op".
Definition served (c : ConfigSnapshot) : Prop := c = config.
Notation step := (step (fun _ => 0) (fun _ => str "{}") decode (fun _ => str "{}") (fun _ => None) (fun _ => None) (str "/state") (fun _ => id) served).
Definition run (w : World) (m : act unit) : outcome HostOperationServiceError unit * Machine World := m {| disk := w; events := [] |}.
Definition no_env (_ : bytes) : option bytes := None.
Definition ask : act unit := do _ <- HostopService.request (fun _ => 0) (fun _ => None) (str "/state") (fun _ => id) Some no_env asked pod (Ok config); ret tt.
Definition tell : act unit := HostopService.announce (fun _ => str "{}") decode id pod.
Definition approve : act unit := HostopService.resolve (fun _ => 0) (fun _ => str "{}") decode id Approve (ClientActor (str "me")).
Definition launch : act unit := or_give_up id (HostopService.start_operation (fun _ => 0) (fun _ => str "{}") decode (fun _ => None) no_env id (Some 7)).
Definition exit : act unit := or_give_up id (end_process id false (Exited (Some 0) None)).
Definition settle (w : World) : act unit :=
  match tasks w with
  | [Finish i st k m] => or_give_up i (HostopService.finish_operation (fun _ => 0) (fun _ => str "{}") decode i st k m)
  | _ => ret tt
  end.
Definition no_tasks (w : World) : World := w <| tasks := [] |>.
Definition w1 : World := disk (run first_world (HostopService.open (fun _ => 0) (fun _ => str "{}") decode (str "/state") (str "/git"))).2.
Definition w2 : World := disk (run w1 ask).2.
Definition w3 : World := disk (run (no_tasks w2) tell).2.
Definition w4 : World := disk (run w3 approve).2.
Definition w5 : World := disk (run (no_tasks w4) launch).2.
Definition w6 : World := disk (run (no_tasks w5) exit).2.
Definition w7 : World := disk (run (no_tasks w6) (settle w6)).2.
Lemma went_up w m : is_ok (run w m).1 = true -> went (run w m) = (true, disk (run w m).2).
Proof. unfold went. by destruct ((run w m).1). Qed.
Lemma task_up w t m : tasks w = [t] -> turn (fun _ => 0) (fun _ => str "{}") decode (fun _ => str "{}") (fun _ => None) (str "/state") t m ->
  is_ok (run (no_tasks w) m).1 = true -> step (true, w) (true, disk (run (no_tasks w) m).2).
Proof. intros E T K. rewrite <- (went_up _ m K). apply (step_task _ _ _ _ _ _ _ _ _ _ [] t []); done. Qed.
Lemma call_up w m : called (fun _ => 0) (fun _ => str "{}") decode (fun _ => None) (str "/state") (fun _ => id) served m ->
  is_ok (run w m).1 = true -> step (true, w) (true, disk (run w m).2).
Proof. intros C K. rewrite <- (went_up _ m K). by apply step_call. Qed.
Lemma started : rtc step (false, first_world) (true, w5).
Proof.
  eapply rtc_l; [apply (step_open _ _ _ _ _ _ _ _ _ _ (str "/git") [])|]. change (opened _) with (true, w1).
  eapply rtc_l; [apply (call_up w1 ask); [by constructor; intros ? [= <-]|by vm_compute]|].
  eapply rtc_l; [apply (task_up w2 (Announce id pod) tell); [by vm_compute|constructor|by vm_compute]|].
  eapply rtc_l; [apply (call_up w3 approve); [constructor|by vm_compute]|].
  eapply rtc_once, (task_up w4 (Launch id) launch); [by vm_compute|constructor|by vm_compute].
Qed.
Lemma finished_ : rtc step (false, first_world) (true, w7).
Proof.
  etransitivity; [exact started|]. eapply rtc_l.
  - apply (task_up w5 (Supervise id {| sequence := 0; stdout_offset := 0; stderr_offset := 0 |} false) exit); [by vm_compute|constructor|by vm_compute].
  - eapply rtc_once, (task_up w6 (Finish id (Succeeded {| finished_at := 0; exit_code := Some 0; signal := None |}) AuditSucceeded (str "host process exited successfully")) (settle w6));
      [by vm_compute| |by vm_compute]. constructor.
Qed.
Lemma restarted : rtc step (true, w7) (opened (run w7 (HostopService.open (fun _ => 0) (fun _ => str "{}") decode (str "/state") (str "/git")))).
Proof. eapply rtc_l; [apply step_crash|]. apply rtc_once, step_open. Qed.
Lemma settled : exists s, operations w7 !! id = Some s /\ is_terminal (state_of s) = true.
Proof.
  assert (H : match operations w7 !! id with Some s => is_terminal (state_of s) | None => false end = true) by by vm_compute.
  destruct (operations w7 !! id) as [s|]; [by exists s|done].
Qed.
Definition process : Process :=
  {| p_id := id; p_program := str "/usr/bin/deploy"; p_arguments := [str "--to"; str "staging"]; p_environment := ∅; p_directory := str "/state/op/work" |}.
(** An approval whose audit cannot be appended leaves the operation approved, with
    nothing to start it. *)
Lemma approval_lost : let r := approve {| disk := w3; events := replicate 5 Runs ++ [Fails [] false] |} in
  is_ok r.1 = false /\ tasks (disk r.2) = [] /\ is_active <$> (state_of <$> operations (disk r.2) !! id) = Some true.
Proof. vm_compute. done. Qed.
(** A stop in the middle of an audit entry makes the next start fail, although no call
    of it does; the one after it succeeds. *)
Definition torn : World := disk (launch {| disk := no_tasks w4; events := replicate 9 Runs ++ [Stops [true]] |}).2.
Definition restart : act unit := HostopService.open (fun _ => 0) (fun _ => str "{}") decode (str "/state") (str "/git").
Lemma torn_audit_stops_restart : is_ok (run torn restart).1 = false /\ is_ok (run (disk (run torn restart).2) restart).1 = true.
Proof. vm_compute. done. Qed.
End Demo.
Import Demo.
Lemma host_commands_approved_witness : spawned w5 = [process] /\ exists s, recorded w5 Demo.id = Some s /\ launched_as process s.
Proof.
  assert (E : spawned w5 = [process]) by by vm_compute. split; [exact E|]. destruct (host_commands_approved _ _ _ _ _ _ _ _ _ _ started) as [_ H].
  destruct (H process) as (_ & s & R & _ & _ & L); [change (process ∈ spawned w5); rewrite E; by left|]. exists s. exact (conj R L).
Defined.
Lemma settled_operations_permanent_witness : exists s, operations w7 !! Demo.id = Some s /\ is_terminal (state_of s) = true
  /\ recorded (opened (run w7 (HostopService.open (fun _ => 0) (fun _ => str "{}") decode (str "/state") (str "/git")))).2 Demo.id = Some s.
Proof.
  destruct settled as (s & E & T). exists s. split; [exact E|]. split; [exact T|].
  destruct (settled_operations_permanent _ _ _ _ _ _ _ _ _ _ _ _ _ finished_ E T restarted) as [R _]. exact R.
Defined.
