(* ===== verification/AuthService.v ===== *)
(** * Browser authentication

    [tascarrel-hostd/src/services/auth]: pairing of browsers, their durable sessions, and
    grants for single HTTP routes.

    The state is the key file and the two tables on disk, and what is in memory: the key,
    pending pairing keys and route tickets, and connections.  An operation is one step up
    to an await between which others run; what remains is a task.  A system call or
    database call takes the next event of [Outage]; a call on the database is one
    transaction, done or not done.  The clock may move between steps in any direction.

    A time is a number of nanoseconds, stored as text that is read back exactly.  HMAC,
    base64, random bytes, generated identifiers, and the text of a time are parameters. *)

From S2P Require Import Prelude Lists Text Utf8 RepoStore Outage.

(** ** Configuration and errors *)
Definition AUTH_SECRET_BYTES : Z := 32.
Definition OPAQUE_TOKEN_BYTES : Z := 32.
Definition MAX_SESSION_LABEL_BYTES : Z := 80.
Definition NANOSECONDS : Z := 1000000000.
Definition i64_max : Z := 2 ^ 63 - 1.
Record AuthServiceConfig := {
  external_secret_file : bool; pairing_lifetime : Z; route_ticket_lifetime : Z; idle_session_lifetime : Z; absolute_session_lifetime : Z;
  session_touch_interval : Z; route_grant_lifetime : Z; max_pending_pairing_keys : nat; max_pending_route_tickets : nat
}.
Inductive AuthServiceError :=
| Unavailable | InvalidPairingKey | InvalidSession | InvalidRouteTicket | InvalidRouteGrant | InvalidRequest | Capacity.
Definition validate_config (c : AuthServiceConfig) : outcome AuthServiceError unit :=
  let lifetimes := [pairing_lifetime c; route_ticket_lifetime c; idle_session_lifetime c; absolute_session_lifetime c;
                    session_touch_interval c; route_grant_lifetime c] in
  if existsb (fun l => (l / NANOSECONDS =? 0) || (i64_max <? l / NANOSECONDS)) lifetimes
     || (idle_session_lifetime c <=? session_touch_interval c)
     || (max_pending_pairing_keys c =? 0)%nat || (max_pending_route_tickets c =? 0)%nat
  then Err InvalidRequest else Ok tt.
Definition validate_label (label : bytes) : outcome AuthServiceError bytes :=
  let label := trim_text label in
  if bool_decide (label = []) || (MAX_SESSION_LABEL_BYTES <? len label) || Approvals.has_control label then Err InvalidRequest else Ok label.
Definition validate_return_to (return_to : bytes) : outcome AuthServiceError unit :=
  if negb (starts_with (str "/") return_to) || starts_with (str "//") return_to || contains 92 return_to || Approvals.has_control return_to
  then Err InvalidRequest else Ok tt.

(** ** State *)
Record Session := {
  token_hmac : bytes; label : bytes; origin : bytes; created_at : Z; last_seen_at : Z; idle_expires_at : Z; absolute_expires_at : Z;
  revoked_at : option Z
}.
Record RouteGrant := {
  g_session_id : bytes; g_route_id : bytes; g_hostname : bytes; g_token_hmac : bytes; g_created_at : Z; g_expires_at : Z
}.
Record PendingPairingKey := { k_expires_at : Z; k_label : option bytes }.
Record PendingRouteTicket := { t_session_id : bytes; t_route_id : bytes; t_hostname : bytes; t_return_to : bytes; t_expires_at : Z }.
Record AuthenticatedSession := { a_id : bytes; a_origin : bytes; a_expires_at : Z }.
Record CreatedBrowserSession := { cs_id : bytes; cs_cookie_token : bytes; cs_expires_at : Z }.
Record CreatedRouteGrant := { cg_cookie_token : bytes; cg_expires_at : Z; cg_return_to : bytes; cg_session_id : bytes; cg_route_id : bytes }.
(** The key file: regular, and not open to others. *)
Record KeyFile := { is_regular : bool; is_private : bool; content : bytes }.
(** What operations still have to do after an await, with the digest of the capability
    that was consumed. *)
Inductive Task :=
| InsertSession (digest id : bytes) (session : Session) (secret : bytes)
| CheckParent (digest : bytes) (ticket : PendingRouteTicket) (hostname : bytes) (taken_at : Z)
| InsertGrant (digest id : bytes) (grant : RouteGrant) (hostname secret return_to : bytes).
Record World := {
  key_file : option KeyFile; sessions : gmap bytes Session; route_grants : gmap bytes RouteGrant;
  secret : bytes; pairing_keys : gmap bytes PendingPairingKey; route_tickets : gmap bytes PendingRouteTicket;
  active_connections : gmap bytes Z; changes : Z; tasks : list Task; now : Z; generated : nat
}.
#[export] Instance eta_Session : Eta Session := fun s =>
  {| token_hmac := token_hmac s; label := label s; origin := origin s; created_at := created_at s; last_seen_at := last_seen_at s;
     idle_expires_at := idle_expires_at s; absolute_expires_at := absolute_expires_at s; revoked_at := revoked_at s |}.
#[export] Instance eta_World : Eta World := fun w =>
  {| key_file := key_file w; sessions := sessions w; route_grants := route_grants w; secret := secret w; pairing_keys := pairing_keys w;
     route_tickets := route_tickets w; active_connections := active_connections w; changes := changes w; tasks := tasks w; now := now w; generated := generated w |}.
Definition act (A : Type) : Type := prog World AuthServiceError A.

Section service.
Variable hmac : bytes -> bytes -> bytes.
Variable decode : bytes -> option bytes.
Variables (random_secret random_token session_id : nat -> bytes).
Variable max_timestamp : Z.
Variable time_text : Z -> bytes.
Variable config : AuthServiceConfig.

Definition digest (key domain token : bytes) : bytes := hmac key (domain ++ [0] ++ token).
Definition add_duration (timestamp duration : Z) : outcome AuthServiceError Z :=
  if timestamp + duration <=? max_timestamp then Ok (timestamp + duration) else Err Unavailable.
Definition opaque (value : bytes) : bool := match decode value with Some d => len d =? OPAQUE_TOKEN_BYTES | None => false end.
Definition parse_cookie_token (value : bytes) : outcome AuthServiceError (bytes * bytes) :=
  let? (id, s) := ok_or (split_once 46 value) InvalidSession in
  if negb (parse_id (str "browser_session_") id) then Err InvalidSession
  else if opaque s then Ok (id, s) else Err InvalidSession.
Definition parse_raw_cookie_token (value : bytes) : outcome AuthServiceError (bytes * bytes) :=
  let? (id, s) := ok_or (split_once 46 value) InvalidRouteGrant in
  if negb (opaque id) then Err InvalidRouteGrant
  else if opaque s then Ok (id, s) else Err InvalidRouteGrant.

Definition call : act unit := syscall Unavailable id.
Definition fresh (f : nat -> bytes) : act bytes :=
  do w <- get; do! put (fun w => w <| generated := S (generated w) |>); ret (f (generated w)).
Definition notify_changed : act unit := put (fun w => w <| changes := (changes w + 1) mod (u64_max + 1) |>).
Definition prune_pending : act unit := put (fun w =>
  w <| pairing_keys := filter (fun e => now w < k_expires_at e.2) (pairing_keys w) |>
    <| route_tickets := filter (fun e => now w < t_expires_at e.2) (route_tickets w) |>).

(** ** The key *)
Definition read_secret (f : KeyFile) : act bytes :=
  do! call;
  if negb (is_regular f) || negb (len (content f) =? AUTH_SECRET_BYTES) || negb (is_private f) then raise Unavailable
  else do! call; ret (content f).
Definition write_key (data : bytes) : act unit :=
  let written n := put (fun w => w <| key_file := Some {| is_regular := true; is_private := true; content := take n data |} |>) in
  do ev <- next_event;
  match ev with
  | Runs => written (length data)
  | Fails done _ => do! written (length done); raise Unavailable
  | Stops done => do! written (length done); stop
  end.
Definition create_secret : act bytes :=
  do s <- fresh random_secret;
  do! syscall Unavailable (fun w => w <| key_file := Some {| is_regular := true; is_private := true; content := [] |} |>);
  do! write_key s;
  do! call;
  ret s.
Definition load_or_create_secret (create : bool) : act bytes :=
  do! call;
  do w <- get;
  match key_file w with
  | Some f => read_secret f
  | None => if create then create_secret else raise Unavailable
  end.
Definition open : act unit :=
  do! of_outcome (validate_config config);
  do! call;
  do s <- load_or_create_secret (negb (external_secret_file config));
  do! call; do! call; do! call; do! call;
  put (fun w => w <| secret := s |> <| pairing_keys := ∅ |> <| route_tickets := ∅ |> <| active_connections := ∅ |> <| changes := 0 |> <| tasks := [] |>).

(** ** Pairing *)
Definition add_task (t : Task) : act unit := put (fun w => w <| tasks := tasks w ++ [t] |>).
Definition optional_label (l : option bytes) : outcome AuthServiceError (option bytes) :=
  match l with Some l => let? v := validate_label l in Ok (Some v) | None => Ok None end.
Definition create_pairing_key (l : option bytes) : act (bytes * Z) :=
  do l <- of_outcome (optional_label l);
  do w <- get;
  do expires_at <- of_outcome (add_duration (now w) (pairing_lifetime config));
  do token <- fresh random_token;
  do! prune_pending;
  do w <- get;
  if (max_pending_pairing_keys config <=? size (pairing_keys w))%nat then raise Capacity
  else
    do! put (fun w => w <| pairing_keys := <[digest (secret w) (str "pairing") token := {| k_expires_at := expires_at; k_label := l |}]> (pairing_keys w) |>);
    ret (str "tascarrel-pair-" ++ token, expires_at).
(** [pair_browser] up to the insertion. *)
Definition pair_browser (pairing_key : bytes) (requested : option bytes) (from : bytes) : act unit :=
  do requested <- of_outcome (optional_label match requested with
                                             | Some l => let l := trim_text l in if bool_decide (l = []) then None else Some l
                                             | None => None end);
  do token <- of_outcome (ok_or (strip_prefix (str "tascarrel-pair-") pairing_key) InvalidPairingKey);
  do! prune_pending;
  do w <- get;
  let d := digest (secret w) (str "pairing") token in
  do pending <- of_outcome (ok_or (pairing_keys w !! d) InvalidPairingKey);
  do! put (fun w => w <| pairing_keys := delete d (pairing_keys w) |>);
  let l := match requested with Some l => l | None => match k_label pending with Some l => l | None => str "Browser" end end in
  if k_expires_at pending <=? now w then raise InvalidPairingKey
  else
    do idle <- of_outcome (add_duration (now w) (idle_session_lifetime config));
    do absolute <- of_outcome (add_duration (now w) (absolute_session_lifetime config));
    do i <- fresh session_id;
    do s <- fresh random_token;
    add_task (InsertSession d i
      {| token_hmac := digest (secret w) (str "session") s; label := l; origin := from; created_at := now w; last_seen_at := now w;
         idle_expires_at := idle; absolute_expires_at := absolute; revoked_at := None |} s).
(** [insert_session], and the end of [pair_browser]; the identifier is the primary key. *)
Definition insert_session (i : bytes) (session : Session) (s : bytes) : act CreatedBrowserSession :=
  do w <- get;
  do! (if bool_decide (is_Some (sessions w !! i)) then do! call; raise Unavailable
       else syscall Unavailable (fun w => w <| sessions := <[i := session]> (sessions w) |>));
  do! notify_changed;
  ret {| cs_id := i; cs_cookie_token := i ++ str "." ++ s; cs_expires_at := Z.min (idle_expires_at session) (absolute_expires_at session) |}.

(** ** Sessions *)
(** A row that was not revoked. *)
Definition unrevoked (i : bytes) (w : World) : option Session :=
  sessions w !! i ≫= fun s => match revoked_at s with None => Some s | Some _ => None end.
Definition touch (i : bytes) (seen idle : Z) (w : World) : World :=
  w <| sessions := alter (fun s => match revoked_at s with None => s <| last_seen_at := seen |> <| idle_expires_at := idle |> | Some _ => s end) i (sessions w) |>.
(** Its idle lifetime, advanced when it was not for a while. *)
Definition refresh (i : bytes) (s : Session) : act (Z * bool) :=
  do w <- get;
  do touch_after <- of_outcome (add_duration (last_seen_at s) (session_touch_interval config));
  if touch_after <=? now w then
    do updated <- of_outcome (add_duration (now w) (idle_session_lifetime config));
    let updated_idle := Z.min updated (absolute_expires_at s) in
    do! syscall Unavailable (touch i (now w) updated_idle);
    ret (updated_idle, true)
  else ret (idle_expires_at s, false).
Definition notify_if (b : bool) : act unit := if b then notify_changed else ret tt.
Definition authenticate_session (i token : bytes) : act (option (Z * bytes * bool)) :=
  do! call;
  do w <- get;
  match unrevoked i w with
  | None => ret None
  | Some s =>
      if negb (bool_decide (token_hmac s = token)) then ret None
      else if (idle_expires_at s <=? now w) || (absolute_expires_at s <=? now w) then ret None
      else
        do (idle, touched) <- refresh i s;
        ret (Some (if touched then idle else Z.min idle (absolute_expires_at s), origin s, touched))
  end.
Definition authenticate_browser (cookie_token : bytes) : act AuthenticatedSession :=
  do (i, s) <- of_outcome (parse_cookie_token cookie_token);
  do w <- get;
  do r <- authenticate_session i (digest (secret w) (str "session") s);
  do (expires_at, from, touched) <- of_outcome (ok_or r InvalidSession);
  do! notify_if touched;
  ret {| a_id := i; a_origin := from; a_expires_at := expires_at |}.
Definition revoke_session (i : bytes) : act unit :=
  do! syscall Unavailable (fun w => w <| sessions := alter (fun s => match revoked_at s with None => s <| revoked_at := Some (now w) |> | Some _ => s end) i (sessions w) |>);
  notify_changed.
Definition session_is_active (i : bytes) : act bool :=
  do! call;
  do w <- get;
  ret match unrevoked i w with Some s => (now w <? idle_expires_at s) && (now w <? absolute_expires_at s) | None => false end.
Definition keep_browser_alive (i : bytes) : act bool :=
  do! call;
  do w <- get;
  match unrevoked i w with
  | None => ret false
  | Some s =>
      if (idle_expires_at s <=? now w) || (absolute_expires_at s <=? now w) then ret false
      else do (_, touched) <- refresh i s; do! notify_if touched; ret true
  end.

(** ** Routes *)
Definition create_route_ticket (i route hostname return_to : bytes) : act bytes :=
  do! of_outcome (validate_return_to return_to);
  do w <- get;
  do expires_at <- of_outcome (add_duration (now w) (route_ticket_lifetime config));
  do token <- fresh random_token;
  do! prune_pending;
  do w <- get;
  if (max_pending_route_tickets config <=? size (route_tickets w))%nat then raise Capacity
  else
    do! put (fun w => w <| route_tickets := <[digest (secret w) (str "route-ticket") token :=
      {| t_session_id := i; t_route_id := route; t_hostname := hostname; t_return_to := return_to; t_expires_at := expires_at |}]> (route_tickets w) |>);
    ret (str "tascarrel-route-" ++ token).
(** [exchange_route_ticket] up to its first await. *)
Definition exchange_route_ticket (ticket hostname : bytes) : act unit :=
  do token <- of_outcome (ok_or (strip_prefix (str "tascarrel-route-") ticket) InvalidRouteTicket);
  do! prune_pending;
  do w <- get;
  let d := digest (secret w) (str "route-ticket") token in
  do pending <- of_outcome (ok_or (route_tickets w !! d) InvalidRouteTicket);
  do! put (fun w => w <| route_tickets := delete d (route_tickets w) |>);
  if (t_expires_at pending <=? now w) || negb (eq_ignore_ascii_case (t_hostname pending) hostname) then raise InvalidRouteTicket
  else add_task (CheckParent d pending hostname (now w)).
(** Its parent session, and what is inserted for it. *)
Definition check_parent (d : bytes) (pending : PendingRouteTicket) (hostname : bytes) (taken_at : Z) : act unit :=
  do active <- session_is_active (t_session_id pending);
  if negb active then raise InvalidSession
  else
    do expires_at <- of_outcome (add_duration taken_at (route_grant_lifetime config));
    do grant_id <- fresh random_token;
    do s <- fresh random_token;
    do w <- get;
    add_task (InsertGrant d grant_id
      {| g_session_id := t_session_id pending; g_route_id := t_route_id pending; g_hostname := to_ascii_lowercase hostname;
         g_token_hmac := digest (secret w) (str "route-grant") s; g_created_at := taken_at; g_expires_at := expires_at |} hostname s (t_return_to pending)).
(** [insert_route_grant], whose parent must be in the table of sessions. *)
Definition insert_route_grant (i : bytes) (grant : RouteGrant) (s return_to : bytes) : act CreatedRouteGrant :=
  do w <- get;
  do! (if bool_decide (is_Some (route_grants w !! i)) || bool_decide (sessions w !! g_session_id grant = None) then do! call; raise Unavailable
       else syscall Unavailable (fun w => w <| route_grants := <[i := grant]> (route_grants w) |>));
  ret {| cg_cookie_token := i ++ str "." ++ s; cg_expires_at := g_expires_at grant; cg_return_to := return_to;
         cg_session_id := g_session_id grant; cg_route_id := g_route_id grant |}.
Definition authenticate_route_grant (grant_id route hostname token : bytes) : act (option (AuthenticatedSession * bool)) :=
  do! call;
  do w <- get;
  match route_grants w !! grant_id with
  | None => ret None
  | Some g =>
      match unrevoked (g_session_id g) w with
      | None => ret None
      | Some s =>
          if negb (bool_decide (g_route_id g = route)) || negb (bool_decide (g_hostname g = to_ascii_lowercase hostname)) then ret None
          else if negb (bool_decide (g_token_hmac g = token)) then ret None
          else if negb (parse_id (str "browser_session_") (g_session_id g)) then raise Unavailable
          else if Z.min (Z.min (g_expires_at g) (idle_expires_at s)) (absolute_expires_at s) <=? now w then ret None
          else
            do (idle, touched) <- refresh (g_session_id g) s;
            let expires_at := Z.min (Z.min (g_expires_at g) idle) (absolute_expires_at s) in
            if expires_at <=? now w then ret None
            else ret (Some ({| a_id := g_session_id g; a_origin := origin s; a_expires_at := expires_at |}, touched))
      end
  end.
Definition authenticate_route (cookie_token route hostname : bytes) : act AuthenticatedSession :=
  do (grant_id, s) <- of_outcome (parse_raw_cookie_token cookie_token);
  do w <- get;
  do r <- authenticate_route_grant grant_id route hostname (digest (secret w) (str "route-grant") s);
  do (session, touched) <- of_outcome (ok_or r InvalidRouteGrant);
  do! notify_if touched;
  ret session.

(** ** Connections and the list of sessions *)
Definition connect_browser (i : bytes) : act unit :=
  do! put (fun w => w <| active_connections := <[i := saturating_add u32_max (default 0 (active_connections w !! i)) 1]> (active_connections w) |>);
  notify_changed.
(** [Drop] of the guard of a connection. *)
Definition disconnect_browser (i : bytes) : act unit :=
  do! put (fun w => match active_connections w !! i with
                    | Some count => let left := saturating_sub count 1 in
                        w <| active_connections := if left =? 0 then delete i (active_connections w) else <[i := left]> (active_connections w) |>
                    | None => w end);
  notify_changed.
Record BrowserSession := {
  b_id : bytes; b_label : bytes; b_origin : bytes; b_created_at : Z; b_last_seen_at : Z; b_expires_at : Z; b_active_connections : Z
}.
(** The order of the query: times are compared as text. *)
Definition later_first (a b : bytes * Session) : bool :=
  negb (bytes_leb (time_text (created_at a.2)) (time_text (created_at b.2)))
  || (bool_decide (time_text (created_at a.2) = time_text (created_at b.2)) && bytes_leb a.1 b.1).
Definition list_sessions : act (list BrowserSession) :=
  do w <- get;
  do! call;
  of_outcome (let? listed := collect (fun '(i, s) =>
      if negb (parse_id (str "browser_session_") i) then Err Unavailable
      else
        let expires_at := Z.min (idle_expires_at s) (absolute_expires_at s) in
        Ok (if expires_at <=? now w then None
            else Some {| b_id := i; b_label := label s; b_origin := origin s; b_created_at := created_at s; b_last_seen_at := last_seen_at s;
                         b_expires_at := expires_at; b_active_connections := default 0 (active_connections w !! i) |}))
    (sort_by later_first (map_to_list (filter (fun e => revoked_at e.2 = None) (sessions w)))) in
  Ok (omap id listed)).
Record BrowserSessionSubscription := { seen : Z; initial : bool }.
(** [recv]: [None] while it waits for a change. *)
Definition recv (s : BrowserSessionSubscription) : act (option (list BrowserSession) * BrowserSessionSubscription) :=
  do w <- get;
  if negb (initial s) && (seen s =? changes w) then ret (None, s)
  else
    do listed <- list_sessions;
    ret (Some listed, {| seen := if initial s then seen s else changes w; initial := false |}).
End service.
