(* ===== verification/AuthProps.v ===== *)
(** * What browser authentication promises

    Histories of [AuthService] with any failures, stops and restarts, with a log of what
    was created, paired, granted and revoked: whoever is authenticated holds a credential
    that was issued for a capability of a local administrator, used once, neither revoked
    nor expired. *)

From S2P Require Import Prelude Lists Text Utf8 RepoStore Outage AuthService.

(** ** The log *)
Inductive Entry :=
| KeyCreated (digest : bytes) (expires_at : Z)
| Paired (digest id secret : bytes) (at_ : Z)
| TicketCreated (digest session route hostname : bytes) (expires_at : Z)
| Granted (digest id session route hostname secret : bytes) (at_ : Z)
| Revoked (id : bytes).
Definition makes_key (d : bytes) (e : Entry) : bool := match e with KeyCreated d' _ => bool_decide (d' = d) | _ => false end.
Definition uses_key (d : bytes) (e : Entry) : bool := match e with Paired d' _ _ _ => bool_decide (d' = d) | _ => false end.
Definition makes_ticket (d : bytes) (e : Entry) : bool := match e with TicketCreated d' _ _ _ _ => bool_decide (d' = d) | _ => false end.
Definition uses_ticket (d : bytes) (e : Entry) : bool := match e with Granted d' _ _ _ _ _ _ => bool_decide (d' = d) | _ => false end.
Definition count {A} (f : A -> bool) (l : list A) : nat := length (List.filter f l).
Lemma count_snoc {A} (f : A -> bool) l a : count f (l ++ [a]) = (count f l + if f a then 1 else 0)%nat.
Proof. unfold count. rewrite List.filter_app, length_app. cbn. by destruct (f a). Qed.
(** A ticket that was taken and whose grant was not issued yet. *)
Definition holds_ticket (d : bytes) (t : Task) : bool := match t with CheckParent d' _ _ _ => bool_decide (d' = d) | _ => false end.
Definition one {A} (m : gmap bytes A) (d : bytes) : nat := if m !! d then 1 else 0.
Arguments count : simpl never.
Arguments one : simpl never.

Section service.
Context (hmac : bytes -> bytes -> bytes) (decode : bytes -> option bytes) (random_secret random_token session_id : nat -> bytes)
        (max_timestamp : Z) (time_text : Z -> bytes) (config : AuthServiceConfig).
Notation digest := (digest hmac).

(** ** The invariant *)
Record Stored (k : bytes) (log : list Entry) (w : World) : Prop := {
  st_key : exists f, key_file w = Some f /\ content f = k;
  st_sessions : forall i s, sessions w !! i = Some s -> exists d c, Paired d i c (created_at s) ∈ log
    /\ token_hmac s = digest k (str "session") c /\ absolute_expires_at s = created_at s + absolute_session_lifetime config;
  st_revoked : forall i, Revoked i ∈ log -> exists s t, sessions w !! i = Some s /\ revoked_at s = Some t;
  st_grants : forall i g, route_grants w !! i = Some g -> exists d c host, Granted d i (g_session_id g) (g_route_id g) host c (g_created_at g) ∈ log
    /\ g_hostname g = to_ascii_lowercase host /\ g_token_hmac g = digest k (str "route-grant") c
    /\ g_expires_at g = g_created_at g + route_grant_lifetime config
}.
(** What the log says by itself. *)
Record Sound (log : list Entry) : Prop := {
  so_paired : forall d i c t, Paired d i c t ∈ log -> exists e, KeyCreated d e ∈ log /\ t < e;
  so_granted : forall d i s r h c t, Granted d i s r h c t ∈ log -> exists h' e, TicketCreated d s r h' e ∈ log /\ eq_ignore_ascii_case h' h = true /\ t < e
}.
Record Used (log : list Entry) (w : World) : Prop := {
  us_keys : forall d, (count (uses_key d) log + one (pairing_keys w) d <= count (makes_key d) log)%nat;
  us_tickets : forall d, (count (uses_ticket d) log + count (holds_ticket d) (tasks w) + one (route_tickets w) d <= count (makes_ticket d) log)%nat
}.
Definition task_ok (k : bytes) (log : list Entry) (t : Task) : Prop :=
  match t with
  | InsertSession d i s c => Paired d i c (created_at s) ∈ log /\ token_hmac s = digest k (str "session") c
      /\ absolute_expires_at s = created_at s + absolute_session_lifetime config
  | CheckParent d p host t => TicketCreated d (t_session_id p) (t_route_id p) (t_hostname p) (t_expires_at p) ∈ log
      /\ eq_ignore_ascii_case (t_hostname p) host = true /\ t < t_expires_at p
  | InsertGrant d i g host c _ => Granted d i (g_session_id g) (g_route_id g) host c (g_created_at g) ∈ log
      /\ g_hostname g = to_ascii_lowercase host /\ g_token_hmac g = digest k (str "route-grant") c /\ g_expires_at g = g_created_at g + route_grant_lifetime config
  end.
Record Pending (log : list Entry) (w : World) : Prop := {
  pe_keys : forall d p, pairing_keys w !! d = Some p -> KeyCreated d (k_expires_at p) ∈ log;
  pe_tickets : forall d p, route_tickets w !! d = Some p -> TicketCreated d (t_session_id p) (t_route_id p) (t_hostname p) (t_expires_at p) ∈ log;
  pe_tasks : forall t, t ∈ tasks w -> task_ok (secret w) log t;
  pe_capacity : (size (pairing_keys w) <= max_pending_pairing_keys config /\ size (route_tickets w) <= max_pending_route_tickets config)%nat
}.
Definition Good (log : list Entry) (w : World) : Prop := Stored (secret w) log w /\ Sound log /\ Used log w /\ Pending log w.
(** Between two processes: nothing was issued yet, or the key that was used is there. *)
Definition Down (log : list Entry) (w : World) : Prop :=
  (log = [] /\ sessions w = ∅ /\ route_grants w = ∅ \/ exists k, Stored k log w) /\ Sound log
  /\ forall d, (count (uses_key d) log <= count (makes_key d) log)%nat /\ (count (uses_ticket d) log <= count (makes_ticket d) log)%nat.
Lemma Good_Down log w : Good log w -> Down log w.
Proof.
  intros (S & O & [U1 U2] & P). split_and!; [right; by eexists|done|]. intros d. specialize (U1 d). specialize (U2 d). lia.
Qed.

(** ** Steps that keep it *)
Record same (w w' : World) : Prop := {
  sa_file : key_file w' = key_file w; sa_sessions : sessions w' = sessions w; sa_grants : route_grants w' = route_grants w; sa_secret : secret w' = secret w;
  sa_keys : pairing_keys w' = pairing_keys w; sa_tickets : route_tickets w' = route_tickets w; sa_tasks : tasks w' = tasks w
}.
Lemma Good_same log w w' : same w w' -> Good log w -> Good log w'.
Proof.
  intros [] ([A B R C] & O & [U1 U2] & [P1 P2 P3 P4]). destruct w, w'. cbn in *. subst. split_and!; [constructor|done|constructor|constructor]; assumption.
Qed.
Lemma same_refl w : same w w.
Proof. done. Qed.
Lemma same_trans w1 w2 w3 : same w1 w2 -> same w2 w3 -> same w1 w3.
Proof. intros [] []. constructor; congruence. Qed.
Definition calm {A} (m : act A) : Prop := forall w, ends w m (fun _ => same w) (same w).
Lemma calm_ret {A} (a : A) : calm (ret a).
Proof. intros w. by apply ends_ret. Qed.
Lemma calm_raise {A} e : calm (A := A) (raise e).
Proof. intros w. by apply ends_raise. Qed.
Lemma calm_outcome {A} (o : outcome AuthServiceError A) : calm (of_outcome o).
Proof. intros w. by apply ends_outcome. Qed.
Lemma calm_get : calm get.
Proof. intros w. by apply ends_get. Qed.
Lemma calm_put f : (forall w, same w (f w)) -> calm (put f).
Proof. intros H w. by apply ends_put. Qed.
Lemma calm_call : calm call.
Proof. intros w. by apply ends_syscall. Qed.
Lemma calm_bind {A B} (m : act A) (k : A -> act B) : calm m -> (forall a, calm (k a)) -> calm (andthen m k).
Proof.
  intros H1 H2 w. eapply ends_bind; [apply H1|]. intros a w' E. eapply ends_weaken; [apply H2|intros ? ? E'|intros ? E']; exact (same_trans _ _ _ E E').
Qed.
Lemma calm_fresh f : calm (fresh f).
Proof. unfold fresh. apply calm_bind; [apply calm_get|]. intros w. apply calm_bind; [by apply calm_put|]. intros. apply calm_ret. Qed.
Lemma calm_notify : calm notify_changed.
Proof. by apply calm_put. Qed.
Lemma calm_notify_if b : calm (notify_if b).
Proof. destruct b; [apply calm_notify|apply calm_ret]. Qed.
Hint Resolve calm_ret calm_raise calm_outcome calm_get calm_call calm_fresh calm_notify calm_notify_if : quiet.
(** A quiet program in front of another. *)
Lemma auth_quiet {A B} w (m : act A) (k : A -> act B) (Q : B -> World -> Prop) (R : World -> Prop) :
  calm m -> (forall w', same w w' -> R w') -> (forall a w', same w w' -> ends w' (k a) Q R) -> ends w (andthen m k) Q R.
Proof. intros H HR Hk. eapply ends_bind; [eapply ends_weaken; [apply H|intros a w' X; exact X|exact HR]|]. exact Hk. Qed.
Lemma ends_good {A} log w (m : act A) : calm m -> Good log w -> ends w m (fun _ => Good log) (Good log).
Proof. intros H G. eapply ends_weaken; [apply H|intros ?|]; intros w' E; by apply (Good_same log w). Qed.
Lemma ends_kept {A B} log w (m : act A) (k : A -> act B) Q (R : World -> Prop) : calm m -> Good log w -> (forall w', Good log w' -> R w') ->
  (forall a w', Good log w' -> secret w' = secret w -> ends w' (k a) Q R) -> ends w (andthen m k) Q R.
Proof. intros H G HR Hk. apply auth_quiet; [done|..]; intros; [apply HR|apply Hk; [|by apply sa_secret]]; by apply (Good_same log w). Qed.
(** What is read of a state. *)
Lemma ends_see {B} w (k : World -> act B) Q R : ends w (k w) Q R -> ends w (andthen get k) Q R.
Proof. intros H. eapply (ends_bind _ _ _ (fun x w' => x = w /\ w' = w)); [by apply ends_get|]. by intros ? ? [-> ->]. Qed.
Lemma ends_of {A B} w (o : outcome AuthServiceError A) (k : A -> act B) Q (R : World -> Prop) : R w -> (forall a, o = Ok a -> ends w (k a) Q R) -> ends w (andthen (of_outcome o) k) Q R.
Proof. intros HR H. eapply (ends_bind _ _ _ (fun a w' => w' = w /\ o = Ok a)); [by apply ends_outcome|]. intros a ? [-> E]. by apply H. Qed.
Lemma ends_does {B} w f (k : unit -> act B) Q R : ends (f w) (k tt) Q R -> ends w (andthen (put f) k) Q R.
Proof. intros H. eapply (ends_bind _ _ _ (fun _ w' => w' = f w)); [by apply ends_put|]. by intros [] ? ->. Qed.

(** *** Pending capabilities *)
Lemma one_delete {A} (m : gmap bytes A) d d' : one (delete d m) d' = if decide (d = d') then 0%nat else one m d'.
Proof. unfold one. destruct (decide (d = d')) as [<-|N]; [by rewrite lookup_delete_eq|by rewrite lookup_delete_ne]. Qed.
Lemma one_insert {A} (m : gmap bytes A) d d' a : one (<[d := a]> m) d' = if decide (d = d') then 1%nat else one m d'.
Proof. unfold one. destruct (decide (d = d')) as [<-|N]; [by rewrite lookup_insert_eq|by rewrite lookup_insert_ne]. Qed.
Lemma one_filter {A} (P : bytes * A -> Prop) `{!forall x, Decision (P x)} (m : gmap bytes A) d : (one (filter P m) d <= one m d)%nat.
Proof. unfold one. destruct (filter P m !! d) eqn:E; [|lia]. apply map_lookup_filter_Some in E as [-> _]. done. Qed.
Lemma size_filter_le {A} (P : bytes * A -> Prop) `{!forall x, Decision (P x)} (m : gmap bytes A) : (size (filter P m) <= size m)%nat.
Proof. apply map_subseteq_size, map_filter_subseteq. Qed.
Definition pruned (w : World) : World := w <| pairing_keys := filter (fun e => now w < k_expires_at e.2) (pairing_keys w) |>
    <| route_tickets := filter (fun e => now w < t_expires_at e.2) (route_tickets w) |>.
Lemma Good_pruned log w : Good log w -> Good log (pruned w).
Proof.
  intros ([A B R C] & O & [U1 U2] & [P1 P2 P3 [P4 P5]]). split_and!; [by constructor|done|constructor|constructor]; cbn.
  - intros d. specialize (U1 d). pose proof (one_filter (fun e => now w < k_expires_at e.2) (pairing_keys w) d). lia.
  - intros d. specialize (U2 d). pose proof (one_filter (fun e => now w < t_expires_at e.2) (route_tickets w) d). lia.
  - intros d p [H _]%map_lookup_filter_Some. by apply P1.
  - intros d p [H _]%map_lookup_filter_Some. by apply P2.
  - done.
  - split; (etransitivity; [apply size_filter_le|done]).
Qed.
Lemma ends_prune {B} log w (k : unit -> act B) Q R : Good log w -> (Good log (pruned w) -> ends (pruned w) (k tt) Q R) -> ends w (andthen prune_pending k) Q R.
Proof. intros G H. apply ends_does. by apply H, Good_pruned. Qed.
(** The log, longer. *)
Lemma Stored_log k log w e : Stored k log w -> (forall i, e = Revoked i -> exists s t, sessions w !! i = Some s /\ revoked_at s = Some t) -> Stored k (log ++ [e]) w.
Proof.
  intros [A B R C] H. constructor; [done|..].
  - intros i s Hs. destruct (B i s Hs) as (d & c & E & X). exists d, c. split; [apply elem_of_app; by left|done].
  - intros i [Hi|E%list_elem_of_singleton]%elem_of_app; [by apply R|by apply H].
  - intros i g Hg. destruct (C i g Hg) as (d & c & h & E & X). exists d, c, h. split; [apply elem_of_app; by left|done].
Qed.
Lemma task_ok_log k log t e : task_ok k log t -> task_ok k (log ++ [e]) t.
Proof.
  assert (M : forall x, x ∈ log -> x ∈ log ++ [e]) by (intros; apply elem_of_app; by left). destruct t; cbn; naive_solver.
Qed.
Lemma Sound_log log e : Sound log ->
  match e with
  | Paired d i c t => exists x, KeyCreated d x ∈ log /\ t < x
  | Granted d i s r h c t => exists h' x, TicketCreated d s r h' x ∈ log /\ eq_ignore_ascii_case h' h = true /\ t < x
  | _ => True
  end -> Sound (log ++ [e]).
Proof.
  assert (M : forall x, x ∈ log -> x ∈ log ++ [e]) by (intros; apply elem_of_app; by left).
  intros [A B] H. constructor.
  - intros d i c t [Hi|E%list_elem_of_singleton]%elem_of_app; [destruct (A d i c t Hi) as (x & ? & ?)|subst e; destruct H as (x & ? & ?)]; exists x; auto.
  - intros d i s r h c t [Hi|E%list_elem_of_singleton]%elem_of_app; [destruct (B d i s r h c t Hi) as (h' & x & ? & ? & ?)|subst e; destruct H as (h' & x & ? & ? & ?)]; exists h', x; auto.
Qed.
Definition key_entry (w : World) (key : bytes * Z) : list Entry :=
  match strip_prefix (str "tascarrel-pair-") key.1 with Some token => [KeyCreated (digest (secret w) (str "pairing") token) key.2] | None => [] end.
Lemma Good_key log w d e l : Good log w -> (size (pairing_keys w) < max_pending_pairing_keys config)%nat ->
  Good (log ++ [KeyCreated d e]) (w <| pairing_keys := <[d := {| k_expires_at := e; k_label := l |}]> (pairing_keys w) |>).
Proof.
  intros (S & O & [U1 U2] & [P1 P2 P3 [P4 P5]]) Sz. split_and!; [|by apply Sound_log|constructor|constructor]; cbn.
  - destruct (Stored_log _ _ _ (KeyCreated d e) S) as [A B R C]; [done|]. by constructor.
  - intros d'. rewrite !count_snoc, one_insert. specialize (U1 d'). cbn. case_bool_decide; case_decide; (done || lia).
  - intros d'. rewrite !count_snoc. specialize (U2 d'). cbn. lia.
  - intros d' p [[<- <-]|[_ Hp]]%lookup_insert_Some; [set_solver|]. apply elem_of_app. left. by apply P1.
  - intros d' p Hp. apply elem_of_app. left. by apply P2.
  - intros t Ht. by apply task_ok_log, P3.
  - split; [|done]. destruct (pairing_keys w !! d) eqn:D; [rewrite map_size_insert_Some by (by eexists)|rewrite map_size_insert_None by done]; lia.
Qed.
Lemma ends_create_key log w l : Good log w -> ends w (create_pairing_key hmac random_token max_timestamp config l) (fun r w' => Good (log ++ key_entry w' r) w') (Good log).
Proof.
  intros G. unfold create_pairing_key. apply ends_of; [done|]. intros l' _. apply ends_see. apply ends_of; [done|]. intros e _.
  eapply (ends_kept log); [auto with quiet|done|done|]. intros token w1 G1 S1. eapply ends_prune; [exact G1|]. intros G2. apply ends_see.
  destruct (Nat.leb_spec (max_pending_pairing_keys config) (size (pairing_keys (pruned w1)))); [by apply ends_raise|].
  apply ends_does. apply ends_ret. unfold key_entry. cbn [fst snd]. rewrite (proj2 (strip_prefix_spec _ _ token) eq_refl).
  by apply Good_key.
Qed.

(** *** Pairing *)
Lemma ends_fresh {B} w f (k : bytes -> act B) Q R : ends (w <| generated := S (generated w) |>) (k (f (generated w))) Q R -> ends w (andthen (fresh f) k) Q R.
Proof.
  intros H. eapply (ends_bind _ _ _ (fun a w' => a = f (generated w) /\ w' = w <| generated := S (generated w) |>)); [|by intros ? ? [-> ->]].
  unfold fresh. apply ends_see, ends_does. by apply ends_ret.
Qed.
Lemma ends_call {B} w (k : unit -> act B) Q (R : World -> Prop) : R w -> ends w (k tt) Q R -> ends w (andthen call k) Q R.
Proof. intros HR H. eapply (ends_bind _ _ _ (fun _ w' => w' = w)); [by apply ends_syscall|]. by intros [] ? ->. Qed.
Lemma ends_calls {B} w f (k : unit -> act B) Q (R : World -> Prop) : R w -> ends (f w) (k tt) Q R -> ends w (andthen (syscall Unavailable f) k) Q R.
Proof. intros HR H. eapply (ends_bind _ _ _ (fun _ w' => w' = f w)); [by apply ends_syscall|]. by intros [] ? ->. Qed.
(** What the last task holds was issued with it. *)
Definition issued_with (t : Task) : list Entry :=
  match t with
  | InsertSession d i s c => [Paired d i c (created_at s)]
  | InsertGrant d i g host c _ => [Granted d i (g_session_id g) (g_route_id g) host c (g_created_at g)]
  | _ => []
  end.
Definition issued (w : World) : list Entry := match last (tasks w) with Some t => issued_with t | None => [] end.
Lemma issued_add w t l : tasks w = l ++ [t] -> issued w = issued_with t.
Proof. intros E. unfold issued. by rewrite E, last_snoc. Qed.
Lemma Good_taken log w d : Good log w -> Good log (w <| pairing_keys := delete d (pairing_keys w) |>).
Proof.
  intros ([A B R C] & O & [U1 U2] & [P1 P2 P3 [P4 P5]]). split_and!; [by constructor|done|constructor|constructor]; cbn; try done.
  - intros d'. rewrite one_delete. specialize (U1 d'). case_decide; lia.
  - intros d' p [_ H]%lookup_delete_Some. by apply P1.
  - split; [|done]. etransitivity; [apply map_subseteq_size, delete_subseteq|done].
Qed.
Lemma Good_paired log w d i s c : Good log w -> pairing_keys w !! d = None -> (count (uses_key d) log < count (makes_key d) log)%nat ->
  (exists e, KeyCreated d e ∈ log /\ created_at s < e) -> token_hmac s = digest (secret w) (str "session") c ->
  absolute_expires_at s = created_at s + absolute_session_lifetime config ->
  Good (log ++ [Paired d i c (created_at s)]) (w <| tasks := tasks w ++ [InsertSession d i s c] |>).
Proof.
  intros (S & O & [U1 U2] & [P1 P2 P3 P4]) N L K T X. split_and!; [|by apply Sound_log|constructor|constructor]; cbn.
  - destruct (Stored_log _ _ _ (Paired d i c (created_at s)) S) as [A B R C]; [done|]. by constructor.
  - intros d'. rewrite !count_snoc. specialize (U1 d'). cbn. case_bool_decide as E; [|lia]. subst d'. unfold one in *. rewrite N in *. lia.
  - intros d'. rewrite !count_snoc. specialize (U2 d'). cbn. lia.
  - intros d' p Hp. apply elem_of_app. left. by apply P1.
  - intros d' p Hp. apply elem_of_app. left. by apply P2.
  - intros t [Ht| ->%list_elem_of_singleton]%elem_of_app; [by apply task_ok_log, P3|]. cbn. split_and!; [set_solver|done|done].
  - done.
Qed.
Lemma key_unused log w d p : Good log w -> pairing_keys w !! d = Some p -> (count (uses_key d) log < count (makes_key d) log)%nat /\ KeyCreated d (k_expires_at p) ∈ log.
Proof. intros (_ & _ & [U _] & [P _ _ _]) H. split; [|by apply P]. specialize (U d). unfold one in U. rewrite H in U. lia. Qed.
Lemma ends_pair log w key l from : Good log w ->
  ends w (pair_browser hmac random_token session_id max_timestamp config key l from) (fun _ w' => Good (log ++ issued w') w') (Good log).
Proof.
  intros G. unfold pair_browser. apply ends_of; [done|]. intros l' _. apply ends_of; [done|]. intros token _.
  eapply ends_prune; [exact G|]. clear G. generalize (pruned w). clear w. intros w G. apply ends_see. apply ends_of; [done|]. intros p Hp%ok_or_Ok.
  apply ends_does. pose proof (Good_taken log w (digest (secret w) (str "pairing") token) G) as G'. destruct (key_unused log w _ p G Hp) as [U K].
  destruct (Z.leb_spec (k_expires_at p) (now w)); [by apply ends_raise|].
  apply ends_of; [done|]. intros idle _. apply ends_of; [done|]. intros absolute HA. do 2 apply ends_fresh. apply ends_put.
  erewrite issued_add by reflexivity. unfold add_duration in HA. case_match; [|done]. injection HA as <-.
  apply Good_paired; cbn; [|by rewrite lookup_delete_eq|done|by eexists|done|done].
  eapply Good_same; [|exact G']. done.
Qed.

(** *** Sessions *)
Lemma Good_inserted log w d i s c : Good log w -> task_ok (secret w) log (InsertSession d i s c) -> sessions w !! i = None ->
  Good log (w <| sessions := <[i := s]> (sessions w) |>).
Proof.
  intros ([A B R C] & O & [U1 U2] & [P1 P2 P3 P4]) (L & T & X) N. split_and!; [constructor|done|by constructor|by constructor]; try done; cbn.
  - intros j x [[<- <-]|[_ Hx]]%lookup_insert_Some; [by exists d, c|by apply B].
  - intros j Hj. destruct (R j Hj) as (x & t & Hx & Ht). exists x, t. split; [|done]. rewrite lookup_insert_ne; [done|congruence].
Qed.
Lemma ends_insert_session log w d i s c : Good log w -> task_ok (secret w) log (InsertSession d i s c) ->
  ends w (insert_session i s c) (fun _ => Good log) (Good log).
Proof.
  intros G T. unfold insert_session. apply ends_see. case_bool_decide as D.
  - eapply (ends_bind _ _ _ (fun _ _ => False)); [|done]. apply ends_call; [done|]. by apply ends_raise.
  - apply eq_None_not_Some in D. apply ends_calls; [done|]. apply ends_good; [|by eapply Good_inserted].
    apply calm_bind; auto with quiet.
Qed.
(** A change of a row that keeps what was issued, and its revocation. *)
Definition keeps_row (f : Session -> Session) : Prop := forall s, created_at (f s) = created_at s /\ token_hmac (f s) = token_hmac s
  /\ absolute_expires_at (f s) = absolute_expires_at s /\ (revoked_at s = None \/ revoked_at (f s) = revoked_at s).
Lemma Good_alter log w i f : keeps_row f -> Good log w -> Good log (w <| sessions := alter f i (sessions w) |>).
Proof.
  intros H ([A B R C] & O & [U1 U2] & [P1 P2 P3 P4]). split_and!; [constructor|done|by constructor|by constructor]; try done; cbn.
  - intros j x [(-> & y & Hy & ->)|[_ Hx]]%lookup_alter_Some; [|by apply B]. destruct (H y) as (-> & -> & -> & _). by apply B.
  - intros j Hj. destruct (R j Hj) as (x & t & Hx & Ht). destruct (decide (i = j)) as [<-|N]; [|rewrite lookup_alter_ne by done; by exists x, t].
    rewrite lookup_alter_eq, Hx. exists (f x), t. split; [done|]. destruct (H x) as (_ & _ & _ & [E|E]); congruence.
Qed.
Lemma Good_touch log w i t e : Good log w -> Good log (touch i t e w).
Proof. apply Good_alter. intros s. destruct (revoked_at s) eqn:E; split_and!; auto. Qed.
Lemma ends_revoke log w i : Good log w -> ends w (revoke_session i) (fun _ w' => Good (log ++ if sessions w !! i then [Revoked i] else []) w') (Good log).
Proof.
  intros G. unfold revoke_session. apply ends_calls; [done|].
  match goal with |- ends ?x _ _ _ => assert (G' : Good log x) by (apply Good_alter; [|done]; intros s; destruct (revoked_at s) eqn:E; split_and!; auto) end.
  eapply ends_weaken; [apply calm_notify| |by intros w' E; eapply Good_same].
  intros ? w' E. eapply Good_same; [exact E|]. destruct (sessions w !! i) as [s|] eqn:Hs; [|by rewrite app_nil_r].
  destruct G' as (S & O & [U1 U2] & [P1 P2 P3 P4]). split_and!; [|by apply Sound_log|constructor|constructor].
  - apply Stored_log; [done|]. intros ? [= <-]. cbn. rewrite lookup_alter_eq, Hs. cbn. destruct (revoked_at s) as [r|] eqn:R; [exists s, r|eexists _, (now w)]; split; try reflexivity; done.
  - intros d'. rewrite !count_snoc. specialize (U1 d'). cbn in *. lia.
  - intros d'. rewrite !count_snoc. specialize (U2 d'). cbn in *. lia.
  - intros d' p Hp. apply elem_of_app. left. by apply P1.
  - intros d' p Hp. apply elem_of_app. left. by apply P2.
  - intros t Ht. by apply task_ok_log, P3.
  - done.
Qed.
(** Whoever a row of the table is for. *)
Definition holder (log : list Entry) (i c : bytes) (until : Z) : Prop := exists d e created, Paired d i c created ∈ log /\ KeyCreated d e ∈ log /\ created < e
  /\ until = created + absolute_session_lifetime config /\ Revoked i ∉ log.
Lemma unrevoked_Some i w s : unrevoked i w = Some s <-> sessions w !! i = Some s /\ revoked_at s = None.
Proof.
  unfold unrevoked. split.
  - intros (x & -> & E)%bind_Some. destruct (revoked_at x) eqn:N; [done|]. injection E as ->. by rewrite <- N.
  - intros [-> N]. cbn. by rewrite N.
Qed.
Lemma unrevoked_holder log w i s : Good log w -> unrevoked i w = Some s ->
  exists c, holder log i c (absolute_expires_at s) /\ token_hmac s = digest (secret w) (str "session") c.
Proof.
  intros ([_ B R _] & [K _] & _) [Hs N]%unrevoked_Some. destruct (B i s Hs) as (d & c & P & H & X). destruct (K _ _ _ _ P) as (e & He & Le).
  exists c. split; [|done]. exists d, e, (created_at s). split_and!; [done..|]. intros Hr. destruct (R i Hr) as (x & t & Hx & Ht). congruence.
Qed.
Lemma ends_refresh log w i s : Good log w -> ends w (refresh max_timestamp config i s)
  (fun r w' => Good log w' /\ now w' = now w /\ if r.2 then r.1 <= absolute_expires_at s else r.1 = idle_expires_at s) (Good log).
Proof.
  intros G. unfold refresh. apply ends_see. apply ends_of; [done|]. intros after _. destruct (after <=? now w); [|by apply ends_ret].
  apply ends_of; [done|]. intros updated _. apply ends_calls; [done|]. apply ends_ret. split_and!; [by apply Good_touch|done|]. cbn. lia.
Qed.
Lemma ends_authenticate_session log w i token : Good log w -> ends w (authenticate_session max_timestamp config i token)
  (fun r w' => Good log w' /\ forall x, r = Some x -> exists c until, holder log i c until /\ token = digest (secret w) (str "session") c /\ now w < until /\ x.1.1 <= until) (Good log).
Proof.
  intros G. unfold authenticate_session. apply ends_call; [done|]. apply ends_see. destruct (unrevoked i w) as [s|] eqn:U; [|by apply ends_ret].
  case_bool_decide as E; [|by apply ends_ret]. destruct (_ || _) eqn:X; [by apply ends_ret|]. apply orb_false_elim in X as [_ X%Z.leb_gt]. cbn [negb].
  eapply ends_bind; [by apply (ends_refresh log)|]. intros [idle touched] w' (G' & _ & H). apply ends_ret. split; [done|]. intros ? [= <-].
  destruct (unrevoked_holder log w i s G U) as (c & Hc & T). exists c, (absolute_expires_at s). split_and!; [done|congruence|done|]. cbn in *. destruct touched; lia.
Qed.
Lemma ends_authenticate_browser log w cookie : Good log w -> ends w (authenticate_browser hmac decode max_timestamp config cookie)
  (fun a w' => Good log w' /\ exists c given until, parse_cookie_token decode cookie = Ok (a_id a, given) /\ holder log (a_id a) c until
     /\ digest (secret w) (str "session") given = digest (secret w) (str "session") c /\ now w < until /\ a_expires_at a <= until) (Good log).
Proof.
  intros G. unfold authenticate_browser. apply ends_of; [done|]. intros [i given] P. apply ends_see.
  eapply ends_bind; [by apply (ends_authenticate_session log)|]. intros r w' [G' H]. apply ends_of; [done|]. intros [[expires from] touched] ->%ok_or_Ok.
  destruct (H _ eq_refl) as (c & until & Hc & T & L & X). eapply (ends_kept log); [apply calm_notify_if|done|done|]. intros ? w2 G2 _.
  apply ends_ret. split; [done|]. by exists c, given, until.
Qed.
Lemma calm_active i : calm (session_is_active i).
Proof. unfold session_is_active. apply calm_bind; [apply calm_call|]. intros. apply calm_bind; auto with quiet. Qed.
Lemma ends_keep_alive log w i : Good log w -> ends w (keep_browser_alive max_timestamp config i) (fun _ => Good log) (Good log).
Proof.
  intros G. unfold keep_browser_alive. apply ends_call; [done|]. apply ends_see. destruct (unrevoked i w) as [s|]; [|by apply ends_ret].
  destruct (_ || _); [by apply ends_ret|]. eapply ends_bind; [by apply (ends_refresh log)|]. intros [idle touched] w' [G' _].
  apply ends_good; [|done]. apply calm_bind; auto with quiet.
Qed.

(** *** Routes *)
Definition ticket_entry (i route hostname : bytes) (r : bytes) (w : World) : list Entry :=
  match strip_prefix (str "tascarrel-route-") r with
  | Some token => [TicketCreated (digest (secret w) (str "route-ticket") token) i route hostname (now w + route_ticket_lifetime config)]
  | None => []
  end.
Lemma Good_ticket log w d p : Good log w -> (size (route_tickets w) < max_pending_route_tickets config)%nat ->
  Good (log ++ [TicketCreated d (t_session_id p) (t_route_id p) (t_hostname p) (t_expires_at p)]) (w <| route_tickets := <[d := p]> (route_tickets w) |>).
Proof.
  intros (S & O & [U1 U2] & [P1 P2 P3 [P4 P5]]) Sz. split_and!; [|by apply Sound_log|constructor|constructor]; cbn.
  - apply (Stored_log _ _ _ (TicketCreated d (t_session_id p) (t_route_id p) (t_hostname p) (t_expires_at p))) in S as [A B R C]; [|done]. by constructor.
  - intros d'. rewrite !count_snoc. specialize (U1 d'). cbn. lia.
  - intros d'. rewrite !count_snoc, one_insert. specialize (U2 d'). cbn. case_bool_decide; case_decide; (done || lia).
  - intros d' q Hq. apply elem_of_app. left. by apply P1.
  - intros d' q [[<- <-]|[_ Hq]]%lookup_insert_Some; [set_solver|]. apply elem_of_app. left. by apply P2.
  - intros t Ht. by apply task_ok_log, P3.
  - split; [done|]. destruct (route_tickets w !! d) eqn:D; [rewrite map_size_insert_Some by (by eexists)|rewrite map_size_insert_None by done]; lia.
Qed.
Lemma ends_create_ticket log w i route hostname return_to : Good log w ->
  ends w (create_route_ticket hmac random_token max_timestamp config i route hostname return_to) (fun r w' => Good (log ++ ticket_entry i route hostname r w') w') (Good log).
Proof.
  intros G. unfold create_route_ticket. apply ends_of; [done|]. intros ? _. apply ends_see. apply ends_of; [done|]. intros e He. apply ends_fresh.
  eapply ends_prune; [eapply Good_same; [|exact G]; done|]. intros G2. apply ends_see.
  destruct (Nat.leb_spec (max_pending_route_tickets config) (size (route_tickets (pruned (w <| generated := S (generated w) |>))))); [by apply ends_raise|].
  apply ends_does. apply ends_ret. unfold ticket_entry. rewrite (proj2 (strip_prefix_spec _ _ (random_token (generated w))) eq_refl).
  unfold add_duration in He. case_match; [|done]. injection He as <-. by apply (Good_ticket log _ _ {| t_session_id := i; t_route_id := route; t_hostname := hostname; t_return_to := return_to; t_expires_at := _ |}).
Qed.
Lemma Good_untake log w d : Good log w -> Good log (w <| route_tickets := delete d (route_tickets w) |>).
Proof.
  intros ([A B R C] & O & [U1 U2] & [P1 P2 P3 [P4 P5]]). split_and!; [by constructor|done|constructor|constructor]; cbn; try done.
  - intros d'. rewrite one_delete. specialize (U2 d'). case_decide; lia.
  - intros d' p [_ H]%lookup_delete_Some. by apply P2.
  - split; [done|]. etransitivity; [apply map_subseteq_size, delete_subseteq|done].
Qed.
Definition spare (d : bytes) (log : list Entry) (w : World) : Prop :=
  (count (uses_ticket d) log + count (holds_ticket d) (tasks w) + one (route_tickets w) d < count (makes_ticket d) log)%nat.
Lemma Good_awaits log w t : Good log w -> task_ok (secret w) log t -> (forall d, holds_ticket d t = true -> spare d log w) -> Good log (w <| tasks := tasks w ++ [t] |>).
Proof.
  intros ([A B R C] & O & [U1 U2] & [P1 P2 P3 P4]) T Sp. split_and!; [by constructor|done|constructor|constructor]; cbn; try done.
  - intros d. rewrite count_snoc. specialize (U2 d). specialize (Sp d). unfold spare in Sp. destruct (holds_ticket d t); [specialize (Sp eq_refl)|]; lia.
  - intros x [Hx| ->%list_elem_of_singleton]%elem_of_app; [by apply P3|done].
Qed.
Lemma ends_exchange log w ticket hostname : Good log w -> ends w (exchange_route_ticket hmac ticket hostname) (fun _ => Good log) (Good log).
Proof.
  intros G. unfold exchange_route_ticket. apply ends_of; [done|]. intros token _. eapply ends_prune; [exact G|]. clear G. generalize (pruned w). clear w. intros w G.
  apply ends_see. apply ends_of; [done|]. intros p Hp%ok_or_Ok. apply ends_does. set (d := digest _ _ token) in *. pose proof (Good_untake log w d G) as G'.
  destruct (_ || _) eqn:E; [by apply ends_raise|]. apply orb_false_elim in E as [L%Z.leb_gt N%negb_false_iff]. apply ends_put. apply Good_awaits; [done|..]; cbn.
  - destruct G as (_ & _ & _ & [_ P _ _]). split_and!; [by apply P|done|done].
  - intros d' <-%bool_decide_eq_true. unfold spare. cbn. rewrite one_delete, decide_True by done.
    destruct G as (_ & _ & [_ U] & _). specialize (U d). unfold one in U. rewrite Hp in U. lia.
Qed.
Lemma Good_granted log w d i g h c r : Good log w -> spare d log w -> (exists h' e, TicketCreated d (g_session_id g) (g_route_id g) h' e ∈ log
    /\ eq_ignore_ascii_case h' h = true /\ g_created_at g < e) ->
  g_hostname g = to_ascii_lowercase h -> g_token_hmac g = digest (secret w) (str "route-grant") c -> g_expires_at g = g_created_at g + route_grant_lifetime config ->
  Good (log ++ [Granted d i (g_session_id g) (g_route_id g) h c (g_created_at g)]) (w <| tasks := tasks w ++ [InsertGrant d i g h c r] |>).
Proof.
  intros (S & O & [U1 U2] & [P1 P2 P3 P4]) Sp K Hh Ht He. split_and!; [|by apply Sound_log|constructor|constructor]; cbn.
  - apply (Stored_log _ _ _ (Granted d i (g_session_id g) (g_route_id g) h c (g_created_at g))) in S as [A B R C]; [|done]. by constructor.
  - intros d'. rewrite !count_snoc. specialize (U1 d'). cbn. lia.
  - intros d'. rewrite !count_snoc. specialize (U2 d'). cbn. case_bool_decide as E; [subst d'; unfold spare in Sp|]; lia.
  - intros d' q Hq. apply elem_of_app. left. by apply P1.
  - intros d' q Hq. apply elem_of_app. left. by apply P2.
  - intros t [Hx| ->%list_elem_of_singleton]%elem_of_app; [by apply task_ok_log, P3|]. cbn. split_and!; [set_solver|done..].
  - done.
Qed.
Lemma ends_check_parent log w d p h t : Good log w -> spare d log w -> task_ok (secret w) log (CheckParent d p h t) ->
  ends w (check_parent hmac random_token max_timestamp config d p h t) (fun _ w' => Good (log ++ issued w') w') (Good log).
Proof.
  intros G Sp (K & N & L). unfold check_parent. apply auth_quiet; [apply calm_active|intros w' E; by eapply Good_same|]. intros [] w' E; [|by apply ends_raise, (Good_same log w)]. cbn [negb].
  assert (G' : Good log w') by (by eapply Good_same). apply ends_of; [done|]. intros e He. do 2 apply ends_fresh. apply ends_see. apply ends_put.
  erewrite issued_add by reflexivity. unfold add_duration in He. case_match; [|done]. injection He as <-.
  apply Good_granted; cbn; [|destruct E; unfold spare in *; cbn; congruence|by eexists _, _|done..]. by apply (Good_same log w').
Qed.
Lemma ends_insert_grant log w d i g h c r : Good log w -> task_ok (secret w) log (InsertGrant d i g h c r) ->
  ends w (insert_route_grant i g c r) (fun _ => Good log) (Good log).
Proof.
  intros G (L & Hh & Ht & He). unfold insert_route_grant. apply ends_see. destruct (_ || _) eqn:D.
  - eapply (ends_bind _ _ _ (fun _ _ => False)); [|done]. apply ends_call; [done|]. by apply ends_raise.
  - apply ends_calls; [done|]. apply ends_ret. destruct G as ([A B R C] & O & [U1 U2] & [P1 P2 P3 P4]). split_and!; [constructor|done|by constructor|by constructor]; cbn; try done.
    intros j x [[<- <-]|[_ Hx]]%lookup_insert_Some; [by exists d, c, h|by apply C].
Qed.

(** What a grant is for. *)
Definition granted (log : list Entry) (i session route hostname c : bytes) (until : Z) : Prop := exists d h created h' e,
  Granted d i session route h c created ∈ log /\ to_ascii_lowercase hostname = to_ascii_lowercase h
  /\ TicketCreated d session route h' e ∈ log /\ eq_ignore_ascii_case h' h = true /\ created < e /\ until = created + route_grant_lifetime config.
Lemma grant_granted log w i g hostname : Good log w -> route_grants w !! i = Some g -> g_hostname g = to_ascii_lowercase hostname ->
  exists c, granted log i (g_session_id g) (g_route_id g) hostname c (g_expires_at g) /\ g_token_hmac g = digest (secret w) (str "route-grant") c.
Proof.
  intros ([_ _ _ C] & [_ T] & _) Hg Hn. destruct (C i g Hg) as (d & c & h & Gr & Hh & Ht & He). destruct (T _ _ _ _ _ _ _ Gr) as (h' & e & Tc & Eq & L).
  exists c. split; [|done]. exists d, h, (g_created_at g), h', e. split_and!; [done|congruence|done..].
Qed.
Lemma ends_authenticate_grant log w i route hostname token : Good log w -> ends w (authenticate_route_grant max_timestamp config i route hostname token)
  (fun r w' => Good log w' /\ forall a b, r = Some (a, b) -> (exists c until, granted log i (a_id a) route hostname c until
      /\ token = digest (secret w) (str "route-grant") c /\ a_expires_at a <= until) /\ (exists c until, holder log (a_id a) c until /\ a_expires_at a <= until)
    /\ now w < a_expires_at a) (Good log).
Proof.
  intros G. unfold authenticate_route_grant. apply ends_call; [done|]. apply ends_see. destruct (route_grants w !! i) as [g|] eqn:Hg; [|by apply ends_ret].
  destruct (unrevoked (g_session_id g) w) as [s|] eqn:U; [|by apply ends_ret]. destruct (_ || _) eqn:N; [by apply ends_ret|].
  apply orb_false_elim in N as [R%negb_false_iff%bool_decide_eq_true Hn%negb_false_iff%bool_decide_eq_true].
  case_bool_decide as T; [|by apply ends_ret]. cbn [negb]. destruct (parse_id _ _); [|by apply ends_raise]. cbn [negb]. destruct (_ <=? _); [by apply ends_ret|].
  eapply ends_bind; [by apply (ends_refresh log)|]. intros [idle touched] w' (G' & Nw & H).
  destruct (Z.leb_spec (Z.min (Z.min (g_expires_at g) idle) (absolute_expires_at s)) (now w)); [by apply ends_ret|]. apply ends_ret. split; [done|]. intros a b [= <- <-].
  destruct (grant_granted log w i g hostname G Hg Hn) as (c & Gr & Tc). destruct (unrevoked_holder log w _ s G U) as (c' & Ho & _). cbn [a_id a_expires_at]. subst route token.
  split_and!; [exists c, (g_expires_at g)|exists c', (absolute_expires_at s)|]; split_and?; try done; lia.
Qed.
Lemma ends_authenticate_route log w cookie route hostname : Good log w -> ends w (authenticate_route hmac decode max_timestamp config cookie route hostname)
  (fun a w' => Good log w' /\ (exists i given c until, parse_raw_cookie_token decode cookie = Ok (i, given) /\ granted log i (a_id a) route hostname c until
      /\ digest (secret w) (str "route-grant") given = digest (secret w) (str "route-grant") c /\ a_expires_at a <= until)
    /\ (exists c until, holder log (a_id a) c until /\ a_expires_at a <= until) /\ now w < a_expires_at a) (Good log).
Proof.
  intros G. unfold authenticate_route. apply ends_of; [done|]. intros [i given] P. apply ends_see.
  eapply ends_bind; [by apply (ends_authenticate_grant log)|]. intros r w' [G' H]. apply ends_of; [done|]. intros [a touched] ->%ok_or_Ok.
  destruct (H _ _ eq_refl) as ((c & until & Gr & T & X) & Ho & L). eapply (ends_kept log); [apply calm_notify_if|done|done|]. intros ? w2 G2 _.
  apply ends_ret. split; [done|]. split_and!; [|done..]. by exists i, given, c, until.
Qed.
(** *** Connections and lists *)
Lemma calm_connect i : calm (connect_browser i).
Proof. unfold connect_browser. apply calm_bind; [by apply calm_put|]. auto with quiet. Qed.
Lemma calm_disconnect i : calm (disconnect_browser i).
Proof. unfold disconnect_browser. apply calm_bind; [apply calm_put; intros w; by destruct (active_connections w !! i)|]. auto with quiet. Qed.
Lemma calm_list : calm (list_sessions time_text).
Proof. unfold list_sessions. repeat (apply calm_bind; [auto with quiet|]; intros). auto with quiet. Qed.
Lemma calm_recv s : calm (recv time_text s).
Proof.
  unfold recv. apply calm_bind; [auto with quiet|]. intros w. destruct (_ && _); [auto with quiet|]. apply calm_bind; [apply calm_list|]. auto with quiet.
Qed.

(** *** The start *)
Definition Empty (log : list Entry) (w : World) : Prop := log = [] /\ sessions w = ∅ /\ route_grants w = ∅.
Lemma Empty_Stored f log w : Empty log w -> key_file w = Some f -> Stored (content f) log w.
Proof.
  intros (-> & S & G) E. constructor; rewrite ?S, ?G; [by exists f|intros ? ?; by rewrite lookup_empty|by intros ? ?%not_elem_of_nil|intros ? ?; by rewrite lookup_empty].
Qed.
Lemma ends_create_secret log w : Empty log w -> ends w (create_secret random_secret) (fun s w' => Stored s log w') (Empty log).
Proof.
  intros E. unfold create_secret. apply ends_fresh. apply ends_calls; [done|]. generalize (random_secret (generated w)). intros s.
  match goal with |- ends ?x _ _ _ => assert (E' : Empty log x) by exact E; generalize dependent x end. clear w E. intros w E.
  eapply (ends_bind _ _ _ (fun _ w' => Empty log w' /\ exists f, key_file w' = Some f /\ content f = s)).
  - unfold write_key. eapply (ends_bind _ _ _ (fun _ w' => w' = w)); [|intros ev ? ->; destruct ev].
    + apply hoare_event; [done|]. by intros ? ? _ <-.
    + apply ends_put. split; [exact E|]. eexists. split; [done|]. cbn. by rewrite firstn_all.
    + apply ends_does. by apply ends_raise.
    + apply ends_does. intros x Fx Ex. split; [done|]. cbn. rewrite <- Ex. exact E.
  - intros _ w' (E' & f & K & <-). apply ends_call; [done|]. apply ends_ret. by apply Empty_Stored.
Qed.
Lemma ends_load log w create : Down log w ->
  ends w (load_or_create_secret random_secret create) (fun s w' => Stored s log w') (fun w' => Empty log w' \/ exists k, Stored k log w').
Proof.
  intros (D & _). unfold load_or_create_secret. apply ends_call; [done|]. apply ends_see. destruct (key_file w) as [f|] eqn:K.
  - unfold read_secret. apply ends_call; [done|]. destruct (_ || _); [by apply ends_raise|]. apply ends_call; [done|]. apply ends_ret.
    destruct D as [E|[k S]]; [by apply Empty_Stored|]. destruct (st_key _ _ _ S) as (f' & K' & <-). rewrite K in K'. by injection K' as ->.
  - destruct create; [|by apply ends_raise]. destruct D as [E|[k S]]; [|destruct (st_key _ _ _ S) as (f' & K' & _); congruence].
    eapply ends_weaken; [by apply ends_create_secret|done|by left].
Qed.
Lemma auth_open log w : Down log w -> ends w (open random_secret config) (fun _ => Good log) (Down log).
Proof.
  intros D. pose proof D as (_ & O & U). unfold open. apply ends_of; [done|]. intros ? _. apply ends_call; [done|].
  assert (Back : forall w', Empty log w' \/ (exists k, Stored k log w') -> Down log w') by (intros w' [E|E]; split_and!; auto).
  eapply ends_bind; [eapply ends_weaken; [by apply (ends_load log)|intros s w' H; exact H|exact Back]|]. intros s w' S. cbn in S.
  do 4 (apply ends_call; [apply Back; right; by exists s|]). apply ends_put. destruct S as [A B R C]. split_and!; [by constructor|done|constructor|constructor]; cbn.
  - intros d. unfold one. rewrite lookup_empty. destruct (U d). lia.
  - intros d. unfold one. rewrite lookup_empty. destruct (U d). unfold count at 2. cbn. lia.
  - intros d p. by rewrite lookup_empty.
  - intros d p. by rewrite lookup_empty.
  - by intros t ?%not_elem_of_nil.
  - rewrite !map_size_empty. lia.
Qed.

(** ** Histories

    A service that is down or up, what was issued and revoked so far, and the state. *)
Definition state : Type := bool * list Entry * World.
Definition silent {A} (a : A) (w : World) : list Entry := [].
Definition after {A} (log : list Entry) (entries : A -> World -> list Entry) (r : outcome AuthServiceError A * Machine World) : state :=
  match r.1 with
  | Ok a => (true, log ++ entries a (disk r.2), disk r.2)
  | Err _ => (true, log, disk r.2)
  | Panic _ => (false, log, disk r.2)
  end.
Definition opened (log : list Entry) (r : outcome AuthServiceError unit * Machine World) : state := (is_ok r.1, log, disk r.2).
(** The calls from outside. *)
Inductive called (w : World) : forall A, act A -> (A -> World -> list Entry) -> Prop :=
| called_create_key l : called w _ (create_pairing_key hmac random_token max_timestamp config l) (fun r w' => key_entry w' r)
| called_pair key l from : called w _ (pair_browser hmac random_token session_id max_timestamp config key l from) (fun _ w' => issued w')
| called_authenticate cookie : called w _ (authenticate_browser hmac decode max_timestamp config cookie) silent
| called_revoke i : called w _ (revoke_session i) (fun _ _ => if sessions w !! i then [Revoked i] else [])
| called_active i : called w _ (session_is_active i) silent
| called_keep i : called w _ (keep_browser_alive max_timestamp config i) silent
| called_ticket i route hostname return_to : called w _ (create_route_ticket hmac random_token max_timestamp config i route hostname return_to) (ticket_entry i route hostname)
| called_exchange ticket hostname : called w _ (exchange_route_ticket hmac ticket hostname) silent
| called_authenticate_route cookie route hostname : called w _ (authenticate_route hmac decode max_timestamp config cookie route hostname) silent
| called_connect i : called w _ (connect_browser i) silent
| called_disconnect i : called w _ (disconnect_browser i) silent
| called_list : called w _ (list_sessions time_text) silent
| called_recv s : called w _ (recv time_text s) silent.
Inductive turn : Task -> forall A, act A -> (A -> World -> list Entry) -> Prop :=
| turn_session d i s c : turn (InsertSession d i s c) _ (insert_session i s c) silent
| turn_parent d p h t : turn (CheckParent d p h t) _ (check_parent hmac random_token max_timestamp config d p h t) (fun _ w' => issued w')
| turn_grant d i g h c r : turn (InsertGrant d i g h c r) _ (insert_route_grant i g c r) silent.
(** A request can be dropped while it awaits. *)
Inductive step : state -> state -> Prop :=
| step_open log w evs : step (false, log, w) (opened log (open random_secret config {| disk := w; events := evs |}))
| step_call log w A (m : act A) entries evs : called w A m entries -> step (true, log, w) (after log entries (m {| disk := w; events := evs |}))
| step_task log w l1 t l2 A (m : act A) entries evs : tasks w = l1 ++ t :: l2 -> turn t A m entries ->
    step (true, log, w) (after log entries (m {| disk := w <| tasks := l1 ++ l2 |>; events := evs |}))
| step_drop log w l1 t l2 : tasks w = l1 ++ t :: l2 -> step (true, log, w) (true, log, w <| tasks := l1 ++ l2 |>)
| step_crash log w : step (true, log, w) (false, log, w)
| step_time b log w t : step (b, log, w) (b, log, w <| now := t |>).
Definition Inv (c : state) : Prop := if c.1.1 then Good c.1.2 c.2 else Down c.1.2 c.2.
Lemma Good_drop log w l1 t l2 : tasks w = l1 ++ t :: l2 -> Good log w ->
  Good log (w <| tasks := l1 ++ l2 |>) /\ task_ok (secret w) log t /\ (forall d, holds_ticket d t = true -> spare d log (w <| tasks := l1 ++ l2 |>)).
Proof.
  intros E ([A B R C] & O & [U1 U2] & [P1 P2 P3 P4]).
  assert (N : forall d, count (holds_ticket d) (tasks w) = (count (holds_ticket d) (l1 ++ l2) + if holds_ticket d t then 1 else 0)%nat).
  { intros d. rewrite E. unfold count. rewrite !List.filter_app, !length_app. cbn. destruct (holds_ticket d t); cbn; lia. }
  split_and!; [split_and!; [by constructor|done|constructor|constructor]; cbn; try done| |].
  - intros d. specialize (U2 d). specialize (N d). lia.
  - intros x Hx. apply P3. rewrite E. set_solver.
  - apply P3. rewrite E. set_solver.
  - intros d Hd. specialize (U2 d). specialize (N d). unfold spare. cbn. rewrite Hd in N. lia.
Qed.
Lemma ends_silent {A} log w (m : act A) : ends w m (fun _ => Good log) (Good log) -> ends w m (fun a w' => Good (log ++ silent a w') w') (Good log).
Proof. intros H. eapply ends_weaken; [exact H| |done]. intros a w'. by rewrite app_nil_r. Qed.
Lemma auth_called log w A (m : act A) entries : called w A m entries -> Good log w -> ends w m (fun a w' => Good (log ++ entries a w') w') (Good log).
Proof.
  intros [] G.
  - by apply ends_create_key.
  - by apply ends_pair.
  - apply ends_silent. eapply ends_weaken; [by apply ends_authenticate_browser| |done]. by intros a w' [G' _].
  - by apply ends_revoke.
  - by apply ends_silent, ends_good; [apply calm_active|].
  - by apply ends_silent, ends_keep_alive.
  - by apply ends_create_ticket.
  - by apply ends_silent, ends_exchange.
  - apply ends_silent. eapply ends_weaken; [by apply ends_authenticate_route| |done]. by intros a w' [G' _].
  - by apply ends_silent, ends_good; [apply calm_connect|].
  - by apply ends_silent, ends_good; [apply calm_disconnect|].
  - by apply ends_silent, ends_good; [apply calm_list|].
  - by apply ends_silent, ends_good; [apply calm_recv|].
Qed.
Lemma auth_turn log w t A (m : act A) entries : turn t A m entries -> Good log w -> task_ok (secret w) log t -> (forall d, holds_ticket d t = true -> spare d log w) ->
  ends w m (fun a w' => Good (log ++ entries a w') w') (Good log).
Proof.
  intros [] G T Sp; [apply ends_silent; by eapply ends_insert_session| |apply ends_silent; by eapply ends_insert_grant].
  apply ends_check_parent; [done| |done]. apply Sp. cbn. by apply bool_decide_eq_true.
Qed.
Lemma Inv_after {A} log entries w evs (m : act A) : ends w m (fun a w' => Good (log ++ entries a w') w') (Good log) ->
  Inv (after log entries (m {| disk := w; events := evs |})).
Proof.
  intros H. destruct (H {| disk := w; events := evs |}) as [_ R]; [by apply Forall_true|done|]. unfold after.
  destruct (m _) as [[a|e|s] w']; cbn in *; [done|done|by apply Good_Down].
Qed.
Lemma Good_time log w t : Good log w -> Good log (w <| now := t |>).
Proof. by apply Good_same. Qed.
Lemma Down_time log w t : Down log w -> Down log (w <| now := t |>).
Proof. intros ([E|[k []]] & O & U); split_and!; [by left|done|done|right; exists k; by constructor|done|done]. Qed.
Lemma auth_step_keeps c c' : step c c' -> Inv c -> Inv c'.
Proof.
  intros [] I; unfold Inv in I; cbn in I.
  - destruct (auth_open log w I {| disk := w; events := evs |}) as [_ R]; [by apply Forall_true|done|]. unfold opened, Inv.
    destruct (open _ _ _) as [[a|e|s] w']; exact R.
  - by apply Inv_after, auth_called.
  - destruct (Good_drop _ _ _ _ _ H I) as (G & T & Sp). by eapply Inv_after, auth_turn.
  - by apply (Good_drop _ _ _ _ _ H I).
  - by apply Good_Down.
  - destruct b; [by apply Good_time|by apply Down_time].
Qed.
(** Nothing is stored at first; a key may be. *)
Definition first (w : World) : Prop := sessions w = ∅ /\ route_grants w = ∅.
Lemma history_Inv w0 c : first w0 -> rtc step (false, [], w0) c -> Inv c.
Proof.
  intros [S G] H. assert (I : Inv (false, [], w0)) by (split_and!; [by left|constructor; intros; set_solver|done]).
  revert I. induction H; eauto using auth_step_keeps.
Qed.

(** ** The theorems *)
(** C18: In any history of calls, requests that are dropped, failures, crashes and
    restarts, with a clock that can move in any direction, a browser is authenticated only
    with a cookie for a session that was issued to a browser for a pairing key created by
    the service, before that key expired, that was not revoked, and whose absolute
    lifetime is not over; the secret of the cookie has the digest of the issued one under
    the current key, and the session is not shown longer than that lifetime. *)
Theorem browser_authenticated w0 log w cookie evs a m : first w0 -> rtc step (false, [], w0) (true, log, w) ->
  authenticate_browser hmac decode max_timestamp config cookie {| disk := w; events := evs |} = (Ok a, m) ->
  exists key expires c given created, parse_cookie_token decode cookie = Ok (a_id a, given) /\ KeyCreated key expires ∈ log
    /\ Paired key (a_id a) c created ∈ log /\ created < expires /\ digest (secret w) (str "session") given = digest (secret w) (str "session") c
    /\ Revoked (a_id a) ∉ log /\ now w < created + absolute_session_lifetime config /\ a_expires_at a <= created + absolute_session_lifetime config.
Proof.
  intros F H E. pose proof (history_Inv _ _ F H) as G.
  destruct (ends_authenticate_browser log w cookie G {| disk := w; events := evs |}) as [_ R]; [by apply Forall_true|done|]. rewrite E in R.
  destruct R as (_ & c & given & until & P & (d & e & created & Pa & K & L & -> & Rv) & D & N & X). by exists d, e, c, given, created.
Qed.
(** C19: Likewise a request for a route is let through only with a cookie of a grant that was
    issued for that route, host name (in any case) and session, for a ticket the service
    created for the same session and route and a host name that is the same up to case,
    before that ticket expired; the session was issued for a pairing key and is not
    revoked; and the time shown, which is to come, is within both lifetimes. *)
Theorem route_authenticated w0 log w cookie route hostname evs a m : first w0 -> rtc step (false, [], w0) (true, log, w) ->
  authenticate_route hmac decode max_timestamp config cookie route hostname {| disk := w; events := evs |} = (Ok a, m) ->
  (exists i ticket expires h h' c given created, parse_raw_cookie_token decode cookie = Ok (i, given)
     /\ TicketCreated ticket (a_id a) route h expires ∈ log /\ Granted ticket i (a_id a) route h' c created ∈ log /\ created < expires
     /\ eq_ignore_ascii_case h h' = true /\ to_ascii_lowercase hostname = to_ascii_lowercase h'
     /\ digest (secret w) (str "route-grant") given = digest (secret w) (str "route-grant") c /\ a_expires_at a <= created + route_grant_lifetime config)
  /\ (exists key expires c created, KeyCreated key expires ∈ log /\ Paired key (a_id a) c created ∈ log /\ created < expires
     /\ a_expires_at a <= created + absolute_session_lifetime config)
  /\ Revoked (a_id a) ∉ log /\ now w < a_expires_at a.
Proof.
  intros F H E. pose proof (history_Inv _ _ F H) as G.
  destruct (ends_authenticate_route log w cookie route hostname G {| disk := w; events := evs |}) as [_ R]; [by apply Forall_true|done|]. rewrite E in R.
  destruct R as (_ & (i & given & c & until & P & (d & h & created & h' & e & Gr & Hn & Tc & Eq & L & ->) & D & X) & (c' & until' & (d' & e' & created' & Pa & K & L' & -> & Rv) & X') & N).
  split_and!; [|by exists d', e', c', created'|done|done]. by exists i, d, e, h', h, c, given, created.
Qed.
(** C20: However pairings and exchanges of tickets interleave, fail, or are cut off by
    crashes, no pairing key gives more sessions than the times it was created, no ticket
    more grants; and no more of them wait than the configured capacities. *)
Theorem capabilities_used_once w0 up log w : first w0 -> rtc step (false, [], w0) (up, log, w) ->
  (forall d, (count (uses_key d) log <= count (makes_key d) log)%nat /\ (count (uses_ticket d) log <= count (makes_ticket d) log)%nat)
  /\ (up = true -> (size (pairing_keys w) <= max_pending_pairing_keys config)%nat /\ (size (route_tickets w) <= max_pending_route_tickets config)%nat).
Proof.
  intros F H. pose proof (history_Inv _ _ F H) as I. destruct up; cbn in I.
  - split; [apply (Good_Down _ _ I)|]. intros _. apply I.
  - split; [apply I|done].
Qed.
End service.

(** ** A concrete history

    A pairing key, the browser that uses it, a ticket for a route, and the grant for it. *)
Module Demo.
Definition hmac (key message : bytes) : bytes := key ++ message.
Definition token (n : nat) : bytes := replicate 32 (65 + Z.of_nat n).
Definition generate_id (n : nat) : bytes := str "browser_session_" ++ replicate 22 (49 + Z.of_nat n).
Definition horizon : Z := 2 ^ 70.
Definition clock_text (t : Z) : bytes := [].
Definition config : AuthServiceConfig := {|
  external_secret_file := false; pairing_lifetime := 300 * NANOSECONDS; route_ticket_lifetime := 30 * NANOSECONDS; idle_session_lifetime := 7200 * NANOSECONDS;
  absolute_session_lifetime := 86400 * NANOSECONDS; session_touch_interval := 60 * NANOSECONDS; route_grant_lifetime := 3600 * NANOSECONDS;
  max_pending_pairing_keys := 4; max_pending_route_tickets := 4
|}.
Definition w0 : World := {|
  key_file := None; sessions := ∅; route_grants := ∅; secret := []; pairing_keys := ∅; route_tickets := ∅; active_connections := ∅; changes := 0; tasks := []; now := 0; generated := 0
|}.
Notation step := (step hmac Some token token generate_id horizon clock_text config).
Definition run {A} (c : state) (m : act A) : outcome AuthServiceError A * Machine World := m {| disk := c.2; events := [] |}.
Definition call {A} (c : state) (m : act A) (entries : A -> World -> list Entry) : state := after c.1.2 entries (run c m).
Definition resume {A} (c : state) (m : act A) (entries : A -> World -> list Entry) : state := call (c.1, c.2 <| tasks := [] |>) m entries.
Lemma call_step {A} c (m : act A) entries : c.1.1 = true -> called hmac Some token generate_id horizon clock_text config c.2 A m entries -> step c (call c m entries).
Proof. destruct c as [[up log] w]. cbn. intros -> C. unfold call, run. cbn. by eapply (step_call _ _ _ _ _ _ _ _ _ _ _ _ _ []). Qed.
Lemma resume_step {A} c t (m : act A) entries : c.1.1 = true -> tasks c.2 = [t] -> turn hmac token horizon config t A m entries -> step c (resume c m entries).
Proof. destruct c as [[up log] w]. cbn. intros -> E T. unfold resume, call, run. cbn. by eapply (step_task _ _ _ _ _ _ _ _ _ _ [] t []). Qed.
Definition c1 : state := opened [] (AuthService.open token config {| disk := w0; events := [] |}).
Definition c2 : state := call c1 (create_pairing_key hmac token horizon config None) (fun r w' => key_entry hmac w' r).
Definition pairing_key : bytes := str "tascarrel-pair-" ++ token 1.
Definition c3 : state := call c2 (pair_browser hmac token generate_id horizon config pairing_key (Some (str " Laptop ")) (str "http://host")) (fun _ w' => issued w').
Definition rest (c : state) : Task := default (CheckParent [] {| t_session_id := []; t_route_id := []; t_hostname := []; t_return_to := []; t_expires_at := 0 |} [] 0) (head (tasks c.2)).
Definition insertion (t : Task) : act CreatedBrowserSession := match t with InsertSession _ i s c => insert_session i s c | _ => raise Unavailable end.
Definition granting (t : Task) : act CreatedRouteGrant := match t with InsertGrant _ i g h c r => insert_route_grant i g c r | _ => raise Unavailable end.
Definition checking (t : Task) : act unit := match t with CheckParent d p h t => check_parent hmac token horizon config d p h t | _ => raise Unavailable end.
Definition c4 : state := resume c3 (insertion (rest c3)) silent.
Definition session : bytes := generate_id 2.
Definition route : bytes := str "preview".
Definition c5 : state := call c4 (create_route_ticket hmac token horizon config session route (str "Preview.Local") (str "/")) (ticket_entry hmac config session route (str "Preview.Local")).
Definition c6 : state := call c5 (exchange_route_ticket hmac (str "tascarrel-route-" ++ token 4) (str "preview.local")) silent.
Definition c7 : state := resume c6 (checking (rest c6)) (fun _ w' => issued w').
Definition c8 : state := resume c7 (granting (rest c7)) silent.
Definition cookie : bytes := session ++ str "." ++ token 3.
Definition route_cookie : bytes := token 5 ++ str "." ++ token 6.
Lemma insertion_turn t : match t with InsertSession _ _ _ _ => True | _ => False end -> turn hmac token horizon config t _ (insertion t) silent.
Proof. destruct t; try done. constructor. Qed.
Lemma checking_turn t : match t with CheckParent _ _ _ _ => True | _ => False end -> turn hmac token horizon config t _ (checking t) (fun _ w' => issued w').
Proof. destruct t; try done. constructor. Qed.
Lemma granting_turn t : match t with InsertGrant _ _ _ _ _ _ => True | _ => False end -> turn hmac token horizon config t _ (granting t) silent.
Proof. destruct t; try done. constructor. Qed.
Lemma paired : rtc step (false, [], w0) c4.
Proof.
  apply rtc_r with c3; [apply rtc_r with c2; [apply rtc_r with c1; [apply rtc_once; unfold c1; apply step_open|]|]|].
  - unfold c2. apply call_step; [by vm_compute|apply called_create_key].
  - unfold c3. apply call_step; [by vm_compute|apply called_pair].
  - unfold c4. apply (resume_step c3 (rest c3)); [by vm_compute|by vm_compute|apply insertion_turn; by vm_compute].
Qed.
Lemma granted_ : rtc step (false, [], w0) c8.
Proof.
  apply rtc_r with c7; [apply rtc_r with c6; [apply rtc_r with c5; [apply rtc_r with c4; [exact paired|]|]|]|].
  - unfold c5. apply call_step; [by vm_compute|apply called_ticket].
  - unfold c6. apply call_step; [by vm_compute|apply called_exchange].
  - unfold c7. apply (resume_step c6 (rest c6)); [by vm_compute|by vm_compute|apply checking_turn; by vm_compute].
  - unfold c8. apply (resume_step c7 (rest c7)); [by vm_compute|by vm_compute|apply granting_turn; by vm_compute].
Qed.
Lemma up_state (c : state) : c.1.1 = true -> c = (true, c.1.2, c.2).
Proof. destruct c as [[up log] w]. by intros [= ->]. Qed.
Lemma ok_run {A} (r : outcome AuthServiceError A * Machine World) a : r.1 = Ok a -> r = (Ok a, r.2).
Proof. destruct r. by intros [= ->]. Qed.
Definition signed_in : AuthenticatedSession := {| a_id := session; a_origin := str "http://host"; a_expires_at := 7200 * NANOSECONDS |}.
Definition let_through : AuthenticatedSession := {| a_id := session; a_origin := str "http://host"; a_expires_at := 3600 * NANOSECONDS |}.
(** A stop while the key is written makes every later start fail. *)
Definition torn : World := disk (AuthService.open token config {| disk := w0; events := [Runs; Runs; Runs; Stops []] |}).2.
Lemma torn_key : is_ok (AuthService.open token config {| disk := torn; events := [] |}).1 = false.
Proof. by vm_compute. Qed.
End Demo.
Import Demo.
Lemma browser_authenticated_witness : (run c4 (authenticate_browser hmac Some horizon config cookie)).1 = Ok signed_in
  /\ exists key expires c created, KeyCreated key expires ∈ c4.1.2 /\ Paired key session c created ∈ c4.1.2 /\ created < expires
    /\ now c4.2 < created + absolute_session_lifetime config.
Proof.
  assert (E : (run c4 (authenticate_browser hmac Some horizon config cookie)).1 = Ok signed_in) by by vm_compute.
  split; [exact E|]. pose proof paired as H. rewrite (up_state c4) in H by by vm_compute.
  destruct (browser_authenticated _ _ _ _ _ _ _ _ w0 _ _ _ _ _ _ (conj eq_refl eq_refl) H (ok_run _ _ E)) as (key & expires & c & given & created & _ & K & P & L & _ & _ & N & _).
  exists key, expires, c, created. exact (conj K (conj P (conj L N))).
Defined.
Lemma route_authenticated_witness : (run c8 (authenticate_route hmac Some horizon config route_cookie route (str "PREVIEW.local"))).1 = Ok let_through
  /\ exists key expires c created, KeyCreated key expires ∈ c8.1.2 /\ Paired key session c created ∈ c8.1.2 /\ created < expires.
Proof.
  assert (E : (run c8 (authenticate_route hmac Some horizon config route_cookie route (str "PREVIEW.local"))).1 = Ok let_through) by by vm_compute.
  split; [exact E|]. pose proof granted_ as H. rewrite (up_state c8) in H by by vm_compute.
  destruct (route_authenticated _ _ _ _ _ _ _ _ w0 _ _ _ _ _ _ _ _ (conj eq_refl eq_refl) H (ok_run _ _ E)) as (_ & (key & expires & c & created & K & P & L & _) & _).
  exists key, expires, c, created. exact (conj K (conj P L)).
Defined.
Lemma capabilities_used_once_witness : length c8.1.2 = 4%nat /\ forall d, (count (uses_key d) c8.1.2 <= count (makes_key d) c8.1.2)%nat.
Proof.
  split; [by vm_compute|]. intros d. pose proof granted_ as H. rewrite (up_state c8) in H by by vm_compute.
  destruct (capabilities_used_once _ _ _ _ _ _ _ _ w0 _ _ _ (conj eq_refl eq_refl) H) as [U _]. exact (proj1 (U d)).
Defined.
